(* ===== verification/_CoqProject ===== *)
-Q . S2P
Prelude.v
BTreeMap.v
Codec.v
Layout.v
Geometry.v
AbRecord.v
Metadata.v
Superblock.v
JournalFormat.v
Backing.v
Provider.v
Breaker.v
CrashBacking.v
AbStore.v
FixedCopy.v
DurableProof.v
JournalWriter.v
JournalProof.v
JournalDurability.v
RecoveryScan.v
Volumes.v
JournalScan.v
SlotStore.v
Recovery.v
StoreData.v
Adopt.v
StoreProof.v
StoreReads.v
StoreOpen.v
StoreRuns.v
Overlay.v
Volume.v
VolumeState.v
VolumeOps.v
VolumeCheckpoint.v
Replay.v
Attach.v
VolumeRuns.v
AttachRuns.v
Cache.v
Tasks.v
Engine.v
EngineLocks.v
EngineBytes.v
EngineProof.v
EngineRuns.v
EngineSample.v
SelfTest.v
EngineAttach.v
EngineAttachSample.v
