(* ===== verification/Prelude.v ===== *)
(** * Maki: a verification library for the crash-consistent block store

    Maki keeps an encrypted virtual disk in a directory of ordinary files.
    A write is encrypted, appended to an ordered journal and acknowledged
    once a barrier has made the journal durable; a checkpoint later moves the
    ciphertext into fixed slots of shard files and deletes the journal
    segments it covers; recovery rebuilds the state from what a crash left.
    An engine on top runs many requests at once against encryption providers.
    This library models that path in Rocq as shallowly embedded functions and
    proves what makes it correct.

    ** The parts and the files that model them

    - Prelude (this file): machine integers as [Z] with their widths written
      out, results and errors, byte lists, shared lemmas, hint databases.
      BTreeMap: the ordered-map operations the sources use, on [gmap].
    - Codec (maki-format/src/codec.rs, error.rs): the little-endian reader and
      writer and the checksum trailer.  The CRC is a class; [Ieee] is the
      reflected CRC-32.
    - Layout (lib.rs, [layout]): file names and their parsers.
      Geometry (geometry.rs): sizes, slot addressing, overflow.
      AbRecord and Metadata (slot.rs, allocation.rs, catalog.rs, checkpoint.rs,
      canary.rs): the metadata records.  Superblock (superblock.rs): the two
      superblock encodings.  JournalFormat (journal.rs of maki-format): record
      and segment framing, the in-memory scanner, the footprint arithmetic.
    - Backing (maki-backing/src/lib.rs, path.rs): the traits [Backing] and
      [BackingFile] as operations on a world, and the class [BackingLaws], the
      durability contract everything above is proved against: what a path
      shows, what the next sync persists, what survives every crash.
      CrashBacking (maki-test-support/src/crash_backing.rs): the fault and
      crash model of the test suite, an instance of the contract.
    - AbStore (ab.rs): two-copy metadata replacement.  FixedCopy and
      DurableProof (durable_proof.rs): the durable horizon.  Volumes
      (superblock.rs from [read_volume_copy], init.rs): loading and creating a
      volume.
    - JournalWriter (maki-core/src/journal.rs): the journal writer, its
      operations on the pair of writer and world.  JournalProof: its invariant
      [writer_ok] and the specification of every operation under any fault.
      JournalDurability: what follows for runs and crashes.
    - RecoveryScan (maki-core/src/recovery_scan.rs): the streaming segment
      scanner.  JournalScan (maki-core/src/recovery.rs): the journal scan of
      recovery and its summary.  Recovery (the rest of recovery.rs): adoption
      of the accepted journal, replay into the slots, the resumed writer.
      Adopt, Replay and Attach: what adoption and replay leave, and that an
      attached volume satisfies the invariant of the volume; AttachRuns: a
      volume through a crash.
    - SlotStore (maki-core/src/store.rs): shard files, the allocation and
      discard maps, the catalog, checkpoint plans, reclamation.  StoreData: its
      invariant [sound] and what a unit shows; StoreProof: every operation
      keeps it under any fault; StoreReads: reads; StoreOpen: opening;
      StoreRuns: runs, crashes and the claims.
    - Overlay (maki-core/src/overlay.rs): the versions not yet in slots.
    - Volume (maki-core/src/volume.rs): the volume, which composes journal,
      overlay, slot store and checkpoint record.  VolumeState: its invariant
      [volume_ok] and the contents a reader sees ([vol_view]); VolumeOps:
      write, discard, flush, read, reclamation; VolumeCheckpoint: the pieces of
      a checkpoint; VolumeRuns: the step relation in which requests run
      between the pieces of a checkpoint, and its refinement.
    - Cache (maki-cache/src/lib.rs): the plaintext cache.
    - Provider (maki-crypto/src/types.rs, error.rs, provider.rs, checked.rs):
      the provider trait as a class, the checked provider with its validation
      and its search for leaked plaintext.  Breaker (breaker.rs): the circuit
      breaker.
    - Tasks: requests as tasks with their sections, unit locks and the
      checkpoint gate, pools that interleave them, a rely-guarantee logic and
      the absence of deadlocks under ordered locking.  Engine
      (maki-core/src/engine.rs): reads, writes, trims, flushes, checkpoints
      and worker passes as tasks.  EngineLocks: they finish.  EngineBytes:
      bytes and units.  EngineProof: every section against a ghost state, the
      plaintext of every version and of the device.  EngineRuns: the history
      of the device and the promise of every request.  EngineSample: two
      requests on one unit.
    - SelfTest (maki-crypto/src/selftest.rs): the test a provider passes
      before a volume attaches, and the batches of provider calls.
      EngineAttach (engine.rs, [attach_recovered], [verify_key_canary]): the
      checks of an attach, the key canary and the engine that comes out;
      EngineAttachSample: a volume is given its canary, written and attached,
      loses power and meets the same and another key.

    ** How programs are modelled

    A fallible function returns [result]; one that does I/O is a function
    [M W E A] from a world to a result and the world after it, which keeps
    what it changed when it fails.  A stateful object threads its record
    beside the world ([M (JournalWriter * W)]).  Definitions are executable,
    so the witnesses run them by computation on CrashBacking.

    Loops whose recursion is not structural carry fuel.  The in-memory
    scanner gets one more than the bytes of its buffer ([scan_total] shows it
    never runs out); the streaming scanner gets one round more than record
    headers fit in the body, and [RecDiverge] marks a run that would need
    more ([scan_terminates] excludes it); chunked reads and rewrites get the
    number of chunks or bytes in the range, and their lemmas show that the
    whole range is covered.

    Code outside the repository is a class with the laws the sources rely on:
    the stream hasher ([HasherLaws]: the fingerprint of a stream does not
    depend on its pieces, which the standard hasher does and its
    documentation does not promise), the CRC, and the encryption provider
    behind the engine ([CipherLaws]: what encryption returned decrypts to
    what was encrypted, whenever the answers have the right shape).

    A request of the engine is a [task]: between two sections any other
    request, the clock, a resize of the cache or a panic may come.  A section
    that holds the volume lock is one step; a read of several units under the
    shared lock, with its looks at the cache, is one too.

    ** What the theorems show

    - Engine: any number of concurrent requests behave as one device
      ([engine_linearizable]), and they all finish ([requests_finish]).  An
      attach that succeeds starts the device on the plaintext of what the
      recovered volume holds ([attach_ready]) and binds the volume to its key
      across crashes ([canary_binds_key]); the
      calls of the provider stay within its limits ([batches_admissible]).
    - Attach: a recovered volume satisfies the invariant and shows the newest
      accepted records ([recover_sound]), among them every acknowledged one
      ([acknowledged_attached]).
    - Providers: answers of the wrong shape or with plaintext inside never
      pass ([checked_shape], [contains_exact]); the circuit breaker counts its
      probes exactly and is never wedged ([breaker_sound]).
    - Durability: records acknowledged by a barrier survive every later
      failure, deletion below them and crash ([acknowledged_survive]), and a
      recovery scan that succeeds replays them ([acknowledged_replayed]); what
      an append, a barrier and a deletion mean on every outcome
      ([append_exact], [sync_acknowledges], [delete_only_covered]); a barrier
      succeeds once I/O works again and the proof files admit its horizon
      ([sync_recovers]).
    - Metadata: two-copy stores never regress and are durable when they
      return, the durable horizon never regresses, volume creation is atomic,
      superblock selection never downgrades.
    - Formats: round trips, canonical decoding, soundness and completeness of
      both scanners and their agreement up to a record with the last sequence
      number, exact footprint projection.
    - Addressing: slots never overlap or overflow.
    - Slot store: maps, catalog and files agree in every reachable state
      ([store_invariant]); a synced slot and a slot of a finished checkpoint
      plan survive every later failure and crash ([synced_slot_survives],
      [plan_slot_survives]); reads are exact and safe ([read_slot_exact],
      [read_slot_safe]); reclamation is invisible.
    - Volume: in every run of requests and checkpoint pieces, each with any
      outcome, reads return what a sequence-stamped map of units returns
      ([volume_refines]); the sanitizer never fires ([volume_sanitizer]); a
      checkpoint changes nothing a reader sees and, when it succeeds, moves
      everything flushed into the slots ([checkpoint_exact]).
    - In-memory state: the overlay refines a log, the cache stays within its
      budget and returns only what was put, their sanitizers hold.

    ** The backing contract

    [BackingLaws] speaks of three things per path: the bytes shown, the bytes
    the next sync would persist, and ranges that every crash state agrees on.
    Ranges can be pinned by a data sync, a write elsewhere leaves them pinned,
    and a file created by a call is new in every crash state.  Every method of
    the traits is one of the class, [allocate_range] and [sync_all] too, which
    a backing may override: their laws say what their callers rely on, and
    the traits' own bodies are [default_allocate_range] and
    [default_sync_all].  CrashBacking
    proves the whole contract for the fault model of the test suite, so no
    theorem rests on a contract without a model.

    ** Not modelled

    Of the engine: waiting for admission permits, statistics and latencies
    and wake-ups of the worker.  The provider conformance suite of the tests,
    the offline checkers, configuration parsing, the file and
    in-memory backings (system calls; the contract they are used through is
    modelled), the rollback witness, the ciphers and network transports with
    their pool, the control plane, the NBD plugin and the binaries.  Message
    texts of errors, log lines, failpoints of test builds and zeroization are
    left out of the modelled parts.

    ** Plan

    Next: the offline checkers and the retry logic of the crypto pool. *)

From Stdlib Require Export Lia ZArith Ascii String.
From stdpp Require Export base list gmap strings numbers.
From coqutil Require Export Byte.
From coqutil Require Import Word.LittleEndianList.

Local Open Scope Z_scope.

(** ** Machine integers

    Every Rust integer is a [Z]; the width is written out where the code
    checks, saturates or wraps. *)

Definition U32_MAX : Z := 2 ^ 32 - 1.
Definition U64_MAX : Z := 2 ^ 64 - 1.
Definition I64_MAX : Z := 2 ^ 63 - 1.
Definition U128_MAX : Z := 2 ^ 128 - 1.

Definition u8_ok (x : Z) : Prop := 0 ≤ x < 2 ^ 8.
Definition u16_ok (x : Z) : Prop := 0 ≤ x < 2 ^ 16.
Definition u32_ok (x : Z) : Prop := 0 ≤ x < 2 ^ 32.
Definition u64_ok (x : Z) : Prop := 0 ≤ x < 2 ^ 64.

#[global] Instance u32_ok_dec x : Decision (u32_ok x).
Proof. unfold u32_ok; apply _. Defined.
#[global] Instance u64_ok_dec x : Decision (u64_ok x).
Proof. unfold u64_ok; apply _. Defined.

(** [u64::checked_add], [checked_sub], [checked_mul]. *)
Definition checked_add (a b : Z) : option Z :=
  if a + b <=? U64_MAX then Some (a + b) else None.
Definition checked_sub (a b : Z) : option Z :=
  if b <=? a then Some (a - b) else None.
Definition checked_mul (a b : Z) : option Z :=
  if a * b <=? U64_MAX then Some (a * b) else None.

(** [u64::saturating_add], [saturating_sub], [saturating_mul]. *)
Definition saturating_add (a b : Z) : Z := Z.min (a + b) U64_MAX.
Definition saturating_sub (a b : Z) : Z := Z.max (a - b) 0.
Definition saturating_mul (a b : Z) : Z := Z.min (a * b) U64_MAX.

(** [+=] and [-=] on [u64] as release builds compile them. *)
Definition add64 (a b : Z) : Z := (a + b) mod 2 ^ 64.
Definition sub64 (a b : Z) : Z := (a - b) mod 2 ^ 64.

(** [u64::div_ceil] and [is_multiple_of] for a positive divisor; both are
    total in Rust only for a nonzero divisor ([is_multiple_of] by zero is
    [self == 0], which Rocq's [mod 0] also gives). *)
Definition div_ceil (a b : Z) : Z := a / b + (if a mod b =? 0 then 0 else 1).
Definition is_multiple_of (a b : Z) : bool := a mod b =? 0.

Ltac unfold_int :=
  unfold checked_add, checked_sub, checked_mul, saturating_add, saturating_sub,
    saturating_mul, U32_MAX, U64_MAX, I64_MAX, u8_ok, u16_ok, u32_ok, u64_ok in *.

(** ** Errors and results *)

(** [std::io::ErrorKind], as far as the sources dispatch on it; any other
    kind carries its errno. *)
Inductive ErrorKind :=
| NotFound | UnexpectedEof | InvalidInput | WouldBlock | IoUnsupported
| OtherIo (errno : Z).

#[global] Instance ErrorKind_eq_dec : EqDecision ErrorKind.
Proof. solve_decision. Defined.

Inductive result (E A : Type) : Type :=
| Ok (a : A)
| Err (e : E).
Arguments Ok {E A} a.
Arguments Err {E A} e.

Definition rbind {E A B} (m : result E A) (k : A → result E B) : result E B :=
  match m with Ok a => k a | Err e => Err e end.

(** [Result::map_err], [Option::ok_or_else], [Result::ok]. *)
Definition map_err {E F A} (f : E → F) (m : result E A) : result F A :=
  match m with Ok a => Ok a | Err e => Err (f e) end.
Definition ok_or {E A} (o : option A) (e : E) : result E A :=
  match o with Some a => Ok a | None => Err e end.
Definition to_option {E A} (m : result E A) : option A :=
  match m with Ok a => Some a | Err _ => None end.
Definition is_ok {E A} (m : result E A) : bool :=
  match m with Ok _ => true | Err _ => false end.

Declare Scope result_scope.
Delimit Scope result_scope with res.
Notation "'let?' x := c 'in' k" := (rbind c (λ x, k))
  (at level 10, x binder, c at level 100, k at level 200,
   format "'[v' 'let?'  x  :=  c  'in' '/' k ']'") : result_scope.
(** An early return: [if b { return Err(e) }]. *)
Notation "'guard?' b 'else' e 'in' k" := (if b then k else Err e)
  (at level 10, b at level 100, e at level 100, k at level 200,
   format "'[v' 'guard?'  b  'else'  e  'in' '/' k ']'") : result_scope.
Open Scope result_scope.

#[global] Instance result_eq_dec {E A} `{EqDecision E, EqDecision A} :
  EqDecision (result E A).
Proof. solve_decision. Defined.

Lemma rbind_ok {E A B} (m : result E A) (k : A → result E B) b :
  rbind m k = Ok b ↔ ∃ a, m = Ok a ∧ k a = Ok b.
Proof. destruct m; simpl; naive_solver. Qed.

Lemma ok_or_ok {E A} (o : option A) (e : E) a :
  ok_or o e = Ok a ↔ o = Some a.
Proof. destruct o; simpl; naive_solver. Qed.

(** Break a hypothesis [m = Ok _] built from binds, guards and options into
    its successful steps. *)
Ltac inv_res :=
  repeat match goal with
  | H : rbind ?m ?k = Ok _ |- _ =>
      apply rbind_ok in H; let a := fresh "v" in let Ha := fresh "Hv" in
      destruct H as (a & Ha & H); simpl in H
  | H : ok_or ?o ?e = Ok _ |- _ => apply ok_or_ok in H
  | H : Ok _ = Ok _ |- _ => injection H as H
  | H : Err _ = Ok _ |- _ => discriminate H
  | H : Some _ = None |- _ => discriminate H
  | H : (if ?b then _ else _) = Ok _ |- _ =>
      let Hb := fresh "Hb" in destruct b eqn:Hb; [| discriminate H]
  | H : (if ?b then _ else _) = Ok _ |- _ =>
      let Hb := fresh "Hb" in destruct b eqn:Hb; [discriminate H |]
  end.

(** ** Bytes *)

Abbreviation bytes := (list byte).

#[global] Instance byte_eq_decision : EqDecision byte := Byte.byte_eq_dec.

Definition bytes_eqb (a b : bytes) : bool := bool_decide (a = b).

Definition zeros (n : nat) : bytes := replicate n Byte.x00.

(** [iter().all(|b| b == 0)]. *)
Definition all_zero (l : bytes) : bool := forallb (Byte.eqb Byte.x00) l.

(** [blen l] is the Rust [len()] of a byte slice. *)
Definition blen {A} (l : list A) : Z := Z.of_nat (length l).

(** [buf[lo..hi]]. *)
Definition slice (l : bytes) (lo hi : nat) : bytes := take (hi - lo) (drop lo l).

(** [to_le_bytes] at width [n] bytes (an [as] cast to that width truncates,
    which is what [le_split] does) and [from_le_bytes]. *)
Definition to_le (n : nat) (v : Z) : bytes := le_split n v.
Definition from_le (l : bytes) : Z := le_combine l.

Arguments to_le : simpl never.
Arguments from_le : simpl never.

Lemma length_to_le n v : length (to_le n v) = n.
Proof. apply length_le_split. Qed.

Lemma from_to_le n v : 0 ≤ v < 2 ^ (Z.of_nat n * 8) → from_le (to_le n v) = v.
Proof. intros. unfold from_le, to_le. rewrite le_combine_split. by apply Z.mod_small. Qed.

Lemma from_to_le_wrap n v : from_le (to_le n v) = v mod 2 ^ (Z.of_nat n * 8).
Proof. apply le_combine_split. Qed.

Lemma to_from_le l n : length l = n → to_le n (from_le l) = l.
Proof. apply split_le_combine'. Qed.

Lemma from_le_range l : 0 ≤ from_le l < 2 ^ (8 * blen l).
Proof. apply le_combine_bound. Qed.

(** Reasoning goes through the lemmas above; evaluation is not affected. *)
#[global] Opaque to_le from_le.

Lemma blen_nonneg {A} (l : list A) : 0 ≤ blen l.
Proof. unfold blen; lia. Qed.

Lemma blen_app {A} (l k : list A) : blen (l ++ k) = blen l + blen k.
Proof. unfold blen. rewrite length_app. lia. Qed.

Lemma bytes_eqb_eq a b : bytes_eqb a b = true ↔ a = b.
Proof. unfold bytes_eqb. apply bool_decide_eq_true. Qed.

Lemma bytes_eqb_refl a : bytes_eqb a a = true.
Proof. by apply bytes_eqb_eq. Qed.

Lemma length_zeros n : length (zeros n) = n.
Proof. apply length_replicate. Qed.

Lemma all_zero_zeros n : all_zero (zeros n) = true.
Proof. unfold zeros. induction n; simpl; [done|]. by rewrite IHn. Qed.

Lemma all_zero_spec l : all_zero l = true ↔ l = zeros (length l).
Proof.
  induction l as [|b l IH]; simpl; [done|].
  rewrite andb_true_iff, IH. unfold zeros. simpl.
  split.
  - intros [Hb ->]. apply Byte.byte_dec_bl in Hb. rewrite length_replicate. congruence.
  - intros [= Hb Hl]. split; [by rewrite Hb; apply Byte.byte_dec_lb|].
    by rewrite Hl at 1.
Qed.

Lemma slice_take l n lo hi : (hi ≤ n)%nat → slice (take n l) lo hi = slice l lo hi.
Proof.
  intros Hn. unfold slice. rewrite skipn_firstn_comm, take_take.
  f_equal. lia.
Qed.

(** A slice at a known offset of a concatenation. *)
Lemma slice_app_mid a b c lo hi :
  length a = lo → length b = (hi - lo)%nat → slice (a ++ b ++ c) lo hi = b.
Proof.
  intros <- Hb. unfold slice. by rewrite drop_app_length, <- Hb, take_app_length.
Qed.

(** ** Hint databases of the development *)

(** [codec] composes parsers with their printers; [maki] holds the small
    facts the component files use without naming them. *)
Create HintDb codec.
Create HintDb maki.
Create Rewrite HintDb blen.
#[export] Hint Resolve blen_nonneg : maki.
#[export] Hint Rewrite @length_app @length_take @length_drop length_to_le
  length_zeros @length_replicate : blen.

(** Length goals over appended and padded byte lists. *)
Ltac len_tac := autorewrite with blen; try lia.

(** Case analysis on the boolean comparison that decides the goal or a
    hypothesis. *)
Ltac zcase :=
  match goal with
  | |- context [if ?a <=? ?b then _ else _] => destruct (Z.leb_spec a b)
  | |- context [if ?a <? ?b then _ else _] => destruct (Z.ltb_spec a b)
  | |- context [if ?a =? ?b then _ else _] => destruct (Z.eqb_spec a b)
  | H : context [if ?a <=? ?b then _ else _] |- _ => destruct (Z.leb_spec a b)
  | H : context [if ?a <? ?b then _ else _] |- _ => destruct (Z.ltb_spec a b)
  | H : context [if ?a =? ?b then _ else _] |- _ => destruct (Z.eqb_spec a b)
  end.

(** ** Shared arithmetic *)

Lemma checked_add_some a b c :
  checked_add a b = Some c ↔ c = a + b ∧ a + b ≤ U64_MAX.
Proof. unfold checked_add. zcase; naive_solver lia. Qed.

Lemma checked_mul_some a b c :
  checked_mul a b = Some c ↔ c = a * b ∧ a * b ≤ U64_MAX.
Proof. unfold checked_mul. zcase; naive_solver lia. Qed.

Lemma checked_sub_some a b c :
  checked_sub a b = Some c ↔ c = a - b ∧ b ≤ a.
Proof. unfold checked_sub. zcase; naive_solver lia. Qed.

Lemma add64_small a b : 0 ≤ a → 0 ≤ b → a + b ≤ U64_MAX → add64 a b = a + b.
Proof. intros. unfold add64. apply Z.mod_small. unfold U64_MAX in *. lia. Qed.

Lemma sub64_small a b : 0 ≤ b ≤ a → a ≤ U64_MAX → sub64 a b = a - b.
Proof. intros. unfold sub64. apply Z.mod_small. unfold U64_MAX in *. lia. Qed.

Lemma saturating_sub_exact a b : b ≤ a → saturating_sub a b = a - b.
Proof. unfold saturating_sub. lia. Qed.

Lemma div_ceil_spec a b :
  0 < b → b * (div_ceil a b - 1) < a ≤ b * div_ceil a b.
Proof.
  intros Hb. unfold div_ceil.
  pose proof (Z.div_mod a b ltac:(lia)). pose proof (Z.mod_pos_bound a b Hb).
  destruct (Z.eqb_spec (a mod b) 0); nia.
Qed.

Lemma div_ceil_nonneg a b : 0 ≤ a → 0 < b → 0 ≤ div_ceil a b.
Proof. intros. unfold div_ceil. pose proof (Z.div_pos a b). destruct (_ =? _); lia. Qed.

Lemma is_multiple_of_spec a b :
  b ≠ 0 → is_multiple_of a b = true ↔ (b | a).
Proof. intros. unfold is_multiple_of. rewrite Z.eqb_eq. by apply Z.mod_divide. Qed.
