(* ===== verification/BTreeMap.v ===== *)
(** * BTreeMap: ordered maps keyed by [u64]

    The sources keep per-unit and per-sequence state in [BTreeMap<u64, _>].
    The content is a [gmap]; what depends on the order (iteration,
    [first_key_value], [range]) goes through the ascending list of keys.
    The last part sums a weight over a map, which is how byte accounting is
    stated. *)

From S2P Require Import Prelude.
From stdpp Require Import sorting.

Local Open Scope Z_scope.

Section Ordered.
Context {A : Type}.
Implicit Types (m : gmap Z A).

(** The keys in iteration order. *)
Definition sorted_keys m : list Z := merge_sort Z.le (elements (dom m)).

(** [iter()]. *)
Definition entries m : list (Z * A) := omap (λ k, pair k <$> m !! k) (sorted_keys m).

(** [first_key_value()]. *)
Definition first_key_value m : option (Z * A) := head (entries m).

Lemma elem_of_sorted_keys m k : k ∈ sorted_keys m ↔ is_Some (m !! k).
Proof.
  unfold sorted_keys. rewrite (merge_sort_Permutation Z.le), elem_of_elements. apply elem_of_dom.
Qed.

Lemma NoDup_sorted_keys m : NoDup (sorted_keys m).
Proof. unfold sorted_keys. rewrite (merge_sort_Permutation Z.le). apply NoDup_elements. Qed.

#[global] Instance Z_le_total : Total Z.le.
Proof. intros x y. lia. Qed.

Lemma StronglySorted_sorted_keys m : StronglySorted Z.le (sorted_keys m).
Proof. apply (StronglySorted_merge_sort Z.le). Qed.

Lemma elem_of_entries m k a : (k, a) ∈ entries m ↔ m !! k = Some a.
Proof.
  unfold entries. rewrite list_elem_of_omap. split.
  - intros (k' & _ & Hk). apply fmap_Some in Hk as (a' & Hm & [= -> ->]). done.
  - intros Hm. exists k. rewrite elem_of_sorted_keys, Hm. done.
Qed.

Lemma entries_keys m : (entries m).*1 = sorted_keys m.
Proof.
  unfold entries. assert (∀ l, (∀ k, k ∈ l → is_Some (m !! k)) →
    (omap (λ k, pair k <$> m !! k) l).*1 = l) as Hgen.
  { induction l as [|k l IH]; intros Hl; [done|]. simpl.
    destruct (Hl k ltac:(set_solver)) as [a ->]. simpl. f_equal. apply IH. set_solver. }
  apply Hgen. intros k. by rewrite elem_of_sorted_keys.
Qed.

Lemma first_key_value_some m k a :
  first_key_value m = Some (k, a) → m !! k = Some a ∧ ∀ k', is_Some (m !! k') → k ≤ k'.
Proof.
  unfold first_key_value. destruct (entries m) as [|p l] eqn:He; [done|]. simpl. intros [= ->].
  split.
  - apply elem_of_entries. rewrite He. set_solver.
  - intros k' Hk'. pose proof (StronglySorted_sorted_keys m) as Hs.
    apply elem_of_sorted_keys in Hk'. rewrite <- entries_keys, He in Hs, Hk'. simpl in *.
    apply StronglySorted_inv in Hs as [_ Hs]. rewrite list.Forall_forall in Hs.
    apply elem_of_cons in Hk' as [->|Hk']; [lia|]. by apply Hs.
Qed.

Lemma first_key_value_none m : first_key_value m = None → m = ∅.
Proof.
  unfold first_key_value. destruct (entries m) as [|p l] eqn:He; [|done]. intros _.
  apply map_eq. intros k. rewrite lookup_empty. destruct (m !! k) as [a|] eqn:Hk; [|done].
  apply elem_of_entries in Hk. rewrite He in Hk. set_solver.
Qed.

(** ** Sums over a map *)

Definition msum (f : A → Z) m : Z := map_fold (λ _ a acc, f a + acc) 0 m.

Lemma msum_empty f : msum f (∅ : gmap Z A) = 0.
Proof. apply map_fold_empty. Qed.

Lemma msum_insert f m k a : m !! k = None → msum f (<[k:=a]> m) = f a + msum f m.
Proof.
  intros Hk. unfold msum. rewrite map_fold_insert_L; [done| |done]. intros. lia.
Qed.

Lemma msum_delete f m k a : m !! k = Some a → msum f m = f a + msum f (delete k m).
Proof.
  intros Hk. rewrite <- (insert_delete_id m k a Hk) at 1. apply msum_insert, lookup_delete_eq.
Qed.

Lemma msum_replace f m k a b : m !! k = Some a → msum f (<[k:=b]> m) = msum f m - f a + f b.
Proof.
  intros Hk. rewrite (msum_delete f m k a Hk). rewrite <- insert_delete_eq, msum_insert
    by apply lookup_delete_eq. lia.
Qed.

Lemma msum_nonneg f m : (∀ a, 0 ≤ f a) → 0 ≤ msum f m.
Proof.
  intros Hf. induction m as [|k a m Hk IH] using map_ind; [by rewrite msum_empty|].
  rewrite msum_insert by done. specialize (Hf a). lia.
Qed.

Lemma msum_le f m k a : (∀ a, 0 ≤ f a) → m !! k = Some a → f a ≤ msum f m.
Proof.
  intros Hf Hk. rewrite (msum_delete f m k a Hk). pose proof (msum_nonneg f (delete k m) Hf). lia.
Qed.

Lemma msum_mono f g m : (∀ a, f a ≤ g a) → msum f m ≤ msum g m.
Proof.
  intros Hf. induction m as [|k a m Hk IH] using map_ind; [by rewrite !msum_empty|].
  rewrite !msum_insert by done. specialize (Hf a). lia.
Qed.

Lemma entries_Permutation m : entries m ≡ₚ map_to_list m.
Proof.
  apply NoDup_Permutation.
  - apply (NoDup_fmap_1 fst). rewrite entries_keys. apply NoDup_sorted_keys.
  - apply NoDup_map_to_list.
  - intros [k a]. by rewrite elem_of_entries, elem_of_map_to_list.
Qed.

(** The sum in iteration order. *)
Lemma msum_entries f m : msum f m = foldr (λ ka acc, f ka.2 + acc) 0 (entries m).
Proof.
  assert (∀ l k : list (Z * A), l ≡ₚ k →
    foldr (λ ka acc, f ka.2 + acc) 0 l = foldr (λ ka acc, f ka.2 + acc) 0 k) as Hp.
  { induction 1; simpl; lia. }
  unfold msum. rewrite map_fold_foldr, (Hp _ _ (entries_Permutation m)).
  induction (map_to_list m) as [|[k a] l IH]; simpl; [done|]. by rewrite IH.
Qed.
End Ordered.

Lemma msum_omap {A B} (f : B → Z) (g : A → option B) (m : gmap Z A) :
  msum f (omap g m) = msum (λ a, match g a with Some b => f b | None => 0 end) m.
Proof.
  induction m as [|k a m Hk IH] using map_ind; [by rewrite omap_empty, !msum_empty|].
  assert (omap g m !! k = None) as Hk' by (by rewrite lookup_omap, Hk).
  rewrite msum_insert by done. destruct (g a) as [b|] eqn:Hg.
  - rewrite (omap_insert_Some _ _ _ _ b) by done. rewrite msum_insert by done. lia.
  - rewrite omap_insert_None by done. rewrite delete_id by done. lia.
Qed.
