(* ===== verification/Codec.v ===== *)
(** * Codec: the bounds-checked little-endian byte codec
    (crates/maki-format/src/codec.rs, error.rs)

    [Reader] and [Writer] with their operations, the trailing checksum, and
    the reasoning principles the on-disk records are proved with:
    [parses m bs a] (the parser [m] reads exactly [bs] and returns [a]) with
    its composition lemmas, and [inv_rd], which inverts a successful parse.

    The checksum function [crc32fast::hash] is a third-party crate: it is
    the class [Crc32], a function into the 32-bit integers.  [crc32_ieee] is
    a concrete instance for evaluation. *)

From S2P Require Import Prelude.

Local Open Scope Z_scope.

(** ** Errors (error.rs)

    The message strings are not modelled: every caller dispatches on the
    constructor, and [Io] keeps the kind of the I/O error it wraps.
    [Panicked] is not a Rust error: it stands for a call that panics (an
    [assert!] or [expect]) instead of returning. *)
Inductive FormatError :=
| Truncated | BadMagic | BadChecksum | Unsupported | Invalid | Overflow
| AlreadyExists | Io (kind : ErrorKind) | Panicked.

#[global] Instance FormatError_eq_dec : EqDecision FormatError.
Proof. solve_decision. Defined.

Abbreviation fres := (result FormatError).

(** ** The checksum parameter *)
Class Crc32 := {
  crc32 : bytes → Z;
  crc32_u32 : ∀ l, u32_ok (crc32 l)
}.

(** ** Reader *)
Record Reader := mkReader { r_buf : bytes; r_pos : nat }.

Definition Reader_new (buf : bytes) : Reader := mkReader buf 0.

Definition remaining (r : Reader) : nat := (length (r_buf r) - r_pos r)%nat.

Definition position (r : Reader) : nat := r_pos r.

(** A reader method returning [Result<A, FormatError>]; on an error the
    reader is dropped by every caller's [?]. *)
Definition rd (A : Type) : Type := Reader → fres (A * Reader).

Definition rd_ret {A} (a : A) : rd A := λ r, Ok (a, r).
Definition rd_bind {A B} (m : rd A) (k : A → rd B) : rd B :=
  λ r, match m r with Ok (a, r') => k a r' | Err e => Err e end.
Definition rd_guard (b : bool) (e : FormatError) : rd unit :=
  λ r, if b then Ok (tt, r) else Err e.
Definition rd_lift {A} (m : fres A) : rd A :=
  λ r, match m with Ok a => Ok (a, r) | Err e => Err e end.
Definition rd_remaining : rd nat := λ r, Ok (remaining r, r).

Declare Scope rd_scope.
Notation "'let!' x := m 'in' k" := (rd_bind m (λ x, k))
  (at level 10, x binder, m at level 100, k at level 200,
   format "'[v' 'let!'  x  :=  m  'in' '/' k ']'") : rd_scope.
Open Scope rd_scope.

Definition rd_take (n : nat) : rd bytes := λ r,
  if (remaining r <? n)%nat then Err Truncated
  else Ok (slice (r_buf r) (r_pos r) (r_pos r + n), mkReader (r_buf r) (r_pos r + n)).

Definition rd_int (n : nat) : rd Z := let! b := rd_take n in rd_ret (from_le b).

Definition rd_u8 : rd Z := rd_int 1.
Definition rd_u16 : rd Z := rd_int 2.
Definition rd_u32 : rd Z := rd_int 4.
Definition rd_u64 : rd Z := rd_int 8.
Definition rd_uuid : rd bytes := rd_take 16.

(** [String::from_utf8]: the well-formed byte sequences of the Unicode
    standard (table 3-7), as a scan that keeps the ranges the next
    continuation bytes must fall in. *)
Definition utf8_lead (b : Z) : option (list (Z * Z)) :=
  let c := (0x80, 0xBF) in
  if b <=? 0x7F then Some []
  else if b <? 0xC2 then None
  else if b <=? 0xDF then Some [c]
  else if b =? 0xE0 then Some [(0xA0, 0xBF); c]
  else if b =? 0xED then Some [(0x80, 0x9F); c]
  else if b <=? 0xEF then Some [c; c]
  else if b =? 0xF0 then Some [(0x90, 0xBF); c; c]
  else if b <=? 0xF3 then Some [c; c; c]
  else if b =? 0xF4 then Some [(0x80, 0x8F); c; c]
  else None.

Fixpoint utf8_go (pend : list (Z * Z)) (l : bytes) : bool :=
  match l with
  | [] => match pend with [] => true | _ => false end
  | b :: l' =>
      let v := byte.unsigned b in
      match pend with
      | [] => match utf8_lead v with Some p => utf8_go p l' | None => false end
      | (lo, hi) :: p => (lo <=? v) && (v <=? hi) && utf8_go p l'
      end
  end.

Definition utf8_valid (l : bytes) : bool := utf8_go [] l.

(** A Rust [String]: its bytes, which are valid UTF-8 ([str_ok]). *)
Definition str_ok (s : bytes) : Prop := utf8_valid s = true.

Definition rd_string (max : nat) : rd bytes :=
  let! len := rd_u16 in
  let! _ := rd_guard (negb (Z.of_nat max <? len)) Invalid in
  let! b := rd_take (Z.to_nat len) in
  let! _ := rd_guard (utf8_valid b) Invalid in
  rd_ret b.

(** ** Writer *)
Definition Writer : Type := bytes.

Definition Writer_new : Writer := [].
Definition w_len (w : Writer) : nat := length w.
Definition w_is_empty (w : Writer) : bool := match w with [] => true | _ => false end.
Definition w_bytes (b : bytes) (w : Writer) : Writer := w ++ b.
Definition w_u8 (v : Z) (w : Writer) : Writer := w ++ to_le 1 v.
Definition w_u16 (v : Z) (w : Writer) : Writer := w_bytes (to_le 2 v) w.
Definition w_u32 (v : Z) (w : Writer) : Writer := w_bytes (to_le 4 v) w.
Definition w_u64 (v : Z) (w : Writer) : Writer := w_bytes (to_le 8 v) w.
Definition w_uuid (u : bytes) (w : Writer) : Writer := w_bytes u w.

Definition w_string (s : bytes) (max : nat) (w : Writer) : fres Writer :=
  if (max <? length s)%nat then Err Invalid
  else Ok (w_bytes s (w_u16 (blen s) w)).

Definition w_pad_to (len : nat) (w : Writer) : Writer :=
  if (length w <? len)%nat then w ++ zeros (len - length w) else w.

Definition into_inner (w : Writer) : bytes := w.

(** Method chaining: [w.u32(v).bytes(b)]. *)
Notation "w '~>' f" := (f w) (at level 50, left associativity, only parsing) : rd_scope.

Section Checksum.
Context `{Crc32}.

Definition finish_with_crc (w : Writer) : bytes := w ++ to_le 4 (crc32 w).

Definition strip_verify_crc (buf : bytes) : fres bytes :=
  if (length buf <? 4)%nat then Err Truncated
  else
    let payload := take (length buf - 4) buf in
    let crc_bytes := drop (length buf - 4) buf in
    if crc32 payload =? from_le crc_bytes then Ok payload else Err BadChecksum.

(** Run a record parser over a checksummed payload. *)
Definition run_rd {A} (m : rd A) (payload : bytes) : fres A :=
  match m (Reader_new payload) with Ok (a, _) => Ok a | Err e => Err e end.

(** ** The checksum frame *)

Lemma length_finish_with_crc w : length (finish_with_crc w) = (length w + 4)%nat.
Proof. unfold finish_with_crc. len_tac. Qed.

Lemma crc32_le_range l : 0 ≤ crc32 l < 2 ^ (Z.of_nat 4 * 8).
Proof. apply crc32_u32. Qed.

Lemma strip_finish w : strip_verify_crc (finish_with_crc w) = Ok w.
Proof.
  unfold strip_verify_crc, finish_with_crc.
  assert (length (w ++ to_le 4 (crc32 w)) - 4 = length w)%nat as Hl by len_tac.
  rewrite Hl, take_app_length, drop_app_length.
  destruct (Nat.ltb_spec (length (w ++ to_le 4 (crc32 w))) 4) as [Hlt|_];
    [autorewrite with blen in Hlt; lia|].
  rewrite from_to_le by apply crc32_le_range. by rewrite Z.eqb_refl.
Qed.

(** A payload that verifies is the finished form of itself: the frame adds
    nothing but the checksum of what it covers. *)
Lemma strip_verify_crc_ok buf p :
  strip_verify_crc buf = Ok p → buf = finish_with_crc p.
Proof.
  unfold strip_verify_crc, finish_with_crc. intros Hs.
  destruct (Nat.ltb_spec (length buf) 4) as [|Hge]; [done|].
  destruct (Z.eqb_spec (crc32 (take (length buf - 4) buf))
                       (from_le (drop (length buf - 4) buf))) as [Hc|]; [|done].
  injection Hs as <-. rewrite Hc, to_from_le by len_tac.
  by rewrite take_drop.
Qed.

(** The frame keeps a leading magic number in place. *)
Lemma take_finish m w n :
  length m = n → take n (finish_with_crc (m ++ w)) = m.
Proof. intros <-. unfold finish_with_crc. by rewrite <- (assoc_L (++)), take_app_length. Qed.

Lemma strip_verify_crc_length buf p :
  strip_verify_crc buf = Ok p → length buf = (length p + 4)%nat.
Proof. intros ->%strip_verify_crc_ok. apply length_finish_with_crc. Qed.
End Checksum.

(** ** Parsers that read exactly what was printed *)

(** The unread suffix, and the reader after consuming [n] bytes. *)
Definition rest (r : Reader) : bytes := drop (r_pos r) (r_buf r).
Definition advance (r : Reader) (n : nat) : Reader := mkReader (r_buf r) (r_pos r + n).

Definition parses {A} (m : rd A) (bs : bytes) (a : A) : Prop :=
  ∀ r tl, rest r = bs ++ tl → m r = Ok (a, advance r (length bs)).

(** As [parses], for a parser that also requires the input to end. *)
Definition parses_all {A} (m : rd A) (bs : bytes) (a : A) : Prop :=
  ∀ r, rest r = bs → m r = Ok (a, advance r (length bs)).

Lemma rest_advance r n : rest (advance r n) = drop n (rest r).
Proof. unfold rest, advance. simpl. by rewrite drop_drop. Qed.

Lemma advance_advance r n k : advance (advance r n) k = advance r (n + k).
Proof. unfold advance. simpl. f_equal. lia. Qed.

Lemma advance_nil r : advance r (length (@nil byte)) = r.
Proof. unfold advance. simpl. rewrite Nat.add_0_r. by destruct r. Qed.

Lemma remaining_rest r : remaining r = length (rest r).
Proof. unfold remaining, rest. len_tac. Qed.

Lemma parses_ret {A} (a : A) : parses (rd_ret a) [] a.
Proof.
  intros r tl _. by rewrite advance_nil.
Qed.

Lemma parses_bind {A B} (m : rd A) (k : A → rd B) b1 b2 a c :
  parses m b1 a → parses (k a) b2 c → parses (rd_bind m k) (b1 ++ b2) c.
Proof.
  intros Hm Hk r tl Hr. unfold rd_bind. rewrite <- (assoc_L (++)) in Hr.
  rewrite (Hm _ _ Hr), (Hk _ tl).
  - by rewrite advance_advance, length_app.
  - by rewrite rest_advance, Hr, drop_app_length.
Qed.

Lemma parses_all_bind {A B} (m : rd A) (k : A → rd B) b1 b2 a c :
  parses m b1 a → parses_all (k a) b2 c → parses_all (rd_bind m k) (b1 ++ b2) c.
Proof.
  intros Hm Hk r Hr. unfold rd_bind. rewrite (Hm _ _ Hr), Hk.
  - by rewrite advance_advance, length_app.
  - by rewrite rest_advance, Hr, drop_app_length.
Qed.

Lemma parses_parses_all {A} (m : rd A) bs a : parses m bs a → parses_all m bs a.
Proof. intros Hm r Hr. apply (Hm r []). by rewrite app_nil_r. Qed.

(** A step that reads nothing. *)
Lemma parses_bind_nil {A B} (m : rd A) (k : A → rd B) b a c :
  parses m [] a → parses (k a) b c → parses (rd_bind m k) b c.
Proof. intros. change b with ([] ++ b). by eapply parses_bind. Qed.

Lemma parses_all_bind_nil {A B} (m : rd A) (k : A → rd B) b a c :
  parses m [] a → parses_all (k a) b c → parses_all (rd_bind m k) b c.
Proof. intros. change b with ([] ++ b). by eapply parses_all_bind. Qed.

(** A last step: the whole remaining print is what it reads. *)
Lemma parses_bind_last {A B} (m : rd A) (k : A → rd B) b a c :
  parses m b a → parses (k a) [] c → parses (rd_bind m k) b c.
Proof. intros. rewrite <- (app_nil_r b). by eapply parses_bind. Qed.

Lemma parses_guard b e : b = true → parses (rd_guard b e) [] tt.
Proof.
  intros -> r tl _. by rewrite advance_nil.
Qed.

Lemma parses_lift {A} (m : fres A) a : m = Ok a → parses (rd_lift m) [] a.
Proof.
  intros -> r tl _. by rewrite advance_nil.
Qed.

Lemma parses_take n bs : length bs = n → parses (rd_take n) bs bs.
Proof.
  intros <- r tl Hr. unfold rd_take. rewrite remaining_rest, Hr.
  destruct (Nat.ltb_spec (length (bs ++ tl)) (length bs)) as [Hlt|_].
  { rewrite length_app in Hlt. lia. }
  unfold slice, advance. unfold rest in Hr. rewrite Hr.
  replace (r_pos r + length bs - r_pos r)%nat with (length bs) by lia.
  by rewrite take_app_length.
Qed.

Lemma parses_int n v :
  0 ≤ v < 2 ^ (Z.of_nat n * 8) → parses (rd_int n) (to_le n v) v.
Proof.
  intros Hv. unfold rd_int. eapply parses_bind_last; [apply parses_take, length_to_le|].
  rewrite from_to_le by done. apply parses_ret.
Qed.

Lemma parses_u8 v : u8_ok v → parses rd_u8 (to_le 1 v) v.
Proof. apply (parses_int 1). Qed.
Lemma parses_u16 v : u16_ok v → parses rd_u16 (to_le 2 v) v.
Proof. apply (parses_int 2). Qed.
Lemma parses_u32 v : u32_ok v → parses rd_u32 (to_le 4 v) v.
Proof. apply (parses_int 4). Qed.
Lemma parses_u64 v : u64_ok v → parses rd_u64 (to_le 8 v) v.
Proof. apply (parses_int 8). Qed.
Lemma parses_uuid u : length u = 16%nat → parses rd_uuid u u.
Proof. apply parses_take. Qed.

Lemma parses_string s max :
  str_ok s → (length s ≤ max)%nat → u16_ok (Z.of_nat max) →
  parses (rd_string max) (to_le 2 (blen s) ++ s) s.
Proof.
  intros Hs Hmax Hlt. unfold rd_string.
  eapply parses_bind; [apply parses_u16; unfold u16_ok, blen in *; lia|].
  eapply parses_bind_nil.
  { apply parses_guard. unfold blen.
    destruct (Z.ltb_spec (Z.of_nat max) (Z.of_nat (length s))); [lia|done]. }
  eapply parses_bind_last; [apply parses_take; unfold blen; lia|].
  eapply parses_bind_nil; [by apply parses_guard|]. apply parses_ret.
Qed.

Lemma parses_end (e : FormatError) :
  parses_all (let! n := rd_remaining in rd_guard (n =? 0)%nat e) [] tt.
Proof.
  intros r Hr. unfold rd_bind, rd_remaining, rd_guard.
  rewrite remaining_rest, Hr. by rewrite advance_nil.
Qed.

Lemma run_rd_parses {A} (m : rd A) bs a : parses_all m bs a → run_rd m bs = Ok a.
Proof.
  intros Hm. unfold run_rd.
  by rewrite (Hm (Reader_new bs) ltac:(unfold rest; simpl; apply drop_0)).
Qed.

Lemma run_rd_prefix {A} (m : rd A) bs tl a : parses m bs a → run_rd m (bs ++ tl) = Ok a.
Proof.
  intros Hm. unfold run_rd.
  by rewrite (Hm (Reader_new (bs ++ tl)) tl ltac:(unfold rest; simpl; apply drop_0)).
Qed.

(** ** Inverting a successful parse *)

Lemma rd_bind_ok {A B} (m : rd A) (k : A → rd B) r b r2 :
  rd_bind m k r = Ok (b, r2) ↔ ∃ a r1, m r = Ok (a, r1) ∧ k a r1 = Ok (b, r2).
Proof. unfold rd_bind. destruct (m r) as [[a r1]|e]; naive_solver. Qed.

Lemma rd_ret_ok {A} (a b : A) r r2 : rd_ret a r = Ok (b, r2) ↔ b = a ∧ r2 = r.
Proof. unfold rd_ret. naive_solver. Qed.

Lemma rd_guard_ok b e r u r2 : rd_guard b e r = Ok (u, r2) ↔ b = true ∧ r2 = r.
Proof. unfold rd_guard. destruct b, u; naive_solver. Qed.

Lemma rd_lift_ok {A} (m : fres A) r a r2 : rd_lift m r = Ok (a, r2) ↔ m = Ok a ∧ r2 = r.
Proof. unfold rd_lift. destruct m; naive_solver. Qed.

Lemma rd_take_ok n r b r2 :
  rd_take n r = Ok (b, r2) → rest r = b ++ rest r2 ∧ length b = n.
Proof.
  unfold rd_take. rewrite remaining_rest.
  destruct (Nat.ltb_spec (length (rest r)) n) as [|Hge]; [done|].
  intros [= <- <-]. unfold slice, rest in *. simpl.
  replace (r_pos r + n - r_pos r)%nat with n by lia.
  split; [|by rewrite length_take; lia].
  rewrite <- drop_drop. symmetry. apply take_drop.
Qed.

Lemma rd_int_ok n r v r2 :
  rd_int n r = Ok (v, r2) →
  rest r = to_le n v ++ rest r2 ∧ 0 ≤ v < 2 ^ (8 * Z.of_nat n).
Proof.
  unfold rd_int. rewrite rd_bind_ok. intros (b & r1 & Hb & Hr).
  apply rd_ret_ok in Hr as [-> ->]. apply rd_take_ok in Hb as [Hb Hl].
  rewrite to_from_le by done. split; [done|].
  pose proof (from_le_range b) as Hr. unfold blen in Hr. by rewrite Hl in Hr.
Qed.

Lemma rd_u32_ok r v r2 :
  rd_u32 r = Ok (v, r2) → rest r = to_le 4 v ++ rest r2 ∧ u32_ok v.
Proof. apply (rd_int_ok 4). Qed.

Lemma rd_u64_ok r v r2 :
  rd_u64 r = Ok (v, r2) → rest r = to_le 8 v ++ rest r2 ∧ u64_ok v.
Proof. apply (rd_int_ok 8). Qed.

Lemma rd_uuid_ok r u r2 :
  rd_uuid r = Ok (u, r2) → rest r = u ++ rest r2 ∧ length u = 16%nat.
Proof. apply rd_take_ok. Qed.

Lemma rd_string_ok max r s r2 :
  rd_string max r = Ok (s, r2) →
  rest r = to_le 2 (blen s) ++ s ++ rest r2 ∧ str_ok s ∧ (length s ≤ max)%nat.
Proof.
  unfold rd_string. rewrite rd_bind_ok. intros (len & r1 & Hlen & H).
  apply rd_int_ok in Hlen as [H1 Hr].
  rewrite rd_bind_ok in H. destruct H as (u & r1' & Hg & H).
  apply rd_guard_ok in Hg as [Hg ->].
  rewrite rd_bind_ok in H. destruct H as (b & r3 & Hb & H).
  apply rd_take_ok in Hb as [H3 Hl].
  rewrite rd_bind_ok in H. destruct H as (u' & r4 & Hg' & H).
  apply rd_guard_ok in Hg' as [Hg' ->]. apply rd_ret_ok in H as [-> ->].
  apply negb_true_iff, Z.ltb_ge in Hg.
  assert (blen b = len) as Hbl by (unfold blen; lia).
  rewrite Hbl, H1, H3. split; [done|]. split; [done|]. lia.
Qed.

Lemma rd_remaining_ok r n r2 : rd_remaining r = Ok (n, r2) ↔ n = length (rest r) ∧ r2 = r.
Proof. unfold rd_remaining. rewrite remaining_rest. naive_solver. Qed.

Lemma run_rd_ok {A} (m : rd A) bs a :
  run_rd m bs = Ok a → ∃ r, m (Reader_new bs) = Ok (a, r).
Proof. unfold run_rd. destruct (m (Reader_new bs)) as [[b r]|]; naive_solver. Qed.

Lemma rest_new bs : rest (Reader_new bs) = bs.
Proof. apply drop_0. Qed.

(** Decompose a successful parse into the bytes each step read. *)
Ltac inv_rd :=
  repeat match goal with
  | H : run_rd ?m ?bs = Ok _ |- _ =>
      apply run_rd_ok in H; let r := fresh "r" in destruct H as [r H]
  | H : rd_bind ?m ?k ?r = Ok (?b, ?r2) |- _ =>
      apply rd_bind_ok in H; let a := fresh "v" in let r1 := fresh "r" in
      let H1 := fresh "Hrd" in destruct H as (a & r1 & H1 & H); cbn beta in H
  | H : rd_ret _ _ = Ok _ |- _ => apply rd_ret_ok in H as [? ->]
  | H : rd_guard _ _ _ = Ok _ |- _ =>
      let Hg := fresh "Hg" in apply rd_guard_ok in H as [Hg ->]
  | H : rd_lift _ _ = Ok _ |- _ =>
      let Hg := fresh "Hl" in apply rd_lift_ok in H as [Hg ->]
  | H : rd_take _ _ = Ok _ |- _ => apply rd_take_ok in H as [? ?]
  | H : rd_u32 _ = Ok _ |- _ => apply rd_u32_ok in H as [? ?]
  | H : rd_u64 _ = Ok _ |- _ => apply rd_u64_ok in H as [? ?]
  | H : rd_uuid _ = Ok _ |- _ => apply rd_uuid_ok in H as [? ?]
  | H : rd_string _ _ = Ok _ |- _ => apply rd_string_ok in H as (? & ? & ?)
  | H : rd_remaining _ = Ok _ |- _ => apply rd_remaining_ok in H as [? ->]
  end.

(** The facts the guards of a successful parse established. *)
Ltac inv_guards :=
  repeat match goal with
  | H : bytes_eqb _ _ = true |- _ => apply bytes_eqb_eq in H
  | H : (_ =? _) = true |- _ => apply Z.eqb_eq in H
  | H : (_ =? _) = false |- _ => apply Z.eqb_neq in H
  | H : (_ <? _) = true |- _ => apply Z.ltb_lt in H
  | H : (_ <? _) = false |- _ => apply Z.ltb_ge in H
  | H : (_ <=? _) = true |- _ => apply Z.leb_le in H
  | H : (_ <=? _) = false |- _ => apply Z.leb_gt in H
  | H : (_ =? _)%nat = true |- _ => apply Nat.eqb_eq in H
  | H : (_ <? _)%nat = true |- _ => apply Nat.ltb_lt in H
  | H : (_ <? _)%nat = false |- _ => apply Nat.ltb_ge in H
  | H : negb _ = true |- _ => apply negb_true_iff in H
  | H : negb _ = false |- _ => apply negb_false_iff in H
  | H : _ && _ = true |- _ => apply andb_true_iff in H as [? ?]
  | H : _ || _ = false |- _ => apply orb_false_iff in H as [? ?]
  | H : length (rest _) = 0%nat |- _ => apply length_zero_iff_nil in H
  end.

(** Join what the steps of a parse read into one equation on the input. *)
Ltac chain_rest :=
  rewrite ?rest_new in *;
  repeat match goal with
  | H1 : rest ?r = _, H2 : _ = ?rhs |- _ =>
      lazymatch rhs with context [rest r] => rewrite H1 in H2; clear H1 end
  end.

#[export] Hint Resolve parses_u8 parses_u16 parses_u32 parses_u64 parses_uuid
  parses_ret parses_take parses_string parses_guard parses_lift : codec.

(** Version numbers and other literals are in range by evaluation. *)
#[export] Hint Extern 3 (u32_ok ?c) =>
  is_ground c; split; [vm_compute; discriminate | vm_compute; reflexivity] : codec.

(** The parsers end with [r.remaining() != 0]. *)
Lemma parses_all_end {B} (e : FormatError) (k : unit → rd B) c :
  parses_all (k tt) [] c →
  parses_all (let! u := (let! n := rd_remaining in rd_guard (n =? 0)%nat e) in k u) [] c.
Proof.
  intros Hk r Hr. unfold rd_bind at 1. rewrite (parses_end e r Hr).
  rewrite advance_nil, (Hk r Hr). by rewrite advance_nil.
Qed.

Lemma parses_all_ret {A} (a : A) : parses_all (rd_ret a) [] a.
Proof. apply parses_parses_all, parses_ret. Qed.

(** A last step before the end check. *)
Lemma parses_all_bind_last {A B} (m : rd A) (k : A → rd B) b a c :
  parses m b a → parses_all (k a) [] c → parses_all (rd_bind m k) b c.
Proof. intros. rewrite <- (app_nil_r b). by eapply parses_all_bind. Qed.

(** A writer chain as one right-nested concatenation. *)
Ltac writer_norm :=
  unfold Writer_new, w_uuid, w_u64, w_u32, w_u16, w_u8, w_bytes;
  rewrite ?app_nil_l; rewrite <- ?(assoc_L (++)).

(** The guards of a decoder on its own print. *)
Ltac guard_tac :=
  first [ apply bytes_eqb_refl | apply Z.eqb_refl | assumption | reflexivity
        | apply negb_true_iff, Z.ltb_ge; lia | idtac ].

(** Walk a parser along the print it should accept: a print of the form
    [b ++ bs] feeds [b] to the next step. *)
Ltac parse_step :=
  lazymatch goal with
  | |- parses_all (rd_bind (rd_guard _ _) _) _ _ =>
      eapply parses_all_bind_nil; [apply parses_guard; guard_tac|]
  | |- parses_all (rd_bind (rd_lift _) _) _ _ =>
      eapply parses_all_bind_nil; [apply parses_lift; guard_tac|]
  | |- parses_all (rd_bind _ _) (_ ++ _) _ =>
      eapply parses_all_bind; [solve [eauto with codec]|]
  | |- parses_all (rd_bind (rd_bind rd_remaining _) _) [] _ => apply parses_all_end
  | |- parses_all (rd_ret _) [] _ => apply parses_all_ret
  | |- parses_all (rd_bind _ _) _ _ =>
      eapply parses_all_bind_last; [solve [eauto with codec]|]
  | |- parses (rd_bind (rd_guard _ _) _) _ _ =>
      eapply parses_bind_nil; [apply parses_guard; guard_tac|]
  | |- parses (rd_bind (rd_lift _) _) _ _ =>
      eapply parses_bind_nil; [apply parses_lift; guard_tac|]
  | |- parses (rd_bind _ _) (_ ++ _) _ =>
      eapply parses_bind; [solve [eauto with codec]|]
  | |- parses (rd_bind _ _) _ _ =>
      eapply parses_bind_last; [solve [eauto with codec]|]
  end.

(** ** A concrete checksum: CRC-32/ISO-HDLC, bit by bit *)
Module Ieee.
Definition crc_bit (c : Z) : Z :=
  let s := Z.shiftr c 1 in if Z.odd c then Z.lxor s 0xEDB88320 else s.

Definition crc_byte (c : Z) (b : byte) : Z :=
  Nat.iter 8 crc_bit (Z.lxor c (byte.unsigned b)).

Definition crc32_ieee (l : bytes) : Z :=
  Z.lxor (foldl crc_byte 0xFFFFFFFF l) 0xFFFFFFFF.

Lemma log2_bound a n : 0 < n → 0 ≤ a < 2 ^ n → Z.log2 a < n.
Proof.
  intros Hn Ha. destruct (decide (a = 0)) as [->|]; [by simpl|].
  apply Z.log2_lt_pow2; lia.
Qed.

Lemma lxor_bound a b n : 0 < n → 0 ≤ a < 2 ^ n → 0 ≤ b < 2 ^ n → 0 ≤ Z.lxor a b < 2 ^ n.
Proof.
  intros Hn Ha Hb. assert (0 ≤ Z.lxor a b) as H0 by (apply Z.lxor_nonneg; lia).
  split; [done|]. destruct (decide (Z.lxor a b = 0)) as [->|]; [lia|].
  apply Z.log2_lt_pow2; [lia|].
  eapply Z.le_lt_trans; [apply Z.log2_lxor; lia|].
  apply Z.max_lub_lt; by apply log2_bound.
Qed.

Lemma crc_bit_u32 c : u32_ok c → u32_ok (crc_bit c).
Proof.
  unfold u32_ok, crc_bit. intros Hc.
  assert (0 ≤ Z.shiftr c 1 < 2 ^ 32).
  { rewrite Z.shiftr_div_pow2 by lia. change (2 ^ 1) with 2. Z.div_mod_to_equations. lia. }
  destruct (Z.odd c); [|done]. apply lxor_bound; lia.
Qed.

Lemma crc_byte_u32 c b : u32_ok c → u32_ok (crc_byte c b).
Proof.
  intros Hc. unfold crc_byte.
  assert (u32_ok (Z.lxor c (byte.unsigned b))) as H8.
  { apply lxor_bound; [lia|apply Hc|]. pose proof (byte.unsigned_range b). lia. }
  revert H8. generalize (Z.lxor c (byte.unsigned b)). intros x Hx.
  simpl. do 8 apply crc_bit_u32. done.
Qed.

Lemma crc32_ieee_u32 l : u32_ok (crc32_ieee l).
Proof.
  unfold crc32_ieee. apply lxor_bound; [lia| |lia].
  assert (u32_ok 0xFFFFFFFF) as H0 by (unfold u32_ok; lia).
  revert H0. generalize 0xFFFFFFFF. induction l as [|b l IH]; intros c Hc; simpl; [done|].
  apply IH, crc_byte_u32, Hc.
Qed.

Definition ieee : Crc32 := {| crc32 := crc32_ieee; crc32_u32 := crc32_ieee_u32 |}.

(** The check value of the CRC-32 catalogue. *)
Example crc32_check :
  crc32_ieee (String.list_byte_of_string "123456789") = 0xCBF43926.
Proof. vm_compute. reflexivity. Qed.
End Ieee.
