(* ===== verification/Layout.v ===== *)
(** * Layout: on-disk names and format constants
    (crates/maki-format/src/lib.rs, module [layout])

    The file names of a volume, their hexadecimal spelling, and the parsers
    that read a directory listing back.  [parse_journal_segment] and
    [parse_shard_data] are proved to accept exactly the canonical spelling. *)

From S2P Require Import Prelude.

Local Open Scope string_scope.
Local Open Scope Z_scope.

(** ** Constants other modules share *)

(** [journal::RECORD_HEADER_SIZE], [SEGMENT_HEADER_SIZE], [MAX_PAYLOAD],
    [DURABLE_MARK_SIZE], [MAX_JOURNAL_SEGMENT_SIZE]. *)
Definition RECORD_HEADER_SIZE : Z := 32.
Definition SEGMENT_HEADER_SIZE : Z := 48.
Definition MAX_PAYLOAD : Z := Z.shiftl 16 20.
Definition DURABLE_MARK_SIZE : Z := 32.
Definition MAX_JOURNAL_SEGMENT_SIZE : Z := Z.shiftl 1 30.

(** [catalog::MAX_SHARDS] and the fixed parts of two encodings. *)
Definition MAX_SHARDS : Z := Z.shiftl 1 24.
Definition CATALOG_ENCODED_FIXED_BYTES : Z := 8 + 4 + 8 + 4 + 4.
Definition ALLOCATION_ENCODED_FIXED_BYTES : Z := 8 + 4 + 8 + 8 + 4.

(** ** Names *)
Definition VOLUME_LOCK := "volume.lock".
Definition SUPERBLOCK_A := "superblock.a".
Definition SUPERBLOCK_B := "superblock.b".
Definition SHARD_CATALOG_A := "shard-catalog.a".
Definition SHARD_CATALOG_B := "shard-catalog.b".
Definition KEY_CANARY_A := "canary.a".
Definition KEY_CANARY_B := "canary.b".
Definition DATA_DIR := "data".
Definition JOURNAL_DIR := "journal".
Definition CHECKPOINT_DIR := "checkpoint".
Definition JOURNAL_DURABLE_MARK := "journal/durable-mark".
Definition CHECKPOINT_STATE_A := "checkpoint/state.a".
Definition CHECKPOINT_STATE_B := "checkpoint/state.b".
Definition DURABLE_PROOF_A := "journal/durable-proof.a".
Definition DURABLE_PROOF_B := "journal/durable-proof.b".

(** Rust's [{:x}] for a [u64]: at most sixteen lower-case digits. *)
Definition hex_char (d : Z) : ascii :=
  ascii_of_N (Z.to_N (if d <? 10 then 48 + d else 87 + d)).

Fixpoint hex_go (fuel : nat) (n : Z) (acc : string) : string :=
  match fuel with
  | O => acc
  | S f =>
      let acc' := String (hex_char (n mod 16)) acc in
      if n / 16 =? 0 then acc' else hex_go f (n / 16) acc'
  end.

Definition fmt_hex (n : Z) : string := hex_go 16 n "".

(** [{:0w x}]: left-padded with zeros to at least [w] characters. *)
Fixpoint zero_pad (k : nat) (s : string) : string :=
  match k with O => s | S k' => String "0" (zero_pad k' s) end.

Definition fmt_hex_pad (w : nat) (n : Z) : string :=
  let s := fmt_hex n in zero_pad (w - String.length s) s.

Definition shard_data (shard : Z) : string :=
  DATA_DIR ++ "/shard-" ++ fmt_hex_pad 8 shard ++ ".dat".
Definition shard_alloc_a (shard : Z) : string :=
  DATA_DIR ++ "/shard-" ++ fmt_hex_pad 8 shard ++ ".alloc.a".
Definition shard_alloc_b (shard : Z) : string :=
  DATA_DIR ++ "/shard-" ++ fmt_hex_pad 8 shard ++ ".alloc.b".
Definition shard_discard_a (shard : Z) : string :=
  DATA_DIR ++ "/shard-" ++ fmt_hex_pad 8 shard ++ ".discard.a".
Definition shard_discard_b (shard : Z) : string :=
  DATA_DIR ++ "/shard-" ++ fmt_hex_pad 8 shard ++ ".discard.b".
Definition journal_segment (index : Z) : string :=
  JOURNAL_DIR ++ "/seg-" ++ fmt_hex_pad 16 index.

(** [str::strip_prefix] and [str::strip_suffix]. *)
Fixpoint strip_prefix (p s : string) : option string :=
  match p, s with
  | EmptyString, _ => Some s
  | String c p', String d s' => if Ascii.eqb c d then strip_prefix p' s' else None
  | _, EmptyString => None
  end.

Fixpoint strip_suffix (suf s : string) : option string :=
  if String.eqb s suf then Some ""
  else match s with
       | EmptyString => None
       | String c s' =>
           match strip_suffix suf s' with
           | Some p => Some (String c p)
           | None => None
           end
       end.

(** [u64::from_str_radix(s, 16)]: an optional [+], at least one digit of
    either case, and no overflow. *)
Definition hex_val (c : ascii) : option Z :=
  let n := Z.of_N (N_of_ascii c) in
  if (48 <=? n) && (n <=? 57) then Some (n - 48)
  else if (97 <=? n) && (n <=? 102) then Some (n - 87)
  else if (65 <=? n) && (n <=? 70) then Some (n - 55)
  else None.

Fixpoint parse_hex_go (s : string) (acc : Z) : option Z :=
  match s with
  | EmptyString => Some acc
  | String c s' =>
      match hex_val c with
      | Some d => if acc * 16 + d <=? U64_MAX then parse_hex_go s' (acc * 16 + d) else None
      | None => None
      end
  end.

Definition from_str_radix_16 (s : string) : option Z :=
  match s with
  | EmptyString => None
  | String c s' =>
      if Ascii.eqb c "+" then
        match s' with EmptyString => None | _ => parse_hex_go s' 0 end
      else parse_hex_go s 0
  end.

Definition parse_shard_data (name : string) : option Z :=
  match strip_prefix "shard-" name with
  | None => None
  | Some r =>
      match strip_suffix ".dat" r with
      | None => None
      | Some hex =>
          match from_str_radix_16 hex with
          | None => None
          | Some index =>
              if String.eqb (shard_data index) (DATA_DIR ++ "/" ++ name) then Some index else None
          end
      end
  end.

Definition parse_journal_segment (name : string) : option Z :=
  match strip_prefix "seg-" name with
  | None => None
  | Some hex =>
      match from_str_radix_16 hex with
      | None => None
      | Some index =>
          if String.eqb (journal_segment index) (JOURNAL_DIR ++ "/" ++ name) then Some index
          else None
      end
  end.

(** ** Hexadecimal round trip *)

(** A decidable fact about hexadecimal digits is checked digit by digit. *)
Lemma digit_cases (P : Z → Prop) d : Forall P (seqZ 0 16) → 0 ≤ d < 16 → P d.
Proof. intros HP Hd. rewrite list.Forall_forall in HP. apply HP, elem_of_seqZ. lia. Qed.

Lemma hex_val_char d : 0 ≤ d < 16 → hex_val (hex_char d) = Some d.
Proof. apply (digit_cases (λ d, hex_val (hex_char d) = Some d)). repeat constructor. Qed.

Lemma hex_char_not_plus d : 0 ≤ d < 16 → Ascii.eqb (hex_char d) "+" = false.
Proof. apply (digit_cases (λ d, Ascii.eqb (hex_char d) "+" = false)). repeat constructor. Qed.

Lemma parse_hex_go_step d s acc :
  0 ≤ d < 16 → 0 ≤ acc → acc * 16 + d ≤ U64_MAX →
  parse_hex_go (String (hex_char d) s) acc = parse_hex_go s (acc * 16 + d).
Proof.
  intros Hd Ha Hm. cbn [parse_hex_go]. rewrite hex_val_char by done.
  by rewrite (proj2 (Z.leb_le _ _) Hm).
Qed.

Lemma parse_hex_go_hex fuel n s :
  0 ≤ n < 16 ^ Z.of_nat fuel → n ≤ U64_MAX → (0 < fuel)%nat →
  parse_hex_go (hex_go fuel n s) 0 = parse_hex_go s n.
Proof.
  revert n s. induction fuel as [|f IH]; intros n s Hn Hm Hf; [lia|].
  cbn [hex_go]. pose proof (Z.div_mod n 16 ltac:(lia)) as Hdm.
  pose proof (Z.mod_pos_bound n 16 ltac:(lia)) as Hmod.
  destruct (Z.eqb_spec (n / 16) 0) as [H0|H0].
  - rewrite parse_hex_go_step by lia. f_equal. lia.
  - assert (0 ≤ n / 16) by (apply Z.div_pos; lia).
    assert (n / 16 < 16 ^ Z.of_nat f).
    { apply Z.div_lt_upper_bound; [lia|]. rewrite Nat2Z.inj_succ, Z.pow_succ_r in Hn; lia. }
    destruct f as [|f']; [simpl in *; lia|].
    rewrite IH by lia. rewrite parse_hex_go_step by lia. f_equal. lia.
Qed.

Lemma parse_hex_go_pad k s : parse_hex_go (zero_pad k s) 0 = parse_hex_go s 0.
Proof. induction k as [|k IH]; [done|]. simpl. done. Qed.

(** Every digit string this module prints starts with a digit. *)
Definition head_ok (s : string) : Prop :=
  match s with EmptyString => False | String c _ => Ascii.eqb c "+" = false end.

Lemma hex_go_head fuel n s :
  (0 < fuel)%nat ∨ head_ok s → 0 ≤ n → head_ok (hex_go fuel n s).
Proof.
  revert n s. induction fuel as [|f IH]; intros n s Hs Hn; [destruct Hs; [lia|done]|].
  cbn [hex_go].
  assert (head_ok (String (hex_char (n mod 16)) s)) as Hh.
  { simpl. apply hex_char_not_plus, Z.mod_pos_bound. lia. }
  destruct (n / 16 =? 0); [done|]. apply IH; [by right|]. apply Z.div_pos; lia.
Qed.

Lemma from_str_radix_16_fmt w n : u64_ok n → from_str_radix_16 (fmt_hex_pad w n) = Some n.
Proof.
  intros Hn. unfold fmt_hex_pad.
  set (k := (w - _)%nat). clearbody k.
  assert (parse_hex_go (zero_pad k (fmt_hex n)) 0 = Some n) as Hp.
  { rewrite parse_hex_go_pad. unfold fmt_hex, u64_ok in *.
    rewrite parse_hex_go_hex; [done| |unfold U64_MAX; lia|lia].
    change (16 ^ Z.of_nat 16) with (2 ^ 64). lia. }
  assert (head_ok (zero_pad k (fmt_hex n))) as Hh.
  { destruct k; [|done]. apply hex_go_head; [left; lia|apply Hn]. }
  unfold from_str_radix_16.
  destruct (zero_pad k (fmt_hex n)) as [|c s]; [done|]. by rewrite Hh.
Qed.

Lemma append_cons c a b : String c a ++ b = String c (a ++ b).
Proof. reflexivity. Qed.

Lemma append_nil_l b : "" ++ b = b.
Proof. reflexivity. Qed.

Lemma strip_suffix_app suf p : strip_suffix suf (p ++ suf) = Some p.
Proof.
  induction p as [|c p IH].
  - rewrite append_nil_l. destruct suf; simpl; [done|].
    by rewrite Ascii.eqb_refl, String.eqb_refl.
  - rewrite append_cons. cbn [strip_suffix]. rewrite IH.
    destruct (String.eqb_spec (String c (p ++ suf)) suf) as [He|]; [|done].
    apply (f_equal String.length) in He. cbn [String.length] in He.
    rewrite String.app_length in He. lia.
Qed.

(** ** The listing parsers accept exactly the canonical spelling *)

Lemma parse_journal_segment_spec name i :
  u64_ok i →
  parse_journal_segment name = Some i ↔ JOURNAL_DIR ++ "/" ++ name = journal_segment i.
Proof.
  intros Hi. split.
  - unfold parse_journal_segment. intros Hp.
    destruct (strip_prefix "seg-" name) as [hex|]; [|done].
    destruct (from_str_radix_16 hex) as [j|]; [|done].
    destruct (String.eqb_spec (journal_segment j) (JOURNAL_DIR ++ "/" ++ name)); [|done].
    congruence.
  - unfold journal_segment. intros He. unfold DATA_DIR, JOURNAL_DIR in He. rewrite !append_cons, !append_nil_l in He.
    injection He as He.
    unfold parse_journal_segment. rewrite He.
    cbn [strip_prefix Ascii.eqb Bool.eqb]. rewrite from_str_radix_16_fmt by done.
    change ((if String.eqb (journal_segment i) (journal_segment i) then Some i else None) = Some i).
    by rewrite String.eqb_refl.
Qed.

Lemma parse_shard_data_spec name i :
  u64_ok i →
  parse_shard_data name = Some i ↔ DATA_DIR ++ "/" ++ name = shard_data i.
Proof.
  intros Hi. split.
  - unfold parse_shard_data. intros Hp.
    destruct (strip_prefix "shard-" name) as [r|]; [|done].
    destruct (strip_suffix ".dat" r) as [hex|]; [|done].
    destruct (from_str_radix_16 hex) as [j|]; [|done].
    destruct (String.eqb_spec (shard_data j) (DATA_DIR ++ "/" ++ name)); [|done].
    congruence.
  - unfold shard_data. intros He. unfold DATA_DIR, JOURNAL_DIR in He. rewrite !append_cons, !append_nil_l in He.
    injection He as He.
    unfold parse_shard_data. rewrite He. cbn [strip_prefix Ascii.eqb Bool.eqb].
    rewrite strip_suffix_app, from_str_radix_16_fmt by done.
    change ((if String.eqb (shard_data i) (shard_data i) then Some i else None) = Some i).
    by rewrite String.eqb_refl.
Qed.
