(* ===== verification/Geometry.v ===== *)
(** * Geometry: device geometry and slot addressing
    (crates/maki-format/src/geometry.rs)

    [compute] with every early return of the source, the capacity plan, and
    the addressing functions.  The theorems say what a geometry that
    [compute] accepts guarantees to the slot store: every product the store
    forms fits 64 bits and units address disjoint slots inside their shard. *)

From S2P Require Import Prelude Codec Layout.

Local Open Scope Z_scope.

Definition SLOT_HEADER_SIZE : Z := 64.

Record Geometry := mkGeometry {
  device_block_size : Z;
  crypto_unit_size : Z;
  slot_alignment : Z;
  max_ciphertext_size : Z;
  slot_header_size : Z;
  slot_size : Z;
  max_virtual_size : Z;
  shard_logical_size : Z
}.

Record CapacityPlan := mkCapacityPlan {
  cp_num_units : Z;
  cp_num_shards : Z;
  full_slot_span_bytes : Z;
  allocation_map_ab_bytes : Z;
  catalog_ab_bytes : Z
}.

#[global] Instance Geometry_eq_dec : EqDecision Geometry.
Proof. solve_decision. Defined.

(** [!x] on [u64]. *)
Definition u64_not (x : Z) : Z := U64_MAX - x.

Definition is_pow2 (v : Z) : bool := negb (v =? 0) && (Z.land v (v - 1) =? 0).

Definition align_up (v align : Z) : fres Z :=
  let? sum := ok_or (checked_add v (align - 1)) Overflow in
  Ok (Z.land sum (u64_not (align - 1))).

Definition num_units (g : Geometry) : Z := max_virtual_size g / crypto_unit_size g.
Definition units_per_shard (g : Geometry) : Z := shard_logical_size g / crypto_unit_size g.
Definition num_shards (g : Geometry) : Z := div_ceil (num_units g) (units_per_shard g).

(** [Option::and_then] over the checked operations. *)
Definition and_then {A B} (o : option A) (f : A → option B) : option B :=
  match o with Some a => f a | None => None end.

Definition capacity_plan (g : Geometry) : fres CapacityPlan :=
  let num_units := num_units g in
  let num_shards := num_shards g in
  guard? negb (MAX_SHARDS <? num_shards) else Invalid in
  let? shard_slot_bytes := ok_or (checked_mul (units_per_shard g) (slot_size g)) Overflow in
  let? full_slot_span_bytes := ok_or (checked_mul num_shards shard_slot_bytes) Overflow in
  let? allocation_copy_bytes :=
    ok_or (checked_add ALLOCATION_ENCODED_FIXED_BYTES (div_ceil (units_per_shard g) 8)) Overflow in
  let? allocation_map_ab_bytes :=
    ok_or (and_then (checked_mul num_shards 2)
             (λ copies, checked_mul copies allocation_copy_bytes)) Overflow in
  let? catalog_copy_bytes :=
    ok_or (and_then (checked_mul num_shards 8)
             (λ entries, checked_add entries CATALOG_ENCODED_FIXED_BYTES)) Overflow in
  let? catalog_ab_bytes := ok_or (checked_mul catalog_copy_bytes 2) Overflow in
  Ok {| cp_num_units := num_units; cp_num_shards := num_shards;
        full_slot_span_bytes := full_slot_span_bytes;
        allocation_map_ab_bytes := allocation_map_ab_bytes;
        catalog_ab_bytes := catalog_ab_bytes |}.

Definition compute (device_block_size crypto_unit_size slot_alignment max_ciphertext_size
    max_virtual_size shard_logical_size : Z) : fres Geometry :=
  guard? is_pow2 device_block_size
         && ((512 <=? device_block_size) && (device_block_size <=? 65536)) else Invalid in
  guard? negb ((crypto_unit_size =? 0) || (crypto_unit_size <? device_block_size)
               || negb (is_multiple_of crypto_unit_size device_block_size)) else Invalid in
  guard? negb (negb (is_pow2 slot_alignment) || (slot_alignment <? 512)) else Invalid in
  guard? negb (max_ciphertext_size <? crypto_unit_size) else Invalid in
  guard? negb (MAX_PAYLOAD <? max_ciphertext_size) else Invalid in
  guard? negb ((max_virtual_size =? 0)
               || negb (is_multiple_of max_virtual_size crypto_unit_size)) else Invalid in
  guard? negb (I64_MAX <? max_virtual_size) else Invalid in
  guard? negb ((shard_logical_size =? 0)
               || negb (is_multiple_of shard_logical_size crypto_unit_size)) else Invalid in
  let? slot_size := align_up (SLOT_HEADER_SIZE + max_ciphertext_size) slot_alignment in
  let geometry := {|
    device_block_size := device_block_size;
    crypto_unit_size := crypto_unit_size;
    slot_alignment := slot_alignment;
    max_ciphertext_size := max_ciphertext_size;
    slot_header_size := SLOT_HEADER_SIZE;
    slot_size := slot_size;
    max_virtual_size := max_virtual_size;
    shard_logical_size := shard_logical_size |} in
  let? _ := ok_or (checked_mul (units_per_shard geometry) slot_size) Overflow in
  guard? negb (U32_MAX <? units_per_shard geometry) else Invalid in
  let? _ := capacity_plan geometry in
  Ok geometry.

(** [(shard index, unit index within the shard)]. *)
Definition shard_of_unit (g : Geometry) (unit : Z) : Z * Z :=
  let per := units_per_shard g in (unit / per, unit mod per).

Definition slot_offset (g : Geometry) (index_in_shard : Z) : Z :=
  index_in_shard * slot_size g.

(** ** Powers of two and alignment *)

Lemma is_pow2_spec v : 0 ≤ v → is_pow2 v = true → ∃ k, 0 ≤ k ∧ v = 2 ^ k.
Proof.
  unfold is_pow2. intros Hv [Hz Hl]%andb_true_iff.
  apply negb_true_iff, Z.eqb_neq in Hz. apply Z.eqb_eq in Hl.
  exists (Z.log2 v). split; [apply Z.log2_nonneg|].
  destruct (Z.log2_spec v ltac:(lia)) as [H1 H2].
  destruct (decide (v = 2 ^ Z.log2 v)) as [|Hne]; [done|]. exfalso.
  pose proof (Z.pow_pos_nonneg 2 (Z.log2 v) ltac:(lia) (Z.log2_nonneg v)).
  assert (Z.log2 (v - 1) = Z.log2 v) as Hlog.
  { apply Z.log2_unique; [apply Z.log2_nonneg|]. lia. }
  assert (Z.testbit (Z.land v (v - 1)) (Z.log2 v) = true) as Hb.
  { rewrite Z.land_spec, Z.bit_log2 by lia. rewrite <- Hlog. apply Z.bit_log2. lia. }
  by rewrite Hl, Z.bits_0 in Hb.
Qed.

Lemma land_not_low v k :
  0 ≤ k ≤ 64 → u64_ok v → Z.land v (u64_not (2 ^ k - 1)) = v - v mod 2 ^ k.
Proof.
  intros Hk Hv. unfold u64_not, U64_MAX.
  replace (2 ^ 64 - 1 - (2 ^ k - 1)) with (Z.ldiff (Z.ones 64) (Z.ones k)).
  2: { rewrite <- Z.sub_nocarry_ldiff; rewrite ?Z.ones_equiv; [lia|].
       apply Z.bits_inj'. intros n Hn. rewrite Z.bits_0, Z.ldiff_spec.
       rewrite <- !Z.ones_equiv, !Z.testbit_ones by lia.
       destruct (Z.leb_spec 0 n), (Z.ltb_spec n k), (Z.ltb_spec n 64); simpl; try done; lia. }
  transitivity (Z.ldiff v (Z.ones k)).
  - apply Z.bits_inj'. intros n Hn. rewrite Z.land_spec, !Z.ldiff_spec, (Z.testbit_ones 64) by lia.
    destruct (Z.ltb_spec n 64) as [|Hge].
    + rewrite (proj2 (Z.leb_le _ _) Hn). simpl. by destruct (Z.testbit v n).
    + rewrite (Z.bits_above_log2 v n); [done|apply Hv|].
      destruct (decide (v = 0)) as [->|]; [simpl; lia|].
      apply Z.log2_lt_pow2; [destruct Hv; lia|].
      eapply Z.lt_le_trans; [apply Hv|]. apply Z.pow_le_mono_r; lia.
  - rewrite Z.ldiff_ones_r, Z.shiftl_mul_pow2, Z.shiftr_div_pow2 by lia.
    pose proof (Z.div_mod v (2 ^ k) ltac:(apply Z.pow_nonzero; lia)). lia.
Qed.

Lemma align_up_spec v k s :
  0 ≤ k ≤ 64 → 0 ≤ v → align_up v (2 ^ k) = Ok s →
  v ≤ s < v + 2 ^ k ∧ s mod 2 ^ k = 0 ∧ s ≤ U64_MAX.
Proof.
  unfold align_up. intros Hk Hv Hs. inv_res.
  apply checked_add_some in Hv0 as [-> Hle].
  pose proof (Z.pow_pos_nonneg 2 k ltac:(lia) ltac:(lia)) as Hp.
  rewrite land_not_low in Hs by (unfold u64_ok, U64_MAX in *; lia). subst s.
  pose proof (Z.mod_pos_bound (v + (2 ^ k - 1)) (2 ^ k) Hp) as Hm.
  split; [lia|]. split; [|lia].
  set (w := v + (2 ^ k - 1)) in *.
  rewrite Zminus_mod_idemp_r, Z.sub_diag. apply Z.mod_0_l. lia.
Qed.

(** ** What an accepted geometry guarantees *)

(** The invariant of a geometry the store may use; [compute] establishes it
    and nothing mutates a geometry afterwards. *)
Record geometry_wf (g : Geometry) : Prop := {
  gwf_header : slot_header_size g = SLOT_HEADER_SIZE;
  gwf_block : 512 ≤ device_block_size g ≤ 65536;
  gwf_unit : device_block_size g ≤ crypto_unit_size g;
  gwf_unit_multiple : (device_block_size g | crypto_unit_size g);
  gwf_ct : crypto_unit_size g ≤ max_ciphertext_size g ≤ MAX_PAYLOAD;
  gwf_virtual : 0 < max_virtual_size g ≤ I64_MAX;
  gwf_virtual_multiple : (crypto_unit_size g | max_virtual_size g);
  gwf_shard_multiple : (crypto_unit_size g | shard_logical_size g);
  gwf_slot : SLOT_HEADER_SIZE + max_ciphertext_size g ≤ slot_size g
             < SLOT_HEADER_SIZE + max_ciphertext_size g + slot_alignment g;
  gwf_slot_aligned : slot_size g mod slot_alignment g = 0;
  gwf_units_per_shard : 0 < units_per_shard g ≤ U32_MAX;
  gwf_num_shards : 0 < num_shards g ≤ MAX_SHARDS;
  gwf_span : num_shards g * (units_per_shard g * slot_size g) ≤ U64_MAX
}.

Lemma capacity_plan_ok g p :
  0 ≤ units_per_shard g → 0 ≤ slot_size g →
  capacity_plan g = Ok p →
  cp_num_units p = num_units g ∧ cp_num_shards p = num_shards g ∧
  num_shards g ≤ MAX_SHARDS ∧
  full_slot_span_bytes p = num_shards g * (units_per_shard g * slot_size g) ∧
  full_slot_span_bytes p ≤ U64_MAX ∧
  allocation_map_ab_bytes p =
    2 * num_shards g * (ALLOCATION_ENCODED_FIXED_BYTES + div_ceil (units_per_shard g) 8) ∧
  catalog_ab_bytes p = 2 * (num_shards g * 8 + CATALOG_ENCODED_FIXED_BYTES).
Proof.
  unfold capacity_plan, and_then. intros Hu Hs Hp. inv_res.
  repeat match goal with
  | H : match checked_mul ?a ?b with _ => _ end = Some _ |- _ =>
      destruct (checked_mul a b) eqn:?; [|discriminate H]
  end.
  repeat match goal with
  | H : checked_mul _ _ = Some _ |- _ => apply checked_mul_some in H as [? ?]
  | H : checked_add _ _ = Some _ |- _ => apply checked_add_some in H as [? ?]
  end.
  apply negb_true_iff, Z.ltb_ge in Hb. subst; simpl. repeat split; lia.
Qed.

(** Arithmetic facts [compute]'s integer arguments have in Rust. *)
Definition compute_args (dbs cus al ct vs ss : Z) : Prop :=
  u32_ok dbs ∧ u32_ok cus ∧ u32_ok al ∧ u32_ok ct ∧ u64_ok vs ∧ u64_ok ss.

Lemma pow2_u32_le_64 al k : u32_ok al → al = 2 ^ k → 0 ≤ k → 0 ≤ k ≤ 64.
Proof.
  intros Ha -> Hk. split; [done|]. destruct (Z.le_gt_cases k 64); [done|].
  assert (2 ^ 64 ≤ 2 ^ k) by (apply Z.pow_le_mono_r; lia). unfold u32_ok in Ha. lia.
Qed.

Lemma multiple_div_pos a b : 0 < b → 0 < a → (b | a) → 0 < a / b.
Proof. intros Hb Ha [q ->]. rewrite Z.div_mul by lia. nia. Qed.

(** What each of [compute]'s guards rejected. *)
Lemma compute_fields dbs cus al ct vs ss g :
  compute dbs cus al ct vs ss = Ok g →
  ∃ s, align_up (SLOT_HEADER_SIZE + ct) al = Ok s ∧
  g = mkGeometry dbs cus al ct SLOT_HEADER_SIZE s vs ss ∧
  is_pow2 al = true ∧ 512 ≤ al ∧ 512 ≤ dbs ≤ 65536 ∧ dbs ≤ cus ∧ cus mod dbs = 0 ∧
  cus ≤ ct ≤ MAX_PAYLOAD ∧ vs ≠ 0 ∧ vs mod cus = 0 ∧ vs ≤ I64_MAX ∧
  ss ≠ 0 ∧ ss mod cus = 0 ∧ units_per_shard g ≤ U32_MAX ∧
  ∃ p, capacity_plan g = Ok p.
Proof.
  unfold compute. intros Hc. inv_res. subst g. simpl.
  repeat match goal with
  | H : negb _ = true |- _ => apply negb_true_iff in H
  | H : negb _ = false |- _ => apply negb_false_iff in H
  | H : _ || _ = false |- _ => apply orb_false_iff in H as [? ?]
  | H : _ && _ = true |- _ => apply andb_true_iff in H as [? ?]
  end.
  unfold is_multiple_of in *.
  repeat match goal with
  | H : (_ <? _) = false |- _ => apply Z.ltb_ge in H
  | H : (_ <=? _) = true |- _ => apply Z.leb_le in H
  | H : (_ =? _) = true |- _ => apply Z.eqb_eq in H
  | H : (_ =? _) = false |- _ => apply Z.eqb_neq in H
  end.
  eexists. split; [eassumption|]. split; [done|]. repeat split; eauto; lia.
Qed.

Lemma compute_wf dbs cus al ct vs ss g :
  compute_args dbs cus al ct vs ss →
  compute dbs cus al ct vs ss = Ok g → geometry_wf g.
Proof.
  intros (Hdbs & Hcus & Hal & Hct & Hvs & Hss) Hc.
  destruct (compute_fields _ _ _ _ _ _ _ Hc) as
    (s & Hs & -> & Hp & Hal5 & Hdb & Hcu & Hcm & Hctr & Hv0 & Hvm & Hvi & Hs0 & Hsm & Hup & p & Hcap).
  unfold u32_ok, u64_ok in *.
  destruct (is_pow2_spec al ltac:(lia) Hp) as (k & Hk & Hal2).
  pose proof (pow2_u32_le_64 al k ltac:(unfold u32_ok; lia) Hal2 Hk) as Hk64.
  rewrite Hal2 in Hs.
  apply align_up_spec in Hs as (Hs1 & Hs2 & Hs3); [|lia|unfold SLOT_HEADER_SIZE; lia].
  apply Z.mod_divide in Hcm, Hvm, Hsm; [|lia..].
  assert (0 < ss / cus) as Hups by (apply multiple_div_pos; [lia|lia|done]).
  assert (0 < vs / cus) as Hnu by (apply multiple_div_pos; [lia|lia|done]).
  apply capacity_plan_ok in Hcap as (_ & _ & Hsh & Hspan & Hmax & _ & _);
    [|unfold units_per_shard; simpl; lia|simpl; unfold SLOT_HEADER_SIZE in *; lia].
  assert (0 < num_shards (mkGeometry dbs cus al ct SLOT_HEADER_SIZE s vs ss)).
  { unfold num_shards.
    pose proof (div_ceil_spec (vs / cus) (ss / cus) Hups) as Hd.
    unfold num_units, units_per_shard. simpl. nia. }
  constructor; simpl in *; unfold SLOT_HEADER_SIZE in *; try done; try lia; subst al; done.
Qed.

(** The slot fields of an accepted geometry are derived from its inputs. *)
Lemma compute_slot_ok db cu sa mc mv sl g :
  compute_args db cu sa mc mv sl → compute db cu sa mc mv sl = Ok g →
  g = mkGeometry db cu sa mc SLOT_HEADER_SIZE (slot_size g) mv sl ∧ u64_ok (slot_size g).
Proof.
  intros Ha Hc. pose proof (compute_wf _ _ _ _ _ _ _ Ha Hc) as Hwf.
  pose proof (gwf_slot g Hwf) as Hs. pose proof (gwf_span g Hwf) as Hsp.
  pose proof (gwf_units_per_shard g Hwf). pose proof (gwf_num_shards g Hwf).
  pose proof (gwf_ct g Hwf). pose proof (gwf_unit g Hwf). pose proof (gwf_block g Hwf).
  split; [by destruct (compute_fields _ _ _ _ _ _ _ Hc) as (s & _ & -> & _)|].
  unfold SLOT_HEADER_SIZE in *.
  split; [lia|]. unfold U64_MAX in *. nia.
Qed.

(** ** Addressing *)

(** A unit of the device lives in an existing shard, at an index the
    allocation map covers. *)
Lemma shard_of_unit_range g unit s i :
  geometry_wf g → 0 ≤ unit < num_units g → shard_of_unit g unit = (s, i) →
  0 ≤ s < num_shards g ∧ 0 ≤ i < units_per_shard g ∧ unit = s * units_per_shard g + i.
Proof.
  intros Hg Hu [= <- <-]. pose proof (gwf_units_per_shard g Hg) as Hp.
  pose proof (Z.div_mod unit (units_per_shard g) ltac:(lia)) as Hdm.
  pose proof (Z.mod_pos_bound unit (units_per_shard g) ltac:(lia)) as Hm.
  pose proof (div_ceil_spec (num_units g) (units_per_shard g) ltac:(lia)) as Hd.
  fold (num_shards g) in Hd.
  split; [|split; lia].
  split; [apply Z.div_pos; lia|].
  apply Z.div_lt_upper_bound; lia.
Qed.

(** Slots of one shard do not overlap, and the last one ends inside the
    shard's physical size. *)
Lemma slot_offset_bounds g i :
  geometry_wf g → 0 ≤ i < units_per_shard g →
  0 ≤ slot_offset g i ∧
  slot_offset g i + slot_size g ≤ units_per_shard g * slot_size g ∧
  units_per_shard g * slot_size g ≤ U64_MAX.
Proof.
  intros Hg Hi. unfold slot_offset.
  pose proof (gwf_slot g Hg). pose proof (gwf_ct g Hg). pose proof (gwf_block g Hg).
  pose proof (gwf_unit g Hg). pose proof (gwf_span g Hg). pose proof (gwf_num_shards g Hg).
  unfold SLOT_HEADER_SIZE in *.
  assert (0 < slot_size g) by lia.
  assert (0 ≤ units_per_shard g * slot_size g) by nia.
  split; [nia|]. split; [nia|].
  transitivity (num_shards g * (units_per_shard g * slot_size g)); [|lia].
  nia.
Qed.

(** C40. Slot addressing is sound for every geometry that [Geometry::compute]
    accepts: each device unit maps to a shard and an in-shard slot inside the
    computed counts, the slot's byte range (header plus the largest
    ciphertext) lies inside the shard file and below 2^64, so none of the
    store's unchecked products can wrap, and two different units never share
    a byte of the same shard file. *)
Theorem addressing_sound dbs cus al ct vs ss g u1 u2 :
  compute_args dbs cus al ct vs ss →
  compute dbs cus al ct vs ss = Ok g →
  0 ≤ u1 < num_units g → 0 ≤ u2 < num_units g → u1 ≠ u2 →
  let '(s1, i1) := shard_of_unit g u1 in
  let '(s2, i2) := shard_of_unit g u2 in
  (0 ≤ s1 < num_shards g ∧ 0 ≤ i1 < units_per_shard g ∧
   0 ≤ slot_offset g i1 ∧
   slot_offset g i1 + slot_header_size g + max_ciphertext_size g
     ≤ units_per_shard g * slot_size g ≤ U64_MAX) ∧
  (s1 ≠ s2 ∨ slot_offset g i1 + slot_size g ≤ slot_offset g i2
           ∨ slot_offset g i2 + slot_size g ≤ slot_offset g i1).
Proof.
  intros Ha Hc H1 H2 Hne. pose proof (compute_wf _ _ _ _ _ _ _ Ha Hc) as Hg.
  destruct (shard_of_unit g u1) as [s1 i1] eqn:E1.
  destruct (shard_of_unit g u2) as [s2 i2] eqn:E2.
  apply shard_of_unit_range in E1 as (Hs1 & Hi1 & Hu1); [|done..].
  apply shard_of_unit_range in E2 as (Hs2 & Hi2 & Hu2); [|done..].
  pose proof (slot_offset_bounds g i1 Hg Hi1) as (Hb1 & Hb2 & Hb3).
  pose proof (gwf_slot g Hg). pose proof (gwf_header g Hg) as Hh.
  split; [rewrite Hh; lia|].
  destruct (decide (s1 = s2)) as [->|]; [right|by left].
  unfold slot_offset. assert (i1 ≠ i2) by congruence.
  pose proof (gwf_ct g Hg). pose proof (gwf_block g Hg). pose proof (gwf_unit g Hg).
  unfold SLOT_HEADER_SIZE in *. destruct (Z.lt_ge_cases i1 i2); [left|right]; nia.
Qed.

Lemma addressing_sound_witness :
  ∃ g, compute 4096 4096 4096 4112 1048576 65536 = Ok g ∧
  slot_offset g (snd (shard_of_unit g 17)) + slot_size g
    ≤ slot_offset g (snd (shard_of_unit g 18)).
Proof.
  eexists. split; [vm_compute; reflexivity|].
  pose proof (addressing_sound 4096 4096 4096 4112 1048576 65536 _ 17 18
    ltac:(unfold compute_args, u32_ok, u64_ok; lia) eq_refl
    ltac:(vm_compute; split; congruence) ltac:(vm_compute; split; congruence) ltac:(lia)) as Hs.
  vm_compute in Hs. destruct Hs as [_ [Hs|[Hs|Hs]]]; vm_compute; try done; congruence.
Defined.
