(* ===== verification/AbRecord.v ===== *)
(** * AbRecord: the interface of A/B replicated records
    (crates/maki-format/src/ab.rs, trait [AbRecord] and [RawGeneration])

    [AbRecord] has the trait's members; [AbRecordLaws] is what the A/B store
    relies on.  Every metadata record of the format discharges the laws, and
    the store's theorems are proved against them. *)

From S2P Require Import Prelude Codec.

Local Open Scope Z_scope.

(** [MAX_RECORD_SIZE], the default bound. *)
Definition MAX_RECORD_SIZE : Z := Z.shiftl 1 30.

(** The trait.  [ab_encode] returns [None] where the Rust method panics (an
    [assert!] or [expect] on a record that cannot be represented). *)
Class AbRecord (T : Type) := {
  MAX_ENCODED_LEN : Z;
  generation : T → Z;
  set_generation : Z → T → T;
  ab_encode : T → option bytes;
  ab_decode : bytes → fres T
}.

Section Raw.
Context `{Crc32}.

(** The type-agnostic generation probe: [magic[8] version[4] generation[8]]
    under a trailing checksum. *)
Definition raw_body : rd Z :=
  let! _ := rd_take 8 in
  let! _ := rd_u32 in
  let! generation := rd_u64 in
  rd_ret generation.

Definition raw_decode (data : bytes) : fres Z :=
  let? payload := strip_verify_crc data in run_rd raw_body payload.

(** A checksummed payload of the common shape has its generation where the
    probe reads it. *)
Lemma raw_decode_finish magic version gen tl :
  length magic = 8%nat → u32_ok version → u64_ok gen →
  raw_decode (finish_with_crc (magic ++ to_le 4 version ++ to_le 8 gen ++ tl)) = Ok gen.
Proof.
  intros Hm Hv Hg. unfold raw_decode. rewrite strip_finish. simpl.
  unfold run_rd, raw_body.
  assert (parses (let! _ := rd_take 8 in let! _ := rd_u32 in let! g := rd_u64 in rd_ret g)
            (magic ++ to_le 4 version ++ to_le 8 gen) gen) as Hp.
  { repeat parse_step. apply parses_ret. }
  rewrite (Hp (Reader_new _) tl); [done|].
  rewrite rest_new. by rewrite <- !(assoc_L (++)).
Qed.

Class AbRecordLaws (T : Type) `{AbRecord T} := {
  (** The records the code builds: every field in its width. *)
  ab_wf : T → Prop;
  ab_wf_generation x : ab_wf x → u64_ok (generation x);
  ab_set_wf g x : u64_ok g → ab_wf x → ab_wf (set_generation g x);
  ab_generation_set g (x : T) : generation (set_generation g x) = g;
  ab_encode_ok x : ab_wf x → ∃ bs, ab_encode x = Some bs ∧
    0 < blen bs ≤ MAX_ENCODED_LEN ∧ ab_decode bs = Ok x;
  (** A typed-valid copy within the bound has the generation the raw probe
      sees. *)
  ab_decode_raw bs x : blen bs ≤ MAX_ENCODED_LEN → ab_decode bs = Ok x →
    raw_decode bs = Ok (generation x) ∧ u64_ok (generation x)
}.
End Raw.

Arguments ab_wf {_ T _ _} x.
