(* ===== verification/Metadata.v ===== *)
(** * Metadata: the small on-disk records
    (crates/maki-format/src/{slot,allocation,catalog,checkpoint,canary}.rs)

    One module per record: its fields, [encode], [decode] in the order of
    the source's checks, and its round trip.  Records that are A/B
    replicated are instances of [AbRecord] and discharge [AbRecordLaws]. *)

From S2P Require Import Prelude Codec Layout Geometry AbRecord.

Local Open Scope Z_scope.

(** ASCII magic numbers. *)
Definition magic (s : string) : bytes := String.list_byte_of_string s.

(** ** Ciphertext slot header (slot.rs) *)
Module Slot.
Definition SLOT_MAGIC : bytes := magic "MAKISLT1".

Record SlotHeader := mkSlotHeader {
  unit_index : Z;
  write_sequence : Z;
  ciphertext_len : Z;
  flags : Z;
  ciphertext_crc : Z
}.

Definition slot_header_ok (h : SlotHeader) : Prop :=
  u64_ok (unit_index h) ∧ u64_ok (write_sequence h) ∧ u32_ok (ciphertext_len h) ∧
  u32_ok (flags h) ∧ u32_ok (ciphertext_crc h).

Section WithCrc.
Context `{Crc32}.

Definition encode (h : SlotHeader) : bytes :=
  let w := Writer_new ~> w_bytes SLOT_MAGIC ~> w_u64 (unit_index h)
    ~> w_u64 (write_sequence h) ~> w_u32 (ciphertext_len h) ~> w_u32 (flags h)
    ~> w_u32 (ciphertext_crc h) ~> w_bytes (zeros 24) in
  finish_with_crc w.

Definition body : rd SlotHeader :=
  let! _ := rd_take 8 in
  let! unit_index := rd_u64 in
  let! write_sequence := rd_u64 in
  let! ciphertext_len := rd_u32 in
  let! flags := rd_u32 in
  let! ciphertext_crc := rd_u32 in
  rd_ret (mkSlotHeader unit_index write_sequence ciphertext_len flags ciphertext_crc).

Definition decode (data : bytes) : fres SlotHeader :=
  guard? negb (length data <? 64)%nat else Truncated in
  let data := take 64 data in
  guard? bytes_eqb (take 8 data) SLOT_MAGIC else BadMagic in
  let? payload := strip_verify_crc data in
  run_rd body payload.

Lemma slot_length_encode h : length (encode h) = 64%nat.
Proof.
  unfold encode, Writer_new, w_bytes, w_u64, w_u32, w_bytes.
  rewrite length_finish_with_crc. len_tac. reflexivity.
Qed.

Lemma slot_encode_eq h :
  encode h = finish_with_crc (SLOT_MAGIC ++ to_le 8 (unit_index h) ++ to_le 8 (write_sequence h)
    ++ to_le 4 (ciphertext_len h) ++ to_le 4 (flags h) ++ to_le 4 (ciphertext_crc h) ++ zeros 24).
Proof. unfold encode. by writer_norm. Qed.

Lemma slot_parses_body h :
  slot_header_ok h →
  parses body (SLOT_MAGIC ++ to_le 8 (unit_index h) ++ to_le 8 (write_sequence h)
    ++ to_le 4 (ciphertext_len h) ++ to_le 4 (flags h) ++ to_le 4 (ciphertext_crc h)) h.
Proof.
  intros (H1 & H2 & H3 & H4 & H5). unfold body. repeat parse_step.
  destruct h. apply parses_ret.
Qed.

(** A slot whose first 64 bytes are an encoded header decodes to it, with
    any ciphertext behind. *)
Lemma slot_decode_encode h tl : slot_header_ok h → decode (encode h ++ tl) = Ok h.
Proof.
  intros Hh. unfold decode. rewrite length_app, slot_length_encode.
  destruct (Nat.ltb_spec (64 + length tl) 64) as [|_]; [lia|]. cbn [negb].
  rewrite <- (slot_length_encode h), take_app_length, slot_encode_eq.
  rewrite take_finish by done. rewrite bytes_eqb_refl, strip_finish. cbn [rbind].
  pose proof (run_rd_prefix _ _ (zeros 24) _ (slot_parses_body h Hh)) as Hp.
  by rewrite <- !(assoc_L (++)) in Hp.
Qed.

Lemma slot_decode_fields data h : decode data = Ok h → slot_header_ok h.
Proof.
  unfold decode, body. intros Hd. inv_res. inv_rd. subst.
  unfold slot_header_ok. simpl. auto.
Qed.
End WithCrc.
End Slot.

(** ** Per-shard allocation bitmap (allocation.rs) *)
Module Allocation.
Definition ALLOCATION_MAGIC : bytes := magic "MAKIALC1".
Definition ALLOCATION_VERSION : Z := 1.
Definition MAX_UNITS : Z := Z.shiftl 1 32.

Record AllocationMap := mkAllocationMap {
  generation : Z;
  units : Z;
  bits : bytes
}.

#[global] Instance AllocationMap_eq_dec : EqDecision AllocationMap.
Proof. solve_decision. Defined.

(** [AllocationMap::new]; [None] where the assertion panics. *)
Definition new (units : Z) : option AllocationMap :=
  if units <=? MAX_UNITS then Some (mkAllocationMap 0 units (zeros (Z.to_nat (div_ceil units 8))))
  else None.

Definition bit_set (b : byte) (k : Z) : bool :=
  negb (Z.land (byte.unsigned b) (Z.shiftl 1 k) =? 0).

(** [*byte |= 1 << k] and [*byte &= !(1 << k)]. *)
Definition bit_write (b : byte) (k : Z) (v : bool) : byte :=
  byte.of_Z (if v then Z.lor (byte.unsigned b) (Z.shiftl 1 k)
             else Z.land (byte.unsigned b) (255 - Z.shiftl 1 k)).

Definition get (m : AllocationMap) (unit : Z) : option bool :=
  if unit <? units m then
    match bits m !! Z.to_nat (unit / 8) with
    | Some b => Some (bit_set b (unit mod 8))
    | None => None
    end
  else None.

Definition set (m : AllocationMap) (unit : Z) (allocated : bool) : option AllocationMap :=
  if unit <? units m then
    match bits m !! Z.to_nat (unit / 8) with
    | Some b => Some (mkAllocationMap (generation m) (units m)
                  (<[Z.to_nat (unit / 8) := bit_write b (unit mod 8) allocated]> (bits m)))
    | None => None
    end
  else None.

(** [u8::count_ones]. *)
Definition count_ones (b : byte) : Z :=
  foldr (λ k acc, Z.b2z (Z.testbit (byte.unsigned b) k) + acc) 0 (seqZ 0 8).

Definition set_count (m : AllocationMap) : Z := foldr (λ b acc, count_ones b + acc) 0 (bits m).

(** [AllocationMap::encoded_len]. *)
Definition encoded_len (units : Z) : Z := ALLOCATION_ENCODED_FIXED_BYTES + div_ceil units 8.

Section WithCrc.
Context `{Crc32}.

Definition encode (m : AllocationMap) : bytes :=
  let w := Writer_new ~> w_bytes ALLOCATION_MAGIC ~> w_u32 ALLOCATION_VERSION
    ~> w_u64 (generation m) ~> w_u64 (units m) ~> w_bytes (bits m) in
  finish_with_crc w.

Definition body : rd AllocationMap :=
  let! magic := rd_take 8 in
  let! _ := rd_guard (bytes_eqb magic ALLOCATION_MAGIC) BadMagic in
  let! version := rd_u32 in
  let! _ := rd_guard (version =? ALLOCATION_VERSION) Unsupported in
  let! generation := rd_u64 in
  let! units := rd_u64 in
  let! _ := rd_guard (negb (MAX_UNITS <? units)) Invalid in
  let! bits := rd_take (Z.to_nat (div_ceil units 8)) in
  let! _ := (let! n := rd_remaining in rd_guard (n =? 0)%nat Invalid) in
  rd_ret (mkAllocationMap generation units bits).

Definition decode (data : bytes) : fres AllocationMap :=
  let? payload := strip_verify_crc data in run_rd body payload.

(** The representation invariant: the bitmap has exactly the bytes the unit
    count needs. *)
Definition map_ok (m : AllocationMap) : Prop :=
  u64_ok (generation m) ∧ 0 ≤ units m ≤ MAX_UNITS ∧ blen (bits m) = div_ceil (units m) 8.

Lemma alloc_encode_eq m :
  encode m = finish_with_crc (ALLOCATION_MAGIC ++ to_le 4 ALLOCATION_VERSION
    ++ to_le 8 (generation m) ++ to_le 8 (units m) ++ bits m).
Proof. unfold encode. by writer_norm. Qed.

Lemma alloc_encode_length m : blen (encode m) = 32 + blen (bits m).
Proof.
  rewrite alloc_encode_eq. unfold blen. rewrite length_finish_with_crc. len_tac.
  change (length ALLOCATION_MAGIC) with 8%nat. lia.
Qed.

Lemma alloc_decode_encode m : map_ok m → decode (encode m) = Ok m.
Proof.
  intros (Hg & Hu & Hl). unfold decode. rewrite alloc_encode_eq, strip_finish. cbn [rbind].
  apply run_rd_parses. unfold body.
  assert (u64_ok (units m)) by (change MAX_UNITS with 4294967296 in Hu; unfold u64_ok; lia).
  assert (length (bits m) = Z.to_nat (div_ceil (units m) 8)) by (unfold blen in Hl; lia).
  repeat parse_step. destruct m. apply parses_all_ret.
Qed.

(** The decoder is canonical: a copy that decodes is the encoding of what it
    decodes to, and the result satisfies the invariant. *)
Lemma alloc_decode_ok data m : decode data = Ok m → data = encode m ∧ map_ok m.
Proof.
  unfold decode, body. intros Hd. inv_res. apply strip_verify_crc_ok in Hv as ->.
  inv_rd. subst m. rewrite alloc_encode_eq.
  inv_guards. subst. inv_guards. chain_rest. rewrite app_nil_r in *. simpl. subst.
  split; [done|]. split; [done|]. simpl.
  split; [unfold u64_ok in *; lia|].
  match goal with H : length _ = Z.to_nat (div_ceil ?u 8) |- _ =>
    pose proof (div_ceil_nonneg u 8 ltac:(unfold u64_ok in *; lia) ltac:(lia)) end.
  unfold blen. lia.
Qed.

#[export] Instance AllocationMap_AbRecord : AbRecord AllocationMap := {|
  MAX_ENCODED_LEN := MAX_RECORD_SIZE;
  AbRecord.generation := generation;
  set_generation g m := mkAllocationMap g (units m) (bits m);
  ab_encode m := Some (encode m);
  ab_decode := decode
|}.

#[export] Program Instance AllocationMap_laws : AbRecordLaws AllocationMap := {|
  ab_wf m := map_ok m
|}.
Next Obligation. by intros m (? & _). Qed.
Next Obligation. intros g m Hg (_ & ? & ?). done. Qed.
Next Obligation. done. Qed.
Next Obligation.
  intros m Hm. eexists. split; [done|]. split; [|by apply alloc_decode_encode].
  rewrite alloc_encode_length. destruct Hm as (_ & Hu & ->).
  pose proof (div_ceil_spec (units m) 8 ltac:(lia)).
  change MAX_UNITS with 4294967296 in Hu. simpl. change MAX_RECORD_SIZE with 1073741824. lia.
Qed.
Next Obligation.
  simpl. intros bs m _ Hd. apply alloc_decode_ok in Hd as [-> (Hg & _)]. split; [|done].
  rewrite alloc_encode_eq. by apply raw_decode_finish.
Qed.
End WithCrc.

(** *** The bitmap as a set of units *)

Lemma all_bytes_cases (f : byte → bool) :
  forallb f (byte.of_Z <$> seqZ 0 256) = true → ∀ b, f b = true.
Proof.
  intros HP b. rewrite forallb_forall in HP. apply HP, list_elem_of_In.
  rewrite <- (byte.of_Z_unsigned b). apply list_elem_of_fmap_2, elem_of_seqZ.
  pose proof (byte.unsigned_range b). lia.
Qed.

(** The effect of one bit write on every bit and on the population count of
    its byte, checked over all bytes and bit positions. *)
Definition bit_write_check (b : byte) : bool :=
  forallb (λ k, forallb (λ v,
    forallb (λ j, Bool.eqb (bit_set (bit_write b k v) j) (if j =? k then v else bit_set b j))
      (seqZ 0 8)
    && (count_ones (bit_write b k v) =? count_ones b + Z.b2z v - Z.b2z (bit_set b k)))
    [true; false]) (seqZ 0 8).

Lemma bit_write_checked b : bit_write_check b = true.
Proof.
  revert b. apply all_bytes_cases. vm_compute. reflexivity.
Qed.

Lemma bit_write_spec b k j v :
  0 ≤ k < 8 → 0 ≤ j < 8 →
  bit_set (bit_write b k v) j = (if j =? k then v else bit_set b j) ∧
  count_ones (bit_write b k v) = count_ones b + Z.b2z v - Z.b2z (bit_set b k).
Proof.
  intros Hk Hj. pose proof (bit_write_checked b) as Hc. unfold bit_write_check in Hc.
  rewrite forallb_forall in Hc. specialize (Hc k). rewrite <- list_elem_of_In in Hc.
  specialize (Hc ltac:(apply elem_of_seqZ; lia)).
  rewrite forallb_forall in Hc. specialize (Hc v ltac:(destruct v; simpl; auto)).
  apply andb_true_iff in Hc as [Hc Hn]. apply Z.eqb_eq in Hn. split; [|done].
  rewrite forallb_forall in Hc. specialize (Hc j). rewrite <- list_elem_of_In in Hc.
  specialize (Hc ltac:(apply elem_of_seqZ; lia)). by apply eqb_prop in Hc.
Qed.

Lemma foldr_count_insert l i b b' :
  l !! i = Some b →
  foldr (λ b acc, count_ones b + acc) 0 (<[i:=b']> l) =
  foldr (λ b acc, count_ones b + acc) 0 l + count_ones b' - count_ones b.
Proof.
  revert i. induction l as [|x l IH]; intros [|i] Hi; simplify_eq/=; [lia|].
  rewrite (IH i) by done. lia.
Qed.

(** Reading is total inside the map. *)
Lemma get_some m u : map_ok m → 0 ≤ u < units m → ∃ v, get m u = Some v.
Proof.
  intros (_ & Hu & Hl) Hr. unfold get. rewrite (proj2 (Z.ltb_lt _ _)) by lia.
  destruct (bits m !! Z.to_nat (u / 8)) eqn:Hb; [by eexists|].
  apply lookup_ge_None in Hb. exfalso.
  pose proof (div_ceil_spec (units m) 8 ltac:(lia)).
  pose proof (Z.div_mod u 8 ltac:(lia)). pose proof (Z.mod_pos_bound u 8 ltac:(lia)).
  unfold blen in Hl. lia.
Qed.

(** Writing one bit inside the map. *)
Lemma set_inside m u v :
  map_ok m → 0 ≤ u < units m → ∃ old m',
    get m u = Some old ∧ set m u v = Some m' ∧ map_ok m' ∧
    generation m' = generation m ∧ units m' = units m ∧
    (∀ u', 0 ≤ u' < units m → get m' u' = if u' =? u then Some v else get m u') ∧
    set_count m' = set_count m + Z.b2z v - Z.b2z old.
Proof.
  intros Hm Hu. destruct (get_some m u Hm Hu) as [old Hold]. exists old.
  unfold get in Hold. unfold set. rewrite (proj2 (Z.ltb_lt u _)) in * by lia.
  destruct (bits m !! Z.to_nat (u / 8)) as [b|] eqn:Hb; [|done]. injection Hold as <-.
  eexists. split; [by unfold get; rewrite (proj2 (Z.ltb_lt u _)), Hb by lia|].
  split; [done|]. destruct Hm as (Hg & Hun & Hl).
  split; [split; [done|]; split; [done|]; unfold blen; simpl; by rewrite length_insert|].
  split; [done|]. split; [done|].
  pose proof (Z.mod_pos_bound u 8 ltac:(lia)) as Hmu.
  split.
  - intros u' Hu'. unfold get. simpl. rewrite (proj2 (Z.ltb_lt u' _)) by lia.
    pose proof (Z.mod_pos_bound u' 8 ltac:(lia)) as Hmu'.
    pose proof (Z.div_mod u 8 ltac:(lia)). pose proof (Z.div_mod u' 8 ltac:(lia)).
    destruct (decide (u' / 8 = u / 8)) as [He|Hne].
    + rewrite He, list_lookup_insert_eq, Hb by (by eapply lookup_lt_Some).
      destruct (bit_write_spec b (u mod 8) (u' mod 8) v) as [-> _]; [done..|].
      destruct (Z.eqb_spec (u' mod 8) (u mod 8)), (Z.eqb_spec u' u); try done; lia.
    + rewrite list_lookup_insert_ne.
      * destruct (Z.eqb_spec u' u) as [->|]; [done|]. done.
      * intros He. apply Hne. apply Z2Nat.inj in He; [done|apply Z.div_pos; lia..].
  - unfold set_count. simpl. rewrite (foldr_count_insert _ _ b) by done.
    destruct (bit_write_spec b (u mod 8) (u mod 8) v) as [_ ->]; [done..|]. lia.
Qed.

(** The allocation bitmap is an updatable map from units to booleans:
    [set] inside the map succeeds, keeps the representation invariant and
    the generation, changes exactly the addressed unit, and moves
    [set_count] by exactly the difference it made; outside the map both
    operations panic. *)
Theorem set_spec m u v :
  map_ok m →
  (units m ≤ u → get m u = None ∧ set m u v = None) ∧
  (0 ≤ u < units m → ∃ old m',
    get m u = Some old ∧ set m u v = Some m' ∧ map_ok m' ∧
    generation m' = generation m ∧ units m' = units m ∧
    (∀ u', 0 ≤ u' < units m → get m' u' = if u' =? u then Some v else get m u') ∧
    set_count m' = set_count m + Z.b2z v - Z.b2z old).
Proof.
  intros Hm. split; [|by apply set_inside].
  intros Hu. unfold get, set. by rewrite (proj2 (Z.ltb_ge _ _)).
Qed.

Lemma set_spec_witness :
  ∃ m', set (mkAllocationMap 0 20 (zeros 3)) 11 true = Some m' ∧
  get m' 11 = Some true ∧ get m' 12 = Some false ∧ set_count m' = 1.
Proof.
  destruct (proj2 (set_spec (mkAllocationMap 0 20 (zeros 3)) 11 true
    ltac:(by vm_compute)) ltac:(by vm_compute)) as (old & m' & Ho & Hs & _ & _ & _ & Hget & Hc).
  exists m'. split; [exact Hs|].
  rewrite !Hget by (vm_compute; split; congruence). rewrite Hc.
  vm_compute in Ho. injection Ho as <-. by vm_compute.
Defined.
End Allocation.

(** ** Shard catalog (catalog.rs) *)
Module Catalog.
Definition CATALOG_MAGIC : bytes := magic "MAKICAT1".
Definition CATALOG_VERSION : Z := 1.

(** [shards] is the [BTreeSet<u64>] in its iteration order: strictly
    ascending. *)
Record ShardCatalog := mkShardCatalog {
  generation : Z;
  shards : list Z
}.

#[global] Instance ShardCatalog_eq_dec : EqDecision ShardCatalog.
Proof. solve_decision. Defined.

Definition new : ShardCatalog := mkShardCatalog 0 [].

Definition contains (c : ShardCatalog) (shard : Z) : bool := bool_decide (shard ∈ shards c).

(** [BTreeSet::insert]: whether the value was new. *)
Fixpoint set_insert (x : Z) (l : list Z) : list Z * bool :=
  match l with
  | [] => ([x], true)
  | y :: l' =>
      if x <? y then (x :: l, true)
      else if x =? y then (l, false)
      else let '(l'', fresh) := set_insert x l' in (y :: l'', fresh)
  end.

Definition insert (shard : Z) (c : ShardCatalog) : ShardCatalog * bool :=
  let '(l, fresh) := set_insert shard (shards c) in (mkShardCatalog (generation c) l, fresh).

Definition shard_indices (c : ShardCatalog) : list Z := shards c.
Definition len (c : ShardCatalog) : Z := blen (shards c).
Definition is_empty (c : ShardCatalog) : bool :=
  match shards c with [] => true | _ => false end.

(** [ShardCatalog::max_encoded_len]. *)
Definition max_encoded_len (shards : Z) : Z :=
  CATALOG_ENCODED_FIXED_BYTES + saturating_mul shards 8.

Section WithCrc.
Context `{Crc32}.

Definition encode (c : ShardCatalog) : bytes :=
  let w := Writer_new ~> w_bytes CATALOG_MAGIC ~> w_u32 CATALOG_VERSION
    ~> w_u64 (generation c) ~> w_u32 (blen (shards c)) in
  finish_with_crc (foldl (λ w shard, w_u64 shard w) w (shards c)).

(** [for _ in 0..count]: each entry above the previous one. *)
Fixpoint entries (count : nat) (prev : option Z) : rd (list Z) :=
  match count with
  | O => rd_ret []
  | S n =>
      let! s := rd_u64 in
      let! _ := rd_guard (match prev with Some p => negb (s <=? p) | None => true end) Invalid in
      let! l := entries n (Some s) in
      rd_ret (s :: l)
  end.

Definition body : rd ShardCatalog :=
  let! magic := rd_take 8 in
  let! _ := rd_guard (bytes_eqb magic CATALOG_MAGIC) BadMagic in
  let! version := rd_u32 in
  let! _ := rd_guard (version =? CATALOG_VERSION) Unsupported in
  let! generation := rd_u64 in
  let! count := rd_u32 in
  let! _ := rd_guard (negb (MAX_SHARDS <? count)) Invalid in
  let! shards := entries (Z.to_nat count) None in
  let! _ := (let! n := rd_remaining in rd_guard (n =? 0)%nat Invalid) in
  rd_ret (mkShardCatalog generation shards).

Definition decode (data : bytes) : fres ShardCatalog :=
  let? payload := strip_verify_crc data in run_rd body payload.

(** The representation invariant. *)
Definition above (prev : option Z) (s : Z) : Prop :=
  match prev with Some p => p < s | None => True end.

Fixpoint ascending (prev : option Z) (l : list Z) : Prop :=
  match l with [] => True | s :: l' => above prev s ∧ ascending (Some s) l' end.

Definition catalog_ok (c : ShardCatalog) : Prop :=
  u64_ok (generation c) ∧ ascending None (shards c) ∧
  Forall u64_ok (shards c) ∧ blen (shards c) ≤ MAX_SHARDS.

Definition print_entries (l : list Z) : bytes := l ≫= to_le 8.

Arguments print_entries : simpl never.

Lemma print_entries_cons x l : print_entries (x :: l) = to_le 8 x ++ print_entries l.
Proof. reflexivity. Qed.

Lemma foldl_entries l w :
  foldl (λ w shard, w_u64 shard w) w l = w ++ print_entries l.
Proof.
  revert w. induction l as [|x l IH]; intros w; simpl; [by rewrite app_nil_r|].
  rewrite IH, print_entries_cons. unfold w_u64, w_bytes. by rewrite (assoc_L (++)).
Qed.

Lemma catalog_encode_eq c :
  encode c = finish_with_crc (CATALOG_MAGIC ++ to_le 4 CATALOG_VERSION
    ++ to_le 8 (generation c) ++ to_le 4 (blen (shards c)) ++ print_entries (shards c)).
Proof. unfold encode. rewrite foldl_entries. by writer_norm. Qed.

Lemma length_print_entries l : blen (print_entries l) = 8 * blen l.
Proof.
  induction l as [|x l IH]; [done|].
  rewrite print_entries_cons, blen_app, IH. unfold blen. rewrite length_to_le. simpl. lia.
Qed.

Lemma catalog_encode_length c : blen (encode c) = CATALOG_ENCODED_FIXED_BYTES + 8 * blen (shards c).
Proof.
  rewrite catalog_encode_eq. pose proof (length_print_entries (shards c)) as Hl.
  unfold blen in *. rewrite length_finish_with_crc. len_tac.
  change (length CATALOG_MAGIC) with 8%nat. unfold CATALOG_ENCODED_FIXED_BYTES. lia.
Qed.

Lemma parses_entries l prev :
  Forall u64_ok l → ascending prev l → parses (entries (length l) prev) (print_entries l) l.
Proof.
  revert prev. induction l as [|s l IH]; intros prev Hu Ha; [apply parses_ret|].
  inversion_clear Hu. destruct Ha as [Hp Ha]. rewrite print_entries_cons.
  eapply parses_bind; [by apply parses_u64|].
  eapply parses_bind_nil.
  { apply parses_guard. destruct prev; [|done]. simpl in Hp.
    apply negb_true_iff, Z.leb_gt. lia. }
  eapply parses_bind_last; [by apply IH|]. apply parses_ret.
Qed.

Lemma catalog_decode_encode c : catalog_ok c → decode (encode c) = Ok c.
Proof.
  intros (Hg & Ha & Hu & Hl). unfold decode. rewrite catalog_encode_eq, strip_finish. cbn [rbind].
  apply run_rd_parses. unfold body.
  pose proof (blen_nonneg (shards c)).
  assert (u32_ok (blen (shards c))).
  { change MAX_SHARDS with 16777216 in Hl. unfold u32_ok. lia. }
  pose proof (parses_entries (shards c) None Hu Ha) as He.
  replace (length (shards c)) with (Z.to_nat (blen (shards c))) in He by (unfold blen; lia).
  repeat parse_step. destruct c. apply parses_all_ret.
Qed.

Lemma entries_ok n prev r l r2 :
  entries n prev r = Ok (l, r2) →
  rest r = print_entries l ++ rest r2 ∧ length l = n ∧ ascending prev l ∧ Forall u64_ok l.
Proof.
  revert prev r l r2. induction n as [|n IH]; intros prev r l r2 He; simpl in He.
  { apply rd_ret_ok in He as [-> ->]. done. }
  inv_rd. subst l.
  match goal with H : entries _ _ _ = Ok _ |- _ => apply IH in H as (He1 & He2 & He3 & He4) end.
  rewrite print_entries_cons, <- (assoc_L (++)), <- He1.
  split; [done|]. split; [simpl; lia|]. split; [|by constructor].
  split; [|done]. destruct prev; simpl; [|done]. inv_guards. lia.
Qed.

Lemma catalog_decode_ok data c : decode data = Ok c → data = encode c ∧ catalog_ok c.
Proof.
  unfold decode, body. intros Hd. inv_res. apply strip_verify_crc_ok in Hv as ->.
  inv_rd. subst c.
  match goal with H : entries _ _ _ = Ok _ |- _ => apply entries_ok in H as (He1 & He2 & He3 & He4) end.
  rewrite catalog_encode_eq. inv_guards. subst. inv_guards.
  chain_rest. rewrite app_nil_r in *. simpl in *. subst.
  match goal with H : length ?l = Z.to_nat ?n |- _ =>
    assert (blen l = n) as Hln by (unfold blen, u32_ok in *; lia) end.
  rewrite Hln. split; [done|]. split; [done|]. simpl. rewrite Hln. done.
Qed.

#[export] Instance ShardCatalog_AbRecord : AbRecord ShardCatalog := {|
  MAX_ENCODED_LEN := MAX_RECORD_SIZE;
  AbRecord.generation := generation;
  set_generation g c := mkShardCatalog g (shards c);
  ab_encode c := Some (encode c);
  ab_decode := decode
|}.

#[export] Program Instance ShardCatalog_laws : AbRecordLaws ShardCatalog := {|
  ab_wf c := catalog_ok c
|}.
Next Obligation. by intros c (? & _). Qed.
Next Obligation. intros g c Hg (_ & ?). done. Qed.
Next Obligation. done. Qed.
Next Obligation.
  intros c Hc. eexists. split; [done|]. split; [|by apply catalog_decode_encode].
  rewrite catalog_encode_length. destruct Hc as (_ & _ & _ & Hl). pose proof (blen_nonneg (shards c)).
  change MAX_SHARDS with 16777216 in Hl. simpl. change MAX_RECORD_SIZE with 1073741824.
  unfold CATALOG_ENCODED_FIXED_BYTES. lia.
Qed.
Next Obligation.
  simpl. intros bs c _ Hd. apply catalog_decode_ok in Hd as [-> (Hg & _)]. split; [|done].
  rewrite catalog_encode_eq. by apply raw_decode_finish.
Qed.
End WithCrc.

(** *** Insertion *)

Lemma ascending_weaken p q l : above p q → ascending (Some q) l → ascending p l.
Proof. destruct l, p; simpl; [done..| |]; intros; intuition lia. Qed.

Lemma ascending_insert x l prev :
  above prev x → ascending prev l → ascending prev (fst (set_insert x l)).
Proof.
  revert prev. induction l as [|y l IH]; intros prev Hx Ha; [by split|].
  destruct Ha as [Hy Ha]. simpl. repeat zcase; [by repeat split| |].
  - by split.
  - specialize (IH (Some y) ltac:(simpl; lia) Ha).
    destruct (set_insert x l) as [l' f]. by split.
Qed.

Lemma ascending_above x p l : ascending (Some p) l → x ∈ l → p < x.
Proof.
  revert p. induction l as [|y l IH]; intros p Ha Hin; [by apply not_elem_of_nil in Hin|].
  destruct Ha as [Hp Ha]. apply elem_of_cons in Hin as [->|Hin]; [done|].
  simpl in Hp. specialize (IH y Ha Hin). lia.
Qed.

Lemma elem_of_set_insert x l y prev :
  ascending prev l → y ∈ fst (set_insert x l) ↔ y = x ∨ y ∈ l.
Proof.
  revert prev. induction l as [|z l IH]; intros prev Ha; simpl; [set_solver|].
  destruct Ha as [_ Ha]. repeat zcase; [set_solver|set_solver|].
  specialize (IH (Some z) Ha). destruct (set_insert x l) as [l' f]. set_solver.
Qed.

Lemma set_insert_fresh x l prev :
  ascending prev l → snd (set_insert x l) = negb (bool_decide (x ∈ l)).
Proof.
  revert prev. induction l as [|z l IH]; intros prev Ha; simpl; [done|].
  destruct Ha as [_ Ha]. repeat zcase.
  - rewrite bool_decide_eq_false_2; [done|]. intros Hin.
    apply elem_of_cons in Hin as [->|Hin]; [lia|].
    pose proof (ascending_above _ _ _ Ha Hin). lia.
  - rewrite bool_decide_eq_true_2; [done|]. subst. set_solver.
  - specialize (IH (Some z) Ha). destruct (set_insert x l) as [l' f]. simpl in *.
    rewrite IH. f_equal. apply bool_decide_ext. set_solver.
Qed.

Lemma insert_elem c x y : catalog_ok c → y ∈ shards (insert x c).1 ↔ y = x ∨ y ∈ shards c.
Proof.
  intros (_ & Ha & _). pose proof (elem_of_set_insert x (shards c) y None Ha) as Hel.
  unfold insert. by destruct (set_insert x (shards c)).
Qed.

(** An ascending list of numbers below [n] is no longer than [n]. *)
Lemma ascending_length n p l :
  ascending (Some p) l → (∀ x, x ∈ l → x < n) → p < n → Z.of_nat (length l) < n - p.
Proof.
  revert p. induction l as [|y l IH]; intros p Ha Hn Hp; simpl; [lia|]. destruct Ha as [Hy Ha]. simpl in Hy.
  specialize (IH y Ha ltac:(set_solver) ltac:(set_solver)). lia.
Qed.

Lemma insert_ok c x n :
  catalog_ok c → 0 ≤ x < n → n ≤ MAX_SHARDS → (∀ y, y ∈ shards c → 0 ≤ y < n) → catalog_ok (insert x c).1.
Proof.
  intros Hc Hx Hn Hall. pose proof (insert_elem c x) as Hel. pose proof Hc as (Hg & Ha & Hu & Hl).
  pose proof (ascending_insert x (shards c) None I Ha) as Ha'.
  assert (∀ y, y ∈ shards (insert x c).1 → 0 ≤ y < n) as Hall' by (intros y [->|?]%Hel; auto).
  unfold insert in *. destruct (set_insert x (shards c)) as [l f] eqn:E. simpl in *.
  split; [done|]. split; [done|]. simpl. change MAX_SHARDS with 16777216 in *. split.
  - apply list.Forall_forall. intros y Hy. specialize (Hall' y Hy). unfold u64_ok, U64_MAX. lia.
  - destruct l as [|y l]; [done|]. destruct Ha' as [_ Ha']. pose proof (Hall' y ltac:(set_solver)).
    pose proof (ascending_length n y l Ha' ltac:(intros z Hz; apply Hall'; set_solver) ltac:(lia)).
    unfold blen. simpl. lia.
Qed.

(** The shard catalog: inserting keeps the strictly ascending on-disk
    order, adds exactly the given shard and reports whether it was new; and
    a catalog survives the disk: decoding its encoding returns it, and
    anything that decodes is byte for byte the encoding of an ascending
    catalog. *)
Theorem catalog_spec `{Crc32} c shard :
  catalog_ok c → u64_ok shard → blen (shards c) < MAX_SHARDS →
  let '(c', fresh) := insert shard c in
  catalog_ok c' ∧ (∀ s, contains c' s = bool_decide (s = shard) || contains c s) ∧
  fresh = negb (contains c shard) ∧ decode (encode c') = Ok c' ∧
  (∀ data d, decode data = Ok d → data = encode d ∧ ascending None (shards d)).
Proof.
  intros (Hg & Ha & Hu & Hl) Hs Hlt.
  pose proof (ascending_insert shard (shards c) None I Ha) as Ha'.
  pose proof (elem_of_set_insert shard (shards c)) as Hel.
  pose proof (set_insert_fresh shard (shards c) None Ha) as Hf.
  unfold insert. destruct (set_insert shard (shards c)) as [l f] eqn:E. simpl in *.
  assert (catalog_ok (mkShardCatalog (generation c) l)) as Hok.
  { split; [done|]. split; [done|]. simpl. split.
    - apply list.Forall_forall. intros x Hx. rewrite Hel in Hx by exact Ha.
      destruct Hx as [->|Hx]; [done|]. rewrite list.Forall_forall in Hu. auto.
    - assert (length l ≤ S (length (shards c)))%nat; [|unfold blen in *; lia].
      clear -E. revert l f E. induction (shards c) as [|y k IH]; intros l f E; simpl in E.
      { injection E as <- _. simpl. lia. }
      repeat zcase; simplify_eq/=; [lia..|].
      destruct (set_insert shard k) as [k' f'] eqn:E'. simplify_eq/=.
      specialize (IH _ _ eq_refl). lia. }
  split; [done|]. split.
  { intros s. unfold contains. simpl. specialize (Hel s None Ha).
    repeat case_bool_decide; simpl; tauto. }
  split; [done|]. split; [by apply catalog_decode_encode|].
  intros data d Hd. apply catalog_decode_ok in Hd as [? (_ & ? & _)]. done.
Qed.

Lemma catalog_spec_witness :
  let '(c', fresh) := insert 7 (mkShardCatalog 3 [2; 9]) in
  shards c' = [2; 7; 9] ∧ fresh = true ∧ @decode Ieee.ieee (@encode Ieee.ieee c') = Ok c'.
Proof.
  assert (catalog_ok (mkShardCatalog 3 [2; 9])) as Hok.
  { split; [by vm_compute|]. split; [by vm_compute|]. split; [|by vm_compute].
    simpl. repeat apply Forall_cons_2; [by vm_compute..|apply Forall_nil_2]. }
  pose proof (@catalog_spec Ieee.ieee (mkShardCatalog 3 [2; 9]) 7 Hok
    ltac:(by vm_compute) ltac:(by vm_compute)) as Hs.
  change (insert 7 (mkShardCatalog 3 [2; 9])) with (mkShardCatalog 3 [2; 7; 9], true) in *.
  cbv beta iota in *. destruct Hs as (_ & _ & _ & Hd & _). split; [done|]. split; [done|].
  exact Hd.
Defined.
End Catalog.

(** ** Checkpoint state (checkpoint.rs) *)
Module Checkpoint.
Definition CHECKPOINT_MAGIC : bytes := magic "MAKICKP1".
Definition CHECKPOINT_VERSION : Z := 1.

Record CheckpointState := mkCheckpointState {
  generation : Z;
  checkpoint_sequence : Z
}.

#[global] Instance CheckpointState_eq_dec : EqDecision CheckpointState.
Proof. solve_decision. Defined.

Definition checkpoint_ok (c : CheckpointState) : Prop :=
  u64_ok (generation c) ∧ u64_ok (checkpoint_sequence c).

Section WithCrc.
Context `{Crc32}.

Definition encode (c : CheckpointState) : bytes :=
  let w := Writer_new ~> w_bytes CHECKPOINT_MAGIC ~> w_u32 CHECKPOINT_VERSION
    ~> w_u64 (generation c) ~> w_u64 (checkpoint_sequence c) in
  finish_with_crc w.

Definition body : rd CheckpointState :=
  let! magic := rd_take 8 in
  let! _ := rd_guard (bytes_eqb magic CHECKPOINT_MAGIC) BadMagic in
  let! version := rd_u32 in
  let! _ := rd_guard (version =? CHECKPOINT_VERSION) Unsupported in
  let! generation := rd_u64 in
  let! checkpoint_sequence := rd_u64 in
  let! _ := (let! n := rd_remaining in rd_guard (n =? 0)%nat Invalid) in
  rd_ret (mkCheckpointState generation checkpoint_sequence).

Definition decode (data : bytes) : fres CheckpointState :=
  let? payload := strip_verify_crc data in run_rd body payload.

Lemma checkpoint_encode_eq c :
  encode c = finish_with_crc (CHECKPOINT_MAGIC ++ to_le 4 CHECKPOINT_VERSION
    ++ to_le 8 (generation c) ++ to_le 8 (checkpoint_sequence c)).
Proof. unfold encode. by writer_norm. Qed.

Lemma checkpoint_encode_length c : blen (encode c) = 32.
Proof.
  rewrite checkpoint_encode_eq. unfold blen. rewrite length_finish_with_crc. len_tac.
  change (length CHECKPOINT_MAGIC) with 8%nat. lia.
Qed.

Lemma checkpoint_decode_encode c : checkpoint_ok c → decode (encode c) = Ok c.
Proof.
  intros (Hg & Hc). unfold decode. rewrite checkpoint_encode_eq, strip_finish. cbn [rbind].
  apply run_rd_parses. unfold body. repeat parse_step. destruct c. apply parses_all_ret.
Qed.

Lemma checkpoint_decode_ok data c : decode data = Ok c → data = encode c ∧ checkpoint_ok c.
Proof.
  unfold decode, body. intros Hd. inv_res. apply strip_verify_crc_ok in Hv as ->.
  inv_rd. subst c. rewrite checkpoint_encode_eq.
  inv_guards. subst. inv_guards. chain_rest. rewrite app_nil_r in *. simpl. subst. done.
Qed.

#[export] Instance CheckpointState_AbRecord : AbRecord CheckpointState := {|
  MAX_ENCODED_LEN := 32;
  AbRecord.generation := generation;
  set_generation g c := mkCheckpointState g (checkpoint_sequence c);
  ab_encode c := Some (encode c);
  ab_decode := decode
|}.

#[export] Program Instance CheckpointState_laws : AbRecordLaws CheckpointState := {|
  ab_wf c := checkpoint_ok c
|}.
Next Obligation. by intros c (? & _). Qed.
Next Obligation. intros g c Hg (_ & ?). done. Qed.
Next Obligation. done. Qed.
Next Obligation.
  intros c Hc. eexists. split; [done|]. split; [|by apply checkpoint_decode_encode].
  rewrite checkpoint_encode_length. simpl. lia.
Qed.
Next Obligation.
  simpl. intros bs c _ Hd. apply checkpoint_decode_ok in Hd as [-> (Hg & _)]. split; [|done].
  rewrite checkpoint_encode_eq. by apply raw_decode_finish.
Qed.
End WithCrc.
End Checkpoint.

(** ** Key canary (canary.rs) *)
Module Canary.
Definition CANARY_MAGIC : bytes := magic "MAKICNY1".
Definition CANARY_VERSION : Z := 1.
Definition MAX_CANARY_CIPHERTEXT : Z := Z.shiftl 16 20.
Definition CANARY_UNIT_INDEX : Z := 0x001000004D414B49.

Definition rotate_left_64 (x k : Z) : Z :=
  Z.lor (Z.shiftl x k mod 2 ^ 64) (Z.shiftr x (64 - k)).

(** One xorshift64* step: the next state. *)
Definition xorshift (x : Z) : Z :=
  let x := Z.lxor x (Z.shiftr x 12) in
  let x := Z.lxor x (Z.shiftl x 25 mod 2 ^ 64) in
  Z.lxor x (Z.shiftr x 27).

Fixpoint pattern (n : nat) (x : Z) : bytes :=
  match n with
  | O => []
  | S n' =>
      let x := xorshift x in
      byte.of_Z (Z.shiftr ((x * 0x2545F4914F6CDD1D) mod 2 ^ 64) 56) :: pattern n' x
  end.

Definition TAG : bytes := magic "MAKI-KEY-CANARY-V1".

Definition canary_plaintext (volume_uuid : bytes) (unit_size : nat) : bytes :=
  let lo := from_le (slice volume_uuid 0 8) in
  let hi := from_le (slice volume_uuid 8 16) in
  let x := Z.lxor (Z.lxor lo (rotate_left_64 hi 32)) 0x4D414B4943414E59 in
  let x := if x =? 0 then 0x9E3779B97F4A7C15 else x in
  let out := pattern unit_size x in
  let n := Nat.min (length TAG) unit_size in
  take n TAG ++ drop n out.

Record KeyCanary := mkKeyCanary {
  generation : Z;
  volume_uuid : bytes;
  unit_index : Z;
  ciphertext : bytes
}.

#[global] Instance KeyCanary_eq_dec : EqDecision KeyCanary.
Proof. solve_decision. Defined.

Definition canary_ok (c : KeyCanary) : Prop :=
  u64_ok (generation c) ∧ length (volume_uuid c) = 16%nat ∧ u64_ok (unit_index c) ∧
  blen (ciphertext c) ≤ MAX_CANARY_CIPHERTEXT.

Section WithCrc.
Context `{Crc32}.

Definition encode (c : KeyCanary) : bytes :=
  let w := Writer_new ~> w_bytes CANARY_MAGIC ~> w_u32 CANARY_VERSION
    ~> w_u64 (generation c) ~> w_uuid (volume_uuid c) ~> w_u64 (unit_index c)
    ~> w_u32 (blen (ciphertext c)) ~> w_bytes (ciphertext c) in
  finish_with_crc w.

Definition body : rd KeyCanary :=
  let! _ := rd_take 8 in
  let! version := rd_u32 in
  let! _ := rd_guard (version =? CANARY_VERSION) Unsupported in
  let! generation := rd_u64 in
  let! volume_uuid := rd_uuid in
  let! unit_index := rd_u64 in
  let! len := rd_u32 in
  let! _ := rd_guard (negb (MAX_CANARY_CIPHERTEXT <? len)) Invalid in
  let! ciphertext := rd_take (Z.to_nat len) in
  rd_ret (mkKeyCanary generation volume_uuid unit_index ciphertext).

Definition decode (data : bytes) : fres KeyCanary :=
  guard? negb ((length data <? 8)%nat || negb (bytes_eqb (take 8 data) CANARY_MAGIC)) else BadMagic in
  let? payload := strip_verify_crc data in run_rd body payload.

Lemma canary_encode_eq c :
  encode c = finish_with_crc (CANARY_MAGIC ++ to_le 4 CANARY_VERSION
    ++ to_le 8 (generation c) ++ volume_uuid c ++ to_le 8 (unit_index c)
    ++ to_le 4 (blen (ciphertext c)) ++ ciphertext c).
Proof. unfold encode. by writer_norm. Qed.

Lemma canary_encode_length c :
  length (volume_uuid c) = 16%nat → blen (encode c) = 52 + blen (ciphertext c).
Proof.
  intros Hu. rewrite canary_encode_eq. unfold blen. rewrite length_finish_with_crc. len_tac.
  change (length CANARY_MAGIC) with 8%nat. lia.
Qed.

Lemma canary_decode_encode c : canary_ok c → decode (encode c) = Ok c.
Proof.
  intros (Hg & Hv & Hu & Hl). unfold decode.
  pose proof (canary_encode_length c Hv) as Hlen. pose proof (blen_nonneg (ciphertext c)).
  assert (u32_ok (blen (ciphertext c)))
    by (change MAX_CANARY_CIPHERTEXT with 16777216 in Hl; unfold u32_ok; lia).
  destruct (Nat.ltb_spec (length (encode c)) 8) as [|_]; [unfold blen in *; lia|].
  rewrite canary_encode_eq, take_finish, bytes_eqb_refl, strip_finish by done.
  cbn [rbind negb orb]. apply run_rd_parses. unfold body.
  assert (length (ciphertext c) = Z.to_nat (blen (ciphertext c))) by (unfold blen; lia).
  do 7 parse_step. parse_step. parse_step. destruct c. apply parses_all_ret.
Qed.

(** What a copy that decodes looks like: the record's own encoding, followed
    by bytes the decoder does not look at. *)
Lemma canary_decode_ok data c :
  decode data = Ok c → canary_ok c ∧ ∃ tl,
    data = finish_with_crc (CANARY_MAGIC ++ to_le 4 CANARY_VERSION
      ++ to_le 8 (generation c) ++ volume_uuid c ++ to_le 8 (unit_index c)
      ++ to_le 4 (blen (ciphertext c)) ++ ciphertext c ++ tl).
Proof.
  unfold decode, body. intros Hd. inv_res. apply strip_verify_crc_ok in Hv as ->.
  inv_rd. subst c. inv_guards. subst. unfold canary_ok. simpl.
  match goal with H : length ?ct = Z.to_nat ?n |- _ =>
    assert (blen ct = n) as Hbl by (unfold blen, u32_ok in *; lia) end.
  rewrite Hbl. split; [done|].
  eexists. match goal with |- finish_with_crc ?a = finish_with_crc ?b => enough (a = b) as <- end;
    [done|]. chain_rest.
  match goal with H : v = ?m ++ _ |- _ =>
    assert (m = CANARY_MAGIC) as Hm;
    [match goal with H2 : take 8 _ = CANARY_MAGIC |- _ => rewrite <- H2, H, take_finish; done end|] end.
  subst. done.
Qed.

#[export] Instance KeyCanary_AbRecord : AbRecord KeyCanary := {|
  MAX_ENCODED_LEN := MAX_CANARY_CIPHERTEXT + 4096;
  AbRecord.generation := generation;
  set_generation g c := mkKeyCanary g (volume_uuid c) (unit_index c) (ciphertext c);
  ab_encode c := Some (encode c);
  ab_decode := decode
|}.

#[export] Program Instance KeyCanary_laws : AbRecordLaws KeyCanary := {|
  ab_wf c := canary_ok c
|}.
Next Obligation. by intros c (? & _). Qed.
Next Obligation. intros g c Hg (_ & ?). done. Qed.
Next Obligation. done. Qed.
Next Obligation.
  intros c Hc. eexists. split; [done|]. split; [|by apply canary_decode_encode].
  destruct Hc as (_ & Hv & _ & Hl). rewrite canary_encode_length by done.
  pose proof (blen_nonneg (ciphertext c)). simpl. lia.
Qed.
Next Obligation.
  simpl. intros bs c _ Hd. apply canary_decode_ok in Hd as [(Hg & _) [tl ->]]. split; [|done].
  by apply raw_decode_finish.
Qed.
End WithCrc.

Lemma length_pattern n x : length (pattern n x) = n.
Proof. revert x. induction n as [|n IH]; intros x; simpl; [done|]. by rewrite IH. Qed.

(** The plaintext fills the unit it is encrypted as. *)
Lemma canary_plaintext_length u n : length (canary_plaintext u n) = n.
Proof.
  unfold canary_plaintext. rewrite length_app, length_take, length_drop, length_pattern.
  change (length TAG) with 18%nat. lia.
Qed.
End Canary.
