(* ===== verification/Superblock.v ===== *)
(** * Superblock: the volume superblock (crates/maki-format/src/superblock.rs)

    The fixed 4096-byte image with its three envelope versions.  The decoder
    recomputes the geometry from the stored inputs, so the round trip holds
    for the superblocks whose geometry [compute] accepts, and a superblock
    that decodes carries a geometry with all the guarantees of
    [geometry_wf].  Loading the A/B pair is in Volumes. *)

From S2P Require Import Prelude Codec Layout Geometry AbRecord Metadata.

Local Open Scope Z_scope.

Definition SUPERBLOCK_SIZE : nat := 4096.
Definition SUPERBLOCK_MAGIC : bytes := magic "MAKISB01".
Definition SUPERBLOCK_VERSION : Z := 1.
Definition SUPERBLOCK_VERSION_V2 : Z := 2.
Definition SUPERBLOCK_VERSION_V3 : Z := 3.
Definition CRYPTO_FORMAT_VERSION : Z := 1.
Definition SUPPORTED_FLAGS : Z := 0.
Definition MAX_STR : nat := 128.

Record Superblock := mkSuperblock {
  sb_generation : Z;
  volume_uuid : bytes;
  provider_type : bytes;
  crypto_compatibility_id : bytes;
  key_identity : bytes;
  geometry : Geometry;
  format_version : Z;
  created_unix : Z
}.

#[global] Instance Superblock_eq_dec : EqDecision Superblock.
Proof. solve_decision. Defined.

Definition supported_version (version : Z) : bool :=
  (version =? SUPERBLOCK_VERSION) || (version =? SUPERBLOCK_VERSION_V2)
  || (version =? SUPERBLOCK_VERSION_V3).

Section WithCrc.
Context `{Crc32}.

(** [None] where an [expect] panics: a string over [MAX_STR] bytes. *)
Definition encode_metadata_version (metadata_version : Z) (s : Superblock) : option bytes :=
  let g := geometry s in
  let w := Writer_new ~> w_bytes SUPERBLOCK_MAGIC ~> w_u32 metadata_version
    ~> w_u64 (sb_generation s) ~> w_uuid (volume_uuid s)
    ~> w_u32 (device_block_size g) ~> w_u32 (crypto_unit_size g)
    ~> w_u32 (slot_alignment g) ~> w_u32 (max_ciphertext_size g)
    ~> w_u32 (slot_header_size g) ~> w_u64 (slot_size g)
    ~> w_u64 (max_virtual_size g) ~> w_u64 (shard_logical_size g)
    ~> w_u32 (format_version s) ~> w_u64 (created_unix s) ~> w_u64 0 in
  to_option (
    let? w := w_string (provider_type s) MAX_STR w in
    let? w := w_string (crypto_compatibility_id s) MAX_STR w in
    let? w := w_string (key_identity s) MAX_STR w in
    Ok (finish_with_crc (w_pad_to (SUPERBLOCK_SIZE - 4) w))).

Definition Superblock_encode (s : Superblock) : option bytes :=
  encode_metadata_version SUPERBLOCK_VERSION s.

(** The fields up to the flags, the strings, and the geometry check. *)
Definition sb_body : rd Superblock :=
  let! _ := rd_take 8 in
  let! version := rd_u32 in
  let! _ := rd_guard (supported_version version) Unsupported in
  let! generation := rd_u64 in
  let! volume_uuid := rd_uuid in
  let! device_block_size := rd_u32 in
  let! crypto_unit_size := rd_u32 in
  let! slot_alignment := rd_u32 in
  let! max_ciphertext_size := rd_u32 in
  let! hdr_size := rd_u32 in
  let! stored_slot_size := rd_u64 in
  let! max_virtual_size := rd_u64 in
  let! shard_logical_size := rd_u64 in
  let! format_version := rd_u32 in
  let! created_unix := rd_u64 in
  let! flags := rd_u64 in
  let! _ := rd_guard (format_version =? CRYPTO_FORMAT_VERSION) Unsupported in
  let! _ := rd_guard (Z.land flags (u64_not SUPPORTED_FLAGS) =? 0) Unsupported in
  let! provider_type := rd_string MAX_STR in
  let! crypto_compatibility_id := rd_string MAX_STR in
  let! key_identity := rd_string MAX_STR in
  let! geometry := rd_lift (compute device_block_size crypto_unit_size slot_alignment
                              max_ciphertext_size max_virtual_size shard_logical_size) in
  let! _ := rd_guard (negb (negb (slot_size geometry =? stored_slot_size)
                            || negb (slot_header_size geometry =? hdr_size))) Invalid in
  rd_ret (mkSuperblock generation volume_uuid provider_type crypto_compatibility_id
            key_identity geometry format_version created_unix).

Definition Superblock_decode (data : bytes) : fres Superblock :=
  guard? negb (length data <? SUPERBLOCK_SIZE)%nat else Truncated in
  let data := take SUPERBLOCK_SIZE data in
  guard? bytes_eqb (take 8 data) SUPERBLOCK_MAGIC else BadMagic in
  let? payload := strip_verify_crc data in
  run_rd sb_body payload.

Record VolumeSuperblock := mkVolumeSuperblock {
  superblock : Superblock;
  metadata_version : Z
}.

(** [None] also where the version assertion panics. *)
Definition VolumeSuperblock_encode (v : VolumeSuperblock) : option bytes :=
  if supported_version (metadata_version v)
  then encode_metadata_version (metadata_version v) (superblock v) else None.

Definition VolumeSuperblock_decode (data : bytes) : fres VolumeSuperblock :=
  let? superblock := Superblock_decode data in
  let metadata_version := from_le (slice data 8 12) in
  Ok (mkVolumeSuperblock superblock metadata_version).

(** ** Round trip *)

(** The superblocks the code writes: validated strings and a geometry that
    [compute] produced from inputs of their widths. *)
Definition geometry_u (g : Geometry) : Prop :=
  compute_args (device_block_size g) (crypto_unit_size g) (slot_alignment g)
    (max_ciphertext_size g) (max_virtual_size g) (shard_logical_size g) ∧
  compute (device_block_size g) (crypto_unit_size g) (slot_alignment g)
    (max_ciphertext_size g) (max_virtual_size g) (shard_logical_size g) = Ok g.

Definition sb_str_ok (s : bytes) : Prop := str_ok s ∧ (length s ≤ MAX_STR)%nat.

Definition superblock_ok (s : Superblock) : Prop :=
  u64_ok (sb_generation s) ∧ length (volume_uuid s) = 16%nat ∧ geometry_u (geometry s) ∧
  format_version s = CRYPTO_FORMAT_VERSION ∧ u64_ok (created_unix s) ∧
  sb_str_ok (provider_type s) ∧ sb_str_ok (crypto_compatibility_id s) ∧ sb_str_ok (key_identity s).

(** The print between the magic number and the padding. *)
Definition sb_fields (v : Z) (s : Superblock) : bytes :=
  let g := geometry s in
  to_le 4 v ++ to_le 8 (sb_generation s) ++ volume_uuid s
  ++ to_le 4 (device_block_size g) ++ to_le 4 (crypto_unit_size g) ++ to_le 4 (slot_alignment g)
  ++ to_le 4 (max_ciphertext_size g) ++ to_le 4 (slot_header_size g) ++ to_le 8 (slot_size g)
  ++ to_le 8 (max_virtual_size g) ++ to_le 8 (shard_logical_size g)
  ++ to_le 4 (format_version s) ++ to_le 8 (created_unix s) ++ to_le 8 0
  ++ (to_le 2 (blen (provider_type s)) ++ provider_type s)
  ++ (to_le 2 (blen (crypto_compatibility_id s)) ++ crypto_compatibility_id s)
  ++ (to_le 2 (blen (key_identity s)) ++ key_identity s).

Lemma w_string_ok s max w :
  (length s ≤ max)%nat → w_string s max w = Ok (w ++ to_le 2 (blen s) ++ s).
Proof.
  intros Hl. unfold w_string, w_u16, w_bytes.
  destruct (Nat.ltb_spec max (length s)); [lia|]. by rewrite <- (assoc_L (++)).
Qed.

Lemma sb_fields_length v s : superblock_ok s → (length (sb_fields v s) ≤ 600)%nat.
Proof.
  intros (_ & Hu & _ & _ & _ & [_ H1] & [_ H2] & [_ H3]). unfold sb_fields, MAX_STR in *.
  autorewrite with blen. lia.
Qed.

Lemma sb_encode_eq v s :
  superblock_ok s →
  encode_metadata_version v s =
  Some (finish_with_crc (SUPERBLOCK_MAGIC ++ sb_fields v s
          ++ zeros (SUPERBLOCK_SIZE - 4 - length (SUPERBLOCK_MAGIC ++ sb_fields v s)))).
Proof.
  intros Hs. pose proof (sb_fields_length v s Hs) as Hlen.
  destruct Hs as (_ & _ & _ & _ & _ & [_ H1] & [_ H2] & [_ H3]).
  unfold encode_metadata_version.
  rewrite (w_string_ok (provider_type s)) by done. cbn [rbind].
  rewrite (w_string_ok (crypto_compatibility_id s)) by done. cbn [rbind].
  rewrite (w_string_ok (key_identity s)) by done. cbn [rbind to_option].
  unfold w_pad_to. writer_norm.
  unfold sb_fields in *. rewrite <- ?(assoc_L (++)) in *.
  match goal with |- context [(?a <? ?b)%nat] => destruct (Nat.ltb_spec a b) as [Hlt|Hge] end.
  - rewrite <- ?(assoc_L (++)). done.
  - exfalso. rewrite length_app in Hge. change (length SUPERBLOCK_MAGIC) with 8%nat in Hge.
    unfold SUPERBLOCK_SIZE in Hge. lia.
Qed.

Lemma sb_encode_length v s bs :
  superblock_ok s → encode_metadata_version v s = Some bs → length bs = SUPERBLOCK_SIZE.
Proof.
  intros Hs. pose proof (sb_fields_length v s Hs). rewrite sb_encode_eq by done.
  intros Hb. apply (inj Some) in Hb as <-.
  rewrite length_finish_with_crc, !length_app, length_zeros.
  change (length SUPERBLOCK_MAGIC) with 8%nat. unfold SUPERBLOCK_SIZE. lia.
Qed.

Lemma parses_sb_body v s :
  superblock_ok s → supported_version v = true →
  parses sb_body (SUPERBLOCK_MAGIC ++ sb_fields v s) s.
Proof.
  intros (Hg & Hu & [Ha Hc] & Hf & Hcr & [S1 L1] & [S2 L2] & [S3 L3]) Hv.
  pose proof (compute_slot_ok _ _ _ _ _ _ _ Ha Hc) as [Hge Hss].
  destruct Ha as (G1 & G2 & G3 & G4 & G5 & G6).
  assert (u32_ok v).
  { unfold supported_version in Hv. rewrite !orb_true_iff, !Z.eqb_eq in Hv.
    unfold SUPERBLOCK_VERSION, SUPERBLOCK_VERSION_V2, SUPERBLOCK_VERSION_V3, u32_ok in *. lia. }
  assert (u16_ok (Z.of_nat MAX_STR)) by by vm_compute.
  assert (slot_header_size (geometry s) = SLOT_HEADER_SIZE) as Hh by (by rewrite Hge).
  assert (u32_ok (slot_header_size (geometry s))) by (rewrite Hh; by vm_compute).
  assert (u64_ok 0) by by vm_compute.
  assert (u32_ok (format_version s)) by (rewrite Hf; by vm_compute).
  unfold sb_body, sb_fields. repeat parse_step.
  { by rewrite Hf. }
  eapply parses_bind_last; [by apply parses_string|]. repeat parse_step.
  { by rewrite Hc. }
  { by rewrite !Z.eqb_refl. }
  destruct s. apply parses_ret.
Qed.

Lemma sb_decode_encode v s bs :
  superblock_ok s → supported_version v = true → encode_metadata_version v s = Some bs →
  Superblock_decode bs = Ok s ∧ from_le (slice bs 8 12) = v.
Proof.
  intros Hs Hv He. pose proof (sb_encode_length v s bs Hs He) as Hl.
  rewrite sb_encode_eq in He by done. apply (inj Some) in He. subst bs.
  set (pad := (SUPERBLOCK_SIZE - 4 - _)%nat) in *. split.
  - unfold Superblock_decode. rewrite Hl, Nat.ltb_irrefl. cbn [negb].
    rewrite <- Hl, firstn_all, take_finish, bytes_eqb_refl, strip_finish by done. cbn [rbind].
    rewrite (assoc_L (++)). apply run_rd_prefix. by apply parses_sb_body.
  - unfold finish_with_crc, slice, sb_fields. rewrite <- !(assoc_L (++)).
    rewrite (drop_app_length' SUPERBLOCK_MAGIC) by done.
    rewrite take_app_length' by (by rewrite length_to_le). rewrite from_to_le; [done|].
    unfold supported_version in Hv. rewrite !orb_true_iff, !Z.eqb_eq in Hv.
    unfold SUPERBLOCK_VERSION, SUPERBLOCK_VERSION_V2, SUPERBLOCK_VERSION_V3 in *. lia.
Qed.

(** ** What a superblock that decodes guarantees *)

Lemma sb_decode_ok data s :
  Superblock_decode data = Ok s →
  superblock_ok s ∧ supported_version (from_le (slice data 8 12)) = true ∧
  ∃ tl, take SUPERBLOCK_SIZE data =
    finish_with_crc (SUPERBLOCK_MAGIC ++ to_le 4 (from_le (slice data 8 12))
      ++ to_le 8 (sb_generation s) ++ tl).
Proof.
  unfold Superblock_decode, sb_body. intros Hd. inv_res. inv_guards.
  pose proof (strip_verify_crc_ok _ _ Hv) as Hdata. inv_rd.
  match goal with Hc : compute ?a ?b ?c ?d ?e ?f = Ok _ |- _ =>
    assert (compute_args a b c d e f) as Hargs by (by unfold compute_args; tauto);
    pose proof (compute_slot_ok _ _ _ _ _ _ _ Hargs Hc) as [Hge Hss] end.
  inv_guards. subst s.
  assert (v21 = mkGeometry v5 v6 v7 v8 v9 v10 v11 v12) as -> by (rewrite Hge in *; naive_solver).
  unfold superblock_ok, sb_str_ok, geometry_u.
  cbn [sb_generation volume_uuid provider_type crypto_compatibility_id key_identity geometry
    format_version created_unix device_block_size crypto_unit_size slot_alignment
    max_ciphertext_size max_virtual_size shard_logical_size].
  assert (v0 = SUPERBLOCK_MAGIC) as ->.
  { rewrite Hdata in Hb0. rewrite rest_new in *. subst v. by rewrite take_finish in Hb0. }
  assert (from_le (slice data 8 12) = v1) as ->.
  { rewrite <- (slice_take data SUPERBLOCK_SIZE), Hdata by (unfold SUPERBLOCK_SIZE; lia).
    unfold finish_with_crc. rewrite rest_new in *. subst v.
    match goal with H : rest r0 = _ |- _ => rewrite H end. rewrite <- !(assoc_L (++)).
    rewrite slice_app_mid; [|done|by rewrite length_to_le]. by apply from_to_le. }
  split; [done|]. split; [done|]. rewrite Hdata. eexists. f_equal. chain_rest. done.
Qed.
Definition volume_ok (v : VolumeSuperblock) : Prop :=
  superblock_ok (superblock v) ∧ supported_version (metadata_version v) = true.

Lemma vsb_decode_ok data v :
  VolumeSuperblock_decode data = Ok v →
  volume_ok v ∧ metadata_version v = from_le (slice data 8 12) ∧
  Superblock_decode data = Ok (superblock v).
Proof.
  unfold VolumeSuperblock_decode. intros Hd. inv_res. subst v. simpl.
  apply sb_decode_ok in Hv as Hs. destruct Hs as (? & ? & _). done.
Qed.

Lemma vsb_encode_ok v :
  volume_ok v → ∃ bs, VolumeSuperblock_encode v = Some bs ∧ length bs = SUPERBLOCK_SIZE ∧
  VolumeSuperblock_decode bs = Ok v.
Proof.
  intros [Hs Hv]. unfold VolumeSuperblock_encode. rewrite Hv.
  destruct (encode_metadata_version (metadata_version v) (superblock v)) as [bs|] eqn:He;
    [|by rewrite sb_encode_eq in He].
  exists bs. split; [done|]. split; [by eapply sb_encode_length|].
  unfold VolumeSuperblock_decode.
  destruct (sb_decode_encode _ _ _ Hs Hv He) as [-> ->]. by destruct v.
Qed.

(** The probe sees the generation the decoder returns. *)
Lemma sb_decode_raw data s :
  blen data ≤ Z.of_nat SUPERBLOCK_SIZE → Superblock_decode data = Ok s →
  raw_decode data = Ok (sb_generation s) ∧ u64_ok (sb_generation s).
Proof.
  intros Hl Hd. apply sb_decode_ok in Hd as ((Hg & _) & Hv & tl & He). split; [|done].
  rewrite take_ge in He by (unfold blen in Hl; lia). rewrite He.
  apply raw_decode_finish; [done| |done].
  unfold supported_version in Hv. rewrite !orb_true_iff, !Z.eqb_eq in Hv.
  unfold SUPERBLOCK_VERSION, SUPERBLOCK_VERSION_V2, SUPERBLOCK_VERSION_V3, u32_ok in *. lia.
Qed.

Definition sb_set_generation (g : Z) (s : Superblock) : Superblock :=
  mkSuperblock g (volume_uuid s) (provider_type s) (crypto_compatibility_id s)
    (key_identity s) (geometry s) (format_version s) (created_unix s).

#[export] Instance VolumeSuperblock_AbRecord : AbRecord VolumeSuperblock := {|
  MAX_ENCODED_LEN := Z.of_nat SUPERBLOCK_SIZE;
  generation v := sb_generation (superblock v);
  set_generation g v := mkVolumeSuperblock (sb_set_generation g (superblock v)) (metadata_version v);
  ab_encode := VolumeSuperblock_encode;
  ab_decode := VolumeSuperblock_decode
|}.

#[export] Program Instance VolumeSuperblock_laws : AbRecordLaws VolumeSuperblock := {|
  ab_wf v := volume_ok v
|}.
Next Obligation. by intros v [(? & _) _]. Qed.
Next Obligation. intros g v Hg [(_ & ?) ?]. done. Qed.
Next Obligation. done. Qed.
Next Obligation.
  intros v Hv. destruct (vsb_encode_ok v Hv) as (bs & He & Hl & Hd). exists bs.
  split; [done|]. split; [|done]. unfold blen. rewrite Hl. split; [by vm_compute|done].
Qed.
Next Obligation.
  intros bs v Hl Hd. apply vsb_decode_ok in Hd as (_ & _ & Hd). by apply sb_decode_raw.
Qed.

#[export] Instance Superblock_AbRecord : AbRecord Superblock := {|
  MAX_ENCODED_LEN := Z.of_nat SUPERBLOCK_SIZE;
  generation := sb_generation;
  set_generation := sb_set_generation;
  ab_encode := Superblock_encode;
  ab_decode := Superblock_decode
|}.

#[export] Program Instance Superblock_laws : AbRecordLaws Superblock := {|
  ab_wf s := superblock_ok s
|}.
Next Obligation. by intros s (? & _). Qed.
Next Obligation. intros g s Hg (_ & ?). done. Qed.
Next Obligation. done. Qed.
Next Obligation.
  intros s Hs. simpl. unfold Superblock_encode.
  destruct (encode_metadata_version SUPERBLOCK_VERSION s) as [bs|] eqn:He;
    [|by rewrite sb_encode_eq in He].
  exists bs. split; [done|].
  split; [|exact (proj1 (sb_decode_encode SUPERBLOCK_VERSION s bs Hs eq_refl He))].
  unfold blen. rewrite (sb_encode_length _ _ _ Hs He). split; [by vm_compute|done].
Qed.
Next Obligation. intros bs s Hl Hd. by apply sb_decode_raw. Qed.
End WithCrc.

(** C35. Superblocks survive the disk without losing their policy version,
    and nothing unusable is ever accepted: a valid volume superblock encodes
    to exactly one 4096-byte block from which the decoder, and the
    generation probe, read it back; and any block the decoder accepts, from
    whatever source, carries an understood envelope version, the supported
    crypto format, and a geometry with every guarantee of [geometry_wf]. *)
Theorem superblock_roundtrip `{Crc32} v :
  volume_ok v →
  (∃ bs, VolumeSuperblock_encode v = Some bs ∧ length bs = SUPERBLOCK_SIZE ∧
    VolumeSuperblock_decode bs = Ok v ∧ raw_decode bs = Ok (sb_generation (superblock v))) ∧
  (∀ data w, VolumeSuperblock_decode data = Ok w →
    supported_version (metadata_version w) = true ∧
    format_version (superblock w) = CRYPTO_FORMAT_VERSION ∧
    geometry_wf (geometry (superblock w))).
Proof.
  intros Hv. split.
  - destruct (vsb_encode_ok v Hv) as (bs & He & Hl & Hd). exists bs.
    split; [done|]. split; [done|]. split; [done|].
    apply vsb_decode_ok in Hd as (_ & _ & Hd).
    apply sb_decode_raw in Hd as [? _]; [done|]. unfold blen. by rewrite Hl.
  - intros data w Hd. apply vsb_decode_ok in Hd as ((Hs & Hsv) & _ & _).
    destruct Hs as (_ & _ & [Ha Hc] & Hf & _). split; [done|]. split; [done|].
    by eapply compute_wf.
Qed.

Definition sample_geometry : Geometry :=
  mkGeometry 4096 4096 4096 4124 64 8192 1073741824 268435456.

Definition sample_superblock : Superblock :=
  mkSuperblock 7 (zeros 16) (magic "xts") (magic "id") (magic "key") sample_geometry 1 1700000000.

Lemma superblock_roundtrip_witness :
  ∃ bs, @VolumeSuperblock_encode Ieee.ieee (mkVolumeSuperblock sample_superblock 2) = Some bs ∧
  @VolumeSuperblock_decode Ieee.ieee bs = Ok (mkVolumeSuperblock sample_superblock 2).
Proof.
  assert (volume_ok (mkVolumeSuperblock sample_superblock 2)) as Hok.
  { split; [|done].
    split; [by vm_compute|]. split; [by vm_compute|]. split.
    { split; [|by vm_compute]. unfold compute_args, sample_superblock, sample_geometry, u32_ok, u64_ok.
      cbn. lia. }
    split; [done|]. split; [by vm_compute|].
    repeat split; try (by vm_compute); cbn; unfold MAX_STR; lia. }
  destruct (proj1 (@superblock_roundtrip Ieee.ieee _ Hok)) as (bs & He & _ & Hd & _).
  exists bs. split; [exact He|exact Hd].
Defined.
