(* ===== verification/JournalFormat.v ===== *)
(** * JournalFormat: record framing and segment scanning
    (crates/maki-format/src/journal.rs)

    The record, segment-header and durable-mark codecs, the in-memory
    scanner with its three outcomes, and the append-footprint projection.
    The theorems: what was framed is scanned back, a torn tail is cut at a
    record boundary, every record the scanner returns is really there, and
    damage below the durable bound is never reported as a torn tail; the
    projection equals the writer's append-by-append behaviour and the
    minimum journal limit is enough for a largest request. *)

From S2P Require Import Prelude Codec Layout Geometry AbRecord Metadata.

Local Open Scope Z_scope.

Definition RECORD_MAGIC : bytes := magic "MJR1".
Definition SEGMENT_MAGIC : bytes := magic "MAKIJSG1".
Definition SEGMENT_VERSION : Z := 1.
Definition DURABLE_MARK_MAGIC : bytes := magic "MAKIJDM1".
Definition DURABLE_MARK_VERSION : Z := 1.

Definition HEADER : nat := 32.

Definition max_record_len (max_payload_size : Z) : Z := RECORD_HEADER_SIZE + max_payload_size.

(** ** Append footprint *)

(** The two halves of the loop body of [checked_append_footprint]: filling
    the existing segment, then rolling for what remains. *)
Definition footprint_fill (projected : option (Z * Z)) (added record_len fitting : Z)
    : option (option (Z * Z) * Z) :=
  if 0 <? fitting then
    '(offset, records) ← projected;
    bytes ← checked_mul record_len fitting;
    added ← checked_add added bytes;
    offset ← checked_add offset bytes;
    records ← checked_add records fitting;
    Some (Some (offset, records), added)
  else Some (projected, added).

Definition footprint_roll (segment_size : Z) (projected : option (Z * Z))
    (added record_len remaining : Z) : option (option (Z * Z) * Z) :=
  if 0 <? remaining then
    let per_segment := Z.max (saturating_sub segment_size SEGMENT_HEADER_SIZE / record_len) 1 in
    let segments := div_ceil remaining per_segment in
    body ← checked_mul record_len remaining;
    added ← checked_add added body;
    headers ← checked_mul SEGMENT_HEADER_SIZE segments;
    added ← checked_add added headers;
    let last_count := (remaining - 1) mod per_segment + 1 in
    tail ← checked_mul record_len last_count;
    offset ← checked_add SEGMENT_HEADER_SIZE tail;
    Some (Some (offset, last_count), added)
  else Some (projected, added).

(** The loop body over one group; the state is [(projected, added)]. *)
Definition footprint_group (segment_size : Z) (st : option (Z * Z) * Z) (group : Z * Z)
    : option (option (Z * Z) * Z) :=
  let '(projected, added) := st in
  let '(record_len, count) := group in
  if count =? 0 then Some st
  else if record_len =? 0 then None
  else
    let fitting := Z.min
      match projected with
      | None => 0
      | Some (offset, records) =>
          let fit := saturating_sub segment_size offset / record_len in
          if records =? 0 then Z.max fit 1 else fit
      end count in
    '(projected, added) ← footprint_fill projected added record_len fitting;
    footprint_roll segment_size projected added record_len (count - fitting).

Fixpoint footprint_groups (segment_size : Z) (st : option (Z * Z) * Z) (groups : list (Z * Z))
    : option (option (Z * Z) * Z) :=
  match groups with
  | [] => Some st
  | g :: gs => st' ← footprint_group segment_size st g; footprint_groups segment_size st' gs
  end.

Definition checked_append_footprint (segment_size : Z) (active : option (Z * Z))
    (record_groups : list (Z * Z)) : option Z :=
  '(_, added) ← footprint_groups segment_size (active, 0) record_groups; Some added.

Definition minimum_journal_limit (segment_size max_record_len records_per_request : Z) : option Z :=
  retained_empty ← checked_add SEGMENT_HEADER_SIZE max_record_len;
  let retained := Z.max segment_size retained_empty in
  append ← checked_append_footprint segment_size (Some (retained, 1))
             [(max_record_len, records_per_request)];
  twice ← checked_mul segment_size 2;
  records ← checked_mul max_record_len records_per_request;
  legacy_floor ← checked_add twice records;
  total ← checked_add retained append;
  Some (Z.max legacy_floor total).

Definition max_segment_file_size (segment_size : Z) : Z :=
  saturating_add (saturating_mul segment_size 4)
    (SEGMENT_HEADER_SIZE + RECORD_HEADER_SIZE + MAX_PAYLOAD).

Definition max_journal_segment_file_size : Z := max_segment_file_size MAX_JOURNAL_SEGMENT_SIZE.

(** ** Records *)
Record JournalRecord := mkJournalRecord {
  sequence : Z;
  unit_index : Z;
  payload : bytes
}.

#[global] Instance JournalRecord_eq_dec : EqDecision JournalRecord.
Proof. solve_decision. Defined.

(** The reason of a [Corrupt] outcome, one constructor per message. *)
Inductive CorruptReason :=
| ZeroedRecord | HeaderDamaged | PayloadLenExceedsCap (len : Z)
| SequenceMismatch (found expected : Z) | RecordTruncated | PayloadCrcFailure
| NoRepresentableSuccessor.

Inductive ScanOutcome :=
| Clean
| TornTail (at_ : nat)
| Corrupt (at_ : nat) (reason : CorruptReason).

Record ParsedHeader := mkParsedHeader {
  h_sequence : Z;
  h_unit_index : Z;
  h_payload_len : Z;
  h_payload_crc : Z
}.

Section WithCrc.
Context `{Crc32}.

Definition encode_record (rec : JournalRecord) : bytes :=
  let header := Writer_new ~> w_bytes RECORD_MAGIC ~> w_u64 (sequence rec)
    ~> w_u64 (unit_index rec) ~> w_u32 (blen (payload rec)) ~> w_u32 (crc32 (payload rec)) in
  finish_with_crc header ++ payload rec.

Definition header_body : rd ParsedHeader :=
  let! _ := rd_take 4 in
  let! sequence := rd_u64 in
  let! unit_index := rd_u64 in
  let! payload_len := rd_u32 in
  let! payload_crc := rd_u32 in
  rd_ret (mkParsedHeader sequence unit_index payload_len payload_crc).

Definition parse_header (buf : bytes) : option ParsedHeader :=
  if (length buf <? HEADER)%nat then None
  else
    let hdr := take HEADER buf in
    if bytes_eqb (take 4 hdr) RECORD_MAGIC then
      payload ← to_option (strip_verify_crc hdr);
      to_option (run_rd header_body payload)
    else None.

(** ** The scanner *)

Definition in_durable (durable_len : option nat) (pos : nat) : bool :=
  match durable_len with Some d => (pos <? d)%nat | None => false end.

Inductive ScanStep :=
| Done (outcome : ScanOutcome)
| Accept (rec : JournalRecord) (next_pos : nat) (next_expected : Z).

(** [if in_durable(pos) { Corrupt } else { TornTail }]. *)
Definition damaged (corrupt : bool) (pos : nat) (reason : CorruptReason) : ScanStep :=
  Done (if corrupt then Corrupt pos reason else TornTail pos).

(** One iteration of the scan loop at [pos]. *)
Definition scan_step (buf : bytes) (durable_len : option nat) (pos : nat) (expected : Z) : ScanStep :=
  if (pos =? length buf)%nat then Done Clean
  else
    let rem := drop pos buf in
    match parse_header rem with
    | None =>
        if all_zero rem then
          if in_durable durable_len pos then Done (Corrupt pos ZeroedRecord) else Done Clean
        else damaged (in_durable durable_len pos) pos HeaderDamaged
    | Some header =>
        if MAX_PAYLOAD <? h_payload_len header then
          Done (Corrupt pos (PayloadLenExceedsCap (h_payload_len header)))
        else if negb (h_sequence header =? expected) then
          Done (Corrupt pos (SequenceMismatch (h_sequence header) expected))
        else
          let payload_end := (pos + HEADER + Z.to_nat (h_payload_len header))%nat in
          if (length buf <? payload_end)%nat then
            damaged (in_durable durable_len pos) pos RecordTruncated
          else
            let payload := slice buf (pos + HEADER) payload_end in
            if negb (crc32 payload =? h_payload_crc header) then
              damaged
                match durable_len with
                | Some _ => in_durable durable_len pos
                | None =>
                    match parse_header (drop payload_end buf) with
                    | Some h => match checked_add expected 1 with
                                | Some next => h_sequence h =? next
                                | None => true
                                end
                    | None => false
                    end
                end pos PayloadCrcFailure
            else
              match checked_add expected 1 with
              | None => Done (Corrupt pos NoRepresentableSuccessor)
              | Some next_expected =>
                  Accept (mkJournalRecord (h_sequence header) (h_unit_index header) payload)
                    payload_end next_expected
              end
    end.

(** The loop; [None] when the fuel runs out, which [scan_total] excludes
    for the fuel [scan_segment_bounded] gives it. *)
Fixpoint scan_go (fuel : nat) (buf : bytes) (durable_len : option nat) (pos : nat) (expected : Z)
    : option (list JournalRecord * ScanOutcome) :=
  match fuel with
  | O => None
  | S fuel' =>
      match scan_step buf durable_len pos expected with
      | Done outcome => Some ([], outcome)
      | Accept rec next_pos next_expected =>
          '(records, outcome) ← scan_go fuel' buf durable_len next_pos next_expected;
          Some (rec :: records, outcome)
      end
  end.

Definition scan_segment_bounded (buf : bytes) (first_sequence : Z) (durable_len : option nat)
    : option (list JournalRecord * ScanOutcome) :=
  scan_go (S (length buf)) buf durable_len 0 first_sequence.

Definition scan_segment (buf : bytes) (first_sequence : Z)
    : option (list JournalRecord * ScanOutcome) :=
  scan_segment_bounded buf first_sequence None.

(** ** Segment header and durable mark *)
Record SegmentHeader := mkSegmentHeader {
  segment_index : Z;
  volume_uuid : bytes;
  base_sequence : Z
}.

Definition SegmentHeader_encode (s : SegmentHeader) : bytes :=
  let w := Writer_new ~> w_bytes SEGMENT_MAGIC ~> w_u32 SEGMENT_VERSION
    ~> w_u64 (segment_index s) ~> w_uuid (volume_uuid s) ~> w_u64 (base_sequence s) in
  finish_with_crc w.

Definition segment_body : rd SegmentHeader :=
  let! _ := rd_take 8 in
  let! version := rd_u32 in
  let! _ := rd_guard (version =? SEGMENT_VERSION) Unsupported in
  let! segment_index := rd_u64 in
  let! volume_uuid := rd_uuid in
  let! base_sequence := rd_u64 in
  rd_ret (mkSegmentHeader segment_index volume_uuid base_sequence).

Definition SegmentHeader_decode (data : bytes) : fres SegmentHeader :=
  guard? negb (length data <? 48)%nat else Truncated in
  let data := take 48 data in
  guard? bytes_eqb (take 8 data) SEGMENT_MAGIC else BadMagic in
  let? payload := strip_verify_crc data in
  run_rd segment_body payload.

Record DurableMark := mkDurableMark { dm_segment_index : Z; durable_size : Z }.

Definition DurableMark_encode (m : DurableMark) : bytes :=
  let w := Writer_new ~> w_bytes DURABLE_MARK_MAGIC ~> w_u32 DURABLE_MARK_VERSION
    ~> w_u64 (dm_segment_index m) ~> w_u64 (durable_size m) in
  finish_with_crc w.

Definition mark_body : rd DurableMark :=
  let! _ := rd_take 8 in
  let! version := rd_u32 in
  let! _ := rd_guard (version =? DURABLE_MARK_VERSION) Unsupported in
  let! segment_index := rd_u64 in
  let! durable_size := rd_u64 in
  rd_ret (mkDurableMark segment_index durable_size).

Definition DurableMark_decode (data : bytes) : fres DurableMark :=
  guard? negb (length data <? 32)%nat else Truncated in
  let data := take 32 data in
  guard? bytes_eqb (take 8 data) DURABLE_MARK_MAGIC else BadMagic in
  let? payload := strip_verify_crc data in
  run_rd mark_body payload.
(** ** Framing lemmas *)

Definition record_ok (r : JournalRecord) : Prop :=
  u64_ok (sequence r) ∧ u64_ok (unit_index r) ∧ blen (payload r) ≤ MAX_PAYLOAD.

Definition header_of (r : JournalRecord) : ParsedHeader :=
  mkParsedHeader (sequence r) (unit_index r) (blen (payload r)) (crc32 (payload r)).

Definition header_ok (h : ParsedHeader) : Prop :=
  u64_ok (h_sequence h) ∧ u64_ok (h_unit_index h) ∧ u32_ok (h_payload_len h) ∧
  u32_ok (h_payload_crc h).

(** The 32 header bytes. *)
Definition print_header (h : ParsedHeader) : bytes :=
  finish_with_crc (RECORD_MAGIC ++ to_le 8 (h_sequence h) ++ to_le 8 (h_unit_index h)
    ++ to_le 4 (h_payload_len h) ++ to_le 4 (h_payload_crc h)).

Lemma encode_record_eq r : encode_record r = print_header (header_of r) ++ payload r.
Proof. unfold encode_record, print_header, header_of. by writer_norm. Qed.

Lemma length_print_header h : length (print_header h) = HEADER.
Proof. unfold print_header. rewrite length_finish_with_crc. len_tac. reflexivity. Qed.

Lemma length_encode_record r : length (encode_record r) = (HEADER + length (payload r))%nat.
Proof. by rewrite encode_record_eq, length_app, length_print_header. Qed.

Lemma payload_len_u32 r : record_ok r → u32_ok (blen (payload r)).
Proof.
  intros (_ & _ & Hp). pose proof (blen_nonneg (payload r)).
  change MAX_PAYLOAD with 16777216 in Hp. unfold u32_ok. lia.
Qed.

Lemma header_of_ok r : record_ok r → header_ok (header_of r).
Proof.
  intros Hr. pose proof (payload_len_u32 r Hr). destruct Hr as (? & ? & ?).
  unfold header_ok, header_of. simpl. pose proof (crc32_u32 (payload r)). done.
Qed.

Lemma parse_header_print h tl : header_ok h → parse_header (print_header h ++ tl) = Some h.
Proof.
  intros (H1 & H2 & H3 & H4). unfold parse_header. rewrite length_app, length_print_header.
  destruct (Nat.ltb_spec (HEADER + length tl) HEADER) as [|_]; [lia|].
  rewrite <- (length_print_header h), take_app_length. unfold print_header.
  rewrite take_finish, bytes_eqb_refl, strip_finish by done. cbn [to_option mbind option_bind].
  rewrite (run_rd_parses header_body _ h); [done|].
  unfold header_body. repeat parse_step. destruct h. apply parses_all_ret.
Qed.

Lemma to_option_some {E A} (m : result E A) a : to_option m = Some a ↔ m = Ok a.
Proof. destruct m; naive_solver. Qed.

(** The header parser is canonical: what parses is the print of what it
    parses to. *)
Lemma parse_header_some buf h :
  parse_header buf = Some h → header_ok h ∧ buf = print_header h ++ drop HEADER buf.
Proof.
  unfold parse_header. destruct (Nat.ltb_spec (length buf) HEADER) as [|Hge]; [done|].
  destruct (bytes_eqb _ _) eqn:Hm; [|done]. apply bytes_eqb_eq in Hm.
  intros (p & Hp & Hr)%bind_Some. apply to_option_some in Hp, Hr.
  apply strip_verify_crc_ok in Hp as Hs. pose proof (strip_verify_crc_length _ _ Hp) as Hlen.
  rewrite length_take in Hlen. unfold header_body in Hr. inv_rd. subst h. simpl.
  split; [done|]. rewrite <- (take_drop HEADER buf) at 1. f_equal. rewrite Hs.
  unfold print_header. simpl. f_equal. chain_rest.
  match goal with Hp : p = ?m ++ _ |- _ =>
    assert (m = RECORD_MAGIC) as -> by (rewrite Hs, Hp, take_finish in Hm; done) end.
  subst p. autorewrite with blen in *. change (length RECORD_MAGIC) with 4%nat in *.
  match goal with |- context [rest ?r] => assert (rest r = []) as -> end.
  { apply length_zero_iff_nil. unfold HEADER in *. lia. }
  by rewrite !app_nil_r.
Qed.
(** ** One step of the scanner *)

Arguments print_header : simpl never.
Arguments encode_record : simpl never.

(** Reduce the projections of the two records and nothing else. *)
Ltac proj :=
  cbn [sequence unit_index payload h_sequence h_unit_index h_payload_len h_payload_crc].


Lemma slice_payload buf pos h (n : nat) :
  drop pos buf = print_header h ++ drop (pos + HEADER) buf →
  (pos + HEADER + n ≤ length buf)%nat →
  drop pos buf = print_header h ++ slice buf (pos + HEADER) (pos + HEADER + n)
                   ++ drop (pos + HEADER + n) buf ∧
  length (slice buf (pos + HEADER) (pos + HEADER + n)) = n.
Proof.
  intros Hd Hle. unfold slice.
  replace (pos + HEADER + n - (pos + HEADER))%nat with n by lia. split.
  - rewrite Hd. f_equal. rewrite <- (drop_drop buf n (pos + HEADER)). by rewrite take_drop.
  - rewrite length_take, length_drop. lia.
Qed.

(** A header and a payload that match it are the record's framing. *)
Lemma framed_record buf pos hd :
  parse_header (drop pos buf) = Some hd → h_payload_len hd ≤ MAX_PAYLOAD →
  (pos + HEADER + Z.to_nat (h_payload_len hd) ≤ length buf)%nat →
  let pl := slice buf (pos + HEADER) (pos + HEADER + Z.to_nat (h_payload_len hd)) in
  crc32 pl = h_payload_crc hd →
  let r := mkJournalRecord (h_sequence hd) (h_unit_index hd) pl in
  drop pos buf = encode_record r ++ drop (pos + HEADER + Z.to_nat (h_payload_len hd)) buf ∧
  print_header hd ++ pl = encode_record r ∧ record_ok r ∧ blen pl = h_payload_len hd.
Proof.
  intros [(H1 & H2 & H3 & H4) Hd]%parse_header_some Hcap Hle pl Hcrc r.
  rewrite drop_drop in Hd. destruct (slice_payload _ _ _ _ Hd Hle) as [Hd2 Hlen]. fold pl in Hd2, Hlen.
  assert (blen pl = h_payload_len hd) as Hbl by (unfold blen; rewrite Hlen; unfold u32_ok in H3; lia).
  assert (print_header hd ++ pl = encode_record r) as He.
  { rewrite encode_record_eq. unfold header_of, r. proj. rewrite Hbl, Hcrc. by destruct hd. }
  split; [by rewrite <- He, <- (assoc_L (++))|]. split; [done|]. split; [|done].
  unfold record_ok, r. proj. by rewrite Hbl.
Qed.

(** What an accepted record says about the bytes. *)
Lemma scan_step_accept_inv buf d pos e r np ne :
  scan_step buf d pos e = Accept r np ne →
  drop pos buf = encode_record r ++ drop np buf ∧
  np = (pos + length (encode_record r))%nat ∧ (np ≤ length buf)%nat ∧
  record_ok r ∧ sequence r = e ∧ ne = e + 1 ∧ ne ≤ U64_MAX.
Proof.
  unfold scan_step, damaged. intros Hs.
  repeat match type of Hs with
  | (if ?b then _ else _) = _ => destruct b eqn:?; try discriminate Hs
  | match ?x with _ => _ end = _ => destruct x eqn:?; try discriminate Hs
  end.
  injection Hs as <- <- <-. inv_guards.
  match goal with Hp : parse_header _ = Some ?h, Hcap : _ ≤ MAX_PAYLOAD, Hl : (_ ≤ length buf)%nat,
    Hc : crc32 _ = _ |- _ => destruct (framed_record _ _ _ Hp Hcap Hl Hc) as (Hd & _ & Hok & Hbl) end.
  match goal with Hc : checked_add _ _ = Some _ |- _ => apply checked_add_some in Hc as [-> Hmax] end.
  split; [done|]. split; [|done]. rewrite length_encode_record. proj. unfold blen in Hbl. lia.
Qed.

Lemma drop_encode_inv buf pos r tl :
  drop pos buf = encode_record r ++ tl →
  pos ≠ length buf ∧ (pos + length (encode_record r) ≤ length buf)%nat ∧
  slice buf (pos + HEADER) (pos + length (encode_record r)) = payload r ∧
  drop (pos + length (encode_record r)) buf = tl.
Proof.
  intros Hd. pose proof (f_equal length Hd) as Hl.
  rewrite length_drop, length_app, length_encode_record in Hl. unfold HEADER in Hl.
  rewrite !length_encode_record. unfold slice, HEADER. split; [lia|]. split; [lia|].
  replace (pos + (32 + length (payload r)) - (pos + 32))%nat with (length (payload r)) by lia.
  rewrite <- !drop_drop, Hd, encode_record_eq, <- (assoc_L (++)). split.
  - rewrite (drop_app_length' (print_header _)) by (by rewrite length_print_header).
    apply take_app_length.
  - rewrite drop_drop, (assoc_L (++)). apply drop_app_length'.
    by rewrite length_app, length_print_header.
Qed.

(** A record that is there, complete and expected, is accepted, unless no
    sequence is left behind it. *)
Lemma scan_step_record buf d pos r tl :
  drop pos buf = encode_record r ++ tl → record_ok r →
  scan_step buf d pos (sequence r) =
    match checked_add (sequence r) 1 with
    | Some next => Accept r (pos + length (encode_record r)) next
    | None => Done (Corrupt pos NoRepresentableSuccessor)
    end.
Proof.
  intros Hd Hr. destruct (drop_encode_inv _ _ _ _ Hd) as (Hne & Hle & Hsl & _).
  unfold scan_step. rewrite (proj2 (Nat.eqb_neq _ _)) by done.
  rewrite Hd, encode_record_eq, <- (assoc_L (++)).
  rewrite parse_header_print by (by apply header_of_ok). unfold header_of. proj.
  destruct Hr as (H1 & H2 & H3).
  rewrite (proj2 (Z.ltb_ge _ _)), Z.eqb_refl by done. cbn [negb].
  rewrite length_app, length_print_header.
  rewrite length_encode_record in *. unfold blen. rewrite Nat2Z.id.
  replace (pos + HEADER + length (payload r))%nat with (pos + (HEADER + length (payload r)))%nat by lia.
  rewrite (proj2 (Nat.ltb_ge _ _)) by lia.
  rewrite Hsl, Z.eqb_refl. cbn [negb]. by destruct r.
Qed.

Lemma scan_step_accept buf d pos r tl :
  drop pos buf = encode_record r ++ tl → record_ok r → sequence r < U64_MAX →
  scan_step buf d pos (sequence r) =
    Accept r (pos + length (encode_record r)) (sequence r + 1).
Proof.
  intros Hd Hr Hmax. rewrite (scan_step_record _ _ _ r tl) by done.
  unfold checked_add. by rewrite (proj2 (Z.leb_le _ _)) by lia.
Qed.

Lemma all_zero_magic b l : all_zero (Byte.x4d :: b ++ l) = false.
Proof. reflexivity. Qed.

(** A proper prefix of a record is a torn tail, unless the bound says it
    was synced. *)
Lemma scan_step_torn buf d pos r k :
  drop pos buf = take k (encode_record r) → (0 < k < length (encode_record r))%nat →
  record_ok r → in_durable d pos = false →
  scan_step buf d pos (sequence r) = Done (TornTail pos).
Proof.
  intros Hd Hk Hr Hdur. pose proof (f_equal length Hd) as Hl.
  rewrite length_drop, length_take in Hl.
  unfold scan_step. rewrite (proj2 (Nat.eqb_neq _ _)) by lia. rewrite Hd.
  destruct (decide (k < HEADER)%nat) as [Hlt|Hge].
  - assert (parse_header (take k (encode_record r)) = None) as ->.
    { unfold parse_header. rewrite length_take.
      by rewrite (proj2 (Nat.ltb_lt _ _)) by lia. }
    assert (all_zero (take k (encode_record r)) = false) as ->.
    { destruct k as [|k]; [lia|]. rewrite encode_record_eq. reflexivity. }
    unfold damaged. by rewrite Hdur.
  - rewrite encode_record_eq, take_app_ge by (rewrite length_print_header; lia).
    rewrite parse_header_print by (by apply header_of_ok). unfold header_of. proj. destruct Hr as (H1 & H2 & H3).
    rewrite (proj2 (Z.ltb_ge _ _)), Z.eqb_refl by done. cbn [negb].
    rewrite (proj2 (Nat.ltb_lt _ _)); [unfold damaged; by rewrite Hdur|].
    rewrite length_encode_record in *. unfold blen. lia.
Qed.
(** ** The whole scan *)

(** A journal body: the framed records one after the other. *)
Definition encode_records (rs : list JournalRecord) : bytes := rs ≫= encode_record.

Lemma encode_records_cons r rs : encode_records (r :: rs) = encode_record r ++ encode_records rs.
Proof. reflexivity. Qed.

Lemma encode_records_app rs rs' : encode_records (rs ++ rs') = encode_records rs ++ encode_records rs'.
Proof. unfold encode_records. apply bind_app. Qed.

Lemma encode_records_snoc rs r : encode_records (rs ++ [r]) = encode_records rs ++ encode_record r.
Proof. by rewrite encode_records_app, encode_records_cons, app_nil_r. Qed.

Arguments encode_records : simpl never.

(** Records numbered [e], [e + 1], ..., each within the format's limits,
    and the last one below [u64::MAX]. *)
Fixpoint consecutive (e : Z) (rs : list JournalRecord) : Prop :=
  match rs with
  | [] => True
  | r :: rs' => sequence r = e ∧ record_ok r ∧ e < U64_MAX ∧ consecutive (e + 1) rs'
  end.

Lemma consecutive_app e rs rs' :
  consecutive e (rs ++ rs') ↔ consecutive e rs ∧ consecutive (e + blen rs) rs'.
Proof.
  revert e. induction rs as [|r rs IH]; intros e; simpl.
  { rewrite Z.add_0_r. naive_solver. }
  rewrite IH. replace (e + 1 + blen rs) with (e + blen (r :: rs)) by (unfold blen; simpl; lia).
  naive_solver.
Qed.

Lemma scan_go_fuel buf d : ∀ fuel pos e,
  (length buf - pos < fuel)%nat → (pos ≤ length buf)%nat → ∃ res, scan_go fuel buf d pos e = Some res.
Proof.
  induction fuel as [|fuel IH]; intros pos e Hf Hp; [lia|]. simpl.
  destruct (scan_step buf d pos e) as [o|r np ne] eqn:Hs; [by eexists|].
  apply scan_step_accept_inv in Hs as (_ & Hnp & Hle & _).
  rewrite length_encode_record in Hnp. unfold HEADER in Hnp.
  destruct (IH np ne) as [[rs o] ->]; [lia..|]. by eexists.
Qed.

(** The scanner terminates on every input. *)
Lemma scan_total buf first d : ∃ res, scan_segment_bounded buf first d = Some res.
Proof. apply scan_go_fuel; lia. Qed.

(** More fuel does not change a result. *)
Lemma scan_go_mono buf d : ∀ fuel fuel' pos e res,
  scan_go fuel buf d pos e = Some res → (fuel ≤ fuel')%nat → scan_go fuel' buf d pos e = Some res.
Proof.
  induction fuel as [|fuel IH]; intros [|fuel'] pos e res Hs Hle; try done; [lia|].
  simpl in *. destruct (scan_step buf d pos e); [done|].
  apply bind_Some in Hs as ([rs o] & Hs & Hr). by rewrite (IH fuel' _ _ _ Hs ltac:(lia)).
Qed.

(** The scanner reads a framed prefix and goes on behind it. *)
Lemma scan_go_records buf d rs : ∀ fuel pos e tl res,
  drop pos buf = encode_records rs ++ tl → consecutive e rs →
  scan_go fuel buf d (pos + length (encode_records rs)) (e + blen rs) = Some res →
  scan_go (length rs + fuel) buf d pos e = Some (rs ++ res.1, res.2).
Proof.
  induction rs as [|r rs IH]; intros fuel pos e tl [rs2 o] Hd Hc Hs.
  { unfold blen in Hs. simpl in *. by rewrite Nat.add_0_r, Z.add_0_r in Hs. }
  destruct Hc as (Hseq & Hok & Hmax & Hc). rewrite encode_records_cons in *.
  rewrite <- (assoc_L (++)) in Hd. subst e. cbn [length Nat.add scan_go].
  rewrite (scan_step_accept _ _ _ r _ Hd) by done.
  destruct (drop_encode_inv _ _ _ _ Hd) as (_ & _ & _ & Hd').
  erewrite (IH fuel _ _ tl); [done|done|done|].
  rewrite <- Hs. rewrite length_app. f_equal; [lia|]. unfold blen. simpl. lia.
Qed.

(** Everything the scanner returns is really in the segment, and where it
    stopped is where those records end. *)
Lemma scan_go_sound buf d : ∀ fuel pos e rs o,
  scan_go fuel buf d pos e = Some (rs, o) → (pos ≤ length buf)%nat →
  let stop := (pos + length (encode_records rs))%nat in
  drop pos buf = encode_records rs ++ drop stop buf ∧ consecutive e rs ∧
  (stop ≤ length buf)%nat ∧ scan_step buf d stop (e + blen rs) = Done o.
Proof.
  induction fuel as [|fuel IH]; intros pos e rs o Hs Hp; [done|]. simpl in Hs. cbv zeta in *.
  destruct (scan_step buf d pos e) as [o'|r np ne] eqn:Hst.
  - injection Hs as <- <-. simpl. unfold encode_records, blen. simpl.
    by rewrite Nat.add_0_r, Z.add_0_r.
  - apply bind_Some in Hs as ([rs' o''] & Hs & Hr). injection Hr as <- <-.
    apply scan_step_accept_inv in Hst as (Hd & Hnp & Hle & Hok & Hseq & Hne & Hmax).
    apply IH in Hs as (Hd2 & Hc2 & Hle2 & Hst2); [|done].
    rewrite encode_records_cons, length_app, <- (assoc_L (++)).
    replace (pos + (length (encode_record r) + length (encode_records rs')))%nat
      with (np + length (encode_records rs'))%nat by lia.
    replace (e + blen (r :: rs')) with (ne + blen rs') by (unfold blen; simpl; lia).
    rewrite Hd, Hd2. subst ne. simpl. split; [done|]. split; [|done].
    split; [done|]. split; [done|]. split; [lia|done].
Qed.
End WithCrc.

(** ** The scanner's contract *)

Section Contract.
Context `{Crc32}.

Lemma scan_prefix_result buf first d rs tl res :
  buf = encode_records rs ++ tl → consecutive first rs →
  scan_go (S (length buf)) buf d (length (encode_records rs)) (first + blen rs) = Some res →
  scan_segment_bounded buf first d = Some (rs ++ res.1, res.2).
Proof.
  intros Hb Hc Hs. destruct (scan_total buf first d) as [res' Hr]. rewrite Hr.
  pose proof (scan_go_records buf d rs (S (length buf)) 0 first tl res) as Hg.
  rewrite drop_0 in Hg. specialize (Hg Hb Hc Hs).
  unfold scan_segment_bounded in Hr.
  apply (scan_go_mono _ _ _ (length rs + S (length buf))) in Hr; [|lia].
  rewrite Hg in Hr. by injection Hr as ->.
Qed.

(** Whatever follows them, framed records are found. *)
Lemma scan_prefix_of buf first d rs tl :
  buf = encode_records rs ++ tl → consecutive first rs →
  ∃ rs' o, scan_segment_bounded buf first d = Some (rs', o) ∧ rs `prefix_of` rs'.
Proof.
  intros Hb Hc. destruct (scan_go_fuel buf d (S (length buf)) (length (encode_records rs)) (first + blen rs))
    as [res Hg]; [lia|by rewrite Hb, length_app; lia|].
  eexists _, _. split; [by eapply scan_prefix_result|]. by eexists.
Qed.

(** How the scan ends at the end of the framed records. *)
Lemma scan_stop_result buf first d rs tl o :
  buf = encode_records rs ++ tl → consecutive first rs →
  scan_step buf d (length (encode_records rs)) (first + blen rs) = Done o →
  scan_segment_bounded buf first d = Some (rs, o).
Proof.
  intros Hb Hc Hs. rewrite (scan_prefix_result buf first d rs tl ([], o)); [|done..|].
  - simpl. by rewrite app_nil_r.
  - cbn [scan_go]. by rewrite Hs.
Qed.

Definition bound_le (d : option nat) (n : nat) : Prop :=
  match d with Some m => (m ≤ n)%nat | None => True end.

Lemma in_durable_false d n : in_durable d n = false ↔ bound_le d n.
Proof. destruct d as [m|]; simpl; [|done]. by rewrite Nat.ltb_ge. Qed.

Lemma parse_header_zeros k : parse_header (zeros k) = None.
Proof.
  unfold parse_header. destruct (Nat.ltb_spec (length (zeros k)) HEADER) as [|Hge]; [done|].
  rewrite length_zeros in Hge. unfold HEADER in Hge.
  do 4 (destruct k as [|k]; [lia|]). done.
Qed.

(** Where and how a scan may stop. *)
Lemma scan_step_done_inv buf d pos e o :
  (pos ≤ length buf)%nat → scan_step buf d pos e = Done o →
  match o with
  | Clean => all_zero (drop pos buf) = true ∧ (bound_le d (length buf) → bound_le d pos)
  | TornTail at_ => at_ = pos ∧ bound_le d at_
  | Corrupt at_ _ => at_ = pos
  end.
Proof.
  intros Hle. unfold scan_step, damaged.
  destruct (Nat.eqb_spec pos (length buf)) as [->|Hne].
  { intros [= <-]. by rewrite drop_all. }
  repeat match goal with
  | |- (if negb ?b then _ else _) = _ → _ => destruct b eqn:?; cbn [negb]
  | |- (if ?b then _ else _) = _ → _ => destruct b eqn:?
  | |- match parse_header ?x with _ => _ end = _ → _ => destruct (parse_header x) eqn:?
  | |- match checked_add ?x ?y with _ => _ end = _ → _ => destruct (checked_add x y) eqn:?
  end; try (by intros [= <-]); intros [= <-];
  repeat match goal with H : in_durable _ _ = false |- _ => apply in_durable_false in H end;
  try done;
  match goal with |- context [if ?b then Corrupt _ _ else _] => destruct b eqn:Hd; [done|] end;
  (destruct d as [n|]; [by apply in_durable_false in Hd|done]).
Qed.

(** C29. Whatever the writer framed is scanned back: a body of records
    numbered consecutively from the segment's base, followed by
    preallocated zeros, scans to exactly those records with outcome
    [Clean]; and if the last record is cut anywhere, the scan returns the
    records before it and reports a torn tail at their end, for every
    durable bound that covers only complete records. *)
Theorem scan_complete first rs d :
  consecutive first rs → bound_le d (length (encode_records rs)) →
  (∀ k, scan_segment_bounded (encode_records rs ++ zeros k) first d = Some (rs, Clean)) ∧
  (∀ r k, record_ok r → sequence r = first + blen rs → (0 < k < length (encode_record r))%nat →
    scan_segment_bounded (encode_records rs ++ take k (encode_record r)) first d =
    Some (rs, TornTail (length (encode_records rs)))).
Proof.
  intros Hc Hd%in_durable_false. split.
  - intros k. eapply scan_stop_result; [done|done|]. unfold scan_step.
    rewrite drop_app_length. destruct (_ =? _)%nat; [done|].
    by rewrite parse_header_zeros, all_zero_zeros, Hd.
  - intros r k Hr Hseq Hk. eapply scan_stop_result; [done|done|]. rewrite <- Hseq.
    apply (scan_step_torn _ _ _ r k); [|done..]. by rewrite drop_app_length.
Qed.

(** C30. What the scanner returns can be trusted, and damage in the durable
    prefix is loud: on any bytes whatsoever it returns an outcome; the
    records it returns are consecutive from the base and their framing is
    literally the beginning of the segment; any run of framed records the
    segment starts with is returned in full, whatever follows; a torn tail
    is never reported below the durable bound, and [Clean] leaves only zeros
    behind and hides no durable byte that exists. *)
Theorem scan_sound buf first d :
  ∃ rs o, scan_segment_bounded buf first d = Some (rs, o) ∧
  let stop := length (encode_records rs) in
  consecutive first rs ∧ buf = encode_records rs ++ drop stop buf ∧
  (∀ ack tl, consecutive first ack → buf = encode_records ack ++ tl → ack `prefix_of` rs) ∧
  match o with
  | Clean => all_zero (drop stop buf) = true ∧ (bound_le d (length buf) → bound_le d stop)
  | TornTail at_ => at_ = stop ∧ bound_le d at_
  | Corrupt at_ _ => at_ = stop
  end.
Proof.
  destruct (scan_total buf first d) as [[rs o] Hs]. exists rs, o. split; [done|]. cbv zeta.
  pose proof (scan_go_sound _ _ _ _ _ _ _ Hs ltac:(lia)) as (Hb & Hc & Hle & Hst).
  rewrite drop_0, Nat.add_0_l in *. split; [done|]. split; [done|]. split.
  { intros ack tl Hack Hbuf. destruct (scan_prefix_of _ _ d _ _ Hbuf Hack) as (rs' & o' & Hr & Hp).
    rewrite Hs in Hr. by injection Hr as -> _. }
  by apply scan_step_done_inv in Hst.
Qed.
End Contract.

Lemma scan_complete_witness :
  @scan_segment_bounded Ieee.ieee
    (@encode_records Ieee.ieee [mkJournalRecord 5 1 (magic "ciphertext")] ++ zeros 7) 5 (Some 42%nat)
  = Some ([mkJournalRecord 5 1 (magic "ciphertext")], Clean).
Proof.
  refine (proj1 (@scan_complete Ieee.ieee 5 [mkJournalRecord 5 1 (magic "ciphertext")] (Some 42%nat) _ _) 7%nat).
  - split; [done|]. split; [|by vm_compute]. repeat split; by vm_compute.
  - apply Nat.leb_le. vm_compute. reflexivity.
Defined.

(** ** The append projection is the writer's behaviour *)
Module Footprint.
(** Equal writer states. *)
Ltac tup :=
  repeat match goal with
  | |- (_, _) = (_, _) => apply f_equal2
  | |- Some _ = Some _ => apply f_equal
  end; lia.

Section Proofs.
Context (segment_size : Z).

(** The writer, one record at a time ([JournalWriter::check_append] and
    [append]): a nonempty active segment the record does not fit, or no
    segment at all, makes it roll and write a new header. *)
Definition append_one (st : option (Z * Z) * Z) (record_len : Z) : option (Z * Z) * Z :=
  let '(active, added) := st in
  match active with
  | Some (offset, records) =>
      if (0 <? records) && (segment_size <? offset + record_len)
      then (Some (SEGMENT_HEADER_SIZE + record_len, 1), added + SEGMENT_HEADER_SIZE + record_len)
      else (Some (offset + record_len, records + 1), added + record_len)
  | None => (Some (SEGMENT_HEADER_SIZE + record_len, 1), added + SEGMENT_HEADER_SIZE + record_len)
  end.

Definition append_all (st : option (Z * Z) * Z) (lens : list Z) : option (Z * Z) * Z :=
  foldl append_one st lens.

(** The records a list of groups stands for. *)
Definition expand (groups : list (Z * Z)) : list Z :=
  groups ≫= λ '(record_len, count), replicate (Z.to_nat count) record_len.

Definition per_segment (len : Z) : Z := Z.max (saturating_sub segment_size SEGMENT_HEADER_SIZE / len) 1.

(** The next record of this length makes the writer roll. *)
Definition full (st : option (Z * Z)) (len : Z) : Prop :=
  match st with Some (offset, records) => 0 < records ∧ segment_size < offset + len | None => True end.

Lemma fill offset records added len (k : nat) :
  0 < len → 0 ≤ records →
  ((k ≤ 1)%nat ∧ records = 0 ∨ offset + Z.of_nat k * len ≤ segment_size ∨ k = 0%nat) →
  append_all (Some (offset, records), added) (replicate k len) =
  (Some (offset + Z.of_nat k * len, records + Z.of_nat k), added + Z.of_nat k * len).
Proof.
  intros Hlen. revert offset records added.
  induction k as [|k IH]; intros offset records added Hr Hk; unfold append_all in *; simpl.
  { tup. }
  assert ((0 <? records) && (segment_size <? offset + len) = false) as ->.
  { apply andb_false_iff. rewrite !Z.ltb_ge. destruct Hk as [[? ->]|[?|?]]; [lia|nia|lia]. }
  rewrite IH; [tup|lia|]. destruct Hk as [[? ->]|[?|?]]; [right; right; lia|nia|lia].
Qed.

Lemma per_segment_spec len :
  0 < len → 1 ≤ per_segment len ∧
  segment_size < SEGMENT_HEADER_SIZE + (per_segment len + 1) * len ∧
  (1 < per_segment len → SEGMENT_HEADER_SIZE + per_segment len * len ≤ segment_size).
Proof.
  intros Hlen. unfold per_segment, saturating_sub.
  set (x := Z.max (segment_size - SEGMENT_HEADER_SIZE) 0).
  pose proof (Z.div_mod x len ltac:(lia)) as Hd. pose proof (Z.mod_pos_bound x len Hlen).
  set (q := x / len) in *. split; [lia|].
  split; [nia|]. intros. replace (Z.max q 1) with q in * by lia.
  assert (x = segment_size - SEGMENT_HEADER_SIZE ∨ x = 0) as [Hx|Hx] by lia; nia.
Qed.

(** Appending to a full state: the first record opens a segment, which then
    takes up to [per_segment] records. *)
Lemma open_segment st added len (k : nat) :
  0 < len → full st len → (1 ≤ k)%nat → Z.of_nat k ≤ per_segment len →
  append_all (st, added) (replicate k len) =
  (Some (SEGMENT_HEADER_SIZE + len * Z.of_nat k, Z.of_nat k),
   added + SEGMENT_HEADER_SIZE + len * Z.of_nat k).
Proof.
  intros Hlen Hfull Hk1 Hk. destruct (per_segment_spec len Hlen) as (Hp1 & Hp2 & Hp3).
  destruct k as [|k]; [lia|].
  assert (append_one (st, added) len =
    (Some (SEGMENT_HEADER_SIZE + len, 1), added + SEGMENT_HEADER_SIZE + len)) as Hone.
  { unfold append_one. destruct st as [[o r]|]; [|done]. destruct Hfull.
    by rewrite (proj2 (Z.ltb_lt _ _)), (proj2 (Z.ltb_lt _ _)) by lia. }
  unfold append_all. cbn [replicate foldl]. rewrite Hone.
  pose proof (fill (SEGMENT_HEADER_SIZE + len) 1 (added + SEGMENT_HEADER_SIZE + len) len k) as Hf.
  unfold append_all in Hf. rewrite Hf; [tup|lia|lia|].
  right. destruct (decide (k = 0)%nat); [by right|left; nia].
Qed.

Lemma div_ceil_step a b : 0 < b → b < a → div_ceil a b = 1 + div_ceil (a - b) b.
Proof.
  intros Hb Ha. pose proof (div_ceil_spec a b Hb). pose proof (div_ceil_spec (a - b) b Hb). nia.
Qed.

Lemma div_ceil_one a b : 0 < a ≤ b → div_ceil a b = 1.
Proof. intros Ha. pose proof (div_ceil_spec a b ltac:(lia)). nia. Qed.

Lemma append_all_app st l k : append_all st (l ++ k) = append_all (append_all st l) k.
Proof. apply foldl_app. Qed.

(** The closed form of any number of records behind a full state. *)
Lemma rolled len : 0 < len → ∀ (n : nat) st added, full st len → (1 ≤ n)%nat →
  let last := (Z.of_nat n - 1) mod per_segment len + 1 in
  append_all (st, added) (replicate n len) =
  (Some (SEGMENT_HEADER_SIZE + len * last, last),
   added + len * Z.of_nat n + SEGMENT_HEADER_SIZE * div_ceil (Z.of_nat n) (per_segment len)).
Proof.
  intros Hlen n. cbv zeta. induction (lt_wf n) as [n _ IH]. intros st added Hfull Hn.
  destruct (per_segment_spec len Hlen) as (Hp1 & Hp2 & Hp3).
  destruct (decide (Z.of_nat n ≤ per_segment len)) as [Hle|Hgt].
  - rewrite open_segment by done. rewrite div_ceil_one by lia. rewrite Z.mod_small by lia.
    tup.
  - set (p := Z.to_nat (per_segment len)). assert (Z.of_nat p = per_segment len) as Hpp by lia.
    replace n with (p + (n - p))%nat at 1 by lia.
    rewrite replicate_add, append_all_app, open_segment by (done || lia).
    rewrite IH; [|lia| |lia].
    + rewrite (div_ceil_step (Z.of_nat n)) by lia.
      replace (Z.of_nat (n - p)) with (Z.of_nat n - per_segment len) by lia.
      replace ((Z.of_nat n - 1) mod per_segment len)
        with ((Z.of_nat n - per_segment len - 1) mod per_segment len); [tup|].
      rewrite <- (Z_mod_plus_full (Z.of_nat n - per_segment len - 1) 1). f_equal. lia.
    + simpl. rewrite Hpp. nia.
Qed.
Lemma append_all_mono st lens :
  Forall (λ l, 0 ≤ l) lens → st.2 ≤ (append_all st lens).2.
Proof.
  intros Hl. revert st. induction Hl as [|l lens Hl _ IH]; intros [a add]; [done|].
  unfold append_all in *. simpl foldl. etransitivity; [|apply IH].
  unfold append_one, SEGMENT_HEADER_SIZE. repeat case_match; simpl; lia.
Qed.

(** How many records of a length the active segment still takes. *)
Definition fitting (active : option (Z * Z)) (len count : Z) : Z :=
  Z.min
    match active with
    | None => 0
    | Some (offset, records) =>
        let fit := saturating_sub segment_size offset / len in
        if records =? 0 then Z.max fit 1 else fit
    end count.

Definition active_ok (active : option (Z * Z)) : Prop :=
  match active with Some (offset, records) => 0 ≤ offset ∧ 0 ≤ records | None => True end.

Lemma fitting_spec active len n :
  0 < len → 0 < n → active_ok active → let f := fitting active len n in
  0 ≤ f ≤ n ∧
  (∀ added, append_all (active, added) (replicate (Z.to_nat f) len) =
     (match active with Some (o, r) => Some (o + f * len, r + f) | None => None end, added + f * len)) ∧
  (f < n → full (match active with Some (o, r) => Some (o + f * len, r + f) | None => None end) len).
Proof.
  intros Hlen Hn Hok. cbv zeta. unfold fitting.
  destruct active as [[o r]|]; cycle 1.
  { rewrite Z.min_l by lia. split; [lia|]. split; [|done]. intros added. simpl. f_equal. lia. }
  destruct Hok as [Ho Hr]. unfold saturating_sub.
  set (x := Z.max (segment_size - o) 0).
  pose proof (Z.div_mod x len ltac:(lia)) as Hd. pose proof (Z.mod_pos_bound x len Hlen).
  set (q := x / len) in *. assert (0 ≤ q) by nia.
  destruct (Z.eqb_spec r 0) as [->|Hne].
  - set (f := Z.min (Z.max q 1) n). split; [lia|]. split.
    + intros added. rewrite fill by (lia || (right; right; lia) ||
        (destruct (decide (f ≤ 1)); [left; lia|right; left; nia])). tup.
    + intros Hlt. simpl. split; [lia|]. assert (f = Z.max q 1) by lia. nia.
  - set (f := Z.min q n). split; [lia|]. split.
    + intros added. rewrite fill; [tup|lia|lia|].
      destruct (decide (f = 0)); [right; right; lia|right; left; nia].
    + intros Hlt. simpl. split; [lia|]. assert (f = q) by lia. nia.
Qed.

Definition filled (active : option (Z * Z)) (f len : Z) : option (Z * Z) :=
  match active with Some (o, r) => Some (o + f * len, r + f) | None => None end.

Lemma footprint_fill_exact active added len f :
  0 < len → 0 ≤ f → (active = None → f = 0) →
  (∀ r, footprint_fill active added len f = Some r → r = (filled active f len, added + f * len)) ∧
  (added + f * len ≤ U64_MAX →
   (∀ o r, active = Some (o, r) → o + f * len ≤ U64_MAX ∧ r + f ≤ U64_MAX ∧ 0 ≤ o ∧ 0 ≤ r) →
   0 ≤ added →
   footprint_fill active added len f = Some (filled active f len, added + f * len)).
Proof.
  intros Hlen Hf Hnone. unfold footprint_fill, filled.
  destruct (Z.ltb_spec 0 f) as [Hf0|Hf0]; cycle 1.
  { assert (f = 0) as -> by lia. destruct active as [[o r]|]; simpl; rewrite ?Z.add_0_r; naive_solver. }
  destruct active as [[o r]|]; [|specialize (Hnone eq_refl); lia]. simpl. split.
  - intros st Hst.
    repeat (apply bind_Some in Hst as (? & Hs & Hst);
      first [apply checked_mul_some in Hs as [-> ?] | apply checked_add_some in Hs as [-> ?]]).
    injection Hst as <-. tup.
  - intros Ha Hb Hadd. destruct (Hb o r eq_refl) as (H1 & H2 & H3 & H4).
    unfold checked_mul, checked_add.
    repeat (rewrite (proj2 (Z.leb_le _ _)) by nia; cbn [mbind option_bind]). tup.
Qed.

Lemma footprint_roll_exact active added len (m : Z) :
  0 < len → 0 ≤ m → (0 < m → full active len) → 0 ≤ added →
  let st' := append_all (active, added) (replicate (Z.to_nat m) len) in
  (∀ r, footprint_roll segment_size active added len m = Some r → r = st') ∧
  (st'.2 ≤ U64_MAX → footprint_roll segment_size active added len m = Some st').
Proof.
  intros Hlen Hm Hfull Hadd. cbv zeta. unfold footprint_roll.
  destruct (Z.ltb_spec 0 m) as [Hm0|Hm0]; cycle 1.
  { assert (m = 0) as -> by lia. naive_solver. }
  rewrite (rolled len Hlen (Z.to_nat m) active added) by (auto || lia).
  replace (Z.of_nat (Z.to_nat m)) with m by lia. fold (per_segment len).
  destruct (per_segment_spec len Hlen) as (Hp1 & _ & _).
  pose proof (div_ceil_nonneg m (per_segment len) ltac:(lia) ltac:(lia)).
  pose proof (div_ceil_spec m (per_segment len) ltac:(lia)).
  pose proof (Z.mod_pos_bound (m - 1) (per_segment len) ltac:(lia)).
  assert ((m - 1) mod per_segment len ≤ m - 1) by (apply Z.mod_le; lia).
  split.
  - intros st Hst.
    repeat (apply bind_Some in Hst as (? & Hs & Hst);
      first [apply checked_mul_some in Hs as [-> ?] | apply checked_add_some in Hs as [-> ?]]).
    injection Hst as <-. tup.
  - cbn [snd]. intros Ha. unfold checked_mul, checked_add.
    change SEGMENT_HEADER_SIZE with 48 in *.
    assert (1 ≤ div_ceil m (per_segment len)) by nia.
    repeat (rewrite (proj2 (Z.leb_le _ _)) by nia; cbn [mbind option_bind]). tup.
Qed.

(** A group is projected exactly: the result is the state the writer
    reaches, and it is reported whenever the sums fit 64 bits. *)
Lemma footprint_group_exact active added len n :
  0 < len → 0 ≤ n → active_ok active → 0 ≤ added →
  let st' := append_all (active, added) (replicate (Z.to_nat n) len) in
  (∀ r, footprint_group segment_size (active, added) (len, n) = Some r → r = st') ∧
  (st'.2 ≤ U64_MAX →
   (∀ o r, active = Some (o, r) → o + (st'.2 - added) ≤ U64_MAX ∧ r + n ≤ U64_MAX) →
   footprint_group segment_size (active, added) (len, n) = Some st').
Proof.
  intros Hlen Hn Hok Hadd. cbv zeta. unfold footprint_group.
  destruct (Z.eqb_spec n 0) as [->|Hn0]; [naive_solver|].
  rewrite (proj2 (Z.eqb_neq len 0)) by lia.
  destruct (fitting_spec active len n) as (Hf & Hfill & Hfull); [done|lia|done|].
  change (Z.min _ n) with (fitting active len n).
  assert (active = None → fitting active len n = 0) as Hnone
    by (intros ->; unfold fitting; lia).
  set (f := fitting active len n) in *. fold (filled active f len) in *.
  replace (Z.to_nat n) with (Z.to_nat f + Z.to_nat (n - f))%nat by lia.
  rewrite replicate_add, append_all_app, Hfill.
  destruct (footprint_fill_exact active added len f Hlen ltac:(lia) Hnone) as [Hx1 Hx2].
  destruct (footprint_roll_exact (filled active f len) (added + f * len) len (n - f))
    as [Hr1 Hr2]; [done|lia|intros; apply Hfull; lia|nia|].
  split.
  - intros r Hr. apply bind_Some in Hr as ([a' add'] & Hs & Hr).
    apply Hx1 in Hs as [= -> ->]. by apply Hr1.
  - intros Hmax Hact.
    pose proof (append_all_mono (filled active f len, added + f * len)
      (replicate (Z.to_nat (n - f)) len)) as Hmono.
    cbn [snd] in Hmono. specialize (Hmono ltac:(apply Forall_replicate; lia)).
    rewrite Hx2; [cbn [mbind option_bind]; by apply Hr2|lia| |lia].
    intros o r ->. destruct (Hact o r eq_refl). destruct Hok. lia.
Qed.
(** The groups the callers pass: positive record lengths. *)
Definition groups_ok (groups : list (Z * Z)) : Prop :=
  Forall (λ g : Z * Z, 0 < g.1 ∧ 0 ≤ g.2) groups.

Definition total_count (groups : list (Z * Z)) : Z := foldr (λ g acc, g.2 + acc) 0 groups.

(** What one group leaves in the active segment is covered by what it added. *)
Lemma append_all_active lens : ∀ active added a' added' o0 r0,
  append_all (active, added) lens = (a', added') → Forall (λ l, 0 < l) lens →
  (∀ o r, active = Some (o, r) → 0 ≤ o ≤ o0 ∧ 0 ≤ r ≤ r0) → 0 ≤ o0 → 0 ≤ r0 →
  ∀ o r, a' = Some (o, r) → 0 ≤ o ≤ o0 + (added' - added) ∧ 0 ≤ r ≤ r0 + blen lens.
Proof.
  induction lens as [|l lens IH]; intros active added a' added' o0 r0 Ha Hl Hact Ho0 Hr0 o r Ho.
  { injection Ha as <- <-. destruct (Hact o r Ho). unfold blen. simpl. lia. }
  inversion_clear Hl as [|? ? Hl0 Hls]. unfold append_all in Ha. cbn [foldl] in Ha.
  destruct (append_one (active, added) l) as [a1 add1] eqn:H1.
  assert (added ≤ add1 ∧ ∀ o r, a1 = Some (o, r) → 0 ≤ o ≤ o0 + (add1 - added) ∧ 0 ≤ r ≤ r0 + 1)
    as [Hle Hact1].
  { unfold append_one, SEGMENT_HEADER_SIZE in H1.
    destruct active as [[o1 r1]|]; [destruct (Hact o1 r1 eq_refl); destruct (_ && _)|];
      injection H1 as <- <-; (split; [lia|]); intros ? ? [= <- <-]; lia. }
  destruct (IH a1 add1 a' added' (o0 + (add1 - added)) (r0 + 1) Ha Hls Hact1
    ltac:(lia) ltac:(lia) o r Ho) as [? ?].
  unfold blen in *. simpl. lia.
Qed.

Lemma append_all_active_ok lens active added :
  Forall (λ l, 0 < l) lens → active_ok active → active_ok (append_all (active, added) lens).1.
Proof.
  intros Hl Hok. destruct (append_all (active, added) lens) as [a' added'] eqn:E. simpl.
  destruct a' as [[o r]|]; [|done].
  destruct active as [[o0 r0]|].
  - destruct Hok. destruct (append_all_active _ _ _ _ _ o0 r0 E Hl ltac:(naive_solver lia)
      ltac:(lia) ltac:(lia) o r eq_refl). split; lia.
  - destruct (append_all_active _ _ _ _ _ 0 0 E Hl ltac:(done) ltac:(lia) ltac:(lia) o r eq_refl).
    split; lia.
Qed.

Definition active_le (active : option (Z * Z)) (o0 r0 : Z) : Prop :=
  ∀ o r, active = Some (o, r) → 0 ≤ o ≤ o0 ∧ 0 ≤ r ≤ r0.

Lemma total_count_nonneg groups : groups_ok groups → 0 ≤ total_count groups.
Proof. induction 1 as [|[l n] gs [? ?] _ IH]; simpl in *; lia. Qed.

Lemma expand_pos groups : groups_ok groups → Forall (λ l, 0 < l) (expand groups).
Proof.
  intros Hgs. unfold expand. apply Forall_bind. eapply list.Forall_impl; [exact Hgs|].
  intros [l k] [? ?]. by apply Forall_replicate.
Qed.

Lemma footprint_groups_exact groups : ∀ active added o0 r0,
  groups_ok groups → active_ok active → 0 ≤ added →
  active_le active o0 r0 → 0 ≤ o0 → 0 ≤ r0 →
  let st' := append_all (active, added) (expand groups) in
  (∀ r, footprint_groups segment_size (active, added) groups = Some r → r = st') ∧
  (st'.2 ≤ U64_MAX → o0 + (st'.2 - added) ≤ U64_MAX → r0 + total_count groups ≤ U64_MAX →
   footprint_groups segment_size (active, added) groups = Some st').
Proof.
  induction groups as [|[len n] gs IH]; intros active added o0 r0 Hg Hok Hadd Hle Ho0 Hr0; cbv zeta.
  { split; simpl; [naive_solver|done]. }
  apply list.Forall_cons in Hg as [[Hlen Hn] Hgs]. simpl in Hlen, Hn.
  change (expand ((len, n) :: gs)) with (replicate (Z.to_nat n) len ++ expand gs).
  rewrite append_all_app. cbn [footprint_groups].
  destruct (footprint_group_exact active added len n Hlen Hn Hok Hadd) as [Hg1 Hg2].
  assert (Forall (λ l, 0 < l) (replicate (Z.to_nat n) len)) as Hpos by (apply Forall_replicate; lia).
  pose proof (append_all_active_ok _ active added Hpos Hok) as Hok1.
  pose proof (append_all_mono (active, added) (replicate (Z.to_nat n) len)
    ltac:(apply Forall_replicate; lia)) as Hmono.
  destruct (append_all (active, added) (replicate (Z.to_nat n) len)) as [a1 add1] eqn:E1.
  pose proof (append_all_active _ _ _ _ _ o0 r0 E1 Hpos Hle Ho0 Hr0) as Hle1.
  unfold blen in Hle1. rewrite length_replicate, Z2Nat.id in Hle1 by done.
  cbn [fst snd] in *.
  destruct (IH a1 add1 (o0 + (add1 - added)) (r0 + n) Hgs Hok1 ltac:(lia) Hle1 ltac:(lia) ltac:(lia))
    as [IH1 IH2].
  pose proof (append_all_mono (a1, add1) (expand gs)) as Hmono2. cbn [snd] in Hmono2.
  specialize (Hmono2 (list.Forall_impl _ _ _ (expand_pos gs Hgs) (λ l, Z.lt_le_incl 0 l))).
  pose proof (total_count_nonneg gs Hgs). split.
  - intros r Hr. apply bind_Some in Hr as (st1 & Hs & Hr). apply Hg1 in Hs as ->. by apply IH1.
  - cbn [total_count foldr snd]. fold (total_count gs). intros Hmax Ho Hr.
    rewrite Hg2; [cbn [mbind option_bind]|lia|].
    + apply IH2; lia.
    + intros o r ->. destruct (Hle o r eq_refl). lia.
Qed.
End Proofs.

Definition base (active : option (Z * Z)) : Z * Z := default (0, 0) active.

Lemma base_spec active :
  active_ok active → 0 ≤ (base active).1 ∧ 0 ≤ (base active).2 ∧
  active_le active (base active).1 (base active).2.
Proof.
  intros Hok. destruct active as [[o r]|]; [|by repeat split]. destruct Hok.
  split; [done|]. split; [done|]. intros ? ? [= <- <-]. simpl. lia.
Qed.

Lemma footprint_some segment_size active groups n :
  checked_append_footprint segment_size active groups = Some n →
  groups_ok groups → active_ok active →
  n = (append_all segment_size (active, 0) (expand groups)).2.
Proof.
  intros Hn Hg Hok. destruct (base_spec active Hok) as (Hb1 & Hb2 & Hle).
  apply bind_Some in Hn as ([a n'] & Hs & Hn).
  apply (footprint_groups_exact segment_size groups active 0 _ _ Hg Hok ltac:(lia) Hle Hb1 Hb2) in Hs.
  rewrite <- Hs. by simplify_eq.
Qed.

(** The append projection is exact.  Whenever
    [checked_append_footprint] answers, its answer is the number of bytes
    the writer adds when it appends the records one by one, rolling at the
    segment size and letting an empty segment take one oversized record;
    and it does answer whenever that total, the resulting offset and the
    record count fit 64 bits. *)
Theorem footprint_exact segment_size active groups :
  groups_ok groups → active_ok active →
  let total := (append_all segment_size (active, 0) (expand groups)).2 in
  (∀ n, checked_append_footprint segment_size active groups = Some n → n = total) ∧
  ((base active).1 + total ≤ U64_MAX → (base active).2 + total_count groups ≤ U64_MAX →
   checked_append_footprint segment_size active groups = Some total).
Proof.
  intros Hg Hok. cbv zeta. split; [intros n Hn; by apply footprint_some|].
  destruct (base_spec active Hok) as (Hb1 & Hb2 & Hle). unfold checked_append_footprint.
  destruct (footprint_groups_exact segment_size groups active 0 _ _ Hg Hok ltac:(lia) Hle Hb1 Hb2)
    as [_ Hx].
  destruct (append_all segment_size (active, 0) (expand groups)) as [a' total] eqn:E.
  cbn [snd] in *. intros Ho Hr. by rewrite Hx by lia.
Qed.

Lemma footprint_exact_witness :
  checked_append_footprint 300 (Some (200, 1)) [(90, 5); (500, 1)] =
  Some (append_all 300 (Some (200, 1), 0) (expand [(90, 5); (500, 1)])).2.
Proof.
  refine (proj2 (footprint_exact 300 (Some (200, 1)) [(90, 5); (500, 1)] _ _) _ _).
  - repeat constructor; simpl; lia.
  - simpl; lia.
  - by vm_compute.
  - by vm_compute.
Defined.

(** *** The minimum journal limit *)
Section Limit.
Context (segment_size maxlen : Z) (Hmax : 0 < maxlen).

(** Records of any length up to [maxlen] the active segment surely takes. *)
Definition slack (active : option (Z * Z)) : Z :=
  match active with
  | None => 0
  | Some (offset, records) =>
      let fit := saturating_sub segment_size offset / maxlen in
      if records =? 0 then Z.max fit 1 else fit
  end.

Definition headers_bound (active : option (Z * Z)) (m : Z) : Z :=
  div_ceil (Z.max 0 (m - slack active)) (per_segment segment_size maxlen).

Lemma div_ceil_mono a b c : 0 < c → a ≤ b → div_ceil a c ≤ div_ceil b c.
Proof.
  intros Hc Hab. pose proof (div_ceil_spec a c Hc). pose proof (div_ceil_spec b c Hc). nia.
Qed.

Lemma sat_div_spec o :
  let q := saturating_sub segment_size o / maxlen in
  0 ≤ q ∧ (0 < q → o + q * maxlen ≤ segment_size) ∧ segment_size < o + (q + 1) * maxlen.
Proof.
  cbv zeta. unfold saturating_sub. set (x := Z.max (segment_size - o) 0).
  pose proof (Z.div_mod x maxlen ltac:(lia)). pose proof (Z.mod_pos_bound x maxlen Hmax).
  assert (0 ≤ x / maxlen) by (apply Z.div_pos; lia). nia.
Qed.

Lemma slack_fit o r l :
  0 < l ≤ maxlen → 0 ≤ r → slack (Some (o, r)) - 1 ≤ slack (Some (o + l, r + 1)).
Proof.
  intros Hl Hr. unfold slack. rewrite (proj2 (Z.eqb_neq (r + 1) 0)) by lia.
  destruct (sat_div_spec o) as (? & ? & ?). destruct (sat_div_spec (o + l)) as (? & ? & ?).
  destruct (r =? 0); nia.
Qed.

Lemma slack_roll l :
  0 < l ≤ maxlen → per_segment segment_size maxlen - 1 ≤ slack (Some (SEGMENT_HEADER_SIZE + l, 1)).
Proof.
  intros Hl. destruct (per_segment_spec segment_size maxlen Hmax) as (? & ? & ?).
  destruct (sat_div_spec (SEGMENT_HEADER_SIZE + l)) as (? & ? & ?). unfold slack.
  change (1 =? 0) with false. cbv iota.
  destruct (decide (per_segment segment_size maxlen = 1)); nia.
Qed.

Lemma slack_full o r l :
  0 < r → 0 < l ≤ maxlen → segment_size < o + l → slack (Some (o, r)) = 0.
Proof.
  intros Hr Hl Hs. unfold slack. rewrite (proj2 (Z.eqb_neq r 0)) by lia.
  destruct (sat_div_spec o) as (? & ? & ?). nia.
Qed.

Lemma headers_bound_nonneg active m : 0 ≤ headers_bound active m.
Proof. apply div_ceil_nonneg; [lia|unfold per_segment; lia]. Qed.

(** Rolling once costs a header and leaves a fresh segment. *)
Lemma headers_bound_roll active l m :
  0 < l ≤ maxlen → 0 < m → slack active = 0 →
  1 + headers_bound (Some (SEGMENT_HEADER_SIZE + l, 1)) (m - 1) ≤ headers_bound active m.
Proof.
  intros Hl Hm Hs. unfold headers_bound. rewrite Hs.
  pose proof (slack_roll l Hl) as Hr.
  destruct (per_segment_spec segment_size maxlen Hmax) as (Hp & _ & _).
  set (p := per_segment segment_size maxlen) in *.
  etransitivity; [apply Z.add_le_mono_l, (div_ceil_mono _ (Z.max 0 (m - p))); lia|].
  rewrite Z.sub_0_r, (Z.max_r 0 m) by lia.
  destruct (decide (m ≤ p)).
  - rewrite (div_ceil_one m p), Z.max_l by lia. done.
  - rewrite Z.max_r by lia. rewrite (div_ceil_step m p) by lia. lia.
Qed.

Lemma headers_bound_le active m n :
  0 ≤ m → m ≤ n → match active with Some (_, r) => 0 ≤ r | None => True end →
  headers_bound active m ≤ div_ceil n (per_segment segment_size maxlen).
Proof.
  intros Hm Hn Hr. apply div_ceil_mono; [unfold per_segment; lia|].
  assert (0 ≤ slack active); [|lia]. unfold slack. destruct active as [[o r]|]; [|done].
  destruct (sat_div_spec o) as (? & _). destruct (r =? 0); lia.
Qed.

Lemma append_cost lens : ∀ active added,
  active_ok active → Forall (λ l, 0 < l ≤ maxlen) lens →
  (append_all segment_size (active, added) lens).2 ≤
  added + blen lens * maxlen + SEGMENT_HEADER_SIZE * headers_bound active (blen lens).
Proof.
  induction lens as [|l lens IH]; intros active added Hok Hl.
  { pose proof (headers_bound_nonneg active (blen (@nil Z))).
    change (blen (@nil Z)) with 0 in *. cbn [append_all foldl snd].
    unfold append_all, SEGMENT_HEADER_SIZE. simpl foldl. cbn [snd]. lia. }
  apply list.Forall_cons in Hl as [Hl Hls].
  unfold append_all. cbn [foldl]. fold (append_all segment_size).
  replace (blen (l :: lens)) with (blen lens + 1) by (unfold blen; simpl; lia).
  pose proof (blen_nonneg lens) as Hb.
  assert (∀ r0 active0, slack active0 = 0 → r0 = (Some (SEGMENT_HEADER_SIZE + l, 1), added + SEGMENT_HEADER_SIZE + l) →
    (append_all segment_size r0 lens).2 ≤ added + (blen lens + 1) * maxlen
      + SEGMENT_HEADER_SIZE * headers_bound active0 (blen lens + 1)) as Hroll.
  { intros r0 active0 Hs ->. etransitivity; [apply IH; [split; unfold SEGMENT_HEADER_SIZE; lia|done]|].
    pose proof (headers_bound_roll active0 l (blen lens + 1) Hl ltac:(lia) Hs) as Hh.
    replace (blen lens + 1 - 1) with (blen lens) in Hh by lia. unfold SEGMENT_HEADER_SIZE in *. lia. }
  unfold append_one. destruct active as [[o r]|]; [|by apply Hroll].
  destruct Hok as [Ho Hr].
  destruct ((0 <? r) && (segment_size <? o + l)) eqn:Hc.
  - inv_guards. apply Hroll; [|done]. by eapply slack_full.
  - etransitivity; [apply IH; [split; lia|done]|].
    assert (headers_bound (Some (o + l, r + 1)) (blen lens) ≤ headers_bound (Some (o, r)) (blen lens + 1)).
    { apply div_ceil_mono; [unfold per_segment; lia|]. pose proof (slack_fit o r l Hl Hr). lia. }
    unfold SEGMENT_HEADER_SIZE. lia.
Qed.
End Limit.

(** The minimum journal limit lets a largest request make progress: if
    the configuration accepts the limit [L], then with only the active
    segment retained (at most the segment size, or one oversized record),
    appending any request of up to [n] records of at most [maxlen] bytes,
    headers of rolled segments included, stays within [L]. *)
Theorem minimum_limit_sufficient segment_size maxlen n L offset records lens :
  minimum_journal_limit segment_size maxlen n = Some L →
  0 < maxlen → 0 ≤ segment_size →
  0 ≤ offset ≤ Z.max segment_size (SEGMENT_HEADER_SIZE + maxlen) → 0 ≤ records →
  Forall (λ l, 0 < l ≤ maxlen) lens → blen lens ≤ n →
  offset + (append_all segment_size (Some (offset, records), 0) lens).2 ≤ L.
Proof.
  intros Hlim Hmax Hseg Hoff Hrec Hl Hn. unfold minimum_journal_limit in Hlim.
  apply bind_Some in Hlim as (re & Hre & Hlim). apply checked_add_some in Hre as [-> _].
  set (ret := Z.max segment_size (SEGMENT_HEADER_SIZE + maxlen)) in *.
  pose proof (blen_nonneg lens) as Hb.
  apply bind_Some in Hlim as (ap & Hap & Hlim).
  assert (ap = (append_all segment_size (Some (ret, 1), 0) (replicate (Z.to_nat n) maxlen)).2) as Hap'.
  { apply footprint_some in Hap.
    - rewrite Hap. unfold expand. simpl. by rewrite app_nil_r.
    - repeat constructor; simpl; lia.
    - split; unfold ret, SEGMENT_HEADER_SIZE; lia. }
  repeat (apply bind_Some in Hlim as (? & ? & Hlim)). injection Hlim as <-.
  repeat match goal with H : checked_add _ _ = Some _ |- _ => apply checked_add_some in H as [-> _] end.
  pose proof (append_cost segment_size maxlen Hmax lens (Some (offset, records)) 0
    ltac:(split; lia) Hl) as Hcost.
  enough (offset + (append_all segment_size (Some (offset, records), 0) lens).2 ≤ ret + ap) by lia.
  etransitivity; [apply Z.add_le_mono_l, Hcost|]. clear Hcost.
  pose proof (headers_bound_le segment_size maxlen Hmax (Some (offset, records)) (blen lens) n
    Hb Hn Hrec) as Hh.
  destruct (decide (n = 0)) as [->|Hn0].
  { change (div_ceil 0 _) with 0 in Hh. subst ap. cbn [Z.to_nat replicate append_all foldl snd].
    unfold append_all. simpl foldl. cbn [snd]. unfold SEGMENT_HEADER_SIZE. nia. }
  rewrite (rolled segment_size maxlen Hmax (Z.to_nat n) (Some (ret, 1)) 0) in Hap' by (simpl; lia).
  cbn [snd] in Hap'. rewrite Z2Nat.id in Hap' by lia. unfold SEGMENT_HEADER_SIZE in *. nia.
Qed.

Lemma minimum_limit_sufficient_witness :
  300 + (append_all 300 (Some (300, 3), 0) [100; 60; 100]).2 ≤ 900.
Proof.
  refine (minimum_limit_sufficient 300 100 3 900 300 3 [100; 60; 100] _ _ _ _ _ _ _);
    [by vm_compute|lia|lia|by vm_compute|lia| |by vm_compute].
  repeat apply Forall_cons_2; [lia..|apply Forall_nil_2].
Defined.
End Footprint.
