(* ===== verification/Backing.v ===== *)
(** * Backing: the backing-store interface
    (crates/maki-backing/src/{lib,path}.rs)

    [Backing] is the pair of traits [Backing] and [BackingFile] as operations
    on a world [W]; every operation returns a result and the world after it,
    also when it fails.  [BackingLaws] is the durability contract the rest of
    the program relies on: what a path shows to readers ([vis]), what the
    next successful data sync will persist ([dirty]), and which contents
    survive any crash ([stable]).  The crash model of CrashBacking discharges
    the contract. *)

From S2P Require Import Prelude Codec Layout.

Local Open Scope Z_scope.

(** ** Effects: a world threaded through fallible calls *)

Definition M (W E A : Type) : Type := W → result E A * W.

Definition m_ret {W E A} (a : A) : M W E A := λ w, (Ok a, w).
Definition m_err {W E A} (e : E) : M W E A := λ w, (Err e, w).
Definition m_bind {W E A B} (m : M W E A) (k : A → M W E B) : M W E B :=
  λ w, match m w with (Ok a, w') => k a w' | (Err e, w') => (Err e, w') end.
(** A call whose failure the caller inspects instead of propagating. *)
Definition m_try {W E F A} (m : M W E A) : M W F (result E A) :=
  λ w, let '(r, w') := m w in (Ok r, w').
(** A pure result. *)
Definition m_lift {W E A} (r : result E A) : M W E A := λ w, (r, w).
Definition m_map_err {W E F A} (f : E → F) (m : M W E A) : M W F A :=
  λ w, let '(r, w') := m w in (map_err f r, w').

Declare Scope m_scope.
Notation "'let*' x := m 'in' k" := (m_bind m (λ x, k))
  (at level 10, x binder, m at level 100, k at level 200,
   format "'[v' 'let*'  x  :=  m  'in' '/' k ']'") : m_scope.
Notation "'let*' ' p := m 'in' k" := (m_bind m (λ x, let 'p := x in k))
  (at level 10, p pattern, m at level 100, k at level 200) : m_scope.
Open Scope m_scope.

Lemma m_bind_ok {W E A B} (m : M W E A) (k : A → M W E B) w b w2 :
  m_bind m k w = (Ok b, w2) ↔ ∃ a w1, m w = (Ok a, w1) ∧ k a w1 = (Ok b, w2).
Proof. unfold m_bind. destruct (m w) as [[a|e] w1]; naive_solver. Qed.

(** Every way a call can have ended. *)
Lemma m_bind_inv {S Er A B} (m : M S Er A) (k : A → M S Er B) s r s' :
  m_bind m k s = (r, s') →
  (∃ a s1, m s = (Ok a, s1) ∧ k a s1 = (r, s')) ∨ (∃ e, m s = (Err e, s') ∧ r = Err e).
Proof. unfold m_bind. destruct (m s) as [[a|e] s1]; [|intros [= <- <-]]; eauto. Qed.

Lemma m_map_err_inv {S Er Er' A} (f : Er → Er') (m : M S Er A) s r s' :
  m_map_err f m s = (r, s') → ∃ r0, m s = (r0, s') ∧ r = map_err f r0.
Proof. unfold m_map_err. destruct (m s) as [r0 s1]. intros [= <- <-]. eauto. Qed.

Lemma m_try_inv {S Er Er' A} (m : M S Er A) s (r : result Er' (result Er A)) s' :
  m_try m s = (r, s') → ∃ r0, m s = (r0, s') ∧ r = Ok r0.
Proof. unfold m_try. destruct (m s) as [r0 s1]. intros [= <- <-]. eauto. Qed.

(** Specifications of effectful calls: from [P], a call that succeeds with
    [a] ends in [Q a], one that fails ends in [E]. *)
Definition triple {W Er A} (P : W → Prop) (m : M W Er A) (Q : A → W → Prop) (E : W → Prop) : Prop :=
  ∀ w r w', P w → m w = (r, w') → match r with Ok a => Q a w' | Err _ => E w' end.

Section Triples.
Context {W Er : Type}.
Implicit Types (P E : W → Prop).

Lemma triple_bind {A B} P (m : M W Er A) (k : A → M W Er B) Q R E :
  triple P m Q E → (∀ a, triple (Q a) (k a) R E) → triple P (m_bind m k) R E.
Proof.
  intros Hm Hk w r w' Hp. unfold m_bind. destruct (m w) as [[a|e] w1] eqn:Hw.
  - intros Hr. by eapply (Hk a w1); [apply (Hm w (Ok a) w1)|].
  - intros [= <- <-]. by apply (Hm w (Err e) w1).
Qed.

Lemma triple_ret {A} (a : A) P (Q : A → W → Prop) E :
  (∀ w, P w → Q a w) → triple (Er := Er) P (m_ret a) Q E.
Proof. intros HPQ w r w' Hp [= <- <-]. auto. Qed.

Lemma triple_lift {A} (v : result Er A) P (Q : A → W → Prop) E :
  (∀ w, P w → match v with Ok a => Q a w | Err _ => E w end) → triple P (m_lift v) Q E.
Proof. intros HPQ w r w' Hp [= <- <-]. by apply HPQ. Qed.

Lemma triple_weaken {A} P P' (m : M W Er A) Q Q' E :
  (∀ w, P' w → P w) → (∀ a w, Q a w → Q' a w) → triple P m Q E → triple P' m Q' E.
Proof.
  intros HP HQ Hm w r w' Hp Hr. specialize (Hm w r w' (HP w Hp) Hr). destruct r; auto.
Qed.
End Triples.

(** Two computations that make the same calls and whose results are related
    by [T]. *)
Definition sim {W E A B} (T : A → B → Prop) (ma : M W E A) (mb : M W E B) : Prop := ∀ w,
  (ma w).2 = (mb w).2 ∧
  match (ma w).1, (mb w).1 with
  | Ok a, Ok b => T a b
  | Err e, Err e' => e = e'
  | _, _ => False
  end.

Lemma sim_refl {W E A} (m : M W E A) : sim eq m m.
Proof. intros w. by destruct (m w) as [[]]. Qed.

Lemma sim_ret {W E A B} (T : A → B → Prop) a b : T a b → sim (W := W) (E := E) T (m_ret a) (m_ret b).
Proof. done. Qed.

Lemma sim_err {W E A B} (T : A → B → Prop) (e : E) : sim (W := W) T (m_err e) (m_err e).
Proof. done. Qed.

Lemma sim_bind {W E A B A' B'} (T : A → B → Prop) (U : A' → B' → Prop) (ma : M W E A) (mb : M W E B) ka kb :
  sim T ma mb → (∀ a b, T a b → sim U (ka a) (kb b)) → sim U (m_bind ma ka) (m_bind mb kb).
Proof.
  intros Hm Hk w. specialize (Hm w). unfold m_bind.
  destruct (ma w) as [[a|e] w1], (mb w) as [[b|e'] w2]; simpl in Hm; destruct Hm as [-> Hm]; try done.
  by apply Hk.
Qed.

(** The same call first. *)
Lemma sim_step {W E A A' B'} (U : A' → B' → Prop) (m : M W E A) ka kb :
  (∀ a, sim U (ka a) (kb a)) → sim U (m_bind m ka) (m_bind m kb).
Proof. intros Hk. eapply sim_bind; [apply sim_refl|]. by intros a b <-. Qed.

Lemma sim_if {W E A B} (T : A → B → Prop) (c : bool) (ma na : M W E A) (mb nb : M W E B) :
  sim T ma mb → sim T na nb → sim T (if c then ma else na) (if c then mb else nb).
Proof. by destruct c. Qed.

(** ** Effects beside an object's own state *)

Definition get_state {S W E} : M (S * W) E S := λ st, (Ok st.1, st).
Definition modify_state {S W E} (f : S → S) : M (S * W) E unit := λ st, (Ok tt, (f st.1, st.2)).
(** A call that does not touch the object. *)
Definition on_world {S W E A} (m : M W E A) : M (S * W) E A := λ st,
  let '(r, w) := m st.2 in (r, (st.1, w)).
(** [for x in l { f(x)?; }]. *)
Fixpoint m_each {S E X} (f : X → M S E unit) (l : list X) : M S E unit :=
  match l with
  | [] => m_ret tt
  | x :: l => let* _ := f x in m_each f l
  end.
Definition m_when {S E} (b : bool) (m : M S E unit) : M S E unit := if b then m else m_ret tt.

Lemma on_world_inv {S W E A} (m : M W E A) (s : S) w r s' w' :
  on_world m (s, w) = (r, (s', w')) → s' = s ∧ m w = (r, w').
Proof. unfold on_world. simpl. destruct (m w) as [r0 w0]. by intros [= <- <- <-]. Qed.

(** ** Paths (path.rs) *)

Fixpoint contains_char (c : ascii) (s : string) : bool :=
  match s with
  | EmptyString => false
  | String d s' => Ascii.eqb c d || contains_char c s'
  end.

Definition slash : ascii := "/"%char.

(** [path.split('/')]. *)
Fixpoint split_slash (s : string) : list string :=
  match s with
  | EmptyString => [EmptyString]
  | String c s' =>
      if Ascii.eqb c slash then EmptyString :: split_slash s'
      else match split_slash s' with
           | comp :: rest => String c comp :: rest
           | [] => [String c EmptyString]
           end
  end.

Definition component_ok (comp : string) : bool :=
  negb (String.eqb comp "" || String.eqb comp "." || String.eqb comp "..").

Definition validate (path : string) (allow_empty : bool) : result ErrorKind unit :=
  if String.eqb path "" then (if allow_empty then Ok tt else Err InvalidInput)
  else if (match path with String c _ => Ascii.eqb c slash | EmptyString => false end) then Err InvalidInput
  else if contains_char "092"%char path || contains_char "000"%char path || contains_char ":"%char path
       then Err InvalidInput
  else if forallb component_ok (split_slash path) then Ok tt else Err InvalidInput.

(** [path.rfind('/')]: the text before and after the last slash. *)
Fixpoint rsplit (s : string) : option (string * string) :=
  match s with
  | EmptyString => None
  | String c s' =>
      match rsplit s' with
      | Some (d, f) => Some (String c d, f)
      | None => if Ascii.eqb c slash then Some (EmptyString, s') else None
      end
  end.

Definition parent (path : string) : string :=
  match rsplit path with Some (d, _) => d | None => EmptyString end.

Definition file_name (path : string) : string :=
  match rsplit path with Some (_, f) => f | None => path end.

(** An entry directly inside [dir] ("" = root); the test [list] and
    [sync_dir] share. *)
Definition dir_prefix (dir : string) : string :=
  if String.eqb dir "" then ""%string else (dir ++ "/")%string.

Definition entry_of (dir name : string) : option string :=
  match strip_prefix (dir_prefix dir) name with
  | Some rest => if negb (String.eqb rest "") && negb (contains_char slash rest)
                 then Some rest else None
  | None => None
  end.

Definition direct (dir name : string) : bool :=
  match entry_of dir name with Some _ => true | None => false end.

(** [cur] grown component by component in [create_dir_all]. *)
Fixpoint dir_ancestors (cur : string) (comps : list string) : list string :=
  match comps with
  | [] => []
  | c :: cs =>
      let cur' := if String.eqb cur "" then c else (cur ++ "/" ++ c)%string in
      cur' :: dir_ancestors cur' cs
  end.

(** ** The traits *)

(** [exact buf] bytes at an offset: [buf.copy_from_slice(&data[start..end])],
    [None] past the end. *)
Definition read_range (data : bytes) (offset len : Z) : option bytes :=
  if offset + len <=? blen data
  then Some (take (Z.to_nat len) (drop (Z.to_nat offset) data)) else None.

(** [Vec::resize(n, 0)]. *)
Definition resize (n : nat) (data : bytes) : bytes := take n data ++ zeros (n - length data).

(** [if len < end { resize(end, 0) }; data[start..end].copy_from_slice(src)]. *)
Definition write_range (data : bytes) (offset : nat) (src : bytes) : bytes :=
  let data' := if (length data <? offset + length src)%nat
               then resize (offset + length src) data else data in
  take offset data' ++ src ++ drop (offset + length src) data'.

(** The bytes [bs] lie at [off]. *)
Definition holds_at (off : nat) (bs data : bytes) : Prop :=
  ∀ i b, bs !! i = Some b → data !! (off + i)%nat = Some b.

(** [bs] at [off] lies outside the range of [len] bytes at [offset]. *)
Definition apart (off : nat) (bs : bytes) (offset len : Z) : Prop :=
  offset + len ≤ Z.of_nat off ∨ Z.of_nat off + blen bs ≤ offset.

Class Backing (W F : Type) := {
  b_check_freshness : M W ErrorKind unit;
  b_open : string → bool → M W ErrorKind F;
  b_exists : string → M W ErrorKind bool;
  b_remove : string → M W ErrorKind unit;
  b_rename : string → string → M W ErrorKind unit;
  b_create_dir_all : string → M W ErrorKind unit;
  b_list : string → M W ErrorKind (list string);
  b_sync_dir : string → M W ErrorKind unit;
  b_try_lock : string → M W ErrorKind unit;
  f_read_at : F → Z → Z → M W ErrorKind bytes;
  f_write_at : F → Z → bytes → M W ErrorKind unit;
  f_set_len : F → Z → M W ErrorKind unit;
  f_allocate_range : F → Z → Z → M W ErrorKind unit;
  f_punch_hole : F → Z → Z → M W ErrorKind unit;
  f_len : F → M W ErrorKind Z;
  f_sync_data : F → M W ErrorKind unit;
  f_sync_all : F → M W ErrorKind unit
}.

(** The default methods of [BackingFile]; a backing may override
    [allocate_range] and [sync_all]. *)
Definition default_allocate_range {W F} (f_len : F → M W ErrorKind Z) (f_set_len : F → Z → M W ErrorKind unit)
    (f : F) (offset len : Z) : M W ErrorKind unit :=
  let* end_ := m_lift (ok_or (checked_add offset len) InvalidInput) in
  let* cur := f_len f in
  if cur <? end_ then f_set_len f end_ else m_ret tt.

Definition default_sync_all {W F} (f_sync_data : F → M W ErrorKind unit) (f : F) : M W ErrorKind unit := f_sync_data f.

Definition f_is_empty `{Backing W F} (f : F) : M W ErrorKind bool :=
  let* n := f_len f in m_ret (n =? 0).

(** ** The durability contract *)

Section Frame.
Context {W F : Type} (inv quiet : W → Prop) (vis dirty : W → string → option bytes)
  (synced stable : W → string → bytes → Prop) (absent : W → string → Prop)
  (handle : W → F → string → Prop) (solid : W → string → bytes → Prop)
  (pinned : W → string → nat → bytes → Prop).

(** [w'] differs from [w] only on paths outside [P]. *)
Definition keeps_on (P : string → Prop) (w w' : W) : Prop :=
  inv w' ∧ (quiet w → quiet w') ∧
  ∀ p, P p → vis w' p = vis w p ∧ dirty w' p = dirty w p ∧
    (∀ bs, synced w p bs → synced w' p bs) ∧ (∀ bs, stable w p bs → stable w' p bs) ∧
    (absent w p → absent w' p) ∧ (∀ f, handle w f p → handle w' f p) ∧
    (∀ pre, solid w p pre → solid w' p pre) ∧
    (∀ off bs, pinned w p off bs → pinned w' p off bs).
End Frame.

(** What the program relies on, whatever fails in between:
    - [vis w p]: the content a reader of the file named [p] sees;
    - [dirty w p]: the content its next successful [sync_data] makes durable
      (after a failed sync this need not be [vis]);
    - [synced w p bs]: the file named [p] holds [bs] and all of it is durable;
    - [stable w p bs]: in addition the name is durable, so every crash
      leaves [p] with exactly [bs];
    - [solid w p pre]: the name is durable and every crash leaves [p] with
      a content that starts with [pre], whatever is still pending behind it;
    - [pinned w p off bs]: the name is durable and every crash leaves [p]
      with [bs] at [off], whatever is pending elsewhere in the file and
      whatever a reader sees meanwhile;
    - [absent w p]: nothing is named [p], in memory or on disk;
    - [handle w f p]: [f] is an open file that [p] still names;
    - [quiet w]: no operation will be made to fail. *)
Class BackingLaws (W F : Type) `{Backing W F} := {
  inv : W → Prop;
  quiet : W → Prop;
  vis : W → string → option bytes;
  dirty : W → string → option bytes;
  synced : W → string → bytes → Prop;
  stable : W → string → bytes → Prop;
  absent : W → string → Prop;
  handle : W → F → string → Prop;
  solid : W → string → bytes → Prop;
  pinned : W → string → nat → bytes → Prop;
  crashes : W → W → Prop;
  keeps (P : string → Prop) (w w' : W) : Prop :=
    keeps_on inv quiet vis dirty synced stable absent handle solid pinned P w w';

  law_stable_synced w p bs : stable w p bs → synced w p bs;
  law_synced w p bs : synced w p bs → vis w p = Some bs ∧ dirty w p = Some bs;
  law_dirty_vis w p : is_Some (vis w p) ↔ is_Some (dirty w p);
  law_handle w f p : handle w f p → is_Some (vis w p);
  (** Two open files that one name names are the same file. *)
  law_handle_twin w w' f f' p : handle w f p → handle w f' p → handle w' f p → handle w' f' p;
  law_absent w p : absent w p → vis w p = None;
  law_stable_solid w p bs : stable w p bs → solid w p bs;
  law_synced_solid w p bs pre : synced w p bs → solid w p pre → stable w p bs;
  law_solid w p pre : solid w p pre → ∃ c d, vis w p = Some c ∧ dirty w p = Some d ∧
    pre `prefix_of` c ∧ pre `prefix_of` d;
  law_solid_prefix w p pre pre' : solid w p pre → pre' `prefix_of` pre → solid w p pre';

  law_crash w w' : inv w → crashes w w' →
    inv w' ∧ (quiet w → quiet w') ∧
    (∀ p bs, stable w p bs → stable w' p bs) ∧ (∀ p, absent w p → absent w' p) ∧
    (∀ p bs, vis w' p = Some bs → stable w' p bs) ∧
    (∀ p pre, solid w p pre → solid w' p pre);

  law_open w p create r w' :
    inv w → validate p false = Ok tt → b_open p create w = (r, w') →
    keeps (λ q, q ≠ p ∨ is_Some (vis w p) ∨ create = false) w w' ∧
    (∀ f, r = Ok f → handle w' f p ∧ vis w' p = Some (default [] (vis w p)) ∧
                      dirty w' p = Some (default [] (dirty w p))) ∧
    (r = Err NotFound → create = false ∧ vis w p = None) ∧
    (quiet w → is_Some (vis w p) ∨ create = true → ∃ f, r = Ok f) ∧
    (create = false → vis w p = None → is_ok r = false ∧ (quiet w → r = Err NotFound));

  law_len w f p c r w' :
    inv w → handle w f p → vis w p = Some c → f_len f w = (r, w') →
    keeps (λ _, True) w w' ∧ (∀ n, r = Ok n → n = blen c) ∧ (quiet w → is_ok r = true);

  law_read w f p c offset len r w' :
    inv w → handle w f p → vis w p = Some c → 0 ≤ offset → 0 ≤ len → offset + len ≤ U64_MAX →
    f_read_at f offset len w = (r, w') →
    keeps (λ _, True) w w' ∧ (∀ b, r = Ok b → read_range c offset len = Some b) ∧
    (r = Err UnexpectedEof → read_range c offset len = None) ∧
    (quiet w → ∀ b, read_range c offset len = Some b → r = Ok b);

  law_set_len w f p c d n r w' :
    inv w → handle w f p → vis w p = Some c → dirty w p = Some d → 0 ≤ n ≤ U64_MAX →
    f_set_len f n w = (r, w') →
    keeps (λ q, q ≠ p) w w' ∧ handle w' f p ∧
    (r = Ok tt → vis w' p = Some (resize (Z.to_nat n) c) ∧
                 dirty w' p = Some (resize (Z.to_nat n) d)) ∧
    (quiet w → r = Ok tt);

  (** An allocation inside the file changes nothing a reader or a crash
      could see; one past the end extends the file as [set_len] does, and can
      fail before it. *)
  law_allocate w f p c offset len r w' :
    inv w → handle w f p → vis w p = Some c → 0 ≤ offset → 0 ≤ len → offset + len ≤ U64_MAX →
    f_allocate_range f offset len w = (r, w') →
    ∃ w1, keeps (λ _, True) w w1 ∧
      (w' = w1 ∧ (is_ok r = true → offset + len ≤ blen c) ∧ (quiet w → is_ok r = true) ∨
       blen c < offset + len ∧ f_set_len f (offset + len) w1 = (r, w'));

  law_write w f p c d offset data r w' :
    inv w → handle w f p → vis w p = Some c → dirty w p = Some d →
    0 ≤ offset → offset + blen data ≤ U64_MAX → data ≠ [] →
    f_write_at f offset data w = (r, w') →
    keeps (λ q, q ≠ p) w w' ∧ handle w' f p ∧
    (r = Ok tt → vis w' p = Some (write_range c (Z.to_nat offset) data) ∧
                 dirty w' p = Some (write_range d (Z.to_nat offset) data)) ∧
    (quiet w → r = Ok tt);

  (** Writing nothing changes nothing. *)
  law_write_nil w f p offset r w' :
    inv w → handle w f p → f_write_at f offset [] w = (r, w') → keeps (λ _, True) w w';

  law_sync_data w f p c r w' :
    inv w → handle w f p → vis w p = Some c → f_sync_data f w = (r, w') →
    keeps (λ q, q ≠ p) w w' ∧ handle w' f p ∧ vis w' p = Some c ∧
    (r = Ok tt → dirty w p = Some c → synced w' p c) ∧
    (quiet w → r = Ok tt);

  (** [sync_all] is a [sync_data] that may persist more metadata. *)
  law_sync_all w f r w' :
    inv w → f_sync_all f w = (r, w') → ∃ w1, f_sync_data f w = (r, w1) ∧ (inv w1 → keeps (λ _, True) w1 w');

  (** Writing what is already there and durable changes nothing, even when
      the operation fails half way. *)
  law_set_len_same w f p bs r w' :
    inv w → handle w f p → synced w p bs → f_set_len f (blen bs) w = (r, w') →
    keeps (λ _, True) w w';
  law_write_same w f p bs r w' :
    inv w → handle w f p → synced w p bs → f_write_at f 0 bs w = (r, w') →
    keeps (λ _, True) w w';
  law_sync_same w f p bs r w' :
    inv w → handle w f p → synced w p bs → f_sync_data f w = (r, w') →
    keeps (λ _, True) w w';

  (** Writing behind a prefix, and syncing, leaves the prefix alone. *)
  law_solid_set_len w f p pre n r w' :
    inv w → handle w f p → solid w p pre → blen pre ≤ n → f_set_len f n w = (r, w') → solid w' p pre;
  law_solid_write w f p pre offset data r w' :
    inv w → handle w f p → solid w p pre → blen pre ≤ offset →
    f_write_at f offset data w = (r, w') → solid w' p pre;
  law_solid_sync w f p pre r w' :
    inv w → handle w f p → solid w p pre → f_sync_data f w = (r, w') → solid w' p pre;

  (** Releasing a range leaves the name durable. *)
  law_solid_punch w f p offset len r w' :
    inv w → handle w f p → solid w p [] → f_punch_hole f offset len w = (r, w') → solid w' p [];

  (** A length change or a write that fails half way has not touched what
      lies before it, and writing what is already visible shows nothing new. *)
  law_torn_set_len w f p c d n r w' :
    inv w → handle w f p → vis w p = Some c → dirty w p = Some d → f_set_len f n w = (r, w') →
    ∃ c' d', vis w' p = Some c' ∧ dirty w' p = Some d' ∧ (n = blen c → c' = c) ∧
      ∀ pre, blen pre ≤ n → (pre `prefix_of` c → pre `prefix_of` c') ∧
                            (pre `prefix_of` d → pre `prefix_of` d');
  law_torn_write w f p c d offset data r w' :
    inv w → handle w f p → vis w p = Some c → dirty w p = Some d → 0 ≤ offset →
    f_write_at f offset data w = (r, w') →
    ∃ c' d', vis w' p = Some c' ∧ dirty w' p = Some d' ∧
      (read_range c offset (blen data) = Some data → c' = c) ∧
      ∀ pre, blen pre ≤ offset → (pre `prefix_of` c → pre `prefix_of` c') ∧
                                 (pre `prefix_of` d → pre `prefix_of` d');

  (** A removal that fails has not happened. *)
  law_remove w p r w' :
    inv w → validate p false = Ok tt → b_remove p w = (r, w') →
    keeps (λ q, q ≠ p) w w' ∧ (r = Ok tt → vis w' p = None) ∧
    (r ≠ Ok tt → keeps (λ _, True) w w') ∧ (r = Err NotFound → vis w p = None) ∧
    (quiet w → r = Ok tt ∨ r = Err NotFound);

  law_sync_dir w d r w' :
    inv w → validate d true = Ok tt → b_sync_dir d w = (r, w') →
    keeps (λ _, True) w w' ∧
    (r = Ok tt → ∀ p bs, direct d p = true → synced w p bs → stable w' p bs) ∧
    (quiet w → r = Ok tt) ∧
    (r = Ok tt → ∀ p, direct d p = true → vis w p = None → absent w' p);

  law_exists w p r w' :
    inv w → b_exists p w = (r, w') →
    keeps (λ _, True) w w' ∧ (r = Ok false → vis w p = None);

  law_create_dir_all w p r w' :
    inv w → b_create_dir_all p w = (r, w') → keeps (λ _, True) w w';
  (** A listing leaves out no file of the directory and repeats none. *)
  law_list w d r w' :
    inv w → b_list d w = (r, w') →
    keeps (λ _, True) w w' ∧
    (∀ names, r = Ok names → ∀ p name, entry_of d p = Some name → is_Some (vis w p) → name ∈ names) ∧
    (quiet w → validate d true = Ok tt → is_ok r = true) ∧
    (∀ names, r = Ok names → NoDup names);
  law_try_lock w p r w' :
    inv w → b_try_lock p w = (r, w') → keeps (λ _, True) w w';
  law_check_freshness w r w' :
    inv w → b_check_freshness w = (r, w') → keeps (λ _, True) w w' ∧ (quiet w → r = Ok tt);

  (** A write or a released range, failed or not, leaves every byte outside
      it alone and shortens no file. *)
  law_outside_write w f p c d offset data r w' :
    inv w → handle w f p → vis w p = Some c → dirty w p = Some d → 0 ≤ offset →
    f_write_at f offset data w = (r, w') →
    ∃ c' d', vis w' p = Some c' ∧ dirty w' p = Some d' ∧ blen c ≤ blen c' ∧
      ∀ off bs, apart off bs offset (blen data) →
        (holds_at off bs c → holds_at off bs c') ∧ (holds_at off bs d → holds_at off bs d');
  law_punch w f p c d offset len r w' :
    inv w → handle w f p → vis w p = Some c → dirty w p = Some d → 0 ≤ offset → 0 ≤ len →
    f_punch_hole f offset len w = (r, w') →
    keeps (λ q, q ≠ p) w w' ∧ handle w' f p ∧
    ∃ c' d', vis w' p = Some c' ∧ dirty w' p = Some d' ∧ blen c = blen c' ∧
      ∀ off bs, apart off bs offset len →
        (holds_at off bs c → holds_at off bs c') ∧ (holds_at off bs d → holds_at off bs d');
  (** A new file is empty, and a length change adds only zeros. *)
  law_open_new w p create r w' :
    inv w → validate p false = Ok tt → b_open p create w = (r, w') → vis w p = None →
    ∀ c, vis w' p = Some c → c = [];
  law_set_len_zeros w f p c n r w' :
    inv w → handle w f p → vis w p = Some c → f_set_len f n w = (r, w') →
    ∃ c', vis w' p = Some c' ∧ ∀ i b, c' !! i = Some b → c !! i = Some b ∨ b = Init.Byte.x00;

  (** A sync that succeeds leaves nothing pending to differ from, and pins
      what was pending of a durably named file. *)
  law_sync_dirty w f p r w' :
    inv w → handle w f p → f_sync_data f w = (r, w') → r = Ok tt → dirty w' p = dirty w p;
  law_sync_dir_solid w d r w' p :
    inv w → validate d true = Ok tt → b_sync_dir d w = (r, w') → r = Ok tt →
    direct d p = true → is_Some (vis w p) → solid w' p [];
  law_pin w f p d off bs r w' :
    inv w → handle w f p → solid w p [] → dirty w p = Some d → holds_at off bs d →
    f_sync_data f w = (r, w') → r = Ok tt → pinned w' p off bs;

  (** What is pinned stays pinned beside other operations. *)
  law_pinned_vis w p off bs : pinned w p off bs → is_Some (vis w p);
  law_pinned_crash w w' p off bs :
    inv w → crashes w w' → pinned w p off bs →
    pinned w' p off bs ∧ ∃ c, vis w' p = Some c ∧ holds_at off bs c;
  law_pinned_write w f p off bs offset data r w' :
    inv w → handle w f p → pinned w p off bs → 0 ≤ offset → apart off bs offset (blen data) →
    f_write_at f offset data w = (r, w') → pinned w' p off bs;
  law_pinned_punch w f p off bs offset len r w' :
    inv w → handle w f p → pinned w p off bs → 0 ≤ offset → 0 ≤ len → apart off bs offset len →
    f_punch_hole f offset len w = (r, w') → pinned w' p off bs;
  law_pinned_set_len w f p off bs n r w' :
    inv w → handle w f p → pinned w p off bs → Z.of_nat off + blen bs ≤ n →
    f_set_len f n w = (r, w') → pinned w' p off bs;
  law_pinned_sync w f p off bs r w' :
    inv w → handle w f p → pinned w p off bs → f_sync_data f w = (r, w') → pinned w' p off bs;

  (** Without faults a read beyond the end says so. *)
  law_read_eof w f p c offset len r w' :
    inv w → handle w f p → vis w p = Some c → 0 ≤ offset → 0 ≤ len → offset + len ≤ U64_MAX →
    f_read_at f offset len w = (r, w') → quiet w → read_range c offset len = None → r = Err UnexpectedEof
}.

Section Derived.
Context `{BackingLaws W F}.

Lemma stable_vis w p bs : stable w p bs → vis w p = Some bs.
Proof. intros. by eapply law_synced, law_stable_synced. Qed.

Lemma keeps_refl P w : inv w → keeps P w w.
Proof. by intros. Qed.

Lemma keeps_trans P w1 w2 w3 : keeps P w1 w2 → keeps P w2 w3 → keeps P w1 w3.
Proof.
  intros (_ & Hq1 & H1) (Hi & Hq2 & H2). split; [done|]. split; [auto|].
  intros p Hp. destruct (H2 p Hp) as (-> & -> & ? & ? & ? & ?).
  destruct (H1 p Hp) as (-> & -> & ? & ? & ? & ?). naive_solver.
Qed.

Lemma keeps_weaken (P Q : string → Prop) w w' : (∀ p, P p → Q p) → keeps Q w w' → keeps P w w'.
Proof. intros HPQ (Hi & Hq & Hk). split; [done|]. split; [done|]. auto. Qed.

Lemma keeps_inv P w w' : keeps P w w' → inv w'.
Proof. by intros (? & _). Qed.

Lemma keeps_quiet P w w' : keeps P w w' → quiet w → quiet w'.
Proof. by intros (_ & ? & _). Qed.

Lemma keeps_vis (P : string → Prop) w w' p : keeps P w w' → P p → vis w' p = vis w p.
Proof. intros (_ & _ & Hk) Hp. by destruct (Hk p Hp). Qed.

Lemma keeps_dirty (P : string → Prop) w w' p : keeps P w w' → P p → dirty w' p = dirty w p.
Proof. intros (_ & _ & Hk) Hp. by destruct (Hk p Hp) as (_ & ? & _). Qed.

Lemma keeps_stable (P : string → Prop) w w' p bs :
  keeps P w w' → P p → stable w p bs → stable w' p bs.
Proof. intros (_ & _ & Hk) Hp. destruct (Hk p Hp) as (_ & _ & _ & ? & _). auto. Qed.

Lemma keeps_synced (P : string → Prop) w w' p bs :
  keeps P w w' → P p → synced w p bs → synced w' p bs.
Proof. intros (_ & _ & Hk) Hp. destruct (Hk p Hp) as (_ & _ & ? & _). auto. Qed.

Lemma keeps_handle (P : string → Prop) w w' p f :
  keeps P w w' → P p → handle w f p → handle w' f p.
Proof. intros (_ & _ & Hk) Hp. destruct (Hk p Hp) as (_ & _ & _ & _ & _ & ? & _). auto. Qed.

Lemma keeps_absent (P : string → Prop) w w' p :
  keeps P w w' → P p → absent w p → absent w' p.
Proof. intros (_ & _ & Hk) Hp. destruct (Hk p Hp) as (_ & _ & _ & _ & ? & _). auto. Qed.

Lemma keeps_solid (P : string → Prop) w w' p pre :
  keeps P w w' → P p → solid w p pre → solid w' p pre.
Proof. intros (_ & _ & Hk) Hp. destruct (Hk p Hp) as (_ & _ & _ & _ & _ & _ & ? & _). auto. Qed.

Lemma keeps_pinned (P : string → Prop) w w' p off bs :
  keeps P w w' → P p → pinned w p off bs → pinned w' p off bs.
Proof. intros (_ & _ & Hk) Hp. destruct (Hk p Hp) as (_ & _ & _ & _ & _ & _ & _ & ?). auto. Qed.

Lemma inv_crashes w w' : inv w → rtc crashes w w' → inv w'.
Proof.
  intros Hi Hc. induction Hc as [|x y z Hc _ IH]; [done|]. destruct (law_crash _ _ Hi Hc) as (Hi' & _). auto.
Qed.

(** [m] leaves every path of [P] alone, however it ends. *)
Definition frames {Er A} (P : string → Prop) (m : M W Er A) : Prop :=
  ∀ w r w', inv w → m w = (r, w') → keeps P w w'.

Lemma frames_bind {Er A B} P (m : M W Er A) (k : A → M W Er B) :
  frames P m → (∀ a, frames P (k a)) → frames P (m_bind m k).
Proof.
  intros Hm Hk w r w' Hi. unfold m_bind. destruct (m w) as [[a|e] w1] eqn:Hw;
    specialize (Hm _ _ _ Hi Hw).
  - intros Hr. eapply keeps_trans; [exact Hm|]. eapply Hk; [|exact Hr]. by eapply keeps_inv.
  - by intros [= <- <-].
Qed.

Lemma frames_lift {Er A} P (v : result Er A) : frames P (m_lift v).
Proof. intros w r w' Hi [= <- <-]. by apply keeps_refl. Qed.

Lemma frames_ret {Er A} P (a : A) : frames (Er := Er) P (m_ret a).
Proof. intros w r w' Hi [= <- <-]. by apply keeps_refl. Qed.

Lemma frames_err {Er A} P (e : Er) : frames (A := A) P (m_err e).
Proof. intros w r w' Hi [= <- <-]. by apply keeps_refl. Qed.

Lemma frames_map_err {Er Er' A} P (f : Er → Er') (m : M W Er A) :
  frames P m → frames P (m_map_err f m).
Proof.
  intros Hm w r w' Hi. unfold m_map_err. destruct (m w) as [r1 w1] eqn:Hw. intros [= <- <-].
  by eapply Hm.
Qed.

Lemma frames_try {Er Er' A} P (m : M W Er A) : frames P m → frames (Er := Er') P (m_try m).
Proof.
  intros Hm w r w' Hi. unfold m_try. destruct (m w) as [r1 w1] eqn:Hw. intros [= <- <-].
  by eapply Hm.
Qed.

Lemma frames_weaken {Er A} (P Q : string → Prop) (m : M W Er A) :
  (∀ p, P p → Q p) → frames Q m → frames P m.
Proof. intros HPQ Hm w r w' Hi Hr. eapply keeps_weaken; [done|by eapply Hm]. Qed.

Lemma frames_all {Er A} (P : string → Prop) (m : M W Er A) : frames (λ _, True) m → frames P m.
Proof. by apply frames_weaken. Qed.

Lemma frames_sync_dir P d : validate d true = Ok tt → frames P (b_sync_dir d).
Proof. intros Hv. apply frames_all. intros w r w' Hi Hr. by apply (law_sync_dir _ _ _ _ Hi Hv Hr). Qed.

Lemma frames_exists P p : frames P (b_exists p).
Proof. apply frames_all. intros w r w' Hi Hr. by apply (law_exists _ _ _ _ Hi Hr). Qed.

Lemma frames_create_dir_all P p : frames P (b_create_dir_all p).
Proof. apply frames_all. intros w r w' Hi Hr. by apply (law_create_dir_all _ _ _ _ Hi Hr). Qed.

Lemma frames_list P d : frames P (b_list d).
Proof. apply frames_all. intros w r w' Hi Hr. by apply (law_list _ _ _ _ Hi Hr). Qed.

Lemma frames_try_lock P p : frames P (b_try_lock p).
Proof. apply frames_all. intros w r w' Hi Hr. by apply (law_try_lock _ _ _ _ Hi Hr). Qed.
End Derived.

(** ** Ranges of a content *)

Lemma prefix_holds (pre data : bytes) : pre `prefix_of` data ↔ holds_at 0 pre data.
Proof.
  split; [intros Hp i b Hi; by eapply prefix_lookup_Some|].
  revert data. induction pre as [|b pre IH]; intros data Hl; [apply prefix_nil|].
  destruct data as [|b' data]; [by specialize (Hl 0%nat b eq_refl)|].
  pose proof (Hl 0%nat b eq_refl) as [= ->]. apply prefix_cons, IH. intros i c Hi. by apply (Hl (S i) c).
Qed.

Lemma holds_at_length off bs data : holds_at off bs data → (0 < length bs → off + length bs ≤ length data)%nat.
Proof.
  intros Hh Hl. destruct (lookup_lt_is_Some_2 bs (length bs - 1) ltac:(lia)) as [b Hb].
  specialize (Hh _ _ Hb). apply lookup_lt_Some in Hh. lia.
Qed.

Lemma holds_at_app off a b data : holds_at off (a ++ b) data ↔ holds_at off a data ∧ holds_at (off + length a) b data.
Proof.
  split.
  - intros Hh. split; intros i x Hi; [apply Hh; by apply lookup_app_l_Some|].
    rewrite <- Nat.add_assoc. apply Hh. rewrite lookup_app_r by lia. by rewrite Nat.add_comm, Nat.add_sub.
  - intros [Ha Hb] i x Hi. apply lookup_app_Some in Hi as [Hi|[Hle Hi]]; [by apply Ha|].
    specialize (Hb _ _ Hi). by replace (off + i)%nat with (off + length a + (i - length a))%nat by lia.
Qed.

(** A range read is the range held. *)
Lemma read_range_holds c o n bs : 0 ≤ o → 0 ≤ n →
  read_range c o n = Some bs ↔ blen bs = n ∧ o + n ≤ blen c ∧ holds_at (Z.to_nat o) bs c.
Proof.
  intros Ho Hn. unfold read_range, blen. split.
  - destruct (Z.leb_spec (o + n) (Z.of_nat (length c))); [|done]. intros [= <-].
    rewrite length_take, length_drop. split; [lia|]. split; [done|].
    intros i b [Hi _]%lookup_take_Some. by rewrite lookup_drop in Hi.
  - intros (Hl & Hle & Hh). rewrite (proj2 (Z.leb_le _ _)) by done. f_equal. apply list_eq_same_length with (Z.to_nat n).
    + lia.
    + rewrite length_take, length_drop. lia.
    + intros i x y Hi Hx Hy. specialize (Hh _ _ Hy). rewrite lookup_take_lt, lookup_drop in Hx by done. congruence.
Qed.

Lemma write_range_holds c o bs : holds_at o bs (write_range c o bs).
Proof.
  intros i b Hi. unfold write_range. pose proof (lookup_lt_Some _ _ _ Hi).
  assert (∀ d, (o ≤ length d)%nat → (take o d ++ bs ++ drop (o + length bs) d) !! (o + i)%nat = Some b) as Hgen.
  { intros d Hd. assert (length (take o d) = o) as Ht by (rewrite length_take; lia).
    rewrite lookup_app_r, Ht by lia. replace (o + i - o)%nat with i by lia. by apply lookup_app_l_Some. }
  apply Hgen. destruct (Nat.ltb_spec (length c) (o + length bs)); [|lia].
  unfold resize. rewrite length_app, length_take, length_zeros. lia.
Qed.

Create HintDb frames.
#[export] Hint Resolve frames_ret frames_err frames_lift frames_sync_dir frames_exists
  frames_create_dir_all frames_list frames_try_lock frames_map_err frames_try : frames.

(** ** Path lemmas *)

#[local] Arguments Ascii.eqb : simpl never.

Lemma contains_char_app c s t :
  contains_char c (s ++ t) = contains_char c s || contains_char c t.
Proof. induction s as [|d s IH]; simpl; [done|]. by rewrite IH, orb_assoc. Qed.

Lemma strip_prefix_app p s : strip_prefix p (p ++ s) = Some s.
Proof. induction p as [|c p IH]; [done|]. simpl. by rewrite Ascii.eqb_refl. Qed.

Lemma rsplit_some s d f :
  rsplit s = Some (d, f) → s = (d ++ "/" ++ f)%string ∧ contains_char slash f = false.
Proof.
  revert d f. induction s as [|c s IH]; intros d f; simpl; [done|].
  destruct (rsplit s) as [[d' f']|] eqn:Hs.
  - intros [= <- <-]. destruct (IH d' f' eq_refl) as [-> ?]. done.
  - destruct (Ascii.eqb_spec c slash) as [->|]; [|done]. intros [= <- <-]. split; [done|].
    clear IH. induction s as [|e s IHs]; [done|]. simpl in *.
    destruct (rsplit s) as [[? ?]|]; [done|]. destruct (Ascii.eqb_spec e slash); [done|].
    rewrite IHs by done. rewrite (proj2 (Ascii.eqb_neq _ _)); [done|]. congruence.
Qed.

Lemma rsplit_none s : rsplit s = None → contains_char slash s = false.
Proof.
  induction s as [|c s IH]; simpl; [done|].
  destruct (rsplit s) as [[? ?]|]; [done|]. destruct (Ascii.eqb_spec c slash); [done|].
  intros _. rewrite IH by done. rewrite (proj2 (Ascii.eqb_neq _ _)); [done|]. congruence.
Qed.

Lemma split_slash_nonempty s : split_slash s ≠ [].
Proof.
  induction s as [|c s IH]; simpl; [done|].
  destruct (Ascii.eqb c slash); [done|]. by destruct (split_slash s).
Qed.

Lemma split_slash_app d f : split_slash (d ++ String slash f) = (split_slash d ++ split_slash f)%list.
Proof.
  induction d as [|c d IH]; [done|]. simpl.
  destruct (Ascii.eqb c slash); [by rewrite IH|]. rewrite IH.
  by destruct (split_slash d) eqn:Hd; [apply split_slash_nonempty in Hd|].
Qed.

Lemma validate_components p b :
  validate p b = Ok tt → p = ""%string ∨ forallb component_ok (split_slash p) = true.
Proof.
  unfold validate. destruct (String.eqb_spec p ""); [by left|].
  repeat (case_match; try done). by right.
Qed.

Lemma append_slash d f : ((d ++ "/") ++ f = d ++ String slash f)%string.
Proof. induction d as [|c d IH]; [done|]. by apply (f_equal (String c)) in IH. Qed.

(** A valid path is an entry of its parent directory. *)
Lemma direct_parent p : validate p false = Ok tt → direct (parent p) p = true.
Proof.
  intros Hv. assert (p ≠ ""%string) as Hne by (by intros ->).
  destruct (validate_components _ _ Hv) as [|Hc]; [done|].
  unfold direct, entry_of, parent. destruct (rsplit p) as [[d f]|] eqn:Hr.
  - destruct (rsplit_some _ _ _ Hr) as [-> Hf].
    change ("/" ++ f)%string with (String slash f) in *. rewrite split_slash_app, forallb_app in Hc.
    apply andb_true_iff in Hc as [Hd Hcf].
    assert (d ≠ ""%string) as Hd0 by (by intros ->).
    unfold dir_prefix. rewrite (proj2 (String.eqb_neq _ _)) by done.
    replace (d ++ String slash f)%string with ((d ++ "/") ++ f)%string
      by apply append_slash.
    rewrite strip_prefix_app, Hf. rewrite (proj2 (String.eqb_neq f "")); [done|]. by intros ->.
  - apply rsplit_none in Hr. simpl. rewrite Hr. by rewrite (proj2 (String.eqb_neq p "")).
Qed.

Definition forbidden (p : string) : bool :=
  contains_char "092"%char p || contains_char "000"%char p || contains_char ":"%char p.

Lemma validate_cons c p b :
  validate (String c p) b = Ok tt ↔
  Ascii.eqb c slash = false ∧ forbidden (String c p) = false ∧
  forallb component_ok (split_slash (String c p)) = true.
Proof.
  unfold validate, forbidden. change (String.eqb (String c p) "") with false. cbv iota.
  destruct (Ascii.eqb c slash); [naive_solver|].
  destruct (_ || _ || _); [naive_solver|]. destruct (forallb _ _); naive_solver.
Qed.

(** The parent of a valid path is a valid directory. *)
Lemma validate_parent p : validate p false = Ok tt → validate (parent p) true = Ok tt.
Proof.
  unfold parent. destruct (rsplit p) as [[d f]|] eqn:Hr; [|done].
  destruct (rsplit_some _ _ _ Hr) as [-> _]. destruct d as [|c d]; [done|].
  change (String c d ++ "/" ++ f)%string with (String c (d ++ String slash f)).
  rewrite !validate_cons. intros (Hc & Hf & Hs). split; [done|].
  change (String c (d ++ String slash f)) with (String c d ++ String slash f)%string in *.
  rewrite split_slash_app, forallb_app in Hs. apply andb_true_iff in Hs as [Hs _].
  unfold forbidden in *. rewrite !contains_char_app in Hf.
  apply orb_false_iff in Hf as [[[-> _]%orb_false_iff [-> _]%orb_false_iff]%orb_false_iff
    [-> _]%orb_false_iff]. done.
Qed.

(** *** Names in a directory *)

Definition non_hex (c : ascii) : Prop := Forall (λ d, Ascii.eqb c (hex_char d) = false) (seqZ 0 16).

Lemma hex_go_contains c fuel n acc :
  non_hex c → contains_char c (hex_go fuel n acc) = contains_char c acc.
Proof.
  intros Hc. revert n acc. induction fuel as [|fuel IH]; intros n acc; [done|]. cbn [hex_go].
  assert (contains_char c (String (hex_char (n mod 16)) acc) = contains_char c acc) as Hs.
  { cbn [contains_char]. by rewrite (digit_cases _ (n mod 16) Hc (Z.mod_pos_bound n 16 eq_refl)). }
  destruct (_ =? 0); [done|]. by rewrite IH.
Qed.

Lemma fmt_hex_contains c w n : non_hex c → contains_char c (fmt_hex_pad w n) = false.
Proof.
  intros Hc. unfold fmt_hex_pad. generalize (w - String.length (fmt_hex n))%nat as k. intros k.
  induction k as [|k IH]; simpl.
  - unfold fmt_hex. by rewrite hex_go_contains.
  - rewrite IH. rewrite orb_false_r. exact (digit_cases (λ d, Ascii.eqb c (hex_char d) = false) 0 Hc ltac:(lia)).
Qed.

Lemma split_slash_single s : contains_char slash s = false → split_slash s = [s].
Proof.
  induction s as [|c s IH]; [done|]. cbn [contains_char split_slash].
  intros [Hc Hs]%orb_false_iff. rewrite Ascii.eqb_sym, Hc. by rewrite IH.
Qed.

Ltac non_hex_tac := repeat constructor.

Lemma validate_join d f :
  validate d false = Ok tt → contains_char slash f = false → forbidden f = false → component_ok f = true →
  validate (d ++ String slash f) false = Ok tt.
Proof.
  destruct d as [|c d]; [done|]. rewrite append_cons, !validate_cons. intros (Hc & Hf & Hs) Hn Hff Hcf.
  split; [done|]. rewrite <- append_cons. split.
  - unfold forbidden in *. rewrite !contains_char_app. cbn [contains_char] in *.
    apply orb_false_iff in Hf as [[-> ->]%orb_false_iff ->], Hff as [[-> ->]%orb_false_iff ->]. done.
  - rewrite split_slash_app, forallb_app, Hs, (split_slash_single f) by done. simpl. by rewrite Hcf.
Qed.

Lemma rsplit_join d f : contains_char slash f = false → rsplit (d ++ String slash f) = Some (d, f).
Proof.
  intros Hf. assert (rsplit f = None) as Hr.
  { destruct (rsplit f) as [[d' f']|] eqn:Hr; [|done]. apply rsplit_some in Hr as [-> _].
    rewrite !contains_char_app in Hf. apply orb_false_iff in Hf as [_ Hf]. done. }
  induction d as [|c d IH].
  - rewrite append_nil_l. cbn [rsplit]. by rewrite Hr.
  - rewrite append_cons. cbn [rsplit]. by rewrite IH.
Qed.

Lemma parent_join d f : contains_char slash f = false → parent (d ++ String slash f) = d.
Proof. intros Hf. unfold parent. by rewrite rsplit_join. Qed.
