(* ===== verification/Provider.v ===== *)
(** * Provider: crypto providers and the checks around them
    (crates/maki-crypto/src/types.rs, error.rs, provider.rs, checked.rs)

    A provider encrypts and decrypts batches of units.  It is not trusted
    with the shape of its answers: [CheckedProvider] accepts an answer only
    when it has one entry per item, in order, within the declared sizes, and
    when no "ciphertext" carries its plaintext.  The search for the plaintext
    is the Knuth-Morris-Pratt automaton of the source. *)

From S2P Require Import Prelude Backing.

Local Open Scope Z_scope.

(** ** Errors *)

Inductive ErrorClass := Retryable_ | Throttled_ | NonRetryableRequest_ | EndpointFatal_ | ProviderFatal_.

Inductive ContextField := FormatVersion | CompatibilityId.

(** The messages are left out. *)
Inductive CryptoError :=
| Retryable | Throttled | NonRetryableRequest | EndpointFatal | ProviderFatal
| UnsupportedContext (field : ContextField) | Integrity | Contract.

Definition class (e : CryptoError) : ErrorClass :=
  match e with
  | Retryable => Retryable_
  | Throttled => Throttled_
  | NonRetryableRequest | Integrity => NonRetryableRequest_
  | EndpointFatal => EndpointFatal_
  | ProviderFatal | UnsupportedContext _ | Contract => ProviderFatal_
  end.

Definition is_retryable (e : CryptoError) : bool :=
  match class e with Retryable_ | Throttled_ => true | _ => false end.

Definition duplicate (e : CryptoError) : CryptoError :=
  match e with
  | Retryable => Retryable
  | Throttled => Throttled
  | NonRetryableRequest => NonRetryableRequest
  | EndpointFatal => EndpointFatal
  | ProviderFatal => ProviderFatal
  | UnsupportedContext field => UnsupportedContext field
  | Integrity => Integrity
  | Contract => Contract
  end.

(** ** Units and capabilities *)

Record CryptoContext := mkCryptoContext {
  cx_volume_uuid : bytes;
  cx_format_version : Z;
  cx_compatibility_id : bytes
}.

Record PlaintextUnit := mkPlaintextUnit { pu_index : Z; pu_data : bytes }.
Record CiphertextUnit := mkCiphertextUnit { cu_index : Z; cu_data : bytes }.

Inductive Capability := Absent | Contractual | Verified.

Definition present (c : Capability) : bool := match c with Absent => false | _ => true end.

Definition rank (c : Capability) : Z := match c with Absent => 0 | Contractual => 1 | Verified => 2 end.

Definition weakest (self other : Capability) : Capability := if rank other <? rank self then other else self.

Record BatchCapability := mkBatchCapability { bt_supported : bool; bt_max_items : Z; bt_max_bytes : Z }.

Definition batch_default : BatchCapability := mkBatchCapability false 1 U64_MAX.

Record CryptoCapabilities := mkCapabilities {
  provider_id : bytes;
  compatibility_id : bytes;
  supported_plaintext_sizes : list Z;
  caps_max_ciphertext : Z;
  stateless : bool;
  retry_safe : bool;
  batch : BatchCapability;
  integrity : Capability;
  context_binding : Capability;
  replay_protection : Capability
}.

Definition intersect (self other : CryptoCapabilities) : CryptoCapabilities :=
  mkCapabilities (provider_id self) (compatibility_id self)
    (List.filter (λ size, bool_decide (size ∈ supported_plaintext_sizes other)) (supported_plaintext_sizes self))
    (Z.max (caps_max_ciphertext self) (caps_max_ciphertext other))
    (stateless self && stateless other)
    (retry_safe self && retry_safe other)
    (mkBatchCapability (bt_supported (batch self) && bt_supported (batch other))
       (Z.min (bt_max_items (batch self)) (bt_max_items (batch other)))
       (Z.min (bt_max_bytes (batch self)) (bt_max_bytes (batch other))))
    (weakest (integrity self) (integrity other))
    (weakest (context_binding self) (context_binding other))
    (weakest (replay_protection self) (replay_protection other)).

(** [u32::try_from(len)] and membership. *)
Definition accepts_plaintext_size (caps : CryptoCapabilities) (len : Z) : bool :=
  (len <=? U32_MAX) && bool_decide (len ∈ supported_plaintext_sizes caps).

(** ** The search for the plaintext *)

(** The inner loop: the longest match that [b] extends.  [matched] falls
    strictly, so its value bounds the rounds. *)
Fixpoint fall (needle : bytes) (prefix : list nat) (b : Init.Byte.byte) (fuel matched : nat) : nat :=
  match fuel with
  | O => matched
  | S fuel =>
      if bool_decide (needle !! matched = Some b) then S matched
      else match matched with
           | O => O
           | S m => fall needle prefix b fuel (nth m prefix O)
           end
  end.

(** [for index in 1..needle.len()]. *)
Fixpoint build (needle : bytes) (rest : bytes) (index matched : nat) (prefix : list nat) : list nat :=
  match rest with
  | [] => prefix
  | b :: rest =>
      let matched := fall needle prefix b (S matched) matched in
      build needle rest (S index) matched (<[index := matched]> prefix)
  end.

Definition prefix_table (needle : bytes) : list nat :=
  build needle (drop 1 needle) 1 0 (replicate (length needle) O).

Fixpoint search (needle : bytes) (prefix : list nat) (haystack : bytes) (matched : nat) : bool :=
  match haystack with
  | [] => false
  | b :: haystack =>
      let matched := fall needle prefix b (S matched) matched in
      if bool_decide (matched = length needle) then true else search needle prefix haystack matched
  end.

Definition contains_plaintext (haystack needle : bytes) : bool :=
  if bool_decide (needle = []) then true
  else if bool_decide (length haystack < length needle)%nat then false
  else search needle (prefix_table needle) haystack 0.

(** The byte comparisons the loops make. *)
Fixpoint fall_work (needle : bytes) (prefix : list nat) (b : Init.Byte.byte) (fuel matched : nat) : nat :=
  match fuel with
  | O => O
  | S fuel =>
      S (if bool_decide (needle !! matched = Some b) then O
         else match matched with
              | O => O
              | S m => fall_work needle prefix b fuel (nth m prefix O)
              end)
  end.

Fixpoint build_work (needle : bytes) (rest : bytes) (index matched : nat) (prefix : list nat) : nat :=
  match rest with
  | [] => O
  | b :: rest =>
      let matched' := fall needle prefix b (S matched) matched in
      (fall_work needle prefix b (S matched) matched
       + build_work needle rest (S index) matched' (<[index := matched']> prefix))%nat
  end.

Fixpoint search_work (needle : bytes) (prefix : list nat) (haystack : bytes) (matched : nat) : nat :=
  match haystack with
  | [] => O
  | b :: haystack =>
      let matched' := fall needle prefix b (S matched) matched in
      (fall_work needle prefix b (S matched) matched
       + if bool_decide (matched' = length needle) then O else search_work needle prefix haystack matched')%nat
  end.

Definition comparisons (haystack needle : bytes) : nat :=
  if bool_decide (needle = []) then O
  else if bool_decide (length haystack < length needle)%nat then O
  else (build_work needle (drop 1 needle) 1 0 (replicate (length needle) O)
        + search_work needle (prefix_table needle) haystack 0)%nat.

(** ** Validation of answers *)

Definition encrypt_item_ok (caps : CryptoCapabilities) (item : PlaintextUnit) (ct : CiphertextUnit) : bool :=
  (cu_index ct =? pu_index item)
  && negb (bool_decide (cu_data ct = []))
  && (blen (cu_data ct) <=? caps_max_ciphertext caps)
  && negb (negb (bool_decide (pu_data item = [])) && contains_plaintext (cu_data ct) (pu_data item)).

Definition validate_encrypt_result (items : list PlaintextUnit) (out : list CiphertextUnit)
    (caps : CryptoCapabilities) : result CryptoError unit :=
  if negb (length out =? length items)%nat then Err Contract
  else if forallb (λ '(item, ct), encrypt_item_ok caps item ct) (zip items out) then Ok tt else Err Contract.

Definition decrypt_item_ok (caps : CryptoCapabilities) (item : CiphertextUnit) (pt : PlaintextUnit) : bool :=
  (pu_index pt =? cu_index item) && accepts_plaintext_size caps (blen (pu_data pt)).

Definition validate_decrypt_result (items : list CiphertextUnit) (out : list PlaintextUnit)
    (caps : CryptoCapabilities) : result CryptoError unit :=
  if negb (length out =? length items)%nat then Err Contract
  else if forallb (λ '(item, pt), decrypt_item_ok caps item pt) (zip items out) then Ok tt else Err Contract.

(** ** Providers *)

Class CryptoProvider (P : Type) := {
  capabilities : M P CryptoError CryptoCapabilities;
  encrypt_batch : CryptoContext → list PlaintextUnit → M P CryptoError (list CiphertextUnit);
  decrypt_batch : CryptoContext → list CiphertextUnit → M P CryptoError (list PlaintextUnit)
}.

Section Checked.
Context `{CryptoProvider P}.

(** [caps] is a [OnceCell]: the first successful query stays. *)
Record CheckedProvider := mkChecked {
  ck_inner : P;
  ck_caps : option CryptoCapabilities;
  ck_unit_size : option Z
}.

Definition checked_new (inner : P) : CheckedProvider := mkChecked inner None None.
Definition checked_pinned (inner : P) (unit_size : Z) : CheckedProvider := mkChecked inner None (Some unit_size).

(** A call on the wrapped provider. *)
Definition on_inner {A} (m : M P CryptoError A) : M CheckedProvider CryptoError A := λ c,
  let '(r, p) := m (ck_inner c) in (r, mkChecked p (ck_caps c) (ck_unit_size c)).

Definition checked_caps : M CheckedProvider CryptoError CryptoCapabilities := λ c,
  match ck_caps c with
  | Some caps => (Ok caps, c)
  | None =>
      match on_inner capabilities c with
      | (Ok caps, c) => (Ok caps, mkChecked (ck_inner c) (Some caps) (ck_unit_size c))
      | (Err e, c) => (Err e, c)
      end
  end.

Definition checked_encrypt (context : CryptoContext) (items : list PlaintextUnit)
    : M CheckedProvider CryptoError (list CiphertextUnit) :=
  let* caps := checked_caps in
  let* out := on_inner (encrypt_batch context items) in
  let* _ := m_lift (validate_encrypt_result items out caps) in
  m_ret out.

Definition checked_decrypt (context : CryptoContext) (items : list CiphertextUnit)
    : M CheckedProvider CryptoError (list PlaintextUnit) :=
  let* caps := checked_caps in
  let* out := on_inner (decrypt_batch context items) in
  let* _ := m_lift (validate_decrypt_result items out caps) in
  let* unit_size := (λ c, (Ok (ck_unit_size c), c)) in
  match unit_size with
  | Some unit_size =>
      if forallb (λ pt, blen (pu_data pt) =? unit_size) out then m_ret out else m_err Contract
  | None => m_ret out
  end.
End Checked.

(** ** The automaton finds exactly the occurrences *)
Section Search.
Context (needle : bytes).
Implicit Types (t : bytes) (b : Init.Byte.byte).

Abbreviation n := (length needle).

(** The first [k] bytes of the needle end the text. *)
Definition ends t (k : nat) : Prop := (k ≤ n)%nat ∧ take k needle `suffix_of` t.

(** [k] is the longest proper border of the first [m] bytes. *)
Definition border (m k : nat) : Prop :=
  ends (drop 1 (take m needle)) k ∧ ∀ k', ends (drop 1 (take m needle)) k' → (k' ≤ k)%nat.

Lemma ends_zero t : ends t 0.
Proof. split; [lia|]. apply suffix_nil. Qed.

Lemma ends_length t k : ends t k → (k ≤ length t)%nat.
Proof. intros [Hk Hs]. apply suffix_length in Hs. rewrite length_take in Hs. lia. Qed.

Lemma ends_snoc t b k : ends (t ++ [b]) (S k) ↔ ends t k ∧ needle !! k = Some b.
Proof.
  split.
  - intros [Hk Hs]. destruct (lookup_lt_is_Some_2 needle k) as [c Hc]; [lia|].
    rewrite (take_S_r _ _ _ Hc) in Hs. apply suffix_snoc_inv_1 in Hs as Hb. apply suffix_snoc_inv_2 in Hs.
    split; [split; [lia|done]|]. congruence.
  - intros [[Hk Hs] Hb]. pose proof (lookup_lt_Some _ _ _ Hb). split; [lia|].
    rewrite (take_S_r _ _ _ Hb). by apply suffix_snoc.
Qed.

Lemma suffix_tail (l l' : bytes) : l `suffix_of` l' → (length l < length l')%nat → l `suffix_of` drop 1 l'.
Proof.
  intros [k ->] Hl. rewrite length_app in Hl. destruct k as [|x k]; [simpl in Hl; lia|]. by exists k.
Qed.

(** Shorter matches are borders of longer ones. *)
Lemma ends_shorter t k k' : ends t k → ends t k' → (k' < k)%nat → ends (drop 1 (take k needle)) k'.
Proof.
  intros [Hk Hs] [Hk' Hs'] Hlt. split; [done|]. apply suffix_tail; [|rewrite !length_take; lia].
  destruct (suffix_weak_total _ _ _ Hs' Hs) as [Hx|Hx]; [done|].
  apply suffix_length in Hx. rewrite !length_take in Hx. lia.
Qed.

Lemma border_ends t k k' : ends t k → border k k' → ends t k'.
Proof.
  intros [Hk Hs] [[Hk' Hb] _]. split; [done|]. etrans; [exact Hb|]. etrans; [apply suffix_drop|done].
Qed.

Lemma border_lt k k' : border k k' → k ≠ O → (k' < k)%nat.
Proof. intros [He _] Hk. apply ends_length in He. rewrite length_drop, length_take in He. lia. Qed.

(** The table knows the borders of the first [m] prefixes. *)
Definition table_ok (prefix : list nat) (m : nat) : Prop := ∀ i, (i < m)%nat → border (S i) (nth i prefix O).

(** One byte: the longest match that it extends. *)
Lemma fall_spec prefix t b : ∀ fuel k,
  (k < fuel)%nat → table_ok prefix k → ends t k → (∀ k', ends t k' → needle !! k' = Some b → (k' ≤ k)%nat) →
  ends (t ++ [b]) (fall needle prefix b fuel k) ∧
  ∀ k', ends (t ++ [b]) k' → (k' ≤ fall needle prefix b fuel k)%nat.
Proof.
  induction fuel as [|fuel IH]; intros k Hf Ht He Hmax; [lia|]. cbn [fall].
  destruct (bool_decide_reflect (needle !! k = Some b)) as [Hb|Hnb].
  { split; [by apply ends_snoc|]. intros [|k'] Hk'; [lia|]. apply ends_snoc in Hk' as [Hk' Hb']. specialize (Hmax k' Hk' Hb'). lia. }
  destruct k as [|k].
  { split; [apply ends_zero|]. intros [|k'] Hk'; [lia|]. apply ends_snoc in Hk' as [Hk' Hb'].
    assert (k' = O) as -> by (specialize (Hmax k' Hk' Hb'); lia). done. }
  pose proof (Ht k ltac:(lia)) as Hbd. pose proof (border_lt _ _ Hbd ltac:(lia)) as Hlt.
  apply IH; [lia|intros i Hi; apply Ht; lia|by eapply border_ends|].
  intros k' Hk' Hb'. pose proof (Hmax k' Hk' Hb') as Hle. destruct (decide (k' = S k)) as [->|Hne]; [done|].
  apply (proj2 Hbd). eapply ends_shorter; [exact He|done|lia].
Qed.

Lemma border_step m b k : needle !! m = Some b → ends (drop 1 (take m needle) ++ [b]) k ∧
  (∀ k', ends (drop 1 (take m needle) ++ [b]) k' → (k' ≤ k)%nat) → (0 < m)%nat → border (S m) k.
Proof.
  intros Hb Hk Hm. unfold border. rewrite (take_S_r _ _ _ Hb), drop_app_le; [exact Hk|].
  rewrite length_take. apply lookup_lt_Some in Hb. lia.
Qed.

Lemma build_ok : ∀ rest index matched prefix,
  drop index needle = rest → (0 < index)%nat → length prefix = n → table_ok prefix index → border index matched →
  table_ok (build needle rest index matched prefix) n.
Proof.
  induction rest as [|b rest IH]; intros index matched prefix Hd Hi Hl Ht Hbd; cbn [build].
  { intros i Hin. apply Ht. assert (length (drop index needle) = O) as Hz by (by rewrite Hd). rewrite length_drop in Hz. lia. }
  assert (needle !! index = Some b) as Hb.
  { rewrite <- (Nat.add_0_r index), <- lookup_drop, Hd. done. }
  pose proof (lookup_lt_Some _ _ _ Hb) as Hlt.
  pose proof (border_lt _ _ Hbd ltac:(lia)) as Hmi.
  destruct (fall_spec prefix (drop 1 (take index needle)) b (S matched) matched) as [He Hm]; [lia|intros i Hin; apply Ht; lia|apply Hbd| |].
  { intros k' Hk' _. by apply Hbd. }
  set (r := fall needle prefix b (S matched) matched) in *.
  assert (border (S index) r) as Hr by (by apply (border_step index b)).
  apply IH; [|lia|by rewrite length_insert| |done].
  - rewrite <- (drop_drop needle 1 index) || idtac. replace (S index) with (index + 1)%nat by lia.
    rewrite <- drop_drop, Hd. done.
  - intros i Hin. rewrite nth_lookup. destruct (decide (i = index)) as [->|Hne].
    + rewrite list_lookup_insert_eq by lia. done.
    + rewrite list_lookup_insert_ne by done. rewrite <- nth_lookup. apply Ht. lia.
Qed.

Lemma prefix_table_ok : needle ≠ [] → table_ok (prefix_table needle) n.
Proof.
  intros Hn. apply build_ok; [done|lia|by rewrite length_replicate| |].
  - intros i Hi. assert (i = O) as -> by lia.
    replace (nth 0 (replicate n O) O) with O by (by destruct needle). split; [apply ends_zero|].
    intros k' Hk'. apply ends_length in Hk'. rewrite length_drop, length_take in Hk'. lia.
  - split; [apply ends_zero|]. intros k' Hk'. apply ends_length in Hk'. rewrite length_drop, length_take in Hk'. lia.
Qed.

Lemma search_ok prefix : needle ≠ [] → table_ok prefix n → ∀ hay t k,
  (k < n)%nat → ends t k → (∀ k', ends t k' → (k' ≤ k)%nat) →
  search needle prefix hay k = true ↔ ∃ u v, hay = u ++ v ∧ u ≠ [] ∧ ends (t ++ u) n.
Proof.
  intros Hn Ht. induction hay as [|b hay IH]; intros t k Hk He Hmax; cbn [search].
  { split; [done|]. intros (u & v & Hu & Hne & _). by destruct u. }
  destruct (fall_spec prefix t b (S k) k) as [Hf Hm]; [lia|intros i Hi; apply Ht; lia|done|intros k' Hk' _; by apply Hmax|].
  set (r := fall needle prefix b (S k) k) in *.
  destruct (bool_decide_reflect (r = n)) as [Hr|Hr].
  - split; [|done]. intros _. exists [b], hay. rewrite Hr in Hf. done.
  - assert (r < n)%nat as Hrn by (pose proof (proj1 Hf); lia).
    rewrite (IH (t ++ [b]) r Hrn Hf Hm). split.
    + intros (u & v & -> & Hu & Hend). exists (b :: u), v. split; [done|]. split; [done|]. by rewrite <- (assoc_L (++)) in Hend.
    + intros (u & v & Hu & Hne & Hend). destruct u as [|x u]; [done|]. injection Hu as <- ->.
      destruct u as [|y u].
      * specialize (Hm n Hend). lia.
      * exists (y :: u), v. split; [done|]. split; [done|]. by rewrite <- (assoc_L (++)).
Qed.
End Search.

(** The search is the naive one. *)
Lemma contains_spec haystack needle :
  contains_plaintext haystack needle = true ↔ ∃ u v, haystack = u ++ needle ++ v.
Proof.
  unfold contains_plaintext. destruct (bool_decide_reflect (needle = [])) as [->|Hn].
  { split; [|done]. intros _. by exists [], haystack. }
  destruct (bool_decide_reflect (length haystack < length needle)%nat) as [Hlt|Hge].
  { split; [done|]. intros (u & v & ->). rewrite !length_app in Hlt. lia. }
  assert (0 < length needle)%nat as Hpos by (destruct needle; [done|]; simpl; lia).
  rewrite (search_ok needle (prefix_table needle) Hn (prefix_table_ok needle Hn) haystack [] 0 Hpos (ends_zero needle [])).
  - unfold ends. rewrite firstn_all. split.
    + intros (u & v & -> & _ & _ & k & Hk). simpl in Hk. subst u. exists k, v. by rewrite <- (assoc_L (++)).
    + intros (u & v & ->). exists (u ++ needle), v. split; [by rewrite <- (assoc_L (++))|].
      split; [by intros [_ ?]%app_nil|]. split; [lia|]. by exists u.
  - intros k' Hk'. apply ends_length in Hk'. simpl in Hk'. lia.
Qed.

(** ** The work is linear *)
Section Work.
Context (needle : bytes).

(** A fall pays for itself with the match it gives up. *)
Lemma fall_work_le prefix b : (∀ i, (nth i prefix O ≤ i)%nat) → ∀ fuel k,
  (fall_work needle prefix b fuel k + fall needle prefix b fuel k ≤ k + 2)%nat.
Proof.
  intros Ht. induction fuel as [|fuel IH]; intros k; cbn [fall fall_work]; [lia|].
  destruct (bool_decide _); [lia|]. destruct k as [|k]; [lia|]. specialize (IH (nth k prefix O)). specialize (Ht k). lia.
Qed.

Lemma insert_small (prefix : list nat) i x : (∀ j, (nth j prefix O ≤ j)%nat) → (x ≤ i)%nat → ∀ j, (nth j (<[i := x]> prefix) O ≤ j)%nat.
Proof.
  intros Ht Hx j. rewrite nth_lookup. destruct (decide (i = j)) as [->|Hne].
  - destruct (decide (j < length prefix)%nat) as [Hl|Hl].
    + by rewrite list_lookup_insert_eq.
    + rewrite list_insert_ge by lia. rewrite <- nth_lookup. apply Ht.
  - rewrite list_lookup_insert_ne by done. rewrite <- nth_lookup. apply Ht.
Qed.

Lemma build_work_le : ∀ rest index k prefix,
  (∀ i, (nth i prefix O ≤ i)%nat) → (k < index)%nat →
  (build_work needle rest index k prefix ≤ 2 * length rest + k)%nat ∧
  ∀ i, (nth i (build needle rest index k prefix) O ≤ i)%nat.
Proof.
  induction rest as [|b rest IH]; intros index k prefix Ht Hk; cbn [build build_work]; [split; [lia|done]|].
  pose proof (fall_work_le prefix b Ht (S k) k) as Hf. set (r := fall needle prefix b (S k) k) in *.
  assert (r ≤ S k)%nat as Hr. { cbn [fall_work] in Hf. lia. }
  destruct (IH (S index) r (<[index := r]> prefix)) as [Hw Hb]; [apply insert_small; [done|lia]|lia|].
  split; [|done]. cbn [length]. lia.
Qed.

Lemma search_work_le prefix : (∀ i, (nth i prefix O ≤ i)%nat) → ∀ hay k,
  (search_work needle prefix hay k ≤ 2 * length hay + k)%nat.
Proof.
  intros Ht. induction hay as [|b hay IH]; intros k; cbn [search_work]; [lia|].
  pose proof (fall_work_le prefix b Ht (S k) k) as Hf. specialize (IH (fall needle prefix b (S k) k)).
  destruct (bool_decide _); cbn [length]; lia.
Qed.
End Work.

(** ** What a checked provider promises *)
Section Promises.
Context `{CryptoProvider P}.
Implicit Types (c : CheckedProvider (P := P)).

(** C38. The echo check is exact and linear.  The automaton reports a
    plaintext inside an answer exactly when its bytes occur there in a row,
    wherever they start, and it never makes more byte comparisons than twice
    the bytes it is given. *)
Theorem contains_exact haystack needle :
  (contains_plaintext haystack needle = true ↔ ∃ u v, haystack = u ++ needle ++ v) ∧
  (comparisons haystack needle ≤ 2 * (length haystack + length needle))%nat.
Proof.
  split; [apply contains_spec|]. unfold comparisons. destruct (bool_decide _); [lia|]. destruct (bool_decide _); [lia|].
  destruct (build_work_le needle (drop 1 needle) 1 0 (replicate (length needle) O)) as [Hb Ht]; [|lia|].
  { intros i. rewrite nth_lookup. destruct (replicate _ _ !! i) as [x|] eqn:Hx; [|simpl; lia].
    apply lookup_replicate in Hx as [-> _]. simpl. lia. }
  pose proof (search_work_le needle (prefix_table needle) Ht haystack 0). rewrite length_drop in Hb. lia.
Qed.

(** An answer that fits its items. *)
Definition ciphertext_for (caps : CryptoCapabilities) (item : PlaintextUnit) (ct : CiphertextUnit) : Prop :=
  cu_index ct = pu_index item ∧ 0 < blen (cu_data ct) ≤ caps_max_ciphertext caps ∧
  (pu_data item ≠ [] → ¬ ∃ u v, cu_data ct = u ++ pu_data item ++ v).

Definition plaintext_for (caps : CryptoCapabilities) (unit_size : option Z) (item : CiphertextUnit) (pt : PlaintextUnit) : Prop :=
  pu_index pt = cu_index item ∧ blen (pu_data pt) ∈ supported_plaintext_sizes caps ∧ blen (pu_data pt) ≤ U32_MAX ∧
  ∀ n, unit_size = Some n → blen (pu_data pt) = n.

Lemma encrypt_item_spec caps item ct : encrypt_item_ok caps item ct = true ↔ ciphertext_for caps item ct.
Proof.
  unfold encrypt_item_ok, ciphertext_for. rewrite !andb_true_iff, !negb_true_iff, Z.eqb_eq, Z.leb_le, bool_decide_eq_false.
  assert (cu_data ct ≠ [] ↔ 0 < blen (cu_data ct)) as ->.
  { unfold blen. destruct (cu_data ct); simpl; split; try done; lia. }
  rewrite andb_false_iff, negb_false_iff, bool_decide_eq_true, <- contains_spec.
  destruct (decide (pu_data item = [])), (contains_plaintext (cu_data ct) (pu_data item)); naive_solver.
Qed.

Lemma zip_all {A B} (f : A * B → bool) (l : list A) (k : list B) (R : A → B → Prop) :
  (∀ x y, f (x, y) = true ↔ R x y) → length k = length l → forallb f (zip l k) = true ↔ Forall2 R l k.
Proof.
  intros Hf. revert k. induction l as [|x l IH]; intros [|y k] Hl; try done. cbn [zip forallb].
  change (zip (x :: l) (y :: k)) with ((x, y) :: zip l k). cbn [forallb].
  rewrite andb_true_iff, Hf, IH by (simpl in Hl; lia). split; [intros []; by constructor|intros Hr; by inversion Hr].
Qed.

Lemma validate_encrypt_spec items out caps :
  validate_encrypt_result items out caps = Ok tt ↔ Forall2 (ciphertext_for caps) items out.
Proof.
  unfold validate_encrypt_result. destruct (Nat.eqb_spec (length out) (length items)) as [Hl|Hl]; cbn [negb].
  - rewrite <- (zip_all (λ '(item, ct), encrypt_item_ok caps item ct) items out) by (done || by apply encrypt_item_spec).
    by destruct (forallb _ _).
  - split; [done|]. intros Hf%Forall2_length. lia.
Qed.

Lemma validate_decrypt_spec items out caps :
  validate_decrypt_result items out caps = Ok tt ↔ Forall2 (plaintext_for caps None) items out.
Proof.
  assert (∀ item pt, decrypt_item_ok caps item pt = true ↔ plaintext_for caps None item pt) as Hi.
  { intros item pt. unfold decrypt_item_ok, accepts_plaintext_size, plaintext_for.
    rewrite !andb_true_iff, Z.eqb_eq, Z.leb_le, bool_decide_eq_true. naive_solver. }
  unfold validate_decrypt_result. destruct (Nat.eqb_spec (length out) (length items)) as [Hl|Hl]; cbn [negb].
  - rewrite <- (zip_all (λ '(item, pt), decrypt_item_ok caps item pt) items out) by done. by destruct (forallb _ _).
  - split; [done|]. intros Hf%Forall2_length. lia.
Qed.
Lemma checked_caps_run c r c1 : checked_caps c = (Ok r, c1) →
  ck_caps c1 = Some r ∧ ck_unit_size c1 = ck_unit_size c ∧
  (ck_caps c = Some r ∧ c1 = c ∨ ck_caps c = None ∧ capabilities (ck_inner c) = (Ok r, ck_inner c1)).
Proof.
  unfold checked_caps, on_inner. destruct (ck_caps c) as [caps|] eqn:Hc; [intros [= <- <-]; auto|].
  destruct (capabilities (ck_inner c)) as [[caps|e] q]; [|done]. intros [= <- <-]. auto.
Qed.

(** Pinned plaintexts are supported ones of the pinned size. *)
Lemma pinned_size caps unit_size items out :
  Forall2 (plaintext_for caps None) items out →
  (match unit_size with Some n => forallb (λ pt, blen (pu_data pt) =? n) out | None => true end = true
   ↔ Forall2 (plaintext_for caps unit_size) items out).
Proof.
  intros Hf. destruct unit_size as [n|]; [|done].
  induction Hf as [|item pt items out Hi Hf IH]; cbn [forallb]; [done|].
  rewrite andb_true_iff, IH, Z.eqb_eq. unfold plaintext_for in *. split.
  - intros [Hn Hr]. constructor; [naive_solver|done].
  - intros Hr. inversion Hr; subst. naive_solver.
Qed.

(** C37. A checked provider answers with well-shaped batches only, whatever
    the provider behind it does.  An encryption succeeds exactly when the
    provider's own answer has one entry per item, in order, under the item's
    unit index, non-empty, within the declared maximum and not carrying the
    item's plaintext; a decryption exactly when every plaintext is a
    supported size and the pinned one.  Such an answer is passed on
    unchanged, any other one is a contract violation, and the capabilities
    it is checked against are those of the first successful query. *)
Theorem checked_shape context (pts : list PlaintextUnit) (cts : list CiphertextUnit) c caps c1 :
  checked_caps c = (Ok caps, c1) →
  let after p := mkChecked p (Some caps) (ck_unit_size c) in
  (∀ p out, encrypt_batch context pts (ck_inner c1) = (Ok out, p) →
     (Forall2 (ciphertext_for caps) pts out ∧ checked_encrypt context pts c = (Ok out, after p)) ∨
     (¬ Forall2 (ciphertext_for caps) pts out ∧ checked_encrypt context pts c = (Err Contract, after p))) ∧
  (∀ p out, decrypt_batch context cts (ck_inner c1) = (Ok out, p) →
     (Forall2 (plaintext_for caps (ck_unit_size c)) cts out ∧ checked_decrypt context cts c = (Ok out, after p)) ∨
     (¬ Forall2 (plaintext_for caps (ck_unit_size c)) cts out ∧
      checked_decrypt context cts c = (Err Contract, after p))) ∧
  (∀ p e, encrypt_batch context pts (ck_inner c1) = (Err e, p) → checked_encrypt context pts c = (Err e, after p)) ∧
  (∀ p e, decrypt_batch context cts (ck_inner c1) = (Err e, p) → checked_decrypt context cts c = (Err e, after p)) ∧
  checked_caps c1 = (Ok caps, c1).
Proof.
  intros Hc after. destruct (checked_caps_run _ _ _ Hc) as (Hk & Hu & _).
  unfold checked_encrypt, checked_decrypt, m_bind, m_lift, m_ret, m_err, on_inner. rewrite Hc.
  split; [|split; [|split; [|split]]].
  - intros p out Ho. rewrite Ho, Hk, Hu. pose proof (validate_encrypt_spec pts out caps) as Hv.
    destruct (validate_encrypt_result pts out caps) as [[]|e] eqn:He; [left; naive_solver|right].
    split; [naive_solver|]. unfold validate_encrypt_result in He. repeat case_match; simplify_eq; done.
  - intros p out Ho. rewrite Ho, Hk, Hu. pose proof (validate_decrypt_spec cts out caps) as Hv.
    destruct (validate_decrypt_result cts out caps) as [[]|e] eqn:He.
    + pose proof (pinned_size caps (ck_unit_size c) cts out (proj1 Hv eq_refl)) as Hn. cbn.
      destruct (ck_unit_size c) as [n|]; [|left; naive_solver].
      destruct (forallb _ _); [left|right]; naive_solver.
    + right. split.
      * intros Hf. assert (Forall2 (plaintext_for caps None) cts out) as Hx%Hv; [|done].
        revert Hf. apply Forall2_impl. unfold plaintext_for. naive_solver.
      * unfold validate_decrypt_result in He. repeat case_match; simplify_eq; done.
  - intros p e Ho. by rewrite Ho, Hk, Hu.
  - intros p e Ho. by rewrite Ho, Hk, Hu.
  - unfold checked_caps. by rewrite Hk.
Qed.
End Promises.

(** A provider that XORs every byte with 0x5a and appends a tag byte; it
    counts its calls, and the third call echoes the plaintext. *)
Module ProviderSample.

Definition caps : CryptoCapabilities :=
  mkCapabilities [] [] [3] 8 true true (mkBatchCapability true 4 64) Absent Absent Absent.

Definition mask (b : Init.Byte.byte) : Init.Byte.byte := Init.Byte.of_bits (
  let '(b0, (b1, (b2, (b3, (b4, (b5, (b6, b7))))))) := Init.Byte.to_bits b in
  (b0, (negb b1, (b2, (negb b3, (negb b4, (b5, (negb b6, b7)))))))).

Definition encrypt_one (echo : bool) (pt : PlaintextUnit) : CiphertextUnit :=
  mkCiphertextUnit (pu_index pt) ((if echo then pu_data pt else map mask (pu_data pt)) ++ [Init.Byte.x00]).

Definition decrypt_one (ct : CiphertextUnit) : PlaintextUnit :=
  mkPlaintextUnit (cu_index ct) (map mask (take (length (cu_data ct) - 1) (cu_data ct))).

#[export] Instance masking : CryptoProvider nat := {|
  capabilities := λ n, (Ok caps, n);
  encrypt_batch := λ _ items n, (Ok (map (encrypt_one (n =? 2)%nat) items), S n);
  decrypt_batch := λ _ items n, (Ok (map decrypt_one items), S n)
|}.

Definition context : CryptoContext := mkCryptoContext [] 1 [].
Definition item : PlaintextUnit := mkPlaintextUnit 7 [Init.Byte.x01; Init.Byte.x02; Init.Byte.x03].
Definition ct : CiphertextUnit := encrypt_one false item.

Lemma checked_shape_witness :
  let c := checked_pinned (2%nat : nat) 3 in
  checked_encrypt context [item] c = (Err Contract, mkChecked 3%nat (Some caps) (Some 3)) ∧
  checked_decrypt context [ct] c = (Ok [item], mkChecked 3%nat (Some caps) (Some 3)).
Proof.
  intros c.
  assert (checked_caps c = (Ok caps, mkChecked 2%nat (Some caps) (Some 3))) as Hc by reflexivity.
  destruct (checked_shape context [item] [ct] c caps _ Hc)
    as (He & Hd & _).
  destruct (He 3%nat _ eq_refl) as [[Hf _]|[_ Hr]]; [|destruct (Hd 3%nat _ eq_refl) as [[_ Hx]|[Hn _]]].
  - apply validate_encrypt_spec in Hf. vm_compute in Hf. discriminate Hf.
  - split; [exact Hr|exact Hx].
  - exfalso. apply Hn. apply pinned_size; [apply validate_decrypt_spec|]; reflexivity.
Defined.
End ProviderSample.
