(* ===== verification/Breaker.v ===== *)
(** * Breaker: the circuit breaker of an endpoint
    (crates/maki-crypto/src/breaker.rs)

    [CLOSED -> OPEN -> HALF_OPEN -> CLOSED/OPEN].  Every method takes the
    breaker's mutex once, so a method is one atomic step on [Inner]; the time
    it reads from its clock is an argument.  Durations are nanoseconds.  A
    permit is the generation it was issued under, and a history is any
    interleaving of admissions and of drops of permits that are still held,
    with or without a verdict. *)

From S2P Require Import Prelude Backing.

Local Open Scope Z_scope.

(** [Duration::MAX]: [u64::MAX] seconds and 999 999 999 nanoseconds. *)
Definition DURATION_MAX : Z := U64_MAX * 1000000000 + 999999999.

Definition duration_add (a b : Z) : Z := Z.min (a + b) DURATION_MAX.
Definition duration_mul (a k : Z) : Z := Z.min (a * k) DURATION_MAX.

Inductive CircuitState := Closed | Open | HalfOpen.

#[export] Instance circuit_state_dec : EqDecision CircuitState.
Proof. solve_decision. Defined.

Record BreakerConfig := mkBreakerConfig {
  failure_threshold : Z;
  open_initial : Z;
  open_max : Z;
  half_open_max_requests : Z;
  success_threshold : Z
}.

Definition breaker_default : BreakerConfig :=
  mkBreakerConfig 8 (1 * 1000000000) (30 * 1000000000) 2 2.

Record Inner := mkInner {
  bk_state : CircuitState;
  consecutive_failures : Z;
  open_until : Z;
  open_duration : Z;
  generation : Z;
  half_open_inflight : Z;
  half_open_successes : Z
}.

Inductive Verdict := Success | Failure | VerdictFatal.

Definition breaker_new (config : BreakerConfig) : Inner := mkInner Closed 0 0 (open_initial config) 0 0 0.

Definition next_admission_time (config : BreakerConfig) (inner : Inner) : option Z :=
  match bk_state inner with
  | Closed => Some 0
  | Open => Some (open_until inner)
  | HalfOpen => if half_open_inflight inner <? half_open_max_requests config then Some 0 else None
  end.

Definition would_allow (config : BreakerConfig) (now : Z) (inner : Inner) : bool :=
  match next_admission_time config inner with Some ready => ready <=? now | None => false end.

Definition breaker_admit (config : BreakerConfig) (now : Z) (inner : Inner) : bool * Inner :=
  let '(mkInner state failures until duration gen inflight successes) := inner in
  match state with
  | Closed => (true, inner)
  | Open =>
      if until <=? now then (true, mkInner HalfOpen failures until duration (gen + 1) 1 0) else (false, inner)
  | HalfOpen =>
      if inflight <? half_open_max_requests config
      then (true, mkInner HalfOpen failures until duration gen (inflight + 1) successes)
      else (false, inner)
  end.

(** The permit is the generation after the admission. *)
Definition breaker_acquire (config : BreakerConfig) (now : Z) (inner : Inner) : option Z * Inner :=
  match breaker_admit config now inner with
  | (true, inner) => (Some (generation inner), inner)
  | (false, inner) => (None, inner)
  end.

(** The verdict of a finished operation, after the half-open slot is
    returned. *)
Definition settle (config : BreakerConfig) (now : Z) (inner : Inner) (outcome : option Verdict) : Inner :=
  let '(mkInner state failures until duration gen inflight successes) := inner in
  match state, outcome with
  | Closed, Some Success => mkInner state 0 until duration gen inflight successes
  | HalfOpen, Some Success =>
      let successes := successes + 1 in
      if success_threshold config <=? successes
      then mkInner Closed 0 until (open_initial config) (gen + 1) inflight successes
      else mkInner state failures until duration gen inflight successes
  | Closed, Some failure =>
      let failures := failures + 1 in
      if match failure with VerdictFatal => true | _ => false end || (failure_threshold config <=? failures)
      then mkInner Open failures (duration_add now duration) duration (gen + 1) inflight successes
      else mkInner state failures until duration gen inflight successes
  | HalfOpen, Some (Failure | VerdictFatal) =>
      let duration := Z.min (duration_mul duration 2) (open_max config) in
      mkInner Open failures (duration_add now duration) duration (gen + 1) 0 successes
  | _, None | Open, _ => inner
  end.

Definition return_slot (inner : Inner) : Inner :=
  let '(mkInner state failures until duration gen inflight successes) := inner in
  match state with
  | HalfOpen => mkInner state failures until duration gen (Z.max 0 (inflight - 1)) successes
  | _ => inner
  end.

Definition finish (config : BreakerConfig) (now : Z) (gen : option Z) (outcome : option Verdict) (inner : Inner) : Inner :=
  match gen with
  | Some g => if g =? generation inner then settle config now (return_slot inner) outcome else inner
  | None => settle config now (return_slot inner) outcome
  end.

(** ** Histories *)
Section Histories.
Context (config : BreakerConfig).
Implicit Types (inner : Inner) (held : list Z).

(** [steps n inner held]: after [n] methods the breaker is [inner] and the
    permits [held] have not been dropped. *)
Inductive breaker_steps : nat → Inner → list Z → Prop :=
| steps_new : breaker_steps 0 (breaker_new config) []
| steps_acquire n inner held now g inner' :
    breaker_steps n inner held → breaker_acquire config now inner = (Some g, inner') →
    breaker_steps (S n) inner' (g :: held)
| steps_refused n inner held now inner' :
    breaker_steps n inner held → breaker_acquire config now inner = (None, inner') →
    breaker_steps (S n) inner' held
| steps_drop n inner l g r now outcome :
    breaker_steps n inner (l ++ g :: r) →
    breaker_steps (S n) (finish config now (Some g) outcome inner) (l ++ r).

Definition probes inner held : nat := count_occ Z.eq_dec held (generation inner).

Record breaker_ok (n : nat) inner held : Prop := {
  bk_generation : 0 ≤ generation inner ≤ Z.of_nat n;
  bk_held : Forall (λ g, g ≤ generation inner) held;
  bk_closed : bk_state inner = Closed → 0 ≤ consecutive_failures inner < Z.max 1 (failure_threshold config);
  bk_open : bk_state inner ≠ Closed → 0 ≤ consecutive_failures inner ≤ Z.max 1 (failure_threshold config);
  bk_half : bk_state inner = HalfOpen →
    half_open_inflight inner = Z.of_nat (probes inner held) ∧
    half_open_inflight inner ≤ Z.max 1 (half_open_max_requests config) ∧
    0 ≤ half_open_successes inner < Z.max 1 (success_threshold config);
  bk_idle : bk_state inner = Open → probes inner held = O;
  bk_duration : Z.min (open_initial config) (open_max config) ≤ open_duration inner
                ≤ Z.max (open_initial config) (open_max config)
}.

Lemma probes_fresh held g : Forall (λ g', g' ≤ g) held → count_occ Z.eq_dec held (g + 1) = O.
Proof. intros Hf. apply count_occ_not_In. intros Hin%list_elem_of_In. rewrite list.Forall_forall in Hf. specialize (Hf _ Hin). simpl in Hf. lia. Qed.

Lemma count_drop l g r x :
  count_occ Z.eq_dec (l ++ g :: r) x = ((if Z.eq_dec g x then 1 else 0) + count_occ Z.eq_dec (l ++ r) x)%nat.
Proof. rewrite !count_occ_app. cbn. destruct (Z.eq_dec g x); lia. Qed.

Lemma held_le held (g g' : Z) : Forall (λ x, x ≤ g) held → g ≤ g' → Forall (λ x, x ≤ g') held.
Proof. intros Hf Hg. eapply list.Forall_impl; [exact Hf|]. simpl. lia. Qed.

Lemma held_drop (g : Z) l x r : Forall (λ y, y ≤ g) (l ++ x :: r) → Forall (λ y, y ≤ g) (l ++ r).
Proof. rewrite !list.Forall_app, list.Forall_cons. tauto. Qed.
Lemma new_ok : 0 ≤ open_initial config → breaker_ok 0 (breaker_new config) [].
Proof. intros Hi. split; cbn; try done; try lia. Qed.

Lemma acquire_ok n inner held now g inner' :
  breaker_ok n inner held → breaker_acquire config now inner = (Some g, inner') → breaker_ok (S n) inner' (g :: held).
Proof.
  destruct inner as [state failures until duration gen inflight successes]. unfold breaker_acquire, breaker_admit.
  intros [Hg Hh Hc Ho Hhalf Hidle Hd]; cbn in *. unfold probes in *.
  destruct state; cbn in *.
  - intros [= <- <-]. split; cbn; try done; try lia. by constructor.
  - destruct (Z.leb_spec until now); [|done]. intros [= <- <-]. split; cbn; unfold probes; cbn; try done; try lia.
    + constructor; [lia|]. eapply held_le; [exact Hh|lia].
    + intros _. apply Ho. done.
    + intros _. destruct (Z.eq_dec (gen + 1) (gen + 1)); [|done]. rewrite (probes_fresh held gen Hh). lia.
  - destruct (Z.ltb_spec inflight (half_open_max_requests config)); [|done]. intros [= <- <-].
    split; cbn; unfold probes; cbn; try done; try lia.
    + by constructor.
    + intros _. destruct (Z.eq_dec gen gen); [|done]. specialize (Hhalf eq_refl). lia.
Qed.

Lemma refused_ok n inner held now inner' :
  breaker_ok n inner held → breaker_acquire config now inner = (None, inner') → inner' = inner ∧ breaker_ok (S n) inner held.
Proof.
  intros Hok Hr. assert (inner' = inner) as ->.
  { revert Hr. destruct inner as [[] ? ? ? ? ? ?]; unfold breaker_acquire, breaker_admit; repeat case_match; intros; simplify_eq; done. }
  split; [done|]. destruct Hok. split; try done. lia.
Qed.

(** A permit of an earlier generation settles nothing. *)
Lemma stale_finish now g outcome inner : g ≠ generation inner → finish config now (Some g) outcome inner = inner.
Proof. intros Hg. unfold finish. by destruct (Z.eqb_spec g (generation inner)). Qed.

Lemma drop_ok n inner l g r now outcome :
  0 ≤ open_initial config ≤ DURATION_MAX → 0 ≤ open_max config ≤ DURATION_MAX →
  breaker_ok n inner (l ++ g :: r) → breaker_ok (S n) (finish config now (Some g) outcome inner) (l ++ r).
Proof.
  intros Hi Hm Hok. destruct (decide (g = generation inner)) as [->|Hne].
  2:{ rewrite (stale_finish now g outcome inner Hne). destruct Hok as [Hg Hh Hc Ho Hhalf Hidle Hd]. unfold probes in *.
      rewrite count_drop in *. destruct (Z.eq_dec g (generation inner)); [done|].
      split; try done; [lia|by eapply held_drop]. }
  destruct inner as [state failures until duration gen inflight successes].
  destruct Hok as [Hg Hh Hc Ho Hhalf Hidle Hd]. unfold probes, finish in *. cbn in *. rewrite Z.eqb_refl.
  rewrite count_drop in *. destruct (Z.eq_dec gen gen) as [_|]; [|done]. apply held_drop in Hh.
  pose proof (probes_fresh _ _ Hh) as Hfresh.
  assert (Forall (λ y, y ≤ gen + 1) (l ++ r)) as Hh1 by (eapply held_le; [exact Hh|lia]).
  destruct state, outcome as [[]|]; cbn in *;
    (try specialize (Hc eq_refl)); (try specialize (Hhalf eq_refl)); (try specialize (Hidle eq_refl)); try lia;
    repeat case_match; cbn in *;
    repeat match goal with H : (_ <=? _) = _ |- _ => revert H | H : _ || _ = _ |- _ => revert H end;
    rewrite ?Z.leb_le, ?Z.leb_gt; intros;
    split; cbn; unfold probes; cbn; try done; try lia; try (intros; split_and?; lia).
  all: first [by intros _; apply Ho|unfold duration_mul; lia].
Qed.
Lemma steps_ok n inner held :
  0 ≤ open_initial config ≤ DURATION_MAX → 0 ≤ open_max config ≤ DURATION_MAX →
  breaker_steps n inner held → breaker_ok n inner held.
Proof.
  intros Hi Hm Hs. induction Hs as [|n inner held now g inner' Hs IH Ha|n inner held now inner' Hs IH Hr|n inner l g r now outcome Hs IH].
  - apply new_ok. lia.
  - by eapply acquire_ok.
  - by destruct (refused_ok _ _ _ _ _ IH Hr) as [-> Hok].
  - by apply drop_ok.
Qed.

(** The snapshot for waiters decides the admission. *)
Lemma would_allow_acquire now inner : 0 ≤ now →
  would_allow config now inner = match breaker_acquire config now inner with (Some _, _) => true | (None, _) => false end.
Proof.
  intros Hn. destruct inner as [[] ? until ? ? inflight ?]; unfold would_allow, next_admission_time, breaker_acquire, breaker_admit; cbn.
  - lia.
  - by destruct (until <=? now).
  - destruct (inflight <? half_open_max_requests config); [lia|done].
Qed.

(** One successful request on its own. *)
Definition probe (now : Z) inner : Inner :=
  match breaker_acquire config now inner with
  | (Some g, inner') => finish config now (Some g) (Some Success) inner'
  | (None, inner') => inner'
  end.

(** The successes a circuit still needs before it closes. *)
Definition missing inner : nat :=
  match bk_state inner with
  | Closed => 0
  | HalfOpen => Z.to_nat (Z.max 1 (success_threshold config) - half_open_successes inner)
  | Open => Z.to_nat (Z.max 1 (success_threshold config))
  end.

Definition idle inner : Prop :=
  bk_state inner = HalfOpen → half_open_inflight inner = 0 ∧ 0 ≤ half_open_successes inner < Z.max 1 (success_threshold config).

Lemma probe_progress now inner :
  1 ≤ half_open_max_requests config → open_until inner ≤ now → idle inner →
  idle (probe now inner) ∧ open_until (probe now inner) ≤ now ∧ missing (probe now inner) = pred (missing inner).
Proof.
  intros Hm Hu Hidle. unfold idle, missing in *.
  destruct inner as [[] failures until duration gen inflight successes]; unfold probe, breaker_acquire, breaker_admit; cbn in *.
  - unfold finish. cbn. rewrite Z.eqb_refl. cbn. done.
  - destruct (Z.leb_spec until now); [|lia]. unfold finish. cbn. rewrite Z.eqb_refl. cbn.
    destruct (Z.leb_spec (success_threshold config) (0 + 1)); cbn; split_and!; try done; try (intros _; split; lia); lia.
  - destruct (Hidle eq_refl) as [-> Hs]. destruct (Z.ltb_spec 0 (half_open_max_requests config)); [|lia].
    unfold finish. cbn. rewrite Z.eqb_refl. cbn.
    destruct (Z.leb_spec (success_threshold config) (successes + 1)); cbn; split_and!; try done; try (intros _; split; lia); lia.
Qed.

Lemma probes_progress now : 1 ≤ half_open_max_requests config → ∀ k inner,
  open_until inner ≤ now → idle inner →
  let after := Nat.iter k (probe now) inner in
  idle after ∧ open_until after ≤ now ∧ missing after = (missing inner - k)%nat.
Proof.
  intros Hm k inner Hu Hidle. induction k as [|k (Hi & Hu' & Hk)]; [cbn; split_and!; try done; lia|].
  destruct (probe_progress now _ Hm Hu' Hi) as (? & ? & Hp). cbn zeta. rewrite Nat.iter_succ. split_and!; try done. rewrite Hp, Hk. lia.
Qed.

Lemma missing_closed inner : idle inner → missing inner = O → bk_state inner = Closed.
Proof. unfold idle, missing. destruct (bk_state inner); [done|lia|]. intros Hi. destruct (Hi eq_refl). lia. Qed.

(** C36. The circuit breaker under any interleaving of admissions and of
    drops of held permits.  The counters stay within their widths; a
    half-open circuit counts exactly the held probes of its own window and
    never more than the configured number; permits of earlier windows change
    nothing; an open circuit admits nobody before its deadline; and it is
    never wedged: once the deadline has passed and no probe of the window is
    held, at most [success_threshold] successful requests close it. *)
Theorem breaker_sound n inner held now :
  0 ≤ open_initial config ≤ DURATION_MAX → 0 ≤ open_max config ≤ DURATION_MAX →
  breaker_steps n inner held → 0 ≤ now →
  breaker_ok n inner held ∧
  (∀ g outcome, g ≠ generation inner → finish config now (Some g) outcome inner = inner) ∧
  (would_allow config now inner = true ↔
     match bk_state inner with
     | Closed => True
     | Open => open_until inner ≤ now
     | HalfOpen => Z.of_nat (probes inner held) < half_open_max_requests config
     end) ∧
  would_allow config now inner = match breaker_acquire config now inner with (Some _, _) => true | (None, _) => false end ∧
  (1 ≤ half_open_max_requests config → open_until inner ≤ now → probes inner held = O →
   bk_state (Nat.iter (Z.to_nat (Z.max 1 (success_threshold config))) (probe now) inner) = Closed).
Proof.
  intros Hi Hm Hs Hn. pose proof (steps_ok n inner held Hi Hm Hs) as Hok. split; [done|].
  split; [intros; by apply stale_finish|]. split; [|split; [by apply would_allow_acquire|]].
  - destruct Hok as [_ _ _ _ Hh _ _]. unfold would_allow, next_admission_time.
    destruct (bk_state inner); [split; [done|intros; by apply Z.leb_le]|by rewrite Z.leb_le|].
    destruct (Hh eq_refl) as [<- _]. destruct (Z.ltb_spec (half_open_inflight inner) (half_open_max_requests config)); split; try done; lia.
  - intros Hmax Hu Hp.
    assert (idle inner) as Hidle. { intros He. destruct (bk_half _ _ _ Hok He) as (-> & _ & ?). by rewrite Hp. }
    destruct (probes_progress now Hmax (Z.to_nat (Z.max 1 (success_threshold config))) inner Hu Hidle) as (Hi' & _ & Hk).
    apply missing_closed; [done|]. rewrite Hk.
    unfold missing, idle in *. destruct (bk_state inner); [lia|lia|]. destruct (Hidle eq_refl). lia.
Qed.
End Histories.

(** One failure opens the circuit; a probe is admitted and cancelled, and
    two successes close it. *)
Module BreakerSample.

Definition config : BreakerConfig := mkBreakerConfig 1 4 16 1 2.

Definition opened : Inner := finish config 10 (Some 0) (Some Failure) (breaker_new config).
Definition probing : Inner := snd (breaker_acquire config 20 opened).

Lemma breaker_sound_witness :
  breaker_ok config 4 (finish config 25 (Some 2) None probing) [] ∧
  bk_state (Nat.iter 2 (probe config 30) (finish config 25 (Some 2) None probing)) = Closed.
Proof.
  destruct (breaker_sound config 4 (finish config 25 (Some 2) None probing) [] 30) as (Hok & _ & _ & _ & Hc);
    [vm_compute; split; discriminate|vm_compute; split; discriminate| |vm_compute; discriminate|].
  - apply (steps_drop config 3 probing [] 2 [] 25 None). cbn [app].
    apply (steps_acquire config 2 opened [] 20 2 probing); [|reflexivity].
    apply (steps_drop config 1 (breaker_new config) [] 0 [] 10 (Some Failure)). cbn [app].
    apply (steps_acquire config 0 (breaker_new config) [] 5 0 (breaker_new config)); [constructor|reflexivity].
  - split; [exact Hok|]. apply Hc; [vm_compute; discriminate|vm_compute; discriminate|reflexivity].
Defined.
End BreakerSample.
