(* ===== verification/CrashBacking.v ===== *)
(** * CrashBacking: the executable crash model
    (crates/maki-test-support/src/crash_backing.rs)

    The in-memory backing with POSIX crash semantics: names and inodes are
    separate, writes are volatile until a data sync, names until a directory
    sync, a failed sync marks dirty writes clean without persisting them, and
    a crash keeps or loses every volatile operation independently, possibly
    tearing writes at sector granularity.  [crash_laws] shows that the model
    meets the contract [BackingLaws] the program relies on.

    A fault hook is a closure with its own state: it is modelled as a
    function of the number of hook calls so far and the operation.  The
    random choices of a crash are an explicit argument.  Handle reference
    counts and the statistics counters are left out: inodes that only a
    closed handle reached stay in the map, where nothing can name them. *)

From Stdlib Require Import Sorted.
From stdpp Require Import sorting.
From S2P Require Import Prelude Codec Layout Backing.

Local Open Scope Z_scope.

Inductive FaultOp :=
| FOpen (path : string) (create : bool)
| FWriteAt (path : string) (offset : Z) (len : Z)
| FSetLen (path : string) (len : Z)
| FSyncData (path : string)
| FSyncDir (dir : string)
| FRemove (path : string)
| FRename (from to : string).

Definition FaultHook : Type := nat → FaultOp → option ErrorKind.
Definition PartialWriteHook : Type := nat → FaultOp → option (nat * ErrorKind).

Inductive Pend :=
| PWrite (offset : nat) (data : bytes)
| PSetLen (len : nat).

Record Inode := mkInode {
  i_durable : bytes;
  i_pending : list Pend;
  i_image : bytes
}.

Definition Inode_default : Inode := mkInode [] [] [].
Definition from_content (content : bytes) : Inode := mkInode content [] content.

Record Name := mkName {
  n_durable : option N;
  n_volatile : option N;
  n_change : N
}.

Definition Name_default : Name := mkName None None 0.

(** [Name::pending]. *)
Definition name_pending (n : Name) : bool := negb (bool_decide (n_durable n = n_volatile n)).

Record Inner := mkInner {
  inodes : gmap N Inode;
  names : gmap string Name;
  next_inode : N;
  next_change : N;
  dirs : gmap string bool;
  locks : gset string;
  hook : option FaultHook;
  partial_hook : option PartialWriteHook;
  lenient_sync_failures : bool;
  calls : nat;
  tearing : option nat
}.

Definition set_inodes (f : gmap N Inode → gmap N Inode) (s : Inner) : Inner :=
  mkInner (f (inodes s)) (names s) (next_inode s) (next_change s) (dirs s) (locks s)
    (hook s) (partial_hook s) (lenient_sync_failures s) (calls s) (tearing s).
Definition set_names (f : gmap string Name → gmap string Name) (s : Inner) : Inner :=
  mkInner (inodes s) (f (names s)) (next_inode s) (next_change s) (dirs s) (locks s)
    (hook s) (partial_hook s) (lenient_sync_failures s) (calls s) (tearing s).
Definition set_dirs (f : gmap string bool → gmap string bool) (s : Inner) : Inner :=
  mkInner (inodes s) (names s) (next_inode s) (next_change s) (f (dirs s)) (locks s)
    (hook s) (partial_hook s) (lenient_sync_failures s) (calls s) (tearing s).
Definition set_locks (f : gset string → gset string) (s : Inner) : Inner :=
  mkInner (inodes s) (names s) (next_inode s) (next_change s) (dirs s) (f (locks s))
    (hook s) (partial_hook s) (lenient_sync_failures s) (calls s) (tearing s).
Definition bump_inode (s : Inner) : N * Inner :=
  let id := (next_inode s + 1)%N in
  (id, mkInner (inodes s) (names s) id (next_change s) (dirs s) (locks s)
         (hook s) (partial_hook s) (lenient_sync_failures s) (calls s) (tearing s)).
Definition new_change (s : Inner) : N * Inner :=
  let c := (next_change s + 1)%N in
  (c, mkInner (inodes s) (names s) (next_inode s) c (dirs s) (locks s)
        (hook s) (partial_hook s) (lenient_sync_failures s) (calls s) (tearing s)).
Definition count_call (s : Inner) : Inner :=
  mkInner (inodes s) (names s) (next_inode s) (next_change s) (dirs s) (locks s)
    (hook s) (partial_hook s) (lenient_sync_failures s) (S (calls s)) (tearing s).

Abbreviation cio := (M Inner ErrorKind).

(** [Inner::check]. *)
Definition check (op : FaultOp) : cio unit := λ s,
  match hook s with
  | Some h => match h (calls s) op with
              | Some e => (Err e, count_call s)
              | None => (Ok tt, count_call s)
              end
  | None => (Ok tt, s)
  end.

Definition volatile (s : Inner) (path : string) : option N := names s !! path ≫= n_volatile.

(** [Inner::relink]. *)
Definition relink (path : string) (inode : option N) (change : N) (s : Inner) : Inner :=
  set_names (λ ns,
    let name := default Name_default (ns !! path) in
    <[path := mkName (n_durable name) inode change]> ns) s.

Definition apply (data : bytes) (p : Pend) : bytes :=
  match p with
  | PWrite offset src => write_range data offset src
  | PSetLen len => resize len data
  end.

Definition durable_after_sync (i : Inode) : bytes := foldl apply (i_durable i) (i_pending i).

(** The cut points of [apply_torn] after the first: absolute multiples of the
    granularity, then the end of the write. *)
Fixpoint torn_cuts (fuel : nat) (next gran len : nat) : list nat :=
  match fuel with
  | O => [len]
  | S f => if (next <? len)%nat then next :: torn_cuts f (next + gran) gran len else [len]
  end.

Inductive Persist :=
| Lost
| Kept
| TornPrefix (sector : nat)
| TornHole (sector : nat).

Definition apply_torn (data : bytes) (offset : nat) (src : bytes) (gran : nat) (choice : Persist) : bytes :=
  match src with
  | [] => data
  | _ =>
      let cuts := 0%nat :: torn_cuts (length src) (gran - offset mod gran) gran (length src) in
      let sectors := (length cuts - 1)%nat in
      match choice with
      | TornPrefix k =>
          let keep := nth (k mod sectors) cuts 0%nat in
          write_range data offset (take keep src)
      | TornHole k =>
          let hole := (k mod sectors)%nat in
          let hole_start := nth hole cuts 0%nat in
          let hole_end := nth (S hole) cuts 0%nat in
          let data := write_range data offset (take hole_start src) in
          if (hole_end <? length src)%nat
          then write_range data (offset + hole_end) (drop hole_end src)
          else if (length data <? offset + length src)%nat
          then resize (offset + length src) data else data
      | _ => data
      end
  end.

(** ** Crashes *)

(** The coin flips of one crash. *)
Record CrashChoice := mkCrashChoice {
  keep_dir : string → bool;
  keep_change : N → bool;
  keep_op : N → nat → Persist
}.

(** One name after the crash; [None] when it no longer exists. *)
Definition settle_name (keep : N → bool) (n : Name) : option Name :=
  let target := if name_pending n then (if keep (n_change n) then n_volatile n else n_durable n)
                else n_durable n in
  match target with
  | Some i => Some (mkName (Some i) (Some i) (n_change n))
  | None => None
  end.

Definition live_inodes (ns : gmap string Name) : gset N :=
  list_to_set (omap n_durable (map_to_list ns).*2).

Definition settle_names (keep : N → bool) (s : Inner) : Inner :=
  let ns := omap (settle_name keep) (names s) in
  set_names (λ _, ns) (set_inodes (filter (λ '(id, _), id ∈ live_inodes ns)) s).

Fixpoint persist_pending (tearing : option nat) (choice : nat → Persist) (data : bytes)
    (k : nat) (pending : list Pend) : bytes :=
  match pending with
  | [] => data
  | p :: ps =>
      let data' :=
        match choice k with
        | Lost => data
        | Kept => apply data p
        | torn => match tearing, p with
                  | Some gran, PWrite offset src => apply_torn data offset src gran torn
                  | _, _ => apply data p
                  end
        end in
      persist_pending tearing choice data' (S k) ps
  end.

Definition crash (c : CrashChoice) (s : Inner) : Inner :=
  let s := set_dirs (λ ds, map_imap (λ d durable,
             if durable || keep_dir c d then Some true else None) ds) s in
  let s := settle_names (keep_change c) s in
  set_inodes (map_imap (λ id i, Some (from_content
    (persist_pending (tearing s) (keep_op c id) (i_durable i) 0 (i_pending i))))) s.

Definition crash_all_lost (s : Inner) : Inner :=
  let s := settle_names (λ _, false) s in
  let s := set_inodes (fmap (λ i, from_content (i_durable i))) s in
  set_dirs (filter (λ '(_, durable), durable = true)) s.

(** ** Open files *)
Record CrashFile := mkCrashFile { cf_path : string; cf_inode : N }.

(** [CrashFile::with_inode]: the inode is written back whatever the outcome. *)
Definition with_inode {A} (file : CrashFile) (f : Inode → Inner → result ErrorKind A * Inode * Inner)
    : cio A := λ s,
  match inodes s !! cf_inode file with
  | None => (Err NotFound, s)
  | Some inode =>
      let '(r, inode', s') := f inode s in
      (r, set_inodes <[cf_inode file := inode']> s')
  end.

Definition crash_read_at (file : CrashFile) (offset len : Z) : cio bytes :=
  with_inode file (λ inode s,
    match read_range (i_image inode) offset len with
    | Some b => (Ok b, inode, s)
    | None => (Err UnexpectedEof, inode, s)
    end).

Definition push_pending (p : Pend) (i : Inode) : Inode :=
  mkInode (i_durable i) (i_pending i ++ [p]) (apply (i_image i) p).

Definition crash_write_at (file : CrashFile) (offset : Z) (data : bytes) : cio unit :=
  with_inode file (λ inode s,
    let op := FWriteAt (cf_path file) offset (blen data) in
    match check op s with
    | (Err e, s) => (Err e, inode, s)
    | (Ok _, s) =>
        let '(partial, s) := match partial_hook s with
                             | Some h => (h (calls s) op, count_call s)
                             | None => (None, s)
                             end in
        let '(written, outcome) := match partial with
                                   | Some (n, e) => (take n data, Err e)
                                   | None => (data, Ok tt)
                                   end in
        let inode := match written with
                     | [] => inode
                     | _ => push_pending (PWrite (Z.to_nat offset) written) inode
                     end in
        (outcome, inode, s)
    end).

Definition crash_punch_hole (file : CrashFile) (offset len : Z) : cio unit :=
  with_inode file (λ inode s,
    match checked_add offset len with
    | None => (Err InvalidInput, inode, s)
    | Some end_ =>
        let end_ := Z.min end_ (blen (i_image inode)) in
        if end_ <=? offset then (Ok tt, inode, s)
        else
          let len := end_ - offset in
          match check (FWriteAt (cf_path file) offset len) s with
          | (Err e, s) => (Err e, inode, s)
          | (Ok _, s) =>
              (Ok tt, push_pending (PWrite (Z.to_nat offset) (zeros (Z.to_nat len))) inode, s)
          end
    end).

Definition crash_set_len (file : CrashFile) (len : Z) : cio unit :=
  with_inode file (λ inode s,
    match check (FSetLen (cf_path file) len) s with
    | (Err e, s) => (Err e, inode, s)
    | (Ok _, s) => (Ok tt, push_pending (PSetLen (Z.to_nat len)) inode, s)
    end).

Definition crash_len (file : CrashFile) : cio Z :=
  with_inode file (λ inode s, (Ok (blen (i_image inode)), inode, s)).

Definition crash_sync_data (file : CrashFile) : cio unit :=
  with_inode file (λ inode s,
    match check (FSyncData (cf_path file)) s with
    | (Err e, s) =>
        (Err e, if lenient_sync_failures s then inode
                else mkInode (i_durable inode) [] (i_image inode), s)
    | (Ok _, s) => (Ok tt, mkInode (durable_after_sync inode) [] (i_image inode), s)
    end).

(** ** The namespace *)

Definition crash_open (path : string) (create : bool) : cio CrashFile :=
  let* _ := m_lift (validate path false) in
  let* _ := check (FOpen path create) in
  λ s, match volatile s path with
       | Some inode => (Ok (mkCrashFile path inode), s)
       | None =>
           if create then
             let '(inode, s) := bump_inode s in
             let s := set_inodes <[inode := Inode_default]> s in
             let '(change, s) := new_change s in
             let s := relink path (Some inode) change s in
             (Ok (mkCrashFile path inode), s)
           else (Err NotFound, s)
       end.

Definition crash_exists (path : string) : cio bool :=
  let* _ := m_lift (validate path false) in
  λ s, (Ok (match volatile s path with Some _ => true | None => false end
            || match dirs s !! path with Some _ => true | None => false end), s).

Definition crash_remove (path : string) : cio unit :=
  let* _ := m_lift (validate path false) in
  let* _ := check (FRemove path) in
  λ s, match volatile s path with
       | None => (Err NotFound, s)
       | Some _ => let '(change, s) := new_change s in (Ok tt, relink path None change s)
       end.

Definition crash_rename (from to : string) : cio unit :=
  let* _ := m_lift (validate from false) in
  let* _ := m_lift (validate to false) in
  let* _ := check (FRename from to) in
  λ s, match volatile s from with
       | None => (Err NotFound, s)
       | Some inode =>
           if String.eqb from to then (Ok tt, s)
           else
             let '(change, s) := new_change s in
             (Ok tt, relink from None change (relink to (Some inode) change s))
       end.

Definition crash_create_dir_all (path : string) : cio unit :=
  let* _ := m_lift (validate path false) in
  λ s, (Ok tt, set_dirs (λ ds,
    foldl (λ ds d, match ds !! d with Some _ => ds | None => <[d := false]> ds end) ds
      (dir_ancestors "" (split_slash path))) s).

(** Byte order, as [Vec<String>::sort] has it. *)
Definition string_leb (a b : string) : bool :=
  match String.compare a b with Gt => false | _ => true end.

Fixpoint sorted_insert (x : string) (l : list string) : list string :=
  match l with
  | [] => [x]
  | y :: l' => if String.eqb x y then l else if string_leb x y then x :: l else y :: sorted_insert x l'
  end.

(** [sort] and [dedup]. *)
Definition sort_dedup (l : list string) : list string := foldr sorted_insert [] l.

Definition crash_list (dir : string) : cio (list string) :=
  let* _ := m_lift (validate dir true) in
  λ s,
    let files := omap (λ '(name, entry), match n_volatile entry with
                                         | None => None
                                         | Some _ => entry_of dir name
                                         end) (map_to_list (names s)) in
    let subdirs := omap (λ '(name, _), entry_of dir name) (map_to_list (dirs s)) in
    (Ok (sort_dedup (files ++ subdirs)), s).

(** Commit the entry to disk if it is directly inside [dir]; forget names
    that exist neither on disk nor in memory. *)
Definition commit_entry (dir name : string) (entry : Name) : option Name :=
  let entry := if direct dir name
               then mkName (n_volatile entry) (n_volatile entry) (n_change entry) else entry in
  match n_durable entry, n_volatile entry with None, None => None | _, _ => Some entry end.

Definition commit_dirs (dir : string) (ds : gmap string bool) : gmap string bool :=
  map_imap (λ name durable, Some (durable || direct dir name))
    (if String.eqb dir "" then ds else <[dir := true]> ds).

Definition crash_sync_dir (dir : string) : cio unit :=
  let* _ := m_lift (validate dir true) in
  let* _ := check (FSyncDir dir) in
  λ s, (Ok tt, set_dirs (commit_dirs dir) (set_names (map_imap (commit_entry dir)) s)).

Definition crash_try_lock (path : string) : cio unit :=
  let* _ := m_lift (validate path false) in
  λ s, if bool_decide (path ∈ locks s) then (Err WouldBlock, s)
       else (Ok tt, set_locks (λ l, {[path]} ∪ l) s).

(** [impl Drop for CrashLock]: what a process that ends does to its lock. *)
Definition drop_lock (path : string) (s : Inner) : Inner := set_locks (λ l, l ∖ {[path]}) s.

#[export] Instance CrashableBacking : Backing Inner CrashFile := {|
  b_check_freshness := m_ret tt;
  b_open := crash_open;
  b_exists := crash_exists;
  b_remove := crash_remove;
  b_rename := crash_rename;
  b_create_dir_all := crash_create_dir_all;
  b_list := crash_list;
  b_sync_dir := crash_sync_dir;
  b_try_lock := crash_try_lock;
  f_read_at := crash_read_at;
  f_write_at := crash_write_at;
  f_set_len := crash_set_len;
  f_allocate_range := default_allocate_range crash_len crash_set_len;
  f_punch_hole := crash_punch_hole;
  f_len := crash_len;
  f_sync_data := crash_sync_data;
  f_sync_all := default_sync_all crash_sync_data
|}.

Lemma elem_of_sort_dedup x l : x ∈ sort_dedup l ↔ x ∈ l.
Proof.
  assert (∀ y k, x ∈ sorted_insert y k ↔ x = y ∨ x ∈ k) as Hins.
  { intros y k. induction k as [|z k IH]; simpl; [by rewrite list_elem_of_singleton, elem_of_nil; naive_solver|].
    destruct (String.eqb_spec y z) as [->|]; [rewrite elem_of_cons; naive_solver|].
    destruct (string_leb y z); rewrite !elem_of_cons; [done|]. rewrite IH. naive_solver. }
  induction l as [|y l IH]; simpl; [done|]. by rewrite Hins, IH, elem_of_cons.
Qed.

Lemma sort_dedup_sorted l : StronglySorted (λ a b, String.le a b ∧ a ≠ b) (sort_dedup l).
Proof.
  assert (∀ a b, string_leb a b = String.leb a b) as Hleb by done.
  induction l as [|x l IH]; simpl; [constructor|]. revert IH. generalize (sort_dedup l). clear l.
  induction l as [|y l IHl]; intros Hs; simpl; [by repeat constructor|].
  apply StronglySorted_inv in Hs as [Hs Hy]. destruct (String.eqb_spec x y) as [->|Hne]; [by constructor|].
  rewrite Hleb. destruct (String.leb x y) eqn:Hxy.
  - assert (String.le x y) as Hle by (unfold String.le; by rewrite Hxy).
    constructor; [by constructor|]. constructor; [done|]. eapply list.Forall_impl; [exact Hy|].
    intros z [Hyz Hnz]. split; [by etransitivity|]. intros ->. apply Hne. by apply (anti_symm String.le).
  - assert (String.le y x) as Hle by (destruct (total String.le x y) as [Ht|]; [unfold String.le in Ht; by rewrite Hxy in Ht|done]).
    constructor; [auto|]. rewrite list.Forall_forall in *. intros z Hz.
    assert (z = x ∨ z ∈ l) as [->|Hz']; [|split; [done|congruence]|auto].
    clear -Hz. induction l as [|t l IH]; simpl in Hz; [by apply list_elem_of_singleton in Hz; left|].
    destruct (String.eqb x t); [by right|]. destruct (string_leb x t); [apply elem_of_cons in Hz; naive_solver|].
    apply elem_of_cons in Hz as [->|Hz]; [right; by left|]. destruct (IH Hz) as [->|]; [by left|right; by right].
Qed.

Lemma sort_dedup_nodup l : NoDup (sort_dedup l).
Proof.
  pose proof (sort_dedup_sorted l) as Hs. induction Hs as [|x k _ IH Hx]; constructor; [|done].
  rewrite list.Forall_forall in Hx. intros Hin. by destruct (Hx x Hin).
Qed.

(** ** The model meets the durability contract *)

(** An inode some directory entry, on disk or in memory, refers to. *)
Definition refers (n : Name) (i : N) : Prop := n_durable n = Some i ∨ n_volatile n = Some i.

(** The invariant: entries refer to distinct existing inodes, identifiers
    are never reused, and injected faults do not claim that a file is
    missing. *)
Record crash_inv (s : Inner) : Prop := {
  ci_distinct p q np nq i :
    names s !! p = Some np → names s !! q = Some nq → refers np i → refers nq i → p = q;
  ci_exists p n i : names s !! p = Some n → refers n i → is_Some (inodes s !! i);
  ci_fresh i : is_Some (inodes s !! i) → (i ≤ next_inode s)%N;
  ci_honest h n op : hook s = Some h → h n op ≠ Some NotFound
}.

Definition crash_quiet (s : Inner) : Prop := hook s = None ∧ partial_hook s = None.

Definition inode_at (s : Inner) (p : string) : option Inode := volatile s p ≫= λ i, inodes s !! i.

Definition crash_vis (s : Inner) (p : string) : option bytes := i_image <$> inode_at s p.
Definition crash_dirty (s : Inner) (p : string) : option bytes := durable_after_sync <$> inode_at s p.

(** A dirty operation that writes what the file holds anyway: whether it is
    kept, lost or torn, the content stays [bs]. *)
Definition neutral (bs : bytes) (p : Pend) : Prop :=
  match p with
  | PWrite offset src => (offset + length src ≤ length bs)%nat ∧
                         src = take (length src) (drop offset bs)
  | PSetLen n => n = length bs
  end.

Definition clean_as (bs : bytes) (x : Inode) : Prop :=
  i_durable x = bs ∧ i_image x = bs ∧ Forall (neutral bs) (i_pending x).

Definition crash_synced (s : Inner) (p : string) (bs : bytes) : Prop :=
  ∃ x, inode_at s p = Some x ∧ clean_as bs x.

Definition crash_absent (s : Inner) (p : string) : Prop := names s !! p = None.

Definition crash_stable (s : Inner) (p : string) (bs : bytes) : Prop :=
  crash_synced s p bs ∧ ∃ n, names s !! p = Some n ∧ n_durable n = n_volatile n.

Definition crash_handle (s : Inner) (f : CrashFile) (p : string) : Prop :=
  volatile s p = Some (cf_inode f) ∧ is_Some (inodes s !! cf_inode f).

(** A dirty operation that leaves the bytes [bs] at [off] as they are. *)
Definition harmless_at (off : nat) (bs : bytes) (p : Pend) : Prop :=
  match p with
  | PWrite offset src => ∀ i b, src !! i = Some b → (off ≤ offset + i < off + length bs)%nat →
                                bs !! (offset + i - off)%nat = Some b
  | PSetLen n => (0 < length bs → off + length bs ≤ n)%nat
  end.

Abbreviation harmless := (harmless_at 0).

Definition based_on (pre : bytes) (x : Inode) : Prop :=
  pre `prefix_of` i_durable x ∧ pre `prefix_of` i_image x ∧ Forall (harmless pre) (i_pending x).

Definition crash_solid (s : Inner) (p : string) (pre : bytes) : Prop :=
  (∃ x, inode_at s p = Some x ∧ based_on pre x) ∧
  ∃ n, names s !! p = Some n ∧ n_durable n = n_volatile n.

(** On disk the range holds [bs] and nothing pending can change that. *)
Definition anchored (off : nat) (bs : bytes) (x : Inode) : Prop :=
  holds_at off bs (i_durable x) ∧ Forall (harmless_at off bs) (i_pending x).

Definition crash_pinned (s : Inner) (p : string) (off : nat) (bs : bytes) : Prop :=
  (∃ x, inode_at s p = Some x ∧ anchored off bs x) ∧
  ∃ n, names s !! p = Some n ∧ n_durable n = n_volatile n.

Definition crash_relation (s s' : Inner) : Prop :=
  (∃ c, s' = crash c s) ∨ s' = crash_all_lost s.

Abbreviation ckeeps :=
  (keeps_on crash_inv crash_quiet crash_vis crash_dirty crash_synced crash_stable crash_absent
    crash_handle crash_solid crash_pinned).

Lemma volatile_refers s p i :
  volatile s p = Some i → ∃ n, names s !! p = Some n ∧ n_volatile n = Some i.
Proof. unfold volatile. intros (n & ? & ?)%bind_Some. by exists n. Qed.

(** States that agree on the files of a path show the same path. *)
Lemma same_path_keeps (P : string → Prop) s s' :
  crash_inv s' → (crash_quiet s → crash_quiet s') →
  (∀ p, P p → names s' !! p = names s !! p) →
  (∀ p i, P p → volatile s p = Some i → inodes s' !! i = inodes s !! i) →
  ckeeps P s s'.
Proof.
  intros Hinv Hq Hn Hi. split; [done|]. split; [done|]. intros p Hp.
  assert (volatile s' p = volatile s p) as Hv by (unfold volatile; by rewrite Hn).
  assert (inode_at s' p = inode_at s p) as Hat.
  { unfold inode_at. rewrite Hv. destruct (volatile s p) eqn:E; [|done]. simpl. by eapply Hi. }
  unfold crash_vis, crash_dirty, crash_stable, crash_synced, crash_absent, crash_handle, crash_solid,
    crash_pinned.
  rewrite Hat, Hv, Hn by done. split; [done|]. split; [done|]. split; [done|]. split; [done|].
  split; [done|]. split; [|done]. intros f [Hf He]. split; [done|]. by rewrite (Hi p).
Qed.

(** A hook call changes nothing a path shows. *)
Lemma check_spec op s r s' :
  crash_inv s → check op s = (r, s') →
  (s' = s ∨ s' = count_call s) ∧ r ≠ Err NotFound ∧ (crash_quiet s → r = Ok tt).
Proof.
  intros Hinv. unfold check. destruct (hook s) as [h|] eqn:Hh.
  - destruct (h (calls s) op) as [e|] eqn:He; intros [= <- <-].
    + split; [by right|]. split; [|intros [? _]; congruence].
      intros [= ->]. by eapply ci_honest in He.
    + split; [by right|]. split; [done|done].
  - intros [= <- <-]. split; [by left|]. done.
Qed.

Lemma count_call_inv s : crash_inv s → crash_inv (count_call s).
Proof. intros [H1 H2 H3 H4]. by split. Qed.

Lemma called_keeps P s s' :
  crash_inv s → s' = s ∨ s' = count_call s → ckeeps P s s'.
Proof.
  intros Hinv [->| ->]; apply same_path_keeps; try done. by apply count_call_inv.
Qed.

(** Writing one inode back changes the path that names it and no other. *)
Lemma set_inode_inv s i x :
  crash_inv s → is_Some (inodes s !! i) → crash_inv (set_inodes <[i := x]> s).
Proof.
  intros [H1 H2 H3 H4] Hi. split; simpl; [done| | |done].
  - intros p n j Hn Hr. rewrite lookup_insert_is_Some. destruct (decide (i = j)); [by left|right].
    split; [done|]. by eapply H2.
  - intros j. rewrite lookup_insert_is_Some. intros [<-|[_ Hj]]; auto.
Qed.

Lemma set_inode_keeps s p i x :
  crash_inv s → volatile s p = Some i → is_Some (inodes s !! i) →
  ckeeps (λ q, q ≠ p) s (set_inodes <[i := x]> s).
Proof.
  intros Hinv Hp Hi. apply same_path_keeps; try done; [by apply set_inode_inv|].
  intros q j Hq Hj. simpl. apply lookup_insert_ne. intros <-. apply Hq.
  apply volatile_refers in Hp as (np & Hnp & Hvp), Hj as (nq & Hnq & Hvq).
  eapply (ci_distinct s Hinv q p); [done|done| |]; by right.
Qed.

Lemma ckeeps_trans P s1 s2 s3 : ckeeps P s1 s2 → ckeeps P s2 s3 → ckeeps P s1 s3.
Proof.
  intros (_ & Hq1 & H1) (Hi & Hq2 & H2). split; [done|]. split; [auto|].
  intros p Hp. destruct (H2 p Hp) as (-> & -> & ? & ? & ? & ?).
  destruct (H1 p Hp) as (-> & -> & ? & ? & ? & ?). naive_solver.
Qed.

Lemma inode_at_handle s f p :
  crash_handle s f p → ∃ x, inodes s !! cf_inode f = Some x ∧ inode_at s p = Some x.
Proof.
  intros [Hv [x Hx]]. exists x. split; [done|]. unfold inode_at. by rewrite Hv.
Qed.

(** The shape every file operation has: after an optional hook call the
    handle's inode is replaced by [x]. *)
Lemma file_op_spec s s1 f p x :
  crash_inv s → crash_handle s f p → s1 = s ∨ s1 = count_call s ∨ s1 = count_call (count_call s) →
  let s' := set_inodes <[cf_inode f := x]> s1 in
  ckeeps (λ q, q ≠ p) s s' ∧ crash_handle s' f p ∧ inode_at s' p = Some x.
Proof.
  intros Hinv [Hv Hi] Hs1. cbv zeta.
  assert (crash_inv s1 ∧ ckeeps (λ q, q ≠ p) s s1) as [Hinv1 Hk1].
  { destruct Hs1 as [->|[->| ->]].
    - split; [done|]. by apply same_path_keeps.
    - split; [by apply count_call_inv|]. apply called_keeps; auto.
    - split; [by do 2 apply count_call_inv|].
      eapply ckeeps_trans; apply called_keeps; auto using count_call_inv. }
  assert (volatile s1 p = Some (cf_inode f) ∧ is_Some (inodes s1 !! cf_inode f)) as [Hv1 Hi1]
    by (destruct Hs1 as [->|[->| ->]]; done).
  split; [|split].
  - eapply ckeeps_trans; [done|]. by apply set_inode_keeps.
  - split; [done|]. simpl. rewrite lookup_insert_eq. by eexists.
  - unfold inode_at. change (volatile (set_inodes _ s1) p) with (volatile s1 p).
    rewrite Hv1. simpl. by rewrite lookup_insert_eq.
Qed.

Lemma set_inode_same s i x : inodes s !! i = Some x → set_inodes <[i := x]> s = s.
Proof. intros Hi. destruct s. unfold set_inodes. simpl in *. f_equal. by apply insert_id. Qed.

(** *** Neutral operations *)

Lemma resize_same bs : resize (length bs) bs = bs.
Proof. unfold resize. rewrite take_ge, Nat.sub_diag by lia. apply app_nil_r. Qed.

Lemma write_range_same bs o src :
  (o + length src ≤ length bs)%nat → src = take (length src) (drop o bs) → write_range bs o src = bs.
Proof.
  intros Hle Hsrc. unfold write_range. rewrite (proj2 (Nat.ltb_ge _ _)) by lia.
  rewrite Hsrc at 1. rewrite <- (drop_drop bs (length src) o), take_drop. apply take_drop.
Qed.

Lemma apply_neutral bs p : neutral bs p → apply bs p = bs.
Proof. destruct p as [o src|n]; simpl; [intros [? ?]; by apply write_range_same|intros ->; apply resize_same]. Qed.

Lemma neutral_foldl bs ps : Forall (neutral bs) ps → foldl apply bs ps = bs.
Proof. induction 1 as [|p ps Hp _ IH]; simpl; [done|]. by rewrite apply_neutral. Qed.

Lemma clean_as_dirty bs x : clean_as bs x → durable_after_sync x = bs.
Proof. intros (Hd & _ & Hp). unfold durable_after_sync. rewrite Hd. by apply neutral_foldl. Qed.

(** A part of a neutral write is neutral. *)
Lemma neutral_take bs o src k : neutral bs (PWrite o src) → neutral bs (PWrite o (take k src)).
Proof.
  intros [Hle Hsrc]. split; [rewrite length_take; lia|].
  rewrite length_take, Hsrc at 1. rewrite take_take. done.
Qed.

Lemma neutral_drop bs o src k :
  (k ≤ length src)%nat → neutral bs (PWrite o src) → neutral bs (PWrite (o + k) (drop k src)).
Proof.
  intros Hk [Hle Hsrc]. split; [rewrite length_drop; lia|].
  rewrite length_drop, Hsrc at 1. rewrite skipn_firstn_comm, drop_drop. done.
Qed.

Lemma apply_torn_neutral bs o src gran c : neutral bs (PWrite o src) → apply_torn bs o src gran c = bs.
Proof.
  intros Hn. unfold apply_torn. destruct src as [|b src']; [done|].
  set (src := b :: src') in *. set (cuts := 0%nat :: _).
  destruct c as [| |k|k]; [done|done| |].
  - apply (apply_neutral bs (PWrite o (take (nth (k mod (length cuts - 1)) cuts 0%nat) src))).
    by apply neutral_take.
  - set (he := nth (S _) cuts _). set (hs := nth (_ mod _) cuts _).
    assert (write_range bs o (take hs src) = bs) as ->
      by (apply (apply_neutral bs (PWrite o (take hs src))); by apply neutral_take).
    destruct (Nat.ltb_spec he (length src)) as [Hlt|_].
    + apply (apply_neutral bs (PWrite (o + he) (drop he src))). apply neutral_drop; [lia|done].
    + destruct Hn as [Hle _]. by rewrite (proj2 (Nat.ltb_ge _ _)).
Qed.

Lemma persist_neutral t c bs k ps :
  Forall (neutral bs) ps → persist_pending t c bs k ps = bs.
Proof.
  intros Hps. revert k. induction Hps as [|p ps Hp _ IH]; intros k; simpl; [done|].
  match goal with |- persist_pending _ _ ?d _ _ = _ => assert (d = bs) as -> end; [|apply IH].
  destruct (c k); [done|by apply apply_neutral| |];
    (destruct t as [gran|], p as [o src|n];
      [by apply apply_torn_neutral|by apply apply_neutral..]).
Qed.

(** *** Operations beside a range *)

Lemma resize_lookup n data i b : data !! i = Some b → (i < n)%nat → resize n data !! i = Some b.
Proof.
  intros Hi Hn. unfold resize. apply lookup_app_l_Some. by rewrite lookup_take_lt.
Qed.

Lemma write_range_lookup data o src i b :
  data !! i = Some b →
  write_range data o src !! i =
  if decide (o ≤ i < o + length src)%nat then src !! (i - o)%nat else Some b.
Proof.
  intros Hi. unfold write_range.
  set (d := if (length data <? o + length src)%nat then _ else data).
  pose proof (lookup_lt_Some _ _ _ Hi) as Hlt.
  assert (d !! i = Some b ∧ (o + length src ≤ length d)%nat) as [Hd Hlen].
  { unfold d. destruct (Nat.ltb_spec (length data) (o + length src)); [|done].
    split; [by apply resize_lookup; [|lia]|]. unfold resize. rewrite length_app, length_take, length_zeros. lia. }
  assert (length (take o d) = o) as Hto by (rewrite length_take; lia).
  case_decide as Hc.
  - rewrite lookup_app_r by lia. rewrite Hto. rewrite lookup_app_l by lia. done.
  - destruct (decide (i < o)%nat).
    + rewrite lookup_app_l by lia. by rewrite lookup_take_lt.
    + rewrite lookup_app_r, lookup_app_r by lia. rewrite Hto, lookup_drop. by rewrite <- Hd; f_equal; lia.
Qed.

Lemma apply_holds off bs p data :
  harmless_at off bs p → holds_at off bs data → holds_at off bs (apply data p).
Proof.
  intros Hh Hp i b Hi. pose proof (Hp _ _ Hi) as Hd. pose proof (lookup_lt_Some _ _ _ Hi) as Hlt.
  destruct p as [o src|n]; simpl in *; [|apply resize_lookup; [done|lia]].
  rewrite (write_range_lookup _ _ _ _ b) by done. case_decide as Hc; [|done].
  destruct (src !! (off + i - o)%nat) as [c|] eqn:Hs; [|apply lookup_ge_None in Hs; lia].
  specialize (Hh _ _ Hs ltac:(lia)). replace (o + (off + i - o) - off)%nat with i in Hh by lia. congruence.
Qed.

Lemma holds_foldl off bs data ps :
  Forall (harmless_at off bs) ps → holds_at off bs data → holds_at off bs (foldl apply data ps).
Proof.
  intros Hps. revert data. induction Hps as [|p ps Hp _ IH]; intros data Hd; [done|].
  simpl. by apply IH, apply_holds.
Qed.

Lemma harmless_take off bs o src k : harmless_at off bs (PWrite o src) → harmless_at off bs (PWrite o (take k src)).
Proof. intros Hh i b [Hi _]%lookup_take_Some. by apply Hh. Qed.

Lemma harmless_drop off bs o src k :
  harmless_at off bs (PWrite o src) → harmless_at off bs (PWrite (o + k) (drop k src)).
Proof.
  intros Hh i b. rewrite lookup_drop. intros Hi Hlt. rewrite <- Nat.add_assoc in *. by apply Hh.
Qed.

Lemma resize_holds off bs n data : (length data ≤ n)%nat → holds_at off bs data → holds_at off bs (resize n data).
Proof.
  intros Hn Hp i b Hi. specialize (Hp _ _ Hi). apply resize_lookup; [done|].
  apply lookup_lt_Some in Hp. lia.
Qed.

Lemma torn_holds off bs data o src gran c :
  harmless_at off bs (PWrite o src) → holds_at off bs data → holds_at off bs (apply_torn data o src gran c).
Proof.
  intros Hn Hp. unfold apply_torn. destruct src as [|b src']; [done|].
  set (src := b :: src') in *. set (cuts := 0%nat :: _).
  destruct c as [| |k|k]; [done|done| |].
  - apply (apply_holds off bs (PWrite o (take _ src))); [by apply harmless_take|done].
  - set (he := nth (S _) cuts _). set (hs := nth (_ mod _) cuts _).
    assert (holds_at off bs (write_range data o (take hs src))) as Hp1
      by (apply (apply_holds off bs (PWrite o (take hs src))); [by apply harmless_take|done]).
    destruct (Nat.ltb_spec he (length src)) as [Hlt|_].
    + apply (apply_holds off bs (PWrite (o + he) (drop he src))); [by apply harmless_drop|done].
    + destruct (Nat.ltb_spec (length (write_range data o (take hs src))) (o + length src)); [|done].
      apply resize_holds; [lia|done].
Qed.

Lemma persist_holds t c off bs data k ps :
  Forall (harmless_at off bs) ps → holds_at off bs data → holds_at off bs (persist_pending t c data k ps).
Proof.
  intros Hps. revert data k. induction Hps as [|p ps Hp _ IH]; intros data k Hd; simpl; [done|].
  apply IH. destruct (c k); [done|by apply apply_holds| |];
    (destruct t as [gran|], p as [o src|n]; [by apply torn_holds|by apply apply_holds..]).
Qed.

(** A write beside the range, a length beyond it. *)
Lemma harmless_beside off bs o src :
  (o + length src ≤ off ∨ off + length bs ≤ o)%nat → harmless_at off bs (PWrite o src).
Proof. intros Hd i b Hi Hlt. apply lookup_lt_Some in Hi. lia. Qed.

Lemma push_anchored off bs x p : anchored off bs x → harmless_at off bs p → anchored off bs (push_pending p x).
Proof. intros [Hd Hp] Hh. split; [done|]. apply Forall_app_2; [done|]. by repeat constructor. Qed.

(** *** Operations behind a prefix *)

Lemma apply_harmless pre p data :
  harmless pre p → pre `prefix_of` data → pre `prefix_of` apply data p.
Proof. rewrite !prefix_holds. apply apply_holds. Qed.

Lemma harmless_foldl pre data ps :
  Forall (harmless pre) ps → pre `prefix_of` data → pre `prefix_of` foldl apply data ps.
Proof. rewrite !prefix_holds. apply holds_foldl. Qed.

Lemma persist_harmless t c pre data k ps :
  Forall (harmless pre) ps → pre `prefix_of` data → pre `prefix_of` persist_pending t c data k ps.
Proof. rewrite !prefix_holds. apply persist_holds. Qed.

(** A neutral operation is harmless to every range of the content. *)
Lemma neutral_harmless_at content off bs p :
  neutral content p → holds_at off bs content → harmless_at off bs p.
Proof.
  intros Hn Hp. destruct p as [o src|n]; simpl in *; [|subst n; apply holds_at_length; by apply Hp].
  destruct Hn as [_ Hsrc]. intros i b Hi Hlt.
  destruct (bs !! (o + i - off)%nat) as [c|] eqn:Hc; [|apply lookup_ge_None in Hc; lia].
  pose proof (Hp _ _ Hc) as Hb. rewrite Hsrc in Hi.
  apply lookup_take_Some in Hi as [Hi _]. rewrite lookup_drop in Hi.
  replace (off + (o + i - off))%nat with (o + i)%nat in Hb by lia. congruence.
Qed.

Lemma neutral_harmless bs pre p : neutral bs p → pre `prefix_of` bs → harmless pre p.
Proof.
  intros Hn Hp. eapply neutral_harmless_at; [done|by apply prefix_holds].
Qed.

Lemma harmless_prefix pre pre' p : pre' `prefix_of` pre → harmless pre p → harmless pre' p.
Proof.
  intros Hp. pose proof (prefix_length _ _ Hp). destruct p as [o src|n]; simpl; [|lia].
  intros Hh i b Hi Hlt. destruct (pre' !! (o + i - 0)%nat) as [c|] eqn:Hc; [|apply lookup_ge_None in Hc; lia].
  pose proof (prefix_lookup_Some _ _ _ _ Hc Hp) as Hb. rewrite (Hh i b Hi) in Hb by lia. congruence.
Qed.

(** An inode clean as one content is based on the same prefixes as another
    one clean as it. *)
Lemma clean_based_on bs x x' pre :
  clean_as bs x → clean_as bs x' → based_on pre x → based_on pre x'.
Proof.
  intros (Hd & Hi & _) (Hd' & Hi' & Hp') (Hb & _ & _). rewrite Hd in Hb.
  split; [congruence|]. split; [congruence|]. eapply list.Forall_impl; [exact Hp'|]. intros p Hn.
  by eapply neutral_harmless.
Qed.

Lemma based_on_nil x : based_on [] x.
Proof.
  split; [apply prefix_nil|]. split; [apply prefix_nil|]. apply list.Forall_true.
  intros [o src|n]; simpl; [intros i b _; lia|lia].
Qed.

Lemma push_based_on pre x p : based_on pre x → harmless pre p → based_on pre (push_pending p x).
Proof.
  intros (Hd & Hi & Hp) Hh. split; [done|]. split; [by apply apply_harmless|].
  apply Forall_app_2; [done|]. by repeat constructor.
Qed.

(** Replacing the inode of a synced path by one that is still clean as the
    same content changes nothing any path shows. *)
Lemma clean_op_keeps s s1 f p bs x x' :
  crash_inv s → crash_handle s f p → s1 = s ∨ s1 = count_call s ∨ s1 = count_call (count_call s) →
  inode_at s p = Some x → clean_as bs x → clean_as bs x' →
  ckeeps (λ _, True) s (set_inodes <[cf_inode f := x']> s1).
Proof.
  intros Hinv Hh Hs1 Hx Hc Hc'.
  destruct (file_op_spec s s1 f p x' Hinv Hh Hs1) as ((Hi & Hq & Hk) & Hh' & Hat).
  set (s' := set_inodes _ s1) in *. split; [done|]. split; [done|]. intros q _.
  destruct (decide (q = p)) as [->|Hne]; [|by apply Hk].
  assert (names s' = names s) as Hns by (by destruct Hs1 as [->|[->| ->]]).
  unfold crash_vis, crash_dirty, crash_stable, crash_synced, crash_absent, crash_handle, crash_solid,
    crash_pinned, volatile.
  rewrite Hat, Hx, Hns. simpl. rewrite (clean_as_dirty bs x), (clean_as_dirty bs x') by done.
  assert (∀ pre, based_on pre x → based_on pre x') as Hbo by (intros pre; by apply (clean_based_on bs)).
  destruct Hc as (Hd & Himg & Hp), Hc' as (Hd' & Himg' & Hp').
  split; [congruence|]. split; [done|].
  assert (∀ bs0, (∃ y, Some x = Some y ∧ clean_as bs0 y) → ∃ y, Some x' = Some y ∧ clean_as bs0 y) as Hsy.
  { intros bs0 (y & [= <-] & (Hdy & ? & ?)). exists x'. split; [done|].
    assert (bs0 = bs) as -> by congruence. done. }
  split; [done|]. split; [intros bs0 [Hs ?]; auto|]. split; [done|]. split; cycle 1.
  { split; [intros pre [(y & [= <-] & Hy) Hn]; split; [|done]; exists x'; auto|].
    intros off bs0 [(y & [= <-] & [Ha _]) Hn]. split; [|done]. exists x'. split; [done|].
    split; [by rewrite Hd', <- Hd|]. eapply list.Forall_impl; [exact Hp'|]. intros q Hneu.
    eapply neutral_harmless_at; [exact Hneu|]. by rewrite <- Hd. }
  intros g [Hg _]. split; [done|]. destruct Hh as [Hv _]. unfold volatile in Hv.
  rewrite Hv in Hg. injection Hg as <-. apply Hh'.
Qed.

(** *** File operations *)

Lemma crash_len_spec s f p c r s' :
  crash_handle s f p → crash_vis s p = Some c → crash_len f s = (r, s') →
  s' = s ∧ r = Ok (blen c).
Proof.
  intros Hh Hc. destruct (inode_at_handle _ _ _ Hh) as (x & Hx & Hat).
  unfold crash_vis in Hc. rewrite Hat in Hc. injection Hc as <-.
  unfold crash_len, with_inode. rewrite Hx. intros [= <- <-]. by rewrite set_inode_same.
Qed.

Lemma crash_read_spec s f p c o n r s' :
  crash_handle s f p → crash_vis s p = Some c → crash_read_at f o n s = (r, s') →
  s' = s ∧ r = ok_or (read_range c o n) UnexpectedEof.
Proof.
  intros Hh Hc. destruct (inode_at_handle _ _ _ Hh) as (x & Hx & Hat).
  unfold crash_vis in Hc. rewrite Hat in Hc. injection Hc as <-.
  unfold crash_read_at, with_inode. rewrite Hx.
  destruct (read_range _ _ _); intros [= <- <-]; by rewrite set_inode_same.
Qed.

Lemma push_pending_dirty p i :
  durable_after_sync (push_pending p i) = apply (durable_after_sync i) p.
Proof. unfold durable_after_sync, push_pending. simpl. by rewrite foldl_app. Qed.

Lemma crash_set_len_spec s f p c d n r s' :
  crash_inv s → crash_handle s f p → crash_vis s p = Some c → crash_dirty s p = Some d →
  crash_set_len f n s = (r, s') →
  ckeeps (λ q, q ≠ p) s s' ∧ crash_handle s' f p ∧
  (r = Ok tt → crash_vis s' p = Some (resize (Z.to_nat n) c) ∧
               crash_dirty s' p = Some (resize (Z.to_nat n) d)) ∧
  (crash_quiet s → r = Ok tt).
Proof.
  intros Hinv Hh Hc Hd. destruct (inode_at_handle _ _ _ Hh) as (x & Hx & Hat).
  unfold crash_vis, crash_dirty in *. rewrite Hat in *. injection Hc as <-. injection Hd as <-.
  unfold crash_set_len, with_inode. rewrite Hx.
  destruct (check _ s) as [[[]|e] s1] eqn:Hck; intros [= <- <-];
    apply check_spec in Hck as (Hs1 & _ & Hq); [| done | | done].
  - destruct (file_op_spec s s1 f p (push_pending (PSetLen (Z.to_nat n)) x)) as (? & ? & Hat');
      [done|done|naive_solver|].
    split; [done|]. split; [done|]. split; [|done]. intros _. rewrite Hat'. simpl.
    by rewrite push_pending_dirty.
  - destruct (file_op_spec s s1 f p x) as (? & ? & Hat'); [done|done|naive_solver|].
    split; [done|]. split; [done|]. split; [done|]. intros Hqs. by apply Hq in Hqs.
Qed.

Lemma write_range_nil data o : (o ≤ length data)%nat → write_range data o [] = data.
Proof.
  intros Ho. unfold write_range. simpl. rewrite Nat.add_0_r.
  rewrite (proj2 (Nat.ltb_ge _ _)) by lia. apply take_drop.
Qed.

Lemma crash_write_spec s f p c d o data r s' :
  crash_inv s → crash_handle s f p → crash_vis s p = Some c → crash_dirty s p = Some d →
  data ≠ [] → crash_write_at f o data s = (r, s') →
  ckeeps (λ q, q ≠ p) s s' ∧ crash_handle s' f p ∧
  (r = Ok tt → crash_vis s' p = Some (write_range c (Z.to_nat o) data) ∧
               crash_dirty s' p = Some (write_range d (Z.to_nat o) data)) ∧
  (crash_quiet s → r = Ok tt).
Proof.
  intros Hinv Hh Hc Hd Hne. destruct (inode_at_handle _ _ _ Hh) as (x & Hx & Hat).
  unfold crash_vis, crash_dirty in *. rewrite Hat in *. injection Hc as <-. injection Hd as <-.
  unfold crash_write_at, with_inode. rewrite Hx.
  destruct (check _ s) as [[[]|e] s1] eqn:Hck;
    apply check_spec in Hck as (Hs1 & _ & Hq); try done.
  - assert (∀ s2 y, (s2 = s1 ∨ s2 = count_call s1) →
      let s' := set_inodes <[cf_inode f := y]> s2 in
      ckeeps (λ q, q ≠ p) s s' ∧ crash_handle s' f p ∧ inode_at s' p = Some y) as Hop.
    { intros s2 y Hs2. apply file_op_spec; [done|done|]. destruct Hs1, Hs2; subst; auto. }
    destruct (partial_hook s1) as [h|] eqn:Hph.
    + destruct (h (calls s1) _) as [[n e]|] eqn:Hp; intros [= <- <-].
      * edestruct (Hop (count_call s1)) as (? & ? & Hat'); [by right|].
        split; [done|]. split; [done|]. split; [done|]. intros [_ Hpn].
        destruct Hs1; subst s1; simpl in Hph; congruence.
      * edestruct (Hop (count_call s1)) as (? & ? & Hat'); [by right|].
        split; [done|]. split; [done|]. split; [|done]. intros _. rewrite Hat'.
        destruct data; [done|]. simpl. by rewrite push_pending_dirty.
    + intros [= <- <-]. edestruct (Hop s1) as (? & ? & Hat'); [by left|].
      split; [done|]. split; [done|]. split; [|done]. intros _. rewrite Hat'.
      destruct data; [done|]. simpl. by rewrite push_pending_dirty.
  - intros [= <- <-]. destruct (file_op_spec s s1 f p x) as (? & ? & Hat'); [done|done|naive_solver|].
    split; [done|]. split; [done|]. split; [done|]. intros Hqs. by apply Hq in Hqs.
Qed.

Lemma crash_write_nil s f p o r s' :
  crash_inv s → crash_handle s f p → crash_write_at f o [] s = (r, s') → ckeeps (λ _, True) s s'.
Proof.
  intros Hinv Hh. destruct (inode_at_handle _ _ _ Hh) as (x & Hx & Hat).
  assert (∀ s1, s1 = s ∨ s1 = count_call s → ckeeps (λ _, True) s (set_inodes <[cf_inode f := x]> s1)) as Hop.
  { intros s1 [->| ->]; (rewrite set_inode_same; [|done]); apply called_keeps; auto. }
  unfold crash_write_at, with_inode. rewrite Hx.
  destruct (check _ s) as [[[]|e] s1] eqn:Hck; apply check_spec in Hck as (Hs1 & _ & _); try done;
    [|intros [= <- <-]; by apply Hop].
  assert (ckeeps (λ _, True) s (set_inodes <[cf_inode f := x]> (count_call s1))) as Hop2.
  { rewrite set_inode_same by (by destruct Hs1 as [->| ->]).
    eapply ckeeps_trans; [by apply called_keeps|]. apply called_keeps; [|by right].
    destruct Hs1 as [->| ->]; [done|by apply count_call_inv]. }
  destruct (partial_hook s1) as [h|]; [|intros [= <- <-]; by apply Hop].
  destruct (h (calls s1) _) as [[n e]|]; [|intros [= <- <-]; by apply Hop2].
  rewrite take_nil. intros [= <- <-]. by apply Hop2.
Qed.

Lemma crash_sync_data_spec s f p c r s' :
  crash_inv s → crash_handle s f p → crash_vis s p = Some c → crash_sync_data f s = (r, s') →
  ckeeps (λ q, q ≠ p) s s' ∧ crash_handle s' f p ∧ crash_vis s' p = Some c ∧
  (r = Ok tt → crash_dirty s p = Some c → crash_synced s' p c) ∧ (crash_quiet s → r = Ok tt).
Proof.
  intros Hinv Hh Hc. destruct (inode_at_handle _ _ _ Hh) as (x & Hx & Hat).
  unfold crash_vis, crash_dirty, crash_synced in *. rewrite Hat in *. injection Hc as <-.
  unfold crash_sync_data, with_inode. rewrite Hx.
  destruct (check _ s) as [[[]|e] s1] eqn:Hck; intros [= <- <-];
    apply check_spec in Hck as (Hs1 & _ & Hq); [| done | | done].
  - edestruct (file_op_spec s s1 f p) as (? & ? & Hat'); [done|done|naive_solver|].
    split; [done|]. split; [done|]. rewrite Hat'. split; [done|]. split; [|done].
    intros _ [= Hd]. eexists. split; [done|]. by rewrite Hd.
  - edestruct (file_op_spec s s1 f p) as (? & ? & Hat'); [done|done|naive_solver|].
    split; [done|]. split; [done|]. rewrite Hat'. split; [by destruct (lenient_sync_failures s1)|].
    split; [done|]. intros Hqs. by apply Hq in Hqs.
Qed.

(** *** Rewriting what is there *)

Lemma crash_set_len_same s f p bs r s' :
  crash_inv s → crash_handle s f p → crash_synced s p bs → crash_set_len f (blen bs) s = (r, s') →
  ckeeps (λ _, True) s s'.
Proof.
  intros Hinv Hh (x & Hat & Hc). destruct (inode_at_handle _ _ _ Hh) as (x' & Hx & Hat').
  rewrite Hat in Hat'. injection Hat' as <-. unfold crash_set_len, with_inode. rewrite Hx.
  destruct (check _ s) as [[[]|e] s1] eqn:Hck; intros [= <- <-];
    apply check_spec in Hck as (Hs1 & _ & _); try done;
    (eapply clean_op_keeps; [done|done|naive_solver|done|done|]); [|done].
  destruct Hc as (? & Himg & Hp). split; [done|]. simpl. rewrite Himg. unfold blen. rewrite Nat2Z.id.
  split; [apply resize_same|]. apply Forall_app_2; [done|]. by repeat constructor.
Qed.

Lemma neutral_prefix bs k : neutral bs (PWrite 0 (take k bs)).
Proof.
  apply (neutral_take bs 0 bs k). split; [lia|]. by rewrite drop_0, firstn_all.
Qed.

Lemma push_neutral_clean bs x p : clean_as bs x → neutral bs p → clean_as bs (push_pending p x).
Proof.
  intros (? & Himg & Hp) Hn. split; [done|]. simpl. rewrite Himg. split; [by apply apply_neutral|].
  apply Forall_app_2; [done|]. by repeat constructor.
Qed.

Lemma crash_write_same s f p bs r s' :
  crash_inv s → crash_handle s f p → crash_synced s p bs → crash_write_at f 0 bs s = (r, s') →
  ckeeps (λ _, True) s s'.
Proof.
  intros Hinv Hh (x & Hat & Hc). destruct (inode_at_handle _ _ _ Hh) as (x' & Hx & Hat').
  rewrite Hat in Hat'. injection Hat' as <-. unfold crash_write_at, with_inode. rewrite Hx.
  assert (∀ k, clean_as bs match take k bs with [] => x | _ => push_pending (PWrite 0 (take k bs)) x end)
    as Hk by (intros k; pose proof (neutral_prefix bs k) as Hn; destruct (take k bs); [done|by apply push_neutral_clean]).
  destruct (check _ s) as [[[]|e] s1] eqn:Hck;
    apply check_spec in Hck as (Hs1 & _ & _); try done.
  - destruct (partial_hook s1) as [h|].
    + destruct (h (calls s1) _) as [[n e]|]; intros [= <- <-];
        (eapply clean_op_keeps; [done|done|naive_solver|done|done|]); [apply Hk|].
      specialize (Hk (length bs)). by rewrite firstn_all in Hk.
    + intros [= <- <-]. eapply clean_op_keeps; [done|done|naive_solver|done|done|].
      specialize (Hk (length bs)). by rewrite firstn_all in Hk.
  - intros [= <- <-]. eapply clean_op_keeps; [done|done|naive_solver|done|done|done].
Qed.

Lemma crash_sync_same s f p bs r s' :
  crash_inv s → crash_handle s f p → crash_synced s p bs → crash_sync_data f s = (r, s') →
  ckeeps (λ _, True) s s'.
Proof.
  intros Hinv Hh (x & Hat & Hc). destruct (inode_at_handle _ _ _ Hh) as (x' & Hx & Hat').
  rewrite Hat in Hat'. injection Hat' as <-. unfold crash_sync_data, with_inode. rewrite Hx.
  pose proof (clean_as_dirty _ _ Hc) as Hd. pose proof Hc as (? & ? & ?).
  destruct (check _ s) as [[[]|e] s1] eqn:Hck; intros [= <- <-];
    apply check_spec in Hck as (Hs1 & _ & _); try done;
    (eapply clean_op_keeps; [done|done|naive_solver|done|done|]).
  - by split.
  - destruct (lenient_sync_failures s1); [done|]. by split.
Qed.

(** *** Prefixes under file operations *)

Lemma file_op_solid s s1 f p x y pre :
  crash_inv s → crash_handle s f p → s1 = s ∨ s1 = count_call s ∨ s1 = count_call (count_call s) →
  inodes s !! cf_inode f = Some x → crash_solid s p pre → (based_on pre x → based_on pre y) →
  crash_solid (set_inodes <[cf_inode f := y]> s1) p pre.
Proof.
  intros Hinv Hh Hs1 Hx [(x' & Hx' & Hb) Hn] Hy. destruct (inode_at_handle _ _ _ Hh) as (z & Hz & Hat).
  rewrite Hx in Hz. injection Hz as <-. rewrite Hat in Hx'. injection Hx' as <-.
  destruct (file_op_spec s s1 f p y Hinv Hh Hs1) as (_ & _ & Hat').
  split; [exists y; split; [done|by apply Hy]|]. by destruct Hs1 as [->|[->| ->]].
Qed.

Lemma crash_set_len_solid s f p pre n r s' :
  crash_inv s → crash_handle s f p → crash_solid s p pre → blen pre ≤ n →
  crash_set_len f n s = (r, s') → crash_solid s' p pre.
Proof.
  intros Hinv Hh Hso Hn. destruct (inode_at_handle _ _ _ Hh) as (x & Hx & Hat).
  unfold crash_set_len, with_inode. rewrite Hx.
  destruct (check _ s) as [[[]|e] s1] eqn:Hck; intros [= <- <-];
    apply check_spec in Hck as (Hs1 & _ & _); try done;
    (eapply file_op_solid; [done|done|naive_solver|done|done|]); [|done].
  intros Hb. apply push_based_on; [done|]. unfold harmless, blen in *. lia.
Qed.

Lemma crash_write_solid s f p pre o data r s' :
  crash_inv s → crash_handle s f p → crash_solid s p pre → blen pre ≤ o →
  crash_write_at f o data s = (r, s') → crash_solid s' p pre.
Proof.
  intros Hinv Hh Hso Ho. destruct (inode_at_handle _ _ _ Hh) as (x & Hx & Hat).
  assert (∀ d, based_on pre x →
    based_on pre match d with [] => x | _ => push_pending (PWrite (Z.to_nat o) d) x end) as Hpush.
  { intros d Hb. destruct d; [done|]. apply push_based_on; [done|]. intros i b0 _ Hlt. unfold blen in Ho. lia. }
  unfold crash_write_at, with_inode. rewrite Hx.
  destruct (check _ s) as [[[]|e] s1] eqn:Hck; apply check_spec in Hck as (Hs1 & _ & _); try done.
  - destruct (partial_hook s1) as [h|].
    + destruct (h (calls s1) _) as [[n e]|]; intros [= <- <-];
        (eapply file_op_solid; [done|done|naive_solver|done|done|apply Hpush]).
    + intros [= <- <-]. eapply file_op_solid; [done|done|naive_solver|done|done|apply Hpush].
  - intros [= <- <-]. eapply file_op_solid; [done|done|naive_solver|done|done|done].
Qed.

Lemma crash_sync_solid s f p pre r s' :
  crash_inv s → crash_handle s f p → crash_solid s p pre → crash_sync_data f s = (r, s') →
  crash_solid s' p pre.
Proof.
  intros Hinv Hh Hso. destruct (inode_at_handle _ _ _ Hh) as (x & Hx & Hat).
  unfold crash_sync_data, with_inode. rewrite Hx.
  destruct (check _ s) as [[[]|e] s1] eqn:Hck; intros [= <- <-];
    apply check_spec in Hck as (Hs1 & _ & _); try done;
    (eapply file_op_solid; [done|done|naive_solver|done|done|]); intros (Hd & Hi & Hp).
  - split; [by apply harmless_foldl|]. by split.
  - destruct (lenient_sync_failures s1); by repeat split.
Qed.

(** Whatever its range, a punch leaves the directory entry durable. *)
Lemma crash_punch_solid s f p o n r s' :
  crash_inv s → crash_handle s f p → crash_solid s p [] → crash_punch_hole f o n s = (r, s') →
  crash_solid s' p [].
Proof.
  intros Hinv Hh Hso. destruct (inode_at_handle _ _ _ Hh) as (x & Hx & Hat).
  assert (∀ s1 y, s1 = s ∨ s1 = count_call s → crash_solid (set_inodes <[cf_inode f := y]> s1) p []) as Hop.
  { intros s1 y Hs1. eapply file_op_solid; [done|done|naive_solver|done|done|]. intros _. apply based_on_nil. }
  unfold crash_punch_hole, with_inode. rewrite Hx.
  destruct (checked_add o n) as [e|]; [|intros [= <- <-]; apply Hop; auto].
  destruct (_ <=? o); [intros [= <- <-]; apply Hop; auto|].
  destruct (check _ s) as [[[]|e'] s1] eqn:Hck; apply check_spec in Hck as (Hs1 & _ & _); try done;
    intros [= <- <-]; by apply Hop.
Qed.

(** The operations that may stop half way push one dirty operation or none. *)
Lemma pushed_torn s' p x y q (n : Z) :
  inode_at s' p = Some y → y = x ∨ y = push_pending q x →
  (∀ pre, blen pre ≤ n → harmless pre q) →
  ∃ c' d', crash_vis s' p = Some c' ∧ crash_dirty s' p = Some d' ∧
    (neutral (i_image x) q → c' = i_image x) ∧
    ∀ pre, blen pre ≤ n → (pre `prefix_of` i_image x → pre `prefix_of` c') ∧
      (pre `prefix_of` durable_after_sync x → pre `prefix_of` d').
Proof.
  intros Hat Hy Hq. exists (i_image y), (durable_after_sync y). unfold crash_vis, crash_dirty. rewrite Hat.
  split; [done|]. split; [done|]. destruct Hy as [->| ->]; [done|]. split; [apply apply_neutral|].
  intros pre Hn. rewrite push_pending_dirty. split; intros ?; apply apply_harmless; auto.
Qed.

Lemma crash_set_len_torn s f p c d n r s' :
  crash_inv s → crash_handle s f p → crash_vis s p = Some c → crash_dirty s p = Some d →
  crash_set_len f n s = (r, s') →
  ∃ c' d', crash_vis s' p = Some c' ∧ crash_dirty s' p = Some d' ∧ (n = blen c → c' = c) ∧
    ∀ pre, blen pre ≤ n → (pre `prefix_of` c → pre `prefix_of` c') ∧
      (pre `prefix_of` d → pre `prefix_of` d').
Proof.
  intros Hinv Hh Hc Hd Hr. destruct (inode_at_handle _ _ _ Hh) as (x & Hx & Hat).
  unfold crash_vis, crash_dirty in Hc, Hd. rewrite Hat in *. injection Hc as <-. injection Hd as <-.
  assert (∃ y, inode_at s' p = Some y ∧ (y = x ∨ y = push_pending (PSetLen (Z.to_nat n)) x)) as (y & Hy & Hor).
  { revert Hr. unfold crash_set_len, with_inode. rewrite Hx.
    destruct (check _ s) as [[[]|e] s1] eqn:Hck; intros [= <- <-];
      apply check_spec in Hck as (Hs1 & _ & _); try done;
      edestruct (file_op_spec s s1 f p) as (_ & _ & Hat'); [done|done|naive_solver| |done|done|naive_solver|];
      eexists; (split; [exact Hat'|]); auto. }
  destruct (pushed_torn s' p x y _ n Hy Hor) as (c' & d' & ? & ? & Hsame & Hpre).
  { intros pre Hn. unfold harmless, blen in *. lia. }
  exists c', d'. split; [done|]. split; [done|]. split; [|done]. intros ->. apply Hsame. unfold neutral, blen. lia.
Qed.

(** What a write leaves in the file's inode. *)
Lemma crash_write_inode s f p o data r s' x :
  crash_inv s → crash_handle s f p → inode_at s p = Some x → crash_write_at f o data s = (r, s') →
  ∃ y k, inode_at s' p = Some y ∧ names s' = names s ∧
    (y = x ∨ y = push_pending (PWrite (Z.to_nat o) (take k data)) x).
Proof.
  intros Hinv Hh Hat. destruct (inode_at_handle _ _ _ Hh) as (x' & Hx & Hat').
  rewrite Hat in Hat'. injection Hat' as <-.
  assert (∀ s1 wr k, s1 = s ∨ s1 = count_call s ∨ s1 = count_call (count_call s) → wr = take k data →
    let y := match wr with [] => x | _ => push_pending (PWrite (Z.to_nat o) wr) x end in
    ∃ y' k', inode_at (set_inodes <[cf_inode f := y]> s1) p = Some y' ∧
      names (set_inodes <[cf_inode f := y]> s1) = names s ∧
      (y' = x ∨ y' = push_pending (PWrite (Z.to_nat o) (take k' data)) x)) as Hwr.
  { intros s1 wr k Hs1 -> y. destruct (file_op_spec s s1 f p y Hinv Hh Hs1) as (_ & _ & Hat').
    exists y, k. split; [done|]. split; [by destruct Hs1 as [->|[->| ->]]|].
    unfold y. destruct (take k data); auto. }
  unfold crash_write_at, with_inode. rewrite Hx.
  destruct (check _ s) as [[[]|e] s1] eqn:Hck; apply check_spec in Hck as (Hs1 & _ & _); try done.
  - assert (s1 = s ∨ s1 = count_call s ∨ s1 = count_call (count_call s)) as Hs1' by naive_solver.
    assert (count_call s1 = s ∨ count_call s1 = count_call s ∨ count_call s1 = count_call (count_call s))
      as Hs2 by (destruct Hs1 as [->| ->]; auto).
    destruct (partial_hook s1) as [h|].
    + destruct (h (calls s1) _) as [[n e]|]; intros [= <- <-]; [by apply (Hwr _ _ n)|].
      apply (Hwr _ _ (length data)); [done|by rewrite firstn_all].
    + intros [= <- <-]. apply (Hwr _ _ (length data)); [done|by rewrite firstn_all].
  - intros [= <- <-]. destruct (Hwr s1 [] 0%nat) as (y & k & Hy); [naive_solver|done|]. eauto.
Qed.

Lemma crash_write_torn s f p c d o data r s' :
  crash_inv s → crash_handle s f p → crash_vis s p = Some c → crash_dirty s p = Some d → 0 ≤ o →
  crash_write_at f o data s = (r, s') →
  ∃ c' d', crash_vis s' p = Some c' ∧ crash_dirty s' p = Some d' ∧
    (read_range c o (blen data) = Some data → c' = c) ∧
    ∀ pre, blen pre ≤ o → (pre `prefix_of` c → pre `prefix_of` c') ∧
      (pre `prefix_of` d → pre `prefix_of` d').
Proof.
  intros Hinv Hh Hc Hd Ho Hr. destruct (inode_at_handle _ _ _ Hh) as (x & Hx & Hat).
  unfold crash_vis, crash_dirty in Hc, Hd. rewrite Hat in *. injection Hc as <-. injection Hd as <-.
  destruct (crash_write_inode _ _ _ _ _ _ _ _ Hinv Hh Hat Hr) as (y & k & Hy & _ & Hor).
  destruct (pushed_torn s' p x y _ o Hy Hor) as (c' & d' & ? & ? & Hsame & Hpre).
  { intros pre Hn i b _ Hlt. unfold blen in Hn. lia. }
  exists c', d'. split; [done|]. split; [done|]. split; [|done]. intros Hrr. apply Hsame, neutral_take.
  unfold read_range in Hrr. destruct (Z.leb_spec (o + blen data) (blen (i_image x))); [|done].
  injection Hrr as Hrr. unfold blen in *. split; [lia|]. rewrite Nat2Z.id in Hrr. done.
Qed.

(** Every byte outside a write's range is left alone. *)
Lemma length_write_range data o src :
  length (write_range data o src) = Nat.max (length data) (o + length src).
Proof.
  unfold write_range. destruct (Nat.ltb_spec (length data) (o + length src)).
  - rewrite !length_app, length_take, length_drop. unfold resize.
    rewrite length_app, length_take, length_zeros. lia.
  - rewrite !length_app, length_take, length_drop. lia.
Qed.

Lemma pushed_outside s' p x y o src :
  inode_at s' p = Some y → y = x ∨ y = push_pending (PWrite o src) x →
  ∃ c' d', crash_vis s' p = Some c' ∧ crash_dirty s' p = Some d' ∧ blen (i_image x) ≤ blen c' ∧
    ∀ off bs, (o + length src ≤ off ∨ off + length bs ≤ o)%nat →
      (holds_at off bs (i_image x) → holds_at off bs c') ∧
      (holds_at off bs (durable_after_sync x) → holds_at off bs d').
Proof.
  intros Hat Hy. exists (i_image y), (durable_after_sync y). unfold crash_vis, crash_dirty. rewrite Hat.
  split; [done|]. split; [done|]. destruct Hy as [->| ->]; [done|].
  split; [unfold blen; simpl; rewrite length_write_range; lia|].
  intros off bs Hd. rewrite push_pending_dirty.
  split; intros ?; (apply (apply_holds off bs (PWrite o src)); [by apply harmless_beside|done]).
Qed.

Lemma crash_write_outside s f p c d o data r s' :
  crash_inv s → crash_handle s f p → crash_vis s p = Some c → crash_dirty s p = Some d → 0 ≤ o →
  crash_write_at f o data s = (r, s') →
  ∃ c' d', crash_vis s' p = Some c' ∧ crash_dirty s' p = Some d' ∧ blen c ≤ blen c' ∧
    ∀ off bs, apart off bs o (blen data) →
      (holds_at off bs c → holds_at off bs c') ∧ (holds_at off bs d → holds_at off bs d').
Proof.
  intros Hinv Hh Hc Hd Ho Hr. destruct (inode_at_handle _ _ _ Hh) as (x & Hx & Hat).
  unfold crash_vis, crash_dirty in Hc, Hd. rewrite Hat in *. injection Hc as <-. injection Hd as <-.
  destruct (crash_write_inode _ _ _ _ _ _ _ _ Hinv Hh Hat Hr) as (y & k & Hy & _ & Hor).
  destruct (pushed_outside _ _ _ _ _ _ Hy Hor) as (c' & d' & ? & ? & ? & Hout).
  exists c', d'. split; [done|]. split; [done|]. split; [done|]. intros off bs Hap. apply Hout.
  unfold apart, blen in Hap. rewrite length_take. lia.
Qed.

(** A punched range is a write of zeros, cut at the end of the file. *)
Lemma crash_punch_inode s f p o n r s' x :
  crash_inv s → crash_handle s f p → inode_at s p = Some x → 0 ≤ o → 0 ≤ n → crash_punch_hole f o n s = (r, s') →
  ckeeps (λ q, q ≠ p) s s' ∧ crash_handle s' f p ∧ names s' = names s ∧
  ∃ y k, inode_at s' p = Some y ∧ Z.of_nat k ≤ n ∧
    (y = x ∨ o + Z.of_nat k ≤ blen (i_image x) ∧ y = push_pending (PWrite (Z.to_nat o) (zeros k)) x).
Proof.
  intros Hinv Hh Hat Ho Hn. destruct (inode_at_handle _ _ _ Hh) as (x' & Hx & Hat').
  rewrite Hat in Hat'. injection Hat' as <-.
  assert (∀ s1 y k, s1 = s ∨ s1 = count_call s → Z.of_nat k ≤ n →
    (y = x ∨ o + Z.of_nat k ≤ blen (i_image x) ∧ y = push_pending (PWrite (Z.to_nat o) (zeros k)) x) →
    let s' := set_inodes <[cf_inode f := y]> s1 in
    ckeeps (λ q, q ≠ p) s s' ∧ crash_handle s' f p ∧ names s' = names s ∧
    ∃ y k, inode_at s' p = Some y ∧ Z.of_nat k ≤ n ∧
      (y = x ∨ o + Z.of_nat k ≤ blen (i_image x) ∧
               y = push_pending (PWrite (Z.to_nat o) (zeros k)) x)) as Hop.
  { intros s1 y k Hs1 Hk Hy. destruct (file_op_spec s s1 f p y Hinv Hh ltac:(naive_solver)) as (? & ? & ?).
    split; [done|]. split; [done|]. split; [by destruct Hs1 as [->| ->]|]. by exists y, k. }
  unfold crash_punch_hole, with_inode. rewrite Hx.
  assert (Z.of_nat 0 ≤ n) as H0 by lia.
  destruct (checked_add o n) as [e|] eqn:He; [|intros [= <- <-]; apply (Hop s x 0%nat); auto].
  apply checked_add_some in He as [-> _].
  destruct (Z.leb_spec (Z.min (o + n) (blen (i_image x))) o); [intros [= <- <-]; apply (Hop s x 0%nat); auto|].
  destruct (check _ s) as [[[]|e] s1] eqn:Hck; apply check_spec in Hck as (Hs1 & _ & _); try done;
    intros [= <- <-]; [|by apply (Hop s1 x 0%nat); auto].
  eapply Hop; [done| |right; split; [|done]]; lia.
Qed.

Lemma crash_punch_spec s f p c d o n r s' :
  crash_inv s → crash_handle s f p → crash_vis s p = Some c → crash_dirty s p = Some d → 0 ≤ o → 0 ≤ n →
  crash_punch_hole f o n s = (r, s') →
  ckeeps (λ q, q ≠ p) s s' ∧ crash_handle s' f p ∧
  ∃ c' d', crash_vis s' p = Some c' ∧ crash_dirty s' p = Some d' ∧ blen c = blen c' ∧
    ∀ off bs, apart off bs o n →
      (holds_at off bs c → holds_at off bs c') ∧ (holds_at off bs d → holds_at off bs d').
Proof.
  intros Hinv Hh Hc Hd Ho Hn Hr. destruct (inode_at_handle _ _ _ Hh) as (x & Hx & Hat).
  unfold crash_vis, crash_dirty in Hc, Hd. rewrite Hat in *. injection Hc as <-. injection Hd as <-.
  destruct (crash_punch_inode _ _ _ _ _ _ _ _ Hinv Hh Hat Ho Hn Hr) as (Hk & Hh' & _ & y & k & Hy & Hkn & Hor).
  split; [done|]. split; [done|].
  destruct (pushed_outside _ _ _ _ (Z.to_nat o) (zeros k) Hy ltac:(naive_solver)) as (c' & d' & Hc & ? & ? & Hout).
  exists c', d'. split; [done|]. split; [done|]. split.
  { unfold crash_vis in Hc. rewrite Hy in Hc. injection Hc as <-. destruct Hor as [->|[Hle ->]]; [done|].
    unfold blen in *. simpl. rewrite length_write_range, length_zeros. lia. }
  intros off bs Hap. apply Hout. unfold apart, blen in Hap. rewrite length_zeros. lia.
Qed.

(** A length change adds zeros. *)
Lemma resize_zeros n data i b : resize n data !! i = Some b → data !! i = Some b ∨ b = Init.Byte.x00.
Proof.
  unfold resize. intros Hi. apply lookup_app_Some in Hi as [[Hi _]%lookup_take_Some|[_ Hi]]; [by left|right].
  unfold zeros in Hi. by apply lookup_replicate in Hi as [-> _].
Qed.

Lemma crash_set_len_zeros s f p c n r s' :
  crash_inv s → crash_handle s f p → crash_vis s p = Some c → crash_set_len f n s = (r, s') →
  ∃ c', crash_vis s' p = Some c' ∧ ∀ i b, c' !! i = Some b → c !! i = Some b ∨ b = Init.Byte.x00.
Proof.
  intros Hinv Hh Hc. destruct (inode_at_handle _ _ _ Hh) as (x & Hx & Hat).
  unfold crash_vis in *. rewrite Hat in Hc. injection Hc as <-.
  unfold crash_set_len, with_inode. rewrite Hx.
  destruct (check _ s) as [[[]|e] s1] eqn:Hck; intros [= <- <-];
    apply check_spec in Hck as (Hs1 & _ & _); try done;
    (edestruct (file_op_spec s s1 f p) as (_ & _ & Hat'); [done|done|naive_solver|]);
    rewrite Hat'; eexists; (split; [done|]); [intros i b; apply resize_zeros|auto].
Qed.

(** *** What is pinned *)

Lemma pinned_op s s' p x y off bs :
  names s' = names s → inode_at s p = Some x → inode_at s' p = Some y →
  (anchored off bs x → anchored off bs y) → crash_pinned s p off bs → crash_pinned s' p off bs.
Proof.
  intros Hn Hx Hy Ha [(x' & Hx' & Hanch) Hnm]. rewrite Hx in Hx'. injection Hx' as <-.
  split; [by exists y; auto|]. by rewrite Hn.
Qed.

Lemma crash_write_pinned s f p off bs o data r s' :
  crash_inv s → crash_handle s f p → crash_pinned s p off bs → 0 ≤ o → apart off bs o (blen data) →
  crash_write_at f o data s = (r, s') → crash_pinned s' p off bs.
Proof.
  intros Hinv Hh Hp Ho Hap Hr. destruct (inode_at_handle _ _ _ Hh) as (x & _ & Hat).
  destruct (crash_write_inode _ _ _ _ _ _ _ _ Hinv Hh Hat Hr) as (y & k & Hy & Hn & Hor).
  eapply (pinned_op s); [done|done|done| |done]. destruct Hor as [->| ->]; [done|]. intros Ha.
  apply push_anchored; [done|]. apply harmless_beside. unfold apart, blen in Hap. rewrite length_take. lia.
Qed.

Lemma crash_punch_pinned s f p off bs o n r s' :
  crash_inv s → crash_handle s f p → crash_pinned s p off bs → 0 ≤ o → 0 ≤ n → apart off bs o n →
  crash_punch_hole f o n s = (r, s') → crash_pinned s' p off bs.
Proof.
  intros Hinv Hh Hp Ho Hnn Hap Hr. destruct (inode_at_handle _ _ _ Hh) as (x & _ & Hat).
  destruct (crash_punch_inode _ _ _ _ _ _ _ _ Hinv Hh Hat Ho Hnn Hr) as (_ & _ & Hn & y & k & Hy & Hkn & Hor).
  eapply (pinned_op s); [done|done|done| |done]. destruct Hor as [->|[_ ->]]; [done|]. intros Ha.
  apply push_anchored; [done|]. apply harmless_beside. unfold apart, blen in Hap. rewrite length_zeros. lia.
Qed.

Lemma crash_set_len_pinned s f p off bs n r s' :
  crash_inv s → crash_handle s f p → crash_pinned s p off bs → Z.of_nat off + blen bs ≤ n →
  crash_set_len f n s = (r, s') → crash_pinned s' p off bs.
Proof.
  intros Hinv Hh Hp Hle. destruct (inode_at_handle _ _ _ Hh) as (x & Hx & Hat).
  unfold crash_set_len, with_inode. rewrite Hx.
  destruct (check _ s) as [[[]|e] s1] eqn:Hck; intros [= <- <-];
    apply check_spec in Hck as (Hs1 & _ & _); try done;
    (edestruct (file_op_spec s s1 f p) as (_ & _ & Hat'); [done|done|naive_solver|]);
    (eapply (pinned_op s); [by destruct Hs1 as [->| ->]|done|exact Hat'| |done]); [|done].
  intros Ha. apply push_anchored; [done|]. unfold harmless_at, blen in *. lia.
Qed.

Lemma crash_sync_pinned s f p off bs r s' :
  crash_inv s → crash_handle s f p → crash_pinned s p off bs → crash_sync_data f s = (r, s') →
  crash_pinned s' p off bs.
Proof.
  intros Hinv Hh Hp. destruct (inode_at_handle _ _ _ Hh) as (x & Hx & Hat).
  unfold crash_sync_data, with_inode. rewrite Hx.
  destruct (check _ s) as [[[]|e] s1] eqn:Hck; intros [= <- <-];
    apply check_spec in Hck as (Hs1 & _ & _); try done;
    (edestruct (file_op_spec s s1 f p) as (_ & _ & Hat'); [done|done|naive_solver|]);
    (eapply (pinned_op s); [by destruct Hs1 as [->| ->]|done|exact Hat'| |done]); intros [Hd Hpd].
  - split; [by apply holds_foldl|constructor].
  - destruct (lenient_sync_failures s1); by split.
Qed.

(** A sync that succeeds pins what was pending. *)
Lemma crash_sync_pins s f p d off bs r s' :
  crash_inv s → crash_handle s f p → crash_solid s p [] → crash_dirty s p = Some d → holds_at off bs d →
  crash_sync_data f s = (r, s') → r = Ok tt → crash_pinned s' p off bs.
Proof.
  intros Hinv Hh [_ Hnm] Hd Hho. destruct (inode_at_handle _ _ _ Hh) as (x & Hx & Hat).
  unfold crash_dirty in Hd. rewrite Hat in Hd. injection Hd as <-.
  unfold crash_sync_data, with_inode. rewrite Hx.
  destruct (check _ s) as [[[]|e] s1] eqn:Hck; intros [= <- <-]; [|done]. intros _.
  apply check_spec in Hck as (Hs1 & _ & _); [|done].
  edestruct (file_op_spec s s1 f p) as (_ & _ & Hat'); [done|done|naive_solver|].
  split; [eexists; split; [exact Hat'|]; by split|]. by destruct Hs1 as [->| ->].
Qed.

Lemma crash_sync_dirty s f p r s' :
  crash_inv s → crash_handle s f p → crash_sync_data f s = (r, s') → r = Ok tt → crash_dirty s' p = crash_dirty s p.
Proof.
  intros Hinv Hh. destruct (inode_at_handle _ _ _ Hh) as (x & Hx & Hat).
  unfold crash_sync_data, with_inode. rewrite Hx.
  destruct (check _ s) as [[[]|e] s1] eqn:Hck; intros [= <- <-]; [|done]. intros _.
  apply check_spec in Hck as (Hs1 & _ & _); [|done].
  edestruct (file_op_spec s s1 f p) as (_ & _ & Hat'); [done|done|naive_solver|].
  unfold crash_dirty. by rewrite Hat', Hat.
Qed.

(** *** Namespace operations *)

(** Unlinking: the name goes, every other name stays. *)
Lemma relink_none_spec s p change :
  crash_inv s → crash_inv (relink p None change s) ∧
  ckeeps (λ q, q ≠ p) s (relink p None change s) ∧ crash_vis (relink p None change s) p = None.
Proof.
  intros Hinv. unfold relink. set (old := default Name_default (names s !! p)).
  match goal with |- crash_inv ?x ∧ _ => set (s' := x) end.
  assert (∀ q nq i, names s' !! q = Some nq → refers nq i → ∃ n, names s !! q = Some n ∧ refers n i) as Hcases.
  { intros q nq i Hq Hr. unfold s' in Hq. simpl in Hq. destruct (decide (q = p)) as [->|Hne].
    - rewrite lookup_insert_eq in Hq. injection Hq as <-. destruct Hr as [Hr|Hr]; simpl in Hr; [|done].
      unfold old in Hr. destruct (names s !! p) as [n|] eqn:Hn; [|done]. exists n. split; [done|by left].
    - rewrite lookup_insert_ne in Hq by done. by exists nq. }
  assert (crash_inv s') as Hinv'.
  { split.
    - intros q q' nq nq' i Hq Hq' Hr Hr'. destruct (Hcases _ _ _ Hq Hr) as (? & ? & ?).
      destruct (Hcases _ _ _ Hq' Hr') as (? & ? & ?). by eapply (ci_distinct s Hinv).
    - intros q n i Hq Hr. destruct (Hcases _ _ _ Hq Hr) as (? & ? & ?). by eapply (ci_exists s Hinv).
    - apply (ci_fresh s Hinv).
    - apply (ci_honest s Hinv). }
  split; [done|]. split.
  - apply same_path_keeps; [done|done| |done]. intros q Hq. unfold s'. simpl. by rewrite lookup_insert_ne.
  - unfold crash_vis, inode_at, volatile, s'. simpl. by rewrite lookup_insert_eq.
Qed.

Lemma new_change_inv s : crash_inv s → crash_inv (new_change s).2.
Proof. intros [H1 H2 H3 H4]. by split. Qed.

Lemma crash_remove_spec s p r s' :
  crash_inv s → validate p false = Ok tt → crash_remove p s = (r, s') →
  ckeeps (λ q, q ≠ p) s s' ∧ (r = Ok tt → crash_vis s' p = None) ∧
  (r ≠ Ok tt → ckeeps (λ _, True) s s') ∧ (r = Err NotFound → crash_vis s p = None) ∧
  (crash_quiet s → r = Ok tt ∨ r = Err NotFound).
Proof.
  intros Hinv Hv. unfold crash_remove, m_bind, m_lift. rewrite Hv.
  destruct (check (FRemove p) s) as [[[]|e] s1] eqn:Hck;
    apply check_spec in Hck as (Hs1 & Hnf & Hq); [| done | | done].
  2: { intros [= <- <-]. split; [by apply called_keeps|]. split; [done|]. split; [|split; [by intros [= ->]|]].
       - intros _. by apply called_keeps.
       - intros Hqs. by apply Hq in Hqs. }
  assert (crash_inv s1) as Hinv1 by (destruct Hs1 as [->| ->]; [done|by apply count_call_inv]).
  assert (volatile s1 p = volatile s p) as Hvol by (by destruct Hs1 as [->| ->]).
  destruct (volatile s1 p) as [i|] eqn:Hvp.
  - intros [= <- <-]. pose proof (new_change_inv _ Hinv1) as Hinv2.
    destruct (relink_none_spec (new_change s1).2 p (next_change s1 + 1)%N Hinv2) as (_ & Hk & Hvis).
    split; [|split; [done|split; [done|split; [done|by left]]]].
    eapply ckeeps_trans; [by apply called_keeps|]. eapply ckeeps_trans; [|exact Hk].
    by apply same_path_keeps.
  - intros [= <- <-]. split; [by apply called_keeps|]. split; [done|]. split; [intros _; by apply called_keeps|].
    split; [|by right]. intros _. unfold crash_vis, inode_at. by rewrite <- Hvol.
Qed.

Lemma crash_vis_volatile s p :
  crash_inv s → is_Some (crash_vis s p) ↔ is_Some (volatile s p).
Proof.
  intros Hinv. unfold crash_vis. rewrite fmap_is_Some. unfold inode_at. split.
  - intros [x (i & Hi & _)%bind_Some]. by exists i.
  - intros [i Hi]. rewrite Hi. simpl. apply volatile_refers in Hi as (n & Hn & Hv).
    eapply ci_exists; [done|done|]. by right.
Qed.

(** Creating a name: a fresh inode nothing else refers to. *)
Lemma create_spec s p :
  crash_inv s → volatile s p = None →
  let '(inode, s1) := bump_inode s in
  let '(change, s2) := new_change (set_inodes <[inode := Inode_default]> s1) in
  let s' := relink p (Some inode) change s2 in
  ckeeps (λ q, q ≠ p) s s' ∧ crash_handle s' (mkCrashFile p inode) p ∧
  inode_at s' p = Some Inode_default.
Proof.
  intros Hinv Hp. unfold bump_inode, new_change, relink. simpl.
  set (id := (next_inode s + 1)%N). set (old := default Name_default (names s !! p)).
  match goal with |- ckeeps _ _ ?x ∧ _ => set (s' := x) end.
  assert (∀ i, is_Some (inodes s !! i) → i ≠ id) as Hfresh.
  { intros i Hi ->. apply (ci_fresh s Hinv) in Hi. unfold id in Hi. lia. }
  assert (∀ q nq i, names s' !! q = Some nq → refers nq i →
    (q = p ∧ i = id) ∨ (i ≠ id ∧ ∃ n, names s !! q = Some n ∧ refers n i)) as Hcases.
  { intros q nq i Hq Hr. destruct (decide (q = p)) as [->|Hne].
    - unfold s' in Hq. simpl in Hq. rewrite lookup_insert_eq in Hq. injection Hq as <-.
      destruct Hr as [Hr|Hr]; simpl in Hr; [|left; by injection Hr as <-].
      destruct (names s !! p) as [n|] eqn:Hn; [|done]. right.
      assert (refers n i) as Hri by (by left). split; [|by exists n].
      apply Hfresh. by eapply (ci_exists s Hinv).
    - unfold s' in Hq. simpl in Hq. rewrite lookup_insert_ne in Hq by done. right.
      split; [|by exists nq]. apply Hfresh. by eapply (ci_exists s Hinv). }
  assert (crash_inv s') as Hinv'.
  { split.
    - intros q q' nq nq' i Hq Hq' Hr Hr'.
      destruct (Hcases _ _ _ Hq Hr) as [[-> ->]|(Hi & n & Hn & Hrn)];
        destruct (Hcases _ _ _ Hq' Hr') as [[-> ?]|(Hi' & n' & Hn' & Hrn')]; try done.
      by eapply (ci_distinct s Hinv).
    - intros q n i Hq Hr. unfold s'. simpl. rewrite lookup_insert_is_Some.
      destruct (Hcases _ _ _ Hq Hr) as [[_ ->]|(Hi & m & Hm & Hrm)]; [by left|].
      right. split; [done|]. by eapply (ci_exists s Hinv).
    - intros i. unfold s'. simpl. rewrite lookup_insert_is_Some. intros [<-|[_ Hi]]; [done|].
      apply (ci_fresh s Hinv) in Hi. unfold id. lia.
    - apply (ci_honest s Hinv). }
  split; [|split].
  - apply same_path_keeps; [done|done| |].
    + intros q Hq. unfold s'. simpl. by rewrite lookup_insert_ne.
    + intros q i Hq Hi. unfold s'. simpl. apply lookup_insert_ne. intros ->.
      apply volatile_refers in Hi as (n & Hn & Hv). eapply Hfresh; [|done].
      eapply (ci_exists s Hinv); [done|by right].
  - split; unfold volatile, s'; simpl; rewrite lookup_insert_eq; [done|by eexists].
  - unfold inode_at, volatile, s'. simpl. by rewrite lookup_insert_eq; simpl; rewrite lookup_insert_eq.
Qed.

Lemma crash_open_spec s p create r s' :
  crash_inv s → validate p false = Ok tt → crash_open p create s = (r, s') →
  ckeeps (λ q, q ≠ p ∨ is_Some (crash_vis s p) ∨ create = false) s s' ∧
  (∀ f, r = Ok f → crash_handle s' f p ∧ crash_vis s' p = Some (default [] (crash_vis s p)) ∧
                    crash_dirty s' p = Some (default [] (crash_dirty s p))) ∧
  (r = Err NotFound → create = false ∧ crash_vis s p = None) ∧
  (crash_quiet s → is_Some (crash_vis s p) ∨ create = true → ∃ f, r = Ok f) ∧
  (create = false → crash_vis s p = None → is_ok r = false ∧ (crash_quiet s → r = Err NotFound)).
Proof.
  intros Hinv Hv. unfold crash_open, m_bind, m_lift. rewrite Hv.
  destruct (check (FOpen p create) s) as [[[]|e] s1] eqn:Hck;
    apply check_spec in Hck as (Hs1 & Hnf & Hq); [| done | | done].
  2: { intros [= <- <-]. split; [by apply called_keeps|]. split; [done|].
       split; [by intros [= ->]|]. split; [intros Hqs; by apply Hq in Hqs|].
       intros _ _. split; [done|]. intros Hqs. by apply Hq in Hqs. }
  assert (crash_inv s1) as Hinv1 by (destruct Hs1 as [->| ->]; [done|by apply count_call_inv]).
  assert (∀ P, ckeeps P s s1) as Hk1 by (intros P; by apply called_keeps).
  assert (inode_at s1 p = inode_at s p ∧ volatile s1 p = volatile s p) as [Hat1 Hvol1]
    by (by destruct Hs1 as [->| ->]).
  pose proof (crash_vis_volatile s p Hinv) as Hvv. rewrite <- Hvol1 in Hvv.
  destruct (volatile s1 p) as [i|] eqn:Hvp.
  - intros [= <- <-]. split; [apply Hk1|].
    assert (is_Some (crash_vis s p)) as Hsome by (apply Hvv; by eexists).
    assert (∃ x, inode_at s p = Some x ∧ inodes s1 !! i = Some x) as (x & Hx & Hix).
    { unfold crash_vis in Hsome. apply fmap_is_Some in Hsome as [x Hx]. exists x. split; [done|].
      rewrite <- Hat1 in Hx. unfold inode_at in Hx. by rewrite Hvp in Hx. }
    split.
    { intros f [= <-]. unfold crash_vis, crash_dirty. rewrite Hat1, Hx. split; [|done].
      split; [done|]. by exists x. }
    split; [done|]. split; [by eexists|]. intros _ Hn. rewrite Hn in Hsome. by destruct Hsome.
  - assert (crash_vis s p = None) as Hnone.
    { destruct (crash_vis s p); [|done]. destruct (proj1 Hvv ltac:(done)). done. }
    assert (crash_dirty s p = None) as Hdnone.
    { unfold crash_vis, crash_dirty in *. by destruct (inode_at s p). }
    rewrite Hnone, Hdnone. destruct create.
    + pose proof (create_spec s1 p Hinv1 Hvp) as Hc.
      destruct (bump_inode s1) as [inode s2].
      destruct (new_change (set_inodes <[inode:=Inode_default]> s2)) as [change s3].
      destruct Hc as (Hk & Hh & Hat). intros [= <- <-].
      split; [|split; [|split; [done|split; [by eexists|done]]]].
      * eapply ckeeps_trans; [apply Hk1|]. destruct Hk as (? & ? & Hk). split; [done|].
        split; [done|]. intros q [Hqp|[[? ?]|?]]; [by apply Hk|done|done].
      * intros f [= <-]. split; [done|]. unfold crash_vis, crash_dirty. by rewrite Hat.
    + intros [= <- <-]. split; [apply Hk1|]. split; [done|]. split; [done|].
      split; [|done]. intros _ [[? ?]|?]; done.
Qed.

Lemma commit_entry_volatile dir p n :
  (commit_entry dir p n ≫= n_volatile) = n_volatile n.
Proof. unfold commit_entry. destruct n as [d v c]. by destruct (direct dir p), d, v. Qed.

Lemma commit_entry_refers dir p n n' i : commit_entry dir p n = Some n' → refers n' i → refers n i.
Proof.
  unfold commit_entry, refers. destruct n as [d v c].
  destruct (direct dir p), d, v; intros; simplify_eq/=; naive_solver.
Qed.

Lemma commit_entry_settled dir p n i :
  n_volatile n = Some i → direct dir p = true ∨ n_durable n = n_volatile n →
  ∃ n', commit_entry dir p n = Some n' ∧ n_durable n' = n_volatile n'.
Proof.
  unfold commit_entry. destruct n as [d v c]. simpl. intros -> [->| ->]; [by eexists|].
  destruct (direct dir p); by eexists.
Qed.

Lemma sync_dir_keeps dir s :
  crash_inv s →
  let s' := set_dirs (commit_dirs dir) (set_names (map_imap (commit_entry dir)) s) in
  ckeeps (λ _, True) s s' ∧
  (∀ p bs, direct dir p = true → crash_synced s p bs → crash_stable s' p bs) ∧
  (∀ p, direct dir p = true → crash_vis s p = None → crash_absent s' p) ∧
  (∀ p, direct dir p = true → is_Some (crash_vis s p) → crash_solid s' p []).
Proof.
  intros Hinv. cbv zeta. set (s' := set_dirs _ _).
  assert (∀ p, names s' !! p = names s !! p ≫= commit_entry dir p) as Hns
    by (intros p; apply map_lookup_imap).
  assert (∀ p, volatile s' p = volatile s p) as Hvol.
  { intros p. unfold volatile. rewrite Hns. destruct (names s !! p); [|done].
    apply commit_entry_volatile. }
  assert (∀ p, inode_at s' p = inode_at s p) as Hat by (intros p; unfold inode_at; by rewrite Hvol).
  assert (∀ p n i, names s' !! p = Some n → refers n i →
    ∃ n', names s !! p = Some n' ∧ refers n' i) as Href.
  { intros p n i Hn Hr. rewrite Hns in Hn. apply bind_Some in Hn as (n' & Hn' & Hc).
    exists n'. split; [done|]. by eapply commit_entry_refers. }
  assert (∀ p x, inode_at s p = Some x →
    direct dir p = true ∨ (∃ n, names s !! p = Some n ∧ n_durable n = n_volatile n) →
    ∃ n, names s' !! p = Some n ∧ n_durable n = n_volatile n) as Hsettled.
  { intros p x Hx Hor. unfold inode_at in Hx. apply bind_Some in Hx as (i & Hv & _).
    apply volatile_refers in Hv as (n & Hn & Hvn). rewrite Hns, Hn. simpl.
    eapply commit_entry_settled; [done|]. destruct Hor as [?|(n' & Hn' & ?)]; [by left|right].
    congruence. }
  assert (∀ p bs, crash_synced s p bs →
    direct dir p = true ∨ (∃ n, names s !! p = Some n ∧ n_durable n = n_volatile n) →
    crash_stable s' p bs) as Hstab.
  { intros p bs (x & Hx & Hc) Hor. unfold crash_stable, crash_synced. rewrite Hat.
    split; [by exists x|by eapply Hsettled]. }
  assert (∀ p pre, crash_solid s p pre → crash_solid s' p pre) as Hsolid.
  { intros p pre [(x & Hx & Hb) Hn]. unfold crash_solid. rewrite Hat.
    split; [by exists x|]. eapply Hsettled; [done|by right]. }
  assert (∀ p off bs, crash_pinned s p off bs → crash_pinned s' p off bs) as Hpinned.
  { intros p off bs [(x & Hx & Hb) Hn]. unfold crash_pinned. rewrite Hat.
    split; [by exists x|]. eapply Hsettled; [done|by right]. }
  split; [|split; [intros; apply Hstab; auto|]].
  2: { split; [|intros p Hd [c Hc]; unfold crash_vis in Hc; apply fmap_Some in Hc as (x & Hx & _);
         split; [exists x; rewrite Hat; split; [done|apply based_on_nil]|];
         eapply Hsettled; [done|by left]].
        intros p Hd Hv. unfold crash_absent. rewrite Hns. destruct (names s !! p) as [n|] eqn:Hn; [|done].
       simpl. unfold commit_entry. rewrite Hd. destruct (n_volatile n) as [i|] eqn:Hvn; [|done].
       destruct (ci_exists s Hinv p n i Hn ltac:(by right)) as [x Hx].
       unfold crash_vis, inode_at, volatile in Hv. rewrite Hn in Hv. simpl in Hv. rewrite Hvn in Hv.
       simpl in Hv. by rewrite Hx in Hv. }
  split; [|split; [done|]].
  { split.
    - intros p q np nq i Hp Hq Hrp Hrq.
      destruct (Href _ _ _ Hp Hrp) as (? & ? & ?), (Href _ _ _ Hq Hrq) as (? & ? & ?).
      by eapply (ci_distinct s Hinv).
    - intros p n i Hp Hr. destruct (Href _ _ _ Hp Hr) as (? & ? & ?). by eapply (ci_exists s Hinv).
    - apply (ci_fresh s Hinv).
    - apply (ci_honest s Hinv). }
  intros p _. unfold crash_vis, crash_dirty, crash_handle. rewrite Hat, Hvol.
  split; [done|]. split; [done|]. split; [|split; [|split; [|split; [done|split; [apply Hsolid|apply Hpinned]]]]].
  - intros bs. unfold crash_synced. by rewrite Hat.
  - intros bs [Hs Hn]. apply Hstab; auto.
  - unfold crash_absent. by rewrite Hns; intros ->.
Qed.

Lemma crash_sync_dir_spec s dir r s' :
  crash_inv s → validate dir true = Ok tt → crash_sync_dir dir s = (r, s') →
  ckeeps (λ _, True) s s' ∧
  (r = Ok tt → ∀ p bs, direct dir p = true → crash_synced s p bs → crash_stable s' p bs) ∧
  (crash_quiet s → r = Ok tt) ∧
  (r = Ok tt → ∀ p, direct dir p = true → crash_vis s p = None → crash_absent s' p) ∧
  (r = Ok tt → ∀ p, direct dir p = true → is_Some (crash_vis s p) → crash_solid s' p []).
Proof.
  intros Hinv Hval. unfold crash_sync_dir, m_bind, m_lift. rewrite Hval.
  destruct (check (FSyncDir dir) s) as [[[]|e] s1] eqn:Hck;
    apply check_spec in Hck as (Hs1 & Hnf & Hq); [| done | | done].
  2: { intros [= <- <-]. split; [by apply called_keeps|]. split; [done|]. split; [|done].
       intros Hqs. by apply Hq in Hqs. }
  assert (crash_inv s1) as Hinv1 by (destruct Hs1 as [->| ->]; [done|by apply count_call_inv]).
  destruct (sync_dir_keeps dir s1 Hinv1) as (Hk & Hst & Hab & Hso).
  intros [= <- <-]. split; [|split; [|split; [done|split]]].
  - eapply ckeeps_trans; [by apply called_keeps|done].
  - intros _ p bs Hd Hsy. apply Hst; [done|]. by destruct Hs1 as [->| ->].
  - intros _ p Hd Hv. apply Hab; [done|]. by destruct Hs1 as [->| ->].
  - intros _ p Hd Hv. apply Hso; [done|]. by destruct Hs1 as [->| ->].
Qed.

(** *** Crashes *)

Lemma settle_name_some keep n n' :
  settle_name keep n = Some n' → n_durable n' = n_volatile n' ∧
  ∃ i, n_durable n' = Some i ∧ refers n i.
Proof.
  unfold settle_name, refers. intros Hs.
  destruct (name_pending n), (keep (n_change n)); case_match; simplify_eq/=; eauto.
Qed.

Lemma settle_name_stable keep n i :
  n_durable n = Some i → n_durable n = n_volatile n →
  settle_name keep n = Some (mkName (Some i) (Some i) (n_change n)).
Proof.
  intros Hd Hdv. unfold settle_name, name_pending. by rewrite bool_decide_eq_true_2, Hd.
Qed.

Lemma elem_of_live ns p n i :
  ns !! p = Some n → n_durable n = Some i → i ∈ live_inodes ns.
Proof.
  intros Hp Hi. unfold live_inodes. apply elem_of_list_to_set, list_elem_of_omap.
  exists n. split; [|done]. apply list_elem_of_fmap. exists (p, n). split; [done|].
  by apply elem_of_map_to_list.
Qed.

(** A crash in general: settled names, and every surviving inode becomes a
    clean file whose content is its durable content when nothing was
    pending. *)
Lemma crash_general s s' keep content :
  crash_inv s →
  names s' = omap (settle_name keep) (names s) →
  inodes s' = map_imap (λ id i, Some (from_content (content id i)))
    (filter (λ '(id, _), id ∈ live_inodes (omap (settle_name keep) (names s))) (inodes s)) →
  (∀ id i bs, clean_as bs i → content id i = bs) →
  (∀ id i pre, based_on pre i → pre `prefix_of` content id i) →
  (∀ id i off bs, anchored off bs i → holds_at off bs (content id i)) →
  next_inode s' = next_inode s → hook s' = hook s → partial_hook s' = partial_hook s →
  crash_inv s' ∧ (crash_quiet s → crash_quiet s') ∧
  (∀ p bs, crash_stable s p bs → crash_stable s' p bs) ∧
  (∀ p, crash_absent s p → crash_absent s' p) ∧
  (∀ p bs, crash_vis s' p = Some bs → crash_stable s' p bs) ∧
  (∀ p pre, crash_solid s p pre → crash_solid s' p pre) ∧
  (∀ p off bs, crash_pinned s p off bs →
    crash_pinned s' p off bs ∧ ∃ c, crash_vis s' p = Some c ∧ holds_at off bs c).
Proof.
  intros Hinv Hns Hin Hcont Hpre Hanch Hni Hh Hph.
  assert (∀ p n', names s' !! p = Some n' → ∃ n i, names s !! p = Some n ∧ refers n i ∧
    n_durable n' = Some i ∧ n_volatile n' = Some i) as Hname.
  { intros p n'. rewrite Hns, lookup_omap. intros (n & Hn & Hs)%bind_Some.
    apply settle_name_some in Hs as (Heq & i & Hi & Hr). exists n, i. rewrite <- Heq. done. }
  assert (∀ p n' i, names s' !! p = Some n' → n_durable n' = Some i →
    inodes s' !! i = (λ x, from_content (content i x)) <$> (inodes s !! i)) as Hino.
  { intros p n' i Hp Hi. rewrite Hin, map_lookup_imap. rewrite Hns in Hp.
    rewrite map_lookup_filter. destruct (inodes s !! i) as [x|]; [|done]. simpl.
    rewrite option_guard_True; [done|]. by eapply elem_of_live. }
  assert (∀ p x, inode_at s p = Some x → (∃ n, names s !! p = Some n ∧ n_durable n = n_volatile n) →
    ∃ i, inode_at s' p = Some (from_content (content i x)) ∧
         ∃ n, names s' !! p = Some n ∧ n_durable n = n_volatile n) as Hkept.
  { intros p x Hx (n & Hn & Hdv). unfold inode_at in Hx.
    apply bind_Some in Hx as (i & Hv & Hx). unfold volatile in Hv. rewrite Hn in Hv. simpl in Hv.
    assert (names s' !! p = Some (mkName (Some i) (Some i) (n_change n))) as Hp.
    { rewrite Hns, lookup_omap, Hn. simpl. apply settle_name_stable; congruence. }
    exists i. split; [|by eexists]. unfold inode_at, volatile. rewrite Hp. simpl.
    by rewrite (Hino _ _ _ Hp eq_refl), Hx. }
  split; [|split; [|split; [|split; [|split; [|split]]]]].
  - split.
    + intros p q np nq i Hp Hq Hrp Hrq.
      destruct (Hname _ _ Hp) as (n1 & i1 & Hn1 & Hr1 & Hd1 & Hv1).
      destruct (Hname _ _ Hq) as (n2 & i2 & Hn2 & Hr2 & Hd2 & Hv2).
      assert (i1 = i) as -> by (destruct Hrp; congruence).
      assert (i2 = i) as -> by (destruct Hrq; congruence).
      by eapply (ci_distinct s Hinv).
    + intros p n i Hp Hr. destruct (Hname _ _ Hp) as (n1 & i1 & Hn1 & Hr1 & Hd1 & Hv1).
      assert (i1 = i) as -> by (destruct Hr; congruence).
      rewrite (Hino _ _ _ Hp Hd1), fmap_is_Some. by eapply (ci_exists s Hinv).
    + intros i. rewrite Hin, map_lookup_imap. intros [x (y & Hy & _)%bind_Some].
      apply map_lookup_filter_Some in Hy as [Hy _]. rewrite Hni. apply (ci_fresh s Hinv). by eexists.
    + rewrite Hh. apply (ci_honest s Hinv).
  - intros [? ?]. split; congruence.
  - intros p bs [(x & Hx & Hcl) Hn]. destruct (Hkept _ _ Hx Hn) as (i & Hx' & Hn').
    split; [|done]. eexists. split; [exact Hx'|]. rewrite (Hcont _ _ bs) by done. by repeat split.
  - intros p. unfold crash_absent. rewrite Hns, lookup_omap. by intros ->.
  - intros p bs Hvis. unfold crash_vis in Hvis. apply fmap_Some in Hvis as (x & Hx & ->).
    unfold inode_at in Hx. apply bind_Some in Hx as (i & Hv & Hi).
    apply volatile_refers in Hv as (n & Hn & Hvn).
    destruct (Hname _ _ Hn) as (n0 & i0 & Hn0 & Hr0 & Hd0 & Hv0).
    assert (i0 = i) as -> by congruence. rewrite (Hino _ _ _ Hn Hd0) in Hi.
    apply fmap_Some in Hi as (y & Hy & ->). split; [|exists n; split; congruence].
    unfold crash_synced, inode_at, volatile. rewrite Hn. simpl. rewrite Hv0. simpl.
    rewrite (Hino _ _ _ Hn Hd0), Hy. eexists. split; [done|]. by repeat split.
  - intros p pre [(x & Hx & Hb) Hn]. destruct (Hkept _ _ Hx Hn) as (i & Hx' & Hn').
    split; [|done]. eexists. split; [exact Hx'|]. specialize (Hpre i x pre Hb). by repeat split.
  - intros p off bs [(x & Hx & Hb) Hn]. destruct (Hkept _ _ Hx Hn) as (i & Hx' & Hn').
    specialize (Hanch i x off bs Hb). split.
    + split; [|done]. eexists. split; [exact Hx'|]. by split.
    + unfold crash_vis. rewrite Hx'. by eexists.
Qed.

Lemma crash_relation_spec s s' :
  crash_inv s → crash_relation s s' →
  crash_inv s' ∧ (crash_quiet s → crash_quiet s') ∧
  (∀ p bs, crash_stable s p bs → crash_stable s' p bs) ∧
  (∀ p, crash_absent s p → crash_absent s' p) ∧
  (∀ p bs, crash_vis s' p = Some bs → crash_stable s' p bs) ∧
  (∀ p pre, crash_solid s p pre → crash_solid s' p pre) ∧
  (∀ p off bs, crash_pinned s p off bs →
    crash_pinned s' p off bs ∧ ∃ c, crash_vis s' p = Some c ∧ holds_at off bs c).
Proof.
  intros Hinv [[c ->]| ->].
  - eapply (crash_general s _ (keep_change c)
      (λ id i, persist_pending (tearing s) (keep_op c id) (i_durable i) 0 (i_pending i)));
      try done; [intros id i bs (-> & _ & Hp); by apply persist_neutral| |].
    + intros id i pre (Hd & _ & Hp). by apply persist_harmless.
    + intros id i off bs [Hd Hp]. by apply persist_holds.
  - eapply (crash_general s _ (λ _, false) (λ id i, i_durable i)); try done;
      [|by intros id i bs (-> & _)|by intros id i pre (? & _)|by intros id i off bs [? _]].
    simpl. apply map_eq. intros i. rewrite lookup_fmap, map_lookup_imap.
    by destruct (filter _ (inodes s) !! i).
Qed.

#[export] Program Instance crash_laws : BackingLaws Inner CrashFile := {|
  inv := crash_inv;
  quiet := crash_quiet;
  vis := crash_vis;
  dirty := crash_dirty;
  synced := crash_synced;
  stable := crash_stable;
  absent := crash_absent;
  handle := crash_handle;
  solid := crash_solid;
  pinned := crash_pinned;
  crashes := crash_relation
|}.
Next Obligation. by intros s p bs [? _]. Qed.
Next Obligation.
  intros s p bs (x & Hs & Hc). unfold crash_vis, crash_dirty. rewrite Hs. simpl.
  rewrite (clean_as_dirty bs x Hc). by destruct Hc as (_ & -> & _).
Qed.
Next Obligation. intros s p. unfold crash_vis, crash_dirty. by rewrite !fmap_is_Some. Qed.
Next Obligation.
  intros s f p Hh. destruct (inode_at_handle _ _ _ Hh) as (x & _ & Hat).
  unfold crash_vis. rewrite Hat. by eexists.
Qed.
Next Obligation.
  intros s s' f f' p [Hv _] [Hv' _] [Hw Hi]. assert (cf_inode f' = cf_inode f) as He by congruence.
  split; by rewrite He.
Qed.
Next Obligation.
  intros s p Ha. unfold crash_vis, inode_at, volatile. by rewrite Ha.
Qed.
Next Obligation.
  intros s p bs [(x & Hx & (Hd & Hi & Hp)) Hn]. split; [|done]. exists x. split; [done|].
  split; [by rewrite Hd|]. split; [by rewrite Hi|]. eapply list.Forall_impl; [exact Hp|].
  intros q Hq. by eapply neutral_harmless.
Qed.
Next Obligation. intros s p bs pre Hs [_ Hn]. by split. Qed.
Next Obligation.
  intros s p pre [(x & Hx & (Hd & Hi & Hp)) _]. exists (i_image x), (durable_after_sync x).
  unfold crash_vis, crash_dirty. rewrite Hx. split; [done|]. split; [done|]. split; [done|].
  by apply harmless_foldl.
Qed.
Next Obligation.
  intros s p pre pre' [(x & Hx & (Hd & Hi & Hp)) Hn] Hpp. split; [|done]. exists x. split; [done|].
  split; [by etransitivity|]. split; [by etransitivity|]. eapply list.Forall_impl; [exact Hp|].
  intros q. by apply harmless_prefix.
Qed.
Next Obligation.
  intros s s' Hinv Hc. destruct (crash_relation_spec s s' Hinv Hc) as (? & ? & ? & ? & ? & ? & _). done.
Qed.
Next Obligation. intros s p create r s' Hinv Hv Ho. by apply crash_open_spec. Qed.
Next Obligation.
  intros s f p c r s' Hinv Hh Hc Hl. eapply crash_len_spec in Hl as [-> ->]; [|done..].
  split; [by apply same_path_keeps|]. split; [by intros n [= <-]|done].
Qed.
Next Obligation.
  intros s f p c o n r s' Hinv Hh Hc _ _ _ Hr. eapply crash_read_spec in Hr as [-> ->]; [|done..].
  split; [by apply same_path_keeps|]. destruct (read_range c o n); simpl; naive_solver.
Qed.
Next Obligation. intros. by eapply crash_set_len_spec. Qed.
Next Obligation.
  intros s f p c o n r s' Hinv Hh Hc Ho Hn Hmax. simpl. unfold default_allocate_range.
  rewrite (proj2 (checked_add_some o n (o + n)) (conj eq_refl Hmax)). cbn [ok_or].
  intros [(? & ? & [= <- <-] & Hr)|(e & [=] & _)]%m_bind_inv. exists s. split; [by apply same_path_keeps|].
  apply m_bind_inv in Hr as [(k & s1 & Hl & Hr)|(e & Hl & ->)];
    destruct (crash_len_spec _ _ _ _ _ _ Hh Hc Hl) as [-> Hk]; [|done]. injection Hk as ->. destruct (Z.ltb_spec (blen c) (o + n)); [by right|]. left. by injection Hr as <- <-.
Qed.
Next Obligation. intros. by eapply crash_write_spec. Qed.
Next Obligation. intros. by eapply crash_write_nil. Qed.
Next Obligation. intros. by eapply crash_sync_data_spec. Qed.
Next Obligation. intros s f r s' Hinv Hr. exists s'. split; [exact Hr|]. intros Hi. by apply same_path_keeps. Qed.
Next Obligation. intros. by eapply crash_set_len_same. Qed.
Next Obligation. intros. by eapply crash_write_same. Qed.
Next Obligation. intros. by eapply crash_sync_same. Qed.
Next Obligation. intros. by eapply crash_set_len_solid. Qed.
Next Obligation. intros. by eapply crash_write_solid. Qed.
Next Obligation. intros. by eapply crash_sync_solid. Qed.
Next Obligation. intros. by eapply crash_punch_solid. Qed.
Next Obligation. intros. by eapply crash_set_len_torn. Qed.
Next Obligation. intros. by eapply crash_write_torn. Qed.
Next Obligation. intros. by eapply crash_remove_spec. Qed.
Next Obligation.
  intros s d r s' Hinv Hv Hs. destruct (crash_sync_dir_spec _ _ _ _ Hinv Hv Hs) as (? & ? & ? & ? & _). done.
Qed.
Next Obligation.
  intros s p r s' Hinv. simpl. unfold crash_exists, m_bind, m_lift.
  destruct (validate p false); intros [= <- <-]; (split; [by apply same_path_keeps|]); [|done].
  intros [= Hf%orb_false_iff]. destruct Hf as [Hf _].
  destruct (volatile s p) eqn:Hv; [done|]. unfold crash_vis, inode_at. by rewrite Hv.
Qed.
Next Obligation.
  intros s p r s' Hinv. simpl. unfold crash_create_dir_all, m_bind, m_lift.
  destruct (validate p false); intros [= <- <-]; apply same_path_keeps; try done.
  by destruct Hinv.
Qed.
Next Obligation.
  intros s d r s' Hinv. simpl. unfold crash_list, m_bind, m_lift.
  destruct (validate d true) as [[]|e]; intros [= <- <-]; (split; [by apply same_path_keeps|]);
    (split; [|split; [by intros|]]); intros ns [= <-]; [|apply sort_dedup_nodup].
  intros p name He [c Hv]. apply elem_of_sort_dedup, elem_of_app. left.
  unfold crash_vis, inode_at, volatile in Hv. destruct (names s !! p) as [e|] eqn:Hp; [|done].
  apply list_elem_of_omap. exists (p, e). split; [by apply elem_of_map_to_list|].
  simpl in *. by destruct (n_volatile e).
Qed.
Next Obligation.
  intros s p r s' Hinv. simpl. unfold crash_try_lock, m_bind, m_lift.
  destruct (validate p false); [destruct (bool_decide _)|]; intros [= <- <-];
    apply same_path_keeps; try done. by destruct Hinv.
Qed.
Next Obligation. intros s r s' Hinv [= <- <-]. split; [by apply same_path_keeps|done]. Qed.
Next Obligation. intros. by eapply crash_write_outside. Qed.
Next Obligation. intros. by eapply crash_punch_spec. Qed.
Next Obligation.
  intros s p create r s' Hinv Hv Ho Hn c Hc.
  destruct (crash_open_spec _ _ _ _ _ Hinv Hv Ho) as (Hk & Hok & _). destruct r as [f|e].
  - destruct (Hok f eq_refl) as (_ & Hvis & _). rewrite Hn in Hvis. simpl in *. congruence.
  - exfalso. revert Ho. simpl in Hn |- *. unfold crash_open, m_bind, m_lift. rewrite Hv.
    destruct (check (FOpen p create) s) as [[[]|e'] s1] eqn:Hck;
      apply check_spec in Hck as (Hs1 & _ & _); try done.
    + assert (crash_vis s1 p = crash_vis s p) as Hvs by (by destruct Hs1 as [->| ->]).
      destruct (volatile s1 p); [done|]. destruct create; [by destruct (bump_inode s1), (new_change _)|].
      intros [= <- <-]. simpl in Hc. congruence.
    + intros [= <- <-]. simpl in Hc. destruct Hs1 as [->| ->]; [congruence|].
      change (crash_vis (count_call s) p) with (crash_vis s p) in Hc. congruence.
Qed.
Next Obligation. intros. by eapply crash_set_len_zeros. Qed.
Next Obligation. intros. by eapply crash_sync_dirty. Qed.
Next Obligation.
  intros s d r s' p Hinv Hv Hs Hr Hd Hvis.
  destruct (crash_sync_dir_spec _ _ _ _ Hinv Hv Hs) as (_ & _ & _ & _ & Hso). by apply Hso.
Qed.
Next Obligation. intros. by eapply crash_sync_pins. Qed.
Next Obligation.
  intros s p off bs [(x & Hx & _) _]. simpl. unfold crash_vis. rewrite Hx. by eexists.
Qed.
Next Obligation.
  intros s s' p off bs Hinv Hc. destruct (crash_relation_spec s s' Hinv Hc) as (_ & _ & _ & _ & _ & _ & Hp).
  apply Hp.
Qed.
Next Obligation. intros. by eapply crash_write_pinned. Qed.
Next Obligation. intros s f p off bs o n r s' ? ? ? ? ? ? Hr. by eapply (crash_punch_pinned s f p off bs o n r). Qed.
Next Obligation. intros. by eapply crash_set_len_pinned. Qed.
Next Obligation. intros. by eapply crash_sync_pinned. Qed.
Next Obligation.
  intros s f p c o n r s' _ Hh Hv _ _ _ Hr _ Hn. destruct (crash_read_spec _ _ _ _ _ _ _ _ Hh Hv Hr) as [_ ->].
  by rewrite Hn.
Qed.

Lemma drop_lock_keeps p (s : Inner) : inv s → keeps (λ _, True) s (drop_lock p s).
Proof. intros Hinv. apply same_path_keeps; try done. by destruct Hinv. Qed.
