(* ===== verification/AbStore.v ===== *)
(** * AbStore: the A/B dual-copy protocol (crates/maki-format/src/ab.rs)

    [load], [store] and their helpers over any backing and any record type,
    and the protocol's guarantee against the interfaces [BackingLaws] and
    [AbRecordLaws]: whatever I/O fails and whenever the machine crashes, a
    durable valid copy of at least the last established generation remains,
    and a completed store is what every later load returns. *)

From S2P Require Import Prelude Codec Layout AbRecord Metadata Backing CrashBacking.

Local Open Scope Z_scope.

Record AbStore := mkAbStore { side_a : string; side_b : string; max_len : option Z }.

Definition AbStore_new (a b : string) : AbStore := mkAbStore a b None.
Definition with_max_len (max_len : Z) (st : AbStore) : AbStore :=
  mkAbStore (side_a st) (side_b st) (Some max_len).

(** [impl From<io::Error> for FormatError]. *)
Definition lift_io {W A} (m : M W ErrorKind A) : M W FormatError A := m_map_err Io m.

Section Store.
Context `{Crc32} `{Backing W F} `{AbRecord T}.

Abbreviation fio := (M W FormatError).

Definition bound (st : AbStore) : Z :=
  match max_len st with Some max => Z.min max MAX_ENCODED_LEN | None => MAX_ENCODED_LEN end.

(** The bytes of one side, [None] for an absent, empty or over-long file or
    one that shrank: the common part of [read_copy] and [raw_generation]. *)
Definition read_bytes (path : string) (max : Z) : fio (option bytes) :=
  let* opened := m_try (b_open path false) in
  match opened with
  | Err NotFound => m_ret None
  | Err e => m_err (Io e)
  | Ok file =>
      let* len := lift_io (f_len file) in
      if (len =? 0) || (max <? len) then m_ret None
      else
        let* r := m_try (f_read_at file 0 len) in
        match r with
        | Ok buf => m_ret (Some buf)
        | Err UnexpectedEof => m_ret None
        | Err e => m_err (Io e)
        end
  end.

Definition decode_copy (buf : option bytes) : option (T * bytes) :=
  buf ← buf; match ab_decode buf with Ok record => Some (record, buf) | Err _ => None end.

Definition read_copy (st : AbStore) (path : string) : fio (option (T * bytes)) :=
  let* buf := read_bytes path (bound st) in m_ret (decode_copy buf).

Definition read_side (st : AbStore) (path : string) : fio (option T) :=
  let* copy := read_copy st path in m_ret (fst <$> copy).

(** The better of two typed copies. *)
Definition select_copy (a b : option T) : option T :=
  match a, b with
  | Some a, Some b => Some (if generation b <=? generation a then a else b)
  | Some a, None => Some a
  | None, b => b
  end.

Definition load (st : AbStore) : fio (option T) :=
  let* a := read_side st (side_a st) in
  let* b := read_side st (side_b st) in
  m_ret (select_copy a b).

Definition raw_generation (path : string) (max : Z) : fio (option Z) :=
  let* buf := read_bytes path max in
  m_ret (buf ← buf; to_option (raw_decode buf)).

Definition generations (st : AbStore) : fio (option Z * option Z) :=
  let max := bound st in
  let* ga := raw_generation (side_a st) max in
  let* gb := raw_generation (side_b st) max in
  m_ret (ga, gb).

Definition target_for (st : AbStore) (ga gb : option Z) : string :=
  match ga, gb with
  | None, _ => side_a st
  | _, None => side_b st
  | Some ga, Some gb => if ga <=? gb then side_a st else side_b st
  end.

Definition side_generations (st : AbStore) : fio (option Z * option Z) :=
  let* a := read_side st (side_a st) in
  let* b := read_side st (side_b st) in
  m_ret (generation <$> a, generation <$> b).

Definition next_target_path (st : AbStore) : fio string :=
  let* '(ga, gb) := side_generations st in m_ret (target_for st ga gb).

(** [ga.into_iter().chain(gb).max().unwrap_or(0)]. *)
Definition max_existing (ga gb : option Z) : Z :=
  match ga, gb with
  | Some ga, Some gb => Z.max ga gb
  | Some g, None | None, Some g => g
  | None, None => 0
  end.

(** Rewrite and sync the validated bytes of the side that stays, and its
    directory entry. *)
Definition preserve (path : string) (bs : bytes) : fio unit :=
  let* file := lift_io (b_open path false) in
  let* _ := lift_io (f_set_len file (blen bs)) in
  let* _ := lift_io (f_write_at file 0 bs) in
  let* _ := lift_io (f_sync_data file) in
  lift_io (b_sync_dir (parent path)).

Definition write_target (path : string) (bs : bytes) : fio unit :=
  let* file := lift_io (b_open path true) in
  let* _ := lift_io (f_set_len file (blen bs)) in
  let* _ := lift_io (f_write_at file 0 bs) in
  lift_io (f_sync_data file).

(** The side to overwrite, the copy to keep, and the highest generation. *)
Definition store_select (st : AbStore) : fio (string * option (string * bytes) * Z) :=
  let* '(ga, gb) := generations st in
  let* a := read_copy st (side_a st) in
  let* b := read_copy st (side_b st) in
  let ta := (λ c, generation (fst c)) <$> a in
  let tb := (λ c, generation (fst c)) <$> b in
  let target := target_for st ta tb in
  let preserved := if String.eqb target (side_a st)
                   then (λ c, (side_b st, snd c)) <$> b
                   else (λ c, (side_a st, snd c)) <$> a in
  m_ret (target, preserved, max_existing ga gb).

(** Everything before the record's generation is set: the target and the
    generation to store. *)
Definition store_prepare (st : AbStore) (record : T) : fio (string * Z) :=
  let* '(target, preserved, existing) := store_select st in
  let* _ := match preserved with
            | Some (path, bs) => preserve path bs
            | None => m_ret tt
            end in
  let* next := m_lift (ok_or (checked_add (Z.max existing (generation record)) 1) Invalid) in
  m_ret (target, next).

(** [store]: the record is passed by mutable reference, so the call also
    returns the record it leaves behind. *)
Definition store (st : AbStore) (record : T) : W → result FormatError unit * T * W := λ w,
  match store_prepare st record w with
  | (Err e, w1) => (Err e, record, w1)
  | (Ok (target, next), w1) =>
      let record := set_generation next record in
      match ab_encode record with
      | None => (Err Panicked, record, w1)
      | Some bs => let '(r, w2) := write_target target bs w1 in (r, record, w2)
      end
  end.
End Store.

(** ** Reading *)

Section Proofs.
Context `{Crc32} `{BackingLaws W F} `{AbRecord T}.

(** The bytes of a path a bounded reader accepts. *)
Definition seen (w : W) (path : string) (max : Z) : option bytes :=
  c ← vis w path; if (blen c =? 0) || (max <? blen c) then None else Some c.

Lemma read_range_all c : read_range c 0 (blen c) = Some c.
Proof.
  unfold read_range, blen. rewrite Z.add_0_l, Z.leb_refl, Nat2Z.id. by rewrite firstn_all.
Qed.

Abbreviation keeps_all := (keeps (λ _, True)).

Lemma lift_io_ok {A} (m : M W ErrorKind A) w a w' :
  lift_io m w = (Ok a, w') ↔ m w = (Ok a, w').
Proof. unfold lift_io, m_map_err. destruct (m w) as [[x|e] w1]; simpl; naive_solver. Qed.

(** Reading a side changes nothing; what it returns is what a reader sees;
    without faults it returns. *)
Lemma read_bytes_spec w path max r w' :
  inv w → validate path false = Ok tt → max ≤ U64_MAX → read_bytes path max w = (r, w') →
  keeps_all w w' ∧ (∀ o, r = Ok o → o = seen w path max) ∧
  (quiet w → ∃ o, r = Ok o).
Proof.
  intros Hinv Hv Hmax. unfold read_bytes, m_bind, m_try.
  destruct (b_open path false w) as [ro w1] eqn:Ho.
  destruct (law_open _ _ _ _ _ Hinv Hv Ho) as (Hk1 & Hok & Hnf & Hq & Hno).
  apply (keeps_weaken (λ _, True)) in Hk1; [|auto].
  unfold seen. destruct ro as [f|e].
  - destruct (Hok f eq_refl) as (Hh & Hvis & _).
    destruct (vis w path) as [c|] eqn:Hc; [|by destruct (Hno eq_refl eq_refl)].
    simpl in Hvis. unfold lift_io, m_map_err.
    destruct (f_len f w1) as [rl w2] eqn:Hl.
    destruct (law_len _ _ _ _ _ _ (keeps_inv _ _ _ Hk1) Hh Hvis Hl) as (Hk2 & Hlen & Hql).
    pose proof (keeps_trans _ _ _ _ Hk1 Hk2) as Hk12.
    destruct rl as [n|e]; simpl; cycle 1.
    { intros [= <- <-]. split; [done|]. split; [done|].
      intros Hqw. by specialize (Hql (keeps_quiet _ _ _ Hk1 Hqw)). }
    rewrite (Hlen n eq_refl). destruct ((blen c =? 0) || (max <? blen c)) eqn:Hb.
    { unfold m_ret. intros [= <- <-]. split; [done|]. split; [by intros o [= <-]|]. by eexists. }
    inv_guards. destruct (f_read_at f 0 (blen c) w2) as [rr w3] eqn:Hr.
    assert (handle w2 f path) as Hh2 by exact (keeps_handle _ _ _ _ _ Hk2 I Hh).
    assert (vis w2 path = Some c) as Hv2 by (by rewrite (keeps_vis _ _ _ _ Hk2)).
    destruct (law_read _ _ _ _ _ _ _ _ (keeps_inv _ _ _ Hk2) Hh2 Hv2 (Z.le_refl 0) (blen_nonneg c)
      ltac:(lia) Hr) as (Hk3 & Hrd & Heof & Hqr).
    rewrite read_range_all in *. pose proof (keeps_trans _ _ _ _ Hk12 Hk3) as Hk13.
    destruct rr as [b|e].
    + unfold m_ret. intros [= <- <-]. split; [done|]. specialize (Hrd b eq_refl).
      split; [intros o [= <-]; congruence|by eexists].
    + assert (¬ quiet w) as Hnq.
      { intros Hqw. by specialize (Hqr (keeps_quiet _ _ _ Hk12 Hqw) c eq_refl). }
      destruct e; unfold m_err, m_ret; intros [= <- <-]; (split; [done|]); (split; [|done]);
        try done. by specialize (Heof eq_refl).
  - assert (is_Some (vis w path) → ¬ quiet w) as Hnq.
    { intros Hs Hqw. destruct (Hq Hqw (or_introl Hs)). done. }
    destruct (decide (e = NotFound)) as [->|Hne].
    + destruct (Hnf eq_refl) as [_ ->]. unfold m_ret. intros [= <- <-].
      split; [done|]. split; [by intros o [= <-]|by eexists].
    + assert (r = Err (Io e) ∧ w' = w1 → keeps_all w w' ∧
        (∀ o, r = Ok o → o = (vis w path ≫= λ c, if (blen c =? 0) || (max <? blen c) then None else Some c))
        ∧ (quiet w → ∃ o, r = Ok o)) as Hgoal.
      { intros [-> ->]. split; [done|]. split; [done|]. intros Hqw.
        destruct (vis w path) as [c|] eqn:Hc; [destruct (Hnq ltac:(done) Hqw)|].
        destruct (Hno eq_refl eq_refl) as [_ Hnf']. specialize (Hnf' Hqw). congruence. }
      destruct e; unfold m_err; intros [= <- <-]; apply Hgoal; try done.
Qed.
(** The same for a call followed by a pure function of its result. *)
Lemma read_then {A} w path max (g : option bytes → A) r w' :
  inv w → validate path false = Ok tt → max ≤ U64_MAX →
  (let* buf := read_bytes path max in m_ret (g buf)) w = (r, w') →
  keeps_all w w' ∧ (∀ a, r = Ok a → a = g (seen w path max)) ∧ (quiet w → ∃ a, r = Ok a).
Proof.
  intros Hinv Hv Hmax. unfold m_bind. destruct (read_bytes path max w) as [[o|e] w1] eqn:Hr;
    destruct (read_bytes_spec _ _ _ _ _ Hinv Hv Hmax Hr) as (Hk & Ho & Hq).
  - unfold m_ret. intros [= <- <-]. split; [done|].
    split; [intros a [= <-]; by rewrite (Ho o eq_refl)|by eexists].
  - intros [= <- <-]. split; [done|]. split; [done|]. intros Hqw. destruct (Hq Hqw). done.
Qed.

Definition copy_at (st : AbStore) (w : W) (path : string) : option (T * bytes) :=
  decode_copy (seen w path (bound st)).

Definition raw_at (st : AbStore) (w : W) (path : string) : option Z :=
  buf ← seen w path (bound st); to_option (raw_decode buf).

(** What a store is used with: two different valid names and a bound that
    fits the length type. *)
Record sides_ok (st : AbStore) : Prop := {
  so_a : validate (side_a st) false = Ok tt;
  so_b : validate (side_b st) false = Ok tt;
  so_ne : side_a st ≠ side_b st;
  so_max : MAX_ENCODED_LEN ≤ U64_MAX
}.

Lemma so_bound st : sides_ok st → bound st ≤ U64_MAX.
Proof. intros []. unfold bound. destruct (max_len st); lia. Qed.

Lemma seen_keeps w w' path max : keeps_all w w' → seen w' path max = seen w path max.
Proof. intros Hk. unfold seen. by rewrite (keeps_vis _ _ _ _ Hk I). Qed.

Lemma copy_keeps st w w' path : keeps_all w w' → copy_at st w' path = copy_at st w path.
Proof. intros Hk. unfold copy_at. by rewrite (seen_keeps w w'). Qed.

Lemma raw_keeps st w w' path : keeps_all w w' → raw_at st w' path = raw_at st w path.
Proof. intros Hk. unfold raw_at. by rewrite (seen_keeps w w'). Qed.

Lemma read_copy_spec st w path r w' :
  inv w → validate path false = Ok tt → bound st ≤ U64_MAX → read_copy st path w = (r, w') →
  keeps_all w w' ∧ (∀ o, r = Ok o → o = copy_at st w path) ∧ (quiet w → ∃ o, r = Ok o).
Proof. intros. by eapply read_then. Qed.

Lemma raw_generation_spec st w path r w' :
  inv w → validate path false = Ok tt → bound st ≤ U64_MAX →
  raw_generation path (bound st) w = (r, w') →
  keeps_all w w' ∧ (∀ o, r = Ok o → o = raw_at st w path) ∧ (quiet w → ∃ o, r = Ok o).
Proof. intros. by eapply read_then. Qed.

(** Sequencing calls that change nothing. *)
Lemma pure_bind {A B} (m : M W FormatError A) (k : A → M W FormatError B) w a0 (Q : B → Prop) r w' :
  (∀ r1 w1, m w = (r1, w1) →
    keeps_all w w1 ∧ (∀ a, r1 = Ok a → a = a0) ∧ (quiet w → ∃ a, r1 = Ok a)) →
  (∀ w1 r2 w2, keeps_all w w1 → k a0 w1 = (r2, w2) →
    keeps_all w1 w2 ∧ (∀ b, r2 = Ok b → Q b) ∧ (quiet w1 → ∃ b, r2 = Ok b)) →
  m_bind m k w = (r, w') →
  keeps_all w w' ∧ (∀ b, r = Ok b → Q b) ∧ (quiet w → ∃ b, r = Ok b).
Proof.
  intros Hm Hk. unfold m_bind. destruct (m w) as [[a|e] w1];
    destruct (Hm _ _ eq_refl) as (Hk1 & Ha & Hq1).
  - rewrite (Ha a eq_refl). intros Hr. destruct (Hk w1 r w' Hk1 Hr) as (Hk2 & HQ & Hq2).
    split; [by eapply keeps_trans|]. split; [done|]. intros Hqw. apply Hq2. by eapply keeps_quiet.
  - intros [= <- <-]. split; [done|]. split; [done|]. intros Hqw. destruct (Hq1 Hqw). done.
Qed.

Lemma load_spec st w r w' :
  inv w → sides_ok st → load st w = (r, w') →
  keeps_all w w' ∧
  (∀ o, r = Ok o → o = select_copy (fst <$> copy_at st w (side_a st)) (fst <$> copy_at st w (side_b st))) ∧
  (quiet w → ∃ o, r = Ok o).
Proof.
  intros Hinv Hso Hl. pose proof (so_bound st Hso) as Hbd. destruct Hso as [Ha Hb Hne _].
  unfold load in Hl.
  assert (∀ w0 p r0 w0', inv w0 → validate p false = Ok tt → read_side st p w0 = (r0, w0') →
    keeps_all w0 w0' ∧ (∀ o, r0 = Ok o → o = fst <$> copy_at st w0 p) ∧
    (quiet w0 → ∃ o, r0 = Ok o)) as Hside.
  { intros w0 p r0 w0' Hi0 Hp. unfold read_side, read_copy. intros Hr.
    eapply (pure_bind _ _ w0 (copy_at st w0 p)); [|..|exact Hr].
    - intros r1 w1 Hr1. by eapply read_copy_spec.
    - intros w1 r2 w2 Hk1 [= <- <-]. split; [by apply keeps_refl, (keeps_inv _ _ _ Hk1)|].
      split; [by intros b [= <-]|by eexists]. }
  eapply (pure_bind _ _ w (fst <$> copy_at st w (side_a st))); [|..|exact Hl].
  { intros r1 w1 Hr1. by eapply Hside. }
  intros w1 r2 w2 Hk1 Hr2.
  eapply (pure_bind _ _ w1 (fst <$> copy_at st w1 (side_b st))); [|..|exact Hr2].
  { intros r1 w1' Hr1. eapply Hside; [|done|done]. by eapply keeps_inv. }
  intros w3 r4 w4 Hk3 [= <- <-]. split; [by apply keeps_refl, (keeps_inv _ _ _ Hk3)|].
  split; [|by eexists]. intros b [= <-]. by rewrite (copy_keeps st w w1).
Qed.

(** What [store_select] computes, as a function of what readers see. *)
Definition selection (st : AbStore) (w : W) : string * option (string * bytes) * Z :=
  let a := copy_at st w (side_a st) in
  let b := copy_at st w (side_b st) in
  let target := target_for st ((λ c, generation (fst c)) <$> a) ((λ c, generation (fst c)) <$> b) in
  (target,
   if String.eqb target (side_a st) then (λ c, (side_b st, snd c)) <$> b
   else (λ c, (side_a st, snd c)) <$> a,
   max_existing (raw_at st w (side_a st)) (raw_at st w (side_b st))).

Lemma store_select_spec st w r w' :
  inv w → sides_ok st → store_select st w = (r, w') →
  keeps_all w w' ∧ (∀ o, r = Ok o → o = selection st w) ∧ (quiet w → ∃ o, r = Ok o).
Proof.
  intros Hinv Hso Hs. pose proof (so_bound st Hso) as Hbd. destruct Hso as [Ha Hb Hne _].
  unfold store_select in Hs.
  eapply (pure_bind _ _ w (raw_at st w (side_a st), raw_at st w (side_b st))); [|..|exact Hs].
  { intros r1 w1 Hr1. unfold generations in Hr1.
    eapply (pure_bind _ _ w (raw_at st w (side_a st))); [|..|exact Hr1].
    { intros. by eapply raw_generation_spec. }
    intros w2 r2 w3 Hk2 Hr2. pose proof (keeps_inv _ _ _ Hk2).
    eapply (pure_bind _ _ w2 (raw_at st w2 (side_b st))); [|..|exact Hr2].
    { intros. by eapply raw_generation_spec. }
    intros w4 r4 w5 Hk4 [= <- <-]. split; [by apply keeps_refl, (keeps_inv _ _ _ Hk4)|].
    split; [|by eexists]. intros b [= <-]. by rewrite (raw_keeps st w w2). }
  intros w1 r2 w2 Hk1 Hr2. pose proof (keeps_inv _ _ _ Hk1) as Hi1.
  eapply (pure_bind _ _ w1 (copy_at st w1 (side_a st))); [|..|exact Hr2].
  { intros. by eapply read_copy_spec. }
  intros w3 r4 w4 Hk3 Hr4. pose proof (keeps_inv _ _ _ Hk3) as Hi3.
  eapply (pure_bind _ _ w3 (copy_at st w3 (side_b st))); [|..|exact Hr4].
  { intros. by eapply read_copy_spec. }
  intros w5 r6 w6 Hk5 [= <- <-]. split; [by apply keeps_refl, (keeps_inv _ _ _ Hk5)|].
  split; [|by eexists]. intros b [= <-].
  rewrite (copy_keeps st w1 w3), !(copy_keeps st w w1) by done. done.
Qed.
(** ** Writing *)

Lemma write_range_over d bs : length d = length bs → write_range d 0 bs = bs.
Proof.
  intros Hl. unfold write_range. rewrite Nat.add_0_l, Hl, Nat.ltb_irrefl. simpl.
  rewrite drop_ge by lia. apply app_nil_r.
Qed.

Lemma length_resize n d : length (resize n d) = n.
Proof. unfold resize. rewrite length_app, length_take, length_zeros. lia. Qed.

Lemma blen_pos_nonnil (bs : bytes) : 0 < blen bs → bs ≠ [].
Proof. by intros ? ->. Qed.

Lemma resize_to bs : resize (length bs) bs = bs.
Proof. unfold resize. rewrite take_ge, Nat.sub_diag by lia. apply app_nil_r. Qed.

(** Failing early in a sequence of I/O calls. *)
Lemma io_bind {A B} (m : M W ErrorKind A) (k : A → M W FormatError B) w r w' :
  (let* a := lift_io m in k a) w = (r, w') →
  (∃ a w1, m w = (Ok a, w1) ∧ k a w1 = (r, w')) ∨
  (∃ e, m w = (Err e, w') ∧ r = Err (Io e)).
Proof.
  unfold m_bind, lift_io, m_map_err. destruct (m w) as [[a|e] w1]; simpl; [|intros [= <- <-]]; eauto.
Qed.

(** The tail both writers share: size, content, data sync. *)
Definition fill_file (file : F) (bs : bytes) : M W FormatError unit :=
  let* _ := lift_io (f_set_len file (blen bs)) in
  let* _ := lift_io (f_write_at file 0 bs) in
  lift_io (f_sync_data file).

Lemma fill_file_spec w f p bs r w' :
  inv w → handle w f p → bs ≠ [] → blen bs ≤ U64_MAX → fill_file f bs w = (r, w') →
  keeps (λ q, q ≠ p) w w' ∧ handle w' f p ∧ (r = Ok tt → synced w' p bs) ∧ (quiet w → r = Ok tt).
Proof.
  intros Hinv Hh Hne Hmax Hf. unfold fill_file in Hf. pose proof (blen_nonneg bs) as Hb0.
  assert (0 + blen bs ≤ U64_MAX) as Hmax' by lia.
  destruct (law_handle _ _ _ Hh) as [c Hc].
  destruct (proj1 (law_dirty_vis w p) ltac:(by eexists)) as [d Hd].
  apply io_bind in Hf as [([] & w1 & Hs1 & Hf)|(e & Hs1 & ->)];
    destruct (law_set_len _ _ _ _ _ _ _ _ Hinv Hh Hc Hd (conj Hb0 Hmax) Hs1) as (Hk1 & Hh1 & Ho1 & Hq1);
    cycle 1.
  { split; [done|]. split; [done|]. split; [done|]. intros Hq. by specialize (Hq1 Hq). }
  destruct (Ho1 eq_refl) as [Hc1 Hd1].
  apply io_bind in Hf as [([] & w2 & Hs2 & Hf)|(e & Hs2 & ->)];
    destruct (law_write _ _ _ _ _ _ _ _ _ (keeps_inv _ _ _ Hk1) Hh1 Hc1 Hd1 (Z.le_refl 0)
      Hmax' Hne Hs2) as (Hk2 & Hh2 & Ho2 & Hq2); pose proof (keeps_trans _ _ _ _ Hk1 Hk2) as Hk12;
    cycle 1.
  { split; [done|]. split; [done|]. split; [done|].
    intros Hq. by specialize (Hq2 (keeps_quiet _ _ _ Hk1 Hq)). }
  destruct (Ho2 eq_refl) as [Hc2 Hd2]. change (Z.to_nat 0) with 0%nat in *.
  unfold blen in Hc2, Hd2. rewrite Nat2Z.id in Hc2, Hd2.
  rewrite write_range_over in Hc2, Hd2 by apply length_resize.
  unfold lift_io, m_map_err in Hf. destruct (f_sync_data f w2) as [r3 w3] eqn:Hs3.
  destruct (law_sync_data _ _ _ _ _ _ (keeps_inv _ _ _ Hk2) Hh2 Hc2 Hs3) as (Hk3 & Hh3 & _ & Ho3 & Hq3).
  injection Hf as <- <-. split; [by eapply keeps_trans|]. split; [done|]. split.
  - destruct r3 as [[]|]; [|done]. intros _. by apply Ho3.
  - intros Hq. rewrite (Hq3 (keeps_quiet _ _ _ Hk12 Hq)). done.
Qed.

(** Filling a file with what is durably there changes nothing. *)
Lemma fill_file_same w f p bs r w' :
  inv w → handle w f p → synced w p bs → fill_file f bs w = (r, w') → keeps_all w w'.
Proof.
  intros Hinv Hh Hsy Hf. unfold fill_file in Hf.
  apply io_bind in Hf as [([] & w1 & Hs1 & Hf)|(e & Hs1 & ->)];
    pose proof (law_set_len_same _ _ _ _ _ _ Hinv Hh Hsy Hs1) as Hk1; [|done].
  pose proof (keeps_handle _ _ _ _ _ Hk1 I Hh) as Hh1.
  pose proof (keeps_synced _ _ _ _ _ Hk1 I Hsy) as Hsy1.
  apply io_bind in Hf as [([] & w2 & Hs2 & Hf)|(e & Hs2 & ->)];
    pose proof (law_write_same _ _ _ _ _ _ (keeps_inv _ _ _ Hk1) Hh1 Hsy1 Hs2) as Hk2;
    pose proof (keeps_trans _ _ _ _ Hk1 Hk2) as Hk12; [|done].
  unfold lift_io, m_map_err in Hf. destruct (f_sync_data f w2) as [r3 w3] eqn:Hs3.
  injection Hf as <- <-. eapply keeps_trans; [exact Hk12|].
  eapply law_sync_same; [by eapply keeps_inv| | |exact Hs3].
  - exact (keeps_handle _ _ _ _ _ Hk2 I Hh1).
  - exact (keeps_synced _ _ _ _ _ Hk2 I Hsy1).
Qed.

Lemma write_target_spec w path bs r w' :
  inv w → validate path false = Ok tt → bs ≠ [] → blen bs ≤ U64_MAX →
  write_target path bs w = (r, w') →
  keeps (λ q, q ≠ path) w w' ∧ (r = Ok tt → synced w' path bs) ∧ (quiet w → r = Ok tt).
Proof.
  intros Hinv Hv Hne Hmax Hw. unfold write_target in Hw.
  apply io_bind in Hw as [(f & w1 & Ho & Hw)|(e & Ho & ->)];
    destruct (law_open _ _ _ _ _ Hinv Hv Ho) as (Hk1 & Hok & _ & Hq & _);
    apply (keeps_weaken (λ q, q ≠ path)) in Hk1; [| by left | | by left]; cycle 1.
  { split; [done|]. split; [done|]. intros Hqw. destruct (Hq Hqw (or_intror eq_refl)). done. }
  destruct (Hok f eq_refl) as (Hh & _).
  destruct (fill_file_spec _ _ _ _ _ _ (keeps_inv _ _ _ Hk1) Hh Hne Hmax Hw) as (Hk2 & _ & Hsy & Hq2).
  split; [by eapply keeps_trans|]. split; [done|]. intros Hqw. apply Hq2. by eapply keeps_quiet.
Qed.

(** Preserving a readable copy touches only its path, leaves it durable on
    success, and never harms it where it was already durable. *)
Lemma preserve_spec w path bs r w' :
  inv w → validate path false = Ok tt → vis w path = Some bs → bs ≠ [] → blen bs ≤ U64_MAX →
  preserve path bs w = (r, w') →
  keeps (λ q, q ≠ path) w w' ∧ (r = Ok tt → stable w' path bs) ∧
  (stable w path bs → keeps_all w w') ∧ (quiet w → r = Ok tt).
Proof.
  intros Hinv Hv Hvis Hne Hmax Hp. unfold preserve in Hp.
  apply io_bind in Hp as [(f & w1 & Ho & Hp)|(e & Ho & ->)];
    destruct (law_open _ _ _ _ _ Hinv Hv Ho) as (Hk1 & Hok & _ & Hq & _);
    apply (keeps_weaken (λ _, True)) in Hk1; [| by auto | | by auto]; cycle 1.
  { split; [by eapply keeps_weaken; [|exact Hk1]|]. split; [done|]. split; [done|].
    intros Hqw. destruct (Hq Hqw); [left; by rewrite Hvis|done]. }
  destruct (Hok f eq_refl) as (Hh & _).
  pose proof (keeps_weaken (λ q, q ≠ path) _ _ _ (λ _ _, I) Hk1) as Hk1'.
  assert (∃ r2 w2, fill_file f bs w1 = (r2, w2) ∧
    ((r2 = Ok tt ∧ lift_io (b_sync_dir (parent path)) w2 = (r, w')) ∨
     (∃ e, r2 = Err e ∧ r = Err e ∧ w' = w2))) as (r2 & w2 & Hf & Hor).
  { destruct (fill_file f bs w1) as [r2 w2] eqn:Hf. exists r2, w2. split; [done|].
    unfold fill_file, m_bind in Hf. unfold m_bind in Hp.
    destruct (lift_io (f_set_len f (blen bs)) w1) as [[[]|e] wa]; [|naive_solver].
    destruct (lift_io (f_write_at f 0 bs) wa) as [[[]|e] wb]; [|naive_solver].
    rewrite Hf in Hp. destruct r2 as [[]|e]; naive_solver. }
  pose proof (keeps_inv _ _ _ Hk1) as Hi1.
  destruct (fill_file_spec _ _ _ _ _ _ Hi1 Hh Hne Hmax Hf) as (Hk2 & _ & Hsy & Hq2).
  assert (stable w path bs → keeps_all w1 w2) as Hsame.
  { intros Hst. eapply fill_file_same; [done|done| |done].
    apply law_stable_synced. exact (keeps_stable _ _ _ _ _ Hk1 I Hst). }
  destruct Hor as [[-> Hd]|(e & -> & -> & ->)]; cycle 1.
  { split; [by eapply keeps_trans|]. split; [done|]. split; [|by intros Hqw; specialize (Hq2 (keeps_quiet _ _ _ Hk1 Hqw))].
    intros Hst. eapply keeps_trans; [exact Hk1|by apply Hsame]. }
  unfold lift_io, m_map_err in Hd. destruct (b_sync_dir (parent path) w2) as [r3 w3] eqn:Hs3.
  destruct (law_sync_dir _ _ _ _ (keeps_inv _ _ _ Hk2) (validate_parent _ Hv) Hs3) as (Hk3 & Hst3 & Hq3 & _).
  injection Hd as <- <-.
  pose proof (keeps_weaken (λ q, q ≠ path) _ _ _ (λ _ _, I) Hk3) as Hk3'.
  split; [by eapply keeps_trans; [|exact Hk3']; eapply keeps_trans|]. split; [|split].
  - destruct r3 as [[]|]; [|done]. intros _. eapply Hst3; [done|by apply direct_parent|by apply Hsy].
  - intros Hst. eapply keeps_trans; [exact Hk1|]. eapply keeps_trans; [by apply Hsame|exact Hk3].
  - intros Hqw. rewrite Hq3; [done|]. eapply keeps_quiet; [exact Hk2|]. by eapply keeps_quiet.
Qed.
(** ** The protocol *)

Context `{!AbRecordLaws T}.

Definition is_side (st : AbStore) (p : string) : Prop := p = side_a st ∨ p = side_b st.

(** A typed-valid copy that every crash leaves in place. *)
Definition durable_copy (st : AbStore) (w : W) (p : string) (record : T) : Prop :=
  ∃ bs, stable w p bs ∧ 0 < blen bs ≤ bound st ∧ ab_decode bs = Ok record.

Definition established (st : AbStore) (w : W) (g : Z) : Prop :=
  ∃ p record, is_side st p ∧ durable_copy st w p record ∧ g ≤ generation record.

Lemma copy_at_some st w p record bs :
  copy_at st w p = Some (record, bs) ↔
  vis w p = Some bs ∧ 0 < blen bs ≤ bound st ∧ ab_decode bs = Ok record.
Proof.
  unfold copy_at, decode_copy, seen. destruct (vis w p) as [c|]; simpl; [|naive_solver].
  pose proof (blen_nonneg c).
  destruct ((blen c =? 0) || (bound st <? blen c)) eqn:Hb; simpl.
  - split; [done|]. intros ([= ->] & ? & _). apply orb_true_iff in Hb as [?%Z.eqb_eq|?%Z.ltb_lt]; lia.
  - inv_guards. destruct (ab_decode c) eqn:Hd;
      [|split; [done|intros ([= <-] & _ & ?); congruence]].
    split; [intros [= <- <-]|intros ([= <-] & _ & Hr); congruence].
    split; [done|]. split; [lia|done].
Qed.

Lemma durable_copy_at st w p record :
  durable_copy st w p record → ∃ bs, copy_at st w p = Some (record, bs) ∧ stable w p bs.
Proof.
  intros (bs & Hst & Hb & Hd). exists bs. split; [|done]. apply copy_at_some.
  split; [by apply stable_vis|done].
Qed.

Definition preserved_of (st : AbStore) (w : W) : option (string * bytes) := (selection st w).1.2.
Definition target_of (st : AbStore) (w : W) : string := (selection st w).1.1.
Definition existing_of (st : AbStore) (w : W) : Z := (selection st w).2.

(** The target is one side; what is preserved is a valid copy on the other. *)
Lemma selection_sides st w :
  sides_ok st → is_side st (target_of st w) ∧
  (∀ p bs, preserved_of st w = Some (p, bs) →
    is_side st p ∧ p ≠ target_of st w ∧ ∃ record, copy_at st w p = Some (record, bs)).
Proof.
  intros Hso. unfold is_side, target_of, preserved_of, selection. cbn [fst snd].
  set (t := target_for _ _ _).
  assert (t = side_a st ∨ t = side_b st) as Ht.
  { unfold t, target_for. repeat case_match; auto. }
  split; [done|]. intros p bs Hp. pose proof (so_ne st Hso) as Hne.
  destruct (String.eqb_spec t (side_a st)) as [Hta|Hta];
    apply fmap_Some in Hp as ([record bs'] & Hc & [= -> ->]).
  - split; [auto|]. split; [congruence|]. by exists record.
  - split; [auto|]. split; [congruence|]. by exists record.
Qed.

(** A valid side is only overwritten when the other side is valid and at
    least as new. *)
Lemma selection_overwrites st w record bs :
  sides_ok st → copy_at st w (target_of st w) = Some (record, bs) →
  ∃ p record' bs', preserved_of st w = Some (p, bs') ∧
    copy_at st w p = Some (record', bs') ∧ generation record ≤ generation record'.
Proof.
  intros Hso. unfold target_of, preserved_of, selection. cbn [fst snd].
  pose proof (so_ne st Hso) as Hne.
  destruct (copy_at st w (side_a st)) as [[ra ba]|] eqn:Ha;
    destruct (copy_at st w (side_b st)) as [[rb bb]|] eqn:Hb; simpl.
  - destruct (Z.leb_spec (generation ra) (generation rb)).
    + rewrite String.eqb_refl. intros Hc. rewrite Ha in Hc. injection Hc as <- <-. naive_solver.
    + rewrite (proj2 (String.eqb_neq _ _)) by done. intros Hc. rewrite Hb in Hc.
      injection Hc as <- <-. do 3 eexists. split; [done|]. split; [done|]. lia.
  - intros Hc. by rewrite Hb in Hc.
  - intros Hc. by rewrite Ha in Hc.
  - intros Hc. by rewrite Ha in Hc.
Qed.

Lemma prepare_spec st record w r w1 :
  inv w → sides_ok st → store_prepare st record w = (r, w1) →
  let next := Z.max (existing_of st w) (generation record) + 1 in
  keeps (λ q, ∀ p bs, preserved_of st w = Some (p, bs) → q ≠ p) w w1 ∧
  (∀ p bs, preserved_of st w = Some (p, bs) → stable w p bs → keeps_all w w1) ∧
  (∀ t n, r = Ok (t, n) → t = target_of st w ∧ n = next ∧ next ≤ U64_MAX ∧
    ∀ p bs, preserved_of st w = Some (p, bs) → stable w1 p bs) ∧
  (quiet w → r = (if next <=? U64_MAX then Ok (target_of st w, next) else Err Invalid)).
Proof.
  intros Hinv Hso Hp. cbv zeta. unfold store_prepare, m_bind in Hp.
  destruct (store_select st w) as [[sel|e] ws] eqn:Hsel;
    destruct (store_select_spec _ _ _ _ Hinv Hso Hsel) as (Hks & Hs & Hqs); cycle 1.
  { injection Hp as <- <-. split; [by eapply keeps_weaken; [|exact Hks]|]. split; [done|].
    split; [done|]. intros Hq. destruct (Hqs Hq). done. }
  specialize (Hs sel eq_refl). subst sel.
  destruct (selection_sides st w Hso) as [_ Hpres].
  unfold target_of, preserved_of, existing_of in *.
  destruct (selection st w) as [[target preserved] existing]. cbn [fst snd] in *.
  assert (∀ wp, (match preserved with Some (p, bs) => preserve p bs | None => m_ret tt end) ws = wp →
    keeps (λ q, ∀ p bs, preserved = Some (p, bs) → q ≠ p) w wp.2 ∧
    (∀ p bs, preserved = Some (p, bs) → stable w p bs → keeps_all w wp.2) ∧
    (wp.1 = Ok tt → ∀ p bs, preserved = Some (p, bs) → stable wp.2 p bs) ∧
    (quiet w → wp.1 = Ok tt)) as Hpre.
  { intros [rp wp] Hpr. cbn [fst snd]. destruct preserved as [[p bs]|]; cycle 1.
    { injection Hpr as <- <-. split; [by eapply keeps_weaken; [|exact Hks]|]. done. }
    destruct (Hpres p bs eq_refl) as (Hsd & _ & rec & Hcp). apply copy_at_some in Hcp as (Hvis & Hbl & _).
    assert (validate p false = Ok tt) as Hvp by (destruct Hsd as [->| ->]; apply Hso).
    assert (bs ≠ []) as Hne by (apply blen_pos_nonnil; lia).
    pose proof (so_bound st Hso) as Hbd.
    destruct (preserve_spec ws p bs rp wp (keeps_inv _ _ _ Hks) Hvp) as (Hk & Hok & Hst & Hq);
      [by rewrite (keeps_vis _ _ _ _ Hks)|done|lia|done|].
    split.
    { eapply keeps_trans; [by eapply keeps_weaken; [|exact Hks]|].
      eapply keeps_weaken; [|exact Hk]. intros q Hq'. by apply (Hq' p bs). }
    split.
    { intros ? ? [= <- <-] Hstw. eapply keeps_trans; [exact Hks|]. apply Hst.
      exact (keeps_stable _ _ _ _ _ Hks I Hstw). }
    split; [intros -> ? ? [= <- <-]; by apply Hok|].
    intros Hqw. apply Hq. by eapply keeps_quiet. }
  destruct ((match preserved with Some (p, bs) => preserve p bs | None => m_ret tt end) ws)
    as [rp wp] eqn:Hpr.
  destruct (Hpre _ eq_refl) as (Hk & Hst & Hok & Hq). cbn [fst snd] in *.
  destruct rp as [[]|e]; cycle 1.
  { injection Hp as <- <-. split; [done|]. split; [done|]. split; [done|].
    intros Hqw. by specialize (Hq Hqw). }
  unfold m_lift, checked_add in Hp.
  destruct (Z.leb_spec (Z.max existing (generation record) + 1) U64_MAX); injection Hp as <- <-;
    (split; [done|]); (split; [done|]); (split; [|done]); [|done].
  intros t n [= <- <-]. split; [done|]. split; [done|]. split; [done|]. by apply Hok.
Qed.
Lemma keeps_durable_copy (P : string → Prop) st w w' p record :
  keeps P w w' → P p → durable_copy st w p record → durable_copy st w' p record.
Proof.
  intros Hk Hp (bs & Hst & ?). exists bs. split; [|done]. by eapply keeps_stable.
Qed.

(** The preparation keeps every durable copy, the preserved one included. *)
Lemma prepare_durable st record w r w1 p rec :
  inv w → sides_ok st → store_prepare st record w = (r, w1) →
  durable_copy st w p rec → durable_copy st w1 p rec.
Proof.
  intros Hinv Hso Hp Hd. destruct (prepare_spec _ _ _ _ _ Hinv Hso Hp) as (Hk & Hst & _).
  destruct (durable_copy_at _ _ _ _ Hd) as (bs & Hc & Hs).
  destruct (preserved_of st w) as [[q bs']|] eqn:Hpr; cycle 1.
  { eapply keeps_durable_copy; [exact Hk|done|done]. }
  destruct (decide (p = q)) as [->|Hne].
  - destruct (selection_sides st w Hso) as [_ Hsel].
    destruct (Hsel q bs' Hpr) as (_ & _ & rec' & Hc'). rewrite Hc in Hc'. injection Hc' as <- <-.
    eapply keeps_durable_copy; [by eapply Hst|done|done].
  - eapply keeps_durable_copy; [exact Hk| |done]. by intros ? ? [= <- <-].
Qed.

(** The result of a store that got past its preparation. *)
Lemma store_cases st record w r record' w' :
  ab_wf record → store st record w = (r, record', w') →
  ∃ rp w1, store_prepare st record w = (rp, w1) ∧
  ((∃ e, rp = Err e ∧ r = Err e ∧ record' = record ∧ w' = w1) ∨
   (∃ target next, rp = Ok (target, next) ∧ record' = set_generation next record ∧
     (u64_ok next → ∃ bs, ab_encode record' = Some bs ∧ 0 < blen bs ≤ MAX_ENCODED_LEN ∧
       ab_decode bs = Ok record' ∧ write_target target bs w1 = (r, w')))).
Proof.
  intros Hwf. unfold store. destruct (store_prepare st record w) as [[[target next]|e] w1];
    intros Hs; eexists _, w1; (split; [done|]); cycle 1.
  { left. injection Hs as <- <- <-. by eexists. }
  right. exists target, next. split; [done|].
  destruct (ab_encode (set_generation next record)) as [bs|] eqn:He.
  - destruct (write_target target bs w1) as [r2 w2] eqn:Hw. injection Hs as <- <- <-. split; [done|].
    intros Hn. destruct (ab_encode_ok (set_generation next record)) as (bs' & He' & Hb & Hd);
      [by apply ab_set_wf|]. rewrite He in He'. injection He' as <-. by exists bs.
  - injection Hs as <- <- <-. split; [done|]. intros Hn.
    destruct (ab_encode_ok (set_generation next record)) as (bs' & He' & _);
      [by apply ab_set_wf|]. congruence.
Qed.

Lemma next_u64 st w record r w1 t n :
  inv w → sides_ok st → ab_wf record → store_prepare st record w = (r, w1) → r = Ok (t, n) →
  u64_ok n ∧ generation record < n ∧ existing_of st w < n.
Proof.
  intros Hinv Hso Hwf Hp Hr. destruct (prepare_spec _ _ _ _ _ Hinv Hso Hp) as (_ & _ & Ho & _).
  destruct (Ho _ _ Hr) as (_ & -> & Hle & _). pose proof (ab_wf_generation _ Hwf) as Hg.
  unfold u64_ok, U64_MAX in *. lia.
Qed.

(** However a store ends, the record in memory changed at most its generation. *)
Lemma store_outcome st record w r record' w' :
  inv w → sides_ok st → ab_wf record → store st record w = (r, record', w') →
  ab_wf record' ∧ (record' = record ∨ ∃ next, record' = set_generation next record).
Proof.
  intros Hinv Hso Hwf Hs. destruct (store_cases _ _ _ _ _ _ Hwf Hs) as (rp & w1 & Hp & Hc).
  destruct Hc as [(e & _ & _ & -> & _)|(target & next & -> & -> & _)]; [by auto|].
  destruct (next_u64 _ _ _ _ _ _ _ Hinv Hso Hwf Hp eq_refl) as (Hn & _).
  split; [by apply ab_set_wf|right; by eexists].
Qed.

(** A store that succeeds hands back a well-formed record of a new generation. *)
Lemma store_result st record w record' w' :
  inv w → sides_ok st → ab_wf record → store st record w = (Ok tt, record', w') →
  ab_wf record' ∧ ∃ next, record' = set_generation next record.
Proof.
  intros Hinv Hso Hwf Hs. destruct (store_cases _ _ _ _ _ _ Hwf Hs) as (rp & w1 & Hp & Hc).
  destruct Hc as [(e & _ & ? & _)|(target & next & -> & -> & Hw)]; [done|].
  destruct (next_u64 _ _ _ _ _ _ _ Hinv Hso Hwf Hp eq_refl) as (Hn & _).
  split; [by apply ab_set_wf|by eexists].
Qed.

(** The heart of the protocol: a store, however it ends, keeps a durable copy
    or replaces it only after making the other side, valid and at least as
    new, durable. *)
Lemma store_survives st record w r record' w' p rec :
  inv w → sides_ok st → ab_wf record → is_side st p → durable_copy st w p rec →
  store st record w = (r, record', w') →
  inv w' ∧ (durable_copy st w' p rec ∨
    ∃ q rec' bs, is_side st q ∧ q ≠ p ∧ copy_at st w q = Some (rec', bs) ∧
      generation rec ≤ generation rec' ∧ durable_copy st w' q rec').
Proof.
  intros Hinv Hso Hwf Hside Hd Hs.
  destruct (store_cases _ _ _ _ _ _ Hwf Hs) as (rp & w1 & Hp & Hc).
  pose proof (prepare_durable _ _ _ _ _ _ _ Hinv Hso Hp Hd) as Hd1.
  destruct (prepare_spec _ _ _ _ _ Hinv Hso Hp) as (Hk1 & _ & Ho & _).
  pose proof (keeps_inv _ _ _ Hk1) as Hi1.
  destruct Hc as [(e & -> & -> & -> & ->)|(target & next & -> & -> & Hw)]; [by auto|].
  destruct (next_u64 _ _ _ _ _ _ _ Hinv Hso Hwf Hp eq_refl) as [Hn _].
  destruct (Hw Hn) as (bs & He & Hb & Hdec & Hwt).
  destruct (Ho _ _ eq_refl) as (-> & _ & _ & Hpst).
  destruct (selection_sides st w Hso) as [Htside Hsel].
  assert (validate (target_of st w) false = Ok tt) as Hvt
    by (destruct Htside as [->| ->]; apply Hso).
  pose proof (so_max st Hso) as Hmax.
  destruct (write_target_spec w1 (target_of st w) bs r w' Hi1 Hvt) as (Hk2 & _);
    [apply blen_pos_nonnil; lia|lia|done|].
  split; [by eapply keeps_inv|].
  destruct (decide (p = target_of st w)) as [->|Hne]; [right|left; by eapply keeps_durable_copy].
  destruct (durable_copy_at _ _ _ _ Hd) as (bs0 & Hc0 & _).
  destruct (selection_overwrites _ _ _ _ Hso Hc0) as (q & rec' & bs' & Hpr & Hcq & Hle).
  destruct (Hsel q bs' Hpr) as (Hqs & Hqne & _).
  exists q, rec', bs'. split; [done|]. split; [done|]. split; [done|]. split; [done|].
  apply copy_at_some in Hcq as (_ & Hbq & Hdq).
  exists bs'. split; [|done]. eapply keeps_stable; [exact Hk2|done|]. by apply Hpst.
Qed.

Lemma store_established st record w r record' w' g :
  inv w → sides_ok st → ab_wf record → established st w g →
  store st record w = (r, record', w') → inv w' ∧ established st w' g.
Proof.
  intros Hinv Hso Hwf (p & rec & Hside & Hd & Hg) Hs.
  destruct (store_survives _ _ _ _ _ _ _ _ Hinv Hso Hwf Hside Hd Hs)
    as (Hi' & [Hd'|(q & rec' & bs & Hq & _ & _ & Hle & Hd')]); (split; [done|]).
  - by exists p, rec.
  - exists q, rec'. split; [done|]. split; [done|]. lia.
Qed.

(** Everything that can happen to the pair: stores with any outcome, loads,
    directory syncs, and crashes. *)
Inductive ab_step (st : AbStore) : W → W → Prop :=
| ab_step_store w record r record' w' :
    ab_wf record → store st record w = (r, record', w') → ab_step st w w'
| ab_step_load w r w' : load st w = (r, w') → ab_step st w w'
| ab_step_sync_dir w d r w' :
    validate d true = Ok tt → b_sync_dir d w = (r, w') → ab_step st w w'
| ab_step_crash w w' : crashes w w' → ab_step st w w'.

Lemma ab_step_established st w w' g :
  sides_ok st → inv w → established st w g → ab_step st w w' → inv w' ∧ established st w' g.
Proof.
  intros Hso Hinv He Hstep.
  inversion Hstep as [? record r record' ? Hwf Hs|? r ? Hl|? d r ? Hv Hd|? ? Hc]; subst.
  - by eapply store_established.
  - destruct (load_spec _ _ _ _ Hinv Hso Hl) as (Hk & _). split; [by eapply keeps_inv|].
    destruct He as (p & rec & ? & Hd & ?). exists p, rec. split; [done|]. split; [|done].
    by eapply keeps_durable_copy.
  - destruct (law_sync_dir _ _ _ _ Hinv Hv Hd) as (Hk & _). split; [by eapply keeps_inv|].
    destruct He as (p & rec & ? & Hdc & ?). exists p, rec. split; [done|]. split; [|done].
    by eapply keeps_durable_copy.
  - destruct (law_crash _ _ Hinv Hc) as (Hi' & _ & Hst & _). split; [done|].
    destruct He as (p & rec & ? & (bs & Hs & ?) & ?). exists p, rec. split; [done|]. split; [|done].
    exists bs. auto.
Qed.

Lemma select_copy_le a b c :
  select_copy a b = Some c → ∀ r, a = Some r ∨ b = Some r → generation r ≤ generation c.
Proof.
  unfold select_copy. destruct a as [a|], b as [b|]; try done.
  - destruct (Z.leb_spec (generation b) (generation a)); intros [= <-] r [[= ->]|[= ->]]; lia.
  - intros [= <-] r [[= ->]|?]; done.
  - intros [= <-] r [?|[= ->]]; done.
Qed.

Lemma established_load st w g r w' :
  inv w → sides_ok st → quiet w → established st w g → load st w = (r, w') →
  ∃ record, r = Ok (Some record) ∧ g ≤ generation record.
Proof.
  intros Hinv Hso Hq (p & rec & Hside & Hd & Hg) Hl.
  destruct (load_spec _ _ _ _ Hinv Hso Hl) as (_ & Ho & Hqo). destruct (Hqo Hq) as [o ->].
  specialize (Ho o eq_refl). destruct (durable_copy_at _ _ _ _ Hd) as (bs & Hc & _).
  destruct o as [record|].
  - exists record. split; [done|]. symmetry in Ho. etransitivity; [exact Hg|].
    eapply select_copy_le; [exact Ho|]. destruct Hside as [->| ->]; [left|right]; by rewrite Hc.
  - exfalso. destruct Hside as [->| ->]; rewrite Hc in Ho; simpl in Ho;
      [by destruct (copy_at st w (side_b st))|by destruct (copy_at st w (side_a st))].
Qed.
(** There is a next generation. *)
Definition next_fits (st : AbStore) (w : W) (record : T) : Prop :=
  Z.max (existing_of st w) (generation record) + 1 ≤ U64_MAX.

(** A store touches no file but its two sides. *)
Lemma store_keeps st record w r record' w' :
  inv w → sides_ok st → ab_wf record → store st record w = (r, record', w') →
  keeps (λ q, ¬ is_side st q) w w' ∧ (quiet w → next_fits st w record → r = Ok tt).
Proof.
  intros Hinv Hso Hwf Hs. destruct (store_cases _ _ _ _ _ _ Hwf Hs) as (rp & w1 & Hp & Hc).
  destruct (prepare_spec _ _ _ _ _ Hinv Hso Hp) as (Hk1 & _ & Ho & Hq1).
  destruct (selection_sides st w Hso) as [Htside Hsel].
  apply (keeps_weaken (λ q, ¬ is_side st q)) in Hk1; cycle 1.
  { intros q Hq p bs Hpr ->. by destruct (Hsel p bs Hpr). }
  unfold next_fits. destruct Hc as [(e & -> & -> & -> & ->)|(target & next & -> & -> & Hw)].
  { split; [done|]. intros Hqw Hn. specialize (Hq1 Hqw). by rewrite (proj2 (Z.leb_le _ _)) in Hq1. }
  destruct (next_u64 _ _ _ _ _ _ _ Hinv Hso Hwf Hp eq_refl) as [Hn _].
  destruct (Hw Hn) as (bs & He & Hb & Hdec & Hwt). destruct (Ho _ _ eq_refl) as (-> & _).
  pose proof (so_max st Hso) as Hmax.
  assert (validate (target_of st w) false = Ok tt) as Hvt
    by (destruct Htside as [->| ->]; apply Hso).
  destruct (write_target_spec w1 (target_of st w) bs r w' (keeps_inv _ _ _ Hk1) Hvt) as (Hk2 & _ & Hq2);
    [apply blen_pos_nonnil; lia|lia|done|].
  split.
  - eapply keeps_trans; [exact Hk1|]. eapply keeps_weaken; [|exact Hk2]. by intros q Hq ->.
  - intros Hqw _. apply Hq2. by eapply keeps_quiet.
Qed.

(** ** A completed store *)

Lemma copy_raw st w p rec bs :
  copy_at st w p = Some (rec, bs) → raw_at st w p = Some (generation rec).
Proof.
  intros Hc. pose proof Hc as (Hv & Hb & Hd)%copy_at_some. unfold raw_at, seen. rewrite Hv. simpl.
  rewrite (proj2 (Z.eqb_neq _ _)), (proj2 (Z.ltb_ge _ _)) by lia. simpl.
  assert (blen bs ≤ MAX_ENCODED_LEN) as Hmax by (unfold bound in Hb; destruct (max_len st); lia).
  by destruct (ab_decode_raw bs rec Hmax Hd) as [-> _].
Qed.

Lemma raw_le st w p g : is_side st p → raw_at st w p = Some g → g ≤ existing_of st w.
Proof.
  intros Hs Hr. unfold existing_of, selection. cbn [snd]. destruct Hs as [->| ->]; rewrite Hr; unfold max_existing; case_match; lia.
Qed.

Lemma existing_ge st w p rec bs :
  is_side st p → copy_at st w p = Some (rec, bs) → generation rec ≤ existing_of st w.
Proof.
  intros Hs Hc%copy_raw. by eapply raw_le.
Qed.

Definition other (st : AbStore) (p : string) : string :=
  if String.eqb p (side_a st) then side_b st else side_a st.

Lemma other_other st t : sides_ok st → is_side st t → other st (other st t) = t.
Proof.
  intros Hso Ht. pose proof (so_ne st Hso) as Hne. unfold other.
  destruct Ht as [->| ->]; rewrite ?String.eqb_refl, ?(proj2 (String.eqb_neq (side_b st) (side_a st))), ?String.eqb_refl by congruence; done.
Qed.

(** The two sides: the selected target and the other one. *)
Lemma target_cases st w :
  sides_ok st →
  (∃ p bs, preserved_of st w = Some (p, bs) ∧ p = other st (target_of st w)) ∨
  (preserved_of st w = None ∧ target_of st w = side_a st ∧
   copy_at st w (side_a st) = None ∧ copy_at st w (side_b st) = None).
Proof.
  intros Hso. pose proof (so_ne st Hso) as Hne.
  unfold preserved_of, target_of, selection, other. cbn [fst snd].
  destruct (copy_at st w (side_a st)) as [[ra ba]|], (copy_at st w (side_b st)) as [[rb bb]|]; simpl.
  - destruct (_ <=? _); rewrite ?String.eqb_refl, ?(proj2 (String.eqb_neq (side_b st) (side_a st)));
      first [done | left; by do 2 eexists].
  - rewrite (proj2 (String.eqb_neq (side_b st) (side_a st))) by done. left. by do 2 eexists.
  - rewrite String.eqb_refl. left. by do 2 eexists.
  - rewrite String.eqb_refl. by right.
Qed.

(** What is durable about the pair once a store and its directory sync have
    succeeded: the new record on one side; on the other an older record or
    nothing at all. *)
Definition settled (st : AbStore) (w : W) (record : T) : Prop :=
  inv w ∧ ∃ t, is_side st t ∧ durable_copy st w t record ∧
  ((∃ rec, durable_copy st w (other st t) rec ∧ generation rec < generation record) ∨
   absent w (other st t)).

(** When one side holds a newer valid copy than the other, the next store
    replaces the other. *)
Lemma target_other st w t rec bs :
  sides_ok st → is_side st t → copy_at st w t = Some (rec, bs) →
  (∀ rec' bs', copy_at st w (other st t) = Some (rec', bs') → generation rec' < generation rec) →
  target_of st w = other st t.
Proof.
  intros Hso Ht Hc Hlt. pose proof (so_ne st Hso) as Hne.
  unfold target_of, selection, other in *. cbn [fst snd]. destruct Ht as [->| ->].
  - rewrite String.eqb_refl in *. rewrite Hc.
    destruct (copy_at st w (side_b st)) as [[rb bb]|]; simpl; [|done].
    specialize (Hlt _ _ eq_refl). by rewrite (proj2 (Z.leb_gt _ _)).
  - rewrite (proj2 (String.eqb_neq _ _)) in * by done. rewrite Hc.
    destruct (copy_at st w (side_a st)) as [[ra ba]|]; simpl; [|done].
    specialize (Hlt _ _ eq_refl). by rewrite (proj2 (Z.leb_le _ _)) by lia.
Qed.

Lemma settled_crash st w w' record : settled st w record → crashes w w' → settled st w' record.
Proof.
  intros (Hinv & t & Ht & (bs & Hs & Hb) & Ho) Hc.
  destruct (law_crash _ _ Hinv Hc) as (Hi' & _ & Hst & Hab & _).
  split; [done|]. exists t. split; [done|]. split; [exists bs; auto|].
  destruct Ho as [(rec & (bs0 & ? & ?) & ?)|Ha]; [left|right; auto].
  exists rec. split; [|done]. exists bs0. auto.
Qed.

(** A load that succeeds returns the settled record. *)
Lemma settled_selects st w record o w' :
  sides_ok st → settled st w record → load st w = (Ok o, w') → o = Some record.
Proof.
  intros Hso (Hinv & t & Ht & Hd & Ho) Hl.
  destruct (load_spec _ _ _ _ Hinv Hso Hl) as (_ & Hr & _). rewrite (Hr o eq_refl). clear Hr.
  destruct (durable_copy_at _ _ _ _ Hd) as (bs & Hc & _).
  assert (match copy_at st w (other st t) with
          | Some (rec, _) => generation rec < generation record | None => True end) as Hoth.
  { destruct Ho as [(rec & Hdr & Hlt)|Ha].
    - by destruct (durable_copy_at _ _ _ _ Hdr) as (bs0 & -> & _).
    - unfold copy_at, seen. by rewrite (law_absent _ _ Ha). }
  pose proof (so_ne st Hso) as Hne. unfold other in Hoth. destruct Ht as [->| ->].
  - rewrite String.eqb_refl in Hoth. rewrite Hc.
    destruct (copy_at st w (side_b st)) as [[rb bb]|]; simpl; [|done].
    by rewrite (proj2 (Z.leb_le _ _)) by lia.
  - rewrite (proj2 (String.eqb_neq _ _)) in Hoth by done. rewrite Hc.
    destruct (copy_at st w (side_a st)) as [[ra ba]|]; simpl; [|done].
    by rewrite (proj2 (Z.leb_gt _ _)) by lia.
Qed.

Lemma settled_load st w record r w' :
  sides_ok st → settled st w record → quiet w → load st w = (r, w') → r = Ok (Some record).
Proof.
  intros Hso Hs Hq Hl. destruct (load_spec _ _ _ _ (proj1 Hs) Hso Hl) as (_ & _ & Hqo). destruct (Hqo Hq) as [o ->].
  f_equal. by eapply settled_selects.
Qed.

(** A typed-valid copy whose content, but not yet its name, is durable. *)
Definition held_copy (st : AbStore) (w : W) (p : string) (record : T) : Prop :=
  ∃ bs, synced w p bs ∧ 0 < blen bs ≤ bound st ∧ ab_decode bs = Ok record.

Definition encodings_fit (st : AbStore) (record : T) : Prop :=
  ∀ g bs, u64_ok g → ab_encode (set_generation g record) = Some bs → blen bs ≤ bound st.

Lemma held_copy_at st w p record :
  held_copy st w p record → ∃ bs, copy_at st w p = Some (record, bs).
Proof.
  intros (bs & Hsy & Hb & Hd). exists bs. apply copy_at_some. by destruct (law_synced _ _ _ Hsy).
Qed.

Lemma durable_held st w p record : durable_copy st w p record → held_copy st w p record.
Proof. intros (bs & Hst & ?). exists bs. split; [by apply law_stable_synced|done]. Qed.

Lemma keeps_held_copy (P : string → Prop) st w w' p record :
  keeps P w w' → P p → held_copy st w p record → held_copy st w' p record.
Proof. intros Hk Hp (bs & Hs & ?). exists bs. split; [by eapply keeps_synced|done]. Qed.

(** After a successful store the target holds the new record, the preserved
    copy is durable, and every durable copy elsewhere is untouched. *)
Lemma store_done st record record' w w1 :
  sides_ok st → inv w → ab_wf record → encodings_fit st record →
  store st record w = (Ok tt, record', w1) →
  inv w1 ∧ held_copy st w1 (target_of st w) record' ∧
  (∀ p rec, p ≠ target_of st w → durable_copy st w p rec → durable_copy st w1 p rec) ∧
  (∀ p bs, preserved_of st w = Some (p, bs) → stable w1 p bs) ∧
  (preserved_of st w = None → keeps (λ q, q ≠ target_of st w) w w1) ∧
  generation record < generation record' ∧ existing_of st w < generation record' ∧
  (∃ next, record' = set_generation next record) ∧ ab_wf record'.
Proof.
  intros Hso Hinv Hwf Hfit Hs.
  destruct (store_cases _ _ _ _ _ _ Hwf Hs) as (rp & w0 & Hp & Hc).
  destruct Hc as [(e & _ & ? & _)|(target & next & -> & -> & Hw)]; [done|].
  destruct (next_u64 _ _ _ _ _ _ _ Hinv Hso Hwf Hp eq_refl) as (Hn & Hg & Hex).
  destruct (Hw Hn) as (bs & He & Hb & Hdec & Hwt). specialize (Hfit next bs Hn He).
  destruct (prepare_spec _ _ _ _ _ Hinv Hso Hp) as (Hk1 & _ & Ho & _).
  destruct (Ho _ _ eq_refl) as (-> & _ & _ & Hpst).
  destruct (selection_sides st w Hso) as [Htside Hsel].
  assert (validate (target_of st w) false = Ok tt) as Hvt
    by (destruct Htside as [->| ->]; apply Hso).
  pose proof (so_max st Hso) as Hmax.
  destruct (write_target_spec w0 (target_of st w) bs (Ok tt) w1 (keeps_inv _ _ _ Hk1) Hvt)
    as (Hk2 & Hsy & _); [apply blen_pos_nonnil; lia|lia|done|].
  rewrite ab_generation_set. split; [by eapply keeps_inv|].
  split; [exists bs; split; [by apply Hsy|split; [lia|done]]|].
  split; [|split; [|split; [|split; [done|split; [done|split; [by eexists|by apply ab_set_wf]]]]]].
  - intros p rec Hne Hdc. eapply keeps_durable_copy; [exact Hk2|done|]. by eapply prepare_durable.
  - intros p bs0 Hpr. eapply keeps_stable; [exact Hk2| |by apply Hpst].
    by destruct (Hsel p bs0 Hpr) as (_ & ? & _).
  - intros Hnone. eapply keeps_trans; [|exact Hk2]. eapply keeps_weaken; [|exact Hk1].
    intros q _ p bs0 Hpr. congruence.
Qed.

(** The other side of a store keeps its bytes, and the new generation is one
    above everything on disk. *)
Lemma store_next st record record' w w1 :
  sides_ok st → inv w → ab_wf record → encodings_fit st record →
  store st record w = (Ok tt, record', w1) →
  generation record' = Z.max (existing_of st w) (generation record) + 1 ∧
  vis w1 (other st (target_of st w)) = vis w (other st (target_of st w)) ∧
  existing_of st w1 = generation record'.
Proof.
  intros Hso Hinv Hwf Hfit Hs.
  destruct (store_done _ _ _ _ _ Hso Hinv Hwf Hfit Hs) as (Hi1 & Hh & _ & Hpst & Hpn & _ & Hex & _).
  destruct (store_cases _ _ _ _ _ _ Hwf Hs) as (rp & w0 & Hp & [(e & _ & ? & _)|(t & next & -> & -> & _)]); [done|].
  destruct (prepare_spec _ _ _ _ _ Hinv Hso Hp) as (_ & _ & Ho & _). destruct (Ho _ _ eq_refl) as (_ & -> & _).
  rewrite ab_generation_set in *. destruct (selection_sides st w Hso) as [Ht Hsel].
  assert (vis w1 (other st (target_of st w)) = vis w (other st (target_of st w))) as Hv.
  { destruct (preserved_of st w) as [[p bs]|] eqn:Hpr.
    - destruct (Hsel p bs eq_refl) as (Hp1 & Hne & rec & (Hvis & _)%copy_at_some).
      assert (p = other st (target_of st w)) as <-.
      { unfold other. pose proof (so_ne st Hso). destruct (String.eqb_spec (target_of st w) (side_a st)), Hp1, Ht; congruence. }
      rewrite Hvis. by apply stable_vis, Hpst.
    - apply (keeps_vis _ _ _ _ (Hpn eq_refl)). unfold other. pose proof (so_ne st Hso).
      destruct (String.eqb_spec (target_of st w) (side_a st)), Ht; congruence. }
  split; [done|]. split; [done|]. destruct (held_copy_at _ _ _ _ Hh) as [bs Hc%copy_raw]. rewrite ab_generation_set in Hc.
  assert (raw_at st w1 (other st (target_of st w)) = raw_at st w (other st (target_of st w))) as Hraw by (unfold raw_at, seen; by rewrite Hv).
  pose proof (raw_le st w (other st (target_of st w))) as Hle.
  set (n := Z.max (existing_of st w) (generation record) + 1) in *. unfold existing_of at 1, selection. cbn [snd].
  unfold other in Hraw, Hle. destruct (String.eqb_spec (target_of st w) (side_a st)) as [Hta|Hta].
  - rewrite <- Hta, Hc, Hraw. destruct (raw_at st w (side_b st)) as [x|]; [|done]. specialize (Hle x ltac:(by right) eq_refl). cbn. lia.
  - assert (target_of st w = side_b st) as Htb by (by destruct Ht). rewrite <- Htb, Hc, Hraw.
    destruct (raw_at st w (side_a st)) as [x|]; [|done]. specialize (Hle x ltac:(by left) eq_refl). cbn. lia.
Qed.

(** A directory sync makes what a store left in the directory durable. *)
Lemma sync_held st d w w' p record :
  inv w → validate p false = Ok tt → parent p = d → b_sync_dir d w = (Ok tt, w') →
  held_copy st w p record → durable_copy st w' p record.
Proof.
  intros Hinv Hv Hp Hd (bs & Hsy & ?). pose proof (validate_parent _ Hv) as Hvd. rewrite Hp in Hvd.
  destruct (law_sync_dir _ _ _ _ Hinv Hvd Hd) as (_ & Hst & _). exists bs. split; [|done].
  apply (Hst eq_refl); [|done]. rewrite <- Hp. by apply direct_parent.
Qed.

Lemma sync_dir_keeps_all d w r w' :
  inv w → validate d true = Ok tt → b_sync_dir d w = (r, w') → keeps_all w w'.
Proof. intros Hinv Hv Hd. by destruct (law_sync_dir _ _ _ _ Hinv Hv Hd). Qed.

Lemma side_valid st t : sides_ok st → is_side st t → validate t false = Ok tt.
Proof. intros Hso [->| ->]; apply Hso. Qed.

(** What a finished store leaves, before any directory sync: the new record
    on one side; on the other an older durable record, or nothing at all. *)
Definition stored (st : AbStore) (w : W) (record : T) : Prop :=
  inv w ∧ ∃ t, is_side st t ∧ held_copy st w t record ∧
  ((∃ rec, durable_copy st w (other st t) rec ∧ generation rec < generation record) ∨
   absent w (other st t)).

(** The pair can be stored into: some valid copy, or a second side that was
    never used. *)
Definition storable (st : AbStore) (w : W) : Prop :=
  is_Some (copy_at st w (side_a st)) ∨ is_Some (copy_at st w (side_b st)) ∨ absent w (side_b st).

Lemma store_stored st record record' w w1 :
  sides_ok st → inv w → ab_wf record → storable st w → encodings_fit st record →
  store st record w = (Ok tt, record', w1) →
  stored st w1 record' ∧ generation record < generation record' ∧
  existing_of st w < generation record' ∧ (∃ next, record' = set_generation next record) ∧
  ab_wf record'.
Proof.
  intros Hso Hinv Hwf Hsome Hfit Hs.
  destruct (store_done _ _ _ _ _ Hso Hinv Hwf Hfit Hs)
    as (Hi1 & Hh & _ & Hpst & Hnone & Hg & Hex & Hset & Hwf').
  destruct (selection_sides st w Hso) as [Htside Hsel].
  split; [|done]. split; [done|]. exists (target_of st w). split; [done|]. split; [done|].
  destruct (target_cases st w Hso) as [(p & bs0 & Hpr & Hpo)|(Hpr & Hta & Hca & Hcb)].
  - left. destruct (Hsel p bs0 Hpr) as (Hps & Hpne & rec & Hcp). exists rec. rewrite <- Hpo.
    pose proof Hcp as (_ & Hb0 & Hd0)%copy_at_some. split; [exists bs0; auto|].
    pose proof (existing_ge _ _ _ _ _ Hps Hcp). lia.
  - right. rewrite Hta in *. unfold other. rewrite String.eqb_refl.
    destruct Hsome as [[? Hx]|[[? Hx]|Hab]]; [congruence..|].
    eapply keeps_absent; [by apply Hnone| |done]. pose proof (so_ne st Hso). congruence.
Qed.

Lemma stored_sync st d w w' record :
  sides_ok st → parent (side_a st) = d → parent (side_b st) = d →
  stored st w record → b_sync_dir d w = (Ok tt, w') → settled st w' record.
Proof.
  intros Hso Hpa Hpb (Hinv & t & Ht & Hh & Ho) Hd.
  assert (parent t = d) as Hpt by (by destruct Ht as [->| ->]).
  pose proof (side_valid _ _ Hso Ht) as Hvt. pose proof (validate_parent _ Hvt) as Hvd.
  rewrite Hpt in Hvd. pose proof (sync_dir_keeps_all _ _ _ _ Hinv Hvd Hd) as Hk.
  split; [by eapply keeps_inv|]. exists t. split; [done|]. split; [by eapply sync_held|].
  destruct Ho as [(rec & Hdc & ?)|Ha]; [left|right].
  - exists rec. split; [|done]. by eapply keeps_durable_copy.
  - by eapply keeps_absent.
Qed.

Lemma other_side st t : is_side st (other st t).
Proof. unfold other, is_side. destruct (String.eqb _ _); auto. Qed.

Section Keep.
Context (P : string → Prop) (st : AbStore) (HP : ∀ p, is_side st p → P p).

Lemma keeps_stored w w' record : keeps P w w' → stored st w record → stored st w' record.
Proof using HP.
  intros Hk (Hinv & t & Ht & Hh & Ho). split; [by eapply keeps_inv|]. exists t. split; [done|].
  split; [by eapply keeps_held_copy; [exact Hk|apply HP|]|]. pose proof (HP _ (other_side st t)).
  destruct Ho as [(rec & Hdc & ?)|Ha]; [left|right].
  - exists rec. split; [|done]. by eapply keeps_durable_copy.
  - by eapply keeps_absent.
Qed.

Lemma keeps_settled w w' record : keeps P w w' → settled st w record → settled st w' record.
Proof using HP.
  intros Hk (Hinv & t & Ht & Hh & Ho). split; [by eapply keeps_inv|]. exists t. split; [done|].
  split; [by eapply keeps_durable_copy; [exact Hk|apply HP|]|]. pose proof (HP _ (other_side st t)).
  destruct Ho as [(rec & Hdc & ?)|Ha]; [left|right].
  - exists rec. split; [|done]. by eapply keeps_durable_copy.
  - by eapply keeps_absent.
Qed.
End Keep.

(** Both sides hold a record durably, the newer one named last. *)
Definition mirrored (st : AbStore) (w : W) (older newer : T) : Prop :=
  inv w ∧ generation older < generation newer ∧
  ∃ t, is_side st t ∧ durable_copy st w t older ∧ durable_copy st w (other st t) newer.

(** Storing once more and syncing the directory replaces the older side. *)
Lemma store_mirrors st d rec record record' w w1 w2 :
  sides_ok st → parent (side_a st) = d → parent (side_b st) = d → stored st w rec → ab_wf record →
  encodings_fit st record →
  store st record w = (Ok tt, record', w1) → b_sync_dir d w1 = (Ok tt, w2) →
  mirrored st w2 rec record' ∧ ∃ next, record' = set_generation next record.
Proof.
  intros Hso Hpa Hpb (Hinv & t & Ht & Hh & Ho) Hwf Hfit Hs Hd.
  destruct (store_done _ _ _ _ _ Hso Hinv Hwf Hfit Hs)
    as (Hi1 & Hnew & _ & Hpst & _ & _ & Hex & Hset & _).
  destruct (held_copy_at _ _ _ _ Hh) as [bs Hc].
  assert (target_of st w = other st t) as Hto.
  { eapply target_other; [done|done|done|]. intros rec' bs' Hc'.
    destruct Ho as [(rec0 & Hd0 & Hlt)|Ha].
    - destruct (durable_copy_at _ _ _ _ Hd0) as (bs0 & Hc0 & _). congruence.
    - unfold copy_at, seen in Hc'. by rewrite (law_absent _ _ Ha) in Hc'. }
  destruct (selection_sides st w Hso) as [Htside Hsel].
  assert (parent (target_of st w) = d) as Hpt by (by destruct Htside as [->| ->]).
  pose proof (side_valid _ _ Hso Htside) as Hvt. pose proof (validate_parent _ Hvt) as Hvd.
  rewrite Hpt in Hvd. pose proof (sync_dir_keeps_all _ _ _ _ Hi1 Hvd Hd) as Hk.
  split; [|done]. split; [by eapply keeps_inv|].
  split; [pose proof (existing_ge _ _ _ _ _ Ht Hc); lia|].
  exists t. split; [done|]. split; [|rewrite <- Hto; by eapply sync_held].
  eapply keeps_durable_copy; [exact Hk|done|].
  destruct (target_cases st w Hso) as [(p & bs0 & Hpr & Hpo)|(_ & _ & Hca & Hcb)];
    [|destruct Ht as [->| ->]; congruence].
  assert (p = t) as -> by (rewrite Hpo, Hto; by apply other_other).
  destruct (Hsel t bs0 Hpr) as (_ & _ & rec' & Hc'). rewrite Hc in Hc'. injection Hc' as <- <-.
  pose proof Hc as (_ & ? & ?)%copy_at_some. exists bs. split; [by apply Hpst|done].
Qed.

Lemma mirrored_keeps (P : string → Prop) st w w' older newer :
  (∀ p, is_side st p → P p) → keeps P w w' → mirrored st w older newer → mirrored st w' older newer.
Proof.
  intros HP Hk (Hi & Hlt & t & Ht & H1' & H2'). split; [by eapply keeps_inv|]. split; [done|].
  exists t. split; [done|].
  split; (eapply keeps_durable_copy; [exact Hk|apply HP|done]); [done|apply other_side].
Qed.

Lemma mirrored_settled st w older newer : mirrored st w older newer → sides_ok st → settled st w newer.
Proof.
  intros (Hinv & Hlt & t & Ht & Ho & Hn) Hso. split; [done|].
  exists (other st t). pose proof (other_other _ _ Hso Ht) as Hoo.
  split; [apply other_side|]. split; [done|].
  left. exists older. by rewrite Hoo.
Qed.

Lemma mirrored_crash st w w' older newer :
  mirrored st w older newer → crashes w w' → mirrored st w' older newer.
Proof.
  intros (Hinv & Hlt & t & Ht & (b1 & ? & ?) & (b2 & ? & ?)) Hc.
  destruct (law_crash _ _ Hinv Hc) as (Hi' & _ & Hst & _). split; [done|]. split; [done|].
  exists t. split; [done|]. split; [exists b1|exists b2]; auto.
Qed.

(** [AbStore::store] on a record held in a local variable: the caller only
    goes on with the record when the call succeeded. *)
Definition store_record (st : AbStore) (record : T) : M W FormatError T := λ w,
  let '(r, record', w') := store st record w in
  match r with Ok _ => (Ok record', w') | Err e => (Err e, w') end.

Lemma store_record_ok st (record record' : T) w w' :
  store_record st record w = (Ok record', w') ↔ store st record w = (Ok tt, record', w').
Proof.
  unfold store_record. destruct (store st record w) as [[[[]|e] rec] w1]; naive_solver.
Qed.

Lemma frames_store_record st (record : T) :
  sides_ok st → ab_wf record → frames (λ q, ¬ is_side st q) (store_record st record).
Proof.
  intros Hso Hwf w r w' Hi. unfold store_record.
  destruct (store st record w) as [[rs rec] w1] eqn:Hs.
  destruct (store_keeps _ _ _ _ _ _ Hi Hso Hwf Hs) as (Hk & _). by destruct rs; intros [= <- <-].
Qed.

(** Two stores in a row, as the volume's creation does. *)
Definition store_twice (st : AbStore) (record : T) : M W FormatError T :=
  let* record := store_record st record in store_record st record.

Lemma store_twice_result st (record record' : T) w w' :
  inv w → sides_ok st → ab_wf record → store_twice st record w = (Ok record', w') →
  ab_wf record' ∧ ∃ g1 g2, record' = set_generation g2 (set_generation g1 record).
Proof.
  intros Hi Hso Hwf (r1 & w1 & Hs1 & Hs2)%m_bind_ok.
  pose proof (frames_store_record _ _ Hso Hwf _ _ _ Hi Hs1) as Hk. apply store_record_ok in Hs1, Hs2.
  destruct (store_result _ _ _ _ _ Hi Hso Hwf Hs1) as (Hwf1 & g1 & ->).
  destruct (store_result _ _ _ _ _ (keeps_inv _ _ _ Hk) Hso Hwf1 Hs2) as (Hwf2 & g2 & ->).
  split; [done|by exists g1, g2].
Qed.

(** Whatever the record encodes to, a store touches only its two sides. *)
Definition writable (record : T) : Prop :=
  0 ≤ generation record ∧ ∀ g bs, ab_encode (set_generation g record) = Some bs → bs ≠ [] ∧ blen bs ≤ U64_MAX.

Lemma store_touches st (record : T) w r record' w' :
  inv w → sides_ok st → writable record → store st record w = (r, record', w') →
  keeps (λ q, ¬ is_side st q) w w' ∧ (record' = record ∨ ∃ g, 0 ≤ g ∧ record' = set_generation g record).
Proof.
  intros Hinv Hso [Hg Hwr] Hs. unfold store in Hs. destruct (store_prepare st record w) as [rp w1] eqn:Hp.
  destruct (prepare_spec _ _ _ _ _ Hinv Hso Hp) as (Hk1 & _ & Ho & _). destruct (selection_sides st w Hso) as [Htside Hsel].
  apply (keeps_weaken (λ q, ¬ is_side st q)) in Hk1; [|intros q Hq p bs Hpr ->; by destruct (Hsel p bs Hpr)].
  destruct rp as [[t n]|e]; [|injection Hs as <- <- <-; auto]. destruct (Ho _ _ eq_refl) as (-> & -> & _).
  assert (∃ g, 0 ≤ g ∧ set_generation (Z.max (existing_of st w) (generation record) + 1) record = set_generation g record) as Hset
    by (eexists; split; [|done]; lia).
  destruct (ab_encode _) as [bs|] eqn:He in Hs; [|injection Hs as <- <- <-; auto]. destruct (Hwr _ _ He) as [Hne Hmax].
  destruct (write_target _ bs w1) as [r2 w2] eqn:Hw. injection Hs as <- <- <-. split; [|by right].
  destruct (write_target_spec w1 _ bs r2 w2 (keeps_inv _ _ _ Hk1) (side_valid _ _ Hso Htside) Hne Hmax Hw) as (Hk2 & _).
  eapply keeps_trans; [exact Hk1|]. eapply keeps_weaken; [|exact Hk2]. by intros q Hq ->.
Qed.

Lemma frames_writable_twice st (record : T) :
  (∀ g g' (x : T), set_generation g (set_generation g' x) = set_generation g x) →
  sides_ok st → writable record → frames (λ q, ¬ is_side st q) (store_twice st record).
Proof.
  intros Hss Hso Hwr w r w' Hi. unfold store_twice, m_bind, store_record at 1.
  destruct (store st record w) as [[rs rec] w1] eqn:Hs. destruct (store_touches _ _ _ _ _ _ Hi Hso Hwr Hs) as [Hk Hrec].
  destruct rs as [u|e]; [|by intros [= <- <-]]. unfold store_record. destruct (store st rec w1) as [[rs2 rec2] w2] eqn:Hs2.
  assert (writable rec) as Hwr2.
  { destruct Hrec as [->|(g & Hg & ->)]; [done|]. destruct Hwr as [_ Hwr]. split; [by rewrite ab_generation_set|]. intros g' bs. rewrite Hss. apply Hwr. }
  destruct (store_touches _ _ _ _ _ _ (keeps_inv _ _ _ Hk) Hso Hwr2 Hs2) as [Hk2 _].
  destruct rs2; intros [= <- <-]; by eapply keeps_trans.
Qed.

Lemma frames_store_twice st (record : T) :
  sides_ok st → ab_wf record → frames (λ q, ¬ is_side st q) (store_twice st record).
Proof.
  intros Hso Hwf w r w' Hi. unfold store_twice, m_bind.
  destruct (store_record st record w) as [[rec|e] w1] eqn:Hs;
    pose proof (frames_store_record _ _ Hso Hwf _ _ _ Hi Hs) as Hk; [|by intros [= <- <-]].
  apply store_record_ok in Hs. destruct (store_result _ _ _ _ _ Hi Hso Hwf Hs) as [Hwf1 _].
  intros Hr. eapply keeps_trans; [exact Hk|].
  eapply frames_store_record; [done|exact Hwf1|by eapply keeps_inv|done].
Qed.

Lemma held_storable st w p record : is_side st p → held_copy st w p record → storable st w.
Proof.
  intros Hp [bs Hc]%held_copy_at. destruct Hp as [->| ->]; [left|right; left]; by rewrite Hc.
Qed.

Lemma encodings_fit_set st g (record : T) :
  (∀ g g' (x : T), set_generation g (set_generation g' x) = set_generation g x) →
  encodings_fit st record → encodings_fit st (set_generation g record).
Proof. intros Hss Hf g' bs Hg. rewrite Hss. by apply Hf. Qed.

Section Twice.
Context (st : AbStore) (Hso : sides_ok st)
  (Hss : ∀ g g' (x : T), set_generation g (set_generation g' x) = set_generation g x).

(** Two stores leave the second record, and the first one durable. *)
Lemma store_twice_stored (record record' : T) w w' :
  inv w → ab_wf record → storable st w → encodings_fit st record →
  store_twice st record w = (Ok record', w') →
  stored st w' record' ∧ ∃ g, record' = set_generation g record.
Proof using Hso Hss.
  intros Hi Hwf Hst Hf Hr. apply m_bind_ok in Hr as (rec & w1 & Hs1%store_record_ok & Hs2%store_record_ok).
  destruct (store_stored _ _ _ _ _ Hso Hi Hwf Hst Hf Hs1) as (Hst1 & _ & _ & (g1 & ->) & Hwf1).
  destruct Hst1 as (Hi1 & t & Ht & Hh & _). pose proof (held_storable _ _ _ _ Ht Hh) as Hst1.
  destruct (store_stored _ _ _ _ _ Hso Hi1 Hwf1 Hst1 (encodings_fit_set _ _ _ Hss Hf) Hs2)
    as (Hst2 & _ & _ & (g2 & ->) & _).
  split; [done|]. exists g2. by rewrite Hss.
Qed.

Lemma store_twice_mirrored d (record record' : T) w w' w'' :
  parent (side_a st) = d → parent (side_b st) = d →
  inv w → ab_wf record → storable st w → encodings_fit st record →
  store_twice st record w = (Ok record', w') → b_sync_dir d w' = (Ok tt, w'') →
  ∃ g g', record' = set_generation g' record ∧
    mirrored st w'' (set_generation g record) (set_generation g' record).
Proof using Hso Hss.
  intros Hpa Hpb Hi Hwf Hst Hf Hr Hd.
  apply m_bind_ok in Hr as (rec & w1 & Hs1%store_record_ok & Hs2%store_record_ok).
  destruct (store_stored _ _ _ _ _ Hso Hi Hwf Hst Hf Hs1) as (Hst1 & _ & _ & (g1 & ->) & Hwf1).
  destruct (store_mirrors _ d _ _ _ _ _ _ Hso Hpa Hpb Hst1 Hwf1 (encodings_fit_set _ _ _ Hss Hf) Hs2 Hd)
    as (Hm & g2 & ->).
  rewrite Hss in *. by exists g1, g2.
Qed.
End Twice.
End Proofs.

Section Claims.
Context `{Crc32} `{BackingLaws W F} `{AbRecord T} `{!AbRecordLaws T}.

(** C19. The A/B pair never loses ground.  Once a valid copy of generation
    [g] is durable, then after any sequence of stores (each of which may
    fail at any of its I/O calls), loads, directory syncs and crashes, in
    any order, a durable valid copy of generation at least [g] still
    exists, and a load that is not itself made to fail returns a record of
    generation at least [g]. *)
Theorem ab_never_regresses st w w' g :
  sides_ok (T := T) st → inv w → established (T := T) st w g → rtc (ab_step (T := T) st) w w' →
  inv w' ∧ established (T := T) st w' g ∧
  (quiet w' → ∃ record w'', load (T := T) st w' = (Ok (Some record), w'') ∧ g ≤ generation record).
Proof.
  intros Hso Hinv He Hsteps.
  assert (inv w' ∧ established (T := T) st w' g) as [Hi' He'].
  { induction Hsteps as [|w1 w2 w3 Hstep _ IH]; [done|].
    destruct (ab_step_established _ _ _ _ Hso Hinv He Hstep). by apply IH. }
  split; [done|]. split; [done|]. intros Hq.
  destruct (load (T := T) st w') as [r w''] eqn:Hl.
  destruct (established_load _ _ _ _ _ Hi' Hso Hq He' Hl) as (record & -> & Hg). by exists record, w''.
Qed.

(** C20. A completed store is durable.  When [store] returns success and the
    directory sync of its callers succeeds too, then after any number of
    crashes a load returns exactly the stored record, whose generation is
    above the generation it was stored from and above every copy that was
    readable before; this covers the first store into an empty pair. *)
Theorem ab_store_durable st d (record record' : T) w w1 w2 w3 :
  sides_ok (T := T) st → parent (side_a st) = d → parent (side_b st) = d →
  inv w → ab_wf record → storable (T := T) st w → encodings_fit st record →
  store st record w = (Ok tt, record', w1) → b_sync_dir d w1 = (Ok tt, w2) →
  rtc crashes w2 w3 → quiet w3 →
  (∃ w4, load st w3 = (Ok (Some record'), w4)) ∧ generation record < generation record' ∧
  (∀ p rec bs, is_side st p → copy_at st w p = Some (rec, bs) → generation rec < generation record').
Proof.
  intros Hso Hpa Hpb Hinv Hwf Hsome Hfit Hs Hd Hcr Hq.
  destruct (store_stored _ _ _ _ _ Hso Hinv Hwf Hsome Hfit Hs) as (Hst & Hg & Hex & _).
  pose proof (stored_sync _ _ _ _ _ Hso Hpa Hpb Hst Hd) as Hset.
  assert (settled st w3 record') as Hset3.
  { clear -Hset Hcr. induction Hcr as [|x y z Hc _ IH]; [done|]. apply IH. by eapply settled_crash. }
  split; [|split; [done|]].
  - destruct (load st w3) as [r w4] eqn:Hl. exists w4.
    by rewrite (settled_load _ _ _ _ _ Hso Hset3 Hq Hl).
  - intros p rec bs Hp Hc. pose proof (existing_ge _ _ _ _ _ Hp Hc). lia.
Qed.
End Claims.

(** ** A concrete run: the checkpoint pair on the crash model *)
Module Sample.
Import (hints) Metadata.Checkpoint.
#[local] Existing Instance Ieee.ieee.

Definition st : AbStore := AbStore_new CHECKPOINT_STATE_A CHECKPOINT_STATE_B.
Definition record : Checkpoint.CheckpointState := Checkpoint.mkCheckpointState 0 7.
Definition record' : Checkpoint.CheckpointState := Checkpoint.mkCheckpointState 1 7.
Definition empty : Inner := mkInner ∅ ∅ 0 0 ∅ ∅ None None false 0 None.
Definition w1 : Inner := (store st record empty).2.
Definition w2 : Inner := (b_sync_dir CHECKPOINT_DIR w1).2.

Lemma empty_inv : crash_inv empty.
Proof.
  split; [by intros p q np nq i; simpl; rewrite lookup_empty|by intros p n i; simpl; rewrite lookup_empty| |done].
  intros i [x Hx]. simpl in Hx. by rewrite lookup_empty in Hx.
Qed.

Lemma st_ok : sides_ok (T := Checkpoint.CheckpointState) st.
Proof. split; by vm_compute. Qed.

Lemma record_wf : ab_wf record.
Proof. split; by vm_compute. Qed.

Lemma store_runs : store st record empty = (Ok tt, record', w1).
Proof. vm_compute. reflexivity. Qed.

Lemma sync_runs : b_sync_dir CHECKPOINT_DIR w1 = (Ok tt, w2).
Proof. vm_compute. reflexivity. Qed.

Lemma fits : encodings_fit (T := Checkpoint.CheckpointState) st record.
Proof. intros g bs _ [= <-]. change (bound st) with 32. rewrite Checkpoint.checkpoint_encode_length. done. Qed.

Lemma empty_storable : storable (T := Checkpoint.CheckpointState) st empty.
Proof. by right; right. Qed.

Lemma run_settled : settled st w2 record'.
Proof.
  eapply (stored_sync st CHECKPOINT_DIR w1 w2); [exact st_ok|done|done| |exact sync_runs].
  eapply (store_stored st record record' empty w1);
    [exact st_ok|exact empty_inv|exact record_wf|exact empty_storable|exact fits|exact store_runs].
Qed.

Lemma w2_established : established (T := Checkpoint.CheckpointState) st w2 1.
Proof.
  destruct run_settled as (_ & t & Ht & Hd & _). exists t, record'. split; [done|]. by split.
Qed.
End Sample.

#[local] Existing Instance Ieee.ieee.
Import (hints) Metadata.Checkpoint.

Lemma ab_never_regresses_witness :
  established (T := Checkpoint.CheckpointState) Sample.st
    (crash_all_lost Sample.w2) 1.
Proof.
  refine (proj1 (proj2 (ab_never_regresses Sample.st Sample.w2
    (crash_all_lost Sample.w2) 1 Sample.st_ok _ Sample.w2_established _))).
  - exact (proj1 Sample.run_settled).
  - apply rtc_once, ab_step_crash. by right.
Defined.

Lemma ab_store_durable_witness :
  ∃ w4, load Sample.st (crash_all_lost Sample.w2) = (Ok (Some Sample.record'), w4).
Proof.
  refine (proj1 (ab_store_durable Sample.st CHECKPOINT_DIR Sample.record
    Sample.record' Sample.empty Sample.w1 Sample.w2 (crash_all_lost Sample.w2)
    Sample.st_ok _ _ Sample.empty_inv Sample.record_wf Sample.empty_storable Sample.fits
    Sample.store_runs Sample.sync_runs _ _)); [done|done|apply rtc_once; by right|by vm_compute].
Defined.
