(* ===== verification/FixedCopy.v ===== *)
(** * FixedCopy: reading one side of a fixed-size record

    [DurableProofStore::read_copy] (crates/maki-format/src/durable_proof.rs)
    and [read_volume_copy] (crates/maki-format/src/superblock.rs) read a side
    the same way: a file of the expected length is read and decoded, any
    other is only looked at far enough to refuse a future version.  The
    first section holds that shared body; the second relates every such read
    to what a reader sees on the backing. *)

From S2P Require Import Prelude Codec Layout Backing AbRecord AbStore.

Local Open Scope Z_scope.

Section Read.
Context `{Backing W F} {A : Type}.

(** The fixed header of a future format: a known magic, an unknown version. *)
Definition foreign_version (header magic : bytes) (supported : Z → bool) : bool :=
  bytes_eqb (take 8 header) magic && negb (supported (from_le (slice header 8 12))).

(** [read_at(0, buf)] where a short file is a torn copy, not a fault. *)
Definition read_head (file : F) (len : Z) (k : bytes → M W FormatError (option A))
    : M W FormatError (option A) :=
  let* r := m_try (f_read_at file 0 len) in
  match r with
  | Ok buf => k buf
  | Err UnexpectedEof => m_ret None
  | Err e => m_err (Io e)
  end.

(** What is made of an open file of the given length; [judge] is the
    caller's verdict on a full-size copy. *)
Definition read_opened (file : F) (length size : Z) (magic : bytes) (supported : Z → bool)
    (judge : bytes → fres (option A)) : M W FormatError (option A) :=
  if negb (length =? size) then
    if 12 <=? length then
      read_head file 12 (λ header,
        if foreign_version header magic supported then m_err Unsupported else m_ret None)
    else m_ret None
  else read_head file size (λ data, m_lift (judge data)).

(** The shared body. *)
Definition read_fixed (path : string) (size : Z) (magic : bytes) (supported : Z → bool)
    (judge : bytes → fres (option A)) : M W FormatError (option A) :=
  let* opened := m_try (b_open path false) in
  match opened with
  | Err NotFound => m_ret None
  | Err e => m_err (Io e)
  | Ok file =>
      let* length := lift_io (f_len file) in
      read_opened file length size magic supported judge
  end.
End Read.

(** ** Calls that only read *)
Section Determined.
Context `{BackingLaws W F}.

(** [m] changes nothing a reader can see; a result it returns is [v]; when
    nothing is made to fail its outcome, error or not, is [v]. *)
Definition determined {A} (m : M W FormatError A) (w : W) (v : fres A) : Prop :=
  ∀ r w', m w = (r, w') → keeps (λ _, True) w w' ∧ (∀ a, r = Ok a → v = Ok a) ∧ (quiet w → r = v).

Lemma determined_bind {A B} (m : M W FormatError A) (k : A → M W FormatError B) w v f :
  determined m w v →
  (∀ a w1, keeps (λ _, True) w w1 → determined (k a) w1 (f a)) →
  determined (m_bind m k) w (rbind v f).
Proof.
  intros Hm Hk r w'. unfold m_bind. destruct (m w) as [[a|e] w1] eqn:Hw;
    destruct (Hm _ _ Hw) as (Hk1 & Ha & Hq).
  - rewrite (Ha a eq_refl). cbn [rbind]. intros Hr. destruct (Hk a w1 Hk1 r w' Hr) as (Hk2 & Hb & Hq2).
    split; [by eapply keeps_trans|]. split; [done|]. intros Hqw. apply Hq2. by eapply keeps_quiet.
  - intros [= <- <-]. split; [done|]. split; [done|]. intros Hqw. by rewrite <- (Hq Hqw).
Qed.

Lemma determined_lift {A} (v : fres A) w : inv w → determined (m_lift v) w v.
Proof. intros Hi r w' [= <- <-]. split; [by apply keeps_refl|]. done. Qed.

(** What a file's content reads as. *)
Definition content_at {A} (c : bytes) (size : Z) (magic : bytes) (supported : Z → bool)
    (judge : bytes → fres (option A)) : fres (option A) :=
  if negb (blen c =? size) then
    if (12 <=? blen c) && foreign_version (take 12 c) magic supported then Err Unsupported else Ok None
  else judge c.

(** What a side reads as, as a function of what a reader sees. *)
Definition fixed_at {A} (w : W) (path : string) (size : Z) (magic : bytes) (supported : Z → bool)
    (judge : bytes → fres (option A)) : fres (option A) :=
  match vis w path with
  | None => Ok None
  | Some c => content_at c size magic supported judge
  end.

Lemma read_range_head c n : 0 ≤ n ≤ blen c → read_range c 0 n = Some (take (Z.to_nat n) c).
Proof.
  intros Hn. unfold read_range. rewrite Z.add_0_l, (proj2 (Z.leb_le _ _)) by lia. done.
Qed.

Lemma read_head_spec {A} w f path c n (k : bytes → M W FormatError (option A)) v :
  inv w → handle w f path → vis w path = Some c → 0 ≤ n ≤ blen c → n ≤ U64_MAX →
  (∀ w1, keeps (λ _, True) w w1 → determined (k (take (Z.to_nat n) c)) w1 v) →
  determined (read_head f n k) w v.
Proof.
  intros Hinv Hh Hv Hn Hmax Hk r w'. unfold read_head, m_bind, m_try.
  destruct (f_read_at f 0 n w) as [rr w1] eqn:Hr.
  destruct (law_read _ _ _ _ _ _ _ _ Hinv Hh Hv (Z.le_refl 0) (proj1 Hn) ltac:(lia) Hr)
    as (Hk1 & Hrd & Heof & Hq).
  rewrite read_range_head in * by done. destruct rr as [b|e].
  - specialize (Hrd b eq_refl). injection Hrd as <-. intros Hw. destruct (Hk w1 Hk1 _ _ Hw) as (Hk2 & Ha & Hq2).
    split; [by eapply keeps_trans|]. split; [done|]. intros. apply Hq2. by eapply keeps_quiet.
  - assert (¬ quiet w) as Hnq by (intros Hqw; by specialize (Hq Hqw _ eq_refl)).
    assert (e ≠ UnexpectedEof) as Hne by (intros ->; by specialize (Heof eq_refl)).
    destruct e; try done; intros [= <- <-]; (split; [done|]); by split.
Qed.

Lemma read_opened_spec {A} w f path c size magic supported (judge : bytes → fres (option A)) :
  inv w → handle w f path → vis w path = Some c → 0 ≤ size ≤ U64_MAX →
  determined (read_opened f (blen c) size magic supported judge) w
    (content_at c size magic supported judge).
Proof.
  intros Hinv Hh Hv Hsz. unfold read_opened, content_at.
  destruct (Z.eqb_spec (blen c) size) as [Hs|Hs]; cbn [negb].
  - eapply read_head_spec; [done|done|done|lia|lia|]. intros w3 Hk3.
    rewrite <- Hs. unfold blen. rewrite Nat2Z.id, firstn_all. apply determined_lift.
    by eapply keeps_inv.
  - destruct (Z.leb_spec 12 (blen c)) as [H12|H12]; cbn [andb]; [|by apply (determined_lift (Ok None))].
    eapply read_head_spec; [done|done|done|lia|done|]. intros w3 Hk3%keeps_inv.
    change (Z.to_nat 12) with 12%nat.
    destruct (foreign_version _ _ _); [by apply (determined_lift (Err Unsupported))|].
    by apply (determined_lift (Ok None)).
Qed.

Lemma read_fixed_spec {A} w path size magic supported (judge : bytes → fres (option A)) :
  inv w → validate path false = Ok tt → 0 ≤ size ≤ U64_MAX →
  determined (read_fixed path size magic supported judge) w
    (fixed_at w path size magic supported judge).
Proof.
  intros Hinv Hp Hsz r w'. unfold read_fixed, fixed_at, m_bind, m_try.
  destruct (b_open path false w) as [ro w1] eqn:Ho.
  destruct (law_open _ _ _ _ _ Hinv Hp Ho) as (Hk1 & Hok & Hnf & Hq & Hno).
  apply (keeps_weaken (λ _, True)) in Hk1; [|auto]. pose proof (keeps_inv _ _ _ Hk1) as Hi1.
  destruct ro as [f|e]; cycle 1.
  { destruct (vis w path) as [c|] eqn:Hc.
    - assert (¬ quiet w) as Hnq by (intros Hqw; by destruct (Hq Hqw (or_introl (mk_is_Some _ _ eq_refl)))).
      assert (e ≠ NotFound) as Hne by (intros ->; by destruct (Hnf eq_refl)).
      destruct e; try done; intros [= <- <-]; (split; [done|]); by split.
    - destruct (Hno eq_refl eq_refl) as [_ Hnf'].
      destruct (decide (e = NotFound)) as [->|Hne].
      { unfold m_ret. intros [= <- <-]. split; [done|]. split; [by intros a [= <-]|done]. }
      assert (¬ quiet w) as Hnq by (intros Hqw; specialize (Hnf' Hqw); congruence).
      destruct e; try done; intros [= <- <-]; (split; [done|]); by split. }
  destruct (Hok f eq_refl) as (Hh & Hvis & _).
  destruct (vis w path) as [c|] eqn:Hc; [|by destruct (Hno eq_refl eq_refl)].
  simpl in Hvis. unfold lift_io, m_map_err. destruct (f_len f w1) as [rl w2] eqn:Hl.
  destruct (law_len _ _ _ _ _ _ Hi1 Hh Hvis Hl) as (Hk2 & Hlen & Hql).
  pose proof (keeps_trans _ _ _ _ Hk1 Hk2) as Hk12.
  destruct rl as [n|e]; cycle 1.
  { intros [= <- <-]. split; [done|]. split; [done|].
    intros Hqw. by specialize (Hql (keeps_quiet _ _ _ Hk1 Hqw)). }
  rewrite (Hlen n eq_refl). pose proof (keeps_inv _ _ _ Hk2) as Hi2.
  assert (handle w2 f path) as Hh2 by exact (keeps_handle _ _ _ _ _ Hk2 I Hh).
  assert (vis w2 path = Some c) as Hv2 by (by rewrite (keeps_vis _ _ _ _ Hk2)).
  intros Hrun. destruct (read_opened_spec _ _ _ _ _ _ _ _ Hi2 Hh2 Hv2 Hsz _ _ Hrun) as (Hk3 & Ha & Hq3).
  split; [by eapply keeps_trans|]. split; [done|]. intros Hqw. apply Hq3. by eapply keeps_quiet.
Qed.
End Determined.
