(* ===== verification/DurableProof.v ===== *)
(** * DurableProof: the acknowledgement horizon
    (crates/maki-format/src/durable_proof.rs)

    The record with its validity check, the order [follows] in which
    horizons may advance, and the store that mirrors every horizon on both
    sides before a barrier can succeed. *)

From S2P Require Import Prelude Codec Layout AbRecord Metadata Backing CrashBacking AbStore FixedCopy.

Local Open Scope Z_scope.

Definition DURABLE_PROOF_MAGIC : bytes := magic "MAKIJDP1".
Definition DURABLE_PROOF_VERSION : Z := 1.
Definition DURABLE_PROOF_SIZE : Z := 64.

Record DurableProof := mkDurableProof {
  dp_generation : Z;
  dp_volume_uuid : bytes;
  durable_sequence : Z;
  dp_segment_index : Z;
  dp_durable_size : Z
}.

#[global] Instance DurableProof_eq_dec : EqDecision DurableProof.
Proof. solve_decision. Defined.

Definition initial (volume_uuid : bytes) : DurableProof := mkDurableProof 0 volume_uuid 0 0 0.

(** [DurableProof::validate]. *)
Definition dp_validate (p : DurableProof) : fres unit :=
  if durable_sequence p =? 0 then
    guard? negb (negb (dp_segment_index p =? 0) || negb (dp_durable_size p =? 0)) else Invalid in
    Ok tt
  else
    guard? negb ((durable_sequence p =? U64_MAX) || (dp_segment_index p =? U64_MAX)
                 || (dp_durable_size p <? SEGMENT_HEADER_SIZE + RECORD_HEADER_SIZE)
                 || (I64_MAX <? dp_durable_size p)) else Invalid in
    Ok tt.

(** [DurableProof::follows]: [p] may come after [previous]. *)
Definition follows (p previous : DurableProof) : fres unit :=
  guard? bytes_eqb (dp_volume_uuid p) (dp_volume_uuid previous) else Invalid in
  guard? negb (durable_sequence p <? durable_sequence previous) else Invalid in
  if durable_sequence p =? durable_sequence previous then
    guard? negb (negb (dp_segment_index p =? dp_segment_index previous)
                 || negb (dp_durable_size p =? dp_durable_size previous)) else Invalid in
    Ok tt
  else
    guard? negb ((dp_segment_index p <? dp_segment_index previous)
                 || ((dp_segment_index p =? dp_segment_index previous)
                     && (dp_durable_size p <=? dp_durable_size previous))) else Invalid in
    Ok tt.

Section WithCrc.
Context `{Crc32}.

Definition dp_encode (p : DurableProof) : bytes :=
  let w := Writer_new ~> w_bytes DURABLE_PROOF_MAGIC ~> w_u32 DURABLE_PROOF_VERSION
    ~> w_u64 (dp_generation p) ~> w_uuid (dp_volume_uuid p) ~> w_u64 (durable_sequence p)
    ~> w_u64 (dp_segment_index p) ~> w_u64 (dp_durable_size p) in
  finish_with_crc w.

Definition dp_body : rd DurableProof :=
  let! magic := rd_take 8 in
  let! _ := rd_guard (bytes_eqb magic DURABLE_PROOF_MAGIC) BadMagic in
  let! version := rd_u32 in
  let! _ := rd_guard (version =? DURABLE_PROOF_VERSION) Unsupported in
  let! generation := rd_u64 in
  let! volume_uuid := rd_uuid in
  let! durable_sequence := rd_u64 in
  let! segment_index := rd_u64 in
  let! durable_size := rd_u64 in
  let proof := mkDurableProof generation volume_uuid durable_sequence segment_index durable_size in
  let! _ := rd_lift (dp_validate proof) in
  rd_ret proof.

Definition dp_decode (data : bytes) : fres DurableProof :=
  guard? negb (blen data <? DURABLE_PROOF_SIZE) else Truncated in
  guard? blen data =? DURABLE_PROOF_SIZE else Invalid in
  let? payload := strip_verify_crc data in run_rd dp_body payload.

Definition proof_ok (p : DurableProof) : Prop :=
  u64_ok (dp_generation p) ∧ length (dp_volume_uuid p) = 16%nat ∧ u64_ok (durable_sequence p) ∧
  u64_ok (dp_segment_index p) ∧ u64_ok (dp_durable_size p) ∧ dp_validate p = Ok tt.

Lemma dp_encode_eq p :
  dp_encode p = finish_with_crc (DURABLE_PROOF_MAGIC ++ to_le 4 DURABLE_PROOF_VERSION
    ++ to_le 8 (dp_generation p) ++ dp_volume_uuid p ++ to_le 8 (durable_sequence p)
    ++ to_le 8 (dp_segment_index p) ++ to_le 8 (dp_durable_size p)).
Proof. unfold dp_encode. by writer_norm. Qed.

Lemma dp_encode_length p : length (dp_volume_uuid p) = 16%nat → blen (dp_encode p) = 64.
Proof.
  intros Hu. rewrite dp_encode_eq. unfold blen. rewrite length_finish_with_crc. len_tac.
  change (length DURABLE_PROOF_MAGIC) with 8%nat. lia.
Qed.

Lemma dp_decode_encode p : proof_ok p → dp_decode (dp_encode p) = Ok p.
Proof.
  intros (Hg & Hu & Hs & Hi & Hd & Hv). unfold dp_decode. rewrite dp_encode_length by done.
  change (64 <? DURABLE_PROOF_SIZE) with false. change (64 =? DURABLE_PROOF_SIZE) with true.
  cbn [negb]. rewrite dp_encode_eq, strip_finish. cbn [rbind]. apply run_rd_parses. unfold dp_body.
  destruct p. cbn [dp_generation dp_volume_uuid durable_sequence dp_segment_index dp_durable_size] in *.
  repeat parse_step; exact Hv.
Qed.

Lemma dp_decode_ok data p : dp_decode data = Ok p → data = dp_encode p ∧ proof_ok p.
Proof.
  unfold dp_decode, dp_body. intros Hd. inv_res. pose proof Hv as ->%strip_verify_crc_ok.
  inv_rd. subst p. rewrite dp_encode_eq. inv_guards. subst. cbn [dp_generation dp_volume_uuid
    durable_sequence dp_segment_index dp_durable_size].
  match goal with H : dp_validate _ = Ok ?u |- _ => destruct u end.
  chain_rest. match goal with H : v = _ |- _ => rewrite H in * end.
  match goal with H : blen (finish_with_crc _) = _ |- _ => rename H into Hlen end.
  unfold blen in Hlen. rewrite length_finish_with_crc in Hlen. autorewrite with blen in Hlen.
  change (length DURABLE_PROOF_MAGIC) with 8%nat in Hlen. unfold DURABLE_PROOF_SIZE in Hlen.
  match goal with |- context [rest ?r] => assert (rest r = []) as -> end.
  { apply length_zero_iff_nil. lia. }
  rewrite app_nil_r. split; [done|]. done.
Qed.

#[export] Instance DurableProof_AbRecord : AbRecord DurableProof := {|
  MAX_ENCODED_LEN := DURABLE_PROOF_SIZE;
  generation := dp_generation;
  set_generation g p := mkDurableProof g (dp_volume_uuid p) (durable_sequence p)
                          (dp_segment_index p) (dp_durable_size p);
  ab_encode p := Some (dp_encode p);
  ab_decode := dp_decode
|}.

#[export] Program Instance DurableProof_laws : AbRecordLaws DurableProof := {|
  ab_wf p := proof_ok p
|}.
Next Obligation. by intros p (? & _). Qed.
Next Obligation. intros g p Hg (_ & ?). done. Qed.
Next Obligation. done. Qed.
Next Obligation.
  intros p Hp. eexists. split; [done|]. split; [|by apply dp_decode_encode].
  destruct Hp as (_ & Hu & _). by rewrite dp_encode_length.
Qed.
Next Obligation.
  simpl. intros bs p _ Hd. apply dp_decode_ok in Hd as [-> (Hg & _)]. split; [|done].
  rewrite dp_encode_eq. by apply raw_decode_finish.
Qed.
End WithCrc.

Section ProofStore.
Context `{Crc32} `{Backing W F}.

Definition proof_store : AbStore := AbStore_new DURABLE_PROOF_A DURABLE_PROOF_B.

(** What a full-size copy says: a foreign volume or an unknown version is an
    error, any other defect an unusable copy. *)
Definition dp_judge (volume_uuid data : bytes) : fres (option DurableProof) :=
  match dp_decode data with
  | Ok proof => if bytes_eqb (dp_volume_uuid proof) volume_uuid then Ok (Some proof) else Err Invalid
  | Err Unsupported => Err Unsupported
  | Err _ => Ok None
  end.

(** [DurableProofStore::read_copy]. *)
Definition dp_read_copy (path : string) (volume_uuid : bytes) : M W FormatError (option DurableProof) :=
  read_fixed path DURABLE_PROOF_SIZE DURABLE_PROOF_MAGIC (λ v, v =? DURABLE_PROOF_VERSION)
    (dp_judge volume_uuid).

(** The choice between the two copies. *)
Definition dp_select (a b : option DurableProof) : fres DurableProof :=
  match a, b with
  | Some a, Some b =>
      guard? negb ((dp_generation a =? dp_generation b) && negb (bool_decide (a = b))) else Invalid in
      let '(older, newer) := if dp_generation a <=? dp_generation b then (a, b) else (b, a) in
      let? _ := follows newer older in
      Ok newer
  | Some proof, None | None, Some proof => Ok proof
  | None, None => Err Invalid
  end.

(** [DurableProofStore::load]. *)
Definition dp_load (volume_uuid : bytes) : M W FormatError DurableProof :=
  let* a := dp_read_copy DURABLE_PROOF_A volume_uuid in
  let* b := dp_read_copy DURABLE_PROOF_B volume_uuid in
  m_lift (dp_select a b).

(** One path of the emptiness check of [initialize]. *)
Definition check_unused (volume_uuid : bytes) (path : string) : M W FormatError unit :=
  let* _ := dp_read_copy path volume_uuid in
  let* exists_ := lift_io (b_exists path) in
  if exists_ then m_err AlreadyExists else m_ret tt.

(** [DurableProofStore::initialize]. *)
Definition dp_initialize (volume_uuid : bytes) : M W FormatError DurableProof :=
  let* _ := check_unused volume_uuid DURABLE_PROOF_A in
  let* _ := check_unused volume_uuid DURABLE_PROOF_B in
  let* _ := lift_io (b_create_dir_all JOURNAL_DIR) in
  let* proof := store_record proof_store (initial volume_uuid) in
  let* _ := lift_io (b_sync_dir JOURNAL_DIR) in
  let* proof := store_record proof_store proof in
  let* _ := lift_io (b_sync_dir JOURNAL_DIR) in
  let* _ := lift_io (b_sync_dir "") in
  m_ret proof.

(** [DurableProofStore::advance]; the caller's record becomes the returned
    one on success and is unchanged on failure. *)
Definition dp_advance (proof : DurableProof) : M W FormatError DurableProof :=
  let* _ := m_lift (dp_validate proof) in
  let* current := dp_load (dp_volume_uuid proof) in
  let* _ := m_lift (follows proof current) in
  let* _ := m_lift (guard? negb (dp_generation current <? dp_generation proof) else Invalid in Ok tt) in
  let* _ := m_lift (ok_or (checked_add (dp_generation current) 2) Overflow) in
  let* candidate := store_record proof_store proof in
  let* _ := lift_io (b_sync_dir JOURNAL_DIR) in
  let* _ := dp_load (dp_volume_uuid proof) in
  let* candidate := store_record proof_store candidate in
  let* _ := lift_io (b_sync_dir JOURNAL_DIR) in
  m_ret candidate.
End ProofStore.

(** ** The order of horizons *)

Lemma follows_spec p q :
  follows p q = Ok tt ↔
  dp_volume_uuid p = dp_volume_uuid q ∧
  ((durable_sequence p = durable_sequence q ∧ dp_segment_index p = dp_segment_index q ∧
    dp_durable_size p = dp_durable_size q) ∨
   (durable_sequence q < durable_sequence p ∧
    (dp_segment_index q < dp_segment_index p ∨
     dp_segment_index p = dp_segment_index q ∧ dp_durable_size q < dp_durable_size p))).
Proof.
  unfold follows. destruct (bytes_eqb _ _) eqn:Hu; [apply bytes_eqb_eq in Hu|]; cycle 1.
  { split; [done|]. intros [Heq _]. rewrite Heq, bytes_eqb_refl in Hu. done. }
  destruct (Z.ltb_spec (durable_sequence p) (durable_sequence q)); cbn [negb]; [split; [done|lia]|].
  destruct (Z.eqb_spec (durable_sequence p) (durable_sequence q)),
    (Z.eqb_spec (dp_segment_index p) (dp_segment_index q)),
    (Z.eqb_spec (dp_durable_size p) (dp_durable_size q)),
    (Z.ltb_spec (dp_segment_index p) (dp_segment_index q)),
    (Z.leb_spec (dp_durable_size p) (dp_durable_size q)); cbn [negb orb andb];
    (split; first [discriminate | intros _; split; [exact Hu|lia] | intros [_ ?]; first [reflexivity|lia]]).
Qed.

Lemma follows_refl p : follows p p = Ok tt.
Proof. apply follows_spec. split; [done|]. by left. Qed.

Lemma follows_trans p q r : follows p q = Ok tt → follows q r = Ok tt → follows p r = Ok tt.
Proof. rewrite !follows_spec. intros [-> ?] [-> ?]. split; [done|]. lia. Qed.

Lemma follows_ok p q u : follows p q = Ok u → follows p q = Ok tt.
Proof. by destruct u. Qed.

(** ** What the two copies say *)
Section Laws.
Context `{Crc32} `{BackingLaws W F}.

Definition proof_copy (w : W) (path : string) (volume_uuid : bytes) : fres (option DurableProof) :=
  fixed_at w path DURABLE_PROOF_SIZE DURABLE_PROOF_MAGIC (λ v, v =? DURABLE_PROOF_VERSION)
    (dp_judge volume_uuid).

(** The horizon the visible copies attest. *)
Definition proof_at (w : W) (volume_uuid : bytes) : fres DurableProof :=
  let? a := proof_copy w DURABLE_PROOF_A volume_uuid in
  let? b := proof_copy w DURABLE_PROOF_B volume_uuid in
  dp_select a b.

Lemma proof_store_ok : sides_ok (T := DurableProof) proof_store.
Proof. split; done. Qed.

Lemma dp_read_copy_spec w path volume_uuid :
  inv w → validate path false = Ok tt →
  determined (dp_read_copy path volume_uuid) w (proof_copy w path volume_uuid).
Proof. intros. by apply read_fixed_spec. Qed.

Lemma proof_copy_keeps w w' path volume_uuid :
  keeps (λ _, True) w w' → proof_copy w' path volume_uuid = proof_copy w path volume_uuid.
Proof. intros Hk. unfold proof_copy, fixed_at. by rewrite (keeps_vis _ _ _ _ Hk I). Qed.

Lemma proof_at_keeps w w' volume_uuid :
  keeps (λ _, True) w w' → proof_at w' volume_uuid = proof_at w volume_uuid.
Proof. intros Hk. unfold proof_at. by rewrite !(proof_copy_keeps _ _ _ _ Hk). Qed.

Lemma dp_load_spec w volume_uuid :
  inv w → determined (dp_load volume_uuid) w (proof_at w volume_uuid).
Proof.
  intros Hi. unfold dp_load, proof_at. eapply determined_bind; [by apply dp_read_copy_spec|].
  intros a w1 Hk1. rewrite <- (proof_copy_keeps _ _ DURABLE_PROOF_B _ Hk1).
  eapply determined_bind; [apply dp_read_copy_spec; [by eapply keeps_inv|done]|].
  intros b w2 Hk2. apply determined_lift. by eapply keeps_inv.
Qed.

(** A copy that reads well is exactly the copy the generic store selects on. *)
Lemma proof_copy_ok w path volume_uuid o :
  proof_copy w path volume_uuid = Ok o →
  o = fst <$> copy_at proof_store w path ∧ (∀ p, o = Some p → dp_volume_uuid p = volume_uuid).
Proof.
  unfold proof_copy, fixed_at, content_at. unfold copy_at, decode_copy, seen.
  destruct (vis w path) as [c|]; simpl; [|by intros [= <-]].
  destruct (Z.eqb_spec (blen c) DURABLE_PROOF_SIZE) as [Hl|Hl]; cbn [negb].
  - change (bound proof_store) with DURABLE_PROOF_SIZE. rewrite Hl. simpl. unfold dp_judge.
    simpl. destruct (dp_decode c) as [p|e]; simpl; [|destruct e; by intros [= <-]].
    destruct (bytes_eqb _ _) eqn:He; [|done]. intros [= <-]. split; [done|].
    intros ? [= <-]. by apply bytes_eqb_eq.
  - intros Hj. assert (o = None) as -> by (destruct (_ && _); congruence). split; [|done].
    destruct (_ || _); [done|]. simpl. destruct (dp_decode c) as [p|] eqn:Hd; [|done].
    apply dp_decode_ok in Hd as [-> (_ & Hu & _)]. by rewrite dp_encode_length in Hl.
Qed.

Lemma proof_copy_some w path p bs :
  copy_at proof_store w path = Some (p, bs) → proof_copy w path (dp_volume_uuid p) = Ok (Some p).
Proof.
  intros (Hv & Hb & Hd)%copy_at_some. unfold proof_copy, fixed_at, content_at. rewrite Hv.
  pose proof Hd as [-> (_ & Hu & _)]%dp_decode_ok. rewrite dp_encode_length by done. simpl.
  unfold dp_judge. simpl in Hd. rewrite Hd. by rewrite bytes_eqb_refl.
Qed.

Lemma proof_copy_absent w path volume_uuid :
  vis w path = None → proof_copy w path volume_uuid = Ok None.
Proof. intros Hv. unfold proof_copy, fixed_at. by rewrite Hv. Qed.
End Laws.

(** ** The horizon under failed advances and crashes *)
Section Horizon.
Context `{Crc32} `{BackingLaws W F}.

Lemma select_newer a b cur p q :
  dp_select a b = Ok cur → (a = Some p ∧ b = Some q ∨ a = Some q ∧ b = Some p) →
  dp_generation p ≤ dp_generation q → follows q p = Ok tt ∧ cur = q.
Proof.
  intros Hs Hor Hle. destruct Hor as [[-> ->]|[-> ->]]; unfold dp_select in Hs; inv_res.
  - rewrite (proj2 (Z.leb_le _ _)) in Hs by done. inv_res. by destruct v.
  - destruct (Z.leb_spec (dp_generation q) (dp_generation p)) as [Hqp|Hqp].
    + rewrite (proj2 (Z.eqb_eq (dp_generation q) (dp_generation p))) in Hb by lia. simpl in Hb.
      apply negb_true_iff, negb_false_iff, bool_decide_eq_true_1 in Hb. subst q. inv_res. by destruct v.
    + inv_res. by destruct v.
Qed.

(** A record that follows [h] is durable on some side. *)
Definition attested (w : W) (h : DurableProof) : Prop :=
  ∃ p record, is_side proof_store p ∧ durable_copy proof_store w p record ∧ follows record h = Ok tt.

Lemma proof_at_ok w volume_uuid cur :
  proof_at w volume_uuid = Ok cur →
  dp_select (fst <$> copy_at proof_store w (side_a proof_store))
    (fst <$> copy_at proof_store w (side_b proof_store)) = Ok cur.
Proof.
  unfold proof_at. intros Hp. inv_res.
  repeat match goal with H : proof_copy _ _ _ = Ok _ |- _ => apply proof_copy_ok in H as [-> _] end. done.
Qed.

(** Two valid copies that load: the one of the higher generation follows the other. *)
Lemma copies_follow w volume_uuid cur p q rp rq bp bq :
  proof_at w volume_uuid = Ok cur → is_side proof_store p → is_side proof_store q → p ≠ q →
  copy_at proof_store w p = Some (rp, bp) → copy_at proof_store w q = Some (rq, bq) →
  dp_generation rp ≤ dp_generation rq → follows rq rp = Ok tt ∧ cur = rq.
Proof.
  intros Hc%proof_at_ok Hp Hq Hne Hcp Hcq Hle. eapply select_newer; [exact Hc| |done].
  destruct Hp as [->| ->], Hq as [->| ->]; try done; [left|right]; by rewrite Hcp, Hcq.
Qed.

(** The loaded horizon follows every valid copy. *)
Lemma selected_follows w volume_uuid cur p rec bs :
  proof_at w volume_uuid = Ok cur → is_side proof_store p → copy_at proof_store w p = Some (rec, bs) → follows cur rec = Ok tt.
Proof.
  intros Hc Hp Hcp. pose proof (other_side proof_store p) as Ho.
  assert (other proof_store p ≠ p) as Hne.
  { pose proof (other_other _ _ proof_store_ok Hp). unfold other in *. intros Heq.
    pose proof (so_ne _ proof_store_ok). destruct Hp as [->| ->]; simpl in *; congruence. }
  destruct (copy_at proof_store w (other proof_store p)) as [[rq bq]|] eqn:Hcq.
  - destruct (Z.le_ge_cases (dp_generation rec) (dp_generation rq)) as [Hle|Hle].
    + by destruct (copies_follow _ _ _ _ _ _ _ _ _ Hc Hp Ho (not_eq_sym Hne) Hcp Hcq Hle) as [? ->].
    + destruct (copies_follow _ _ _ _ _ _ _ _ _ Hc Ho Hp Hne Hcq Hcp Hle) as [_ ->].
      apply follows_refl.
  - apply proof_at_ok in Hc. destruct Hp as [->| ->];
      [change (other proof_store (side_a proof_store)) with (side_b proof_store) in Hcq
      |change (other proof_store (side_b proof_store)) with (side_a proof_store) in Hcq];
      rewrite Hcq, Hcp in Hc; injection Hc as <-; apply follows_refl.
Qed.

(** Whatever is attested, the loaded horizon follows. *)
Lemma attested_load w h volume_uuid cur :
  attested w h → proof_at w volume_uuid = Ok cur → follows cur h = Ok tt.
Proof.
  intros (p & rec & Hp & Hd & Hf) Hc. destruct (durable_copy_at _ _ _ _ Hd) as (bs & Hcp & _).
  eapply follows_trans; [|exact Hf]. by eapply selected_follows.
Qed.

(** A store made while the copies load keeps what is attested. *)
Lemma store_attested w h volume_uuid cur record r record' w' :
  inv w → attested w h → proof_at w volume_uuid = Ok cur → proof_ok record →
  store proof_store record w = (r, record', w') → inv w' ∧ attested w' h.
Proof.
  intros Hinv (p & rec & Hp & Hd & Hf) Hc Hok Hs.
  assert (ab_wf record) as Hwf by exact Hok.
  destruct (store_survives proof_store record _ _ _ _ _ _ Hinv proof_store_ok Hwf Hp Hd Hs)
    as (Hi' & [Hd'|(q & rec' & bs & Hq & Hne & Hcq & Hle & Hd')]); (split; [done|]).
  - by exists p, rec.
  - exists q, rec'. split; [done|]. split; [done|]. eapply follows_trans; [|exact Hf].
    destruct (durable_copy_at _ _ _ _ Hd) as (bs0 & Hcp & _).
    by destruct (copies_follow _ _ _ _ _ _ _ _ _ Hc Hp Hq (not_eq_sym Hne) Hcp Hcq Hle).
Qed.

Definition keeps_horizon (h : DurableProof) (w : W) : Prop := inv w ∧ attested w h.

Lemma keeps_all_attested h w w' :
  keeps (λ _, True) w w' → keeps_horizon h w → keeps_horizon h w'.
Proof.
  intros Hk (_ & p & rec & Hp & Hd & Hf). split; [by eapply keeps_inv|].
  exists p, rec. split; [done|]. split; [|done]. by eapply keeps_durable_copy.
Qed.

Lemma store_record_horizon h record :
  proof_ok record →
  triple (λ w, keeps_horizon h w ∧ ∃ volume_uuid cur, proof_at w volume_uuid = Ok cur)
    (store_record proof_store record)
    (λ record' w, keeps_horizon h w ∧ proof_ok record') (keeps_horizon h).
Proof.
  intros Hok w r w' ((Hi & Ha) & volume_uuid & cur & Hc). unfold store_record.
  destruct (store proof_store record w) as [[rs rec] w1] eqn:Hs.
  destruct (store_attested _ _ _ _ _ _ _ _ Hi Ha Hc Hok Hs).
  assert (ab_wf record) as Hwf by exact Hok.
  destruct rs as [[]|e]; intros [= <- <-]; [|by split]. split; [by split|].
  by destruct (store_result proof_store record _ _ _ Hi proof_store_ok Hwf Hs).
Qed.

Lemma load_horizon h volume_uuid :
  triple (keeps_horizon h) (dp_load volume_uuid)
    (λ cur w, keeps_horizon h w ∧ proof_at w volume_uuid = Ok cur ∧ follows cur h = Ok tt)
    (keeps_horizon h).
Proof.
  intros w r w' Hh Hl. destruct (dp_load_spec w volume_uuid (proj1 Hh) _ _ Hl) as (Hk & Hv & _).
  destruct r as [cur|e]; [|by eapply keeps_all_attested].
  split; [by eapply keeps_all_attested|]. rewrite (proof_at_keeps _ _ _ Hk).
  split; [by apply Hv|]. eapply attested_load; [apply Hh|by apply Hv].
Qed.

Lemma sync_dir_horizon h d (P : Prop) :
  validate d true = Ok tt →
  triple (λ w, keeps_horizon h w ∧ P) (lift_io (b_sync_dir d)) (λ _ w, keeps_horizon h w ∧ P)
    (keeps_horizon h).
Proof.
  intros Hv w r w' [Hh HP]. unfold lift_io, m_map_err.
  destruct (b_sync_dir d w) as [rs w1] eqn:Hd. intros [= <- <-].
  destruct (law_sync_dir _ _ _ _ (proj1 Hh) Hv Hd) as (Hk & _).
  destruct rs; [split; [|done]|]; by eapply keeps_all_attested.
Qed.

(** An advance, however it ends, keeps what is attested. *)
Lemma advance_horizon h proof :
  proof_ok proof →
  triple (keeps_horizon h) (dp_advance proof) (λ _, keeps_horizon h) (keeps_horizon h).
Proof.
  intros Hok. unfold dp_advance.
  eapply (triple_bind _ _ _ (λ _, keeps_horizon h)); [apply triple_lift; intros; by case_match|].
  intros ?. eapply triple_bind; [apply load_horizon|]. intros cur.
  eapply (triple_bind _ _ _ (λ _ w, keeps_horizon h w ∧ proof_at w _ = Ok cur));
    [apply triple_lift; intros w (? & ? & _); by case_match|].
  intros ?. eapply (triple_bind _ _ _ (λ _ w, keeps_horizon h w ∧ proof_at w _ = Ok cur));
    [apply triple_lift; intros w (? & ?); by case_match|].
  intros ?. eapply (triple_bind _ _ _ (λ _ w, keeps_horizon h w ∧ proof_at w _ = Ok cur));
    [apply triple_lift; intros w (? & ?); by case_match|].
  intros ?. eapply triple_bind;
    [eapply triple_weaken; [|done|by apply store_record_horizon]; intros w (? & ?); split; [done|by do 2 eexists]|].
  intros candidate. eapply triple_bind; [by apply sync_dir_horizon|].
  intros ?.
  eapply (triple_bind _ _ _ (λ _ w, (keeps_horizon h w ∧ ∃ volume_uuid cur, proof_at w volume_uuid = Ok cur)
    ∧ proof_ok candidate)).
  { intros w r w' [Hh Hc] Hl. pose proof (load_horizon h _ w r w' Hh Hl). case_match; [|done].
    destruct_and!. split; [|done]. split; [done|]. by do 2 eexists. }
  intros ?. eapply (triple_bind _ _ _ (λ record' w, keeps_horizon h w ∧ proof_ok record')).
  { intros w r w' [Hh Hc] Hl. by apply (store_record_horizon h candidate Hc w r w' Hh Hl). }
  intros record'. eapply triple_bind; [by apply sync_dir_horizon|].
  intros ?. apply triple_ret. by intros w [? _].
Qed.

(** Everything that can happen to the proof: loads, advances with any
    outcome, directory syncs and crashes. *)
Inductive proof_step : W → W → Prop :=
| proof_step_load w volume_uuid r w' : dp_load volume_uuid w = (r, w') → proof_step w w'
| proof_step_advance w proof r w' : proof_ok proof → dp_advance proof w = (r, w') → proof_step w w'
| proof_step_sync_dir w d r w' :
    validate d true = Ok tt → b_sync_dir d w = (r, w') → proof_step w w'
| proof_step_crash w w' : crashes w w' → proof_step w w'.

Lemma proof_step_horizon h w w' : keeps_horizon h w → proof_step w w' → keeps_horizon h w'.
Proof.
  intros Hh Hs. destruct Hs as [w u r w' Hl|w proof r w' Hok Ha|w d r w' Hv Hd|w w' Hc].
  - pose proof (load_horizon h u w r w' Hh Hl). case_match; [|done]. by destruct_and!.
  - pose proof (advance_horizon h proof Hok w r w' Hh Ha). by case_match.
  - destruct (law_sync_dir _ _ _ _ (proj1 Hh) Hv Hd) as (Hk & _). by eapply keeps_all_attested.
  - destruct Hh as (Hi & p & rec & Hp & (bs & Hst & Hb) & Hf).
    destruct (law_crash _ _ Hi Hc) as (Hi' & _ & Hst' & _). split; [done|].
    exists p, rec. split; [done|]. split; [|done]. exists bs. auto.
Qed.

(** ** A completed advance *)

Definition at_generation (g : Z) (p : DurableProof) : DurableProof := set_generation g p.

Lemma follows_at_generation g g' p : follows (at_generation g p) (at_generation g' p) = Ok tt.
Proof. apply follows_spec. simpl. split; [done|]. by left. Qed.

Lemma proof_encodings_fit p : proof_ok p → encodings_fit proof_store p.
Proof.
  intros (_ & Hu & _) g bs _ [= <-]. rewrite dp_encode_length by done. done.
Qed.

Lemma proof_at_storable w volume_uuid cur :
  proof_at w volume_uuid = Ok cur → storable proof_store w.
Proof.
  intros Hc%proof_at_ok. unfold storable.
  destruct (copy_at proof_store w (side_a proof_store)); [by left|].
  destruct (copy_at proof_store w (side_b proof_store)); [by right; left|]. done.
Qed.

(** A mirrored horizon is what a load selects. *)
Lemma mirrored_proof_at w g g' p :
  mirrored proof_store w (at_generation g p) (at_generation g' p) →
  proof_at w (dp_volume_uuid p) = Ok (at_generation g' p).
Proof.
  intros (_ & Hlt & t & Ht & Ho & Hn). simpl in Hlt.
  destruct (durable_copy_at _ _ _ _ Ho) as (bo & Hco & _), (durable_copy_at _ _ _ _ Hn) as (bn & Hcn & _).
  apply proof_copy_some in Hco, Hcn. cbn [dp_volume_uuid at_generation set_generation DurableProof_AbRecord] in *.
  unfold proof_at. destruct Ht as [->| ->].
  - change (other proof_store (side_a proof_store)) with DURABLE_PROOF_B in Hcn.
    change (side_a proof_store) with DURABLE_PROOF_A in Hco. rewrite Hco, Hcn. cbn [rbind].
    unfold dp_select. cbn [dp_generation]. rewrite (proj2 (Z.eqb_neq _ _)), (proj2 (Z.leb_le _ _)) by lia.
    cbn [andb negb]. pose proof (follows_at_generation g' g p) as Hf.
    cbn [at_generation set_generation DurableProof_AbRecord] in Hf. by rewrite Hf.
  - change (other proof_store (side_b proof_store)) with DURABLE_PROOF_A in Hcn.
    change (side_b proof_store) with DURABLE_PROOF_B in Hco. rewrite Hco, Hcn. cbn [rbind].
    unfold dp_select. cbn [dp_generation]. rewrite (proj2 (Z.eqb_neq _ _)), (proj2 (Z.leb_gt _ _)) by lia.
    cbn [andb negb]. pose proof (follows_at_generation g' g p) as Hf.
    cbn [at_generation set_generation DurableProof_AbRecord] in Hf. by rewrite Hf.
Qed.

(** The pair of stores both [advance] and [initialize] end with. *)
Lemma two_stores p p1 p2 w w1 w1' w2 w3 :
  inv w → proof_ok p → storable proof_store w →
  store_record proof_store p w = (Ok p1, w1) → keeps (λ _, True) w1 w1' →
  store_record proof_store p1 w1' = (Ok p2, w2) → b_sync_dir JOURNAL_DIR w2 = (Ok tt, w3) →
  keeps (λ q, ¬ is_side proof_store q) w w3 ∧
  ∃ g1 g2, p1 = at_generation g1 p ∧ p2 = at_generation g2 p ∧ mirrored proof_store w3 p1 p2.
Proof.
  intros Hi Hok Hst Hs1%store_record_ok Hk Hs2%store_record_ok Hd.
  assert (ab_wf p) as Hwf by exact Hok.
  destruct (store_stored proof_store p p1 w w1 proof_store_ok Hi Hwf Hst (proof_encodings_fit _ Hok) Hs1)
    as (Hst1 & _ & _ & (g1 & Hp1) & Hwf1).
  pose proof (keeps_stored _ _ (λ _ _, I) _ _ _ Hk Hst1) as Hst1'. assert (proof_ok p1) as Hok1 by exact Hwf1.
  destruct (store_mirrors proof_store JOURNAL_DIR p1 p1 p2 w1' w2 w3 proof_store_ok eq_refl eq_refl
    Hst1' Hwf1 (proof_encodings_fit _ Hok1) Hs2 Hd) as (Hm & g2 & Hp2).
  destruct (store_keeps proof_store p w _ _ _ Hi proof_store_ok Hwf Hs1) as (Hka & _).
  destruct (store_keeps proof_store p1 w1' _ _ _ (keeps_inv _ _ _ Hk) proof_store_ok Hwf1 Hs2) as (Hkb & _).
  split; [|exists g1, g2; split; [done|]; split; [by subst|done]].
  eapply keeps_trans; [exact Hka|]. eapply keeps_trans; [by eapply keeps_weaken; [|exact Hk]|].
  eapply keeps_trans; [exact Hkb|]. eapply (keeps_weaken _ (λ _, True)); [done|].
  exact (sync_dir_keeps_all JOURNAL_DIR _ _ _ (keeps_inv _ _ _ Hkb) eq_refl Hd).
Qed.

Lemma mirrored_crashes w w' older newer :
  mirrored proof_store w older newer → rtc crashes w w' → mirrored proof_store w' older newer.
Proof. intros Hm Hc. induction Hc; [done|]. eauto using mirrored_crash. Qed.

Lemma mirrored_load w g g' p :
  mirrored proof_store w (at_generation g p) (at_generation g' p) → quiet w →
  ∃ w', dp_load (dp_volume_uuid p) w = (Ok (at_generation g' p), w').
Proof.
  intros Hm Hq. destruct (dp_load (dp_volume_uuid p) w) as [r w'] eqn:Hl.
  destruct (dp_load_spec w _ (proj1 Hm) _ _ Hl) as (_ & _ & Hr). exists w'.
  by rewrite (Hr Hq), (mirrored_proof_at _ _ _ _ Hm).
Qed.

Lemma advance_inv proof proof' w w' :
  inv w → proof_ok proof → dp_advance proof w = (Ok proof', w') →
  ∃ cur p1 w0 w1 w1' w2, proof_at w (dp_volume_uuid proof) = Ok cur ∧ follows proof cur = Ok tt ∧
    keeps (λ _, True) w w0 ∧ store_record proof_store proof w0 = (Ok p1, w1) ∧
    keeps (λ _, True) w1 w1' ∧ store_record proof_store p1 w1' = (Ok proof', w2) ∧
    b_sync_dir JOURNAL_DIR w2 = (Ok tt, w').
Proof.
  intros Hi Hok Ha. unfold dp_advance in Ha.
  apply m_bind_ok in Ha as (? & ? & [= Hv <-] & Ha).
  apply m_bind_ok in Ha as (cur & w0 & Hl & Ha).
  destruct (dp_load_spec w _ Hi _ _ Hl) as (Hk0 & Hc & _). pose proof (keeps_inv _ _ _ Hk0) as Hi0.
  apply m_bind_ok in Ha as ([] & ? & [= Hf <-] & Ha).
  apply m_bind_ok in Ha as (? & ? & [= _ <-] & Ha).
  apply m_bind_ok in Ha as (? & ? & [= _ <-] & Ha).
  apply m_bind_ok in Ha as (p1 & w1 & Hs1 & Ha).
  apply m_bind_ok in Ha as ([] & w2 & Hd1%lift_io_ok & Ha).
  apply m_bind_ok in Ha as (? & w3 & Hl2 & Ha).
  apply m_bind_ok in Ha as (p2 & w4 & Hs2 & Ha).
  apply m_bind_ok in Ha as ([] & w5 & Hd2%lift_io_ok & [= <- <-]).
  assert (inv w1) as Hi1.
  { apply store_record_ok in Hs1. assert (ab_wf proof) as Hwf by exact Hok.
    eapply keeps_inv. by apply (store_keeps proof_store proof w0 _ _ _ Hi0 proof_store_ok Hwf Hs1). }
  pose proof (sync_dir_keeps_all JOURNAL_DIR _ _ _ Hi1 eq_refl Hd1) as Hk1.
  destruct (dp_load_spec w2 _ (keeps_inv _ _ _ Hk1) _ _ Hl2) as (Hk2 & _).
  exists cur, p1, w0, w1, w3, w4. split; [by apply Hc|]. split; [done|]. split; [done|]. split; [done|].
  split; [by eapply keeps_trans|done].
Qed.

(** ** An advance without faults *)

(** The proof files admit the candidate: they load, it follows what they
    attest, and there is room for two generations. *)
Definition publishable (w : W) (p : DurableProof) : Prop :=
  ∃ cur, proof_at w (dp_volume_uuid p) = Ok cur ∧ follows p cur = Ok tt ∧ dp_generation p ≤ dp_generation cur ∧
    existing_of proof_store w + 2 ≤ U64_MAX.

Lemma existing_sides (P : string → Prop) w w' :
  keeps P w w' → (∀ q, is_side proof_store q → P q) → existing_of proof_store w' = existing_of proof_store w.
Proof.
  intros Hk HP. unfold existing_of, selection, raw_at, seen. cbn [snd].
  rewrite (keeps_vis _ _ _ (side_a proof_store) Hk), (keeps_vis _ _ _ (side_b proof_store) Hk); [done|apply HP; by right|apply HP; by left].
Qed.

Lemma proof_at_sides (P : string → Prop) w w' uuid :
  keeps P w w' → (∀ q, is_side proof_store q → P q) → proof_at w' uuid = proof_at w uuid.
Proof.
  intros Hk HP. unfold proof_at, proof_copy, fixed_at.
  rewrite (keeps_vis _ _ _ DURABLE_PROOF_A Hk), (keeps_vis _ _ _ DURABLE_PROOF_B Hk); [done|apply HP; by right|apply HP; by left].
Qed.

Lemma publishable_keeps (P : string → Prop) w w' p :
  keeps P w w' → (∀ q, is_side proof_store q → P q) → publishable w p → publishable w' p.
Proof.
  intros Hk HP (cur & Hc & Hf & Hg & He). exists cur. by rewrite (proof_at_sides P w w'), (existing_sides P w w').
Qed.

(** What the two copies of one volume select. *)
Lemma select_follows a p : follows p a = Ok tt → dp_generation a < dp_generation p →
  dp_select (Some p) (Some a) = Ok p ∧ dp_select (Some a) (Some p) = Ok p.
Proof.
  intros Hf Hg. unfold dp_select. rewrite !(proj2 (Z.eqb_neq _ _)), (proj2 (Z.leb_gt _ _)), (proj2 (Z.leb_le _ _)) by lia.
  cbn [andb negb rbind]. by rewrite Hf.
Qed.

(** Between the two stores the new horizon loads. *)
Lemma first_store_loads p p1 w w1 cur :
  inv w → proof_ok p → proof_at w (dp_volume_uuid p) = Ok cur → follows p cur = Ok tt →
  store_record proof_store p w = (Ok p1, w1) → proof_at w1 (dp_volume_uuid p) = Ok p1.
Proof.
  intros Hi Hok Hc Hf Hs%store_record_ok. assert (ab_wf p) as Hwf by exact Hok.
  destruct (store_done _ _ _ _ _ proof_store_ok Hi Hwf (proof_encodings_fit _ Hok) Hs)
    as (_ & Hh & _ & _ & _ & _ & Hex & (n & ->) & _).
  destruct (store_next _ _ _ _ _ proof_store_ok Hi Hwf (proof_encodings_fit _ Hok) Hs) as (_ & Hv & _).
  destruct (held_copy_at _ _ _ _ Hh) as [bs Hct%proof_copy_some]. change (dp_volume_uuid (set_generation n p)) with (dp_volume_uuid p) in Hct.
  set (t := target_of proof_store w) in *.
  assert (proof_copy w1 (other proof_store t) (dp_volume_uuid p) = proof_copy w (other proof_store t) (dp_volume_uuid p)) as Hco
    by (unfold proof_copy, fixed_at; by rewrite Hv).
  assert (∃ o, proof_copy w (other proof_store t) (dp_volume_uuid p) = Ok o ∧
    ∀ q, o = Some q → follows (set_generation n p) q = Ok tt ∧ dp_generation q < n) as (o & Ho & Hq).
  { assert (∃ o, proof_copy w (other proof_store t) (dp_volume_uuid p) = Ok o) as [o Ho].
    { unfold proof_at in Hc. unfold other. inv_res. destruct (String.eqb _ _); eauto. }
    exists o. split; [done|]. intros q ->. destruct (proof_copy_ok _ _ _ _ Ho) as [Hq Hu].
    symmetry in Hq. apply fmap_Some in Hq as ([q' bq] & Hcq & ->). cbn [fst] in *.
    split; [|apply (existing_ge _ _ _ _ _ (other_side _ t)) in Hcq; cbn in Hcq, Hex; lia].
    apply (follows_trans (set_generation n p) p q'); [apply follows_spec; split; [done|]; by left|].
    eapply follows_trans; [exact Hf|]. eapply selected_follows; [exact Hc|apply other_side|done]. }
  rewrite Ho in Hco. destruct (selection_sides proof_store w proof_store_ok) as [Ht _]. fold t in Ht. unfold proof_at.
  destruct Ht as [Ht|Ht]; rewrite Ht in Hct, Hco.
  - change (other proof_store (side_a proof_store)) with DURABLE_PROOF_B in Hco. change (side_a proof_store) with DURABLE_PROOF_A in Hct.
    rewrite Hct, Hco. cbn [rbind]. destruct o as [q|]; [|done]. destruct (Hq q eq_refl). by apply select_follows.
  - change (other proof_store (side_b proof_store)) with DURABLE_PROOF_A in Hco. change (side_b proof_store) with DURABLE_PROOF_B in Hct.
    rewrite Hct, Hco. cbn [rbind]. destruct o as [q|]; [|done]. destruct (Hq q eq_refl). by apply select_follows.
Qed.

Lemma store_quiet p w r w' :
  inv w → proof_ok p → quiet w → Z.max (existing_of proof_store w) (dp_generation p) + 1 ≤ U64_MAX →
  store_record proof_store p w = (r, w') → ∃ p', r = Ok p' ∧ store proof_store p w = (Ok tt, p', w').
Proof.
  intros Hi Hok Hq Hn. unfold store_record. destruct (store proof_store p w) as [[rs rec] w1] eqn:Hs.
  assert (ab_wf p) as Hwf by exact Hok. destruct (store_keeps _ _ _ _ _ _ Hi proof_store_ok Hwf Hs) as (_ & Hr).
  rewrite (Hr Hq Hn). intros [= <- <-]. eauto.
Qed.

Lemma sync_journal_quiet w r w' :
  inv w → quiet w → lift_io (b_sync_dir JOURNAL_DIR) w = (r, w') → r = Ok tt ∧ keeps (λ _, True) w w'.
Proof.
  intros Hi Hq. unfold lift_io, m_map_err. destruct (b_sync_dir JOURNAL_DIR w) as [r0 w0] eqn:Hd. intros [= <- <-].
  destruct (law_sync_dir w JOURNAL_DIR _ _ Hi eq_refl Hd) as (Hk & _ & Hr & _). by rewrite (Hr Hq).
Qed.

Lemma load_quiet volume_uuid w r w' :
  inv w → quiet w → dp_load volume_uuid w = (r, w') → r = proof_at w volume_uuid ∧ keeps (λ _, True) w w'.
Proof. intros Hi Hq Hl. destruct (dp_load_spec w _ Hi _ _ Hl) as (Hk & _ & Hr). by rewrite (Hr Hq). Qed.

(** The second half of an advance. *)
Lemma second_store_quiet p uuid w r w' :
  inv w → proof_ok p → quiet w → proof_at w uuid = Ok p → existing_of proof_store w = dp_generation p →
  dp_generation p + 1 ≤ U64_MAX →
  (let* _ := lift_io (b_sync_dir JOURNAL_DIR) in
   let* _ := dp_load uuid in
   let* candidate := store_record proof_store p in
   let* _ := lift_io (b_sync_dir JOURNAL_DIR) in
   m_ret candidate) w = (r, w') → is_ok r = true.
Proof.
  intros Hi Hok Hq Hc He Hg. unfold m_bind.
  destruct (lift_io (b_sync_dir JOURNAL_DIR) w) as [r1 w1] eqn:Hd1. destruct (sync_journal_quiet _ _ _ Hi Hq Hd1) as [-> Hk1].
  pose proof (keeps_inv _ _ _ Hk1) as Hi1. pose proof (keeps_quiet _ _ _ Hk1 Hq) as Hq1.
  destruct (dp_load uuid w1) as [r2 w2] eqn:Hl. destruct (load_quiet _ _ _ _ Hi1 Hq1 Hl) as [-> Hk2].
  rewrite (proof_at_sides _ _ _ _ Hk1 ltac:(done)), Hc. pose proof (keeps_inv _ _ _ Hk2) as Hi2. pose proof (keeps_quiet _ _ _ Hk2 Hq1) as Hq2.
  destruct (store_record proof_store p w2) as [r3 w3] eqn:Hs.
  destruct (store_quiet p w2 r3 w3 Hi2 Hok Hq2) as (p2 & -> & Hst); [|done|].
  { rewrite (existing_sides _ _ _ Hk2 ltac:(done)), (existing_sides _ _ _ Hk1 ltac:(done)), He. lia. }
  assert (ab_wf p) as Hwf by exact Hok. destruct (store_keeps _ _ _ _ _ _ Hi2 proof_store_ok Hwf Hst) as [Hk3 _].
  destruct (lift_io (b_sync_dir JOURNAL_DIR) w3) as [r4 w4] eqn:Hd2.
  destruct (sync_journal_quiet _ _ _ (keeps_inv _ _ _ Hk3) (keeps_quiet _ _ _ Hk3 Hq2) Hd2) as [-> _]. by intros [= <- _].
Qed.

Lemma selected_generation w uuid cur : proof_at w uuid = Ok cur → dp_generation cur ≤ existing_of proof_store w.
Proof.
  intros Hc%proof_at_ok.
  destruct (copy_at proof_store w (side_a proof_store)) as [[ra ba]|] eqn:Ha, (copy_at proof_store w (side_b proof_store)) as [[rb bb]|] eqn:Hb;
    unfold dp_select in Hc; cbn in Hc; inv_res; repeat case_match; inv_res; simplify_eq;
    first [exact (existing_ge _ _ _ _ _ (or_introl eq_refl) Ha)|exact (existing_ge _ _ _ _ _ (or_intror eq_refl) Hb)].
Qed.

(** Without faults an admitted candidate is published. *)
Lemma advance_quiet p w r w' :
  inv w → proof_ok p → quiet w → publishable w p → dp_advance p w = (r, w') → is_ok r = true.
Proof.
  intros Hi Hok Hq (cur & Hc & Hf & Hg & He) Ha. unfold dp_advance in Ha.
  assert (dp_validate p = Ok tt) as Hv by apply Hok. unfold m_bind at 1 in Ha. rewrite Hv in Ha. cbn [m_lift] in Ha.
  unfold m_bind at 1 in Ha. destruct (dp_load _ w) as [r0 w0] eqn:Hl. destruct (load_quiet _ _ _ _ Hi Hq Hl) as [-> Hk0]. rewrite Hc in Ha.
  pose proof (keeps_inv _ _ _ Hk0) as Hi0. pose proof (keeps_quiet _ _ _ Hk0 Hq) as Hq0. pose proof (selected_generation _ _ _ Hc) as Hcur.
  rewrite <- (existing_sides _ _ _ Hk0 ltac:(done)) in He, Hcur. rewrite <- (proof_at_sides _ _ _ _ Hk0 ltac:(done)) in Hc.
  unfold m_bind at 1 in Ha. rewrite Hf in Ha. cbn [m_lift] in Ha.
  unfold m_bind at 1 in Ha. rewrite (proj2 (Z.ltb_ge _ _)) in Ha by lia. cbn [m_lift negb rbind] in Ha.
  unfold m_bind at 1 in Ha. unfold checked_add in Ha. rewrite (proj2 (Z.leb_le (dp_generation cur + 2) U64_MAX)) in Ha by lia. cbn [m_lift ok_or] in Ha.
  unfold m_bind at 1 in Ha. destruct (store_record proof_store p w0) as [r1 w1] eqn:Hs1.
  destruct (store_quiet p w0 r1 w1 Hi0 Hok Hq0 ltac:(lia) Hs1) as (p1 & -> & Hst1).
  assert (ab_wf p) as Hwf by exact Hok. pose proof (proof_encodings_fit _ Hok) as Hfit.
  destruct (store_next _ _ _ _ _ proof_store_ok Hi0 Hwf Hfit Hst1) as (Hg1 & _ & Hex1).
  change (dp_generation p1 = Z.max (existing_of proof_store w0) (dp_generation p) + 1) in Hg1. change (existing_of proof_store w1 = dp_generation p1) in Hex1.
  destruct (store_result _ _ _ _ _ Hi0 proof_store_ok Hwf Hst1) as [Hwf1 _].
  destruct (store_keeps _ _ _ _ _ _ Hi0 proof_store_ok Hwf Hst1) as [Hk1 _].
  eapply (second_store_quiet p1 _ w1); [by eapply keeps_inv|exact Hwf1|by eapply keeps_quiet| |exact Hex1|lia|exact Ha].
  exact (first_store_loads _ _ _ _ _ Hi0 Hok Hc Hf Hs1).
Qed.

(** ** Initialization *)

Lemma initial_ok volume_uuid : length volume_uuid = 16%nat → proof_ok (initial volume_uuid).
Proof. intros Hu. by repeat split. Qed.

(** The emptiness check changes nothing and passes only where nothing is. *)
Lemma check_unused_spec w volume_uuid path r w' :
  inv w → validate path false = Ok tt → check_unused volume_uuid path w = (r, w') →
  keeps (λ _, True) w w' ∧ (∀ u, r = Ok u → vis w path = None).
Proof.
  intros Hi Hv. unfold check_unused, m_bind.
  destruct (dp_read_copy path volume_uuid w) as [rc w1] eqn:Hr.
  destruct (dp_read_copy_spec w path volume_uuid Hi Hv _ _ Hr) as (Hk & _).
  destruct rc as [o|e]; [|intros [= <- <-]; by split].
  unfold lift_io, m_map_err. destruct (b_exists path w1) as [re w2] eqn:He.
  destruct (law_exists _ _ _ _ (keeps_inv _ _ _ Hk) He) as (Hk2 & Hn).
  rewrite (keeps_vis _ _ _ _ Hk I) in Hn. pose proof (keeps_trans _ _ _ _ Hk Hk2).
  destruct re as [[]|e]; unfold m_err, m_ret; simpl; intros [= <- <-]; (split; [done|]); auto; done.
Qed.

(** Up to the first store nothing changes; it is only reached when neither
    path exists. *)
Lemma initialize_inv volume_uuid w r w' :
  inv w → dp_initialize volume_uuid w = (r, w') →
  (keeps (λ _, True) w w' ∧ ∃ e, r = Err e) ∨
  ∃ w0, keeps (λ _, True) w w0 ∧ vis w DURABLE_PROOF_A = None ∧ vis w DURABLE_PROOF_B = None ∧
    (let* proof := store_record proof_store (initial volume_uuid) in
     let* _ := lift_io (b_sync_dir JOURNAL_DIR) in
     let* proof := store_record proof_store proof in
     let* _ := lift_io (b_sync_dir JOURNAL_DIR) in
     let* _ := lift_io (b_sync_dir "") in
     m_ret proof) w0 = (r, w').
Proof.
  intros Hi. unfold dp_initialize. unfold m_bind at 1.
  destruct (check_unused volume_uuid DURABLE_PROOF_A w) as [ra wa] eqn:Ha.
  destruct (check_unused_spec w volume_uuid DURABLE_PROOF_A _ _ Hi eq_refl Ha) as (Hka & Hna).
  destruct ra as [ua|e]; [|intros [= <- <-]; left; eauto]. unfold m_bind at 1.
  destruct (check_unused volume_uuid DURABLE_PROOF_B wa) as [rb wb] eqn:Hb.
  destruct (check_unused_spec wa volume_uuid DURABLE_PROOF_B _ _ (keeps_inv _ _ _ Hka) eq_refl Hb) as (Hkb & Hnb).
  pose proof (keeps_trans _ _ _ _ Hka Hkb) as Hkab.
  destruct rb as [ub|e]; [|intros [= <- <-]; left; eauto]. unfold m_bind at 1, lift_io at 1, m_map_err.
  destruct (b_create_dir_all JOURNAL_DIR wb) as [rd wd] eqn:Hd.
  pose proof (law_create_dir_all _ _ _ _ (keeps_inv _ _ _ Hkab) Hd) as Hkd.
  pose proof (keeps_trans _ _ _ _ Hkab Hkd) as Hk.
  destruct rd as [ud|e]; [|intros [= <- <-]; left; eauto]. simpl. intros Hr. right. exists wd.
  split; [done|]. split; [eauto|]. split; [|done]. rewrite <- (keeps_vis _ _ _ _ Hka I). eauto.
Qed.

Lemma initialize_done volume_uuid proof w w' :
  inv w → length volume_uuid = 16%nat → absent w DURABLE_PROOF_B →
  dp_initialize volume_uuid w = (Ok proof, w') →
  keeps (λ q, ¬ is_side proof_store q) w w' ∧
  ∃ g g', proof = at_generation g' (initial volume_uuid) ∧
    mirrored proof_store w' (at_generation g (initial volume_uuid)) (at_generation g' (initial volume_uuid)).
Proof.
  intros Hi Hu Hab Hr.
  destruct (initialize_inv _ _ _ _ Hi Hr) as [(_ & e & ?)|(w0 & Hk & _ & _ & Ha)]; [done|].
  apply m_bind_ok in Ha as (p1 & w1 & Hs1 & Ha).
  apply m_bind_ok in Ha as ([] & w2 & Hd1%lift_io_ok & Ha).
  apply m_bind_ok in Ha as (p2 & w3 & Hs2 & Ha).
  apply m_bind_ok in Ha as ([] & w4 & Hd2%lift_io_ok & Ha).
  apply m_bind_ok in Ha as ([] & w5 & Hd3%lift_io_ok & [= <- <-]).
  pose proof (keeps_inv _ _ _ Hk) as Hi0. pose proof (initial_ok _ Hu) as Hok.
  assert (ab_wf (initial volume_uuid)) as Hwf by exact Hok.
  assert (storable proof_store w0) as Hst by (right; right; exact (keeps_absent _ _ _ _ Hk I Hab)).
  assert (inv w1) as Hi1.
  { eapply keeps_inv. apply store_record_ok in Hs1.
    by apply (store_keeps proof_store _ w0 _ _ _ Hi0 proof_store_ok Hwf Hs1). }
  pose proof (sync_dir_keeps_all JOURNAL_DIR _ _ _ Hi1 eq_refl Hd1) as Hk1.
  destruct (two_stores _ _ _ _ _ _ _ _ Hi0 Hok Hst Hs1 Hk1 Hs2 Hd2) as (Hk2 & g1 & g2 & -> & -> & Hm).
  pose proof (sync_dir_keeps_all "" _ _ _ (keeps_inv _ _ _ Hk2) eq_refl Hd3) as Hk3.
  split.
  - eapply keeps_trans; [by eapply keeps_weaken; [|exact Hk]|].
    eapply keeps_trans; [exact Hk2|]. by eapply keeps_weaken; [|exact Hk3].
  - exists g1, g2. split; [done|]. by apply (mirrored_keeps (λ _, True) _ _ _ _ _ (λ _ _, I) Hk3).
Qed.
End Horizon.

Section Claims.
Context `{Crc32} `{BackingLaws W F}.

(** C17. The acknowledgement horizon never regresses.  Once a record that
    follows horizon [h] is durable on one side, then after any sequence of
    loads, advances (each of which may fail at any of its I/O calls),
    directory syncs and crashes, some side still durably holds a record
    that follows [h], and every load that succeeds returns a horizon that
    follows [h]: the same volume, and either the same journal position or a
    strictly later one. *)
Theorem horizon_never_regresses h w w' :
  inv w → attested w h → rtc proof_step w w' →
  attested w' h ∧
  ∀ volume_uuid current w'', dp_load volume_uuid w' = (Ok current, w'') → follows current h = Ok tt.
Proof.
  intros Hi Ha Hs. assert (keeps_horizon h w') as Hh.
  { assert (keeps_horizon h w) as Hw by done. clear Hi Ha.
    induction Hs; [done|]. eauto using proof_step_horizon. }
  split; [apply Hh|]. intros u cur w'' Hl.
  by destruct (load_horizon h u w' _ _ Hh Hl) as (_ & _ & ?).
Qed.

(** C18. An acknowledged advance is mirrored.  When [advance] returns
    success, the candidate followed the horizon that was loaded, both sides
    durably hold the candidate's horizon (only the generations differ), and
    after any number of crashes a load returns the advanced record. *)
Theorem advance_mirrors proof proof' w w' w'' :
  inv w → proof_ok proof → dp_advance proof w = (Ok proof', w') → rtc crashes w' w'' → quiet w'' →
  (∃ current, proof_at w (dp_volume_uuid proof) = Ok current ∧ follows proof current = Ok tt) ∧
  (∃ g g', proof' = at_generation g' proof ∧
           mirrored proof_store w'' (at_generation g proof) (at_generation g' proof)) ∧
  ∃ w3, dp_load (dp_volume_uuid proof) w'' = (Ok proof', w3).
Proof.
  intros Hi Hok Ha Hcr Hq.
  destruct (advance_inv _ _ _ _ Hi Hok Ha)
    as (cur & p1 & w0 & w1 & w1' & w2 & Hc & Hf & Hk0 & Hs1 & Hk1 & Hs2 & Hd).
  rewrite <- (proof_at_keeps _ _ _ Hk0) in Hc.
  destruct (two_stores _ _ _ _ _ _ _ _ (keeps_inv _ _ _ Hk0) Hok (proof_at_storable _ _ _ Hc)
    Hs1 Hk1 Hs2 Hd) as (_ & g1 & g2 & -> & -> & Hm).
  pose proof (mirrored_crashes _ _ _ _ Hm Hcr) as Hm'.
  rewrite (proof_at_keeps _ _ _ Hk0) in Hc.
  split; [by exists cur|]. split; [by exists g1, g2|]. by apply (mirrored_load _ g1 g2).
Qed.

(** Initialization is durable, and never resets history.  When
    [initialize] succeeds (and nothing was ever stored under the second
    name), no other file was touched, and after any number of crashes a load
    returns the initial horizon of the volume; when either file exists,
    whatever it contains, the call fails and changes nothing a reader or a
    crash could show. *)
Theorem initialize_spec volume_uuid w r w' :
  inv w → length volume_uuid = 16%nat → dp_initialize volume_uuid w = (r, w') →
  (∀ proof, r = Ok proof → absent w DURABLE_PROOF_B →
    keeps (λ q, ¬ is_side proof_store q) w w' ∧
    ∃ g, proof = at_generation g (initial volume_uuid) ∧
    ∀ w'', rtc crashes w' w'' → quiet w'' → ∃ w3, dp_load volume_uuid w'' = (Ok proof, w3)) ∧
  (is_Some (vis w DURABLE_PROOF_A) ∨ is_Some (vis w DURABLE_PROOF_B) →
    is_ok r = false ∧ keeps (λ _, True) w w').
Proof.
  intros Hi Hu Hr. split.
  - intros proof -> Hab. destruct (initialize_done _ _ _ _ Hi Hu Hab Hr) as (Hk & g1 & g2 & -> & Hm).
    split; [done|]. exists g2. split; [done|]. intros w'' Hc Hq.
    apply (mirrored_load _ g1 g2 (initial volume_uuid)); [|done]. by eapply mirrored_crashes.
  - intros Hv. destruct (initialize_inv _ _ _ _ Hi Hr) as [(? & e & ->)|(w0 & _ & Ha & Hb & _)]; [done|].
    rewrite Ha, Hb in Hv. by destruct Hv as [[? ?]|[? ?]].
Qed.
End Claims.

(** ** A concrete run on the crash model *)
Module ProofSample.
#[local] Existing Instance Ieee.ieee.

Definition uuid : bytes := repeat Byte.x07 16.
Definition w0 : Inner := Sample.empty.
Definition w1 : Inner := (dp_initialize uuid w0).2.
Definition p0 : DurableProof := mkDurableProof 2 uuid 0 0 0.
(** A journal of one segment whose durable prefix ends at byte 4096. *)
Definition horizon : DurableProof := mkDurableProof 2 uuid 3 1 4096.
Definition w2 : Inner := (dp_advance horizon w1).2.
Definition horizon' : DurableProof := mkDurableProof 4 uuid 3 1 4096.

Lemma initialize_runs : dp_initialize uuid w0 = (Ok p0, w1).
Proof. vm_compute. reflexivity. Qed.

Lemma advance_runs : dp_advance horizon w1 = (Ok horizon', w2).
Proof. vm_compute. reflexivity. Qed.

Lemma horizon_ok : proof_ok horizon.
Proof. by repeat split. Qed.

Lemma w0_inv : inv w0.
Proof. exact Sample.empty_inv. Qed.

Lemma w1_inv : inv w1.
Proof.
  destruct (initialize_done uuid p0 w0 w1 w0_inv eq_refl) as (Hk & _); [done|exact initialize_runs|].
  by eapply keeps_inv.
Qed.

Lemma w1_attested : attested w1 p0.
Proof.
  destruct (initialize_done uuid p0 w0 w1 w0_inv eq_refl) as (_ & g & g' & Hp & Hm);
    [done|exact initialize_runs|].
  rewrite <- Hp in Hm. destruct Hm as (_ & _ & t & Ht & _ & Hd). exists (other proof_store t), p0.
  split; [apply other_side|]. split; [exact Hd|apply follows_refl].
Qed.
End ProofSample.

#[local] Existing Instance Ieee.ieee.

Lemma horizon_never_regresses_witness :
  attested (crash_all_lost ProofSample.w2) ProofSample.p0.
Proof.
  refine (proj1 (horizon_never_regresses ProofSample.p0 ProofSample.w1
    (crash_all_lost ProofSample.w2) ProofSample.w1_inv ProofSample.w1_attested _)).
  eapply rtc_l; [exact (proof_step_advance _ _ _ _ ProofSample.horizon_ok ProofSample.advance_runs)|].
  apply rtc_once, proof_step_crash. by right.
Defined.

Lemma advance_mirrors_witness :
  ∃ w3, dp_load ProofSample.uuid (crash_all_lost ProofSample.w2) = (Ok ProofSample.horizon', w3).
Proof.
  refine (proj2 (proj2 (advance_mirrors ProofSample.horizon ProofSample.horizon' ProofSample.w1
    ProofSample.w2 (crash_all_lost ProofSample.w2) ProofSample.w1_inv ProofSample.horizon_ok
    ProofSample.advance_runs _ _))); [apply rtc_once; by right|by vm_compute].
Defined.

Lemma initialize_spec_witness :
  ∃ w3, dp_load ProofSample.uuid (crash_all_lost ProofSample.w1) = (Ok ProofSample.p0, w3).
Proof.
  destruct (proj1 (initialize_spec ProofSample.uuid ProofSample.w0 (Ok ProofSample.p0) ProofSample.w1
    ProofSample.w0_inv eq_refl ProofSample.initialize_runs) ProofSample.p0 eq_refl) as (_ & g & _ & Hl);
    [done|].
  apply Hl; [apply rtc_once; by right|by vm_compute].
Defined.
