(* ===== verification/JournalWriter.v ===== *)
(** * JournalWriter: the ordered ciphertext journal writer
    (crates/maki-core/src/journal.rs)

    Module [Journal] has the writer's state and every operation of it: an
    operation runs on the pair of the writer and the backing, and keeps what
    it changed when it fails.  The invariant [writer_ok] relates the writer's
    counters to the files under any injected fault; its consequences are the
    durability of acknowledged records under later failures, deletions and
    crashes, the writer's own sanitizer, and that a barrier succeeds once
    I/O works again. *)

From S2P Require Import Prelude Codec Layout JournalFormat AbRecord Backing CrashBacking AbStore FixedCopy DurableProof.

Local Open Scope Z_scope.

(** [std::hash::DefaultHasher]: an incremental hasher whose algorithm the
    standard library leaves unspecified. *)
Class Hasher (H : Type) := {
  hasher_new : H;
  hasher_write : H → bytes → H;
  hasher_finish : H → Z
}.

(** Feeding a stream in pieces is feeding the stream.  The documentation of
    [Hasher] does not promise that adjacent writes merge; it is true of
    [DefaultHasher], and the source relies on it: a rewrite hashes a range
    chunk by chunk and compares the result with the fingerprint the writer
    kept record by record. *)
Class HasherLaws (H : Type) `{Hasher H} := {
  hasher_write_nil h : hasher_write h [] = h;
  hasher_write_app h a b : hasher_write h (a ++ b) = hasher_write (hasher_write h a) b
}.

(** crates/maki-core/src/error.rs; the messages are dropped. *)
Inductive CoreError :=
| CoreIo (kind : ErrorKind) | CoreFormat (e : FormatError)
| CoreCorrupt | CoreDurability | CoreInvalid | CoreCrypto.

Module Journal.

(** ** The state *)

Record SegmentInfo := mkSegmentInfo {
  s_index : Z;
  s_base_sequence : Z;
  s_record_count : Z;
  s_size : Z
}.

Definition last_sequence (s : SegmentInfo) : Z :=
  if 0 <? s_record_count s
  then sub64 (add64 (s_base_sequence s) (s_record_count s)) 1
  else saturating_sub (s_base_sequence s) 1.

Section Writer.
Context `{Crc32} `{Backing W F} `{Hasher HT}.

Record ActiveSegment := mkActiveSegment {
  a_info : SegmentInfo;
  a_file : F;
  a_write_offset : Z;
  a_synced_offset : Z;
  a_unsynced : bool;
  a_needs_tail_cleanup : bool;
  a_needs_redirty : bool;
  a_pending_fingerprint : HT
}.

Record JournalWriter := mkJournalWriter {
  j_volume_uuid : bytes;
  j_segment_size : Z;
  j_next_sequence : Z;
  j_appended_sequence : Z;
  j_durable_sequence : Z;
  j_sealed : list SegmentInfo;
  j_active : option ActiveSegment;
  j_next_segment_index : Z;
  j_creation_cleanup : option Z;
  j_mark : option F;
  j_proof : DurableProof;
  j_holes_allowed_below : Z;
  j_sync_failures : Z
}.

(** Field assignments. *)
Definition set_sequences (next appended : Z) (j : JournalWriter) : JournalWriter :=
  mkJournalWriter (j_volume_uuid j) (j_segment_size j) next appended
    (j_durable_sequence j) (j_sealed j) (j_active j) (j_next_segment_index j)
    (j_creation_cleanup j) (j_mark j) (j_proof j) (j_holes_allowed_below j) (j_sync_failures j).
Definition set_durable (durable : Z) (j : JournalWriter) : JournalWriter :=
  mkJournalWriter (j_volume_uuid j) (j_segment_size j) (j_next_sequence j) (j_appended_sequence j)
    durable (j_sealed j) (j_active j) (j_next_segment_index j)
    (j_creation_cleanup j) (j_mark j) (j_proof j) (j_holes_allowed_below j) (j_sync_failures j).
Definition set_segments (sealed : list SegmentInfo) (active : option ActiveSegment) (next_index : Z)
    (j : JournalWriter) : JournalWriter :=
  mkJournalWriter (j_volume_uuid j) (j_segment_size j) (j_next_sequence j) (j_appended_sequence j)
    (j_durable_sequence j) sealed active next_index
    (j_creation_cleanup j) (j_mark j) (j_proof j) (j_holes_allowed_below j) (j_sync_failures j).
Definition set_active (active : ActiveSegment) (j : JournalWriter) : JournalWriter :=
  set_segments (j_sealed j) (Some active) (j_next_segment_index j) j.
Definition set_cleanup (cleanup : option Z) (j : JournalWriter) : JournalWriter :=
  mkJournalWriter (j_volume_uuid j) (j_segment_size j) (j_next_sequence j) (j_appended_sequence j)
    (j_durable_sequence j) (j_sealed j) (j_active j) (j_next_segment_index j)
    cleanup (j_mark j) (j_proof j) (j_holes_allowed_below j) (j_sync_failures j).
Definition set_mark (mark : option F) (j : JournalWriter) : JournalWriter :=
  mkJournalWriter (j_volume_uuid j) (j_segment_size j) (j_next_sequence j) (j_appended_sequence j)
    (j_durable_sequence j) (j_sealed j) (j_active j) (j_next_segment_index j)
    (j_creation_cleanup j) mark (j_proof j) (j_holes_allowed_below j) (j_sync_failures j).
Definition set_proof (proof : DurableProof) (j : JournalWriter) : JournalWriter :=
  mkJournalWriter (j_volume_uuid j) (j_segment_size j) (j_next_sequence j) (j_appended_sequence j)
    (j_durable_sequence j) (j_sealed j) (j_active j) (j_next_segment_index j)
    (j_creation_cleanup j) (j_mark j) proof (j_holes_allowed_below j) (j_sync_failures j).
Definition set_holes (holes : Z) (j : JournalWriter) : JournalWriter :=
  mkJournalWriter (j_volume_uuid j) (j_segment_size j) (j_next_sequence j) (j_appended_sequence j)
    (j_durable_sequence j) (j_sealed j) (j_active j) (j_next_segment_index j)
    (j_creation_cleanup j) (j_mark j) (j_proof j) holes (j_sync_failures j).
Definition count_failure (j : JournalWriter) : JournalWriter :=
  mkJournalWriter (j_volume_uuid j) (j_segment_size j) (j_next_sequence j) (j_appended_sequence j)
    (j_durable_sequence j) (j_sealed j) (j_active j) (j_next_segment_index j)
    (j_creation_cleanup j) (j_mark j) (j_proof j) (j_holes_allowed_below j)
    (add64 (j_sync_failures j) 1).

Definition set_tail_cleanup (b : bool) (a : ActiveSegment) : ActiveSegment :=
  mkActiveSegment (a_info a) (a_file a) (a_write_offset a) (a_synced_offset a) (a_unsynced a)
    b (a_needs_redirty a) (a_pending_fingerprint a).
Definition set_redirty (b : bool) (a : ActiveSegment) : ActiveSegment :=
  mkActiveSegment (a_info a) (a_file a) (a_write_offset a) (a_synced_offset a) (a_unsynced a)
    (a_needs_tail_cleanup a) b (a_pending_fingerprint a).
(** What a completed sync leaves. *)
Definition set_synced (a : ActiveSegment) : ActiveSegment :=
  mkActiveSegment (a_info a) (a_file a) (a_write_offset a) (a_write_offset a) false false false
    hasher_new.

(** ** Effects: the writer and the backing *)

Abbreviation jio := (M (JournalWriter * W) CoreError).

Definition get : jio JournalWriter := λ st, (Ok st.1, st).
Definition modify (f : JournalWriter → JournalWriter) : jio unit := λ st, (Ok tt, (f st.1, st.2)).
Definition world {E A} (m : M W E A) : M (JournalWriter * W) E A := λ st,
  let '(r, w) := m st.2 in (r, (st.1, w)).
(** [?] on an I/O call, and an I/O call whose error the caller inspects. *)
Definition io {A} (m : M W ErrorKind A) : jio A := world (m_map_err CoreIo m).
Definition io_try {A} (m : M W ErrorKind A) : jio (result ErrorKind A) := world (m_try m).
Definition when (b : bool) (m : jio unit) : jio unit := if b then m else m_ret tt.

(** ** Construction and views *)

Definition effective_segment_size (configured : Z) : Z := Z.max configured (SEGMENT_HEADER_SIZE + 64).

Definition resume (volume_uuid : bytes) (segment_size durable_sequence next_segment_index : Z)
    (sealed : list SegmentInfo) (proof : DurableProof) : JournalWriter :=
  mkJournalWriter volume_uuid (effective_segment_size segment_size) (add64 durable_sequence 1)
    durable_sequence durable_sequence sealed None next_segment_index None None proof 0 0.

Definition allow_covered_holes_below (checkpoint_sequence : Z) : jio unit :=
  modify (set_holes checkpoint_sequence).

Definition writeback_uncertain (j : JournalWriter) : bool :=
  match j_creation_cleanup j with Some _ => true | None => false end
  || match j_active j with Some a => a_needs_redirty a | None => false end.

Definition segment_count (j : JournalWriter) : Z :=
  blen (j_sealed j) + match j_active j with Some _ => 1 | None => 0 end.

Definition active_segment_index (j : JournalWriter) : option Z := s_index ∘ a_info <$> j_active j.

(** [sealed.iter().chain(active)]. *)
Definition segments (j : JournalWriter) : list SegmentInfo :=
  j_sealed j ++ match j_active j with Some a => [a_info a] | None => [] end.

Definition first_uncovered_segment_index (j : JournalWriter) (checkpoint_sequence : Z) : option Z :=
  s_index <$> List.find (λ s, (0 <? s_record_count s) && (checkpoint_sequence <? last_sequence s))
    (segments j).

Definition covered (checkpoint_sequence : Z) (s : SegmentInfo) : bool :=
  last_sequence s <=? checkpoint_sequence.

Definition covered_segment_count (j : JournalWriter) (checkpoint_sequence : Z) : Z :=
  blen (List.filter (covered checkpoint_sequence) (j_sealed j)).

Definition pending_bytes (j : JournalWriter) : Z :=
  match j_active j with
  | Some a => if a_unsynced a then saturating_sub (a_write_offset a) (a_synced_offset a) else 0
  | None => 0
  end.

Definition total_bytes (j : JournalWriter) : Z :=
  add64 (foldl (λ sum s, add64 sum (s_size s)) 0 (j_sealed j))
    match j_active j with Some a => s_size (a_info a) | None => 0 end.

Definition append_footprint (j : JournalWriter) (record_lens : list Z) : Z :=
  let active := (λ a, (a_write_offset a, s_record_count (a_info a))) <$> j_active j in
  default U64_MAX
    (checked_append_footprint (j_segment_size j) active ((λ len, (len, 1)) <$> record_lens)).

(** ** Barriers *)

Definition REWRITE_CHUNK : Z := 64 * 1024.

(** The loop of [rewrite_verified_range]: each round copies at least one
    byte, so [end_ - offset] rounds are enough. *)
Fixpoint rewrite_go (fuel : nat) (file : F) (offset end_ : Z) (fingerprint : HT) : M W CoreError HT :=
  match fuel with
  | O => m_ret fingerprint
  | S fuel =>
      if offset <? end_ then
        let len := Z.min (end_ - offset) REWRITE_CHUNK in
        let* chunk := m_map_err CoreIo (f_read_at file offset len) in
        let fingerprint := hasher_write fingerprint chunk in
        let* _ := m_map_err CoreIo (f_write_at file offset chunk) in
        rewrite_go fuel file (offset + len) end_ fingerprint
      else m_ret fingerprint
  end.

Definition rewrite_verified_range (file : F) (start end_ expected_fingerprint : Z) : M W CoreError unit :=
  let* fingerprint := rewrite_go (Z.to_nat (end_ - start)) file start end_ hasher_new in
  if hasher_finish fingerprint =? expected_fingerprint then m_ret tt else m_err CoreCorrupt.

(** The mark is best effort: no outcome of it is reported. *)
Definition write_mark (mark : DurableMark) : jio unit :=
  let* j := get in
  let* file := match j_mark j with
               | Some file => m_ret (Some file)
               | None =>
                   let* r := io_try (b_open JOURNAL_DURABLE_MARK true) in
                   match r with
                   | Ok file => let* _ := modify (set_mark (Some file)) in m_ret (Some file)
                   | Err _ => m_ret None
                   end
               end in
  match file with
  | Some file => let* _ := io_try (f_write_at file 0 (DurableMark_encode mark)) in m_ret tt
  | None => m_ret tt
  end.

(** A barrier that failed: the range must be rewritten before the next sync. *)
Definition sync_failed (active : ActiveSegment) : jio unit :=
  modify (λ j, count_failure (set_active (set_redirty true active) j)).

Definition proof_error (e : FormatError) : CoreError :=
  match e with Io kind => CoreIo kind | e => CoreFormat e end.

(** The publication of the durable proof inside [sync_active]. *)
Definition publish_proof (active : ActiveSegment) : jio unit :=
  let* j := get in
  if (durable_sequence (j_proof j) <? j_appended_sequence j) && (0 <? s_record_count (a_info active))
  then
    let candidate := mkDurableProof (dp_generation (j_proof j)) (dp_volume_uuid (j_proof j))
      (j_appended_sequence j) (s_index (a_info active)) (a_write_offset active) in
    let* r := world (m_try (dp_advance candidate)) in
    match r with
    | Err e => let* _ := sync_failed active in m_err (proof_error e)
    | Ok candidate => modify (set_proof candidate)
    end
  else m_ret tt.

(** [sync_active] past its early returns. *)
Definition sync_pending (active : ActiveSegment) : jio unit :=
  let* _ := when (a_needs_tail_cleanup active || a_needs_redirty active)
              (io (f_set_len (a_file active) (a_write_offset active))) in
  let* _ := when (a_needs_redirty active)
              (world (rewrite_verified_range (a_file active) (a_synced_offset active)
                (a_write_offset active) (hasher_finish (a_pending_fingerprint active)))) in
  let* r := io_try (f_sync_data (a_file active)) in
  match r with
  | Err e => let* _ := sync_failed active in m_err (CoreIo e)
  | Ok _ =>
      let* _ := publish_proof active in
      let* _ := modify (λ j, set_durable (j_appended_sequence j) (set_active (set_synced active) j)) in
      write_mark (mkDurableMark (s_index (a_info active)) (a_write_offset active))
  end.

Definition sync_active : jio unit :=
  let* j := get in
  match j_active j with
  | None => m_ret tt
  | Some active =>
      if negb (a_unsynced active) && negb (a_needs_tail_cleanup active) then m_ret tt
      else sync_pending active
  end.

Definition seal_active : jio unit :=
  let* _ := sync_active in
  modify (λ j, match j_active j with
               | Some active => set_segments (j_sealed j ++ [a_info active]) None (j_next_segment_index j) j
               | None => j
               end).

Definition cleanup_failed_creation : jio unit :=
  let* j := get in
  match j_creation_cleanup j with
  | None => m_ret tt
  | Some index =>
      let* r := io_try (b_remove (journal_segment index)) in
      let* _ := match r with
                | Ok _ | Err NotFound => m_ret tt
                | Err e => m_err (CoreIo e)
                end in
      let* _ := io (b_sync_dir JOURNAL_DIR) in
      modify (set_cleanup None)
  end.

Definition sync : jio Z :=
  let* _ := cleanup_failed_creation in
  let* _ := sync_active in
  let* _ := modify (λ j, set_durable (j_appended_sequence j) j) in
  let* j := get in
  m_ret (j_durable_sequence j).

(** ** Appends *)

(** The closure of [roll]: create, header, data sync, directory sync. *)
Definition create_segment (index : Z) (volume_uuid : bytes) (base_sequence : Z) : M W ErrorKind F :=
  let* file := b_open (journal_segment index) true in
  let* _ := f_set_len file 0 in
  let* _ := f_allocate_range file 0 SEGMENT_HEADER_SIZE in
  let header := mkSegmentHeader index volume_uuid base_sequence in
  let* _ := f_write_at file 0 (SegmentHeader_encode header) in
  let* _ := f_sync_data file in
  let* _ := b_sync_dir JOURNAL_DIR in
  m_ret file.

Definition fresh_segment (index base_sequence : Z) (file : F) : ActiveSegment :=
  mkActiveSegment (mkSegmentInfo index base_sequence 0 SEGMENT_HEADER_SIZE) file
    SEGMENT_HEADER_SIZE SEGMENT_HEADER_SIZE false false false hasher_new.

Definition roll : jio unit :=
  let* j := get in
  let index := j_next_segment_index j in
  let* next_segment_index := m_lift (ok_or (checked_add index 1) CoreCorrupt) in
  let* _ := cleanup_failed_creation in
  let* _ := seal_active in
  let* j := get in
  let base_sequence := j_next_sequence j in
  let* result := io_try (create_segment index (j_volume_uuid j) base_sequence) in
  match result with
  | Ok file =>
      let* _ := modify (λ j, set_segments (j_sealed j) (Some (fresh_segment index base_sequence file))
                               next_segment_index j) in
      write_mark (mkDurableMark index SEGMENT_HEADER_SIZE)
  | Err e =>
      let* _ := modify (set_cleanup (Some index)) in
      let* _ := m_try cleanup_failed_creation in
      m_err (CoreIo e)
  end.

Definition check_append (j : JournalWriter) (payload_len : Z) : result CoreError (Z * bool) :=
  let? next_sequence := ok_or (checked_add (j_next_sequence j) 1) CoreCorrupt in
  let record_len := add64 32 payload_len in
  let needs_roll := match j_active j with
                    | None => true
                    | Some a => (0 <? s_record_count (a_info a))
                                && (j_segment_size j <? add64 (a_write_offset a) record_len)
                    end in
  guard? negb (needs_roll && (j_next_segment_index j =? U64_MAX)) else CoreCorrupt in
  Ok (next_sequence, needs_roll).

(** The accepted record in the active segment. *)
Definition accept (encoded : bytes) (a : ActiveSegment) : ActiveSegment :=
  let write_offset := add64 (a_write_offset a) (blen encoded) in
  mkActiveSegment
    (mkSegmentInfo (s_index (a_info a)) (s_base_sequence (a_info a))
       (add64 (s_record_count (a_info a)) 1) write_offset)
    (a_file a) write_offset (a_synced_offset a) true false (a_needs_redirty a)
    (hasher_write (a_pending_fingerprint a) encoded).

(** The part of [append] after the roll; without an active segment the
    source panics, which [append_record] reports as an error the caller
    never sees. *)
Definition append_record (next_sequence sequence unit_index : Z) (payload : bytes) : jio Z :=
  let encoded := encode_record (mkJournalRecord sequence unit_index payload) in
  let* j := get in
  match j_active j with
  | None => m_err CoreInvalid
  | Some active =>
      let* _ := when (a_needs_tail_cleanup active)
                  (io (f_set_len (a_file active) (a_write_offset active))) in
      let active := set_tail_cleanup true active in
      let* _ := modify (set_active active) in
      let* _ := io (f_allocate_range (a_file active) (a_write_offset active) (blen encoded)) in
      let* _ := io (f_write_at (a_file active) (a_write_offset active) encoded) in
      let* _ := modify (λ j, set_sequences next_sequence sequence (set_active (accept encoded active) j)) in
      m_ret sequence
  end.

Definition append (unit_index : Z) (payload : bytes) : jio Z :=
  let* j := get in
  let* '(next_sequence, needs_roll) := m_lift (check_append j (blen payload)) in
  let sequence := j_next_sequence j in
  let* _ := when needs_roll roll in
  append_record next_sequence sequence unit_index payload.

(** ** Deletion *)

Fixpoint delete_go (checkpoint_sequence : Z) (segs kept : list SegmentInfo) (deleted : Z)
    (error : option CoreError) : M W CoreError (list SegmentInfo * Z * option CoreError) :=
  match segs with
  | [] => m_ret (kept, deleted, error)
  | seg :: segs =>
      if covered checkpoint_sequence seg && match error with None => true | Some _ => false end then
        let* step := m_try (b_remove (journal_segment (s_index seg))) in
        match step with
        | Ok _ => delete_go checkpoint_sequence segs kept (deleted + 1) error
        | Err e => delete_go checkpoint_sequence segs (kept ++ [seg]) deleted (Some (CoreIo e))
        end
      else delete_go checkpoint_sequence segs (kept ++ [seg]) deleted error
  end.

Definition delete_covered (checkpoint_sequence : Z) : jio Z :=
  let* _ := cleanup_failed_creation in
  let* j := get in
  let* '(kept, deleted, error) := world (delete_go checkpoint_sequence (j_sealed j) [] 0 None) in
  let* _ := modify (λ j, set_segments kept (j_active j) (j_next_segment_index j) j) in
  match error with Some e => m_err e | None => m_ret deleted end.

(** ** The sanitizer *)

Fixpoint check_segments (holes_allowed_below next_segment_index durable : Z)
    (prev_index expected_base : option Z) (segs : list (SegmentInfo * bool)) : bool :=
  match segs with
  | [] => true
  | (seg, is_active) :: segs =>
      match prev_index with Some p => p <? s_index seg | None => true end
      && (s_index seg <? next_segment_index)
      && match expected_base with
         | Some base =>
             (s_base_sequence seg =? base)
             || ((base <=? add64 holes_allowed_below 1)
                 && (s_base_sequence seg <=? add64 holes_allowed_below 1))
         | None => true
         end
      && (SEGMENT_HEADER_SIZE <=? s_size seg)
      && (is_active || negb (0 <? s_record_count seg) || (last_sequence seg <=? durable))
      && check_segments holes_allowed_below next_segment_index durable (Some (s_index seg))
           (Some (add64 (s_base_sequence seg) (s_record_count seg))) segs
  end.

Definition check_active (j : JournalWriter) (a : ActiveSegment) (len : option Z) : bool :=
  (add64 (s_base_sequence (a_info a)) (s_record_count (a_info a)) =? j_next_sequence j)
  && (a_write_offset a =? s_size (a_info a))
  && (a_synced_offset a <=? a_write_offset a)
  && (a_needs_tail_cleanup a || match len with Some len => len =? a_write_offset a | None => true end)
  && (if a_unsynced a then a_synced_offset a <? a_write_offset a
      else (a_synced_offset a =? a_write_offset a)
           && (j_durable_sequence j =? j_appended_sequence j)).

Definition check_counters (j : JournalWriter) : bool :=
  match j_creation_cleanup j with
  | Some index => match j_active j with None => true | Some _ => false end
                  && (index =? j_next_segment_index j)
  | None => true
  end
  && (j_durable_sequence j <=? j_appended_sequence j)
  && (j_next_sequence j =? add64 (j_appended_sequence j) 1)
  && check_segments (j_holes_allowed_below j) (j_next_segment_index j) (j_durable_sequence j) None None
       (((λ s, (s, false)) <$> j_sealed j)
        ++ match j_active j with Some a => [(a_info a, true)] | None => [] end).

(** The result is whether every assertion holds; the length of the file is
    read only when no tail is known to be torn, and skipped when unreadable. *)
Definition check_invariants : jio bool :=
  let* j := get in
  match j_active j with
  | Some a =>
      let* len := if a_needs_tail_cleanup a then m_ret None
                  else let* r := io_try (f_len (a_file a)) in m_ret (to_option r) in
      m_ret (check_counters j && check_active j a len)
  | None => m_ret (check_counters j && (j_durable_sequence j =? j_appended_sequence j))
  end.
End Writer.
End Journal.
