(* ===== verification/JournalProof.v ===== *)
(** * JournalProof: what the journal writer guarantees

    The invariant of the writer against the durability contract, its
    preservation by every operation of JournalWriter under any injected
    fault, and the theorems the volume relies on. *)

From S2P Require Import Prelude Codec Layout JournalFormat AbRecord Backing CrashBacking AbStore FixedCopy DurableProof JournalWriter.

Local Open Scope Z_scope.

(** ** Segment paths *)

Definition segment_name (i : Z) : string := ("seg-" ++ fmt_hex_pad 16 i)%string.

Lemma journal_segment_eq i : journal_segment i = (JOURNAL_DIR ++ String slash (segment_name i))%string.
Proof. reflexivity. Qed.

Lemma segment_name_contains c i :
  non_hex c → contains_char c "seg-" = false → contains_char c (segment_name i) = false.
Proof. intros Hc Hp. unfold segment_name. rewrite contains_char_app, Hp. by apply fmt_hex_contains. Qed.

Lemma segment_name_no_slash i : contains_char slash (segment_name i) = false.
Proof. apply segment_name_contains; [non_hex_tac|done]. Qed.

Lemma segment_valid i : validate (journal_segment i) false = Ok tt.
Proof.
  rewrite journal_segment_eq. apply validate_join; [done|apply segment_name_no_slash| |].
  - unfold forbidden. by rewrite !segment_name_contains by first [non_hex_tac|done].
  - unfold segment_name. by rewrite append_cons.
Qed.

Lemma segment_direct i : direct JOURNAL_DIR (journal_segment i) = true.
Proof.
  pose proof (direct_parent _ (segment_valid i)) as Hd.
  rewrite journal_segment_eq, parent_join in Hd by apply segment_name_no_slash. by rewrite journal_segment_eq.
Qed.

Lemma segment_inj i k : u64_ok i → u64_ok k → journal_segment i = journal_segment k → i = k.
Proof.
  intros Hi Hk He. pose proof (proj2 (parse_journal_segment_spec (segment_name i) i Hi) eq_refl) as H1.
  pose proof (proj2 (parse_journal_segment_spec (segment_name i) k Hk) He) as H2. congruence.
Qed.

Lemma segment_not_mark i : journal_segment i ≠ JOURNAL_DURABLE_MARK.
Proof. rewrite journal_segment_eq. unfold segment_name, JOURNAL_DIR. by rewrite !append_cons. Qed.

Lemma segment_not_proof i : ¬ is_side proof_store (journal_segment i).
Proof.
  rewrite journal_segment_eq. unfold segment_name, JOURNAL_DIR. rewrite !append_cons. by intros [?|?].
Qed.

Lemma mark_not_proof : ¬ is_side proof_store JOURNAL_DURABLE_MARK.
Proof. by intros [?|?]. Qed.

(** ** Effects *)

Section Proofs.
Context `{Crc32} `{BackingLaws W F} `{HasherLaws HT}.
Import Journal.
Abbreviation JournalWriter := (JournalWriter (F := F) (HT := HT)).
Abbreviation ActiveSegment := (ActiveSegment (F := F) (HT := HT)).
Implicit Types (j : JournalWriter) (a : ActiveSegment) (s : SegmentInfo) (L : Z → list JournalRecord).

Lemma world_inv {Er A} (m : M W Er A) j w r j' w' :
  world m (j, w) = (r, (j', w')) → j' = j ∧ m w = (r, w').
Proof. unfold world. simpl. destruct (m w). by intros [= -> -> ->]. Qed.

Lemma io_inv {A} (m : M W ErrorKind A) j w r j' w' :
  io m (j, w) = (r, (j', w')) → j' = j ∧ ∃ r0, m w = (r0, w') ∧ r = map_err CoreIo r0.
Proof. intros [-> Hm]%world_inv. split; [done|]. by apply m_map_err_inv. Qed.

Lemma io_try_inv {A} (m : M W ErrorKind A) j w r j' w' :
  io_try m (j, w) = (r, (j', w')) → j' = j ∧ ∃ r0, m w = (r0, w') ∧ r = Ok r0.
Proof. intros [-> Hm]%world_inv. split; [done|]. by apply m_try_inv in Hm. Qed.

(** ** The invariant *)

Definition seg_content (volume_uuid : bytes) (i base : Z) (rs : list JournalRecord) : bytes :=
  SegmentHeader_encode (mkSegmentHeader i volume_uuid base) ++ encode_records rs.

Definition s_end s : Z := s_base_sequence s + s_record_count s.

(** The accepted records of each segment, by index, as a ghost [L]. *)
Record info_ok L j s : Prop := {
  in_index : 0 ≤ s_index s < j_next_segment_index j;
  in_base : 0 ≤ s_base_sequence s;
  in_records : consecutive (s_base_sequence s) (L (s_index s));
  in_count : s_record_count s = blen (L (s_index s));
  in_size : s_size s = SEGMENT_HEADER_SIZE + blen (encode_records (L (s_index s)));
  in_end : s_end s ≤ j_next_sequence j
}.

(** A segment starts where the one before it ends; what the checkpoint covers
    need not be contiguous. *)
Definition linked (holes e b : Z) : Prop := e = b ∨ (e ≤ holes + 1 ∧ b ≤ holes + 1).

Fixpoint chained (holes fin : Z) (segs : list SegmentInfo) : Prop :=
  match segs with
  | [] => True
  | s :: rest =>
      match rest with
      | [] => linked holes (s_end s) fin
      | t :: _ => s_index s < s_index t ∧ linked holes (s_end s) (s_base_sequence t)
      end ∧ chained holes fin rest
  end.

(** How many records of the active segment are durable. *)
Definition durable_count j a : nat := Z.to_nat (j_durable_sequence j + 1 - s_base_sequence (a_info a)).

Definition active_records L a : list JournalRecord := L (s_index (a_info a)).
Definition active_path a : string := journal_segment (s_index (a_info a)).
Definition active_content j a (rs : list JournalRecord) : bytes :=
  seg_content (j_volume_uuid j) (s_index (a_info a)) (s_base_sequence (a_info a)) rs.

Definition segment_bound (segment_size : Z) : Z :=
  Z.max segment_size (SEGMENT_HEADER_SIZE + RECORD_HEADER_SIZE + MAX_PAYLOAD).

Record active_shape L j a : Prop := {
  as_first : 1 ≤ s_base_sequence (a_info a);
  as_end : s_end (a_info a) = j_next_sequence j;
  as_base : s_base_sequence (a_info a) ≤ j_durable_sequence j + 1;
  as_offset : a_write_offset a = s_size (a_info a);
  as_synced : a_synced_offset a =
    SEGMENT_HEADER_SIZE + blen (encode_records (take (durable_count j a) (active_records L a)));
  as_unsynced : a_unsynced a = (j_durable_sequence j <? j_appended_sequence j);
  as_bound : a_write_offset a ≤ segment_bound (j_segment_size j);
  as_fingerprint : a_pending_fingerprint a =
    hasher_write hasher_new (encode_records (drop (durable_count j a) (active_records L a)));
  as_idle : a_unsynced a = false → a_needs_tail_cleanup a = false → a_needs_redirty a = false
}.

Record shape L j : Prop := {
  sh_uuid : length (j_volume_uuid j) = 16%nat;
  sh_segment_size : SEGMENT_HEADER_SIZE + 64 ≤ j_segment_size j ≤ MAX_JOURNAL_SEGMENT_SIZE;
  sh_durable : 0 ≤ j_durable_sequence j ≤ j_appended_sequence j;
  sh_next : j_next_sequence j = j_appended_sequence j + 1 ∧ j_next_sequence j ≤ U64_MAX;
  sh_index : 0 ≤ j_next_segment_index j ≤ U64_MAX;
  sh_holes : 0 ≤ j_holes_allowed_below j < U64_MAX;
  sh_infos : Forall (info_ok L j) (segments j);
  sh_chain : chained (j_holes_allowed_below j) (j_next_sequence j) (segments j);
  sh_sealed : Forall (λ s, s_end s ≤ j_durable_sequence j + 1) (j_sealed j);
  sh_cleanup i : j_creation_cleanup j = Some i → j_active j = None ∧ i = j_next_segment_index j;
  sh_none : j_active j = None → j_durable_sequence j = j_appended_sequence j;
  sh_active a : j_active j = Some a → active_shape L j a;
  sh_proof : proof_ok (j_proof j) ∧ dp_volume_uuid (j_proof j) = j_volume_uuid j
}.

(** What the file of the active segment holds: the durable records survive
    any crash; every accepted record is visible, and the next sync will
    persist it unless a sync has failed; nothing lies behind the accepted
    records unless a write has failed. *)
Record active_disk L j (w : W) a : Prop := {
  ad_handle : handle w (a_file a) (active_path a);
  ad_solid : solid w (active_path a)
    (active_content j a (take (durable_count j a) (active_records L a)));
  ad_bytes : ∃ c d, vis w (active_path a) = Some c ∧ dirty w (active_path a) = Some d ∧
    active_content j a (active_records L a) `prefix_of` c ∧
    (a_needs_tail_cleanup a = false → c = active_content j a (active_records L a)) ∧
    (a_needs_redirty a = false → active_content j a (active_records L a) `prefix_of` d ∧
      (a_needs_tail_cleanup a = false → d = active_content j a (active_records L a)));
  ad_idle : a_unsynced a = false → a_needs_tail_cleanup a = false →
    stable w (active_path a) (active_content j a (active_records L a))
}.

Record disk L j (w : W) : Prop := {
  d_inv : inv w;
  d_sealed : Forall (λ s, stable w (journal_segment (s_index s))
    (seg_content (j_volume_uuid j) (s_index s) (s_base_sequence s) (L (s_index s)))) (j_sealed j);
  d_active a : j_active j = Some a → active_disk L j w a;
  d_mark f : j_mark j = Some f → handle w f JOURNAL_DURABLE_MARK;
  d_proof : attested w (j_proof j)
}.

Definition writer_ok L j (w : W) : Prop := shape L j ∧ disk L j w.

(** The records of a segment that have been made durable. *)
Definition acked L j (i base : Z) (rs : list JournalRecord) : Prop :=
  (∃ s, s ∈ j_sealed j ∧ s_index s = i ∧ s_base_sequence s = base ∧ rs = L i) ∨
  (∃ a, j_active j = Some a ∧ s_index (a_info a) = i ∧ s_base_sequence (a_info a) = base ∧
        rs = take (durable_count j a) (L i)).

(** Durable records stay durable. *)
Definition advances L j L' j' : Prop :=
  j_volume_uuid j' = j_volume_uuid j ∧
  ∀ i base rs, acked L j i base rs → ∃ rs', rs `prefix_of` rs' ∧ acked L' j' i base rs'.

Lemma advances_refl L j : advances L j L j.
Proof. split; [done|]. intros i base rs Ha. by exists rs. Qed.

Lemma advances_trans L j L1 j1 L2 j2 : advances L j L1 j1 → advances L1 j1 L2 j2 → advances L j L2 j2.
Proof.
  intros [Hu1 Hf1] [Hu2 Hf2]. split; [congruence|]. intros i base rs Ha.
  destruct (Hf1 _ _ _ Ha) as (rs1 & Hp1 & Ha1). destruct (Hf2 _ _ _ Ha1) as (rs2 & Hp2 & Ha2).
  exists rs2. split; [by etransitivity|done].
Qed.

Lemma acked_solid L j w i base rs :
  writer_ok L j w → acked L j i base rs →
  solid w (journal_segment i) (seg_content (j_volume_uuid j) i base rs).
Proof.
  intros [_ Hd] [(s & Hs & <- & <- & ->)|(a & Ha & <- & <- & ->)].
  - apply law_stable_solid. by apply (proj1 (list.Forall_forall _ _) (d_sealed _ _ _ Hd)).
  - apply (ad_solid _ _ _ _ (d_active _ _ _ Hd a Ha)).
Qed.
(** ** Contents *)

Lemma header_length i volume_uuid base :
  length volume_uuid = 16%nat → blen (SegmentHeader_encode (mkSegmentHeader i volume_uuid base)) = SEGMENT_HEADER_SIZE.
Proof.
  intros Hu. unfold SegmentHeader_encode. writer_norm. unfold blen. rewrite length_finish_with_crc. len_tac.
  simpl. change (length SEGMENT_MAGIC) with 8%nat. unfold SEGMENT_HEADER_SIZE. lia.
Qed.

Lemma content_length volume_uuid i base rs :
  length volume_uuid = 16%nat →
  blen (seg_content volume_uuid i base rs) = SEGMENT_HEADER_SIZE + blen (encode_records rs).
Proof. intros Hu. unfold seg_content. by rewrite blen_app, header_length. Qed.

Lemma content_app volume_uuid i base rs rs' :
  seg_content volume_uuid i base (rs ++ rs') = seg_content volume_uuid i base rs ++ encode_records rs'.
Proof. unfold seg_content. by rewrite encode_records_app, (assoc_L (++)). Qed.

Lemma content_prefix volume_uuid i base rs rs' :
  rs `prefix_of` rs' → seg_content volume_uuid i base rs `prefix_of` seg_content volume_uuid i base rs'.
Proof. intros [k ->]. rewrite content_app. by apply prefix_app_r. Qed.

Lemma content_split volume_uuid i base rs k :
  seg_content volume_uuid i base rs = seg_content volume_uuid i base (take k rs) ++ encode_records (drop k rs).
Proof. by rewrite <- content_app, take_drop. Qed.

(** Cutting a file back to a prefix of it leaves the prefix. *)
Lemma resize_prefix (pre c : bytes) : pre `prefix_of` c → resize (Z.to_nat (blen pre)) c = pre.
Proof.
  intros [k ->]. unfold blen, resize. rewrite Nat2Z.id, take_app_length.
  rewrite length_app. replace (length pre - _)%nat with 0%nat by lia. apply app_nil_r.
Qed.

(** Appending at the end of a file. *)
Lemma write_range_end (c data : bytes) : write_range c (length c) data = c ++ data.
Proof.
  unfold write_range. destruct (Nat.ltb_spec (length c) (length c + length data)).
  - unfold resize. rewrite (take_ge c) by lia.
    rewrite take_app_length. rewrite (drop_ge (c ++ _)); [by rewrite app_nil_r|].
    rewrite length_app, length_zeros. lia.
  - rewrite firstn_all, drop_ge by lia. by rewrite app_nil_r.
Qed.

(** Writing inside a file. *)
Lemma write_range_inside (d data : bytes) o :
  (o + length data ≤ length d)%nat →
  write_range d o data = take o d ++ data ++ drop (o + length data) d.
Proof. intros Ho. unfold write_range. by rewrite (proj2 (Nat.ltb_ge _ _)). Qed.

(** ** Rewriting an accepted range *)

Definition same_upto (o : Z) (d v : bytes) : Prop :=
  length d = length v ∧ take (Z.to_nat o) d = take (Z.to_nat o) v.

Lemma same_upto_write d v o n :
  same_upto o d v → 0 ≤ o → 0 ≤ n → o + n ≤ blen v →
  same_upto (o + n) (write_range d (Z.to_nat o) (take (Z.to_nat n) (drop (Z.to_nat o) v))) v.
Proof.
  intros [Hl Ht] Ho Hn Hle. unfold blen in Hle.
  assert (length (take (Z.to_nat n) (drop (Z.to_nat o) v)) = Z.to_nat n) as Hlc.
  { rewrite length_take, length_drop. lia. }
  rewrite write_range_inside by lia. split.
  - rewrite !length_app, Hlc, length_take, length_drop. lia.
  - rewrite Ht, (assoc_L (++)). rewrite Hlc.
    assert (take (Z.to_nat o) v ++ take (Z.to_nat n) (drop (Z.to_nat o) v) = take (Z.to_nat (o + n)) v) as ->.
    { rewrite take_take_drop. f_equal. lia. }
    rewrite take_app_le by (rewrite length_take; lia). rewrite take_take. f_equal. lia.
Qed.

Lemma rewrite_go_spec f p v : ∀ fuel o h w r w',
  inv w → handle w f p → vis w p = Some v → blen v ≤ U64_MAX →
  (∃ d, dirty w p = Some d ∧ same_upto o d v) → 0 ≤ o ≤ blen v →
  blen v - o ≤ Z.of_nat fuel →
  rewrite_go fuel f o (blen v) h w = (r, w') →
  keeps (λ q, q ≠ p) w w' ∧ handle w' f p ∧ vis w' p = Some v ∧
  (∀ pre, blen pre ≤ o → solid w p pre → solid w' p pre) ∧
  (∀ h', r = Ok h' → dirty w' p = Some v ∧ h' = hasher_write h (drop (Z.to_nat o) v)) ∧
  (quiet w → is_ok r = true).
Proof.
  induction fuel as [|fuel IH]; intros o h w r w' Hi Hh Hv Hmax (d & Hd & Hsame) Ho Hf; cbn [rewrite_go].
  all: assert (o = blen v → dirty w p = Some v ∧ h = hasher_write h (drop (Z.to_nat o) v)) as Hend.
  1, 3: intros Ho'; destruct Hsame as [Hl Ht]; unfold blen in Ho'; rewrite Ho', Nat2Z.id in *;
    rewrite firstn_all in Ht; rewrite <- Hl in Ht at 1; rewrite firstn_all in Ht;
    rewrite Hd, Ht, drop_ge, hasher_write_nil by lia; done.
  { intros [= <- <-]. split; [by apply keeps_refl|]. do 3 (split; [done|]). split; [|done].
    intros h' [= <-]. apply Hend. lia. }
  destruct (Z.ltb_spec o (blen v)) as [Hlt|Hge]; cycle 1.
  { intros [= <- <-]. split; [by apply keeps_refl|]. do 3 (split; [done|]). split; [|done].
    intros h' [= <-]. apply Hend. lia. }
  set (n := Z.min (blen v - o) REWRITE_CHUNK). assert (0 < n ≤ blen v - o) as Hn by (unfold n, REWRITE_CHUNK; lia).
  set (chunk := take (Z.to_nat n) (drop (Z.to_nat o) v)).
  assert (read_range v o n = Some chunk) as Hrr
    by (unfold read_range; by rewrite (proj2 (Z.leb_le _ _)) by lia).
  assert (blen chunk = n) as Hlc.
  { unfold chunk, blen in *. rewrite length_take, length_drop. lia. }
  intros [(b & w1 & (r1 & Hr1 & Hb)%m_map_err_inv & Hk)|(e & (r1 & Hr1 & He)%m_map_err_inv & ->)]%m_bind_inv;
    (destruct (law_read w f p v o n r1 _ Hi Hh Hv ltac:(lia) ltac:(lia) ltac:(lia) Hr1) as (Hk1 & Hok & _ & Hq1));
    pose proof (keeps_vis _ _ _ p Hk1 I) as Hv1; pose proof (keeps_dirty _ _ _ p Hk1 I) as Hd1.
  2: { split; [by eapply keeps_weaken; [|exact Hk1]|]. split; [by eapply keeps_handle|].
       split; [congruence|]. split; [intros pre _; by apply (keeps_solid _ _ _ _ _ Hk1)|]. split; [done|].
       intros Hq. by rewrite (Hq1 Hq _ Hrr) in He. }
  destruct r1 as [b'|e]; [|done]. injection Hb as ->. specialize (Hok _ eq_refl).
  rewrite Hrr in Hok. injection Hok as <-. pose proof (keeps_handle _ _ _ _ _ Hk1 I Hh) as Hh1.
  pose proof (keeps_inv _ _ _ Hk1) as Hi1. rewrite Hv in Hv1. rewrite Hd in Hd1.
  pose proof (λ pre (Hs : solid w p pre), keeps_solid _ _ _ _ pre Hk1 I Hs) as Hso1.
  assert (chunk ≠ []) as Hne by (intros He; rewrite He in Hlc; unfold blen in Hlc; simpl in Hlc; lia).
  apply m_bind_inv in Hk as [([] & w2 & (r2 & Hr2 & Hb)%m_map_err_inv & Hk)|(e & (r2 & Hr2 & He)%m_map_err_inv & ->)];
    destruct (law_write w1 f p v d o chunk r2 _ Hi1 Hh1 Hv1 Hd1 ltac:(lia) ltac:(lia) Hne Hr2) as (Hk2 & Hh2 & Hw2 & Hq2);
    destruct (law_torn_write w1 f p v d o chunk r2 _ Hi1 Hh1 Hv1 Hd1 ltac:(lia) Hr2) as (c' & d' & Hc' & _ & Hsv & _);
    rewrite Hlc in Hsv; rewrite (Hsv Hrr) in Hc'; clear c' Hsv;
    pose proof (λ pre Hs Hpre, law_solid_write _ _ _ pre _ _ _ _ Hi1 Hh1 (Hso1 pre Hs) Hpre Hr2) as Hso2.
  2: { split; [eapply keeps_trans; [by eapply keeps_weaken; [|exact Hk1]|done]|]. split; [done|]. split; [done|].
       split; [auto|]. split; [done|]. intros Hq. rewrite (Hq2 (keeps_quiet _ _ _ Hk1 Hq)) in He. done. }
  destruct r2 as [[]|e]; [|done]. destruct (Hw2 eq_refl) as [_ Hd2].
  apply IH in Hk as (Hk3 & Hh3 & Hv3 & Hso3 & Hok3 & Hq3); [|by eapply keeps_inv|done|done|done| |lia|lia].
  - split; [eapply keeps_trans; [by eapply keeps_weaken; [|exact Hk1]|]; by eapply keeps_trans|].
    split; [done|]. split; [done|]. split; [intros pre Hpre Hso; apply Hso3; [lia|auto]|]. split.
    + intros h' Hr. destruct (Hok3 h' Hr) as [? ->]. split; [done|]. rewrite <- hasher_write_app. f_equal.
      unfold chunk. rewrite <- (take_drop (Z.to_nat n) (drop (Z.to_nat o) v)) at 2. f_equal.
      rewrite drop_drop. f_equal. lia.
    + intros Hq. apply Hq3. by eapply keeps_quiet, keeps_quiet.
  - eexists. split; [done|]. apply same_upto_write; [done|lia..].
Qed.

(** ** The active segment under file operations *)

Section Active.
Context L j a (Hsh : shape L j) (Ha : j_active j = Some a).
Local Abbreviation path := (active_path a).
Local Abbreviation content := (active_content j a (active_records L a)).
Local Abbreviation synced_content :=
  (active_content j a (take (durable_count j a) (active_records L a))).

Lemma active_info : info_ok L j (a_info a).
Proof.
  pose proof (sh_infos _ _ Hsh) as Hin. rewrite list.Forall_forall in Hin. apply Hin.
  unfold segments. rewrite Ha. apply elem_of_app. right. by apply list_elem_of_singleton.
Qed.

Lemma active_offset : a_write_offset a = blen content.
Proof.
  rewrite (as_offset _ _ _ (sh_active _ _ Hsh a Ha)), (in_size _ _ _ active_info).
  unfold active_content. by rewrite content_length by apply (sh_uuid _ _ Hsh).
Qed.

Lemma active_synced_offset : a_synced_offset a = blen synced_content.
Proof.
  rewrite (as_synced _ _ _ (sh_active _ _ Hsh a Ha)).
  unfold active_content. by rewrite content_length by apply (sh_uuid _ _ Hsh).
Qed.

Lemma segment_bound_u64 n : n ≤ MAX_JOURNAL_SEGMENT_SIZE → segment_bound n ≤ 2 ^ 31.
Proof.
  unfold segment_bound, MAX_JOURNAL_SEGMENT_SIZE, SEGMENT_HEADER_SIZE, RECORD_HEADER_SIZE, MAX_PAYLOAD.
  change (Z.shiftl 16 20) with (2 ^ 24). change (Z.shiftl 1 30) with (2 ^ 30). lia.
Qed.

Lemma active_bound : 0 ≤ a_write_offset a ≤ 2 ^ 31.
Proof.
  pose proof (as_bound _ _ _ (sh_active _ _ Hsh a Ha)).
  pose proof (segment_bound_u64 _ (proj2 (sh_segment_size _ _ Hsh))).
  pose proof active_offset. pose proof (blen_nonneg content). lia.
Qed.

Lemma synced_prefix : synced_content `prefix_of` content.
Proof.
  unfold active_content. apply content_prefix. exists (drop (durable_count j a) (active_records L a)).
  by rewrite take_drop.
Qed.

Lemma synced_split : content = synced_content ++ encode_records (drop (durable_count j a) (active_records L a)).
Proof. unfold active_content. apply content_split. Qed.

Lemma synced_le : 0 ≤ a_synced_offset a ≤ a_write_offset a.
Proof.
  rewrite active_offset, active_synced_offset. pose proof (prefix_length _ _ synced_prefix).
  unfold blen. lia.
Qed.

Lemma active_disk_keeps (P : string → Prop) w w' :
  keeps P w w' → P path → active_disk L j w a → active_disk L j w' a.
Proof.
  intros Hk HP [Hh Hso (c & d & Hc & Hd & Hb) Hid]. split.
  - by eapply keeps_handle.
  - by eapply keeps_solid.
  - exists c, d. by rewrite (keeps_vis _ _ _ _ Hk HP), (keeps_dirty _ _ _ _ Hk HP).
  - intros. eapply keeps_stable; [done|done|auto].
Qed.

Definition busy : Prop := a_unsynced a = true ∨ a_needs_tail_cleanup a = true.

Lemma busy_not_idle (Q : Prop) :
  busy → a_unsynced a = false → a_needs_tail_cleanup a = false → Q.
Proof. intros [Hb|Hb]; congruence. Qed.

(** The file is exactly the accepted records, and the next sync persists them. *)
Record ready (w : W) : Prop := {
  rd_inv : inv w;
  rd_handle : handle w (a_file a) path;
  rd_solid : solid w path synced_content;
  rd_vis : vis w path = Some content;
  rd_dirty : dirty w path = Some content
}.

(** Reasserting the accepted length. *)
Lemma set_len_active w r w' :
  inv w → active_disk L j w a → busy → a_needs_tail_cleanup a = true ∨ a_needs_redirty a = true →
  f_set_len (a_file a) (a_write_offset a) w = (r, w') →
  keeps (λ q, q ≠ path) w w' ∧ active_disk L j w' a ∧
  (r = Ok tt → vis w' path = Some content ∧ ∃ d, dirty w' path = Some d ∧
    length d = length content ∧ (a_needs_redirty a = false → d = content)) ∧
  (quiet w → r = Ok tt).
Proof.
  intros Hi [Hh Hso (c & d & Hc & Hd & Hpc & Hcc & Hdd) _] Hb Hfl Hr. pose proof active_bound as Hbd.
  destruct (law_set_len w _ path c d (a_write_offset a) r w' Hi Hh Hc Hd ltac:(unfold U64_MAX; lia) Hr) as (Hk & Hh' & Hok & Hq).
  destruct (law_torn_set_len w _ _ _ _ _ _ _ Hi Hh Hc Hd Hr) as (c' & d' & Hc' & Hd' & Hsame & Htorn).
  rewrite active_offset in *. pose proof (Htorn content ltac:(lia)) as [Htc Htd].
  pose proof (prefix_length _ _ synced_prefix) as Hsl.
  split; [done|]. split; [|split; [|done]].
  - split; [done| | |by apply busy_not_idle].
    + eapply law_solid_set_len; [done|done|done| |done]. unfold blen. lia.
    + exists c', d'. split; [done|]. split; [done|]. split; [auto|]. split.
      * intros Hn. pose proof (Hcc Hn). subst c. auto.
      * intros Hn. destruct (Hdd Hn) as [Hpd Hde]. split; [auto|]. intros Hn'.
        destruct Hfl; congruence.
  - intros ->. destruct (Hok eq_refl) as [Hv2 Hd2]. rewrite resize_prefix in Hv2 by done. split; [done|].
    eexists. split; [done|]. split; [rewrite length_resize; unfold blen; lia|].
    intros Hn. destruct (Hdd Hn) as [Hpd _]. by rewrite resize_prefix.
Qed.
(** Rewriting and verifying the accepted range. *)
Lemma rewrite_active w d r w' :
  inv w → active_disk L j w a → busy → a_needs_redirty a = true →
  vis w path = Some content → dirty w path = Some d → length d = length content →
  rewrite_verified_range (a_file a) (a_synced_offset a) (a_write_offset a)
    (hasher_finish (a_pending_fingerprint a)) w = (r, w') →
  keeps (λ q, q ≠ path) w w' ∧ active_disk L j w' a ∧ (r = Ok tt → ready w') ∧ (quiet w → r = Ok tt).
Proof.
  intros Hi [Hh Hso _ _] Hb Hre Hv Hd Hl Hr. pose proof active_bound as Hbd. pose proof synced_le as Hle.
  destruct (law_solid _ _ _ Hso) as (c & d0 & Hc & Hd0 & _ & Hpd). rewrite Hd in Hd0. injection Hd0 as <-.
  pose proof active_offset as Hwo. pose proof active_synced_offset as Hse.
  assert (same_upto (a_synced_offset a) d content) as Hsame.
  { split; [done|]. rewrite Hse. unfold blen. rewrite Nat2Z.id, synced_split, take_app_length.
    destruct Hpd as [k ->]. by rewrite take_app_length. }
  assert (∀ rg w1, rewrite_go (Z.to_nat (a_write_offset a - a_synced_offset a)) (a_file a) (a_synced_offset a)
    (a_write_offset a) hasher_new w = (rg, w1) → keeps (λ q, q ≠ path) w w1 ∧ handle w1 (a_file a) path ∧
    vis w1 path = Some content ∧ solid w1 path synced_content ∧
    (∀ h', rg = Ok h' → dirty w1 path = Some content ∧
      h' = hasher_write hasher_new (drop (Z.to_nat (a_synced_offset a)) content)) ∧
    (quiet w → is_ok rg = true)) as Hgo.
  { intros rg w1. rewrite Hwo. intros Hg. eapply rewrite_go_spec in Hg as (? & ? & ? & Hs & ?); [|done..| | | |];
      [|unfold U64_MAX; lia|by exists d|lia|lia]. do 3 (split; [done|]). split; [|done]. apply Hs; [by rewrite Hse|done]. }
  assert (∀ w1 d1, handle w1 (a_file a) path → vis w1 path = Some content → solid w1 path synced_content →
    dirty w1 path = Some d1 → active_disk L j w1 a) as Had.
  { intros w1 d1 Hh1 Hv1 Hs1 Hd1. split; [done|done| |by apply busy_not_idle].
    exists content, d1. split; [done|]. split; [done|]. split; [done|]. split; [done|]. congruence. }
  assert (hasher_write hasher_new (drop (Z.to_nat (a_synced_offset a)) content) = a_pending_fingerprint a) as Hfp.
  { rewrite (as_fingerprint _ _ _ (sh_active _ _ Hsh a Ha)). f_equal. rewrite Hse, synced_split.
    unfold blen. by rewrite Nat2Z.id, drop_app_length. }
  unfold rewrite_verified_range in Hr.
  apply m_bind_inv in Hr as [(h & w1 & Hg & Hr)|(e & Hg & ->)].
  - apply Hgo in Hg as (Hk & Hh1 & Hv1 & Hs1 & Hok & Hq). destruct (Hok h eq_refl) as [Hd1 ->].
    rewrite Hfp, Z.eqb_refl in Hr. injection Hr as <- <-. split; [done|]. split; [by eapply Had|].
    split; [|done]. intros _. split; [by eapply keeps_inv|done..].
  - apply Hgo in Hg as (Hk & Hh1 & Hv1 & Hs1 & _ & Hq). split; [done|].
    destruct (proj1 (law_dirty_vis w' path)) as [d1 Hd1]; [by rewrite Hv1|]. split; [by eapply Had|].
    split; [done|]. intros Hqw. by apply Hq in Hqw.
Qed.

(** The data sync of a ready file. *)
Lemma sync_ready w r w' :
  ready w → f_sync_data (a_file a) w = (r, w') →
  keeps (λ q, q ≠ path) w w' ∧ handle w' (a_file a) path ∧
  (r = Ok tt → stable w' path content) ∧
  (r ≠ Ok tt → solid w' path synced_content ∧ vis w' path = Some content) ∧
  (quiet w → r = Ok tt).
Proof.
  intros [Hi Hh Hso Hv Hd] Hr.
  destruct (law_sync_data w _ path content r w' Hi Hh Hv Hr) as (Hk & Hh' & Hv' & Hsy & Hq).
  pose proof (law_solid_sync _ _ _ _ _ _ Hi Hh Hso Hr) as Hso'.
  split; [done|]. split; [done|]. split; [|done]. intros ->. by eapply law_synced_solid; [apply Hsy|].
Qed.

(** The part of a barrier before the data sync. *)
Lemma prepare_active {A} (k : M (JournalWriter * W) CoreError A) w r j' w' :
  inv w → active_disk L j w a → busy →
  (let* _ := when (a_needs_tail_cleanup a || a_needs_redirty a) (io (f_set_len (a_file a) (a_write_offset a))) in
   let* _ := when (a_needs_redirty a)
               (world (rewrite_verified_range (a_file a) (a_synced_offset a)
                  (a_write_offset a) (hasher_finish (a_pending_fingerprint a)))) in k) (j, w) = (r, (j', w')) →
  (∃ w1, keeps (λ q, q ≠ path) w w1 ∧ ready w1 ∧ k (j, w1) = (r, (j', w'))) ∨
  (∃ e, r = Err e ∧ j' = j ∧ keeps (λ q, q ≠ path) w w' ∧ active_disk L j w' a ∧ ¬ quiet w).
Proof.
  intros Hi Had Hb Hr. pose proof (keeps_refl (λ q, q ≠ path) w Hi) as Hrefl.
  destruct (a_needs_tail_cleanup a || a_needs_redirty a) eqn:Hfl; cycle 1.
  { apply orb_false_iff in Hfl as [Hn1 Hn2]. rewrite Hn2 in Hr. left. exists w. split; [done|]. split; [|done].
    destruct Had as [Hh Hso (c & d & Hc & Hd & _ & Hcc & Hdd) _]. destruct (Hdd Hn2) as [_ Hde].
    split; [done..|by rewrite Hc, (Hcc Hn1)|by rewrite Hd, (Hde Hn1)]. }
  pose proof (proj1 (orb_true_iff _ _) Hfl) as Hor.
  apply m_bind_inv in Hr as [([] & [j1 w1] & (-> & r0 & Hs & Hr0)%io_inv & Hr)|(e & (-> & r0 & Hs & Hr0)%io_inv & ->)];
    destruct (set_len_active w r0 _ Hi Had Hb Hor Hs) as (Hk & Had1 & Hok & Hq).
  2: { right. exists e. split; [done|]. split; [done|]. split; [done|]. split; [done|].
       intros Hqw. by rewrite (Hq Hqw) in Hr0. }
  destruct r0 as [[]|]; [|done]. destruct (Hok eq_refl) as (Hv & d & Hd & Hl & Hde).
  pose proof (keeps_inv _ _ _ Hk) as Hi1.
  destruct (a_needs_redirty a) eqn:Hre; cycle 1.
  { left. exists w1. split; [done|]. split; [|done]. rewrite (Hde eq_refl) in Hd. destruct Had1. by split. }
  apply m_bind_inv in Hr as [([] & [j2 w2] & [-> Hs2]%world_inv & Hr)|(e & [-> Hs2]%world_inv & ->)];
    destruct (rewrite_active _ _ _ _ Hi1 Had1 Hb Hre Hv Hd Hl Hs2) as (Hk2 & Had2 & Hok2 & Hq2);
    pose proof (keeps_trans _ _ _ _ Hk Hk2) as Hk3.
  - left. exists w2. auto.
  - right. exists e. split; [done|]. split; [done|]. split; [done|]. split; [done|]. intros Hqw.
    by specialize (Hq2 (keeps_quiet _ _ _ Hk Hqw)).
Qed.

End Active.

(** ** The writer's bookkeeping *)

Definition core j :=
  (j_volume_uuid j, j_segment_size j, j_next_sequence j, j_appended_sequence j, j_sealed j,
   j_next_segment_index j, j_creation_cleanup j, j_holes_allowed_below j).

Lemma chained_before holes fin l t k s :
  chained holes fin (l ++ t :: k) → s ∈ l → s_index s < s_index t.
Proof.
  revert s. induction l as [|u l IH]; intros s [Hh Hc] Hs; [by apply not_elem_of_nil in Hs|].
  specialize (λ s, IH s Hc). apply elem_of_cons in Hs as [->|Hs]; [|auto].
  destruct l as [|v l]; [apply Hh|]. etransitivity; [apply Hh|]. apply IH. by left.
Qed.

Lemma chained_lt holes fin l k s t :
  chained holes fin (l ++ k) → s ∈ l → t ∈ k → s_index s < s_index t.
Proof.
  intros Hc Hs (k1 & k2 & ->)%list_elem_of_split. rewrite (assoc_L (++)) in Hc.
  eapply chained_before; [exact Hc|]. apply elem_of_app. by left.
Qed.

Lemma chained_index_inj holes fin l s t :
  chained holes fin l → s ∈ l → t ∈ l → s_index s = s_index t → s = t.
Proof.
  intros Hc (l1 & l2 & ->)%list_elem_of_split Ht Hi. apply elem_of_app in Ht as [Ht|[->|Ht]%elem_of_cons]; [|done|].
  - pose proof (chained_before _ _ _ _ _ _ Hc Ht). lia.
  - rewrite cons_middle, (assoc_L (++)) in Hc.
    assert (s_index s < s_index t); [|lia]. eapply chained_lt; [exact Hc| |exact Ht]. apply elem_of_app. right.
    by apply list_elem_of_singleton.
Qed.

Lemma core_eq j j' :
  core j' = core j →
  j_volume_uuid j' = j_volume_uuid j ∧ j_segment_size j' = j_segment_size j ∧
  j_next_sequence j' = j_next_sequence j ∧ j_appended_sequence j' = j_appended_sequence j ∧
  j_sealed j' = j_sealed j ∧ j_next_segment_index j' = j_next_segment_index j ∧
  j_creation_cleanup j' = j_creation_cleanup j ∧ j_holes_allowed_below j' = j_holes_allowed_below j.
Proof. unfold core. intros [=]. done. Qed.

Lemma info_ok_next L j j' s :
  j_next_segment_index j ≤ j_next_segment_index j' → j_next_sequence j ≤ j_next_sequence j' →
  info_ok L j s → info_ok L j' s.
Proof. intros Hi Hn [? ? ? ? ? ?]. split; [lia|done..|lia]. Qed.

Lemma infos_next L j j' segs :
  j_next_segment_index j ≤ j_next_segment_index j' → j_next_sequence j ≤ j_next_sequence j' →
  Forall (info_ok L j) segs → Forall (info_ok L j') segs.
Proof. intros Hi Hn Hf. eapply list.Forall_impl; [exact Hf|]. intros s. by apply info_ok_next. Qed.

(** The same segments with more of them durable. *)
Lemma shape_core L j j' :
  shape L j → core j' = core j → a_info <$> j_active j' = a_info <$> j_active j →
  j_durable_sequence j ≤ j_durable_sequence j' ≤ j_appended_sequence j →
  (∀ a', j_active j' = Some a' → active_shape L j' a') →
  proof_ok (j_proof j') ∧ dp_volume_uuid (j_proof j') = j_volume_uuid j →
  shape L j'.
Proof.
  intros Hsh Hcore Hact Hdur Has Hpr. apply core_eq in Hcore as (Hu & Hss & Hn & Hap & Hse & Hni & Hcl & Hho).
  assert (segments j' = segments j) as Hseg.
  { unfold segments. rewrite Hse. f_equal.
    destruct (j_active j'), (j_active j); try done. by injection Hact as ->. }
  destruct Hsh as [? ? ? ? ? ? Hin Hch Hsl Hcu Hno ? ?].
  split; rewrite ?Hu, ?Hss, ?Hn, ?Hap, ?Hse, ?Hni, ?Hho, ?Hseg; try done; try lia.
  - by eapply infos_next; [..|exact Hin]; lia.
  - eapply list.Forall_impl; [exact Hsl|]. simpl. lia.
  - intros i Hi. rewrite Hcl in Hi. destruct (Hcu i Hi) as [Hna ->]. rewrite Hna in Hact. by destruct (j_active j').
  - intros Hna. rewrite Hna in Hact. assert (j_active j = None) as Hna' by (by destruct (j_active j)).
    specialize (Hno Hna'). lia.
Qed.

Lemma advances_core L j j' :
  core j' = core j → a_info <$> j_active j' = a_info <$> j_active j →
  j_durable_sequence j ≤ j_durable_sequence j' → advances L j L j'.
Proof.
  intros Hcore Hact Hdur. apply core_eq in Hcore as (Hu & _ & _ & _ & Hse & _). split; [done|].
  intros i base rs [(s & Hs & Hi & Hb & ->)|(a & Ha & Hi & Hb & ->)].
  - exists (L i). split; [done|]. left. exists s. by rewrite Hse.
  - rewrite Ha in Hact. destruct (j_active j') as [a'|] eqn:Ha'; [|done]. injection Hact as Hinf.
    exists (take (durable_count j' a') (L i)). split; [|right; exists a'; by rewrite Hinf].
    unfold durable_count. rewrite Hinf. set (n := Z.to_nat _). set (n' := Z.to_nat _).
    replace n with (n `min` n')%nat by lia. rewrite <- take_take.
    exists (drop n (take n' (L i))). by rewrite take_drop.
Qed.

Lemma sealed_lt_active L j a s :
  shape L j → j_active j = Some a → s ∈ j_sealed j → s_index s < s_index (a_info a).
Proof.
  intros Hsh Ha Hs. pose proof (sh_chain _ _ Hsh) as Hc. unfold segments in Hc. rewrite Ha in Hc.
  by eapply chained_before.
Qed.

Lemma index_u64 L j s : shape L j → info_ok L j s → u64_ok (s_index s).
Proof. intros Hsh Hin. pose proof (in_index _ _ _ Hin). pose proof (sh_index _ _ Hsh). unfold u64_ok, U64_MAX in *. lia. Qed.

Lemma sealed_info L j s : shape L j → s ∈ j_sealed j → info_ok L j s.
Proof.
  intros Hsh Hs. pose proof (sh_infos _ _ Hsh) as Hin. rewrite list.Forall_forall in Hin.
  apply Hin. unfold segments. apply elem_of_app. by left.
Qed.

Lemma sealed_path_ne L j a s :
  shape L j → j_active j = Some a → s ∈ j_sealed j → journal_segment (s_index s) ≠ active_path a.
Proof.
  intros Hsh Ha Hs Heq. pose proof (sealed_lt_active _ _ _ _ Hsh Ha Hs).
  apply segment_inj in Heq; [lia|by eapply index_u64, sealed_info|].
  eapply index_u64; [done|by apply active_info].
Qed.

Lemma attested_keeps (P : string → Prop) w w' h :
  keeps P w w' → (∀ p, is_side proof_store p → P p) → attested w h → attested w' h.
Proof.
  intros Hk HP (p & rec & Hp & Hd & Hf). exists p, rec. split; [done|]. split; [|done].
  eapply keeps_durable_copy; [exact Hk|by apply HP|done].
Qed.

(** Operations that touch none of the writer's files. *)
Lemma disk_keeps (P : string → Prop) L j w w' :
  disk L j w → keeps P w w' → (∀ s, s ∈ segments j → P (journal_segment (s_index s))) →
  P JOURNAL_DURABLE_MARK → (∀ p, is_side proof_store p → P p) → disk L j w'.
Proof.
  intros [Hi Hse Hac Hma Hpr] Hk Hseg HPm HPp. unfold segments in Hseg. split.
  - by eapply keeps_inv.
  - apply list.Forall_forall. intros s Hs. rewrite list.Forall_forall in Hse.
    eapply keeps_stable; [exact Hk| |by apply Hse]. apply Hseg, elem_of_app. by left.
  - intros a Ha. eapply active_disk_keeps; [exact Hk| |auto]. apply (Hseg (a_info a)).
    rewrite Ha. apply elem_of_app. right. by apply list_elem_of_singleton.
  - intros f Hf. eapply keeps_handle; eauto.
  - by eapply attested_keeps.
Qed.

(** Operations on the active segment's file alone. *)
Lemma disk_active L j w w' a L' j' a' :
  shape L j → disk L j w → j_active j = Some a → keeps (λ q, q ≠ active_path a) w w' →
  j_volume_uuid j' = j_volume_uuid j → j_sealed j' = j_sealed j → j_mark j' = j_mark j →
  j_proof j' = j_proof j → (∀ s, s ∈ j_sealed j → L' (s_index s) = L (s_index s)) →
  j_active j' = Some a' → active_disk L' j' w' a' → disk L' j' w'.
Proof.
  intros Hsh [Hi Hse Hac Hma Hpr] Ha Hk Hu Hsl Hmk Hpf HL Ha' Had. split.
  - by eapply keeps_inv.
  - rewrite Hsl, Hu. apply list.Forall_forall. intros s Hs. rewrite list.Forall_forall in Hse.
    rewrite HL by done. eapply keeps_stable; [exact Hk| |by apply Hse]. by eapply sealed_path_ne.
  - rewrite Ha'. by intros ? [= <-].
  - intros f Hf. rewrite Hmk in Hf. eapply keeps_handle; [exact Hk|apply not_eq_sym, segment_not_mark|auto].
  - rewrite Hpf. eapply attested_keeps; [exact Hk| |done]. intros p Hp ->. by eapply segment_not_proof.
Qed.

(** ** Publishing the durable proof *)

Lemma frames_bind_wf {Er A B} (P : string → Prop) (Q : A → Prop) (m : M W Er A) (k : A → M W Er B) :
  frames P m → (∀ w x w', inv w → m w = (Ok x, w') → Q x) → (∀ x, Q x → frames P (k x)) →
  frames P (m_bind m k).
Proof.
  intros Hm HQ Hk w r w' Hi [(x & w1 & Hx & Hr)|(e & Hx & ->)]%m_bind_inv;
    pose proof (Hm _ _ _ Hi Hx) as Hkp; [|done].
  eapply keeps_trans; [exact Hkp|]. eapply Hk; [by eapply HQ|by eapply keeps_inv|done].
Qed.

Lemma frames_dp_load P uuid : frames P (dp_load (W := W) (F := F) uuid).
Proof. apply frames_all. intros w r w' Hi Hl. by destruct (dp_load_spec w uuid Hi _ _ Hl). Qed.

Lemma frames_dp_advance proof :
  proof_ok proof → frames (λ q, ¬ is_side proof_store q) (dp_advance (W := W) (F := F) proof).
Proof.
  intros Hok. unfold dp_advance, lift_io.
  assert (∀ p : DurableProof, proof_ok p → frames (λ q, ¬ is_side proof_store q) (store_record proof_store p)) as Hst
    by (intros p Hp; by apply frames_store_record; [apply proof_store_ok|]).
  apply frames_bind; [by auto with frames|]. intros _.
  apply frames_bind; [apply frames_dp_load|]. intros cur.
  do 3 (apply frames_bind; [by auto with frames|]; intros _).
  apply (frames_bind_wf _ proof_ok); [by apply Hst| |].
  { intros w p w' Hi Hs%store_record_ok. assert (ab_wf proof) as Hwf by exact Hok.
    by destruct (store_result _ _ _ _ _ Hi proof_store_ok Hwf Hs). }
  intros p Hp. apply frames_bind; [by auto with frames|]. intros _.
  apply frames_bind; [apply frames_dp_load|]. intros _.
  apply frames_bind; [by apply Hst|]. intros p2.
  apply frames_bind; [by auto with frames|]. auto with frames.
Qed.

Lemma mirrored_attested w g g' p :
  mirrored proof_store w (at_generation g p) (at_generation g' p) → proof_ok p → attested w (at_generation g' p).
Proof.
  intros (_ & _ & t & Ht & _ & Hn) _. exists (other proof_store t), (at_generation g' p).
  split; [apply other_side|]. split; [done|apply follows_refl].
Qed.

(** An advance that succeeds attests the new horizon. *)
Lemma advance_attests proof proof' w w' :
  inv w → proof_ok proof → dp_advance proof w = (Ok proof', w') →
  proof_ok proof' ∧ attested w' proof' ∧
  dp_volume_uuid proof' = dp_volume_uuid proof ∧ durable_sequence proof' = durable_sequence proof.
Proof.
  intros Hi Hok Ha. destruct (advance_inv _ _ _ _ Hi Hok Ha)
    as (cur & p1 & w0 & w1 & w1' & w2 & Hc & Hf & Hk0 & Hs1 & Hk1 & Hs2 & Hd).
  rewrite <- (proof_at_keeps _ _ _ Hk0) in Hc.
  destruct (two_stores _ _ _ _ _ _ _ _ (keeps_inv _ _ _ Hk0) Hok (proof_at_storable _ _ _ Hc)
    Hs1 Hk1 Hs2 Hd) as (_ & g1 & g2 & -> & -> & Hm).
  assert (proof_ok (at_generation g2 proof)) as Hok2.
  { destruct Hm as (_ & _ & t & _ & _ & (bs & Hst & _ & Hb)). by destruct (dp_decode_ok _ _ Hb). }
  split; [done|]. split; [by eapply mirrored_attested|done].
Qed.

(** It touches only the proof and never loses the horizon, however it ends. *)
Lemma advance_world proof h w r w' :
  inv w → proof_ok proof → attested w h → dp_advance proof w = (r, w') →
  keeps (λ q, ¬ is_side proof_store q) w w' ∧ attested w' h ∧
  ∀ proof', r = Ok proof' → proof_ok proof' ∧ attested w' proof' ∧
    dp_volume_uuid proof' = dp_volume_uuid proof ∧ durable_sequence proof' = durable_sequence proof.
Proof.
  intros Hi Hok Hat Ha. split; [by eapply frames_dp_advance|]. split.
  { pose proof (advance_horizon h proof Hok w r w' (conj Hi Hat) Ha) as Hh. by destruct r; apply Hh. }
  intros proof' ->. by apply (advance_attests proof proof' w).
Qed.

(** ** Barriers *)

Lemma write_mark_inv mark j w r j' w' :
  inv w → (∀ f, j_mark j = Some f → handle w f JOURNAL_DURABLE_MARK) →
  write_mark mark (j, w) = (r, (j', w')) →
  r = Ok tt ∧ (∃ m, j' = set_mark m j) ∧ keeps (λ q, q ≠ JOURNAL_DURABLE_MARK) w w' ∧
  (∀ f, j_mark j' = Some f → handle w' f JOURNAL_DURABLE_MARK).
Proof.
  intros Hi Hm.
  assert (∀ f w1 rw w2, inv w1 → handle w1 f JOURNAL_DURABLE_MARK →
    f_write_at f 0 (DurableMark_encode mark) w1 = (rw, w2) →
    keeps (λ q, q ≠ JOURNAL_DURABLE_MARK) w1 w2 ∧ handle w2 f JOURNAL_DURABLE_MARK) as Hwr.
  { intros f w1 rw w2 Hi1 Hh Hw. destruct (law_handle _ _ _ Hh) as [c Hc].
    destruct (proj1 (law_dirty_vis w1 JOURNAL_DURABLE_MARK)) as [d Hd]; [by rewrite Hc|].
    assert (blen (DurableMark_encode mark) = DURABLE_MARK_SIZE) as Hl.
    { unfold DurableMark_encode. writer_norm. unfold blen. rewrite length_finish_with_crc. len_tac. done. }
    destruct (law_write w1 f _ c d 0 (DurableMark_encode mark) rw w2 Hi1 Hh Hc Hd ltac:(lia)
      ltac:(rewrite Hl; done)) as (Hk & Hh' & _); [|done|done].
    apply blen_pos_nonnil. by rewrite Hl. }
  unfold write_mark. intros [(? & [j1 w1] & [= <- <- <-] & Hr)|(e & [=] & _)]%m_bind_inv.
  assert (set_mark (j_mark j) j = j) as Hsame by (by destruct j).
  destruct (j_mark j) as [f|] eqn:Hf.
  - apply m_bind_inv in Hr as [(? & [j1 w1] & [= <- <- <-] & Hr)|(e & [=] & _)].
    apply m_bind_inv in Hr as [(? & [j1 w1] & (-> & rw & Hw & _)%io_try_inv & [= <- <- <-])|(e & (_ & ? & _ & [=])%io_try_inv & _)].
    destruct (Hwr _ _ _ _ Hi (Hm _ eq_refl) Hw) as [Hk Hh]. split; [done|]. split; [by eexists|]. split; [done|].
    rewrite Hf. by intros ? [= <-].
  - apply m_bind_inv in Hr as [(f & [j2 w2] & Hop & Hr)|(e & Hop & ->)];
      apply m_bind_inv in Hop as [(ro & [j1 w1] & (-> & ro' & Ho & [= ->])%io_try_inv & Hop)|(e' & (_ & ? & _ & [=])%io_try_inv & _)];
      destruct (law_open w JOURNAL_DURABLE_MARK true _ _ Hi eq_refl Ho) as (Hk & Hoh & _);
      assert (keeps (λ q, q ≠ JOURNAL_DURABLE_MARK) w w1) as Hk1
        by (eapply keeps_weaken; [|exact Hk]; intros q ?; by left);
      destruct ro' as [file|eo]; try done.
    + apply m_bind_inv in Hop as [([] & [j3 w3] & [= <- <-] & [= <- <- <-])|(e' & [=] & _)].
      apply m_bind_inv in Hr as [(? & [j1 w4] & (-> & rw & Hw & _)%io_try_inv & [= <- <- <-])|(e & (_ & ? & _ & [=])%io_try_inv & _)].
      destruct (Hwr _ _ _ _ (keeps_inv _ _ _ Hk1) (proj1 (Hoh _ eq_refl)) Hw) as [Hk2 Hh2].
      split; [done|]. split; [by eexists|]. split; [by eapply keeps_trans|]. simpl. by intros ? [= <-].
    + injection Hop as <- <- <-. injection Hr as <- <- <-. split; [done|]. split; [by eexists|]. split; [done|].
      by rewrite Hf.
Qed.

Lemma active_shape_core L j j' a :
  core j' = core j → j_durable_sequence j' = j_durable_sequence j → active_shape L j a → active_shape L j' a.
Proof.
  intros Hc Hd Has. apply core_eq in Hc as (Hu & Hss & Hn & Hap & _).
  assert (durable_count j' a = durable_count j a) as Hdc by (unfold durable_count; by rewrite Hd).
  destruct Has. split; rewrite ?Hdc, ?Hn, ?Hd, ?Hap, ?Hss; done.
Qed.

Lemma active_disk_core L j j' w a :
  j_volume_uuid j' = j_volume_uuid j → j_durable_sequence j' = j_durable_sequence j →
  active_disk L j w a → active_disk L j' w a.
Proof.
  intros Hu Hd Had.
  assert (durable_count j' a = durable_count j a) as Hdc by (unfold durable_count; by rewrite Hd).
  assert (∀ rs, active_content j' a rs = active_content j a rs) as Hac
    by (intros rs; unfold active_content; by rewrite Hu).
  destruct Had as [? ? ? ?]. split; rewrite ?Hdc, ?Hac; done.
Qed.

(** Publishing the mark changes nothing but the mark. *)
Lemma write_mark_ok L j w mark r j' w' :
  writer_ok L j w → write_mark mark (j, w) = (r, (j', w')) →
  r = Ok tt ∧ (∃ m, j' = set_mark m j) ∧ writer_ok L j' w' ∧ keeps (λ q, q ≠ JOURNAL_DURABLE_MARK) w w'.
Proof.
  intros [Hsh Hd] Hw. destruct (write_mark_inv mark j w r j' w') as (Hr & (m & ->) & Hk & Hm);
    [apply Hd|apply Hd|done|].
  split; [done|]. split; [by eexists|]. split; [|done]. split.
  - apply (shape_core L j); [done..| | | apply Hsh]; [simpl; pose proof (sh_durable _ _ Hsh); lia|].
    intros a Ha. eapply (active_shape_core L j); [done..|by apply (sh_active _ _ Hsh)].
  - destruct Hd as [Hi Hse Hac Hma Hpr]. split.
    + by eapply keeps_inv.
    + eapply list.Forall_impl; [exact Hse|]. intros s Hs. eapply keeps_stable; [done| |done]. apply segment_not_mark.
    + intros a Ha. eapply (active_disk_core L j); [done..|]. eapply active_disk_keeps; [exact Hk| |by apply Hac].
      apply segment_not_mark.
    + done.
    + eapply attested_keeps; [exact Hk| |done]. intros p Hp ->. by apply mark_not_proof.
Qed.

(** A barrier that fails after it touched the file. *)
Lemma sync_failed_ok L j w w' a :
  writer_ok L j w → j_active j = Some a → busy a → keeps (λ q, q ≠ active_path a) w w' →
  active_disk L j w' (set_redirty true a) →
  writer_ok L (count_failure (set_active (set_redirty true a) j)) w'.
Proof.
  intros [Hsh Hd] Ha Hb Hk Had. split.
  - apply (shape_core L j); [done|done|by simpl; rewrite Ha|simpl; pose proof (sh_durable _ _ Hsh); lia| |apply Hsh].
    intros a' [= <-]. eapply (active_shape_core L j); [done..|].
    destruct (sh_active _ _ Hsh a Ha). split; try done. by apply busy_not_idle.
  - eapply (disk_active L j w w' a); try done. by eapply active_disk_core; [| |exact Had].
Qed.

(** A completed barrier. *)
Lemma synced_count L j a :
  shape L j → j_active j = Some a →
  j_appended_sequence j + 1 - s_base_sequence (a_info a) = blen (active_records L a).
Proof.
  intros Hsh Ha. pose proof (as_end _ _ _ (sh_active _ _ Hsh a Ha)) as He. pose proof (sh_next _ _ Hsh) as [Hn _].
  unfold s_end in He. rewrite (in_count _ _ _ (active_info _ _ _ Hsh Ha)) in He. unfold active_records. lia.
Qed.

Definition barrier_done (a : ActiveSegment) j : JournalWriter :=
  set_durable (j_appended_sequence j) (set_active (set_synced a) j).

Lemma barrier_done_ok L j w w' a :
  writer_ok L j w → j_active j = Some a → keeps (λ q, q ≠ active_path a) w w' →
  handle w' (a_file a) (active_path a) →
  stable w' (active_path a) (active_content j a (active_records L a)) →
  writer_ok L (barrier_done a j) w'.
Proof.
  intros [Hsh Hd] Ha Hk Hh Hst. pose proof (synced_count _ _ _ Hsh Ha) as Hcnt.
  assert (durable_count (barrier_done a j) (set_synced a) = length (active_records L a)) as Hdc
    by (unfold durable_count, blen in *; simpl; lia).
  assert (active_records L (set_synced a) = active_records L a) as Hrs by done.
  pose proof (sh_active _ _ Hsh a Ha) as Has. pose proof (sh_next _ _ Hsh) as [Hn Hmax].
  pose proof (sh_durable _ _ Hsh) as Hdu. split.
  - apply (shape_core L j); [done|done|by simpl; rewrite Ha|simpl; lia| |apply Hsh].
    intros a' [= <-]. split; rewrite ?Hdc, ?Hrs; simpl; try done.
    + apply Has.
    + apply Has.
    + pose proof (as_base _ _ _ Has). lia.
    + apply Has.
    + rewrite firstn_all, (as_offset _ _ _ Has). apply (in_size _ _ _ (active_info _ _ _ Hsh Ha)).
    + by rewrite Z.ltb_irrefl.
    + apply Has.
    + rewrite drop_ge by done. symmetry. apply hasher_write_nil.
  - eapply (disk_active L j w w' a); try done. split; rewrite ?Hdc, ?Hrs; simpl; try done.
    + rewrite firstn_all. by apply law_stable_solid.
    + destruct (law_synced _ _ _ (law_stable_synced _ _ _ Hst)) as [Hv Hdi].
      eexists _, _. split; [exact Hv|]. split; [exact Hdi|]. done.
Qed.

Lemma redirty_weaken L j w a : active_disk L j w a → busy a → active_disk L j w (set_redirty true a).
Proof.
  intros [Hh Hso (c & d & Hc & Hd & Hp & Hcc & _) _] Hb. split; [done|done| |by apply busy_not_idle].
  exists c, d. split; [done|]. split; [done|]. split; [done|]. split; [done|]. done.
Qed.

Lemma advance_ok L j w proof r w' :
  writer_ok L j w → proof_ok proof → dp_volume_uuid proof = j_volume_uuid j →
  dp_advance proof w = (r, w') →
  keeps (λ q, ¬ is_side proof_store q) w w' ∧ writer_ok L j w' ∧
  ∀ proof', r = Ok proof' →
    writer_ok L (set_proof proof' j) w' ∧ durable_sequence proof' = durable_sequence proof.
Proof.
  intros [Hsh Hd] Hok Hu Ha.
  destruct (advance_world _ (j_proof j) _ _ _ (d_inv _ _ _ Hd) Hok (d_proof _ _ _ Hd) Ha) as (Hk & Hat & Hp).
  assert (∀ p, attested w' p → disk L (set_proof p j) w') as Hdisk.
  { intros p Hp'. destruct Hd as [Hi Hse Hac Hma Hpr]. split.
    - by eapply keeps_inv.
    - eapply list.Forall_impl; [exact Hse|]. intros s Hs. eapply keeps_stable; [done| |done]. apply segment_not_proof.
    - intros a Haa. eapply (active_disk_core L j); [done..|]. eapply active_disk_keeps; [exact Hk| |by apply Hac].
      apply segment_not_proof.
    - intros f Hf. eapply keeps_handle; [exact Hk|apply mark_not_proof|by apply Hma].
    - done. }
  split; [done|]. split.
  { split; [done|]. specialize (Hdisk _ Hat). by destruct j. }
  intros proof' ->. destruct (Hp _ eq_refl) as (Hok' & Hat' & Hu' & Hs'). split; [|done].
  split; [|by apply Hdisk]. pose proof (sh_durable _ _ Hsh) as Hdu.
  apply (shape_core L j); [done..|simpl; lia| |split; [done|]; simpl; congruence].
  intros a Haa. eapply (active_shape_core L j); [done..|by apply (sh_active _ _ Hsh)].
Qed.

Definition proof_candidate j a : DurableProof :=
  mkDurableProof (dp_generation (j_proof j)) (dp_volume_uuid (j_proof j))
    (j_appended_sequence j) (s_index (a_info a)) (a_write_offset a).

Lemma encode_records_bound rs : RECORD_HEADER_SIZE * blen rs ≤ blen (encode_records rs).
Proof.
  induction rs as [|x rs IH]; [done|]. rewrite encode_records_cons, blen_app.
  unfold blen in *. rewrite length_encode_record. simpl length. unfold HEADER, RECORD_HEADER_SIZE in *. lia.
Qed.

Lemma candidate_ok L j a :
  shape L j → j_active j = Some a → 0 < s_record_count (a_info a) → proof_ok (proof_candidate j a).
Proof.
  intros Hsh Ha Hc. pose proof (active_info _ _ _ Hsh Ha) as Hin. pose proof (sh_active _ _ Hsh a Ha) as Has.
  pose proof (active_bound _ _ _ Hsh Ha) as Hb. pose proof (in_index _ _ _ Hin). pose proof (sh_index _ _ Hsh).
  destruct (sh_proof _ _ Hsh) as [(Hg & Hul & _) _]. pose proof (sh_next _ _ Hsh). pose proof (sh_durable _ _ Hsh).
  pose proof (as_first _ _ _ Has). pose proof (as_end _ _ _ Has) as He. unfold s_end in He.
  assert (SEGMENT_HEADER_SIZE + RECORD_HEADER_SIZE ≤ a_write_offset a) as Hsz.
  { rewrite (as_offset _ _ _ Has), (in_size _ _ _ Hin). rewrite (in_count _ _ _ Hin) in Hc.
    pose proof (encode_records_bound (L (s_index (a_info a)))). unfold RECORD_HEADER_SIZE in *. lia. }
  unfold U64_MAX, I64_MAX in *. unfold proof_ok, u64_ok, dp_validate, proof_candidate. simpl.
  split; [done|]. split; [done|]. split; [lia|]. split; [lia|]. split; [lia|].
  destruct (Z.eqb_spec (j_appended_sequence j) 0) as [H0'|_]; [lia|].
  rewrite (proj2 (Z.eqb_neq _ _)), (proj2 (Z.eqb_neq _ _)), (proj2 (Z.ltb_ge _ _)), (proj2 (Z.ltb_ge _ _));
    unfold U64_MAX, I64_MAX; [done|lia..].
Qed.

Definition next_path j : string := journal_segment (j_next_segment_index j).

Lemma next_path_ne L j s : shape L j → s ∈ segments j → journal_segment (s_index s) ≠ next_path j.
Proof.
  intros Hsh Hs Heq. pose proof (sh_infos _ _ Hsh) as Hin. rewrite list.Forall_forall in Hin.
  pose proof (Hin s Hs) as Hs'. pose proof (in_index _ _ _ Hs'). pose proof (sh_index _ _ Hsh).
  apply segment_inj in Heq; [lia|by eapply index_u64|]. unfold u64_ok, U64_MAX in *. lia.
Qed.

Lemma active_in_segments j a : j_active j = Some a → a_info a ∈ segments j.
Proof. intros Ha. unfold segments. rewrite Ha. apply elem_of_app. right. by apply list_elem_of_singleton. Qed.

(** With the proof files of [w], the publication refuses the candidate
    although no I/O fails. *)
Definition proof_refused j w : Prop :=
  ∃ a w1 e w', j_active j = Some a ∧ 0 < s_record_count (a_info a) ∧ keeps (is_side proof_store) w w1 ∧ quiet w1 ∧
    dp_advance (proof_candidate j a) w1 = (Err e, w').

Lemma proof_refused_keeps j w w1 : keeps (is_side proof_store) w w1 → proof_refused j w1 → proof_refused j w.
Proof.
  intros Hk (a & w2 & e & w' & Ha & Hc & Hk2 & Hr). exists a, w2, e, w'. split; [done|]. split; [done|].
  split; [by eapply keeps_trans|done].
Qed.

(** What the proof files admit is not refused. *)
Lemma admitted_published L j w :
  writer_ok L j w → (∀ a, j_active j = Some a → publishable w (proof_candidate j a)) → proof_refused j w → False.
Proof.
  intros Hok Hp (a & w1 & e & w' & Ha & Hc & Hk & Hq & Hr).
  enough (is_ok (Err (A := DurableProof) e) = true) by done. eapply advance_quiet; [by eapply keeps_inv| |done| |exact Hr].
  - by eapply candidate_ok; [apply Hok|..].
  - eapply publishable_keeps; [exact Hk|done|]. by apply Hp.
Qed.

(** The files only the writer touches. *)
Definition owned (q : string) : Prop :=
  (∃ i, q = journal_segment i) ∨ q = JOURNAL_DURABLE_MARK ∨ is_side proof_store q.

(** What a barrier leaves alone: other files, and the place of the next
    segment. *)
Definition unbarred j (q : string) : Prop := q = next_path j ∨ ¬ owned q.

Lemma unbarred_proof j q : unbarred j q → ¬ is_side proof_store q.
Proof. intros [->|Hn]; [apply segment_not_proof|]. intros Hs. apply Hn. by right; right. Qed.

Lemma unbarred_mark j q : unbarred j q → q ≠ JOURNAL_DURABLE_MARK.
Proof. intros [->|Hn]; [apply segment_not_mark|]. intros ->. apply Hn. by right; left. Qed.

Lemma unowned_segment i q : ¬ owned q → q ≠ journal_segment i.
Proof. intros Hn ->. apply Hn. left. by eexists. Qed.

Record barrier_spec L j w (r : result CoreError ()) j' w' : Prop := {
  bs_ok : writer_ok L j' w';
  bs_core : core j' = core j;
  bs_info : a_info <$> j_active j' = a_info <$> j_active j;
  bs_durable : j_durable_sequence j ≤ j_durable_sequence j';
  bs_keeps : keeps (unbarred j) w w';
  bs_done : r = Ok tt → j_durable_sequence j' = j_appended_sequence j ∧
    (∀ a', j_active j' = Some a' → a_unsynced a' = false ∧ a_needs_tail_cleanup a' = false) ∧
    (j_durable_sequence j < j_appended_sequence j → j_appended_sequence j ≤ durable_sequence (j_proof j'));
  bs_quiet : quiet w → r = Ok tt ∨ proof_refused j w
}.

(** The end of a barrier: the state is marked durable, then the mark. *)
Lemma finish_barrier L j w a r j' w' :
  writer_ok L j w → j_active j = Some a →
  stable w (active_path a) (active_content j a (active_records L a)) →
  (let* _ := modify (λ j, set_durable (j_appended_sequence j) (set_active (set_synced a) j)) in
   write_mark (mkDurableMark (s_index (a_info a)) (a_write_offset a))) (j, w) = (r, (j', w')) →
  r = Ok tt ∧ writer_ok L j' w' ∧ keeps (λ q, q ≠ JOURNAL_DURABLE_MARK) w w' ∧
  ∃ m, j' = set_mark m (barrier_done a j).
Proof.
  intros Hok Ha Hst [([] & [j1 w1] & [= <- <-] & Hr)|(e & [=] & _)]%m_bind_inv.
  assert (writer_ok L (barrier_done a j) w) as Hok1.
  { eapply barrier_done_ok; [exact Hok|done|by apply keeps_refl, Hok| |done].
    apply (ad_handle _ _ _ _ (d_active _ _ _ (proj2 Hok) a Ha)). }
  destruct (write_mark_ok _ _ _ _ _ _ _ Hok1 Hr) as (-> & Hm & Hok2 & Hk). done.
Qed.

Lemma publish_ok L j w a r j' w' :
  writer_ok L j w → j_active j = Some a → busy a → publish_proof a (j, w) = (r, (j', w')) →
  keeps (λ q, ¬ is_side proof_store q) w w' ∧ writer_ok L j' w' ∧
  match r with
  | Ok _ => (∃ p, j' = set_proof p j) ∧
            (0 < s_record_count (a_info a) → j_appended_sequence j ≤ durable_sequence (j_proof j'))
  | Err _ => j' = count_failure (set_active (set_redirty true a) j) ∧ (quiet w → proof_refused j w)
  end.
Proof.
  intros Hok Ha Hb [(? & [? ?] & [= <- <- <-] & Hr)|(e & [=] & _)]%m_bind_inv.
  pose proof (proj1 Hok) as Hsh. pose proof (d_inv _ _ _ (proj2 Hok)) as Hi.
  destruct (Z.ltb_spec (durable_sequence (j_proof j)) (j_appended_sequence j)) as [Hlt|Hge],
    (Z.ltb_spec 0 (s_record_count (a_info a))) as [Hc|Hc]; cbn [andb] in Hr.
  2-4: injection Hr as <- <- <-; split; [by apply keeps_refl|]; split; [done|];
    split; [exists (j_proof j); by destruct j|lia].
  apply m_bind_inv in Hr as [(rp & [j1 w1] & [-> Hp]%world_inv & Hr)|(e & [_ (? & _ & [=])%m_try_inv]%world_inv & _)].
  apply m_try_inv in Hp as (? & Hp & [= <-]).
  destruct (advance_ok L j w (proof_candidate j a) rp w1 Hok) as (Hk & Hok1 & Hp');
    [by eapply candidate_ok|apply Hsh|done|].
  destruct rp as [p|e].
  - injection Hr as <- <- <-. destruct (Hp' _ eq_refl) as [Hok2 Hs]. split; [done|]. split; [done|].
    split; [by eexists|]. simpl in *. lia.
  - apply m_bind_inv in Hr as [([] & [j2 w2] & [= <- <-] & [= <- <- <-])|(e' & [=] & _)].
    split; [done|]. split; [|split; [done|intros Hq; exists a, w, e, w1; split; [done|]; split; [done|]; split; [by apply keeps_refl|done]]].
    eapply sync_failed_ok; [exact Hok1|done|done|by apply keeps_refl, Hok1|].
    apply redirty_weaken; [|done]. by apply (d_active _ _ _ (proj2 Hok1)).
Qed.

Lemma pending_count L j a :
  shape L j → j_active j = Some a → j_durable_sequence j < j_appended_sequence j → 0 < s_record_count (a_info a).
Proof.
  intros Hsh Ha Hlt. pose proof (sh_active _ _ Hsh a Ha) as Has. pose proof (as_base _ _ _ Has).
  pose proof (as_end _ _ _ Has) as He. unfold s_end in He. pose proof (sh_next _ _ Hsh). lia.
Qed.

(** From a synced file to the end of the barrier. *)
Lemma publish_barrier L j w a r j' w' :
  writer_ok L j w → j_active j = Some a → busy a →
  stable w (active_path a) (active_content j a (active_records L a)) →
  (let* _ := publish_proof a in
   let* _ := modify (λ j, set_durable (j_appended_sequence j) (set_active (set_synced a) j)) in
   write_mark (mkDurableMark (s_index (a_info a)) (a_write_offset a))) (j, w) = (r, (j', w')) →
  barrier_spec L j w r j' w'.
Proof.
  intros Hok Ha Hb Hst Hr. pose proof (proj1 Hok) as Hsh. pose proof (sh_durable _ _ Hsh) as Hdu.
  assert (∀ w1, keeps (λ q, ¬ is_side proof_store q) w w1 → keeps (unbarred j) w w1) as Hkn.
  { intros w1. apply keeps_weaken, unbarred_proof. }
  apply m_bind_inv in Hr as [([] & [j1 w1] & Hp & Hr)|(e & Hp & ->)];
    destruct (publish_ok _ _ _ _ _ _ _ Hok Ha Hb Hp) as (Hk & Hok1 & Hres).
  - destruct Hres as [(p & ->) Hpr].
    apply (finish_barrier L (set_proof p j)) in Hr as (-> & Hok2 & Hk2 & m & ->); [|done|done|].
    2: { eapply keeps_stable; [exact Hk|apply segment_not_proof|done]. }
    split; [done|done|by simpl; rewrite Ha|simpl; lia| | |by left].
    + eapply keeps_trans; [by apply Hkn|]. eapply keeps_weaken; [|exact Hk2]. apply unbarred_mark.
    + intros _. split; [done|]. split; [by intros a' [= <-]|]. intros Hlt. apply Hpr. by eapply pending_count.
  - destruct Hres as [-> Hq]. split; [done|done|by simpl; rewrite Ha|simpl; lia|by apply Hkn|done|by right; apply Hq].
Qed.

Lemma barrier_keeps L j a w w' :
  shape L j → j_active j = Some a → keeps (λ q, q ≠ active_path a) w w' → keeps (unbarred j) w w'.
Proof.
  intros Hsh Ha. apply keeps_weaken. intros q [->|Hn] Heq; [|by apply (unowned_segment (s_index (a_info a)) q)].
  eapply next_path_ne; [done| |by symmetry]. by apply active_in_segments.
Qed.

Lemma sync_pending_spec L j w a r j' w' :
  writer_ok L j w → j_active j = Some a → busy a → sync_pending a (j, w) = (r, (j', w')) →
  barrier_spec L j w r j' w'.
Proof.
  intros Hok Ha Hb Hr. pose proof (proj1 Hok) as Hsh. pose proof (d_inv _ _ _ (proj2 Hok)) as Hi.
  pose proof (sh_durable _ _ Hsh) as Hdu. pose proof (d_active _ _ _ (proj2 Hok) a Ha) as Had.
  unfold sync_pending in Hr.
  destruct (prepare_active L j a Hsh Ha _ w r j' w' Hi Had Hb Hr)
    as [(w1 & Hk & Hrd & Hs)|(e & -> & -> & Hk & Had' & Hq)]; cycle 1.
  { split; [|done|done|lia|by eapply barrier_keeps|done|done].
    split; [done|]. apply (disk_active L j w w' a L j a); try done. apply Hok. }
  apply m_bind_inv in Hs as [(rs & [j2 w2] & (-> & rs' & Hs & [= ->])%io_try_inv & Hr2)|(e & (_ & ? & _ & [=])%io_try_inv & _)].
  destruct (sync_ready _ _ _ _ _ _ Hrd Hs) as (Hk2 & Hh2 & Hst & Hno & Hq).
  pose proof (keeps_trans _ _ _ _ Hk Hk2) as Hk12.
  destruct rs' as [[]|e]; cycle 1.
  - apply m_bind_inv in Hr2 as [([] & [j3 w3] & [= <- <-] & [= <- <- <-])|(e' & [=] & _)].
    destruct (Hno ltac:(done)) as [Hso Hv].
    split; [|done|by simpl; rewrite Ha|simpl; lia|by eapply barrier_keeps|done|].
    + eapply sync_failed_ok; [done|done|done|done|]. split; [done|done| |by apply busy_not_idle].
      destruct (proj1 (law_dirty_vis w2 (active_path a))) as [d Hd]; [by rewrite Hv|].
      exists (active_content j a (active_records L a)), d. done.
    + intros Hqw. by specialize (Hq (keeps_quiet _ _ _ Hk Hqw)).
  - specialize (Hst eq_refl). pose proof (law_stable_synced _ _ _ Hst) as [Hv Hd]%law_synced.
    assert (writer_ok L j w2) as Hok2.
    { split; [done|]. apply (disk_active L j w w2 a L j a); try done; [apply Hok|]. split; [done| | |done].
      - eapply law_solid_prefix; [by apply law_stable_solid|apply synced_prefix].
      - exists (active_content j a (active_records L a)), (active_content j a (active_records L a)). done. }
    destruct (publish_barrier _ _ _ _ _ _ _ Hok2 Ha Hb Hst Hr2) as [? ? ? ? Hkp Hdn Hqt]. split; try done.
    + eapply keeps_trans; [by eapply barrier_keeps|done].
    + intros Hqw. destruct (Hqt (keeps_quiet _ _ _ Hk12 Hqw)) as [?|Hpr]; [by left|right].
      eapply proof_refused_keeps; [|exact Hpr]. eapply keeps_weaken; [|exact Hk12]. intros q Hp ->. by apply (segment_not_proof _ Hp).
Qed.

(** [sync_active]. *)
Lemma sync_active_spec L j w r j' w' :
  writer_ok L j w → sync_active (j, w) = (r, (j', w')) → barrier_spec L j w r j' w'.
Proof.
  intros Hok [(? & [? ?] & [= <- <- <-] & Hr)|(e & [=] & _)]%m_bind_inv.
  pose proof (proj1 Hok) as Hsh. pose proof (d_inv _ _ _ (proj2 Hok)) as Hi. pose proof (sh_durable _ _ Hsh) as Hdu.
  destruct (j_active j) as [a|] eqn:Ha; cycle 1.
  { injection Hr as <- <- <-. pose proof (sh_none _ _ Hsh Ha).
    split; [done|done|done|lia|by apply keeps_refl| |by left]. intros _. split; [lia|]. split; [by rewrite Ha|lia]. }
  pose proof (as_unsynced _ _ _ (sh_active _ _ Hsh a Ha)) as Hun.
  destruct (a_unsynced a) eqn:Hu; [|destruct (a_needs_tail_cleanup a) eqn:Ht]; cbn [negb andb] in Hr.
  - eapply sync_pending_spec; [done|done|by left|done].
  - eapply sync_pending_spec; [done|done|by right|done].
  - injection Hr as <- <- <-. symmetry in Hun. apply Z.ltb_ge in Hun.
    split; [done|done|done|lia|by apply keeps_refl| |by left].
    intros _. split; [lia|]. split; [by intros a'; rewrite Ha; intros [= <-]|lia].
Qed.

(** ** Failed creations *)

Lemma shape_cleanup L j c :
  shape L j → (∀ i, c = Some i → j_active j = None ∧ i = j_next_segment_index j) → shape L (set_cleanup c j).
Proof.
  intros [? ? ? ? ? ? Hin ? ? ? ? Hac ?] Hc. split; try done.
  - by eapply infos_next; [..|exact Hin].
  - intros a Ha. by destruct (Hac a Ha).
Qed.

Lemma disk_cleanup L j c w : disk L j w → disk L (set_cleanup c j) w.
Proof. intros [? ? Hac ? ?]. split; try done. intros a Ha. by destruct (Hac a Ha). Qed.

Lemma next_path_disk L j w w' :
  writer_ok L j w → keeps (λ q, q ≠ next_path j) w w' → writer_ok L j w'.
Proof.
  intros [Hsh Hd] Hk. split; [done|]. eapply disk_keeps; [exact Hd|exact Hk| | |].
  - intros s Hs. by eapply next_path_ne.
  - apply not_eq_sym, segment_not_mark.
  - intros p Hp ->. by eapply segment_not_proof.
Qed.

Lemma journal_dir_sync w r w' :
  inv w → b_sync_dir JOURNAL_DIR w = (r, w') →
  keeps (λ _, True) w w' ∧ (quiet w → r = Ok tt) ∧
  (r = Ok tt → ∀ i, (vis w (journal_segment i) = None → absent w' (journal_segment i)) ∧
    ∀ bs, synced w (journal_segment i) bs → stable w' (journal_segment i) bs).
Proof.
  intros Hi Hs. destruct (law_sync_dir w JOURNAL_DIR r w' Hi eq_refl Hs) as (Hk & Hst & Hq & Hab).
  split; [done|]. split; [done|]. intros Hr i. split; intros; [apply Hab|apply Hst]; auto using segment_direct.
Qed.

Lemma cleanup_spec L j w r j' w' :
  writer_ok L j w → cleanup_failed_creation (j, w) = (r, (j', w')) →
  writer_ok L j' w' ∧ keeps (λ q, q ≠ next_path j) w w' ∧
  match r with
  | Ok _ => j' = set_cleanup None j ∧ (∀ i, j_creation_cleanup j = Some i → absent w' (journal_segment i))
  | Err _ => j' = j
  end ∧ (quiet w → is_ok r = true).
Proof.
  intros Hok [(? & [? ?] & [= <- <- <-] & Hr)|(e & [=] & _)]%m_bind_inv.
  pose proof (d_inv _ _ _ (proj2 Hok)) as Hi.
  destruct (j_creation_cleanup j) as [i|] eqn:Hc; cycle 1.
  { injection Hr as <- <- <-. split; [done|]. split; [by apply keeps_refl|]. split; [|done]. split; [|done].
    destruct j. simpl in Hc. by rewrite Hc. }
  destruct (sh_cleanup _ _ (proj1 Hok) i Hc) as [Hna ->]. fold (next_path j) in Hr |- *.
  apply m_bind_inv in Hr as [(rm & [j1 w1] & (-> & rm' & Hrm & [= ->])%io_try_inv & Hr)|(e & (_ & ? & _ & [=])%io_try_inv & _)].
  destruct (law_remove w (next_path j) rm' w1 Hi (segment_valid _) Hrm) as (Hk & Hgone & Hfail & Hnf & Hq).
  pose proof (next_path_disk _ _ _ _ Hok Hk) as Hok1.
  apply m_bind_inv in Hr as [([] & [j2 w2] & Hm & Hr)|(e & Hm & ->)]; cycle 1.
  { assert (j' = j ∧ w' = w1) as [-> ->] by (destruct rm' as [|[]]; first [discriminate Hm|by injection Hm as _ <- <-]).
    split; [done|]. split; [done|]. split; [done|]. intros Hqw. by destruct (Hq Hqw) as [-> | ->]. }
  assert (j2 = j ∧ w2 = w1 ∧ vis w1 (next_path j) = None) as (-> & -> & Hvn).
  { destruct rm' as [[]|[]]; try discriminate Hm; injection Hm as <- <-; (split; [done|]); (split; [done|]); [auto|].
    rewrite (keeps_vis _ _ _ _ (Hfail ltac:(done)) I). auto. }
  pose proof (keeps_inv _ _ _ Hk) as Hi1.
  apply m_bind_inv in Hr as [([] & [j3 w3] & (-> & rs & Hs & Hrs)%io_inv & [= <- <- <-])|(e & (-> & rs & Hs & Hrs)%io_inv & ->)];
    destruct (journal_dir_sync _ _ _ Hi1 Hs) as (Hk2 & Hq2 & Hab);
    assert (keeps (λ q, q ≠ next_path j) w1 _) as Hk2' by (by eapply keeps_weaken; [|exact Hk2]);
    pose proof (next_path_disk _ _ _ _ Hok1 Hk2') as Hok2;
    pose proof (keeps_trans _ _ _ _ Hk Hk2') as Hk12.
  - split; [split; [by apply shape_cleanup; [apply Hok2|]|by apply disk_cleanup, Hok2]|]. split; [done|].
    split; [|done]. split; [done|]. intros i [= <-]. destruct rs as [[]|]; [|done]. by apply Hab.
  - split; [done|]. split; [done|]. split; [done|]. intros Hqw.
    by rewrite (Hq2 (keeps_quiet _ _ _ Hk Hqw)) in Hrs.
Qed.

(** ** Sealing and rolling *)

Record seal_spec L j w (r : result CoreError ()) j' w' : Prop := {
  ss_ok : writer_ok L j' w';
  ss_core : (j_volume_uuid j', j_segment_size j', j_next_sequence j', j_appended_sequence j',
             j_next_segment_index j', j_creation_cleanup j', j_holes_allowed_below j') =
            (j_volume_uuid j, j_segment_size j, j_next_sequence j, j_appended_sequence j,
             j_next_segment_index j, j_creation_cleanup j, j_holes_allowed_below j);
  ss_segments : segments j' = segments j;
  ss_advances : advances L j L j';
  ss_keeps : keeps (unbarred j) w w';
  ss_durable : j_durable_sequence j ≤ j_durable_sequence j';
  ss_done : r = Ok tt → j_active j' = None;
  ss_quiet : quiet w → r = Ok tt ∨ proof_refused j w
}.

Lemma segments_core j j' :
  core j' = core j → a_info <$> j_active j' = a_info <$> j_active j → segments j' = segments j.
Proof.
  intros (_ & _ & _ & _ & Hse & _)%core_eq Hact. unfold segments. rewrite Hse. f_equal.
  destruct (j_active j'), (j_active j); try done. by injection Hact as ->.
Qed.

(** Retiring a fully synced active segment. *)
Lemma retire_ok L j w a :
  writer_ok L j w → j_active j = Some a → a_unsynced a = false → a_needs_tail_cleanup a = false →
  j_durable_sequence j = j_appended_sequence j →
  let j' := set_segments (j_sealed j ++ [a_info a]) None (j_next_segment_index j) j in
  writer_ok L j' w ∧ segments j' = segments j ∧ advances L j L j'.
Proof.
  intros [Hsh Hd] Ha Hu Ht Hdur j'.
  assert (segments j' = segments j) as Hseg by (unfold segments; simpl; by rewrite Ha, app_nil_r).
  pose proof (sh_active _ _ Hsh a Ha) as Has. pose proof (sh_next _ _ Hsh) as [Hn _].
  split; [|split; [done|]]; [split|].
  - destruct Hsh as [? ? ? ? ? ? Hin Hch Hsl Hcu Hno ? ?]. split; try done; rewrite ?Hseg; try done.
    + by eapply infos_next; [..|exact Hin].
    + simpl. apply Forall_app_2; [done|]. constructor; [|done]. rewrite (as_end _ _ _ Has). lia.
    + intros i Hi. destruct (Hcu i Hi). congruence.
  - destruct Hd as [Hi Hse Hac Hma Hpr]. split; try done. simpl. apply Forall_app_2; [done|].
    constructor; [|done]. apply (ad_idle _ _ _ _ (Hac a Ha) Hu Ht).
  - split; [done|]. intros i base rs [(s & Hs & Hi & Hb & ->)|(a' & Ha' & Hi & Hb & ->)].
    + exists (L i). split; [done|]. left. exists s. split; [apply elem_of_app; by left|done].
    + rewrite Ha in Ha'. injection Ha' as <-. exists (L i). split.
      * exists (drop (durable_count j a) (L i)). by rewrite take_drop.
      * left. exists (a_info a). split; [apply elem_of_app; right; by apply list_elem_of_singleton|done].
Qed.

Lemma seal_active_spec L j w r j' w' :
  writer_ok L j w → seal_active (j, w) = (r, (j', w')) → seal_spec L j w r j' w'.
Proof.
  intros Hok [([] & [j1 w1] & Hs & Hr)|(e & Hs & ->)]%m_bind_inv;
    pose proof (sync_active_spec _ _ _ _ _ _ Hok Hs) as [Hok1 Hcore Hinfo Hdur Hk Hdn Hq];
    pose proof (core_eq _ _ Hcore) as (Hu & Hss & Hn & Hap & Hse & Hni & Hcl & Hho);
    pose proof (segments_core _ _ Hcore Hinfo) as Hseg;
    pose proof (advances_core L _ _ Hcore Hinfo Hdur) as Hadv; cycle 1.
  { split; [done|congruence|done..]. }
  destruct (Hdn eq_refl) as (Hda & Hidle & _). injection Hr as <- <- <-.
  destruct (j_active j1) as [a|] eqn:Ha; cycle 1.
  { split; [done|congruence|done|done|done|done|done|by left]. }
  destruct (Hidle _ eq_refl) as [Hua Hta].
  destruct (retire_ok L j1 w1 a Hok1 Ha Hua Hta) as (Hok2 & Hseg2 & Hadv2); [congruence|].
  split; [done|simpl; congruence|congruence|by eapply advances_trans|done|done|done|by left].
Qed.

(** Allocating past the end of a file. *)
Lemma allocate_extends w f p c o n r w' :
  inv w → handle w f p → vis w p = Some c → 0 ≤ o → 0 ≤ n → o + n ≤ U64_MAX → blen c < o + n →
  f_allocate_range f o n w = (r, w') →
  ∃ w1, keeps (λ _, True) w w1 ∧
    (f_set_len f (o + n) w1 = (r, w') ∨ w1 = w' ∧ is_ok r = false ∧ ¬ quiet w).
Proof.
  intros Hi Hh Hc Ho Hn Hmax Hlt Hr. destruct (law_allocate _ _ _ _ _ _ _ _ Hi Hh Hc Ho Hn Hmax Hr) as (w1 & Hk & Hcase).
  exists w1. split; [done|]. destruct Hcase as [(-> & Hok & Hq)|[_ Hs]]; [right|by left]. split; [done|].
  destruct (is_ok r); [specialize (Hok eq_refl); lia|]. split; [done|]. intros Hqw. by specialize (Hq Hqw).
Qed.

Lemma resize_nil n : resize n [] = zeros n.
Proof. unfold resize. by rewrite take_nil, Nat.sub_0_r. Qed.

(** Writing the header of a file that is open. *)
Lemma write_header w f p header r w' :
  inv w → handle w f p → blen header = SEGMENT_HEADER_SIZE →
  (let* _ := f_set_len f 0 in
   let* _ := f_allocate_range f 0 SEGMENT_HEADER_SIZE in
   let* _ := f_write_at f 0 header in
   f_sync_data f) w = (r, w') →
  keeps (λ q, q ≠ p) w w' ∧ handle w' f p ∧ (r = Ok tt → synced w' p header) ∧ (quiet w → r = Ok tt).
Proof.
  intros Hi Hh Hl Hr. destruct (law_handle _ _ _ Hh) as [c Hc].
  destruct (proj1 (law_dirty_vis w p)) as [d Hd]; [by rewrite Hc|].
  apply m_bind_inv in Hr as [([] & w1 & Hs & Hr)|(e & Hs & ->)];
    destruct (law_set_len w f p c d 0 _ _ Hi Hh Hc Hd ltac:(done) Hs) as (Hk1 & Hh1 & Hok1 & Hq1).
  2: { split; [done|]. split; [done|]. split; [done|]. intros Hq. by specialize (Hq1 Hq). }
  destruct (Hok1 eq_refl) as [Hc1 Hd1]. change (resize (Z.to_nat 0) c) with (@nil byte) in Hc1.
  change (resize (Z.to_nat 0) d) with (@nil byte) in Hd1. pose proof (keeps_inv _ _ _ Hk1) as Hi1.
  apply m_bind_inv in Hr as [([] & w2 & Hs2 & Hr)|(e & Hs2 & ->)];
    destruct (allocate_extends w1 f p [] 0 SEGMENT_HEADER_SIZE _ _ Hi1 Hh1 Hc1 ltac:(done) ltac:(done) ltac:(done) ltac:(done) Hs2)
      as (w1' & Hk2 & [Hs2'|(-> & Hno & Hnq)]); try done.
  3: { split; [eapply keeps_trans; [exact Hk1|]; by eapply keeps_weaken; [|exact Hk2]|].
       split; [by eapply keeps_handle|]. split; [done|]. intros Hq. destruct Hnq. by eapply keeps_quiet. }
  all: pose proof (keeps_inv _ _ _ Hk2) as Hi2; pose proof (keeps_handle _ _ _ _ _ Hk2 I Hh1) as Hh2;
    pose proof (keeps_vis _ _ _ p Hk2 I) as Hc2; pose proof (keeps_dirty _ _ _ p Hk2 I) as Hd2;
    rewrite Hc1 in Hc2; rewrite Hd1 in Hd2;
    assert (keeps (λ q, q ≠ p) w w1') as Hk12 by (eapply keeps_trans; [exact Hk1|]; by eapply keeps_weaken; [|exact Hk2]);
    destruct (law_set_len w1' f p [] [] (0 + SEGMENT_HEADER_SIZE) _ _ Hi2 Hh2 Hc2 Hd2 ltac:(done) Hs2') as (Hk3 & Hh3 & Hok3 & Hq3);
    pose proof (keeps_trans _ _ _ _ Hk12 Hk3) as Hk13.
  2: { split; [done|]. split; [done|]. split; [done|]. intros Hq. by specialize (Hq3 (keeps_quiet _ _ _ Hk12 Hq)). }
  destruct (Hok3 eq_refl) as [Hc3 Hd3]. pose proof (keeps_inv _ _ _ Hk3) as Hi3.
  assert (length (resize (Z.to_nat (0 + SEGMENT_HEADER_SIZE)) []) = length header) as Hlz
    by (rewrite length_resize; unfold blen, SEGMENT_HEADER_SIZE in *; lia).
  apply m_bind_inv in Hr as [([] & w4 & Hs4 & Hr)|(e & Hs4 & ->)];
    destruct (law_write w2 f p _ _ 0 header _ _ Hi3 Hh3 Hc3 Hd3 ltac:(done) ltac:(rewrite Hl; done)
      (blen_pos_nonnil header ltac:(by rewrite Hl)) Hs4) as (Hk4 & Hh4 & Hok4 & Hq4);
    pose proof (keeps_trans _ _ _ _ Hk13 Hk4) as Hk14.
  2: { split; [done|]. split; [done|]. split; [done|]. intros Hq. by specialize (Hq4 (keeps_quiet _ _ _ Hk13 Hq)). }
  destruct (Hok4 eq_refl) as [Hc4 Hd4]. rewrite write_range_over in Hc4, Hd4 by done.
  destruct (law_sync_data w4 f p header r w' (keeps_inv _ _ _ Hk4) Hh4 Hc4 Hr) as (Hk5 & Hh5 & _ & Hsy & Hq5).
  split; [by eapply keeps_trans|]. split; [done|]. split; [auto|]. intros Hq. apply Hq5. by eapply keeps_quiet.
Qed.

Lemma bind_block {S Er A} (m1 m2 m3 m4 : M S Er ()) (k : M S Er A) st :
  (let* _ := m1 in let* _ := m2 in let* _ := m3 in let* _ := m4 in k) st =
  (let* _ := (let* _ := m1 in let* _ := m2 in let* _ := m3 in m4) in k) st.
Proof.
  unfold m_bind. destruct (m1 st) as [[]?]; [|done]. destruct (m2 _) as [[]?]; [|done].
  by destruct (m3 _) as [[]?].
Qed.

Lemma create_segment_spec w i volume_uuid base r w' :
  inv w → length volume_uuid = 16%nat → create_segment i volume_uuid base w = (r, w') →
  keeps (λ q, q ≠ journal_segment i) w w' ∧
  (∀ f, r = Ok f → handle w' f (journal_segment i) ∧
    stable w' (journal_segment i) (seg_content volume_uuid i base [])) ∧
  (quiet w → is_ok r = true).
Proof.
  intros Hi Hu Hr. unfold create_segment in Hr. set (p := journal_segment i) in *.
  assert (seg_content volume_uuid i base [] = SegmentHeader_encode (mkSegmentHeader i volume_uuid base)) as Hsc
    by apply app_nil_r.
  apply m_bind_inv in Hr as [(f & w1 & Ho & Hr)|(e & Ho & ->)];
    destruct (law_open w p true _ _ Hi (segment_valid i) Ho) as (Hk & Hok & _ & Hq & _);
    assert (keeps (λ q, q ≠ p) w _) as Hk1 by (eapply keeps_weaken; [|exact Hk]; intros q ?; by left).
  2: { split; [done|]. split; [done|]. intros Hqw. destruct (Hq Hqw (or_intror eq_refl)) as [? [=]]. }
  destruct (Hok f eq_refl) as (Hh & _). rewrite bind_block in Hr.
  pose proof (header_length i volume_uuid base Hu) as Hl.
  apply m_bind_inv in Hr as [([] & w2 & Hb & Hr)|(e & Hb & ->)];
    destruct (write_header w1 f p _ _ _ (keeps_inv _ _ _ Hk1) Hh Hl Hb) as (Hk2 & Hh2 & Hsy & Hq2);
    pose proof (keeps_trans _ _ _ _ Hk1 Hk2) as Hk12.
  2: { split; [done|]. split; [done|]. intros Hqw. by specialize (Hq2 (keeps_quiet _ _ _ Hk1 Hqw)). }
  specialize (Hsy eq_refl).
  apply m_bind_inv in Hr as [([] & w3 & Hs & [= <- <-])|(e & Hs & ->)];
    destruct (journal_dir_sync _ _ _ (keeps_inv _ _ _ Hk2) Hs) as (Hk3 & Hq3 & Hst);
    assert (keeps (λ q, q ≠ p) w _) as Hk13 by (eapply keeps_trans; [exact Hk12|]; by eapply keeps_weaken; [|exact Hk3]).
  - split; [done|]. split; [|done]. intros ? [= <-]. split; [exact (keeps_handle _ _ _ _ _ Hk3 I Hh2)|].
    rewrite Hsc. by apply (Hst eq_refl).
  - split; [done|]. split; [done|]. intros Hqw. by specialize (Hq3 (keeps_quiet _ _ _ Hk12 Hqw)).
Qed.

(** Adding a segment behind the others. *)
Lemma chained_snoc holes fin fin' l s :
  chained holes fin l → (∀ t, t ∈ l → s_index t < s_index s) → s_base_sequence s = fin → s_end s = fin' →
  chained holes fin' (l ++ [s]).
Proof.
  intros Hc Hlt Hb He. induction l as [|t l IH]; simpl.
  - split; [by left|done].
  - destruct Hc as [Hh Hc]. split; [|apply IH; [done|intros; apply Hlt; by right]].
    destruct l as [|u l]; simpl; [|done]. split; [apply Hlt; by left|]. by rewrite Hb.
Qed.

Definition no_records L (i : Z) : Z → list JournalRecord := λ k, if decide (k = i) then [] else L k.

Lemma info_ok_ghost L L' j s : L' (s_index s) = L (s_index s) → info_ok L j s → info_ok L' j s.
Proof. intros HL [? ? ? ? ? ?]. split; rewrite ?HL; done. Qed.

(** The writer with a fresh active segment. *)
Lemma fresh_ok L j w w' f :
  writer_ok L j w → j_active j = None → j_creation_cleanup j = None → j_next_segment_index j + 1 ≤ U64_MAX →
  keeps (λ q, q ≠ next_path j) w w' → handle w' f (next_path j) →
  stable w' (next_path j) (seg_content (j_volume_uuid j) (j_next_segment_index j) (j_next_sequence j) []) →
  let i := j_next_segment_index j in let L' := no_records L i in
  let j' := set_segments (j_sealed j) (Some (fresh_segment i (j_next_sequence j) f)) (i + 1) j in
  writer_ok L' j' w' ∧ advances L j L' j'.
Proof.
  intros Hok Hna Hcl Hmax Hk Hh Hst i L' j'. pose proof (next_path_disk _ _ _ _ Hok Hk) as [Hsh Hd].
  pose proof (sh_none _ _ Hsh Hna) as Hda. pose proof (sh_next _ _ Hsh) as [Hn Hnm].
  pose proof (sh_index _ _ Hsh) as Hix. pose proof (sh_durable _ _ Hsh) as Hdu.
  assert (segments j = j_sealed j) as Hseg by (unfold segments; by rewrite Hna, app_nil_r).
  assert (L' i = []) as HLi by (unfold L', no_records; by rewrite decide_True).
  assert (∀ s, s ∈ j_sealed j → s_index s < i ∧ L' (s_index s) = L (s_index s)) as HL.
  { intros s Hs. pose proof (in_index _ _ _ (sealed_info _ _ _ Hsh Hs)) as Hi'. split; [unfold i; lia|].
    unfold L', no_records. rewrite decide_False; [done|]. unfold i. lia. }
  assert (info_ok L' j' (a_info (fresh_segment i (j_next_sequence j) f))) as Hinfo.
  { unfold fresh_segment. split; simpl; rewrite ?HLi; try done; [unfold i; lia|lia|]. unfold s_end. simpl. lia. }
  assert (durable_count j' (fresh_segment i (j_next_sequence j) f) = 0%nat) as Hdc
    by (unfold durable_count; simpl; lia).
  assert (∀ k, active_records L' (fresh_segment k (j_next_sequence j) f) = L' k) as Hrs by done.
  split; [split|].
  - pose proof (sh_sealed _ _ Hsh). destruct Hsh as [? ? ? ? ? ? Hin Hch ? ? ? ? ?]. rewrite Hseg in Hin, Hch.
    split; try done; [simpl; lia| | | |].
    + unfold segments. simpl. apply Forall_app_2; [|by constructor].
      apply list.Forall_forall. intros s Hs. eapply info_ok_ghost; [by apply HL|].
      eapply info_ok_next; [| |by rewrite list.Forall_forall in Hin; apply Hin]; simpl; lia.
    + unfold segments. simpl. eapply chained_snoc; [done|intros t Ht; by apply HL|done|]. unfold s_end. simpl. lia.
    + intros k Hk'. simpl in Hk'. congruence.
    + intros a [= <-]. split; rewrite ?Hdc, ?Hrs, ?HLi; try done; simpl.
      * lia.
      * unfold s_end. simpl. lia.
      * lia.
      * symmetry. apply Z.ltb_ge. lia.
      * unfold segment_bound, SEGMENT_HEADER_SIZE in *. simpl. lia.
      * symmetry. apply hasher_write_nil.
  - destruct Hd as [? Hse ? ? ?]. split; try done.
    + apply list.Forall_forall. intros s Hs. simpl in *. rewrite list.Forall_forall in Hse.
      rewrite (proj2 (HL s Hs)). by apply Hse.
    + intros a [= <-]. destruct (law_synced _ _ _ (law_stable_synced _ _ _ Hst)) as [Hv Hdi].
      unfold next_path, active_content in *. split; rewrite ?Hdc, ?Hrs, ?HLi; try done.
      * by apply law_stable_solid.
      * eexists _, _. split; [exact Hv|]. by split; [exact Hdi|].
  - split; [done|]. intros k base rs [(s & Hs & <- & Hb & ->)|(a & Ha & _)]; [|congruence].
    exists (L (s_index s)). split; [done|]. left. exists s. by rewrite (proj2 (HL s Hs)).
Qed.

Definition counters j :=
  (j_volume_uuid j, j_segment_size j, j_next_sequence j, j_appended_sequence j, j_holes_allowed_below j).

Lemma advances_cleanup L j c : advances L j L (set_cleanup c j).
Proof. split; [done|]. intros i base rs Ha. by exists rs. Qed.

Lemma advances_mark L j m : advances L j L (set_mark m j).
Proof. split; [done|]. intros i base rs Ha. by exists rs. Qed.

Record roll_spec L j w (r : result CoreError ()) L' j' w' : Prop := {
  ro_ok : writer_ok L' j' w';
  ro_advances : advances L j L' j';
  ro_ghost i : i < j_next_segment_index j → L' i = L i;
  ro_counters : counters j' = counters j;
  ro_segments : match r with
    | Ok _ => ∃ a, j_active j' = Some a ∧ segments j' = segments j ++ [a_info a] ∧
                   a_info a = mkSegmentInfo (j_next_segment_index j) (j_next_sequence j) 0 SEGMENT_HEADER_SIZE ∧
                   a_write_offset a = SEGMENT_HEADER_SIZE ∧
                   j_next_segment_index j' = j_next_segment_index j + 1
    | Err _ => segments j' = segments j ∧ j_next_segment_index j' = j_next_segment_index j
    end;
  ro_keeps : keeps (λ q, ¬ owned q) w w';
  ro_durable : j_durable_sequence j ≤ j_durable_sequence j'
}.

(** A creation that failed: the error is reported, the cleanup is pending
    unless it succeeded at once. *)
Lemma creation_failed_ok L j w i (r : result CoreError ()) j' w' e :
  writer_ok L j w → j_active j = None → i = j_next_segment_index j →
  (let* _ := modify (set_cleanup (Some i)) in
   let* _ := m_try cleanup_failed_creation in
   m_err (CoreIo e)) (j, w) = (r, (j', w')) →
  r = Err (CoreIo e) ∧ writer_ok L j' w' ∧ keeps (λ q, q ≠ next_path j) w w' ∧ ∃ c, j' = set_cleanup c j.
Proof.
  intros Hok Hna -> [([] & [j1 w1] & [= <- <-] & Hr)|(e' & [=] & _)]%m_bind_inv.
  assert (writer_ok L (set_cleanup (Some (j_next_segment_index j)) j) w) as Hok1.
  { split; [apply shape_cleanup; [apply Hok|]; by intros i [= <-]|apply disk_cleanup, Hok]. }
  apply m_bind_inv in Hr as [(rc & [j2 w2] & (rc' & Hc & [= ->])%m_try_inv & [= <- <- <-])|(? & (? & _ & [=])%m_try_inv & _)].
  destruct (cleanup_spec _ _ _ _ _ _ Hok1 Hc) as (Hok2 & Hk & Hj & _). split; [done|]. split; [done|]. split; [done|].
  destruct rc' as [[]|?]; [destruct Hj as [-> _]|subst j2]; by eexists.
Qed.

(** From a sealed writer to the new segment. *)
Lemma roll_create L j w next (r : result CoreError ()) j' w' :
  writer_ok L j w → j_active j = None → j_creation_cleanup j = None →
  checked_add (j_next_segment_index j) 1 = Some next →
  (let* result := io_try (create_segment (j_next_segment_index j) (j_volume_uuid j) (j_next_sequence j)) in
   match result with
   | Ok file =>
       let* _ := modify (λ k, set_segments (j_sealed k)
                   (Some (fresh_segment (j_next_segment_index j) (j_next_sequence j) file)) next k) in
       write_mark (mkDurableMark (j_next_segment_index j) SEGMENT_HEADER_SIZE)
   | Err e =>
       let* _ := modify (set_cleanup (Some (j_next_segment_index j))) in
       let* _ := m_try cleanup_failed_creation in
       m_err (CoreIo e)
   end) (j, w) = (r, (j', w')) →
  ∃ L', roll_spec L j w r L' j' w'.
Proof.
  intros Hok Hna Hcl (-> & Hmax)%checked_add_some Hr.
  apply m_bind_inv in Hr as [(rc & [j1 w1] & (-> & rc' & Hc & [= ->])%io_try_inv & Hr)|(e & (_ & ? & _ & [=])%io_try_inv & _)].
  destruct (create_segment_spec _ _ _ _ _ _ (d_inv _ _ _ (proj2 Hok)) (sh_uuid _ _ (proj1 Hok)) Hc) as (Hk & Hf & _).
  destruct rc' as [f|e].
  - destruct (Hf f eq_refl) as [Hh Hst].
    destruct (fresh_ok L j w w1 f Hok Hna Hcl Hmax Hk Hh Hst) as [Hok1 Hadv].
    apply m_bind_inv in Hr as [([] & [j2 w2] & [= <- <-] & Hr)|(e' & [=] & _)].
    destruct (write_mark_ok _ _ _ _ _ _ _ Hok1 Hr) as (-> & (m & ->) & Hok2 & Hk2).
    exists (no_records L (j_next_segment_index j)). split; [done| | |done| | |done].
    + eapply advances_trans; [exact Hadv|apply advances_mark].
    + intros i Hi. unfold no_records. rewrite decide_False; [done|lia].
    + eexists. split; [done|]. split; [|done]. unfold segments. simpl. by rewrite Hna, app_nil_r.
    + eapply keeps_trans; [eapply keeps_weaken; [|exact Hk]; intros q; apply unowned_segment|].
      eapply keeps_weaken; [|exact Hk2]. intros q Hn. apply (unbarred_mark j). by right.
  - destruct (creation_failed_ok L j w1 _ _ _ _ e (next_path_disk _ _ _ _ Hok Hk) Hna eq_refl Hr) as (-> & Hok1 & Hk2 & c & ->).
    exists L. split; [done|apply advances_cleanup|done|done|by unfold segments| |done].
    eapply keeps_trans; eapply keeps_weaken; [|exact Hk| |exact Hk2]; intros q; apply unowned_segment.
Qed.

Lemma roll_ok L j w r j' w' :
  writer_ok L j w → roll (j, w) = (r, (j', w')) → ∃ L', roll_spec L j w r L' j' w'.
Proof.
  intros Hok [(? & [? ?] & [= <- <- <-] & Hr)|(e & [=] & _)]%m_bind_inv.
  apply m_bind_inv in Hr as [(next & [? ?] & [= Hn <- <-] & Hr)|(e & [= _ <- <-] & ->)].
  2: { exists L. split; [done|apply advances_refl|done..|apply keeps_refl, Hok|done]. }
  apply ok_or_ok in Hn.
  apply m_bind_inv in Hr as [([] & [j1 w1] & Hc & Hr)|(e & Hc & ->)];
    destruct (cleanup_spec _ _ _ _ _ _ Hok Hc) as (Hok1 & Hkc & Hj & _);
    apply (keeps_weaken (λ q, ¬ owned q)) in Hkc; try (intros q; apply unowned_segment).
  2: { subst j'. exists L. by split; [|apply advances_refl|..]. }
  destruct Hj as [-> _]. set (j1 := set_cleanup None j) in *.
  apply m_bind_inv in Hr as [([] & [j2 w2] & Hs & Hr)|(e & Hs & ->)];
    destruct (seal_active_spec _ _ _ _ _ _ Hok1 Hs) as [Hok2 Hcore Hseg Hadv Hks Hdu Hdn _];
    injection Hcore as Hu Hss Hsq Hap Hni Hcl Hho;
    apply (keeps_weaken (λ q, ¬ owned q)) in Hks; try (intros q; by right);
    pose proof (keeps_trans _ _ _ _ Hkc Hks) as Hk12.
  2: { exists L. split; [done|eapply advances_trans; [apply advances_cleanup|exact Hadv]|done| | |done|done].
       - unfold counters. simpl in *. congruence.
       - simpl in *. by rewrite Hseg. }
  apply m_bind_inv in Hr as [(? & [? ?] & [= <- <- <-] & Hr)|(e & [=] & _)].
  simpl in Hni, Hsq. rewrite <- Hni in Hr, Hn.
  destruct (roll_create L j2 w2 next r j' w' Hok2 (Hdn eq_refl) Hcl Hn Hr) as (L' & [Hok3 Hadv3 Hg3 Hc3 Hs3 Hk3 Hd3]).
  exists L'. split; [done| |intros i Hi; apply Hg3; by rewrite Hni| | |by eapply keeps_trans|simpl in *; lia].
  - eapply advances_trans; [apply advances_cleanup|]. by eapply advances_trans.
  - rewrite Hc3. unfold counters. simpl in *. congruence.
  - destruct r; rewrite Hni, Hseg in Hs3; [|done]. rewrite Hsq in Hs3. done.
Qed.

(** ** Appending *)

Lemma write_range_alloc (c data : bytes) :
  write_range (resize (length c + length data) c) (length c) data = c ++ data.
Proof.
  rewrite write_range_inside by (rewrite length_resize; lia). unfold resize.
  rewrite (take_ge c) by lia. rewrite take_app_length. f_equal.
  rewrite drop_ge; [apply app_nil_r|]. rewrite length_app, length_zeros. lia.
Qed.

Section ActiveWrites.
Context L j a (Hsh : shape L j) (Ha : j_active j = Some a).
Local Abbreviation path := (active_path a).
Local Abbreviation content := (active_content j a (active_records L a)).
Local Abbreviation synced_content :=
  (active_content j a (take (durable_count j a) (active_records L a))).
Local Abbreviation torn w := (active_disk L j w (set_tail_cleanup true a)).

(** Nothing lies behind the accepted records. *)
Record tail_clean (w : W) : Prop := {
  tc_inv : inv w;
  tc_handle : handle w (a_file a) path;
  tc_solid : solid w path synced_content;
  tc_vis : vis w path = Some content;
  tc_dirty : ∃ d, dirty w path = Some d ∧ (a_needs_redirty a = false → d = content)
}.

Lemma torn_intro w c d :
  handle w (a_file a) path → solid w path synced_content → vis w path = Some c → dirty w path = Some d →
  content `prefix_of` c → (a_needs_redirty a = false → content `prefix_of` d) → torn w.
Proof.
  intros Hh Hso Hc Hd Hpc Hpd. split; [done|done| |done]. exists c, d. simpl.
  split; [done|]. split; [done|]. split; [done|]. split; [done|]. intros Hre. split; [by apply Hpd|done].
Qed.

Lemma tail_clean_torn w : tail_clean w → torn w.
Proof.
  intros [Hi Hh Hso Hv (d & Hd & Hre)]. eapply torn_intro; [done..|]. intros Hn. by rewrite (Hre Hn).
Qed.

(** Cutting off a torn tail first. *)
Lemma tail_active {A} (k : M (JournalWriter * W) CoreError A) w r j' w' :
  inv w → active_disk L j w a →
  (let* _ := when (a_needs_tail_cleanup a) (io (f_set_len (a_file a) (a_write_offset a))) in k) (j, w) = (r, (j', w')) →
  (∃ w1, keeps (λ q, q ≠ path) w w1 ∧ tail_clean w1 ∧ k (j, w1) = (r, (j', w'))) ∨
  (∃ e, r = Err e ∧ j' = j ∧ keeps (λ q, q ≠ path) w w' ∧ active_disk L j w' a).
Proof.
  intros Hi Had Hr. destruct (a_needs_tail_cleanup a) eqn:Ht; cycle 1.
  { left. exists w. split; [by apply keeps_refl|]. split; [|done].
    destruct Had as [Hh Hso (c & d & Hc & Hd & _ & Hcc & Hdd) _]. rewrite (Hcc Ht) in Hc.
    split; [done..|]. exists d. split; [done|]. intros Hn. by apply (Hdd Hn). }
  assert (busy a) as Hb by (by right).
  apply m_bind_inv in Hr as [([] & [j1 w1] & (-> & r0 & Hs & Hr0)%io_inv & Hr)|(e & (-> & r0 & Hs & Hr0)%io_inv & ->)];
    destruct (set_len_active L j a Hsh Ha w r0 _ Hi Had Hb (or_introl Ht) Hs) as (Hk & Had1 & Hok & _).
  - left. exists w1. split; [done|]. split; [|done]. destruct r0 as [[]|]; [|done].
    destruct (Hok eq_refl) as (Hv & d & Hd & _ & Hre). destruct Had1 as [? ? _ _].
    split; [by eapply keeps_inv|done..|by exists d].
  - right. by exists e.
Qed.

Context (encoded : bytes) (Hne : encoded ≠ []) (Hfit : a_write_offset a + blen encoded ≤ U64_MAX).

Lemma allocate_active w r w' :
  tail_clean w → f_allocate_range (a_file a) (a_write_offset a) (blen encoded) w = (r, w') →
  keeps (λ q, q ≠ path) w w' ∧ torn w' ∧
  (r = Ok tt → vis w' path = Some (resize (length content + length encoded) content) ∧
    ∃ d, dirty w' path = Some d ∧
      (a_needs_redirty a = false → d = resize (length content + length encoded) content)).
Proof.
  intros Htc Hr. pose proof Htc as [Hi Hh Hso Hv (d & Hd & Hre)].
  pose proof (active_offset L j a Hsh Ha) as Hwo. pose proof (blen_nonneg encoded) as Hn0.
  assert (0 < blen encoded) as Hn by (destruct encoded; [done|unfold blen; simpl; lia]).
  destruct (allocate_extends w _ path content (a_write_offset a) (blen encoded) r w' Hi Hh Hv ltac:(pose proof (active_bound L j a Hsh Ha); lia) Hn0 Hfit ltac:(lia) Hr)
    as (w1 & Hk1 & [Hs|(-> & Hno & _)]); cycle 1.
  { split; [by eapply keeps_weaken; [|exact Hk1]|]. split; [|by intros ->].
    eapply active_disk_keeps; [exact Hk1|done|by apply tail_clean_torn]. }
  pose proof (keeps_inv _ _ _ Hk1) as Hi1. pose proof (keeps_handle _ _ _ _ _ Hk1 I Hh) as Hh1.
  pose proof (keeps_vis _ _ _ path Hk1 I) as Hv1. pose proof (keeps_dirty _ _ _ path Hk1 I) as Hd1.
  pose proof (keeps_solid _ _ _ _ _ Hk1 I Hso) as Hso1. rewrite Hv in Hv1. rewrite Hd in Hd1.
  pose proof (active_bound L j a Hsh Ha) as Hbd.
  destruct (law_set_len w1 _ path content d (a_write_offset a + blen encoded) r w' Hi1 Hh1 Hv1 Hd1 ltac:(lia) Hs)
    as (Hk2 & Hh2 & Hok & _).
  destruct (law_torn_set_len w1 _ path content d (a_write_offset a + blen encoded) r w' Hi1 Hh1 Hv1 Hd1 Hs)
    as (c' & d' & Hc' & Hd' & _ & Htorn).
  destruct (Htorn content ltac:(lia)) as [Htc' Htd'].
  pose proof (prefix_length _ _ (synced_prefix L j a)) as Hsl.
  split; [eapply keeps_trans; [by eapply keeps_weaken; [|exact Hk1]|done]|]. split.
  - eapply torn_intro; [done| |done|done|by apply Htc'|]; [|intros Hn'; apply Htd'; by rewrite (Hre Hn')].
    eapply law_solid_set_len; [done|done|done| |done]. unfold blen in *. lia.
  - intros Hrok. destruct (Hok Hrok) as [Hv2 Hd2].
    replace (Z.to_nat (a_write_offset a + blen encoded)) with (length content + length encoded)%nat in *
      by (unfold blen in *; lia).
    split; [done|]. eexists. split; [done|]. intros Hn'. by rewrite (Hre Hn').
Qed.

Lemma write_active w d r w' :
  inv w → torn w → vis w path = Some (resize (length content + length encoded) content) →
  dirty w path = Some d →
  (a_needs_redirty a = false → d = resize (length content + length encoded) content) →
  f_write_at (a_file a) (a_write_offset a) encoded w = (r, w') →
  keeps (λ q, q ≠ path) w w' ∧ torn w' ∧
  (r = Ok tt → vis w' path = Some (content ++ encoded) ∧
    ∃ d', dirty w' path = Some d' ∧ (a_needs_redirty a = false → d' = content ++ encoded)).
Proof.
  intros Hi [Hh Hso _ _] Hv Hd Hre Hr. pose proof (active_offset L j a Hsh Ha) as Hwo.
  pose proof (active_bound L j a Hsh Ha) as Hbd.
  assert (Z.to_nat (a_write_offset a) = length content) as Hwn by (unfold blen in *; lia).
  destruct (law_write w _ path _ _ (a_write_offset a) encoded r w' Hi Hh Hv Hd ltac:(lia) Hfit Hne Hr) as (Hk & Hh' & Hok & _).
  destruct (law_torn_write w _ path _ _ (a_write_offset a) encoded r w' Hi Hh Hv Hd ltac:(lia) Hr)
    as (c' & d' & Hc' & Hd' & _ & Htorn).
  destruct (Htorn content ltac:(lia)) as [Htc' Htd'].
  pose proof (prefix_length _ _ (synced_prefix L j a)) as Hsl.
  assert (content `prefix_of` resize (length content + length encoded) content) as Hpre.
  { unfold resize. rewrite take_ge by lia. by apply prefix_app_r. }
  split; [done|]. split.
  - eapply torn_intro; [done| |done|done|by apply Htc'|intros Hn; apply Htd'; by rewrite (Hre Hn)].
    eapply law_solid_write; [done|done|done| |done]. unfold blen in *. simpl in *. lia.
  - intros Hrok. destruct (Hok Hrok) as [Hv2 Hd2]. rewrite Hwn, write_range_alloc in Hv2.
    split; [done|]. eexists. split; [done|]. intros Hn. by rewrite (Hre Hn), Hwn, write_range_alloc.
Qed.
End ActiveWrites.

Definition extend L (i : Z) (rec : JournalRecord) : Z → list JournalRecord :=
  λ k, if decide (k = i) then L i ++ [rec] else L k.

Lemma extend_eq L i rec : extend L i rec i = L i ++ [rec].
Proof. unfold extend. by rewrite decide_True. Qed.

Lemma extend_ne L i rec k : k ≠ i → extend L i rec k = L k.
Proof. intros. unfold extend. by rewrite decide_False. Qed.

Lemma encode_records_one rec : encode_records [rec] = encode_record rec.
Proof. apply app_nil_r. Qed.

Lemma chained_last holes fin fin' l s s' :
  chained holes fin (l ++ [s]) → s_index s' = s_index s → s_base_sequence s' = s_base_sequence s →
  s_end s' = fin' → chained holes fin' (l ++ [s']).
Proof.
  intros Hc Hi Hb He. induction l as [|t l IH]; simpl in *; [by split; [left|]|].
  destruct Hc as [Hh Hc]. split; [|by apply IH]. destruct l as [|u l]; simpl in *; [|done]. by rewrite Hi, Hb.
Qed.

(** The writer after an accepted record. *)
Definition accepted (rec : JournalRecord) (a : ActiveSegment) j : JournalWriter :=
  set_sequences (j_next_sequence j + 1) (j_next_sequence j) (set_active (accept (encode_record rec) a) j).

Section Accept.
Context L j (w w' : W) a (rec : JournalRecord) (Hok : writer_ok L j w) (Ha : j_active j = Some a).
Context (Hseq : sequence rec = j_next_sequence j) (Hrec : record_ok rec) (Hmax : j_next_sequence j + 1 ≤ U64_MAX).
Context (Hfit : a_write_offset a + blen (encode_record rec) ≤ segment_bound (j_segment_size j)).
Local Abbreviation L' := (extend L (s_index (a_info a)) rec).
Local Abbreviation a' := (accept (encode_record rec) a).
Local Abbreviation j' := (accepted rec a j).

Lemma accepted_records : active_records L' a' = active_records L a ++ [rec].
Proof. unfold active_records. simpl. apply extend_eq. Qed.

Lemma accepted_info : s_record_count (a_info a') = s_record_count (a_info a) + 1 ∧
  a_write_offset a' = a_write_offset a + blen (encode_record rec) ∧
  s_size (a_info a') = a_write_offset a'.
Proof.
  pose proof (proj1 Hok) as Hsh. pose proof (active_info _ _ _ Hsh Ha) as Hin.
  pose proof (active_bound _ _ _ Hsh Ha). pose proof (blen_nonneg (encode_record rec)).
  pose proof (segment_bound_u64 _ (proj2 (sh_segment_size _ _ Hsh))).
  pose proof (in_end _ _ _ Hin) as He. pose proof (in_base _ _ _ Hin). unfold s_end in He.
  pose proof (in_count _ _ _ Hin). pose proof (blen_nonneg (L (s_index (a_info a)))).
  simpl. rewrite !add64_small by (unfold U64_MAX in *; lia). done.
Qed.

Lemma accepted_count : durable_count j' a' = durable_count j a ∧
  (durable_count j a ≤ length (active_records L a))%nat.
Proof.
  split; [done|]. pose proof (proj1 Hok) as Hsh. pose proof (synced_count _ _ _ Hsh Ha) as Hc.
  pose proof (sh_durable _ _ Hsh). unfold durable_count, blen in *. lia.
Qed.

Lemma accepted_content : active_content j' a' (active_records L' a') =
  active_content j a (active_records L a) ++ encode_record rec.
Proof.
  rewrite accepted_records. unfold active_content. simpl. by rewrite content_app, encode_records_one.
Qed.

Lemma accepted_active : active_shape L' j' a'.
Proof.
  pose proof (proj1 Hok) as Hsh. pose proof (sh_active _ _ Hsh a Ha) as Has.
  destruct accepted_info as (Hcnt & Hwo & Hsz). destruct accepted_count as [Hdc Hle].
  pose proof (sh_durable _ _ Hsh). pose proof (sh_next _ _ Hsh). pose proof (active_info _ _ _ Hsh Ha) as Hin.
  split; rewrite ?Hdc, ?accepted_records; try done.
  - apply (as_first _ _ _ Has).
  - unfold s_end in *. rewrite Hcnt. simpl. pose proof (as_end _ _ _ Has). unfold s_end in *. lia.
  - apply (as_base _ _ _ Has).
  - rewrite take_app_le by done. apply (as_synced _ _ _ Has).
  - simpl. symmetry. apply Z.ltb_lt. lia.
  - by rewrite Hwo.
  - rewrite skipn_app, encode_records_app. replace (durable_count j a - _)%nat with 0%nat by lia.
    rewrite drop_0, encode_records_one, hasher_write_app. simpl. by rewrite (as_fingerprint _ _ _ Has).
Qed.

Lemma accepted_shape : shape L' j'.
Proof.
  pose proof (proj1 Hok) as Hsh. pose proof (sh_active _ _ Hsh a Ha) as Has.
  destruct accepted_info as (Hcnt & Hwo & Hsz). pose proof accepted_active as Hact.
  pose proof (active_info _ _ _ Hsh Ha) as Hin. pose proof (sealed_lt_active L j a) as Hlt.
  pose proof (sh_next _ _ Hsh) as [Hn _]. pose proof (sh_durable _ _ Hsh) as Hdu.
  assert (info_ok L' j' (a_info a')) as Hinfo.
  { pose proof (in_count _ _ _ Hin). destruct Hin as [? ? Hrs ? Hszi Hend].
    split; rewrite ?extend_eq; try done.
    - simpl. rewrite ?extend_eq. apply consecutive_app. split; [done|]. simpl. unfold s_end in Hend.
      pose proof (as_end _ _ _ Has) as He. unfold s_end in He. rewrite Hseq. split; [lia|]. split; [done|]. lia.
    - rewrite Hcnt. simpl. rewrite ?extend_eq, blen_app. unfold blen at 2. simpl. lia.
    - rewrite Hsz, Hwo, (as_offset _ _ _ Has), Hszi. simpl.
      rewrite ?extend_eq, encode_records_app, blen_app, encode_records_one. lia.
    - rewrite (as_end _ _ _ Hact). done. }
  pose proof (as_end _ _ _ Hact) as Hfin. pose proof (sh_infos _ _ Hsh) as Hins. pose proof (sh_chain _ _ Hsh) as Hch.
  unfold segments in Hins, Hch. rewrite Ha in Hins, Hch. apply Forall_app in Hins as [Hins _].
  pose proof (sh_sealed _ _ Hsh). pose proof (sh_cleanup _ _ Hsh) as Hcu. pose proof (sh_proof _ _ Hsh).
  destruct Hsh as [? ? ? ? ? ? _ _ ? _ _ _ ?]. split; try done.
  - simpl. lia.
  - unfold segments. simpl. apply Forall_app_2; [|by constructor]. apply list.Forall_forall. intros s Hs.
    rewrite list.Forall_forall in Hins. eapply info_ok_ghost;
      [|eapply info_ok_next; [| |by apply Hins]; simpl; lia].
    apply extend_ne. assert (s_index s < s_index (a_info a)); [by eapply chained_before|lia].
  - unfold segments. simpl. eapply chained_last; [exact Hch|done..].
  - intros i Hi. destruct (Hcu i Hi). congruence.
  - by intros ? [= <-].
Qed.

Lemma accepted_ok :
  keeps (λ q, q ≠ active_path a) w w' → handle w' (a_file a) (active_path a) →
  solid w' (active_path a) (active_content j a (take (durable_count j a) (active_records L a))) →
  vis w' (active_path a) = Some (active_content j a (active_records L a) ++ encode_record rec) →
  (∃ d, dirty w' (active_path a) = Some d ∧
    (a_needs_redirty a = false → d = active_content j a (active_records L a) ++ encode_record rec)) →
  writer_ok L' j' w' ∧ advances L j L' j'.
Proof.
  intros Hk Hh Hso Hv (d & Hd & Hre). pose proof (proj1 Hok) as Hsh.
  destruct accepted_count as [Hdc Hle]. split; [split; [apply accepted_shape|]|].
  - eapply (disk_active L j w w' a); try done; [apply Hok| |].
    { intros s Hs. apply extend_ne. pose proof (sealed_lt_active _ _ _ _ Hsh Ha Hs). lia. }
    split; [done| | |done].
    + rewrite Hdc, accepted_records, take_app_le by done. done.
    + rewrite accepted_content. eexists _, d. split; [exact Hv|]. split; [exact Hd|]. split; [done|].
      split; [done|]. intros Hn. by rewrite (Hre Hn).
  - split; [done|]. intros i base rs [(s & Hs & <- & Hb & ->)|(a0 & Ha0 & <- & Hb & ->)].
    + exists (L (s_index s)). split; [done|]. left. exists s. split; [done|]. split; [done|]. split; [done|].
      symmetry. apply extend_ne. pose proof (sealed_lt_active _ _ _ _ Hsh Ha Hs). lia.
    + rewrite Ha in Ha0. injection Ha0 as <-. exists (take (durable_count j a) (L (s_index (a_info a)))).
      split; [done|]. right. exists a'. rewrite Hdc. split; [done|]. split; [done|]. split; [done|].
      by rewrite extend_eq, take_app_le.
Qed.
End Accept.

(** A failed append leaves a tail to clean up. *)
Lemma torn_ok L j w w' a :
  writer_ok L j w → j_active j = Some a → keeps (λ q, q ≠ active_path a) w w' →
  active_disk L j w' (set_tail_cleanup true a) →
  writer_ok L (set_active (set_tail_cleanup true a) j) w'.
Proof.
  intros [Hsh Hd] Ha Hk Had. split.
  - apply (shape_core L j); [done|done|by simpl; rewrite Ha|simpl; pose proof (sh_durable _ _ Hsh); lia| |apply Hsh].
    intros a' [= <-]. eapply (active_shape_core L j); [done..|].
    destruct (sh_active _ _ Hsh a Ha). by split.
  - eapply (disk_active L j w w' a); try done. by eapply active_disk_core; [| |exact Had].
Qed.

(** An operation that accepted nothing. *)
Definition unchanged j j' : Prop :=
  core j' = core j ∧ a_info <$> j_active j' = a_info <$> j_active j ∧ j_durable_sequence j' = j_durable_sequence j.

Lemma unchanged_advances L j j' : unchanged j j' → advances L j L j'.
Proof. intros (Hc & Hi & Hd). apply advances_core; [done..|lia]. Qed.

Lemma encode_record_nonnil rec : encode_record rec ≠ [].
Proof. intros He. pose proof (length_encode_record rec) as Hl. rewrite He in Hl. done. Qed.

Lemma append_record_ok L j w a rec r j' w' :
  writer_ok L j w → j_active j = Some a → sequence rec = j_next_sequence j → record_ok rec →
  j_next_sequence j + 1 ≤ U64_MAX →
  a_write_offset a + blen (encode_record rec) ≤ segment_bound (j_segment_size j) →
  append_record (j_next_sequence j + 1) (j_next_sequence j) (unit_index rec) (payload rec) (j, w) = (r, (j', w')) →
  keeps (λ q, q ≠ active_path a) w w' ∧
  match r with
  | Ok n => n = j_next_sequence j ∧ j' = accepted rec a j ∧
            writer_ok (extend L (s_index (a_info a)) rec) j' w' ∧
            advances L j (extend L (s_index (a_info a)) rec) j'
  | Err _ => writer_ok L j' w' ∧ unchanged j j'
  end.
Proof.
  intros Hok Ha Hseq Hrec Hmax Hfit. unfold append_record.
  assert (mkJournalRecord (j_next_sequence j) (unit_index rec) (payload rec) = rec) as ->
    by (rewrite <- Hseq; by destruct rec).
  intros [(? & [? ?] & [= <- <- <-] & Hr)|(e & [=] & _)]%m_bind_inv. rewrite Ha in Hr.
  pose proof (proj1 Hok) as Hsh. pose proof (d_inv _ _ _ (proj2 Hok)) as Hi.
  pose proof (d_active _ _ _ (proj2 Hok) a Ha) as Had.
  assert (unchanged j (set_active (set_tail_cleanup true a) j)) as Hunch by (split; [done|]; simpl; by rewrite Ha).
  assert (a_write_offset a + blen (encode_record rec) ≤ U64_MAX) as Hfit'.
  { pose proof (segment_bound_u64 _ (proj2 (sh_segment_size _ _ Hsh))). unfold U64_MAX. lia. }
  pose proof (encode_record_nonnil rec) as Hne.
  destruct (tail_active L j a Hsh Ha _ w r j' w' Hi Had Hr) as [(w1 & Hk1 & Htc & Hr1)|(e & -> & -> & Hk & Had')]; cycle 1.
  { split; [done|]. split; [|done]. split; [done|]. apply (disk_active L j w w' a L j a); try done. apply Hok. }
  clear Hr. rename Hr1 into Hr. apply m_bind_inv in Hr as [([] & [? ?] & [= <- <-] & Hr)|(e & [=] & _)].
  apply m_bind_inv in Hr as [([] & [j2 w2] & (-> & ra & Hal & Hra)%io_inv & Hr)|(e & (-> & ra & Hal & Hra)%io_inv & ->)];
    destruct (allocate_active L j a Hsh Ha _ Hne Hfit' w1 ra _ Htc Hal) as (Hk2 & Htorn2 & Hok2);
    pose proof (keeps_trans _ _ _ _ Hk1 Hk2) as Hk12; [|split; [done|split; [by eapply torn_ok|done]]].
  destruct ra as [[]|]; [|done]. destruct (Hok2 eq_refl) as (Hv2 & d & Hd2 & Hre2).
  apply m_bind_inv in Hr as [([] & [j3 w3] & (-> & rw & Hw & Hrw)%io_inv & Hr)|(e & (-> & rw & Hw & Hrw)%io_inv & ->)];
    destruct (write_active L j a Hsh Ha _ Hne Hfit' w2 d rw _ (keeps_inv _ _ _ Hk2) Htorn2 Hv2 Hd2 Hre2 Hw) as (Hk3 & Htorn3 & Hok3);
    pose proof (keeps_trans _ _ _ _ Hk12 Hk3) as Hk13; [|split; [done|split; [by eapply torn_ok|done]]].
  destruct rw as [[]|]; [|done]. destruct (Hok3 eq_refl) as (Hv3 & Hd3). destruct Htorn3 as [Hh3 Hso3 _ _].
  apply m_bind_inv in Hr as [([] & [j4 w4] & [= <- <-] & [= <- <- <-])|(e & [=] & _)].
  split; [done|]. split; [done|]. split; [done|].
  exact (accepted_ok L j w w3 a rec Hok Ha Hseq Hrec Hmax Hfit Hk13 Hh3 Hso3 Hv3 Hd3).
Qed.

(** ** The log *)

(** Every accepted record still on disk, oldest first. *)
Definition log L j : list JournalRecord := segments j ≫= λ s, L (s_index s).

(** The sizes a journal limit bounds, and the active segment as the append
    projection sees it. *)
Definition disk_bytes j : Z := foldr (λ s n, s_size s + n) 0 (segments j).
Definition active_state j : option (Z * Z) :=
  (λ a, (a_write_offset a, s_record_count (a_info a))) <$> j_active j.

Lemma log_ghost L L' (segs : list SegmentInfo) :
  (∀ s, s ∈ segs → L' (s_index s) = L (s_index s)) → (segs ≫= λ s, L' (s_index s)) = (segs ≫= λ s, L (s_index s)).
Proof.
  induction segs as [|s segs IH]; intros HL; [done|]. simpl. rewrite HL by (by left). f_equal.
  apply IH. intros t Ht. apply HL. by right.
Qed.

Lemma log_core L j j' :
  core j' = core j → a_info <$> j_active j' = a_info <$> j_active j → log L j' = log L j.
Proof. intros Hc Hi. unfold log. by rewrite (segments_core _ _ Hc Hi). Qed.

Lemma sizes_app l k :
  foldr (λ s n, s_size s + n) 0 (l ++ k) = foldr (λ s n, s_size s + n) 0 l + foldr (λ s n, s_size s + n) 0 k.
Proof. induction l as [|s l IH]; simpl; [lia|]. rewrite IH. lia. Qed.

Lemma roll_log L j w r L' j' w' : shape L j → roll_spec L j w r L' j' w' → log L' j' = log L j.
Proof.
  intros Hsh [[Hsh' _] _ Hg _ Hs _ _].
  assert ((segments j ≫= λ s, L' (s_index s)) = log L j) as Hold.
  { apply log_ghost. intros s Hs'. apply Hg. pose proof (sh_infos _ _ Hsh) as Hin.
    rewrite list.Forall_forall in Hin. by apply (in_index _ _ _ (Hin s Hs')). }
  destruct r as [[]|e]; [|destruct Hs as [Hseg _]; unfold log; by rewrite Hseg].
  destruct Hs as (a & Ha & Hseg & Hinf & _). unfold log at 1. rewrite Hseg, bind_app, Hold.
  pose proof (in_count _ _ _ (active_info _ _ _ Hsh' Ha)) as Hc. rewrite Hinf in Hc. simpl in Hc.
  rewrite Hinf. simpl. unfold blen in Hc. destruct (L' (j_next_segment_index j)); [|simpl in Hc; lia].
  by rewrite !app_nil_r.
Qed.

Lemma accepted_log L j a rec :
  shape L j → j_active j = Some a →
  log (extend L (s_index (a_info a)) rec) (accepted rec a j) = log L j ++ [rec].
Proof.
  intros Hsh Ha. unfold log, segments. rewrite Ha. simpl. rewrite !bind_app. simpl.
  rewrite extend_eq, !app_nil_r, (assoc_L (++)). do 2 f_equal. apply log_ghost. intros s Hs.
  apply extend_ne. pose proof (sealed_lt_active _ _ _ _ Hsh Ha Hs). lia.
Qed.

(** What an append does, whatever it returns. *)
Record append_spec L j w (rec : JournalRecord) (r : result CoreError Z) L' j' w' : Prop := {
  ap_ok : writer_ok L' j' w';
  ap_advances : advances L j L' j';
  ap_frame : j_volume_uuid j' = j_volume_uuid j ∧ j_segment_size j' = j_segment_size j;
  ap_log : match r with
    | Ok n => n = j_next_sequence j ∧ log L' j' = log L j ++ [rec] ∧
              j_appended_sequence j' = j_appended_sequence j + 1 ∧
              (active_state j', disk_bytes j') =
                Footprint.append_one (j_segment_size j) (active_state j, disk_bytes j)
                  (blen (encode_record rec))
    | Err _ => log L' j' = log L j ∧ j_appended_sequence j' = j_appended_sequence j
    end;
  ap_keeps : keeps (λ q, ¬ owned q) w w';
  ap_durable : j_durable_sequence j ≤ j_durable_sequence j' ≤ j_appended_sequence j
}.

Lemma check_append_spec L j len next needs_roll :
  shape L j → 0 ≤ len ≤ MAX_PAYLOAD → check_append j len = Ok (next, needs_roll) →
  next = j_next_sequence j + 1 ∧ j_next_sequence j + 1 ≤ U64_MAX ∧
  needs_roll = match j_active j with
    | None => true
    | Some a => (0 <? s_record_count (a_info a)) && (j_segment_size j <? a_write_offset a + (32 + len))
    end.
Proof.
  intros Hsh Hlen Hc. unfold check_append in Hc. inv_res. apply checked_add_some in Hv as [-> Hmax].
  subst next needs_roll. split; [done|]. split; [done|].
  assert (MAX_PAYLOAD = 2 ^ 24) as HM by reflexivity.
  destruct (j_active j) as [a|] eqn:Ha; [|done]. pose proof (active_bound _ _ _ Hsh Ha).
  rewrite (add64_small 32 len), add64_small by (unfold U64_MAX; lia). done.
Qed.

(** The record fits the segment it goes to. *)
Lemma no_roll_fits L j a len :
  shape L j → j_active j = Some a → len ≤ MAX_PAYLOAD →
  (0 <? s_record_count (a_info a)) && (j_segment_size j <? a_write_offset a + (32 + len)) = false →
  a_write_offset a + (32 + len) ≤ segment_bound (j_segment_size j).
Proof.
  intros Hsh Ha Hlen Hroll. unfold segment_bound. apply andb_false_iff in Hroll as [Hc|Hc].
  - apply Z.ltb_ge in Hc. pose proof (active_info _ _ _ Hsh Ha) as Hin. rewrite (in_count _ _ _ Hin) in Hc.
    pose proof (sh_active _ _ Hsh a Ha) as Has. rewrite (as_offset _ _ _ Has), (in_size _ _ _ Hin).
    unfold blen in Hc. destruct (L (s_index (a_info a))); [|simpl in Hc; lia].
    change (blen (encode_records [])) with 0. unfold SEGMENT_HEADER_SIZE, RECORD_HEADER_SIZE. lia.
  - apply Z.ltb_ge in Hc. lia.
Qed.

Lemma append_into L j w a rec r j' w' :
  writer_ok L j w → j_active j = Some a → sequence rec = j_next_sequence j → record_ok rec →
  j_next_sequence j + 1 ≤ U64_MAX →
  (0 <? s_record_count (a_info a)) && (j_segment_size j <? a_write_offset a + (32 + blen (payload rec))) = false →
  append_record (j_next_sequence j + 1) (j_next_sequence j) (unit_index rec) (payload rec) (j, w) = (r, (j', w')) →
  ∃ L', append_spec L j w rec r L' j' w'.
Proof.
  intros Hok Ha Hseq Hrec Hmax Hroll Hr. pose proof (proj1 Hok) as Hsh.
  assert (blen (encode_record rec) = 32 + blen (payload rec)) as Hlen.
  { unfold blen. rewrite length_encode_record. unfold HEADER. lia. }
  assert (a_write_offset a + blen (encode_record rec) ≤ segment_bound (j_segment_size j)) as Hfit.
  { rewrite Hlen. eapply no_roll_fits; [done|done|apply Hrec|done]. }
  pose proof (append_record_ok L j w a rec r j' w' Hok Ha Hseq Hrec Hmax Hfit Hr) as [Hk Hs].
  apply (keeps_weaken (λ q, ¬ owned q)) in Hk; [|intros q; apply unowned_segment]. pose proof (sh_durable _ _ Hsh) as Hdu.
  destruct r as [n|e].
  - destruct Hs as (-> & -> & Hok' & Hadv). eexists. split; [exact Hok'|exact Hadv|done| |done|simpl; lia].
    split; [done|]. split; [by apply accepted_log|].
    destruct (accepted_info L j w a rec Hok Ha Hmax Hfit) as (Hcnt & Hwo & Hsz).
    pose proof (sh_next _ _ Hsh). split; [simpl; lia|].
    unfold Footprint.append_one, active_state, disk_bytes, segments. rewrite Ha. cbn [fmap option_fmap option_map].
    rewrite Hlen, Hroll. simpl j_active. simpl j_sealed. cbn [fmap option_fmap option_map].
    rewrite Hcnt, Hwo, !sizes_app. simpl foldr. simpl in Hsz. simpl in Hwo. rewrite Hwo.
    rewrite <- (as_offset _ _ _ (sh_active _ _ Hsh a Ha)). rewrite Hlen. f_equal. lia.
  - destruct Hs as (Hok' & Hun). pose proof (unchanged_advances L _ _ Hun) as Hadv.
    destruct Hun as (Hc & Hi & Hd). exists L. pose proof (core_eq _ _ Hc) as (Hu & Hss & _ & Hap & _).
    split; [done|done|done| |done|lia]. split; [by apply log_core|done].
Qed.

Lemma append_ok L j w unit_index payload r j' w' :
  writer_ok L j w → u64_ok unit_index → blen payload ≤ MAX_PAYLOAD →
  append unit_index payload (j, w) = (r, (j', w')) →
  ∃ L', append_spec L j w (mkJournalRecord (j_next_sequence j) unit_index payload) r L' j' w'.
Proof.
  intros Hok Hui Hpl. pose proof (proj1 Hok) as Hsh. set (rec := mkJournalRecord _ _ _).
  intros [(? & [? ?] & [= <- <- <-] & Hr)|(e & [=] & _)]%m_bind_inv.
  apply m_bind_inv in Hr as [([next needs_roll] & [? ?] & [= Hc <- <-] & Hr)|(e & [= _ <- <-] & ->)].
  2: { exists L. split; [done|apply advances_refl|done|done|apply keeps_refl, Hok|]. pose proof (sh_durable _ _ Hsh). lia. }
  destruct (check_append_spec _ _ _ _ _ Hsh (conj (blen_nonneg _) Hpl) Hc) as (-> & Hmax & Hneed).
  pose proof (sh_next _ _ Hsh) as [Hn _]. pose proof (sh_durable _ _ Hsh).
  assert (record_ok rec) as Hrec by (split; [|by split]; unfold u64_ok, U64_MAX in *; simpl; lia).
  destruct needs_roll; cycle 1.
  { apply m_bind_inv in Hr as [([] & [? ?] & [= <- <-] & Hr)|(e & [=] & _)].
    destruct (j_active j) as [a|] eqn:Ha; [|done]. by eapply (append_into L j w a rec). }
  apply m_bind_inv in Hr as [([] & [j1 w1] & Hro & Hr)|(e & Hro & ->)];
    destruct (roll_ok _ _ _ _ _ _ Hok Hro) as (L1 & Hroll); pose proof (roll_log _ _ _ _ _ _ _ Hsh Hroll) as Hlog;
    destruct Hroll as [Hok1 Hadv1 Hg1 Hc1 Hs1 Hk1 Hd1]; injection Hc1 as Hu Hss Hsq Hap Hho;
    pose proof (sh_durable _ _ (proj1 Hok1)) as Hdu1; rewrite Hap in Hdu1; cycle 1.
  { exists L1. split; [done|done|done|done|done|lia]. }
  destruct Hs1 as (a & Ha & Hseg & Hinf & Hwo & _). rewrite <- Hsq in Hr.
  eapply (append_into L1 j1 w1 a rec) in Hr as (L' & [Hok' Hadv' Hfr Hlog' Hk' Hd']); [|done|done|by rewrite Hsq|done|by rewrite Hsq|by rewrite Hinf].
  exists L'. split; [done|by eapply advances_trans|by rewrite <- Hu, <- Hss| |by eapply keeps_trans|rewrite Hap in Hd'; lia].
  rewrite Hlog, Hsq, Hap, Hss in Hlog'. destruct r as [n|e]; [|done].
  destruct Hlog' as (-> & ? & ? & Hfoot). split; [done|]. split; [done|]. split; [done|]. rewrite Hfoot.
  unfold active_state at 1, disk_bytes at 1. rewrite Ha, Hseg, sizes_app, Hinf. simpl foldr. cbn [fmap option_fmap option_map].
  rewrite Hwo, Hinf. unfold Footprint.append_one at 1. cbn [s_record_count]. change (0 <? 0) with false. cbn [andb].
  assert (blen (encode_record rec) = 32 + blen payload) as Hlen.
  { unfold blen. rewrite length_encode_record. unfold HEADER, rec. simpl. lia. }
  unfold active_state, Footprint.append_one. fold (disk_bytes j). destruct (j_active j) as [b|]; cbn [fmap option_fmap option_map].
  - rewrite Hlen, <- Hneed.
    Footprint.tup.
  - Footprint.tup.
Qed.

(** ** The whole barrier *)

Definition all_durable L j (w : W) : Prop :=
  Forall (λ s, stable w (journal_segment (s_index s))
    (seg_content (j_volume_uuid j) (s_index s) (s_base_sequence s) (L (s_index s)))) (segments j).

Record sync_spec L j w (r : result CoreError Z) j' w' : Prop := {
  sy_ok : writer_ok L j' w';
  sy_advances : advances L j L j';
  sy_counters : counters j' = counters j;
  sy_segments : segments j' = segments j;
  sy_done n : r = Ok n → n = j_appended_sequence j ∧ j_durable_sequence j' = n ∧ all_durable L j' w' ∧
    j_creation_cleanup j' = None ∧ (∀ i, j_creation_cleanup j = Some i → absent w' (journal_segment i)) ∧
    (j_durable_sequence j < n → n ≤ durable_sequence (j_proof j'));
  sy_quiet : quiet w → is_ok r = true ∨ proof_refused j w;
  sy_keeps : keeps (λ q, ¬ owned q) w w';
  sy_durable : j_durable_sequence j ≤ j_durable_sequence j'
}.

Lemma idle_all_durable L j w :
  writer_ok L j w → (∀ a, j_active j = Some a → a_unsynced a = false ∧ a_needs_tail_cleanup a = false) →
  all_durable L j w.
Proof.
  intros [Hsh Hd] Hid. unfold all_durable, segments. apply Forall_app_2; [apply Hd|].
  destruct (j_active j) as [a|] eqn:Ha; [|done]. constructor; [|done].
  destruct (Hid a eq_refl) as [Hu Ht]. apply (ad_idle _ _ _ _ (d_active _ _ _ Hd a Ha) Hu Ht).
Qed.

Lemma sync_ok L j w r j' w' :
  writer_ok L j w → sync (j, w) = (r, (j', w')) → sync_spec L j w r j' w'.
Proof.
  intros Hok [([] & [j1 w1] & Hc & Hr)|(e & Hc & ->)]%m_bind_inv;
    destruct (cleanup_spec _ _ _ _ _ _ Hok Hc) as (Hok1 & Hk1 & Hj & Hq1);
    assert (keeps (λ q, ¬ owned q) w _) as Hkc by (eapply keeps_weaken; [|exact Hk1]; intros q; apply unowned_segment).
  2: { subst j'. split; [done|apply advances_refl|done|done|done| |done|done]. intros Hq. by specialize (Hq1 Hq). }
  destruct Hj as [-> Hab]. set (j1 := set_cleanup None j) in *.
  apply m_bind_inv in Hr as [([] & [j2 w2] & Hs & Hr)|(e & Hs & ->)];
    destruct (sync_active_spec _ _ _ _ _ _ Hok1 Hs) as [Hok2 Hcore Hinf Hdur Hk2 Hdn Hq2];
    pose proof (segments_core _ _ Hcore Hinf) as Hseg;
    pose proof (advances_trans _ _ _ _ _ _ (advances_cleanup L j None) (advances_core L _ _ Hcore Hinf Hdur)) as Hadv;
    pose proof (core_eq _ _ Hcore) as (Hu & Hss & Hn & Hap & Hse & Hni & Hcl & Hho);
    assert (counters _ = counters j) as Hcnt by (unfold counters; rewrite Hu, Hss, Hn, Hap, Hho; reflexivity);
    assert (keeps (λ q, ¬ owned q) w _) as Hk12
      by (eapply keeps_trans; [exact Hkc|]; eapply keeps_weaken; [|exact Hk2]; by right).
  2: { split; [done|done|done|done|done| |done|done]. intros Hq. right.
       destruct (Hq2 (keeps_quiet _ _ _ Hk1 Hq)) as [[=]|Hpr]. apply (proof_refused_keeps j w w1); [|exact Hpr].
       eapply keeps_weaken; [|exact Hk1]. intros q Hq' ->. by apply (segment_not_proof _ Hq'). }
  destruct (Hdn eq_refl) as (Hda & Hidle & Hpr).
  apply m_bind_inv in Hr as [([] & [j3 w3] & [= <- <-] & Hr)|(e & [=] & _)].
  assert (set_durable (j_appended_sequence j2) j2 = j2) as Heq.
  { rewrite Hap, <- Hda. by destruct j2. }
  simpl in Hr. rewrite Heq in Hr. injection Hr as <- <- <-.
  split; [done|done|done|done| |by left|done|done].
  intros n [= <-]. split; [done|]. split; [done|]. split; [by apply idle_all_durable|]. split; [done|]. split.
  - intros i Hi. destruct (sh_cleanup _ _ (proj1 Hok) i Hi) as [_ ->].
    eapply keeps_absent; [exact Hk2|by left|by apply Hab].
  - rewrite Hda. exact Hpr.
Qed.

(** ** Deleting covered segments *)

Lemma chained_drop holes fin l k : chained holes fin (l ++ k) → chained holes fin k.
Proof. induction l as [|s l IH]; [done|]. intros [_ Hc]. by apply IH. Qed.

Lemma last_sequence_end L j s : shape L j → info_ok L j s → last_sequence s = Z.max 0 (s_end s - 1).
Proof.
  intros Hsh [Hi Hb Hrs Hc Hsz He]. pose proof (sh_next _ _ Hsh). unfold last_sequence, s_end in *.
  pose proof (blen_nonneg (L (s_index s))). destruct (Z.ltb_spec 0 (s_record_count s)).
  - rewrite add64_small, sub64_small by lia. lia.
  - unfold saturating_sub. lia.
Qed.

Definition surviving (c : Z) (segs : list SegmentInfo) : list SegmentInfo :=
  List.filter (λ s, negb (covered c s)) segs.

Lemma elem_of_surviving c segs s : s ∈ surviving c segs ↔ covered c s = false ∧ s ∈ segs.
Proof.
  unfold surviving. rewrite !list_elem_of_In, filter_In, negb_true_iff. naive_solver.
Qed.

(** A covered segment behind one that is not lies below the holes, and so do
    its neighbours. *)
Lemma chained_skip holes fin c s t k :
  0 ≤ c → c + 1 < s_end s → s_end t ≤ c + 1 → s_base_sequence t ≤ s_end t →
  chained holes fin (s :: t :: k) → chained holes fin (s :: k).
Proof.
  intros Hc Hs Ht Hb [[Hst Hl] [Htk Hk]]. destruct Hl as [Hl|[Hl1 Hl2]]; [lia|].
  destruct k as [|x k]; (split; [|done]); [|destruct Htk as [Hlt Htk]; split; [lia|]];
    (right; destruct Htk as [He|[? ?]]; lia).
Qed.

Lemma chained_surviving L j holes fin c k : shape L j → 0 ≤ c → ∀ segs s,
  covered c s = false → Forall (info_ok L j) (s :: segs) → chained holes fin (s :: segs ++ k) →
  chained holes fin (s :: surviving c segs ++ k).
Proof.
  intros Hsh Hc. induction segs as [|t segs IH]; intros s Hs Hin Hch; [done|].
  apply list.Forall_cons in Hin as [His Hin]. pose proof (proj1 (list.Forall_cons _ _ _) Hin) as [Hit Hin'].
  unfold surviving. cbn [List.filter]. destruct (covered c t) eqn:Ht; cbn [negb].
  - apply IH; [done|by constructor|]. unfold covered in Hs, Ht.
    rewrite (last_sequence_end L j) in Hs, Ht by done. apply Z.leb_gt in Hs. apply Z.leb_le in Ht.
    apply (chained_skip holes fin c s t); [done|lia|lia| |exact Hch]. unfold s_end. rewrite (in_count _ _ _ Hit).
    pose proof (blen_nonneg (L (s_index t))). lia.
  - destruct Hch as [Hl Hch]. split; [done|]. by apply IH.
Qed.

Lemma chained_filter L j holes fin c k : shape L j → ∀ segs,
  Forall (info_ok L j) segs → chained holes fin (segs ++ k) → chained holes fin (surviving c segs ++ k).
Proof.
  intros Hsh. induction segs as [|s segs IH]; intros Hin Hch; [done|].
  pose proof (proj1 (list.Forall_cons _ _ _) Hin) as [His Hin']. pose proof (proj2 Hch) as Hch'.
  destruct (Z.le_gt_cases 0 c) as [Hc|Hc].
  - unfold surviving. cbn [List.filter]. destruct (covered c s) eqn:Hs; cbn [negb]; [by apply IH|].
    by eapply chained_surviving.
  - assert (surviving c (s :: segs) = s :: segs) as ->; [|done].
    unfold surviving. apply forallb_filter_id, forallb_forall. intros t Ht%list_elem_of_In.
    rewrite list.Forall_forall in Hin. unfold covered. rewrite (last_sequence_end L j) by auto.
    apply negb_true_iff, Z.leb_gt. lia.
Qed.

Lemma delete_go_error c e : ∀ segs kept deleted w,
  delete_go (W := W) (F := F) c segs kept deleted (Some e) w = (Ok (kept ++ segs, deleted, Some e), w).
Proof.
  induction segs as [|s segs IH]; intros kept deleted w; simpl; [by rewrite app_nil_r|].
  rewrite andb_false_r, IH. by rewrite <- (assoc_L (++)).
Qed.

Lemma delete_go_spec c : ∀ segs kept deleted w r w',
  inv w → delete_go c segs kept deleted None w = (r, w') →
  ∃ pre rest err, segs = pre ++ rest ∧
    r = Ok (kept ++ surviving c pre ++ rest, deleted + blen (List.filter (covered c) pre), err) ∧
    keeps (λ q, ∀ s, s ∈ pre → covered c s = true → q ≠ journal_segment (s_index s)) w w' ∧
    (err = None → rest = []).
Proof.
  induction segs as [|s segs IH]; intros kept deleted w r w' Hi Hr; simpl in Hr.
  { injection Hr as <- <-. exists [], [], None. split; [done|].
    split; [unfold blen; simpl; by rewrite app_nil_r, Z.add_0_r|]. split; [by apply keeps_refl|done]. }
  destruct (covered c s) eqn:Hc; cbn [andb] in Hr; cycle 1.
  { apply IH in Hr as (pre & rest & err & -> & -> & Hk & He); [|done]. exists (s :: pre), rest, err.
    unfold surviving. simpl. rewrite Hc. simpl. rewrite <- (assoc_L (++)). split; [done|]. split; [done|].
    split; [|done]. eapply keeps_weaken; [|exact Hk]. intros q Hq t Ht. apply Hq. by right. }
  apply m_bind_inv in Hr as [(rm & w1 & (rm' & Hrm & [= ->])%m_try_inv & Hr)|(e & (? & _ & [=])%m_try_inv & _)].
  destruct (law_remove w _ rm' w1 Hi (segment_valid _) Hrm) as (Hk & _ & Hfail & _). destruct rm' as [[]|e].
  - apply IH in Hr as (pre & rest & err & -> & -> & Hk2 & He); [|by eapply keeps_inv].
    exists (s :: pre), rest, err. unfold surviving. simpl. rewrite Hc. simpl. split; [done|].
    split; [unfold blen; simpl; do 3 f_equal; lia|]. split; [|done].
    eapply keeps_trans; [eapply keeps_weaken; [|exact Hk]|eapply keeps_weaken; [|exact Hk2]].
    + intros q Hq. apply Hq; [by left|done].
    + intros q Hq t Ht. apply Hq. by right.
  - rewrite delete_go_error in Hr. injection Hr as <- <-. exists [], (s :: segs), (Some (CoreIo e)).
    split; [done|]. split; [unfold blen; simpl; by rewrite Z.add_0_r, <- (assoc_L (++))|]. split; [|done].
    eapply keeps_weaken; [|by apply Hfail]. done.
Qed.

(** What a deletion does, whatever it returns: up to the first failure it
    removes the covered segments, and nothing else. *)
Record delete_spec L j w c (r : result CoreError Z) j' w' : Prop := {
  de_ok : writer_ok L j' w';
  de_counters : counters j' = counters j;
  de_durable : j_durable_sequence j' = j_durable_sequence j;
  de_active : j_active j' = j_active j;
  de_gone : ∃ pre rest, j_sealed j = pre ++ rest ∧ j_sealed j' = surviving c pre ++ rest ∧
    ∀ n, r = Ok n → n = blen (List.filter (covered c) pre) ∧ rest = [];
  de_keeps : keeps (λ q, ¬ owned q) w w'
}.

(** Dropping the covered sealed segments of a prefix. *)
Lemma drop_sealed_ok L j w w' c pre rest :
  writer_ok L j w → j_sealed j = pre ++ rest →
  keeps (λ q, ∀ s, s ∈ pre → covered c s = true → q ≠ journal_segment (s_index s)) w w' →
  writer_ok L (set_segments (surviving c pre ++ rest) (j_active j) (j_next_segment_index j) j) w'.
Proof.
  intros [Hsh Hd] Hse Hk. set (j' := set_segments _ _ _ _).
  set (k := rest ++ match j_active j with Some a => [a_info a] | None => [] end).
  assert (segments j = pre ++ k) as Hseg by (unfold segments; by rewrite Hse, <- (assoc_L (++))).
  assert (segments j' = surviving c pre ++ k) as Hseg' by (unfold segments; simpl; by rewrite <- (assoc_L (++))).
  pose proof (sh_chain _ _ Hsh) as Hch. pose proof (sh_infos _ _ Hsh) as Hin. rewrite Hseg in Hch, Hin.
  assert (∀ s, s ∈ segments j' → s ∈ pre ++ k ∧ (s ∈ pre → covered c s = false ∨ s ∈ k)) as Hsub.
  { intros s. rewrite Hseg'. intros [[Hc Hs]%elem_of_surviving|Hs]%elem_of_app; rewrite elem_of_app; auto. }
  assert (∀ s t, s ∈ segments j' → t ∈ pre → covered c t = true → journal_segment (s_index s) ≠ journal_segment (s_index t)) as Hne.
  { intros s t Hs Ht Hct Heq. destruct (Hsub s Hs) as [Hin' _]. rewrite list.Forall_forall in Hin.
    assert (s_index s = s_index t) as Hi.
    { apply segment_inj in Heq; [done|eapply index_u64; [exact Hsh|]; apply Hin..]; [done|apply elem_of_app; by left]. }
    rewrite Hseg' in Hs. apply elem_of_app in Hs as [[Hc Hs]%elem_of_surviving|Hs].
    - assert (s = t) as ->; [|congruence]. by eapply chained_index_inj; [exact Hch|apply elem_of_app; by left..|].
    - pose proof (chained_lt _ _ _ _ _ _ Hch Ht Hs). lia. }
  assert (∀ s, s ∈ surviving c pre ++ rest → s ∈ segments j') as Hrest
    by (intros s Hs; unfold segments; apply elem_of_app; by left).
  split.
  - pose proof Hsh as Hsh0. destruct Hsh as [? ? ? ? ? ? _ _ Hsl ? ? Hac ?]. split; try done.
    + eapply (infos_next L j j'); [done..|]. rewrite list.Forall_forall in *. intros s Hs. by apply Hin, Hsub.
    + rewrite Hseg'. eapply (chained_filter L j); [exact Hsh0| |exact Hch]. by apply Forall_app in Hin as [? _].
    + rewrite list.Forall_forall in *. intros s Hs. apply Hsl. rewrite Hse. simpl in Hs.
      apply elem_of_app in Hs as [[_ Hs]%elem_of_surviving|Hs]; apply elem_of_app; auto.
    + intros a Ha. by destruct (Hac a Ha).
  - destruct Hd as [Hi Hst Hac Hma Hpr]. split.
    + by eapply keeps_inv.
    + rewrite list.Forall_forall in *. intros s Hs. eapply keeps_stable; [exact Hk|intros t Ht Hc; by apply Hne; [apply Hrest|..]|].
      apply Hst. rewrite Hse. simpl in Hs. apply elem_of_app in Hs as [[_ Hs]%elem_of_surviving|Hs]; apply elem_of_app; auto.
    + intros a Ha. eapply (active_disk_core L j); [done..|]. eapply active_disk_keeps; [exact Hk| |by apply Hac].
      intros t Ht Hc. apply (Hne (a_info a)); [|done..]. by apply active_in_segments.
    + intros f Hf. eapply keeps_handle; [exact Hk| |by apply Hma]. intros t _ _. apply not_eq_sym, segment_not_mark.
    + eapply attested_keeps; [exact Hk| |done]. intros p Hp t _ _ ->. by eapply segment_not_proof.
Qed.

Lemma delete_covered_ok L j w c r j' w' :
  writer_ok L j w → delete_covered c (j, w) = (r, (j', w')) → delete_spec L j w c r j' w'.
Proof.
  intros Hok [([] & [j1 w1] & Hc & Hr)|(e & Hc & ->)]%m_bind_inv;
    destruct (cleanup_spec _ _ _ _ _ _ Hok Hc) as (Hok1 & Hkc & Hj & _);
    apply (keeps_weaken (λ q, ¬ owned q)) in Hkc; try (intros q; apply unowned_segment).
  2: { subst j'. split; try done. by exists [], (j_sealed j). }
  destruct Hj as [-> _]. set (j1 := set_cleanup None j) in *.
  apply m_bind_inv in Hr as [(? & [? ?] & [= <- <- <-] & Hr)|(e & [=] & _)].
  apply m_bind_inv in Hr as [([[kept deleted] err] & [j2 w2] & [-> Hgo]%world_inv & Hr)|(e & [-> Hgo]%world_inv & ->)];
    apply delete_go_spec in Hgo as (pre & rest & err' & Hse & Hres & Hk & Hun); try done;
    try apply (d_inv _ _ _ (proj2 Hok1)).
  injection Hres as -> -> ->. simpl in Hse.
  pose proof (drop_sealed_ok L j1 w1 w2 c pre rest Hok1 Hse Hk) as Hok2.
  apply m_bind_inv in Hr as [([] & [j3 w3] & [= <- <-] & Hr)|(e & [=] & _)]. simpl in Hr.
  assert (j' = set_segments (surviving c pre ++ rest) (j_active j1) (j_next_segment_index j1) j1 ∧ w' = w2) as [-> ->]
    by (destruct err'; injection Hr as <- <-; done).
  split; [done|done|done|done| |eapply keeps_trans; [exact Hkc|]; eapply keeps_weaken; [|exact Hk];
    intros q Hn s _ _; by apply unowned_segment]. exists pre, rest. split; [done|]. split; [done|].
  intros n Hn. destruct err'; injection Hr as Hr; subst r; [done|]. injection Hn as <-.
  split; [done|]. by apply Hun.
Qed.

End Proofs.
