(* ===== verification/JournalDurability.v ===== *)
(** * JournalDurability: the journal writer's promises

    Everything that can happen to a writer as a step relation, and the
    theorems about it: what an append and a barrier mean, that acknowledged
    records survive every later failure, deletion and crash, that the
    writer's own sanitizer never fires, and that the append projection used
    for admission is exact. *)

From S2P Require Import Prelude Codec Layout Metadata JournalFormat AbRecord Backing CrashBacking AbStore FixedCopy DurableProof JournalWriter JournalProof.

Local Open Scope Z_scope.

(** ** The header of a segment *)
Section Header.
Context `{Crc32}.

Lemma header_decode i volume_uuid base tl :
  u64_ok i → length volume_uuid = 16%nat → u64_ok base →
  SegmentHeader_decode (SegmentHeader_encode (mkSegmentHeader i volume_uuid base) ++ tl) =
  Ok (mkSegmentHeader i volume_uuid base).
Proof.
  intros Hi Hu Hb. set (h := mkSegmentHeader i volume_uuid base).
  assert (SegmentHeader_encode h = finish_with_crc (SEGMENT_MAGIC ++ to_le 4 SEGMENT_VERSION ++ to_le 8 i
    ++ volume_uuid ++ to_le 8 base)) as He by (unfold SegmentHeader_encode; by writer_norm).
  assert (length (SegmentHeader_encode h) = 48%nat) as Hl.
  { pose proof (header_length i volume_uuid base Hu) as Hl. unfold blen, SEGMENT_HEADER_SIZE in Hl. unfold h. lia. }
  unfold SegmentHeader_decode. rewrite (proj2 (Nat.ltb_ge _ _)) by (rewrite length_app; lia). cbn [negb].
  rewrite <- Hl, take_app_length.
  assert (take 8 (SegmentHeader_encode h) = SEGMENT_MAGIC) as ->.
  { rewrite He. unfold finish_with_crc. by rewrite <- !(assoc_L (++)). }
  rewrite bytes_eqb_refl, He, strip_finish. cbn [rbind]. apply run_rd_parses. unfold segment_body.
  repeat parse_step.
Qed.
End Header.

Section Runs.
Context `{Crc32} `{BackingLaws W F} `{HasherLaws HT}.
Import Journal.
Abbreviation JournalWriter := (JournalWriter (F := F) (HT := HT)).
Implicit Types (j : JournalWriter) (s : SegmentInfo) (L : Z → list JournalRecord).

(** ** Everything that can happen to a writer *)

(** Operations with any outcome, under any injected fault; a deletion is
    labelled with its checkpoint.  [step_other] is what the rest of the
    program does to other files meanwhile. *)
Inductive journal_step : JournalWriter * W → option Z → JournalWriter * W → Prop :=
| step_append st u p r st' :
    u64_ok u → blen p ≤ MAX_PAYLOAD → append u p st = (r, st') → journal_step st None st'
| step_sync st r st' : sync st = (r, st') → journal_step st None st'
| step_delete st c r st' : delete_covered c st = (r, st') → journal_step st (Some c) st'
| step_holes j w c r st' :
    j_holes_allowed_below j ≤ c < U64_MAX → allow_covered_holes_below c (j, w) = (r, st') →
    journal_step (j, w) None st'
| step_other j w w' : keeps owned w w' → journal_step (j, w) None (j, w').

Inductive journal_run : JournalWriter * W → list Z → JournalWriter * W → Prop :=
| run_nil st : journal_run st [] st
| run_step st lab st1 cs st2 :
    journal_step st lab st1 → journal_run st1 cs st2 → journal_run st (option_list lab ++ cs) st2.

Lemma linked_mono h h' e b : h ≤ h' → linked h e b → linked h' e b.
Proof. unfold linked. lia. Qed.

Lemma chained_mono h h' fin segs : h ≤ h' → chained h fin segs → chained h' fin segs.
Proof.
  intros Hle. induction segs as [|s segs IH]; [done|]. intros [Hh Hc]. split; [|by apply IH].
  destruct segs; [by eapply linked_mono|]. split; [apply Hh|]. by eapply linked_mono; [|apply Hh].
Qed.

Lemma holes_ok L j w c :
  writer_ok L j w → j_holes_allowed_below j ≤ c < U64_MAX → writer_ok L (set_holes c j) w.
Proof.
  intros [[? ? ? ? ? Hho Hin Hch ? ? ? Hac ?] [? ? Hda ? ?]] Hc. split; split; try done.
  - simpl. lia.
  - by eapply infos_next; [..|exact Hin].
  - simpl. eapply chained_mono; [|exact Hch]. lia.
  - intros a Ha. by destruct (Hac a Ha).
  - intros a Ha. by destruct (Hda a Ha).
Qed.

Lemma other_ok L j w w' : writer_ok L j w → keeps owned w w' → writer_ok L j w'.
Proof.
  intros [Hsh Hd] Hk. split; [done|]. eapply disk_keeps; [exact Hd|exact Hk| | |].
  - intros s _. left. by eexists.
  - right. by left.
  - intros p Hp. right. by right.
Qed.

(** What is durable stays durable until a deletion covers it. *)
Definition retains L j (lab : option Z) L' j' : Prop :=
  j_volume_uuid j' = j_volume_uuid j ∧
  ∀ i base rs, acked L j i base rs →
    (∃ rs', rs `prefix_of` rs' ∧ acked L' j' i base rs') ∨ (∃ c, lab = Some c ∧ Z.max 0 (base + blen rs - 1) ≤ c).

Lemma advances_retains L j lab L' j' : advances L j L' j' → retains L j lab L' j'.
Proof. intros [Hu Ha]. split; [done|]. intros i base rs Hr. left. by apply Ha. Qed.

Lemma delete_retains L j w c r j' w' :
  writer_ok L j w → delete_spec L j w c r j' w' → retains L j (Some c) L j'.
Proof.
  intros [Hsh _] [_ Hcn Hdu Hac (pre & rest & Hse & Hse' & _) _]. injection Hcn as Hu _ _ _ _. split; [done|].
  intros i base rs [(s & Hs & <- & <- & ->)|(a & Ha & Hi & Hb & ->)].
  - pose proof (sealed_info _ _ _ Hsh Hs) as Hin. destruct (covered c s) eqn:Hcov.
    + right. exists c. split; [done|].
      unfold covered in Hcov. rewrite (last_sequence_end L j s Hsh Hin) in Hcov. apply Z.leb_le in Hcov.
      unfold s_end in Hcov. rewrite (in_count _ _ _ Hin) in Hcov. lia.
    + left. exists (L (s_index s)). split; [done|]. left. exists s. split; [|done]. rewrite Hse'. rewrite Hse in Hs.
      apply elem_of_app in Hs as [Hs|Hs]; apply elem_of_app; [left; by apply elem_of_surviving|by right].
  - left. eexists. split; [done|]. right. exists a. rewrite Hac. split; [done|]. split; [done|]. split; [done|].
    unfold durable_count. by rewrite Hdu.
Qed.

Lemma step_ok L j w lab j' w' :
  writer_ok L j w → journal_step (j, w) lab (j', w') → ∃ L', writer_ok L' j' w' ∧ retains L j lab L' j'.
Proof.
  intros Hok Hst. inversion Hst as [? u p r ? Hu Hp Hr|? r ? Hr|? c r ? Hr|? ? c r ? Hc Hr|? ? ? Hk]; subst.
  - destruct (append_ok _ _ _ _ _ _ _ _ Hok Hu Hp Hr) as (L' & [Hok' Hadv _ _ _ _]). exists L'.
    split; [done|by apply advances_retains].
  - destruct (sync_ok _ _ _ _ _ _ Hok Hr) as [Hok' Hadv _ _ _ _ _ _]. exists L. split; [done|by apply advances_retains].
  - pose proof (delete_covered_ok _ _ _ _ _ _ _ Hok Hr) as Hd. exists L. split; [apply Hd|by eapply delete_retains].
  - injection Hr as <- <- <-. exists L. split; [by apply holes_ok|]. apply advances_retains. split; [done|].
    intros i base rs Ha. by exists rs.
  - exists L. split; [by eapply other_ok|]. apply advances_retains, advances_refl.
Qed.

Lemma journal_run_ok st cs st' : journal_run st cs st' → ∀ L, writer_ok L st.1 st.2 →
  ∃ L', writer_ok L' st'.1 st'.2 ∧ j_volume_uuid st'.1 = j_volume_uuid st.1 ∧
  ∀ i base rs, acked L st.1 i base rs →
    (∃ rs', rs `prefix_of` rs' ∧ acked L' st'.1 i base rs') ∨ (∃ c, c ∈ cs ∧ Z.max 0 (base + blen rs - 1) ≤ c).
Proof.
  induction 1 as [[j w]|[j w] lab [j1 w1] cs [j2 w2] Hst _ IH]; intros L Hok.
  { exists L. split; [done|]. split; [done|]. intros i base rs Ha. left. by exists rs. }
  destruct (step_ok _ _ _ _ _ _ Hok Hst) as (L1 & Hok1 & Hu1 & Hret).
  destruct (IH L1 Hok1) as (L2 & Hok2 & Hu2 & Hrun). exists L2. split; [done|]. split; [simpl in *; congruence|].
  intros i base rs Ha. destruct (Hret _ _ _ Ha) as [(rs1 & Hp1 & Ha1)|(c & -> & Hc)].
  - destruct (Hrun _ _ _ Ha1) as [(rs2 & Hp2 & Ha2)|(c & Hcs & Hc)].
    + left. exists rs2. split; [by etransitivity|done].
    + right. exists c. split; [apply elem_of_app; by right|]. apply prefix_length in Hp1. unfold blen in *. lia.
  - right. exists c. split; [|done]. by left.
Qed.
(** ** Reading a segment back *)

(** A reader finds the segment's own header and, whatever durable bound it
    scans with, at least the records [rs]. *)
Definition recovered (w : W) (i : Z) (volume_uuid : bytes) (base : Z) (rs : list JournalRecord) : Prop :=
  ∃ header body, vis w (journal_segment i) = Some (header ++ body) ∧ blen header = SEGMENT_HEADER_SIZE ∧
    SegmentHeader_decode (header ++ body) = Ok (mkSegmentHeader i volume_uuid base) ∧
    ∀ d, ∃ found o, scan_segment_bounded body base d = Some (found, o) ∧ rs `prefix_of` found.

Lemma solid_recovered w i volume_uuid base rs :
  solid w (journal_segment i) (seg_content volume_uuid i base rs) →
  u64_ok i → u64_ok base → length volume_uuid = 16%nat → consecutive base rs → recovered w i volume_uuid base rs.
Proof.
  intros Hso Hi Hb Hu Hc. destruct (law_solid _ _ _ Hso) as (c & _ & Hv & _ & [tl ->] & _).
  exists (SegmentHeader_encode (mkSegmentHeader i volume_uuid base)), (encode_records rs ++ tl).
  unfold seg_content in Hv. rewrite <- (assoc_L (++)) in Hv. split; [done|]. split; [by apply header_length|].
  split; [by apply header_decode|]. intros d.
  by eapply scan_prefix_of.
Qed.

Lemma solid_crashes w w' p pre : inv w → solid w p pre → rtc crashes w w' → solid w' p pre.
Proof.
  intros Hi Hso Hr. revert Hi Hso. induction Hr as [w|w w1 w2 Hc _ IH]; [done|]. intros Hi Hso.
  destruct (law_crash _ _ Hi Hc) as (Hi1 & _ & _ & _ & _ & Hs). apply IH; [done|]. by apply Hs.
Qed.

Lemma acked_records L j i base rs :
  shape L j → acked L j i base rs → u64_ok i ∧ u64_ok base ∧ consecutive base rs.
Proof.
  intros Hsh Ha. assert (∃ s, info_ok L j s ∧ s_index s = i ∧ s_base_sequence s = base ∧ rs `prefix_of` L i)
    as (s & Hin & <- & <- & [k Hk]).
  { destruct Ha as [(s & Hs & <- & <- & ->)|(a & Ha & <- & <- & ->)].
    - exists s. split; [by eapply sealed_info|done].
    - exists (a_info a). split; [by apply active_info|]. split; [done|]. split; [done|].
      eexists (drop _ _). by rewrite take_drop. }
  split; [by eapply index_u64|]. split.
  - pose proof (in_base _ _ _ Hin). pose proof (in_end _ _ _ Hin) as He. pose proof (sh_next _ _ Hsh).
    unfold s_end in He. pose proof (in_count _ _ _ Hin). pose proof (blen_nonneg (L (s_index s))).
    unfold u64_ok, U64_MAX in *. lia.
  - pose proof (in_records _ _ _ Hin) as Hc. rewrite Hk in Hc. by apply consecutive_app in Hc as [? _].
Qed.

Lemma segment_acked L j s :
  shape L j → j_durable_sequence j = j_appended_sequence j → s ∈ segments j →
  acked L j (s_index s) (s_base_sequence s) (L (s_index s)).
Proof.
  intros Hsh Hd Hs. unfold segments in Hs. apply elem_of_app in Hs as [Hs|Hs]; [left; by exists s|].
  destruct (j_active j) as [a|] eqn:Ha; [|by apply not_elem_of_nil in Hs].
  apply list_elem_of_singleton in Hs as ->. right. exists a. split; [done|]. split; [done|]. split; [done|].
  pose proof (synced_count _ _ _ Hsh Ha) as Hc. unfold active_records in Hc.
  rewrite take_ge; [done|]. unfold durable_count, blen in *. lia.
Qed.

(** What a barrier acknowledged is recovered, or was given up to a deletion. *)
Lemma acknowledged_recovered L j w n j1 w1 cs j2 w2 w3 :
  writer_ok L j w → sync (j, w) = (Ok n, (j1, w1)) → journal_run (j1, w1) cs (j2, w2) → rtc crashes w2 w3 →
  writer_ok L j1 w1 ∧ n = j_appended_sequence j ∧ log L j1 = log L j ∧ inv w3 ∧
  ∀ s, s ∈ segments j1 →
    (∃ c, c ∈ cs ∧ last_sequence s ≤ c) ∨
    recovered w3 (s_index s) (j_volume_uuid j) (s_base_sequence s) (L (s_index s)).
Proof.
  intros Hok Hs Hrun Hcr. destruct (sync_ok _ _ _ _ _ _ Hok Hs) as [Hok1 _ Hcn Hseg Hdn _].
  destruct (Hdn n eq_refl) as (Hn & Hd & _). injection Hcn as Hu _ _ Hap _.
  destruct (journal_run_ok _ _ _ Hrun L Hok1) as (L' & Hok2 & Hu2 & Hret). simpl in *.
  split; [done|]. split; [done|]. split; [unfold log; by rewrite Hseg|].
  split; [eapply inv_crashes; [apply (d_inv _ _ _ (proj2 Hok2))|done]|]. intros s Hin.
  pose proof (segment_acked L j1 s (proj1 Hok1) ltac:(congruence) Hin) as Hack.
  destruct (Hret _ _ _ Hack) as [(rs' & Hp & Ha')|(c & Hc & Hle)].
  - right. rewrite <- Hu, <- Hu2. destruct (acked_records _ _ _ _ _ (proj1 Hok2) Ha') as (Hi & Hb & _).
    pose proof (acked_solid _ _ _ _ _ _ Hok2 Ha') as Hso.
    apply solid_recovered; [|done|done|apply (sh_uuid _ _ (proj1 Hok2))|apply (acked_records _ _ _ _ _ (proj1 Hok1) Hack)].
    eapply solid_crashes; [apply (d_inv _ _ _ (proj2 Hok2))| |done]. eapply law_solid_prefix; [exact Hso|].
    by apply content_prefix.
  - left. exists c. split; [done|]. pose proof (sh_infos _ _ (proj1 Hok1)) as Hinf. rewrite list.Forall_forall in Hinf.
    pose proof (Hinf s Hin) as Hio. rewrite (last_sequence_end L j1 s (proj1 Hok1) Hio). unfold s_end.
    rewrite (in_count _ _ _ Hio). lia.
Qed.

(** ** The sanitizer *)

Lemma check_segments_ok L j fin : shape L j → ∀ segs prev expected,
  chained (j_holes_allowed_below j) fin segs.*1 → Forall (info_ok L j) segs.*1 →
  (∀ s, (s, false) ∈ segs → s_end s ≤ j_durable_sequence j + 1) →
  (∀ s fl segs', segs = (s, fl) :: segs' → (∀ p, prev = Some p → p < s_index s) ∧
     (∀ b, expected = Some b → linked (j_holes_allowed_below j) b (s_base_sequence s))) →
  check_segments (j_holes_allowed_below j) (j_next_segment_index j) (j_durable_sequence j) prev expected segs = true.
Proof.
  intros Hsh. induction segs as [|[s fl] segs IH]; intros prev expected Hc Hin Hse Hhd; [done|].
  destruct (Hhd s fl segs eq_refl) as [Hp Hb]. pose proof (sh_holes _ _ Hsh). pose proof (sh_next _ _ Hsh).
  rewrite !fmap_cons in Hc, Hin. cbn [fst] in Hc, Hin. apply list.Forall_cons in Hin as [His Hin].
  pose proof (in_index _ _ _ His). pose proof (in_base _ _ _ His). pose proof (in_count _ _ _ His).
  pose proof (in_size _ _ _ His). pose proof (in_end _ _ _ His) as Hend. unfold s_end in Hend.
  pose proof (blen_nonneg (L (s_index s))). pose proof (blen_nonneg (encode_records (L (s_index s)))).
  cbn [check_segments]. rewrite !andb_true_iff. split; [split; [split; [split; [split|]|]|]|].
  - destruct prev as [p|]; [|done]. apply Z.ltb_lt. by apply Hp.
  - apply Z.ltb_lt. lia.
  - destruct expected as [b|]; [|done]. rewrite add64_small by lia. apply orb_true_iff.
    destruct (Hb b eq_refl) as [->|[? ?]]; [left; apply Z.eqb_refl|right]. apply andb_true_iff.
    split; apply Z.leb_le; lia.
  - apply Z.leb_le. lia.
  - rewrite (last_sequence_end L j s) by done. destruct fl; [done|]. apply orb_true_iff. right.
    apply Z.leb_le. specialize (Hse s ltac:(by left)). pose proof (sh_durable _ _ Hsh). lia.
  - apply IH; [apply Hc|done|intros t Ht; apply Hse; by right|].
    intros t fl' segs' ->. destruct Hc as [[Hlt Hl] _]. split; [by intros ? [= <-]|].
    intros b [= <-]. rewrite add64_small by lia. exact Hl.
Qed.

Lemma check_active_ok L j w a len :
  writer_ok L j w → j_active j = Some a →
  (a_needs_tail_cleanup a = false → ∀ n, len = Some n → n = a_write_offset a) → check_active j a len = true.
Proof.
  intros [Hsh Hd] Ha Hlen. pose proof (sh_active _ _ Hsh a Ha) as Has. pose proof (sh_next _ _ Hsh).
  pose proof (active_info _ _ _ Hsh Ha) as Hin. pose proof (in_base _ _ _ Hin).
  pose proof (as_end _ _ _ Has) as He. unfold s_end in He. pose proof (in_count _ _ _ Hin).
  pose proof (blen_nonneg (L (s_index (a_info a)))). pose proof (synced_le _ _ _ Hsh Ha).
  pose proof (synced_count _ _ _ Hsh Ha) as Hcnt. pose proof (sh_durable _ _ Hsh) as Hdu.
  unfold check_active. rewrite !andb_true_iff. split; [split; [split; [split|]|]|].
  - rewrite add64_small by lia. apply Z.eqb_eq. lia.
  - apply Z.eqb_eq. apply Has.
  - apply Z.leb_le. lia.
  - destruct (a_needs_tail_cleanup a); [done|]. destruct len as [n|]; [|done]. apply Z.eqb_eq. auto.
  - rewrite (as_unsynced _ _ _ Has). pose proof (as_synced _ _ _ Has) as Hsy.
    rewrite (as_offset _ _ _ Has), (in_size _ _ _ Hin), Hsy. unfold active_records in *.
    destruct (Z.ltb_spec (j_durable_sequence j) (j_appended_sequence j)) as [Hlt|Hge].
    + apply Z.ltb_lt. rewrite <- (take_drop (durable_count j a) (L (s_index (a_info a)))) at 2.
      rewrite encode_records_app, blen_app.
      pose proof (encode_records_bound (drop (durable_count j a) (L (s_index (a_info a))))) as Hb.
      assert (0 < blen (drop (durable_count j a) (L (s_index (a_info a))))) as Hpos.
      { unfold blen in *. rewrite length_drop. unfold durable_count. pose proof (as_base _ _ _ Has). lia. }
      unfold RECORD_HEADER_SIZE in *. lia.
    + apply andb_true_iff. split; apply Z.eqb_eq; [|lia]. rewrite take_ge; [done|].
      unfold durable_count, blen in *. lia.
Qed.

Lemma check_counters_ok L j : shape L j → check_counters j = true.
Proof.
  intros Hsh. unfold check_counters. rewrite !andb_true_iff. pose proof (sh_durable _ _ Hsh).
  pose proof (sh_next _ _ Hsh). split; [split; [split|]|].
  - destruct (j_creation_cleanup j) as [i|] eqn:Hc; [|done]. destruct (sh_cleanup _ _ Hsh i Hc) as [-> ->].
    apply Z.eqb_refl.
  - apply Z.leb_le. lia.
  - rewrite add64_small by lia. apply Z.eqb_eq. lia.
  - set (segs := _ ++ _). assert (segs.*1 = segments j) as Hs1.
    { unfold segs, segments. rewrite fmap_app, <- list_fmap_compose. f_equal; [apply list_fmap_id|].
      by destruct (j_active j). }
    apply (check_segments_ok L j (j_next_sequence j) Hsh); rewrite ?Hs1; [apply Hsh|apply Hsh| |done].
    intros s Hs. unfold segs in Hs. apply elem_of_app in Hs as [Hs|Hs].
    + apply list_elem_of_fmap in Hs as (t & [= ->] & Ht). pose proof (sh_sealed _ _ Hsh) as Hse.
      rewrite list.Forall_forall in Hse. by apply Hse.
    + destruct (j_active j); [|by apply not_elem_of_nil in Hs]. apply list_elem_of_singleton in Hs as [=].
Qed.

Lemma sanitizer_ok L j w :
  writer_ok L j w → ∃ w', check_invariants (j, w) = (Ok true, (j, w')).
Proof.
  intros Hok. pose proof Hok as [Hsh Hd]. unfold check_invariants, m_bind at 1. cbn [get fst].
  pose proof (check_counters_ok _ _ Hsh) as Hcnt. destruct (j_active j) as [a|] eqn:Ha; cycle 1.
  { exists w. unfold m_ret. by rewrite Hcnt, (sh_none _ _ Hsh Ha), Z.eqb_refl. }
  destruct (a_needs_tail_cleanup a) eqn:Ht.
  { exists w. unfold m_bind, m_ret. rewrite Hcnt. rewrite (check_active_ok L j w a None); [done..|congruence]. }
  unfold io_try, world, m_try, m_bind, m_ret. simpl snd. destruct (f_len (a_file a) w) as [rl w1] eqn:Hl.
  destruct (d_active _ _ _ Hd a Ha) as [Hh _ (c & d & Hc & _ & _ & Hcc & _) _].
  destruct (law_len w _ _ c rl w1 (d_inv _ _ _ Hd) Hh Hc Hl) as (_ & Hlen & _).
  exists w1. rewrite Hcnt, (check_active_ok L j w a (to_option rl)); [done..|].
  intros _ n Hn%to_option_some. rewrite (Hlen n Hn), (Hcc Ht), (active_offset L j a); done.
Qed.

(** ** Admission *)

(** A run of appends that stops at the first error. *)
Fixpoint append_list (jobs : list (Z * bytes)) : M (JournalWriter * W) CoreError (list Z) :=
  match jobs with
  | [] => m_ret []
  | (u, p) :: jobs =>
      let* n := append u p in
      let* ns := append_list jobs in
      m_ret (n :: ns)
  end.

Definition jobs_ok (jobs : list (Z * bytes)) : Prop :=
  Forall (λ job, u64_ok job.1 ∧ blen job.2 ≤ MAX_PAYLOAD) jobs.

(** The on-disk lengths of the jobs' records. *)
Definition record_lens (jobs : list (Z * bytes)) : list Z := (λ job, RECORD_HEADER_SIZE + blen job.2) <$> jobs.

(** The records a run of appends writes. *)
Fixpoint job_records (next : Z) (jobs : list (Z * bytes)) : list JournalRecord :=
  match jobs with
  | [] => []
  | (u, p) :: jobs => mkJournalRecord next u p :: job_records (next + 1) jobs
  end.

Lemma append_list_ok : ∀ jobs L j w ns j' w',
  writer_ok L j w → jobs_ok jobs → append_list jobs (j, w) = (Ok ns, (j', w')) →
  ∃ L', writer_ok L' j' w' ∧ j_segment_size j' = j_segment_size j ∧
    log L' j' = log L j ++ job_records (j_next_sequence j) jobs ∧
    ns = sequence <$> job_records (j_next_sequence j) jobs ∧
    (active_state j', disk_bytes j') =
      Footprint.append_all (j_segment_size j) (active_state j, disk_bytes j) (record_lens jobs).
Proof.
  induction jobs as [|[u p] jobs IH]; intros L j w ns j' w' Hok Hj Hr; cbn [append_list] in Hr.
  { injection Hr as <- <- <-. exists L. rewrite app_nil_r. split; [done|]. split; [done|]. by split. }
  apply list.Forall_cons in Hj as [[Hu Hp] Hj]. cbn [fst snd] in Hu, Hp.
  apply m_bind_ok in Hr as (n & [j1 w1] & Ha & Hr). apply m_bind_ok in Hr as (ns' & [j2 w2] & Hl & [= <- <- <-]).
  destruct (append_ok _ _ _ _ _ _ _ _ Hok Hu Hp Ha) as (L1 & [Hok1 _ [_ Hss] (-> & Hlog & Hap & Hfp)]).
  destruct (IH _ _ _ _ _ _ Hok1 Hj Hl) as (L2 & Hok2 & Hss2 & Hlog2 & -> & Hfp2).
  pose proof (sh_next _ _ (proj1 Hok)) as [Hn _]. pose proof (sh_next _ _ (proj1 Hok1)) as [Hn1 _].
  assert (j_next_sequence j1 = j_next_sequence j + 1) as Hn' by lia.
  assert (blen (encode_record (mkJournalRecord (j_next_sequence j) u p)) = RECORD_HEADER_SIZE + blen p) as Hlen.
  { unfold blen. rewrite length_encode_record. unfold HEADER, RECORD_HEADER_SIZE. simpl. lia. }
  exists L2. split; [done|]. split; [congruence|].
  split; [rewrite Hlog2, Hlog, Hn', <- (assoc_L (++)); done|]. split; [by rewrite Hn'|].
  rewrite Hfp2, Hss, Hfp, Hlen. reflexivity.
Qed.

Lemma append_all_shift n lens : ∀ st added,
  Footprint.append_all n (st, added) lens =
  ((Footprint.append_all n (st, 0) lens).1, added + (Footprint.append_all n (st, 0) lens).2).
Proof.
  unfold Footprint.append_all. induction lens as [|len lens IH]; intros st added; cbn [foldl].
  - simpl. by rewrite Z.add_0_r.
  - assert (∀ x, ∃ st' k, ∀ add, Footprint.append_one n (x, add) len = (st', add + k)) as Hone.
    { intros [[o r]|]; unfold Footprint.append_one; [destruct (_ && _)|]; eexists _, _; intros add;
        (apply f_equal2; [reflexivity|]); [|reflexivity|]; symmetry; apply Z.add_assoc. }
    destruct (Hone st) as (st' & k & Hk). rewrite !Hk, (IH st' (added + k)), (IH st' (0 + k)). simpl.
    apply f_equal2; [done|lia].
Qed.

Lemma total_bytes_eq j : total_bytes j = disk_bytes j mod 2 ^ 64.
Proof.
  assert (∀ l n, foldl (λ sum s, add64 sum (s_size s)) (n mod 2 ^ 64) l =
    (n + foldr (λ s m, s_size s + m) 0 l) mod 2 ^ 64) as Hf.
  { induction l as [|s l IH]; intros n; simpl; [by rewrite Z.add_0_r|].
    unfold add64 at 2. rewrite Z.add_mod_idemp_l by done. rewrite IH. f_equal. lia. }
  unfold total_bytes, disk_bytes, segments. rewrite sizes_app. change 0 with (0 mod 2 ^ 64) at 1. rewrite Hf.
  unfold add64. rewrite Z.add_mod_idemp_l by done. f_equal. destruct (j_active j); simpl; lia.
Qed.

End Runs.

(** ** The promises *)
Section Claims.
Context `{Crc32} `{BackingLaws W F} `{HasherLaws HT}.
Import Journal.
Abbreviation JournalWriter := (JournalWriter (F := F) (HT := HT)).
Implicit Types (j : JournalWriter) (L : Z → list JournalRecord).

(** C9. Acknowledged records survive.  After a successful [sync], whatever
    appends, barriers, deletions and other I/O follow, with any outcome and
    under any injected fault, and however often the machine then crashes, a
    reader finds every segment the barrier covered with its header intact
    and a scan, under any durable bound, returns at least the records the
    segment held at the barrier, unless a deletion was asked for with a
    checkpoint at or above the segment's last record. *)
Theorem acknowledged_survive L j w n j1 w1 cs j2 w2 w3 :
  writer_ok L j w → sync (j, w) = (Ok n, (j1, w1)) → journal_run (j1, w1) cs (j2, w2) → rtc crashes w2 w3 →
  n = j_appended_sequence j ∧ log L j1 = log L j ∧
  ∀ s, s ∈ segments j1 →
    (∃ c, c ∈ cs ∧ last_sequence s ≤ c) ∨
    recovered w3 (s_index s) (j_volume_uuid j) (s_base_sequence s) (L (s_index s)).
Proof.
  intros Hok Hs Hrun Hcr. by destruct (acknowledged_recovered _ _ _ _ _ _ _ _ _ _ Hok Hs Hrun Hcr) as (_ & ? & ? & _ & ?).
Qed.

(** C14. A barrier means what it says.  When [sync] returns a sequence, it
    is the last accepted one, every segment durably holds exactly its header
    and its accepted records, the removal of a segment whose creation had
    failed is durable, and if anything was pending a durable proof at or
    above that sequence is attested on disk; when it fails, no accepted
    record and no sequence is lost. *)
Theorem sync_acknowledges L j w r j' w' :
  writer_ok L j w → sync (j, w) = (r, (j', w')) →
  writer_ok L j' w' ∧ log L j' = log L j ∧ j_appended_sequence j' = j_appended_sequence j ∧
  ∀ n, r = Ok n → n = j_appended_sequence j ∧ j_durable_sequence j' = n ∧ all_durable L j' w' ∧
    (∀ i, j_creation_cleanup j = Some i → absent w' (journal_segment i)) ∧
    (j_durable_sequence j < n → ∃ h, attested w' h ∧ n ≤ durable_sequence h).
Proof.
  intros Hok Hs. destruct (sync_ok _ _ _ _ _ _ Hok Hs) as [Hok1 _ Hcn Hseg Hdn _]. injection Hcn as _ _ _ Hap _.
  split; [done|]. split; [unfold log; by rewrite Hseg|]. split; [done|]. intros n Hr.
  destruct (Hdn n Hr) as (? & ? & ? & ? & ? & Hpr). split; [done|]. split; [done|]. split; [done|]. split; [done|].
  intros Hlt. exists (j_proof j'). split; [apply Hok1|by apply Hpr].
Qed.


(** C15. An append adds exactly its record or nothing.  On success the
    record is the last of the log and its sequence is the next one; on any
    error the log and the sequence are as before; either way every record
    that was durable still is, and the writer's invariant holds. *)
Theorem append_exact L j w unit_index payload r j' w' :
  writer_ok L j w → u64_ok unit_index → blen payload ≤ MAX_PAYLOAD →
  append unit_index payload (j, w) = (r, (j', w')) →
  ∃ L', writer_ok L' j' w' ∧ advances L j L' j' ∧
    match r with
    | Ok n => n = j_appended_sequence j + 1 ∧ j_appended_sequence j' = n ∧
              log L' j' = log L j ++ [mkJournalRecord n unit_index payload]
    | Err _ => j_appended_sequence j' = j_appended_sequence j ∧ log L' j' = log L j
    end.
Proof.
  intros Hok Hu Hp Ha. destruct (append_ok _ _ _ _ _ _ _ _ Hok Hu Hp Ha) as (L' & [Hok' Hadv _ Hres]).
  exists L'. split; [done|]. split; [done|]. pose proof (sh_next _ _ (proj1 Hok)) as [Hn _]. destruct r as [n|e].
  - destruct Hres as (-> & Hlog & Hap & _). split; [lia|]. split; [lia|done].
  - by destruct Hres.
Qed.

Lemma filter_filter_negb {A} (P : A → bool) l : List.filter P (List.filter (λ x, negb (P x)) l) = [].
Proof. induction l as [|x l IH]; [done|]. simpl. destruct (P x) eqn:Hx; simpl; [done|]. by rewrite Hx. Qed.

Lemma surviving_perm c l : l ≡ₚ List.filter (covered c) l ++ surviving c l.
Proof.
  induction l as [|s l IH]; [done|]. unfold surviving. simpl. destruct (covered c s); simpl.
  - by constructor.
  - rewrite <- Permutation_middle. by constructor.
Qed.

Lemma surviving_sublist c l : surviving c l `sublist_of` l.
Proof. induction l as [|s l IH]; [done|]. unfold surviving. simpl. destruct (covered c s); by constructor. Qed.

(** Above the holes later segments end later, so the covered ones come first. *)
Lemma surviving_split L j c pre rest :
  shape L j → j_holes_allowed_below j ≤ c → j_sealed j = pre ++ rest →
  pre = List.filter (covered c) pre ++ surviving c pre.
Proof.
  intros Hsh Hc Hse. pose proof (sh_chain _ _ Hsh) as Hch. pose proof (sh_infos _ _ Hsh) as Hin.
  unfold segments in Hch, Hin. rewrite Hse, <- (assoc_L (++)) in Hch, Hin. apply Forall_app in Hin as [Hin _].
  revert Hch. generalize (rest ++ match j_active j with Some a => [a_info a] | None => [] end). clear Hse.
  pose proof (sh_holes _ _ Hsh) as Hh.
  induction pre as [|s pre IH]; intros k Hch; [done|]. apply list.Forall_cons in Hin as [His Hin].
  unfold surviving. simpl. destruct (covered c s) eqn:Hs; simpl; [f_equal; eapply IH; [done|apply Hch]|].
  assert (Forall (λ t, covered c t = false) pre) as Hun.
  { unfold covered in Hs. rewrite (last_sequence_end L j) in Hs by done. apply Z.leb_gt in Hs. clear IH.
    revert s His Hch Hs. induction pre as [|t pre IH]; intros s His Hch Hs; [done|].
    apply list.Forall_cons in Hin as [Hit Hin]. destruct Hch as [[_ Hl] Hch].
    assert (c < Z.max 0 (s_end t - 1)) as Ht.
    { assert (s_end s = s_base_sequence t) as He by (destruct Hl; lia). unfold s_end in *.
      rewrite (in_count _ _ _ Hit). pose proof (blen_nonneg (L (s_index t))). lia. }
    constructor; [unfold covered; rewrite (last_sequence_end L j) by done; by apply Z.leb_gt|]. eapply IH; [exact Hin|exact Hit|exact Hch|exact Ht]. }
  assert (List.filter (covered c) pre = [] ∧ List.filter (λ s, negb (covered c s)) pre = pre) as [-> ->]; [|done].
  clear -Hun. induction Hun as [|t l Ht _ [IH1 IH2]]; [done|]. simpl. by rewrite Ht, IH1, IH2.
Qed.

(** C26. A deletion removes covered segments and nothing else.  Whatever it
    returns, the remaining sealed segments are the old ones in order, less
    segments that end at or below the checkpoint, and the active segment is
    untouched; on success the result is the number removed and no covered
    segment is left.  When the checkpoint is at least the one below which
    holes are allowed, the segments removed are the oldest ones and the
    remaining log is the rest of the old log. *)
Theorem delete_only_covered L j w c r j' w' :
  writer_ok L j w → delete_covered c (j, w) = (r, (j', w')) →
  writer_ok L j' w' ∧ j_active j' = j_active j ∧
  (∃ gone, j_sealed j ≡ₚ gone ++ j_sealed j' ∧ j_sealed j' `sublist_of` j_sealed j ∧
    Forall (λ s, last_sequence s ≤ c) gone ∧
    (j_holes_allowed_below j ≤ c →
      j_sealed j = gone ++ j_sealed j' ∧ log L j = (gone ≫= λ s, L (s_index s)) ++ log L j')) ∧
  (∀ n, r = Ok n → n = covered_segment_count j c ∧ covered_segment_count j' c = 0).
Proof.
  intros Hok Hd. destruct (delete_covered_ok _ _ _ _ _ _ _ Hok Hd) as [Hok' _ _ Hac (pre & rest & Hse & Hse' & Hn)].
  split; [done|]. split; [done|]. split.
  - exists (List.filter (covered c) pre). split; [|split; [|split]].
    + rewrite Hse, Hse', (assoc_L (++)). apply Permutation_app_tail. apply surviving_perm.
    + rewrite Hse, Hse'. apply sublist_app; [|done]. apply surviving_sublist.
    + apply list.Forall_forall. intros s [_ Hs]%list_elem_of_In%filter_In. by apply Z.leb_le.
    + intros Hc. assert (j_sealed j = List.filter (covered c) pre ++ j_sealed j') as Heq.
      { rewrite Hse, Hse', (assoc_L (++)). f_equal. eapply (surviving_split L j); [apply Hok|exact Hc|exact Hse]. }
      split; [done|]. unfold log, segments. rewrite Heq, Hac, <- (assoc_L (++)) at 1. by rewrite bind_app.
  - intros n Hr. destruct (Hn n Hr) as [-> ->]. unfold covered_segment_count. rewrite Hse, Hse', !app_nil_r.
    split; [done|]. unfold surviving. rewrite filter_filter_negb. done.
Qed.

(** The sanitizer never fires.  From a good state, after any run of
    operations with any outcomes, every assertion of [check_invariants]
    holds. *)
Theorem sanitizer_never_fires L j w cs j' w' :
  writer_ok L j w → journal_run (j, w) cs (j', w') →
  ∃ w'', check_invariants (j', w') = (Ok true, (j', w'')).
Proof.
  intros Hok Hr. destruct (journal_run_ok _ _ _ Hr L Hok) as (L' & Hok' & _). by eapply sanitizer_ok.
Qed.

(** C28. Admission is exact.  When the appends of a request all succeed,
    the bytes of all segments on disk have grown by exactly what
    [append_footprint] projected before the first of them, segment headers
    included, as long as the projection did not saturate; the returned
    sequences number the request's records and the log has grown by them. *)
Theorem admission_exact L j w jobs ns j' w' :
  writer_ok L j w → jobs_ok jobs → append_list jobs (j, w) = (Ok ns, (j', w')) →
  append_footprint j (record_lens jobs) < U64_MAX →
  total_bytes j' = add64 (total_bytes j) (append_footprint j (record_lens jobs)) ∧
  ∃ L', writer_ok L' j' w' ∧ ns = sequence <$> job_records (j_next_sequence j) jobs ∧
    log L' j' = log L j ++ job_records (j_next_sequence j) jobs.
Proof.
  intros Hok Hj Hr Hfp. destruct (append_list_ok _ _ _ _ _ _ _ Hok Hj Hr) as (L' & Hok' & _ & Hlog & Hns & Hst).
  split; [|by exists L']. rewrite append_all_shift in Hst. injection Hst as _ Hdb.
  unfold append_footprint in *. fold (active_state j) in *. rewrite !total_bytes_eq.
  destruct (checked_append_footprint _ _ _) as [n|] eqn:Hn; [|unfold U64_MAX in Hfp; simpl in Hfp; lia]. simpl.
  apply Footprint.footprint_some in Hn; cycle 1.
  { unfold Footprint.groups_ok, record_lens. rewrite !list.Forall_fmap. apply list.Forall_true. intros job. simpl.
    pose proof (blen_nonneg job.2). unfold RECORD_HEADER_SIZE. lia. }
  { unfold active_state. destruct (j_active j) as [a|] eqn:Ha; [|done]. simpl.
    pose proof (active_bound _ _ _ (proj1 Hok) Ha). pose proof (in_count _ _ _ (active_info _ _ _ (proj1 Hok) Ha)) as ->.
    split; [lia|apply blen_nonneg]. }
  assert (Footprint.expand ((λ len, (len, 1)) <$> record_lens jobs) = record_lens jobs) as He.
  { generalize (record_lens jobs) as l. induction l as [|x l IH]; [done|]. exact (f_equal (cons x) IH). }
  rewrite He in Hn. rewrite Hdb, <- Hn. unfold add64. by rewrite Z.add_mod_idemp_l.
Qed.
End Claims.

(** ** Concrete runs *)
Module JournalSample.
Import Journal.
#[local] Existing Instance Ieee.ieee.

(** A stream hasher: the bytes themselves. *)
#[export] Instance stream : Hasher bytes := {|
  hasher_new := []; hasher_write h b := h ++ b; hasher_finish h := from_le h
|}.
#[export] Program Instance stream_laws : HasherLaws bytes.
Next Obligation. intros h. apply app_nil_r. Qed.
Next Obligation. intros h a b. apply (assoc_L (++)). Qed.

Abbreviation sample_state := (JournalWriter (F := CrashFile) (HT := bytes) * Inner)%type.

Definition j0 : JournalWriter (F := CrashFile) (HT := bytes) := resume ProofSample.uuid 4096 0 1 [] ProofSample.p0.
Definition cipher : bytes := magic "ciphertext".
Definition st1 : sample_state := (append 5 cipher (j0, ProofSample.w1)).2.
Definition st2 : sample_state := (sync st1).2.
(** A second append, and a deletion that covers nothing. *)
Definition st2' : sample_state := (append 6 cipher st2).2.
Definition st3 : sample_state := (delete_covered 0 st2').2.
(** The power fails and everything unsynced is lost. *)
Definition w3 : Inner := crash_all_lost st3.2.
Definition record1 : JournalRecord := mkJournalRecord 1 5 cipher.

Lemma j0_ok : writer_ok (λ _, []) j0 ProofSample.w1.
Proof.
  split.
  - by split.
  - split; [exact ProofSample.w1_inv|constructor|intros a [=]|intros f [=]|exact ProofSample.w1_attested].
Qed.

Lemma append_runs : append 5 cipher (j0, ProofSample.w1) = (Ok 1, (st1.1, st1.2)).
Proof. vm_compute. reflexivity. Qed.

Lemma journal_sync_runs : sync (st1.1, st1.2) = (Ok 1, (st2.1, st2.2)).
Proof. vm_compute. reflexivity. Qed.

Lemma append2_runs : append 6 cipher (st2.1, st2.2) = (Ok 2, (st2'.1, st2'.2)).
Proof. vm_compute. reflexivity. Qed.

Lemma delete_runs : delete_covered 0 (st2'.1, st2'.2) = (Ok 0, (st3.1, st3.2)).
Proof. vm_compute. reflexivity. Qed.

(** The next data sync of the segment fails; then I/O works again. *)
Definition with_hook (h : option FaultHook) (s : Inner) : Inner :=
  mkInner (inodes s) (names s) (next_inode s) (next_change s) (dirs s) (locks s) h (partial_hook s)
    (lenient_sync_failures s) (calls s) (tearing s).
Definition faulty : FaultHook := λ n op,
  match op with
  | FSyncData p => if String.eqb p (journal_segment 1) && (6 <=? n)%nat then Some (OtherIo 5) else None
  | _ => None
  end.
Definition f1 : sample_state := (append 5 cipher (j0, with_hook (Some faulty) ProofSample.w1)).2.
Definition f2 : sample_state := (sync f1).2.
Definition f3 : Inner := with_hook None f2.2.
Definition f4 : sample_state := (sync (f2.1, f3)).2.

(** A journal of small segments: the first is covered and deleted. *)
Definition d0 : JournalWriter (F := CrashFile) (HT := bytes) := resume ProofSample.uuid 100 0 1 [] ProofSample.p0.
Definition d1 : sample_state := (append 5 cipher (d0, ProofSample.w1)).2.
Definition d2 : sample_state := (append 6 cipher d1).2.
Definition d3 : sample_state := (delete_covered 1 d2).2.

Lemma faulty_runs :
  append 5 cipher (j0, with_hook (Some faulty) ProofSample.w1) = (Ok 1, (f1.1, f1.2)) ∧
  sync (f1.1, f1.2) = (Err (CoreIo (OtherIo 5)), (f2.1, f2.2)) ∧ sync (f2.1, f3) = (Ok 1, (f4.1, f4.2)) ∧
  quiet f3 ∧ j_appended_sequence f2.1 = 1.
Proof. split; [by vm_compute|]. split; [by vm_compute|]. split; [by vm_compute|]. split; [|by vm_compute]. by split; vm_compute. Qed.

Lemma faulty_publishable a : j_active f2.1 = Some a → publishable f3 (proof_candidate f2.1 a).
Proof.
  intros Ha. exists ProofSample.p0. revert Ha. vm_compute. intros [= <-]. done.
Qed.

Lemma small_runs :
  append 5 cipher (d0, ProofSample.w1) = (Ok 1, (d1.1, d1.2)) ∧ append 6 cipher (d1.1, d1.2) = (Ok 2, (d2.1, d2.2)) ∧
  delete_covered 1 (d2.1, d2.2) = (Ok 1, (d3.1, d3.2)) ∧ length (j_sealed d2.1) = 1%nat ∧ j_sealed d3.1 = [].
Proof. split; [by vm_compute|]. split; [by vm_compute|]. split; [by vm_compute|]. split; by vm_compute. Qed.

Definition segment1 : SegmentInfo := mkSegmentInfo 1 1 1 90.

Lemma runs_segments : segments st1.1 = [segment1] ∧ segments st2.1 = [segment1] ∧
  j_volume_uuid st1.1 = ProofSample.uuid.
Proof. vm_compute. done. Qed.

Lemma cipher_ok u : u64_ok u → jobs_ok [(u, cipher)].
Proof. intros Hu. constructor; [|constructor]. split; [exact Hu|]. by vm_compute. Qed.

(** Only the lemmas above look into the states of the run. *)
#[global] Opaque st1 st2 st2' st3 f1 f2 f4 d1 d2 d3.

Lemma hooked_inv h w : (∀ f n op, h = Some f → f n op ≠ Some NotFound) → inv w → inv (with_hook h w).
Proof. intros Hh [Hd He Hf _]. by split. Qed.

Lemma unhooked_keeps (P : string → Prop) w : inv w → keeps P w (with_hook None w).
Proof. intros Hi. apply same_path_keeps; [by apply hooked_inv|by intros [_ ?]|done|done]. Qed.

Lemma hooked_attested h w p : attested w p → attested (with_hook h w) p.
Proof. intros Ha. exact Ha. Qed.

Lemma hooked_ok : writer_ok (λ _, []) j0 (with_hook (Some faulty) ProofSample.w1).
Proof.
  split; [by split|]. split; [|constructor|intros a [=]|intros f [=]|apply hooked_attested, ProofSample.w1_attested].
  apply hooked_inv, ProofSample.w1_inv. intros f n op [= <-]. unfold faulty. by repeat case_match.
Qed.

Lemma d0_ok : writer_ok (λ _, []) d0 ProofSample.w1.
Proof.
  split; [by split|]. split; [exact ProofSample.w1_inv|constructor|intros a [=]|intros f [=]|exact ProofSample.w1_attested].
Qed.

(** After the failed barrier, with the fault gone. *)
Lemma f3_ok : ∃ L, writer_ok L f2.1 f3.
Proof.
  destruct faulty_runs as (Ha & Hs & _).
  destruct (append_ok (λ _, []) j0 (with_hook (Some faulty) ProofSample.w1) 5 cipher (Ok 1) f1.1 f1.2 hooked_ok) as (L & [Hok _ _ _]); [clear; by vm_compute|clear; by vm_compute|exact Ha|].
  destruct (sync_ok _ _ _ _ _ _ Hok Hs) as [Hok2 _ _ _ _ _ _ _]. exists L. eapply other_ok; [exact Hok2|].
  exact (unhooked_keeps _ f2.2 (d_inv _ _ _ (proj2 Hok2))).
Qed.

Lemma st1_ok : ∃ L, writer_ok L st1.1 st1.2 ∧ L 1 = [record1].
Proof.
  destruct (append_ok (λ _, []) j0 ProofSample.w1 5 cipher (Ok 1) st1.1 st1.2 j0_ok) as (L & [Hok _ _ (_ & Hlog & _)]);
    [by vm_compute|by vm_compute|exact append_runs|].
  exists L. split; [exact Hok|]. unfold log at 1 in Hlog. destruct runs_segments as (Hs & _ & _). rewrite Hs in Hlog.
  simpl in Hlog. by rewrite app_nil_r in Hlog.
Qed.

End JournalSample.

#[local] Existing Instance Ieee.ieee.
Import Journal JournalSample.

(** The record survives the power failure although a deletion below it and
    another append came in between. *)
Lemma acknowledged_survive_witness : recovered w3 1 ProofSample.uuid 1 [record1].
Proof.
  destruct st1_ok as (L & Hok & HL). destruct runs_segments as (_ & Hseg & Hu).
  destruct (acknowledged_survive L st1.1 st1.2 1 st2.1 st2.2 [0] st3.1 st3.2 w3 Hok journal_sync_runs) as (_ & _ & Hall).
  - apply (run_step _ None (st2'.1, st2'.2)).
    { eapply step_append; [| |exact append2_runs]; clear; by vm_compute. }
    apply (run_step _ (Some 0) (st3.1, st3.2) []); [eapply step_delete, delete_runs|apply run_nil].
  - apply rtc_once. right. reflexivity.
  - destruct (Hall segment1) as [(c & Hc & Hle)|Hrec].
    + rewrite Hseg. apply list_elem_of_here.
    + apply list_elem_of_singleton in Hc as ->. exfalso. apply Hle. reflexivity.
    + rewrite Hu in Hrec. change (s_index segment1) with 1 in Hrec. rewrite HL in Hrec. exact Hrec.
Defined.

Lemma sync_acknowledges_witness : ∃ L h, all_durable L st2.1 st2.2 ∧ L 1 = [record1] ∧
  attested st2.2 h ∧ 1 ≤ durable_sequence h.
Proof.
  destruct st1_ok as (L & Hok & HL).
  destruct (sync_acknowledges L st1.1 st1.2 (Ok 1) st2.1 st2.2 Hok journal_sync_runs) as (_ & _ & _ & Hn).
  destruct (Hn 1 eq_refl) as (_ & _ & Hall & _ & Hpr).
  destruct Hpr as (h & Hat & Hle); [clear; vm_compute; reflexivity|].
  exists L, h. split; [exact Hall|]. split; [exact HL|]. split; [exact Hat|exact Hle].
Defined.


Lemma append_exact_witness : ∃ L, writer_ok L st1.1 st1.2 ∧ log L st1.1 = [record1].
Proof.
  destruct (append_exact (λ _, []) j0 ProofSample.w1 5 cipher (Ok 1) st1.1 st1.2 j0_ok)
    as (L & Hok & _ & _ & _ & Hlog); [by vm_compute|by vm_compute|exact append_runs|].
  exists L. split; [exact Hok|]. rewrite Hlog. reflexivity.
Defined.

(** The covered segment of two is deleted, the active one stays. *)
Lemma delete_only_covered_witness : ∃ gone, j_sealed d2.1 ≡ₚ gone ++ [] ∧ length gone = 1%nat ∧
  Forall (λ s, last_sequence s ≤ 1) gone ∧ 1 = covered_segment_count d2.1 1.
Proof.
  destruct small_runs as (Ha & Hb & Hd & Hl & He).
  destruct (append_ok (λ _, []) d0 ProofSample.w1 5 cipher (Ok 1) d1.1 d1.2 d0_ok) as (L & [Hok _ _ _]); [clear; by vm_compute|clear; by vm_compute|exact Ha|].
  destruct (append_ok L d1.1 d1.2 6 cipher (Ok 2) d2.1 d2.2 Hok) as (L' & [Hok2 _ _ _]); [clear; by vm_compute|clear; by vm_compute|exact Hb|].
  destruct (delete_only_covered L' d2.1 d2.2 1 (Ok 1) d3.1 d3.2 Hok2 Hd) as (_ & _ & (gone & Hse & _ & Hg & _) & Hn).
  rewrite He in Hse. exists gone. split; [exact Hse|].
  split; [rewrite <- Hl, Hse, app_nil_r; reflexivity|]. split; [exact Hg|]. exact (proj1 (Hn 1 eq_refl)).
Defined.

Lemma sanitizer_never_fires_witness : ∃ w, check_invariants (st2.1, st2.2) = (Ok true, (st2.1, w)).
Proof.
  destruct st1_ok as (L & Hok & _).
  refine (sanitizer_never_fires L st1.1 st1.2 [] st2.1 st2.2 Hok _).
  apply (run_step _ None (st2.1, st2.2) []); [eapply step_sync, journal_sync_runs|apply run_nil].
Defined.

Lemma admission_exact_witness : total_bytes st1.1 = add64 (total_bytes j0) (append_footprint j0 [42]).
Proof.
  refine (proj1 (admission_exact (λ _, []) j0 ProofSample.w1 [(5, cipher)] [1] st1.1 st1.2 j0_ok _ _ _)).
  - by apply cipher_ok.
  - unfold append_list, m_bind. rewrite append_runs. reflexivity.
  - vm_compute. reflexivity.
Defined.
