(* ===== verification/RecoveryScan.v ===== *)
(** * RecoveryScan: the streaming segment scanner
    (crates/maki-core/src/recovery_scan.rs, with the error type of
    recovery.rs)

    The scanner reads a segment file record by record with fixed buffers and
    hands every record above the checkpoint to a callback.  The theorems say
    that it computes what the in-memory scanner [scan_segment_bounded] of
    JournalFormat computes on the same bytes, that it visits exactly the
    records above the checkpoint in order, binds them with its fingerprint,
    always stops, and, once reads work, refuses a segment only for the
    reasons it names. *)

From S2P Require Import Prelude Codec Layout Geometry JournalFormat Backing JournalWriter.

Local Open Scope Z_scope.

(** The messages are dropped.  [RecDiverge] is not an error of the program:
    it marks a loop of this model that ran out of fuel, which no call does
    ([scan_terminates]). *)
Inductive RecoveryError :=
| RecAlreadyAttached | RecCorrupt | RecFormat (e : FormatError) | RecIo (kind : ErrorKind)
| RecDiverge.

(** [From<CoreError>]. *)
Definition rec_of_core (e : CoreError) : RecoveryError :=
  match e with
  | CoreIo kind => RecIo kind
  | CoreFormat f => RecFormat f
  | _ => RecCorrupt
  end.

Definition READ_CHUNK : Z := 64 * 1024.

(** Rounds a loop needs that reads [n] bytes in chunks. *)
Definition chunks (n : Z) : nat := Z.to_nat (div_ceil n READ_CHUNK).

(** What the CRC-checked header says. *)
Definition RecordHeader_decode `{Crc32} (buf : bytes) : option ParsedHeader :=
  if negb (length buf =? HEADER)%nat || negb (bytes_eqb (take 4 buf) RECORD_MAGIC) then None
  else
    payload ← to_option (strip_verify_crc buf);
    to_option (run_rd header_body payload).

Record SegmentBodyScan := mkSegmentBodyScan {
  b_record_count : Z;
  b_valid_body_bytes : Z;
  b_outcome : ScanOutcome;
  b_fingerprint : Z
}.

Section Scanner.
Context `{Crc32} `{Backing W F} `{Hasher HT}.

(** [range_is_zero]: the loop reads on after the first nonzero byte. *)
Fixpoint zero_go (fuel : nat) (file : F) (offset end_ : Z) (zero : bool) : M W ErrorKind bool :=
  match fuel with
  | O => m_ret zero
  | S fuel =>
      if offset <? end_ then
        let count := Z.min (end_ - offset) READ_CHUNK in
        let* buffer := f_read_at file offset count in
        zero_go fuel file (offset + count) end_ (if all_zero buffer then zero else false)
      else m_ret zero
  end.

Definition range_is_zero (file : F) (start end_ : Z) : M W ErrorKind bool :=
  zero_go (chunks (end_ - start)) file start end_ true.

(** The field [name] is only used in messages. *)
Record SegmentScanner := mkSegmentScanner {
  sc_file : F;
  sc_header : bytes;
  sc_body_len : Z;
  sc_first_sequence : Z;
  sc_durable_len : Z;
  sc_required_boundary : option (Z * Z);
  sc_geometry : Geometry;
  sc_checkpoint_sequence : Z
}.

(** The payload loop: the bytes read so far (the CRC hasher's input), the
    candidate fingerprint and [read_end]. *)
Fixpoint payload_go (fuel : nat) (file : F) (base len read : Z) (payload : bytes)
    (candidate : HT) (read_end : Z) : M W ErrorKind (bytes * HT * Z) :=
  match fuel with
  | O => m_ret (payload, candidate, read_end)
  | S fuel =>
      if read <? len then
        let count := Z.min (len - read) READ_CHUNK in
        let* chunk := f_read_at file (base + read) count in
        payload_go fuel file base len (read + count) (payload ++ chunk)
          (hasher_write candidate chunk) (read_end + count)
      else m_ret (payload, candidate, read_end)
  end.

(** What one round of the scan loop finds: the end of the scan, or a record
    whose checksums hold. *)
Inductive StreamStep :=
| SDone (outcome : ScanOutcome) (read_end : Z)
| SRecord (header : ParsedHeader) (payload : bytes) (candidate : HT) (read_end : Z).

(** [if in_durable { Corrupt } else { TornTail }]. *)
Definition stream_damaged (in_durable : bool) (at_ : nat) (reason : CorruptReason) : ScanOutcome :=
  if in_durable then Corrupt at_ reason else TornTail at_.

(** The part of a round behind a header [buf] that decodes, up to the
    payload's checksum. *)
Definition stream_record (sc : SegmentScanner) (position record_count : Z) (fingerprint : HT)
    (buf : bytes) (header : ParsedHeader) : M W RecoveryError StreamStep :=
  let at_ := Z.to_nat position in
  let in_durable := position <? sc_durable_len sc in
  let read_end := position + blen buf in
  if MAX_PAYLOAD <? h_payload_len header then
    m_ret (SDone (Corrupt at_ (PayloadLenExceedsCap (h_payload_len header))) read_end)
  else
    let* expected := m_lift (ok_or (checked_add (sc_first_sequence sc) record_count) RecCorrupt) in
    if negb (h_sequence header =? expected) then
      m_ret (SDone (Corrupt at_ (SequenceMismatch (h_sequence header) expected)) read_end)
    else if sc_body_len sc - position <? RECORD_HEADER_SIZE + h_payload_len header then
      m_ret (SDone (stream_damaged in_durable at_ RecordTruncated) read_end)
    else
      let* '(payload, candidate, read_end) :=
        m_map_err RecIo (payload_go (chunks (h_payload_len header)) (sc_file sc)
          (SEGMENT_HEADER_SIZE + position + RECORD_HEADER_SIZE) (h_payload_len header) 0 []
          (hasher_write fingerprint buf) read_end) in
      if negb (crc32 payload =? h_payload_crc header) then
        m_ret (SDone (stream_damaged in_durable at_ PayloadCrcFailure) read_end)
      else m_ret (SRecord header payload candidate read_end).

(** One round. *)
Definition stream_step (sc : SegmentScanner) (position record_count read_end : Z)
    (fingerprint : HT) : M W RecoveryError StreamStep :=
  if position =? sc_body_len sc then m_ret (SDone Clean read_end)
  else
    let at_ := Z.to_nat position in
    let header_len := Z.min (sc_body_len sc - position) RECORD_HEADER_SIZE in
    let* buf := m_map_err RecIo (f_read_at (sc_file sc) (SEGMENT_HEADER_SIZE + position) header_len) in
    match RecordHeader_decode buf with
    | None =>
        let* zero := m_map_err RecIo (range_is_zero (sc_file sc) (SEGMENT_HEADER_SIZE + position)
                       (SEGMENT_HEADER_SIZE + sc_body_len sc)) in
        m_ret (SDone (if position <? sc_durable_len sc
                      then Corrupt at_ (if zero then ZeroedRecord else HeaderDamaged)
                      else if zero then Clean else TornTail at_) (sc_body_len sc))
    | Some header => stream_record sc position record_count fingerprint buf header
    end.

(** The checks on a record whose checksums hold; the result is
    [required_boundary_seen]. *)
Definition check_record (sc : SegmentScanner) (header : ParsedHeader) (position : Z) (seen : bool)
    : result RecoveryError bool :=
  guard? h_unit_index header <? num_units (sc_geometry sc) else RecCorrupt in
  guard? h_payload_len header <=? max_ciphertext_size (sc_geometry sc) else RecCorrupt in
  match sc_required_boundary sc with
  | Some (sequence, end_) =>
      if h_sequence header =? sequence then
        guard? position + (RECORD_HEADER_SIZE + h_payload_len header) =? end_ else RecCorrupt in
        Ok true
      else Ok seen
  | None => Ok seen
  end.

(** Whether the payload is kept for the callback. *)
Definition retain_payload (sc : SegmentScanner) (header : ParsedHeader) : bool :=
  (h_unit_index header <? num_units (sc_geometry sc))
  && (h_payload_len header <=? max_ciphertext_size (sc_geometry sc))
  && (sc_checkpoint_sequence sc <? h_sequence header).

Record LoopEnd := mkLoopEnd {
  e_position : Z;
  e_record_count : Z;
  e_read_end : Z;
  e_seen : bool;
  e_fingerprint : HT;
  e_outcome : ScanOutcome
}.

(** The callback threads a state of its own; what it accumulated is lost
    with the scan when either fails. *)
Section Accept.
Context {A : Type} (accept : JournalRecord → A → M W RecoveryError A).

Fixpoint scan_loop (fuel : nat) (sc : SegmentScanner) (position record_count read_end : Z)
    (seen : bool) (fingerprint : HT) (acc : A) : M W RecoveryError (LoopEnd * A) :=
  match fuel with
  | O => m_err RecDiverge
  | S fuel =>
      let* step := stream_step sc position record_count read_end fingerprint in
      match step with
      | SDone outcome read_end =>
          m_ret (mkLoopEnd position record_count read_end seen fingerprint outcome, acc)
      | SRecord header payload candidate read_end =>
          let* seen := m_lift (check_record sc header position seen) in
          let* acc := if retain_payload sc header
                      then accept (mkJournalRecord (h_sequence header) (h_unit_index header) payload) acc
                      else m_ret acc in
          scan_loop fuel sc (position + (RECORD_HEADER_SIZE + h_payload_len header)) (record_count + 1)
            read_end seen candidate acc
      end
  end.

Definition is_corrupt (o : ScanOutcome) : bool :=
  match o with Corrupt _ _ => true | _ => false end.

(** Every round consumes a record header, so the body's length in headers
    bounds the rounds. *)
Definition scan_fuel (sc : SegmentScanner) : nat := S (Z.to_nat (sc_body_len sc / RECORD_HEADER_SIZE)).

Definition scan (sc : SegmentScanner) (acc : A) : M W RecoveryError (SegmentBodyScan * A) :=
  let* '(e, acc) := scan_loop (scan_fuel sc) sc 0 0 0 false (hasher_write hasher_new (sc_header sc)) acc in
  let* _ := if negb (is_corrupt (e_outcome e)) && (e_read_end e <? sc_body_len sc)
            then m_map_err RecIo (range_is_zero (sc_file sc) (SEGMENT_HEADER_SIZE + e_read_end e)
                   (SEGMENT_HEADER_SIZE + sc_body_len sc))
            else m_ret true in
  let* _ := match sc_required_boundary sc with
            | Some _ => if e_seen e then m_ret tt else m_err RecCorrupt
            | None => m_ret tt
            end in
  m_ret (mkSegmentBodyScan (e_record_count e) (e_position e) (e_outcome e)
           (hasher_finish (e_fingerprint e)), acc).
End Accept.
End Scanner.

(** ** Reading a file piece by piece *)

Lemma all_zero_app a b : all_zero (a ++ b) = all_zero a && all_zero b.
Proof. apply forallb_app. Qed.

(** [take (n + k)] of a list in two pieces. *)
Lemma take_split {A} (n k : nat) (l : list A) : take (n + k) l = take n l ++ take k (drop n l).
Proof.
  rewrite <- (take_drop n (take (n + k) l)), take_take, Nat.min_l by lia. f_equal.
  rewrite skipn_firstn_comm. f_equal. lia.
Qed.

(** [c[o .. o + n]]. *)
Definition range_of (c : bytes) (o n : Z) : bytes := take (Z.to_nat n) (drop (Z.to_nat o) c).

Lemma range_split c o n k :
  0 ≤ o → 0 ≤ k ≤ n → range_of c o n = range_of c o k ++ range_of c (o + k) (n - k).
Proof.
  intros Ho Hk. unfold range_of. replace (Z.to_nat n) with (Z.to_nat k + Z.to_nat (n - k))%nat by lia.
  rewrite take_split, drop_drop. do 3 f_equal. lia.
Qed.

Lemma range_nil c o n : n ≤ 0 → range_of c o n = [].
Proof. intros. unfold range_of. by replace (Z.to_nat n) with O by lia. Qed.

Lemma blen_range c o n : 0 ≤ o → 0 ≤ n → o + n ≤ blen c → blen (range_of c o n) = n.
Proof. intros. unfold range_of, blen in *. rewrite length_take, length_drop. lia. Qed.

Section Reads.
Context `{Crc32} `{BackingLaws W F} `{HasherLaws HT}.

(** [f] is open on [p], which shows [c]. *)
Definition at_file (f : F) (p : string) (c : bytes) (w : W) : Prop :=
  inv w ∧ handle w f p ∧ vis w p = Some c ∧ blen c ≤ U64_MAX.

Lemma at_file_keeps (P : string → Prop) f p c w w' :
  keeps P w w' → P p → at_file f p c w → at_file f p c w'.
Proof.
  intros Hk Hp (Hi & Hh & Hv & Hl). split; [by eapply keeps_inv|]. split; [by eapply keeps_handle|].
  split; [|done]. by rewrite (keeps_vis _ _ _ p Hk Hp).
Qed.

(** From [at_file], [m] changes nothing, can only return [v], and does so
    when nothing fails. *)
Definition reads_as {Er A} f p c (m : M W Er A) (v : A) : Prop :=
  ∀ w r w', at_file f p c w → m w = (r, w') →
    keeps (λ _, True) w w' ∧ (∀ a, r = Ok a → a = v) ∧ (quiet w → r = Ok v).

Lemma reads_ret {Er A} f p c (v : A) : reads_as (Er := Er) f p c (m_ret v) v.
Proof. intros w r w' [Hi _] [= <- <-]. split; [by apply keeps_refl|]. split; [|done]. by intros a [= <-]. Qed.

Lemma reads_bind {Er A B} f p c (m : M W Er A) (k : A → M W Er B) v u :
  reads_as f p c m v → reads_as f p c (k v) u → reads_as f p c (m_bind m k) u.
Proof.
  intros Hm Hk w r w' Hw Hr. apply m_bind_inv in Hr as [(a & w1 & Ha & Hr)|(e & He & ->)].
  - destruct (Hm _ _ _ Hw Ha) as (Hk1 & Hv & Hq1). rewrite (Hv a eq_refl) in Hr.
    destruct (Hk _ _ _ (at_file_keeps _ _ _ _ _ _ Hk1 I Hw) Hr) as (Hk2 & Hu & Hq2).
    split; [by eapply keeps_trans|]. split; [done|]. intros Hq. by eapply Hq2, keeps_quiet.
  - destruct (Hm _ _ _ Hw He) as (Hk1 & _ & Hq1). split; [done|]. split; [done|]. intros Hq.
    by specialize (Hq1 Hq).
Qed.

Lemma reads_map_err {Er Er' A} f p c (g : Er → Er') (m : M W Er A) v :
  reads_as f p c m v → reads_as f p c (m_map_err g m) v.
Proof.
  intros Hm w r w' Hw (r0 & Hr & ->)%m_map_err_inv. destruct (Hm _ _ _ Hw Hr) as (Hk & Hv & Hq).
  split; [done|]. split; [|intros Hqw; by rewrite (Hq Hqw)].
  destruct r0 as [b|e]; intros a Ha; [|done]. injection Ha as <-. by apply Hv.
Qed.

Lemma reads_at f p c o n :
  0 ≤ o → 0 ≤ n → o + n ≤ blen c → reads_as f p c (f_read_at f o n) (range_of c o n).
Proof.
  intros Ho Hn Hc w r w' (Hi & Hh & Hv & Hl) Hr.
  destruct (law_read w f p c o n r w' Hi Hh Hv Ho Hn ltac:(lia) Hr) as (Hk & Hok & _ & Hq).
  assert (read_range c o n = Some (range_of c o n)) as Hrr
    by (unfold read_range; by rewrite (proj2 (Z.leb_le _ _)) by lia).
  split; [done|]. split; [|by auto]. intros b ->. specialize (Hok b eq_refl). congruence.
Qed.

(** A chunk of what is left to read. *)
Lemma chunk_step rest fuel :
  0 < rest → rest ≤ READ_CHUNK * Z.of_nat (S fuel) →
  let n := Z.min rest READ_CHUNK in 0 < n ≤ rest ∧ rest - n ≤ READ_CHUNK * Z.of_nat fuel.
Proof. unfold READ_CHUNK. lia. Qed.

Lemma chunks_enough n : 0 ≤ n → n ≤ READ_CHUNK * Z.of_nat (chunks n).
Proof.
  intros Hn. unfold chunks, READ_CHUNK. pose proof (div_ceil_spec n (64 * 1024) ltac:(lia)).
  pose proof (div_ceil_nonneg n (64 * 1024) Hn ltac:(lia)). lia.
Qed.

Lemma zero_go_reads f p c end_ : end_ ≤ blen c → ∀ fuel o zero,
  0 ≤ o → end_ - o ≤ READ_CHUNK * Z.of_nat fuel →
  reads_as f p c (zero_go fuel f o end_ zero) (zero && all_zero (range_of c o (end_ - o))).
Proof.
  intros He. induction fuel as [|fuel IH]; intros o zero Ho Hf; cbn [zero_go].
  { rewrite range_nil, andb_true_r by lia. apply reads_ret. }
  destruct (Z.ltb_spec o end_) as [Hlt|]; [|rewrite range_nil, andb_true_r by lia; apply reads_ret].
  destruct (chunk_step (end_ - o) fuel ltac:(lia) Hf) as [Hn Hrest]. set (n := Z.min _ _) in *.
  eapply reads_bind; [apply reads_at; lia|].
  replace (zero && all_zero (range_of c o (end_ - o))) with
    ((if all_zero (range_of c o n) then zero else false) && all_zero (range_of c (o + n) (end_ - (o + n)))).
  - apply IH; lia.
  - rewrite (range_split c o (end_ - o) n), all_zero_app by lia.
    replace (end_ - (o + n)) with (end_ - o - n) by lia. by destruct zero, (all_zero (range_of c o n)).
Qed.

Lemma range_is_zero_reads f p c start end_ :
  0 ≤ start ≤ end_ → end_ ≤ blen c →
  reads_as f p c (range_is_zero f start end_) (all_zero (range_of c start (end_ - start))).
Proof. intros Hs He. apply (zero_go_reads f p c end_ He _ start true); [lia|]. apply chunks_enough. lia. Qed.

Lemma payload_go_reads f p c base len : 0 ≤ base → base + len ≤ blen c → ∀ fuel read payload (h : HT) re,
  0 ≤ read ≤ len → len - read ≤ READ_CHUNK * Z.of_nat fuel →
  let rest := range_of c (base + read) (len - read) in
  reads_as f p c (payload_go fuel f base len read payload h re)
    (payload ++ rest, hasher_write h rest, re + (len - read)).
Proof.
  intros Hb Hl. induction fuel as [|fuel IH]; intros read payload h re Hr Hf; cbn [payload_go]; cbv zeta.
  { rewrite range_nil, app_nil_r, hasher_write_nil by lia. replace (re + (len - read)) with re by lia.
    apply reads_ret. }
  destruct (Z.ltb_spec read len) as [Hlt|].
  2: { rewrite range_nil, app_nil_r, hasher_write_nil by lia. replace (re + (len - read)) with re by lia.
       apply reads_ret. }
  destruct (chunk_step (len - read) fuel ltac:(lia) Hf) as [Hn Hrest]. set (n := Z.min _ _) in *.
  eapply reads_bind; [apply reads_at; lia|].
  rewrite (range_split c (base + read) (len - read) n) by lia.
  rewrite (assoc_L (++)), hasher_write_app. replace (re + (len - read)) with (re + n + (len - (read + n))) by lia.
  replace (base + read + n) with (base + (read + n)) by lia. replace (len - read - n) with (len - (read + n)) by lia.
  apply IH; lia.
Qed.
End Reads.

(** ** Specifications of recovery steps *)
Section Specs.
Context `{BackingLaws W F}.

(** From [w], [m] leaves the paths of [K] alone however it ends, never runs
    out of fuel, and a result it returns satisfies [Q]. *)
Definition spec {A} (K : string → Prop) (w : W) (m : M W RecoveryError A) (Q : A → W → Prop) : Prop :=
  ∀ r w', m w = (r, w') → keeps K w w' ∧ r ≠ Err RecDiverge ∧ ∀ a, r = Ok a → Q a w'.

Lemma spec_ret {A} K w (a : A) (Q : A → W → Prop) : inv w → Q a w → spec K w (m_ret a) Q.
Proof. intros Hi Hq r w' [= <- <-]. split; [by apply keeps_refl|]. split; [done|]. by intros b [= <-]. Qed.

Lemma spec_err {A} K w e (Q : A → W → Prop) : inv w → e ≠ RecDiverge → spec K w (m_err e) Q.
Proof. intros Hi He r w' [= <- <-]. split; [by apply keeps_refl|]. split; [congruence|done]. Qed.

Lemma spec_bind {A B} K w (m : M W RecoveryError A) (k : A → M W RecoveryError B) Q R :
  spec K w m Q → (∀ a w1, keeps K w w1 → Q a w1 → spec K w1 (k a) R) → spec K w (m_bind m k) R.
Proof.
  intros Hm Hk r w' Hr. apply m_bind_inv in Hr as [(a & w1 & Ha & Hr)|(e & He & ->)].
  - destruct (Hm _ _ Ha) as (Hk1 & _ & Hq). destruct (Hk a w1 Hk1 (Hq a eq_refl) _ _ Hr) as (Hk2 & Hd & Hr2).
    split; [by eapply keeps_trans|done].
  - destruct (Hm _ _ He) as (Hk1 & Hd & _). split; [done|]. split; [congruence|done].
Qed.

Lemma spec_weaken {A} (K K' : string → Prop) w (m : M W RecoveryError A) (Q R : A → W → Prop) :
  (∀ q, K' q → K q) → (∀ a w', keeps K w w' → Q a w' → R a w') → spec K w m Q → spec K' w m R.
Proof.
  intros HK HQ Hm r w' Hr. destruct (Hm r w' Hr) as (Hk & Hd & Hq).
  split; [by eapply keeps_weaken|]. split; [done|]. auto.
Qed.

(** A call whose errors become the caller's. *)
Lemma spec_map_err {A Er} K w (g : Er → RecoveryError) (m : M W Er A) (Q : A → W → Prop) :
  (∀ e, g e ≠ RecDiverge) → (∀ r w', m w = (r, w') → keeps K w w' ∧ ∀ a, r = Ok a → Q a w') →
  spec K w (m_map_err g m) Q.
Proof.
  intros Hg Hm r w' (r0 & Hr & ->)%m_map_err_inv. destruct (Hm _ _ Hr) as [Hk Hq]. split; [done|].
  destruct r0 as [a|e]; (split; [|intros b Hb]); [done|injection Hb as <-; by apply Hq| |done].
  intros He. injection He as He. by apply (Hg e).
Qed.

(** A call whose result the caller inspects. *)
Lemma spec_try {A Er} K w (m : M W Er A) (Q : result Er A → W → Prop) :
  (∀ r w', m w = (r, w') → keeps K w w' ∧ Q r w') → spec K w (m_try m) Q.
Proof.
  intros Hm r w' (r0 & Hr & ->)%m_try_inv. destruct (Hm _ _ Hr) as [Hk Hq].
  split; [done|]. split; [done|]. by intros a [= <-].
Qed.

Lemma spec_lift {A} K w (v : result RecoveryError A) (Q : A → W → Prop) :
  inv w → v ≠ Err RecDiverge → (∀ a, v = Ok a → Q a w) → spec K w (m_lift v) Q.
Proof. intros Hi Hd Hq r w' [= <- <-]. split; [by apply keeps_refl|]. by split. Qed.

Lemma spec_reads {A Er} f p c w (g : Er → RecoveryError) (m : M W Er A) v :
  at_file f p c w → (∀ e, g e ≠ RecDiverge) → reads_as f p c m v →
  spec (λ _, True) w (m_map_err g m) (λ a _, a = v).
Proof.
  intros Hw Hg Hm. apply spec_map_err; [done|]. intros r w' Hr. destruct (Hm _ _ _ Hw Hr) as (Hk & Hv & _).
  split; [done|]. intros a ->. by apply Hv.
Qed.
End Specs.

(** ** One round *)

Lemma range_range c a n o k :
  0 ≤ a → 0 ≤ o → o + k ≤ n → range_of c (a + o) k = range_of (range_of c a n) o k.
Proof.
  intros Ha Ho Hk. unfold range_of. rewrite skipn_firstn_comm, take_take, drop_drop.
  rewrite Nat.min_l by lia. do 2 f_equal. lia.
Qed.

Section Rounds.
Context `{Crc32} `{BackingLaws W F} `{HasherLaws HT}.

Lemma decode_header rem : RecordHeader_decode (take HEADER rem) = parse_header rem.
Proof.
  unfold RecordHeader_decode, parse_header. rewrite length_take.
  destruct (Nat.ltb_spec (length rem) HEADER) as [Hlt|Hge].
  - by rewrite (proj2 (Nat.eqb_neq _ _)) by lia.
  - rewrite (proj2 (Nat.eqb_eq _ _)) by lia. by destruct (bytes_eqb _ _).
Qed.

Context (sc : SegmentScanner (F := F)) (p : string) (c : bytes).
Abbreviation f := (sc_file sc).
Abbreviation body_len := (sc_body_len sc).
Abbreviation first := (sc_first_sequence sc).

(** The scanned part of the file. *)
Definition body : bytes := range_of c SEGMENT_HEADER_SIZE body_len.
Definition body_bound : option nat := Some (Z.to_nat (sc_durable_len sc)).

Context (Hlen : 0 ≤ body_len) (Hfits : SEGMENT_HEADER_SIZE + body_len ≤ blen c).

Lemma length_body : length body = Z.to_nat body_len.
Proof.
  pose proof (blen_range c SEGMENT_HEADER_SIZE body_len ltac:(done) Hlen Hfits) as Hb.
  unfold blen in Hb. unfold body. lia.
Qed.

Lemma body_range o n : 0 ≤ o → o + n ≤ body_len → range_of c (SEGMENT_HEADER_SIZE + o) n = range_of body o n.
Proof. intros. by apply range_range. Qed.

Lemma body_rest o : 0 ≤ o → range_of body o (body_len - o) = drop (Z.to_nat o) body.
Proof. intros. unfold range_of. apply take_ge. rewrite length_drop, length_body. lia. Qed.

(** What a round that ends without an I/O error has found, in terms of the
    in-memory scanner. *)
Definition step_matches (position record_count : Z) (fingerprint : HT) (st : StreamStep) : Prop :=
  match st with
  | SDone o read_end =>
      0 ≤ read_end ≤ body_len ∧
      scan_step body body_bound (Z.to_nat position) (first + record_count) = Done o
  | SRecord h pl candidate read_end =>
      let r := mkJournalRecord (h_sequence h) (h_unit_index h) pl in
      let next := position + (RECORD_HEADER_SIZE + h_payload_len h) in
      0 ≤ read_end ≤ body_len ∧ next ≤ body_len ∧ first + record_count ≤ U64_MAX ∧
      drop (Z.to_nat position) body = encode_record r ++ drop (Z.to_nat next) body ∧
      record_ok r ∧ sequence r = first + record_count ∧ blen pl = h_payload_len h ∧
      candidate = hasher_write fingerprint (encode_record r)
  end.

(** Either the round reads the bytes and finds what they say, or the
    sequence numbers are used up. *)
Definition round_ok (position record_count : Z) (fingerprint : HT) (m : M W RecoveryError StreamStep) : Prop :=
  (∃ st, reads_as f p c m st ∧ step_matches position record_count fingerprint st) ∨
  (U64_MAX < first + record_count ∧ ∀ w r w', at_file f p c w → m w = (r, w') →
     keeps (λ _, True) w w' ∧ is_ok r = false).

Lemma round_reads position record_count fingerprint m st :
  reads_as f p c m st → step_matches position record_count fingerprint st →
  round_ok position record_count fingerprint m.
Proof. left. by eexists. Qed.

Lemma round_bind {A} position record_count fingerprint (m : M W RecoveryError A) k v :
  reads_as f p c m v → round_ok position record_count fingerprint (k v) →
  round_ok position record_count fingerprint (m_bind m k).
Proof.
  intros Hm [(st & Hk & Hst)|(Hmax & Hk)]; [left; exists st; split; [by eapply reads_bind|done]|].
  right. split; [done|]. intros w r w' Hw Hr.
  apply m_bind_inv in Hr as [(a & w1 & Ha & Hr)|(e & He & ->)].
  - destruct (Hm _ _ _ Hw Ha) as (Hk1 & Hv & _). rewrite (Hv a eq_refl) in Hr.
    destruct (Hk _ _ _ (at_file_keeps _ _ _ _ _ _ Hk1 I Hw) Hr) as (Hk2 & Hf).
    split; [by eapply keeps_trans|done].
  - split; [|done]. by apply (Hm _ _ _ Hw He).
Qed.

Lemma durable_of position :
  0 ≤ position → in_durable body_bound (Z.to_nat position) = (position <? sc_durable_len sc).
Proof.
  intros Hp. simpl. destruct (Nat.ltb_spec (Z.to_nat position) (Z.to_nat (sc_durable_len sc)));
    symmetry; [apply Z.ltb_lt|apply Z.ltb_ge]; lia.
Qed.

Lemma header_range position :
  0 ≤ position ≤ body_len →
  range_of body position (Z.min (body_len - position) RECORD_HEADER_SIZE) =
  take HEADER (drop (Z.to_nat position) body).
Proof.
  intros Hp. unfold range_of, HEADER, RECORD_HEADER_SIZE.
  destruct (Z.le_ge_cases 32 (body_len - position)) as [Hl|Hl]; [by rewrite Z.min_r by lia|].
  rewrite Z.min_l by lia. rewrite !take_ge; [done|rewrite length_drop, length_body; lia..].
Qed.

Lemma stream_record_ok position record_count fingerprint h :
  0 ≤ position < body_len → parse_header (drop (Z.to_nat position) body) = Some h →
  round_ok position record_count fingerprint
    (stream_record sc position record_count fingerprint (take HEADER (drop (Z.to_nat position) body)) h).
Proof.
  intros Hpos Hp. pose proof (parse_header_some _ _ Hp) as [Hh Hd].
  pose proof (f_equal length Hd) as Hl. rewrite length_app, length_print_header, !length_drop, length_body in Hl.
  assert (blen (take HEADER (drop (Z.to_nat position) body)) = RECORD_HEADER_SIZE) as Hbl.
  { unfold blen. rewrite length_take, length_drop, length_body. unfold RECORD_HEADER_SIZE, HEADER in *. lia. }
  destruct Hh as (_ & _ & Hpl & _). unfold u32_ok in Hpl. unfold HEADER in Hl.
  assert (scan_step body body_bound (Z.to_nat position) (first + record_count) = _) as Hst by reflexivity.
  unfold scan_step in Hst at 2. rewrite length_body, (proj2 (Nat.eqb_neq _ _)) in Hst by lia.
  cbv zeta in Hst. rewrite durable_of, Hp in Hst by lia. unfold stream_record. rewrite Hbl.
  unfold RECORD_HEADER_SIZE in *.
  destruct (Z.ltb_spec MAX_PAYLOAD (h_payload_len h)) as [|Hcap].
  { eapply round_reads; [apply reads_ret|]. split; [lia|done]. }
  unfold checked_add at 1. destruct (Z.leb_spec (first + record_count) U64_MAX) as [Hmax|Hmax]; cycle 1.
  { right. split; [done|]. intros w r w' [Hi _] [= <- <-]. split; [by apply keeps_refl|done]. }
  eapply round_bind; [apply reads_ret|]. destruct (Z.eqb_spec (h_sequence h) (first + record_count)) as [Hseq|];
    cbn [negb] in Hst |- *; cycle 1.
  { eapply round_reads; [apply reads_ret|]. split; [lia|done]. }
  replace (body_len - position <? 32 + h_payload_len h) with
    (Z.to_nat body_len <? Z.to_nat position + HEADER + Z.to_nat (h_payload_len h))%nat.
  2: { unfold HEADER. destruct (Nat.ltb_spec (Z.to_nat body_len) (Z.to_nat position + 32 + Z.to_nat (h_payload_len h)));
       symmetry; [apply Z.ltb_lt|apply Z.ltb_ge]; lia. }
  destruct (Nat.ltb_spec (Z.to_nat body_len) (Z.to_nat position + HEADER + Z.to_nat (h_payload_len h))) as [|Hle].
  { eapply round_reads; [apply reads_ret|]. split; [lia|]. rewrite Hst. unfold damaged, stream_damaged.
    done. }
  unfold HEADER in Hle. set (pl := slice body (Z.to_nat position + HEADER) (Z.to_nat position + HEADER + Z.to_nat (h_payload_len h))) in *.
  assert (range_of c (SEGMENT_HEADER_SIZE + position + 32 + 0) (h_payload_len h - 0) = pl) as Hpay.
  { replace (SEGMENT_HEADER_SIZE + position + 32 + 0) with (SEGMENT_HEADER_SIZE + (position + 32)) by lia.
    rewrite body_range by lia. unfold range_of, pl, slice, HEADER. f_equal; [lia|]. f_equal. lia. }
  eapply round_bind.
  { apply reads_map_err, payload_go_reads; [unfold SEGMENT_HEADER_SIZE in *; lia..|].
    pose proof (chunks_enough (h_payload_len h)). lia. }
  rewrite Hpay. cbn [app]. destruct (Z.eqb_spec (crc32 pl) (h_payload_crc h)) as [Hcrc|]; cbn [negb] in Hst |- *; cycle 1.
  { eapply round_reads; [apply reads_ret|]. split; [lia|]. rewrite Hst. done. }
  eapply round_reads; [apply reads_ret|].
  destruct (framed_record body (Z.to_nat position) h Hp Hcap ltac:(rewrite length_body; unfold HEADER; lia) Hcrc)
    as (Hfr & Hpr & Hok & Hpb).
  split; [lia|]. split; [unfold RECORD_HEADER_SIZE; lia|]. split; [done|]. split.
  { fold pl in Hfr. rewrite Hfr at 1. do 2 f_equal. unfold RECORD_HEADER_SIZE, HEADER. lia. }
  split; [done|]. split; [done|]. split; [done|]. rewrite <- hasher_write_app. fold pl in Hpr. rewrite <- Hpr.
  f_equal. f_equal. rewrite Hd at 1. by rewrite <- (length_print_header h), take_app_length.
Qed.

Lemma stream_step_ok position record_count read_end fingerprint :
  0 ≤ position ≤ body_len → 0 ≤ read_end ≤ body_len →
  round_ok position record_count fingerprint (stream_step sc position record_count read_end fingerprint).
Proof.
  intros Hpos Hre. unfold stream_step. destruct (Z.eqb_spec position body_len) as [->|Hne].
  { eapply round_reads; [apply reads_ret|]. split; [done|]. unfold scan_step.
    by rewrite length_body, Nat.eqb_refl. }
  eapply round_bind.
  { apply reads_map_err, reads_at; unfold SEGMENT_HEADER_SIZE, RECORD_HEADER_SIZE in *; lia. }
  rewrite body_range, header_range, decode_header by lia.
  destruct (parse_header _) as [h|] eqn:Hp; [by apply stream_record_ok; [lia|]|].
  eapply round_bind.
  { apply reads_map_err, range_is_zero_reads; unfold SEGMENT_HEADER_SIZE in *; lia. }
  eapply round_reads; [apply reads_ret|]. split; [lia|]. unfold scan_step.
  rewrite length_body, (proj2 (Nat.eqb_neq _ _)) by lia. cbv zeta. rewrite Hp, durable_of by lia.
  replace (SEGMENT_HEADER_SIZE + body_len - (SEGMENT_HEADER_SIZE + position)) with (body_len - position) by lia.
  rewrite body_range, body_rest by lia. unfold damaged. by destruct (all_zero _), (position <? _).
Qed.
End Rounds.

(** ** The loop *)

(** Records numbered [e], [e + 1], ..., the last one possibly [u64::MAX]. *)
Fixpoint framed (e : Z) (rs : list JournalRecord) : Prop :=
  match rs with
  | [] => True
  | r :: rs => sequence r = e ∧ record_ok r ∧ e ≤ U64_MAX ∧ framed (e + 1) rs
  end.

Lemma framed_snoc e rs r :
  framed e (rs ++ [r]) ↔ framed e rs ∧ sequence r = e + blen rs ∧ record_ok r ∧ e + blen rs ≤ U64_MAX.
Proof.
  revert e. induction rs as [|x rs IH]; intros e; cbn [app framed].
  { unfold blen. simpl. rewrite Z.add_0_r. naive_solver. }
  rewrite IH. replace (e + 1 + blen rs) with (e + blen (x :: rs)) by (unfold blen; simpl; lia). naive_solver.
Qed.

Lemma framed_consecutive e rs : framed e rs → e + blen rs ≤ U64_MAX → consecutive e rs.
Proof.
  revert e. induction rs as [|r rs IH]; intros e; [done|]. intros (Hs & Hr & _ & Hf) Hm.
  unfold blen in *. cbn [length] in Hm. split; [done|]. split; [done|]. split; [lia|]. apply IH; [done|]. lia.
Qed.

(** A record with the last sequence number ends the in-memory scan. *)
Lemma exhausted_result `{Crc32} buf first d pre r tl :
  buf = encode_records (pre ++ [r]) ++ tl → framed first (pre ++ [r]) → sequence r = U64_MAX →
  scan_segment_bounded buf first d = Some (pre, Corrupt (length (encode_records pre)) NoRepresentableSuccessor).
Proof.
  intros Hb (Hf & Hs & Hr & Hle)%framed_snoc Heq. rewrite encode_records_snoc, <- (assoc_L (++)) in Hb.
  eapply scan_stop_result; [exact Hb|by apply framed_consecutive|].
  rewrite <- Hs, (scan_step_record _ _ _ r tl) by (done || by rewrite Hb, drop_app_length). by rewrite Heq.
Qed.

Lemma consecutive_framed e rs : consecutive e rs → framed e rs.
Proof.
  revert e. induction rs as [|r rs IH]; intros e; [done|]. intros (Hs & Hr & Hm & Hc).
  split; [done|]. split; [done|]. split; [lia|]. by apply IH.
Qed.

(** The records the callback sees. *)
Definition uncovered (checkpoint : Z) (rs : list JournalRecord) : list JournalRecord :=
  List.filter (λ r, checkpoint <? sequence r) rs.

(** A record that names a unit of the device and fits its slot. *)
Definition in_geometry (g : Geometry) (r : JournalRecord) : Prop :=
  unit_index r < num_units g ∧ blen (payload r) ≤ max_ciphertext_size g.

(** A record with sequence [s] ends at body byte [e]. *)
Definition ends_at `{Crc32} (rs : list JournalRecord) (s e : Z) : Prop :=
  ∃ pre r, (pre ++ [r]) `prefix_of` rs ∧ sequence r = s ∧ blen (encode_records (pre ++ [r])) = e.

Section Loop.
Context `{Crc32} `{BackingLaws W F} `{HasherLaws HT}.
Context (sc : SegmentScanner (F := F)) (p : string) (c : bytes).
Abbreviation f := (sc_file sc).
Abbreviation body_len := (sc_body_len sc).
Abbreviation first := (sc_first_sequence sc).
Abbreviation buf := (body sc c).
Context (Hlen : 0 ≤ body_len) (Hfits : SEGMENT_HEADER_SIZE + body_len ≤ blen c) (Hfirst : first ≤ U64_MAX).

(** The records [rs] are scanned: where they end, and what was noted of the
    required boundary. *)
Definition seen_ok (rs : list JournalRecord) (seen : bool) : Prop :=
  ∀ s e, sc_required_boundary sc = Some (s, e) →
    if seen then ends_at rs s e else ∀ r, r ∈ rs → sequence r ≠ s.

Record scanned (rs : list JournalRecord) (position record_count read_end : Z) (seen : bool)
    (fingerprint : HT) : Prop := {
  sd_position : position = blen (encode_records rs);
  sd_count : record_count = blen rs;
  sd_read : 0 ≤ read_end ≤ body_len;
  sd_body : buf = encode_records rs ++ drop (Z.to_nat position) buf;
  sd_framed : framed first rs;
  sd_geometry : Forall (in_geometry (sc_geometry sc)) rs;
  sd_seen : seen_ok rs seen;
  sd_fingerprint : fingerprint = hasher_write (hasher_write hasher_new (sc_header sc)) (encode_records rs)
}.

Lemma scanned_nil : scanned [] 0 0 0 false (hasher_write hasher_new (sc_header sc)).
Proof.
  split; [done|done|done|done|done|by apply Forall_nil|by intros s e _ r0 ?%not_elem_of_nil|by rewrite hasher_write_nil].
Qed.

Lemma scan_fuel_enough : body_len - 0 < RECORD_HEADER_SIZE * Z.of_nat (scan_fuel sc).
Proof.
  unfold scan_fuel, RECORD_HEADER_SIZE. pose proof (Z.div_mod body_len 32 ltac:(done)).
  pose proof (Z.mod_pos_bound body_len 32 ltac:(done)). pose proof (Z.div_pos body_len 32 Hlen ltac:(done)). lia.
Qed.

Lemma check_record_ok h rs position seen seen' pl :
  check_record sc h position seen = Ok seen' → seen_ok rs seen → blen pl = h_payload_len h →
  let r := mkJournalRecord (h_sequence h) (h_unit_index h) pl in
  position = blen (encode_records rs) →
  in_geometry (sc_geometry sc) r ∧ seen_ok (rs ++ [r]) seen'.
Proof.
  intros Hc Hs Hpl r Hpos. unfold check_record in Hc.
  destruct (Z.ltb_spec (h_unit_index h) (num_units (sc_geometry sc))) as [Hu|]; [|done].
  destruct (Z.leb_spec (h_payload_len h) (max_ciphertext_size (sc_geometry sc))) as [Hm|]; [|done].
  split; [split; simpl; lia|]. intros s e Hb. rewrite Hb in Hc. specialize (Hs s e Hb).
  assert (seen = true → seen' = true → ends_at (rs ++ [r]) s e) as Hold.
  { intros -> _. destruct Hs as (pre & x & Hp & Hrest). exists pre, x. split; [|done].
    etransitivity; [exact Hp|]. by eexists. }
  destruct (Z.eqb_spec (h_sequence h) s) as [Heq|Hne].
  - destruct (Z.eqb_spec (position + (RECORD_HEADER_SIZE + h_payload_len h)) e) as [He|]; [|done].
    injection Hc as <-. exists rs, r. split; [done|]. split; [done|].
    rewrite encode_records_snoc, blen_app. unfold blen at 2. rewrite length_encode_record.
    unfold r, HEADER, RECORD_HEADER_SIZE in *. simpl in *. unfold blen in *. lia.
  - injection Hc as <-. destruct seen; [by apply Hold|].
    intros x [Hx|Hx%list_elem_of_singleton]%elem_of_app; [by apply Hs|]. by rewrite Hx.
Qed.

Lemma scanned_next rs position record_count read_end seen fingerprint h pl candidate read_end' seen' :
  scanned rs position record_count read_end seen fingerprint →
  step_matches sc c position record_count fingerprint (SRecord h pl candidate read_end') →
  check_record sc h position seen = Ok seen' →
  scanned (rs ++ [mkJournalRecord (h_sequence h) (h_unit_index h) pl])
    (position + (RECORD_HEADER_SIZE + h_payload_len h)) (record_count + 1) read_end' seen' candidate.
Proof.
  intros [Hpos Hcnt Hre Hb Hf Hg Hs Hfp] (Hre' & Hnext & Hmax & Hd & Hok & Hseq & Hpl & Hcand) Hc.
  destruct (check_record_ok _ _ _ _ _ pl Hc Hs Hpl Hpos) as [Hgeo Hs'].
  set (r := mkJournalRecord _ _ _) in *.
  assert (blen (encode_record r) = RECORD_HEADER_SIZE + h_payload_len h) as Hl.
  { unfold blen. rewrite length_encode_record. unfold r, HEADER, RECORD_HEADER_SIZE, blen in *. simpl. lia. }
  split; [|unfold blen in *; rewrite length_app; simpl; lia|done| | | |done|].
  - rewrite encode_records_snoc, blen_app. lia.
  - rewrite encode_records_snoc, <- (assoc_L (++)), <- Hd. done.
  - apply framed_snoc. rewrite <- Hcnt. done.
  - apply Forall_app. split; [done|]. by apply list.Forall_singleton.
  - rewrite encode_records_snoc, hasher_write_app, <- Hfp. done.
Qed.

(** A record a scan may hand to its callback. *)
Definition offered r : Prop :=
  in_geometry (sc_geometry sc) r ∧ record_ok r ∧ sc_checkpoint_sequence sc < sequence r.

(** What the callback is relied on for: [I l acc w] says that it has seen
    exactly the records [l], and it leaves the paths of [K] alone. *)
Context {A : Type} (accept : JournalRecord → A → M W RecoveryError A)
  (I : list JournalRecord → A → W → Prop) (K : string → Prop) (HK : K p).
Context (I_keeps : ∀ l a w w', keeps (λ _, True) w w' → I l a w → I l a w').
Context (accept_ok : ∀ l r a w res w', at_file f p c w → offered r → I l a w → accept r a w = (res, w') →
  keeps K w w' ∧ (∀ a', res = Ok a' → I (l ++ [r]) a' w') ∧ res ≠ Err RecDiverge).

(** The callback never refuses while nothing fails. *)
Definition accepting : Prop := ∀ l r a w res w',
  at_file f p c w → I l a w → quiet w → accept r a w = (res, w') → is_ok res = true.

(** Nothing the segment starts with is refused by the scanner's checks. *)
Definition acceptable : Prop := ∀ pre r tl,
  buf = encode_records (pre ++ [r]) ++ tl → framed first (pre ++ [r]) →
  in_geometry (sc_geometry sc) r ∧ sequence r < U64_MAX ∧
  ∀ s e, sc_required_boundary sc = Some (s, e) → sequence r = s → blen (encode_records (pre ++ [r])) = e.

Lemma uncovered_snoc rs h pl :
  in_geometry (sc_geometry sc) (mkJournalRecord (h_sequence h) (h_unit_index h) pl) →
  blen pl = h_payload_len h →
  uncovered (sc_checkpoint_sequence sc) (rs ++ [mkJournalRecord (h_sequence h) (h_unit_index h) pl]) =
  uncovered (sc_checkpoint_sequence sc) rs ++
    (if retain_payload sc h then [mkJournalRecord (h_sequence h) (h_unit_index h) pl] else []).
Proof.
  intros [Hu Hm] Hpl. unfold uncovered. rewrite List.filter_app. simpl in *. unfold retain_payload.
  rewrite (proj2 (Z.ltb_lt _ _) Hu), (proj2 (Z.leb_le _ _)) by lia. simpl. by destruct (_ <? _).
Qed.

Lemma stream_step_diverge position record_count read_end (fingerprint : HT) w w' :
  stream_step sc position record_count read_end fingerprint w ≠ (Err RecDiverge, w').
Proof.
  intros Hr. unfold stream_step, stream_record in Hr. destruct (_ =? _); [done|].
  repeat (apply m_bind_inv in Hr as [(? & ? & _ & Hr)|(? & Hr & [= <-])];
    [|apply m_map_err_inv in Hr as ([] & _ & ?); done]); cycle 1.
  destruct (RecordHeader_decode _) as [h|]; cycle 1.
  { apply m_bind_inv in Hr as [(? & ? & _ & ?)|(? & Hr & [= <-])]; [done|].
    by apply m_map_err_inv in Hr as ([] & _ & ?). }
  destruct (_ <? _); [done|]. unfold checked_add in Hr.
  destruct (_ <=? _); [|done]. unfold m_bind at 1, m_lift in Hr. cbn [ok_or] in Hr.
  destruct (negb _); [done|]. destruct (_ <? _); [done|].
  apply m_bind_inv in Hr as [([[? ?] ?] & ? & _ & Hr)|(? & Hr & [= <-])]; [by destruct (negb _)|].
  by apply m_map_err_inv in Hr as ([] & _ & ?).
Qed.
(** What a round hands on, whatever happens. *)
Lemma round_cases rs position record_count read_end seen fingerprint w r w' :
  at_file f p c w → scanned rs position record_count read_end seen fingerprint → position ≤ body_len →
  stream_step sc position record_count read_end fingerprint w = (r, w') →
  keeps (λ _, True) w w' ∧
  (∀ st, r = Ok st → step_matches sc c position record_count fingerprint st) ∧
  (quiet w → acceptable → is_ok r = true).
Proof.
  intros Hw Hsd Hle Hr. pose proof (sd_position _ _ _ _ _ _ Hsd) as Hp0.
  pose proof (blen_nonneg (encode_records rs)) as Hnn.
  destruct (stream_step_ok sc p c Hlen Hfits position record_count read_end fingerprint
    ltac:(lia) (sd_read _ _ _ _ _ _ Hsd)) as [(st & Hst & Hm)|(Hmax & Hst)].
  - destruct (Hst _ _ _ Hw Hr) as (Hk & Hv & Hq). split; [done|]. split.
    + intros st' Hst'. by rewrite (Hv st' Hst').
    + intros Hqw _. by rewrite (Hq Hqw).
  - destruct (Hst _ _ _ Hw Hr) as (Hk & Hf). split; [done|]. split; [by intros st ->|].
    intros _ Hacc. destruct Hsd as [_ Hcnt _ Hb Hfr _ _ _]. destruct rs as [|r0 rs0 _] using rev_ind.
    + exfalso. unfold blen in Hcnt. simpl in Hcnt. lia.
    + destruct (Hacc rs0 r0 _ Hb Hfr) as (_ & Hlt & _). apply framed_snoc in Hfr as (_ & Hs & _).
      exfalso. unfold blen in *. rewrite length_app in Hcnt. simpl in Hcnt. lia.
Qed.

Lemma check_record_acceptable rs position record_count read_end seen fingerprint h pl candidate read_end' :
  scanned rs position record_count read_end seen fingerprint → acceptable →
  step_matches sc c position record_count fingerprint (SRecord h pl candidate read_end') →
  is_ok (check_record sc h position seen) = true.
Proof.
  intros [Hpos Hcnt Hre Hb Hf Hg Hs Hfp] Hacc (Hre' & Hnext & Hmax & Hd & Hok & Hseq & Hpl & Hcand).
  set (r := mkJournalRecord _ _ _) in *. rewrite Hcnt in *.
  destruct (Hacc rs r (drop (Z.to_nat (position + (RECORD_HEADER_SIZE + h_payload_len h))) buf)) as ([Hu Hm] & _ & Hreq).
  - rewrite encode_records_snoc, <- (assoc_L (++)), <- Hd. done.
  - by apply framed_snoc.
  - unfold check_record. simpl in Hu, Hm.
    rewrite (proj2 (Z.ltb_lt _ _) Hu), (proj2 (Z.leb_le _ _)) by lia.
    destruct (sc_required_boundary sc) as [[s e]|]; [|done].
    destruct (Z.eqb_spec (h_sequence h) s) as [Heq|]; [|done]. rewrite (proj2 (Z.eqb_eq _ _)); [done|].
    rewrite <- (Hreq s e eq_refl Heq), encode_records_snoc, blen_app. unfold blen at 2.
    rewrite length_encode_record. unfold r, HEADER, RECORD_HEADER_SIZE, blen in *. simpl. lia.
Qed.

(** How a loop ends that ends well. *)
Definition loop_end (rs : list JournalRecord) (e : LoopEnd) : Prop :=
  scanned rs (e_position e) (e_record_count e) (e_read_end e) (e_seen e) (e_fingerprint e) ∧
  scan_step buf (body_bound sc) (Z.to_nat (e_position e)) (first + blen rs) = Done (e_outcome e).

(** Handing a checked record to the callback. *)
Lemma offer_ok rs h pl acc w r w' :
  let rec := mkJournalRecord (h_sequence h) (h_unit_index h) pl in
  at_file f p c w → I (uncovered (sc_checkpoint_sequence sc) rs) acc w →
  in_geometry (sc_geometry sc) rec → record_ok rec → blen pl = h_payload_len h →
  (if retain_payload sc h then accept rec acc else m_ret acc) w = (r, w') →
  keeps K w w' ∧ r ≠ Err RecDiverge ∧
  (∀ a, r = Ok a → I (uncovered (sc_checkpoint_sequence sc) (rs ++ [rec])) a w') ∧
  (quiet w → accepting → is_ok r = true).
Proof.
  intros rec Hw HI Hgeo Hrec Hpl Hr. unfold rec in *. rewrite uncovered_snoc by done.
  destruct (retain_payload sc h) eqn:Hret.
  - unfold retain_payload in Hret. apply andb_true_iff in Hret as [_ Hck%Z.ltb_lt].
    destruct (accept_ok _ _ _ _ _ _ Hw (conj Hgeo (conj Hrec Hck)) HI Hr) as (Hk2 & HI2 & Hd2).
    split; [done|]. split; [done|]. split; [done|]. intros Hqw Ha. by eapply Ha.
  - injection Hr as <- <-. split; [apply keeps_refl, Hw|]. split; [done|]. split; [|done].
    intros a [= <-]. by rewrite app_nil_r.
Qed.

Lemma scan_loop_ok : ∀ fuel rs position record_count read_end seen fingerprint acc w r w',
  at_file f p c w → scanned rs position record_count read_end seen fingerprint →
  I (uncovered (sc_checkpoint_sequence sc) rs) acc w → position ≤ body_len →
  body_len - position < RECORD_HEADER_SIZE * Z.of_nat fuel →
  scan_loop accept fuel sc position record_count read_end seen fingerprint acc w = (r, w') →
  keeps K w w' ∧ r ≠ Err RecDiverge ∧
  (∀ e acc', r = Ok (e, acc') →
    ∃ rs', loop_end rs' e ∧ I (uncovered (sc_checkpoint_sequence sc) rs') acc' w') ∧
  (quiet w → acceptable → accepting → is_ok r = true).
Proof.
  induction fuel as [|fuel IH]; intros rs position record_count read_end seen fingerprint acc w r w'
    Hw Hsd HI Hle Hf Hr; [unfold RECORD_HEADER_SIZE in Hf; lia|]. cbn [scan_loop] in Hr.
  apply m_bind_inv in Hr as [(st & w1 & Hst & Hr)|(e & He & ->)].
  2: { pose proof (stream_step_diverge position record_count read_end fingerprint w w').
       destruct (round_cases _ _ _ _ _ _ _ _ _ Hw Hsd Hle He) as (Hk & _ & Hq).
       split; [by eapply keeps_weaken; [|exact Hk]|]. split; [congruence|]. split; [done|].
       intros Hqw Ha _. by specialize (Hq Hqw Ha). }
  destruct (round_cases _ _ _ _ _ _ _ _ _ Hw Hsd Hle Hst) as (Hk & Hm & Hq).
  specialize (Hm st eq_refl). pose proof (at_file_keeps _ _ _ _ _ _ Hk Logic.I Hw) as Hw1.
  pose proof (I_keeps _ _ _ _ Hk HI) as HI1. pose proof (keeps_quiet _ _ _ Hk) as Hqk.
  apply (keeps_weaken K) in Hk; [|done].
  destruct st as [o re|h pl candidate re].
  { injection Hr as <- <-. split; [done|]. split; [done|]. split; [|done]. intros e acc' [= <- <-].
    exists rs. destruct Hm as [Hre Hdone]. split; [|done]. split; [|].
    - destruct Hsd. by split.
    - simpl. rewrite (sd_count _ _ _ _ _ _ Hsd) in Hdone. done. }
  unfold m_bind at 1, m_lift in Hr. pose proof (check_record_acceptable _ _ _ _ _ _ h pl candidate re Hsd) as Hcr.
  destruct (check_record sc h position seen) as [seen'|e] eqn:Hc.
  2: { injection Hr as <- <-. split; [done|]. split; [|split; [done|]].
       - unfold check_record in Hc. repeat case_match; congruence.
       - intros _ Ha _. by specialize (Hcr Ha Hm). }
  pose proof (scanned_next _ _ _ _ _ _ _ _ _ _ _ Hsd Hm Hc) as Hnext.
  destruct (check_record_ok _ _ _ _ _ pl Hc (sd_seen _ _ _ _ _ _ Hsd) ltac:(apply Hm)
    (sd_position _ _ _ _ _ _ Hsd)) as [Hgeo _].
  set (rec := mkJournalRecord _ _ _) in *.
  pose proof (λ r2 w2, offer_ok rs h pl acc w1 r2 w2 Hw1 HI1 Hgeo ltac:(apply Hm) ltac:(apply Hm)) as Hstep.
  apply m_bind_inv in Hr as [(acc2 & w2 & Ha & Hr)|(e & He & ->)].
  2: { destruct (Hstep _ _ He) as (Hk2 & Hd2 & _ & Hq2). split; [by eapply keeps_trans|].
       split; [congruence|]. split; [done|]. intros Hqw _ Ha. by specialize (Hq2 (Hqk Hqw) Ha). }
  destruct (Hstep _ _ Ha) as (Hk2 & _ & HI2 & _).
  destruct (IH _ _ _ _ _ _ _ _ _ _ (at_file_keeps _ _ _ _ _ _ Hk2 HK Hw1) Hnext (HI2 _ eq_refl)
    ltac:(apply Hm) ltac:(destruct Hm as (_ & _ & _ & _ & _ & _ & Hpl & _); pose proof (blen_nonneg pl); unfold RECORD_HEADER_SIZE in *; lia) Hr)
    as (Hk3 & Hd3 & HI3 & Hq3).
  split; [eapply keeps_trans; [exact Hk|]; by eapply keeps_trans|]. split; [done|]. split; [done|].
  intros Hqw Hacc Hac. apply Hq3; [|done..]. by eapply keeps_quiet, Hqk.
Qed.

(** ** The whole scan *)

(** What a completed scan says of the segment. *)
Record scan_result (rs : list JournalRecord) (res : SegmentBodyScan) : Prop := {
  sr_count : b_record_count res = blen rs;
  sr_bytes : b_valid_body_bytes res = blen (encode_records rs);
  sr_fingerprint : b_fingerprint res =
    hasher_finish (hasher_write (hasher_write hasher_new (sc_header sc)) (encode_records rs));
  sr_framed : framed first rs;
  sr_geometry : Forall (in_geometry (sc_geometry sc)) rs;
  sr_boundary s e : sc_required_boundary sc = Some (s, e) → ends_at rs s e;
  sr_body : encode_records rs `prefix_of` buf;
  sr_outcome : first + blen rs ≤ U64_MAX →
    scan_segment_bounded buf first (body_bound sc) = Some (rs, b_outcome res);
  (** The last sequence number: the in-memory scanner refuses its record. *)
  sr_exhausted : U64_MAX < first + blen rs → ∃ pre r, rs = pre ++ [r] ∧ sequence r = U64_MAX ∧
    scan_segment_bounded buf first (body_bound sc) = Some (pre, Corrupt (length (encode_records pre)) NoRepresentableSuccessor)
}.

Lemma loop_end_result rs e :
  loop_end rs e → (∀ s k, sc_required_boundary sc = Some (s, k) → e_seen e = true) →
  scan_result rs (mkSegmentBodyScan (e_record_count e) (e_position e) (e_outcome e)
                    (hasher_finish (e_fingerprint e))).
Proof.
  intros [[Hpos Hcnt _ Hb Hf Hg Hs Hfp] Hd] Hseen. split; simpl; [done|done|by rewrite Hfp|done|done| |by eexists| |].
  - intros s k Hreq. specialize (Hs s k Hreq). by rewrite (Hseen s k Hreq) in Hs.
  - intros Hm. eapply scan_stop_result; [exact Hb|by apply framed_consecutive|].
    rewrite Hpos in Hd. unfold blen at 1 in Hd. by rewrite Nat2Z.id in Hd.
  - intros Hm. destruct rs as [|r pre _] using rev_ind; [unfold blen in Hm; simpl in Hm; lia|]. exists pre, r. split; [done|].
    pose proof Hf as (_ & Hsr & _ & Hle)%framed_snoc. unfold blen in *. rewrite length_app in Hm. simpl in Hm.
    assert (sequence r = U64_MAX) as Heq by lia. split; [done|]. by eapply exhausted_result.
Qed.

(** The required record is there to be found. *)
Definition boundary_present : Prop := ∀ s e, sc_required_boundary sc = Some (s, e) →
  ∃ rs r tl, buf = encode_records rs ++ tl ∧ consecutive first rs ∧ r ∈ rs ∧ sequence r = s.

Lemma boundary_seen rs e :
  loop_end rs e → acceptable → boundary_present →
  ∀ s k, sc_required_boundary sc = Some (s, k) → e_seen e = true.
Proof.
  intros Hle Hacc Hbp s k Hreq. destruct (Hbp s k Hreq) as (rs2 & r & tl & Hb2 & Hc2 & Hin & Hsr).
  destruct Hle as [[Hpos Hcnt _ Hb Hf Hg Hs Hfp] Hd]. specialize (Hs s k Hreq).
  destruct (e_seen e); [done|]. exfalso. apply (Hs r); [|done].
  assert (first + blen rs ≤ U64_MAX) as Hm.
  { destruct rs as [|x rs _] using rev_ind; [unfold blen; simpl; lia|].
    destruct (Hacc rs x _ Hb Hf) as (_ & Hlt & _). apply framed_snoc in Hf as (_ & Hsx & _).
    unfold blen in *. rewrite length_app. simpl. lia. }
  assert (scan_segment_bounded buf first (body_bound sc) = Some (rs, e_outcome e)) as Hsc.
  { eapply scan_stop_result; [exact Hb|by apply framed_consecutive|].
    rewrite Hpos in Hd. unfold blen at 1 in Hd. by rewrite Nat2Z.id in Hd. }
  destruct (scan_prefix_of _ _ (body_bound sc) _ _ Hb2 Hc2) as (rs' & o & Hsc' & [k' Hp]).
  rewrite Hsc in Hsc'. injection Hsc' as -> _. rewrite Hp. apply elem_of_app. by left.
Qed.

Lemma scan_ok acc w r w' :
  at_file f p c w → I [] acc w → scan accept sc acc w = (r, w') →
  keeps K w w' ∧ r ≠ Err RecDiverge ∧
  (∀ res acc', r = Ok (res, acc') →
    ∃ rs, scan_result rs res ∧ I (uncovered (sc_checkpoint_sequence sc) rs) acc' w') ∧
  (quiet w → acceptable → accepting → boundary_present → is_ok r = true).
Proof.
  intros Hw HI Hr. unfold scan in Hr.
  pose proof scanned_nil as Hsd. pose proof scan_fuel_enough as Hf.
  apply m_bind_inv in Hr as [([e acc1] & w1 & Hl & Hr)|(e & Hl & ->)];
    destruct (scan_loop_ok _ _ _ _ _ _ _ _ _ _ _ Hw Hsd HI Hlen Hf Hl) as (Hk & Hdv & Hend & Hq).
  2: { split; [done|]. split; [congruence|]. split; [done|]. intros Hqw Ha Hac _. by specialize (Hq Hqw Ha Hac). }
  destruct (Hend _ _ eq_refl) as (rs & Hle & HI1). pose proof (at_file_keeps _ _ _ _ _ _ Hk HK Hw) as Hw1.
  assert (∃ v, reads_as f p c (if negb (is_corrupt (e_outcome e)) && (e_read_end e <? body_len)
    then m_map_err RecIo (range_is_zero f (SEGMENT_HEADER_SIZE + e_read_end e) (SEGMENT_HEADER_SIZE + body_len))
    else m_ret true) v) as [v Hv].
  { pose proof (sd_read _ _ _ _ _ _ (proj1 Hle)). destruct (_ && _); eexists; [|apply reads_ret].
    apply reads_map_err, range_is_zero_reads; unfold SEGMENT_HEADER_SIZE in *; lia. }
  apply m_bind_inv in Hr as [(b & w2 & Hz & Hr)|(e' & Hz & ->)];
    destruct (Hv _ _ _ Hw1 Hz) as (Hk2 & _ & Hq2); pose proof (I_keeps _ _ _ _ Hk2 HI1) as HI2;
    apply (keeps_weaken K) in Hk2; [|done| |done].
  2: { split; [by eapply keeps_trans|]. split; [|split; [done|]].
       - destruct (_ && _); [|done]. apply m_map_err_inv in Hz as ([] & _ & [=]); congruence.
       - intros Hqw Ha Hac Hbp. by specialize (Hq2 (keeps_quiet _ _ _ Hk Hqw)). }
  pose proof (boundary_seen _ _ Hle) as Hbs. pose proof (loop_end_result _ _ Hle) as Hres.
  assert (keeps K w w2) as Hk3 by (by eapply keeps_trans).
  destruct (sc_required_boundary sc) as [[s k]|]; [destruct (e_seen e)|]; injection Hr as <- <-.
  all: split; [done|]; split; [done|]; split.
  3: done.
  3: { intros _ Ha _ Hbp. by specialize (Hbs Ha Hbp s k eq_refl). }
  all: try done. all: intros res acc' [= <- <-]; exists rs; split; [by apply Hres|done].
Qed.
End Loop.

(** ** Agreement with the in-memory scanner *)

Lemma consecutive_at e rs pre r :
  consecutive e rs → (pre ++ [r]) `prefix_of` rs → sequence r = e + blen pre.
Proof.
  intros Hc [k ->]. rewrite <- (assoc_L (++)) in Hc. apply consecutive_app in Hc as [_ Hc]. apply Hc.
Qed.

(** Records of a consecutive list with equal sequences end at the same place. *)
Lemma prefix_same e rs pre r pre' r' :
  consecutive e rs → (pre ++ [r]) `prefix_of` rs → (pre' ++ [r']) `prefix_of` rs →
  sequence r = sequence r' → pre ++ [r] = pre' ++ [r'].
Proof.
  intros Hc Hp Hp' Hs. rewrite (consecutive_at _ _ _ _ Hc Hp), (consecutive_at _ _ _ _ Hc Hp') in Hs.
  apply prefix_length_eq; [|unfold blen in Hs; rewrite !length_app; simpl; lia].
  destruct (prefix_weak_total (pre ++ [r]) (pre' ++ [r']) rs Hp Hp') as [?|Hq]; [done|].
  assert (pre' ++ [r'] = pre ++ [r]) as ->; [|done].
  apply prefix_length_eq; [done|unfold blen in Hs; rewrite !length_app; simpl; lia].
Qed.

Section Agreement.
Context `{Crc32} `{BackingLaws W F} `{HasherLaws HT}.
Context (sc : SegmentScanner (F := F)) (c : bytes).
Abbreviation first := (sc_first_sequence sc).
Abbreviation buf := (body sc c).

Lemma scan_acceptable rs o :
  scan_segment_bounded buf first (body_bound sc) = Some (rs, o) →
  (∀ at_, o ≠ Corrupt at_ NoRepresentableSuccessor) → Forall (in_geometry (sc_geometry sc)) rs →
  (∀ s e, sc_required_boundary sc = Some (s, e) → ends_at rs s e) → acceptable sc c.
Proof.
  intros Hsc Ho Hg Hreq pre r tl Hb Hf. apply framed_snoc in Hf as (Hf & Hs & Hr & Hmax).
  pose proof (framed_consecutive _ _ Hf Hmax) as Hc. rewrite encode_records_snoc, <- (assoc_L (++)) in Hb.
  assert (sequence r < U64_MAX) as Hlt.
  { destruct (Z.eq_dec (sequence r) U64_MAX) as [Heq|]; [|lia]. exfalso.
    rewrite (exhausted_result _ first (body_bound sc) pre r tl) in Hsc; [injection Hsc as _ Ho'; by eapply Ho| |by apply framed_snoc|done].
    by rewrite encode_records_snoc, <- (assoc_L (++)). }
  assert (consecutive first (pre ++ [r])) as Hc2.
  { apply consecutive_app. split; [done|]. split; [done|]. split; [done|]. by split; [lia|]. }
  rewrite (assoc_L (++)), <- encode_records_snoc in Hb.
  destruct (scan_prefix_of _ _ (body_bound sc) _ _ Hb Hc2) as (rs' & o' & Hsc' & Hp).
  rewrite Hsc in Hsc'. injection Hsc' as <- <-. split; [|split; [done|]].
  - rewrite list.Forall_forall in Hg. apply Hg. destruct Hp as [k ->]. rewrite !elem_of_app.
    left. right. by apply list_elem_of_singleton.
  - intros s e He Hse. destruct (Hreq s e He) as (pre' & r' & Hp' & Hs' & <-).
    pose proof (scan_go_sound _ _ _ _ _ _ _ Hsc ltac:(lia)) as (_ & Hcs & _).
    by rewrite (prefix_same first rs pre r pre' r') by congruence.
Qed.

Lemma scan_boundary rs o :
  scan_segment_bounded buf first (body_bound sc) = Some (rs, o) →
  (∀ s e, sc_required_boundary sc = Some (s, e) → ends_at rs s e) → boundary_present sc c.
Proof.
  intros Hsc Hreq s e He. destruct (Hreq s e He) as (pre & r & [k Hp] & Hs & _).
  pose proof (scan_go_sound _ _ _ _ _ _ _ Hsc ltac:(lia)) as (Hb & Hc & _). rewrite drop_0 in Hb.
  exists rs, r, (drop (0 + length (encode_records rs)) buf). split; [done|]. split; [done|]. split; [|done].
  rewrite Hp, !elem_of_app. left. right. by apply list_elem_of_singleton.
Qed.
End Agreement.

(** ** What is kept of the records does not change the scan *)
Section Retention.
Context `{Crc32} `{Backing W F} `{Hasher HT} {A B : Type} (push : JournalRecord → A → A)
  (push' : JournalRecord → B → B) (R : A → B → Prop)
  (HR : ∀ r a b, R a b → R (push r a) (push' r b)).

Definition same_scan {X : Type} (x : X * A) (y : X * B) : Prop := x.1 = y.1 ∧ R x.2 y.2.

Lemma scan_loop_sim sc : ∀ fuel position record_count read_end seen (fingerprint : HT) a b, R a b →
  sim same_scan
    (scan_loop (W := W) (λ r acc, m_ret (push r acc)) fuel sc position record_count read_end seen fingerprint a)
    (scan_loop (λ r acc, m_ret (push' r acc)) fuel sc position record_count read_end seen fingerprint b).
Proof.
  induction fuel as [|fuel IH]; intros position record_count read_end seen fingerprint a b Hab; [done|].
  cbn [scan_loop]. apply sim_step. intros [o re|h pl cand re]; [by apply sim_ret|].
  apply sim_step. intros seen'. eapply (sim_bind R); [|by intros; apply IH].
  apply sim_if; apply sim_ret; auto.
Qed.

Lemma scan_sim sc a b : R a b →
  sim same_scan (scan (HT := HT) (λ r acc, m_ret (push r acc)) sc a) (scan (λ r acc, m_ret (push' r acc)) sc b).
Proof.
  intros Hab. unfold scan. eapply sim_bind; [by apply scan_loop_sim|]. intros [e a'] [e' b'] [He Hab'].
  simpl in He, Hab'. subst e'. apply sim_step. intros z. apply sim_step. intros u. by apply sim_ret.
Qed.
End Retention.

(** ** The scanner's contract *)
Section Claims.
Context `{Crc32} `{BackingLaws W F} `{HasherLaws HT}.
Context {A : Type} (push : JournalRecord → A → A).

(** A callback that only accumulates. *)
Definition pure_accept (r : JournalRecord) (acc : A) : M W RecoveryError A := m_ret (push r acc).

Definition pushes (acc : A) (rs : list JournalRecord) : A := foldl (λ a r, push r a) acc rs.

Lemma pure_scan_ok (sc : SegmentScanner (F := F)) p c acc w r w' :
  at_file (sc_file sc) p c w → 0 ≤ sc_body_len sc → SEGMENT_HEADER_SIZE + sc_body_len sc ≤ blen c →
  sc_first_sequence sc ≤ U64_MAX → scan (HT := HT) pure_accept sc acc w = (r, w') →
  keeps (λ _, True) w w' ∧ r ≠ Err RecDiverge ∧
  (∀ res acc', r = Ok (res, acc') →
    ∃ rs, scan_result (HT := HT) sc c rs res ∧ acc' = pushes acc (uncovered (sc_checkpoint_sequence sc) rs)) ∧
  (quiet w → acceptable sc c → boundary_present sc c → is_ok r = true).
Proof.
  intros Hw Hlen Hfits Hfirst Hr.
  destruct (scan_ok sc p c Hlen Hfits Hfirst pure_accept (λ l a _, a = pushes acc l) (λ _, True) I) with (5 := Hr)
    as (Hk & Hd & Hres & Hq); [done| |done|done|].
  - intros l x a v res v' [Hi _] _ -> [= <- <-]. split; [by apply keeps_refl|]. split; [|done].
    intros a' [= <-]. unfold pushes. by rewrite foldl_app.
  - split; [done|]. split; [done|]. split; [done|]. intros Hqw Ha Hb. apply Hq; [done|done| |done].
    by intros l x a v res v' _ _ _ [= <- <-].
Qed.

(** C32. The streaming scanner and the in-memory scanner agree.  Whatever the
    segment holds and however reads fail, the streaming scan changes nothing
    and returns within the model's fuel; when it returns a result, that
    result is the in-memory scan of the same body under the same durable
    bound: the same outcome, record count and valid length.  They differ in
    one case, a last record with the sequence number [u64::MAX]: the
    streaming scan accepts it, the in-memory scan stops before it with a
    corruption, and the caller refuses the segment.  In both the callback
    has seen exactly the records above the checkpoint in order, every record
    lies within the geometry, the required record ends at the required byte,
    and the fingerprint binds the header and exactly the accepted records.
    Conversely, once reads work, it returns a result whenever the in-memory
    scan's records pass those checks. *)
Theorem stream_scan_equiv (sc : SegmentScanner (F := F)) p c acc w r w' :
  at_file (sc_file sc) p c w → 0 ≤ sc_body_len sc → SEGMENT_HEADER_SIZE + sc_body_len sc ≤ blen c →
  sc_first_sequence sc ≤ U64_MAX → scan (HT := HT) pure_accept sc acc w = (r, w') →
  keeps (λ _, True) w w' ∧ r ≠ Err RecDiverge ∧
  (∀ res acc', r = Ok (res, acc') →
    ∃ rs, scan_result (HT := HT) sc c rs res ∧ acc' = pushes acc (uncovered (sc_checkpoint_sequence sc) rs)) ∧
  (quiet w → ∀ rs o, scan_segment_bounded (body sc c) (sc_first_sequence sc) (body_bound sc) = Some (rs, o) →
    (∀ at_, o ≠ Corrupt at_ NoRepresentableSuccessor) → Forall (in_geometry (sc_geometry sc)) rs →
    (∀ s e, sc_required_boundary sc = Some (s, e) → ends_at rs s e) → is_ok r = true).
Proof.
  intros Hw Hlen Hfits Hfirst Hr.
  destruct (pure_scan_ok _ _ _ _ _ _ _ Hw Hlen Hfits Hfirst Hr) as (Hk & Hd & Hres & Hq).
  split; [done|]. split; [done|]. split; [done|]. intros Hqw rs o Hsc Ho Hg Hb.
  apply Hq; [done|by eapply scan_acceptable|by eapply scan_boundary].
Qed.
End Claims.

(** ** Termination *)
Section Termination.
Context `{Crc32} `{BackingLaws W F} `{HasherLaws HT}.
Context {A : Type} (accept : JournalRecord → A → M W RecoveryError A).

Lemma scan_loop_fuel sc n : ∀ fuel position record_count read_end seen (fingerprint : HT) acc w r w',
  scan_loop accept fuel sc position record_count read_end seen fingerprint acc w = (r, w') → r ≠ Err RecDiverge →
  scan_loop accept (fuel + n) sc position record_count read_end seen fingerprint acc w = (r, w').
Proof.
  induction fuel as [|fuel IH]; intros position record_count read_end seen fingerprint acc w r w' Hr Hd.
  { injection Hr as <- <-. done. }
  cbn [scan_loop Nat.add] in *. unfold m_bind at 1 in Hr. unfold m_bind at 1.
  destruct (stream_step _ _ _ _ _ w) as [[[o re|h pl cand re]|e] w1]; [done| |done].
  unfold m_bind at 1 in Hr. unfold m_bind at 1. destruct (m_lift _ w1) as [[seen'|e] w2]; [|done].
  unfold m_bind at 1 in Hr. unfold m_bind at 1.
  destruct (retain_payload sc h); [|by apply IH]. destruct (accept _ acc w2) as [[acc'|e] w3]; [by apply IH|done].
Qed.

(** C33. The scan terminates.  With a callback that terminates and leaves the
    segment file alone, every scan of a segment stops within its bound on
    the number of records, whatever the file holds and however reads fail:
    the loop never asks for more rounds, and more rounds would not change
    its result. *)
Theorem scan_terminates (sc : SegmentScanner (F := F)) p c acc w r w' :
  (∀ rec a v res v', at_file (sc_file sc) p c v → accept rec a v = (res, v') →
     keeps (λ q, q = p) v v' ∧ res ≠ Err RecDiverge) →
  at_file (sc_file sc) p c w → 0 ≤ sc_body_len sc → SEGMENT_HEADER_SIZE + sc_body_len sc ≤ blen c →
  sc_first_sequence sc ≤ U64_MAX → scan (HT := HT) accept sc acc w = (r, w') →
  let h := hasher_write hasher_new (sc_header sc) in
  r ≠ Err RecDiverge ∧
  ∀ n, scan_loop (HT := HT) accept (scan_fuel sc + n) sc 0 0 0 false h acc w =
       scan_loop accept (scan_fuel sc) sc 0 0 0 false h acc w.
Proof.
  intros Hacc Hw Hlen Hfits Hfirst Hr h.
  assert (∀ (l : list JournalRecord) rec a v res v', at_file (sc_file sc) p c v → offered sc rec → True → accept rec a v = (res, v') →
    keeps (λ q, q = p) v v' ∧ (∀ a' : A, res = Ok a' → True) ∧ res ≠ Err RecDiverge) as Hac.
  { intros l rec a v res v' Hv _ _ Ha. destruct (Hacc _ _ _ _ _ Hv Ha). by split. }
  split.
  - by apply (scan_ok sc p c Hlen Hfits Hfirst accept (λ _ _ _, True) (λ q, q = p) eq_refl
      ltac:(done) Hac acc w r w' Hw I Hr).
  - intros n. destruct (scan_loop accept (scan_fuel sc) sc 0 0 0 false h acc w) as [r1 w1] eqn:Hl.
    apply scan_loop_fuel; [done|].
    by apply (scan_loop_ok sc p c Hlen Hfits Hfirst accept (λ _ _ _, True) (λ q, q = p) eq_refl
      ltac:(done) Hac _ [] _ _ _ _ _ _ _ _ _ Hw (scanned_nil sc c Hlen) I Hlen (scan_fuel_enough sc Hlen) Hl).
Qed.
End Termination.
