(* ===== verification/Volumes.v ===== *)
(** * Volumes: loading and creating a volume
    (crates/maki-format/src/superblock.rs from [read_volume_copy] on, and
    crates/maki-format/src/init.rs)

    Selection between the two superblock copies, which never downgrades a
    policy version, and the creation of a volume, in which the superblock is
    the commit point.  Creation is proved against the durability contract:
    a superblock that loads after any failure and crash implies that the
    evidence recovery requires is there. *)

From S2P Require Import Prelude Codec Layout Geometry AbRecord Metadata Superblock Backing CrashBacking AbStore FixedCopy DurableProof.
Import (hints) Metadata.Catalog Metadata.Checkpoint.

Local Open Scope Z_scope.

#[global] Instance VolumeSuperblock_eq_dec : EqDecision VolumeSuperblock.
Proof. solve_decision. Defined.

Section Load.
Context `{Crc32} `{Backing W F}.
Abbreviation fio := (M W FormatError).

(** An unknown version under a valid checksum is not permission to select
    the other copy; any other defect makes the copy unusable. *)
Definition vsb_judge (data : bytes) : fres (option (VolumeSuperblock * bytes)) :=
  match VolumeSuperblock_decode data with
  | Ok record => Ok (Some (record, data))
  | Err Unsupported => Err Unsupported
  | Err _ => Ok None
  end.

(** [read_volume_copy]. *)
Definition read_volume_copy (path : string) : fio (option (VolumeSuperblock * bytes)) :=
  read_fixed path (Z.of_nat SUPERBLOCK_SIZE) SUPERBLOCK_MAGIC supported_version vsb_judge.

(** The choice between the copies. *)
Definition vsb_select (a b : option (VolumeSuperblock * bytes)) : fres VolumeSuperblock :=
  match a, b with
  | Some (a, a_bytes), Some (b, b_bytes) =>
      guard? metadata_version a =? metadata_version b else Invalid in
      guard? negb ((sb_generation (superblock a) =? sb_generation (superblock b))
                   && negb (bytes_eqb a_bytes b_bytes)) else Invalid in
      Ok (if sb_generation (superblock b) <=? sb_generation (superblock a) then a else b)
  | Some (record, _), None | None, Some (record, _) => Ok record
  | None, None => Err Invalid
  end.

Definition load_volume_superblock : fio VolumeSuperblock :=
  let* a := read_volume_copy SUPERBLOCK_A in
  let* b := read_volume_copy SUPERBLOCK_B in
  m_lift (vsb_select a b).

(** init.rs [load_superblock]. *)
Definition load_superblock : fio Superblock :=
  let* envelope := load_volume_superblock in m_ret (superblock envelope).
End Load.

(** ** Creation (init.rs) *)
Section Create.
Context `{Crc32} `{Backing W F}.
Abbreviation fio := (M W FormatError).

Definition catalog_store : AbStore := AbStore_new SHARD_CATALOG_A SHARD_CATALOG_B.
Definition checkpoint_store : AbStore := AbStore_new CHECKPOINT_STATE_A CHECKPOINT_STATE_B.
Definition superblock_store : AbStore := AbStore_new SUPERBLOCK_A SUPERBLOCK_B.

(** [CheckpointState::default]. *)
Definition checkpoint_default : Checkpoint.CheckpointState := Checkpoint.mkCheckpointState 0 0.

(** A layout directory must not hold a file of an earlier volume. *)
Definition check_empty_dir (dir : string) : fio unit :=
  let* r := m_try (b_list dir) in
  match r with
  | Ok [] => m_ret tt
  | Ok (_ :: _) => m_err AlreadyExists
  | Err NotFound => m_ret tt
  | Err e => m_err (Io e)
  end.

(** The lock and the checks that the root is empty. *)
Definition create_checks : fio unit :=
  let* _ := lift_io (b_try_lock VOLUME_LOCK) in
  let* a := lift_io (b_exists SUPERBLOCK_A) in
  let* present := if a then m_ret true else lift_io (b_exists SUPERBLOCK_B) in
  if (present : bool) then m_err AlreadyExists else
  let* _ := check_empty_dir DATA_DIR in
  let* _ := check_empty_dir JOURNAL_DIR in
  check_empty_dir CHECKPOINT_DIR.

(** The lock file's content; the exclusion API does not promise it. *)
Definition create_lock_file : fio unit :=
  let* lock_file := lift_io (b_open VOLUME_LOCK true) in
  lift_io (f_sync_data lock_file).

(** The journal's durable mark, empty: no information yet. *)
Definition create_mark : fio unit :=
  let* mark := lift_io (b_open JOURNAL_DURABLE_MARK true) in
  let* _ := lift_io (f_set_len mark 0) in
  lift_io (f_sync_data mark).

(** Everything recovery requires, made durable before the superblock can be. *)
Definition create_evidence (volume_uuid : bytes) : fio unit :=
  let* _ := lift_io (b_create_dir_all DATA_DIR) in
  let* _ := lift_io (b_create_dir_all JOURNAL_DIR) in
  let* _ := lift_io (b_create_dir_all CHECKPOINT_DIR) in
  let* _ := create_lock_file in
  let* _ := dp_initialize volume_uuid in
  let* _ := store_record catalog_store Catalog.new in
  let* _ := store_twice checkpoint_store checkpoint_default in
  let* _ := create_mark in
  let* _ := lift_io (b_sync_dir DATA_DIR) in
  let* _ := lift_io (b_sync_dir JOURNAL_DIR) in
  let* _ := lift_io (b_sync_dir CHECKPOINT_DIR) in
  lift_io (b_sync_dir "").

(** The commit point: both superblock copies. *)
Definition create_publish (sb : Superblock) (version : Z) : fio Superblock :=
  let envelope := mkVolumeSuperblock (sb_set_generation 0 sb) version in
  let* envelope := store_twice superblock_store envelope in
  let* _ := lift_io (b_sync_dir "") in
  m_ret (superblock envelope).

Definition create_volume_with_metadata_version (sb : Superblock) (version : Z) : fio Superblock :=
  let* _ := create_checks in
  let* _ := create_evidence (volume_uuid sb) in
  create_publish sb version.

Definition create_volume (sb : Superblock) : fio Superblock :=
  create_volume_with_metadata_version sb SUPERBLOCK_VERSION_V2.

Definition create_volume_with_discard (sb : Superblock) : fio Superblock :=
  create_volume_with_metadata_version sb SUPERBLOCK_VERSION_V3.
End Create.

(** ** What the superblock copies say *)
Section Laws.
Context `{Crc32} `{BackingLaws W F}.

Definition volume_copy (w : W) (path : string) : fres (option (VolumeSuperblock * bytes)) :=
  fixed_at w path (Z.of_nat SUPERBLOCK_SIZE) SUPERBLOCK_MAGIC supported_version vsb_judge.

Definition volume_at (w : W) : fres VolumeSuperblock :=
  let? a := volume_copy w SUPERBLOCK_A in
  let? b := volume_copy w SUPERBLOCK_B in
  vsb_select a b.

Lemma volume_copy_keeps w w' path :
  keeps (λ _, True) w w' → volume_copy w' path = volume_copy w path.
Proof. intros Hk. unfold volume_copy, fixed_at. by rewrite (keeps_vis _ _ _ _ Hk I). Qed.

Lemma read_volume_copy_spec w path :
  inv w → validate path false = Ok tt → determined (read_volume_copy path) w (volume_copy w path).
Proof. intros. by apply read_fixed_spec. Qed.

Lemma load_volume_spec w : inv w → determined load_volume_superblock w (volume_at w).
Proof.
  intros Hi. unfold load_volume_superblock, volume_at.
  eapply determined_bind; [by apply read_volume_copy_spec|].
  intros a w1 Hk1. rewrite <- (volume_copy_keeps _ _ SUPERBLOCK_B Hk1).
  eapply determined_bind; [apply read_volume_copy_spec; [by eapply keeps_inv|done]|].
  intros b w2 Hk2. apply determined_lift. by eapply keeps_inv.
Qed.

Lemma superblock_store_ok : sides_ok (T := VolumeSuperblock) superblock_store.
Proof. split; done. Qed.

Lemma catalog_store_ok : sides_ok (T := Catalog.ShardCatalog) catalog_store.
Proof. split; done. Qed.

Lemma checkpoint_store_ok : sides_ok (T := Checkpoint.CheckpointState) checkpoint_store.
Proof. split; done. Qed.

Lemma volume_copy_absent w path : vis w path = None → volume_copy w path = Ok None.
Proof. intros Hv. unfold volume_copy, fixed_at. by rewrite Hv. Qed.

(** A root without superblocks is not a volume. *)
Lemma volume_at_absent w :
  absent w SUPERBLOCK_A → absent w SUPERBLOCK_B → volume_at w = Err Invalid.
Proof.
  intros Ha%law_absent Hb%law_absent. unfold volume_at. by rewrite !volume_copy_absent.
Qed.

Lemma durable_volume_copy w path v :
  durable_copy superblock_store w path v → ∃ bs, volume_copy w path = Ok (Some (v, bs)).
Proof.
  intros (bs & Hst & Hb & Hd). exists bs. unfold volume_copy, fixed_at, content_at.
  rewrite (stable_vis _ _ _ Hst). change (bound superblock_store) with (Z.of_nat SUPERBLOCK_SIZE) in Hb.
  assert (blen bs = Z.of_nat SUPERBLOCK_SIZE) as ->.
  { simpl in Hd. unfold VolumeSuperblock_decode, Superblock_decode in Hd. inv_res.
    inv_guards. unfold blen in *. lia. }
  rewrite Z.eqb_refl. cbn [negb]. unfold vsb_judge. simpl in Hd. by rewrite Hd.
Qed.

(** A mirrored superblock is what a load selects. *)
Lemma mirrored_volume_at w v g g' :
  mirrored superblock_store w (set_generation g v) (set_generation g' v) →
  volume_at w = Ok (set_generation g' v).
Proof.
  intros (_ & Hlt & t & Ht & Ho & Hn). rewrite !ab_generation_set in Hlt.
  destruct (durable_volume_copy _ _ _ Ho) as (bo & Hco), (durable_volume_copy _ _ _ Hn) as (bn & Hcn).
  unfold volume_at. destruct Ht as [->| ->].
  - change (other superblock_store (side_a superblock_store)) with SUPERBLOCK_B in Hcn.
    change (side_a superblock_store) with SUPERBLOCK_A in Hco. rewrite Hco, Hcn.
    cbn. rewrite Z.eqb_refl, (proj2 (Z.eqb_neq g g')), (proj2 (Z.leb_gt _ _)) by lia. done.
  - change (other superblock_store (side_b superblock_store)) with SUPERBLOCK_A in Hcn.
    change (side_b superblock_store) with SUPERBLOCK_B in Hco. rewrite Hco, Hcn.
    cbn. rewrite Z.eqb_refl, (proj2 (Z.eqb_neq g' g)), (proj2 (Z.leb_le g g')) by lia. done.
Qed.
End Laws.

(** ** Creation *)

(** Solves disjointness of concrete paths. *)
Ltac paths :=
  intros; unfold is_side in *; cbn in *;
  repeat match goal with
  | H : _ ∨ _ |- _ => destruct H
  | |- ¬ _ => intro
  | |- _ ≠ _ => intro
  end; subst; first [done | discriminate | congruence].

Section Creation.
Context `{Crc32} `{BackingLaws W F}.

Lemma frames_open_sync p :
  validate p false = Ok tt →
  frames (λ q, q ≠ p) (let* f := lift_io (b_open p true) in lift_io (f_sync_data f)).
Proof.
  intros Hv w r w' Hi. unfold m_bind, lift_io, m_map_err.
  destruct (b_open p true w) as [ro w1] eqn:Ho.
  destruct (law_open _ _ _ _ _ Hi Hv Ho) as (Hk & Hok & _).
  apply (keeps_weaken (λ q, q ≠ p)) in Hk; [|by auto].
  destruct ro as [f|e]; cbn [map_err]; [|by intros [= <- <-]].
  destruct (Hok f eq_refl) as (Hh & Hvis & _). destruct (f_sync_data f w1) as [rs w2] eqn:Hs.
  destruct (law_sync_data _ _ _ _ _ _ (keeps_inv _ _ _ Hk) Hh Hvis Hs) as (Hk2 & _).
  intros [= <- <-]. by eapply keeps_trans.
Qed.

Lemma frames_create_mark : frames (λ q, q ≠ JOURNAL_DURABLE_MARK) create_mark.
Proof.
  intros w r w' Hi. unfold create_mark, m_bind, lift_io, m_map_err.
  destruct (b_open JOURNAL_DURABLE_MARK true w) as [ro w1] eqn:Ho.
  destruct (law_open w JOURNAL_DURABLE_MARK true ro w1 Hi eq_refl Ho) as (Hk & Hok & _).
  apply (keeps_weaken (λ q, q ≠ JOURNAL_DURABLE_MARK)) in Hk; [|by auto].
  destruct ro as [f|e]; cbn [map_err]; [|by intros [= <- <-]].
  destruct (Hok f eq_refl) as (Hh & Hvis & Hdir). destruct (f_set_len f 0 w1) as [rl w2] eqn:Hl.
  destruct (law_set_len _ _ _ _ _ _ _ _ (keeps_inv _ _ _ Hk) Hh Hvis Hdir ltac:(done) Hl)
    as (Hk2 & Hh2 & Hl2 & _).
  pose proof (keeps_trans _ _ _ _ Hk Hk2) as Hk02.
  destruct rl as [[]|e]; cbn [map_err]; [|by intros [= <- <-]].
  destruct (Hl2 eq_refl) as [Hv2 _]. destruct (f_sync_data f w2) as [rs w3] eqn:Hs.
  destruct (law_sync_data _ _ _ _ _ _ (keeps_inv _ _ _ Hk2) Hh2 Hv2 Hs) as (Hk3 & _).
  intros [= <- <-]. by eapply keeps_trans.
Qed.

Lemma frames_check_empty_dir P d : frames P (check_empty_dir d).
Proof.
  apply frames_bind; [auto with frames|]. intros r. repeat case_match; auto with frames.
Qed.

Lemma frames_lift_io {A} P (m : M W ErrorKind A) : frames P m → frames P (lift_io m).
Proof. apply frames_map_err. Qed.

Lemma frames_create_checks P : frames P create_checks.
Proof.
  unfold create_checks.
  apply frames_bind; [apply frames_lift_io; auto with frames|intros []].
  apply frames_bind; [apply frames_lift_io; auto with frames|intros a].
  apply frames_bind; [case_match; [auto with frames|apply frames_lift_io; auto with frames]|intros present].
  case_match; [auto with frames|].
  apply frames_bind; [apply frames_check_empty_dir|intros ?].
  apply frames_bind; [apply frames_check_empty_dir|intros ?]. apply frames_check_empty_dir.
Qed.

Lemma initial_wf volume_uuid : length volume_uuid = 16%nat → ab_wf (initial volume_uuid).
Proof. apply initial_ok. Qed.

Lemma frames_initialize volume_uuid :
  length volume_uuid = 16%nat → frames (λ q, ¬ is_side proof_store q) (dp_initialize volume_uuid).
Proof.
  intros Hu w r w' Hi Hr.
  destruct (initialize_inv _ _ _ _ Hi Hr) as [(Hk & _)|(w0 & Hk & _ & _ & Ha)].
  { by eapply keeps_weaken; [|exact Hk]. }
  eapply keeps_trans; [by eapply keeps_weaken; [|exact Hk]|]. pose proof (keeps_inv _ _ _ Hk) as Hi0.
  revert r w' Ha Hr. clear Hk Hi. intros r w' Ha _. unfold m_bind at 1 in Ha.
  destruct (store_record proof_store (initial volume_uuid) w0) as [r1 w1] eqn:Hs1.
  pose proof (frames_store_record proof_store _ proof_store_ok (initial_wf _ Hu) _ _ _ Hi0 Hs1) as Hk1.
  destruct r1 as [p1|e]; [|by injection Ha as <- <-]. eapply keeps_trans; [exact Hk1|].
  apply store_record_ok in Hs1.
  destruct (store_result proof_store _ _ _ _ Hi0 proof_store_ok (initial_wf _ Hu) Hs1) as [Hwf1 _].
  revert Ha. generalize (keeps_inv _ _ _ Hk1). clear -Hwf1. revert w1 r w'.
  change (frames (λ q, ¬ is_side proof_store q)
    (let* _ := lift_io (b_sync_dir JOURNAL_DIR) in
     let* proof := store_record proof_store p1 in
     let* _ := lift_io (b_sync_dir JOURNAL_DIR) in
     let* _ := lift_io (b_sync_dir "") in m_ret proof)).
  apply frames_bind; [apply frames_lift_io; by apply frames_sync_dir|intros ?].
  apply frames_bind; [apply (frames_store_record proof_store p1 proof_store_ok Hwf1)|intros ?].
  apply frames_bind; [apply frames_lift_io; by apply frames_sync_dir|intros ?].
  apply frames_bind; [apply frames_lift_io; by apply frames_sync_dir|intros ?]. apply frames_ret.
Qed.

Lemma catalog_new_wf : ab_wf Catalog.new.
Proof. by repeat split. Qed.

Lemma checkpoint_default_wf : ab_wf checkpoint_default.
Proof. by repeat split. Qed.

(** Up to the commit point no superblock path is touched. *)
Lemma frames_create_evidence volume_uuid :
  length volume_uuid = 16%nat → frames (is_side superblock_store) (create_evidence volume_uuid).
Proof.
  intros Hu. unfold create_evidence.
  do 3 (apply frames_bind; [apply frames_lift_io; auto with frames|intros ?]).
  apply frames_bind; [eapply frames_weaken; [|by apply (frames_open_sync VOLUME_LOCK)]; paths|intros ?].
  apply frames_bind; [eapply frames_weaken; [|by apply frames_initialize]; paths|intros ?].
  apply frames_bind; [eapply frames_weaken;
    [|apply (frames_store_record catalog_store _ catalog_store_ok catalog_new_wf)]; paths|intros ?].
  apply frames_bind; [eapply frames_weaken;
    [|apply (frames_store_twice checkpoint_store _ checkpoint_store_ok checkpoint_default_wf)]; paths|intros ?].
  apply frames_bind; [eapply frames_weaken; [|apply frames_create_mark]; paths|intros ?].
  do 3 (apply frames_bind; [apply frames_lift_io; by apply frames_sync_dir|intros ?]).
  apply frames_lift_io. by apply frames_sync_dir.
Qed.

(** What recovery requires, durable. *)
Definition evidence (volume_uuid : bytes) (w : W) : Prop :=
  (∃ g g', mirrored proof_store w (at_generation g (initial volume_uuid))
                                  (at_generation g' (initial volume_uuid))) ∧
  (∃ g, settled catalog_store w (Catalog.mkShardCatalog g [])) ∧
  (∃ g, settled checkpoint_store w (Checkpoint.mkCheckpointState g 0)).

Lemma evidence_keeps volume_uuid w w' :
  keeps (λ q, ¬ is_side superblock_store q) w w' → evidence volume_uuid w → evidence volume_uuid w'.
Proof.
  intros Hk ((g & g' & Hm) & (gc & Hc) & (gk & Hs)). split; [|split].
  - exists g, g'. eapply mirrored_keeps; [|exact Hk|exact Hm]. paths.
  - exists gc. eapply keeps_settled; [|exact Hk|exact Hc]. paths.
  - exists gk. eapply keeps_settled; [|exact Hk|exact Hs]. paths.
Qed.

Lemma evidence_crash volume_uuid w w' : crashes w w' → evidence volume_uuid w → evidence volume_uuid w'.
Proof.
  intros Hk ((g & g' & Hm) & (gc & Hc) & (gk & Hs)). split; [|split].
  - exists g, g'. by eapply mirrored_crash.
  - exists gc. by eapply settled_crash.
  - exists gk. by eapply settled_crash.
Qed.

(** The names of the second copies were never used. *)
Definition unused (w : W) : Prop :=
  absent w DURABLE_PROOF_B ∧ absent w SHARD_CATALOG_B ∧ absent w CHECKPOINT_STATE_B.

Lemma unused_keeps (P : string → Prop) w w' :
  keeps P w w' → P DURABLE_PROOF_B → P SHARD_CATALOG_B → P CHECKPOINT_STATE_B → unused w → unused w'.
Proof. intros Hk ? ? ? (? & ? & ?). repeat split; by eapply keeps_absent. Qed.

Lemma lift_io_keeps {A} P (m : M W ErrorKind A) a w w' :
  inv w → frames P m → lift_io m w = (Ok a, w') → keeps P w w'.
Proof. intros Hi Hf Hr%lift_io_ok. by eapply Hf. Qed.

Lemma catalog_fits : encodings_fit catalog_store Catalog.new.
Proof. intros g bs _ [= <-]. rewrite Catalog.catalog_encode_length. done. Qed.

Lemma checkpoint_fits : encodings_fit checkpoint_store checkpoint_default.
Proof. intros g bs _ [= <-]. rewrite Checkpoint.checkpoint_encode_length. done. Qed.

(** The records, stored in order, up to the directory syncs. *)
Lemma evidence_stored volume_uuid w u w' :
  inv w → length volume_uuid = 16%nat → unused w →
  (let* _ := dp_initialize volume_uuid in
   let* _ := store_record catalog_store Catalog.new in
   let* _ := store_twice checkpoint_store checkpoint_default in
   create_mark) w = (Ok u, w') →
  inv w' ∧
  (∃ g g', mirrored proof_store w' (at_generation g (initial volume_uuid))
                                   (at_generation g' (initial volume_uuid))) ∧
  (∃ g, stored catalog_store w' (Catalog.mkShardCatalog g [])) ∧
  (∃ g, stored checkpoint_store w' (Checkpoint.mkCheckpointState g 0)).
Proof.
  intros Hi Hu (Hpb & Hcb & Hkb) Hr.
  apply m_bind_ok in Hr as (p & w1 & Hp & Hr). apply m_bind_ok in Hr as (c & w2 & Hc & Hr).
  apply m_bind_ok in Hr as (k & w3 & Hk & Hm).
  destruct (initialize_done _ _ _ _ Hi Hu Hpb Hp) as (K1 & g & g' & -> & Hmir).
  pose proof (frames_store_record catalog_store _ catalog_store_ok catalog_new_wf _ _ _ (keeps_inv _ _ _ K1) Hc) as K2.
  pose proof (frames_store_twice checkpoint_store _ checkpoint_store_ok checkpoint_default_wf
    _ _ _ (keeps_inv _ _ _ K2) Hk) as K3.
  pose proof (frames_create_mark _ _ _ (keeps_inv _ _ _ K3) Hm) as K4.
  split; [by eapply keeps_inv|]. split; [|split].
  - exists g, g'. eapply mirrored_keeps; [|exact K4|]; [paths|].
    eapply mirrored_keeps; [|exact K3|]; [paths|]. eapply mirrored_keeps; [|exact K2|done]. paths.
  - assert (storable (T := Catalog.ShardCatalog) catalog_store w1) as Hst
      by (right; right; eapply keeps_absent; [exact K1| |done]; paths).
    apply store_record_ok in Hc. destruct (store_stored catalog_store _ _ _ _ catalog_store_ok
      (keeps_inv _ _ _ K1) catalog_new_wf Hst catalog_fits Hc) as (Hs & _ & _ & (gc & ->) & _).
    exists gc. eapply keeps_stored; [|exact K4|]; [paths|]. eapply keeps_stored; [|exact K3|exact Hs]. paths.
  - assert (storable (T := Checkpoint.CheckpointState) checkpoint_store w2) as Hst.
    { right; right. eapply keeps_absent; [exact K2|paths|]. eapply keeps_absent; [exact K1| |done]. paths. }
    destruct (store_twice_stored checkpoint_store checkpoint_store_ok (λ _ _ _, eq_refl) _ _ _ _
      (keeps_inv _ _ _ K2) checkpoint_default_wf Hst checkpoint_fits Hk) as (Hs & gk & ->).
    exists gk. eapply keeps_stored; [|exact K4|exact Hs]. paths.
Qed.

(** Once the directories are synced the evidence is durable. *)
Lemma evidence_synced volume_uuid w u w' :
  inv w →
  (∃ g g', mirrored proof_store w (at_generation g (initial volume_uuid))
                                  (at_generation g' (initial volume_uuid))) →
  (∃ g, stored catalog_store w (Catalog.mkShardCatalog g [])) →
  (∃ g, stored checkpoint_store w (Checkpoint.mkCheckpointState g 0)) →
  (let* _ := lift_io (b_sync_dir DATA_DIR) in
   let* _ := lift_io (b_sync_dir JOURNAL_DIR) in
   let* _ := lift_io (b_sync_dir CHECKPOINT_DIR) in
   lift_io (b_sync_dir "")) w = (Ok u, w') →
  evidence volume_uuid w'.
Proof.
  intros Hi (g & g' & Hm) (gc & Hc) (gk & Hk) Hr.
  apply m_bind_ok in Hr as ([] & w1 & H1'%lift_io_ok & Hr).
  apply m_bind_ok in Hr as ([] & w2 & H2'%lift_io_ok & Hr).
  apply m_bind_ok in Hr as ([] & w3 & H3'%lift_io_ok & Hr). apply lift_io_ok in Hr. destruct u.
  pose proof (sync_dir_keeps_all DATA_DIR _ _ _ Hi eq_refl H1') as K1.
  pose proof (sync_dir_keeps_all JOURNAL_DIR _ _ _ (keeps_inv _ _ _ K1) eq_refl H2') as K2.
  pose proof (sync_dir_keeps_all CHECKPOINT_DIR _ _ _ (keeps_inv _ _ _ K2) eq_refl H3') as K3.
  pose proof (sync_dir_keeps_all "" _ _ _ (keeps_inv _ _ _ K3) eq_refl Hr) as K4.
  pose proof (keeps_trans _ _ _ _ K1 K2) as K12. pose proof (keeps_trans _ _ _ _ K12 K3) as K13.
  split; [|split].
  - exists g, g'. apply (mirrored_keeps (λ _, True) _ w _ _ _ (λ _ _, I)); [by eapply keeps_trans|done].
  - exists gc. eapply (stored_sync catalog_store "" w3); [exact catalog_store_ok|done|done| |done].
    by eapply (keeps_stored (λ _, True)).
  - exists gk. eapply (keeps_settled (λ _, True)); [done|exact K4|].
    eapply (stored_sync checkpoint_store CHECKPOINT_DIR w2); [exact checkpoint_store_ok|done|done| |done].
    by eapply (keeps_stored (λ _, True)).
Qed.

Lemma evidence_done volume_uuid w u w' :
  inv w → length volume_uuid = 16%nat → unused w →
  create_evidence volume_uuid w = (Ok u, w') → evidence volume_uuid w'.
Proof.
  intros Hi Hu Hun Hr. unfold create_evidence in Hr.
  apply m_bind_ok in Hr as (? & w1 & H1' & Hr). apply m_bind_ok in Hr as (? & w2 & H2' & Hr).
  apply m_bind_ok in Hr as (? & w3 & H3' & Hr). apply m_bind_ok in Hr as (? & w4 & H4' & Hr).
  pose proof (lift_io_keeps _ _ _ _ _ Hi (frames_create_dir_all (λ _, True) _) H1') as K1.
  pose proof (lift_io_keeps _ _ _ _ _ (keeps_inv _ _ _ K1) (frames_create_dir_all (λ _, True) _) H2') as K2.
  pose proof (lift_io_keeps _ _ _ _ _ (keeps_inv _ _ _ K2) (frames_create_dir_all (λ _, True) _) H3') as K3.
  pose proof (frames_open_sync VOLUME_LOCK eq_refl _ _ _ (keeps_inv _ _ _ K3) H4') as K4.
  assert (unused w4) as Hun4.
  { eapply unused_keeps; [exact K4|paths..|]. eapply unused_keeps; [exact K3|done..|].
    eapply unused_keeps; [exact K2|done..|]. eapply unused_keeps; [exact K1|done..|done]. }
  apply m_bind_ok in Hr as (p & w5 & H5' & Hr). apply m_bind_ok in Hr as (c & w6 & H6' & Hr).
  apply m_bind_ok in Hr as (k & w7 & H7' & Hr). apply m_bind_ok in Hr as (m & w8 & H8' & Hr).
  destruct (evidence_stored volume_uuid w4 m w8 (keeps_inv _ _ _ K4) Hu Hun4) as (Hi8 & Hm & Hc & Hk).
  { apply m_bind_ok. exists p, w5. split; [done|]. apply m_bind_ok. exists c, w6. split; [done|].
    apply m_bind_ok. by exists k, w7. }
  by eapply evidence_synced.
Qed.

Lemma frames_create_publish sb version :
  ab_wf (mkVolumeSuperblock (sb_set_generation 0 sb) version) →
  frames (λ q, ¬ is_side superblock_store q) (create_publish sb version).
Proof.
  intros Hwf. unfold create_publish.
  apply frames_bind; [apply (frames_store_twice superblock_store _ superblock_store_ok Hwf)|intros v].
  apply frames_bind; [apply frames_lift_io; by apply frames_sync_dir|intros ?]. apply frames_ret.
Qed.

Lemma superblock_fits v : volume_ok v → encodings_fit superblock_store v.
Proof.
  intros [Hs Hv] g bs Hg Hb. simpl in Hb. unfold VolumeSuperblock_encode in Hb. simpl in Hb.
  rewrite Hv in Hb. change (bound superblock_store) with (Z.of_nat SUPERBLOCK_SIZE).
  unfold blen. erewrite sb_encode_length; [done| |exact Hb].
  destruct Hs as (_ & Hs). by split.
Qed.

Lemma publish_done sb version sb' w w' :
  inv w → volume_ok (mkVolumeSuperblock (sb_set_generation 0 sb) version) → absent w SUPERBLOCK_B →
  create_publish sb version w = (Ok sb', w') →
  ∃ g g', sb' = sb_set_generation g' sb ∧
    mirrored superblock_store w' (mkVolumeSuperblock (sb_set_generation g sb) version)
                                 (mkVolumeSuperblock (sb_set_generation g' sb) version).
Proof.
  intros Hi Hwf Hb Hr. unfold create_publish in Hr.
  apply m_bind_ok in Hr as (v & w1 & Hs & Hr). apply m_bind_ok in Hr as ([] & w2 & Hd%lift_io_ok & [= <- <-]).
  assert (storable (T := VolumeSuperblock) superblock_store w) as Hst by (by right; right).
  assert (ab_wf (mkVolumeSuperblock (sb_set_generation 0 sb) version)) as Hwf' by exact Hwf.
  destruct (store_twice_mirrored superblock_store superblock_store_ok (λ _ _ _, eq_refl) "" _ _ _ _ _
    eq_refl eq_refl Hi Hwf' Hst (superblock_fits _ Hwf) Hs Hd) as (g & g' & -> & Hm).
  by exists g, g'.
Qed.

Lemma evidence_crashes volume_uuid w w' :
  rtc crashes w w' → evidence volume_uuid w → evidence volume_uuid w'.
Proof. intros Hc. induction Hc; [done|]. eauto using evidence_crash. Qed.

Lemma absent_crashes p w w' : inv w → rtc crashes w w' → absent w p → inv w' ∧ absent w' p.
Proof.
  intros Hi Hc Ha. induction Hc as [|x y z Hc _ IH]; [done|].
  destruct (law_crash _ _ Hi Hc) as (Hi' & _ & _ & Hab & _). auto.
Qed.

Lemma mirrored_volume_crashes w w' (a b : VolumeSuperblock) :
  mirrored superblock_store w a b → rtc crashes w w' → mirrored superblock_store w' a b.
Proof. intros Hm Hc. induction Hc; [done|]. eauto using mirrored_crash. Qed.

(** The evidence is what recovery will read. *)
Lemma evidence_loads volume_uuid w :
  quiet w → evidence volume_uuid w →
  (∃ g w1, dp_load volume_uuid w = (Ok (at_generation g (initial volume_uuid)), w1)) ∧
  (∃ g w1, load catalog_store w = (Ok (Some (Catalog.mkShardCatalog g [])), w1)) ∧
  (∃ g w1, load checkpoint_store w = (Ok (Some (Checkpoint.mkCheckpointState g 0)), w1)).
Proof.
  intros Hq ((g & g' & Hm) & (gc & Hc) & (gk & Hk)). split; [|split].
  - exists g'. by apply (mirrored_load _ g g' (initial volume_uuid)).
  - exists gc. destruct (load catalog_store w) as [r w1] eqn:Hl. exists w1.
    by rewrite (settled_load catalog_store _ _ _ _ catalog_store_ok Hc Hq Hl).
  - exists gk. destruct (load checkpoint_store w) as [r w1] eqn:Hl. exists w1.
    by rewrite (settled_load checkpoint_store _ _ _ _ checkpoint_store_ok Hk Hq Hl).
Qed.

(** A creation from an unused root, however it ends: the superblocks are
    untouched, or the evidence is durable. *)
Lemma create_commit sb version r w w' :
  inv w → volume_ok (mkVolumeSuperblock (sb_set_generation 0 sb) version) →
  absent w SUPERBLOCK_A → absent w SUPERBLOCK_B → unused w →
  create_volume_with_metadata_version sb version w = (r, w') →
  inv w' ∧
  ((∃ e, r = Err e ∧ absent w' SUPERBLOCK_A ∧ absent w' SUPERBLOCK_B) ∨ evidence (volume_uuid sb) w') ∧
  ∀ sb', r = Ok sb' → ∃ g g', sb' = sb_set_generation g' sb ∧
    mirrored superblock_store w' (mkVolumeSuperblock (sb_set_generation g sb) version)
                                 (mkVolumeSuperblock (sb_set_generation g' sb) version).
Proof.
  intros Hi Hok Ha Hb Hun. assert (length (volume_uuid sb) = 16%nat) as Hu by apply Hok.
  assert (ab_wf (mkVolumeSuperblock (sb_set_generation 0 sb) version)) as Hwf by exact Hok.
  unfold create_volume_with_metadata_version. unfold m_bind at 1.
  destruct (create_checks w) as [r1 w1] eqn:H1'.
  pose proof (frames_create_checks (λ _, True) _ _ _ Hi H1') as K1. pose proof (keeps_inv _ _ _ K1) as Hi1.
  assert (absent w1 SUPERBLOCK_A ∧ absent w1 SUPERBLOCK_B) as [Ha1 Hb1] by (split; by eapply keeps_absent).
  destruct r1 as [u1|e]; [|intros [= <- <-]; split; [done|]; split; [left; by eexists|done]].
  unfold m_bind. destruct (create_evidence (volume_uuid sb) w1) as [r2 w2] eqn:H2'.
  pose proof (frames_create_evidence _ Hu _ _ _ Hi1 H2') as K2. pose proof (keeps_inv _ _ _ K2) as Hi2.
  assert (absent w2 SUPERBLOCK_A ∧ absent w2 SUPERBLOCK_B) as [Ha2 Hb2]
    by (split; (eapply keeps_absent; [exact K2|by (left + right)|done])).
  destruct r2 as [u2|e]; [|intros [= <- <-]; split; [done|]; split; [left; by eexists|done]].
  intros H3'. pose proof (frames_create_publish _ _ Hwf _ _ _ Hi2 H3') as K3.
  split; [by eapply keeps_inv|]. split.
  - right. eapply evidence_keeps; [exact K3|]. eapply evidence_done; [exact Hi1|done| |exact H2'].
    by eapply unused_keeps; [exact K1|..].
  - intros sb' ->. by eapply publish_done.
Qed.
End Creation.

Section Claims.
Context `{Crc32} `{BackingLaws W F}.

(** C16. Volume creation commits atomically.  In a root whose metadata names
    were never used, whatever the creation returns and after any number of
    crashes:
    - if it returned success, the superblock that loads is the returned one,
      which is the requested one up to its generation;
    - if any superblock loads at all, even after a creation that failed or
      was cut off at some I/O call, then the durable proof, the shard
      catalog and the checkpoint state load as well, with the contents of a
      new volume. *)
Theorem create_volume_atomic sb version r w w' w'' :
  inv w → volume_ok (mkVolumeSuperblock (sb_set_generation 0 sb) version) →
  absent w SUPERBLOCK_A → absent w SUPERBLOCK_B → unused w →
  create_volume_with_metadata_version sb version w = (r, w') → rtc crashes w' w'' → quiet w'' →
  (∀ sb', r = Ok sb' → (∃ g, sb' = sb_set_generation g sb) ∧ ∃ w3, load_superblock w'' = (Ok sb', w3)) ∧
  (∀ v w3, load_volume_superblock w'' = (Ok v, w3) →
    (∃ g w4, dp_load (volume_uuid sb) w'' = (Ok (at_generation g (initial (volume_uuid sb))), w4)) ∧
    (∃ g w4, load catalog_store w'' = (Ok (Some (Catalog.mkShardCatalog g [])), w4)) ∧
    (∃ g w4, load checkpoint_store w'' = (Ok (Some (Checkpoint.mkCheckpointState g 0)), w4))).
Proof.
  intros Hi Hok Ha Hb Hun Hr Hcr Hq.
  destruct (create_commit _ _ _ _ _ Hi Hok Ha Hb Hun Hr) as (Hi' & Hor & Hdone).
  pose proof (inv_crashes _ _ Hi' Hcr) as Hi''.
  split.
  - intros sb' ->. destruct (Hdone sb' eq_refl) as (g & g' & -> & Hm). split; [by exists g'|].
    pose proof (mirrored_volume_at _ (mkVolumeSuperblock sb version) g g'
      (mirrored_volume_crashes _ _ _ _ Hm Hcr)) as Hv.
    unfold load_superblock, m_bind. destruct (load_volume_superblock w'') as [r3 w3] eqn:Hl.
    destruct (load_volume_spec _ Hi'' _ _ Hl) as (_ & _ & Hqv). rewrite (Hqv Hq), Hv. by exists w3.
  - intros v w3 Hl. destruct (load_volume_spec _ Hi'' _ _ Hl) as (_ & Hv & _). specialize (Hv v eq_refl).
    destruct Hor as [(e & _ & Ha' & Hb')|He].
    + destruct (absent_crashes _ _ _ Hi' Hcr Ha'), (absent_crashes _ _ _ Hi' Hcr Hb').
      by rewrite volume_at_absent in Hv.
    + apply evidence_loads; [done|]. by eapply evidence_crashes.
Qed.

(** C25. Loading never downgrades a volume.  When a load succeeds with [v],
    then on either side: a full-size block that decodes has the metadata
    version of [v] and no higher generation, a block with a valid checksum
    but an unknown version is not there, and neither is the header of a
    future format in a file of another size. *)
Theorem load_never_downgrades w v w' path c :
  inv w → load_volume_superblock w = (Ok v, w') → is_side superblock_store path → vis w path = Some c →
  (blen c = Z.of_nat SUPERBLOCK_SIZE →
    VolumeSuperblock_decode c ≠ Err Unsupported ∧
    ∀ u, VolumeSuperblock_decode c = Ok u →
      metadata_version u = metadata_version v ∧
      sb_generation (superblock u) ≤ sb_generation (superblock v)) ∧
  (blen c ≠ Z.of_nat SUPERBLOCK_SIZE → 12 ≤ blen c →
    take 8 c = SUPERBLOCK_MAGIC → supported_version (from_le (slice c 8 12)) = true).
Proof.
  intros Hi Hl Hs Hc. destruct (load_volume_spec _ Hi _ _ Hl) as (_ & Hv & _).
  specialize (Hv v eq_refl). unfold volume_at in Hv. inv_res.
  assert (∃ o, volume_copy w path = Ok o ∧ ∀ u bs, o = Some (u, bs) →
    metadata_version u = metadata_version v ∧
    sb_generation (superblock u) ≤ sb_generation (superblock v)) as (o & Ho & Hu).
  { destruct Hs as [->| ->]; eexists; (split; [eassumption|]); intros u bs ->;
      unfold vsb_select in Hv; repeat case_match; inv_res; subst; inv_guards; (split; [lia|]);
      repeat match goal with |- context [if ?b then _ else _] => destruct b eqn:? end; inv_guards; lia. }
  unfold volume_copy, fixed_at, content_at in Ho. rewrite Hc in Ho. split.
  - intros Hlen. rewrite (proj2 (Z.eqb_eq _ _)) in Ho by done. cbn [negb] in Ho. unfold vsb_judge in Ho.
    destruct (VolumeSuperblock_decode c) as [u|e]; [|split; [by destruct e|done]].
    split; [done|]. intros ? [= <-]. injection Ho as <-. by eapply Hu.
  - intros Hlen H12 Hm. rewrite (proj2 (Z.eqb_neq _ _)), (proj2 (Z.leb_le _ _)) in Ho by done.
    cbn [negb andb] in Ho. unfold foreign_version in Ho. rewrite take_take, Nat.min_l, Hm in Ho by lia.
    rewrite bytes_eqb_refl in Ho. cbn [andb] in Ho. rewrite slice_take in Ho by lia.
    by destruct (supported_version _).
Qed.
End Claims.

(** ** A concrete creation on the crash model *)
Module VolumeSample.
#[local] Existing Instance Ieee.ieee.

Definition sb : Superblock := sample_superblock.
Definition w1 : Inner := (create_volume sb Sample.empty).2.
Definition sb' : Superblock := sb_set_generation 2 sb.

Lemma create_runs : create_volume_with_metadata_version sb SUPERBLOCK_VERSION_V2 Sample.empty = (Ok sb', w1).
Proof. vm_compute. reflexivity. Qed.

Lemma sb_ok : volume_ok (mkVolumeSuperblock (sb_set_generation 0 sb) SUPERBLOCK_VERSION_V2).
Proof.
  split; [|done]. split; [by vm_compute|]. split; [by vm_compute|]. split.
  { split; [|by vm_compute]. unfold compute_args, sb, sample_superblock, sample_geometry, u32_ok, u64_ok.
    cbn. lia. }
  split; [done|]. split; [by vm_compute|].
  repeat split; try (by vm_compute); cbn; unfold MAX_STR; lia.
Qed.

Lemma vol_inv : inv w1.
Proof.
  by destruct (create_commit sb SUPERBLOCK_VERSION_V2 (Ok sb') Sample.empty w1 ProofSample.w0_inv sb_ok)
    as (? & _); [done|done|done|exact create_runs|].
Qed.

Definition image : bytes :=
  default [] (encode_metadata_version SUPERBLOCK_VERSION_V2 (sb_set_generation 1 sb)).

Lemma w1_side_a : vis w1 SUPERBLOCK_A = Some image.
Proof. vm_compute. reflexivity. Qed.

Lemma w1_loads : ∃ w2, load_volume_superblock w1 = (Ok (mkVolumeSuperblock sb' 2), w2).
Proof. eexists. vm_compute. reflexivity. Qed.
End VolumeSample.

#[local] Existing Instance Ieee.ieee.

Lemma create_volume_atomic_witness :
  ∃ w3, load_superblock (crash_all_lost VolumeSample.w1) = (Ok VolumeSample.sb', w3).
Proof.
  refine (proj2 (proj1 (create_volume_atomic VolumeSample.sb SUPERBLOCK_VERSION_V2 (Ok VolumeSample.sb')
    Sample.empty VolumeSample.w1 (crash_all_lost VolumeSample.w1) ProofSample.w0_inv VolumeSample.sb_ok
    _ _ _ VolumeSample.create_runs _ _) VolumeSample.sb' eq_refl));
    [done|done|done|apply rtc_once; by right|by vm_compute].
Defined.

Lemma load_never_downgrades_witness :
  ∃ v, metadata_version v = 2 ∧ ∀ u, VolumeSuperblock_decode VolumeSample.image = Ok u →
    metadata_version u = metadata_version v.
Proof.
  destruct VolumeSample.w1_loads as [w2 Hl]. eexists. split; [|intros u Hu].
  2: { eapply (proj2 (proj1 (load_never_downgrades VolumeSample.w1 _ w2 SUPERBLOCK_A VolumeSample.image
         VolumeSample.vol_inv Hl (or_introl eq_refl) VolumeSample.w1_side_a) _) u Hu).
       Unshelve. by vm_compute. }
  done.
Defined.
