(* ===== verification/JournalScan.v ===== *)
(** * JournalScan: the read-only journal scan of recovery
    (crates/maki-core/src/recovery.rs: [scan_journal_with_proof] and what it
    is built from)

    The scan validates every segment file, decides the repairs recovery would
    apply, and collects the records above the checkpoint.  The theorems say
    that what it accepts is one contiguous log from the checkpoint on, that
    every record the journal writer acknowledged is in it after any later
    failures and crashes, that no repair cuts into acknowledged records, and
    that a journal as the writer leaves it is accepted. *)

From Stdlib Require Import Sorted.
From stdpp Require Import sorting.
From S2P Require Import Prelude Codec Layout Geometry AbRecord Metadata Superblock JournalFormat Backing CrashBacking AbStore FixedCopy DurableProof JournalWriter JournalProof JournalDurability RecoveryScan Volumes.

Local Open Scope Z_scope.

(** A change recovery applies to the journal after a crash. *)
Inductive JournalRepair :=
| Discard (path : string)
| Truncate (path : string) (len : Z).

#[global] Instance JournalRepair_eq_dec : EqDecision JournalRepair.
Proof. solve_decision. Defined.

Record VerifiedPrefix := mkVerifiedPrefix { vp_path : string; vp_len : Z; vp_fingerprint : Z }.

(** What the caller wants kept of the records above the checkpoint. *)
Inductive ReplayRecords :=
| All (records : list JournalRecord)
| DiscardRecords
| Units (units : gset Z).

Definition replay_push (record : JournalRecord) (replay : ReplayRecords) : ReplayRecords :=
  match replay with
  | All records => All (records ++ [record])
  | DiscardRecords => DiscardRecords
  | Units units => Units ({[ unit_index record ]} ∪ units)
  end.

Definition into_parts (replay : ReplayRecords) : list JournalRecord * gset Z :=
  match replay with
  | All records => (records, ∅)
  | DiscardRecords => ([], ∅)
  | Units units => ([], units)
  end.

(** The result of the scan; Rocq's field names carry a prefix. *)
Record JournalScan := mkJournalScan {
  js_durable_sequence : Z;
  js_next_segment_index : Z;
  js_segments : list Journal.SegmentInfo;
  js_replay : list JournalRecord;
  js_replay_units : gset Z;
  js_repairs : list JournalRepair;
  js_mark : option DurableMark;
  js_verified_prefixes : list VerifiedPrefix
}.

(** The variables the scan loop carries. *)
Record LoopState := mkLoopState {
  l_segments : list Journal.SegmentInfo;
  l_repairs : list JournalRepair;
  l_prev_last_seq : option Z;
  l_max_seq : Z;
  l_final_mark : option DurableMark;
  l_verified_prefixes : list VerifiedPrefix;
  l_required_seen : bool;
  l_replay : ReplayRecords
}.

(** [Option::filter], and the maximum of an iterator of options. *)
Definition opt_filter {A} (P : A → bool) (o : option A) : option A :=
  a ← o; if P a then Some a else None.
Definition opt_max (a b : option Z) : option Z :=
  match a, b with
  | Some a, Some b => Some (Z.max a b)
  | Some a, None | None, Some a => Some a
  | None, None => None
  end.

(** The order of [(u64, String)] pairs. *)
Definition name_le (a b : Z * string) : bool :=
  (a.1 <? b.1) || ((a.1 =? b.1) && string_leb a.2 b.2).
Fixpoint insert_name (x : Z * string) (l : list (Z * string)) : list (Z * string) :=
  match l with
  | [] => [x]
  | y :: l' => if name_le x y then x :: l else y :: insert_name x l'
  end.
Definition sort_names (l : list (Z * string)) : list (Z * string) := foldr insert_name [] l.

(** [filter_map(|n| parse_journal_segment(&n).map(|i| (i, n)))], sorted. *)
Definition segment_names (names : list string) : list (Z * string) :=
  sort_names (omap (λ n, (λ i, (i, n)) <$> parse_journal_segment n) names).

Section Scan.
Context `{Crc32} `{Backing W F} `{Hasher HT}.
Abbreviation rio := (M W RecoveryError).

Definition rec_io {A} (m : M W ErrorKind A) : rio A := m_map_err RecIo m.

(** Absent, short, torn and invalid marks all mean "no information". *)
Definition load_durable_mark : rio (option DurableMark) :=
  let* r := m_try (b_open JOURNAL_DURABLE_MARK false) in
  match r with
  | Err NotFound => m_ret None
  | Err e => m_err (RecIo e)
  | Ok file =>
      let* len := rec_io (f_len file) in
      if len <? DURABLE_MARK_SIZE then m_ret None
      else
        let* r := m_try (f_read_at file 0 DURABLE_MARK_SIZE) in
        match r with
        | Ok buf => m_ret (to_option (DurableMark_decode buf))
        | Err UnexpectedEof => m_ret None
        | Err e => m_err (RecIo e)
        end
  end.

(** What every round of the scan reads but does not change. *)
Record ScanEnv := mkScanEnv {
  v_superblock : Superblock;
  v_checkpoint_sequence : Z;
  v_after_checkpoint : Z;
  v_max_file_size : Z;
  v_mark : option DurableMark;
  v_proof : option DurableProof
}.

(** The proof, as far as it names records the checkpoint does not cover. *)
Definition required (env : ScanEnv) : option DurableProof :=
  opt_filter (λ p, v_checkpoint_sequence env <? durable_sequence p) (v_proof env).

Definition mark_here (env : ScanEnv) (index : Z) : option DurableMark :=
  opt_filter (λ m, dm_segment_index m =? index) (v_mark env).

(** What the mark and the proof say about segment [index]. *)
Definition marked_durable (env : ScanEnv) (index : Z) : option Z :=
  opt_max (durable_size <$> mark_here env index)
    (dp_durable_size <$> opt_filter (λ p, (0 <? durable_sequence p) && (dp_segment_index p =? index)) (v_proof env)).

Definition is_none {A} (o : option A) : bool := match o with None => true | Some _ => false end.

(** Continuity: only a hole the checkpoint covers is allowed. *)
Definition follows_previous (env : ScanEnv) (prev_last_seq : option Z) (base : Z) : bool :=
  match prev_last_seq with
  | Some prev =>
      (base =? add64 prev 1)
      || ((prev <=? v_checkpoint_sequence env) && (base <=? v_after_checkpoint env))
  | None => true
  end.

(** The part of a round behind a valid header: scan, classify, link. *)
Definition scan_body (env : ScanEnv) (is_last : bool) (index : Z) (path : string) (file : F) (len : Z)
    (header_bytes : bytes) (header : SegmentHeader) (st : LoopState) : rio LoopState :=
  if negb (bytes_eqb (JournalFormat.volume_uuid header) (Superblock.volume_uuid (v_superblock env))) then m_err RecCorrupt else
  if negb (segment_index header =? index) then m_err RecCorrupt else
  if is_none (l_prev_last_seq st) && (v_after_checkpoint env <? base_sequence header)
  then m_err RecCorrupt else
  let body_len := len - SEGMENT_HEADER_SIZE in
  let durable_len := if is_last
                     then match marked_durable env index with
                          | Some d => saturating_sub d SEGMENT_HEADER_SIZE
                          | None => 0
                          end
                     else body_len in
  let boundary := (λ p, (durable_sequence p, sub64 (dp_durable_size p) SEGMENT_HEADER_SIZE))
                    <$> opt_filter (λ p, dp_segment_index p =? index) (required env) in
  let* '(scanned, replay) :=
    scan (HT := HT) (λ record replay, m_ret (replay_push record replay))
      (mkSegmentScanner file header_bytes body_len (base_sequence header) durable_len boundary
         (Superblock.geometry (v_superblock env)) (v_checkpoint_sequence env)) (l_replay st) in
  let required_seen := negb (is_none boundary) || l_required_seen st in
  let* '(size, repairs) :=
    match b_outcome scanned with
    | Clean =>
        if is_last && (b_valid_body_bytes scanned <? body_len)
        then let size := SEGMENT_HEADER_SIZE + b_valid_body_bytes scanned in
             m_ret (size, [Truncate path size])
        else m_ret (len, [])
    | TornTail at_ =>
        if negb is_last then m_err RecCorrupt
        else let size := SEGMENT_HEADER_SIZE + Z.of_nat at_ in m_ret (size, [Truncate path size])
    | Corrupt _ _ => m_err RecCorrupt
    end in
  let* after_segment :=
    m_lift (ok_or (checked_add (base_sequence header) (b_record_count scanned)) RecCorrupt) in
  let last := saturating_sub after_segment 1 in
  if negb (follows_previous env (l_prev_last_seq st) (base_sequence header)) then m_err RecCorrupt else
  m_ret (mkLoopState
    (l_segments st ++ [Journal.mkSegmentInfo index (base_sequence header) (b_record_count scanned) size])
    (l_repairs st ++ repairs) (Some last) (Z.max (l_max_seq st) last) (l_final_mark st)
    (l_verified_prefixes st ++ [mkVerifiedPrefix path size (b_fingerprint scanned)])
    required_seen replay).

Definition add_repair (r : JournalRepair) (st : LoopState) : LoopState :=
  mkLoopState (l_segments st) (l_repairs st ++ [r]) (l_prev_last_seq st) (l_max_seq st)
    (l_final_mark st) (l_verified_prefixes st) (l_required_seen st) (l_replay st).
Definition set_final_mark (m : option DurableMark) (st : LoopState) : LoopState :=
  mkLoopState (l_segments st) (l_repairs st) (l_prev_last_seq st) (l_max_seq st)
    m (l_verified_prefixes st) (l_required_seen st) (l_replay st).

(** One round of the loop over the segment files. *)
Definition scan_file (env : ScanEnv) (is_last : bool) (index : Z) (name : string) (st : LoopState)
    : rio LoopState :=
  let path := (JOURNAL_DIR ++ "/" ++ name)%string in
  let* file := rec_io (b_open path false) in
  let* len := rec_io (f_len file) in
  if v_max_file_size env <? len then m_err RecCorrupt else
  if match marked_durable env index with Some durable => len <? durable | None => false end
  then m_err RecCorrupt else
  let st := if is_last then set_final_mark (mark_here env index) st else st in
  if len <? SEGMENT_HEADER_SIZE then
    if is_last && is_none (marked_durable env index) then m_ret (add_repair (Discard path) st)
    else m_err RecCorrupt
  else
    let* header_bytes := rec_io (f_read_at file 0 SEGMENT_HEADER_SIZE) in
    match SegmentHeader_decode header_bytes with
    | Ok header => scan_body env is_last index path file len header_bytes header st
    | Err _ =>
        if is_last && is_none (marked_durable env index) then
          let* zero := rec_io (range_is_zero file 0 len) in
          if zero then m_ret (add_repair (Discard path) st) else m_err RecCorrupt
        else m_err RecCorrupt
    end.

Fixpoint scan_files (env : ScanEnv) (names : list (Z * string)) (st : LoopState) : rio LoopState :=
  match names with
  | [] => m_ret st
  | (index, name) :: rest =>
      let* st := scan_file env (match rest with [] => true | _ => false end) index name st in
      scan_files env rest st
  end.

(** [max] over the chained iterators. *)
Definition highest_segment_index (env : ScanEnv) (segments : list Journal.SegmentInfo) : option Z :=
  opt_max (foldl (λ m s, opt_max m (Some (Journal.s_index s))) None segments)
    (opt_max (dm_segment_index <$> v_mark env)
       (dp_segment_index <$> opt_filter (λ p, 0 <? durable_sequence p) (v_proof env))).

Definition scan_journal_with_proof (superblock : Superblock) (checkpoint_sequence segment_size : Z)
    (proof : option DurableProof) (replay : ReplayRecords) : rio JournalScan :=
  let* after_checkpoint := m_lift (ok_or (checked_add checkpoint_sequence 1) RecCorrupt) in
  let* mark := load_durable_mark in
  let* names := rec_io (b_list JOURNAL_DIR) in
  let env := mkScanEnv superblock checkpoint_sequence after_checkpoint
    (Z.max (max_segment_file_size segment_size) max_journal_segment_file_size) mark proof in
  let* st := scan_files env (segment_names names) (mkLoopState [] [] None 0 None [] false replay) in
  if negb (is_none (required env)) && negb (l_required_seen st) then m_err RecCorrupt else
  let* next_segment_index :=
    match highest_segment_index env (l_segments st) with
    | Some index => m_lift (ok_or (checked_add index 1) RecCorrupt)
    | None => m_ret 0
    end in
  let '(records, units) := into_parts (l_replay st) in
  m_ret (mkJournalScan (Z.max checkpoint_sequence (l_max_seq st)) next_segment_index (l_segments st)
           records units (l_repairs st) (l_final_mark st) (l_verified_prefixes st)).

(** [?] on a format error. *)
Definition rec_format {A} (m : M W FormatError A) : rio A := m_map_err RecFormat m.

Definition scan_journal_with_replay (superblock : Superblock) (checkpoint_sequence segment_size : Z)
    (replay : ReplayRecords) : rio JournalScan :=
  let* envelope := rec_format load_volume_superblock in
  if negb (bytes_eqb (Superblock.volume_uuid (Superblock.superblock envelope)) (Superblock.volume_uuid superblock))
  then m_err RecCorrupt else
  let* proof :=
    if (metadata_version envelope =? SUPERBLOCK_VERSION_V2) || (metadata_version envelope =? SUPERBLOCK_VERSION_V3)
    then let* p := rec_format (dp_load (Superblock.volume_uuid superblock)) in m_ret (Some p)
    else m_ret None in
  scan_journal_with_proof superblock checkpoint_sequence segment_size proof replay.

Definition scan_journal (superblock : Superblock) (checkpoint_sequence segment_size : Z) : rio JournalScan :=
  scan_journal_with_replay superblock checkpoint_sequence segment_size (All []).

(** What the offline checker wants to know. *)
Record JournalSummary := mkJournalSummary {
  jy_segment_count : Z;
  jy_uncovered_records : Z;
  jy_durable_sequence : Z;
  jy_repairs : list JournalRepair;
  jy_replay_units : gset Z
}.

Definition summarize_journal (superblock : Superblock) (checkpoint_sequence segment_size : Z)
    : rio JournalSummary :=
  let* scan := scan_journal_with_replay superblock checkpoint_sequence segment_size (Units ∅) in
  let uncovered := foldl (λ sum s, add64 sum
    (Z.min (Journal.s_record_count s)
       (saturating_sub (Journal.last_sequence s) checkpoint_sequence))) 0 (js_segments scan) in
  m_ret (mkJournalSummary (blen (js_segments scan)) uncovered (js_durable_sequence scan)
           (js_repairs scan) (js_replay_units scan)).
End Scan.

(** ** What one file contributes *)
Section Files.
Context `{Crc32} `{BackingLaws W F} `{HasherLaws HT}.
Import Journal.

(** A file of content [c] is accepted as segment [s] holding the records [rs]. *)
Record accepted (sb : Superblock) (c : bytes) (s : SegmentInfo) (rs : list JournalRecord) : Prop := {
  ac_len : SEGMENT_HEADER_SIZE ≤ blen c;
  ac_header : SegmentHeader_decode (take 48 c) =
    Ok (mkSegmentHeader (s_index s) (Superblock.volume_uuid sb) (s_base_sequence s));
  ac_scan : ∃ d o, scan_segment_bounded (drop 48 c) (s_base_sequence s) d = Some (rs, o);
  ac_records : consecutive (s_base_sequence s) rs;
  ac_count : s_record_count s = blen rs;
  ac_size : s_size s = SEGMENT_HEADER_SIZE + blen (encode_records rs);
  ac_geometry : Forall (in_geometry (Superblock.geometry sb)) rs;
  ac_base : u64_ok (s_base_sequence s);
  ac_end : s_base_sequence s + blen rs ≤ U64_MAX;
  ac_max : blen c ≤ U64_MAX
}.

(** [base] continues the segments before it. *)
Definition continues (env : ScanEnv) (prev : option Z) (base : Z) : Prop :=
  match prev with
  | None => base ≤ v_after_checkpoint env
  | Some prev => base = add64 prev 1 ∨ (prev ≤ v_checkpoint_sequence env ∧ base ≤ v_after_checkpoint env)
  end.

(** The last sequence the loop notes for an accepted segment. *)
Definition last_of (base : Z) (rs : list JournalRecord) : Z := saturating_sub (base + blen rs) 1.

Definition prefix_of_segment (c : bytes) (s : SegmentInfo) (rs : list JournalRecord) : VerifiedPrefix :=
  mkVerifiedPrefix (journal_segment (s_index s)) (s_size s)
    (hasher_finish (hasher_write (hasher_write (hasher_new (H := HT)) (take 48 c)) (encode_records rs))).

(** The loop state after an accepted segment. *)
Record extended (env : ScanEnv) (is_last : bool) (c : bytes) (s : SegmentInfo) (rs : list JournalRecord)
    (st st' : LoopState) : Prop := {
  ex_accepted : accepted (v_superblock env) c s rs;
  ex_segments : l_segments st' = l_segments st ++ [s];
  ex_repairs : l_repairs st' = l_repairs st ∨
    (is_last = true ∧ l_repairs st' = l_repairs st ++ [Truncate (journal_segment (s_index s)) (s_size s)]);
  ex_prev : l_prev_last_seq st' = Some (last_of (s_base_sequence s) rs);
  ex_max : l_max_seq st' = Z.max (l_max_seq st) (last_of (s_base_sequence s) rs);
  ex_replay : l_replay st' = pushes replay_push (l_replay st) (uncovered (v_checkpoint_sequence env) rs);
  ex_prefixes : l_verified_prefixes st' = l_verified_prefixes st ++ [prefix_of_segment c s rs];
  ex_continues : continues env (l_prev_last_seq st) (s_base_sequence s)
}.

(** A file no writer finished creating. *)
Definition never_created (c : bytes) : Prop :=
  blen c < SEGMENT_HEADER_SIZE ∨ is_ok (SegmentHeader_decode (take 48 c)) = false.

Definition discarded (env : ScanEnv) (is_last : bool) (index : Z) (c : bytes) (st st' : LoopState) : Prop :=
  is_last = true ∧ never_created c ∧
  st' = add_repair (Discard (journal_segment index)) (set_final_mark (mark_here env index) st).

(** A header that decodes is the encoding of what it decodes to. *)
Lemma header_decode_canonical bs h :
  length bs = 48%nat → SegmentHeader_decode bs = Ok h →
  bs = SegmentHeader_encode h ∧ u64_ok (segment_index h) ∧ u64_ok (base_sequence h) ∧ length (JournalFormat.volume_uuid h) = 16%nat.
Proof.
  intros Hl. unfold SegmentHeader_decode. destruct (_ <? _)%nat; [done|]. rewrite (take_ge bs) by lia.
  destruct (bytes_eqb (take 8 bs) _) eqn:Hm; [|done]. intros Hr. inv_res. pose proof (strip_verify_crc_length _ _ Hv) as Hlv.
  apply strip_verify_crc_ok in Hv. 
  unfold segment_body in Hr. inv_rd. inv_guards. subst. unfold SegmentHeader_encode. chain_rest.
  match goal with Hv : v = ?v0 ++ _, Hl0 : length ?v0 = 8%nat |- _ => rename Hv into Heq; rename Hl0 into Hl8 end.
  split; [|done]. f_equal.
  assert (rest r5 = []) as Hnil.
  { apply length_zero_iff_nil. rewrite Hl, Heq, !length_app, !length_to_le in Hlv. lia. }
  rewrite Heq, Hnil, app_nil_r in *.
  rewrite (take_finish v0) in Hm by done. subst v0. cbn [segment_index JournalFormat.volume_uuid base_sequence]. unfold w_u64, w_uuid, w_u32, w_bytes, Writer_new.
  by rewrite app_nil_l, <- !(assoc_L (++)).
Qed.

Lemma header_decode_u64 bs h : SegmentHeader_decode bs = Ok h → u64_ok (base_sequence h).
Proof.
  unfold SegmentHeader_decode. destruct (_ <? _)%nat; [done|]. destruct (bytes_eqb _ _); [|done].
  intros Hr. inv_res. apply run_rd_ok in Hr as (r2 & Hr). unfold segment_body in Hr. inv_rd. by subst h.
Qed.

Lemma body_whole (sc : SegmentScanner (F := F)) c :
  SEGMENT_HEADER_SIZE ≤ blen c → sc_body_len sc = blen c - SEGMENT_HEADER_SIZE → body sc c = drop 48 c.
Proof.
  intros Hl Hb. unfold body, range_of. rewrite Hb. apply take_ge. rewrite length_drop.
  unfold blen, SEGMENT_HEADER_SIZE in *. lia.
Qed.
(** How the outcome of the body scan decides size and repairs. *)
Lemma outcome_size (sc : SegmentScanner (F := F)) c rs res is_last path
    (r : result RecoveryError (Z * list JournalRepair)) w w' :
  scan_result (HT := HT) sc c rs res → SEGMENT_HEADER_SIZE ≤ blen c →
  sc_body_len sc = blen c - SEGMENT_HEADER_SIZE → sc_first_sequence sc + blen rs ≤ U64_MAX →
  (is_last = false → sc_durable_len sc = sc_body_len sc) →
  match b_outcome res with
  | Clean =>
      if is_last && (b_valid_body_bytes res <? sc_body_len sc)
      then m_ret (SEGMENT_HEADER_SIZE + b_valid_body_bytes res,
                  [Truncate path (SEGMENT_HEADER_SIZE + b_valid_body_bytes res)])
      else m_ret (blen c, [])
  | TornTail at_ =>
      if negb is_last then m_err RecCorrupt
      else m_ret (SEGMENT_HEADER_SIZE + Z.of_nat at_, [Truncate path (SEGMENT_HEADER_SIZE + Z.of_nat at_)])
  | Corrupt _ _ => m_err RecCorrupt
  end (w : W) = (r, w') →
  w' = w ∧ r ≠ Err RecDiverge ∧ ∀ size repairs, r = Ok (size, repairs) →
    size = SEGMENT_HEADER_SIZE + blen (encode_records rs) ∧
    (repairs = [] ∨ (is_last = true ∧ repairs = [Truncate path size])).
Proof.
  intros Hsr Hl Hb Hm Hdur Hr. pose proof (sr_outcome _ _ _ _ Hsr Hm) as Hsc.
  pose proof (sr_bytes _ _ _ _ Hsr) as Hby. pose proof (sr_body _ _ _ _ Hsr) as [tl Hbody].
  pose proof (scan_go_sound _ _ _ _ _ _ _ Hsc ltac:(lia)) as (_ & _ & Hle & Hst). rewrite Nat.add_0_l in *.
  pose proof (scan_step_done_inv _ _ _ _ _ Hle Hst) as Hinv.
  assert (blen (body sc c) = sc_body_len sc) as Hbl.
  { rewrite body_whole by done. unfold blen, SEGMENT_HEADER_SIZE in *. rewrite length_drop. lia. }
  destruct (b_outcome res) as [|at_|at_ reason]; [| |by injection Hr as <- <-].
  - destruct is_last; simpl in Hr.
    + destruct (Z.ltb_spec (b_valid_body_bytes res) (sc_body_len sc)); injection Hr as <- <-;
        (split; [done|]; split; [done|]); intros size repairs [= <- <-]; (split; [unfold blen in *; lia|]); [by right|by left].
    + injection Hr as <- <-. split; [done|]. split; [done|]. intros size repairs [= <- <-]. split; [|by left].
      destruct Hinv as [_ Hbd]. simpl in Hbd. rewrite (Hdur eq_refl), <- Hbl in Hbd.
      unfold blen in *. lia.
  - destruct is_last; injection Hr as <- <-; (split; [done|]; split; [done|]); [|done].
    intros size repairs [= <- <-]. destruct Hinv as [-> _]. unfold blen. split; [done|]. by right.
Qed.

Lemma scan_body_ok env is_last index file c header st w r w' :
  at_file file (journal_segment index) c w → SEGMENT_HEADER_SIZE ≤ blen c →
  SegmentHeader_decode (take 48 c) = Ok header →
  scan_body (HT := HT) env is_last index (journal_segment index) file (blen c) (take 48 c) header st w = (r, w') →
  keeps (λ _, True) w w' ∧ r ≠ Err RecDiverge ∧
  ∀ st', r = Ok st' → ∃ s rs, s_index s = index ∧ extended env is_last c s rs st st'.
Proof.
  intros Hw Hl Hh Hr. pose proof (header_decode_u64 _ _ Hh) as Hu. destruct Hw as (Hi & Hw).
  pose proof (keeps_refl (λ _, True) w Hi) as Hrefl. pose proof (conj Hi Hw : at_file _ _ _ _) as Hat.
  unfold scan_body in Hr.
  destruct (bytes_eqb _ _) eqn:Huuid; cbn [negb] in Hr; [|by injection Hr as <- <-]. apply bytes_eqb_eq in Huuid.
  destruct (Z.eqb_spec (segment_index header) index) as [Hidx|]; cbn [negb] in Hr; [|by injection Hr as <- <-].
  destruct (_ && _) eqn:Hbridge in Hr; [by injection Hr as <- <-|]. cbv zeta in Hr.
  set (sc := mkSegmentScanner _ _ _ _ _ _ _ _) in Hr.
  assert (sc_first_sequence sc ≤ U64_MAX) as Hf by (unfold u64_ok, U64_MAX in *; simpl; lia).
  apply m_bind_inv in Hr as [([res replay] & w1 & Hsc & Hr)|(e & Hsc & ->)];
    destruct (pure_scan_ok replay_push sc (journal_segment index) c _ _ _ _ Hat
      ltac:(simpl; lia) ltac:(simpl; lia) Hf Hsc) as (Hk & Hdv & Hres & _).
  2: { split; [done|]. split; [congruence|done]. }
  destruct (Hres _ _ eq_refl) as (rs & Hsr & ->). clear Hres.
  apply m_bind_inv in Hr as [([size repairs] & w2 & Ho & Hr)|(e & Ho & ->)].
  2: { assert (w' = w1 ∧ e ≠ RecDiverge) as [-> He].
       { unfold m_ret, m_err in Ho.
         destruct (b_outcome res); [destruct (_ && _) in Ho|destruct (negb is_last) in Ho|]; by simplify_eq. }
       split; [done|]. split; [congruence|done]. }
  apply m_bind_inv in Hr as [(after & w3 & Ha & Hr)|(e & Ha & ->)]; unfold m_lift, checked_add in Ha.
  2: { assert (w' = w2 ∧ e = RecCorrupt ∧ w2 = w1) as (-> & -> & ->).
       { destruct (_ <=? _) in Ha; [done|]. injection Ha as <- <-. split; [done|]. split; [done|].
         unfold m_ret, m_err in Ho.
         destruct (b_outcome res); [destruct (_ && _) in Ho|destruct (negb is_last) in Ho|]; by simplify_eq. }
       split; [done|]. split; [done|done]. }
  destruct (Z.leb_spec (base_sequence header + b_record_count res) U64_MAX) as [Hm|]; [|done].
  injection Ha as <- <-. rewrite (sr_count _ _ _ _ Hsr) in Hm, Hr.
  destruct (outcome_size sc c rs res is_last (journal_segment index) _ _ _ Hsr Hl eq_refl Hm
    ltac:(by intros ->) Ho) as (-> & _ & Hsz). destruct (Hsz _ _ eq_refl) as [-> Hrep].
  destruct (follows_previous _ _ _) eqn:Hfo; cbn [negb] in Hr; injection Hr as <- <-; (split; [done|]);
    (split; [done|]); [|done]. intros st' [= <-].
  assert (continues env (l_prev_last_seq st) (base_sequence header)) as Hcont.
  { unfold continues. destruct (l_prev_last_seq st) as [prev|].
    - apply orb_true_iff in Hfo as [?%Z.eqb_eq|[?%Z.leb_le ?%Z.leb_le]%andb_true_iff]; [by left|by right].
    - simpl in Hbridge. by apply Z.ltb_ge in Hbridge. }
  exists (mkSegmentInfo index (base_sequence header) (blen rs) (SEGMENT_HEADER_SIZE + blen (encode_records rs))), rs.
  split; [done|]. pose proof (sr_outcome _ _ _ _ Hsr Hm) as Hso. rewrite body_whole in Hso by done.
  split; simpl; [|done| |done|done|done| |done].
  - split; simpl; [done| | |by apply framed_consecutive; [apply Hsr|]|done|done|apply Hsr|done|done|apply Hw].
    + rewrite Hh, <- Huuid, <- Hidx. by destruct header.
    + by eexists _, _.
  - destruct Hrep as [->|[-> ->]]; [left; by rewrite app_nil_r|by right].
  - unfold prefix_of_segment. simpl. by rewrite (sr_fingerprint _ _ _ _ Hsr).
Qed.
Lemma extended_mark env is_last c s rs m st st' :
  extended env is_last c s rs (set_final_mark m st) st' → extended env is_last c s rs st st'.
Proof. by intros []. Qed.

(** Opening a journal segment that exists. *)
Lemma open_segment_file i w :
  inv w → spec (λ _, True) w (rec_io (b_open (journal_segment i) false))
    (λ file w', handle w' file (journal_segment i) ∧ is_Some (vis w (journal_segment i))).
Proof.
  intros Hi. apply spec_map_err; [done|]. intros r w' Hr.
  destruct (law_open w _ false r w' Hi (segment_valid i) Hr) as (Hk & Hok & _ & _ & Hno).
  split; [eapply keeps_weaken; [|exact Hk]; intros q _; by right; right|]. intros file ->. destruct (Hok file eq_refl) as (Hh & _).
  split; [done|]. destruct (vis w (journal_segment i)) as [c|] eqn:Hv; [by eexists|].
  by destruct (Hno eq_refl eq_refl).
Qed.

Lemma len_of file p c w :
  inv w → handle w file p → vis w p = Some c → spec (λ _, True) w (rec_io (f_len file)) (λ n _, n = blen c).
Proof.
  intros Hi Hh Hv. apply spec_map_err; [done|]. intros r w' Hr.
  destruct (law_len _ _ _ _ _ _ Hi Hh Hv Hr) as (Hk & Hlen & _). split; [done|]. intros a ->. by apply Hlen.
Qed.

(** What one round does with the file of segment [index]. *)
Definition file_step (env : ScanEnv) (is_last : bool) (index : Z) (c : bytes) (st st' : LoopState) : Prop :=
  (∃ s rs, s_index s = index ∧ extended env is_last c s rs st st') ∨ discarded env is_last index c st st'.

Lemma scan_content_ok env is_last index file c st w :
  at_file file (journal_segment index) c w → SEGMENT_HEADER_SIZE ≤ blen c →
  spec (λ _, True) w
    (let* header_bytes := rec_io (f_read_at file 0 SEGMENT_HEADER_SIZE) in
     match SegmentHeader_decode header_bytes with
     | Ok header =>
         scan_body (HT := HT) env is_last index (journal_segment index) file (blen c) header_bytes header
           (if is_last then set_final_mark (mark_here env index) st else st)
     | Err _ =>
         if is_last && is_none (marked_durable env index) then
           let* zero := rec_io (range_is_zero file 0 (blen c)) in
           if zero then m_ret (add_repair (Discard (journal_segment index))
                          (if is_last then set_final_mark (mark_here env index) st else st))
           else m_err RecCorrupt
         else m_err RecCorrupt
     end)
    (λ st' _, file_step env is_last index c st st').
Proof.
  intros Hat Hge. pose proof (reads_at file (journal_segment index) c 0 SEGMENT_HEADER_SIZE
    ltac:(lia) ltac:(done) ltac:(lia)) as Hrd.
  unfold range_of in Hrd. rewrite drop_0 in Hrd. change (Z.to_nat SEGMENT_HEADER_SIZE) with 48%nat in Hrd.
  eapply spec_bind; [by eapply spec_reads|]. intros hb w1 Hk1 ->.
  pose proof (at_file_keeps _ _ _ _ _ _ Hk1 I Hat) as Hat1. pose proof (keeps_inv _ _ _ Hk1) as Hi1.
  destruct (SegmentHeader_decode (take 48 c)) as [header|e] eqn:Hh.
  - eapply (spec_weaken (λ _, True)); [done| |intros r w' Hr; by eapply scan_body_ok].
    intros st' w' _ (s & rs & Hs & Hex). left. exists s, rs. split; [done|].
    destruct is_last; [by eapply extended_mark|done].
  - destruct is_last; [|by apply spec_err]. cbn [andb]. destruct (is_none _); [|by apply spec_err].
    eapply spec_bind.
    { eapply spec_reads; [exact Hat1|done|]. apply range_is_zero_reads; unfold SEGMENT_HEADER_SIZE in *; lia. }
    intros zero w2 Hk2 _. pose proof (keeps_inv _ _ _ Hk2). destruct zero; [|by apply spec_err].
    apply spec_ret; [done|]. right. split; [done|]. split; [right; by rewrite Hh|done].
Qed.

Lemma scan_file_ok env is_last index name st w :
  inv w → (JOURNAL_DIR ++ "/" ++ name)%string = journal_segment index → v_max_file_size env ≤ U64_MAX →
  spec (λ _, True) w (scan_file (HT := HT) env is_last index name st)
    (λ st' _, ∃ c, vis w (journal_segment index) = Some c ∧ file_step env is_last index c st st').
Proof.
  intros Hi Hpath Hmax. unfold scan_file. rewrite Hpath. cbv zeta.
  eapply spec_bind; [by apply open_segment_file|]. intros file w1 Hk1 (Hh1 & c & Hv).
  pose proof (keeps_inv _ _ _ Hk1) as Hi1. pose proof (keeps_vis _ _ _ (journal_segment index) Hk1 I) as Hv1.
  rewrite Hv in Hv1. eapply spec_bind; [by eapply len_of|]. intros len w2 Hk2 ->.
  pose proof (keeps_inv _ _ _ Hk2) as Hi2.
  destruct (Z.ltb_spec (v_max_file_size env) (blen c)) as [|Hsz]; [by apply spec_err|].
  destruct (match marked_durable env index with Some durable => _ | None => _ end); [by apply spec_err|].
  destruct (Z.ltb_spec (blen c) SEGMENT_HEADER_SIZE) as [Hshort|Hge].
  { destruct is_last; [|by apply spec_err]. cbn [andb]. destruct (is_none _); [|by apply spec_err].
    apply spec_ret; [done|]. exists c. split; [done|]. right. split; [done|]. split; [by left|done]. }
  eapply (spec_weaken (λ _, True)); [done| |apply (scan_content_ok env is_last index file c st w2)].
  - intros st' w' _ Hst. by exists c.
  - split; [done|]. split; [by eapply keeps_handle|]. split; [by rewrite (keeps_vis _ _ _ _ Hk2 I)|lia].
  - done.
Qed.
End Files.

(** ** The chain of segments *)

Lemma uncovered_drop ck base rs :
  consecutive base rs → uncovered ck rs = drop (Z.to_nat (ck + 1 - base)) rs.
Proof.
  revert base. induction rs as [|r rs IH]; intros base; [by rewrite drop_nil|].
  intros (Hs & _ & _ & Hc). unfold uncovered. simpl. fold (uncovered ck rs). rewrite (IH _ Hc), Hs.
  destruct (Z.ltb_spec ck base) as [Hlt|Hge].
  - replace (Z.to_nat (ck + 1 - base)) with O by lia. by replace (Z.to_nat (ck + 1 - (base + 1))) with O by lia.
  - replace (Z.to_nat (ck + 1 - base)) with (S (Z.to_nat (ck + 1 - (base + 1)))) by lia. done.
Qed.

Lemma consecutive_drop base rs k :
  consecutive base rs → (k ≤ length rs)%nat → consecutive (base + Z.of_nat k) (drop k rs).
Proof.
  intros Hc Hk. rewrite <- (take_drop k rs) in Hc. apply consecutive_app in Hc as [_ Hc].
  unfold blen in Hc. by rewrite length_take, Nat.min_l in Hc.
Qed.

(** A segment that continues the chain extends the log above the checkpoint. *)
Lemma chain_extends env prev recs base rs :
  let ck := v_checkpoint_sequence env in
  0 ≤ ck → v_after_checkpoint env = ck + 1 → consecutive (ck + 1) recs →
  match prev with
  | None => recs = []
  | Some prev => 0 ≤ prev < U64_MAX ∧ Z.max ck prev = ck + blen recs
  end →
  continues env prev base → 0 ≤ base → consecutive base rs →
  consecutive (ck + 1) (recs ++ uncovered ck rs) ∧
  Z.max ck (last_of base rs) = ck + blen (recs ++ uncovered ck rs).
Proof.
  intros ck Hck Haf Hrec Hprev Hcont Hb Hc. rewrite consecutive_app, (uncovered_drop ck base rs Hc), blen_app.
  unfold last_of, saturating_sub. pose proof (blen_nonneg rs) as Hnn.
  assert (blen (drop (Z.to_nat (ck + 1 - base)) rs) = Z.max 0 (blen rs - Z.max 0 (ck + 1 - base))) as Hl.
  { unfold blen in *. rewrite length_drop. lia. }
  assert ((recs = [] ∧ base ≤ ck + 1) ∨ base = ck + 1 + blen recs) as [[-> Hle]|Heq].
  { fold ck in Hcont. destruct prev as [prev|]; [|left; split; [done|]; simpl in Hcont; lia]. destruct Hprev as [Hp Hm]. simpl in Hcont.
    rewrite add64_small, Haf in Hcont by (unfold U64_MAX in *; lia). pose proof (blen_nonneg recs).
    destruct (Z.le_gt_cases prev ck) as [Hle|Hgt]; [left|right; fold ck in Hcont; lia].
    split; [|fold ck in Hcont; lia]. destruct recs; [done|]. unfold blen in Hm. simpl in Hm. lia. }
  - unfold blen at 1 3. cbn [length Z.of_nat]. split; [|lia]. split; [done|]. rewrite Z.add_0_r.
    destruct (Z.le_gt_cases (ck + 1 - base) (blen rs)) as [Hk|Hk].
    + pose proof (consecutive_drop base rs (Z.to_nat (ck + 1 - base)) Hc ltac:(unfold blen in Hk; lia)) as Hd.
      rewrite Z2Nat.id in Hd by lia. by replace (base + (ck + 1 - base)) with (ck + 1) in Hd by lia.
    + rewrite drop_ge; [done|]. unfold blen in Hk. lia.
  - pose proof (blen_nonneg recs). replace (Z.to_nat (ck + 1 - base)) with O by lia.
    rewrite drop_0, <- Heq. split; [done|]. lia.
Qed.

(** ** The segments as the writer's chain *)

Lemma chained_refin holes fin fin' l :
  (∀ e, linked holes e fin → linked holes e fin') → chained holes fin l → chained holes fin' l.
Proof.
  intros Hf. induction l as [|s l IH]; [done|]. intros [Hh Hc]. split; [|by apply IH]. destruct l; [by apply Hf|done].
Qed.

Lemma segment_extends ck prev l s rs fin :
  0 ≤ ck →
  (∀ fin, match prev with None => True | Some p => fin = p + 1 ∨ (p ≤ ck ∧ fin ≤ ck + 1) end → chained ck fin l) →
  match prev with
  | None => Journal.s_base_sequence s ≤ ck + 1
  | Some p => Journal.s_base_sequence s = add64 p 1 ∨ (p ≤ ck ∧ Journal.s_base_sequence s ≤ ck + 1)
  end → (∀ p, prev = Some p → 0 ≤ p < U64_MAX) →
  (∀ t, t ∈ l → Journal.s_index t < Journal.s_index s) → 0 ≤ Journal.s_base_sequence s →
  Journal.s_record_count s = blen rs →
  fin = last_of (Journal.s_base_sequence s) rs + 1 ∨ (last_of (Journal.s_base_sequence s) rs ≤ ck ∧ fin ≤ ck + 1) →
  chained ck fin (l ++ [s]).
Proof.
  intros Hck Hl Hb Hp Hi H0b Hc Hfin. apply (chained_refin _ (s_end s)).
  - intros e. unfold linked, last_of, saturating_sub, s_end in *. rewrite Hc. pose proof (blen_nonneg rs). lia.
  - eapply chained_snoc; [|done|done|done]. apply Hl. destruct prev as [p|]; [|done].
    specialize (Hp p eq_refl). rewrite add64_small in Hb by (unfold U64_MAX in *; lia). done.
Qed.

(** ** All files *)
Section Loop.
Context `{Crc32} `{BackingLaws W F} `{HasherLaws HT}.
Import Journal.

(** The log above the checkpoint the accepted segments make up. *)
Definition log_above (ck : Z) (G : list (SegmentInfo * list JournalRecord)) : list JournalRecord :=
  G ≫= λ g, uncovered ck g.2.

Lemma log_above_snoc ck G s rs : log_above ck (G ++ [(s, rs)]) = log_above ck G ++ uncovered ck rs.
Proof. unfold log_above. rewrite bind_app, bind_cons. simpl. by rewrite app_nil_r. Qed.

(** What the loop has established after the files [names], in a world that
    shows the same files as [w]: the accepted segments with their records
    are [G]. *)
Record loop_inv (env : ScanEnv) (w : W) (replay : ReplayRecords) (names : list (Z * string))
    (G : list (SegmentInfo * list JournalRecord)) (st : LoopState) : Prop := {
  li_segments : l_segments st = G.*1;
  li_accepted s rs : (s, rs) ∈ G → ∃ c, vis w (journal_segment (s_index s)) = Some c ∧
    accepted (v_superblock env) c s rs ∧ prefix_of_segment (HT := HT) c s rs ∈ l_verified_prefixes st;
  li_prefixes p : p ∈ l_verified_prefixes st → ∃ s rs c, (s, rs) ∈ G ∧
    vis w (journal_segment (s_index s)) = Some c ∧ p = prefix_of_segment (HT := HT) c s rs;
  li_indices s rs : (s, rs) ∈ G → ∃ n, (s_index s, n) ∈ names;
  li_chained fin : match l_prev_last_seq st with
                   | None => True
                   | Some prev => fin = prev + 1 ∨ (prev ≤ v_checkpoint_sequence env ∧ fin ≤ v_checkpoint_sequence env + 1)
                   end → chained (v_checkpoint_sequence env) fin G.*1;
  li_ends s rs : (s, rs) ∈ G → s_end s ≤ l_max_seq st + 1;
  li_names i n : (i, n) ∈ names → (∃ s rs, (s, rs) ∈ G ∧ s_index s = i) ∨
    (∃ c, vis w (journal_segment i) = Some c ∧ never_created c);
  li_discards path : Discard path ∈ l_repairs st → ∃ i c, path = journal_segment i ∧
    vis w (journal_segment i) = Some c ∧ never_created c;
  li_truncates path len : Truncate path len ∈ l_repairs st → ∃ s rs, (s, rs) ∈ G ∧
    path = journal_segment (s_index s) ∧ len = s_size s;
  li_replay : l_replay st = pushes replay_push replay (log_above (v_checkpoint_sequence env) G);
  li_chain : consecutive (v_checkpoint_sequence env + 1) (log_above (v_checkpoint_sequence env) G);
  li_prev : match l_prev_last_seq st with
            | None => G = []
            | Some prev => 0 ≤ prev < U64_MAX ∧ Z.max (v_checkpoint_sequence env) prev =
                v_checkpoint_sequence env + blen (log_above (v_checkpoint_sequence env) G)
            end;
  li_max : Z.max (v_checkpoint_sequence env) (l_max_seq st) =
    v_checkpoint_sequence env + blen (log_above (v_checkpoint_sequence env) G)
}.

Context (env : ScanEnv) (Hck : 0 ≤ v_checkpoint_sequence env)
  (Haf : v_after_checkpoint env = v_checkpoint_sequence env + 1) (Hmax : v_max_file_size env ≤ U64_MAX).

Lemma loop_discard w replay names G st is_last i n c st' :
  loop_inv env w replay names G st → vis w (journal_segment i) = Some c →
  discarded env is_last i c st st' → loop_inv env w replay (names ++ [(i, n)]) G st'.
Proof.
  intros [? Hac ? Hix ? ? Hna Hdi Htr ? ? ? ?] Hv (_ & Hnc & ->). split; try done.
  - intros s rs Hs. destruct (Hix s rs Hs) as [n' ?]. exists n'. apply elem_of_app. by left.
  - intros i' n' [Hin|[= -> ->]%list_elem_of_singleton]%elem_of_app; [by eapply Hna|]. right. by exists c.
  - simpl. intros path [Hin|[= ->]%list_elem_of_singleton]%elem_of_app; [by apply Hdi|]. by exists i, c.
  - simpl. intros path len [Hin|[=]%list_elem_of_singleton]%elem_of_app. by apply Htr.
Qed.

Lemma loop_extend w replay names G st is_last i n c s rs st' :
  loop_inv env w replay names G st → vis w (journal_segment i) = Some c →
  (∀ i' n', (i', n') ∈ names → i' < i) → s_index s = i → extended (HT := HT) env is_last c s rs st st' →
  loop_inv env w replay (names ++ [(i, n)]) (G ++ [(s, rs)]) st'.
Proof.
  intros [Hse Hac Hpx Hix Hcd Hen Hna Hdi Htr Hre Hch Hpr Hma] Hv Hlt Hi [Hacc Hse' Hrp Hpr' Hma' Hre' Hvp Hcont].
  pose proof (ac_base _ _ _ _ Hacc) as Hbase. pose proof (ac_end _ _ _ _ Hacc) as Hend.
  destruct (chain_extends env (l_prev_last_seq st) (log_above (v_checkpoint_sequence env) G) (s_base_sequence s) rs)
    as [Hch' Hlast]; [done|done|done| |done|unfold u64_ok in Hbase; lia|apply Hacc|].
  { destruct (l_prev_last_seq st); [done|]. by rewrite Hpr. }
  split.
  - by rewrite Hse', Hse, fmap_app.
  - intros s' rs' [Hin|[= -> ->]%list_elem_of_singleton]%elem_of_app.
    + destruct (Hac _ _ Hin) as (c' & ? & ? & Hp). exists c'. split; [done|]. split; [done|].
      rewrite Hvp. apply elem_of_app. by left.
    + exists c. rewrite Hi. split; [done|]. split; [done|]. rewrite Hvp. apply elem_of_app. right.
      by apply list_elem_of_singleton.
  - intros p. rewrite Hvp. intros [Hin|Hin%list_elem_of_singleton]%elem_of_app.
    + destruct (Hpx p Hin) as (s' & rs' & c' & ? & ? & ?). exists s', rs', c'. rewrite elem_of_app. auto.
    + exists s, rs, c. rewrite Hi. split; [apply elem_of_app; right; by apply list_elem_of_singleton|done].
  - intros s' rs' [Hin|[= -> ->]%list_elem_of_singleton]%elem_of_app.
    + destruct (Hix s' rs' Hin) as [n' ?]. exists n'. apply elem_of_app. by left.
    + exists n. rewrite Hi. apply elem_of_app. right. by apply list_elem_of_singleton.
  - intros fin. rewrite Hpr', fmap_app. apply (segment_extends _ (l_prev_last_seq st) _ s rs); try done.
    + unfold continues in Hcont. by rewrite Haf in Hcont.
    + intros p Hp. by rewrite Hp in Hpr; destruct Hpr.
    + intros t (g & -> & Hg)%list_elem_of_fmap. destruct g as [t rt]. destruct (Hix t rt Hg) as [n' ?]. rewrite Hi. by eapply Hlt.
    + unfold u64_ok in Hbase. lia.
    + apply Hacc.
  - intros s' rs' [Hin|[= -> ->]%list_elem_of_singleton]%elem_of_app; rewrite Hma'.
    + specialize (Hen _ _ Hin). lia.
    + unfold s_end. rewrite (ac_count _ _ _ _ Hacc). unfold last_of, saturating_sub. lia.
  - intros i' n' [Hin|[= -> ->]%list_elem_of_singleton]%elem_of_app.
    + destruct (Hna _ _ Hin) as [(s' & rs' & Hin' & ?)|?]; [left|by right]. exists s', rs'. split; [|done].
      apply elem_of_app. by left.
    + left. exists s, rs. split; [|done]. apply elem_of_app. right. by apply list_elem_of_singleton.
  - intros path Hin. apply Hdi. destruct Hrp as [<-|[_ Hrp]]; [done|]. rewrite Hrp in Hin.
    by apply elem_of_app in Hin as [?|[=]%list_elem_of_singleton].
  - intros path len Hin. destruct (decide (Truncate path len ∈ l_repairs st)) as [Hold|Hnew].
    + destruct (Htr _ _ Hold) as (s' & rs' & ? & ?). exists s', rs'. split; [|done]. apply elem_of_app. by left.
    + destruct Hrp as [Hrp|[_ Hrp]]; rewrite Hrp in Hin; [done|].
      apply elem_of_app in Hin as [?|[= -> ->]%list_elem_of_singleton]; [done|].
      exists s, rs. split; [|done]. apply elem_of_app. right. by apply list_elem_of_singleton.
  - rewrite Hre', Hre, log_above_snoc. unfold pushes. by rewrite foldl_app.
  - by rewrite log_above_snoc.
  - rewrite Hpr', log_above_snoc. split; [|done]. unfold last_of, saturating_sub. unfold U64_MAX in *.
    pose proof (blen_nonneg rs). unfold u64_ok in Hbase. lia.
  - rewrite Hma', log_above_snoc. rewrite <- Hlast, blen_app in *. pose proof (blen_nonneg (uncovered (v_checkpoint_sequence env) rs)). lia.
Qed.

Lemma scan_files_ok : ∀ names done w0 w replay G st,
  keeps (λ _, True) w0 w → StronglySorted (λ a b, a.1 < b.1) (done ++ names) → (∀ i n, (i, n) ∈ names → (JOURNAL_DIR ++ "/" ++ n)%string = journal_segment i) →
  loop_inv env w0 replay done G st →
  spec (λ _, True) w (scan_files (HT := HT) env names st)
    (λ st' _, ∃ G', loop_inv env w0 replay (done ++ names) G' st').
Proof.
  induction names as [|[i n] names IH]; intros dn w0 w replay G st Hk Hsort Hnames Hinv; cbn [scan_files].
  { apply spec_ret; [by eapply keeps_inv|]. exists G. by rewrite app_nil_r. }
  eapply spec_bind.
  { apply scan_file_ok; [by eapply keeps_inv|apply Hnames; by left|done]. }
  intros st1 w1 Hk1 (c & Hv & Hstep). rewrite (keeps_vis _ _ _ _ Hk I) in Hv.
  assert (∃ G1, loop_inv env w0 replay (dn ++ [(i, n)]) G1 st1) as [G1 Hinv1].
  { destruct Hstep as [(s & rs & Hi & Hex)|Hdis]; eexists; [|by eapply loop_discard].
    eapply loop_extend; [exact Hinv|exact Hv| |exact Hi|exact Hex]. intros i' n' Hin.
    by apply (StronglySorted_app_1_elem_of _ _ _ (i', n') (i, n) Hsort Hin), list_elem_of_here. }
  replace (dn ++ (i, n) :: names) with ((dn ++ [(i, n)]) ++ names) by (by rewrite <- (assoc_L (++))).
  eapply IH; [by eapply keeps_trans|by rewrite <- (assoc_L (++))| |exact Hinv1]. intros i' n' Hin. apply Hnames. by right.
Qed.
End Loop.

(** ** The whole scan *)

Lemma elem_of_sort_names x l : x ∈ sort_names l ↔ x ∈ l.
Proof.
  assert (∀ y k, x ∈ insert_name y k ↔ x = y ∨ x ∈ k) as Hins.
  { intros y k. induction k as [|z k IH]; simpl; [by rewrite list_elem_of_singleton, elem_of_nil; naive_solver|].
    destruct (name_le y z); rewrite !elem_of_cons; [done|]. rewrite IH. naive_solver. }
  induction l as [|y l IH]; simpl; [done|]. by rewrite Hins, IH, elem_of_cons.
Qed.

Lemma sort_names_perm l : sort_names l ≡ₚ l.
Proof.
  assert (∀ x k, insert_name x k ≡ₚ x :: k) as Hins.
  { intros x k. induction k as [|y k IH]; [done|]. simpl. destruct (name_le x y); [done|]. rewrite IH. constructor. }
  induction l as [|x l IH]; [done|]. simpl. by rewrite Hins, IH.
Qed.

Lemma sort_names_sorted l : StronglySorted (λ a b, a.1 ≤ b.1) (sort_names l).
Proof.
  induction l as [|x l IH]; simpl; [constructor|]. revert IH. generalize (sort_names l). clear l.
  induction l as [|y l IHl]; intros Hs; simpl; [by repeat constructor|].
  apply StronglySorted_inv in Hs as [Hs Hy]. destruct (name_le x y) eqn:Hxy.
  - assert (x.1 ≤ y.1) by (unfold name_le in Hxy; lia). constructor; [by constructor|]. constructor; [done|].
    eapply list.Forall_impl; [exact Hy|]. simpl. lia.
  - constructor; [auto|]. assert (y.1 ≤ x.1) by (unfold name_le in Hxy; lia).
    clear -Hy H. induction l as [|z l IH]; simpl; [by constructor|]. apply list.Forall_cons in Hy as [Hz Hy].
    destruct (name_le x z); constructor; auto.
Qed.

Lemma segment_names_path names i n :
  (i, n) ∈ segment_names names → (JOURNAL_DIR ++ "/" ++ n)%string = journal_segment i.
Proof.
  unfold segment_names. rewrite elem_of_sort_names. intros (m & Hm & Hp)%list_elem_of_omap.
  apply fmap_Some in Hp as (k & Hk & [= -> ->]). unfold parse_journal_segment in Hk.
  destruct (strip_prefix "seg-" m) as [hex|]; [|done]. destruct (from_str_radix_16 hex) as [j|]; [|done].
  destruct (String.eqb_spec (journal_segment j) (JOURNAL_DIR ++ "/" ++ m)); congruence.
Qed.

(** Each file appears once, in the order of the indexes. *)
Lemma segment_names_sorted names :
  NoDup names → StronglySorted (λ a b, a.1 < b.1) (segment_names names).
Proof.
  intros Hnd. assert (NoDup (segment_names names).*1) as Hn1.
  { assert (∀ i n (ns : list string), (i, n) ∈ omap (λ n, (λ i, (i, n)) <$> parse_journal_segment n) ns → n ∈ ns ∧
      (JOURNAL_DIR ++ "/" ++ n)%string = journal_segment i) as Hpath.
    { intros i n ns Hin. split; [|apply (segment_names_path ns); by apply elem_of_sort_names].
      apply list_elem_of_omap in Hin as (m & Hm & (k & _ & [= -> ->])%fmap_Some). done. }
    unfold segment_names. rewrite sort_names_perm.
    induction Hnd as [|n names Hn Hnd IH]; [constructor|].
    pose proof (λ i, Hpath i n (n :: names)) as Hhd. simpl in *.
    destruct (parse_journal_segment n) as [i|]; simpl in *; [|exact IH].
    constructor; [|exact IH]. intros ([i' n'] & Hi & Hin)%list_elem_of_fmap. simpl in Hi. subst i'.
    destruct (Hhd i ltac:(by left)) as [_ H1]. destruct (Hpath i n' names Hin) as [Hn' H2].
    rewrite <- H2 in H1. by apply (inj (String.append JOURNAL_DIR)), (inj (String.append "/")) in H1 as ->. }
  unfold segment_names in *. set (l := omap _ names) in *. clearbody l.
  pose proof (sort_names_sorted l) as Hs. induction Hs as [|x k _ IH Hx]; [constructor|].
  rewrite fmap_cons in Hn1. apply list.NoDup_cons in Hn1 as [Hnx Hn1]. constructor; [auto|].
  rewrite list.Forall_forall in *. intros y Hy. specialize (Hx y Hy). assert (x.1 ≠ y.1); [|lia].
  intros He. apply Hnx. rewrite He. apply list_elem_of_fmap. by exists y.
Qed.

(** The listing of the journal directory shows every segment file. *)
Lemma segment_listed names i :
  u64_ok i → segment_name i ∈ names → (i, segment_name i) ∈ segment_names names.
Proof.
  intros Hi Hin. apply elem_of_sort_names, list_elem_of_omap. exists (segment_name i). split; [done|].
  by rewrite (proj2 (parse_journal_segment_spec (segment_name i) i Hi)).
Qed.

Lemma segment_entry i : entry_of JOURNAL_DIR (journal_segment i) = Some (segment_name i).
Proof.
  unfold entry_of. rewrite journal_segment_eq, <- append_slash. unfold dir_prefix.
  change (String.eqb JOURNAL_DIR "") with false. cbv iota. rewrite strip_prefix_app.
  by rewrite segment_name_no_slash.
Qed.

Lemma max_file_size_u64 segment_size :
  Z.max (max_segment_file_size segment_size) max_journal_segment_file_size ≤ U64_MAX.
Proof.
  apply Z.max_lub; [|by vm_compute]. unfold max_segment_file_size, saturating_add. lia.
Qed.

Section Whole.
Context `{Crc32} `{BackingLaws W F} `{HasherLaws HT}.
Import Journal.

Lemma mark_decode_index bs m : DurableMark_decode bs = Ok m → 0 ≤ dm_segment_index m.
Proof.
  unfold DurableMark_decode. destruct (_ <? _)%nat; [done|]. destruct (bytes_eqb _ _); [|done].
  intros Hr. inv_res. apply run_rd_ok in Hr as (r2 & Hr). unfold mark_body in Hr. inv_rd. subst m. simpl.
  unfold u64_ok in *. lia.
Qed.

(** The highest index among the segments, the mark and the proof. *)
Lemma foldl_opt_max (l : list SegmentInfo) m0 :
  (foldl (λ m s, opt_max m (Some (s_index s))) m0 l = None → m0 = None ∧ l = []) ∧
  (∀ i, foldl (λ m s, opt_max m (Some (s_index s))) m0 l = Some i →
    (∀ n, m0 = Some n → n ≤ i) ∧ (∀ s, s ∈ l → s_index s ≤ i) ∧ (m0 = Some i ∨ ∃ s, s ∈ l ∧ s_index s = i)).
Proof.
  revert m0. induction l as [|s l IH]; intros m0; simpl.
  { split; [done|]. intros i ->. split; [by intros n [= ->]|]. split; [intros s Hs; by apply not_elem_of_nil in Hs|]. by left. }
  destruct (IH (opt_max m0 (Some (s_index s)))) as [IH1 IH2]. split.
  { intros Hn. destruct (IH1 Hn) as [Ho _]. by destruct m0. }
  intros i Hi. destruct (IH2 i Hi) as (Ha & Hb & Hc). split; [|split].
  - intros n ->. specialize (Ha _ eq_refl). lia.
  - intros t [->|Ht]%elem_of_cons; [|auto]. destruct m0; specialize (Ha _ eq_refl); lia.
  - destruct Hc as [Hc|(t & Ht & <-)]; [|right; exists t; split; [by right|done]].
    destruct m0 as [n|]; simpl in Hc; injection Hc as <-; [|right; exists s; split; [by left|done]].
    destruct (Z.max_spec n (s_index s)) as [[_ ->]|[_ ->]]; [right; exists s; split; [by left|done]|by left].
Qed.

Lemma highest_none env segs s : highest_segment_index env segs = None → s ∈ segs → False.
Proof.
  unfold highest_segment_index. intros Hn Hs. destruct (foldl_opt_max segs None) as [Hf _].
  destruct (foldl _ None segs) eqn:He; [by destruct (opt_max (dm_segment_index <$> v_mark env) _)|].
  destruct (Hf eq_refl) as [_ ->]. by apply not_elem_of_nil in Hs.
Qed.

Lemma highest_above env segs i s : highest_segment_index env segs = Some i → s ∈ segs → s_index s ≤ i.
Proof.
  unfold highest_segment_index. intros Hn Hs. destruct (foldl_opt_max segs None) as [Hf Hf2].
  destruct (foldl _ None segs) as [k|] eqn:He.
  - destruct (Hf2 k eq_refl) as (_ & Hle & _). specialize (Hle s Hs).
    destruct (opt_max (dm_segment_index <$> v_mark env) _) as [k'|]; simpl in Hn; injection Hn as <-; lia.
  - destruct (Hf eq_refl) as [_ ->]. by apply not_elem_of_nil in Hs.
Qed.

Lemma highest_nonneg env segs i :
  highest_segment_index env segs = Some i → (∀ s, s ∈ segs → 0 ≤ s_index s) →
  (∀ m, v_mark env = Some m → 0 ≤ dm_segment_index m) → (∀ p, v_proof env = Some p → 0 ≤ dp_segment_index p) → 0 ≤ i.
Proof.
  unfold highest_segment_index. intros Hn Hs Hm Hp. destruct (foldl_opt_max segs None) as [_ Hf2].
  assert (∀ k, foldl (λ m s, opt_max m (Some (s_index s))) None segs = Some k → 0 ≤ k) as Hk.
  { intros k Hk. destruct (Hf2 k Hk) as (_ & _ & [[=]|(s & Hin & <-)]). by apply Hs. }
  destruct (foldl _ None segs) as [k|]; [specialize (Hk k eq_refl)|clear Hk];
    destruct (v_mark env) as [m|]; try specialize (Hm m eq_refl); destruct (v_proof env) as [p|];
    try specialize (Hp p eq_refl); simpl in Hn; try destruct (0 <? durable_sequence p); simpl in Hn;
    simplify_eq; lia.
Qed.

Lemma accepted_index sb c s rs : accepted sb c s rs → 0 ≤ s_index s.
Proof.
  intros Ha. pose proof (ac_len _ _ _ _ Ha) as Hl.
  assert (length (take 48 c) = 48%nat) as H48 by (rewrite length_take; unfold blen, SEGMENT_HEADER_SIZE in *; lia).
  destruct (header_decode_canonical _ _ H48 (ac_header _ _ _ _ Ha)) as (_ & Hi & _). simpl in Hi. unfold u64_ok in Hi. lia.
Qed.

Lemma chain_bound ck rs : ck < U64_MAX → consecutive (ck + 1) rs → ck + blen rs < U64_MAX.
Proof.
  revert ck. induction rs as [|r rs IH]; intros ck Hck; [unfold blen; simpl; lia|].
  intros (_ & _ & Hlt & Hc). specialize (IH (ck + 1) ltac:(lia) Hc). unfold blen in *. simpl. lia.
Qed.

Lemma load_mark_ok w :
  inv w → spec (λ _, True) w load_durable_mark (λ o _, ∀ m, o = Some m → 0 ≤ dm_segment_index m).
Proof.
  intros Hi. unfold load_durable_mark. eapply spec_bind.
  { apply (spec_try _ _ _ (λ r w', ∀ file, r = Ok file → ∃ c, handle w' file JOURNAL_DURABLE_MARK ∧
      vis w' JOURNAL_DURABLE_MARK = Some c)). intros r w' Hr.
    destruct (law_open w JOURNAL_DURABLE_MARK false r w' Hi eq_refl Hr) as (Hk & Hok & _).
    split; [eapply keeps_weaken; [|exact Hk]; intros q _; by right; right|].
    intros file ->. destruct (Hok file eq_refl) as (Hh & Hv & _). by eexists. }
  intros r w1 Hk1 Hr. pose proof (keeps_inv _ _ _ Hk1) as Hi1.
  destruct r as [file|e]; [|by destruct e; (apply spec_ret || apply spec_err)].
  destruct (Hr file eq_refl) as (c & Hh & Hv). eapply spec_bind; [by eapply len_of|]. intros n w2 Hk2 ->.
  pose proof (keeps_inv _ _ _ Hk2) as Hi2. destruct (_ <? _); [by apply spec_ret|]. eapply spec_bind.
  { apply (spec_try _ _ _ (λ _ _, True)). intros r w' Hrd.
    destruct (law_read w2 file _ c 0 DURABLE_MARK_SIZE r w' Hi2 (keeps_handle _ _ _ _ _ Hk2 I Hh)
      ltac:(by rewrite (keeps_vis _ _ _ _ Hk2 I)) ltac:(done) ltac:(done) ltac:(done) Hrd) as (Hk & _). done. }
  intros r w3 Hk3 _. pose proof (keeps_inv _ _ _ Hk3).
  destruct r as [buf|e]; [|by destruct e; (apply spec_ret || apply spec_err)]. apply spec_ret; [done|].
  intros m Hm. destruct (DurableMark_decode buf) as [m'|] eqn:Hdec; [|done]. injection Hm as <-.
  by eapply mark_decode_index.
Qed.

(** What an accepted journal is: the segments [G] with their records, in a
    world that shows the same files as [w]. *)
Record scan_facts (w : W) (sb : Superblock) (ck : Z) (replay : ReplayRecords) (js : JournalScan)
    (G : list (SegmentInfo * list JournalRecord)) : Prop := {
  sf_segments : js_segments js = G.*1;
  sf_accepted s rs : (s, rs) ∈ G → ∃ c, vis w (journal_segment (s_index s)) = Some c ∧
    accepted sb c s rs ∧ prefix_of_segment (HT := HT) c s rs ∈ js_verified_prefixes js;
  sf_prefixes p : p ∈ js_verified_prefixes js → ∃ s rs c, (s, rs) ∈ G ∧
    vis w (journal_segment (s_index s)) = Some c ∧ p = prefix_of_segment (HT := HT) c s rs;
  sf_chained : chained ck (js_durable_sequence js + 1) (js_segments js);
  sf_ends s : s ∈ js_segments js → s_end s ≤ js_durable_sequence js + 1 ∧ s_index s < js_next_segment_index js;
  sf_next : js_next_segment_index js ≤ U64_MAX ∧ js_durable_sequence js < U64_MAX;
  sf_files i : u64_ok i → is_Some (vis w (journal_segment i)) → (∃ s rs, (s, rs) ∈ G ∧ s_index s = i) ∨
    (∃ c, vis w (journal_segment i) = Some c ∧ never_created c);
  sf_discards path : Discard path ∈ js_repairs js → ∃ i c, path = journal_segment i ∧
    vis w (journal_segment i) = Some c ∧ never_created c;
  sf_truncates path len : Truncate path len ∈ js_repairs js → ∃ s rs, (s, rs) ∈ G ∧
    path = journal_segment (s_index s) ∧ len = s_size s;
  sf_replay : (js_replay js, js_replay_units js) = into_parts (pushes replay_push replay (log_above ck G));
  sf_chain : consecutive (ck + 1) (log_above ck G);
  sf_durable : js_durable_sequence js = ck + blen (log_above ck G)
}.

Lemma scan_with_proof_ok sb ck segment_size proof replay w :
  inv w → u64_ok ck →
  spec (λ _, True) w (scan_journal_with_proof (HT := HT) sb ck segment_size proof replay)
    (λ js _, (∃ G, scan_facts w sb ck replay js G) ∧
       ((∀ p, proof = Some p → 0 ≤ dp_segment_index p) → 0 ≤ js_next_segment_index js)).
Proof.
  intros Hi Hck. unfold scan_journal_with_proof. eapply spec_bind.
  { apply (spec_lift _ _ _ (λ a _, a = ck + 1 ∧ ck < U64_MAX)); [done|by destruct (checked_add ck 1)|].
    intros a Ha. apply ok_or_ok, checked_add_some in Ha. lia. }
  intros after w1 Hk1 [-> Hckm]. pose proof (keeps_inv _ _ _ Hk1) as Hi1.
  eapply spec_bind; [by apply load_mark_ok|]. intros mark w2 Hk2 Hmark.
  pose proof (keeps_inv _ _ _ Hk2) as Hi2. eapply spec_bind.
  { apply (spec_map_err _ _ RecIo _ (λ names _, NoDup names ∧ ∀ p name, entry_of JOURNAL_DIR p = Some name →
      is_Some (vis w2 p) → name ∈ names)); [done|]. intros r w' Hr.
    destruct (law_list _ _ _ _ Hi2 Hr) as (Hk & Hl & _ & Hnd). split; [done|]. intros ns Hns. split; [by apply Hnd|by apply Hl]. }
  intros names w3 Hk3 [Hnd Hnames]. cbv zeta. set (env := mkScanEnv _ _ _ _ _ _).
  pose proof (keeps_trans _ _ _ _ Hk1 (keeps_trans _ _ _ _ Hk2 Hk3)) as Hk.
  eapply spec_bind.
  { apply (scan_files_ok env ltac:(unfold u64_ok in Hck; simpl; lia) eq_refl ltac:(simpl; apply max_file_size_u64)
      (segment_names names) [] w w3 replay [] (mkLoopState [] [] None 0 None [] false replay));
      [done|by apply segment_names_sorted|by intros; eapply segment_names_path|].
    split; simpl; try done; try (intros *; by intros ?%not_elem_of_nil).
    unfold u64_ok in Hck. rewrite Z.max_l by lia. unfold log_above, blen. simpl. lia. }
  intros st w4 Hk4 (G & Hinv). pose proof (keeps_inv _ _ _ Hk4) as Hi4.
  destruct (_ && _); [by apply spec_err|].
  eapply (spec_bind _ _ _ _ (λ next _, next ≤ U64_MAX ∧ (∀ s, s ∈ l_segments st → s_index s < next) ∧
    ((∀ p, proof = Some p → 0 ≤ dp_segment_index p) → 0 ≤ next))).
  { destruct (highest_segment_index _ _) as [i|] eqn:Hhi; cycle 1.
    - apply spec_ret; [done|]. split; [done|]. split; [|done]. intros s Hs. exfalso; by eapply highest_none.
    - apply spec_lift; [done|by destruct (checked_add i 1)|]. intros n Hn. apply ok_or_ok, checked_add_some in Hn.
      split; [lia|]. split; [intros s Hs; pose proof (highest_above env _ i s Hhi Hs); lia|]. intros Hpr.
      assert (0 ≤ i); [|lia]. eapply highest_nonneg; [exact Hhi| |exact Hmark|exact Hpr].
      intros s Hs. rewrite (li_segments _ _ _ _ _ _ Hinv) in Hs. apply list_elem_of_fmap in Hs as ([s' rs] & -> & Hin).
      destruct (li_accepted _ _ _ _ _ _ Hinv _ _ Hin) as (c & _ & Hacc & _). by eapply accepted_index. }
  intros next w5 Hk5 (Hnm & Hnext & Hnn). pose proof (keeps_inv _ _ _ Hk5) as Hi5.
  destruct (into_parts (l_replay st)) as [records units] eqn:Hip. apply spec_ret; [done|]. split; [|exact Hnn]. exists G.
  destruct Hinv as [Hse Hac Hpx Hix Hcd Hen Hna Hdi Htr Hre Hch Hpr Hma]. split; simpl; try done.
  - rewrite Hse. apply Hcd. simpl in *. destruct (l_prev_last_seq st) as [p|]; [|done].
    destruct Hpr as [Hp Hpr]. rewrite Hma, <- Hpr. lia.
  - intros s Hs. split; [|by apply Hnext]. rewrite Hse in Hs. apply list_elem_of_fmap in Hs as ([s' rs] & -> & Hin).
    specialize (Hen _ _ Hin). simpl in *. lia.
  - split; [done|]. simpl in *. rewrite Hma. by apply chain_bound.
  - intros i Hu Hv. apply (Hna i (segment_name i)). apply segment_listed; [done|].
    apply (Hnames (journal_segment i)); [apply segment_entry|].
    by rewrite (keeps_vis _ _ _ _ Hk2 I), (keeps_vis _ _ _ _ Hk1 I).
  - by rewrite <- Hip, Hre.
Qed.
End Whole.

(** ** What is kept of the records does not change the scan *)
Section Retention.
Context `{Crc32} `{Backing W F} `{Hasher HT} (R : ReplayRecords → ReplayRecords → Prop)
  (HR : ∀ r a b, R a b → R (replay_push r a) (replay_push r b)).

(** Loop states that differ only in what they kept. *)
Definition same_state (st st' : LoopState) : Prop :=
  st' = mkLoopState (l_segments st) (l_repairs st) (l_prev_last_seq st) (l_max_seq st) (l_final_mark st)
          (l_verified_prefixes st) (l_required_seen st) (l_replay st') ∧ R (l_replay st) (l_replay st').

Lemma same_state_inv st st' : same_state st st' → ∃ segments repairs prev max mark prefixes seen a b,
  st = mkLoopState segments repairs prev max mark prefixes seen a ∧
  st' = mkLoopState segments repairs prev max mark prefixes seen b ∧ R a b.
Proof. destruct st, st'. intros [[= -> -> -> -> -> -> ->] Hr]. by do 9 eexists. Qed.

Lemma scan_body_sim env is_last index path file len header_bytes header st st' :
  same_state st st' →
  sim same_state (scan_body (W := W) (F := F) (HT := HT) env is_last index path file len header_bytes header st)
    (scan_body env is_last index path file len header_bytes header st').
Proof.
  intros (segments & repairs & prev & max & mark & prefixes & seen & a & b & -> & -> & Hab)%same_state_inv.
  unfold scan_body. cbn [l_segments l_repairs l_prev_last_seq l_max_seq l_final_mark l_verified_prefixes
    l_required_seen l_replay]. do 3 (apply sim_if; [done|]). cbv zeta.
  eapply sim_bind; [by apply (scan_sim _ _ R HR)|]. intros [res ra] [res' rb] [He Hr]. simpl in He, Hr. subst res'.
  apply sim_step. intros [size reps]. apply sim_step. intros after. apply sim_if; [done|]. by apply sim_ret.
Qed.

Lemma scan_file_sim env is_last index name st st' :
  same_state st st' →
  sim same_state (scan_file (W := W) (F := F) (HT := HT) env is_last index name st)
    (scan_file env is_last index name st').
Proof.
  intros (segments & repairs & prev & max & mark & prefixes & seen & a & b & -> & -> & Hab)%same_state_inv.
  unfold scan_file. cbv zeta. apply sim_step. intros file. apply sim_step. intros len.
  apply sim_if; [done|]. apply sim_if; [done|].
  apply sim_if; [by apply sim_if; [apply sim_ret; destruct is_last|]|].
  apply sim_step. intros hb. destruct (SegmentHeader_decode hb) as [header|e].
  - apply scan_body_sim. by destruct is_last.
  - apply sim_if; [|done]. apply sim_step. intros zero. apply sim_if; [|done]. apply sim_ret. by destruct is_last.
Qed.

Lemma scan_files_sim env : ∀ names st st', same_state st st' →
  sim same_state (scan_files (W := W) (F := F) (HT := HT) env names st) (scan_files env names st').
Proof.
  induction names as [|[i n] names IH]; intros st st' Hs; cbn [scan_files]; [by apply sim_ret|].
  eapply sim_bind; [by apply scan_file_sim|done].
Qed.

(** The same scan but for the records. *)
Definition same_journal (js js' : JournalScan) : Prop :=
  ∃ a b, R a b ∧ (js_replay js, js_replay_units js) = into_parts a ∧
    js' = mkJournalScan (js_durable_sequence js) (js_next_segment_index js) (js_segments js) (into_parts b).1
            (into_parts b).2 (js_repairs js) (js_mark js) (js_verified_prefixes js).

Lemma scan_with_proof_sim sb ck segment_size proof a b :
  R a b →
  sim same_journal (scan_journal_with_proof (W := W) (F := F) (HT := HT) sb ck segment_size proof a)
    (scan_journal_with_proof sb ck segment_size proof b).
Proof.
  intros Hab. unfold scan_journal_with_proof. apply sim_step. intros after. apply sim_step. intros mark.
  apply sim_step. intros names. cbv zeta. eapply sim_bind; [by apply scan_files_sim|].
  intros st st' (segments & repairs & prev & max & fm & prefixes & seen & a' & b' & -> & -> & Hab')%same_state_inv.
  cbn [l_segments l_repairs l_max_seq l_final_mark l_verified_prefixes l_required_seen l_replay].
  apply sim_if; [done|]. apply sim_step. intros next.
  destruct (into_parts a') as [ra ua] eqn:Ha, (into_parts b') as [rb ub] eqn:Hb. apply sim_ret.
  exists a', b'. split; [done|]. by rewrite Ha, Hb.
Qed.

Lemma scan_with_replay_sim sb ck segment_size a b :
  R a b →
  sim same_journal (scan_journal_with_replay (W := W) (F := F) (HT := HT) sb ck segment_size a)
    (scan_journal_with_replay sb ck segment_size b).
Proof.
  intros Hab. unfold scan_journal_with_replay. apply sim_step. intros env. apply sim_if; [done|].
  apply sim_step. intros proof. by apply scan_with_proof_sim.
Qed.
End Retention.

(** ** What recovery can rely on *)

Lemma into_parts_all l rs : into_parts (pushes replay_push (All l) rs) = (l ++ rs, ∅).
Proof.
  unfold pushes. revert l. induction rs as [|r rs IH]; intros l; simpl; [by rewrite app_nil_r|].
  rewrite IH. by rewrite <- (assoc_L (++)).
Qed.

Section Claims.
Context `{Crc32} `{BackingLaws W F} `{HasherLaws HT}.
Import Journal.
Abbreviation JournalWriter := (JournalWriter (F := F) (HT := HT)).
Implicit Types (j : JournalWriter) (L : Z → list JournalRecord).

Lemma elem_of_uncovered ck r rs : r ∈ uncovered ck rs ↔ r ∈ rs ∧ ck < sequence r.
Proof.
  unfold uncovered. rewrite !list_elem_of_In, filter_In, Z.ltb_lt. done.
Qed.

Lemma elem_of_log_above ck r G : r ∈ log_above ck G ↔ ∃ s rs, (s, rs) ∈ G ∧ r ∈ rs ∧ ck < sequence r.
Proof.
  unfold log_above. rewrite list_elem_of_bind. split.
  - intros ([s rs] & Hr & Hin). apply elem_of_uncovered in Hr. by exists s, rs.
  - intros (s & rs & Hin & Hr). exists (s, rs). split; [by apply elem_of_uncovered|done].
Qed.

Lemma header_decode_take (bs tl : bytes) :
  length bs = 48%nat → SegmentHeader_decode (bs ++ tl) = SegmentHeader_decode (take 48 (bs ++ tl)).
Proof.
  intros Hl. unfold SegmentHeader_decode.
  assert (take 48 (take 48 (bs ++ tl)) = take 48 (bs ++ tl)) as -> by (by rewrite take_take).
  rewrite length_take, length_app, Hl. by rewrite Nat.min_l by lia.
Qed.

(** What a reader finds in a file, the scan does not lose. *)
Lemma accepted_contains w sb i base rs c s found :
  recovered w i (Superblock.volume_uuid sb) base rs → vis w (journal_segment i) = Some c →
  accepted sb c s found → s_index s = i ∧ rs `prefix_of` found.
Proof.
  intros (header & tl & Hv & Hl & Hd & Hsc) Hc [_ Hh (d & o & Hscan) _ _ _ _ _ _].
  unfold blen, SEGMENT_HEADER_SIZE in Hl. rewrite header_decode_take in Hd by lia.
  rewrite Hv in Hc. injection Hc as <-. rewrite Hd in Hh. injection Hh as Hi Hb. split; [done|].
  rewrite (drop_app_length' header) in Hscan by lia. destruct (Hsc d) as (f & o' & Hf & Hp).
  rewrite <- Hb, Hf in Hscan. by injection Hscan as -> _.
Qed.

Lemma recovered_created w i volume_uuid base rs c :
  recovered w i volume_uuid base rs → vis w (journal_segment i) = Some c → ¬ never_created c.
Proof.
  intros (header & tl & Hv & Hl & Hd & _) Hc. unfold blen, SEGMENT_HEADER_SIZE in Hl.
  rewrite header_decode_take in Hd by lia. rewrite Hv in Hc. injection Hc as <-.
  intros [Hs|Hno]; [|by rewrite Hd in Hno]. unfold blen, SEGMENT_HEADER_SIZE in Hs. rewrite length_app in Hs. lia.
Qed.

(** A segment a reader finds is replayed and no repair cuts into it. *)
Lemma recovered_replayed w sb ck replay js G i base rs :
  scan_facts (HT := HT) w sb ck replay js G → u64_ok i →
  recovered w i (Superblock.volume_uuid sb) base rs →
  (∀ r, r ∈ rs → ck < sequence r → r ∈ log_above ck G) ∧
  (Discard (journal_segment i) ∉ js_repairs js) ∧
  (∀ len, Truncate (journal_segment i) len ∈ js_repairs js →
    SEGMENT_HEADER_SIZE + blen (encode_records rs) ≤ len).
Proof.
  intros Hsf Hi Hrec. pose proof Hrec as (header & tl & Hv & _). split; [|split].
  - intros r Hr Hck. destruct (sf_files _ _ _ _ _ _ Hsf i Hi ltac:(by rewrite Hv)) as [(s & found & Hin & Hs)|(c & Hc & Hnc)];
      [|by destruct (recovered_created _ _ _ _ _ _ Hrec Hc)].
    destruct (sf_accepted _ _ _ _ _ _ Hsf _ _ Hin) as (c & Hc & Hacc & _). rewrite Hs in Hc.
    destruct (accepted_contains _ _ _ _ _ _ _ _ Hrec Hc Hacc) as [_ [k ->]].
    apply elem_of_log_above. exists s, (rs ++ k). split; [done|]. split; [|done]. apply elem_of_app. by left.
  - intros (i' & c & Hp & Hc & Hnc)%(sf_discards _ _ _ _ _ _ Hsf). rewrite <- Hp in Hc.
    by destruct (recovered_created _ _ _ _ _ _ Hrec Hc).
  - intros len (s & found & Hin & Hp & ->)%(sf_truncates _ _ _ _ _ _ Hsf).
    destruct (sf_accepted _ _ _ _ _ _ Hsf _ _ Hin) as (c & Hc & Hacc & _). rewrite <- Hp in Hc.
    destruct (accepted_contains _ _ _ _ _ _ _ _ Hrec Hc Hacc) as [_ [k ->]].
    rewrite (ac_size _ _ _ _ Hacc), encode_records_app, blen_app. pose proof (blen_nonneg (encode_records k)). lia.
Qed.

Lemma consecutive_bounds e rs r : consecutive e rs → r ∈ rs → e ≤ sequence r < e + blen rs.
Proof.
  revert e. induction rs as [|x rs IH]; intros e Hc Hin; [by apply not_elem_of_nil in Hin|].
  destruct Hc as (Hs & _ & _ & Hc). apply elem_of_cons in Hin as [->|Hin].
  - unfold blen. cbn [length]. lia.
  - specialize (IH _ Hc Hin). unfold blen in *. cbn [length]. lia.
Qed.

Lemma segment_last L j s r :
  shape L j → s ∈ segments j → r ∈ L (s_index s) → sequence r ≤ last_sequence s.
Proof.
  intros Hsh Hs Hr. pose proof (sh_infos _ _ Hsh) as Hinf. rewrite list.Forall_forall in Hinf.
  specialize (Hinf s Hs). rewrite (last_sequence_end L j s Hsh Hinf). unfold s_end.
  pose proof (consecutive_bounds _ _ _ (in_records _ _ _ Hinf) Hr). rewrite (in_count _ _ _ Hinf). lia.
Qed.

Lemma consecutive_lookup e rs r : consecutive e rs → r ∈ rs → rs !! Z.to_nat (sequence r - e) = Some r.
Proof.
  revert e. induction rs as [|x rs IH]; intros e Hc Hin; [by apply not_elem_of_nil in Hin|].
  destruct Hc as (Hs & _ & _ & Hc).
  apply elem_of_cons in Hin as [->|Hin]; [by rewrite Hs, Z.sub_diag|].
  pose proof (IH _ Hc Hin) as Hl. assert (e + 1 ≤ sequence r) as Hge by (by eapply consecutive_bounds).
  replace (Z.to_nat (sequence r - e)) with (S (Z.to_nat (sequence r - (e + 1)))) by lia. done.
Qed.

(** C8. Recovery replays what was acknowledged.  After a successful [sync],
    whatever appends, barriers, deletions (with checkpoints at most the one
    recovery starts from) and other I/O follow, with any outcome and under
    any injected fault, and however often the machine then crashes: if the
    journal scan of a recovery succeeds, it returns one gap-free log that
    starts right above the checkpoint and reaches the recovered durable
    sequence, and every record that was accepted at the barrier and is not
    covered by the checkpoint is in that log, at its place; no repair the
    scan asks for discards such a record's segment or truncates it below the
    end of the acknowledged records. *)
Theorem acknowledged_replayed L j w n j1 w1 cs j2 w2 w3 sb ck segment_size proof js w4 :
  writer_ok L j w → sync (j, w) = (Ok n, (j1, w1)) → journal_run (j1, w1) cs (j2, w2) → rtc crashes w2 w3 →
  Forall (λ c, c ≤ ck) cs → u64_ok ck → Superblock.volume_uuid sb = j_volume_uuid j →
  scan_journal_with_proof (HT := HT) sb ck segment_size proof (All []) w3 = (Ok js, w4) →
  consecutive (ck + 1) (js_replay js) ∧ js_durable_sequence js = ck + blen (js_replay js) ∧
  (∀ s r, s ∈ segments j1 → r ∈ L (s_index s) → ck < sequence r → js_replay js !! Z.to_nat (sequence r - ck - 1) = Some r) ∧
  (∀ s, s ∈ segments j1 → ck < last_sequence s → (Discard (journal_segment (s_index s)) ∉ js_repairs js) ∧
     ∀ len, Truncate (journal_segment (s_index s)) len ∈ js_repairs js →
       SEGMENT_HEADER_SIZE + blen (encode_records (L (s_index s))) ≤ len).
Proof.
  intros Hok Hs Hrun Hcr Hcs Hck Hu Hr.
  destruct (acknowledged_recovered _ _ _ _ _ _ _ _ _ _ Hok Hs Hrun Hcr) as (Hok1 & _ & _ & Hi3 & Hrec).
  destruct (scan_with_proof_ok sb ck segment_size proof (All []) w3 Hi3 Hck _ _ Hr) as (_ & _ & Hres).
  destruct (Hres js eq_refl) as [(G & Hsf) _]. pose proof (sf_replay _ _ _ _ _ _ Hsf) as Hrp.
  rewrite into_parts_all in Hrp. injection Hrp as Hrp _. rewrite Hrp. rewrite <- Hu in Hrec.
  pose proof (sf_chain _ _ _ _ _ _ Hsf) as Hch. split; [done|]. split; [apply Hsf|].
  assert (∀ s, s ∈ segments j1 → ck < last_sequence s → u64_ok (s_index s) ∧
    recovered w3 (s_index s) (Superblock.volume_uuid sb) (s_base_sequence s) (L (s_index s))) as Hkeep.
  { intros s Hin Hlt. pose proof (sh_infos _ _ (proj1 Hok1)) as Hinf. rewrite list.Forall_forall in Hinf.
    split; [eapply index_u64; [apply Hok1|by apply Hinf]|].
    destruct (Hrec s Hin) as [(c & Hc & Hle)|Hre]; [|done]. rewrite list.Forall_forall in Hcs.
    specialize (Hcs c Hc). lia. }
  split.
  - intros s r Hin Hr' Hlt. destruct (Hkeep s Hin) as [Hi Hre].
    { pose proof (segment_last L j1 s r (proj1 Hok1) Hin Hr'). lia. }
    destruct (recovered_replayed _ _ _ _ _ _ _ _ _ Hsf Hi Hre) as (Hel & _).
    replace (sequence r - ck - 1) with (sequence r - (ck + 1)) by lia. apply consecutive_lookup; auto.
  - intros s Hin Hlt. destruct (Hkeep s Hin Hlt) as [Hi Hre].
    by destruct (recovered_replayed _ _ _ _ _ _ _ _ _ Hsf Hi Hre) as (_ & ?).
Qed.
End Claims.

Section Summary.
Context `{Crc32} `{BackingLaws W F} `{HasherLaws HT}.
Import Journal.

Lemma spec_determined {A} w (m : M W FormatError A) v :
  determined m w v → spec (λ _, True) w (rec_format m) (λ a _, v = Ok a).
Proof.
  intros Hm. apply spec_map_err; [done|]. intros r w' Hr. destruct (Hm _ _ Hr) as (Hk & Hok & _).
  split; [done|]. intros a ->. by apply Hok.
Qed.

Lemma scan_with_replay_ok sb ck segment_size replay w :
  inv w → u64_ok ck →
  spec (λ _, True) w (scan_journal_with_replay (HT := HT) sb ck segment_size replay)
    (λ js _, ∃ w1 G, keeps (λ _, True) w w1 ∧ scan_facts w1 sb ck replay js G).
Proof.
  intros Hi Hck. unfold scan_journal_with_replay.
  eapply spec_bind; [by apply spec_determined, load_volume_spec|]. intros env w1 Hk1 _.
  pose proof (keeps_inv _ _ _ Hk1) as Hi1. destruct (negb _); [by apply spec_err|].
  eapply (spec_bind _ _ _ _ (λ _ _, True)).
  { destruct (_ || _); [|by apply spec_ret]. eapply spec_bind; [by apply spec_determined, dp_load_spec|].
    intros p w2 Hk2 _. apply spec_ret; [by eapply keeps_inv|done]. }
  intros proof w2 Hk2 _. eapply (spec_weaken (λ _, True)); [done| |apply scan_with_proof_ok; [by eapply keeps_inv|done]].
  intros js w3 Hk3 [[G HG] _]. exists w2, G. split; [by eapply keeps_trans|done].
Qed.

(** The facts only look at the visible files. *)
Lemma scan_facts_keeps w w1 sb ck replay js G :
  keeps (λ _, True) w w1 → scan_facts (HT := HT) w1 sb ck replay js G → scan_facts (HT := HT) w sb ck replay js G.
Proof.
  intros Hk [H1' Hac Hpx ? ? ? Hfi Hdi H2' H3' H4' H5'].
  assert (∀ p, vis w1 p = vis w p) as Hv by (intros p; by apply (keeps_vis _ _ _ p Hk)).
  split; try done.
  - intros s rs Hin. destruct (Hac s rs Hin) as (c & Hc & ?). exists c. by rewrite <- Hv.
  - intros p Hp. destruct (Hpx p Hp) as (s & rs & c & ? & Hc & ?). exists s, rs, c. by rewrite <- Hv.
  - intros i Hi Hs. rewrite <- Hv in Hs. rewrite <- Hv. by apply Hfi.
  - intros path Hin. destruct (Hdi path Hin) as (i & c & ? & Hc & ?). exists i, c. by rewrite <- Hv.
Qed.

(** The checker's count of a segment's uncovered records. *)
Lemma uncovered_count sb c s rs ck :
  accepted sb c s rs → 0 ≤ ck →
  Z.min (s_record_count s) (saturating_sub (last_sequence s) ck) = blen (uncovered ck rs).
Proof.
  intros [_ _ _ Hc Hn _ _ Hb He] Hck. rewrite (uncovered_drop _ _ _ Hc), Hn. unfold last_sequence. rewrite Hn.
  pose proof (blen_nonneg rs) as Hnn. unfold u64_ok in Hb. unfold U64_MAX in He.
  assert (blen (drop (Z.to_nat (ck + 1 - s_base_sequence s)) rs) =
    Z.max 0 (blen rs - Z.max 0 (ck + 1 - s_base_sequence s))) as ->.
  { unfold blen in *. rewrite length_drop. lia. }
  destruct (Z.ltb_spec 0 (blen rs)).
  - rewrite add64_small by (unfold U64_MAX; lia). rewrite sub64_small by (unfold U64_MAX; lia).
    unfold saturating_sub. lia.
  - unfold saturating_sub. lia.
Qed.

Lemma uncovered_sum sb ck : ∀ G n,
  (∀ s rs, (s, rs) ∈ G → ∃ c, accepted sb c s rs) → 0 ≤ ck → 0 ≤ n → n + blen (log_above ck G) ≤ U64_MAX →
  foldl (λ sum s, add64 sum (Z.min (s_record_count s) (saturating_sub (last_sequence s) ck))) n G.*1 =
  n + blen (log_above ck G).
Proof.
  induction G as [|[s rs] G IH]; intros n Hac Hck Hn Hle; simpl; [unfold blen; simpl; lia|].
  destruct (Hac s rs ltac:(by left)) as [c Hacc]. rewrite (uncovered_count _ _ _ _ _ Hacc Hck).
  unfold log_above in *. rewrite bind_cons, blen_app in *. cbn [snd] in *.
  pose proof (blen_nonneg (uncovered ck rs)). pose proof (blen_nonneg (G ≫= λ g, uncovered ck g.2)).
  rewrite add64_small by lia. rewrite IH; [lia| |lia..]. intros s' rs' Hin. apply Hac. by right.
Qed.

Lemma consecutive_length e rs : consecutive e rs → e ≤ U64_MAX → e + blen rs ≤ U64_MAX.
Proof.
  revert e. induction rs as [|r rs IH]; intros e Hc He; [unfold blen; simpl; lia|].
  destruct Hc as (_ & _ & Hlt & Hc). specialize (IH _ Hc ltac:(lia)). unfold blen in *. cbn [length]. lia.
Qed.
End Summary.

(** ** The scan's promises *)
Section Promises.
Context `{Crc32} `{BackingLaws W F} `{HasherLaws HT}.
Import Journal.

(** C31. What the journal scan accepts is a log.  Whatever the journal
    directory holds and however I/O fails, the scan changes nothing and
    terminates; when it returns a result, the segments it reports are files
    with a valid header of this volume whose contents start with exactly the
    counted records, each within the geometry, the records above the
    checkpoint form one gap-free log from the checkpoint to the reported
    durable sequence and are returned in order, every segment file is either
    accepted or was never created, and a repair only removes such a file or
    truncates an accepted one behind its last record. *)
Theorem scan_journal_sound sb ck segment_size w r w' :
  inv w → u64_ok ck → scan_journal (HT := HT) sb ck segment_size w = (r, w') →
  keeps (λ _, True) w w' ∧ r ≠ Err RecDiverge ∧
  ∀ js, r = Ok js → ∃ G, scan_facts (HT := HT) w sb ck (All []) js G ∧ js_replay js = log_above ck G.
Proof.
  intros Hi Hck Hr. destruct (scan_with_replay_ok sb ck segment_size (All []) w Hi Hck _ _ Hr) as (Hk & Hd & Hok).
  split; [done|]. split; [done|]. intros js Hjs. destruct (Hok js Hjs) as (w1 & G & Hk1 & Hsf).
  exists G. split; [by eapply scan_facts_keeps|]. pose proof (sf_replay _ _ _ _ _ _ Hsf) as Hrp.
  rewrite into_parts_all in Hrp. by injection Hrp.
Qed.

(** The units of a list of records. *)
Definition units_of (rs : list JournalRecord) : gset Z := list_to_set (unit_index <$> rs).

Definition counts_units (a b : ReplayRecords) : Prop := ∃ rs, a = All rs ∧ b = Units (units_of rs).

(** The checker's summary is the replay's.  [summarize_journal], which
    keeps no payloads, makes the same calls as the scan that returns every
    record; when it returns, that scan would return too, and the summary
    states its number of segments, its durable sequence, its repairs, the
    exact number of records it would replay, and exactly their units. *)
Theorem summary_exact sb ck segment_size w y w' :
  inv w → u64_ok ck → summarize_journal (HT := HT) sb ck segment_size w = (Ok y, w') →
  ∃ js, scan_journal (HT := HT) sb ck segment_size w = (Ok js, w') ∧
    jy_segment_count y = blen (js_segments js) ∧ jy_uncovered_records y = blen (js_replay js) ∧
    jy_durable_sequence y = js_durable_sequence js ∧ jy_repairs y = js_repairs js ∧
    jy_replay_units y = units_of (js_replay js).
Proof.
  intros Hi Hck Hr. apply m_bind_ok in Hr as (js' & w1 & Hs & [= <- <-]). simpl.
  assert (sim (same_journal counts_units) (scan_journal (HT := HT) sb ck segment_size)
    (scan_journal_with_replay (HT := HT) sb ck segment_size (Units ∅))) as Hsim.
  { apply scan_with_replay_sim; [|by exists []]. intros r a b (rs & -> & ->). exists (rs ++ [r]). split; [done|].
    simpl. f_equal. unfold units_of. rewrite fmap_app, list_to_set_app_L. simpl. set_solver. }
  destruct (scan_journal sb ck segment_size w) as [[js|e] w2] eqn:Hj; specialize (Hsim w); rewrite Hj, Hs in Hsim;
    destruct Hsim as [Hw Hsim]; simpl in Hw, Hsim; [|done]. subst w2. exists js. split; [done|].
  destruct Hsim as (a & b & (rs & -> & ->) & Hp & ->). injection Hp as Hrs _. simpl. rewrite Hrs.
  split; [done|]. split; [|done].
  destruct (scan_with_replay_ok sb ck segment_size (All []) w Hi Hck _ _ Hj) as (_ & _ & Hok).
  destruct (Hok js eq_refl) as (wz & G & _ & Hsf). pose proof (sf_replay _ _ _ _ _ _ Hsf) as Hrp.
  rewrite into_parts_all, Hrs in Hrp. injection Hrp as -> _. rewrite (sf_segments _ _ _ _ _ _ Hsf).
  rewrite (uncovered_sum sb); [lia| |unfold u64_ok in Hck; lia|done|].
  - intros s rs Hin. destruct (sf_accepted _ _ _ _ _ _ Hsf _ _ Hin) as (c & _ & Hacc & _). by exists c.
  - pose proof (consecutive_length _ _ (sf_chain _ _ _ _ _ _ Hsf)) as Hl. unfold u64_ok, U64_MAX in *.
    destruct (Z.eq_dec ck (2 ^ 64 - 1)) as [->|]; [|lia].
    destruct (log_above _ G) as [|r l] eqn:HG; [unfold blen; simpl; lia|].
    pose proof (sf_chain _ _ _ _ _ _ Hsf) as Hc. rewrite HG in Hc. destruct Hc as (_ & _ & Hlt & _).
    unfold U64_MAX in Hlt. lia.
Qed.
End Promises.

(** A run on a new volume: one record, a barrier, and a power failure. *)
Module ScanSample.
Import Journal JournalSample.
#[local] Existing Instance Ieee.ieee.

Definition sb : Superblock := VolumeSample.sb'.
Definition p0 : DurableProof := mkDurableProof 2 (Superblock.volume_uuid sb) 0 0 0.
Definition j0 : JournalWriter (F := CrashFile) (HT := bytes) := resume (Superblock.volume_uuid sb) 4096 0 0 [] p0.
Definition k1 : sample_state := (append 5 cipher (j0, VolumeSample.w1)).2.
Definition k2 : sample_state := (sync k1).2.
Definition lost : Inner := crash_all_lost k2.2.
Definition record1 : JournalRecord := mkJournalRecord 1 5 cipher.
Definition segment0 : SegmentInfo := mkSegmentInfo 0 1 1 90.
Definition js1 : JournalScan := mkJournalScan 1 1 [segment0] [record1] ∅ [] None
  [mkVerifiedPrefix (journal_segment 0) 90
     (from_le (SegmentHeader_encode (mkSegmentHeader 0 (Superblock.volume_uuid sb) 1) ++ encode_record record1))].

Lemma volume_attested : attested VolumeSample.w1 p0.
Proof.
  destruct (create_commit VolumeSample.sb SUPERBLOCK_VERSION_V2 (Ok VolumeSample.sb') Sample.empty VolumeSample.w1
    ProofSample.w0_inv VolumeSample.sb_ok) as (_ & [(e & [=] & _)|((g & g' & Hm) & _)] & _);
    [done|done|done|exact VolumeSample.create_runs|].
  destruct Hm as (_ & _ & t & Ht & _ & Hd). eexists (other proof_store t), _.
  split; [apply other_side|]. split; [exact Hd|]. done.
Qed.

Lemma scan_j0_ok : writer_ok (λ _, []) j0 VolumeSample.w1.
Proof.
  split.
  - by split.
  - split; [exact VolumeSample.vol_inv|constructor|intros a [=]|intros f [=]|exact volume_attested].
Qed.

Lemma k1_runs : append 5 cipher (j0, VolumeSample.w1) = (Ok 1, (k1.1, k1.2)).
Proof. vm_compute. reflexivity. Qed.

Lemma k2_runs : sync (k1.1, k1.2) = (Ok 1, (k2.1, k2.2)).
Proof. vm_compute. reflexivity. Qed.

Lemma k_segments : segments k1.1 = [segment0] ∧ segments k2.1 = [segment0] ∧
  j_volume_uuid k1.1 = Superblock.volume_uuid sb.
Proof. vm_compute. done. Qed.

Definition scanned_world : Inner := (scan_journal (HT := bytes) sb 0 4096 lost).2.

Lemma scan_runs : scan_journal (HT := bytes) sb 0 4096 lost = (Ok js1, scanned_world).
Proof. vm_compute. reflexivity. Qed.

Definition proof1 : DurableProof := j_proof k2.1.
Definition scanned_world' : Inner := (scan_journal_with_proof (HT := bytes) sb 0 4096 (Some proof1) (All []) lost).2.

Lemma scan_proof_runs :
  scan_journal_with_proof (HT := bytes) sb 0 4096 (Some proof1) (All []) lost = (Ok js1, scanned_world').
Proof. vm_compute. reflexivity. Qed.

Definition summary1 : JournalSummary := mkJournalSummary 1 1 1 [] {[ 5 ]}.

Lemma summary_runs : summarize_journal (HT := bytes) sb 0 4096 lost = (Ok summary1, scanned_world).
Proof. vm_compute. reflexivity. Qed.

(** The segment file itself, read through the handle the writer left open. *)
Definition content0 : bytes :=
  SegmentHeader_encode (mkSegmentHeader 0 (Superblock.volume_uuid sb) 1) ++ encode_record record1.
Definition file0 : CrashFile := match j_active k2.1 with Some a => a_file a | None => mkCrashFile "" 0%N end.
Definition scanner0 : SegmentScanner (F := CrashFile) :=
  mkSegmentScanner file0 (take 48 content0) 42 1 42 (Some (1, 42)) (Superblock.geometry sb) 0.
Definition push0 (r : JournalRecord) (l : list JournalRecord) : list JournalRecord := l ++ [r].
Definition body0 : SegmentBodyScan := mkSegmentBodyScan 1 42 Clean (from_le content0).
Definition read_world : Inner := (scan (HT := bytes) (pure_accept push0) scanner0 [] k2.2).2.

Lemma active0 : ∃ a, j_active k2.1 = Some a ∧ s_index (a_info a) = 0 ∧ file0 = a_file a.
Proof. eexists. split; [vm_compute; reflexivity|]. split; vm_compute; reflexivity. Qed.

Lemma shows0 : vis k2.2 (journal_segment 0) = Some content0.
Proof. vm_compute. reflexivity. Qed.

Lemma stream_runs : scan (HT := bytes) (pure_accept push0) scanner0 [] k2.2 = (Ok (body0, [record1]), read_world).
Proof. vm_compute. reflexivity. Qed.

#[global] Opaque k1 k2 scanned_world scanned_world' proof1 read_world file0.

Lemma k1_ok : ∃ L, writer_ok L k1.1 k1.2 ∧ L 0 = [record1].
Proof.
  destruct (append_ok (λ _, []) j0 VolumeSample.w1 5 cipher (Ok 1) k1.1 k1.2 scan_j0_ok) as (L & [Hok _ _ (_ & Hlog & _)]);
    [by vm_compute|by vm_compute|exact k1_runs|].
  exists L. split; [exact Hok|]. unfold log at 1 in Hlog. destruct k_segments as (Hs & _ & _). rewrite Hs in Hlog.
  simpl in Hlog. by rewrite app_nil_r in Hlog.
Qed.

Lemma lost_crash : rtc crashes k2.2 lost.
Proof. apply rtc_once. right. reflexivity. Qed.

Lemma lost_inv : inv lost.
Proof.
  destruct k1_ok as (L & Hok & _). destruct (sync_ok _ _ _ _ _ _ Hok k2_runs) as [[_ Hd] _ _ _ _ _].
  eapply inv_crashes; [apply (d_inv _ _ _ Hd)|exact lost_crash].
Qed.

Lemma file0_open : at_file file0 (journal_segment 0) content0 k2.2.
Proof.
  destruct k1_ok as (L & Hok & _). destruct (sync_ok _ _ _ _ _ _ Hok k2_runs) as [[_ Hd] _ _ _ _ _].
  destruct active0 as (a & Ha & Hi & ->).
  destruct (d_active _ _ _ Hd a Ha) as [Hh _ _ _]. unfold active_path in Hh. rewrite Hi in Hh.
  split; [apply (d_inv _ _ _ Hd)|]. split; [exact Hh|]. split; [exact shows0|]. clear. vm_compute. discriminate.
Qed.
End ScanSample.

#[local] Existing Instance Ieee.ieee.
Import Journal JournalSample.

(** The record acknowledged before the power failure is replayed. *)
Lemma acknowledged_replayed_witness :
  consecutive 1 (js_replay ScanSample.js1) ∧ js_replay ScanSample.js1 !! 0%nat = Some ScanSample.record1.
Proof.
  destruct ScanSample.k1_ok as (L & Hok & HL). destruct ScanSample.k_segments as (_ & Hseg & Hu).
  destruct (acknowledged_replayed L ScanSample.k1.1 ScanSample.k1.2 1 ScanSample.k2.1 ScanSample.k2.2 []
    ScanSample.k2.1 ScanSample.k2.2 ScanSample.lost ScanSample.sb 0 4096 (Some ScanSample.proof1) ScanSample.js1
    ScanSample.scanned_world' Hok ScanSample.k2_runs (run_nil _) ScanSample.lost_crash) as (Hc & _ & Hin & _).
  - constructor.
  - clear. split; [discriminate|reflexivity].
  - symmetry. exact Hu.
  - exact ScanSample.scan_proof_runs.
  - split; [exact Hc|]. apply (Hin ScanSample.segment0 ScanSample.record1).
    + rewrite Hseg. apply list_elem_of_here.
    + change (s_index ScanSample.segment0) with 0. rewrite HL. apply list_elem_of_here.
    + reflexivity.
Defined.

Lemma scan_journal_sound_witness :
  ∃ G, js_segments ScanSample.js1 = G.*1 ∧ js_replay ScanSample.js1 = log_above 0 G.
Proof.
  destruct (scan_journal_sound ScanSample.sb 0 4096 ScanSample.lost (Ok ScanSample.js1) ScanSample.scanned_world
    ScanSample.lost_inv) as (_ & _ & Hok).
  - split; [discriminate|reflexivity].
  - exact ScanSample.scan_runs.
  - destruct (Hok ScanSample.js1 eq_refl) as (G & Hsf & Hrp). exists G.
    split; [exact (sf_segments _ _ _ _ _ _ Hsf)|exact Hrp].
Defined.

Lemma summary_exact_witness :
  ∃ js, jy_uncovered_records ScanSample.summary1 = blen (js_replay js) ∧
    jy_replay_units ScanSample.summary1 = units_of (js_replay js).
Proof.
  destruct (summary_exact ScanSample.sb 0 4096 ScanSample.lost ScanSample.summary1 ScanSample.scanned_world
    ScanSample.lost_inv) as (js & _ & _ & Hn & _ & _ & Hu).
  - split; [discriminate|reflexivity].
  - exact ScanSample.summary_runs.
  - exists js. split; [exact Hn|exact Hu].
Defined.

Lemma stream_scan_equiv_witness :
  ∃ rs, scan_result (HT := bytes) ScanSample.scanner0 ScanSample.content0 rs ScanSample.body0 ∧
    [ScanSample.record1] = pushes ScanSample.push0 [] (uncovered 0 rs).
Proof.
  destruct (stream_scan_equiv ScanSample.push0 ScanSample.scanner0 (journal_segment 0) ScanSample.content0 []
    ScanSample.k2.2 (Ok (ScanSample.body0, [ScanSample.record1])) ScanSample.read_world ScanSample.file0_open)
    as (_ & _ & Hok & _); [discriminate|discriminate|discriminate|exact ScanSample.stream_runs|].
  exact (Hok ScanSample.body0 [ScanSample.record1] eq_refl).
Defined.

Lemma scan_terminates_witness :
  Ok (E := RecoveryError) (ScanSample.body0, [ScanSample.record1]) ≠ Err RecDiverge.
Proof.
  refine (proj1 (scan_terminates (pure_accept ScanSample.push0) ScanSample.scanner0 (journal_segment 0)
    ScanSample.content0 [] ScanSample.k2.2 (Ok (ScanSample.body0, [ScanSample.record1])) ScanSample.read_world _
    ScanSample.file0_open _ _ _
    ScanSample.stream_runs)); [|discriminate|discriminate|discriminate].
  intros rec a v res v' [Hi _] [= <- <-]. split; [by apply keeps_refl|discriminate].
Defined.
