(* ===== verification/SlotStore.v ===== *)
(** * SlotStore: shard data files, allocation maps, shard catalog
    (crates/maki-core/src/store.rs)

    Module [Store] has the store's state and every operation of it, run on
    the pair of the store and the backing.  The theorems say what a slot read
    returns: exactly the last version written to that unit, never a byte of
    another slot, never data that its checksum does not cover; and what the
    metadata operations leave durable. *)

From stdpp Require Import sorting.
From S2P Require Import Prelude BTreeMap Codec Layout Geometry AbRecord Metadata Superblock Backing CrashBacking AbStore FixedCopy DurableProof JournalWriter Volumes.
Import (hints) Metadata.Catalog Metadata.Allocation.

Local Open Scope Z_scope.

(** [std::collections::HashMap] iterates over its keys in some order. *)
Class HashOrder := {
  hash_order : gset Z → list Z;
  hash_order_perm s : hash_order s ≡ₚ elements s
}.

#[export] Instance sorted_order : HashOrder :=
  {| hash_order := elements; hash_order_perm _ := Permutation_refl _ |}.

Module Store.
Import Allocation.

(** ** The state *)

Inductive SlotRead :=
| SlotZero
| SlotCiphertext (write_sequence : Z) (data : bytes).

Inductive ShortFile := Unproven | Truncated.

#[global] Instance ShortFile_eq_dec : EqDecision ShortFile.
Proof. solve_decision. Defined.

Inductive Probe :=
| ProbeUnwritten
| ProbeHeader (header : Slot.SlotHeader)
| ProbeDamaged.

(** [AllocationMap::get] and [set] as the store calls them: always inside
    the map, which covers the shard ([sh_alloc] of the invariant). *)
Definition bit (m : AllocationMap) (u : Z) : bool := default false (get m u).
Definition put_bit (m : AllocationMap) (u : Z) (v : bool) : AllocationMap := default m (set m u v).

Section Store.
Context `{Crc32} `{Backing W F} `{HashOrder}.

Record Shard := mkShard {
  alloc : AllocationMap;
  alloc_ab : AbStore;
  data : F;
  dirty_alloc : bool;
  map_stored : bool;
  short : option ShortFile;
  discard : option AllocationMap;
  discard_ab : option AbStore;
  dirty_discard : bool
}.

(** The counter [reservation_failures] is shared with the checkpoint plans;
    they read it through the store. *)
Record SlotStore := mkSlotStore {
  st_geometry : Geometry;
  st_catalog : Catalog.ShardCatalog;
  st_catalog_ab : AbStore;
  st_catalog_dirty : bool;
  st_shards : gmap Z Shard;
  st_repaired_units : list Z;
  st_damaged_units : list Z;
  st_discard_enabled : bool;
  st_reclaim_cursor : option (Z * Z);
  st_reclaim_stalled : bool;
  st_reservation_failures : Z
}.

Abbreviation cio := (M W CoreError).
Abbreviation sio := (M (SlotStore * W) CoreError).

Definition core_io {A} (m : M W ErrorKind A) : cio A := m_map_err CoreIo m.
Definition core_format {A} (m : M W FormatError A) : cio A := m_map_err CoreFormat m.
Definition s_io {A} (m : M W ErrorKind A) : sio A := on_world (core_io m).

(** Field assignments. *)
Definition set_shards (f : gmap Z Shard → gmap Z Shard) (s : SlotStore) : SlotStore :=
  mkSlotStore (st_geometry s) (st_catalog s) (st_catalog_ab s) (st_catalog_dirty s) (f (st_shards s))
    (st_repaired_units s) (st_damaged_units s) (st_discard_enabled s) (st_reclaim_cursor s)
    (st_reclaim_stalled s) (st_reservation_failures s).
Definition set_catalog (c : Catalog.ShardCatalog) (dirty : bool) (s : SlotStore) : SlotStore :=
  mkSlotStore (st_geometry s) c (st_catalog_ab s) dirty (st_shards s)
    (st_repaired_units s) (st_damaged_units s) (st_discard_enabled s) (st_reclaim_cursor s)
    (st_reclaim_stalled s) (st_reservation_failures s).
Definition set_reclaim (cursor : option (Z * Z)) (stalled : bool) (s : SlotStore) : SlotStore :=
  mkSlotStore (st_geometry s) (st_catalog s) (st_catalog_ab s) (st_catalog_dirty s) (st_shards s)
    (st_repaired_units s) (st_damaged_units s) (st_discard_enabled s) cursor stalled
    (st_reservation_failures s).
Definition count_reservation_failure (s : SlotStore) : SlotStore :=
  mkSlotStore (st_geometry s) (st_catalog s) (st_catalog_ab s) (st_catalog_dirty s) (st_shards s)
    (st_repaired_units s) (st_damaged_units s) (st_discard_enabled s) (st_reclaim_cursor s)
    (st_reclaim_stalled s) (saturating_add (st_reservation_failures s) 1).

Definition set_alloc (m : AllocationMap) (dirty : bool) (s : Shard) : Shard :=
  mkShard m (alloc_ab s) (data s) dirty (map_stored s) (short s) (discard s) (discard_ab s) (dirty_discard s).
Definition set_map_stored (stored : bool) (s : Shard) : Shard :=
  mkShard (alloc s) (alloc_ab s) (data s) (dirty_alloc s) stored (short s) (discard s) (discard_ab s)
    (dirty_discard s).
Definition set_short (sh : option ShortFile) (s : Shard) : Shard :=
  mkShard (alloc s) (alloc_ab s) (data s) (dirty_alloc s) (map_stored s) sh (discard s) (discard_ab s)
    (dirty_discard s).
Definition set_discard (m : option AllocationMap) (ab : option AbStore) (dirty : bool) (s : Shard) : Shard :=
  mkShard (alloc s) (alloc_ab s) (data s) (dirty_alloc s) (map_stored s) (short s) m ab dirty.

(** [self.shards.get_mut(&idx).unwrap()]; the error stands for the panic. *)
Definition get_shard (idx : Z) : sio Shard :=
  let* s := get_state in m_lift (ok_or (st_shards s !! idx) CoreInvalid).
Definition put_shard (idx : Z) (shard : Shard) : sio unit := modify_state (set_shards (<[idx := shard]>)).

(** ** Metadata stores *)

Definition map_store (a b : string) (g : Geometry) : AbStore :=
  with_max_len (encoded_len (units_per_shard g)) (AbStore_new a b).
Definition alloc_store (idx : Z) (g : Geometry) : AbStore := map_store (shard_alloc_a idx) (shard_alloc_b idx) g.
Definition discard_store (idx : Z) (g : Geometry) : AbStore := map_store (shard_discard_a idx) (shard_discard_b idx) g.
Definition catalog_store_of (g : Geometry) : AbStore :=
  with_max_len (Catalog.max_encoded_len (num_shards g)) (AbStore_new SHARD_CATALOG_A SHARD_CATALOG_B).

(** [ab.store(backing, &mut record)?] on a record the store owns: the
    generation it drew stays in memory also when the call fails. *)
Definition store_alloc (idx : Z) : sio unit := λ st,
  match st_shards st.1 !! idx with
  | None => (Err CoreInvalid, st)
  | Some shard =>
      let '(r, m, w) := store (alloc_ab shard) (alloc shard) st.2 in
      (map_err CoreFormat r, (set_shards (<[idx := set_alloc m (dirty_alloc shard) shard]>) st.1, w))
  end.

Definition store_discard (idx : Z) : sio unit := λ st,
  match st_shards st.1 !! idx with
  | None => (Err CoreInvalid, st)
  | Some shard =>
      match discard_ab shard, discard shard with
      | None, _ => (Err CoreCorrupt, st)
      | Some _, None => (Err CoreInvalid, st)
      | Some ab, Some map =>
          let '(r, m, w) := store ab map st.2 in
          (map_err CoreFormat r,
           (set_shards (<[idx := set_discard (Some m) (discard_ab shard) (dirty_discard shard) shard]>) st.1, w))
      end
  end.

Definition store_catalog : sio unit := λ st,
  let '(r, c, w) := store (st_catalog_ab st.1) (st_catalog st.1) st.2 in
  (map_err CoreFormat r, (set_catalog c (st_catalog_dirty st.1) st.1, w)).

(** The keys of the shards that satisfy [P], in iteration order. *)
Definition shards_where (P : Shard → bool) (s : SlotStore) : list Z :=
  List.filter (λ idx, match st_shards s !! idx with Some sh => P sh | None => false end)
    (hash_order (dom (st_shards s))).

(** ** Probing slots *)

Definition slot_read_error (e : ErrorKind) : CoreError :=
  match e with UnexpectedEof => CoreCorrupt | e => CoreIo e end.

Definition probe_header (g : Geometry) (shard : Shard) (unit in_shard file_len : Z) : cio Probe :=
  let offset := slot_offset g in_shard in
  if file_len <? add64 offset 64 then
    m_ret (if bool_decide (short shard = Some Unproven) then ProbeUnwritten else ProbeDamaged)
  else
    let* header_bytes := m_map_err slot_read_error (f_read_at (data shard) offset 64) in
    if all_zero header_bytes then m_ret ProbeUnwritten
    else m_ret match Slot.decode header_bytes with
               | Ok h => if (Slot.unit_index h =? unit) && (0 <? Slot.write_sequence h)
                         then ProbeHeader h else ProbeDamaged
               | Err _ => ProbeDamaged
               end.

(** Whether a bit of the shard's discard map is set. *)
Definition is_discarded (shard : Shard) (in_shard : Z) : bool :=
  match discard shard with Some m => bit m in_shard | None => false end.

Fixpoint probe_slots (g : Geometry) (shard : Shard) (shard_idx len : Z) (slots : list Z) : cio (list Z) :=
  match slots with
  | [] => m_ret []
  | in_shard :: slots =>
      if is_discarded shard in_shard || bit (alloc shard) in_shard
      then probe_slots g shard shard_idx len slots
      else
        let unit := shard_idx * units_per_shard g + in_shard in
        let* probe := probe_header g shard unit in_shard len in
        let* out := probe_slots g shard shard_idx len slots in
        m_ret (match probe with ProbeHeader _ => unit :: out | _ => out end)
  end.

Definition probe_shard (g : Geometry) (shard : Shard) (shard_idx : Z) : cio (list Z) :=
  let* len := core_io (f_len (data shard)) in
  probe_slots g shard shard_idx len (seqZ 0 (units (alloc shard))).

(** ** Opening *)

(** The damage marks of a truncated file: the cleared slots of the device
    beyond its end. *)
Fixpoint mark_beyond (g : Geometry) (shard_idx len : Z) (m : AllocationMap) (slots : list Z)
    : AllocationMap * list Z :=
  match slots with
  | [] => (m, [])
  | in_shard :: slots =>
      if negb (bit m in_shard) && (len <? add64 (slot_offset g in_shard) 64) then
        let '(m', marked) := mark_beyond g shard_idx len (put_bit m in_shard true) slots in
        (m', shard_idx * units_per_shard g + in_shard :: marked)
      else mark_beyond g shard_idx len m slots
  end.

(** Data files the catalog copy does not list. *)
Definition orphans (g : Geometry) (catalog : Catalog.ShardCatalog) (names : list string) : list Z :=
  merge_sort Z.le (omap (λ n, idx ← parse_shard_data n;
    if negb (Catalog.contains catalog idx) && (idx <? num_shards g) then Some idx else None) names).

(** The loaded allocation map of one shard, its dirty flag and [map_stored]. *)
Definition load_alloc (g : Geometry) (adopted : bool) (idx : Z) : cio (AllocationMap * bool) :=
  let* loaded := core_format (load (T := AllocationMap) (alloc_store idx g)) in
  match loaded with
  | Some m => m_ret (m, false)
  | None =>
      if adopted
      then let* m := m_lift (ok_or (new (units_per_shard g)) CoreInvalid) in m_ret (m, true)
      else m_err CoreCorrupt
  end.

(** The classification of a data file's length: the map with its damage
    marks, [short], and the marked units. *)
Definition classify_length (g : Geometry) (adopted : bool) (idx len : Z) (m : AllocationMap)
    : AllocationMap * option ShortFile * list Z :=
  let physical := units_per_shard g * slot_size g in
  if adopted && (set_count m =? 0) then (m, Some Unproven, [])
  else if physical <=? len then (m, None, [])
  else
    let base := idx * units_per_shard g in
    let in_device := saturating_sub (num_units g) base in
    let '(m', marked) := mark_beyond g idx len m (seqZ 0 (Z.min (units m) in_device)) in
    (m', Some Truncated, marked).

Definition load_discard (g : Geometry) (idx : Z) (shard : Shard) : cio Shard :=
  let ab := discard_store idx g in
  let* _ := core_format (side_generations (T := AllocationMap) ab) in
  let* loaded := core_format (load (T := AllocationMap) ab) in
  let* m := m_lift (ok_or loaded CoreCorrupt) in
  if negb (units m =? units_per_shard g) then m_err CoreCorrupt
  else m_ret (set_discard (Some m) (Some ab) true shard).

Definition is_none {A} (o : option A) : bool := match o with None => true | Some _ => false end.

(** One round of the loop over the catalog: the shard, its damaged and its
    repaired units. *)
Definition open_shard (g : Geometry) (discard_enabled : bool) (adopted : bool) (idx : Z)
    : cio (Shard * list Z * list Z) :=
  if num_shards g <=? idx then m_err CoreCorrupt else
  let ab := alloc_store idx g in
  let* '(side_a, side_b) := core_format (side_generations (T := AllocationMap) ab) in
  let* '(m, dirty) := load_alloc g adopted idx in
  if negb (units m =? units_per_shard g) then m_err CoreCorrupt else
  let* file := m_map_err (λ e, match e with NotFound => CoreCorrupt | e => CoreIo e end)
                 (b_open (shard_data idx) false) in
  let* len := core_io (f_len file) in
  let '(m, short, damaged) := classify_length g adopted idx len m in
  let dirty := dirty || negb (bool_decide (damaged = [])) in
  let shard := mkShard m ab file dirty false short None None false in
  let* shard := if discard_enabled then load_discard g idx shard else m_ret shard in
  if is_none side_a || is_none side_b then
    let* found := probe_shard g shard idx in
    let m := foldl (λ m unit, put_bit m (shard_of_unit g unit).2 true) (alloc shard) found in
    m_ret (set_alloc m (dirty_alloc shard || negb (bool_decide (found = []))) shard, damaged, found)
  else m_ret (shard, damaged, []).

Fixpoint open_shards (g : Geometry) (discard_enabled : bool) (adopted : list Z) (idxs : list Z)
    (acc : gmap Z Shard * list Z * list Z) : cio (gmap Z Shard * list Z * list Z) :=
  match idxs with
  | [] => m_ret acc
  | idx :: idxs =>
      let* '(shard, damaged, repaired) := open_shard g discard_enabled (bool_decide (idx ∈ adopted)) idx in
      let '(shards, damaged_units, repaired_units) := acc in
      open_shards g discard_enabled adopted idxs
        (<[idx := shard]> shards, damaged_units ++ damaged, repaired_units ++ repaired)
  end.

Definition open (g : Geometry) : cio SlotStore :=
  let* envelope := core_format load_volume_superblock in
  let discard_enabled := metadata_version envelope =? SUPERBLOCK_VERSION_V3 in
  let catalog_ab := catalog_store_of g in
  let* loaded := core_format (load (T := Catalog.ShardCatalog) catalog_ab) in
  let* catalog := m_lift (ok_or loaded CoreCorrupt) in
  let* names := core_io (b_list DATA_DIR) in
  let adopted := orphans g catalog names in
  let catalog := foldl (λ c idx, (Catalog.insert idx c).1) catalog adopted in
  let* '(shards, damaged, repaired) :=
    open_shards g discard_enabled adopted (Catalog.shard_indices catalog) (∅, [], []) in
  m_ret (mkSlotStore g catalog catalog_ab (negb (bool_decide (adopted = []))) shards repaired damaged
           discard_enabled None false 0).

(** ** Proving sizes and maps durable *)

Definition physical_size (g : Geometry) : Z := units_per_shard g * slot_size g.

Definition update_shard (idx : Z) (f : Shard → Shard) : sio unit :=
  let* shard := get_shard idx in put_shard idx (f shard).

Definition prove_data_file (shard_idx : Z) : sio unit :=
  let* s := get_state in
  let* shard := get_shard shard_idx in
  match short shard with
  | None => m_ret tt
  | Some sh =>
      let* _ := m_when (bool_decide (sh = Truncated))
        (let* _ := store_alloc shard_idx in s_io (b_sync_dir DATA_DIR)) in
      let* _ := s_io (f_set_len (data shard) (physical_size (st_geometry s))) in
      let* _ := s_io (f_sync_data (data shard)) in
      update_shard shard_idx (set_short None)
  end.

(** Both copies of a map are on disk: [shard.map_stored = true;
    shard.dirty_alloc = false]. *)
Definition mark_stored (shard : Shard) : Shard := set_map_stored true (set_alloc (alloc shard) false shard).

Definition commit_adopted_maps : sio unit :=
  let* s := get_state in
  let pending := shards_where (λ sh, negb (map_stored sh)) s in
  m_when (negb (bool_decide (pending = [])))
    (let* _ := m_each (λ idx,
       let* _ := prove_data_file idx in
       let* _ := store_alloc idx in
       store_alloc idx) pending in
     let* _ := s_io (b_sync_dir DATA_DIR) in
     m_each (λ idx, update_shard idx mark_stored) pending).

(** The first block of [persist_allocations]: the dirty maps. *)
Definition persist_maps : sio unit :=
  let* s := get_state in
  let dirty := shards_where (λ sh, dirty_alloc sh || negb (map_stored sh)) s in
  m_when (negb (bool_decide (dirty = [])))
    (let* _ := m_each (λ idx,
       let* _ := store_alloc idx in
       let* shard := get_shard idx in
       m_when (negb (map_stored shard)) (store_alloc idx)) dirty in
     let* _ := s_io (b_sync_dir DATA_DIR) in
     m_each (λ idx, update_shard idx mark_stored) dirty).

(** Its second block: the catalog that names adopted shards. *)
Definition persist_catalog : sio unit :=
  let* s := get_state in
  m_when (st_catalog_dirty s)
    (let unproven := shards_where (λ sh, negb (is_none (short sh))) s in
     let* _ := m_each prove_data_file unproven in
     let* _ := store_catalog in
     let* _ := s_io (b_sync_dir "") in
     modify_state (λ s, set_catalog (st_catalog s) false s)).

Definition persist_allocations : sio unit :=
  let* _ := persist_maps in persist_catalog.

(** ** Discards *)

Definition set_discarded (unit_ : Z) (discarded : bool) : sio unit :=
  let* s := get_state in
  if negb (st_discard_enabled s) then m_err CoreInvalid else
  let '(shard_idx, in_shard) := shard_of_unit (st_geometry s) unit_ in
  let* shard := m_lift (ok_or (st_shards s !! shard_idx) CoreCorrupt) in
  let* map := m_lift (ok_or (discard shard) CoreCorrupt) in
  m_when (negb (Bool.eqb (bit map in_shard) discarded))
    (put_shard shard_idx (set_discard (Some (put_bit map in_shard discarded)) (discard_ab shard) true shard)).

Definition persist_discards : sio unit :=
  let* s := get_state in
  let dirty := shards_where dirty_discard s in
  m_when (negb (bool_decide (dirty = [])))
    (let* _ := m_each (λ idx, let* _ := store_discard idx in store_discard idx) dirty in
     let* _ := s_io (b_sync_dir DATA_DIR) in
     m_each (λ idx, update_shard idx (λ sh, set_discard (discard sh) (discard_ab sh) false sh)) dirty).

(** ** Creating a shard *)

(** The discard maps of a new shard, both copies durable before its data
    file exists. *)
Definition create_discard (g : Geometry) (shard_idx : Z) : cio (AllocationMap * AbStore) :=
  let ab := discard_store shard_idx g in
  let* m := m_lift (ok_or (new (units_per_shard g)) CoreInvalid) in
  let* m := core_format (store_twice ab m) in
  let* _ := core_io (b_sync_dir DATA_DIR) in
  m_ret (m, ab).

(** The data file at its full size, synced. *)
Definition create_data (g : Geometry) (shard_idx : Z) : cio F :=
  let* file := core_io (b_open (shard_data shard_idx) true) in
  let* _ := core_io (f_set_len file (physical_size g)) in
  let* _ := core_io (f_sync_data file) in
  m_ret file.

Definition ensure_shard (shard_idx : Z) : sio unit :=
  let* s := get_state in
  let g := st_geometry s in
  match st_shards s !! shard_idx with
  | Some shard =>
      m_when (negb (map_stored shard) || st_catalog_dirty s)
        (let* _ := commit_adopted_maps in persist_allocations)
  | None =>
      let* '(discard, discard_ab) :=
        (if st_discard_enabled s
         then let* '(m, ab) := on_world (create_discard g shard_idx) in m_ret (Some m, Some ab)
         else m_ret (None, None)) in
      let* file := on_world (create_data g shard_idx) in
      let ab := alloc_store shard_idx g in
      let* m := m_lift (ok_or (new (units_per_shard g)) CoreInvalid) in
      let* m := on_world (core_format (store_twice ab m)) in
      let* _ := commit_adopted_maps in
      let* _ := persist_discards in
      let* _ := s_io (b_sync_dir DATA_DIR) in
      let* s := get_state in
      let* catalog := on_world (core_format
        (store_record (st_catalog_ab s) (Catalog.insert shard_idx (st_catalog s)).1)) in
      let* _ := s_io (b_sync_dir "") in
      let* _ := modify_state (λ s, set_catalog catalog (st_catalog_dirty s) s) in
      put_shard shard_idx (mkShard m ab file false true None discard discard_ab false)
  end.

(** ** Slot operations *)

Definition validate_unit (unit_ : Z) : sio unit :=
  let* s := get_state in
  if num_units (st_geometry s) <=? unit_ then m_err CoreCorrupt else m_ret tt.

(** [usize as u32]. *)
Definition slot_header_for (unit_ write_sequence : Z) (ciphertext : bytes) : Slot.SlotHeader :=
  Slot.mkSlotHeader unit_ write_sequence (blen ciphertext mod 2 ^ 32) 0 (crc32 ciphertext).

(** The two positional writes of a slot version. *)
Definition write_version (file : F) (offset unit_ write_sequence : Z) (ciphertext : bytes) : cio unit :=
  let* _ := core_io (f_write_at file offset (Slot.encode (slot_header_for unit_ write_sequence ciphertext))) in
  core_io (f_write_at file (add64 offset 64) ciphertext).

Definition write_slot (unit_ write_sequence : Z) (ciphertext : bytes) : sio unit :=
  let* _ := validate_unit unit_ in
  let* s := get_state in
  let g := st_geometry s in
  if max_ciphertext_size g <? blen ciphertext then m_err CoreCorrupt else
  let '(shard_idx, in_shard) := shard_of_unit g unit_ in
  let* _ := ensure_shard shard_idx in
  let* _ := prove_data_file shard_idx in
  let* shard := get_shard shard_idx in
  on_world (write_version (data shard) (slot_offset g in_shard) unit_ write_sequence ciphertext).

Definition mark_allocated (unit_ : Z) : sio unit :=
  let* _ := validate_unit unit_ in
  let* s := get_state in
  let '(shard_idx, in_shard) := shard_of_unit (st_geometry s) unit_ in
  let* _ := ensure_shard shard_idx in
  let* shard := get_shard shard_idx in
  m_when (negb (bit (alloc shard) in_shard))
    (put_shard shard_idx (set_alloc (put_bit (alloc shard) in_shard true) true shard)).

Definition sync_shard_data (shard_idx : Z) : sio unit :=
  let* s := get_state in
  match st_shards s !! shard_idx with
  | Some shard => s_io (f_sync_data (data shard))
  | None => m_ret tt
  end.

(** The storage error below a metadata codec's. *)
Definition unwrap_format_io (e : CoreError) : CoreError :=
  match e with CoreFormat (Io e) => CoreIo e | e => e end.

Definition reserve_slot (unit_ : Z) : sio unit :=
  let* _ := validate_unit unit_ in
  let* s := get_state in
  let g := st_geometry s in
  let '(shard_idx, in_shard) := shard_of_unit g unit_ in
  let* _ := m_map_err unwrap_format_io
    (let* _ := ensure_shard shard_idx in prove_data_file shard_idx) in
  let* shard := get_shard shard_idx in
  let* _ := s_io (f_allocate_range (data shard) (slot_offset g in_shard) (slot_size g)) in
  let* synced := m_try (s_io (f_sync_all (data shard))) in
  match synced with
  | Ok _ => m_ret tt
  | Err e => let* _ := modify_state count_reservation_failure in m_err e
  end.

(** ** Reading *)

Definition slot_header (s : SlotStore) (unit_ : Z) : cio (option Slot.SlotHeader) :=
  let g := st_geometry s in
  let '(shard_idx, in_shard) := shard_of_unit g unit_ in
  match st_shards s !! shard_idx with
  | None => m_ret None
  | Some shard =>
      if is_discarded shard in_shard then m_ret None else
      let offset := slot_offset g in_shard in
      let* found :=
        (if bit (alloc shard) in_shard then
           let* header_bytes := m_map_err slot_read_error (f_read_at (data shard) offset 64) in
           let* header := m_lift (map_err (λ _, CoreCorrupt) (Slot.decode header_bytes)) in
           if negb (Slot.unit_index header =? unit_) then m_err CoreCorrupt else m_ret (Some header)
         else
           let* len := core_io (f_len (data shard)) in
           let* probe := probe_header g shard unit_ in_shard len in
           match probe with
           | ProbeUnwritten => m_ret None
           | ProbeDamaged => m_err CoreCorrupt
           | ProbeHeader header => m_ret (Some header)
           end) in
      match found with
      | None => m_ret None
      | Some header =>
          if max_ciphertext_size g <? Slot.ciphertext_len header then m_err CoreCorrupt
          else m_ret (Some header)
      end
  end.

Definition slot_sequence (s : SlotStore) (unit_ : Z) : cio (option Z) :=
  let* header := slot_header s unit_ in m_ret (Slot.write_sequence <$> header).

Definition read_slot (s : SlotStore) (unit_ : Z) : cio SlotRead :=
  let g := st_geometry s in
  let* found := slot_header s unit_ in
  match found with
  | None => m_ret SlotZero
  | Some header =>
      let '(shard_idx, in_shard) := shard_of_unit g unit_ in
      let* shard := m_lift (ok_or (st_shards s !! shard_idx) CoreInvalid) in
      let offset := slot_offset g in_shard in
      let* data := m_map_err slot_read_error
        (f_read_at (data shard) (add64 offset 64) (Slot.ciphertext_len header)) in
      if negb (crc32 data =? Slot.ciphertext_crc header) then m_err CoreCorrupt
      else m_ret (SlotCiphertext (Slot.write_sequence header) data)
  end.

(** ** Pending work and enumeration *)

Definition has_pending_repairs (s : SlotStore) : bool :=
  st_catalog_dirty s
  || existsb (λ sh, dirty_alloc sh || negb (map_stored sh) || dirty_discard sh)
       ((map_to_list (st_shards s)).*2).

Definition supports_discard (s : SlotStore) : bool := st_discard_enabled s.

Definition has_pending_reclamation (s : SlotStore) : bool :=
  negb (is_none (st_reclaim_cursor s)) && negb (st_reclaim_stalled s).

(** A shard with a discarded unit. *)
Definition has_discards (s : SlotStore) (idx : Z) : bool :=
  match st_shards s !! idx with
  | Some shard => match discard shard with Some m => 0 <? set_count m | None => false end
  | None => false
  end.

Definition schedule_reclamation : sio unit :=
  modify_state (λ s,
    set_reclaim ((λ idx, (idx, 0)) <$> List.find (has_discards s) (Catalog.shard_indices (st_catalog s)))
      (st_reclaim_stalled s) s).

(** The lexicographic [Ord] of pairs. *)
Definition pair_min (a b : Z * Z) : Z * Z :=
  if (a.1 <? b.1) || ((a.1 =? b.1) && (a.2 <=? b.2)) then a else b.

Definition reclaim_unwritten (unit_ : Z) : sio unit :=
  let* s := get_state in
  let '(shard_idx, in_shard) := shard_of_unit (st_geometry s) unit_ in
  match st_shards s !! shard_idx with
  | None => m_ret tt
  | Some _ =>
      let* _ := set_discarded unit_ true in
      let cursor := (shard_idx, in_shard) in
      modify_state (λ s, set_reclaim
        (Some match st_reclaim_cursor s with Some old => pair_min old cursor | None => cursor end)
        (st_reclaim_stalled s) s)
  end.

Definition shard_count (s : SlotStore) : Z := Z.of_nat (size (st_shards s)).

(** The units of the loaded shards that satisfy [P], in ascending order. *)
Definition units_where (P : Shard → Z → bool) (s : SlotStore) : list Z :=
  let per_shard := units_per_shard (st_geometry s) in
  BTreeMap.entries (st_shards s) ≫= λ '(shard_idx, shard),
    omap (λ in_shard,
      let unit := shard_idx * per_shard + in_shard in
      if (unit <? num_units (st_geometry s)) && P shard in_shard then Some unit else None)
    (seqZ 0 (units (alloc shard))).

Definition allocated_units : SlotStore → list Z :=
  units_where (λ shard u, bit (alloc shard) u && negb (is_discarded shard u)).

Definition unlisted_units : SlotStore → list Z :=
  units_where (λ shard u, negb (bit (alloc shard) u) && negb (is_discarded shard u)).

Fixpoint first_allocated (per_shard : Z) (shards : list (Z * Shard)) : option Z :=
  match shards with
  | [] => None
  | (shard_idx, shard) :: shards =>
      if set_count (alloc shard) =? 0 then first_allocated per_shard shards
      else match List.find (λ u, bit (alloc shard) u && negb (is_discarded shard u))
                   (seqZ 0 (units (alloc shard))) with
           | Some in_shard => Some (shard_idx * per_shard + in_shard)
           | None => first_allocated per_shard shards
           end
  end.

Definition first_allocated_unit (s : SlotStore) : option Z :=
  first_allocated (units_per_shard (st_geometry s)) (BTreeMap.entries (st_shards s)).

Definition shards_of_units (s : SlotStore) (us : list Z) : gset Z :=
  list_to_set ((λ u, (shard_of_unit (st_geometry s) u).1) <$> us).

(** ** Releasing discarded slots *)

(** The two nested loops over the sorted slots: first slot and length of
    every maximal run of consecutive ones. *)
Fixpoint runs (slots : list Z) : list (Z * Z) :=
  match slots with
  | [] => []
  | x :: slots =>
      match runs slots with
      | (y, n) :: tl => if y =? x + 1 then (x, n + 1) :: tl else (x, 1) :: (y, n) :: tl
      | [] => [(x, 1)]
      end
  end.

Fixpoint punch_runs (g : Geometry) (file : F) (rs : list (Z * Z)) (punched : bool) : cio bool :=
  match rs with
  | [] => m_ret punched
  | (first, count) :: rs =>
      let* len := m_lift (ok_or (checked_mul (slot_size g) count) CoreCorrupt) in
      let* r := m_try (f_punch_hole file (slot_offset g first) len) in
      match r with
      | Ok _ => punch_runs g file rs true
      | Err IoUnsupported => punch_runs g file rs punched
      | Err e => m_err (CoreIo e)
      end
  end.

(** [by_shard.entry(shard_idx).or_default().push(in_shard)]. *)
Definition by_shard (g : Geometry) (us : list Z) : gmap Z (list Z) :=
  foldl (λ m u, let '(shard_idx, in_shard) := shard_of_unit g u in
                <[shard_idx := default [] (m !! shard_idx) ++ [in_shard]]> m) ∅ us.

Fixpoint punch_shards (s : SlotStore) (todo : list (Z * list Z)) : cio unit :=
  match todo with
  | [] => m_ret tt
  | (shard_idx, slots) :: todo =>
      let* shard := m_lift (ok_or (st_shards s !! shard_idx) CoreCorrupt) in
      let slots := remove_dups (merge_sort Z.le slots) in
      let* punched := punch_runs (st_geometry s) (data shard) (runs slots) false in
      let* _ := m_when punched (core_io (f_sync_data (data shard))) in
      punch_shards s todo
  end.

Definition punch_slots (s : SlotStore) (us : list Z) : cio unit :=
  punch_shards s (BTreeMap.entries (by_shard (st_geometry s) us)).

Definition retry_reclamation (can_punch : Z → bool) : sio unit :=
  let* s := get_state in
  match st_reclaim_cursor s with
  | None => m_ret tt
  | Some (idx, start) =>
      let* shard := get_shard idx in
      if dirty_discard shard then
        let* _ := modify_state (λ s, set_reclaim (st_reclaim_cursor s) true s) in m_err CoreDurability
      else
      let* map := m_lift (ok_or (discard shard) CoreInvalid) in
      let end_ := Z.min (saturating_add start 4096) (units map) in
      let base := idx * units_per_shard (st_geometry s) in
      let us := List.filter can_punch
        ((λ in_shard, base + in_shard) <$> List.filter (bit map) (seqZ start (end_ - start))) in
      let* r := m_try (on_world (punch_slots s us)) in
      match r with
      | Err e => let* _ := modify_state (λ s, set_reclaim (st_reclaim_cursor s) true s) in m_err e
      | Ok _ =>
          modify_state (λ s, set_reclaim
            (if end_ <? units map then Some (idx, end_)
             else (λ next, (next, 0)) <$>
                  List.find (λ next, (idx <? next) && has_discards s next)
                    (Catalog.shard_indices (st_catalog s)))
            false s)
      end
  end.

(** ** Checkpoint plans *)

Record CheckpointSlotTarget := mkTarget {
  t_unit : Z;
  t_offset : Z;
  t_data : F
}.

(** The counter the plan shares is read through the store. *)
Record CheckpointSlotPlan := mkPlan {
  targets : list CheckpointSlotTarget;
  plan_shards : list F;
  plan_max_ciphertext_size : Z;
  prepared_reservation_failures : Z
}.

Fixpoint plan_targets (us : list Z) (acc : list CheckpointSlotTarget) (files : gmap Z F)
    : sio (list CheckpointSlotTarget * gmap Z F) :=
  match us with
  | [] => m_ret (acc, files)
  | u :: us =>
      let* s := get_state in
      let '(shard_idx, in_shard) := shard_of_unit (st_geometry s) u in
      match st_shards s !! shard_idx with
      | None => m_err CoreCorrupt
      | Some _ =>
          let* _ := prove_data_file shard_idx in
          let* shard := get_shard shard_idx in
          plan_targets us (acc ++ [mkTarget u (slot_offset (st_geometry s) in_shard) (data shard)])
            (match files !! shard_idx with
             | Some _ => files
             | None => <[shard_idx := data shard]> files
             end)
      end
  end.

Definition checkpoint_slot_plan (us : list Z) : sio CheckpointSlotPlan :=
  let* '(ts, files) := plan_targets us [] ∅ in
  let* s := get_state in
  m_ret (mkPlan ts ((BTreeMap.entries files).*2) (max_ciphertext_size (st_geometry s))
           (st_reservation_failures s)).

Definition validate_reservation_barriers (p : CheckpointSlotPlan) (s : SlotStore) : result CoreError unit :=
  let failures := st_reservation_failures s in
  if (failures =? U64_MAX) || negb (failures =? prepared_reservation_failures p)
  then Err CoreDurability else Ok tt.

Definition plan_write (p : CheckpointSlotPlan) (index : nat) (write_sequence : Z) (ciphertext : bytes) : cio unit :=
  if plan_max_ciphertext_size p <? blen ciphertext then m_err CoreCorrupt else
  let* target := m_lift (ok_or (targets p !! index) CoreCorrupt) in
  write_version (t_data target) (t_offset target) (t_unit target) write_sequence ciphertext.

Definition sync_shards (p : CheckpointSlotPlan) : cio unit :=
  m_each (λ file, core_io (f_sync_data file)) (plan_shards p).

End Store.
End Store.
