(* ===== verification/Recovery.v ===== *)
(** * Recovery: attach a volume
    (crates/maki-core/src/recovery.rs: [recover_with_replay] and what runs
    after the journal scan)

    Recovery opens the store, scans the journal, makes what the scan accepted
    durable, and (for an attach) moves every accepted record into its slot
    before the volume is exposed. *)

From S2P Require Import Prelude BTreeMap Codec Layout Geometry AbRecord Metadata Superblock JournalFormat Backing CrashBacking AbStore FixedCopy DurableProof JournalWriter JournalProof JournalDurability RecoveryScan Volumes JournalScan SlotStore.
Import Store.
Import (hints) Metadata.Catalog Metadata.Allocation Metadata.Checkpoint.

Local Open Scope Z_scope.

Section Recovery.
Context `{Crc32} `{Backing W F} `{Hasher HT} `{HashOrder}.
Abbreviation rio := (M W RecoveryError).
Abbreviation SlotStore := (Store.SlotStore (F := F)).

(** The lock's handle carries no data; a volume that was returned has it. *)
Record Recovered := mkRecovered {
  rc_superblock : Superblock;
  rc_store : SlotStore;
  rc_checkpoint_state : Checkpoint.CheckpointState;
  rc_durable_sequence : Z;
  rc_durable_proof : DurableProof;
  rc_next_segment_index : Z;
  rc_segments : list Journal.SegmentInfo;
  rc_replay : list JournalRecord
}.

(** A slot-store call of recovery: its error is converted, and the store of
    a failed recovery is dropped. *)
Definition with_store {A} (m : M (SlotStore * W) CoreError A) (s : SlotStore) : rio (A * SlotStore) := λ w,
  let '(r, (s', w')) := m (s, w) in
  (match r with Ok a => Ok (a, s') | Err e => Err (rec_of_core e) end, w').

Definition rec_core {A} (m : M W CoreError A) : rio A := m_map_err rec_of_core m.

Definition acquire_lock : rio unit :=
  m_map_err (λ e, match e with WouldBlock => RecAlreadyAttached | e => RecIo e end) (b_try_lock VOLUME_LOCK).

Definition load_superblock : rio Superblock :=
  let* envelope := rec_format load_volume_superblock in m_ret (superblock envelope).

Definition load_checkpoint_state : rio Checkpoint.CheckpointState :=
  let* loaded := rec_format (load (T := Checkpoint.CheckpointState) checkpoint_store) in
  m_lift (ok_or loaded RecCorrupt).

(** [ck_ab.store(..)?; backing.sync_dir(CHECKPOINT_DIR)?] *)
Definition store_checkpoint_state (state : Checkpoint.CheckpointState) : rio Checkpoint.CheckpointState :=
  let* stored := rec_format (store_record checkpoint_store state) in
  let* _ := rec_io (b_sync_dir CHECKPOINT_DIR) in
  m_ret stored.

(** ** Making the accepted journal durable *)

Definition apply_repair (repair : JournalRepair) : rio unit :=
  match repair with
  | Discard path =>
      let* _ := rec_io (b_remove path) in
      rec_io (b_sync_dir JOURNAL_DIR)
  | Truncate path len =>
      let* file := rec_io (b_open path false) in
      let* _ := rec_io (f_set_len file len) in
      rec_io (f_sync_data file)
  end.

Definition adopt_prefix (prefix : VerifiedPrefix) : rio unit :=
  let* file := rec_io (b_open (vp_path prefix) false) in
  let* _ := rec_io (f_set_len file (vp_len prefix)) in
  let* _ := rec_core (Journal.rewrite_verified_range (HT := HT) file 0 (vp_len prefix) (vp_fingerprint prefix)) in
  rec_io (f_sync_data file).

Definition adopt_mark (segments : list Journal.SegmentInfo) : rio unit :=
  match list.last segments with
  | None => m_ret tt
  | Some s =>
      let* _ := rec_io (b_sync_dir JOURNAL_DIR) in
      let mark := mkDurableMark (Journal.s_index s) (Journal.s_size s) in
      let* file := rec_io (b_open JOURNAL_DURABLE_MARK true) in
      let* _ := rec_io (f_write_at file 0 (DurableMark_encode mark)) in
      rec_io (f_sync_data file)
  end.

(** The proof of the adopted horizon: the last segment that ends there. *)
Definition adopt_proof (scan : JournalScan) (checkpoint_sequence : Z) (proof : DurableProof)
    : result RecoveryError DurableProof :=
  if durable_sequence proof <? js_durable_sequence scan then
    match List.find (λ s, (0 <? Journal.s_record_count s)
                          && (Journal.last_sequence s =? js_durable_sequence scan)) (rev (js_segments scan)) with
    | Some s => Ok (mkDurableProof (dp_generation proof) (dp_volume_uuid proof)
                      (js_durable_sequence scan) (Journal.s_index s) (Journal.s_size s))
    | None => if checkpoint_sequence <? js_durable_sequence scan then Err RecCorrupt else Ok proof
    end
  else Ok proof.

(** ** Replaying into the slots *)

Definition REPLAY_BATCH_BYTES : Z := 2 ^ 20.

(** The pairs of a [HashMap] collected from the records: the last one of a
    unit stays. *)
Definition latest_sequences (records : list JournalRecord) : gmap Z Z :=
  foldl (λ m r, <[unit_index r := sequence r]> m) ∅ records.

Definition latest_writes (allow_discard : bool) (records : list JournalRecord) : list JournalRecord :=
  List.filter (λ r, bool_decide (latest_sequences records !! unit_index r = Some (sequence r))
    && (negb allow_discard || negb (bool_decide (payload r = [])))) records.

(** A [BTreeSet] in ascending order. *)
Definition ascending (s : gset Z) : list Z := sorted_keys (gset_to_gmap tt s).

Definition apply_replay_batch (records : list JournalRecord) (allow_discard : bool)
    : M (SlotStore * W) CoreError unit :=
  if bool_decide (records = []) then m_ret tt else
  let writes := latest_writes allow_discard records in
  let* _ := m_each (λ r, write_slot (unit_index r) (sequence r) (payload r)) writes in
  let* s := get_state in
  let* _ := m_each sync_shard_data (ascending (shards_of_units s (unit_index <$> writes))) in
  let* _ := m_each (λ r, m_when (negb allow_discard || negb (bool_decide (payload r = [])))
                           (mark_allocated (unit_index r))) records in
  let* _ := m_when allow_discard
    (let* _ := m_each (λ r, set_discarded (unit_index r) (bool_decide (payload r = []))) records in
     persist_discards) in
  persist_allocations.

(** What the callback of the second scan carries: the store, the batch and
    its bytes. *)
Record Batch := mkBatch {
  ba_store : SlotStore;
  ba_records : list JournalRecord;
  ba_bytes : Z
}.

Definition apply_batch (allow_discard : bool) (b : Batch) : rio Batch :=
  let* '(_, s) := with_store (apply_replay_batch (ba_records b) allow_discard) (ba_store b) in
  m_ret (mkBatch s [] 0).

Definition accept_record (allow_discard : bool) (record : JournalRecord) (b : Batch) : rio Batch :=
  let record_bytes := saturating_add RECORD_HEADER_SIZE (blen (payload record)) in
  let* b := if negb (bool_decide (ba_records b = []))
               && (REPLAY_BATCH_BYTES <? saturating_add (ba_bytes b) record_bytes)
            then apply_batch allow_discard b else m_ret b in
  let b := mkBatch (ba_store b) (ba_records b ++ [record]) (saturating_add (ba_bytes b) record_bytes) in
  if REPLAY_BATCH_BYTES <=? ba_bytes b then apply_batch allow_discard b else m_ret b.

Definition is_clean (o : ScanOutcome) : bool := match o with Clean => true | _ => false end.

(** One segment of the second scan. *)
Definition replay_segment (sb : Superblock) (checkpoint_sequence : Z) (allow_discard : bool)
    (segment : Journal.SegmentInfo) (b : Batch) : rio Batch :=
  let* file := rec_io (b_open (journal_segment (Journal.s_index segment)) false) in
  let* header := rec_io (f_read_at file 0 SEGMENT_HEADER_SIZE) in
  let* decoded := m_lift (map_err (λ _, RecCorrupt) (SegmentHeader_decode header)) in
  if negb (segment_index decoded =? Journal.s_index segment)
     || negb (base_sequence decoded =? Journal.s_base_sequence segment)
     || negb (bytes_eqb (JournalFormat.volume_uuid decoded) (Superblock.volume_uuid sb))
  then m_err RecCorrupt else
  let* body_len := m_lift (if Journal.s_size segment <? SEGMENT_HEADER_SIZE then Err RecCorrupt
                           else Ok (Journal.s_size segment - SEGMENT_HEADER_SIZE)) in
  let* '(replayed, b) :=
    scan (HT := HT) (accept_record allow_discard)
      (mkSegmentScanner file header body_len (Journal.s_base_sequence segment) body_len None
         (Superblock.geometry sb) checkpoint_sequence) b in
  if negb (b_record_count replayed =? Journal.s_record_count segment)
     || negb (b_valid_body_bytes replayed =? body_len)
     || negb (is_clean (b_outcome replayed))
  then m_err RecCorrupt else m_ret b.

Fixpoint replay_segments (sb : Superblock) (checkpoint_sequence : Z) (allow_discard : bool)
    (segments : list Journal.SegmentInfo) (b : Batch) : rio Batch :=
  match segments with
  | [] => m_ret b
  | segment :: segments =>
      let* b := replay_segment sb checkpoint_sequence allow_discard segment b in
      replay_segments sb checkpoint_sequence allow_discard segments b
  end.

Definition checkpoint_validated_replay (sb : Superblock) (store : SlotStore)
    (checkpoint_state : Checkpoint.CheckpointState) (scan : JournalScan)
    : rio (Checkpoint.CheckpointState * SlotStore) :=
  let* envelope := rec_format load_volume_superblock in
  let allow_discard := metadata_version envelope =? SUPERBLOCK_VERSION_V3 in
  let* b := replay_segments sb (Checkpoint.checkpoint_sequence checkpoint_state) allow_discard
              (js_segments scan) (mkBatch store [] 0) in
  let* b := apply_batch allow_discard b in
  let* new_state := store_checkpoint_state
    (Checkpoint.mkCheckpointState (Checkpoint.generation checkpoint_state) (js_durable_sequence scan)) in
  let* _ := m_each (λ s, rec_io (b_remove (journal_segment (Journal.s_index s)))) (js_segments scan) in
  let* _ := rec_io (b_sync_dir JOURNAL_DIR) in
  m_ret (new_state, ba_store b).

(** ** The whole of it *)

Definition recover_with_replay (segment_size : Z) (replay : ReplayRecords) (checkpoint_replay : bool)
    : rio Recovered :=
  let* _ := acquire_lock in
  let* envelope := rec_format load_volume_superblock in
  if negb ((metadata_version envelope =? SUPERBLOCK_VERSION_V2) || (metadata_version envelope =? SUPERBLOCK_VERSION_V3))
  then m_err (RecFormat Unsupported) else
  let sb := superblock envelope in
  let* proof := rec_format (dp_load (Superblock.volume_uuid sb)) in
  let* store := rec_core (Store.open (Superblock.geometry sb)) in
  let* checkpoint_state := load_checkpoint_state in
  let checkpoint_sequence := Checkpoint.checkpoint_sequence checkpoint_state in
  let* scan := scan_journal_with_proof (HT := HT) sb checkpoint_sequence segment_size (Some proof) replay in
  let* _ := store_checkpoint_state checkpoint_state in
  let* _ := m_each apply_repair (js_repairs scan) in
  let* _ := m_each adopt_prefix (js_verified_prefixes scan) in
  let* _ := adopt_mark (js_segments scan) in
  let* proof := m_lift (adopt_proof scan checkpoint_sequence proof) in
  let* proof := rec_format (dp_advance proof) in
  let* '(checkpoint_state, store, segments) :=
    (if checkpoint_replay && (checkpoint_sequence <? js_durable_sequence scan)
     then let* '(state, store) := checkpoint_validated_replay sb store checkpoint_state scan in
          m_ret (state, store, [])
     else m_ret (checkpoint_state, store, js_segments scan)) in
  let* '(_, store) := with_store persist_discards store in
  m_ret (mkRecovered sb store checkpoint_state (js_durable_sequence scan) proof
           (js_next_segment_index scan) segments (js_replay scan)).

Definition recover (segment_size : Z) : rio Recovered := recover_with_replay segment_size (All []) false.

Definition recover_bounded (segment_size : Z) : rio Recovered :=
  recover_with_replay segment_size DiscardRecords true.
End Recovery.
