(* ===== verification/StoreData.v ===== *)
(** * StoreData: what happens to the shard data files

    The names of a shard's files, and the relation [data_evolves] between two
    worlds: outside the slots of a set of units every byte a reader sees,
    every byte waiting for the next sync and every pinned range stays, files
    grow by zeros only, and open files stay open.  Each file operation the
    slot store performs is related this way. *)

From S2P Require Import Prelude Codec Layout Geometry AbRecord Metadata Backing AbStore SlotStore.
Import Store.
Import (hints) Metadata.Catalog Metadata.Allocation.

Local Open Scope Z_scope.

(** ** Paths *)

Definition shard_file (i : Z) (ext : string) : string := ("shard-" ++ fmt_hex_pad 8 i ++ ext)%string.

Definition ext_ok (ext : string) : Prop := contains_char slash ext = false ∧ forbidden ext = false.

Lemma shard_file_contains c i ext :
  non_hex c → contains_char c "shard-" = false → contains_char c ext = false →
  contains_char c (shard_file i ext) = false.
Proof.
  intros Hc Hp He. unfold shard_file. rewrite !contains_char_app, Hp, He, (fmt_hex_contains c) by done. done.
Qed.

Lemma shard_file_valid i ext :
  ext_ok ext → validate (DATA_DIR ++ String slash (shard_file i ext)) false = Ok tt.
Proof.
  intros [Hs Hf]. unfold forbidden in Hf.
  apply orb_false_iff in Hf as [[H1 H2]%orb_false_iff H3].
  apply validate_join; [done|apply shard_file_contains; [non_hex_tac|done|done]| |].
  - unfold forbidden. by rewrite !shard_file_contains by first [assumption|reflexivity|non_hex_tac].
  - unfold shard_file. by rewrite append_cons.
Qed.

Lemma shard_data_eq i : shard_data i = (DATA_DIR ++ String slash (shard_file i ".dat"))%string.
Proof. reflexivity. Qed.

Lemma shard_data_valid i : validate (shard_data i) false = Ok tt.
Proof. rewrite shard_data_eq. by apply shard_file_valid. Qed.

Lemma shard_file_direct i ext :
  ext_ok ext → direct DATA_DIR (DATA_DIR ++ String slash (shard_file i ext)) = true.
Proof.
  intros He. pose proof (direct_parent _ (shard_file_valid i ext He)) as Hd.
  by rewrite parent_join in Hd by (apply shard_file_contains; [non_hex_tac|done|apply He]).
Qed.

Lemma shard_data_direct i : direct DATA_DIR (shard_data i) = true.
Proof. by apply (shard_file_direct i ".dat"). Qed.

Lemma shard_data_inj i k : u64_ok i → u64_ok k → shard_data i = shard_data k → i = k.
Proof.
  intros Hi Hk He. pose proof (proj2 (parse_shard_data_spec (shard_file i ".dat") i Hi) eq_refl) as H1.
  pose proof (proj2 (parse_shard_data_spec (shard_file i ".dat") k Hk) He) as H2. congruence.
Qed.

Fixpoint last_char (s : string) (d : ascii) : ascii :=
  match s with EmptyString => d | String c s' => last_char s' c end.

Lemma last_char_app s t d : last_char (s ++ t) d = last_char t (last_char s d).
Proof. revert d. induction s as [|c s IH]; intros d; [done|]. apply IH. Qed.

(** The maps of a shard lie beside its data file. *)
Lemma shard_data_not i k a b g :
  last_char a "." ≠ "t"%char → last_char b "." ≠ "t"%char →
  ¬ is_side (map_store (DATA_DIR ++ String slash (shard_file k (String "." a)))
                       (DATA_DIR ++ String slash (shard_file k (String "." b))) g) (shard_data i).
Proof.
  intros Ha Hb. rewrite shard_data_eq. unfold shard_file, map_store.
  assert (∀ x, last_char x "." ≠ "t"%char →
    (DATA_DIR ++ String slash ("shard-" ++ fmt_hex_pad 8 i ++ ".dat"))%string ≠
    (DATA_DIR ++ String slash ("shard-" ++ fmt_hex_pad 8 k ++ String "." x))%string) as Hne.
  { intros x Hx He. apply (f_equal (λ s, last_char s "0")) in He. revert He.
    change (String slash ?y) with ("/" ++ y)%string. rewrite !last_char_app.
    change (last_char ".dat" _) with "t"%char. done. }
  intros [He|He]; simpl in He; by apply Hne in He.
Qed.

(** The files that are not the store's. *)
Definition foreign (q : string) : Prop :=
  direct DATA_DIR q = false ∧ q ≠ SHARD_CATALOG_A ∧ q ≠ SHARD_CATALOG_B.

(** Neither a map nor the catalog. *)
Definition unmapped (q : string) : Prop := (∃ i, q = shard_data i) ∨ foreign q.

Lemma unmapped_data i : unmapped (shard_data i).
Proof. left. by eexists. Qed.

Lemma foreign_file i ext q :
  ext_ok ext → foreign q → q ≠ (DATA_DIR ++ String slash (shard_file i ext))%string.
Proof. intros He [Hd _] ->. by rewrite shard_file_direct in Hd. Qed.

Lemma foreign_data i q : foreign q → q ≠ shard_data i.
Proof. by apply (foreign_file i ".dat"). Qed.

Lemma alloc_sides k g q : unmapped q → ¬ is_side (alloc_store k g) q.
Proof.
  intros [[i ->]|Hf]; [by apply (shard_data_not i k "alloc.a" "alloc.b")|]. intros [He|He].
  - by apply (foreign_file k ".alloc.a" q) in He.
  - by apply (foreign_file k ".alloc.b" q) in He.
Qed.

Lemma discard_sides k g q : unmapped q → ¬ is_side (discard_store k g) q.
Proof.
  intros [[i ->]|Hf]; [by apply (shard_data_not i k "discard.a" "discard.b")|]. intros [He|He].
  - by apply (foreign_file k ".discard.a" q) in He.
  - by apply (foreign_file k ".discard.b" q) in He.
Qed.

Lemma catalog_sides g q : unmapped q → ¬ is_side (catalog_store_of g) q.
Proof.
  intros [[i ->]|(_ & Ha & Hb)]; [|by intros [->| ->]].
  unfold catalog_store_of, is_side. rewrite shard_data_eq. by intros [He|He].
Qed.

Section Sides.
Context `{Crc32}.

Lemma map_store_ok k a b g :
  ext_ok (String "." a) → ext_ok (String "." b) → last_char a "." ≠ last_char b "." →
  sides_ok (T := Allocation.AllocationMap)
    (map_store (DATA_DIR ++ String slash (shard_file k (String "." a)))
               (DATA_DIR ++ String slash (shard_file k (String "." b))) g).
Proof.
  intros Ha Hb Hne. split; [by apply shard_file_valid|by apply shard_file_valid| |done].
  simpl. unfold shard_file. intros He. apply (f_equal (λ s, last_char s "0")) in He. revert He.
  change (String slash ?y) with ("/" ++ y)%string. rewrite !last_char_app. done.
Qed.

Lemma alloc_store_ok k g : sides_ok (T := Allocation.AllocationMap) (alloc_store k g).
Proof. by apply (map_store_ok k "alloc.a" "alloc.b"). Qed.

Lemma discard_store_ok k g : sides_ok (T := Allocation.AllocationMap) (discard_store k g).
Proof. by apply (map_store_ok k "discard.a" "discard.b"). Qed.

Lemma catalog_store_of_ok g : sides_ok (T := Catalog.ShardCatalog) (catalog_store_of g).
Proof. by split. Qed.
End Sides.

(** ** Evolution of the data files *)

Section Evolve.
Context `{Crc32} `{BackingLaws W F} (g : Geometry) (Hg : geometry_wf g).
Implicit Types (U : Z → Prop) (idx : Z) (w : W).

(** Byte [i] of shard [idx] belongs to the slot of a unit of [U]. *)
Definition covered U idx (i : nat) : Prop :=
  ∃ u k, U u ∧ shard_of_unit g u = (idx, k) ∧
         slot_offset g k ≤ Z.of_nat i < slot_offset g k + slot_size g.

(** A byte the relation speaks about. *)
Definition free_byte U idx (i : nat) : Prop := Z.of_nat i < physical_size g ∧ ¬ covered U idx i.

Definition kept U idx (c c' : bytes) : Prop :=
  ∀ i b, free_byte U idx i → c !! i = Some b → c' !! i = Some b.

Definition grown U idx (c c' : bytes) : Prop :=
  ∀ i b, free_byte U idx i → c !! i = None → c' !! i = Some b → b = Init.Byte.x00.

(** A range that lies in free bytes. *)
Definition free_range U idx (off : nat) (bs : bytes) : Prop :=
  ∀ i, (i < length bs)%nat → free_byte U idx (off + i).

Definition content w idx : bytes := default [] (vis w (shard_data idx)).

Record path_evolves U idx (ok : bool) w w' : Prop := {
  pe_handle f : handle w f (shard_data idx) → handle w' f (shard_data idx);
  pe_solid : solid w (shard_data idx) [] → solid w' (shard_data idx) [];
  pe_some : is_Some (vis w (shard_data idx)) → is_Some (vis w' (shard_data idx));
  pe_kept : kept U idx (content w idx) (content w' idx);
  pe_grown : grown U idx (content w idx) (content w' idx);
  pe_length : Z.min (blen (content w idx)) (physical_size g) ≤ blen (content w' idx);
  pe_dirty d d' : ok = true → dirty w (shard_data idx) = Some d → dirty w' (shard_data idx) = Some d' →
    kept U idx d d';
  pe_pinned off bs : bs ≠ [] → free_range U idx off bs →
    pinned w (shard_data idx) off bs → pinned w' (shard_data idx) off bs
}.

Definition data_evolves U (ok : bool) w w' : Prop :=
  keeps foreign w w' ∧ ∀ idx, 0 ≤ idx < num_shards g → path_evolves U idx ok w w'.

Lemma data_evolves_inv U ok w w' : data_evolves U ok w w' → inv w'.
Proof. intros [Hk _]. by eapply keeps_inv. Qed.

Lemma kept_refl U idx c : kept U idx c c.
Proof. by intros i b _. Qed.

Lemma path_evolves_keeps U idx ok (P : string → Prop) w w' :
  keeps P w w' → P (shard_data idx) → path_evolves U idx ok w w'.
Proof.
  intros Hk HP. assert (content w' idx = content w idx) as Hc by (unfold content; by rewrite (keeps_vis _ _ _ _ Hk)).
  split.
  - intros f. by apply (keeps_handle _ _ _ _ _ Hk).
  - by apply (keeps_solid _ _ _ _ _ Hk).
  - by rewrite (keeps_vis _ _ _ _ Hk).
  - rewrite Hc. apply kept_refl.
  - rewrite Hc. intros i b _. congruence.
  - rewrite Hc. lia.
  - intros d d' _ Hd. rewrite (keeps_dirty _ _ _ _ Hk HP), Hd. intros [= <-]. apply kept_refl.
  - intros off bs _ _. by apply (keeps_pinned _ _ _ _ _ _ Hk).
Qed.

Lemma data_evolves_keeps U ok (P : string → Prop) w w' :
  keeps P w w' → (∀ idx, P (shard_data idx)) → (∀ q, foreign q → P q) → data_evolves U ok w w'.
Proof.
  intros Hk HP HF. split; [by eapply keeps_weaken; [exact HF|]|]. intros idx _. by eapply path_evolves_keeps.
Qed.

Lemma data_evolves_refl U ok w : inv w → data_evolves U ok w w.
Proof. intros Hi. eapply (data_evolves_keeps U ok (λ _, True)); [by apply keeps_refl|done..]. Qed.

Lemma shard_u64 idx : 0 ≤ idx < num_shards g → u64_ok idx.
Proof.
  intros Hi. pose proof (gwf_num_shards g Hg) as Hn. change MAX_SHARDS with 16777216 in Hn.
  unfold u64_ok, U64_MAX. lia.
Qed.

(** An operation on one data file. *)
Lemma data_evolves_file U ok k w w' :
  0 ≤ k < num_shards g → keeps (λ q, q ≠ shard_data k) w w' → path_evolves U k ok w w' →
  data_evolves U ok w w'.
Proof.
  intros Hk Hke Hp. split; [eapply keeps_weaken; [|exact Hke]; intros q; apply foreign_data|]. intros idx Hi.
  destruct (decide (idx = k)) as [->|Hne]; [done|].
  eapply path_evolves_keeps; [exact Hke|]. intros He. apply Hne. by apply shard_data_inj; [apply shard_u64..|].
Qed.

Lemma path_evolves_trans U idx ok1 ok2 w w1 w2 :
  path_evolves U idx ok1 w w1 → path_evolves U idx ok2 w1 w2 → path_evolves U idx (ok1 && ok2) w w2.
Proof.
  intros [E1 E2 E3 E4 E5 E6 E7 E8] [K1 K2 K3 K4 K5 K6 K7 K8]. split; auto.
  - intros i b Hf Hb. apply K4; [done|]. by apply E4.
  - intros i b Hf Hn Hb. destruct (content w1 idx !! i) as [b1|] eqn:Hb1.
    + rewrite (K4 _ _ Hf Hb1) in Hb. injection Hb as <-. by eapply E5.
    + by eapply K5.
  - lia.
  - intros d d' [-> ->]%andb_true_iff Hd Hd'.
    destruct (dirty w1 (shard_data idx)) as [d1|] eqn:Hd1.
    + intros i b Hf Hb. eapply (K7 d1 d'); [done|done|done|done|]. by eapply (E7 d d1).
    + exfalso. assert (is_Some (vis w (shard_data idx))) as Hv by (apply law_dirty_vis; by eexists).
      apply E3, law_dirty_vis in Hv as [? ?]. congruence.
Qed.

Lemma data_evolves_trans U ok1 ok2 w w1 w2 :
  data_evolves U ok1 w w1 → data_evolves U ok2 w1 w2 → data_evolves U (ok1 && ok2) w w2.
Proof.
  intros [K1 E1] [K2 E2]. split; [by eapply keeps_trans|]. intros idx Hidx.
  by eapply path_evolves_trans; [apply E1|apply E2].
Qed.

Lemma path_evolves_weaken U U' ok ok' idx w w' :
  (∀ u, U u → U' u) → (ok' = true → ok = true) → path_evolves U idx ok w w' → path_evolves U' idx ok' w w'.
Proof.
  intros HU Hok [E1 E2 E3 E4 E5 E6 E7 E8].
  assert (∀ i, free_byte U' idx i → free_byte U idx i) as Hf.
  { intros i [Hp Hn]. split; [done|]. intros (u & k & Hu & ?). apply Hn. exists u, k. auto. }
  split; auto.
  - intros i b Hi. apply E4. auto.
  - intros i b Hi. apply E5. auto.
  - intros d d' Ho Hd Hd' i b Hi. eapply E7; eauto.
  - intros off bs Hne Hr. apply E8; [done|]. intros i Hi. apply Hf. by apply Hr.
Qed.

Lemma data_evolves_weaken U U' ok ok' w w' :
  (∀ u, U u → U' u) → (ok' = true → ok = true) → data_evolves U ok w w' → data_evolves U' ok' w w'.
Proof. intros HU Hok [Hi Hp]. split; [done|]. intros idx Hidx. eapply path_evolves_weaken; eauto. Qed.

(** ** The file operations *)

Lemma content_some w idx c : vis w (shard_data idx) = Some c → content w idx = c.
Proof. intros Hv. unfold content. by rewrite Hv. Qed.

Lemma handle_content w f idx :
  handle w f (shard_data idx) →
  ∃ c d, vis w (shard_data idx) = Some c ∧ dirty w (shard_data idx) = Some d ∧ content w idx = c.
Proof.
  intros [c Hc]%law_handle. destruct (proj1 (law_dirty_vis w (shard_data idx)) ltac:(by eexists)) as [d Hd].
  exists c, d. by rewrite (content_some _ _ c).
Qed.

Lemma evolve_sync U k w f r w' :
  inv w → 0 ≤ k < num_shards g → handle w f (shard_data k) → f_sync_data f w = (r, w') →
  data_evolves U (is_ok r) w w' ∧ content w' k = content w k.
Proof.
  intros Hi Hk Hh Hr. destruct (handle_content _ _ _ Hh) as (c & d & Hc & Hd & Hcc).
  destruct (law_sync_data _ _ _ _ _ _ Hi Hh Hc Hr) as (Hke & Hh' & Hc' & _).
  rewrite Hcc, (content_some _ _ _ Hc'). split; [|done].
  eapply data_evolves_file; [done|done|].
  split; rewrite ?Hcc, ?(content_some _ _ _ Hc').
  - intros f' Hf'. by apply (law_handle_twin w w' f).
  - intros Hs. by eapply law_solid_sync.
  - by rewrite Hc'.
  - apply kept_refl.
  - intros i b _. congruence.
  - lia.
  - intros d1 d' Hok Hd1 Hd'. assert (r = Ok tt) as -> by (by destruct r as [[]|]).
    rewrite (law_sync_dirty _ _ _ _ _ Hi Hh Hr eq_refl) in Hd'. assert (d1 = d') as -> by congruence. apply kept_refl.
  - intros off bs _ _ Hp. by eapply law_pinned_sync.
Qed.

Lemma prefix_kept U idx (c c' : bytes) :
  take (Z.to_nat (physical_size g)) c `prefix_of` c' → kept U idx c c'.
Proof.
  intros Hp i b [Hi _] Hb. eapply prefix_lookup_Some; [|exact Hp]. rewrite lookup_take_lt; [done|lia].
Qed.

Lemma physical_nonneg : 0 ≤ physical_size g ≤ U64_MAX.
Proof.
  unfold physical_size. pose proof (gwf_units_per_shard g Hg).
  pose proof (slot_offset_bounds g 0 Hg ltac:(lia)) as (_ & ? & ?). pose proof (gwf_slot g Hg).
  pose proof (gwf_ct g Hg). pose proof (gwf_unit g Hg). pose proof (gwf_block g Hg).
  unfold SLOT_HEADER_SIZE in *. nia.
Qed.

Lemma evolve_set_len U k w f r w' :
  inv w → 0 ≤ k < num_shards g → handle w f (shard_data k) → f_set_len f (physical_size g) w = (r, w') →
  data_evolves U (is_ok r) w w' ∧ (r = Ok tt → physical_size g ≤ blen (content w' k)).
Proof.
  intros Hi Hk Hh Hr. destruct (handle_content _ _ _ Hh) as (c & d & Hc & Hd & Hcc).
  pose proof physical_nonneg as Hph.
  destruct (law_set_len _ _ _ _ _ _ _ _ Hi Hh Hc Hd Hph Hr) as (Hke & Hh' & Hok & _).
  destruct (law_torn_set_len _ _ _ _ _ _ _ _ Hi Hh Hc Hd Hr) as (c' & d' & Hc' & Hd' & _ & Hpre).
  destruct (law_set_len_zeros _ _ _ _ _ _ _ Hi Hh Hc Hr) as (c'' & Hc'' & Hz).
  rewrite Hc' in Hc''. injection Hc'' as <-.
  assert (∀ x : bytes, blen (take (Z.to_nat (physical_size g)) x) ≤ physical_size g) as Htk
    by (intros x; unfold blen; rewrite length_take; lia).
  assert (take (Z.to_nat (physical_size g)) c `prefix_of` c') as Hpc
    by (apply (Hpre _ (Htk c)), prefix_take).
  split; cycle 1.
  { intros ->. destruct (Hok eq_refl) as [Hv _]. rewrite (content_some _ _ _ Hv). unfold blen. rewrite length_resize. lia. }
  eapply data_evolves_file; [done|done|].
  split; rewrite ?Hcc, ?(content_some _ _ _ Hc').
  - intros f' Hf'. by apply (law_handle_twin w w' f).
  - intros Hs. eapply law_solid_set_len; [done|done|exact Hs| |done]. unfold blen. simpl. lia.
  - by rewrite Hc'.
  - by apply prefix_kept.
  - intros i b _ Hn Hb. destruct (Hz _ _ Hb); [congruence|done].
  - apply prefix_length in Hpc. rewrite length_take in Hpc. unfold blen. lia.
  - intros d1 d2 _ Hd1 Hd2. assert (d1 = d) as -> by congruence. assert (d2 = d') as -> by congruence.
    apply prefix_kept, (Hpre _ (Htk d)), prefix_take.
  - intros off bs Hne Hfr Hp. eapply law_pinned_set_len; [done|done|exact Hp| |done].
    destruct (decide (length bs = 0%nat)) as [Hz0|Hz0]; [by apply nil_length_inv in Hz0|].
    destruct (Hfr (length bs - 1)%nat ltac:(lia)) as [Hlt _]. unfold blen. lia.
Qed.

(** The range of [n] bytes at [o] lies in the slots of [U]. *)
Definition covers U k (o n : Z) : Prop := ∀ i, o ≤ Z.of_nat i < o + n → covered U k i.

Lemma covers_slot U k u i o n :
  U u → shard_of_unit g u = (k, i) → slot_offset g i ≤ o → o + n ≤ slot_offset g i + slot_size g → covers U k o n.
Proof. intros Hu Hs Hlo Hhi j Hj. exists u, i. split; [done|]. split; [done|]. lia. Qed.

(** A free range lies apart from it. *)
Lemma covers_apart U k off bs o n :
  covers U k o n → 0 ≤ o → 0 < n → bs ≠ [] → free_range U k off bs → apart off bs o n.
Proof.
  intros Hc Ho Hn Hne Hfr. unfold apart.
  destruct (decide (o + n ≤ Z.of_nat off)) as [|Hnl]; [by left|].
  destruct (decide (Z.of_nat off + blen bs ≤ o)) as [|Hnr]; [by right|]. exfalso.
  assert (0 < length bs)%nat as Hl by (destruct bs; [done|simpl; lia]). unfold blen in *.
  assert (∀ j, (j < length bs)%nat → o ≤ Z.of_nat (off + j) < o + n → False) as Hin.
  { intros j Hj Hr. destruct (Hfr j Hj) as [_ Hnc]. by apply Hnc, Hc. }
  destruct (decide (Z.of_nat off < o)).
  - apply (Hin (Z.to_nat o - off)%nat); lia.
  - apply (Hin 0%nat); lia.
Qed.

(** Changing only bytes of the range. *)
Lemma covers_kept U k o n (c c' : bytes) :
  covers U k o n → 0 ≤ o → 0 < n →
  (∀ off bs, apart off bs o n → holds_at off bs c → holds_at off bs c') → kept U k c c'.
Proof.
  intros Hcov Ho Hn Hx j b Hf Hb. assert (holds_at j [b] c') as Hj.
  { apply Hx.
    - eapply covers_apart; [done|done|done|done|]. intros [|m] Hm; [|simpl in Hm; lia]. by rewrite Nat.add_0_r.
    - intros [|m] b' Hb'; [|done]. injection Hb' as <-. by rewrite Nat.add_0_r. }
  specialize (Hj 0%nat b eq_refl). by rewrite Nat.add_0_r in Hj.
Qed.

(** A write of [data] at [o] inside the slot of a unit of [U], in a file of
    full size. *)
Lemma evolve_write U k u i w f o data r w' :
  inv w → 0 ≤ k < num_shards g → handle w f (shard_data k) → U u → shard_of_unit g u = (k, i) →
  0 ≤ slot_offset g i → slot_offset g i ≤ o → o + blen data ≤ slot_offset g i + slot_size g →
  o + blen data ≤ U64_MAX → physical_size g ≤ blen (content w k) → f_write_at f o data w = (r, w') →
  data_evolves U (is_ok r) w w' ∧ (r = Ok tt →
    holds_at (Z.to_nat o) data (content w' k) ∧
    ∃ d, dirty w' (shard_data k) = Some d ∧ holds_at (Z.to_nat o) data d) ∧
  (∀ off bs, apart off bs o (blen data) →
    (holds_at off bs (content w k) → holds_at off bs (content w' k)) ∧
    (∀ d, dirty w (shard_data k) = Some d → holds_at off bs d →
      ∃ d', dirty w' (shard_data k) = Some d' ∧ holds_at off bs d')).
Proof.
  intros Hi Hk Hh Hu Hs Hoff Hlo Hhi Hmax Hlen Hr.
  destruct (decide (data = [])) as [->|Hne].
  { pose proof (law_write_nil _ _ _ _ _ _ Hi Hh Hr) as Hke.
    assert (content w' k = content w k) as -> by (unfold content; by rewrite (keeps_vis _ _ _ _ Hke)).
    split; [by eapply data_evolves_keeps|]. rewrite (keeps_dirty _ _ _ _ Hke I).
    destruct (handle_content _ _ _ Hh) as (c & d & _ & Hd & _).
    split; [intros _; split; [done|]; by exists d|]. intros off bs _. split; [done|]. eauto. }
  destruct (handle_content _ _ _ Hh) as (c & d & Hc & Hd & Hcc).
  assert (0 ≤ o) as Ho by lia.
  destruct (law_write _ _ _ _ _ _ _ _ _ Hi Hh Hc Hd Ho Hmax Hne Hr) as (Hke & Hh' & Hok & _).
  destruct (law_outside_write _ _ _ _ _ _ _ _ _ Hi Hh Hc Hd Ho Hr) as (c' & d' & Hc' & Hd' & Hg' & Hout).
  rewrite Hcc, (content_some _ _ _ Hc') in *.
  assert (covers U k o (blen data)) as Hcov by (by eapply covers_slot).
  assert (0 < blen data) as Hpos by (destruct data; [done|]; unfold blen; simpl; lia).
  split; [|split].
  - eapply data_evolves_file; [done|done|].
    split; rewrite ?Hcc, ?(content_some _ _ _ Hc').
    + intros f' Hf'. by apply (law_handle_twin w w' f).
    + intros Hso. eapply law_solid_write; [done|done|exact Hso| |done]. unfold blen. simpl. lia.
    + by rewrite Hc'.
    + eapply covers_kept; [done..|]. intros off bs Ha. by apply Hout.
    + intros j b [Hj _] Hn _. apply lookup_ge_None in Hn. unfold blen in Hlen. lia.
    + lia.
    + intros d1 d2 _ Hd1 Hd2. assert (d1 = d) as -> by congruence. assert (d2 = d') as -> by congruence.
      eapply covers_kept; [done..|]. intros off bs Ha. by apply Hout.
    + intros off bs Hbs Hfr Hp. eapply (law_pinned_write w f _ off bs o data); [done|done|exact Hp|done| |done].
      by eapply covers_apart.
  - intros ->. destruct (Hok eq_refl) as [Hv Hdv]. rewrite Hc' in Hv. injection Hv as ->.
    split; [apply write_range_holds|]. eexists. split; [exact Hdv|apply write_range_holds].
  - intros off bs Ha. split; [by apply Hout|]. intros d0 Hd0 Hh0. assert (d0 = d) as -> by congruence.
    exists d'. split; [done|]. by apply (Hout off bs Ha).
Qed.

Lemma evolve_open U k w create r w' :
  inv w → 0 ≤ k < num_shards g → b_open (shard_data k) create w = (r, w') →
  data_evolves U (is_ok r) w w' ∧ content w' k = content w k ∧
  (∀ f, r = Ok f → handle w' f (shard_data k)).
Proof.
  intros Hi Hk Hr. pose proof (shard_data_valid k) as Hv.
  destruct (law_open _ _ _ _ _ Hi Hv Hr) as (Hke & Hok & _).
  assert (∀ f, r = Ok f → handle w' f (shard_data k)) as Hh by (intros f Hf; by apply (Hok f Hf)).
  destruct (vis w (shard_data k)) as [c|] eqn:Hc.
  { split; [eapply data_evolves_keeps; [exact Hke|..]; intros; right; left; by eexists|]. split; [|done].
    unfold content. rewrite (keeps_vis _ _ _ _ Hke); [done|]. right. left. by eexists. }
  pose proof (law_open_new _ _ _ _ _ Hi Hv Hr Hc) as Hnew.
  assert (content w k = [] ∧ content w' k = []) as [Hc0 Hc0'].
  { unfold content. rewrite Hc. split; [done|]. destruct (vis w' (shard_data k)) as [c'|]; [|done].
    by apply Hnew. }
  rewrite Hc0, Hc0'. split; [|done].
  eapply data_evolves_file; [done|eapply keeps_weaken; [|exact Hke]; by left|].
  split; rewrite ?Hc0, ?Hc0'.
  - intros f [c Hcs]%law_handle. congruence.
  - intros (c & d & Hcs & _)%law_solid. congruence.
  - rewrite Hc. by intros [? ?].
  - done.
  - intros i b _ _ Hb. done.
  - unfold blen. simpl. lia.
  - intros d d' _ Hd. assert (is_Some (vis w (shard_data k))) as [? ?] by (apply law_dirty_vis; by eexists).
    congruence.
  - intros off bs _ _ [c Hcs]%law_pinned_vis. congruence.
Qed.

Lemma evolve_punch U ok k w f o n r w' :
  inv w → 0 ≤ k < num_shards g → handle w f (shard_data k) → covers U k o n → 0 ≤ o → 0 < n →
  f_punch_hole f o n w = (r, w') → data_evolves U ok w w'.
Proof.
  intros Hi Hk Hh Hcov Ho Hn Hr. destruct (handle_content _ _ _ Hh) as (c & d & Hc & Hd & Hcc).
  destruct (law_punch _ _ _ _ _ _ _ _ _ Hi Hh Hc Hd Ho (Z.lt_le_incl _ _ Hn) Hr)
    as (Hke & Hh' & c' & d' & Hc' & Hd' & Hg' & Hout).
  eapply data_evolves_file; [done|done|].
  split; rewrite ?Hcc, ?(content_some _ _ _ Hc').
  - intros f' Hf'. by apply (law_handle_twin w w' f).
  - intros Hs. eapply law_solid_punch; [done|done|exact Hs|exact Hr].
  - by rewrite Hc'.
  - eapply covers_kept; [done..|]. intros off bs Ha. by apply Hout.
  - intros j b _ Hnone Hb. apply lookup_ge_None in Hnone. apply lookup_lt_Some in Hb. unfold blen in Hg'. lia.
  - lia.
  - intros d1 d2 _ Hd1 Hd2. assert (d1 = d) as -> by congruence. assert (d2 = d') as -> by congruence.
    eapply covers_kept; [done..|]. intros off bs Ha. by apply Hout.
  - intros off bs Hbs Hfr Hp. eapply (law_pinned_punch w f _ off bs o n); [done|done|exact Hp|done|lia| |done].
    by eapply covers_apart.
Qed.

Lemma evolve_len U ok k w f r w' :
  inv w → handle w f (shard_data k) → f_len f w = (r, w') →
  data_evolves U ok w w' ∧ content w' k = content w k ∧ (∀ n, r = Ok n → n = blen (content w k)).
Proof.
  intros Hi Hh Hr. destruct (handle_content _ _ _ Hh) as (c & d & Hc & Hd & Hcc).
  destruct (law_len _ _ _ _ _ _ Hi Hh Hc Hr) as (Hke & Hn & _). rewrite Hcc.
  split; [by eapply data_evolves_keeps|]. split; [|done]. unfold content. by rewrite (keeps_vis _ _ _ _ Hke), Hc.
Qed.
End Evolve.
