(* ===== verification/Adopt.v ===== *)
(** * Adopt: recovery makes the accepted journal durable

    After a scan, recovery applies the scan's repairs, rewrites and syncs
    every accepted prefix, syncs the directory and publishes the adopted
    horizon.  When that succeeds, every accepted segment is exactly its
    accepted records, durably, and nothing outside the journal was touched. *)

From S2P Require Import Prelude BTreeMap Codec Layout Geometry AbRecord Metadata Superblock JournalFormat Backing AbStore FixedCopy DurableProof JournalWriter JournalProof JournalDurability RecoveryScan Volumes JournalScan SlotStore Recovery StoreData.
Import (hints) Metadata.Catalog Metadata.Allocation Metadata.Checkpoint.

Local Open Scope Z_scope.

Section Adopt.
Context `{Crc32} `{BackingLaws W F} `{HasherLaws HT} `{HashOrder}.
Import Journal.
Implicit Types (w : W) (s : SegmentInfo) (rs : list JournalRecord).

Lemma rec_io_ok {A} (m : M W ErrorKind A) w a w' : rec_io m w = (Ok a, w') ↔ m w = (Ok a, w').
Proof. unfold rec_io, m_map_err. destruct (m w) as [[x|e] w1]; simpl; naive_solver. Qed.

Lemma rec_format_ok {A} (m : M W FormatError A) w a w' : rec_format m w = (Ok a, w') ↔ m w = (Ok a, w').
Proof. unfold rec_format, m_map_err. destruct (m w) as [[x|e] w1]; simpl; naive_solver. Qed.

Lemma rec_core_ok {A} (m : M W CoreError A) w a w' : rec_core m w = (Ok a, w') ↔ m w = (Ok a, w').
Proof. unfold rec_core, m_map_err. destruct (m w) as [[x|e] w1]; simpl; naive_solver. Qed.

Lemma m_each_ok {X} (f : X → M W RecoveryError unit) (I : W → Prop) l w w' :
  I w → (∀ x w1 w2, x ∈ l → I w1 → f x w1 = (Ok tt, w2) → I w2) → m_each f l w = (Ok tt, w') → I w'.
Proof.
  revert w. induction l as [|x l IH]; intros w HI Hf Hr; [by injection Hr as <-|].
  apply m_bind_ok in Hr as ([] & w1 & Hx & Hr). eapply IH; [|intros y w2 w3 Hy; apply Hf; by right|exact Hr].
  eapply Hf; [by left|exact HI|exact Hx].
Qed.

(** ** What an accepted file holds *)
Section Accepted.
Context (sb : Superblock) (c : bytes) (s : SegmentInfo) (rs : list JournalRecord) (Ha : accepted sb c s rs).

Abbreviation content := (seg_content (Superblock.volume_uuid sb) (s_index s) (s_base_sequence s) rs).

Lemma accepted_header : take 48 c = SegmentHeader_encode (mkSegmentHeader (s_index s) (Superblock.volume_uuid sb) (s_base_sequence s))
  ∧ u64_ok (s_index s) ∧ length (Superblock.volume_uuid sb) = 16%nat.
Proof.
  pose proof (ac_len _ _ _ _ Ha) as Hl.
  assert (length (take 48 c) = 48%nat) as H48 by (rewrite length_take; unfold blen, SEGMENT_HEADER_SIZE in *; lia).
  by destruct (header_decode_canonical _ _ H48 (ac_header _ _ _ _ Ha)) as (? & ? & _ & ?).
Qed.

Lemma accepted_prefix : content `prefix_of` c ∧ blen content = s_size s.
Proof.
  destruct accepted_header as (Hh & _ & Hu). pose proof (ac_len _ _ _ _ Ha) as Hl.
  destruct (ac_scan _ _ _ _ Ha) as (d & o & Hsc). destruct (scan_sound (drop 48 c) (s_base_sequence s) d) as (rs' & o' & Hsc' & _ & Hbuf & _).
  rewrite Hsc in Hsc'. injection Hsc' as <- <-. unfold seg_content. rewrite <- Hh. split.
  - exists (drop (length (encode_records rs)) (drop 48 c)). rewrite <- (assoc_L (++)), <- Hbuf. by rewrite take_drop.
  - rewrite (ac_size _ _ _ _ Ha), blen_app. unfold blen, SEGMENT_HEADER_SIZE in *. rewrite length_take. lia.
Qed.

Lemma accepted_fingerprint :
  prefix_of_segment (HT := HT) c s rs =
  mkVerifiedPrefix (journal_segment (s_index s)) (s_size s) (hasher_finish (hasher_write (hasher_new (H := HT)) content)).
Proof.
  unfold prefix_of_segment, seg_content. destruct accepted_header as (Hh & _). by rewrite Hh, hasher_write_app.
Qed.

Lemma accepted_created : ¬ never_created c.
Proof.
  intros [Hn|Hn]; [pose proof (ac_len _ _ _ _ Ha); lia|]. by rewrite (ac_header _ _ _ _ Ha) in Hn.
Qed.
End Accepted.

(** ** Adoption of what a scan accepted *)
Section Scanned.
Context (sb : Superblock) (ck : Z) (replay : ReplayRecords) (js : JournalScan)
  (G : list (SegmentInfo * list JournalRecord)) (w0 : W).
Context (Hsf : scan_facts (HT := HT) w0 sb ck replay js G).

Definition stored_as s rs : bytes := seg_content (Superblock.volume_uuid sb) (s_index s) (s_base_sequence s) rs.

Lemma member_accepted s rs : (s, rs) ∈ G →
  ∃ c, vis w0 (journal_segment (s_index s)) = Some c ∧ accepted sb c s rs.
Proof. intros Hin. destruct (sf_accepted _ _ _ _ _ _ Hsf _ _ Hin) as (c & ? & ? & _). by exists c. Qed.

(** Every accepted segment still starts with its records. *)
Definition intact w : Prop :=
  inv w ∧ ∀ s rs, (s, rs) ∈ G → ∃ c, vis w (journal_segment (s_index s)) = Some c ∧ stored_as s rs `prefix_of` c.

Lemma scanned_intact w : keeps (λ q, owned q) w0 w → intact w.
Proof.
  intros Hk. split; [by eapply keeps_inv|]. intros s rs Hin. destruct (member_accepted s rs Hin) as (c & Hc & Ha).
  exists c. split; [rewrite (keeps_vis _ _ _ _ Hk); [done|left; by eexists]|]. by eapply accepted_prefix.
Qed.

(** One path, one segment. *)
Lemma members_same s rs t rt :
  (s, rs) ∈ G → (t, rt) ∈ G → journal_segment (s_index s) = journal_segment (s_index t) →
  s = t ∧ stored_as s rs = stored_as t rt.
Proof.
  intros Hs Ht Hp. destruct (member_accepted s rs Hs) as (c & Hc & Ha). destruct (member_accepted t rt Ht) as (c' & Hc' & Ha').
  rewrite Hp, Hc' in Hc. injection Hc as ->.
  destruct (accepted_header _ _ _ _ Ha) as (_ & Hi & _). destruct (accepted_header _ _ _ _ Ha') as (_ & Hi' & _).
  apply segment_inj in Hp; [|done|done].
  assert (s = t) as <-.
  { eapply (chained_index_inj ck _ (js_segments js)); [apply (sf_chained _ _ _ _ _ _ Hsf)| | |done];
      rewrite (sf_segments _ _ _ _ _ _ Hsf); apply list_elem_of_fmap; by eexists (_, _). }
  split; [done|]. destruct (accepted_prefix _ _ _ _ Ha) as [[k1 H1'] L1], (accepted_prefix _ _ _ _ Ha') as [[k2 H2'] L2].
  rewrite H1' in H2'. apply app_inj_1 in H2' as [He _]; [done|]. unfold blen in *. lia.
Qed.

Lemma discard_elsewhere path s rs : Discard path ∈ js_repairs js → (s, rs) ∈ G → journal_segment (s_index s) ≠ path.
Proof.
  intros Hd Hin <-. destruct (sf_discards _ _ _ _ _ _ Hsf _ Hd) as (i & c & Hp & Hc & Hnc).
  destruct (member_accepted s rs Hin) as (c' & Hc' & Ha). rewrite Hp, Hc in Hc'. injection Hc' as <-.
  by eapply accepted_created.
Qed.

Lemma size_u64 s rs : (s, rs) ∈ G → blen (stored_as s rs) = s_size s ∧ 0 ≤ s_size s ≤ U64_MAX.
Proof.
  intros Hin. destruct (member_accepted s rs Hin) as (c & _ & Ha). destruct (accepted_prefix _ _ _ _ Ha) as [Hp Hs].
  split; [done|]. apply prefix_length in Hp. pose proof (ac_max _ _ _ _ Ha). rewrite <- Hs. unfold blen in *. lia.
Qed.

(** Opening an accepted segment and cutting it behind its records. *)
Lemma cut_ok s rs w f w1 w2 :
  (s, rs) ∈ G → intact w → b_open (journal_segment (s_index s)) false w = (Ok f, w1) →
  f_set_len f (s_size s) w1 = (Ok tt, w2) →
  intact w2 ∧ keeps (λ q, q ≠ journal_segment (s_index s)) w w2 ∧ handle w2 f (journal_segment (s_index s)) ∧
  vis w2 (journal_segment (s_index s)) = Some (stored_as s rs) ∧
  ∃ d, dirty w2 (journal_segment (s_index s)) = Some d ∧ length d = length (stored_as s rs).
Proof.
  intros Hin [Hi Hint] Ho Hs. set (p := journal_segment (s_index s)) in *. destruct (size_u64 s rs Hin) as [Hsz Hu].
  destruct (Hint s rs Hin) as (c & Hc & Hp). destruct (proj1 (law_dirty_vis w p) ltac:(fold p in Hc; rewrite Hc; by eexists)) as [d Hd].
  destruct (law_open w p false (Ok f) w1 Hi (segment_valid _) Ho) as (Hk1 & Hf & _).
  assert (keeps (λ _, True) w w1) as Hk1' by (eapply keeps_weaken; [|exact Hk1]; intros q _; by right; right).
  destruct (Hf f eq_refl) as (Hh & _).
  destruct (law_set_len w1 f p c d (s_size s) (Ok tt) w2 (keeps_inv _ _ _ Hk1) Hh) as (Hk2 & Hh2 & Hok & _);
    [by rewrite (keeps_vis _ _ _ _ Hk1' I)|by rewrite (keeps_dirty _ _ _ _ Hk1' I)|lia|exact Hs|].
  destruct (Hok eq_refl) as [Hv2 Hd2]. rewrite <- Hsz in Hv2, Hd2. rewrite resize_prefix in Hv2 by done.
  assert (keeps (λ q, q ≠ p) w w2) as Hk by (eapply keeps_trans; [by eapply keeps_weaken; [|exact Hk1']|exact Hk2]).
  split; [|split; [done|split; [done|split; [done|]]]].
  - split; [by eapply keeps_inv|]. intros t rt Ht. destruct (decide (journal_segment (s_index t) = p)) as [Hp'|Hne].
    + destruct (members_same t rt s rs Ht Hin Hp') as [_ He]. rewrite Hp', He. by exists (stored_as s rs).
    + rewrite (keeps_vis _ _ _ _ Hk Hne). by apply Hint.
  - eexists. split; [done|]. rewrite length_resize. unfold blen. lia.
Qed.

Lemma segment_owned i q : ¬ owned q → q ≠ journal_segment i.
Proof. intros Hq ->. apply Hq. left. by eexists. Qed.

Lemma apply_repair_ok repair w w' :
  repair ∈ js_repairs js → intact w → apply_repair repair w = (Ok tt, w') →
  intact w' ∧ keeps (λ q, ¬ owned q) w w'.
Proof.
  intros Hin Hint Hr. destruct repair as [path|path len]; unfold apply_repair in Hr.
  - apply m_bind_ok in Hr as ([] & w1 & Hrm%rec_io_ok & Hd%rec_io_ok).
    destruct (sf_discards _ _ _ _ _ _ Hsf _ Hin) as (i & _ & -> & _).
    destruct (law_remove _ _ _ _ (proj1 Hint) (segment_valid i) Hrm) as (Hk1 & _).
    destruct (law_sync_dir w1 JOURNAL_DIR (Ok tt) w' (keeps_inv _ _ _ Hk1) eq_refl Hd) as (Hk2 & _).
    assert (keeps (λ q, q ≠ journal_segment i) w w') as Hk
      by (eapply keeps_trans; [exact Hk1|]; by eapply keeps_weaken; [|exact Hk2]).
    split; [|eapply keeps_weaken; [|exact Hk]; apply segment_owned]. split; [by eapply keeps_inv|].
    intros s rs Hs. rewrite (keeps_vis _ _ _ _ Hk); [by apply Hint|]. by eapply discard_elsewhere.
  - destruct (sf_truncates _ _ _ _ _ _ Hsf _ _ Hin) as (s & rs & Hs & -> & ->).
    apply m_bind_ok in Hr as (f & w1 & Ho%rec_io_ok & Hr). apply m_bind_ok in Hr as ([] & w2 & Hsl%rec_io_ok & Hsy%rec_io_ok).
    destruct (cut_ok s rs w f w1 w2 Hs Hint Ho Hsl) as (Hint2 & Hk & Hh & Hv & _).
    destruct (law_sync_data _ _ _ _ _ _ (proj1 Hint2) Hh Hv Hsy) as (Hk2 & _ & Hv' & _).
    split; [|eapply keeps_weaken; [|eapply keeps_trans; [exact Hk|exact Hk2]]; intros q; apply segment_owned].
    split; [by eapply keeps_inv|]. intros t rt Ht.
    destruct (decide (journal_segment (s_index t) = journal_segment (s_index s))) as [Hp|Hne].
    + destruct (members_same t rt s rs Ht Hs Hp) as [_ He]. rewrite Hp, He. by exists (stored_as s rs).
    + rewrite (keeps_vis _ _ _ _ Hk2 Hne). by apply Hint2.
Qed.

(** The segments among [paths] are adopted: their bytes are durable. *)
Definition adopted (paths : list string) w : Prop :=
  intact w ∧ ∀ s rs, (s, rs) ∈ G → journal_segment (s_index s) ∈ paths →
    synced w (journal_segment (s_index s)) (stored_as s rs).

Lemma rewrite_prefix_ok s rs f w w' :
  (s, rs) ∈ G → inv w → handle w f (journal_segment (s_index s)) →
  vis w (journal_segment (s_index s)) = Some (stored_as s rs) →
  (∃ d, dirty w (journal_segment (s_index s)) = Some d ∧ length d = length (stored_as s rs)) →
  rewrite_verified_range (HT := HT) f 0 (s_size s) (hasher_finish (hasher_write (hasher_new (H := HT)) (stored_as s rs))) w = (Ok tt, w') →
  keeps (λ q, q ≠ journal_segment (s_index s)) w w' ∧ handle w' f (journal_segment (s_index s)) ∧
  vis w' (journal_segment (s_index s)) = Some (stored_as s rs) ∧
  dirty w' (journal_segment (s_index s)) = Some (stored_as s rs).
Proof.
  intros Hin Hi Hh Hv (d & Hd & Hl) Hr. destruct (size_u64 s rs Hin) as [Hsz Hu]. rewrite <- Hsz in Hr.
  unfold rewrite_verified_range in Hr. apply m_bind_ok in Hr as (h & w1 & Hg & Hr).
  eapply rewrite_go_spec in Hg as (Hk & Hh1 & Hv1 & _ & Hok & _); [|done|exact Hh|exact Hv|lia| |lia|lia].
  - destruct (Hok h eq_refl) as [Hd1 _]. destruct (_ =? _) in Hr; [|done]. by injection Hr as <-.
  - exists d. split; [done|]. by split.
Qed.

Lemma adopt_prefix_ok paths p w w' :
  p ∈ js_verified_prefixes js → adopted paths w → adopt_prefix (HT := HT) p w = (Ok tt, w') →
  adopted (vp_path p :: paths) w' ∧ keeps (λ q, ¬ owned q) w w'.
Proof.
  intros Hin [Hint Had] Hr. destruct (sf_prefixes _ _ _ _ _ _ Hsf p Hin) as (s & rs & c & Hs & Hc & ->).
  destruct (member_accepted s rs Hs) as (c' & Hc' & Ha). rewrite Hc in Hc'. injection Hc' as <-.
  rewrite (accepted_fingerprint _ _ _ _ Ha) in *. unfold adopt_prefix in Hr. cbn [vp_path vp_len vp_fingerprint] in *.
  apply m_bind_ok in Hr as (f & w1 & Ho%rec_io_ok & Hr). apply m_bind_ok in Hr as ([] & w2 & Hsl%rec_io_ok & Hr).
  apply m_bind_ok in Hr as ([] & w3 & Hrw%rec_core_ok & Hsy%rec_io_ok).
  destruct (cut_ok s rs w f w1 w2 Hs Hint Ho Hsl) as (Hint2 & Hk2 & Hh2 & Hv2 & Hd2).
  destruct (rewrite_prefix_ok s rs f w2 w3 Hs (proj1 Hint2) Hh2 Hv2 Hd2 Hrw) as (Hk3 & Hh3 & Hv3 & Hd3).
  destruct (law_sync_data _ _ _ _ _ _ (keeps_inv _ _ _ Hk3) Hh3 Hv3 Hsy) as (Hk4 & _ & Hv4 & Hsync & _).
  assert (keeps (λ q, q ≠ journal_segment (s_index s)) w w') as Hk
    by (eapply keeps_trans; [exact Hk2|]; by eapply keeps_trans).
  specialize (Hsync eq_refl Hd3). split; [|eapply keeps_weaken; [|exact Hk]; apply segment_owned]. split.
  - split; [by eapply keeps_inv|]. intros t rt Ht.
    destruct (decide (journal_segment (s_index t) = journal_segment (s_index s))) as [Hp|Hne].
    + destruct (members_same t rt s rs Ht Hs Hp) as [_ He]. rewrite Hp, He. by exists (stored_as s rs).
    + rewrite (keeps_vis _ _ _ _ Hk Hne). by apply Hint.
  - intros t rt Ht Hpath. destruct (decide (journal_segment (s_index t) = journal_segment (s_index s))) as [Hp|Hne].
    + destruct (members_same t rt s rs Ht Hs Hp) as [_ He]. by rewrite Hp, He.
    + apply (keeps_synced _ _ _ _ _ Hk Hne). apply Had; [done|]. by apply elem_of_cons in Hpath as [?|?].
Qed.

Lemma adopt_prefixes_ok w w' :
  intact w → m_each (adopt_prefix (HT := HT)) (js_verified_prefixes js) w = (Ok tt, w') →
  (∀ s rs, (s, rs) ∈ G → synced w' (journal_segment (s_index s)) (stored_as s rs)) ∧ keeps (λ q, ¬ owned q) w w'.
Proof.
  intros Hint Hr.
  assert (∀ l paths w, (∀ p, p ∈ l → p ∈ js_verified_prefixes js) → adopted paths w →
    m_each (adopt_prefix (HT := HT)) l w = (Ok tt, w') →
    keeps (λ q, ¬ owned q) w w' ∧ ∃ paths', adopted paths' w' ∧ (∀ p, p ∈ l → vp_path p ∈ paths') ∧ ∀ q, q ∈ paths → q ∈ paths')
    as Hgo.
  { clear Hr Hint w. induction l as [|p l IH]; intros paths w Hl Ha Hr.
    { injection Hr as <-. split; [apply keeps_refl, Ha|]. exists paths. split; [done|]. split; [intros p Hp; by apply not_elem_of_nil in Hp|done]. }
    apply m_bind_ok in Hr as ([] & w1 & Hp & Hr). destruct (adopt_prefix_ok paths p w w1 (Hl p ltac:(by left)) Ha Hp) as [Ha1 Hk1].
    destruct (IH _ _ (λ q Hq, Hl q ltac:(by right)) Ha1 Hr) as (Hk2 & paths' & Ha' & Hin & Hsub).
    split; [by eapply keeps_trans|]. exists paths'. split; [done|]. split; [|intros q Hq; apply Hsub; by right].
    intros q [->|Hq]%elem_of_cons; [apply Hsub; by left|by apply Hin]. }
  destruct (Hgo _ [] w (λ p Hp, Hp)) as (Hk & paths & [_ Ha] & Hin & _); [|exact Hr|].
  - split; [done|]. intros s rs _ Hp. by apply not_elem_of_nil in Hp.
  - split; [|done]. intros s rs Hs. apply Ha; [done|].
    destruct (sf_accepted _ _ _ _ _ _ Hsf _ _ Hs) as (c & _ & _ & Hp). exact (Hin _ Hp).
Qed.

Lemma adopt_mark_ok w w' :
  inv w → (∀ s rs, (s, rs) ∈ G → synced w (journal_segment (s_index s)) (stored_as s rs)) →
  adopt_mark (js_segments js) w = (Ok tt, w') →
  keeps (λ q, ¬ owned q) w w' ∧ ∀ s rs, (s, rs) ∈ G → stable w' (journal_segment (s_index s)) (stored_as s rs).
Proof.
  intros Hi Hsy Hr. unfold adopt_mark in Hr. rewrite (sf_segments _ _ _ _ _ _ Hsf) in Hr.
  destruct (list.last G.*1) as [s0|] eqn:Hl.
  2: { injection Hr as <-. split; [by apply keeps_refl|]. intros s rs Hin. apply last_None in Hl.
       by destruct G as [|g l]; [apply not_elem_of_nil in Hin|]. }
  apply m_bind_ok in Hr as ([] & w1 & Hd%rec_io_ok & Hr). apply m_bind_ok in Hr as (f & w2 & Ho%rec_io_ok & Hr).
  apply m_bind_ok in Hr as ([] & w3 & Hwr%rec_io_ok & Hs%rec_io_ok).
  destruct (law_sync_dir w JOURNAL_DIR (Ok tt) w1 Hi eq_refl Hd) as (Hk1 & Hst & _).
  destruct (law_open w1 JOURNAL_DURABLE_MARK true (Ok f) w2 (keeps_inv _ _ _ Hk1) eq_refl Ho) as (Hk2 & Hf & _). destruct (Hf f eq_refl) as (Hh & Hv & Hdi).
  set (mark := DurableMark_encode _) in *. assert (blen mark = DURABLE_MARK_SIZE) as Hml.
  { unfold mark, DurableMark_encode. writer_norm. unfold blen. rewrite length_finish_with_crc. len_tac. done. }
  destruct (law_write _ _ _ _ _ 0 mark _ _ (keeps_inv _ _ _ Hk2) Hh Hv Hdi ltac:(lia) ltac:(rewrite Hml; done)
    ltac:(apply blen_pos_nonnil; by rewrite Hml) Hwr) as (Hk3 & Hh3 & Hok3 & _). destruct (Hok3 eq_refl) as [Hv3 _].
  destruct (law_sync_data _ _ _ _ _ _ (keeps_inv _ _ _ Hk3) Hh3 Hv3 Hs) as (Hk4 & _).
  assert (keeps (λ q, q ≠ JOURNAL_DURABLE_MARK) w1 w') as Hk.
  { eapply keeps_trans; [eapply keeps_weaken; [|exact Hk2]; intros q Hq; by left|]. by eapply keeps_trans. }
  split.
  - eapply keeps_trans; [by eapply keeps_weaken; [|exact Hk1]|]. eapply keeps_weaken; [|exact Hk].
    intros q Hq ->. apply Hq. by right; left.
  - intros s rs Hin. apply (keeps_stable _ _ _ _ _ Hk); [apply segment_not_mark|].
    apply (Hst eq_refl); [apply segment_direct|by apply Hsy].
Qed.

Lemma apply_repairs_ok w w' :
  intact w → m_each apply_repair (js_repairs js) w = (Ok tt, w') → intact w' ∧ keeps (λ q, ¬ owned q) w w'.
Proof.
  intros Hint. eapply (m_each_ok _ (λ w1, intact w1 ∧ keeps (λ q, ¬ owned q) w w1)).
  - split; [done|]. apply keeps_refl, Hint.
  - intros x w1 w2 Hx [Hint1 Hk1] Hr. destruct (apply_repair_ok x w1 w2 Hx Hint1 Hr) as [Hint2 Hk2].
    split; [done|by eapply keeps_trans].
Qed.

(** The horizon recovery adopts is a proof it can publish. *)
Lemma adopt_proof_ok proof proof' :
  0 ≤ ck → proof_ok proof → adopt_proof js ck proof = Ok proof' → dp_validate proof' = Ok tt →
  proof_ok proof' ∧ dp_volume_uuid proof' = dp_volume_uuid proof.
Proof.
  intros Hck Hok Ha Hv. pose proof Hok as (Hg & Hu & Hds & _). unfold adopt_proof in Ha.
  destruct (Z.ltb_spec (durable_sequence proof) (js_durable_sequence js)); [|by injection Ha as <-].
  destruct (List.find _ _) as [s|] eqn:Hf; [|by destruct (_ <? _) in Ha; [|injection Ha as <-]].
  injection Ha as <-. split; [|done]. apply find_some in Hf as [Hin _]. rewrite <- in_rev in Hin.
  apply list_elem_of_In in Hin. rewrite (sf_segments _ _ _ _ _ _ Hsf) in Hin.
  apply list_elem_of_fmap in Hin as ([? rs] & -> & Hin). cbn [fst] in *.
  destruct (member_accepted _ rs Hin) as (c & _ & Ha). destruct (accepted_header _ _ _ _ Ha) as (_ & Hi & _).
  destruct (size_u64 _ rs Hin) as [_ Hsz]. pose proof (sf_next _ _ _ _ _ _ Hsf) as [_ Hnx].
  split; [done|]. split; [done|]. split; [|split; [done|split; [|done]]]; cbn; unfold u64_ok, U64_MAX in *; lia.
Qed.
End Scanned.
End Adopt.
