(* ===== verification/StoreProof.v ===== *)
(** * StoreProof: the slot store's invariant

    [store_ok] is the invariant of the store against the backing and
    [evolves] what an operation may do to it.  Every operation of SlotStore
    keeps the invariant however it ends, and changes no slot but those it is
    asked to write. *)

From stdpp Require Import sorting.
From S2P Require Import Prelude BTreeMap Codec Layout Geometry AbRecord Metadata Superblock Backing AbStore FixedCopy JournalWriter Volumes SlotStore StoreData.
Import Store Allocation.
Import (hints) Metadata.Catalog Metadata.Allocation.

Local Open Scope Z_scope.

(** ** Bits *)

Lemma bit_put m u v k :
  map_ok m → 0 ≤ u < units m → 0 ≤ k → bit (put_bit m u v) k = if k =? u then v else bit m k.
Proof.
  intros Hm Hu Hk. destruct (set_inside m u v Hm Hu) as (old & m' & _ & Hs & _ & _ & Hun & Hget & _).
  unfold put_bit, bit. rewrite Hs. simpl. destruct (Z.lt_ge_cases k (units m)).
  - rewrite Hget by lia. by destruct (k =? u).
  - rewrite (proj2 (Z.eqb_neq k u)) by lia. unfold get. rewrite Hun.
    by rewrite !(proj2 (Z.ltb_ge k (units m))) by lia.
Qed.

Lemma put_bit_ok m u v : map_ok m → map_ok (put_bit m u v) ∧ units (put_bit m u v) = units m.
Proof.
  intros Hm. unfold put_bit. destruct (set m u v) as [m'|] eqn:Hs; simpl; [|done].
  unfold set in Hs. destruct (u <? units m); [|done].
  destruct (bits m !! Z.to_nat (u / 8)) as [b|]; [|done]. injection Hs as <-. simpl.
  destruct Hm as (? & ? & ?). split; [|done]. split; [done|]. split; [done|]. unfold blen. simpl.
  by rewrite length_insert.
Qed.

Lemma new_map n : 0 ≤ n → n ≤ MAX_UNITS → ∃ m, new n = Some m ∧ map_ok m ∧ units m = n ∧ ∀ k, 0 ≤ k → bit m k = false.
Proof.
  intros H0 Hn. unfold new. rewrite (proj2 (Z.leb_le _ _)) by done. eexists. split; [done|].
  pose proof (div_ceil_nonneg n 8 H0 ltac:(lia)).
  split; [split; [done|]; split; [done|]; unfold blen; simpl; rewrite length_zeros; lia|]. split; [done|].
  intros k Hk. unfold bit, get. simpl. destruct (k <? n); [|done].
  destruct (zeros _ !! _) as [b|] eqn:Hb; [|done]. unfold zeros in Hb. apply lookup_replicate in Hb as [-> _].
  unfold bit_set. change (byte.unsigned Init.Byte.x00) with 0. by rewrite Z.land_0_l.
Qed.

(** ** The invariant *)
Section Invariant.
Context `{Crc32} `{BackingLaws W F} `{HashOrder}.
Implicit Types (s : SlotStore (F := F)) (w : W) (sh : Shard (F := F)) (U : Z → Prop).

Record shard_ok (g : Geometry) w (idx : Z) sh : Prop := {
  sk_idx : 0 ≤ idx < num_shards g;
  sk_alloc : map_ok (alloc sh);
  sk_units : units (alloc sh) = units_per_shard g;
  sk_ab : alloc_ab sh = alloc_store idx g;
  sk_handle : handle w (data sh) (shard_data idx);
  sk_length : short sh = None → physical_size g ≤ blen (content w idx);
  sk_discard : match discard sh, discard_ab sh with
               | Some m, Some ab => map_ok m ∧ units m = units_per_shard g ∧ ab = discard_store idx g
               | None, None => dirty_discard sh = false
               | _, _ => False
               end;
  sk_named : map_stored sh = true → solid w (shard_data idx) []
}.

(** A shard that is not open holds nothing. *)
Definition blank (g : Geometry) w (idx : Z) : Prop :=
  ∀ i b, Z.of_nat i < physical_size g → content w idx !! i = Some b → b = Init.Byte.x00.

Record store_ok s w : Prop := {
  ok_inv : inv w;
  ok_geometry : geometry_wf (st_geometry s);
  ok_catalog : Catalog.catalog_ok (st_catalog s);
  ok_listed idx : idx ∈ Catalog.shards (st_catalog s) ↔ is_Some (st_shards s !! idx);
  ok_catalog_ab : st_catalog_ab s = catalog_store_of (st_geometry s);
  ok_shards idx sh : st_shards s !! idx = Some sh → shard_ok (st_geometry s) w idx sh;
  ok_fresh idx : 0 ≤ idx < num_shards (st_geometry s) → st_shards s !! idx = None →
    blank (st_geometry s) w idx;
  ok_cursor idx start : st_reclaim_cursor s = Some (idx, start) → 0 ≤ start
}.

(** Slot [k] of shard [idx] is that of a unit of [U]. *)
Definition slot_in (g : Geometry) U (idx k : Z) : Prop := ∃ u, U u ∧ shard_of_unit g u = (idx, k).

Record shard_evolves (g : Geometry) U (idx : Z) sh sh' : Prop := {
  se_data : data sh' = data sh;
  se_bit k : 0 ≤ k → ¬ slot_in g U idx k → bit (alloc sh') k = bit (alloc sh) k;
  se_discarded k : 0 ≤ k → ¬ slot_in g U idx k → is_discarded sh' k = is_discarded sh k;
  se_short : short sh' = short sh ∨ short sh' = None;
  se_stored : map_stored sh = true → map_stored sh' = true;
  se_marks : discard sh = None → discard sh' = None
}.

(** What an operation that may touch the units [U] does to the store. *)
Record evolves U (ok : bool) s w s' w' : Prop := {
  ev_geometry : st_geometry s' = st_geometry s;
  ev_enabled : st_discard_enabled s' = st_discard_enabled s;
  ev_data : data_evolves (st_geometry s) U ok w w';
  ev_shards idx sh : st_shards s !! idx = Some sh →
    ∃ sh', st_shards s' !! idx = Some sh' ∧ shard_evolves (st_geometry s) U idx sh sh';
  ev_new idx sh' : st_shards s !! idx = None → st_shards s' !! idx = Some sh' →
    short sh' = None ∧ map_stored sh' = true ∧ ∀ k, 0 ≤ k → ¬ slot_in (st_geometry s) U idx k →
      bit (alloc sh') k = false ∧ is_discarded sh' k = false;
  ev_marks idx sh' : st_shards s !! idx = None → st_shards s' !! idx = Some sh' →
    st_discard_enabled s = false → discard sh' = None
}.

Lemma shard_evolves_refl g U idx sh : shard_evolves g U idx sh sh.
Proof. split; auto. Qed.

Lemma shard_evolves_trans g U idx sh1 sh2 sh3 :
  shard_evolves g U idx sh1 sh2 → shard_evolves g U idx sh2 sh3 → shard_evolves g U idx sh1 sh3.
Proof.
  intros [D1 B1 X1 S1 M1 K1] [D2 B2 X2 S2 M2 K2]. split; [congruence| | |naive_solver congruence|auto|auto].
  - intros k Hk Hn. rewrite B2, B1; done.
  - intros k Hk Hn. rewrite X2, X1; done.
Qed.

Lemma evolves_refl U ok s w : store_ok s w → evolves U ok s w s w.
Proof.
  intros Hok. split; [done|done|by eapply data_evolves_refl, ok_inv| |congruence|congruence].
  intros idx sh Hs. exists sh. split; [done|apply shard_evolves_refl].
Qed.

Lemma evolves_trans U ok1 ok2 s w s1 w1 s2 w2 :
  evolves U ok1 s w s1 w1 → evolves U ok2 s1 w1 s2 w2 → evolves U (ok1 && ok2) s w s2 w2.
Proof.
  intros [G1 N1 D1 S1 W1 K1] [G2 N2 D2 S2 W2 K2]. rewrite G1 in *.
  split; [congruence|congruence|by eapply data_evolves_trans| | |].
  - intros idx sh Hs. destruct (S1 _ _ Hs) as (sh1 & Hs1 & He1). destruct (S2 _ _ Hs1) as (sh2 & Hs2 & He2).
    exists sh2. split; [done|]. by eapply shard_evolves_trans.
  - intros idx sh2 Hn Hs2. destruct (st_shards s1 !! idx) as [sh1|] eqn:Hs1; [|by eapply W2].
    destruct (S2 _ _ Hs1) as (sh2' & Hs2' & He). assert (sh2' = sh2) as -> by congruence.
    destruct (W1 _ _ Hn Hs1) as (Hsh & Hst & Hk). destruct He as [_ B X [Hsh'|Hsh'] Hst' _];
      (split; [congruence|]; split; [by apply Hst'|]); intros k Hk0 Hns; (rewrite B, X by done); by apply Hk.
  - intros idx sh2 Hn Hs2 Hen. destruct (st_shards s1 !! idx) as [sh1|] eqn:Hs1; [|by apply (K2 idx); [done|done|congruence]].
    destruct (S2 _ _ Hs1) as (sh2' & Hs2' & He). assert (sh2' = sh2) as -> by congruence.
    apply (se_marks _ _ _ _ _ He). by eapply K1.
Qed.

Lemma evolves_weaken U U' ok ok' s w s' w' :
  (∀ u, U u → U' u) → (ok' = true → ok = true) → evolves U ok s w s' w' → evolves U' ok' s w s' w'.
Proof.
  intros HU Hok [G N D S W' K].
  assert (∀ idx k, ¬ slot_in (st_geometry s) U' idx k → ¬ slot_in (st_geometry s) U idx k) as Hsl.
  { intros idx k Hn (u & Hu & He). apply Hn. exists u. auto. }
  split; [done|done|by eapply data_evolves_weaken| | |done].
  - intros idx sh Hs. destruct (S _ _ Hs) as (sh' & Hs' & [? ? ? ? ? ?]). exists sh'. split; [done|]. split; auto.
  - intros idx sh' Hn Hs. destruct (W' _ _ Hn Hs) as (? & ? & Hk). split; [done|]. split; [done|]. auto.
Qed.

(** The invariant along a change of the data files. *)
Lemma shard_ok_evolves g U ok w w' idx sh :
  data_evolves g U ok w w' → shard_ok g w idx sh → shard_ok g w' idx sh.
Proof.
  intros [_ Hp] Hok. pose proof (Hp idx (sk_idx _ _ _ _ Hok)) as Hpe. destruct Hok. split; try done.
  - by apply (pe_handle _ _ _ _ _ _ Hpe).
  - intros Hs. pose proof (pe_length _ _ _ _ _ _ Hpe). specialize (sk_length0 Hs). lia.
  - intros Hm. by apply (pe_solid _ _ _ _ _ _ Hpe), sk_named0.
Qed.

(** The units of [U] live in open shards. *)
Definition placed s U : Prop :=
  ∀ u idx k, U u → shard_of_unit (st_geometry s) u = (idx, k) → is_Some (st_shards s !! idx).

Lemma store_ok_world U ok s w w' :
  store_ok s w → placed s U → data_evolves (st_geometry s) U ok w w' → store_ok s w'.
Proof.
  intros [I G C L A S B] Hpl Hd. pose proof Hd as [_ Hp]. split; try done.
  - by eapply data_evolves_inv.
  - intros idx sh Hs. eapply shard_ok_evolves; [exact Hd|by apply S].
  - intros idx Hidx Hn i b Hi Hb. specialize (B idx Hidx Hn).
    assert (free_byte (st_geometry s) U idx i) as Hf.
    { split; [done|]. intros (u & k & Hu & Hs & _). destruct (Hpl u idx k Hu Hs). congruence. }
    destruct (content w idx !! i) as [b0|] eqn:Hb0.
    + pose proof (pe_kept _ _ _ _ _ _ (Hp idx Hidx) i b0 Hf Hb0) as Hb'.
      rewrite Hb' in Hb. injection Hb as <-. by eapply B.
    + by eapply (pe_grown _ _ _ _ _ _ (Hp idx Hidx) i).
Qed.

Lemma evolves_world U ok s w w' :
  data_evolves (st_geometry s) U ok w w' → evolves U ok s w s w'.
Proof.
  intros Hd. split; [done|done|done| |congruence|congruence].
  intros idx sh Hs. exists sh. split; [done|apply shard_evolves_refl].
Qed.

(** ** A calculus of sound runs

    [sound U m s w Q]: run from [(s, w)], [m] keeps the invariant and touches
    no unit outside [U], however it ends; a result satisfies [Q]. *)
Definition sound {A} U (m : M (SlotStore * W) CoreError A) s w (Q : A → SlotStore → W → Prop) : Prop :=
  ∀ r s' w', m (s, w) = (r, (s', w')) →
    store_ok s' w' ∧ evolves U (is_ok r) s w s' w' ∧ ∀ a, r = Ok a → Q a s' w'.

Lemma sound_ret {A} U (a : A) s w (Q : A → SlotStore → W → Prop) :
  store_ok s w → Q a s w → sound U (m_ret a) s w Q.
Proof.
  intros Hok HQ r s' w' [= <- <- <-]. split; [done|]. split; [by apply evolves_refl|]. by intros a' [= <-].
Qed.

Lemma sound_err {A} U e s w (Q : A → SlotStore → W → Prop) : store_ok s w → sound U (m_err e) s w Q.
Proof. intros Hok r s' w' [= <- <- <-]. split; [done|]. split; [by apply evolves_refl|done]. Qed.

Lemma sound_lift {A} U (v : result CoreError A) s w (Q : A → SlotStore → W → Prop) :
  store_ok s w → (∀ a, v = Ok a → Q a s w) → sound U (m_lift v) s w Q.
Proof. intros Hok HQ r s' w' [= <- <- <-]. split; [done|]. split; [by apply evolves_refl|done]. Qed.

Lemma sound_get U s w (Q : SlotStore → SlotStore → W → Prop) :
  store_ok s w → Q s s w → sound U get_state s w Q.
Proof.
  intros Hok HQ r s' w' [= <- <- <-]. split; [done|]. split; [by apply evolves_refl|]. by intros a [= <-].
Qed.

Lemma sound_bind {A B} U (m : M (SlotStore * W) CoreError A) (k : A → M (SlotStore * W) CoreError B) s w Q R :
  sound U m s w Q →
  (∀ a s1 w1, store_ok s1 w1 → evolves U true s w s1 w1 → Q a s1 w1 → sound U (k a) s1 w1 R) →
  sound U (m_bind m k) s w R.
Proof.
  intros Hm Hk r s' w'. unfold m_bind. destruct (m (s, w)) as [[a|e] [s1 w1]] eqn:Hmw;
    destruct (Hm _ _ _ Hmw) as (Hok1 & He1 & HQ).
  - intros Hr. destruct (Hk a s1 w1 Hok1 He1 (HQ a eq_refl) _ _ _ Hr) as (Hok & He & HR).
    split; [done|]. split; [|done]. exact (evolves_trans _ _ _ _ _ _ _ _ _ He1 He).
  - intros [= <- <- <-]. done.
Qed.

Lemma sound_weaken {A} U U' (m : M (SlotStore * W) CoreError A) s w (Q Q' : A → SlotStore → W → Prop) :
  sound U m s w Q → (∀ u, U u → U' u) → (∀ a s' w', store_ok s' w' → evolves U true s w s' w' → Q a s' w' → Q' a s' w') →
  sound U' m s w Q'.
Proof.
  intros Hm HU HQ r s' w' Hr. destruct (Hm _ _ _ Hr) as (Hok & He & Hq). split; [done|].
  split; [by apply (evolves_weaken U U' (is_ok r))|]. intros a ->. apply HQ; auto.
Qed.

Lemma sound_world {A} U (m : M W CoreError A) s w (Q : A → SlotStore → W → Prop) :
  store_ok s w → placed s U →
  (∀ r w', m w = (r, w') → data_evolves (st_geometry s) U (is_ok r) w w' ∧ ∀ a, r = Ok a → Q a s w') →
  sound U (on_world m) s w Q.
Proof.
  intros Hok Hpl Hm r s' w' [-> Hr]%on_world_inv. destruct (Hm _ _ Hr) as [Hd HQ].
  split; [by eapply store_ok_world|]. split; [by apply evolves_world|done].
Qed.

Lemma sound_modify U f s w (Q : unit → SlotStore → W → Prop) :
  store_ok (f s) w → evolves U true s w (f s) w → Q tt (f s) w → sound U (modify_state f) s w Q.
Proof. intros Hok He HQ r s' w' [= <- <- <-]. split; [done|]. split; [done|]. by intros [] _. Qed.

Lemma sound_when U (b : bool) m s w (Q : unit → SlotStore → W → Prop) :
  store_ok s w → (b = true → sound U m s w Q) → (b = false → Q tt s w) → sound U (m_when b m) s w Q.
Proof. intros Hok Ht Hf. destruct b; [by apply Ht|]. apply sound_ret; [done|by apply Hf]. Qed.

Lemma sound_map_err {A} U f (m : M (SlotStore * W) CoreError A) s w Q :
  sound U m s w Q → sound U (m_map_err f m) s w Q.
Proof.
  intros Hm r s' w' (r0 & Hr & ->)%m_map_err_inv. destruct (Hm _ _ _ Hr) as (Hok & He & HQ).
  split; [done|]. destruct r0; [split; [done|]; naive_solver|done].
Qed.

(** A failure the caller handles before it fails itself. *)
Lemma sound_handled {A B} U (m : M (SlotStore * W) CoreError A) (k : A → M (SlotStore * W) CoreError B)
    (h : CoreError → M (SlotStore * W) CoreError B) s w Q R :
  sound U m s w Q →
  (∀ a s1 w1, store_ok s1 w1 → evolves U true s w s1 w1 → Q a s1 w1 → sound U (k a) s1 w1 R) →
  (∀ e s1 w1 r s' w', store_ok s1 w1 → h e (s1, w1) = (r, (s', w')) →
    is_ok r = false ∧ store_ok s' w' ∧ evolves U true s1 w1 s' w') →
  sound U (let* r := m_try m in match r with Ok a => k a | Err e => h e end) s w R.
Proof.
  intros Hm Hk Hh r s' w'. unfold m_bind, m_try. destruct (m (s, w)) as [[a|e] [s1 w1]] eqn:Hmw;
    destruct (Hm _ _ _ Hmw) as (Hok1 & He1 & HQ); intros Hr.
  - destruct (Hk a s1 w1 Hok1 He1 (HQ a eq_refl) _ _ _ Hr) as (Hok & He & HR).
    split; [done|]. split; [|done]. exact (evolves_trans _ _ _ _ _ _ _ _ _ He1 He).
  - destruct (Hh e s1 w1 _ _ _ Hok1 Hr) as (Hf & Hok & He). split; [done|].
    split; [rewrite Hf; exact (evolves_trans _ _ _ _ _ _ _ _ _ He1 He)|]. by intros b ->.
Qed.

Lemma sound_each {X} U (f : X → M (SlotStore * W) CoreError unit) (I : SlotStore → W → Prop) l s w :
  store_ok s w → I s w →
  (∀ x s1 w1, x ∈ l → store_ok s1 w1 → evolves U true s w s1 w1 → I s1 w1 → sound U (f x) s1 w1 (λ _, I)) →
  sound U (m_each f l) s w (λ _, I).
Proof.
  revert s w. induction l as [|x l IH]; intros s w Hok HI Hf; [by apply sound_ret|]. cbn [m_each].
  eapply sound_bind; [apply Hf; [set_solver|done|by apply evolves_refl|done]|].
  intros [] s1 w1 Hok1 He1 HI1. apply IH; [done|done|]. intros y s2 w2 Hy Hok2 He2 HI2.
  apply Hf; [set_solver|done| |done]. exact (evolves_trans _ _ _ _ _ _ _ _ _ He1 He2).
Qed.

(** ** Updates of one shard *)

Definition nothing : Z → Prop := λ _, False.

Lemma placed_nothing s : placed s nothing.
Proof. by intros u idx k []. Qed.

Lemma put_ok s w idx sh sh' :
  store_ok s w → st_shards s !! idx = Some sh → shard_ok (st_geometry s) w idx sh' →
  store_ok (set_shards (<[idx := sh']>) s) w.
Proof.
  intros [I G C L A S B] Hs Hsh. split; try done; simpl.
  - intros i. rewrite L, lookup_insert_is_Some'. split; [by right|]. intros [<-|?]; [by rewrite Hs|done].
  - intros i x. rewrite lookup_insert_Some. intros [[<- <-]|[_ Hx]]; [done|by apply S].
  - intros i Hi Hn. apply B; [done|]. rewrite lookup_insert_None in Hn. naive_solver.
Qed.

Lemma put_evolves U ok s w idx sh sh' :
  store_ok s w → st_shards s !! idx = Some sh → shard_evolves (st_geometry s) U idx sh sh' →
  evolves U ok s w (set_shards (<[idx := sh']>) s) w.
Proof.
  intros Hok Hs He. split; [done|done|by eapply data_evolves_refl, ok_inv| | |]; simpl.
  - intros i x Hx. destruct (decide (i = idx)) as [->|Hne].
    + rewrite lookup_insert_eq. exists sh'. split; [done|]. by simplify_eq.
    + rewrite lookup_insert_ne by done. exists x. split; [done|apply shard_evolves_refl].
  - intros i x Hn. rewrite lookup_insert_Some. intros [[<- <-]|[_ Hx]]; congruence.
  - intros i x Hn. rewrite lookup_insert_Some. intros [[<- <-]|[_ Hx]]; congruence.
Qed.

Lemma sound_get_shard U idx s w (Q : Shard → SlotStore → W → Prop) :
  store_ok s w →
  (∀ sh, st_shards s !! idx = Some sh → shard_ok (st_geometry s) w idx sh → Q sh s w) →
  sound U (get_shard idx) s w Q.
Proof.
  intros Hok HQ. eapply sound_bind; [by apply (sound_get U s w (λ a s1 w1, a = s1 ∧ s1 = s ∧ w1 = w))|].
  intros a s1 w1 Hok1 _ (-> & -> & ->). apply sound_lift; [done|].
  intros sh. destruct (st_shards s !! idx) as [x|] eqn:Hs; [|done]. intros [= <-]. apply HQ; [done|].
  by apply (ok_shards _ _ Hok).
Qed.

Lemma sound_put U idx sh sh' s w (Q : unit → SlotStore → W → Prop) :
  store_ok s w → st_shards s !! idx = Some sh → shard_ok (st_geometry s) w idx sh' →
  shard_evolves (st_geometry s) U idx sh sh' → Q tt (set_shards (<[idx := sh']>) s) w →
  sound U (put_shard idx sh') s w Q.
Proof. intros Hok Hs Hsh He HQ. apply sound_modify; [by eapply put_ok|by eapply put_evolves|done]. Qed.

Lemma sound_update U idx f s w (Q : unit → SlotStore → W → Prop) :
  store_ok s w →
  (∀ sh, st_shards s !! idx = Some sh → shard_ok (st_geometry s) w idx sh →
    shard_ok (st_geometry s) w idx (f sh) ∧ shard_evolves (st_geometry s) U idx sh (f sh) ∧
    Q tt (set_shards (<[idx := f sh]>) s) w) →
  sound U (update_shard idx f) s w Q.
Proof.
  intros Hok Hf. eapply sound_bind.
  { apply (sound_get_shard U idx s w (λ sh s1 w1, st_shards s !! idx = Some sh ∧ s1 = s ∧ w1 = w)); auto. }
  intros sh s1 w1 Hok1 _ (Hs & -> & ->). destruct (Hf sh Hs (ok_shards _ _ Hok _ _ Hs)) as (Hsh & He & HQ).
  by eapply sound_put.
Qed.

(** Calls that leave every data file alone. *)
Lemma sound_frame {A} (m : M W CoreError A) s w (Q : A → SlotStore → W → Prop) :
  store_ok s w → frames unmapped m →
  (∀ a w', m w = (Ok a, w') → keeps unmapped w w' → Q a s w') →
  sound nothing (on_world m) s w Q.
Proof.
  intros Hok Hf HQ. apply sound_world; [done|apply placed_nothing|]. intros r w' Hr.
  pose proof (Hf _ _ _ (ok_inv _ _ Hok) Hr) as Hk. split; [eapply data_evolves_keeps; [exact Hk|apply unmapped_data|by right]|].
  intros a ->. by apply HQ.
Qed.

Lemma sound_sync_dir d s w :
  validate d true = Ok tt → store_ok s w →
  sound nothing (s_io (b_sync_dir d)) s w (λ _ s' w',
    s' = s ∧ ∀ idx, direct d (shard_data idx) = true → is_Some (vis w (shard_data idx)) → solid w' (shard_data idx) []).
Proof.
  intros Hd Hok. apply sound_frame; [done|unfold core_io; auto with frames|].
  intros [] w' (r0 & Hr & He)%m_map_err_inv _. destruct r0 as [[]|]; [|done]. split; [done|].
  intros idx Hdir Hv. eapply (law_sync_dir_solid w d (Ok tt) w'); [by eapply ok_inv|done..].
Qed.

(** ** The metadata stores *)

Lemma map_wf (m : AllocationMap) : map_ok m → ab_wf m.
Proof. done. Qed.

Lemma catalog_wf (c : Catalog.ShardCatalog) : Catalog.catalog_ok c → ab_wf c.
Proof. done. Qed.

(** A map of which only the generation changed. *)
Definition same_bits (m m' : AllocationMap) : Prop :=
  map_ok m' ∧ units m' = units m ∧ ∀ k, bit m' k = bit m k.

Lemma stored_bits ab m w r m' w' :
  inv w → sides_ok (T := AllocationMap) ab → map_ok m → store ab m w = (r, m', w') →
  keeps (λ q, ¬ is_side ab q) w w' ∧ same_bits m m'.
Proof.
  intros Hi Hso Hm%map_wf Hs. destruct (store_keeps ab m w r m' w' Hi Hso Hm Hs) as [Hk _].
  destruct (store_outcome ab m w r m' w' Hi Hso Hm Hs) as [Hwf Heq]. split; [done|]. split; [done|].
  destruct Heq as [->|[next ->]]; done.
Qed.

(** Replacing a map by one with the same bits. *)
Lemma alloc_shard_ok g w idx sh m :
  shard_ok g w idx sh → same_bits (alloc sh) m → shard_ok g w idx (set_alloc m (dirty_alloc sh) sh).
Proof. intros [] (? & Hu & ?). split; try done. simpl. congruence. Qed.

Lemma alloc_shard_evolves g U idx sh m d :
  same_bits (alloc sh) m → shard_evolves g U idx sh (set_alloc m d sh).
Proof. intros (_ & _ & Hb). split; auto. Qed.

Lemma sound_stored (m : M (SlotStore * W) CoreError unit) s w (Q : unit → SlotStore → W → Prop) :
  store_ok s w →
  (∀ r s' w', m (s, w) = (r, (s', w')) →
    keeps unmapped w w' ∧
    ((s' = s) ∨ (∃ idx sh sh', st_shards s !! idx = Some sh ∧ s' = set_shards (<[idx := sh']>) s ∧
      (∀ w, shard_ok (st_geometry s) w idx sh → shard_ok (st_geometry s) w idx sh') ∧
      shard_evolves (st_geometry s) nothing idx sh sh')) ∧
    (r = Ok tt → Q tt s' w')) →
  sound nothing m s w Q.
Proof.
  intros Hok Hm r s' w' Hr. destruct (Hm _ _ _ Hr) as (Hk & Hs & HQ).
  assert (data_evolves (st_geometry s) nothing (is_ok r) w w') as Hd
    by (eapply data_evolves_keeps; [exact Hk|apply unmapped_data|by right]).
  pose proof (store_ok_world _ _ _ _ _ Hok (placed_nothing s) Hd) as Hok'.
  pose proof (evolves_world _ _ _ _ _ Hd) as Hev.
  destruct Hs as [->|(idx & sh & sh' & Hs & -> & Hsh & He)].
  { split; [done|]. split; [done|]. intros [] ->. auto. }
  split; [eapply put_ok; [done|done|]; apply Hsh; by apply (ok_shards _ _ Hok')|].
  split; [|intros [] ->; auto].
  replace (is_ok r) with (is_ok r && true) by apply andb_true_r. eapply evolves_trans; [exact Hev|].
  by eapply put_evolves.
Qed.

Lemma sound_store_alloc idx s w : store_ok s w → sound nothing (store_alloc idx) s w (λ _ _ _, True).
Proof.
  intros Hok. apply sound_stored; [done|]. intros r s' w'. unfold store_alloc. simpl.
  destruct (st_shards s !! idx) as [sh|] eqn:Hs; cycle 1.
  { intros [= <- <- <-]. split; [apply keeps_refl; by eapply ok_inv|]. auto. }
  pose proof (ok_shards _ _ Hok _ _ Hs) as Hsh.
  destruct (store (alloc_ab sh) (alloc sh) w) as [[r0 m] w1] eqn:Hst. intros [= <- <- <-].
  rewrite (sk_ab _ _ _ _ Hsh) in Hst.
  destruct (stored_bits _ _ _ _ _ _ (ok_inv _ _ Hok) (alloc_store_ok idx _) (sk_alloc _ _ _ _ Hsh) Hst) as [Hk Hb].
  split; [eapply keeps_weaken; [|exact Hk]; intros p; apply alloc_sides|]. split; [|done].
  right. exists idx, sh, (set_alloc m (dirty_alloc sh) sh). split; [done|]. split; [done|].
  split; [intros w0 Hw0; by apply alloc_shard_ok|by apply alloc_shard_evolves].
Qed.

Lemma discard_shard_ok g w idx sh m0 m d :
  shard_ok g w idx sh → discard sh = Some m0 → map_ok m → units m = units m0 →
  shard_ok g w idx (set_discard (Some m) (discard_ab sh) d sh).
Proof.
  intros [] Hd Hm Hu. split; try done. simpl. rewrite Hd in *. destruct (discard_ab sh); [|done].
  destruct sk_discard0 as (? & ? & ?). split; [done|]. split; [congruence|done].
Qed.

Lemma sound_store_discard idx s w : store_ok s w → sound nothing (store_discard idx) s w (λ _ _ _, True).
Proof.
  intros Hok. apply sound_stored; [done|]. intros r s' w'. unfold store_discard. simpl.
  assert (keeps unmapped w w) as Hrefl by (apply keeps_refl; by eapply ok_inv).
  destruct (st_shards s !! idx) as [sh|] eqn:Hs; cycle 1.
  { intros [= <- <- <-]. auto. }
  pose proof (ok_shards _ _ Hok _ _ Hs) as Hsh. pose proof (sk_discard _ _ _ _ Hsh) as Hdi.
  destruct (discard_ab sh) as [ab|] eqn:Hab; [|intros [= <- <- <-]; auto].
  destruct (discard sh) as [m0|] eqn:Hm0; [|intros [= <- <- <-]; auto].
  destruct Hdi as (Hmok & Hu & ->).
  destruct (store _ m0 w) as [[r0 m] w1] eqn:Hst. intros [= <- <- <-].
  destruct (stored_bits _ _ _ _ _ _ (ok_inv _ _ Hok) (discard_store_ok idx _) Hmok Hst) as [Hk (Hok' & Hu' & Hb)].
  split; [eapply keeps_weaken; [|exact Hk]; intros p; apply discard_sides|]. split; [|done].
  right. exists idx, sh. eexists. split; [done|]. split; [by rewrite <- Hab|].
  split; [intros w0 Hw0; by eapply discard_shard_ok|].
  split; auto; [|by rewrite Hm0]. intros k _ _. unfold is_discarded. simpl. by rewrite Hm0.
Qed.

Lemma catalog_ok_set s w c d :
  store_ok s w → Catalog.catalog_ok c → Catalog.shards c = Catalog.shards (st_catalog s) →
  store_ok (set_catalog c d s) w.
Proof. intros [] Hc He. split; try done. intros idx. simpl. by rewrite He. Qed.

Lemma catalog_evolves U ok s w w' c d :
  data_evolves (st_geometry s) U ok w w' → evolves U ok s w (set_catalog c d s) w'.
Proof.
  intros Hd. split; [done|done|done| |simpl; congruence|simpl; congruence].
  intros idx sh Hs. exists sh. split; [done|apply shard_evolves_refl].
Qed.

Lemma sound_store_catalog s w : store_ok s w → sound nothing store_catalog s w (λ _ s' _, st_shards s' = st_shards s).
Proof.
  intros Hok r s' w'. unfold store_catalog. simpl.
  destruct (store (st_catalog_ab s) (st_catalog s) w) as [[r0 c] w1] eqn:Hst. intros [= <- <- <-].
  rewrite (ok_catalog_ab _ _ Hok) in Hst. pose proof (catalog_wf _ (ok_catalog _ _ Hok)) as Hcw.
  destruct (store_keeps _ _ _ _ _ _ (ok_inv _ _ Hok) (catalog_store_of_ok _) Hcw Hst) as [Hk _].
  destruct (store_outcome _ _ _ _ _ _ (ok_inv _ _ Hok) (catalog_store_of_ok _) Hcw Hst) as [Hwf Heq].
  assert (Catalog.shards c = Catalog.shards (st_catalog s)) as Hsame by (by destruct Heq as [->|[? ->]]).
  assert (∀ ok, data_evolves (st_geometry s) nothing ok w w1) as Hd
    by (intros ok; eapply data_evolves_keeps; [exact Hk|intros i; apply catalog_sides, unmapped_data|intros q Hq; apply catalog_sides; by right]).
  split; [apply catalog_ok_set; [|done|done]; eapply store_ok_world; [done|apply placed_nothing|apply (Hd true)]|].
  split; [by apply catalog_evolves|]. done.
Qed.

(** ** File operations of one shard *)

Lemma is_ok_map_err {E E' A} (f : E → E') (r : result E A) : is_ok (map_err f r) = is_ok r.
Proof. by destruct r. Qed.

(** An I/O call on the data file of an open shard. *)
Lemma sound_file {A} U idx sh (m : M W ErrorKind A) s w (Q : A → SlotStore → W → Prop) :
  store_ok s w → placed s U → st_shards s !! idx = Some sh →
  (∀ r w', m w = (r, w') → data_evolves (st_geometry s) U (is_ok r) w w' ∧ ∀ a, r = Ok a → Q a s w') →
  sound U (s_io m) s w Q.
Proof.
  intros Hok Hpl Hs Hm. apply sound_world; [done|done|]. intros r w' (r0 & Hr & ->)%m_map_err_inv.
  destruct (Hm _ _ Hr) as [Hd HQ]. rewrite is_ok_map_err. split; [done|]. destruct r0; [|done]. intros a' [= <-]. auto.
Qed.

Lemma sound_set_len idx sh s w :
  store_ok s w → st_shards s !! idx = Some sh →
  sound nothing (s_io (f_set_len (data sh) (physical_size (st_geometry s)))) s w
    (λ _ s' w', s' = s ∧ physical_size (st_geometry s) ≤ blen (content w' idx)).
Proof.
  intros Hok Hs. pose proof (ok_shards _ _ Hok _ _ Hs) as Hsh.
  eapply sound_file; [done|apply placed_nothing|done|]. intros r w' Hr.
  destruct (evolve_set_len _ (ok_geometry _ _ Hok) nothing idx _ _ _ _ (ok_inv _ _ Hok) (sk_idx _ _ _ _ Hsh)
    (sk_handle _ _ _ _ Hsh) Hr) as [Hd Hlen]. split; [done|]. intros [] ->. auto.
Qed.

Lemma sound_sync U idx sh s w :
  store_ok s w → placed s U → st_shards s !! idx = Some sh →
  sound U (s_io (f_sync_data (data sh))) s w (λ _ s' w', s' = s ∧ content w' idx = content w idx).
Proof.
  intros Hok Hpl Hs. pose proof (ok_shards _ _ Hok _ _ Hs) as Hsh.
  eapply sound_file; [done|done|done|]. intros r w' Hr.
  destruct (evolve_sync _ (ok_geometry _ _ Hok) U idx _ _ _ _ (ok_inv _ _ Hok) (sk_idx _ _ _ _ Hsh)
    (sk_handle _ _ _ _ Hsh) Hr) as [Hd Hc]. split; [done|]. auto.
Qed.

Lemma sound_sync_all U idx sh s w :
  store_ok s w → placed s U → st_shards s !! idx = Some sh →
  sound U (s_io (f_sync_all (data sh))) s w (λ _ s' w', s' = s ∧ content w' idx = content w idx).
Proof.
  intros Hok Hpl Hs. pose proof (ok_shards _ _ Hok _ _ Hs) as Hsh.
  eapply sound_file; [done|done|done|]. intros r w' (w1 & Hr & Hk)%law_sync_all; [|by eapply ok_inv].
  destruct (evolve_sync _ (ok_geometry _ _ Hok) U idx _ _ _ _ (ok_inv _ _ Hok) (sk_idx _ _ _ _ Hsh)
    (sk_handle _ _ _ _ Hsh) Hr) as [Hd Hc]. specialize (Hk (data_evolves_inv _ _ _ _ _ Hd)).
  pose proof (data_evolves_keeps (st_geometry s) U true (λ _, True) w1 w' Hk ltac:(done) ltac:(done)) as Hd'.
  split; [|by intros _ _; split; [|rewrite <- Hc; unfold content; rewrite (keeps_vis _ _ _ _ Hk)]].
  pose proof (data_evolves_trans _ _ _ _ _ _ _ Hd Hd') as Ht. by rewrite andb_true_r in Ht.
Qed.

(** The shard a later step still finds. *)
Lemma evolves_shard U ok s w s' w' idx sh :
  evolves U ok s w s' w' → st_shards s !! idx = Some sh →
  ∃ sh', st_shards s' !! idx = Some sh' ∧ data sh' = data sh ∧ (map_stored sh = true → map_stored sh' = true) ∧
    (short sh = None → short sh' = None).
Proof.
  intros He Hs. destruct (ev_shards _ _ _ _ _ _ He _ _ Hs) as (sh' & Hs' & [? ? ? Hsh ?]). exists sh'.
  split; [done|]. split; [done|]. split; [done|]. intros Hn. destruct Hsh; congruence.
Qed.

Lemma sound_prove_data_file idx s w :
  store_ok s w →
  sound nothing (prove_data_file idx) s w (λ _ s' _, ∃ sh, st_shards s' !! idx = Some sh ∧ short sh = None).
Proof.
  intros Hok. unfold prove_data_file.
  eapply sound_bind; [by apply (sound_get _ s w (λ a s1 w1, a = s ∧ s1 = s ∧ w1 = w))|].
  intros a s1 w1 _ _ (-> & -> & ->).
  eapply sound_bind.
  { apply (sound_get_shard _ idx s w (λ sh s1 w1, st_shards s !! idx = Some sh ∧ s1 = s ∧ w1 = w)); auto. }
  intros sh s1 w1 _ _ (Hs & -> & ->). destruct (short sh) as [short|] eqn:Hsh; [|apply sound_ret; eauto].
  eapply sound_bind.
  { apply (sound_when _ _ _ s w (λ _ _ _, True)); [done| |done]. intros _.
    eapply sound_bind; [by apply sound_store_alloc|]. intros [] s1 w1 Hok1 _ _.
    eapply sound_weaken; [by apply sound_sync_dir|done|done]. }
  intros [] s1 w1 Hok1 He1 _. destruct (evolves_shard _ _ _ _ _ _ _ _ He1 Hs) as (sh1 & Hs1 & Hd1 & _).
  rewrite <- (ev_geometry _ _ _ _ _ _ He1), <- Hd1.
  eapply sound_bind; [by apply sound_set_len|]. intros [] s2 w2 Hok2 He2 [-> Hlen].
  eapply sound_bind; [by apply sound_sync; [|apply placed_nothing|]|]. intros [] s3 w3 Hok3 He3 [-> Hc].
  apply sound_update; [done|]. intros sh3 Hs3 Hsh3.
  split; [|split].
  - destruct Hsh3. split; try done. intros _. by rewrite Hc.
  - split; auto.
  - simpl. rewrite lookup_insert_eq. by eexists.
Qed.

(** ** Establishing the maps *)

Definition all_stored s : Prop := ∀ idx sh, st_shards s !! idx = Some sh → map_stored sh = true.

Lemma elem_of_shards_where (P : Shard → bool) s idx :
  idx ∈ shards_where P s ↔ ∃ sh, st_shards s !! idx = Some sh ∧ P sh = true.
Proof.
  unfold shards_where. rewrite list_elem_of_In, filter_In, <- list_elem_of_In, hash_order_perm, elem_of_elements,
    elem_of_dom. split.
  - intros [[sh Hs] HP]. rewrite Hs in HP. by exists sh.
  - intros (sh & Hs & HP). rewrite Hs. split; [by eexists|done].
Qed.

Lemma shard_vis s w idx sh :
  store_ok s w → st_shards s !! idx = Some sh → is_Some (vis w (shard_data idx)).
Proof. intros Hok Hs. eapply law_handle, sk_handle. by apply (ok_shards _ _ Hok). Qed.

(** Every open shard's name is durable. *)
Definition all_named s w : Prop := ∀ idx sh, st_shards s !! idx = Some sh → solid w (shard_data idx) [].

Lemma sound_mark_stored (pending : list Z) s w :
  store_ok s w → all_named s w →
  (∀ idx sh, st_shards s !! idx = Some sh → map_stored sh = true ∨ idx ∈ pending) →
  sound nothing (m_each (λ idx, update_shard idx mark_stored) pending) s w (λ _ s' _, all_stored s').
Proof.
  intros Hok Hnm Hor. eapply (sound_weaken nothing).
  - revert s w Hok Hnm Hor. induction pending as [|x l IH]; intros s w Hok Hnm Hor.
    { apply (sound_ret _ _ _ _ (λ _ s' _, all_stored s')); [done|]. intros idx sh Hs.
      destruct (Hor _ _ Hs); [done|set_solver]. }
    cbn [m_each]. eapply sound_bind.
    { apply (sound_update _ x mark_stored s w (λ _ s1 w1, w1 = w ∧ ∃ sh, st_shards s !! x = Some sh ∧
        s1 = set_shards (<[x := mark_stored sh]>) s)); [done|]. intros sh Hs Hsh.
      split; [|split; [split; auto|eauto]]. destruct Hsh. split; try done. intros _. by eapply Hnm. }
    intros [] s1 w1 Hok1 He1 (-> & sh & Hs & ->). apply IH; [done| |].
    + intros idx sh1. simpl. rewrite lookup_insert_Some. intros [[<- _]|[_ Hx]]; by eapply Hnm.
    + intros idx sh1. simpl. rewrite lookup_insert_Some. intros [[<- <-]|[Hne Hx]]; [by left|].
      destruct (Hor _ _ Hx); [by left|right]. set_solver.
  - done.
  - done.
Qed.

(** Storing the maps of [pending], syncing the directory, marking them. *)
Lemma sound_establish (f : Z → M (SlotStore * W) CoreError unit) (pending : list Z) s w :
  store_ok s w → (∀ idx s w, store_ok s w → sound nothing (f idx) s w (λ _ _ _, True)) →
  (∀ idx sh, st_shards s !! idx = Some sh → map_stored sh = true ∨ idx ∈ pending) →
  sound nothing (let* _ := m_each f pending in
                 let* _ := s_io (b_sync_dir DATA_DIR) in
                 m_each (λ idx, update_shard idx mark_stored) pending) s w (λ _ s' _, all_stored s').
Proof.
  intros Hok Hf Hor. eapply sound_bind; [by apply (sound_each _ f (λ _ _, True)); auto|].
  intros [] s1 w1 Hok1 He1 _. eapply sound_bind; [by apply sound_sync_dir|].
  intros [] s2 w2 Hok2 He2 [-> Hnm]. apply sound_mark_stored; [done| |].
  - intros idx sh Hs. apply Hnm; [apply shard_data_direct|by eapply shard_vis].
  - intros idx sh1 Hs1. destruct (st_shards s !! idx) as [sh|] eqn:Hs.
    + destruct (evolves_shard _ _ _ _ _ _ _ _ He1 Hs) as (sh1' & Hs1' & _ & Hst & _).
      assert (sh1' = sh1) as -> by congruence. destruct (Hor _ _ Hs); auto.
    + left. by destruct (ev_new _ _ _ _ _ _ He1 _ _ Hs Hs1) as (_ & ? & _).
Qed.

Lemma sound_commit_adopted_maps s w :
  store_ok s w → sound nothing commit_adopted_maps s w (λ _ s' _, all_stored s').
Proof.
  intros Hok. unfold commit_adopted_maps.
  eapply sound_bind; [by apply (sound_get _ s w (λ a s1 w1, a = s ∧ s1 = s ∧ w1 = w))|].
  intros a s1 w1 _ _ (-> & -> & ->).
  assert (∀ idx sh, st_shards s !! idx = Some sh →
    map_stored sh = true ∨ idx ∈ shards_where (λ sh, negb (map_stored sh)) s) as Hor.
  { intros idx sh Hs. rewrite elem_of_shards_where. destruct (map_stored sh) eqn:Hm; [by left|right].
    exists sh. by rewrite Hm. }
  apply sound_when; [done| |].
  - intros _. apply sound_establish; [done| |done]. intros idx s1 w1 Hok1.
    eapply sound_bind; [by apply sound_prove_data_file|]. intros [] s2 w2 Hok2 _ _.
    eapply sound_bind; [by apply sound_store_alloc|]. intros [] s3 w3 Hok3 _ _. by apply sound_store_alloc.
  - intros Hn%negb_false_iff%bool_decide_eq_true idx sh Hs. destruct (Hor _ _ Hs) as [|Hin]; [done|].
    rewrite Hn in Hin. set_solver.
Qed.

Lemma sound_persist_maps s w :
  store_ok s w → sound nothing persist_maps s w (λ _ s' _, all_stored s').
Proof.
  intros Hok. unfold persist_maps.
  eapply sound_bind; [by apply (sound_get _ s w (λ a s1 w1, a = s ∧ s1 = s ∧ w1 = w))|].
  intros a s1 w1 _ _ (-> & -> & ->).
  assert (∀ idx sh, st_shards s !! idx = Some sh →
    map_stored sh = true ∨ idx ∈ shards_where (λ sh, dirty_alloc sh || negb (map_stored sh)) s) as Hor.
  { intros idx sh Hs. rewrite elem_of_shards_where. destruct (map_stored sh) eqn:Hm; [by left|right].
    exists sh. rewrite Hm. by rewrite orb_true_r. }
  apply sound_when; [done| |].
  - intros _. apply sound_establish; [done| |done]. intros idx s1 w1 Hok1.
    eapply sound_bind; [by apply sound_store_alloc|]. intros [] s2 w2 Hok2 _ _.
    eapply sound_bind; [by apply (sound_get_shard _ idx s2 w2 (λ _ s3 w3, s3 = s2 ∧ w3 = w2)); auto|].
    intros sh s3 w3 Hok3 _ [-> ->]. apply sound_when; [done| |done]. intros _. by apply sound_store_alloc.
  - intros Hn%negb_false_iff%bool_decide_eq_true idx sh Hs. destruct (Hor _ _ Hs) as [|Hin]; [done|].
    rewrite Hn in Hin. set_solver.
Qed.

Lemma all_stored_evolves U ok s w s' w' : evolves U ok s w s' w' → all_stored s → all_stored s'.
Proof.
  intros He Hall idx sh' Hs'. destruct (st_shards s !! idx) as [sh|] eqn:Hs.
  - destruct (evolves_shard _ _ _ _ _ _ _ _ He Hs) as (sh1 & Hs1 & _ & Hst & _).
    assert (sh1 = sh') as -> by congruence. by apply Hst, (Hall idx).
  - by destruct (ev_new _ _ _ _ _ _ He _ _ Hs Hs') as (_ & ? & _).
Qed.

Lemma sound_persist_catalog s w : store_ok s w → sound nothing persist_catalog s w (λ _ _ _, True).
Proof.
  intros Hok. unfold persist_catalog.
  eapply sound_bind; [by apply (sound_get _ s w (λ a s1 w1, a = s ∧ s1 = s ∧ w1 = w))|].
  intros a s1 w1 _ _ (-> & -> & ->). apply sound_when; [done| |done]. intros _.
  eapply sound_bind.
  { apply (sound_each _ _ (λ _ _, True)); [done|done|]. intros x s1 w1 _ Hok1 _ _.
    eapply sound_weaken; [by apply sound_prove_data_file|done|done]. }
  intros [] s1 w1 Hok1 _ _. eapply sound_bind; [by apply sound_store_catalog|]. intros [] s2 w2 Hok2 _ _.
  eapply sound_bind; [by apply sound_sync_dir|]. intros [] s3 w3 Hok3 _ [-> _].
  apply sound_modify; [apply catalog_ok_set; [done|by eapply ok_catalog|done]|apply catalog_evolves|done].
  by eapply data_evolves_refl, ok_inv.
Qed.

Lemma sound_persist_allocations s w :
  store_ok s w → sound nothing persist_allocations s w (λ _ s' _, all_stored s').
Proof.
  intros Hok. eapply sound_bind; [by apply sound_persist_maps|]. intros [] s1 w1 Hok1 _ Hall.
  eapply sound_weaken; [by apply sound_persist_catalog|done|]. intros [] s2 w2 _ He _. by eapply all_stored_evolves.
Qed.

Lemma sound_persist_discards s w :
  store_ok s w → sound nothing persist_discards s w (λ _ _ _, True).
Proof.
  intros Hok. unfold persist_discards.
  eapply sound_bind; [by apply (sound_get _ s w (λ a s1 w1, a = s ∧ s1 = s ∧ w1 = w))|].
  intros a s1 w1 _ _ (-> & -> & ->). apply sound_when; [done| |done]. intros _.
  eapply sound_bind.
  { apply (sound_each _ _ (λ _ _, True)); [done|done|]. intros x s1 w1 _ Hok1 _ _.
    eapply sound_bind; [by apply sound_store_discard|]. intros [] s2 w2 Hok2 _ _.
    eapply sound_weaken; [by apply sound_store_discard|done|done]. }
  intros [] s1 w1 Hok1 _ _. eapply sound_bind; [by apply sound_sync_dir|]. intros [] s2 w2 Hok2 _ [-> _].
  apply (sound_each _ _ (λ _ _, True)); [done|done|]. intros x s3 w3 _ Hok3 _ _.
  apply sound_update; [done|]. intros sh Hs Hsh. split; [|split; [split; auto|done]].
  destruct Hsh. split; try done. simpl. destruct (discard sh), (discard_ab sh); done.
Qed.

(** ** Which shards are open *)

(** [m] opens and closes no shard. *)
Definition keeps_open {A} (m : M (SlotStore * W) CoreError A) : Prop :=
  ∀ s w r s' w', m (s, w) = (r, (s', w')) → dom (st_shards s') = dom (st_shards s).

Lemma keeps_open_bind {A B} (m : M (SlotStore * W) CoreError A) (k : A → M (SlotStore * W) CoreError B) :
  keeps_open m → (∀ a, keeps_open (k a)) → keeps_open (m_bind m k).
Proof.
  intros Hm Hk s w r s' w' [(a & [s1 w1] & Hr1 & Hr2)|(e & Hr1 & ->)]%m_bind_inv; [|by eapply Hm].
  etransitivity; [by eapply Hk|by eapply Hm].
Qed.

Lemma keeps_open_lift {A} (v : result CoreError A) : keeps_open (m_lift v).
Proof. by intros s w r s' w' [= _ <- _]. Qed.

Lemma keeps_open_ret {A} (a : A) : keeps_open (m_ret a).
Proof. apply (keeps_open_lift (Ok a)). Qed.

Lemma keeps_open_world {A} (m : M W CoreError A) : keeps_open (on_world m).
Proof. by intros s w r s' w' [-> _]%on_world_inv. Qed.

Lemma keeps_open_get : keeps_open get_state.
Proof. by intros s w r s' w' [= _ <- _]. Qed.

Lemma keeps_open_when b m : keeps_open m → keeps_open (m_when b m).
Proof. intros Hm. destruct b; [done|apply keeps_open_ret]. Qed.

Lemma keeps_open_each {X} (f : X → M (SlotStore * W) CoreError unit) l :
  (∀ x, keeps_open (f x)) → keeps_open (m_each f l).
Proof.
  intros Hf. induction l as [|x l IH]; [apply keeps_open_ret|]. by apply keeps_open_bind.
Qed.

Lemma dom_put idx sh sh' s :
  st_shards s !! idx = Some sh → dom (st_shards (set_shards (<[idx := sh']>) s)) = dom (st_shards s).
Proof. intros Hs. simpl. rewrite dom_insert_lookup_L; [done|by eexists]. Qed.

Lemma keeps_open_update idx f : keeps_open (update_shard idx f).
Proof.
  intros s w r s' w'. unfold update_shard, get_shard, m_bind, get_state, m_lift. simpl.
  destruct (st_shards s !! idx) as [sh|] eqn:Hs; simpl; intros [= _ <- _]; [by eapply dom_put|done].
Qed.

Lemma keeps_open_store_alloc idx : keeps_open (store_alloc idx).
Proof.
  intros s w r s' w'. unfold store_alloc. simpl. destruct (st_shards s !! idx) as [sh|] eqn:Hs; [|by intros [= _ <- _]].
  destruct (store _ _ w) as [[r0 m] w1]. intros [= _ <- _]. by eapply dom_put.
Qed.

Lemma keeps_open_store_discard idx : keeps_open (store_discard idx).
Proof.
  intros s w r s' w'. unfold store_discard. simpl. destruct (st_shards s !! idx) as [sh|] eqn:Hs; [|by intros [= _ <- _]].
  destruct (discard_ab sh), (discard sh); try by intros [= _ <- _].
  destruct (store _ _ w) as [[r0 m] w1]. intros [= _ <- _]. by eapply dom_put.
Qed.

Ltac keeps_open_tac :=
  repeat first
    [ progress intros
    | apply keeps_open_update | apply keeps_open_store_alloc | apply keeps_open_store_discard
    | apply keeps_open_bind | apply keeps_open_each | apply keeps_open_when
    | apply keeps_open_world | apply keeps_open_get | apply keeps_open_lift
    | apply keeps_open_ret | case_match ].

Lemma keeps_open_prove_data_file idx : keeps_open (prove_data_file idx).
Proof. unfold prove_data_file, get_shard, s_io. keeps_open_tac. Qed.

Lemma keeps_open_commit : keeps_open commit_adopted_maps.
Proof.
  apply keeps_open_bind; [apply keeps_open_get|intros s]. apply keeps_open_when.
  apply keeps_open_bind; [apply keeps_open_each|unfold s_io; keeps_open_tac]. intros idx.
  apply keeps_open_bind; [apply keeps_open_prove_data_file|keeps_open_tac].
Qed.

Lemma keeps_open_persist_discards : keeps_open persist_discards.
Proof. unfold persist_discards, s_io. keeps_open_tac. Qed.

Lemma sound_open {A} U (m : M (SlotStore * W) CoreError A) s w Q :
  sound U m s w Q → keeps_open m →
  sound U m s w (λ a s' w', Q a s' w' ∧ dom (st_shards s') = dom (st_shards s)).
Proof.
  intros Hm Ho r s' w' Hr. destruct (Hm _ _ _ Hr) as (? & ? & HQ). split; [done|]. split; [done|].
  intros a ->. split; [by apply HQ|by eapply Ho].
Qed.

(** ** Creating a shard *)

(** A fresh map of the right size. *)
Definition empty_map (g : Geometry) (m : AllocationMap) : Prop :=
  map_ok m ∧ units m = units_per_shard g ∧ ∀ k, 0 ≤ k → bit m k = false.

Lemma new_empty g : geometry_wf g → ∃ m, new (units_per_shard g) = Some m ∧ empty_map g m.
Proof.
  intros Hg. pose proof (gwf_units_per_shard g Hg) as Hu. unfold U32_MAX in Hu.
  destruct (new_map (units_per_shard g) ltac:(lia)) as (m & Hm & ? & ? & ?).
  { change MAX_UNITS with 4294967296. lia. }
  by exists m.
Qed.

Lemma empty_twice g ab m m' w w' :
  inv w → sides_ok (T := AllocationMap) ab → empty_map g m → store_twice ab m w = (Ok m', w') → empty_map g m'.
Proof.
  intros Hi Hso (Hm & Hu & Hb) Hs.
  destruct (store_twice_result ab m m' w w' Hi Hso (map_wf _ Hm) Hs) as (Hwf & g1 & g2 & ->). done.
Qed.

Lemma frames_core_format {A} P (m : M W FormatError A) : frames P m → frames P (core_format m).
Proof. apply frames_map_err. Qed.

Lemma frames_core_io {A} P (m : M W ErrorKind A) : frames P m → frames P (core_io m).
Proof. apply frames_map_err. Qed.

Lemma core_format_ok {A} (m : M W FormatError A) w a w' : core_format m w = (Ok a, w') → m w = (Ok a, w').
Proof. unfold core_format, m_map_err. destruct (m w) as [[x|e] w1]; simpl; naive_solver. Qed.

Lemma core_io_ok {A} (m : M W ErrorKind A) w a w' : core_io m w = (Ok a, w') → m w = (Ok a, w').
Proof. unfold core_io, m_map_err. destruct (m w) as [[x|e] w1]; simpl; naive_solver. Qed.

Lemma frames_twice ab m :
  sides_ok (T := AllocationMap) ab → map_ok m → (∀ q, unmapped q → ¬ is_side ab q) →
  frames unmapped (core_format (store_twice ab m)).
Proof.
  intros Hso Hm Hne. apply frames_core_format. eapply frames_weaken; [|by apply frames_store_twice, map_wf].
  exact Hne.
Qed.

Lemma sound_create_maps idx (m : AllocationMap) s w :
  store_ok s w → empty_map (st_geometry s) m →
  sound nothing (on_world (core_format (store_twice (alloc_store idx (st_geometry s)) m))) s w
    (λ m' s' _, s' = s ∧ empty_map (st_geometry s) m').
Proof.
  intros Hok Hm. apply sound_frame; [done|apply frames_twice; [apply alloc_store_ok|apply Hm|intros q; apply alloc_sides]|].
  intros m' w' Hr%core_format_ok _. split; [done|].
  eapply empty_twice; [by eapply ok_inv|apply alloc_store_ok|done|done].
Qed.

(** The discard maps of a new shard. *)
Definition discard_of (g : Geometry) (idx : Z) (d : option AllocationMap * option AbStore) : Prop :=
  match d with
  | (Some m, Some ab) => empty_map g m ∧ ab = discard_store idx g
  | (None, None) => True
  | _ => False
  end.

Lemma create_discard_eq g idx m :
  new (units_per_shard g) = Some m →
  create_discard (W := W) g idx =
  (let* m := core_format (store_twice (discard_store idx g) m) in
   let* _ := core_io (b_sync_dir DATA_DIR) in
   m_ret (m, discard_store idx g)).
Proof. intros Hm. unfold create_discard. by rewrite Hm. Qed.

Lemma frames_create_discard g idx :
  geometry_wf g → frames unmapped (create_discard g idx).
Proof.
  intros Hg. destruct (new_empty _ Hg) as (m & Hm & He). rewrite (create_discard_eq _ _ _ Hm).
  apply frames_bind; [apply frames_twice; [apply discard_store_ok|apply He|intros q; apply discard_sides]|intros m'].
  apply frames_bind; [apply frames_core_io; by apply frames_sync_dir|intros []]. apply frames_ret.
Qed.

Lemma create_discard_result g idx w m ab w' :
  inv w → geometry_wf g → create_discard g idx w = (Ok (m, ab), w') → discard_of g idx (Some m, Some ab).
Proof.
  intros Hi Hg. destruct (new_empty _ Hg) as (m0 & Hm0 & He). rewrite (create_discard_eq _ _ _ Hm0).
  intros (m1 & w1 & Hs%core_format_ok & Hr)%m_bind_ok. apply m_bind_ok in Hr as ([] & w2 & _ & [= <- <- _]).
  split; [|done]. eapply empty_twice; [done|apply discard_store_ok|exact He|exact Hs].
Qed.

Lemma sound_create_discard idx s w :
  store_ok s w →
  sound nothing (if st_discard_enabled s
    then let* '(m, ab) := on_world (create_discard (st_geometry s) idx) in m_ret (Some m, Some ab)
    else m_ret (None, None)) s w (λ d s' _, s' = s ∧ discard_of (st_geometry s) idx d ∧ (st_discard_enabled s = false → d.1 = None)).
Proof.
  intros Hok. destruct (st_discard_enabled s); [|by apply sound_ret].
  eapply sound_bind.
  { apply (sound_frame (create_discard (st_geometry s) idx) s w
      (λ d s' _, s' = s ∧ discard_of (st_geometry s) idx (Some d.1, Some d.2))); [done| |].
    - by apply frames_create_discard, ok_geometry with w.
    - intros [m ab] w' Hr _. split; [done|]. eapply create_discard_result; [by eapply ok_inv|by eapply ok_geometry|done]. }
  intros [m ab] s1 w1 Hok1 _ [-> Hd]. by apply sound_ret.
Qed.

(** The data file is open and has its full size. *)
Definition ready (g : Geometry) (idx : Z) (f : F) w : Prop :=
  handle w f (shard_data idx) ∧ physical_size g ≤ blen (content w idx).

Lemma ready_evolves g U ok idx f w w' :
  0 ≤ idx < num_shards g → data_evolves g U ok w w' → ready g idx f w → ready g idx f w'.
Proof.
  intros Hi [_ Hp] [Hh Hl]. specialize (Hp idx Hi). split; [by apply (pe_handle _ _ _ _ _ _ Hp)|].
  pose proof (pe_length _ _ _ _ _ _ Hp). lia.
Qed.

(** The same calculus for calls on the backing alone. *)
Definition wsound {A} (g : Geometry) U (m : M W CoreError A) w (Q : A → W → Prop) : Prop :=
  ∀ r w', m w = (r, w') → data_evolves g U (is_ok r) w w' ∧ ∀ a, r = Ok a → Q a w'.

Lemma wsound_ret {A} g U (a : A) w (Q : A → W → Prop) : inv w → Q a w → wsound g U (m_ret a) w Q.
Proof. intros Hi HQ r w' [= <- <-]. split; [by apply data_evolves_refl|]. by intros a' [= <-]. Qed.

Lemma wsound_err {A} g U e w (Q : A → W → Prop) : inv w → wsound g U (m_err e) w Q.
Proof. intros Hi r w' [= <- <-]. split; [by apply data_evolves_refl|done]. Qed.

Lemma wsound_lift {A} g U v w (Q : A → W → Prop) : inv w → (∀ a, v = Ok a → Q a w) → wsound g U (m_lift v) w Q.
Proof. intros Hi HQ r w' [= <- <-]. split; [by apply data_evolves_refl|done]. Qed.

Lemma wsound_bind {A B} g U (m : M W CoreError A) (k : A → M W CoreError B) w Q R :
  wsound g U m w Q → (∀ a w1, inv w1 → data_evolves g U true w w1 → Q a w1 → wsound g U (k a) w1 R) →
  wsound g U (m_bind m k) w R.
Proof.
  intros Hm Hk r w' [(a & w1 & Hr1 & Hr)|(e & Hr & ->)]%m_bind_inv; cycle 1.
  { destruct (Hm _ _ Hr) as [Hd _]. done. }
  destruct (Hm _ _ Hr1) as [Hd HQ]. destruct (Hk a w1 (data_evolves_inv _ _ _ _ _ Hd) Hd (HQ a eq_refl) _ _ Hr) as [Hd' HR].
  split; [|done]. exact (data_evolves_trans _ _ _ _ _ _ _ Hd Hd').
Qed.

Lemma wsound_io {A} g U (m : M W ErrorKind A) w (Q : A → W → Prop) :
  (∀ r w', m w = (r, w') → data_evolves g U (is_ok r) w w' ∧ ∀ a, r = Ok a → Q a w') → wsound g U (core_io m) w Q.
Proof.
  intros Hm r w' (r0 & Hr & ->)%m_map_err_inv. destruct (Hm _ _ Hr) as [Hd HQ].
  rewrite is_ok_map_err. split; [done|]. destruct r0; [|done]. intros a' [= <-]. auto.
Qed.

Lemma wsound_weaken {A} g U (m : M W CoreError A) w (Q Q' : A → W → Prop) :
  wsound g U m w Q → (∀ a w', Q a w' → Q' a w') → wsound g U m w Q'.
Proof. intros Hm HQ r w' Hr. destruct (Hm _ _ Hr) as [? ?]. naive_solver. Qed.

Lemma wsound_create_data g idx w :
  inv w → geometry_wf g → 0 ≤ idx < num_shards g → wsound g nothing (create_data g idx) w (ready g idx).
Proof.
  intros Hi Hg Hidx. unfold create_data.
  eapply wsound_bind.
  { apply (wsound_io _ _ _ _ (λ f w1, handle w1 f (shard_data idx))). intros r w1 Hr.
    destruct (evolve_open g Hg nothing idx _ _ _ _ Hi Hidx Hr) as (? & _ & ?). done. }
  intros f w1 Hi1 _ Hh. eapply wsound_bind.
  { apply (wsound_io _ _ _ _ (λ _ w2, physical_size g ≤ blen (content w2 idx))). intros r w2 Hr.
    destruct (evolve_set_len g Hg nothing idx _ _ _ _ Hi1 Hidx Hh Hr) as [? Hl]. split; [done|].
    intros [] ->. by apply Hl. }
  intros [] w2 Hi2 Hd2 Hl. pose proof (pe_handle _ _ _ _ _ _ (proj2 Hd2 idx Hidx) _ Hh) as Hh2.
  eapply wsound_bind.
  { apply (wsound_io _ _ _ _ (λ _ w3, content w3 idx = content w2 idx)). intros r w3 Hr.
    destruct (evolve_sync g Hg nothing idx _ _ _ _ Hi2 Hidx Hh2 Hr) as [? ?]. done. }
  intros [] w3 Hi3 Hd3 Hc. apply wsound_ret; [done|]. split; [|by rewrite Hc].
  by apply (pe_handle _ _ _ _ _ _ (proj2 Hd3 idx Hidx)).
Qed.

(** Publishing a new shard: the catalog and the shard table in one step. *)
Lemma sound_publish idx sh c s w :
  store_ok s w → st_shards s !! idx = None → shard_ok (st_geometry s) w idx sh → Catalog.catalog_ok c →
  (∀ i, i ∈ Catalog.shards c ↔ i = idx ∨ i ∈ Catalog.shards (st_catalog s)) →
  short sh = None → map_stored sh = true → (∀ k, 0 ≤ k → bit (alloc sh) k = false ∧ is_discarded sh k = false) →
  (st_discard_enabled s = false → discard sh = None) →
  sound nothing (let* _ := modify_state (λ s, set_catalog c (st_catalog_dirty s) s) in put_shard idx sh) s w
    (λ _ s' _, st_shards s' !! idx = Some sh).
Proof.
  intros Hok Hn Hsh Hc Hel Hshort Hst Hbits Hmarks r s' w' [= <- <- <-]. split; [|split].
  - destruct Hok as [I G C L A S B]. split; try done; simpl.
    + intros i. rewrite Hel, L, lookup_insert_is_Some'. naive_solver.
    + intros i x. rewrite lookup_insert_Some. intros [[<- <-]|[_ Hx]]; [done|by apply S].
    + intros i Hi Hni. apply B; [done|]. rewrite lookup_insert_None in Hni. naive_solver.
  - split; [done|done|by eapply data_evolves_refl, ok_inv| | |]; simpl.
    + intros i x Hx. rewrite lookup_insert_ne by congruence. exists x. split; [done|apply shard_evolves_refl].
    + intros i x Hni. rewrite lookup_insert_Some. intros [[<- <-]|[_ Hx]]; [|congruence].
      split; [done|]. split; [done|]. auto.
    + intros i x Hni. rewrite lookup_insert_Some. intros [[<- <-]|[_ Hx]]; [done|congruence].
  - intros [] _. simpl. by rewrite lookup_insert_eq.
Qed.

(** What the new shard is made of. *)
Lemma new_shard_ok g w idx f m d :
  0 ≤ idx < num_shards g → ready g idx f w → empty_map g m → discard_of g idx d → solid w (shard_data idx) [] →
  shard_ok g w idx (mkShard m (alloc_store idx g) f false true None d.1 d.2 false).
Proof.
  intros Hi [Hh Hl] (Hm & Hu & _) Hd Hs. split; try done. simpl. unfold discard_of in Hd.
  destruct d as [[dm|] [ab|]]; try done. by destruct Hd as [(? & ? & _) ?].
Qed.

Lemma sound_store_record c s w :
  store_ok s w → Catalog.catalog_ok c →
  sound nothing (on_world (core_format (store_record (st_catalog_ab s) c))) s w
    (λ c' s' _, s' = s ∧ Catalog.catalog_ok c' ∧ Catalog.shards c' = Catalog.shards c).
Proof.
  intros Hok Hc. rewrite (ok_catalog_ab _ _ Hok). apply sound_frame; [done| |].
  - apply frames_core_format. eapply frames_weaken;
      [|apply frames_store_record; [apply catalog_store_of_ok|by apply catalog_wf]].
    intros p. apply catalog_sides.
  - intros c' w' Hr%core_format_ok%store_record_ok _.
    destruct (store_result _ _ _ _ _ (ok_inv _ _ Hok) (catalog_store_of_ok _) (catalog_wf _ Hc) Hr) as (? & next & ->).
    done.
Qed.

Lemma listed_range s w i : store_ok s w → i ∈ Catalog.shards (st_catalog s) → 0 ≤ i < num_shards (st_geometry s).
Proof.
  intros Hok [sh Hs]%(ok_listed _ _ Hok). eapply sk_idx. by apply (ok_shards _ _ Hok).
Qed.

(** The last steps: directory, catalog, publication. *)
Lemma sound_ensure_publish idx f m d s w :
  store_ok s w → st_shards s !! idx = None → 0 ≤ idx < num_shards (st_geometry s) →
  ready (st_geometry s) idx f w → empty_map (st_geometry s) m → discard_of (st_geometry s) idx d → (st_discard_enabled s = false → d.1 = None) →
  sound nothing
    (let* _ := s_io (b_sync_dir DATA_DIR) in
     let* s1 := get_state in
     let* catalog := on_world (core_format
       (store_record (st_catalog_ab s1) (Catalog.insert idx (st_catalog s1)).1)) in
     let* _ := s_io (b_sync_dir "") in
     let* _ := modify_state (λ s, set_catalog catalog (st_catalog_dirty s) s) in
     put_shard idx (mkShard m (alloc_store idx (st_geometry s)) f false true None d.1 d.2 false)) s w
    (λ _ s' _, ∃ sh, st_shards s' !! idx = Some sh ∧ map_stored sh = true).
Proof.
  intros Hok Hn Hidx Hrd Hm Hd Hmk. pose proof (ok_catalog _ _ Hok) as Hc.
  eapply sound_bind; [by apply sound_sync_dir|]. intros [] s1 w1 Hok1 E1 [-> Hso].
  pose proof (ready_evolves _ _ _ _ _ _ _ Hidx (ev_data _ _ _ _ _ _ E1) Hrd) as Hrd1.
  specialize (Hso idx (shard_data_direct idx) (law_handle _ _ _ (proj1 Hrd))).
  eapply sound_bind; [by apply (sound_get _ s w1 (λ a s1 w2, a = s ∧ s1 = s ∧ w2 = w1))|].
  intros a s2 w2 _ _ (-> & -> & ->).
  eapply sound_bind.
  { apply sound_store_record; [done|]. apply (Catalog.insert_ok _ _ (num_shards (st_geometry s))); try done.
    - apply (gwf_num_shards _ (ok_geometry _ _ Hok)).
    - intros y Hy. by eapply listed_range. }
  intros c s2 w2 Hok2 E2 (-> & Hc' & Hcs).
  eapply sound_bind; [by apply sound_sync_dir|]. intros [] s3 w3 Hok3 E3 [-> _].
  pose proof (evolves_trans _ _ _ _ _ _ _ _ _ E2 E3) as E23.
  pose proof (ready_evolves _ _ _ _ _ _ _ Hidx (ev_data _ _ _ _ _ _ E23) Hrd1) as Hrd3.
  pose proof (pe_solid _ _ _ _ _ _ (proj2 (ev_data _ _ _ _ _ _ E23) idx Hidx) Hso) as Hso3.
  eapply sound_weaken.
  - apply sound_publish; [done|done|by apply new_shard_ok|done| |done|done| |done].
    + intros i. rewrite Hcs. by apply Catalog.insert_elem.
    + intros k Hk. split; [by apply Hm|]. unfold is_discarded. simpl. unfold discard_of in Hd.
      destruct d as [[dm|] [ab|]]; try done. by destruct Hd as [(_ & _ & Hb) _]; apply Hb.
  - done.
  - intros [] s4 w4 _ _ Hs4. eauto.
Qed.

Lemma sound_ensure_new idx s w :
  store_ok s w → st_shards s !! idx = None → 0 ≤ idx < num_shards (st_geometry s) →
  sound nothing (ensure_shard idx) s w (λ _ s' _, ∃ sh, st_shards s' !! idx = Some sh ∧ map_stored sh = true).
Proof.
  intros Hok Hn Hidx. unfold ensure_shard.
  eapply sound_bind; [by apply (sound_get _ s w (λ a s1 w1, a = s ∧ s1 = s ∧ w1 = w))|].
  intros a s1 w1 _ _ (-> & -> & ->). rewrite Hn.
  eapply sound_bind; [by apply sound_create_discard|]. intros [d dab] s1 w1 Hok1 E1 (-> & Hd & Hmk).
  eapply sound_bind.
  { apply (sound_world nothing (create_data (st_geometry s) idx) s w1 (λ f s' w', s' = s ∧ ready (st_geometry s) idx f w'));
      [done|apply placed_nothing|].
    intros r w' Hr. destruct (wsound_create_data (st_geometry s) idx w1 (ok_inv _ _ Hok1) (ok_geometry _ _ Hok1) Hidx r w' Hr) as [? HQ].
    split; [done|]. auto. }
  intros f s2 w2 Hok2 E2 [-> Hrd].
  destruct (new_empty (st_geometry s) (ok_geometry _ _ Hok2)) as (m0 & Hm0 & Hempty).
  eapply sound_bind; [apply (sound_lift _ _ _ _ (λ m s' w', s' = s ∧ w' = w2 ∧ empty_map (st_geometry s) m)); [done|]|].
  { intros m. rewrite Hm0. by intros [= <-]. }
  intros m s3 w3 _ _ (-> & -> & Hm).
  eapply sound_bind; [by apply sound_create_maps|]. intros m' s4 w4 Hok4 E4 [-> Hm'].
  pose proof (ready_evolves _ _ _ _ _ _ _ Hidx (ev_data _ _ _ _ _ _ E4) Hrd) as Hrd4.
  eapply sound_bind; [apply sound_open; [by apply sound_commit_adopted_maps|apply keeps_open_commit]|].
  intros [] s5 w5 Hok5 E5 [_ D5].
  eapply sound_bind; [apply sound_open; [by apply sound_persist_discards|apply keeps_open_persist_discards]|].
  intros [] s6 w6 Hok6 E6 [_ D6].
  assert (st_shards s6 !! idx = None) as Hn6
    by (apply not_elem_of_dom; rewrite D6, D5; by apply not_elem_of_dom).
  pose proof (evolves_trans _ _ _ _ _ _ _ _ _ E5 E6) as E56.
  pose proof (ev_geometry _ _ _ _ _ _ E56) as G6.
  pose proof (ready_evolves _ _ _ _ _ _ _ Hidx (ev_data _ _ _ _ _ _ E56) Hrd4) as Hrd6.
  pose proof (ev_enabled _ _ _ _ _ _ E56) as N6. rewrite <- G6, <- N6 in *. apply (sound_ensure_publish idx f m' (d, dab)); done.
Qed.

Lemma sound_ensure_shard idx s w :
  store_ok s w → 0 ≤ idx < num_shards (st_geometry s) →
  sound nothing (ensure_shard idx) s w (λ _ s' _, ∃ sh, st_shards s' !! idx = Some sh ∧ map_stored sh = true).
Proof.
  intros Hok Hidx. destruct (st_shards s !! idx) as [sh|] eqn:Hs; [|by apply sound_ensure_new].
  unfold ensure_shard.
  eapply sound_bind; [by apply (sound_get _ s w (λ a s1 w1, a = s ∧ s1 = s ∧ w1 = w))|].
  intros a s1 w1 _ _ (-> & -> & ->). rewrite Hs. apply sound_when; [done| |].
  - intros _. eapply sound_bind; [by apply sound_commit_adopted_maps|]. intros [] s1 w1 Hok1 E1 _.
    eapply sound_weaken; [by apply sound_persist_allocations|done|]. intros [] s2 w2 Hok2 E2 Hall.
    destruct (evolves_shard _ _ _ _ _ _ _ _ E1 Hs) as (sh1 & Hs1 & _).
    destruct (evolves_shard _ _ _ _ _ _ _ _ E2 Hs1) as (sh2 & Hs2 & _). exists sh2. split; [done|by eapply Hall].
  - intros [Hm%negb_false_iff _]%orb_false_iff. eauto.
Qed.

(** ** Slots *)

(** The bytes of a slot version. *)
Definition version (u seq : Z) (ct : bytes) : bytes := Slot.encode (slot_header_for u seq ct) ++ ct.

(** Its slot holds the version, for readers and for the next sync. *)
Definition written (g : Geometry) (u seq : Z) (ct : bytes) w : Prop :=
  let '(idx, k) := shard_of_unit g u in
  holds_at (Z.to_nat (slot_offset g k)) (version u seq ct) (content w idx) ∧
  ∃ d, dirty w (shard_data idx) = Some d ∧ holds_at (Z.to_nat (slot_offset g k)) (version u seq ct) d.

(** Where a device unit's slot lies. *)
Lemma slot_place g u idx k :
  geometry_wf g → 0 ≤ u < num_units g → shard_of_unit g u = (idx, k) →
  0 ≤ idx < num_shards g ∧ 0 ≤ k < units_per_shard g ∧ 0 ≤ slot_offset g k ∧
  slot_offset g k + slot_size g ≤ physical_size g ≤ U64_MAX ∧ 64 + max_ciphertext_size g ≤ slot_size g ∧
  add64 (slot_offset g k) 64 = slot_offset g k + 64.
Proof.
  intros Hg Hu Hs. destruct (shard_of_unit_range g u idx k Hg Hu Hs) as (Hi & Hk & _).
  destruct (slot_offset_bounds g k Hg Hk) as (H0' & H1' & H2'). pose proof (gwf_slot g Hg) as Hsl.
  pose proof (gwf_ct g Hg). pose proof (gwf_unit g Hg). pose proof (gwf_block g Hg).
  unfold SLOT_HEADER_SIZE, physical_size in *. split; [done|]. split; [done|]. split; [done|]. split; [done|].
  split; [lia|]. unfold add64, U64_MAX in *. apply Z.mod_small. lia.
Qed.

Lemma wsound_write_version g idx k f u seq ct w :
  inv w → geometry_wf g → 0 ≤ u < num_units g → shard_of_unit g u = (idx, k) → ready g idx f w →
  blen ct ≤ max_ciphertext_size g →
  wsound g (λ x, x = u) (write_version f (slot_offset g k) u seq ct) w (λ _ w', written g u seq ct w').
Proof.
  intros Hi Hg Hu Hs [Hh Hl] Hct. destruct (slot_place g u idx k Hg Hu Hs) as (Hidx & Hk & Ho & Hend & Hsz & Hadd).
  unfold write_version. rewrite Hadd. set (o := slot_offset g k) in *.
  set (hb := Slot.encode (slot_header_for u seq ct)).
  assert (blen hb = 64) as Hhb by (unfold blen, hb; by rewrite Slot.slot_length_encode).
  pose proof (blen_nonneg ct) as Hct0.
  eapply wsound_bind.
  { apply (wsound_io _ _ _ _ (λ _ w1, holds_at (Z.to_nat o) hb (content w1 idx) ∧
      ∃ d, dirty w1 (shard_data idx) = Some d ∧ holds_at (Z.to_nat o) hb d)). intros r w1 Hr.
    destruct (evolve_write g Hg (λ x, x = u) idx u k w f o hb r w1 Hi Hidx Hh eq_refl Hs Ho)
      as (? & HQ & _); [lia|lia|lia|done|done|]. split; [done|]. intros [] ->. by apply HQ. }
  intros [] w1 Hi1 Hd1 (Hc1 & d1 & Hdd1 & Hhd1). pose proof (proj2 Hd1 idx Hidx) as Hp1.
  apply wsound_io. intros r w2 Hr.
  destruct (evolve_write g Hg (λ x, x = u) idx u k w1 f (o + 64) ct r w2 Hi1 Hidx
    (pe_handle _ _ _ _ _ _ Hp1 _ Hh) eq_refl Hs Ho) as (Hev & HQ & Hout); [lia|lia|lia| |done|].
  { pose proof (pe_length _ _ _ _ _ _ Hp1). lia. }
  split; [done|]. intros [] ->. destruct (HQ eq_refl) as (Hc2 & d2 & Hdd2 & Hhd2).
  assert (apart (Z.to_nat o) hb (o + 64) (blen ct)) as Hap by (right; lia).
  destruct (Hout _ _ Hap) as [Hk1 Hk2]. destruct (Hk2 d1 Hdd1 Hhd1) as (d2' & Hdd2' & Hhd2').
  assert (d2' = d2) as -> by congruence.
  unfold written. rewrite Hs. unfold version. fold hb o. rewrite holds_at_app.
  replace (Z.to_nat o + length hb)%nat with (Z.to_nat (o + 64)) by (unfold blen in Hhb; lia).
  split; [by split; auto|]. exists d2. split; [done|]. rewrite holds_at_app.
  replace (Z.to_nat o + length hb)%nat with (Z.to_nat (o + 64)) by (unfold blen in Hhb; lia). done.
Qed.

Lemma sound_validate_unit U u s w :
  store_ok s w → sound U (validate_unit u) s w (λ _ s' w', s' = s ∧ w' = w ∧ u < num_units (st_geometry s)).
Proof.
  intros Hok. eapply sound_bind; [by apply (sound_get _ s w (λ a s1 w1, a = s ∧ s1 = s ∧ w1 = w))|].
  intros a s1 w1 _ _ (-> & -> & ->). destruct (Z.leb_spec (num_units (st_geometry s)) u); [by apply sound_err|].
  apply sound_ret; [done|]. done.
Qed.

(** Lifting an inner run that touches no unit. *)
Lemma sound_inner {A} U (m : M (SlotStore * W) CoreError A) s w Q : sound nothing m s w Q → sound U m s w Q.
Proof. intros Hm. eapply sound_weaken; [exact Hm|by intros u []|done]. Qed.

Lemma sound_write_slot u seq ct s w :
  store_ok s w → 0 ≤ u →
  sound (λ x, x = u) (write_slot u seq ct) s w (λ _ s' w',
    u < num_units (st_geometry s) ∧ blen ct ≤ max_ciphertext_size (st_geometry s) ∧
    written (st_geometry s) u seq ct w' ∧
    ∃ sh, st_shards s' !! (shard_of_unit (st_geometry s) u).1 = Some sh ∧ map_stored sh = true ∧ short sh = None).
Proof.
  intros Hok Hu0. unfold write_slot.
  eapply sound_bind; [by apply sound_validate_unit|]. intros [] s1 w1 _ _ (-> & -> & Hu).
  eapply sound_bind; [by apply (sound_get _ s w (λ a s1 w1, a = s ∧ s1 = s ∧ w1 = w))|].
  intros a s1 w1 _ _ (-> & -> & ->).
  destruct (Z.ltb_spec (max_ciphertext_size (st_geometry s)) (blen ct)) as [|Hct]; [by apply sound_err|].
  destruct (shard_of_unit (st_geometry s) u) as [idx k] eqn:Hsu.
  destruct (slot_place _ u idx k (ok_geometry _ _ Hok) (conj Hu0 Hu) Hsu) as (Hidx & _).
  eapply sound_bind; [by apply sound_inner, sound_ensure_shard|]. intros [] s1 w1 Hok1 E1 (sh1 & Hs1 & Hst1).
  eapply sound_bind; [by apply sound_inner, sound_prove_data_file|]. intros [] s2 w2 Hok2 E2 (sh2 & Hs2 & Hsh2).
  pose proof (evolves_trans _ _ _ _ _ _ _ _ _ E1 E2) as E12.
  pose proof (ev_geometry _ _ _ _ _ _ E12) as G2.
  destruct (evolves_shard _ _ _ _ _ _ _ _ E2 Hs1) as (sh2' & Hs2' & _ & Hst2 & _).
  assert (sh2' = sh2) as -> by congruence.
  eapply sound_bind.
  { apply (sound_get_shard _ idx s2 w2 (λ sh s3 w3, st_shards s2 !! idx = Some sh ∧ s3 = s2 ∧ w3 = w2)); auto. }
  intros sh s3 w3 _ _ (Hs3 & -> & ->). assert (sh = sh2) as -> by congruence.
  pose proof (ok_shards _ _ Hok2 _ _ Hs2) as Hshok.
  rewrite <- G2 in *. apply sound_world; [done| |].
  - intros x i j -> Hx. rewrite Hsu in Hx. injection Hx as <- <-. by eexists.
  - intros r w' Hr.
    destruct (wsound_write_version (st_geometry s2) idx k (data sh2) u seq ct w2 (ok_inv _ _ Hok2)
      (ok_geometry _ _ Hok2) (conj Hu0 Hu) Hsu) with (r := r) (w' := w') as [Hd HQ]; [|done|done|].
    { split; [by eapply sk_handle|]. by eapply sk_length. }
    split; [done|]. intros [] ->. split; [done|]. split; [done|]. split; [by apply (HQ tt)|].
    simpl. exists sh2. auto.
Qed.

(** ** Marks *)

Lemma unit_slot g u : geometry_wf g → 0 ≤ u → 0 ≤ (shard_of_unit g u).2 < units_per_shard g.
Proof.
  intros Hg Hu. pose proof (gwf_units_per_shard g Hg). unfold shard_of_unit. simpl. apply Z.mod_pos_bound. lia.
Qed.

Lemma sound_mark_allocated u s w :
  store_ok s w → 0 ≤ u →
  sound (λ x, x = u) (mark_allocated u) s w (λ _ s' _, ∃ sh,
    st_shards s' !! (shard_of_unit (st_geometry s) u).1 = Some sh ∧
    bit (alloc sh) (shard_of_unit (st_geometry s) u).2 = true).
Proof.
  intros Hok Hu0. unfold mark_allocated.
  eapply sound_bind; [by apply sound_validate_unit|]. intros [] s1 w1 _ _ (-> & -> & Hu).
  eapply sound_bind; [by apply (sound_get _ s w (λ a s1 w1, a = s ∧ s1 = s ∧ w1 = w))|].
  intros a s1 w1 _ _ (-> & -> & ->).
  pose proof (unit_slot _ u (ok_geometry _ _ Hok) Hu0) as Hk.
  destruct (shard_of_unit (st_geometry s) u) as [idx k] eqn:Hsu. cbn [fst snd] in *.
  destruct (slot_place _ u idx k (ok_geometry _ _ Hok) (conj Hu0 Hu) Hsu) as (Hidx & _).
  eapply sound_bind; [by apply sound_inner, sound_ensure_shard|]. intros [] s1 w1 Hok1 E1 (sh1 & Hs1 & _).
  pose proof (ev_geometry _ _ _ _ _ _ E1) as G1.
  eapply sound_bind.
  { apply (sound_get_shard _ idx s1 w1 (λ sh s3 w3, st_shards s1 !! idx = Some sh ∧ s3 = s1 ∧ w3 = w1)); auto. }
  intros sh s3 w3 _ _ (Hs3 & -> & ->). assert (sh = sh1) as -> by congruence.
  pose proof (ok_shards _ _ Hok1 _ _ Hs1) as Hsh. pose proof (sk_alloc _ _ _ _ Hsh) as Ha.
  rewrite <- G1 in *. rewrite <- (sk_units _ _ _ _ Hsh) in Hk.
  apply sound_when; [done| |intros Hb%negb_false_iff; by exists sh1]. intros _.
  destruct (put_bit_ok (alloc sh1) k true Ha) as [Hpo Hpu].
  eapply sound_put; [done|done| | |].
  - destruct Hsh. split; try done. simpl. congruence.
  - split; auto. simpl. intros j Hj Hns. rewrite bit_put by done.
    destruct (Z.eqb_spec j k) as [->|]; [|done]. exfalso. apply Hns. by exists u.
  - simpl. rewrite lookup_insert_eq. eexists. split; [done|]. simpl. rewrite bit_put by (done || lia).
    by rewrite Z.eqb_refl.
Qed.

Lemma sound_set_discarded u b s w :
  store_ok s w → 0 ≤ u →
  sound (λ x, x = u) (set_discarded u b) s w (λ _ s' w', w' = w ∧ ∃ sh,
    st_shards s' !! (shard_of_unit (st_geometry s) u).1 = Some sh ∧
    is_discarded sh (shard_of_unit (st_geometry s) u).2 = b).
Proof.
  intros Hok Hu0. unfold set_discarded.
  eapply sound_bind; [by apply (sound_get _ s w (λ a s1 w1, a = s ∧ s1 = s ∧ w1 = w))|].
  intros a s1 w1 _ _ (-> & -> & ->). destruct (st_discard_enabled s); [|by apply sound_err].
  pose proof (unit_slot _ u (ok_geometry _ _ Hok) Hu0) as Hk.
  destruct (shard_of_unit (st_geometry s) u) as [idx k] eqn:Hsu. cbn [fst snd negb] in *.
  eapply sound_bind.
  { apply (sound_lift _ _ s w (λ sh s1 w1, st_shards s !! idx = Some sh ∧ s1 = s ∧ w1 = w)); [done|].
    intros sh. by destruct (st_shards s !! idx); [intros [= <-]|]. }
  intros sh s1 w1 _ _ (Hs & -> & ->). eapply sound_bind.
  { apply (sound_lift _ _ s w (λ m s1 w1, discard sh = Some m ∧ s1 = s ∧ w1 = w)); [done|].
    intros m. by destruct (discard sh); [intros [= <-]|]. }
  intros m s1 w1 _ _ (Hm & -> & ->).
  pose proof (ok_shards _ _ Hok _ _ Hs) as Hsh. pose proof (sk_discard _ _ _ _ Hsh) as Hd. rewrite Hm in Hd.
  destruct (discard_ab sh) as [ab|] eqn:Hab; [|done]. destruct Hd as (Hmok & Hmu & ->).
  rewrite <- Hmu in Hk.
  apply sound_when; [done| |intros Hb%negb_false_iff%eqb_prop; split; [done|]; exists sh; split; [done|];
    unfold is_discarded; by rewrite Hm]. intros _.
  destruct (put_bit_ok m k b Hmok) as [Hpo Hpu].
  eapply sound_put; [done|done| | |].
  - rewrite <- Hab. by eapply discard_shard_ok.
  - split; auto; [|by rewrite Hm]. intros j Hj Hns. unfold is_discarded. simpl. rewrite Hm, bit_put by done.
    destruct (Z.eqb_spec j k) as [->|]; [|done]. exfalso. apply Hns. by exists u.
  - split; [done|]. simpl. rewrite lookup_insert_eq. eexists. split; [done|]. unfold is_discarded. simpl.
    rewrite bit_put by (done || lia). by rewrite Z.eqb_refl.
Qed.

(** ** Barriers and reservations *)

Lemma sound_sync_shard_data idx s w :
  store_ok s w → sound nothing (sync_shard_data idx) s w (λ _ s' _, s' = s).
Proof.
  intros Hok. unfold sync_shard_data.
  eapply sound_bind; [by apply (sound_get _ s w (λ a s1 w1, a = s ∧ s1 = s ∧ w1 = w))|].
  intros a s1 w1 _ _ (-> & -> & ->). destruct (st_shards s !! idx) as [sh|] eqn:Hs; [|by apply sound_ret].
  eapply sound_weaken; [apply sound_sync; [done|apply placed_nothing|done]|done|]. by intros [] s1 w1 _ _ [-> _].
Qed.

Lemma sound_reclaim U f c b s w (Q : unit → SlotStore → W → Prop) :
  store_ok s w → f s = set_reclaim c b s → (∀ idx start, c = Some (idx, start) → 0 ≤ start) →
  Q tt (set_reclaim c b s) w → sound U (modify_state f) s w Q.
Proof.
  intros Hok Hf Hc HQ. apply sound_modify; rewrite ?Hf; [by destruct Hok| |done].
  split; [done|done|by eapply data_evolves_refl, ok_inv| |simpl; congruence|simpl; congruence].
  intros idx sh Hs. exists sh. split; [done|apply shard_evolves_refl].
Qed.

Lemma allocate_evolves g idx k f w r w' :
  inv w → geometry_wf g → 0 ≤ idx < num_shards g → 0 ≤ k < units_per_shard g → ready g idx f w →
  f_allocate_range f (slot_offset g k) (slot_size g) w = (r, w') → data_evolves g nothing (is_ok r) w w'.
Proof.
  intros Hi Hg Hidx Hk [Hh Hl] Hr. destruct (slot_offset_bounds g k Hg Hk) as (H0' & H1' & H2').
  fold (physical_size g) in H1', H2'. destruct (law_handle _ _ _ Hh) as [c Hc].
  assert (content w idx = c) as Hcc by (unfold content; by rewrite Hc). rewrite Hcc in Hl.
  assert (0 ≤ slot_size g) as Hs by (pose proof (gwf_slot g Hg); pose proof (gwf_ct g Hg); pose proof (gwf_unit g Hg); pose proof (gwf_block g Hg); unfold SLOT_HEADER_SIZE in *; lia).
  destruct (law_allocate _ _ _ _ _ _ _ _ Hi Hh Hc H0' Hs ltac:(lia) Hr) as (w1 & Hk1 & [(-> & _ & _)|[Hlt _]]); [|lia].
  by eapply (data_evolves_keeps g nothing _ (λ _, True)).
Qed.

Lemma sound_reserve_slot u s w :
  store_ok s w → 0 ≤ u → sound nothing (reserve_slot u) s w (λ _ s' _, ∃ sh,
    st_shards s' !! (shard_of_unit (st_geometry s) u).1 = Some sh ∧ map_stored sh = true ∧ short sh = None).
Proof.
  intros Hok Hu0. unfold reserve_slot.
  eapply sound_bind; [by apply sound_validate_unit|]. intros [] s1 w1 _ _ (-> & -> & Hu).
  eapply sound_bind; [by apply (sound_get _ s w (λ a s1 w1, a = s ∧ s1 = s ∧ w1 = w))|].
  intros a s1 w1 _ _ (-> & -> & ->).
  destruct (shard_of_unit (st_geometry s) u) as [idx k] eqn:Hsu. cbn [fst snd].
  destruct (slot_place _ u idx k (ok_geometry _ _ Hok) (conj Hu0 Hu) Hsu) as (Hidx & Hk & _).
  eapply sound_bind.
  { apply (sound_map_err _ _ _ s w (λ _ s1 _, ∃ sh, st_shards s1 !! idx = Some sh ∧ map_stored sh = true ∧ short sh = None)).
    eapply sound_bind; [by apply sound_ensure_shard|]. intros [] s1 w1 Hok1 E1 (sh1 & Hs1 & Hst1).
    eapply sound_weaken; [by apply sound_prove_data_file|done|]. intros [] s2 w2 Hok2 E2 (sh2 & Hs2 & Hsh2).
    destruct (evolves_shard _ _ _ _ _ _ _ _ E2 Hs1) as (sh2' & Hs2' & _ & Hst2 & _).
    assert (sh2' = sh2) as -> by congruence. exists sh2. auto. }
  intros [] s1 w1 Hok1 E1 (sh1 & Hs1 & Hst1 & Hsh1). pose proof (ev_geometry _ _ _ _ _ _ E1) as G1.
  pose proof (ok_shards _ _ Hok1 _ _ Hs1) as Hshok.
  eapply sound_bind.
  { apply (sound_get_shard _ idx s1 w1 (λ sh s3 w3, st_shards s1 !! idx = Some sh ∧ s3 = s1 ∧ w3 = w1)); auto. }
  intros sh s3 w3 _ _ (Hs3 & -> & ->). assert (sh = sh1) as -> by congruence. rewrite <- G1 in *.
  eapply sound_bind.
  { apply (sound_file nothing idx sh1 _ s1 w1 (λ _ s2 _, s2 = s1)); [done|apply placed_nothing|done|].
    intros r w' Hr. split; [|done]. eapply (allocate_evolves (st_geometry s1) idx k (data sh1)); try done;
      [by eapply ok_inv|by eapply ok_geometry|].
    split; [by eapply sk_handle|by eapply sk_length]. }
  intros [] s2 w2 Hok2 E2 ->. eapply (sound_handled nothing (s_io (f_sync_all (data sh1)))).
  - apply (sound_sync_all nothing idx sh1); [done|apply placed_nothing|done].
  - intros [] s3 w3 Hok3 _ [-> _]. apply sound_ret; [done|]. by exists sh1.
  - intros e s3 w3 r s' w' Hok3 [= <- <- <-]. split; [done|]. split; [by destruct Hok3|].
    split; [done|done|by eapply data_evolves_refl, ok_inv| |simpl; congruence|simpl; congruence].
    intros i sh Hi. exists sh. split; [done|apply shard_evolves_refl].
Qed.

(** ** Releasing slots *)

Lemma runs_in l x n : (x, n) ∈ runs l → 0 < n ∧ ∀ j, x ≤ j < x + n → j ∈ l.
Proof.
  revert x n. induction l as [|y l IH]; intros x n; simpl; [by intros ?%not_elem_of_nil|].
  assert (∀ x n, (x, n) ∈ runs l → 0 < n ∧ ∀ j, x ≤ j < x + n → j ∈ y :: l) as Hl.
  { intros x' n' Hin. destruct (IH _ _ Hin) as [? Hj]. split; [done|]. intros j ?. apply elem_of_cons. auto. }
  assert (0 < 1 ∧ ∀ j, y ≤ j < y + 1 → j ∈ y :: l) as Hone.
  { split; [lia|]. intros j ?. apply elem_of_cons. left. lia. }
  destruct (runs l) as [|[z m] tl] eqn:Hr.
  { intros [= -> ->]%list_elem_of_singleton. done. }
  destruct (Z.eqb_spec z (y + 1)) as [->|].
  - rewrite elem_of_cons. intros [[= -> ->]|Hin]; [|apply Hl; set_solver].
    destruct (Hl (y + 1) m ltac:(set_solver)) as [? Hj]. split; [lia|]. intros j ?.
    destruct (Z.eq_dec j y) as [->|]; [set_solver|]. apply Hj. lia.
  - rewrite elem_of_cons. intros [[= -> ->]|Hin]; [done|]. by apply Hl.
Qed.

Lemma covers_slots g U idx x n :
  geometry_wf g → (∀ j, x ≤ j < x + n → 0 ≤ j ∧ slot_in g U idx j) →
  covers g U idx (slot_offset g x) (slot_size g * n).
Proof.
  intros Hg Hin i Hi. pose proof (gwf_slot g Hg). pose proof (gwf_ct g Hg). pose proof (gwf_unit g Hg).
  pose proof (gwf_block g Hg). unfold SLOT_HEADER_SIZE, slot_offset in *.
  assert (0 < slot_size g) as Hs by lia.
  pose proof (Z.div_mod (Z.of_nat i) (slot_size g) ltac:(lia)) as Hdm.
  pose proof (Z.mod_pos_bound (Z.of_nat i) (slot_size g) Hs) as Hmb.
  set (j := Z.of_nat i / slot_size g) in *.
  destruct (Hin j) as [_ (u & Hu & Hsu)]; [nia|]. exists u, j. split; [done|]. split; [done|]. unfold slot_offset. nia.
Qed.

Lemma wsound_punch_runs g U idx f rs b w :
  inv w → geometry_wf g → 0 ≤ idx < num_shards g → handle w f (shard_data idx) →
  (∀ x n, (x, n) ∈ rs → 0 < n ∧ ∀ j, x ≤ j < x + n → 0 ≤ j ∧ slot_in g U idx j) →
  wsound g U (punch_runs g f rs b) w (λ _ _, True).
Proof.
  intros Hi Hg Hidx Hh. revert b w Hi Hh. induction rs as [|[x n] rs IH]; intros b w Hi Hh Hrs; simpl; [by apply wsound_ret|].
  destruct (Hrs x n ltac:(set_solver)) as [Hn Hin].
  assert (∀ b w1, data_evolves g U true w w1 → wsound g U (punch_runs g f rs b) w1 (λ _ _, True)) as Hrest.
  { intros b' w1 Hd. apply IH; [apply Hd|by apply (pe_handle _ _ _ _ _ _ (proj2 Hd idx Hidx))|set_solver]. }
  eapply wsound_bind; [apply (wsound_lift _ _ _ _ (λ len w1, w1 = w ∧ len = slot_size g * n)); [done|]|].
  { intros len. destruct (checked_mul _ _) as [v|] eqn:Hc; [|done]. intros [= <-].
    by apply checked_mul_some in Hc as [-> _]. }
  intros len w1 _ _ [-> ->].
  assert (covers g U idx (slot_offset g x) (slot_size g * n)) as Hcov by (by apply covers_slots).
  pose proof (gwf_slot g Hg). pose proof (gwf_ct g Hg). pose proof (gwf_unit g Hg). pose proof (gwf_block g Hg).
  unfold SLOT_HEADER_SIZE in *. destruct (Hin x ltac:(lia)) as [Hx0 _].
  intros r w'. unfold m_bind, m_try. destruct (f_punch_hole f _ _ w) as [rp w1] eqn:Hp.
  assert (∀ ok, data_evolves g U ok w w1) as Hd.
  { intros ok. eapply evolve_punch; [done|done|done|exact Hh|exact Hcov|unfold slot_offset; nia|nia|exact Hp]. }
  assert (∀ b, punch_runs g f rs b w1 = (r, w') →
    data_evolves g U (is_ok r) w w' ∧ ∀ a, r = Ok a → True) as Hgo.
  { intros b' Hr. destruct (Hrest b' w1 (Hd true) r w' Hr) as [Hd' _]. split; [|done].
    exact (data_evolves_trans _ _ _ _ _ _ _ (Hd true) Hd'). }
  destruct rp as [[]|e]; [apply Hgo|]. destruct e; try (intros [= <- <-]; split; [apply Hd|done]). apply Hgo.
Qed.

(** The grouping by shard loses and invents no unit. *)
Lemma by_shard_slots g us idx l k :
  by_shard g us !! idx = Some l → k ∈ l → ∃ u, u ∈ us ∧ shard_of_unit g u = (idx, k).
Proof.
  revert l. unfold by_shard. induction us as [|u us IH] using rev_ind; intros l.
  { simpl. by rewrite lookup_empty. }
  rewrite foldl_snoc. set (m := foldl _ ∅ us) in *. destruct (shard_of_unit g u) as [i j] eqn:Hu.
  rewrite lookup_insert_Some. intros [[<- <-]|[Hne Hl]] Hk.
  - apply elem_of_app in Hk as [Hk|Hk%list_elem_of_singleton].
    + destruct (m !! i) as [l0|] eqn:Hm; [|by apply not_elem_of_nil in Hk].
      destruct (IH l0 eq_refl Hk) as (u' & ? & ?). exists u'. set_solver.
    + subst k. exists u. set_solver.
  - destruct (IH l Hl Hk) as (u' & ? & ?). exists u'. set_solver.
Qed.

(** Every open shard's file is open. *)
Definition files_open s w : Prop :=
  ∀ idx sh, st_shards s !! idx = Some sh → 0 ≤ idx < num_shards (st_geometry s) ∧ handle w (data sh) (shard_data idx).

Lemma files_open_ok s w : store_ok s w → files_open s w.
Proof. intros Hok idx sh Hs. destruct (ok_shards _ _ Hok _ _ Hs). done. Qed.

Lemma files_open_evolves s U ok w w' :
  data_evolves (st_geometry s) U ok w w' → files_open s w → files_open s w'.
Proof.
  intros [_ Hp] Hf idx sh Hs. destruct (Hf _ _ Hs) as [Hi Hh]. split; [done|]. by apply (pe_handle _ _ _ _ _ _ (Hp idx Hi)).
Qed.

Lemma wsound_punch_shards s U todo w :
  geometry_wf (st_geometry s) → inv w → files_open s w →
  (∀ idx l k, (idx, l) ∈ todo → k ∈ l → 0 ≤ k ∧ slot_in (st_geometry s) U idx k) →
  wsound (st_geometry s) U (punch_shards s todo) w (λ _ _, True).
Proof.
  intros Hg. revert w. induction todo as [|[idx slots] todo IH]; intros w Hi Hf Hall; [by apply wsound_ret|].
  cbn [punch_shards]. eapply wsound_bind.
  { apply (wsound_lift _ _ _ _ (λ sh w1, w1 = w ∧ st_shards s !! idx = Some sh)); [done|].
    intros sh. by destruct (st_shards s !! idx); [intros [= <-]|]. }
  intros sh w1 _ _ [-> Hs]. destruct (Hf _ _ Hs) as [Hidx Hh].
  eapply wsound_bind.
  { apply (wsound_punch_runs _ _ idx); [done|done|done|done|].
    intros x n Hin. destruct (runs_in _ _ _ Hin) as [Hn Hj]. split; [done|]. intros j Hr.
    apply (Hall idx slots); [set_solver|].
    specialize (Hj j Hr). rewrite elem_of_remove_dups in Hj. by rewrite (merge_sort_Permutation Z.le) in Hj. }
  intros punched w1 Hi1 Hd1 _. pose proof (pe_handle _ _ _ _ _ _ (proj2 Hd1 idx Hidx) _ Hh) as Hh1.
  eapply wsound_bind.
  { apply (wsound_weaken _ _ _ _ (λ _ _, True) (λ _ _, True)); [|done].
    destruct punched; [|by apply (wsound_ret _ _ _ _ (λ _ _, True))]. apply wsound_io. intros r w2 Hr.
    by destruct (evolve_sync _ Hg U idx _ _ _ _ Hi1 Hidx Hh1 Hr) as [? _]. }
  intros [] w2 Hi2 Hd2 _. apply IH; [done| |set_solver].
  eapply files_open_evolves; [exact Hd2|]. by eapply files_open_evolves.
Qed.

Lemma wsound_punch_slots us s w :
  store_ok s w → wsound (st_geometry s) (λ u, u ∈ us) (punch_slots s us) w (λ _ _, True).
Proof.
  intros Hok. pose proof (ok_geometry _ _ Hok) as Hg.
  apply wsound_punch_shards; [done|by eapply ok_inv|by apply files_open_ok|].
  intros idx l k Hin Hk. apply elem_of_entries in Hin.
  destruct (by_shard_slots _ _ _ _ _ Hin Hk) as (u & Hu & Hs). split; [|by exists u].
  injection Hs as _ <-. pose proof (gwf_units_per_shard _ Hg). apply Z.mod_pos_bound. lia.
Qed.

(** A reclamation window touches only discarded units the caller allows. *)
Definition reclaimable (can_punch : Z → bool) s u : Prop :=
  can_punch u = true ∧ ∃ sh, st_shards s !! (shard_of_unit (st_geometry s) u).1 = Some sh ∧
    is_discarded sh (shard_of_unit (st_geometry s) u).2 = true.

Lemma window_reclaimable can_punch s w idx sh m start n u :
  store_ok s w → st_shards s !! idx = Some sh → discard sh = Some m → 0 ≤ start → start + n ≤ units m →
  u ∈ List.filter can_punch ((λ k, idx * units_per_shard (st_geometry s) + k) <$> List.filter (bit m) (seqZ start n)) →
  reclaimable can_punch s u.
Proof.
  intros Hok Hs Hm Hst Hn. rewrite list_elem_of_In, filter_In, <- list_elem_of_In, list_elem_of_fmap.
  intros [(k & -> & Hk) Hc]. rewrite list_elem_of_In, filter_In, <- list_elem_of_In, elem_of_seqZ in Hk.
  destruct Hk as [Hk Hb]. split; [done|].
  pose proof (sk_discard _ _ _ _ (ok_shards _ _ Hok _ _ Hs)) as Hd. rewrite Hm in Hd.
  destruct (discard_ab sh); [|done]. destruct Hd as (_ & Hu & _).
  pose proof (gwf_units_per_shard _ (ok_geometry _ _ Hok)) as Hp.
  assert (shard_of_unit (st_geometry s) (idx * units_per_shard (st_geometry s) + k) = (idx, k)) as ->.
  { unfold shard_of_unit. f_equal.
    - rewrite Z.div_add_l, Z.div_small by lia. lia.
    - rewrite Z.add_comm, Z.mod_add, Z.mod_small by lia. done. }
  exists sh. split; [done|]. unfold is_discarded. simpl. by rewrite Hm.
Qed.

Lemma reclaimable_placed can_punch s : placed s (reclaimable can_punch s).
Proof. intros u idx k (_ & sh & Hs & _) Hu. rewrite Hu in Hs. by eexists. Qed.

(** Giving up a window: the store stalls and reports the failure. *)
Lemma stall_handled U (e : CoreError) s w (r : result CoreError unit) s' w' :
  store_ok s w →
  (let* _ := modify_state (λ s, set_reclaim (st_reclaim_cursor s) true s) in m_err (A := unit) e) (s, w) = (r, (s', w')) →
  is_ok r = false ∧ store_ok s' w' ∧ evolves U true s w s' w'.
Proof.
  intros Hok [= <- <- <-]. split; [done|].
  destruct (sound_reclaim U (λ s, set_reclaim (st_reclaim_cursor s) true s) (st_reclaim_cursor s) true s w
    (λ _ _ _, True) Hok eq_refl (ok_cursor _ _ Hok) I _ _ _ eq_refl) as (? & ? & _). done.
Qed.

Lemma sound_retry_reclamation can_punch s w :
  store_ok s w → sound (reclaimable can_punch s) (retry_reclamation can_punch) s w (λ _ s' _, st_shards s' = st_shards s).
Proof.
  intros Hok. unfold retry_reclamation.
  eapply sound_bind; [by apply (sound_get _ s w (λ a s1 w1, a = s ∧ s1 = s ∧ w1 = w))|].
  intros a s1 w1 _ _ (-> & -> & ->).
  destruct (st_reclaim_cursor s) as [[idx start]|] eqn:Hcur; [|by apply sound_ret].
  pose proof (ok_cursor _ _ Hok _ _ Hcur) as Hst.
  eapply sound_bind.
  { apply (sound_get_shard _ idx s w (λ sh s3 w3, st_shards s !! idx = Some sh ∧ s3 = s ∧ w3 = w)); auto. }
  intros sh s1 w1 _ _ (Hs & -> & ->). destruct (dirty_discard sh).
  { intros r s' w' Hr. destruct (stall_handled (reclaimable can_punch s) _ _ _ _ _ _ Hok Hr) as (Hf & ? & ?).
    split; [done|]. split; [|by intros a ->]. by eapply evolves_weaken. }
  eapply sound_bind.
  { apply (sound_lift _ _ s w (λ m s1 w1, discard sh = Some m ∧ s1 = s ∧ w1 = w)); [done|].
    intros m. by destruct (discard sh); [intros [= <-]|]. }
  intros m s1 w1 _ _ (Hm & -> & ->). cbv zeta.
  set (us := List.filter can_punch _).
  assert (∀ u, u ∈ us → reclaimable can_punch s u) as Hus.
  { intros u. eapply window_reclaimable; [done|done|done|done|lia]. }
  eapply (sound_handled _ (on_world (punch_slots s us))).
  - apply (sound_world _ _ s w (λ _ s1 _, s1 = s)); [done|apply reclaimable_placed|]. intros r w' Hr.
    destruct (wsound_punch_slots us s w Hok r w' Hr) as [Hd _]. split; [|done].
    exact (data_evolves_weaken _ _ _ (is_ok r) _ _ _ Hus (λ e, e) Hd).
  - intros [] s1 w1 Hok1 E1 ->. eapply sound_reclaim; [done|done| |done].
    intros i st. destruct (_ <? _); [intros [= <- <-]; unfold saturating_add, U64_MAX;
      pose proof (sk_discard _ _ _ _ (ok_shards _ _ Hok _ _ Hs)) as Hd; rewrite Hm in Hd|].
    + destruct (discard_ab sh); [|done]. destruct Hd as ((_ & ? & _) & _). lia.
    + destruct (List.find _ _); [|done]. by intros [= <- <-].
  - intros e s1 w1 r s' w' Hok1 Hr. by eapply stall_handled.
Qed.

Lemma sound_schedule_reclamation s w :
  store_ok s w → sound nothing schedule_reclamation s w (λ _ s' _, st_shards s' = st_shards s).
Proof.
  intros Hok. eapply sound_reclaim; [done|done| |done]. intros i st. destruct (List.find _ _); [|done].
  by intros [= <- <-].
Qed.

Lemma pair_min_or a b : pair_min a b = a ∨ pair_min a b = b.
Proof. unfold pair_min. destruct (_ || _); auto. Qed.

Lemma sound_reclaim_unwritten u s w :
  store_ok s w → 0 ≤ u → sound (λ x, x = u) (reclaim_unwritten u) s w (λ _ s' w', w' = w ∧
    ∀ sh, st_shards s' !! (shard_of_unit (st_geometry s) u).1 = Some sh →
      is_discarded sh (shard_of_unit (st_geometry s) u).2 = true).
Proof.
  intros Hok Hu. unfold reclaim_unwritten.
  eapply sound_bind; [by apply (sound_get _ s w (λ a s1 w1, a = s ∧ s1 = s ∧ w1 = w))|].
  intros a s1 w1 _ _ (-> & -> & ->).
  destruct (shard_of_unit (st_geometry s) u) as [idx k] eqn:Hsu. cbn [fst snd].
  destruct (st_shards s !! idx) as [sh|] eqn:Hs; cycle 1.
  { apply sound_ret; [done|]. split; [done|]. congruence. }
  eapply sound_bind; [by apply sound_set_discarded|]. rewrite Hsu. cbn [fst snd].
  intros [] s1 w1 Hok1 E1 (-> & sh1 & Hs1 & Hd). eapply sound_reclaim; [done|done| |].
  - intros i st [= Hi]. pose proof (unit_slot _ u (ok_geometry _ _ Hok) Hu) as Hk. rewrite Hsu in Hk. cbn [snd] in Hk.
    destruct (st_reclaim_cursor s1) as [[i0 st0]|] eqn:Hcur.
    + destruct (pair_min_or (i0, st0) (idx, k)) as [He|He]; rewrite He in Hi; injection Hi as <- <-; [|lia].
      by eapply ok_cursor.
    + injection Hi as <- <-. lia.
  - split; [done|]. simpl. intros sh' Hsh'. congruence.
Qed.

(** ** Checkpoint plans *)

(** Every target of a plan is the slot of its unit, in an open file of full
    size that the plan will sync. *)
Record target_ok (g : Geometry) w (files : gmap Z F) (t : CheckpointSlotTarget) : Prop := {
  tg_ready : ready g (shard_of_unit g (t_unit t)).1 (t_data t) w;
  tg_offset : t_offset t = slot_offset g (shard_of_unit g (t_unit t)).2;
  tg_files : files !! (shard_of_unit g (t_unit t)).1 = Some (t_data t)
}.

Definition plan_ok s w (us : list Z) (ts : list CheckpointSlotTarget) (files : gmap Z F) : Prop :=
  t_unit <$> ts = us ∧ Forall (target_ok (st_geometry s) w files) ts ∧
  ∀ idx f, files !! idx = Some f → ∃ sh, st_shards s !! idx = Some sh ∧ data sh = f.

Lemma target_ok_evolves g U ok w w' files files' t :
  geometry_wf g → data_evolves g U ok w w' → files ⊆ files' → 0 ≤ (shard_of_unit g (t_unit t)).1 < num_shards g →
  target_ok g w files t → target_ok g w' files' t.
Proof.
  intros Hg Hd Hf Hidx [Hr Ho Hfi]. split; [by eapply ready_evolves|done|]. by eapply lookup_weaken.
Qed.

Lemma sound_plan_targets us0 us acc files s w :
  store_ok s w → plan_ok s w us0 acc files →
  sound nothing (plan_targets us acc files) s w (λ '(ts, fs) s' w', plan_ok s' w' (us0 ++ us) ts fs).
Proof.
  revert us0 acc files s w. induction us as [|u us IH]; intros us0 acc files s w Hok Hp; cbn [plan_targets].
  { apply sound_ret; [done|]. by rewrite app_nil_r. }
  eapply sound_bind; [by apply (sound_get _ s w (λ a s1 w1, a = s ∧ s1 = s ∧ w1 = w))|].
  intros a s1 w1 _ _ (-> & -> & ->).
  destruct (shard_of_unit (st_geometry s) u) as [idx k] eqn:Hsu.
  destruct (st_shards s !! idx) as [sh|] eqn:Hs; [|by apply sound_err].
  eapply sound_bind; [by apply sound_prove_data_file|]. intros [] s1 w1 Hok1 E1 (sh1 & Hs1 & Hsh1).
  eapply sound_bind.
  { apply (sound_get_shard _ idx s1 w1 (λ sh s3 w3, st_shards s1 !! idx = Some sh ∧ s3 = s1 ∧ w3 = w1)); auto. }
  intros sh' s3 w3 _ _ (Hs3 & -> & ->). assert (sh' = sh1) as -> by congruence.
  pose proof (ev_geometry _ _ _ _ _ _ E1) as G1. rewrite <- G1 in *.
  set (files' := match files !! idx with Some _ => _ | None => _ end).
  destruct Hp as (Hus & Hts & Hfs).
  assert (∀ i f, files !! i = Some f → ∃ sh, st_shards s1 !! i = Some sh ∧ data sh = f) as Hfs1.
  { intros i f Hf. destruct (Hfs i f Hf) as (x & Hx & <-).
    destruct (evolves_shard _ _ _ _ _ _ _ _ E1 Hx) as (x' & Hx' & Hdx & _). by exists x'. }
  assert (files ⊆ files') as Hsub.
  { unfold files'. destruct (files !! idx) eqn:Hf; [done|by apply insert_subseteq]. }
  assert (files' !! idx = Some (data sh1)) as Hidx'.
  { unfold files'. destruct (files !! idx) as [f|] eqn:Hf; [|by rewrite lookup_insert_eq].
    destruct (Hfs1 _ _ Hf) as (x & Hx & <-). congruence. }
  replace (us0 ++ u :: us) with ((us0 ++ [u]) ++ us) by (by rewrite <- app_assoc). apply IH; [done|]. split; [by rewrite fmap_app, Hus|]. split.
  - apply Forall_app. split.
    + rewrite Forall_forall in Hts |- *. intros t Ht. specialize (Hts t Ht). rewrite <- G1 in Hts.
      eapply target_ok_evolves; [by eapply ok_geometry| |exact Hsub| |exact Hts].
      * rewrite G1. by eapply ev_data.
      * pose proof (tg_files _ _ _ _ Hts) as Hf. destruct (Hfs1 _ _ Hf) as (x & Hx & _).
        by eapply sk_idx, ok_shards.
    + constructor; [|done]. split; cbn [t_unit t_data t_offset]; rewrite Hsu; [|done|done].
      pose proof (ok_shards _ _ Hok1 _ _ Hs1) as Hshok. split; [by eapply sk_handle|by eapply sk_length].
  - intros i f. unfold files'. destruct (files !! idx) as [f0|] eqn:Hf0; [by apply Hfs1|].
    rewrite lookup_insert_Some. intros [[<- <-]|[_ Hf]]; [by exists sh1|by apply Hfs1].
Qed.
End Invariant.
