(* ===== verification/StoreReads.v ===== *)
(** * StoreReads: what a slot read returns

    [view] is a pure function of the store's maps and of the bytes of the
    shard's file: the unit's version, zeros, or corruption.  [read_slot] of
    store.rs computes exactly it, and every operation of the store leaves the
    views of the units it does not name as they were. *)

From S2P Require Import Prelude BTreeMap Codec Layout Geometry AbRecord Metadata Superblock Backing AbStore FixedCopy JournalWriter Volumes SlotStore StoreData StoreProof.
Import Store Allocation.

Local Open Scope Z_scope.

Section Reads.
Context `{Crc32} `{BackingLaws W F} `{HashOrder}.
Implicit Types (s : SlotStore (F := F)) (w : W) (sh : Shard (F := F)) (c : bytes).

(** ** The view of a unit *)

(** A header of [u] whose ciphertext fits. *)
Definition header_at (g : Geometry) (u k : Z) c : option Slot.SlotHeader :=
  hb ← read_range c (slot_offset g k) 64;
  match Slot.decode hb with
  | Ok h => if (Slot.unit_index h =? u) && (Slot.ciphertext_len h <=? max_ciphertext_size g) then Some h else None
  | Err _ => None
  end.

(** One whose ciphertext is there and has its checksum. *)
Definition version_at (g : Geometry) (u k : Z) c : option (Z * bytes) :=
  h ← header_at g u k c;
  ct ← read_range c (slot_offset g k + 64) (Slot.ciphertext_len h);
  if crc32 ct =? Slot.ciphertext_crc h then Some (Slot.write_sequence h, ct) else None.

(** A slot no writer reached. *)
Definition untouched (g : Geometry) (k : Z) (sf : option ShortFile) c : bool :=
  match read_range c (slot_offset g k) 64 with
  | Some hb => all_zero hb
  | None => bool_decide (sf = Some Unproven)
  end.

Definition shard_view (g : Geometry) (u k : Z) sh c : result CoreError SlotRead :=
  if is_discarded sh k then Ok SlotZero
  else if negb (bit (alloc sh) k) && untouched g k (short sh) c then Ok SlotZero
  else match version_at g u k c with
       | Some (seq, ct) => if bit (alloc sh) k || (0 <? seq) then Ok (SlotCiphertext seq ct) else Err CoreCorrupt
       | None => Err CoreCorrupt
       end.

Definition view s w (u : Z) : result CoreError SlotRead :=
  let '(idx, k) := shard_of_unit (st_geometry s) u in
  match st_shards s !! idx with
  | None => Ok SlotZero
  | Some sh => shard_view (st_geometry s) u k sh (content w idx)
  end.

(** ** Reading computes it

    [reads m w v]: the call leaves the backing as it was and returns [v],
    unless the storage reports an error. *)
Definition reads {A} (m : M W CoreError A) w (v : result CoreError A) : Prop :=
  ∀ r w', m w = (r, w') →
    keeps (λ _, True) w w' ∧ (r = v ∨ ∃ e, r = Err (CoreIo e)) ∧ (quiet w → r = v).

Lemma reads_lift {A} w (v : result CoreError A) : inv w → reads (m_lift v) w v.
Proof. intros Hi r w' [= <- <-]. split; [by apply keeps_refl|]. auto. Qed.

Lemma reads_then {A B} (m : M W CoreError A) (k : A → M W CoreError B) w a v :
  reads m w (Ok a) → (∀ w1, keeps (λ _, True) w w1 → reads (k a) w1 v) → reads (m_bind m k) w v.
Proof.
  intros Hm Hk r w'. unfold m_bind. destruct (m w) as [r1 w1] eqn:Hr1. destruct (Hm _ _ Hr1) as (Hk1 & Hv & Hq).
  destruct r1 as [a'|e].
  - assert (a' = a) as -> by (destruct Hv as [Hv|[? Hv]]; by simplify_eq). intros Hr.
    destruct (Hk w1 Hk1 _ _ Hr) as (Hk2 & Hv2 & Hq2). split; [by eapply keeps_trans|]. split; [done|].
    intros Hqw. apply Hq2. by eapply keeps_quiet.
  - intros [= <- <-]. split; [done|]. destruct Hv as [Hv|[e' Hv]]; [done|]. injection Hv as ->.
    split; [eauto|]. intros Hqw. by specialize (Hq Hqw).
Qed.

Lemma reads_then_err {A B} (m : M W CoreError A) (k : A → M W CoreError B) w e :
  reads m w (Err e) → reads (m_bind m k) w (Err e).
Proof.
  intros Hm r w'. unfold m_bind. destruct (m w) as [r1 w1] eqn:Hr1. destruct (Hm _ _ Hr1) as (Hk1 & Hv & Hq).
  destruct r1 as [a|e1]; [by destruct Hv as [|[? ?]]|]. intros [= <- <-]. split; [done|].
  destruct Hv as [Hv|[e' Hv]]; injection Hv as ->; [auto|]. split; [eauto|]. intros Hqw.
  specialize (Hq Hqw). congruence.
Qed.

Lemma reads_len f idx w :
  inv w → handle w f (shard_data idx) → reads (core_io (f_len f)) w (Ok (blen (content w idx))).
Proof.
  intros Hi Hh r w' (r0 & Hr & ->)%m_map_err_inv. destruct (handle_content _ _ _ Hh) as (c & d & Hc & _ & ->).
  destruct (law_len _ _ _ _ _ _ Hi Hh Hc Hr) as (Hk & Hn & Hq). split; [done|].
  destruct r0 as [n|e]; simpl; [rewrite (Hn n eq_refl); auto|]. split; [eauto|]. intros Hqw. by specialize (Hq Hqw).
Qed.

Lemma range_reads f idx o n w :
  inv w → handle w f (shard_data idx) → 0 ≤ o → 0 ≤ n → o + n ≤ U64_MAX →
  reads (m_map_err slot_read_error (f_read_at f o n)) w (ok_or (read_range (content w idx) o n) CoreCorrupt).
Proof.
  intros Hi Hh Ho Hn Hb r w' (r0 & Hr & ->)%m_map_err_inv.
  destruct (handle_content _ _ _ Hh) as (c & d & Hc & _ & ->).
  destruct (law_read _ _ _ _ _ _ _ _ Hi Hh Hc Ho Hn Hb Hr) as (Hk & Hok & Heof & Hq).
  pose proof (law_read_eof _ _ _ _ _ _ _ _ Hi Hh Hc Ho Hn Hb Hr) as Hqe. split; [done|]. split.
  - destruct r0 as [b|e]; simpl; [left; by rewrite (Hok b eq_refl)|].
    destruct e; simpl; eauto. left. by rewrite Heof.
  - intros Hqw. destruct (read_range c o n) as [b|] eqn:Hrr; simpl; [by rewrite (Hq Hqw b eq_refl)|].
    by rewrite Hqe.
Qed.

(** The header part of a view. *)
Definition header_view (g : Geometry) (u k : Z) sh c : result CoreError (option Slot.SlotHeader) :=
  if is_discarded sh k then Ok None
  else if negb (bit (alloc sh) k) && untouched g k (short sh) c then Ok None
  else match header_at g u k c with
       | Some h => if bit (alloc sh) k || (0 <? Slot.write_sequence h) then Ok (Some h) else Err CoreCorrupt
       | None => Err CoreCorrupt
       end.

Lemma reads_eq {A} (m : M W CoreError A) w v v' : v = v' → reads m w v → reads m w v'.
Proof. by intros ->. Qed.

Lemma keeps_content w w' idx : keeps (λ _, True) w w' → content w' idx = content w idx.
Proof. intros Hk. unfold content. by rewrite (keeps_vis _ _ _ _ Hk). Qed.

Lemma read_range_some c o n : 0 ≤ o → 0 ≤ n → is_Some (read_range c o n) ↔ o + n ≤ blen c.
Proof.
  intros Ho Hn. unfold read_range. destruct (Z.leb_spec (o + n) (blen c)); [by split|].
  split; [by intros []|lia].
Qed.

Definition probe_view (g : Geometry) (u k : Z) (sf : option ShortFile) c : Probe :=
  if untouched g k sf c then ProbeUnwritten
  else match read_range c (slot_offset g k) 64 with
       | Some hb =>
           match Slot.decode hb with
           | Ok h => if (Slot.unit_index h =? u) && (0 <? Slot.write_sequence h) then ProbeHeader h else ProbeDamaged
           | Err _ => ProbeDamaged
           end
       | None => ProbeDamaged
       end.

Lemma reads_probe g u idx k sh w :
  inv w → handle w (data sh) (shard_data idx) → geometry_wf g → 0 ≤ u < num_units g →
  shard_of_unit g u = (idx, k) →
  reads (probe_header g sh u k (blen (content w idx))) w (Ok (probe_view g u k (short sh) (content w idx))).
Proof.
  intros Hi Hh Hg Hu Hs. destruct (slot_place g u idx k Hg Hu Hs) as (_ & _ & Ho & Hb & Hm & Ha).
  pose proof (gwf_ct g Hg). pose proof (gwf_unit g Hg). pose proof (gwf_block g Hg).
  unfold probe_header, probe_view, untouched. rewrite Ha.
  pose proof (read_range_some (content w idx) _ 64 Ho ltac:(lia)) as Hrr.
  destruct (Z.ltb_spec (blen (content w idx)) (slot_offset g k + 64)) as [Hlt|Hge].
  - destruct (read_range _ _ _) as [hb|] eqn:Hr; [pose proof (proj1 Hrr ltac:(by eexists)); lia|].
    destruct (bool_decide _); by apply reads_lift.
  - destruct (proj2 Hrr Hge) as [hb Hhb]. rewrite Hhb.
    pose proof (range_reads (data sh) idx (slot_offset g k) 64 w Hi Hh Ho ltac:(lia) ltac:(lia)) as Hra.
    rewrite Hhb in Hra. eapply reads_then; [exact Hra|]. intros w1 Hk1. pose proof (keeps_inv _ _ _ Hk1) as Hi1.
    destruct (all_zero hb); by apply reads_lift.
Qed.

(** The header before the check of its ciphertext length: of a unit listed
    in the map, and of one that is not. *)
Definition listed_view (g : Geometry) (u k : Z) c : result CoreError (option Slot.SlotHeader) :=
  match read_range c (slot_offset g k) 64 with
  | Some hb =>
      match Slot.decode hb with
      | Ok h => if Slot.unit_index h =? u then Ok (Some h) else Err CoreCorrupt
      | Err _ => Err CoreCorrupt
      end
  | None => Err CoreCorrupt
  end.

Definition probed_view (p : Probe) : result CoreError (option Slot.SlotHeader) :=
  match p with
  | ProbeUnwritten => Ok None
  | ProbeDamaged => Err CoreCorrupt
  | ProbeHeader header => Ok (Some header)
  end.

Lemma reads_listed f g u idx k w :
  inv w → handle w f (shard_data idx) → 0 ≤ slot_offset g k → slot_offset g k + 64 ≤ U64_MAX →
  reads (let* header_bytes := m_map_err slot_read_error (f_read_at f (slot_offset g k) 64) in
         let* header := m_lift (map_err (λ _, CoreCorrupt) (Slot.decode header_bytes)) in
         if negb (Slot.unit_index header =? u) then m_err CoreCorrupt else m_ret (Some header)) w
    (listed_view g u k (content w idx)).
Proof.
  intros Hi Hh Ho Hb. pose proof (range_reads f idx (slot_offset g k) 64 w Hi Hh Ho ltac:(lia) Hb) as Hra.
  unfold listed_view. destruct (read_range _ _ 64) as [hb|]; [|by apply reads_then_err].
  eapply reads_then; [exact Hra|]. intros w1 Hk1. pose proof (keeps_inv _ _ _ Hk1) as Hi1.
  destruct (Slot.decode hb) as [h|e]; [|by apply reads_then_err, reads_lift].
  eapply reads_then; [by apply reads_lift|]. intros w2 Hk2. pose proof (keeps_inv _ _ _ Hk2) as Hi2.
  destruct (Slot.unit_index h =? u); by apply reads_lift.
Qed.

Lemma reads_probed g u idx k sh w :
  inv w → handle w (data sh) (shard_data idx) → geometry_wf g → 0 ≤ u < num_units g →
  shard_of_unit g u = (idx, k) →
  reads (let* len := core_io (f_len (data sh)) in
         let* probe := probe_header g sh u k len in
         match probe with
         | ProbeUnwritten => m_ret None
         | ProbeDamaged => m_err CoreCorrupt
         | ProbeHeader header => m_ret (Some header)
         end) w (probed_view (probe_view g u k (short sh) (content w idx))).
Proof.
  intros Hi Hh Hg Hu Hsu. eapply reads_then; [by apply reads_len|]. intros w1 Hk1.
  rewrite <- (keeps_content _ _ idx Hk1).
  eapply reads_then; [apply (reads_probe _ u idx k); try done; [by eapply keeps_inv|by apply (keeps_handle _ _ _ _ _ Hk1)]|].
  intros w2 Hk2. pose proof (keeps_inv _ _ _ Hk2). destruct (probe_view _ _ _ _ _); by apply reads_lift.
Qed.

Lemma header_view_eq g u k sh c :
  is_discarded sh k = false →
  header_view g u k sh c =
    match (if bit (alloc sh) k then listed_view g u k c else probed_view (probe_view g u k (short sh) c)) with
    | Ok (Some h) => if max_ciphertext_size g <? Slot.ciphertext_len h then Err CoreCorrupt else Ok (Some h)
    | r => r
    end.
Proof.
  intros Hd. unfold header_view, header_at, listed_view, probe_view. rewrite Hd.
  destruct (bit (alloc sh) k); cbn [negb andb orb]; [|destruct (untouched _ _ _ _); [done|]];
    destruct (read_range _ _ 64) as [hb|]; cbn [mbind option_bind]; try done;
    destruct (Slot.decode hb) as [h|e]; try done; rewrite Z.leb_antisym.
  - destruct (_ =? _); [|done]. by destruct (_ <? _).
  - destruct (_ =? _); [|done]. destruct (0 <? _) eqn:Hs; simpl; destruct (_ <? Slot.ciphertext_len h); simpl; by rewrite ?Hs.
Qed.

Lemma reads_slot_header s w u idx k sh :
  store_ok s w → 0 ≤ u < num_units (st_geometry s) → shard_of_unit (st_geometry s) u = (idx, k) →
  st_shards s !! idx = Some sh →
  reads (slot_header s u) w (header_view (st_geometry s) u k sh (content w idx)).
Proof.
  intros Hok Hu Hsu Hs. pose proof (ok_inv _ _ Hok) as Hi. pose proof (ok_geometry _ _ Hok) as Hg.
  pose proof (sk_handle _ _ _ _ (ok_shards _ _ Hok _ _ Hs)) as Hh.
  destruct (slot_place _ u idx k Hg Hu Hsu) as (_ & _ & Ho & Hb & Hm & Ha).
  pose proof (gwf_ct _ Hg). pose proof (gwf_unit _ Hg). pose proof (gwf_block _ Hg).
  unfold slot_header. rewrite Hsu, Hs. destruct (is_discarded sh k) eqn:Hd.
  { unfold header_view. rewrite Hd. by apply reads_lift. }
  rewrite header_view_eq by done. set (v := if bit (alloc sh) k then listed_view _ _ _ _ else _).
  match goal with |- reads (m_bind ?m _) _ _ => assert (reads m w v) as Hm1 end.
  { unfold v. destruct (bit (alloc sh) k); [by apply reads_listed; [..|lia]|by apply reads_probed]. }
  destruct v as [[h|]|e].
  - eapply reads_then; [exact Hm1|]. intros w1 Hk1. cbv beta iota. destruct (max_ciphertext_size _ <? Slot.ciphertext_len h); apply reads_lift; by eapply keeps_inv.
  - eapply reads_then; [exact Hm1|]. intros w1 Hk1. apply reads_lift. by eapply keeps_inv.
  - by apply reads_then_err.
Qed.

Lemma header_at_some g u k c h :
  header_at g u k c = Some h → Slot.unit_index h = u ∧ Slot.ciphertext_len h ≤ max_ciphertext_size g ∧
  ∃ hb, read_range c (slot_offset g k) 64 = Some hb ∧ Slot.decode hb = Ok h.
Proof.
  unfold header_at. destruct (read_range _ _ 64) as [hb|]; [|done]. simpl.
  destruct (Slot.decode hb) as [x|] eqn:Hd; [|done]. destruct (_ && _) eqn:Hb; [|done]. intros [= ->].
  apply andb_true_iff in Hb as [?%Z.eqb_eq ?%Z.leb_le]. eauto.
Qed.

Lemma reads_read_slot s w u :
  store_ok s w → 0 ≤ u < num_units (st_geometry s) → reads (read_slot s u) w (view s w u).
Proof.
  intros Hok Hu. pose proof (ok_inv _ _ Hok) as Hi. pose proof (ok_geometry _ _ Hok) as Hg. unfold read_slot, view.
  destruct (shard_of_unit (st_geometry s) u) as [idx k] eqn:Hsu.
  destruct (slot_place _ u idx k Hg Hu Hsu) as (_ & _ & Ho & Hb & Hm & Ha).
  destruct (st_shards s !! idx) as [sh|] eqn:Hs; cycle 1.
  { unfold slot_header. rewrite Hsu, Hs. eapply reads_then; [by apply reads_lift|]. intros w1 Hk1. apply reads_lift. by eapply keeps_inv. }
  pose proof (reads_slot_header s w u idx k sh Hok Hu Hsu Hs) as Hh.
  unfold header_view in Hh. unfold shard_view, version_at.
  assert (∀ w1, keeps (λ _, True) w w1 → reads (m_ret SlotZero) w1 (Ok SlotZero)) as Hz
    by (intros w1 Hk1; apply reads_lift; by eapply keeps_inv).
  destruct (is_discarded sh k); [by eapply reads_then|].
  destruct (_ && untouched _ _ _ _); [by eapply reads_then|].
  destruct (header_at _ _ _ _) as [h|] eqn:Hha; simpl; [|by apply reads_then_err].
  destruct (header_at_some _ _ _ _ _ Hha) as (_ & Hl & hb & _ & Hdec).
  destruct (bit (alloc sh) k || (0 <? Slot.write_sequence h)) eqn:Hseq; cycle 1.
  { destruct (read_range _ _ _); simpl; [destruct (_ =? _); rewrite ?Hseq|]; by apply reads_then_err. }
  eapply reads_then; [exact Hh|]. intros w1 Hk1. pose proof (keeps_inv _ _ _ Hk1) as Hi1.
  eapply reads_then; [by apply reads_lift|]. intros w2 Hk2. pose proof (keeps_trans _ _ _ _ Hk1 Hk2) as Hk12.
  pose proof (keeps_handle _ _ _ _ _ Hk12 I (sk_handle _ _ _ _ (ok_shards _ _ Hok _ _ Hs))) as Hh2.
  destruct (Slot.slot_decode_fields hb h Hdec) as (_ & _ & [Hl0 _] & _).
  pose proof (range_reads (data sh) idx (slot_offset (st_geometry s) k + 64) (Slot.ciphertext_len h) w2
    (keeps_inv _ _ _ Hk2) Hh2 ltac:(lia) ltac:(lia) ltac:(lia)) as Hra.
  rewrite (keeps_content _ _ idx Hk12) in Hra. rewrite Ha.
  destruct (read_range _ _ _) as [ct|]; simpl in *; [|by apply reads_then_err].
  eapply reads_then; [exact Hra|]. intros w3 Hk3. rewrite ?Hseq. cbv beta. destruct (crc32 ct =? Slot.ciphertext_crc h); simpl; rewrite ?Hseq; apply reads_lift; by eapply keeps_inv.
Qed.

(** ** A version reads back *)

Lemma decode_nonzero hb h : Slot.decode hb = Ok h → all_zero hb = false.
Proof.
  unfold Slot.decode. intros Hd. inv_res. apply bytes_eqb_eq in Hb0. apply not_true_iff_false. intros Hz.
  unfold all_zero in Hz. rewrite forallb_forall in Hz.
  assert (Init.Byte.x4d ∈ hb) as Hin.
  { rewrite <- (take_drop 8 hb). apply elem_of_app. left. rewrite take_take in Hb0. simpl in Hb0. rewrite Hb0. apply list_elem_of_In. by left. }
  rewrite list_elem_of_In in Hin. by specialize (Hz _ Hin).
Qed.

Lemma header_touched g u k sf c h : header_at g u k c = Some h → untouched g k sf c = false.
Proof. intros (_ & _ & hb & Hr & Hd)%header_at_some. unfold untouched. rewrite Hr. by eapply decode_nonzero. Qed.

Lemma version_touched g u k sf c v : version_at g u k c = Some v → untouched g k sf c = false.
Proof. unfold version_at. destruct (header_at g u k c) eqn:Hh; [|done]. intros _. by eapply header_touched. Qed.

Definition version_wf (g : Geometry) (u seq : Z) (ct : bytes) : Prop :=
  u64_ok u ∧ u64_ok seq ∧ blen ct ≤ max_ciphertext_size g.

Lemma header_for_ok g u seq ct :
  geometry_wf g → version_wf g u seq ct → Slot.slot_header_ok (slot_header_for u seq ct) ∧
  Slot.ciphertext_len (slot_header_for u seq ct) = blen ct.
Proof.
  intros Hg (Hu & Hs & Hl). pose proof (gwf_ct g Hg). change MAX_PAYLOAD with (2 ^ 24) in *.
  pose proof (blen_nonneg ct). assert (blen ct mod 2 ^ 32 = blen ct) as Hm by (apply Z.mod_small; lia).
  split; [|done]. unfold Slot.slot_header_ok, slot_header_for. simpl. rewrite Hm.
  split; [done|]. split; [done|]. split; [unfold u32_ok; lia|]. split; [unfold u32_ok; lia|]. apply crc32_u32.
Qed.

Lemma version_holds g u k seq ct c :
  geometry_wf g → version_wf g u seq ct → 0 ≤ slot_offset g k →
  holds_at (Z.to_nat (slot_offset g k)) (version u seq ct) c → version_at g u k c = Some (seq, ct).
Proof.
  intros Hg Hv Ho Hh. destruct (header_for_ok g u seq ct Hg Hv) as [Hok Hlen]. destruct Hv as (_ & _ & Hl).
  pose proof (holds_at_length _ _ _ Hh) as Hle. unfold version in *. rewrite length_app, Slot.slot_length_encode in Hle.
  apply holds_at_app in Hh as [Hh1 Hh2]. rewrite Slot.slot_length_encode in Hh2.
  assert (read_range c (slot_offset g k) 64 = Some (Slot.encode (slot_header_for u seq ct))) as Hr1.
  { apply read_range_holds; [done|lia|]. unfold blen. rewrite Slot.slot_length_encode. split; [done|]. split; [lia|done]. }
  assert (read_range c (slot_offset g k + 64) (blen ct) = Some ct) as Hr2.
  { apply read_range_holds; [lia|apply blen_nonneg|]. split; [done|]. split; [unfold blen; lia|].
    by replace (Z.to_nat (slot_offset g k + 64)) with (Z.to_nat (slot_offset g k) + 64)%nat by lia. }
  unfold version_at, header_at. rewrite Hr1. cbn [mbind option_bind].
  pose proof (Slot.slot_decode_encode (slot_header_for u seq ct) [] Hok) as Hd. rewrite app_nil_r in Hd. rewrite Hd, Hlen.
  change (Slot.unit_index (slot_header_for u seq ct)) with u. rewrite Z.eqb_refl, (proj2 (Z.leb_le _ _)) by done.
  cbn [andb mbind option_bind]. rewrite Hlen, Hr2. simpl. by rewrite Z.eqb_refl.
Qed.

Lemma shard_view_version g u k seq ct sh c :
  version_at g u k c = Some (seq, ct) → is_discarded sh k = false → bit (alloc sh) k = true ∨ 0 < seq →
  shard_view g u k sh c = Ok (SlotCiphertext seq ct).
Proof.
  intros Hv Hd Hs. unfold shard_view. rewrite Hd, (version_touched _ _ _ _ _ _ Hv), andb_false_r, Hv.
  destruct Hs as [->|Hs]; [done|]. rewrite (proj2 (Z.ltb_lt _ _) Hs), orb_true_r. done.
Qed.

(** ** Views beside other operations *)

Lemma read_range_ext c c' o n :
  0 ≤ o → 0 ≤ n → o + n ≤ blen c → o + n ≤ blen c' →
  (∀ i, o ≤ Z.of_nat i < o + n → c !! i = c' !! i) → read_range c o n = read_range c' o n.
Proof.
  intros Ho Hn Hc Hc' Hi. unfold read_range. rewrite !(proj2 (Z.leb_le _ _)) by done. f_equal.
  apply list_eq. intros i. destruct (decide (i < Z.to_nat n)%nat).
  - rewrite !lookup_take_lt, !lookup_drop by done. apply Hi. lia.
  - by rewrite !lookup_take_ge by lia.
Qed.

(** The bytes of a slot decide its view. *)
Lemma shard_view_ext g u k sh sh' c c' :
  geometry_wf g → 0 ≤ slot_offset g k → 64 + max_ciphertext_size g ≤ slot_size g →
  slot_offset g k + slot_size g ≤ blen c → slot_offset g k + slot_size g ≤ blen c' →
  (∀ i, slot_offset g k ≤ Z.of_nat i < slot_offset g k + slot_size g → c !! i = c' !! i) →
  is_discarded sh' k = is_discarded sh k → bit (alloc sh') k = bit (alloc sh) k →
  shard_view g u k sh' c' = shard_view g u k sh c.
Proof.
  intros Hg Ho Hm Hc Hc' Hi Hd Hb. pose proof (gwf_ct g Hg). pose proof (gwf_unit g Hg). pose proof (gwf_block g Hg).
  assert (∀ o n, 0 ≤ n → slot_offset g k ≤ o → o + n ≤ slot_offset g k + slot_size g →
    read_range c' o n = read_range c o n) as Hr.
  { intros o n Hn Hlo Hhi. apply read_range_ext; try lia. intros i Hii. symmetry. apply Hi. lia. }
  assert (header_at g u k c' = header_at g u k c) as Hh by (unfold header_at; by rewrite Hr by lia).
  assert (version_at g u k c' = version_at g u k c) as Hv.
  { unfold version_at. rewrite Hh. destruct (header_at g u k c) as [h|] eqn:Hha; [|done]. simpl.
    destruct (header_at_some _ _ _ _ _ Hha) as (_ & Hl & hb & _ & Hdec).
    destruct (Slot.slot_decode_fields hb h Hdec) as (_ & _ & [Hl0 _] & _). by rewrite Hr by lia. }
  unfold shard_view, untouched. rewrite Hd, Hb, Hv, Hr by lia.
  pose proof (proj2 (read_range_some c (slot_offset g k) 64 Ho ltac:(lia)) ltac:(lia)) as [hb ->]. done.
Qed.

(** The bytes of a unit's slot are out of reach of the other units. *)
Lemma slot_free g U v idx k i :
  geometry_wf g → 0 ≤ v < num_units g → shard_of_unit g v = (idx, k) → ¬ U v →
  slot_offset g k ≤ Z.of_nat i < slot_offset g k + slot_size g → free_byte g U idx i.
Proof.
  intros Hg Hv Hs HU Hi. destruct (slot_place g v idx k Hg Hv Hs) as (_ & Hk & Ho & Hb & _).
  split; [lia|]. intros (u & j & Hu & Hus & Hj). apply HU.
  enough (u = v) as <- by done. unfold shard_of_unit in Hs, Hus. pose proof (gwf_units_per_shard g Hg).
  injection Hs as <- <-. injection Hus as Hd <-.
  rewrite (Z.div_mod u (units_per_shard g)), (Z.div_mod v (units_per_shard g)) by lia. rewrite Hd. f_equal.
  unfold slot_offset in *. pose proof (gwf_slot g Hg). pose proof (gwf_ct g Hg). pose proof (gwf_unit g Hg).
  pose proof (gwf_block g Hg). unfold SLOT_HEADER_SIZE in *. nia.
Qed.

Lemma slot_not_in g U v idx k : geometry_wf g → shard_of_unit g v = (idx, k) → ¬ U v → ¬ slot_in g U idx k.
Proof.
  intros Hg Hs HU (u & Hu & Hus). apply HU. enough (u = v) as <- by done.
  pose proof (gwf_units_per_shard g Hg). unfold shard_of_unit in Hs, Hus. injection Hs as <- <-. injection Hus as Hd Hm.
  by rewrite (Z.div_mod u (units_per_shard g)), (Z.div_mod v (units_per_shard g)), Hd, Hm by lia.
Qed.

(** The unit's shard is not open or its file has its full size. *)
Definition settled s (u : Z) : Prop :=
  ∀ sh, st_shards s !! (shard_of_unit (st_geometry s) u).1 = Some sh → short sh = None.

Lemma holds_kept g U v idx k c c' o bs :
  geometry_wf g → 0 ≤ v < num_units g → shard_of_unit g v = (idx, k) → ¬ U v → kept g U idx c c' →
  slot_offset g k ≤ Z.of_nat o → Z.of_nat o + blen bs ≤ slot_offset g k + slot_size g →
  holds_at o bs c → holds_at o bs c'.
Proof.
  intros Hg Hv Hs HU Hk Hlo Hhi Hh i b Hb. pose proof (lookup_lt_Some _ _ _ Hb). unfold blen in Hhi.
  apply Hk; [|by apply Hh]. eapply slot_free; [done|done|done|done|lia].
Qed.

Lemma read_kept g U v idx k c c' o n bs :
  geometry_wf g → 0 ≤ v < num_units g → shard_of_unit g v = (idx, k) → ¬ U v → kept g U idx c c' →
  slot_offset g k ≤ o → 0 ≤ n → o + n ≤ slot_offset g k + slot_size g → bs ≠ [] →
  read_range c o n = Some bs → read_range c' o n = Some bs.
Proof.
  intros Hg Hv Hs HU Hk Hlo Hn Hhi Hne. destruct (slot_place g v idx k Hg Hv Hs) as (_ & _ & Ho & _).
  rewrite !read_range_holds by lia. intros (Hl & _ & Hh). split; [done|].
  assert (holds_at (Z.to_nat o) bs c') as Hh' by (eapply (holds_kept g U v idx k); try done; lia).
  split; [|done]. pose proof (holds_at_length _ _ _ Hh') as Hle. unfold blen in *.
  destruct bs; [done|]. simpl in *. lia.
Qed.

(** What a unit's slot holds stays, also in a file that is short. *)
Lemma version_kept g U v idx k c c' seq ct :
  geometry_wf g → 0 ≤ v < num_units g → shard_of_unit g v = (idx, k) → ¬ U v → kept g U idx c c' →
  Z.min (blen c) (physical_size g) ≤ blen c' →
  version_at g v k c = Some (seq, ct) → version_at g v k c' = Some (seq, ct).
Proof.
  intros Hg Hv Hs HU Hk Hle. destruct (slot_place g v idx k Hg Hv Hs) as (_ & _ & Ho & Hb & Hm & _).
  pose proof (gwf_ct g Hg). pose proof (gwf_unit g Hg). pose proof (gwf_block g Hg).
  unfold version_at. destruct (header_at g v k c) as [h|] eqn:Hh; [|done]. cbn [mbind option_bind].
  destruct (header_at_some _ _ _ _ _ Hh) as (Hu & Hl & hb & Hr & Hd).
  destruct (Slot.slot_decode_fields hb h Hd) as (_ & _ & [Hl0 _] & _).
  assert (header_at g v k c' = Some h) as ->.
  { unfold header_at. rewrite (read_kept g U v idx k c c' _ 64 hb); try done; try lia; [|by intros ->].
    cbn [mbind option_bind]. by rewrite Hd, Hu, Z.eqb_refl, (proj2 (Z.leb_le _ _)). }
  cbn [mbind option_bind]. destruct (read_range c _ (Slot.ciphertext_len h)) as [x|] eqn:Hx; [|done].
  assert (read_range c' (slot_offset g k + 64) (Slot.ciphertext_len h) = Some x) as ->; [|done].
  destruct (decide (x = [])) as [->|Hne]; [|eapply (read_kept g U v idx k); try done; lia].
  apply read_range_holds in Hx as (Hl1 & Hc & _); [|lia..]. apply read_range_holds; [lia..|].
  split; [done|]. split; [|by intros i b]. unfold blen in Hl1 at 1. simpl in Hl1. lia.
Qed.

(** An operation leaves the views of the units it does not touch. *)
Lemma view_evolves U ok s w s' w' v :
  store_ok s w → store_ok s' w' → evolves U ok s w s' w' → ¬ U v → 0 ≤ v < num_units (st_geometry s) →
  settled s v → view s' w' v = view s w v.
Proof.
  intros Hok Hok' He HU Hv Hse. pose proof (ok_geometry _ _ Hok) as Hg. pose proof (ev_geometry _ _ _ _ _ _ He) as G'.
  unfold view, settled in *. rewrite G'. destruct (shard_of_unit (st_geometry s) v) as [idx k] eqn:Hs. cbn [fst] in Hse.
  destruct (slot_place _ v idx k Hg Hv Hs) as (Hidx & Hk & Ho & Hb & Hm & _).
  pose proof (slot_not_in _ U v idx k Hg Hs HU) as Hni.
  pose proof (proj2 (ev_data _ _ _ _ _ _ He) idx Hidx) as Hp.
  pose proof (λ i, slot_free (st_geometry s) U v idx k i Hg Hv Hs HU) as Hfree. pose proof (pe_kept _ _ _ _ _ _ Hp) as Hkept.
  destruct (st_shards s !! idx) as [sh|] eqn:Hsh.
  - destruct (ev_shards _ _ _ _ _ _ He _ _ Hsh) as (sh' & -> & [_ Hbit Hdis _ _]).
    pose proof (sk_length _ _ _ _ (ok_shards _ _ Hok _ _ Hsh) (Hse _ eq_refl)) as Hl.
    pose proof (pe_length _ _ _ _ _ _ Hp).
    apply shard_view_ext; [done|done|done|lia|lia| |by apply Hdis; [lia|]|by apply Hbit; [lia|]].
    intros i Hi. destruct (content w idx !! i) as [b|] eqn:Hb1.
    + symmetry. apply Hkept; [|done]. by apply Hfree.
    + apply lookup_ge_None in Hb1. unfold blen in Hl. lia.
  - destruct (st_shards s' !! idx) as [sh'|] eqn:Hsh'; [|done].
    destruct (ev_new _ _ _ _ _ _ He _ _ Hsh Hsh') as (Hshort & _ & Hnew).
    destruct (Hnew k ltac:(lia) Hni) as [Hbit Hdis].
    pose proof (sk_length _ _ _ _ (ok_shards _ _ Hok' _ _ Hsh') Hshort) as Hl. rewrite G' in Hl.
    unfold shard_view. rewrite Hdis, Hbit. pose proof (gwf_ct _ Hg). pose proof (gwf_unit _ Hg). pose proof (gwf_block _ Hg).
    replace (untouched _ _ _ _) with true; [done|]. symmetry. unfold untouched.
    assert (is_Some (read_range (content w' idx) (slot_offset (st_geometry s) k) 64)) as [hb Hhb]
      by (apply read_range_some; lia).
    rewrite Hhb. apply read_range_holds in Hhb as (Hlb & _ & Hh); [|lia..].
    unfold all_zero. rewrite forallb_forall. intros b [i Hib]%list_elem_of_In%list_elem_of_lookup.
    pose proof (lookup_lt_Some _ _ _ Hib). unfold blen in Hlb. specialize (Hh _ _ Hib).
    enough (b = Init.Byte.x00) as -> by done.
    assert (free_byte (st_geometry s) U idx (Z.to_nat (slot_offset (st_geometry s) k) + i)) as Hf
      by (apply Hfree; lia).
    destruct (content w idx !! (Z.to_nat (slot_offset (st_geometry s) k) + i)%nat) as [b0|] eqn:Hb0.
    + rewrite (Hkept _ _ Hf Hb0) in Hh. injection Hh as <-. eapply (ok_fresh _ _ Hok idx Hidx Hsh); [|done]. lia.
    + by eapply (pe_grown _ _ _ _ _ _ Hp).
Qed.

(** A version stays in any case. *)
Lemma view_version_evolves U ok s w s' w' v seq ct :
  store_ok s w → evolves U ok s w s' w' → ¬ U v → 0 ≤ v < num_units (st_geometry s) →
  view s w v = Ok (SlotCiphertext seq ct) → view s' w' v = Ok (SlotCiphertext seq ct).
Proof.
  intros Hok He HU Hv. pose proof (ok_geometry _ _ Hok) as Hg. pose proof (ev_geometry _ _ _ _ _ _ He) as G'.
  unfold view. rewrite G'. destruct (shard_of_unit (st_geometry s) v) as [idx k] eqn:Hs.
  destruct (slot_place _ v idx k Hg Hv Hs) as (Hidx & Hk & Ho & Hb & Hm & _).
  pose proof (slot_not_in _ U v idx k Hg Hs HU) as Hni.
  pose proof (proj2 (ev_data _ _ _ _ _ _ He) idx Hidx) as Hp.
  destruct (st_shards s !! idx) as [sh|] eqn:Hsh; [|done].
  destruct (ev_shards _ _ _ _ _ _ He _ _ Hsh) as (sh' & -> & [_ Hbit Hdis _ _]).
  unfold shard_view at 1. destruct (is_discarded sh k) eqn:Hd; [done|]. destruct (_ && _); [done|].
  destruct (version_at _ _ _ _) as [[seq' ct']|] eqn:Hva; [|done]. destruct (_ || _) eqn:Hor; [|done]. intros [= -> ->].
  apply shard_view_version.
  - eapply version_kept; try done; [by eapply pe_kept|by eapply pe_length].
  - rewrite Hdis by (done || lia). done.
  - rewrite Hbit by (done || lia). apply orb_true_iff in Hor as [?|?%Z.ltb_lt]; auto.
Qed.
End Reads.
