(* ===== verification/StoreOpen.v ===== *)
(** * StoreOpen: opening the slot store

    [SlotStore::open] of store.rs reads the superblock's version, the catalog
    and every shard's maps.  It changes nothing on disk; the store it returns
    satisfies the invariant of StoreProof, and it has every shard whose data
    file a reader can see, listed in the catalog or not. *)

From stdpp Require Import sorting.
From S2P Require Import Prelude BTreeMap Codec Layout Geometry AbRecord Metadata Superblock Backing AbStore FixedCopy JournalWriter Volumes SlotStore StoreData StoreProof StoreReads.
Import Store Allocation.
Import (hints) Metadata.Catalog Metadata.Allocation.

Local Open Scope Z_scope.

(** ** Indices in file names *)

Lemma hex_val_nonneg c d : hex_val c = Some d → 0 ≤ d.
Proof.
  unfold hex_val. set (n := Z.of_N (N_of_ascii c)). clearbody n.
  destruct (Z.leb_spec 48 n), (Z.leb_spec n 57), (Z.leb_spec 97 n), (Z.leb_spec n 102), (Z.leb_spec 65 n), (Z.leb_spec n 70);
    simpl; intros [= <-]; lia.
Qed.

Lemma parse_hex_nonneg s acc i : 0 ≤ acc → parse_hex_go s acc = Some i → 0 ≤ i.
Proof.
  revert acc. induction s as [|c s IH]; intros acc Ha; simpl; [by intros [= <-]|].
  destruct (hex_val c) as [d|] eqn:Hd; [|done]. apply hex_val_nonneg in Hd. destruct (_ <=? _); [|done].
  apply IH. lia.
Qed.

Lemma parse_shard_nonneg name i : parse_shard_data name = Some i → 0 ≤ i.
Proof.
  unfold parse_shard_data. destruct (strip_prefix _ _); [|done]. destruct (strip_suffix _ _) as [hex|]; [|done].
  destruct (from_str_radix_16 hex) as [j|] eqn:Hj; [|done]. destruct (String.eqb _ _); [|done]. intros [= <-].
  unfold from_str_radix_16 in Hj. destruct hex as [|c hex]; [done|].
  destruct (Ascii.eqb c "+"); [destruct hex; [done|]|]; by eapply parse_hex_nonneg in Hj.
Qed.

(** ** The catalog with the adopted shards *)

Lemma catalog_adopts l c :
  Catalog.ascending None (Catalog.shards c) →
  let c' := foldl (λ c idx, (Catalog.insert idx c).1) c l in
  Catalog.generation c' = Catalog.generation c ∧ Catalog.ascending None (Catalog.shards c') ∧
  ∀ y, y ∈ Catalog.shards c' ↔ y ∈ l ∨ y ∈ Catalog.shards c.
Proof.
  revert c. induction l as [|x l IH]; intros c Ha; [simpl; set_solver|]. cbn [foldl].
  pose proof (Catalog.ascending_insert x (Catalog.shards c) None I Ha) as Hi.
  pose proof (λ y, Catalog.elem_of_set_insert x (Catalog.shards c) y None Ha) as He.
  unfold Catalog.insert at 2 3 4. unfold Catalog.insert in IH.
  destruct (Catalog.set_insert x (Catalog.shards c)) as [l' f] eqn:Hl. cbn [fst] in *.
  destruct (IH (Catalog.mkShardCatalog (Catalog.generation c) l') Hi) as (Hg & Ha' & Hy).
  unfold Catalog.insert. rewrite Hl. cbn [fst]. split; [done|]. split; [done|]. intros y. rewrite Hy. simpl. rewrite He. set_solver.
Qed.

Section Open.
Context `{Crc32} `{BackingLaws W F} `{HashOrder}.
Implicit Types (s : SlotStore (F := F)) (w : W) (sh : Shard (F := F)).

(** ** Calls that only look

    [peeks m w Q]: the call leaves the backing as it was, and a result
    satisfies [Q]. *)
Definition peeks {Er A} (m : M W Er A) w (Q : A → W → Prop) : Prop :=
  ∀ r w', m w = (r, w') → keeps (λ _, True) w w' ∧ ∀ a, r = Ok a → Q a w'.

Lemma peeks_ret {Er A} (a : A) w (Q : A → W → Prop) : inv w → Q a w → peeks (Er := Er) (m_ret a) w Q.
Proof. intros Hi HQ r w' [= <- <-]. split; [by apply keeps_refl|]. by intros x [= <-]. Qed.

Lemma peeks_err {Er A} (e : Er) w (Q : A → W → Prop) : inv w → peeks (m_err e) w Q.
Proof. intros Hi r w' [= <- <-]. split; [by apply keeps_refl|done]. Qed.

Lemma peeks_lift {Er A} (v : result Er A) w (Q : A → W → Prop) :
  inv w → (∀ a, v = Ok a → Q a w) → peeks (m_lift v) w Q.
Proof. intros Hi HQ r w' [= <- <-]. split; [by apply keeps_refl|done]. Qed.

Lemma peeks_bind {Er A B} (m : M W Er A) (k : A → M W Er B) w Q R :
  peeks m w Q → (∀ a w1, inv w1 → keeps (λ _, True) w w1 → Q a w1 → peeks (k a) w1 R) → peeks (m_bind m k) w R.
Proof.
  intros Hm Hk r w'. unfold m_bind. destruct (m w) as [[a|e] w1] eqn:Hr1; destruct (Hm _ _ Hr1) as [Hk1 HQ].
  - intros Hr. destruct (Hk a w1 (keeps_inv _ _ _ Hk1) Hk1 (HQ a eq_refl) _ _ Hr) as [Hk2 HR].
    split; [by eapply keeps_trans|done].
  - intros [= <- <-]. done.
Qed.

Lemma peeks_map_err {Er Er' A} (f : Er → Er') (m : M W Er A) w Q : peeks m w Q → peeks (m_map_err f m) w Q.
Proof.
  intros Hm r w' (r0 & Hr & ->)%m_map_err_inv. destruct (Hm _ _ Hr) as [? HQ]. split; [done|].
  destruct r0; naive_solver.
Qed.

Lemma peeks_weaken {Er A} (m : M W Er A) w (Q Q' : A → W → Prop) :
  peeks m w Q → (∀ a w', keeps (λ _, True) w w' → Q a w' → Q' a w') → peeks m w Q'.
Proof. intros Hm HQ r w' Hr. destruct (Hm _ _ Hr) as [Hk Hq]. split; [done|]. intros a Ha. by apply HQ, Hq. Qed.

Lemma peeks_determined {A} (m : M W FormatError A) w v : determined m w v → peeks m w (λ a _, v = Ok a).
Proof. intros Hd r w' Hr. destruct (Hd _ _ Hr) as (Hk & Ha & _). done. Qed.

Lemma peeks_reads {A} (m : M W CoreError A) w v : reads m w v → peeks m w (λ a _, v = Ok a).
Proof.
  intros Hd r w' Hr. destruct (Hd _ _ Hr) as (Hk & Ha & _). split; [done|]. intros a ->.
  destruct Ha as [Ha|[e Ha]]; [by rewrite <- Ha|done].
Qed.

(** ** Metadata copies *)

Lemma read_side_peeks `{AbRecordLaws T} st p w :
  inv w → sides_ok (T := T) st → is_side st p → peeks (read_side (T := T) st p) w (λ _ _, True).
Proof.
  intros Hi Hso Hp. unfold read_side. eapply peeks_bind.
  - intros r w' Hr. destruct (read_copy_spec st w p r w' Hi) as (Hk & Ho & _);
      [by destruct Hp as [->| ->]; destruct Hso|by apply so_bound|done|]. split; [done|].
    intros a _. exact (I : (λ _ _, True) a w').
  - intros a w1 Hi1 _ _. by apply peeks_ret.
Qed.

Lemma side_generations_peeks `{AbRecordLaws T} st w :
  inv w → sides_ok (T := T) st → peeks (side_generations (T := T) st) w (λ _ _, True).
Proof.
  intros Hi Hso. unfold side_generations. eapply peeks_bind; [apply read_side_peeks; [done|done|by left]|].
  intros a w1 Hi1 _ _. eapply peeks_bind; [apply read_side_peeks; [done|done|by right]|].
  intros b w2 Hi2 _ _. by apply peeks_ret.
Qed.

Lemma load_peeks `{AbRecordLaws T} st w :
  inv w → sides_ok (T := T) st →
  peeks (load (T := T) st) w (λ o _, ∀ x, o = Some x → ∃ bs, ab_decode bs = Ok x).
Proof.
  intros Hi Hso r w' Hr. destruct (load_spec st w r w' Hi Hso Hr) as (Hk & Ho & _). split; [done|].
  intros o ->. specialize (Ho o eq_refl). intros x ->.
  assert (∀ p y, fst <$> copy_at st w p = Some y → ∃ bs, ab_decode bs = Ok y) as Hc.
  { intros p y Hy. destruct (copy_at st w p) as [[z bs]|] eqn:Hz; [|done]. injection Hy as <-.
    apply copy_at_some in Hz as (_ & _ & Hd). by exists bs. }
  destruct (fst <$> copy_at st w (side_a st)) as [a|] eqn:Ha, (fst <$> copy_at st w (side_b st)) as [b|] eqn:Hb;
    simpl in Ho; try done; injection Ho as ->; eauto. destruct (_ <=? _); eauto.
Qed.

(** ** Maps *)

Lemma mark_beyond_ok g idx len m slots m' marked :
  map_ok m → mark_beyond g idx len m slots = (m', marked) → map_ok m' ∧ units m' = units m.
Proof.
  revert m m' marked. induction slots as [|k slots IH]; intros m m' marked Hm; simpl; [by intros [= <- <-]|].
  destruct (_ && _); [|by apply IH].
  destruct (mark_beyond g idx len (put_bit m k true) slots) as [m1 l] eqn:Hmb. intros [= <- <-].
  destruct (put_bit_ok m k true Hm) as [Hp Hu]. destruct (IH _ _ _ Hp Hmb). split; [done|congruence].
Qed.

Lemma classify_ok g adopted idx len m m' sf marked :
  map_ok m → classify_length g adopted idx len m = (m', sf, marked) →
  map_ok m' ∧ units m' = units m ∧ (sf = None → physical_size g ≤ len).
Proof.
  intros Hm. unfold classify_length. fold (physical_size g). destruct (_ && _); [by intros [= <- <- <-]|].
  destruct (Z.leb_spec (physical_size g) len); [by intros [= <- <- <-]|].
  destruct (mark_beyond _ _ _ _ _) as [m1 l] eqn:Hmb. intros [= <- <- <-].
  destruct (mark_beyond_ok _ _ _ _ _ _ _ Hm Hmb). done.
Qed.

Lemma put_bits_ok (slot : Z → Z) us m :
  map_ok m → map_ok (foldl (λ m u, put_bit m (slot u) true) m us) ∧
  units (foldl (λ m u, put_bit m (slot u) true) m us) = units m.
Proof.
  revert m. induction us as [|u us IH]; intros m Hm; [done|]. simpl.
  destruct (put_bit_ok m (slot u) true Hm) as [Hp Hu]. destruct (IH _ Hp). split; [done|congruence].
Qed.

(** ** One shard *)

Lemma probe_header_peeks g u idx k sh len w :
  inv w → handle w (data sh) (shard_data idx) → geometry_wf g → 0 ≤ k < units_per_shard g →
  peeks (probe_header g sh u k len) w (λ _ _, True).
Proof.
  intros Hi Hh Hg Hk. destruct (slot_offset_bounds g k Hg Hk) as (Ho & Hb & Hm).
  pose proof (gwf_slot g Hg). pose proof (gwf_ct g Hg). pose proof (gwf_unit g Hg). pose proof (gwf_block g Hg).
  unfold SLOT_HEADER_SIZE in *. unfold probe_header. destruct (_ <? _); [by apply peeks_ret|].
  eapply peeks_bind; [eapply peeks_reads, range_reads; [done|exact Hh|done|lia|lia]|].
  intros hb w1 Hi1 _ _. destruct (all_zero hb); by apply peeks_ret.
Qed.

Lemma probe_slots_peeks g idx sh len slots w :
  inv w → handle w (data sh) (shard_data idx) → geometry_wf g →
  (∀ k, k ∈ slots → 0 ≤ k < units_per_shard g) →
  peeks (probe_slots g sh idx len slots) w (λ _ _, True).
Proof.
  revert w. induction slots as [|k slots IH]; intros w Hi Hh Hg Hk; simpl; [by apply peeks_ret|].
  destruct (_ || _); [apply IH; [done..|set_solver]|].
  eapply peeks_bind; [eapply probe_header_peeks; [done|exact Hh|done|set_solver]|]. intros p w1 Hi1 Hk1 _.
  eapply peeks_bind; [apply IH; [done|by apply (keeps_handle _ _ _ _ _ Hk1)|done|set_solver]|].
  intros out w2 Hi2 _ _. by apply peeks_ret.
Qed.

Lemma load_alloc_peeks g adopted idx w :
  inv w → geometry_wf g → peeks (load_alloc g adopted idx) w (λ '(m, _) _, map_ok m).
Proof.
  intros Hi Hg. unfold load_alloc. eapply peeks_bind.
  { apply peeks_map_err. apply load_peeks; [done|apply alloc_store_ok]. }
  intros o w1 Hi1 _ Ho. destruct o as [m|].
  - destruct (Ho m eq_refl) as [bs Hd]. apply peeks_ret; [done|]. by apply alloc_decode_ok in Hd as [_ ?].
  - destruct adopted; [|by apply peeks_err]. destruct (new_empty g Hg) as (m & Hn & Hm & _). rewrite Hn.
    eapply peeks_bind; [by apply (peeks_lift _ _ (λ x _, x = m)); [|intros x [= <-]]|].
    intros x w2 Hi2 _ ->. by apply peeks_ret.
Qed.

Lemma shard_ok_keeps g w w' idx sh : keeps (λ _, True) w w' → shard_ok g w idx sh → shard_ok g w' idx sh.
Proof. intros Hk. eapply shard_ok_evolves. by eapply (data_evolves_keeps g (λ _, False) true). Qed.

Lemma load_discard_peeks g idx sh w :
  inv w → shard_ok g w idx sh → peeks (load_discard g idx sh) w (λ sh' w', shard_ok g w' idx sh' ∧ alloc sh' = alloc sh).
Proof.
  intros Hi Hsh. unfold load_discard.
  eapply peeks_bind; [apply peeks_map_err, side_generations_peeks; [done|apply discard_store_ok]|].
  intros sides w1 Hi1 Hk1 _.
  eapply peeks_bind; [apply peeks_map_err, load_peeks; [done|apply discard_store_ok]|].
  intros o w2 Hi2 Hk2 Ho.
  eapply peeks_bind; [apply (peeks_lift _ _ (λ m w, w = w2 ∧ o = Some m)); [done|]|].
  { intros m Hm. apply ok_or_ok in Hm. done. }
  intros m w3 _ _ [-> ->]. destruct (Ho m eq_refl) as [bs Hd].
  destruct (Z.eqb_spec (units m) (units_per_shard g)); [|by apply peeks_err].
  apply peeks_ret; [done|]. split; [|done]. apply alloc_decode_ok in Hd as [_ Hm].
  eapply shard_ok_keeps in Hsh; [|by eapply keeps_trans]. destruct Hsh. by split.
Qed.

Lemma set_alloc_shard_ok g w idx sh m d :
  shard_ok g w idx sh → map_ok m → units m = units (alloc sh) → shard_ok g w idx (set_alloc m d sh).
Proof. intros [] Hm Hu. split; try done. simpl. congruence. Qed.

Lemma open_shard_peeks g de adopted idx w :
  inv w → geometry_wf g → 0 ≤ idx →
  peeks (open_shard g de adopted idx) w (λ '(sh, _, _) w', shard_ok g w' idx sh ∧ (de = false → discard sh = None)).
Proof.
  intros Hi Hg Hidx. unfold open_shard. destruct (Z.leb_spec (num_shards g) idx); [by apply peeks_err|].
  eapply peeks_bind; [apply peeks_map_err, side_generations_peeks; [done|apply alloc_store_ok]|].
  intros [sa sb] w1 Hi1 _ _. eapply peeks_bind; [by apply load_alloc_peeks|]. intros [m dirty] w2 Hi2 _ Hm.
  destruct (Z.eqb_spec (units m) (units_per_shard g)) as [Hu|]; [|by apply peeks_err]. cbn [negb].
  eapply peeks_bind.
  { apply (peeks_map_err _ _ _ (λ f w', handle w' f (shard_data idx))). intros r w' Hr.
    destruct (law_open _ _ _ _ _ Hi2 (shard_data_valid idx) Hr) as (Hk & Hok & _).
    split; [eapply keeps_weaken; [|exact Hk]; by right; right|]. intros f ->. by destruct (Hok f eq_refl). }
  intros f w3 Hi3 _ Hh. eapply peeks_bind; [eapply peeks_reads, (reads_len f idx); done|].
  intros len w4 Hi4 Hk4 [= <-]. rewrite <- (keeps_content _ _ idx Hk4).
  destruct (classify_length _ _ _ _ _) as [[m' sf] marked] eqn:Hcl.
  destruct (classify_ok _ _ _ _ _ _ _ _ Hm Hcl) as (Hm' & Hu' & Hlen).
  set (sh0 := mkShard _ _ _ _ _ _ _ _ _).
  assert (shard_ok g w4 idx sh0) as Hsh0.
  { split; simpl; try done; [congruence|]. by apply (keeps_handle _ _ _ _ _ Hk4). }
  eapply (peeks_bind _ _ _ (λ sh w', shard_ok g w' idx sh ∧ (de = false → discard sh = None))).
  { destruct de; [|by apply peeks_ret].
    eapply peeks_weaken; [by apply load_discard_peeks|]. by intros sh w' _ [? _]. }
  intros sh w5 Hi5 _ [Hsh Hnone]. destruct (is_none sa || is_none sb); [|by apply peeks_ret].
  eapply (peeks_bind _ _ _ (λ _ _, True)).
  { unfold probe_shard. pose proof (sk_handle _ _ _ _ Hsh) as Hh5.
    eapply peeks_bind; [eapply peeks_reads, (reads_len (data sh) idx); done|]. intros len w6 Hi6 Hk6 _.
    apply probe_slots_peeks; [done|by apply (keeps_handle _ _ _ _ _ Hk6)|done|].
    intros k Hk%elem_of_seqZ. rewrite (sk_units _ _ _ _ Hsh) in Hk. lia. }
  intros found w6 Hi6 Hk6 _. apply peeks_ret; [done|]. split; [|done].
  destruct (put_bits_ok (λ u, (shard_of_unit g u).2) found (alloc sh) (sk_alloc _ _ _ _ Hsh)) as [Hp Hpu].
  apply set_alloc_shard_ok; [by eapply shard_ok_keeps|done|done].
Qed.

(** ** The whole store *)

Lemma open_shards_peeks g de adopted idxs acc w :
  inv w → geometry_wf g → (∀ i, i ∈ idxs → 0 ≤ i) →
  (∀ i sh, acc.1.1 !! i = Some sh → shard_ok g w i sh ∧ (de = false → discard sh = None)) →
  peeks (open_shards g de adopted idxs acc) w (λ '(shards, _, _) w',
    (∀ i sh, shards !! i = Some sh → shard_ok g w' i sh ∧ (de = false → discard sh = None)) ∧
    ∀ i, is_Some (shards !! i) ↔ i ∈ idxs ∨ is_Some (acc.1.1 !! i)).
Proof.
  intros Hi Hg. revert acc w Hi. induction idxs as [|idx idxs IH]; intros acc w Hi H0' Hacc; simpl.
  { apply peeks_ret; [done|]. destruct acc as [[shards d] r]. simpl in *. split; [done|]. set_solver. }
  eapply peeks_bind; [by apply open_shard_peeks; [| |set_solver]|]. intros [[sh d] r] w1 Hi1 Hk1 Hsh.
  destruct acc as [[shards ds] rs]. simpl in *. eapply peeks_weaken.
  { apply IH; [done|set_solver|]. intros i x. simpl. rewrite lookup_insert_Some.
    intros [[<- <-]|[_ Hx]]; [done|]. destruct (Hacc _ _ Hx). split; [by eapply shard_ok_keeps|done]. }
  intros [[shards' ds'] rs'] w2 _ [Hs Hd]. split; [done|]. intros i. rewrite Hd. simpl.
  rewrite lookup_insert_is_Some'. set_solver.
Qed.

Lemma orphans_elem g c names i :
  i ∈ orphans g c names ↔
  ∃ n, n ∈ names ∧ parse_shard_data n = Some i ∧ (i ∉ Catalog.shards c) ∧ i < num_shards g.
Proof.
  unfold orphans. rewrite (merge_sort_Permutation Z.le), list_elem_of_omap.
  apply exist_proper. intros n. destruct (parse_shard_data n) as [x|]; simpl; [|naive_solver].
  unfold Catalog.contains. case_bool_decide; destruct (Z.ltb_spec x (num_shards g)); simpl; naive_solver lia.
Qed.

(** The invariant of a store just opened. *)
Lemma opened_ok g c cab cd shards rs ds de w :
  inv w → geometry_wf g → u64_ok (Catalog.generation c) → Catalog.ascending None (Catalog.shards c) →
  cab = catalog_store_of g →
  (∀ i sh, shards !! i = Some sh → shard_ok g w i sh) →
  (∀ i, is_Some (shards !! i) ↔ i ∈ Catalog.shards c) →
  (∀ i, 0 ≤ i < num_shards g → is_Some (vis w (shard_data i)) → i ∈ Catalog.shards c) →
  store_ok (mkSlotStore g c cab cd shards rs ds de None false 0) w.
Proof.
  intros Hi Hg Hgen Ha -> Hsh Hdom Hvis. split; simpl; try done.
  - pose proof (gwf_num_shards g Hg) as Hn.
    assert (∀ y, y ∈ Catalog.shards c → 0 ≤ y < num_shards g) as Hr.
    { intros y Hy. apply Hdom in Hy as [sh Hy]. by eapply sk_idx, Hsh. }
    change MAX_SHARDS with 16777216 in *. split; [done|]. split; [done|]. split.
    + apply list.Forall_forall. intros y Hy%Hr. unfold u64_ok, U64_MAX. lia.
    + destruct (Catalog.shards c) as [|y l]; [done|]. destruct Ha as [_ Ha]. pose proof (Hr y ltac:(set_solver)).
      pose proof (Catalog.ascending_length (num_shards g) y l Ha ltac:(intros z Hz; apply Hr; set_solver) ltac:(lia)).
      change MAX_SHARDS with 16777216. unfold blen. simpl. lia.
  - intros idx Hidx Hn i b _ Hb. unfold content in Hb. destruct (vis w (shard_data idx)) as [x|] eqn:Hv; [|done].
    apply Hvis, Hdom in Hidx as [sh Hs]; [congruence|by rewrite Hv].
Qed.

Lemma entry_shard i : entry_of DATA_DIR (shard_data i) = Some (shard_file i ".dat").
Proof.
  pose proof (shard_data_direct i) as Hd. unfold direct in Hd.
  destruct (entry_of DATA_DIR (shard_data i)) as [n|] eqn:He; [|done].
  unfold entry_of in He. rewrite shard_data_eq, <- append_slash in He.
  change (dir_prefix DATA_DIR) with (DATA_DIR ++ "/")%string in He. rewrite strip_prefix_app in He.
  destruct (negb _ && _); [|done]. by injection He as <-.
Qed.

Lemma open_peeks g w :
  inv w → geometry_wf g →
  peeks (open g) w (λ s w', store_ok s w' ∧ st_geometry s = g ∧
    (∀ i, 0 ≤ i < num_shards g → is_Some (vis w' (shard_data i)) → is_Some (st_shards s !! i)) ∧
    (∃ env, volume_at w = Ok env ∧ st_discard_enabled s = (metadata_version env =? SUPERBLOCK_VERSION_V3)) ∧
    (st_discard_enabled s = false → ∀ i sh, st_shards s !! i = Some sh → discard sh = None)).
Proof.
  intros Hi Hg. unfold open.
  eapply peeks_bind; [apply peeks_map_err, (peeks_determined _ _ _ (load_volume_spec w Hi))|].
  intros env w1 Hi1 _ Henv. eapply peeks_bind; [apply peeks_map_err, load_peeks; [done|apply catalog_store_of_ok]|].
  intros o w2 Hi2 _ Ho. eapply peeks_bind; [apply (peeks_lift _ _ (λ c w, w = w2 ∧ o = Some c)); [done|]|].
  { intros c Hc. by apply ok_or_ok in Hc. }
  intros c w3 _ _ [-> ->]. destruct (Ho c eq_refl) as [bs Hd].
  apply Catalog.catalog_decode_ok in Hd as [_ (Hgen & Hasc & Hu64 & _)].
  eapply peeks_bind.
  { apply (peeks_map_err _ _ _ (λ names w', ∀ i, is_Some (vis w' (shard_data i)) → shard_file i ".dat" ∈ names)).
    intros r w' Hr. destruct (law_list _ _ _ _ Hi2 Hr) as (Hk & Hn & _). split; [done|]. intros names -> i Hv.
    eapply (Hn names eq_refl (shard_data i)); [apply entry_shard|]. by rewrite <- (keeps_vis _ _ _ _ Hk). }
  intros names w3 Hi3 _ Hnames. set (l := orphans g c names).
  destruct (catalog_adopts l c Hasc) as (Hgen' & Hasc' & Hel).
  set (c' := foldl _ c l) in *.
  eapply peeks_bind.
  { apply open_shards_peeks; [done|done| |].
    - intros i [[n (_ & Hp & _)]%orphans_elem|Hin]%Hel; [by eapply parse_shard_nonneg|].
      rewrite list.Forall_forall in Hu64. apply Hu64 in Hin. unfold u64_ok in Hin. lia.
    - intros i sh. simpl. by rewrite lookup_empty. }
  intros [[shards ds] rs] w4 Hi4 Hk4 [Hsh Hdom]. apply peeks_ret; [done|]. simpl in Hdom.
  assert (∀ i, is_Some (shards !! i) ↔ i ∈ Catalog.shards c') as Hdom'.
  { intros i. rewrite Hdom, lookup_empty. unfold Catalog.shard_indices. split; [by intros [?|[? ?]]|by left]. }
  assert (∀ i, 0 ≤ i < num_shards g → is_Some (vis w4 (shard_data i)) → i ∈ Catalog.shards c') as Hvis.
  { intros i Hir Hv. apply Hel. destruct (decide (i ∈ Catalog.shards c)) as [|Hni]; [by right|]. left.
    apply orphans_elem. exists (shard_file i ".dat"). rewrite (keeps_vis _ _ _ _ Hk4 I) in Hv.
    split; [by apply Hnames|]. split; [|split; [done|lia]].
    apply parse_shard_data_spec; [by eapply shard_u64|done]. }
  split; [|split; [done|split; [|split]]].
  - apply opened_ok; try done; [congruence|]. intros i sh Hs. by apply Hsh.
  - intros i Hir Hv. simpl. apply Hdom'. by apply Hvis.
  - by exists env.
  - intros Hde i sh Hs. by apply (Hsh i sh Hs).
Qed.
End Open.
