(* ===== verification/StoreRuns.v ===== *)
(** * StoreRuns: the slot store across operations, crashes and restarts

    [step] is one event of a volume's life: an operation of the open store,
    failed or not, a crash, a clean close, an attempt to open.  The invariant
    of StoreProof holds in every reachable state.  A slot version that was
    written and synced reads back in every later state that no operation on
    its own unit lies before. *)

From S2P Require Import Prelude BTreeMap Codec Layout Geometry AbRecord Metadata Superblock Backing CrashBacking AbStore FixedCopy DurableProof JournalWriter Volumes SlotStore StoreData StoreProof StoreReads StoreOpen.
Import Store Allocation.
Import (hints) Metadata.Catalog Metadata.Allocation.

Local Open Scope Z_scope.

Section Runs.
Context `{Crc32} `{BackingLaws W F} `{HashOrder}.
Implicit Types (s : SlotStore (F := F)) (w : W) (sh : Shard (F := F)).

(** ** Events *)

Inductive store_op :=
| OpWrite (u seq : Z) (ct : bytes)
| OpMark (u : Z)
| OpSync (idx : Z)
| OpReserve (u : Z)
| OpPersistAllocations
| OpPersistDiscards
| OpSetDiscarded (u : Z) (b : bool)
| OpReclaimUnwritten (u : Z)
| OpSchedule
| OpRetry (can_punch : Z → bool)
| OpPlan (us : list Z).

Definition exec (op : store_op) : M (SlotStore * W) CoreError unit :=
  match op with
  | OpWrite u seq ct => write_slot u seq ct
  | OpMark u => mark_allocated u
  | OpSync idx => sync_shard_data idx
  | OpReserve u => reserve_slot u
  | OpPersistAllocations => persist_allocations
  | OpPersistDiscards => persist_discards
  | OpSetDiscarded u b => set_discarded u b
  | OpReclaimUnwritten u => reclaim_unwritten u
  | OpSchedule => schedule_reclamation
  | OpRetry can_punch => retry_reclamation can_punch
  | OpPlan us => let* _ := checkpoint_slot_plan us in m_ret tt
  end.

(** The units are 64-bit numbers. *)
Definition op_ok (op : store_op) : Prop :=
  match op with
  | OpWrite u _ _ | OpMark u | OpReserve u | OpSetDiscarded u _ | OpReclaimUnwritten u => 0 ≤ u
  | _ => True
  end.

(** The units an operation may change. *)
Definition touches (op : store_op) s (u : Z) : Prop :=
  match op with
  | OpWrite x _ _ | OpMark x | OpSetDiscarded x _ | OpReclaimUnwritten x => u = x
  | OpRetry can_punch => reclaimable can_punch s u
  | _ => False
  end.

Lemma exec_sound op s w : store_ok s w → op_ok op → sound (touches op s) (exec op) s w (λ _ _ _, True).
Proof.
  intros Hok Hop. destruct op; simpl in *.
  - eapply sound_weaken; [by apply sound_write_slot|done..].
  - eapply sound_weaken; [by apply sound_mark_allocated|done..].
  - eapply sound_weaken; [by apply sound_sync_shard_data|done..].
  - eapply sound_weaken; [by apply sound_reserve_slot|done..].
  - eapply sound_weaken; [by apply sound_persist_allocations|done..].
  - eapply sound_weaken; [by apply sound_persist_discards|done..].
  - eapply sound_weaken; [by apply sound_set_discarded|done..].
  - eapply sound_weaken; [by apply sound_reclaim_unwritten|done..].
  - eapply sound_weaken; [by apply sound_schedule_reclamation|done..].
  - eapply sound_weaken; [by apply sound_retry_reclamation|done..].
  - unfold checkpoint_slot_plan. eapply (sound_bind _ _ _ _ _ (λ _ _ _, True)).
    + eapply sound_bind; [apply (sound_plan_targets []); [done|]|].
      { split; [done|]. split; [done|]. intros idx f. by rewrite lookup_empty. }
      intros [ts fs] s1 w1 Hok1 _ _. eapply sound_bind; [by apply (sound_get _ s1 w1 (λ _ _ _, True))|].
      intros a s2 w2 Hok2 _ _. by apply sound_ret.
    + intros p s1 w1 Hok1 _ _. by apply sound_ret.
Qed.

(** The volume is open, or it is not. *)
Inductive volume := Up s w | Down w.

Definition world_of (σ : volume) : W := match σ with Up _ w | Down w => w end.

(** The events that leave the units of [K] alone. *)
Inductive step (g : Geometry) (K : Z → Prop) : volume → volume → Prop :=
| step_op op s w r s' w' :
    op_ok op → (∀ u, K u → ¬ touches op s u) → exec op (s, w) = (r, (s', w')) → step g K (Up s w) (Up s' w')
| step_crash σ w' : crashes (world_of σ) w' → step g K σ (Down w')
| step_close s w : step g K (Up s w) (Down w)
| step_open w s w' : open g w = (Ok s, w') → step g K (Down w) (Up s w')
| step_refused w e w' : open g w = (Err e, w') → step g K (Down w) (Down w').

Definition good (g : Geometry) (σ : volume) : Prop :=
  match σ with
  | Up s w => store_ok s w ∧ st_geometry s = g
  | Down w => inv w
  end.

Lemma good_inv g σ : good g σ → inv (world_of σ).
Proof. destruct σ as [s w|w]; [|done]. intros [Hok _]. by eapply ok_inv. Qed.

Lemma step_good g K σ σ' : geometry_wf g → good g σ → step g K σ σ' → good g σ'.
Proof.
  intros Hg Hgood Hst. destruct Hst as [op s w r s' w' Hop HK Hr|σ w' Hc|s w|w s w' Hr|w e w' Hr]; simpl in *.
  - destruct Hgood as [Hok <-]. destruct (exec_sound op s w Hok Hop _ _ _ Hr) as (Hok' & He & _).
    split; [done|by eapply ev_geometry].
  - by apply (law_crash _ _ (good_inv _ _ Hgood) Hc).
  - destruct Hgood as [Hok _]. by eapply ok_inv.
  - destruct (open_peeks g w Hgood Hg _ _ Hr) as [_ HQ]. by destruct (HQ s eq_refl) as (? & ? & _).
  - destruct (open_peeks g w Hgood Hg _ _ Hr) as [Hk _]. by eapply keeps_inv.
Qed.

Lemma steps_good g K σ σ' : geometry_wf g → rtc (step g K) σ σ' → good g σ → good g σ'.
Proof.
  intros Hg Hr. induction Hr as [|σ0 σ1 σ2 Hs _ IH]; [done|]. intros Hgood. by apply IH, (step_good g K σ0).
Qed.

(** ** A durable version *)

Lemma unit_u64 g u : geometry_wf g → 0 ≤ u < num_units g → u64_ok u.
Proof.
  intros Hg Hu. pose proof (gwf_virtual g Hg). pose proof (gwf_unit g Hg). pose proof (gwf_block g Hg).
  unfold num_units in Hu. pose proof (Z.div_le_upper_bound (max_virtual_size g) (crypto_unit_size g) (max_virtual_size g)).
  unfold u64_ok, U64_MAX, I64_MAX in *. nia.
Qed.

(** The slot of [u] holds the version, and a crash cannot change that. *)
Definition retained (g : Geometry) (u seq : Z) (ct : bytes) w : Prop :=
  let '(idx, k) := shard_of_unit g u in
  holds_at (Z.to_nat (slot_offset g k)) (version u seq ct) (content w idx) ∧
  pinned w (shard_data idx) (Z.to_nat (slot_offset g k)) (version u seq ct).

Lemma version_length u seq ct : blen (version u seq ct) = 64 + blen ct.
Proof. unfold version, blen. rewrite length_app, Slot.slot_length_encode. lia. Qed.

Lemma version_free g U u idx k seq ct :
  geometry_wf g → 0 ≤ u < num_units g → shard_of_unit g u = (idx, k) → ¬ U u →
  blen ct ≤ max_ciphertext_size g → free_range g U idx (Z.to_nat (slot_offset g k)) (version u seq ct).
Proof.
  intros Hg Hu Hs HU Hl i Hi. destruct (slot_place g u idx k Hg Hu Hs) as (_ & _ & Ho & _ & Hm & _).
  pose proof (version_length u seq ct) as Hv. unfold blen in Hv at 1.
  eapply slot_free; [done|done|done|done|lia].
Qed.

Lemma retained_evolves g U ok u seq ct w w' :
  geometry_wf g → 0 ≤ u < num_units g → blen ct ≤ max_ciphertext_size g → ¬ U u →
  data_evolves g U ok w w' → retained g u seq ct w → retained g u seq ct w'.
Proof.
  intros Hg Hu Hl HU [_ Hp]. unfold retained. destruct (shard_of_unit g u) as [idx k] eqn:Hs.
  destruct (slot_place g u idx k Hg Hu Hs) as (Hidx & _ & Ho & _ & Hm & _). specialize (Hp idx Hidx).
  intros [Hh Hpin]. split.
  - eapply (holds_kept g U u idx k); [done|done|done|done|by eapply pe_kept|lia|rewrite version_length; lia|done].
  - eapply pe_pinned; [done| |by apply version_free|done]. intros He.
    pose proof (version_length u seq ct) as Hv. rewrite He in Hv. unfold blen in Hv at 1. simpl in Hv.
    pose proof (blen_nonneg ct). lia.
Qed.

Lemma retained_keeps g u seq ct w w' : keeps (λ _, True) w w' → retained g u seq ct w → retained g u seq ct w'.
Proof.
  intros Hk. unfold retained. destruct (shard_of_unit g u) as [idx k]. rewrite (keeps_content _ _ idx Hk).
  intros [? ?]. split; [done|]. by apply (keeps_pinned _ _ _ _ _ _ Hk).
Qed.

Lemma retained_crash g u seq ct w w' : inv w → crashes w w' → retained g u seq ct w → retained g u seq ct w'.
Proof.
  intros Hi Hc. unfold retained. destruct (shard_of_unit g u) as [idx k]. intros [_ Hp].
  destruct (law_pinned_crash _ _ _ _ _ Hi Hc Hp) as (Hp' & c & Hv & Hh). split; [|done].
  by rewrite (content_some _ _ _ Hv).
Qed.

(** Every event that leaves the unit alone keeps it, and an open volume has
    its shard. *)
Definition remembers (g : Geometry) (u seq : Z) (ct : bytes) (σ : volume) : Prop :=
  good g σ ∧ retained g u seq ct (world_of σ) ∧
  match σ with Up s _ => is_Some (st_shards s !! (shard_of_unit g u).1) | Down _ => True end.

Lemma step_remembers g K u seq ct σ σ' :
  geometry_wf g → 0 ≤ u < num_units g → blen ct ≤ max_ciphertext_size g → K u →
  step g K σ σ' → remembers g u seq ct σ → remembers g u seq ct σ'.
Proof.
  intros Hg Hu Hl HK Hst (Hgood & Hret & Hsh). split; [by eapply step_good|].
  destruct Hst as [op s w r s' w' Hop HKo Hr|σ w' Hc|s w|w s w' Hr|w e w' Hr]; cbn [good world_of] in *.
  - destruct Hgood as [Hok <-]. destruct (exec_sound op s w Hok Hop _ _ _ Hr) as (_ & He & _). split.
    + eapply (retained_evolves _ (touches op s)); [done|done|done|by apply HKo|by eapply ev_data|done].
    + destruct Hsh as [sh Hs]. destruct (ev_shards _ _ _ _ _ _ He _ _ Hs) as (sh' & -> & _). by eexists.
  - split; [|done]. eapply retained_crash; [by eapply good_inv|done|done].
  - done.
  - destruct (open_peeks g w Hgood Hg _ _ Hr) as [Hk HQ]. destruct (HQ s eq_refl) as (_ & _ & Hvis & _).
    pose proof (retained_keeps _ _ _ _ _ _ Hk Hret) as Hret'. split; [done|].
    unfold retained in Hret'. destruct (shard_of_unit g u) as [idx k] eqn:Hs. destruct Hret' as [_ Hp].
    destruct (slot_place g u idx k Hg Hu Hs) as (Hidx & _). apply Hvis; [done|by eapply law_pinned_vis].
  - destruct (open_peeks g w Hgood Hg _ _ Hr) as [Hk _]. split; [|done]. by eapply retained_keeps.
Qed.

Lemma steps_remember g K u seq ct σ σ' :
  geometry_wf g → 0 ≤ u < num_units g → blen ct ≤ max_ciphertext_size g → K u →
  rtc (step g K) σ σ' → remembers g u seq ct σ → remembers g u seq ct σ'.
Proof.
  intros Hg Hu Hl HK Hr. induction Hr as [|σ0 σ1 σ2 Hst _ IH]; [done|]. intros Hm. by eapply IH, step_remembers.
Qed.

(** The unit's discard mark. *)
Definition unit_discarded s (u : Z) : bool :=
  match st_shards s !! (shard_of_unit (st_geometry s) u).1 with
  | Some sh => is_discarded sh (shard_of_unit (st_geometry s) u).2
  | None => false
  end.

Lemma remembers_view g u seq ct s w :
  geometry_wf g → 0 ≤ u < num_units g → version_wf g u seq ct → 0 < seq → remembers g u seq ct (Up s w) →
  unit_discarded s u = false → view s w u = Ok (SlotCiphertext seq ct).
Proof.
  intros Hg Hu Hv Hs ([Hok <-] & Hret & [sh Hsh]) Hd. unfold view, retained, unit_discarded in *.
  destruct (shard_of_unit (st_geometry s) u) as [idx k] eqn:Hsu. cbn [fst snd world_of] in *. rewrite Hsh in *.
  destruct (slot_place _ u idx k Hg Hu Hsu) as (_ & _ & Ho & _). destruct Hret as [Hh _].
  apply shard_view_version; [by apply version_holds|done|by right].
Qed.

(** ** Between the write and the barrier *)

(** Operations that succeed and leave the unit alone. *)
Inductive quiet_step (u : Z) : SlotStore * W → SlotStore * W → Prop :=
| quiet_op op s w s' w' :
    op_ok op → ¬ touches op s u → exec op (s, w) = (Ok tt, (s', w')) → quiet_step u (s, w) (s', w').

Definition pending (g : Geometry) (u seq : Z) (ct : bytes) (st : SlotStore * W) : Prop :=
  store_ok st.1 st.2 ∧ st_geometry st.1 = g ∧ written g u seq ct st.2 ∧
  ∃ sh, st_shards st.1 !! (shard_of_unit g u).1 = Some sh ∧ map_stored sh = true.

Lemma written_evolves g U u seq ct w w' :
  geometry_wf g → 0 ≤ u < num_units g → blen ct ≤ max_ciphertext_size g → ¬ U u →
  data_evolves g U true w w' → written g u seq ct w → written g u seq ct w'.
Proof.
  intros Hg Hu Hl HU [_ Hp]. unfold written. destruct (shard_of_unit g u) as [idx k] eqn:Hs.
  destruct (slot_place g u idx k Hg Hu Hs) as (Hidx & _ & Ho & _ & Hm & _). specialize (Hp idx Hidx).
  intros (Hh & d & Hd & Hdh).
  assert (∀ c c', kept g U idx c c' → holds_at (Z.to_nat (slot_offset g k)) (version u seq ct) c →
    holds_at (Z.to_nat (slot_offset g k)) (version u seq ct) c') as Hkeep.
  { intros c c' Hk Hc. eapply (holds_kept g U u idx k); [done|done|done|done|done|lia|rewrite version_length; lia|done]. }
  split; [eapply Hkeep; [by eapply pe_kept|done]|].
  assert (is_Some (dirty w' (shard_data idx))) as [d' Hd'].
  { apply law_dirty_vis, (pe_some _ _ _ _ _ _ Hp), law_dirty_vis. by eexists. }
  exists d'. split; [done|]. eapply Hkeep; [by eapply (pe_dirty _ _ _ _ _ _ Hp)|done].
Qed.

Lemma quiet_pending g u seq ct st st' :
  0 ≤ u < num_units g → blen ct ≤ max_ciphertext_size g →
  quiet_step u st st' → pending g u seq ct st → pending g u seq ct st'.
Proof.
  intros Hu Hl [op s w s' w' Hop HU Hr] (Hok & <- & Hw & sh & Hs & Hms). cbn [fst snd] in *.
  destruct (exec_sound op s w Hok Hop _ _ _ Hr) as (Hok' & He & _).
  split; [done|]. split; [by eapply ev_geometry|].
  split; [eapply written_evolves; [by eapply ok_geometry|done|done|done|by eapply ev_data|done]|].
  destruct (evolves_shard _ _ _ _ _ _ _ _ He Hs) as (sh' & Hs' & _ & Hst & _). eauto.
Qed.

Lemma quiets_pending g u seq ct st st' :
  0 ≤ u < num_units g → blen ct ≤ max_ciphertext_size g →
  rtc (quiet_step u) st st' → pending g u seq ct st → pending g u seq ct st'.
Proof.
  intros Hu Hl Hr. induction Hr as [|st0 st1 st2 Hst _ IH]; [done|]. intros Hp. by eapply IH, quiet_pending.
Qed.

Lemma sync_retains g u seq ct s w s' w' :
  0 ≤ u < num_units g → blen ct ≤ max_ciphertext_size g → pending g u seq ct (s, w) →
  sync_shard_data (shard_of_unit g u).1 (s, w) = (Ok tt, (s', w')) → remembers g u seq ct (Up s' w').
Proof.
  intros Hu Hl (Hok & <- & Hw & sh & Hs & Hms) Hr. cbn [fst snd] in *.
  destruct (sound_sync_shard_data _ s w Hok _ _ _ Hr) as (Hok' & He & HQ). rewrite (HQ tt eq_refl) in *.
  split; [done|]. split; [|by eexists].
  pose proof (written_evolves _ _ u seq ct w w' (ok_geometry _ _ Hok) Hu Hl (λ x, x) (ev_data _ _ _ _ _ _ He) Hw) as Hw'.
  unfold retained, written in *. destruct (shard_of_unit (st_geometry s) u) as [idx k] eqn:Hsu. cbn [fst world_of] in *.
  destruct Hw' as [Hh' _]. split; [done|].
  change (match st_shards s !! idx with Some shard => s_io (f_sync_data (data shard)) | None => m_ret tt end (s, w)
    = (Ok tt, (s, w'))) in Hr. rewrite Hs in Hr.
  destruct (on_world_inv _ _ _ _ _ _ Hr) as [_ Hr1]. apply core_io_ok in Hr1.
  pose proof (ok_shards _ _ Hok _ _ Hs) as Hsh. destruct Hw as (_ & d & Hd & Hdh).
  eapply (law_pin w (data sh)); [by eapply ok_inv|by eapply sk_handle, Hsh|by apply (sk_named _ _ _ _ Hsh)|exact Hd|exact Hdh|exact Hr1|done].
Qed.

(** ** Checkpoint plans *)

(** What happens while a plan is executed: its writes of other units, and
    operations of the store that leave the unit alone, all successful. *)
Inductive inflight (p : CheckpointSlotPlan (F := F)) (u : Z) : SlotStore * W → SlotStore * W → Prop :=
| inflight_op st st' : quiet_step u st st' → inflight p u st st'
| inflight_write s w w' j t seq ct :
    targets p !! j = Some t → t_unit t ≠ u → 0 ≤ t_unit t < num_units (st_geometry s) →
    plan_write p j seq ct w = (Ok tt, w') → inflight p u (s, w) (s, w').

(** The plan is still good for the store: its targets are the slots of their
    units, in open files. *)
Definition planned (g : Geometry) (p : CheckpointSlotPlan (F := F)) (us : list Z) (st : SlotStore * W) : Prop :=
  store_ok st.1 st.2 ∧ st_geometry st.1 = g ∧ plan_max_ciphertext_size p = max_ciphertext_size g ∧
  ∃ files, plan_ok st.1 st.2 us (targets p) files ∧ plan_shards p = (BTreeMap.entries files).*2.

Lemma sound_checkpoint_plan us s w :
  store_ok s w → sound nothing (checkpoint_slot_plan us) s w (λ p s' w', planned (st_geometry s') p us (s', w')).
Proof.
  intros Hok. unfold checkpoint_slot_plan. eapply sound_bind; [apply (sound_plan_targets []); [done|]|].
  { split; [done|]. split; [done|]. intros idx f. by rewrite lookup_empty. }
  intros [ts fs] s1 w1 Hok1 _ Hp.
  eapply sound_bind; [by apply (sound_get _ s1 w1 (λ a s2 w2, a = s1 ∧ s2 = s1 ∧ w2 = w1))|].
  intros a s2 w2 _ _ (-> & -> & ->). apply sound_ret; [done|]. split; [done|]. split; [done|]. split; [done|]. by exists fs.
Qed.

Lemma checkpoint_plan_ok us s w p s' w' :
  store_ok s w → checkpoint_slot_plan us (s, w) = (Ok p, (s', w')) →
  planned (st_geometry s) p us (s', w') ∧ evolves nothing true s w s' w'.
Proof.
  intros Hok Hr. destruct (sound_checkpoint_plan us s w Hok _ _ _ Hr) as (_ & He & HQ). split; [|done].
  rewrite <- (ev_geometry _ _ _ _ _ _ He). by apply HQ.
Qed.

Lemma planned_evolves g p us U ok s w s' w' :
  store_ok s' w' → evolves U ok s w s' w' → planned g p us (s, w) → planned g p us (s', w').
Proof.
  intros Hok' He (Hok & <- & Hm & files & (Hus & Hts & Hfs) & Hsh). cbn [fst snd] in *.
  pose proof (ev_geometry _ _ _ _ _ _ He) as G'. split; [done|]. split; [done|]. split; [done|].
  exists files. split; [|done]. split; [done|]. split.
  - cbn [fst snd]. rewrite G'. rewrite list.Forall_forall in Hts |- *. intros t Ht. specialize (Hts t Ht).
    eapply target_ok_evolves; [by eapply ok_geometry|by eapply ev_data|done| |done].
    destruct (Hfs _ _ (tg_files _ _ _ _ Hts)) as (sh & Hs & _). by eapply sk_idx, ok_shards.
  - intros idx f Hf. destruct (Hfs _ _ Hf) as (sh & Hs & <-).
    destruct (evolves_shard _ _ _ _ _ _ _ _ He Hs) as (sh' & Hs' & Hd & _). by exists sh'.
Qed.

(** A write through the plan. *)
Lemma plan_write_sound g p us s w j t seq ct r w' :
  planned g p us (s, w) → targets p !! j = Some t → 0 ≤ t_unit t < num_units g →
  plan_write p j seq ct w = (r, w') →
  store_ok s w' ∧ evolves (λ x, x = t_unit t) (is_ok r) s w s w' ∧
  (r = Ok tt → written g (t_unit t) seq ct w' ∧ blen ct ≤ max_ciphertext_size g).
Proof.
  intros (Hok & <- & Hm & files & (Hus & Hts & Hfs) & Hsh) Ht Hu Hr. cbn [fst snd] in *.
  assert (store_ok s w ∧ evolves (λ x, x = t_unit t) false s w s w) as [_ Hrefl] by (split; [done|by apply evolves_refl]).
  unfold plan_write in Hr. rewrite Hm in Hr. destruct (Z.ltb_spec (max_ciphertext_size (st_geometry s)) (blen ct)).
  { injection Hr as <- <-. done. }
  rewrite Ht in Hr. unfold m_bind, m_lift in Hr. cbn [ok_or] in Hr.
  rewrite list.Forall_forall in Hts. destruct (Hts t (list_elem_of_lookup_2 _ _ _ Ht)) as [Hready Ho Hfile].
  destruct (Hfs _ _ Hfile) as (sh & Hs & _).
  destruct (shard_of_unit (st_geometry s) (t_unit t)) as [idx k] eqn:Hsu. cbn [fst snd] in *. rewrite Ho in Hr.
  destruct (wsound_write_version (st_geometry s) idx k (t_data t) (t_unit t) seq ct w (ok_inv _ _ Hok)
    (ok_geometry _ _ Hok) Hu Hsu Hready) with (r := r) (w' := w') as [Hd HQ]; [done|done|].
  split; [eapply store_ok_world; [done| |exact Hd]|].
  { intros x i j' -> Hx. rewrite Hsu in Hx. injection Hx as <- <-. by eexists. }
  split; [by apply evolves_world|]. intros ->. split; [by apply (HQ tt)|done].
Qed.

Lemma inflight_pending g p us u seq ct st st' :
  0 ≤ u < num_units g → blen ct ≤ max_ciphertext_size g → inflight p u st st' →
  planned g p us st → pending g u seq ct st → planned g p us st' ∧ pending g u seq ct st'.
Proof.
  intros Hu Hl [st0 st1 Hq|s w w' j t seq' ct' Ht Hne Hr Hw] Hpl Hp.
  - split; [|by eapply quiet_pending]. destruct Hq as [op s w s' w' Hop _ Hr].
    destruct (exec_sound op s w (proj1 Hpl) Hop _ _ _ Hr) as (Hok' & He & _). by eapply planned_evolves.
  - pose proof (proj1 (proj2 Hpl)) as Hgeo. cbn [fst] in Hgeo. rewrite Hgeo in Hr.
    destruct (plan_write_sound g p us s w j t seq' ct' _ _ Hpl Ht Hr Hw) as (Hok' & He & _).
    split; [by eapply planned_evolves|]. destruct Hp as (_ & _ & Hwr & Hsh). split; [done|]. split; [done|].
    split; [|done]. rewrite <- Hgeo in *.
    eapply (written_evolves _ (λ x, x = t_unit t)); [by eapply ok_geometry, Hpl|done|done|by intros ->|by eapply ev_data|done].
Qed.

(** The barrier of the plan pins what its file holds. *)
Lemma sync_files_retain g u seq ct fs f w w' :
  geometry_wf g → 0 ≤ u < num_units g → blen ct ≤ max_ciphertext_size g → inv w →
  (∀ f, f ∈ fs → ∃ idx, 0 ≤ idx < num_shards g ∧ handle w f (shard_data idx)) →
  f ∈ fs → handle w f (shard_data (shard_of_unit g u).1) → solid w (shard_data (shard_of_unit g u).1) [] →
  written g u seq ct w → m_each (λ file, core_io (f_sync_data file)) fs w = (Ok tt, w') → retained g u seq ct w'.
Proof.
  intros Hg Hu Hl. revert w.
  assert (∀ fs w, inv w → (∀ f, f ∈ fs → ∃ idx, 0 ≤ idx < num_shards g ∧ handle w f (shard_data idx)) →
    retained g u seq ct w → m_each (λ file, core_io (f_sync_data file)) fs w = (Ok tt, w') → retained g u seq ct w') as Hrest.
  { clear fs f. induction fs as [|x fs IH]; intros w Hi Hfs Hret; cbn [m_each]; [by intros [= <-]|].
    intros (a & w1 & Hr1%core_io_ok & Hr)%m_bind_ok. destruct (Hfs x ltac:(set_solver)) as (idx & Hidx & Hh).
    destruct (evolve_sync g Hg nothing idx _ _ _ _ Hi Hidx Hh Hr1) as [Hd _].
    apply (IH w1); [apply Hd| | |done].
    - intros y Hy. destruct (Hfs y ltac:(set_solver)) as (i & Hir & Hhi). exists i. split; [done|].
      by apply (pe_handle _ _ _ _ _ _ (proj2 Hd i Hir)).
    - eapply (retained_evolves g nothing); [done|done|done|by intros []|exact Hd|done]. }
  induction fs as [|x fs IH]; intros w Hi Hfs Hf Hh Hso Hw; [by apply not_elem_of_nil in Hf|]. cbn [m_each].
  intros (a & w1 & Hr1%core_io_ok & Hr)%m_bind_ok. destruct (Hfs x ltac:(set_solver)) as (idx & Hidx & Hhx).
  destruct (evolve_sync g Hg nothing idx _ _ _ _ Hi Hidx Hhx Hr1) as [Hd _].
  assert (∀ y, y ∈ fs → ∃ idx, 0 ≤ idx < num_shards g ∧ handle w1 y (shard_data idx)) as Hfs1.
  { intros y Hy. destruct (Hfs y ltac:(set_solver)) as (i & Hir & Hhi). exists i. split; [done|].
    by apply (pe_handle _ _ _ _ _ _ (proj2 Hd i Hir)). }
  assert (written g u seq ct w1) as Hw1 by (eapply (written_evolves g nothing); [done|done|done|by intros []|exact Hd|done]).
  destruct (shard_of_unit g u) as [i k] eqn:Hsu. cbn [fst] in *.
  destruct (slot_place g u i k Hg Hu Hsu) as (Hir & _). pose proof (data_evolves_inv _ _ _ _ _ Hd) as Hi1. destruct Hd as [_ Hp].
  apply elem_of_cons in Hf as [<-|Hf].
  - destruct a. apply (Hrest fs w1); [done|done| |done]. unfold retained, written in *. rewrite Hsu in *. destruct Hw1 as [Hh1 _].
    split; [done|]. destruct Hw as (_ & d & Hd' & Hdh). by eapply (law_pin w f).
  - apply (IH w1); [done|done|done| | |done|done].
    + by apply (pe_handle _ _ _ _ _ _ (Hp i Hir)).
    + by apply (pe_solid _ _ _ _ _ _ (Hp i Hir)).
Qed.

Lemma sync_files_evolve g fs w w' :
  geometry_wf g → inv w → (∀ f, f ∈ fs → ∃ idx, 0 ≤ idx < num_shards g ∧ handle w f (shard_data idx)) →
  m_each (λ file, core_io (f_sync_data file)) fs w = (Ok tt, w') → data_evolves g nothing true w w'.
Proof.
  intros Hg. revert w. induction fs as [|x fs IH]; intros w Hi Hfs; cbn [m_each]; [intros [= <-]; by apply data_evolves_refl|].
  intros (a & w1 & Hr1%core_io_ok & Hr)%m_bind_ok. destruct (Hfs x ltac:(set_solver)) as (idx & Hidx & Hh).
  destruct (evolve_sync g Hg nothing idx _ _ _ _ Hi Hidx Hh Hr1) as [Hd _].
  apply (data_evolves_trans g nothing true true w w1 w'); [done|]. apply IH; [by eapply data_evolves_inv| |done].
  intros y Hy. destruct (Hfs y ltac:(set_solver)) as (i & Hir & Hhi). exists i. split; [done|].
  by apply (pe_handle _ _ _ _ _ _ (proj2 Hd i Hir)).
Qed.

Lemma plan_files g p us s w f :
  planned g p us (s, w) → f ∈ plan_shards p → ∃ idx, 0 ≤ idx < num_shards g ∧ handle w f (shard_data idx).
Proof.
  intros (Hok & <- & _ & files & (_ & _ & Hfs) & Hsh). rewrite Hsh. cbn [fst snd] in *.
  intros ((idx & f') & -> & Hf%elem_of_entries)%list_elem_of_fmap. destruct (Hfs _ _ Hf) as (x & Hx & <-).
  pose proof (ok_shards _ _ Hok _ _ Hx) as Hxo. exists idx. split; [by eapply sk_idx|by eapply sk_handle].
Qed.

Lemma inflights_pending g p us u seq ct st st' :
  0 ≤ u < num_units g → blen ct ≤ max_ciphertext_size g → rtc (inflight p u) st st' →
  planned g p us st → pending g u seq ct st → planned g p us st' ∧ pending g u seq ct st'.
Proof.
  intros Hu Hl Hr. induction Hr as [|st0 st1 st2 Hst _ IH]; [done|]. intros Hpl Hp.
  destruct (inflight_pending _ _ _ _ _ _ _ _ Hu Hl Hst Hpl Hp). by apply IH.
Qed.

Lemma plan_sync_retains g p us u seq ct s w w' :
  0 ≤ u < num_units g → blen ct ≤ max_ciphertext_size g → u ∈ us →
  planned g p us (s, w) → pending g u seq ct (s, w) → sync_shards p w = (Ok tt, w') → retained g u seq ct w'.
Proof.
  intros Hu Hl Hin Hpl (_ & _ & Hw & sh & Hs & Hms) Hr. pose proof (λ f, plan_files _ _ _ _ _ f Hpl) as Hfiles.
  destruct Hpl as (Hok & <- & _ & files & (Hus & Hts & Hfs) & Hsh).
  cbn [fst snd] in *. rewrite <- Hus in Hin. apply list_elem_of_fmap in Hin as (t & -> & Ht).
  rewrite list.Forall_forall in Hts. destruct (Hts t Ht) as [[Hh _] _ Hfile].
  pose proof (ok_shards _ _ Hok _ _ Hs) as Hshok.
  eapply (sync_files_retain _ _ _ _ (plan_shards p) (t_data t)); [by eapply ok_geometry|done|done|by eapply ok_inv|exact Hfiles| |
    done|by apply (sk_named _ _ _ _ Hshok)|done|exact Hr]. rewrite Hsh.
  apply list_elem_of_fmap. exists ((shard_of_unit (st_geometry s) (t_unit t)).1, t_data t). split; [done|].
    by apply elem_of_entries.
Qed.

Lemma plan_sync_remembers g p us u seq ct s w w' :
  0 ≤ u < num_units g → blen ct ≤ max_ciphertext_size g → u ∈ us →
  planned g p us (s, w) → pending g u seq ct (s, w) → sync_shards p w = (Ok tt, w') → remembers g u seq ct (Up s w').
Proof.
  intros Hu Hl Hin Hpl Hpe Hr. pose proof (λ f, plan_files _ _ _ _ _ f Hpl) as Hfiles.
  pose proof Hpe as (Hok & Hgeo & _ & sh & Hs & _). cbn [fst snd] in *.
  pose proof (sync_files_evolve g _ _ _ ltac:(rewrite <- Hgeo; by eapply ok_geometry) (ok_inv _ _ Hok) Hfiles Hr) as Hd.
  split; [|split; [|by eexists]].
  - split; [|done]. eapply store_ok_world; [done|apply placed_nothing|]. by rewrite Hgeo.
  - by eapply plan_sync_retains.
Qed.

(** ** Theorems *)

(** C13. The slot store's invariant holds in every state a volume can reach
    from a consistent disk by any sequence of operations (failed ones
    included), crashes, closes and openings: maps cover their shards, the
    catalog lists exactly the open shards, every file is open, a file not
    marked short has its full size, and a shard that is not open holds
    nothing. *)
Theorem store_invariant g w σ :
  geometry_wf g → inv w → rtc (step g (λ _, False)) (Down w) σ → good g σ.
Proof. intros Hg Hi Hr. by apply (steps_good g _ _ _ Hg Hr). Qed.

(** C10. A checkpointed slot survives.  Once [write_slot] and the later
    [sync_shard_data] of its shard have succeeded (with successful operations
    on other units between them), the version reads back in every state
    reached by operations that leave the unit alone, failed or not, by
    crashes and by restarts, as long as the unit is not discarded: a read
    returns exactly the sequence and the ciphertext, or the storage's own
    error, and never the latter when the storage reports none.  The
    allocation map need not have been persisted. *)
Theorem synced_slot_survives g u seq ct s w s1 w1 s2 w2 s3 w3 s4 w4 r w5 :
  store_ok s w → st_geometry s = g → 0 ≤ u → u64_ok seq → 0 < seq →
  write_slot u seq ct (s, w) = (Ok tt, (s1, w1)) →
  rtc (quiet_step u) (s1, w1) (s2, w2) →
  sync_shard_data (shard_of_unit g u).1 (s2, w2) = (Ok tt, (s3, w3)) →
  rtc (step g (λ x, x = u)) (Up s3 w3) (Up s4 w4) → unit_discarded s4 u = false →
  read_slot s4 u w4 = (r, w5) →
  (r = Ok (SlotCiphertext seq ct) ∨ ∃ e, r = Err (CoreIo e)) ∧ (quiet w4 → r = Ok (SlotCiphertext seq ct)).
Proof.
  intros Hok <- Hu0 Hseq Hpos Hw Hq Hsy Hrun Hd Hread. pose proof (ok_geometry _ _ Hok) as Hg.
  destruct (sound_write_slot u seq ct s w Hok Hu0 _ _ _ Hw) as (Hok1 & E1 & HQ).
  destruct (HQ tt eq_refl) as (Hu1 & Hl & Hwr & sh & Hs & Hms & _).
  assert (pending (st_geometry s) u seq ct (s2, w2)) as Hp.
  { eapply quiets_pending; [done|done|exact Hq|]. split; [done|]. split; [by eapply ev_geometry|]. eauto. }
  pose proof (sync_retains _ u seq ct s2 w2 s3 w3 (conj Hu0 Hu1) Hl Hp Hsy) as Hrem.
  assert (remembers (st_geometry s) u seq ct (Up s4 w4)) as Hrem4
    by (eapply steps_remember; [done|done|done| |exact Hrun|done]; done).
  pose proof (remembers_view _ u seq ct s4 w4 Hg (conj Hu0 Hu1)
    (conj (unit_u64 _ u Hg (conj Hu0 Hu1)) (conj Hseq Hl)) Hpos Hrem4 Hd) as Hv.
  destruct Hrem4 as ([Hok4 G4] & _). rewrite <- G4 in Hu1.
  destruct (reads_read_slot s4 w4 u Hok4 (conj Hu0 Hu1) _ _ Hread) as (_ & Hr & Hqu). rewrite Hv in Hr, Hqu. done.
Qed.

(** C22. [read_slot] is the reference function [view] of the store's maps and
    of the bytes readers see: it changes nothing, returns the view or an
    error of the storage, and the view when the storage reports none.  In
    particular a corruption report is never spurious. *)
Theorem read_slot_exact s w u r w' :
  store_ok s w → 0 ≤ u < num_units (st_geometry s) → read_slot s u w = (r, w') →
  keeps (λ _, True) w w' ∧ (r = view s w u ∨ ∃ e, r = Err (CoreIo e)) ∧ (quiet w → r = view s w u).
Proof. intros Hok Hu Hr. by apply (reads_read_slot s w u Hok Hu). Qed.

(** What a successful slot read can be.  Ciphertext is returned only when
    the unit's own slot holds a header that decodes, names this unit and this
    sequence, and carries the checksum of exactly these bytes, and the unit
    is not discarded.  Zeros are returned only for a shard that does not
    exist, a discarded unit, or a unit not in the allocation map whose header
    is all zero or lies beyond the end of a file whose creation never
    finished. *)
Theorem read_slot_safe s w u x w' :
  store_ok s w → 0 ≤ u < num_units (st_geometry s) → read_slot s u w = (Ok x, w') →
  let '(idx, k) := shard_of_unit (st_geometry s) u in
  let off := slot_offset (st_geometry s) k in
  match x with
  | SlotCiphertext seq ct => ∃ sh hb h, st_shards s !! idx = Some sh ∧ is_discarded sh k = false ∧
      holds_at (Z.to_nat off) (hb ++ ct) (content w idx) ∧ Slot.decode hb = Ok h ∧
      Slot.unit_index h = u ∧ Slot.write_sequence h = seq ∧ Slot.ciphertext_len h = blen ct ∧
      Slot.ciphertext_crc h = crc32 ct
  | SlotZero => st_shards s !! idx = None ∨ ∃ sh, st_shards s !! idx = Some sh ∧
      (is_discarded sh k = true ∨ (bit (alloc sh) k = false ∧
        ((∃ hb, read_range (content w idx) off 64 = Some hb ∧ all_zero hb = true) ∨
         (blen (content w idx) < off + 64 ∧ short sh = Some Unproven))))
  end.
Proof.
  intros Hok Hu Hr. destruct (reads_read_slot s w u Hok Hu _ _ Hr) as (_ & [Hv|[e ?]] & _); [|done].
  unfold view in Hv. destruct (shard_of_unit (st_geometry s) u) as [idx k] eqn:Hsu.
  destruct (slot_place _ u idx k (ok_geometry _ _ Hok) Hu Hsu) as (_ & _ & Ho & _).
  destruct (st_shards s !! idx) as [sh|] eqn:Hs; [|injection Hv as ->; by left]. unfold shard_view in Hv.
  destruct (is_discarded sh k) eqn:Hd; [injection Hv as ->; right; eauto|].
  destruct (negb (bit (alloc sh) k) && untouched _ _ _ _) eqn:Hun.
  - injection Hv as ->. right. exists sh. split; [done|]. right. apply andb_true_iff in Hun as [Hb%negb_true_iff Hun].
    split; [done|]. unfold untouched in Hun. destruct (read_range _ _ 64) as [hb|] eqn:Hrr; [left; eauto|].
    right. split; [|by apply bool_decide_eq_true in Hun].
    apply Z.lt_nge. intros Hle. apply read_range_some in Hle as [? ?]; [congruence|done|lia].
  - destruct (version_at _ _ _ _) as [[seq ct]|] eqn:Hva; [|done]. destruct (_ || _); [|done]. injection Hv as ->.
    unfold version_at in Hva. destruct (header_at _ _ _ _) as [h|] eqn:Hh; [|done]. cbn [mbind option_bind] in Hva.
    destruct (header_at_some _ _ _ _ _ Hh) as (Hui & Hle & hb & Hhb & Hdec).
    destruct (read_range _ _ (Slot.ciphertext_len h)) as [ct'|] eqn:Hct; [|done]. cbn [mbind option_bind] in Hva.
    destruct (Z.eqb_spec (crc32 ct') (Slot.ciphertext_crc h)); [|done]. injection Hva as <- <-.
    destruct (Slot.slot_decode_fields hb h Hdec) as (_ & _ & [Hl0 _] & _).
    apply read_range_holds in Hhb as (Hlb & _ & Hh1); [|lia..]. apply read_range_holds in Hct as (Hlc & _ & Hh2); [|lia..].
    exists sh, hb, h. split; [done|]. split; [done|]. split; [|done]. apply holds_at_app. split; [done|].
    replace (Z.to_nat (slot_offset (st_geometry s) k) + length hb)%nat
      with (Z.to_nat (slot_offset (st_geometry s) k + 64)); [done|]. unfold blen in Hlb. lia.
Qed.

Lemma discarded_view s w u : unit_discarded s u = true → view s w u = Ok SlotZero.
Proof.
  unfold unit_discarded, view. destruct (shard_of_unit (st_geometry s) u) as [idx k]. cbn [fst snd].
  destruct (st_shards s !! idx); [|done]. intros Hd. unfold shard_view. by rewrite Hd.
Qed.

(** C23. The effect of [write_slot].  However it ends, every other unit whose
    file is not short reads as before, and a version of a unit in a short
    file stays; an out-of-range unit or an oversized ciphertext is refused
    before anything changes; and when it succeeds a unit that is not marked
    discarded reads back exactly the sequence and the ciphertext written, and
    one that is marked reads as zeros until its mark is cleared. *)
Theorem write_slot_effect u seq ct s w r s' w' :
  store_ok s w → 0 ≤ u → u64_ok seq → 0 < seq → write_slot u seq ct (s, w) = (r, (s', w')) →
  store_ok s' w' ∧
  (∀ v, v ≠ u → 0 ≤ v < num_units (st_geometry s) →
    (settled s v → view s' w' v = view s w v) ∧
    (∀ q c, view s w v = Ok (SlotCiphertext q c) → view s' w' v = Ok (SlotCiphertext q c))) ∧
  (num_units (st_geometry s) ≤ u ∨ max_ciphertext_size (st_geometry s) < blen ct →
    r = Err CoreCorrupt ∧ s' = s ∧ w' = w) ∧
  (r = Ok tt → view s' w' u = Ok (if unit_discarded s' u then SlotZero else SlotCiphertext seq ct)).
Proof.
  intros Hok Hu0 Hseq Hpos Hr. pose proof (ok_geometry _ _ Hok) as Hg.
  destruct (sound_write_slot u seq ct s w Hok Hu0 _ _ _ Hr) as (Hok' & He & HQ).
  split; [done|]. split; [|split].
  - intros v Hne Hv. split; [intros Hse; by eapply view_evolves|]. intros q c. by eapply view_version_evolves.
  - intros Hbad. cbv [write_slot validate_unit m_bind get_state m_err m_ret fst snd] in Hr.
    destruct (Z.leb_spec (num_units (st_geometry s)) u); [by injection Hr as <- <- <-|].
    destruct Hbad as [?|Hbad]; [lia|]. rewrite (proj2 (Z.ltb_lt _ _) Hbad) in Hr.
    by injection Hr as <- <- <-.
  - intros ->. destruct (HQ tt eq_refl) as (Hu & Hl & Hw & sh & Hs & _).
    destruct (unit_discarded s' u) eqn:Hd; [by apply discarded_view|].
    pose proof (ev_geometry _ _ _ _ _ _ He) as G'. unfold unit_discarded, view, written in *. rewrite G' in *.
    destruct (shard_of_unit (st_geometry s) u) as [idx k] eqn:Hsu. cbn [fst snd] in *. rewrite Hs in *.
    destruct (slot_place _ u idx k Hg (conj Hu0 Hu) Hsu) as (_ & _ & Ho & _). destruct Hw as [Hh _].
    apply shard_view_version; [|done|by right]. apply version_holds; [done| |done|done].
    by split; [eapply unit_u64|split].
Qed.

(** Reclamation only moves its cursor. *)
Lemma retry_shards can_punch s w r s' w' :
  retry_reclamation can_punch (s, w) = (r, (s', w')) → st_shards s' = st_shards s ∧ st_geometry s' = st_geometry s.
Proof.
  cbv [retry_reclamation m_bind get_state get_shard m_lift modify_state m_try on_world m_err m_ret ok_or fst snd].
  destruct (st_reclaim_cursor s) as [[idx start]|]; [|by intros [= <- <- <-]].
  destruct (st_shards s !! idx) as [sh|]; [|by intros [= <- <- <-]].
  destruct (dirty_discard sh); [by intros [= <- <- <-]|].
  destruct (discard sh) as [m|]; [|by intros [= <- <- <-]].
  destruct (punch_slots _ _ _) as [[[]|e] w1]; by intros [= <- <- <-].
Qed.

(** C24. Background reclamation is invisible.  However [retry_reclamation]
    ends, it releases only ranges of slots whose units are marked discarded
    and that the caller allows, and no unit in a file of full size reads
    differently afterwards. *)
Theorem reclamation_invisible can_punch s w r s' w' :
  store_ok s w → retry_reclamation can_punch (s, w) = (r, (s', w')) →
  store_ok s' w' ∧ data_evolves (st_geometry s) (reclaimable can_punch s) (is_ok r) w w' ∧
  ∀ v, 0 ≤ v < num_units (st_geometry s) → settled s v → view s' w' v = view s w v.
Proof.
  intros Hok Hr. destruct (sound_retry_reclamation can_punch s w Hok _ _ _ Hr) as (Hok' & He & _).
  split; [done|]. split; [by eapply ev_data|]. intros v Hv Hse. destruct (retry_shards _ _ _ _ _ _ Hr) as [Hs Hg].
  unfold view. rewrite Hg, Hs. destruct (shard_of_unit (st_geometry s) v) as [idx k] eqn:Hsu.
  destruct (st_shards s !! idx) as [sh|] eqn:Hsh; [|done].
  destruct (is_discarded sh k) eqn:Hd; [unfold shard_view; by rewrite Hd|].
  assert (¬ reclaimable can_punch s v) as Hn.
  { intros (_ & x & Hx & Hdx). rewrite Hsu in Hx, Hdx. cbn [fst snd] in *. congruence. }
  pose proof (view_evolves _ _ _ _ _ _ v Hok Hok' He Hn Hv Hse) as Hvw. unfold view in Hvw.
  by rewrite Hg, Hs, Hsu, Hsh in Hvw.
Qed.

(** A slot written through a checkpoint plan survives.  After the plan
    was made, its write of the unit succeeded, and its barrier succeeded
    (with other writes of the plan and successful operations of the store
    between them), the version is there in every state reached by
    operations that leave the unit alone, crashes and restarts. *)
Theorem plan_slot_survives us p u i t seq ct s w s1 w1 w2 s3 w3 w4 s5 w5 :
  store_ok s w → 0 ≤ u → u64_ok seq → 0 < seq → u < num_units (st_geometry s) →
  (∀ sh, st_shards s !! (shard_of_unit (st_geometry s) u).1 = Some sh → map_stored sh = true) →
  checkpoint_slot_plan us (s, w) = (Ok p, (s1, w1)) → targets p !! i = Some t → t_unit t = u →
  plan_write p i seq ct w1 = (Ok tt, w2) → rtc (inflight p u) (s1, w2) (s3, w3) →
  sync_shards p w3 = (Ok tt, w4) →
  rtc (step (st_geometry s) (λ x, x = u)) (Up s3 w4) (Up s5 w5) → unit_discarded s5 u = false →
  view s5 w5 u = Ok (SlotCiphertext seq ct).
Proof.
  intros Hok Hu0 Hseq Hpos Hu1 Hst Hp Ht Htu Hw Hfl Hsy Hrun Hd. pose proof (ok_geometry _ _ Hok) as Hg.
  destruct (checkpoint_plan_ok _ _ _ _ _ _ Hok Hp) as [Hpl He].
  assert (t_unit t = u) as Htu' by done. subst u.
  destruct (plan_write_sound _ _ _ _ _ _ _ _ _ _ _ Hpl Ht (conj Hu0 Hu1) Hw) as (Hok2 & He2 & HQ).
  destruct (HQ eq_refl) as [Hwr Hl].
  assert (t_unit t ∈ us) as Hin.
  { destruct Hpl as (_ & _ & _ & files & (Hus & _) & _). rewrite <- Hus.
    apply list_elem_of_fmap_2. by eapply list_elem_of_lookup_2. }
  assert (planned (st_geometry s) p us (s3, w3) ∧ pending (st_geometry s) (t_unit t) seq ct (s3, w3)) as [Hpl3 Hp3].
  { assert (planned (st_geometry s) p us (s1, w2)) as Hpl2 by (by eapply planned_evolves).
    assert (pending (st_geometry s) (t_unit t) seq ct (s1, w2)) as Hp2.
    { split; [done|]. split; [by eapply ev_geometry|]. split; [done|].
      destruct Hpl as (_ & _ & _ & files & (_ & Hts & Hfs) & _). rewrite list.Forall_forall in Hts. cbn [fst snd] in *.
      pose proof (tg_files _ _ _ _ (Hts t (list_elem_of_lookup_2 _ _ _ Ht))) as Hf. rewrite (ev_geometry _ _ _ _ _ _ He) in Hf.
      destruct (Hfs _ _ Hf) as (sh & Hs & _). exists sh. split; [done|].
      destruct (st_shards s !! (shard_of_unit (st_geometry s) (t_unit t)).1) as [sh0|] eqn:Hs0.
      - destruct (evolves_shard _ _ _ _ _ _ _ _ He Hs0) as (sh' & Hs' & _ & Hm & _). assert (sh' = sh) as -> by congruence.
        by apply Hm, Hst.
      - by destruct (ev_new _ _ _ _ _ _ He _ _ Hs0 Hs) as (_ & ? & _). }
    by eapply inflights_pending. }
  pose proof (plan_sync_remembers _ p us _ seq ct s3 w3 w4 (conj Hu0 Hu1) Hl Hin Hpl3 Hp3 Hsy) as Hrem.
  eapply remembers_view; [done|done|by split; [eapply unit_u64|split]|done| |done].
  by eapply steps_remember; [..|exact Hrun|].
Qed.
End Runs.

(** ** A run

    A small volume: four units in two shards.  Unit 3 is written and synced,
    power is lost, the volume is opened again. *)
Module StoreSample.
#[local] Existing Instance Ieee.ieee.

Definition g : Geometry := mkGeometry 512 512 512 512 64 1024 2048 1024.
Definition sb : Superblock := mkSuperblock 7 (zeros 16) (magic "xts") (magic "id") (magic "key") g 1 1700000000.
Definition w0 : Inner := (create_volume_with_metadata_version sb SUPERBLOCK_VERSION_V3 Sample.empty).2.

Lemma small_sb_ok : volume_ok (mkVolumeSuperblock (sb_set_generation 0 sb) SUPERBLOCK_VERSION_V3).
Proof.
  split; [|done]. split; [by vm_compute|]. split; [by vm_compute|]. split.
  { split; [|by vm_compute]. unfold compute_args, sb, g, u32_ok, u64_ok. cbn. lia. }
  split; [done|]. split; [by vm_compute|].
  repeat split; try (by vm_compute); cbn; unfold MAX_STR; lia.
Qed.

Lemma small_inv : inv w0.
Proof.
  assert (absent Sample.empty SUPERBLOCK_A ∧ absent Sample.empty SUPERBLOCK_B ∧ unused Sample.empty) as (Ha & Hb & Hu)
    by done.
  exact (proj1 (create_commit sb SUPERBLOCK_VERSION_V3 _ Sample.empty w0 ProofSample.w0_inv small_sb_ok Ha Hb Hu
    (surjective_pairing _))).
Qed.

Lemma g_wf : geometry_wf g.
Proof.
  eapply (compute_wf 512 512 512 512 2048 1024); [unfold compute_args, u32_ok, u64_ok; lia|vm_compute; reflexivity].
Qed.

Lemma g_units : num_units g = 4.
Proof. reflexivity. Qed.

Abbreviation state := (SlotStore (F := CrashFile) * Inner)%type.

Definition opened (w : Inner) : state :=
  match open (F := CrashFile) g w with
  | (Ok s, w') => (s, w')
  | (Err _, w') => (mkSlotStore g (Catalog.mkShardCatalog 0 []) (catalog_store_of g) false ∅ [] [] false None false 0, w')
  end.

Definition cipher : bytes := magic "ciphertext".
Definition plain : bytes := magic "other".

Definition st0 : state := opened w0.
Definition st1 : state := (write_slot 3 9 cipher st0).2.
Definition st2 : state := (write_slot 0 10 plain st1).2.
Definition st3 : state := (sync_shard_data 1 st2).2.
Definition lost : Inner := crash_all_lost st3.2.
Definition st4 : state := opened lost.
Definition read4 : Inner := (read_slot st4.1 3 st4.2).2.

(** Units 2 and 3 are rewritten through a plan, then unit 3 is discarded and
    its slot released. *)
Definition plan_of (r : result CoreError (CheckpointSlotPlan (F := CrashFile))) : CheckpointSlotPlan :=
  match r with Ok p => p | Err _ => mkPlan [] [] 0 0 end.
Definition plan5 : CheckpointSlotPlan (F := CrashFile) := plan_of (checkpoint_slot_plan [2; 3] st2).1.
Definition st5 : state := (checkpoint_slot_plan [2; 3] st2).2.
Definition w6 : Inner := (plan_write plan5 1 11 plain st5.2).2.
Definition w7 : Inner := (plan_write plan5 0 12 cipher w6).2.
Definition w8 : Inner := (sync_shards plan5 w7).2.
Definition st9 : state := (set_discarded 3 true st4).2.
Definition st10 : state := (persist_discards st9).2.
Definition st11 : state := (schedule_reclamation st10).2.
Definition st12 : state := (retry_reclamation (λ _, true) st11).2.

Definition target (i : nat) : CheckpointSlotTarget := nth i (targets plan5) (mkTarget 0 0 (mkCrashFile "" 0%N)).


(** Every outcome of the run, computed together. *)
Definition ran {A} (r : result CoreError A) : bool := is_ok r.
Definition is_version (seq : Z) (ct : bytes) (r : result CoreError SlotRead) : bool :=
  match r with Ok (SlotCiphertext q c) => (q =? seq) && bytes_eqb c ct | _ => false end.
Definition outcomes : list bool := [
  ran (open (F := CrashFile) g w0).1; ran (write_slot 3 9 cipher st0).1; ran (write_slot 0 10 plain st1).1;
  ran (sync_shard_data 1 st2).1; ran (open (F := CrashFile) g lost).1; is_version 9 cipher (read_slot st4.1 3 st4.2).1;
  ran (checkpoint_slot_plan [2; 3] st2).1; ran (plan_write plan5 1 11 plain st5.2).1; ran (plan_write plan5 0 12 cipher w6).1;
  ran (sync_shards plan5 w7).1; ran (set_discarded 3 true st4).1; ran (persist_discards st9).1;
  ran (schedule_reclamation (W := Inner) st10).1; ran (retry_reclamation (λ _, true) st11).1;
  negb (unit_discarded st1.1 3); negb (unit_discarded st4.1 3); negb (unit_discarded st5.1 3);
  bool_decide (t_unit <$> targets plan5 = [2; 3]);
  bool_decide (option_map map_stored (st_shards st2.1 !! 1) = Some true);
  bool_decide (option_map short (st_shards st11.1 !! 1) = Some None)].

Lemma outcomes_true : forallb id outcomes = true.
Proof. vm_compute. reflexivity. Qed.

Lemma outcome i b : outcomes !! i = Some b → b = true.
Proof.
  intros Hb. pose proof outcomes_true as Ha. rewrite forallb_forall in Ha. apply Ha, list_elem_of_In.
  by eapply list_elem_of_lookup_2.
Qed.

Lemma ran_unit {S} (r : result CoreError unit * S) : ran r.1 = true → r = (Ok tt, r.2).
Proof. by destruct r as [[[]|] ?]. Qed.

Lemma ran_store (r : result CoreError unit * state) : ran r.1 = true → r = (Ok tt, (r.2.1, r.2.2)).
Proof. by destruct r as [[[]|] [? ?]]. Qed.

Lemma opened_ran w : ran (open (F := CrashFile) g w).1 = true → open (F := CrashFile) g w = (Ok (opened w).1, (opened w).2).
Proof. unfold opened. by destruct (open g w) as [[s|e] w']. Qed.

Lemma open0 : open (F := CrashFile) g w0 = (Ok st0.1, st0.2).
Proof. apply opened_ran. exact (outcome 0 _ eq_refl). Qed.
Lemma run1 : write_slot 3 9 cipher (st0.1, st0.2) = (Ok tt, (st1.1, st1.2)).
Proof. rewrite <- surjective_pairing. apply ran_store. exact (outcome 1 _ eq_refl). Qed.
Lemma run2 : write_slot 0 10 plain (st1.1, st1.2) = (Ok tt, (st2.1, st2.2)).
Proof. rewrite <- surjective_pairing. apply ran_store. exact (outcome 2 _ eq_refl). Qed.
Lemma run3 : sync_shard_data 1 (st2.1, st2.2) = (Ok tt, (st3.1, st3.2)).
Proof. rewrite <- surjective_pairing. apply ran_store. exact (outcome 3 _ eq_refl). Qed.
Lemma open4 : open (F := CrashFile) g lost = (Ok st4.1, st4.2).
Proof. apply opened_ran. exact (outcome 4 _ eq_refl). Qed.
Lemma ran_version seq ct (r : result CoreError SlotRead * Inner) :
  is_version seq ct r.1 = true → r = (Ok (SlotCiphertext seq ct), r.2).
Proof.
  destruct r as [[[|q c]|e] w]; [done| |done]. simpl. intros [->%Z.eqb_eq ->%bytes_eqb_eq]%andb_true_iff. done.
Qed.

Lemma run_read4 : read_slot st4.1 3 st4.2 = (Ok (SlotCiphertext 9 cipher), read4).
Proof.
  assert (is_version 9 cipher (read_slot st4.1 3 st4.2).1 = true) as Hv by exact (outcome 5 _ eq_refl).
  exact (ran_version _ _ _ Hv).
Qed.

Lemma ran_plan (r : result CoreError CheckpointSlotPlan * state) :
  ran r.1 = true → r = (Ok (plan_of r.1), (r.2.1, r.2.2)).
Proof. by destruct r as [[p|e] [s w]]. Qed.

Lemma run5 : checkpoint_slot_plan [2; 3] (st2.1, st2.2) = (Ok plan5, (st5.1, st5.2)).
Proof. rewrite <- surjective_pairing. apply ran_plan. exact (outcome 6 _ eq_refl). Qed.
Lemma run6 : plan_write plan5 1 11 plain st5.2 = (Ok tt, w6).
Proof. unfold w6. apply ran_unit. exact (outcome 7 _ eq_refl). Qed.
Lemma run7 : plan_write plan5 0 12 cipher w6 = (Ok tt, w7).
Proof. unfold w7. apply ran_unit. exact (outcome 8 _ eq_refl). Qed.
Lemma run8 : sync_shards plan5 w7 = (Ok tt, w8).
Proof. unfold w8. apply ran_unit. exact (outcome 9 _ eq_refl). Qed.
Lemma run9 : set_discarded 3 true (st4.1, st4.2) = (Ok tt, (st9.1, st9.2)).
Proof. rewrite <- surjective_pairing. apply ran_store. exact (outcome 10 _ eq_refl). Qed.
Lemma run10 : persist_discards (st9.1, st9.2) = (Ok tt, (st10.1, st10.2)).
Proof. rewrite <- surjective_pairing. apply ran_store. exact (outcome 11 _ eq_refl). Qed.
Lemma run11 : schedule_reclamation (st10.1, st10.2) = (Ok tt, (st11.1, st11.2)).
Proof. rewrite <- surjective_pairing. apply ran_store. exact (outcome 12 _ eq_refl). Qed.
Lemma run12 : retry_reclamation (λ _, true) (st11.1, st11.2) = (Ok tt, (st12.1, st12.2)).
Proof. rewrite <- surjective_pairing. apply ran_store. exact (outcome 13 _ eq_refl). Qed.

Lemma marks : unit_discarded st1.1 3 = false ∧ unit_discarded st4.1 3 = false.
Proof.
  exact (conj (proj1 (negb_true_iff (unit_discarded st1.1 3)) (outcome 14 _ eq_refl))
              (proj1 (negb_true_iff (unit_discarded st4.1 3)) (outcome 15 _ eq_refl))).
Qed.
Lemma kept5 : unit_discarded st5.1 3 = false.
Proof. exact (proj1 (negb_true_iff (unit_discarded st5.1 3)) (outcome 16 _ eq_refl)). Qed.
Lemma target_units : t_unit <$> targets plan5 = [2; 3].
Proof. exact (proj1 (bool_decide_eq_true (t_unit <$> targets plan5 = [2; 3])) (outcome 17 _ eq_refl)). Qed.
Lemma stored2 sh : st_shards st2.1 !! 1 = Some sh → map_stored sh = true.
Proof.
  assert (option_map map_stored (st_shards st2.1 !! 1) = Some true) as Hf
    by exact (proj1 (bool_decide_eq_true (option_map map_stored (st_shards st2.1 !! 1) = Some true)) (outcome 18 _ eq_refl)).
  intros Hs. rewrite Hs in Hf. by injection Hf.
Qed.
Lemma settled11 sh : st_shards st11.1 !! 1 = Some sh → short sh = None.
Proof.
  assert (option_map short (st_shards st11.1 !! 1) = Some None) as Hf
    by exact (proj1 (bool_decide_eq_true (option_map short (st_shards st11.1 !! 1) = Some None)) (outcome 19 _ eq_refl)).
  intros Hs. rewrite Hs in Hf. by injection Hf.
Qed.

Lemma nth_target (l : list (CheckpointSlotTarget (F := CrashFile))) i u d :
  (t_unit <$> l) !! i = Some u → l !! i = Some (nth i l d) ∧ t_unit (nth i l d) = u.
Proof.
  rewrite list_lookup_fmap. destruct (l !! i) as [t|] eqn:Ht; [|done]. intros [= <-].
  by rewrite (nth_lookup_Some l i d t Ht).
Qed.

Lemma target_at i u : [2; 3] !! i = Some u → targets plan5 !! i = Some (target i) ∧ t_unit (target i) = u.
Proof.
  rewrite <- target_units. apply nth_target.
Qed.

#[global] Opaque w0 st0 st1 st2 st3 lost st4 read4 plan5 target st5 w6 w7 w8 st9 st10 st11 st12.

Lemma st0_ok : store_ok st0.1 st0.2.
Proof. by apply (open_peeks g w0 small_inv g_wf _ _ open0). Qed.

Lemma op_store_ok op s w s' w' r :
  store_ok (F := CrashFile) s w → op_ok op → exec op (s, w) = (r, (s', w')) → store_ok s' w'.
Proof. intros Hok Hop Hr. by destruct (exec_sound op s w Hok Hop _ _ _ Hr). Qed.

Lemma st2_ok : store_ok st2.1 st2.2.
Proof.
  eapply (op_store_ok (OpWrite 0 10 plain)); [|done|exact run2].
  eapply (op_store_ok (OpWrite 3 9 cipher)); [exact st0_ok|done|exact run1].
Qed.

Lemma st4_ok : store_ok st4.1 st4.2.
Proof.
  assert (inv lost) as Hi.
  { eapply (law_crash st3.2); [|by right].
    eapply ok_inv, (op_store_ok (OpSync 1)); [exact st2_ok|done|exact run3]. }
  by apply (open_peeks g lost Hi g_wf _ _ open4).
Qed.

Lemma geometry_of op s w s' w' r :
  store_ok (F := CrashFile) s w → op_ok op → exec op (s, w) = (r, (s', w')) → st_geometry s' = st_geometry s.
Proof. intros Hok Hop Hr. destruct (exec_sound op s w Hok Hop _ _ _ Hr) as (_ & He & _). by eapply ev_geometry. Qed.

Lemma geometry0 : st_geometry st0.1 = g.
Proof. by apply (open_peeks g w0 small_inv g_wf _ _ open0). Qed.
Lemma geometry2 : st_geometry st2.1 = g.
Proof.
  rewrite <- geometry0. transitivity (st_geometry st1.1).
  - eapply (geometry_of (OpWrite 0 10 plain)); [|done|exact run2].
    eapply (op_store_ok (OpWrite 3 9 cipher)); [exact st0_ok|done|exact run1].
  - eapply (geometry_of (OpWrite 3 9 cipher)); [exact st0_ok|done|exact run1].
Qed.
Lemma geometry4 : st_geometry st4.1 = g.
Proof.
  assert (inv lost) as Hi.
  { eapply (law_crash st3.2); [|by right].
    eapply ok_inv, (op_store_ok (OpSync 1)); [exact st2_ok|done|exact run3]. }
  by apply (open_peeks g lost Hi g_wf _ _ open4).
Qed.
Lemma geometry5 : st_geometry st5.1 = g.
Proof. rewrite <- geometry2. eapply ev_geometry, (checkpoint_plan_ok [2; 3] _ _ _ _ _ st2_ok run5). Qed.

Lemma st9_ok : store_ok st9.1 st9.2.
Proof. eapply (op_store_ok (OpSetDiscarded 3 true)); [exact st4_ok|done|exact run9]. Qed.
Lemma st10_ok : store_ok st10.1 st10.2.
Proof. eapply (op_store_ok OpPersistDiscards); [exact st9_ok|done|exact run10]. Qed.
Lemma geometry11 : st_geometry st11.1 = g.
Proof.
  rewrite <- geometry4. etransitivity; [eapply (geometry_of OpSchedule); [exact st10_ok|done|exact run11]|].
  etransitivity; [eapply (geometry_of OpPersistDiscards); [exact st9_ok|done|exact run10]|].
  eapply (geometry_of (OpSetDiscarded 3 true)); [exact st4_ok|done|exact run9].
Qed.

Lemma st11_ok : store_ok st11.1 st11.2.
Proof.
  eapply (op_store_ok OpSchedule); [exact st10_ok|done|exact run11].
Qed.
End StoreSample.

#[local] Existing Instance Ieee.ieee.

Lemma store_invariant_witness : store_ok StoreSample.st4.1 StoreSample.st4.2.
Proof.
  refine (proj1 (store_invariant StoreSample.g StoreSample.w0 (Up StoreSample.st4.1 StoreSample.st4.2)
    StoreSample.g_wf StoreSample.small_inv _)).
  eapply rtc_l; [apply step_open, StoreSample.open0|].
  eapply rtc_l; [eapply (step_op _ _ (OpWrite 3 9 StoreSample.cipher)); [done|done|exact StoreSample.run1]|].
  eapply rtc_l; [eapply (step_op _ _ (OpWrite 0 10 StoreSample.plain)); [done|done|exact StoreSample.run2]|].
  eapply rtc_l; [eapply (step_op _ _ (OpSync 1)); [done|done|exact StoreSample.run3]|].
  eapply rtc_l; [apply (step_crash _ _ _ StoreSample.lost); by right|].
  apply rtc_once, step_open, StoreSample.open4.
Defined.

Lemma synced_slot_survives_witness :
  (Ok (SlotCiphertext 9 StoreSample.cipher) : result CoreError SlotRead) = Ok (SlotCiphertext 9 StoreSample.cipher) ∨
  ∃ e, (Ok (SlotCiphertext 9 StoreSample.cipher) : result CoreError SlotRead) = Err (CoreIo e).
Proof.
  refine (proj1 (synced_slot_survives StoreSample.g 3 9 StoreSample.cipher StoreSample.st0.1 StoreSample.st0.2
    StoreSample.st1.1 StoreSample.st1.2 StoreSample.st2.1 StoreSample.st2.2 StoreSample.st3.1 StoreSample.st3.2
    StoreSample.st4.1 StoreSample.st4.2 _ StoreSample.read4 StoreSample.st0_ok StoreSample.geometry0
    _ _ _ StoreSample.run1 _ StoreSample.run3 _ (proj2 StoreSample.marks) StoreSample.run_read4));
    [lia|by unfold u64_ok|lia| |].
  - apply rtc_once. eapply (quiet_op _ (OpWrite 0 10 StoreSample.plain)); [done|done|exact StoreSample.run2].
  - eapply rtc_l; [apply (step_crash _ _ _ StoreSample.lost); by right|].
    apply rtc_once, step_open, StoreSample.open4.
Defined.

Lemma read_slot_exact_witness :
  view StoreSample.st4.1 StoreSample.st4.2 3 = Ok (SlotCiphertext 9 StoreSample.cipher).
Proof.
  destruct (read_slot_exact StoreSample.st4.1 StoreSample.st4.2 3 _ StoreSample.read4 StoreSample.st4_ok
    ltac:(rewrite StoreSample.geometry4, StoreSample.g_units; lia) StoreSample.run_read4) as (_ & [Hv|[e [=]]] & _).
  symmetry. exact Hv.
Defined.

Lemma read_slot_safe_witness : ∃ sh, st_shards StoreSample.st4.1 !! 1 = Some sh ∧ is_discarded sh 1 = false.
Proof.
  pose proof (read_slot_safe StoreSample.st4.1 StoreSample.st4.2 3 _ StoreSample.read4 StoreSample.st4_ok
    ltac:(rewrite StoreSample.geometry4, StoreSample.g_units; lia) StoreSample.run_read4) as Hr.
  rewrite StoreSample.geometry4 in Hr. change (shard_of_unit StoreSample.g 3) with (1, 1) in Hr.
  cbv beta iota zeta in Hr. destruct Hr as (sh & hb & h & Hs & Hd & _). exact (ex_intro _ sh (conj Hs Hd)).
Defined.

Lemma write_slot_effect_witness :
  view StoreSample.st1.1 StoreSample.st1.2 3 = Ok (SlotCiphertext 9 StoreSample.cipher).
Proof.
  destruct (write_slot_effect 3 9 StoreSample.cipher StoreSample.st0.1 StoreSample.st0.2 (Ok tt)
    StoreSample.st1.1 StoreSample.st1.2 StoreSample.st0_ok ltac:(lia) ltac:(by unfold u64_ok) ltac:(lia) StoreSample.run1) as (_ & _ & _ & Hv).
  rewrite (proj1 StoreSample.marks) in Hv. exact (Hv eq_refl).
Defined.

Lemma reclamation_invisible_witness :
  view StoreSample.st12.1 StoreSample.st12.2 2 = view StoreSample.st11.1 StoreSample.st11.2 2.
Proof.
  refine (proj2 (proj2 (reclamation_invisible (λ _, true) StoreSample.st11.1 StoreSample.st11.2 (Ok tt)
    StoreSample.st12.1 StoreSample.st12.2 StoreSample.st11_ok StoreSample.run12)) 2 _ _).
  - rewrite StoreSample.geometry11, StoreSample.g_units. lia.
  - intros sh. rewrite StoreSample.geometry11. change (shard_of_unit StoreSample.g 2).1 with 1. intros Hs.
    exact (StoreSample.settled11 sh Hs).
Defined.

Lemma plan_slot_survives_witness :
  view StoreSample.st5.1 StoreSample.w8 3 = Ok (SlotCiphertext 11 StoreSample.plain).
Proof.
  assert (0 ≤ 3 ∧ u64_ok 11 ∧ 0 < 11) as (H3 & H11 & H11') by (unfold u64_ok; lia).
  assert (3 < num_units (st_geometry StoreSample.st2.1)) as Hn
    by (rewrite StoreSample.geometry2, StoreSample.g_units; lia).
  refine (plan_slot_survives [2; 3] StoreSample.plan5 3 1 _ 11 StoreSample.plain StoreSample.st2.1 StoreSample.st2.2
    StoreSample.st5.1 StoreSample.st5.2 StoreSample.w6 StoreSample.st5.1 StoreSample.w7 StoreSample.w8
    StoreSample.st5.1 StoreSample.w8 StoreSample.st2_ok H3 H11 H11' Hn _ StoreSample.run5
    (proj1 (StoreSample.target_at 1 3 eq_refl)) (proj2 (StoreSample.target_at 1 3 eq_refl)) StoreSample.run6 _ StoreSample.run8 (rtc_refl _ _) StoreSample.kept5).
  - intros sh. rewrite StoreSample.geometry2. change (shard_of_unit StoreSample.g 3).1 with 1. apply StoreSample.stored2.
  - apply rtc_once. eapply inflight_write; [exact (proj1 (StoreSample.target_at 0 2 eq_refl))| | |exact StoreSample.run7].
    + rewrite (proj2 (StoreSample.target_at 0 2 eq_refl)). lia.
    + rewrite (proj2 (StoreSample.target_at 0 2 eq_refl)), StoreSample.geometry5, StoreSample.g_units. lia.
Defined.
