(* ===== verification/Overlay.v ===== *)
(** * Overlay: journal records not yet checkpointed
    (crates/maki-core/src/overlay.rs)

    Per unit the latest version (which serves reads) and the latest durable
    version (what a checkpoint may apply), the queue of promotions, and the
    byte accounting admission control relies on.  [check_invariants] is the
    program's own sanitizer; every overlay the operations reach passes it.
    The second half relates the overlay to an abstract log of the published
    versions. *)

From S2P Require Import Prelude BTreeMap.

Local Open Scope Z_scope.

Module Overlay.

Record OverlayVersion := mkVersion {
  sequence : Z;
  ciphertext : bytes
}.

#[global] Instance OverlayVersion_eq_dec : EqDecision OverlayVersion.
Proof. solve_decision. Defined.

Record UnitOverlay := mkUnit {
  latest : OverlayVersion;
  durable : option OverlayVersion
}.

(** [Arc] sharing is immutable and not observable; a shared version is the
    same value twice.  The debug-only tick counter is left out. *)
Record Overlay := mkOverlay {
  units : gmap Z UnitOverlay;
  pending_promotion : gmap Z Z;
  obytes : Z;
  latest_bytes : Z;
  durable_boundary : Z
}.

Definition new : Overlay := mkOverlay ∅ ∅ 0 0 0.

Definition len (o : Overlay) : Z := Z.of_nat (size (units o)).
Definition is_empty (o : Overlay) : bool := bool_decide (units o = ∅).

Definition clen (v : OverlayVersion) : Z := blen (ciphertext v).

(** [UnitOverlay::default()]. *)
Definition default_unit : UnitOverlay := mkUnit (mkVersion 0 []) None.

Definition first_unit (o : Overlay) : option Z := fst <$> first_key_value (units o).

(** [iter().find_map(..)]. *)
Definition first_nonempty_unit (o : Overlay) : option Z :=
  head (omap (λ '(u, e), if bool_decide (ciphertext (latest e) = []) then None else Some u)
             (entries (units o))).

Definition sequence_bounds (o : Overlay) : option (Z * Z) :=
  foldl (λ acc s, match acc with
                  | None => Some (s, s)
                  | Some (lo, hi) => Some (Z.min lo s, Z.max hi s)
                  end) None ((λ '(_, e), sequence (latest e)) <$> entries (units o)).

Definition publish (unit sequence0 : Z) (ct : bytes) (o : Overlay) : Overlay :=
  let b := add64 (obytes o) (blen ct) in
  let lb := add64 (latest_bytes o) (blen ct) in
  let entry := default default_unit (units o !! unit) in
  let '(b, lb) :=
    if negb (sequence (latest entry) =? 0)
    then (saturating_sub b (clen (latest entry)), saturating_sub lb (clen (latest entry)))
    else (b, lb) in
  mkOverlay (<[unit := mkUnit (mkVersion sequence0 ct) (durable entry)]> (units o))
    (<[sequence0 := unit]> (pending_promotion o)) b lb (durable_boundary o).

Definition get (o : Overlay) (unit : Z) : option OverlayVersion := latest <$> units o !! unit.

(** The promotion of one queue entry. *)
Definition promote_one (seq unit : Z) (o : Overlay) : Overlay :=
  let pending := delete seq (pending_promotion o) in
  match units o !! unit with
  | None => mkOverlay (units o) pending (obytes o) (latest_bytes o) (durable_boundary o)
  | Some entry =>
      if (sequence (latest entry) =? seq)
         && match durable entry with Some d => sequence d <? seq | None => true end
      then
        let b := match durable entry with
                 | Some old => saturating_sub (obytes o) (clen old)
                 | None => obytes o
                 end in
        mkOverlay (<[unit := mkUnit (latest entry) (Some (latest entry))]> (units o)) pending
          (add64 b (clen (latest entry))) (latest_bytes o) (durable_boundary o)
      else mkOverlay (units o) pending (obytes o) (latest_bytes o) (durable_boundary o)
  end.

(** The [while let] loop; every round removes a queue entry. *)
Fixpoint promote_loop (fuel : nat) (durable_sequence : Z) (o : Overlay) : Overlay :=
  match fuel with
  | O => o
  | S fuel =>
      match first_key_value (pending_promotion o) with
      | None => o
      | Some (seq, unit) =>
          if durable_sequence <? seq then o
          else promote_loop fuel durable_sequence (promote_one seq unit o)
      end
  end.

Definition promote (durable_sequence : Z) (o : Overlay) : Overlay :=
  promote_loop (S (size (pending_promotion o))) durable_sequence
    (mkOverlay (units o) (pending_promotion o) (obytes o) (latest_bytes o)
       (Z.max (durable_boundary o) durable_sequence)).

(** [collect_durable], and [collect_durable_shared] up to sharing. *)
Definition collect_durable (durable_sequence : Z) (o : Overlay) : list (Z * OverlayVersion) :=
  omap (λ '(unit, e),
    match durable e with
    | Some d => if sequence d <=? durable_sequence then Some (unit, d) else None
    | None => None
    end) (entries (units o)).

(** One round of the retirement loop: the entry's durable version, then the
    entry itself. *)
Definition retire_one (checkpoint : Z) (acc : Overlay * list Z) (ue : Z * UnitOverlay)
    : Overlay * list Z :=
  let '(o, remove) := acc in
  let '(unit, entry) := ue in
  let '(entry, b) :=
    match durable entry with
    | Some d => if sequence d <=? checkpoint
                then (mkUnit (latest entry) None, saturating_sub (obytes o) (clen d))
                else (entry, obytes o)
    | None => (entry, obytes o)
    end in
  let us := <[unit := entry]> (units o) in
  if sequence (latest entry) <=? checkpoint
  then (mkOverlay us (pending_promotion o) (saturating_sub b (clen (latest entry)))
          (saturating_sub (latest_bytes o) (clen (latest entry))) (durable_boundary o),
        remove ++ [unit])
  else (mkOverlay us (pending_promotion o) b (latest_bytes o) (durable_boundary o), remove).

Definition retire (checkpoint : Z) (o : Overlay) : Overlay :=
  let '(o, remove) := foldl (retire_one checkpoint) (o, []) (entries (units o)) in
  mkOverlay (foldl (λ us u, delete u us) (units o) remove)
    (filter (λ su, checkpoint < su.1) (pending_promotion o))
    (obytes o) (latest_bytes o) (durable_boundary o).

(** ** The sanitizer *)

Definition weight (e : UnitOverlay) : Z :=
  clen (latest e) + match durable e with Some d => clen d | None => 0 end.
Definition latest_weight (e : UnitOverlay) : Z := clen (latest e).

(** The assertions on one unit. *)
Definition check_unit (boundary : Z) (e : UnitOverlay) : bool :=
  negb (sequence (latest e) =? 0) &&
  match durable e with
  | Some d => (sequence d <=? sequence (latest e)) && (sequence d <=? boundary) &&
              (negb (sequence d =? sequence (latest e)) || bytes_eqb (ciphertext d) (ciphertext (latest e)))
  | None => true
  end &&
  (negb (sequence (latest e) <=? boundary) ||
   match durable e with Some d => sequence d =? sequence (latest e) | None => false end).

(** The assertions on one pending promotion. *)
Definition check_pending (o : Overlay) (seq unit : Z) : bool :=
  (durable_boundary o <? seq) &&
  match units o !! unit with Some e => seq <=? sequence (latest e) | None => false end.

(** [true] where the sanitizer does not panic. *)
Definition check_invariants (o : Overlay) : bool :=
  forallb (λ '(_, e), check_unit (durable_boundary o) e) (entries (units o)) &&
  (obytes o =? msum weight (units o)) &&
  (latest_bytes o =? msum latest_weight (units o)) &&
  forallb (λ '(seq, unit), check_pending o seq unit) (entries (pending_promotion o)).

(** ** The invariant *)

Definition unit_ok (boundary : Z) (e : UnitOverlay) : Prop :=
  0 < sequence (latest e) ∧
  (∀ d, durable e = Some d → sequence d ≤ sequence (latest e) ∧ sequence d ≤ boundary ∧
    (sequence d = sequence (latest e) → d = latest e)).

(** A version is promoted or queued for it. *)
Definition accounted (o : Overlay) (u : Z) (e : UnitOverlay) : Prop :=
  durable e = Some (latest e) ∨ pending_promotion o !! sequence (latest e) = Some u.

(** What holds also between the rounds of a promotion. *)
Record mid (o : Overlay) : Prop := {
  mid_unit u e : units o !! u = Some e → unit_ok (durable_boundary o) e;
  mid_accounted u e : units o !! u = Some e → accounted o u e;
  mid_bytes : obytes o = msum weight (units o);
  mid_latest : latest_bytes o = msum latest_weight (units o);
  mid_pending s u : pending_promotion o !! s = Some u →
    ∃ e, units o !! u = Some e ∧ s ≤ sequence (latest e);
  mid_boundary : 0 ≤ durable_boundary o
}.

Definition settled_queue (o : Overlay) : Prop :=
  ∀ s u, pending_promotion o !! s = Some u → durable_boundary o < s.

Definition wf (o : Overlay) : Prop := mid o ∧ settled_queue o.

Lemma clen_nonneg v : 0 ≤ clen v.
Proof. apply blen_nonneg. Qed.

Lemma weight_nonneg e : 0 ≤ weight e.
Proof.
  unfold weight. pose proof (clen_nonneg (latest e)). destruct (durable e) as [d|]; [|lia].
  pose proof (clen_nonneg d). lia.
Qed.

Lemma latest_weight_nonneg e : 0 ≤ latest_weight e.
Proof. apply clen_nonneg. Qed.

Lemma latest_weight_le e : latest_weight e ≤ weight e.
Proof.
  unfold weight, latest_weight. destruct (durable e) as [d|]; [|lia]. pose proof (clen_nonneg d). lia.
Qed.

(** Below the boundary everything is promoted. *)
Lemma wf_promoted o u e :
  wf o → units o !! u = Some e → sequence (latest e) ≤ durable_boundary o → durable e = Some (latest e).
Proof.
  intros [Hm Hq] He Hle. destruct (mid_accounted _ Hm _ _ He) as [|Hp]; [done|].
  specialize (Hq _ _ Hp). lia.
Qed.

(** The invariant is at least as strong as the sanitizer. *)
Lemma wf_check o : wf o → check_invariants o = true.
Proof.
  intros Hw. pose proof Hw as [Hm Hq]. unfold check_invariants.
  rewrite !andb_true_iff, !forallb_forall, !Z.eqb_eq.
  split; [split; [split; [|apply Hm]|apply Hm]|].
  - intros [u e] He%list_elem_of_In%elem_of_entries. destruct (mid_unit _ Hm _ _ He) as [H0 Hd].
    unfold check_unit. rewrite (proj2 (Z.eqb_neq _ _)) by lia. cbn [negb andb].
    pose proof (wf_promoted _ _ _ Hw He) as Hpr. apply andb_true_iff. split.
    + destruct (durable e) as [d|]; [|done]. destruct (Hd d eq_refl) as (H1 & H2 & H3).
      rewrite !(proj2 (Z.leb_le _ _)) by lia. cbn [andb].
      destruct (Z.eqb_spec (sequence d) (sequence (latest e))) as [Heq|]; [|done].
      rewrite (H3 Heq). apply bytes_eqb_refl.
    + destruct (Z.leb_spec (sequence (latest e)) (durable_boundary o)) as [Hle|]; [|done].
      rewrite (Hpr Hle). apply Z.eqb_refl.
  - intros [s u] Hs%list_elem_of_In%elem_of_entries. unfold check_pending.
    rewrite (proj2 (Z.ltb_lt _ _)) by (by eapply Hq). destruct (mid_pending _ Hm _ _ Hs) as (e & -> & Hle).
    by apply Z.leb_le.
Qed.

(** *** Publication *)

(** Sequences are handed out in order, above everything durable. *)
Definition fresh (o : Overlay) (s : Z) : Prop :=
  durable_boundary o < s ∧ ∀ u e, units o !! u = Some e → sequence (latest e) < s.

Lemma mid_sums_nonneg o : mid o → 0 ≤ latest_bytes o ≤ obytes o.
Proof.
  intros Hm. rewrite (mid_bytes _ Hm), (mid_latest _ Hm). split.
  - apply msum_nonneg, latest_weight_nonneg.
  - apply msum_mono, latest_weight_le.
Qed.

Lemma publish_wf o u s ct :
  wf o → fresh o s → obytes o + blen ct ≤ U64_MAX → wf (publish u s ct o).
Proof.
  intros [Hm Hq] [Hb Hf] Hfit. pose proof (mid_sums_nonneg _ Hm) as Hnn.
  pose proof (mid_boundary _ Hm) as Hb0. pose proof (blen_nonneg ct).
  unfold publish. rewrite !add64_small by lia.
  set (entry := default default_unit (units o !! u)).
  set (e' := mkUnit (mkVersion s ct) (durable entry)).
  assert (∃ b lb, (if negb (sequence (latest entry) =? 0)
      then (saturating_sub (obytes o + blen ct) (clen (latest entry)),
            saturating_sub (latest_bytes o + blen ct) (clen (latest entry)))
      else (obytes o + blen ct, latest_bytes o + blen ct)) = (b, lb) ∧
    b = msum weight (<[u:=e']> (units o)) ∧ lb = msum latest_weight (<[u:=e']> (units o)))
    as (b & lb & -> & Hbb & Hlb).
  { unfold e', entry. destruct (units o !! u) as [e|] eqn:He; simpl.
    - destruct (mid_unit _ Hm _ _ He) as [H0 _]. rewrite (proj2 (Z.eqb_neq _ _)) by lia. simpl.
      do 2 eexists. split; [done|]. rewrite !(msum_replace _ _ _ e) by done.
      rewrite <- (mid_bytes _ Hm), <- (mid_latest _ Hm).
      pose proof (msum_le latest_weight _ _ _ latest_weight_nonneg He) as Hle.
      rewrite <- (mid_latest _ Hm) in Hle. unfold latest_weight in Hle.
      rewrite !saturating_sub_exact by lia. unfold weight, latest_weight, clen. simpl. lia.
    - do 2 eexists. split; [done|]. rewrite !msum_insert by done.
      rewrite <- (mid_bytes _ Hm), <- (mid_latest _ Hm). unfold weight, latest_weight, clen. simpl. lia. }
  assert (∀ d, durable entry = Some d → sequence d ≤ durable_boundary o) as Hd.
  { unfold entry. destruct (units o !! u) as [e|] eqn:He; simpl; [|done].
    intros d Hd. by destruct (mid_unit _ Hm _ _ He) as [_ Hu]; destruct (Hu d Hd) as (_ & ? & _). }
  split; [split|]; cbn.
  - intros u' e0. rewrite lookup_insert_Some. intros [[<- <-]|[_ He]]; [|by eapply Hm].
    split; cbn; [lia|]. intros d Hdd. specialize (Hd d Hdd). split; [lia|]. split; [done|]. lia.
  - intros u' e0. rewrite lookup_insert_Some. intros [[<- <-]|[Hne He]].
    + right. cbn. apply lookup_insert_eq.
    + destruct (mid_accounted _ Hm _ _ He) as [|Hp]; [by left|right]. cbn.
      rewrite lookup_insert_ne; [done|]. specialize (Hf _ _ He). lia.
  - done.
  - done.
  - intros s' u' [[<- <-]|[Hne Hp]]%lookup_insert_Some.
    + exists e'. split; [apply lookup_insert_eq|]. cbn. lia.
    + destruct (mid_pending _ Hm _ _ Hp) as (e0 & He0 & Hle).
      destruct (decide (u' = u)) as [->|Hu'].
      * exists e'. split; [apply lookup_insert_eq|]. cbn. specialize (Hf _ _ He0). lia.
      * exists e0. by rewrite lookup_insert_ne.
  - done.
  - unfold settled_queue. cbn. intros s' u' [[<- <-]|[Hne Hp]]%lookup_insert_Some; [done|]. by eapply Hq.
Qed.

(** *** Promotion *)

(** The bytes promotions may still add. *)
Definition unpromoted (e : UnitOverlay) : Z :=
  if decide (durable e = Some (latest e)) then 0 else clen (latest e).

Definition projected (o : Overlay) : Z := obytes o + msum unpromoted (units o).

Lemma unpromoted_nonneg e : 0 ≤ unpromoted e.
Proof. unfold unpromoted. pose proof (clen_nonneg (latest e)). case_decide; lia. Qed.

Lemma projected_le o : mid o → projected o ≤ obytes o + latest_bytes o.
Proof.
  intros Hm. unfold projected. rewrite (mid_latest _ Hm).
  assert (msum unpromoted (units o) ≤ msum latest_weight (units o)); [|lia].
  apply msum_mono. intros e. unfold unpromoted, latest_weight. pose proof (clen_nonneg (latest e)).
  case_decide; lia.
Qed.

(** A round leaves the units' latest versions alone. *)
Definition same_latest (o o' : Overlay) : Prop :=
  ∀ u, latest <$> units o' !! u = latest <$> units o !! u.

Lemma accounted_delete o u e s u0 us b lb db :
  pending_promotion o !! s = Some u0 → accounted o u e →
  (u = u0 → sequence (latest e) = s → durable e = Some (latest e)) →
  accounted (mkOverlay us (delete s (pending_promotion o)) b lb db) u e.
Proof.
  intros Hs [|Hp] Hu; [by left|]. destruct (decide (sequence (latest e) = s)) as [Heq|Hne].
  - left. apply Hu; [|done]. rewrite Heq, Hs in Hp. by injection Hp.
  - right. cbn. by rewrite lookup_delete_ne.
Qed.

Lemma promote_one_mid o s u :
  mid o → pending_promotion o !! s = Some u → s ≤ durable_boundary o → projected o ≤ U64_MAX →
  mid (promote_one s u o) ∧ projected (promote_one s u o) ≤ projected o ∧
  durable_boundary (promote_one s u o) = durable_boundary o ∧
  pending_promotion (promote_one s u o) = delete s (pending_promotion o) ∧
  latest_bytes (promote_one s u o) = latest_bytes o ∧
  same_latest o (promote_one s u o).
Proof.
  intros Hm Hs Hle Hfit. destruct (mid_pending _ Hm _ _ Hs) as (e & He & Hse).
  pose proof (mid_sums_nonneg _ Hm) as Hnn. destruct (mid_unit _ Hm _ _ He) as [H0 Hd].
  unfold promote_one. rewrite He.
  destruct ((sequence (latest e) =? s) && _) eqn:Hc; cycle 1.
  { split; [|by repeat split; try done]. split; cbn; try apply Hm.
    - intros u' e0 He0. eapply accounted_delete; [done|by eapply Hm|]. intros -> Heq.
      rewrite He in He0. injection He0 as <-. apply andb_false_iff in Hc as [Hc%Z.eqb_neq|Hc]; [done|].
      destruct (durable e) as [d|]; [|done]. apply Z.ltb_ge in Hc.
      destruct (Hd d eq_refl) as (H1 & _ & H3). f_equal. apply H3. lia.
    - intros s' u' [_ Hp]%lookup_delete_Some. by eapply Hm. }
  apply andb_true_iff in Hc as [Heq%Z.eqb_eq Hold].
  set (e' := mkUnit (latest e) (Some (latest e))).
  assert (durable e ≠ Some (latest e)) as Hne.
  { intros Hx. rewrite Hx in Hold. apply Z.ltb_lt in Hold. lia. }
  set (b := match durable e with Some old => saturating_sub (obytes o) (clen old) | None => obytes o end).
  assert (b = obytes o - (weight e - clen (latest e)) ∧ 0 ≤ b) as [Hb Hb0].
  { unfold b. pose proof (msum_le weight _ _ _ weight_nonneg He) as Hw. rewrite <- (mid_bytes _ Hm) in Hw.
    unfold weight in *. pose proof (clen_nonneg (latest e)).
    destruct (durable e) as [old|]; [rewrite saturating_sub_exact by lia|]; lia. }
  pose proof (clen_nonneg (latest e)) as Hcl.
  assert (weight e' = 2 * clen (latest e)) as Hwe' by (unfold weight, e'; cbn; lia).
  assert (clen (latest e) ≤ weight e) as Hwe by apply latest_weight_le.
  assert (msum unpromoted (units o) = clen (latest e) + msum unpromoted (<[u:=e']> (units o))) as Hup.
  { rewrite (msum_replace _ _ _ e) by done. unfold unpromoted at 3 4. cbn.
    rewrite decide_False by done. rewrite decide_True by done. lia. }
  pose proof (msum_nonneg unpromoted (<[u:=e']> (units o)) unpromoted_nonneg) as Hun.
  unfold projected in Hfit. rewrite (add64_small b) by lia.
  split; [|split; [unfold projected; cbn; lia|]].
  - split; cbn.
    + intros u' e0. rewrite lookup_insert_Some. intros [[<- <-]|[_ He0]]; [|by eapply Hm].
      split; cbn; [done|]. intros d [= <-]. split; [lia|]. split; [lia|done].
    + intros u' e0. rewrite lookup_insert_Some. intros [[<- <-]|[Hne' He0]]; [by left|].
      eapply accounted_delete; [done|by eapply Hm|]. by intros ->.
    + rewrite (msum_replace _ _ _ e), <- (mid_bytes _ Hm) by done. lia.
    + rewrite (msum_replace _ _ _ e), <- (mid_latest _ Hm) by done. unfold latest_weight. cbn. lia.
    + intros s' u' [_ Hp]%lookup_delete_Some. destruct (mid_pending _ Hm _ _ Hp) as (e0 & He0 & Hle0).
      destruct (decide (u' = u)) as [->|Hu'].
      * exists e'. split; [apply lookup_insert_eq|]. cbn. congruence.
      * exists e0. by rewrite lookup_insert_ne.
    + apply Hm.
  - split; [done|]. split; [done|]. split; [done|]. intros u'. cbn.
    destruct (decide (u' = u)) as [->|Hu']; [by rewrite lookup_insert_eq, He|by rewrite lookup_insert_ne].
Qed.

Lemma promote_loop_mid fuel d o :
  (size (pending_promotion o) < fuel)%nat → mid o → d ≤ durable_boundary o → projected o ≤ U64_MAX →
  let o' := promote_loop fuel d o in
  mid o' ∧ durable_boundary o' = durable_boundary o ∧ same_latest o o' ∧
  (∀ s u, pending_promotion o' !! s = Some u ↔ pending_promotion o !! s = Some u ∧ d < s).
Proof.
  cbv zeta. revert o. induction fuel as [|fuel IH]; intros o Hfuel Hm Hd Hfit; [lia|]. simpl.
  destruct (first_key_value (pending_promotion o)) as [[s u]|] eqn:Hfirst; cycle 1.
  { apply first_key_value_none in Hfirst. split; [done|]. split; [done|]. split; [done|].
    intros s u. rewrite Hfirst, lookup_empty. naive_solver. }
  destruct (first_key_value_some _ _ _ Hfirst) as [Hs Hmin].
  destruct (Z.ltb_spec d s) as [Hlt|Hge].
  { split; [done|]. split; [done|]. split; [done|]. intros s' u'. split; [|naive_solver].
    intros Hp. split; [done|]. specialize (Hmin s' ltac:(done)). lia. }
  destruct (promote_one_mid o s u Hm Hs ltac:(lia) Hfit) as (Hm1 & Hp1 & Hb1 & Hq1 & _ & Hl1).
  destruct (IH (promote_one s u o)) as (Hm' & Hb' & Hl' & Hq').
  { rewrite Hq1. rewrite map_size_delete, Hs. simpl.
    assert (size (pending_promotion o) ≠ 0%nat); [|lia].
    intros H0%map_size_empty_inv. by rewrite H0, lookup_empty in Hs. }
  { done. }
  { lia. }
  { lia. }
  split; [done|]. split; [congruence|]. split; [intros u'; by rewrite Hl', Hl1|].
  intros s' u'. rewrite Hq', Hq1, lookup_delete_Some. split; [naive_solver|].
  intros [Hp Hlt]. split; [|done]. split; [lia|done].
Qed.

(** A promotion settles the queue; it terminates because the queue shrinks. *)
Lemma promote_wf o d :
  wf o → obytes o + latest_bytes o ≤ U64_MAX →
  wf (promote d o) ∧ durable_boundary (promote d o) = Z.max (durable_boundary o) d ∧
  same_latest o (promote d o).
Proof.
  intros [Hm Hq] Hfit. unfold promote.
  set (o0 := mkOverlay _ _ _ _ (Z.max _ _)).
  assert (mid o0) as Hm0.
  { split; cbn; try apply Hm.
    - intros u e He. destruct (mid_unit _ Hm _ _ He) as [? Hd]. split; [done|].
      intros d' Hd'. destruct (Hd d' Hd') as (? & ? & ?). repeat split; [done|lia|done].
    - pose proof (mid_boundary _ Hm). lia. }
  destruct (promote_loop_mid (S (size (pending_promotion o))) d o0) as (Hm' & Hb' & Hl' & Hq').
  { cbn. lia. }
  { done. }
  { cbn. lia. }
  { pose proof (projected_le _ Hm0). cbn in *. lia. }
  split; [split; [done|]|by split].
  intros s u Hs. rewrite Hb'. apply Hq' in Hs as [Hs Hlt]. cbn. specialize (Hq _ _ Hs). lia.
Qed.

(** *** Retirement *)

(** What one unit becomes. *)
Definition trimmed (c : Z) (e : UnitOverlay) : UnitOverlay :=
  mkUnit (latest e)
    match durable e with Some d => if sequence d <=? c then None else Some d | None => None end.

Definition retired (c : Z) (e : UnitOverlay) : option UnitOverlay :=
  if sequence (latest e) <=? c then None else Some (trimmed c e).

Definition kept_weight (f : UnitOverlay → Z) (c : Z) (e : UnitOverlay) : Z :=
  match retired c e with Some e' => f e' | None => 0 end.

Definition total (f : UnitOverlay → Z) (l : list (Z * UnitOverlay)) : Z :=
  foldr (λ ue acc, f ue.2 + acc) 0 l.

Lemma total_nonneg f l : (∀ e, 0 ≤ f e) → 0 ≤ total f l.
Proof. intros Hf. induction l as [|[u e] l IH]; simpl; [lia|]. specialize (Hf e). lia. Qed.

Definition trim_all (c : Z) (l : list (Z * UnitOverlay)) (us : gmap Z UnitOverlay) : gmap Z UnitOverlay :=
  foldl (λ us ue, <[ue.1 := trimmed c ue.2]> us) us l.

Definition covered (c : Z) (l : list (Z * UnitOverlay)) : list Z :=
  fst <$> filter (λ ue, sequence (latest ue.2) ≤ c) l.

#[local] Arguments retire_one : simpl never.

(** The loop, with what its counters hold for the entries still to come. *)
Lemma retire_loop c l o remove b lb :
  0 ≤ b → 0 ≤ lb → (∀ u e d, (u, e) ∈ l → durable e = Some d → sequence d ≤ sequence (latest e)) →
  obytes o = b + total weight l → latest_bytes o = lb + total latest_weight l →
  foldl (retire_one c) (o, remove) l =
  (mkOverlay (trim_all c l (units o)) (pending_promotion o) (b + total (kept_weight weight c) l)
     (lb + total (kept_weight latest_weight c) l) (durable_boundary o),
   remove ++ covered c l).
Proof.
  revert o remove b lb. induction l as [|[u e] l IH]; intros o remove b lb Hb Hlb Hord Ho Hl.
  { simpl in *. rewrite !Z.add_0_r in *. rewrite <- Ho, <- Hl. unfold covered, trim_all. simpl.
    rewrite app_nil_r. by destruct o. }
  cbn [foldl]. unfold total in Ho, Hl |- *. cbn [foldr snd] in *. fold (total weight l) in Ho.
  fold (total latest_weight l) in Hl. fold (total (kept_weight weight c) l).
  fold (total (kept_weight latest_weight c) l).
  pose proof (total_nonneg weight l weight_nonneg). pose proof (total_nonneg latest_weight l latest_weight_nonneg).
  pose proof (clen_nonneg (latest e)) as Hc0.
  set (b1 := match durable e with
             | Some d => if sequence d <=? c then saturating_sub (obytes o) (clen d) else obytes o
             | None => obytes o end).
  assert (b1 = b + total weight l + weight (trimmed c e)) as Hb1.
  { unfold b1, trimmed, weight in *. simpl. destruct (durable e) as [d|]; [|lia].
    pose proof (clen_nonneg d). destruct (sequence d <=? c); [rewrite saturating_sub_exact by lia|]; lia. }
  assert (retire_one c (o, remove) (u, e) =
    if sequence (latest e) <=? c
    then (mkOverlay (<[u:=trimmed c e]> (units o)) (pending_promotion o)
            (saturating_sub b1 (clen (latest e))) (saturating_sub (latest_bytes o) (clen (latest e)))
            (durable_boundary o), remove ++ [u])
    else (mkOverlay (<[u:=trimmed c e]> (units o)) (pending_promotion o) b1 (latest_bytes o)
            (durable_boundary o), remove)) as ->.
  { unfold retire_one, b1, trimmed. destruct e as [lt [d|]]; simpl; [|done].
    by destruct (sequence d <=? c). }
  assert (∀ u e d, (u, e) ∈ l → durable e = Some d → sequence d ≤ sequence (latest e)) as Hord'.
  { intros u' e' d' He'. apply (Hord u'). set_solver. }
  unfold latest_weight at 1 in Hl.
  unfold kept_weight at 1 3, retired, covered. rewrite filter_cons.
  destruct (Z.leb_spec (sequence (latest e)) c) as [Hle|Hgt].
  - assert (weight (trimmed c e) = clen (latest e)) as Hwt.
    { unfold weight, trimmed. simpl. destruct (durable e) as [d|] eqn:Hd; [|lia].
      specialize (Hord u e d ltac:(set_solver) Hd).
      rewrite (proj2 (Z.leb_le _ _)) by lia. lia. }
    rewrite (IH _ _ b lb) by (done || (cbn; rewrite saturating_sub_exact; lia)).
    rewrite decide_True by done. cbn. rewrite <- app_assoc. done.
  - rewrite (IH _ _ (b + weight (trimmed c e)) (lb + latest_weight (trimmed c e)));
      [|pose proof (weight_nonneg (trimmed c e)); lia|pose proof (latest_weight_nonneg (trimmed c e)); lia
       |done|cbn; lia|unfold latest_weight; cbn; unfold latest_weight in *; lia].
    rewrite decide_False by (cbn; lia). cbn. by rewrite !Z.add_assoc.
Qed.

Lemma trim_all_lookup c l us u :
  NoDup l.*1 →
  trim_all c l us !! u =
  match list_find (λ ue, ue.1 = u) l with Some (_, ue) => Some (trimmed c ue.2) | None => us !! u end.
Proof.
  revert us. induction l as [|[v e] l IH]; intros us Hnd; [done|].
  apply list.NoDup_cons in Hnd as [Hv Hnd]. unfold trim_all. simpl. fold (trim_all c l (<[v:=trimmed c e]> us)).
  rewrite IH by done. destruct (decide (v = u)) as [->|Hne].
  - destruct (list_find (λ ue, ue.1 = u) l) as [[i ue]|] eqn:Hf.
    + apply list_find_Some in Hf as (Hl & Hu & _). exfalso. apply Hv. apply list_elem_of_fmap.
      exists ue. split; [done|]. by eapply list_elem_of_lookup_2.
    + by rewrite lookup_insert_eq.
  - destruct (list_find (λ ue, ue.1 = u) l) as [[i ue]|]; [done|]. by rewrite lookup_insert_ne.
Qed.

Lemma trim_entries c us u : trim_all c (entries us) us !! u = trimmed c <$> us !! u.
Proof.
  rewrite trim_all_lookup by (rewrite entries_keys; apply NoDup_sorted_keys).
  destruct (list_find _ _) as [[i [v e]]|] eqn:Hf.
  - apply list_find_Some in Hf as (Hl & Hv & _). simpl in Hv. subst v.
    apply list_elem_of_lookup_2, elem_of_entries in Hl. by rewrite Hl.
  - apply list_find_None in Hf. destruct (us !! u) as [e|] eqn:He; [|done].
    apply elem_of_entries in He. rewrite list.Forall_forall in Hf. by destruct (Hf _ He).
Qed.

Lemma delete_all_lookup {A} (l : list Z) (us : gmap Z A) u :
  foldl (λ us u, delete u us) us l !! u = if decide (u ∈ l) then None else us !! u.
Proof.
  revert us. induction l as [|v l IH]; intros us; simpl; [done|]. rewrite IH.
  destruct (decide (u = v)) as [->|Hne].
  - rewrite lookup_delete_eq. rewrite (decide_True _ _ (P := v ∈ v :: l)) by set_solver.
    by case_decide.
  - rewrite lookup_delete_ne by done. destruct (decide (u ∈ l)), (decide (u ∈ v :: l)); set_solver.
Qed.

Lemma elem_of_covered c us u :
  u ∈ covered c (entries us) ↔ ∃ e, us !! u = Some e ∧ sequence (latest e) ≤ c.
Proof.
  unfold covered. rewrite list_elem_of_fmap. split.
  - intros ([v e] & -> & [Hle He]%list_elem_of_filter). exists e. by rewrite <- elem_of_entries.
  - intros (e & He & Hle). exists (u, e). split; [done|]. apply list_elem_of_filter.
    by rewrite elem_of_entries.
Qed.

Lemma total_entries f us : total f (entries us) = msum f us.
Proof. symmetry. apply msum_entries. Qed.

(** Retirement as a function of the map. *)
Lemma retire_eq c o :
  mid o →
  retire c o = mkOverlay (omap (retired c) (units o))
    (filter (λ su, c < su.1) (pending_promotion o))
    (msum weight (omap (retired c) (units o))) (msum latest_weight (omap (retired c) (units o)))
    (durable_boundary o).
Proof.
  intros Hm. unfold retire.
  rewrite (retire_loop c _ o [] 0 0); [|done|done| |by rewrite total_entries; apply Hm
    |by rewrite total_entries; apply Hm]; cycle 1.
  { intros u e d He%elem_of_entries Hd. destruct (mid_unit _ Hm _ _ He) as [_ Hu].
    by destruct (Hu d Hd). }
  cbn. rewrite !total_entries, !msum_omap, !Z.add_0_l. f_equal; [|done..].
  apply map_eq. intros u. rewrite delete_all_lookup, trim_entries, lookup_omap.
  unfold retired. destruct (units o !! u) as [e|] eqn:He; simpl.
  - destruct (Z.leb_spec (sequence (latest e)) c) as [Hle|Hgt].
    + rewrite decide_True; [done|]. apply elem_of_covered. eauto.
    + rewrite decide_False; [done|]. rewrite elem_of_covered. intros (e' & He' & Hle').
      rewrite He in He'. injection He' as <-. lia.
  - by case_decide.
Qed.

Lemma retire_wf c o : wf o → c ≤ durable_boundary o → wf (retire c o).
Proof.
  intros Hw Hc. pose proof Hw as [Hm Hq]. rewrite retire_eq by done.
  assert (∀ u e', omap (retired c) (units o) !! u = Some e' → ∃ e, units o !! u = Some e ∧
    c < sequence (latest e) ∧ e' = trimmed c e) as Hom.
  { intros u e'. rewrite lookup_omap, bind_Some. intros (e & He & Hr). exists e. split; [done|].
    unfold retired in Hr. destruct (Z.leb_spec (sequence (latest e)) c); [done|]. by injection Hr as <-. }
  assert (∀ e d, durable (trimmed c e) = Some d → durable e = Some d) as Htr.
  { intros e d. unfold trimmed. simpl. destruct (durable e) as [d'|]; [|done]. by case_match. }
  split; [split|]; cbn.
  - intros u e' (e & He & Hlt & ->)%Hom. destruct (mid_unit _ Hm _ _ He) as [H0 Hd].
    split; [done|]. intros d Hdd. apply Hd. by apply Htr.
  - intros u e' (e & He & Hlt & ->)%Hom. destruct (mid_accounted _ Hm _ _ He) as [Hd|Hp].
    + left. unfold trimmed. simpl. rewrite Hd. by rewrite (proj2 (Z.leb_gt _ _)).
    + right. cbn. apply map_lookup_filter_Some. split; [done|]. cbn. lia.
  - done.
  - done.
  - intros s u [Hp Hs]%map_lookup_filter_Some. cbn in Hs. destruct (mid_pending _ Hm _ _ Hp) as (e & He & Hle).
    exists (trimmed c e). split; [|done]. rewrite lookup_omap, He. simpl. unfold retired.
    by rewrite (proj2 (Z.leb_gt _ _)) by lia.
  - apply Hm.
  - intros s u. cbn. intros [Hp _]%map_lookup_filter_Some. by eapply Hq.
Qed.

(** ** Reachable overlays *)

(** The calls the volume makes: sequences in order, promotions while the
    projected charge fits, retirement of what is durable. *)
Inductive ov_step : Overlay → Overlay → Prop :=
| ov_publish o u s ct :
    fresh o s → obytes o + blen ct ≤ U64_MAX → ov_step o (publish u s ct o)
| ov_promote o d : obytes o + latest_bytes o ≤ U64_MAX → ov_step o (promote d o)
| ov_retire o c : c ≤ durable_boundary o → ov_step o (retire c o).

Lemma new_wf : wf new.
Proof. split; [split|]; cbn; done. Qed.

Lemma ov_step_wf o o' : wf o → ov_step o o' → wf o'.
Proof.
  intros Hw Hs. destruct Hs as [o u s ct Hf Hfit|o d Hfit|o c Hc].
  - by apply publish_wf.
  - by apply (promote_wf o d Hw Hfit).
  - by apply retire_wf.
Qed.

(** ** The abstract log *)

(** What was published, newest first; the acknowledged boundary; the last
    checkpoint. *)
Record Log := mkLog {
  published : list (Z * OverlayVersion);
  acked : Z;
  checkpointed : Z
}.

Definition within (upto : option Z) (v : OverlayVersion) : Prop :=
  match upto with Some b => sequence v ≤ b | None => True end.

#[global] Instance within_dec upto v : Decision (within upto v).
Proof. unfold within. destruct upto; apply _. Defined.

(** The newest version of a unit among those up to a sequence. *)
Definition version_of (l : list (Z * OverlayVersion)) (upto : option Z) (u : Z) : option OverlayVersion :=
  snd <$> head (filter (λ uv, uv.1 = u ∧ within upto uv.2) l).

(** A version the checkpoint does not cover yet. *)
Definition live (checkpoint : Z) (v : option OverlayVersion) : option OverlayVersion :=
  v' ← v; if sequence v' <=? checkpoint then None else Some v'.

(** The protocol of the volume: publications in order, promotions that
    either move nothing or cover everything published, checkpoints at or
    below the acknowledged boundary. *)
Inductive run : Overlay → Log → Prop :=
| run_new : run new (mkLog [] 0 0)
| run_publish o l u s ct :
    run o l → fresh o s → obytes o + blen ct ≤ U64_MAX →
    run (publish u s ct o)
        (mkLog ((u, mkVersion s ct) :: published l) (acked l) (checkpointed l))
| run_promote o l d :
    run o l → obytes o + latest_bytes o ≤ U64_MAX →
    d ≤ acked l ∨ (∀ u v, (u, v) ∈ published l → sequence v ≤ d) →
    run (promote d o) (mkLog (published l) (Z.max (acked l) d) (checkpointed l))
| run_retire o l c :
    run o l → c ≤ acked l →
    run (retire c o) (mkLog (published l) (acked l) (Z.max (checkpointed l) c)).

Lemma version_of_cons l upto u v w :
  version_of ((v, w) :: l) upto u =
  if decide (v = u ∧ within upto w)
  then Some w else version_of l upto u.
Proof. unfold version_of. rewrite filter_cons. simpl. by case_decide. Qed.

Lemma version_of_elem l upto u v : version_of l upto u = Some v → (u, v) ∈ l.
Proof.
  unfold version_of. intros ([u' v'] & Hh & ->)%fmap_Some.
  apply head_Some_elem_of, list_elem_of_filter in Hh as [[<- _] ?]. done.
Qed.

(** When everything is below the boundary it does not select. *)
Lemma version_of_all l b u :
  (∀ u v, (u, v) ∈ l → sequence v ≤ b) → version_of l (Some b) u = version_of l None u.
Proof.
  induction l as [|[v w] l IH]; intros Hall; [done|]. rewrite !version_of_cons.
  rewrite IH by (intros u0 v0 ?; apply (Hall u0); set_solver).
  pose proof (Hall v w ltac:(set_solver)). destruct (decide (v = u)) as [->|Hne].
  - by rewrite !decide_True.
  - by rewrite !decide_False by naive_solver.
Qed.

Lemma live_live c c' v : live c (live c' v) = live (Z.max c' c) v.
Proof.
  destruct v as [v|]; [|done]. unfold live. simpl.
  destruct (Z.leb_spec (sequence v) c'); simpl; repeat zcase; try done; lia.
Qed.

(** The refinement relation. *)
Record refines (o : Overlay) (l : Log) : Prop := {
  ref_wf : wf o;
  ref_boundary : durable_boundary o = acked l;
  ref_checkpoint : checkpointed l ≤ acked l;
  ref_latest u : get o u = live (checkpointed l) (version_of (published l) None u);
  ref_durable u : (e ← units o !! u; durable e) =
    live (checkpointed l) (version_of (published l) (Some (acked l)) u)
}.

Lemma publish_get o u s ct u' :
  get (publish u s ct o) u' = if decide (u' = u) then Some (mkVersion s ct) else get o u'.
Proof.
  unfold get, publish. repeat case_match; cbn; (destruct (decide (u' = u)) as [->|Hne];
    [by rewrite lookup_insert_eq|by rewrite lookup_insert_ne]).
Qed.

Lemma publish_durable o u s ct u' :
  (e ← units (publish u s ct o) !! u'; durable e) = (e ← units o !! u'; durable e).
Proof.
  unfold publish. repeat case_match; cbn; (destruct (decide (u' = u)) as [->|Hne];
    [rewrite lookup_insert_eq; cbn; by destruct (units o !! u)|by rewrite lookup_insert_ne]).
Qed.

Lemma publish_boundary o u s ct : durable_boundary (publish u s ct o) = durable_boundary o.
Proof. unfold publish. by repeat case_match. Qed.

Lemma publish_refines o l u s ct :
  refines o l → fresh o s → obytes o + blen ct ≤ U64_MAX →
  refines (publish u s ct o) (mkLog ((u, mkVersion s ct) :: published l) (acked l) (checkpointed l)).
Proof.
  intros [Hw Hb Hc Hl Hd] Hf Hfit. pose proof Hf as [Hfb _]. split; cbn.
  - by apply publish_wf.
  - by rewrite publish_boundary.
  - done.
  - intros u'. rewrite publish_get, version_of_cons, Hl. destruct (decide (u' = u)) as [->|Hne].
    + rewrite decide_True by done. unfold live. cbn. by rewrite (proj2 (Z.leb_gt _ _)) by lia.
    + by rewrite decide_False by naive_solver.
  - intros u'. rewrite publish_durable, version_of_cons, Hd. rewrite decide_False; [done|].
    cbn. intros [_ ?]. lia.
Qed.

(** A promotion below the boundary changes nothing. *)
Lemma promote_noop o d : wf o → d ≤ durable_boundary o → promote d o = o.
Proof.
  intros [Hm Hq] Hd. unfold promote. rewrite Z.max_l by lia. simpl.
  destruct (first_key_value (pending_promotion o)) as [[s u]|] eqn:Hf; [|by destruct o].
  destruct (first_key_value_some _ _ _ Hf) as [Hs _]. specialize (Hq _ _ Hs).
  rewrite (proj2 (Z.ltb_lt _ _)) by lia. by destruct o.
Qed.

Lemma promote_refines o l d :
  refines o l → obytes o + latest_bytes o ≤ U64_MAX →
  d ≤ acked l ∨ (∀ u v, (u, v) ∈ published l → sequence v ≤ d) →
  refines (promote d o) (mkLog (published l) (Z.max (acked l) d) (checkpointed l)).
Proof.
  intros [Hw Hb Hc Hl Hd] Hfit [Hle|Hall].
  { rewrite promote_noop, Z.max_l by (done || lia). by split. }
  destruct (promote_wf o d Hw Hfit) as (Hw' & Hb' & Hsl).
  assert (∀ u v, (u, v) ∈ published l → sequence v ≤ Z.max (acked l) d) as Hall'.
  { intros u v Hv. specialize (Hall u v Hv). lia. }
  assert (∀ u, get (promote d o) u = live (checkpointed l) (version_of (published l) None u)) as Hget.
  { intros u. unfold get. by rewrite Hsl, <- Hl. }
  split; cbn [published acked checkpointed]; [done|by rewrite Hb', Hb|lia|done|].
  intros u. rewrite version_of_all by done. rewrite <- Hget. unfold get.
  destruct (units (promote d o) !! u) as [e|] eqn:He; [|done]. cbn.
  apply (wf_promoted _ _ _ Hw' He). rewrite Hb', Hb.
  specialize (Hget u). unfold get in Hget. rewrite He in Hget. cbn in Hget. symmetry in Hget.
  unfold live in Hget. apply bind_Some in Hget as (v & Hv%version_of_elem & Hvv).
  case_match; [done|]. injection Hvv as ->. by eapply Hall'.
Qed.

Lemma retire_refines o l c :
  refines o l → c ≤ acked l →
  refines (retire c o) (mkLog (published l) (acked l) (Z.max (checkpointed l) c)).
Proof.
  intros [Hw Hb Hc Hl Hd] Hle. pose proof (retire_wf c o Hw ltac:(lia)) as Hw'. pose proof (proj1 Hw) as Hm.
  split; cbn; [done| |lia| |].
  - by rewrite retire_eq.
  - intros u. rewrite <- live_live, <- Hl, retire_eq by done. unfold get. cbn. rewrite lookup_omap.
    destruct (units o !! u) as [e|]; [|done]. cbn. unfold retired. by destruct (_ <=? c).
  - intros u. rewrite <- live_live, <- Hd, retire_eq by done. cbn. rewrite lookup_omap.
    destruct (units o !! u) as [e|] eqn:He; [|done]. cbn. unfold retired.
    destruct (mid_unit _ Hm _ _ He) as [_ Hu].
    destruct (Z.leb_spec (sequence (latest e)) c); cbn.
    + destruct (durable e) as [dv|]; [|done]. destruct (Hu dv eq_refl) as [? _]. cbn.
      by rewrite (proj2 (Z.leb_le _ _)) by lia.
    + destruct (durable e) as [dv|]; [|done]. cbn. by destruct (_ <=? c).
Qed.

Lemma run_refines o l : run o l → refines o l.
Proof.
  induction 1 as [|o l u s ct _ IH Hf Hfit|o l d _ IH Hfit Hd|o l c _ IH Hc].
  - split; [apply new_wf|done..].
  - by apply publish_refines.
  - by apply promote_refines.
  - by apply retire_refines.
Qed.

Lemma elem_of_collect d o u v :
  (u, v) ∈ collect_durable d o ↔ (∃ e, units o !! u = Some e ∧ durable e = Some v) ∧ sequence v ≤ d.
Proof.
  unfold collect_durable. rewrite list_elem_of_omap. split.
  - intros ([u' e] & He%elem_of_entries & Hv). destruct (durable e) as [d'|] eqn:Hd; [|done].
    destruct (Z.leb_spec (sequence d') d); [|done]. injection Hv as -> ->. eauto.
  - intros [(e & He & Hd) Hle]. exists (u, e). split; [by apply elem_of_entries|].
    rewrite Hd. by rewrite (proj2 (Z.leb_le _ _)).
Qed.

(** The overlay's sanitizer never fires.  Every overlay reachable from
    the empty one by publications in sequence order, promotions and
    retirements satisfies all of [check_invariants]: exact byte accounting,
    durable versions that never lead their latest version or the boundary,
    everything at or below the boundary promoted, and a promotion queue that
    names live units above the boundary. *)
Theorem overlay_invariant o : rtc ov_step new o → check_invariants o = true.
Proof.
  intros Hs. apply wf_check. assert (wf new) as Hw by apply new_wf. revert Hw.
  induction Hs as [|o1 o2 o3 Hstep _ IH]; [done|]. intros Hw. apply IH. by eapply ov_step_wf.
Qed.

(** C21. The overlay implements its log.  Under the volume's protocol a read
    returns the newest published version of a unit that the last checkpoint
    does not cover, and the versions handed to a checkpoint at the
    acknowledged boundary are, for every unit, exactly the newest
    acknowledged version the last checkpoint does not cover: never a
    volatile one, never a superseded one, none missing. *)
Theorem overlay_refines_log o l :
  run o l →
  (∀ u, get o u = live (checkpointed l) (version_of (published l) None u)) ∧
  (∀ u v, (u, v) ∈ collect_durable (acked l) o ↔
    live (checkpointed l) (version_of (published l) (Some (acked l)) u) = Some v).
Proof.
  intros Hr%run_refines. split; [apply Hr|]. intros u v. rewrite elem_of_collect, <- (ref_durable _ _ Hr).
  split.
  - intros [(e & -> & Hd) _]. done.
  - intros (e & He & Hd)%bind_Some. split; [by exists e|].
    destruct (ref_wf _ _ Hr) as [Hm _]. destruct (mid_unit _ Hm _ _ He) as [_ Hu].
    rewrite <- (ref_boundary _ _ Hr). by destruct (Hu v Hd) as (_ & ? & _).
Qed.

(** A run: unit 4 written, acknowledged, overwritten, checkpointed. *)
Definition sample : Overlay :=
  retire 1 (publish 4 2 [Byte.x02] (promote 1 (publish 4 1 [Byte.x01] new))).

Lemma overlay_invariant_witness :
  check_invariants sample = true ∧ get sample 4 = Some (mkVersion 2 [Byte.x02]).
Proof.
  split; [|by vm_compute]. apply (overlay_invariant sample).
  eapply rtc_l; [apply (ov_publish new 4 1 [Byte.x01])|].
  { split; [done|]. by intros u e. }
  { done. }
  eapply rtc_l; [by apply (ov_promote _ 1)|].
  eapply rtc_l; [apply (ov_publish _ 4 2 [Byte.x02])|].
  { split; [done|]. intros u e He. vm_compute in He. destruct u as [|[?|[?|[?|?|]|]|]|]; try done.
    by injection He as <-. }
  { done. }
  apply rtc_once. by apply ov_retire.
Defined.

Lemma overlay_refines_log_witness :
  let o := publish 4 2 [Byte.x02] (promote 1 (publish 4 1 [Byte.x01] new)) in
  get o 4 = Some (mkVersion 2 [Byte.x02]) ∧ (4, mkVersion 1 [Byte.x01]) ∈ collect_durable 1 o.
Proof.
  assert (run (publish 4 2 [Byte.x02] (promote 1 (publish 4 1 [Byte.x01] new)))
    (mkLog [(4, mkVersion 2 [Byte.x02]); (4, mkVersion 1 [Byte.x01])] 1 0)) as Hr.
  { apply (run_publish _ (mkLog [(4, mkVersion 1 [Byte.x01])] 1 0)).
    - apply (run_promote _ (mkLog [(4, mkVersion 1 [Byte.x01])] 0 0)); [|done|].
      + apply (run_publish _ (mkLog [] 0 0)); [apply run_new| |done].
        split; [done|]. by intros u e.
      + right. intros u v [= -> ->]%list_elem_of_singleton. done.
    - split; [done|]. intros u e He. vm_compute in He. destruct u as [|[?|[?|[?|?|]|]|]|]; try done.
      by injection He as <-.
    - done. }
  destruct (overlay_refines_log _ _ Hr) as [Hg Hc]. split; [by rewrite Hg|]. by apply Hc.
Defined.
End Overlay.
