(* ===== verification/Volume.v ===== *)
(** * Volume: journal, overlay, slot store and checkpoints together
    (crates/maki-core/src/volume.rs)

    Module [Volume] has the volume's state and every operation of it, run on
    the pair of the volume and the backing.  An operation keeps what it
    changed when it fails.  The debug-only calls of the sanitizer are left
    out of the operations; [check_invariants] is the sanitizer itself. *)

From S2P Require Import Prelude BTreeMap Codec Layout Geometry AbRecord Metadata Superblock JournalFormat Backing CrashBacking AbStore FixedCopy DurableProof JournalWriter RecoveryScan Volumes JournalScan SlotStore Recovery Overlay.
Import (hints) Metadata.Catalog Metadata.Allocation Metadata.Checkpoint.

Local Open Scope Z_scope.

Module Volume.
Import Store.

Record VolumeOptions := mkVolumeOptions { journal_segment_size : Z }.

(** [VolumeOptions::default]. *)
Definition default_options : VolumeOptions := mkVolumeOptions (Z.shiftl 256 20).

Section Volume.
Context `{Crc32} `{Backing W F} `{Hasher HT} `{HashOrder}.
Abbreviation SlotStore := (Store.SlotStore (F := F)).
Abbreviation JournalWriter := (Journal.JournalWriter (F := F) (HT := HT)).

(** [ck_ab] is always [checkpoint_store]; the lock carries no data. *)
Record Volume := mkVolume {
  vo_superblock : Superblock;
  vo_journal : JournalWriter;
  vo_store : SlotStore;
  vo_overlay : Overlay.Overlay;
  vo_ck_state : Checkpoint.CheckpointState
}.

Abbreviation vio := (M (Volume * W) CoreError).

(** Field assignments. *)
Definition set_journal (j : JournalWriter) (v : Volume) : Volume :=
  mkVolume (vo_superblock v) j (vo_store v) (vo_overlay v) (vo_ck_state v).
Definition set_store (s : SlotStore) (v : Volume) : Volume :=
  mkVolume (vo_superblock v) (vo_journal v) s (vo_overlay v) (vo_ck_state v).
Definition set_overlay (o : Overlay.Overlay) (v : Volume) : Volume :=
  mkVolume (vo_superblock v) (vo_journal v) (vo_store v) o (vo_ck_state v).
Definition set_ck_state (c : Checkpoint.CheckpointState) (v : Volume) : Volume :=
  mkVolume (vo_superblock v) (vo_journal v) (vo_store v) (vo_overlay v) c.

(** A call on the volume's journal, on its store. *)
Definition on_journal {A} (m : M (JournalWriter * W) CoreError A) : vio A := λ st,
  let '(r, (j, w)) := m (vo_journal st.1, st.2) in (r, (set_journal j st.1, w)).
Definition on_store {A} (m : M (SlotStore * W) CoreError A) : vio A := λ st,
  let '(r, (s, w)) := m (vo_store st.1, st.2) in (r, (set_store s st.1, w)).
Definition v_io {A} (m : M W ErrorKind A) : vio A := on_world (core_io m).

(** ** Attach *)

Definition recover (options : VolumeOptions) : M W RecoveryError Volume :=
  let segment_size := Journal.effective_segment_size (journal_segment_size options) in
  let* rc := recover_bounded (HT := HT) segment_size in
  let journal := Journal.set_holes (Checkpoint.checkpoint_sequence (rc_checkpoint_state rc))
    (Journal.resume (Superblock.volume_uuid (rc_superblock rc)) segment_size (rc_durable_sequence rc)
       (rc_next_segment_index rc) (rc_segments rc) (rc_durable_proof rc)) in
  let overlay := Overlay.promote (rc_durable_sequence rc)
    (foldl (λ o r, Overlay.publish (unit_index r) (sequence r) (payload r) o) Overlay.new (rc_replay rc)) in
  let* '(_, store) := with_store schedule_reclamation (rc_store rc) in
  m_ret (mkVolume (rc_superblock rc) journal store overlay (rc_checkpoint_state rc)).

(** ** Views *)

Definition checkpoint_sequence (v : Volume) : Z := Checkpoint.checkpoint_sequence (vo_ck_state v).
Definition journal_durable_sequence (v : Volume) : Z := Journal.j_durable_sequence (vo_journal v).
Definition journal_appended_sequence (v : Volume) : Z := Journal.j_appended_sequence (vo_journal v).
Definition journal_pending_bytes (v : Volume) : Z := Journal.pending_bytes (vo_journal v).
Definition journal_writeback_uncertain (v : Volume) : bool := Journal.writeback_uncertain (vo_journal v).
Definition journal_sync_failures (v : Volume) : Z := Journal.j_sync_failures (vo_journal v).
Definition journal_total_bytes (v : Volume) : Z := Journal.total_bytes (vo_journal v).
Definition journal_append_footprint (v : Volume) (record_lens : list Z) : Z :=
  Journal.append_footprint (vo_journal v) record_lens.
Definition journal_segment_count (v : Volume) : Z := Journal.segment_count (vo_journal v).
Definition overlay_len (v : Volume) : Z := Overlay.len (vo_overlay v).
Definition overlay_bytes (v : Volume) : Z := Overlay.obytes (vo_overlay v).
Definition overlay_latest_bytes (v : Volume) : Z := Overlay.latest_bytes (vo_overlay v).
Definition has_pending_reclamation (v : Volume) : bool := Store.has_pending_reclamation (vo_store v).
Definition journal_covered_segment_count (v : Volume) : Z :=
  Journal.covered_segment_count (vo_journal v) (checkpoint_sequence v).
Definition journal_active_segment_path (v : Volume) : option string :=
  journal_segment <$> Journal.active_segment_index (vo_journal v).
Definition journal_first_uncheckpointed_segment_path (v : Volume) : option string :=
  journal_segment <$> Journal.first_uncovered_segment_index (vo_journal v) (checkpoint_sequence v).
Definition supports_discard (v : Volume) : bool := Store.supports_discard (vo_store v).

Definition check_freshness : vio unit := v_io b_check_freshness.

Definition is_pristine (v : Volume) : bool :=
  (checkpoint_sequence v =? 0)
  && (journal_durable_sequence v =? 0)
  && (journal_appended_sequence v =? 0)
  && Overlay.is_empty (vo_overlay v)
  && (shard_count (vo_store v) =? 0).

(** [self.overlay.promote(self.journal.durable_sequence())]. *)
Definition promote : vio unit :=
  modify_state (λ v, set_overlay (Overlay.promote (journal_durable_sequence v) (vo_overlay v)) v).

Definition is_empty_version (ver : Overlay.OverlayVersion) : bool := bool_decide (Overlay.ciphertext ver = []).

(** ** Reads *)

Definition current_sequence (unit_ : Z) : vio (option Z) :=
  let* _ := check_freshness in
  let* v := get_state in
  match Overlay.get (vo_overlay v) unit_ with
  | Some ver => if supports_discard v && is_empty_version ver then m_ret None
                else m_ret (Some (Overlay.sequence ver))
  | None => on_world (slot_sequence (vo_store v) unit_)
  end.

Definition read_ct (unit_ : Z) : vio (option (Z * bytes)) :=
  let* _ := check_freshness in
  let* v := get_state in
  match Overlay.get (vo_overlay v) unit_ with
  | Some ver => if supports_discard v && is_empty_version ver then m_ret None
                else m_ret (Some (Overlay.sequence ver, Overlay.ciphertext ver))
  | None =>
      let* x := on_world (read_slot (vo_store v) unit_) in
      match x with
      | SlotZero => m_ret None
      | SlotCiphertext write_sequence data => m_ret (Some (write_sequence, data))
      end
  end.

Fixpoint first_readable (us : list Z) : vio (option (Z * bytes)) :=
  match us with
  | [] => m_ret None
  | u :: us =>
      let* r := read_ct u in
      match r with
      | Some (_, data) => m_ret (Some (u, data))
      | None => first_readable us
      end
  end.

Definition first_ciphertext_unit : vio (option (Z * bytes)) :=
  let* v := get_state in
  let overlay_unit := if supports_discard v then Overlay.first_nonempty_unit (vo_overlay v)
                      else Overlay.first_unit (vo_overlay v) in
  match overlay_unit with
  | Some unit_ =>
      let* r := read_ct unit_ in
      m_ret ((λ '(_, data), (unit_, data)) <$> r)
  | None => first_readable (allocated_units (vo_store v))
  end.

(** ** Writes *)

(** The FUA barrier of [write_ct] and [discard_ct]. *)
Definition fua_barrier (sequence : Z) : vio unit :=
  let* sync := m_try (on_journal Journal.sync) in
  let* _ := promote in
  let* durable := m_lift sync in
  if durable <? sequence then m_err CoreDurability else m_ret tt.

(** Append, promote, publish, promote, barrier: the tail both writes share. *)
Definition append_and_publish (unit_ : Z) (ciphertext : bytes) (fua : bool) : vio Z :=
  let* appended := m_try (on_journal (Journal.append unit_ ciphertext)) in
  let* _ := promote in
  let* sequence := m_lift appended in
  let* _ := modify_state (λ v, set_overlay (Overlay.publish unit_ sequence ciphertext (vo_overlay v)) v) in
  let* _ := promote in
  let* _ := m_when fua (fua_barrier sequence) in
  m_ret sequence.

Definition write_ct (unit_ : Z) (ciphertext : bytes) (fua : bool) : vio Z :=
  let* _ := check_freshness in
  let* v := get_state in
  let* _ := m_lift (Journal.check_append (vo_journal v) (blen ciphertext)) in
  if max_ciphertext_size (Superblock.geometry (vo_superblock v)) <? blen ciphertext
  then m_err CoreCorrupt else
  let* _ := on_store (reserve_slot unit_) in
  append_and_publish unit_ ciphertext fua.

Definition reclaim_unwritten (unit_ : Z) : vio bool :=
  let* _ := check_freshness in
  let* v := get_state in
  match Overlay.get (vo_overlay v) unit_ with
  | Some ver => m_ret (is_empty_version ver)
  | None =>
      let* found := m_try (on_world (slot_sequence (vo_store v) unit_)) in
      match found with
      | Ok None =>
          let* _ := on_store (Store.reclaim_unwritten unit_) in
          m_ret true
      | _ => m_ret false
      end
  end.

(** The barrier on a tombstone that is already there: its failure returns
    before the promotion. *)
Definition tombstone_barrier (sequence : Z) : vio unit :=
  let* durable := on_journal Journal.sync in
  let* _ := modify_state (λ v, set_overlay (Overlay.promote durable (vo_overlay v)) v) in
  if durable <? sequence then m_err CoreDurability else m_ret tt.

(** The part of [discard_ct] that writes a tombstone. *)
Definition append_tombstone (unit_ : Z) (fua : bool) : vio Z :=
  let* v := get_state in
  if Journal.j_next_sequence (vo_journal v) =? U64_MAX then m_err CoreCorrupt
  else append_and_publish unit_ [] fua.

Definition discard_ct (unit_ : Z) (fua : bool) : vio Z :=
  let* _ := check_freshness in
  let* v := get_state in
  if negb (supports_discard v) then m_err CoreInvalid else
  if num_units (Superblock.geometry (vo_superblock v)) <=? unit_ then m_err CoreInvalid else
  match Overlay.get (vo_overlay v) unit_ with
  | Some ver =>
      if is_empty_version ver then
        let* _ := m_when fua (tombstone_barrier (Overlay.sequence ver)) in
        m_ret (Overlay.sequence ver)
      else append_tombstone unit_ fua
  | None =>
      let* skipped := reclaim_unwritten unit_ in
      if skipped then let* v := get_state in m_ret (journal_appended_sequence v)
      else append_tombstone unit_ fua
  end.

Definition flush : vio unit :=
  let* _ := check_freshness in
  let* durable := on_journal Journal.sync in
  modify_state (λ v, set_overlay (Overlay.promote durable (vo_overlay v)) v).

(** ** Checkpoints *)

Record PreparedCheckpoint := mkPrepared {
  base_checkpoint : Z;
  horizon : Z;
  allow_discard : bool;
  items : list (Z * Overlay.OverlayVersion);
  slots : CheckpointSlotPlan (F := F)
}.

(** The items that go into slots. *)
Definition writes_slot (allow_discard : bool) (ver : Overlay.OverlayVersion) : bool :=
  negb allow_discard || negb (is_empty_version ver).

Definition prepare_checkpoint : vio PreparedCheckpoint :=
  let* v := get_state in
  let durable := journal_durable_sequence v in
  let* _ := modify_state (λ v, set_overlay (Overlay.promote durable (vo_overlay v)) v) in
  let* v := get_state in
  let base_checkpoint := checkpoint_sequence v in
  let allow_discard := supports_discard v in
  let items := if durable <=? base_checkpoint then [] else Overlay.collect_durable durable (vo_overlay v) in
  let* slots := on_store (checkpoint_slot_plan
    ((List.filter (λ it, writes_slot allow_discard it.2) items).*1)) in
  m_ret (mkPrepared base_checkpoint (Z.max durable base_checkpoint) allow_discard items slots).

(** The slot writes of a plan, in order. *)
Fixpoint execute_items (p : CheckpointSlotPlan) (allow_discard : bool) (slot_index : nat)
    (items : list (Z * Overlay.OverlayVersion)) : M W CoreError unit :=
  match items with
  | [] => m_ret tt
  | (_, ver) :: items =>
      if allow_discard && is_empty_version ver then execute_items p allow_discard slot_index items
      else
        let* _ := plan_write p slot_index (Overlay.sequence ver) (Overlay.ciphertext ver) in
        execute_items p allow_discard (S slot_index) items
  end.

(** [PreparedCheckpoint::execute]; the counter of failed reservations is the
    store's. *)
Definition execute (p : PreparedCheckpoint) : vio unit :=
  let* _ := on_world (execute_items (slots p) (allow_discard p) 0 (items p)) in
  let* _ := on_world (sync_shards (slots p)) in
  let* v := get_state in
  m_lift (validate_reservation_barriers (slots p) (vo_store v)).

(** [retry_reclamation] of the units the overlay does not hold; a failure is
    logged. *)
Definition reclaim : vio unit :=
  let* v := get_state in
  let* _ := m_try (on_store (retry_reclamation (λ u, Store.is_none (Overlay.get (vo_overlay v) u)))) in
  m_ret tt.

(** Nothing new is durable: clean up after earlier checkpoints. *)
Definition finish_idle (base_checkpoint : Z) : vio Z :=
  let* _ := modify_state (λ v, set_overlay (Overlay.retire base_checkpoint (vo_overlay v)) v) in
  let* v := get_state in
  let* _ := m_when (has_pending_repairs (vo_store v))
    (let* _ := on_store persist_discards in on_store persist_allocations) in
  let* deleted := on_journal (Journal.delete_covered base_checkpoint) in
  let* _ := m_when (0 <? deleted) (v_io (b_sync_dir JOURNAL_DIR)) in
  let* _ := reclaim in
  m_ret base_checkpoint.

(** The slots a checkpoint retires. *)
Definition punchable (allow_discard : bool) (items : list (Z * Overlay.OverlayVersion)) (o : Overlay.Overlay)
    : list Z :=
  if allow_discard then
    (List.filter (λ it, is_empty_version it.2 &&
      match Overlay.get o it.1 with
      | None => true
      | Some latest => Overlay.sequence latest <=? Overlay.sequence it.2
      end) items).*1
  else [].

(** Step 3: the metadata of the items. *)
Definition publish_items (allow_discard : bool) (items : list (Z * Overlay.OverlayVersion)) : vio unit :=
  let* _ := m_each (λ it, m_when (writes_slot allow_discard it.2) (on_store (mark_allocated it.1))) items in
  m_when allow_discard
    (let* _ := m_each (λ it, on_store (set_discarded it.1 (is_empty_version it.2))) items in
     on_store persist_discards).

(** Step 4: the checkpoint state. *)
Definition store_ck_state (horizon : Z) : vio unit :=
  let* v := get_state in
  let* new_state := on_world (core_format (store_record checkpoint_store
    (Checkpoint.mkCheckpointState (Checkpoint.generation (vo_ck_state v)) horizon))) in
  let* _ := v_io (b_sync_dir CHECKPOINT_DIR) in
  modify_state (set_ck_state new_state).

(** The slots of [us] are released; whether that failed. *)
Definition release (us : list Z) : vio bool :=
  if bool_decide (us = []) then m_ret false else
  let* v := get_state in
  let* punched := m_try (on_world (punch_slots (vo_store v) us)) in
  match punched with
  | Ok _ => m_ret false
  | Err _ => let* _ := on_store schedule_reclamation in m_ret true
  end.

Definition finish_checkpoint (p : PreparedCheckpoint) : vio Z :=
  let* v := get_state in
  let* _ := m_lift (validate_reservation_barriers (slots p) (vo_store v)) in
  if negb (checkpoint_sequence v =? base_checkpoint p) then m_err CoreDurability else
  if horizon p <=? base_checkpoint p then finish_idle (base_checkpoint p) else
  let* _ := publish_items (allow_discard p) (items p) in
  let* v := get_state in
  let us := punchable (allow_discard p) (items p) (vo_overlay v) in
  let* _ := on_store persist_allocations in
  let* _ := store_ck_state (horizon p) in
  let* reclamation_failed := release us in
  let* _ := on_journal (Journal.delete_covered (horizon p)) in
  let* _ := v_io (b_sync_dir JOURNAL_DIR) in
  let* _ := modify_state (λ v, set_overlay (Overlay.retire (horizon p) (vo_overlay v)) v) in
  let* _ := m_when (negb reclamation_failed) reclaim in
  m_ret (horizon p).

Definition checkpoint : vio Z :=
  let* prepared := prepare_checkpoint in
  let* _ := execute prepared in
  finish_checkpoint prepared.

(** ** The sanitizer *)

(** Whether every assertion holds. *)
Definition check_invariants : vio bool :=
  let* v := get_state in
  let* journal_ok := on_journal Journal.check_invariants in
  m_ret ((checkpoint_sequence v <=? journal_durable_sequence v)
    && journal_ok
    && (negb (Overlay.len (vo_overlay v) <=? 4096)
        || (Overlay.check_invariants (vo_overlay v)
            && match Overlay.sequence_bounds (vo_overlay v) with
               | Some (_, newest) => newest <=? journal_appended_sequence v
               | None => true
               end))).
End Volume.
End Volume.
