(* ===== verification/VolumeState.v ===== *)
(** * VolumeState: the volume's invariant

    [volume_ok] ties the volume's parts together: the journal's and the
    store's own invariants, the overlay's accounting, the order of the
    checkpoint, the durable and the appended sequence, and that a version at
    or below the checkpoint is in its slot.  [vol_view] is what a reader of a
    unit sees: the overlay's latest version, else the slot. *)

From S2P Require Import Prelude BTreeMap Codec Layout Geometry AbRecord Metadata Superblock JournalFormat Backing AbStore FixedCopy DurableProof JournalWriter JournalProof JournalDurability RecoveryScan Volumes JournalScan SlotStore Recovery StoreData StoreProof StoreReads StoreOpen StoreRuns Overlay Volume.
Import Store Volume.
Import (hints) Metadata.Catalog Metadata.Allocation Metadata.Checkpoint.

Local Open Scope Z_scope.

(** ** The overlay inside a volume *)
Section OverlayOk.
Implicit Types (o : Overlay.Overlay) (e : Overlay.UnitOverlay) (g : Geometry).
Import Overlay.

(** The overlay's byte counters cannot overflow: at most three copies of
    every unit are charged. *)
Definition roomy g : Prop := 3 * (num_units g * max_ciphertext_size g) ≤ U64_MAX.

(** Versions are of the device, no newer than the journal, no larger than a
    slot. *)
Record unit_fits g (appended u : Z) e : Prop := {
  uf_unit : 0 ≤ u < num_units g;
  uf_sequence : sequence (latest e) ≤ appended;
  uf_latest : clen (latest e) ≤ max_ciphertext_size g;
  uf_durable d : durable e = Some d → clen d ≤ max_ciphertext_size g ∧ 0 < sequence d
}.

Record overlay_ok g (appended boundary : Z) o : Prop := {
  oo_wf : wf o;
  oo_boundary : durable_boundary o ≤ boundary;
  oo_units u e : units o !! u = Some e → unit_fits g appended u e
}.

Lemma size_units_le {A} (m : gmap Z A) n :
  0 ≤ n → (∀ u a, m !! u = Some a → 0 ≤ u < n) → Z.of_nat (size m) ≤ n.
Proof.
  intros Hn Hm. rewrite <- size_dom. replace n with (Z.of_nat (Z.to_nat n)) by lia. apply Nat2Z.inj_le.
  rewrite <- (length_seqZ 0 n), <- (size_list_to_set (C := gset Z)) by apply NoDup_seqZ.
  apply subseteq_size. intros u [a Ha]%elem_of_dom. apply elem_of_list_to_set, elem_of_seqZ. specialize (Hm u a Ha). lia.
Qed.

Lemma msum_bound {A} (f : A → Z) (m : gmap Z A) c n :
  0 ≤ n → 0 ≤ c → (∀ u a, m !! u = Some a → 0 ≤ u < n ∧ f a ≤ c) → msum f m ≤ n * c.
Proof.
  intros Hn Hc Hm. transitivity (Z.of_nat (size m) * c); cycle 1.
  { apply Z.mul_le_mono_nonneg_r; [done|]. apply size_units_le; [done|]. intros u a Ha. by apply (Hm u a). }
  assert (∀ u a, m !! u = Some a → f a ≤ c) as Hf by (intros u a Ha; by apply (Hm u a)). clear Hm.
  induction m as [|u a m Hu IH] using map_ind; [by rewrite msum_empty|].
  rewrite msum_insert, map_size_insert_None by done. rewrite Nat2Z.inj_succ.
  pose proof (Hf u a ltac:(by rewrite lookup_insert_eq)).
  assert (msum f m ≤ Z.of_nat (size m) * c); [|lia]. apply IH. intros v b Hb. apply (Hf v).
  rewrite lookup_insert_ne; [done|]. congruence.
Qed.

Lemma overlay_bytes_bound g appended boundary o :
  geometry_wf g → overlay_ok g appended boundary o →
  obytes o ≤ 2 * (num_units g * max_ciphertext_size g) ∧ latest_bytes o ≤ num_units g * max_ciphertext_size g.
Proof.
  intros Hg [[Hm _] _ Hu]. pose proof (gwf_ct g Hg). pose proof (gwf_unit g Hg). pose proof (gwf_block g Hg).
  assert (0 ≤ num_units g) as Hn.
  { unfold num_units. pose proof (gwf_virtual g Hg). apply Z.div_pos; lia. }
  rewrite (mid_bytes _ Hm), (mid_latest _ Hm). split.
  - rewrite Z.mul_assoc, (Z.mul_comm 2), <- Z.mul_assoc. apply msum_bound; [done|lia|]. intros u e He.
    destruct (Hu u e He) as [? _ Hl Hd]. split; [done|]. unfold weight. destruct (durable e) as [d|]; [|lia].
    specialize (Hd d eq_refl). lia.
  - apply msum_bound; [done|lia|]. intros u e He. by destruct (Hu u e He).
Qed.

Lemma num_units_pos g u : 0 ≤ u < num_units g → max_ciphertext_size g ≤ num_units g * max_ciphertext_size g ∨ max_ciphertext_size g < 0.
Proof. intros Hu. destruct (Z.neg_nonneg_cases (max_ciphertext_size g)); [by right|left]. nia. Qed.

Lemma overlay_publish g appended boundary o u ct :
  geometry_wf g → roomy g → overlay_ok g appended boundary o → boundary ≤ appended →
  0 ≤ u < num_units g → blen ct ≤ max_ciphertext_size g →
  overlay_ok g (appended + 1) boundary (publish u (appended + 1) ct o).
Proof.
  intros Hg Hroom Ho Hb Hu Hct. destruct (overlay_bytes_bound _ _ _ _ Hg Ho) as [Hby _].
  pose proof (num_units_pos g u Hu). pose proof (blen_nonneg ct). unfold roomy in Hroom.
  destruct Ho as [Hw Hbd Hun]. split.
  - apply publish_wf; [done| |lia]. split; [lia|]. intros v e He. pose proof (uf_sequence _ _ _ _ (Hun v e He)). lia.
  - rewrite publish_boundary. lia.
  - intros v e He. pose proof (publish_durable o u (appended + 1) ct v) as Hd. rewrite He in Hd. cbn in Hd.
    pose proof (publish_get o u (appended + 1) ct v) as Hl. unfold get in Hl. rewrite He in Hl. cbn in Hl.
    assert (∀ d, durable e = Some d → clen d ≤ max_ciphertext_size g ∧ 0 < sequence d) as Hdur.
    { intros d Hdd. rewrite Hdd in Hd. destruct (units o !! v) as [e0|] eqn:He0; [|done]. symmetry in Hd.
      by apply (uf_durable _ _ _ _ (Hun v e0 He0)). }
    destruct (decide (v = u)) as [->|Hne].
    + injection Hl as Hl. split; [done|rewrite Hl; cbn; lia|by rewrite Hl|done].
    + destruct (units o !! v) as [e0|] eqn:He0; [|done]. injection Hl as Hl. destruct (Hun v e0 He0).
      split; [done|rewrite Hl; lia|by rewrite Hl|done].
Qed.

(** A promotion takes latest versions as durable ones and nothing else. *)
Definition promoted o o' : Prop :=
  ∀ u e', units o' !! u = Some e' → ∃ e, units o !! u = Some e ∧ latest e' = latest e ∧
    (durable e' = durable e ∨ durable e' = Some (latest e)).

Lemma promoted_refl o : promoted o o.
Proof. intros u e He. exists e. auto. Qed.

Lemma promote_one_promoted s u o : promoted o (promote_one s u o).
Proof.
  intros v e'. unfold promote_one. destruct (units o !! u) as [e|] eqn:He; [|apply (promoted_refl o)].
  destruct (_ && _); [|apply (promoted_refl o)]. cbn. rewrite lookup_insert_Some.
  intros [[<- <-]|[_ Hv]]; [|by apply (promoted_refl o)]. exists e. auto.
Qed.

Lemma promoted_trans o1 o2 o3 : promoted o1 o2 → promoted o2 o3 → promoted o1 o3.
Proof.
  intros H12 H23 u e3 He3. destruct (H23 u e3 He3) as (e2 & He2 & Hl & Hd).
  destruct (H12 u e2 He2) as (e1 & He1 & Hl' & Hd'). exists e1. split; [done|]. rewrite Hl in *. rewrite Hl' in *.
  split; [done|]. destruct Hd as [->| ->]; auto.
Qed.

Lemma promote_promoted d o : promoted o (promote d o).
Proof.
  assert (∀ fuel o0, promoted o o0 → promoted o (promote_loop fuel d o0)) as Hloop.
  { induction fuel as [|fuel IH]; intros o0 H0; [done|]. simpl. destruct (first_key_value _) as [[s u]|]; [|done].
    destruct (_ <? _); [done|]. apply IH. eapply promoted_trans; [done|apply promote_one_promoted]. }
  apply Hloop. apply (promoted_refl o).
Qed.

Lemma overlay_promote g appended boundary o d :
  geometry_wf g → roomy g → overlay_ok g appended boundary o → d ≤ boundary →
  overlay_ok g appended boundary (promote d o) ∧ same_latest o (promote d o) ∧
  durable_boundary (promote d o) = Z.max (durable_boundary o) d.
Proof.
  intros Hg Hroom Ho Hd. destruct (overlay_bytes_bound _ _ _ _ Hg Ho) as [Hby Hlb]. unfold roomy in Hroom.
  destruct Ho as [Hw Hbd Hun]. destruct (promote_wf o d Hw ltac:(lia)) as (Hw' & Hb' & Hs). split; [|done].
  split; [done|lia|]. intros u e' He'. destruct (promote_promoted d o u e' He') as (e & He & Hl & Hdu).
  destruct (Hun u e He) as [? ? ? Hde]. split; [done|by rewrite Hl|by rewrite Hl|].
  intros x Hx. destruct Hdu as [Hdu|Hdu]; rewrite Hdu in Hx; [by apply Hde|]. injection Hx as <-.
  split; [done|]. by apply (mid_unit _ (proj1 Hw) u e He).
Qed.

Lemma retire_units c o u : mid o → units (retire c o) !! u = e ← units o !! u; retired c e.
Proof. intros Hm. rewrite retire_eq by done. cbn. apply lookup_omap. Qed.

Lemma retire_get c o u :
  mid o → get (retire c o) u = match get o u with Some v => if sequence v <=? c then None else Some v | None => None end.
Proof.
  intros Hm. unfold get. rewrite retire_units by done. destruct (units o !! u) as [e|]; [|done]. cbn.
  unfold retired. by destruct (_ <=? _).
Qed.

Lemma overlay_retire g appended boundary o c :
  overlay_ok g appended boundary o → c ≤ durable_boundary o → overlay_ok g appended boundary (retire c o).
Proof.
  intros [Hw Hbd Hun] Hc. pose proof (proj1 Hw) as Hm. split; [by apply retire_wf|by rewrite retire_eq|].
  intros u e'. rewrite retire_units, bind_Some by done. intros (e & He & Hr). unfold retired in Hr.
  destruct (_ <=? _); [done|]. injection Hr as <-. destruct (Hun u e He) as [? ? ? Hd]. split; try done.
  intros d. unfold trimmed. cbn. destruct (durable e) as [d'|]; [|done]. destruct (_ <=? _); [done|]. intros [= <-]. by apply Hd.
Qed.

Lemma overlay_mono g a b a' b' o : overlay_ok g a b o → a ≤ a' → b ≤ b' → overlay_ok g a' b' o.
Proof. intros [? ? Hu] Ha Hb. split; [done|lia|]. intros u e He. destruct (Hu u e He). split; try done. lia. Qed.
End OverlayOk.

(** ** What a store shows, across other operations *)
Section Undisturbed.
Context `{Crc32} `{BackingLaws W F} `{HashOrder}.
Implicit Types (s : SlotStore (F := F)) (w : W) (X : Z → Prop) (v : Overlay.OverlayVersion) (u : Z).

Definition as_read (enabled : bool) v : SlotRead :=
  if enabled && is_empty_version v then SlotZero
  else SlotCiphertext (Overlay.sequence v) (Overlay.ciphertext v).

(** The bytes of the version lie in the unit's slot. *)
Definition slot_holds (g : Geometry) u v w : Prop :=
  let '(idx, k) := shard_of_unit g u in
  holds_at (Z.to_nat (slot_offset g k)) (version u (Overlay.sequence v) (Overlay.ciphertext v)) (content w idx).

(** The store alone shows the version: written, or marked as discarded. *)
Definition in_slot s w u v : Prop :=
  is_Some (st_shards s !! (shard_of_unit (st_geometry s) u).1) ∧
  if st_discard_enabled s && is_empty_version v then unit_discarded s u = true
  else slot_holds (st_geometry s) u v w ∧ unit_discarded s u = false.

(** The view of the unit is not one that completing a short file may
    change. *)
Definition steady s w u : Prop :=
  settled s u ∨ unit_discarded s u = true ∨ ∃ q c, view s w u = Ok (SlotCiphertext q c).

Definition device s u : Prop := 0 ≤ u < num_units (st_geometry s).

Definition slot_sized s v : Prop :=
  u64_ok (Overlay.sequence v) ∧ 0 < Overlay.sequence v ∧
  blen (Overlay.ciphertext v) ≤ max_ciphertext_size (st_geometry s).

Lemma in_slot_view s w u v :
  store_ok s w → device s u → slot_sized s v → in_slot s w u v →
  view s w u = Ok (as_read (st_discard_enabled s) v) ∧ steady s w u.
Proof.
  intros Hok Hu (Hseq & Hpos & Hl) [[sh Hs] Hin]. unfold as_read.
  destruct (st_discard_enabled s && is_empty_version v).
  { split; [by apply discarded_view|]. by right; left. }
  destruct Hin as [Hh Hd].
  assert (view s w u = Ok (SlotCiphertext (Overlay.sequence v) (Overlay.ciphertext v))) as Hv;
    [|split; [done|]; right; right; eauto].
  unfold view, slot_holds, unit_discarded in *. pose proof (ok_geometry _ _ Hok) as Hg.
  destruct (shard_of_unit (st_geometry s) u) as [idx k] eqn:Hsu. cbn [fst snd] in *. rewrite Hs in *.
  destruct (slot_place _ u idx k Hg Hu Hsu) as (_ & _ & Ho & _).
  apply shard_view_version; [|done|by right]. apply version_holds; [done| |done|done].
  by split; [eapply unit_u64|split].
Qed.

(** Everything about the units outside [X] is as before. *)
Record undisturbed X s w s' w' : Prop := {
  ud_geometry : st_geometry s' = st_geometry s;
  ud_enabled : st_discard_enabled s' = st_discard_enabled s;
  ud_view u : device s u → ¬ X u → steady s w u → view s' w' u = view s w u ∧ steady s' w' u;
  ud_slot u v : device s u → ¬ X u → slot_sized s v → in_slot s w u v → in_slot s' w' u v;
  ud_holds u v : device s u → ¬ X u → slot_sized s v → slot_holds (st_geometry s) u v w → slot_holds (st_geometry s) u v w';
  ud_planned p us : planned (st_geometry s) p us (s, w) → planned (st_geometry s) p us (s', w')
}.

Lemma undisturbed_refl X s w : undisturbed X s w s w.
Proof. by split. Qed.

Lemma undisturbed_trans X s w s1 w1 s2 w2 :
  undisturbed X s w s1 w1 → undisturbed X s1 w1 s2 w2 → undisturbed X s w s2 w2.
Proof.
  intros [G1 E1 V1 S1 B1 P1] [G2 E2 V2 S2 B2 P2]. unfold device, slot_sized in *. rewrite G1 in *.
  split; [congruence|congruence|..].
  - intros u Hu HX Hs. destruct (V1 u Hu HX Hs) as [Hv Hs1]. destruct (V2 u Hu HX Hs1) as [Hv2 Hs2]. split; [congruence|done].
  - intros u v Hu HX Hv Hin. by apply S2; [..|apply S1].
  - intros u v Hu HX Hv Hin. by apply B2; [..|apply B1].
  - intros p us Hp. by apply P2, P1.
Qed.

Lemma undisturbed_weaken X X' s w s' w' : (∀ u, X u → X' u) → undisturbed X s w s' w' → undisturbed X' s w s' w'.
Proof. intros HX [G E V S Hh P]. split; [done|done|..|done]; intros; [apply V|apply S|apply Hh]; naive_solver. Qed.

Lemma unit_slot_not_in g U u : geometry_wf g → 0 ≤ u → ¬ U u →
  0 ≤ (shard_of_unit g u).2 ∧ ¬ slot_in g U (shard_of_unit g u).1 (shard_of_unit g u).2.
Proof.
  intros Hg Hu HU. split; [by apply unit_slot|]. apply (slot_not_in g U u); [done| |done]. by destruct (shard_of_unit g u).
Qed.

Lemma discarded_evolves U ok s w s' w' u :
  store_ok s w → evolves U ok s w s' w' → 0 ≤ u → ¬ U u → unit_discarded s' u = unit_discarded s u.
Proof.
  intros Hok He Hu HU. destruct (unit_slot_not_in _ U u (ok_geometry _ _ Hok) Hu HU) as [Hk Hn].
  unfold unit_discarded. rewrite (ev_geometry _ _ _ _ _ _ He). destruct (st_shards s !! _) as [sh|] eqn:Hs.
  - destruct (ev_shards _ _ _ _ _ _ He _ _ Hs) as (sh' & -> & Hsh). by apply (se_discarded _ _ _ _ _ Hsh).
  - destruct (st_shards s' !! _) as [sh'|] eqn:Hs'; [|done].
    destruct (ev_new _ _ _ _ _ _ He _ _ Hs Hs') as (_ & _ & Hnew). by apply Hnew.
Qed.

Lemma holds_evolves U ok s w s' w' u v :
  store_ok s w → evolves U ok s w s' w' → device s u → ¬ U u → slot_sized s v →
  slot_holds (st_geometry s) u v w → slot_holds (st_geometry s) u v w'.
Proof.
  intros Hok He Hu HU (_ & _ & Hl). unfold slot_holds. destruct (shard_of_unit (st_geometry s) u) as [idx k] eqn:Hsu.
  pose proof (ok_geometry _ _ Hok) as Hg. destruct (slot_place _ u idx k Hg Hu Hsu) as (Hidx & _ & Ho & _ & Hm & _).
  eapply (holds_kept _ U u idx k); [done|done|done|done| |lia|rewrite version_length; lia].
  by eapply pe_kept, (proj2 (ev_data _ _ _ _ _ _ He)).
Qed.

Lemma settled_evolves U ok s w s' w' u : evolves U ok s w s' w' → settled s u → settled s' u.
Proof.
  intros He Hse sh'. rewrite (ev_geometry _ _ _ _ _ _ He). intros Hs'.
  destruct (st_shards s !! (shard_of_unit (st_geometry s) u).1) as [sh|] eqn:Hs.
  - destruct (ev_shards _ _ _ _ _ _ He _ _ Hs) as (sh1 & Hs1 & Hsh). assert (sh1 = sh') as -> by congruence.
    specialize (Hse _ Hs). destruct (se_short _ _ _ _ _ Hsh) as [->| ->]; done.
  - by destruct (ev_new _ _ _ _ _ _ He _ _ Hs Hs').
Qed.

Lemma undisturbed_evolves U ok s w s' w' :
  store_ok s w → store_ok s' w' → evolves U ok s w s' w' → undisturbed U s w s' w'.
Proof.
  intros Hok Hok' He. pose proof (ev_geometry _ _ _ _ _ _ He) as G. pose proof (ev_enabled _ _ _ _ _ _ He) as E.
  split; [done|done|..].
  - intros u Hu HU [Hse|[Hd|(q & c & Hv)]].
    + split; [by eapply view_evolves|]. left. by eapply settled_evolves.
    + rewrite <- (discarded_evolves _ _ _ _ _ _ u Hok He (proj1 Hu) HU) in Hd. split; [|by right; left].
      rewrite (discarded_view _ _ _ Hd). rewrite (discarded_evolves _ _ _ _ _ _ u Hok He (proj1 Hu) HU) in Hd.
      by rewrite discarded_view.
    + pose proof (view_version_evolves _ _ _ _ _ _ u q c Hok He HU Hu Hv) as Hv'. rewrite Hv, Hv'. split; [done|].
      right. right. eauto.
  - intros u v Hu HU Hv [[sh Hs] Hin]. unfold in_slot.
    rewrite G, E, (discarded_evolves _ _ _ _ _ _ u Hok He (proj1 Hu) HU).
    split; [destruct (ev_shards _ _ _ _ _ _ He _ _ Hs) as (sh' & -> & _); by eexists|].
    destruct (st_discard_enabled s && is_empty_version v); [done|]. destruct Hin as [Hh Hd]. split; [|done].
    by eapply holds_evolves.
  - intros u v Hu HU Hv Hh. by eapply holds_evolves.
  - intros p us. by eapply planned_evolves.
Qed.

(** Without discards there are no discard maps. *)
Definition unmarked s : Prop :=
  st_discard_enabled s = false → ∀ idx sh, st_shards s !! idx = Some sh → discard sh = None.

Lemma unmarked_evolves U ok s w s' w' : evolves U ok s w s' w' → unmarked s → unmarked s'.
Proof.
  intros He Hm. unfold unmarked. rewrite (ev_enabled _ _ _ _ _ _ He). intros Hen idx sh' Hs'.
  destruct (st_shards s !! idx) as [sh|] eqn:Hs; [|by eapply (ev_marks _ _ _ _ _ _ He)].
  destruct (ev_shards _ _ _ _ _ _ He _ _ Hs) as (sh1 & Hs1 & Hsh). assert (sh1 = sh') as -> by congruence.
  apply (se_marks _ _ _ _ _ Hsh). by eapply Hm.
Qed.

Lemma unmarked_flag s u : unmarked s → st_discard_enabled s = false → unit_discarded s u = false.
Proof.
  intros Hm Hen. unfold unit_discarded. destruct (st_shards s !! _) as [sh|] eqn:Hs; [|done].
  unfold is_discarded. by rewrite (Hm Hen _ _ Hs).
Qed.

(** Work on other files. *)
Definition data_file (q : string) : Prop := ∃ i, q = shard_data i.

Lemma store_ok_keeps s w w' : keeps data_file w w' → store_ok s w → store_ok s w'.
Proof.
  intros Hk [I G C L A S B]. assert (∀ i, data_file (shard_data i)) as Hd by (intros i; by exists i).
  assert (∀ i, content w' i = content w i) as Hc by (intros i; unfold content; by rewrite (keeps_vis _ _ _ _ Hk)).
  split; try done; [by eapply keeps_inv|..].
  - intros idx sh Hs. destruct (S idx sh Hs). split; try done.
    + by apply (keeps_handle _ _ _ _ _ Hk).
    + by rewrite Hc.
    + intros Hm. apply (keeps_solid _ _ _ _ _ Hk); auto.
  - intros idx Hi Hn i b. rewrite Hc. by apply B.
Qed.

Lemma undisturbed_keeps X s w w' : keeps data_file w w' → undisturbed X s w s w'.
Proof.
  intros Hk. assert (∀ i, data_file (shard_data i)) as Hd by (intros i; by exists i).
  assert (∀ i, content w' i = content w i) as Hc by (intros i; unfold content; by rewrite (keeps_vis _ _ _ _ Hk)).
  assert (∀ u, view s w' u = view s w u) as Hv.
  { intros u. unfold view. destruct (shard_of_unit _ _). by rewrite Hc. }
  assert (∀ u v, slot_holds (st_geometry s) u v w → slot_holds (st_geometry s) u v w') as Hh.
  { intros u v. unfold slot_holds. destruct (shard_of_unit _ _). by rewrite Hc. }
  split; [done|done|..].
  - intros u _ _ Hs. split; [done|]. unfold steady in *. by rewrite Hv.
  - intros u v _ _ _ [Hs Hin]. split; [done|]. destruct (_ && _); [done|]. destruct Hin. auto.
  - auto.
  - intros p us (Hok & Hg & Hm & files & (Hus & Hts & Hfs) & Hsh). cbn [fst snd] in *.
    split; [by eapply store_ok_keeps|]. split; [done|]. split; [done|]. exists files. split; [|done]. split; [done|].
    split; [|done]. eapply list.Forall_impl; [exact Hts|]. intros t [[Hhd Hl] Ho Hf]. split; [|done|done].
    split; [by apply (keeps_handle _ _ _ _ _ Hk)|by rewrite Hc].
Qed.
End Undisturbed.

(** ** The invariant *)
Section VolumeOk.
Context `{Crc32} `{BackingLaws W F} `{HasherLaws HT} `{HashOrder}.
Abbreviation Volume := (Volume (F := F) (HT := HT)).
Implicit Types (V : Volume) (w : W) (u : Z) (L : Z → list JournalRecord).

Definition vgeom V : Geometry := st_geometry (vo_store V).

Record volume_ok L V w : Prop := {
  vk_writer : writer_ok L (vo_journal V) w;
  vk_store : store_ok (vo_store V) w;
  vk_geometry : Superblock.geometry (vo_superblock V) = vgeom V;
  vk_room : roomy (vgeom V);
  vk_overlay : overlay_ok (vgeom V) (journal_appended_sequence V) (journal_durable_sequence V) (vo_overlay V);
  vk_checkpoint : 0 ≤ checkpoint_sequence V ≤ Overlay.durable_boundary (vo_overlay V);
  vk_state : Checkpoint.checkpoint_ok (vo_ck_state V);
  vk_applied u v : Overlay.get (vo_overlay V) u = Some v → Overlay.sequence v ≤ checkpoint_sequence V →
    in_slot (vo_store V) w u v;
  vk_marks : unmarked (vo_store V)
}.

Definition vol_view V w u : result CoreError SlotRead :=
  match Overlay.get (vo_overlay V) u with
  | Some v => Ok (as_read (supports_discard V) v)
  | None => view (vo_store V) w u
  end.

Definition vol_steady V w u : Prop :=
  match Overlay.get (vo_overlay V) u with
  | Some _ => True
  | None => steady (vo_store V) w u
  end.

Lemma owned_foreign q : owned q → foreign q.
Proof. intros [[i ->]|[->|[->| ->]]]; (split; [reflexivity|]); split; intros He; discriminate He. Qed.

Lemma data_unowned q : data_file q → ¬ owned q.
Proof. intros [i ->] Ho. by apply (foreign_data i (shard_data i) (owned_foreign _ Ho)). Qed.

Lemma version_sized L V w u v :
  volume_ok L V w → Overlay.get (vo_overlay V) u = Some v → device (vo_store V) u ∧ slot_sized (vo_store V) v.
Proof.
  intros Hok Hg. unfold Overlay.get in Hg. apply fmap_Some in Hg as (e & He & ->).
  destruct (oo_units _ _ _ _ (vk_overlay _ _ _ Hok) u e He) as [Hu Hs Hl _]. split; [done|].
  destruct (oo_wf _ _ _ _ (vk_overlay _ _ _ Hok)) as [Hm _]. destruct (Overlay.mid_unit _ Hm u e He) as [Hpos _].
  pose proof (sh_next _ _ (proj1 (vk_writer _ _ _ Hok))) as [Hn Hmax]. unfold journal_appended_sequence in Hs.
  split; [|done]. unfold u64_ok, U64_MAX in *. lia.
Qed.

(** *** One piece of an operation at a time *)

Lemma ok_store_held L V w s' w' U ok :
  volume_ok L V w → store_ok s' w' → evolves U ok (vo_store V) w s' w' →
  (∀ u v, Overlay.get (vo_overlay V) u = Some v → Overlay.sequence v ≤ checkpoint_sequence V →
    in_slot (vo_store V) w u v → ¬ U u ∨ in_slot s' w' u v) →
  volume_ok L (set_store s' V) w'.
Proof.
  intros Hok Hs He HU. pose proof (undisturbed_evolves _ _ _ _ _ _ (vk_store _ _ _ Hok) Hs He) as Hud.
  pose proof (version_sized L V w) as Hvs. pose proof Hok as [Hw Hst Hg Hr Ho Hc Hck Ha Hm].
  unfold vgeom in *. split; unfold vgeom; simpl; rewrite ?(ud_geometry _ _ _ _ _ Hud); try done.
  - eapply JournalDurability.other_ok; [exact Hw|]. eapply keeps_weaken; [|apply (ev_data _ _ _ _ _ _ He)]. apply owned_foreign.
  - intros u v Hgv Hle. destruct (Hvs u v Hok Hgv). destruct (HU u v Hgv Hle (Ha u v Hgv Hle)) as [HUu|]; [|done].
    apply (ud_slot _ _ _ _ _ Hud); try done. by apply Ha.
  - by eapply unmarked_evolves.
Qed.

Lemma ok_store L V w s' w' U ok :
  volume_ok L V w → store_ok s' w' → evolves U ok (vo_store V) w s' w' →
  (∀ u, U u → Overlay.get (vo_overlay V) u = None) → volume_ok L (set_store s' V) w'.
Proof. intros Hok Hs He HU. eapply ok_store_held; [done|done|exact He|]. intros u v Hg _ _. left. intros HUu. by rewrite HU in Hg. Qed.

(** The journal works on its own files. *)
Lemma data_keeps w w' : keeps (λ q, ¬ owned q) w w' → keeps data_file w w'.
Proof. apply keeps_weaken, data_unowned. Qed.

Lemma ok_journal L L' V w j' w' :
  volume_ok L V w → writer_ok L' j' w' → keeps (λ q, ¬ owned q) w w' →
  journal_durable_sequence V ≤ Journal.j_durable_sequence j' →
  journal_appended_sequence V ≤ Journal.j_appended_sequence j' → volume_ok L' (set_journal j' V) w'.
Proof.
  intros [Hw Hst Hg Hr Ho Hc Hck Ha Hm] Hw' Hk%data_keeps Hd Hap. split; try done.
  - by eapply store_ok_keeps.
  - by eapply overlay_mono.
  - intros u v Hgv Hle. pose proof (undisturbed_keeps (λ _, False) (vo_store V) w w' Hk) as Hud.
    destruct (Ha u v Hgv Hle) as [Hs Hin]. split; [done|]. simpl. destruct (_ && _); [done|]. destruct Hin as [Hh Hdd].
    split; [|done]. unfold slot_holds in *. destruct (shard_of_unit _ _). unfold content in *.
    rewrite (keeps_vis _ _ _ _ Hk); [done|]. by eexists.
Qed.

Lemma ok_world L V w w' : volume_ok L V w → keeps (λ q, owned q ∨ data_file q) w w' → volume_ok L V w'.
Proof.
  intros [Hw Hst Hg Hr Ho Hc Hck Ha Hm] Hk.
  assert (keeps data_file w w') as Hkd by (eapply keeps_weaken; [|exact Hk]; by right).
  split; try done.
  - eapply JournalDurability.other_ok; [exact Hw|]. eapply keeps_weaken; [|exact Hk]. by left.
  - by eapply store_ok_keeps.
  - intros u v Hgv Hle. destruct (Ha u v Hgv Hle) as [Hs Hin]. split; [done|].
    destruct (_ && _); [done|]. destruct Hin as [Hh Hdd]. split; [|done].
    unfold slot_holds in *. destruct (shard_of_unit _ _). unfold content in *.
    rewrite (keeps_vis _ _ _ _ Hkd); [done|]. by eexists.
Qed.

Lemma same_latest_get o o' u : Overlay.same_latest o o' → Overlay.get o' u = Overlay.get o u.
Proof. intros Hs. apply Hs. Qed.

Lemma ok_promote L V w d :
  volume_ok L V w → d ≤ journal_durable_sequence V →
  volume_ok L (set_overlay (Overlay.promote d (vo_overlay V)) V) w ∧
  Overlay.same_latest (vo_overlay V) (Overlay.promote d (vo_overlay V)) ∧
  Overlay.durable_boundary (Overlay.promote d (vo_overlay V)) = Z.max (Overlay.durable_boundary (vo_overlay V)) d.
Proof.
  intros [Hw Hst Hg Hr Ho Hc Hck Ha Hm] Hd.
  destruct (overlay_promote _ _ _ _ d (ok_geometry _ _ Hst) Hr Ho Hd) as (Ho' & Hs & Hb). split; [|done].
  split; try done.
  - unfold checkpoint_sequence in *. simpl. lia.
  - intros u v. simpl. rewrite (same_latest_get _ _ u Hs). apply Ha.
Qed.
End VolumeOk.
