(* ===== verification/VolumeOps.v ===== *)
(** * VolumeOps: the volume's operations one by one

    Every operation of a volume, failed or not, keeps the invariant, and
    leaves what readers see of every other unit alone.  A write shows its
    version; a failed one shows it or changes nothing. *)

From S2P Require Import Prelude BTreeMap Codec Layout Geometry AbRecord Metadata Superblock JournalFormat Backing AbStore FixedCopy DurableProof JournalWriter JournalProof JournalDurability RecoveryScan Volumes JournalScan SlotStore Recovery StoreData StoreProof StoreReads StoreOpen StoreRuns Overlay Volume VolumeState.
Import Store Volume.
Import (hints) Metadata.Catalog Metadata.Allocation Metadata.Checkpoint.

Local Open Scope Z_scope.

Section Ops.
Context `{Crc32} `{BackingLaws W F} `{HasherLaws HT} `{HashOrder}.
Abbreviation Volume := (Volume (F := F) (HT := HT)).
Implicit Types (V : Volume) (w : W) (u : Z) (L : Z → list JournalRecord) (X : Z → Prop).
Local Abbreviation oget V u := (Overlay.get (vo_overlay V) u).
Local Abbreviation boundary V := (Overlay.durable_boundary (vo_overlay V)).

(** What operations between two checkpoints do: the store is disturbed at
    most at units the overlay does not hold, and new versions are newer than
    everything before. *)
Record later X V w V' w' : Prop := {
  la_superblock : vo_superblock V' = vo_superblock V;
  la_state : vo_ck_state V' = vo_ck_state V;
  la_unheld u : X u → oget V u = None;
  la_store : undisturbed X (vo_store V) w (vo_store V') w';
  la_overlay u : oget V' u = oget V u ∨ ∃ v, oget V' u = Some v ∧ journal_appended_sequence V < Overlay.sequence v;
  la_boundary : boundary V ≤ boundary V';
  la_durable : journal_durable_sequence V ≤ journal_durable_sequence V';
  la_appended : journal_appended_sequence V ≤ journal_appended_sequence V'
}.

Definition none : Z → Prop := λ _, False.

Lemma later_refl X V w : (∀ u, X u → oget V u = None) → later X V w V w.
Proof. intros HX. split; try done; try apply undisturbed_refl; by left. Qed.

Lemma later_trans X V w V1 w1 V2 w2 : later X V w V1 w1 → later none V1 w1 V2 w2 → later X V w V2 w2.
Proof.
  intros [S1 C1 X1 U1 O1 B1 D1 A1] [S2 C2 X2 U2 O2 B2 D2 A2]. split; try lia; try congruence; [done|..].
  - eapply undisturbed_trans; [exact U1|]. eapply undisturbed_weaken; [|exact U2]. by intros u [].
  - intros u. destruct (O2 u) as [->|(v & Hv & Hs)]; [apply O1|]. right. exists v. split; [done|]. lia.
Qed.

(** What a reader sees of a unit whose overlay entry stays. *)
Lemma later_view X V w V' w' u :
  later X V w V' w' → device (vo_store V) u → ¬ X u → oget V' u = oget V u → vol_steady V w u →
  vol_view V' w' u = vol_view V w u ∧ vol_steady V' w' u.
Proof.
  intros Hl Hu HX Hg Hs. unfold vol_view, vol_steady, supports_discard, Store.supports_discard in *. rewrite Hg.
  rewrite (ud_enabled _ _ _ _ _ (la_store _ _ _ _ _ Hl)). destruct (oget V u); [done|].
  by apply (ud_view _ _ _ _ _ (la_store _ _ _ _ _ Hl)).
Qed.

(** ** Pieces *)

Lemma on_journal_inv {A} (m : M (Journal.JournalWriter * W) CoreError A) V w r V' w' :
  on_journal m (V, w) = (r, (V', w')) →
  ∃ j', m (vo_journal V, w) = (r, (j', w')) ∧ V' = set_journal j' V.
Proof. unfold on_journal. simpl. destruct (m _) as [r0 [j0 w0]]. intros [= <- <- <-]. eauto. Qed.

Lemma on_store_inv {A} (m : M (SlotStore * W) CoreError A) V w r V' w' :
  on_store m (V, w) = (r, (V', w')) →
  ∃ s', m (vo_store V, w) = (r, (s', w')) ∧ V' = set_store s' V.
Proof. unfold on_store. simpl. destruct (m _) as [r0 [s0 w0]]. intros [= <- <- <-]. eauto. Qed.

Lemma later_journal V w j' w' :
  keeps (λ q, ¬ owned q) w w' → journal_durable_sequence V ≤ Journal.j_durable_sequence j' →
  journal_appended_sequence V ≤ Journal.j_appended_sequence j' → later none V w (set_journal j' V) w'.
Proof.
  intros Hk Hd Ha. split; try done; try by left. by apply undisturbed_keeps, data_keeps.
Qed.

Lemma later_world V w w' : keeps data_file w w' → later none V w V w'.
Proof. intros Hk. split; try done; try by left. by apply undisturbed_keeps. Qed.

Lemma later_store X V w s' w' :
  (∀ u, X u → oget V u = None) → undisturbed X (vo_store V) w s' w' → later X V w (set_store s' V) w'.
Proof. intros HX Hud. split; try done; by left. Qed.

Lemma later_overlay V w o' :
  (∀ u, Overlay.get o' u = oget V u ∨ ∃ v, Overlay.get o' u = Some v ∧ journal_appended_sequence V < Overlay.sequence v) →
  boundary V ≤ Overlay.durable_boundary o' → later none V w (set_overlay o' V) w.
Proof. intros Ho Hb. by split. Qed.

Lemma keeps_all P w w' : keeps (λ _, True) w w' → keeps P w w'.
Proof. by apply keeps_weaken. Qed.

(** [check_freshness] changes nothing. *)
Lemma freshness_ok L V w r V' w' :
  volume_ok L V w → check_freshness (V, w) = (r, (V', w')) → V' = V ∧ volume_ok L V w' ∧ later none V w V w' ∧ keeps (λ _, True) w w'.
Proof.
  intros Hok [-> (r0 & Hr & _)%m_map_err_inv]%on_world_inv.
  pose proof (d_inv _ _ _ (proj2 (vk_writer _ _ _ Hok))) as Hi.
  destruct (law_check_freshness _ _ _ Hi Hr) as [Hk _]. split; [done|].
  split; [eapply ok_world; [done|by apply keeps_all]|]. split; [|done]. apply later_world. by apply keeps_all.
Qed.

(** The volume's [promote]. *)
Lemma promote_ok L V w (r : result CoreError unit) V' w' d :
  volume_ok L V w → d ≤ journal_durable_sequence V →
  modify_state (λ v, set_overlay (Overlay.promote d (vo_overlay v)) v) (V, w) = (r, (V', w')) →
  r = Ok tt ∧ w' = w ∧ volume_ok L V' w ∧ later none V w V' w ∧ (∀ u, oget V' u = oget V u) ∧
  vo_journal V' = vo_journal V ∧ boundary V' = Z.max (boundary V) d.
Proof.
  intros Hok Hd [= <- <- <-]. destruct (ok_promote L V w d Hok Hd) as (Hok' & Hs & Hb).
  split; [done|]. split; [done|]. split; [done|]. split; [|split; [intros u; by apply same_latest_get|done]].
  apply later_overlay; [|lia]. intros u. left. by apply same_latest_get.
Qed.

Lemma sync_piece L V w r V' w' :
  volume_ok L V w → on_journal Journal.sync (V, w) = (r, (V', w')) →
  volume_ok L V' w' ∧ later none V w V' w' ∧ vo_overlay V' = vo_overlay V ∧
  ∀ n, r = Ok n → journal_durable_sequence V' = n ∧ n = journal_appended_sequence V.
Proof.
  intros Hok (j' & Hr & ->)%on_journal_inv.
  destruct (sync_ok _ _ _ _ _ _ (vk_writer _ _ _ Hok) Hr) as [Hw' _ Hc _ Hdn _ Hk Hd].
  injection Hc as _ _ _ Hap _.
  split; [|split; [|split; [done|]]].
  - eapply ok_journal; [done|done|done|done|]. unfold journal_appended_sequence. lia.
  - apply later_journal; [done|done|]. unfold journal_appended_sequence. lia.
  - intros n Hn. destruct (Hdn n Hn) as (-> & Hdu & _). split; [|done]. done.
Qed.

Lemma sync_appended L V w r V' w' :
  volume_ok L V w → on_journal Journal.sync (V, w) = (r, (V', w')) →
  journal_appended_sequence V' = journal_appended_sequence V.
Proof.
  intros Hok (j' & Hr & ->)%on_journal_inv.
  destruct (sync_ok _ _ _ _ _ _ (vk_writer _ _ _ Hok) Hr) as [_ _ Hc _ _ _ _ _]. injection Hc as _ _ _ Hap _. exact Hap.
Qed.

Lemma fua_ok L V w n r V' w' :
  volume_ok L V w → fua_barrier n (V, w) = (r, (V', w')) →
  volume_ok L V' w' ∧ later none V w V' w' ∧ ∀ u, oget V' u = oget V u.
Proof.
  intros Hok Hr. unfold fua_barrier in Hr.
  apply m_bind_inv in Hr as [(sy & [V1 w1] & (sy0 & Hs & [= ->])%m_try_inv & Hr)|(e & (? & _ & [=])%m_try_inv & _)].
  destruct (sync_piece _ _ _ _ _ _ Hok Hs) as (Hok1 & Hl1 & Ho1 & _).
  apply m_bind_inv in Hr as [([] & [V2 w2] & Hp & Hr)|(e & [=] & _)].
  destruct (promote_ok L V1 w1 _ _ _ _ Hok1 (Z.le_refl _) Hp) as (_ & -> & Hok2 & Hl2 & Hg2 & _).
  assert (V' = V2 ∧ w' = w1) as [-> ->].
  { destruct sy0 as [d|e]; [|by injection Hr as _ <- <-]. cbv [m_bind m_lift] in Hr.
    destruct (d <? n); by injection Hr as _ <- <-. }
  split; [done|]. split; [by eapply later_trans|]. intros u. by rewrite Hg2, Ho1.
Qed.

(** ** Writes *)

(** The version a write published, if it did. *)
Definition published V V' u (ct : bytes) (r : result CoreError Z) : Prop :=
  (∀ u', u' ≠ u → oget V' u' = oget V u') ∧
  match r with
  | Ok n => n = journal_appended_sequence V + 1 ∧ oget V' u = Some (Overlay.mkVersion n ct)
  | Err _ => oget V' u = oget V u ∨ oget V' u = Some (Overlay.mkVersion (journal_appended_sequence V + 1) ct)
  end.

(** The overlay between the append and the barrier. *)
Lemma publish_piece L L' V w j' w' u ct :
  volume_ok L V w → device (vo_store V) u → blen ct ≤ max_ciphertext_size (vgeom V) →
  writer_ok L' j' w' → keeps (λ q, ¬ owned q) w w' →
  journal_durable_sequence V ≤ Journal.j_durable_sequence j' ≤ journal_appended_sequence V →
  Journal.j_appended_sequence j' = journal_appended_sequence V + 1 →
  let d := Journal.j_durable_sequence j' in
  let o' := Overlay.promote d (Overlay.publish u (journal_appended_sequence V + 1) ct (Overlay.promote d (vo_overlay V))) in
  let V' := set_overlay o' (set_journal j' V) in
  volume_ok L' V' w' ∧ later none V w V' w' ∧
  ∀ u', oget V' u' = if decide (u' = u) then Some (Overlay.mkVersion (journal_appended_sequence V + 1) ct) else oget V u'.
Proof.
  intros Hok Hu Hct Hw' Hk Hd Ha. cbv zeta. set (n := journal_appended_sequence V) in *. set (d := Journal.j_durable_sequence j') in *.
  pose proof (ok_geometry _ _ (vk_store _ _ _ Hok)) as Hg. pose proof (vk_room _ _ _ Hok) as Hroom.
  pose proof (overlay_mono _ _ _ n d _ (vk_overlay _ _ _ Hok) (Z.le_refl _) ltac:(lia)) as Ho.
  destruct (overlay_promote _ n d _ d Hg Hroom Ho (Z.le_refl _)) as (Ho1 & Hs1 & Hb1).
  pose proof (overlay_publish _ n d _ u ct Hg Hroom Ho1 ltac:(lia) Hu Hct) as Ho2.
  destruct (overlay_promote _ (n + 1) d _ d Hg Hroom Ho2 (Z.le_refl _)) as (Ho3 & Hs3 & Hb3).
  set (o' := Overlay.promote d (Overlay.publish u (n + 1) ct (Overlay.promote d (vo_overlay V)))) in *.
  assert (∀ u', Overlay.get o' u' =
    if decide (u' = u) then Some (Overlay.mkVersion (n + 1) ct) else oget V u') as Hget.
  { intros u'. rewrite (same_latest_get _ _ u' Hs3), Overlay.publish_get. case_decide; [done|]. by apply same_latest_get. }
  rewrite Overlay.publish_boundary in Hb3. pose proof Hok as [Hwr Hst Hge _ _ Hc Hck Hap _].
  pose proof (oo_boundary _ _ _ _ (vk_overlay _ _ _ Hok)) as Hbd.
  assert (volume_ok L' (set_journal j' V) w') as Hokj.
  { eapply ok_journal; [done|done|done|lia|fold n; lia]. }
  split; [|split].
  - destruct Hokj as [Hw1 Hs1' Hg1 Hr1 _ Hc1 Hk1 Ha1 Hm1].
    split; [exact Hw1|exact Hs1'|exact Hg1|exact Hr1| | |exact Hk1| |exact Hm1].
    + change (overlay_ok (vgeom V) (Journal.j_appended_sequence j') d o'). rewrite Ha. exact Ho3.
    + change (0 ≤ checkpoint_sequence V ≤ Overlay.durable_boundary o'). lia.
    + change (∀ u' v, Overlay.get o' u' = Some v → Overlay.sequence v ≤ checkpoint_sequence V → in_slot (vo_store V) w' u' v).
      intros u' v. rewrite Hget. case_decide as Hd'; [|by apply Ha1]. intros [= <-]. simpl. lia.
  - split; [done|done|by intros ? []|by apply undisturbed_keeps, data_keeps|..].
    + change (∀ u', Overlay.get o' u' = oget V u' ∨ ∃ v, Overlay.get o' u' = Some v ∧ n < Overlay.sequence v).
      intros u'. rewrite Hget. case_decide; [|by left]. right. eexists. split; [done|]. simpl. lia.
    + change (boundary V ≤ Overlay.durable_boundary o'). lia.
    + change (journal_durable_sequence V ≤ d). lia.
    + change (n ≤ Journal.j_appended_sequence j'). lia.
  - exact Hget.
Qed.

Lemma geometry_payload g (ct : bytes) : geometry_wf g → blen ct ≤ max_ciphertext_size g → blen ct ≤ MAX_PAYLOAD.
Proof. intros Hg Hl. pose proof (gwf_ct g Hg). lia. Qed.

Lemma append_publish_ok L V w u ct fua r V' w' :
  volume_ok L V w → device (vo_store V) u → blen ct ≤ max_ciphertext_size (vgeom V) →
  append_and_publish u ct fua (V, w) = (r, (V', w')) →
  ∃ L', volume_ok L' V' w' ∧ later none V w V' w' ∧ published V V' u ct r.
Proof.
  intros Hok Hu Hct Hr. pose proof (ok_geometry _ _ (vk_store _ _ _ Hok)) as Hg. unfold append_and_publish in Hr.
  apply m_bind_inv in Hr as [(ap & [V1 w1] & (ap0 & Hap & [= ->])%m_try_inv & Hr)|(e & (? & _ & [=])%m_try_inv & _)].
  apply on_journal_inv in Hap as (j1 & Hap & ->).
  destruct (append_ok _ _ _ _ _ _ _ _ (vk_writer _ _ _ Hok) (unit_u64 _ u Hg Hu) (geometry_payload _ _ Hg Hct) Hap)
    as (L1 & [Hw1 _ _ Hlog Hk1 Hd1]).
  apply m_bind_inv in Hr as [([] & [V2 w2] & Hp & Hr)|(e & [=] & _)].
  pose proof (sh_next _ _ (proj1 (vk_writer _ _ _ Hok))) as [Hnx _].
  destruct ap0 as [n|e]; cycle 1.
  { destruct Hlog as [_ Ha1]. assert (volume_ok L1 (set_journal j1 V) w1) as Hok1.
    { eapply ok_journal; [done|done|done|apply Hd1|unfold journal_appended_sequence; lia]. }
    destruct (promote_ok L1 (set_journal j1 V) w1 _ _ _ _ Hok1 (Z.le_refl _) Hp) as (_ & -> & Hok2 & Hl2 & Hg2 & _).
    injection Hr as <- <- <-. exists L1. split; [done|]. split.
    - eapply later_trans; [|exact Hl2]. apply later_journal; [done|apply Hd1|unfold journal_appended_sequence; lia].
    - split; [done|]. left. by rewrite Hg2. }
  destruct Hlog as (-> & _ & Ha1 & _). rewrite Hnx in Hr.
  assert (Journal.j_appended_sequence j1 = journal_appended_sequence V + 1) as Ha1' by done.
  destruct (publish_piece L L1 V w j1 w1 u ct Hok Hu Hct Hw1 Hk1 Hd1 Ha1') as (Hok3 & Hl3 & Hg3).
  injection Hp as <- <-. cbv beta iota zeta delta [m_bind m_lift modify_state fst snd] in Hr.
  unfold promote, modify_state in Hr. cbn [fst snd] in Hr.
  set (V3 := set_overlay (Overlay.promote (Journal.j_durable_sequence j1) _) (set_journal j1 V)) in *.
  change (match m_when fua (fua_barrier (journal_appended_sequence V + 1)) (V3, w1) with
          | (Ok _, w'0) => m_ret (journal_appended_sequence V + 1) w'0
          | (Err e, w'0) => (Err e, w'0) end = (r, (V', w'))) in Hr.
  exists L1. destruct fua; cbn [m_when] in Hr; cycle 1.
  { injection Hr as <- <- <-. split; [done|]. split; [done|]. split; [intros u' Hne; by rewrite Hg3, decide_False|].
    by rewrite Hg3, decide_True. }
  destruct (fua_barrier _ (V3, w1)) as [rf [V4 w4]] eqn:Hf. destruct (fua_ok _ _ _ _ _ _ _ Hok3 Hf) as (Hok4 & Hl4 & Hg4).
  assert (V' = V4 ∧ w' = w4 ∧ r = match rf with Ok _ => Ok (journal_appended_sequence V + 1) | Err e => Err e end) as (-> & -> & ->)
    by (destruct rf; by injection Hr as <- <- <-).
  split; [done|]. split; [by eapply later_trans|]. split; [intros u' Hne; by rewrite Hg4, Hg3, decide_False|].
  rewrite Hg4, Hg3, decide_True by done. destruct rf; [done|by right].
Qed.

(** *** What readers see of them *)

(** Readers see every unit outside [X] as before. *)
Definition same_views X V w V' w' : Prop :=
  ∀ u, device (vo_store V) u → ¬ X u → vol_steady V w u →
    vol_view V' w' u = vol_view V w u ∧ vol_steady V' w' u.

(** Readers see [x] at [u] and everything else as before. *)
Definition updates u (x : SlotRead) V w V' w' : Prop :=
  same_views (λ v, v = u) V w V' w' ∧ vol_view V' w' u = Ok x ∧ vol_steady V' w' u.

Lemma later_same X V w V' w' :
  later X V w V' w' → (∀ u, ¬ X u → oget V' u = oget V u) → same_views X V w V' w'.
Proof. intros Hl Hg u Hu HX Hs. eapply later_view; [exact Hl|done|done|by apply Hg|done]. Qed.

Lemma held_updates V w V' w' u v :
  later none V w V' w' → (∀ u', u' ≠ u → oget V' u' = oget V u') → oget V' u = Some v →
  updates u (as_read (supports_discard V) v) V w V' w'.
Proof.
  intros Hl Hg Hu. split; [|unfold vol_view, vol_steady; rewrite Hu; split; [|done]].
  - intros u' Hu' Hne Hs. eapply later_view; [exact Hl|done|by intros []|by apply Hg|done].
  - unfold supports_discard, Store.supports_discard. by rewrite (ud_enabled _ _ _ _ _ (la_store _ _ _ _ _ Hl)).
Qed.

(** The outcome of a write of [x]: on failure it is shown or nothing
    changed. *)
Definition write_outcome u (x : Z → SlotRead) (next : Z) (r : result CoreError Z) V w V' w' : Prop :=
  match r with
  | Ok n => updates u (x n) V w V' w'
  | Err _ => same_views none V w V' w' ∨ updates u (x next) V w V' w'
  end.

Lemma published_outcome V w V' w' u ct r :
  later none V w V' w' → published V V' u ct r →
  write_outcome u (λ n, as_read (supports_discard V) (Overlay.mkVersion n ct)) (journal_appended_sequence V + 1) r V w V' w'.
Proof.
  intros Hl [Hne Hr]. destruct r as [n|e]; [destruct Hr; by apply held_updates|].
  destruct Hr as [Hr|Hr]; [left|right; by apply held_updates].
  apply later_same; [done|]. intros u' _. destruct (decide (u' = u)) as [->|]; auto.
Qed.

Lemma reserve_range u s w s' w' : reserve_slot u (s, w) = (Ok tt, (s', w')) → u < num_units (st_geometry s).
Proof.
  unfold reserve_slot. intros ([] & [s1 w1] & Hv & _)%m_bind_ok. unfold validate_unit in Hv.
  cbv [m_bind get_state m_err m_ret fst snd] in Hv. by destruct (Z.leb_spec (num_units (st_geometry s)) u).
Qed.

(** A reservation at any unit disturbs nothing. *)
Lemma reserve_piece L V w u r V' w' :
  volume_ok L V w → 0 ≤ u → on_store (reserve_slot u) (V, w) = (r, (V', w')) →
  volume_ok L V' w' ∧ later none V w V' w' ∧ vo_overlay V' = vo_overlay V ∧
  (r = Ok tt → device (vo_store V') u).
Proof.
  intros Hok Hu (s' & Hr & ->)%on_store_inv. pose proof (vk_store _ _ _ Hok) as Hst.
  destruct (sound_reserve_slot u _ _ Hst Hu _ _ _ Hr) as (Hok' & He & _).
  split; [eapply ok_store; [done|done|exact He|by intros ? []]|].
  split; [|split; [done|]].
  - apply later_store; [by intros ? []|]. by eapply undisturbed_evolves.
  - intros ->. pose proof (reserve_range _ _ _ _ _ Hr). unfold device. simpl. rewrite (ev_geometry _ _ _ _ _ _ He). lia.
Qed.

(** What a piece without effect on the overlay leaves of an outcome. *)
Lemma published_before V V1 V' u ct r :
  (∀ v, oget V1 v = oget V v) → journal_appended_sequence V1 = journal_appended_sequence V →
  published V1 V' u ct r → published V V' u ct r.
Proof.
  intros Hg Ha [Hne Hr]. split; [intros u' Hu'; by rewrite Hne, Hg|]. rewrite Hg, Ha in Hr. by destruct r.
Qed.

Lemma published_refused V V' u ct e : (∀ v, oget V' v = oget V v) → published V V' u ct (Err e).
Proof. intros Hg. split; [auto|]. by left. Qed.

Lemma write_ct_ok L V w u ct fua r V' w' :
  volume_ok L V w → 0 ≤ u → write_ct u ct fua (V, w) = (r, (V', w')) →
  ∃ L', volume_ok L' V' w' ∧ later none V w V' w' ∧ published V V' u ct r ∧ (device (vo_store V) u ∨ is_ok r = false ∧ ∀ x, oget V' x = oget V x).
Proof.
  intros Hok Hu Hr. unfold write_ct in Hr.
  apply m_bind_inv in Hr as [([] & [V1 w1] & Hf & Hr)|(e & Hf & ->)];
    destruct (freshness_ok _ _ _ _ _ _ Hok Hf) as (-> & Hok1 & Hl1 & _).
  2: { exists L. split; [done|]. split; [done|]. split; [by apply published_refused|by right]. }
  apply m_bind_inv in Hr as [(? & [? ?] & [= <- <- <-] & Hr)|(e & [=] & _)].
  apply m_bind_inv in Hr as [([] & [? ?] & [= _ <- <-] & Hr)|(e & [= _ <- <-] & ->)].
  2: { exists L. split; [done|]. split; [done|]. split; [by apply published_refused|by right]. }
  destruct (Z.ltb_spec (max_ciphertext_size (Superblock.geometry (vo_superblock V))) (blen ct)) as [|Hct].
  { injection Hr as <- <- <-. exists L. split; [done|]. split; [done|]. split; [by apply published_refused|by right]. }
  rewrite (vk_geometry _ _ _ Hok) in Hct.
  apply m_bind_inv in Hr as [([] & [V2 w2] & Hs & Hr)|(e & Hs & ->)];
    destruct (reserve_piece _ _ _ _ _ _ _ Hok1 Hu Hs) as (Hok2 & Hl2 & Ho2 & Hdev);
    pose proof (later_trans _ _ _ _ _ _ _ Hl1 Hl2) as Hl12.
  2: { exists L. split; [done|]. split; [done|]. split; [apply published_refused|right; split; [done|]]; intros v; by rewrite Ho2. }
  pose proof (ud_geometry _ _ _ _ _ (la_store _ _ _ _ _ Hl2)) as Hg2. specialize (Hdev eq_refl).
  destruct (append_publish_ok L V2 w2 u ct fua r V' w' Hok2 Hdev) as (L' & Hok' & Hl' & Hp); [unfold vgeom in *; by rewrite Hg2|done|].
  exists L'. split; [done|]. split; [by eapply later_trans|]. split.
  - eapply published_before; [|  |exact Hp].
    + intros v. by rewrite Ho2.
    + apply on_store_inv in Hs as (s' & _ & ->). done.
  - left. unfold device in *. by rewrite <- Hg2.
Qed.

(** ** Barriers *)

Lemma flush_ok L V w r V' w' :
  volume_ok L V w → flush (V, w) = (r, (V', w')) →
  volume_ok L V' w' ∧ later none V w V' w' ∧ (∀ u, oget V' u = oget V u) ∧
  (r = Ok tt → boundary V' = journal_durable_sequence V' ∧ journal_durable_sequence V' = journal_appended_sequence V).
Proof.
  intros Hok Hr. unfold flush in Hr.
  apply m_bind_inv in Hr as [([] & [V1 w1] & Hf & Hr)|(e & Hf & ->)];
    destruct (freshness_ok _ _ _ _ _ _ Hok Hf) as (-> & Hok1 & Hl1 & _); [|done].
  apply m_bind_inv in Hr as [(d & [V2 w2] & Hs & Hr)|(e & Hs & ->)];
    destruct (sync_piece _ _ _ _ _ _ Hok1 Hs) as (Hok2 & Hl2 & Ho2 & Hd);
    pose proof (later_trans _ _ _ _ _ _ _ Hl1 Hl2) as Hl12.
  2: { split; [done|]. split; [done|]. split; [|done]. intros u. by rewrite Ho2. }
  destruct (Hd d eq_refl) as [Hdu ->].
  destruct (promote_ok L V2 w2 r V' w' (journal_appended_sequence V) Hok2 ltac:(rewrite Hdu; reflexivity) Hr) as (_ & -> & Hok3 & Hl3 & Hg3 & Hj3 & Hb3).
  split; [done|]. split; [by eapply later_trans|]. split; [intros u; by rewrite Hg3, Ho2|].
  intros _. unfold journal_durable_sequence in *. rewrite Hj3. split; [|done]. rewrite Hb3.
  pose proof (oo_boundary _ _ _ _ (vk_overlay _ _ _ Hok2)) as Hbd. unfold journal_durable_sequence in *. lia.
Qed.

(** A barrier that succeeded covers everything appended. *)
Lemma flush_covers L V w V' w' :
  volume_ok L V w → flush (V, w) = (Ok tt, (V', w')) → journal_appended_sequence V' ≤ journal_durable_sequence V'.
Proof.
  intros Hok Hr. destruct (flush_ok _ _ _ _ _ _ Hok Hr) as (_ & _ & _ & Hd). destruct (Hd eq_refl) as [_ ->].
  unfold flush in Hr. apply m_bind_ok in Hr as ([] & [V1 w1] & Hf & Hr).
  destruct (freshness_ok _ _ _ _ _ _ Hok Hf) as (-> & Hok1 & _).
  apply m_bind_ok in Hr as (d & [V2 w2] & Hs & Hr). pose proof (sync_appended _ _ _ _ _ _ Hok1 Hs) as Ha.
  injection Hr as <- _. unfold journal_appended_sequence in *. cbn. lia.
Qed.

(** ** Reads *)

(** The sequence in a slot's header. *)
Definition slot_seen (s : SlotStore (F := F)) w u : result CoreError (option Z) :=
  let '(idx, k) := shard_of_unit (st_geometry s) u in
  match st_shards s !! idx with
  | None => Ok None
  | Some sh => match header_view (st_geometry s) u k sh (content w idx) with
               | Ok h => Ok (Slot.write_sequence <$> h)
               | Err e => Err e
               end
  end.

Lemma slot_seen_keeps s w w' u : keeps (λ _, True) w w' → slot_seen s w' u = slot_seen s w u.
Proof.
  intros Hk. unfold slot_seen. destruct (shard_of_unit _ _) as [idx k]. by rewrite (keeps_content _ _ idx Hk).
Qed.

Lemma slot_seen_zero s w u : slot_seen s w u = Ok None → view s w u = Ok SlotZero.
Proof.
  unfold slot_seen, view. destruct (shard_of_unit _ _) as [idx k]. destruct (st_shards s !! idx) as [sh|]; [|done].
  unfold header_view, shard_view. destruct (is_discarded sh k); [done|]. destruct (_ && _); [done|].
  destruct (header_at _ _ _ _) as [h|]; [|done]. by destruct (_ || _).
Qed.

(** The sequence of what a unit shows. *)
Definition found_sequence (x : SlotRead) : option Z :=
  match x with SlotZero => None | SlotCiphertext n _ => Some n end.

Lemma slot_seen_view s w u x : view s w u = Ok x → slot_seen s w u = Ok (found_sequence x).
Proof.
  unfold slot_seen, view. destruct (shard_of_unit _ _) as [idx k]. destruct (st_shards s !! idx) as [sh|]; [|by intros [= <-]].
  unfold header_view, shard_view, version_at. destruct (is_discarded sh k); [by intros [= <-]|].
  destruct (_ && untouched _ _ _ _); [by intros [= <-]|]. destruct (header_at _ _ _ _) as [h|]; [|done]. cbn.
  destruct (read_range _ _ _); [|done]. cbn. destruct (_ =? _); [|done].
  destruct (bit (alloc sh) k || _); [|done]. by intros [= <-].
Qed.

Lemma sequence_reads s w u : store_ok s w → device s u → reads (slot_sequence s u) w (slot_seen s w u).
Proof.
  intros Hok Hu. unfold slot_seen, slot_sequence. destruct (shard_of_unit (st_geometry s) u) as [idx k] eqn:Hsu.
  destruct (st_shards s !! idx) as [sh|] eqn:Hs.
  - pose proof (reads_slot_header s w u idx k sh Hok Hu Hsu Hs) as Hh.
    destruct (header_view _ _ _ _ _) as [h|e]; [|by apply reads_then_err]. eapply reads_then; [exact Hh|].
    intros w1 Hk. apply reads_lift. by eapply keeps_inv.
  - unfold slot_header. rewrite Hsu, Hs. intros r w' [= <- <-]. split; [eapply keeps_refl, ok_inv; done|]. auto.
Qed.

(** The reading operations of the volume: what they see, unless the storage
    reports an error, with nothing changed. *)
Definition vreads {A} (m : M (Volume * W) CoreError A) V w (v : result CoreError A) : Prop :=
  ∀ r V' w', m (V, w) = (r, (V', w')) →
    V' = V ∧ keeps (λ _, True) w w' ∧ (r = v ∨ ∃ e, r = Err (CoreIo e)) ∧ (quiet w → r = v).

Definition as_found (x : SlotRead) : option (Z * bytes) :=
  match x with SlotZero => None | SlotCiphertext q c => Some (q, c) end.

Lemma vreads_ret {A} (a : A) V w : inv w → vreads (m_ret a) V w (Ok a).
Proof. intros Hi r V' w' [= <- <- <-]. split; [done|]. split; [by apply keeps_refl|]. auto. Qed.

Lemma vreads_world {A} (m : M W CoreError A) V w v : reads m w v → vreads (on_world m) V w v.
Proof. intros Hm r V' w' [-> Hr]%on_world_inv. split; [done|]. by apply Hm. Qed.

Lemma vreads_then {A B} (m : M (Volume * W) CoreError A) (k : A → M (Volume * W) CoreError B) V w v (x : A → result CoreError B) :
  vreads m V w v → (∀ a w', v = Ok a → keeps (λ _, True) w w' → vreads (k a) V w' (x a)) →
  vreads (m_bind m k) V w (match v with Ok a => x a | Err e => Err e end).
Proof.
  intros Hm Hk r V' w' Hr. apply m_bind_inv in Hr as [(a & [V1 w1] & Ha & Hr)|(e & Ha & ->)];
    destruct (Hm _ _ _ Ha) as (-> & Hk1 & Hv & Hq).
  - assert (v = Ok a) as -> by (destruct Hv as [->|[e [=]]]; done).
    destruct (Hk a w1 eq_refl Hk1 _ _ _ Hr) as (-> & Hk2 & Hv2 & Hq2). split; [done|]. split; [by eapply keeps_trans|].
    split; [done|]. intros Hqw. apply Hq2. by eapply keeps_quiet.
  - split; [done|]. split; [done|]. split; [|intros Hqw; by rewrite <- (Hq Hqw)].
    destruct Hv as [<-|[e' He]]; [by left|right]. exists e'. by injection He as ->.
Qed.

Lemma vreads_state {A} (k : Volume → M (Volume * W) CoreError A) V w v :
  vreads (k V) V w v → vreads (m_bind get_state k) V w v.
Proof. intros Hk. exact Hk. Qed.

Lemma vreads_fresh {A} (k : unit → M (Volume * W) CoreError A) V w v :
  inv w → (∀ w', keeps (λ _, True) w w' → vreads (k tt) V w' v) → vreads (m_bind check_freshness k) V w v.
Proof.
  intros Hi Hk r V' w' Hr. apply m_bind_inv in Hr as [([] & [V1 w1] & Ha & Hr)|(e & Ha & ->)];
    apply on_world_inv in Ha as [-> (r1 & Ha & Hr1)%m_map_err_inv];
    destruct (law_check_freshness _ _ _ Hi Ha) as [Hk1 Hq1].
  - destruct (Hk w1 Hk1 _ _ _ Hr) as (-> & Hk2 & Hv & Hq). split; [done|]. split; [by eapply keeps_trans|]. split; [done|].
    intros Hqw. apply Hq. by eapply keeps_quiet.
  - destruct r1 as [|e1]; [done|]. split; [done|]. split; [done|]. split; [right; exists e1; by injection Hr1 as ->|].
    intros Hqw. by specialize (Hq1 Hqw).
Qed.

Lemma vol_view_keeps V w w' u : keeps (λ _, True) w w' → vol_view V w' u = vol_view V w u.
Proof.
  intros Hk. unfold vol_view. destruct (oget V u); [done|]. unfold view. destruct (shard_of_unit _ _) as [idx k].
  by rewrite (keeps_content _ _ idx Hk).
Qed.

Lemma read_ct_reads L V w u :
  volume_ok L V w → device (vo_store V) u →
  vreads (read_ct u) V w (match vol_view V w u with Ok x => Ok (as_found x) | Err e => Err e end).
Proof.
  intros Hok Hu. pose proof (ok_inv _ _ (vk_store _ _ _ Hok)) as Hi. apply vreads_fresh; [done|]. intros w1 Hk.
  apply vreads_state. rewrite <- (vol_view_keeps V w w1 u Hk). pose proof (keeps_inv _ _ _ Hk) as Hi1.
  assert (store_ok (vo_store V) w1) as Hs1 by (eapply store_ok_keeps, vk_store; [by apply keeps_all|done]).
  unfold vol_view. destruct (oget V u) as [v|].
  - unfold as_read. destruct (supports_discard V && is_empty_version v); by apply vreads_ret.
  - apply vreads_then; [by apply vreads_world, reads_read_slot|].
    intros [|q c] w2 _ Hk2; (apply vreads_ret; by eapply keeps_inv).
Qed.

Definition vol_seen V w u : result CoreError (option Z) :=
  match oget V u with
  | Some v => Ok (if supports_discard V && is_empty_version v then None else Some (Overlay.sequence v))
  | None => slot_seen (vo_store V) w u
  end.

Lemma current_sequence_reads L V w u :
  volume_ok L V w → device (vo_store V) u → vreads (current_sequence u) V w (vol_seen V w u).
Proof.
  intros Hok Hu. pose proof (ok_inv _ _ (vk_store _ _ _ Hok)) as Hi. unfold vol_seen.
  apply vreads_fresh; [done|]. intros w1 Hk. apply vreads_state. pose proof (keeps_inv _ _ _ Hk).
  destruct (oget V u) as [v|] eqn:Hg; [destruct (_ && _); by apply vreads_ret|]. apply vreads_world.
  rewrite <- (slot_seen_keeps _ _ _ u Hk). apply sequence_reads; [|done].
  eapply store_ok_keeps, vk_store; [by apply keeps_all|done].
Qed.

Lemma vol_seen_view V w u x : vol_view V w u = Ok x → vol_seen V w u = Ok (found_sequence x).
Proof.
  unfold vol_view, vol_seen, as_read. destruct (oget V u) as [v|]; [|apply slot_seen_view].
  by destruct (_ && _); intros [= <-].
Qed.

(** ** Discards *)

Lemma set_discarded_refused u b (s : SlotStore (F := F)) w e st :
  set_discarded u b (s, w) = (Err e, st) → st = (s, w).
Proof.
  unfold set_discarded. cbv beta iota delta [m_bind get_state m_lift m_err]. cbn [fst].
  destruct (negb (st_discard_enabled s)); [by intros [= _ <-]|].
  destruct (shard_of_unit (st_geometry s) u) as [idx k]. destruct (st_shards s !! idx) as [sh|]; cbn [ok_or]; [|by intros [= _ <-]].
  destruct (discard sh); cbn [ok_or]; [by destruct (negb _)|by intros [= _ <-]].
Qed.

Lemma reclaim_refused u (s : SlotStore (F := F)) w e s' w' :
  Store.reclaim_unwritten u (s, w) = (Err e, (s', w')) → s' = s ∧ w' = w.
Proof.
  unfold Store.reclaim_unwritten. intros Hr. cbv beta iota delta [m_bind get_state] in Hr. cbn [fst] in Hr.
  destruct (shard_of_unit (st_geometry s) u) as [idx k]. destruct (st_shards s !! idx) as [sh|]; [|done].
  destruct (set_discarded u true (s, w)) as [[[]|e1] x] eqn:Hd; [done|]. injection Hr as -> ->.
  apply set_discarded_refused in Hd. by injection Hd as -> ->.
Qed.

(** A unit that shows zeros is marked as discarded: readers see nothing of
    it. *)
Lemma reclaim_unwritten_ok L V w u r V' w' :
  volume_ok L V w → device (vo_store V) u → reclaim_unwritten u (V, w) = (r, (V', w')) →
  ∃ X, volume_ok L V' w' ∧ later X V w V' w' ∧ vo_overlay V' = vo_overlay V ∧ vo_journal V' = vo_journal V ∧
    same_views none V w V' w' ∧
    (r = Ok true → supports_discard V = true → vol_view V' w' u = Ok SlotZero ∧ vol_steady V' w' u).
Proof.
  intros Hok Hu Hr. unfold reclaim_unwritten in Hr.
  apply m_bind_inv in Hr as [([] & [V1 w1] & Hf & Hr)|(e & Hf & ->)];
    destruct (freshness_ok _ _ _ _ _ _ Hok Hf) as (-> & Hok1 & Hl1 & Hk1);
    pose proof (later_same _ _ _ _ _ Hl1 (λ _ _, eq_refl)) as Hs1; [|by exists none].
  apply m_bind_inv in Hr as [(? & [? ?] & [= <- <- <-] & Hr)|(e & [=] & _)]. cbn [fst] in Hr.
  destruct (oget V u) as [v|] eqn:Hg.
  { injection Hr as <- <- <-. exists none. do 5 (split; [done|]). intros [= Hv] Hd. unfold vol_view, vol_steady.
    rewrite Hg. unfold as_read. rewrite Hd, Hv. done. }
  apply m_bind_inv in Hr as [(f & [V2 w2] & (f0 & Hs & [= ->])%m_try_inv & Hr)|(e & (? & _ & [=])%m_try_inv & _)].
  destruct (vreads_world _ V w1 _ (sequence_reads _ _ _ (vk_store _ _ _ Hok1) Hu) _ _ _ Hs) as (-> & Hk2 & Hv & _).
  pose proof (keeps_trans _ _ _ _ Hk1 Hk2) as Hk. clear Hs1 Hl1 Hs.
  assert (volume_ok L V w2) as Hok2 by (eapply ok_world; [exact Hok|by apply keeps_all]).
  assert (later none V w V w2) as Hl by (apply later_world; by apply keeps_all).
  pose proof (later_same _ _ _ _ _ Hl (λ _ _, eq_refl)) as Hs2.
  assert (∀ b, (Ok b, (V, w2)) = (r, (V', w')) → b = false → ∃ X, volume_ok L V' w' ∧ later X V w V' w' ∧
    vo_overlay V' = vo_overlay V ∧ vo_journal V' = vo_journal V ∧ same_views none V w V' w' ∧
    (r = Ok true → supports_discard V = true → vol_view V' w' u = Ok SlotZero ∧ vol_steady V' w' u)) as Hno.
  { intros b [= <- <- <-] ->. by exists none. }
  destruct f0 as [[q|]|e]; [by apply (Hno false)| |by apply (Hno false)]. clear Hno.
  assert (view (vo_store V) w2 u = Ok SlotZero) as Hz.
  { apply slot_seen_zero. rewrite (slot_seen_keeps _ _ _ u Hk2). by destruct Hv as [<-|[e [=]]]. }
  apply m_bind_inv in Hr as [([] & [V3 w3] & Hs & [= <- <- <-])|(e & Hs & ->)]; apply on_store_inv in Hs as (s' & Hs & ->).
  2: { destruct (reclaim_refused _ _ _ _ _ _ Hs) as [-> ->]. exists none.
       assert (set_store (vo_store V) V = V) as -> by (by destruct V). do 5 (split; [done|]). done. }
  destruct (sound_reclaim_unwritten u _ _ (vk_store _ _ _ Hok2) (proj1 Hu) _ _ _ Hs) as (Hst & He & HQ).
  destruct (HQ tt eq_refl) as [-> Hd]. clear HQ.
  pose proof (undisturbed_evolves _ _ _ _ _ _ (vk_store _ _ _ Hok2) Hst He) as Hud.
  assert (∀ x, x = u → oget V x = None) as HX by (by intros ? ->).
  pose proof (later_store _ _ _ _ _ HX Hud) as Hl3.
  assert (view s' w2 u = Ok SlotZero ∧ steady s' w2 u) as [Hz' Hst'].
  { pose proof (ud_geometry _ _ _ _ _ Hud) as Hg'. unfold view, steady, unit_discarded, settled in *. rewrite Hg' in *.
    destruct (shard_of_unit (st_geometry (vo_store V)) u) as [idx k]. cbn [fst snd] in *.
    destruct (st_shards s' !! idx) as [sh|]; [|split; [done|by left]]. unfold shard_view.
    rewrite (Hd _ eq_refl). split; [done|]. by right; left. }
  exists (λ x, x = u). split; [eapply ok_store; [exact Hok2|exact Hst|exact He|exact HX]|].
  split.
  { split; try apply Hl3. eapply undisturbed_trans; [|exact Hud]. eapply undisturbed_weaken; [|apply Hl]. by intros ? []. }
  do 2 (split; [done|]). split.
  - intros x Hx _ Hsx. destruct (Hs2 x Hx (λ f, f) Hsx) as [<- Hs2x]. destruct (decide (x = u)) as [->|Hne].
    + unfold vol_view, vol_steady. simpl. rewrite Hg, Hz, Hz'. done.
    + eapply later_view; [exact Hl3|done|exact Hne|done|done].
  - intros _ _. unfold vol_view, vol_steady. simpl. by rewrite Hg.
Qed.

Lemma later_device X V w V' w' u : later X V w V' w' → device (vo_store V') u ↔ device (vo_store V) u.
Proof. intros Hl. unfold device. by rewrite (ud_geometry _ _ _ _ _ (la_store _ _ _ _ _ Hl)). Qed.

Lemma same_trans X Y V w V1 w1 V2 w2 :
  later Y V w V1 w1 → same_views none V w V1 w1 → same_views X V1 w1 V2 w2 → same_views X V w V2 w2.
Proof.
  intros Hl H1' H2' u Hu HX Hs. destruct (H1' u Hu (λ f, f) Hs) as [<- Hs1].
  apply H2'; [by apply (later_device _ _ _ _ _ _ Hl)|done|done].
Qed.

Lemma same_updates Y V w V1 w1 u x V2 w2 :
  later Y V w V1 w1 → same_views none V w V1 w1 → updates u x V1 w1 V2 w2 → updates u x V w V2 w2.
Proof. intros Hl H1' [H2' Hv]. split; [by eapply same_trans|done]. Qed.

(** On failure the discard is shown or nothing changed. *)
Definition discard_outcome u (r : result CoreError Z) V w V' w' : Prop :=
  match r with
  | Ok _ => updates u SlotZero V w V' w'
  | Err _ => same_views none V w V' w' ∨ updates u SlotZero V w V' w'
  end.

Lemma same_outcome Y V w V1 w1 u r V2 w2 :
  later Y V w V1 w1 → same_views none V w V1 w1 → discard_outcome u r V1 w1 V2 w2 → discard_outcome u r V w V2 w2.
Proof.
  intros Hl Hs. destruct r; cbn; [by eapply same_updates|]. intros [Ho|Ho]; [left; by eapply same_trans|right; by eapply same_updates].
Qed.

Lemma tombstone_ok L V w u fua r V' w' :
  volume_ok L V w → device (vo_store V) u → supports_discard V = true → append_tombstone u fua (V, w) = (r, (V', w')) →
  ∃ L', volume_ok L' V' w' ∧ later none V w V' w' ∧ discard_outcome u r V w V' w'.
Proof.
  intros Hok Hu Hd Hr. unfold append_tombstone in Hr.
  apply m_bind_inv in Hr as [(? & [? ?] & [= <- <- <-] & Hr)|(e & [=] & _)]. cbn [fst] in Hr.
  destruct (_ =? _).
  { injection Hr as <- <- <-. exists L. split; [done|]. split; [by apply later_refl|]. left. by intros x _ _. }
  pose proof (ok_geometry _ _ (vk_store _ _ _ Hok)) as Hg.
  destruct (append_publish_ok L V w u [] fua r V' w' Hok Hu) as (L' & Hok' & Hl & Hp); [|done|].
  { pose proof (gwf_ct _ Hg). unfold vgeom, blen. simpl. pose proof (gwf_unit _ Hg). pose proof (gwf_block _ Hg). lia. }
  exists L'. split; [done|]. split; [done|]. pose proof (published_outcome _ _ _ _ _ _ _ Hl Hp) as Ho.
  unfold write_outcome, discard_outcome, as_read in *. rewrite Hd in Ho. by destruct r.
Qed.

(** The volume after a barrier that promotes. *)
Lemma tombstone_barrier_ok L V w n r V' w' :
  volume_ok L V w → tombstone_barrier n (V, w) = (r, (V', w')) →
  volume_ok L V' w' ∧ later none V w V' w' ∧ ∀ u, oget V' u = oget V u.
Proof.
  intros Hok Hr. unfold tombstone_barrier in Hr.
  apply m_bind_inv in Hr as [(d & [V2 w2] & Hs & Hr)|(e & Hs & ->)];
    destruct (sync_piece _ _ _ _ _ _ Hok Hs) as (Hok2 & Hl2 & Ho2 & Hd).
  2: { split; [done|]. split; [done|]. intros u. by rewrite Ho2. }
  destruct (Hd d eq_refl) as [Hdu _].
  apply m_bind_inv in Hr as [([] & [V3 w3] & Hp & Hr)|(e & [=] & _)].
  destruct (promote_ok L V2 w2 _ V3 w3 d Hok2 ltac:(rewrite Hdu; reflexivity) Hp) as (_ & -> & Hok3 & Hl3 & Hg3 & _ & _).
  assert (V' = V3 ∧ w' = w2) as [-> ->] by (destruct (d <? n); by injection Hr as _ <- <-).
  split; [done|]. split; [by eapply later_trans|]. intros u. by rewrite Hg3, Ho2.
Qed.

Lemma discard_ct_ok L V w u fua r V' w' :
  volume_ok L V w → 0 ≤ u → discard_ct u fua (V, w) = (r, (V', w')) →
  ∃ L' X, volume_ok L' V' w' ∧ later X V w V' w' ∧ discard_outcome u r V w V' w' ∧
    (device (vo_store V) u ∧ supports_discard V = true ∨ is_ok r = false ∧ same_views none V w V' w').
Proof.
  intros Hok Hu0 Hr. unfold discard_ct in Hr.
  apply m_bind_inv in Hr as [([] & [V1 w1] & Hf & Hr)|(e & Hf & ->)];
    destruct (freshness_ok _ _ _ _ _ _ Hok Hf) as (-> & Hok1 & Hl1 & _);
    pose proof (later_same _ _ _ _ _ Hl1 (λ _ _, eq_refl)) as Hs1.
  2: { exists L, none. split; [done|]. split; [done|]. split; [by left|by right]. }
  apply m_bind_inv in Hr as [(? & [? ?] & [= <- <- <-] & Hr)|(e & [=] & _)]. cbn [fst] in Hr.
  destruct (supports_discard V) eqn:Hd; cbn [negb] in Hr; cycle 1.
  { injection Hr as <- <- <-. exists L, none. split; [done|]. split; [done|]. split; [by left|by right]. }
  rewrite (vk_geometry _ _ _ Hok) in Hr. destruct (Z.leb_spec (num_units (vgeom V)) u) as [|Hu].
  { injection Hr as <- <- <-. exists L, none. split; [done|]. split; [done|]. split; [by left|by right]. }
  assert (device (vo_store V) u) as Hdev by (split; [done|exact Hu]).
  cut (∃ L' X, volume_ok L' V' w' ∧ later X V w1 V' w' ∧ discard_outcome u r V w1 V' w').
  { intros (L' & X & Hok' & Hl & Ho). exists L', X. split; [done|]. split.
    - split; try apply Hl. eapply undisturbed_trans; [|apply Hl]. eapply undisturbed_weaken; [|apply Hl1]. by intros ? [].
    - split; [by eapply same_outcome|by left]. }
  clear Hs1 Hl1 Hf Hok. destruct (oget V u) as [v|] eqn:Hg.
  - destruct (is_empty_version v) eqn:Hv; cycle 1.
    { destruct (tombstone_ok _ _ _ _ _ _ _ _ Hok1 Hdev Hd Hr) as (L' & ?). exists L', none. tauto. }
    assert (∃ rb, m_when fua (tombstone_barrier (Overlay.sequence v)) (V, w1) = (rb, (V', w')) ∧ (is_ok r = is_ok rb)) as (rb & Hb & Hrb).
    { destruct (m_when _ _ _) as [[[]|e] [V2 w2]] eqn:Hb; unfold m_bind in Hr; rewrite Hb in Hr; injection Hr as <- <- <-; eauto. }
    assert (volume_ok L V' w' ∧ later none V w1 V' w' ∧ ∀ x, oget V' x = oget V x) as (Hok' & Hl & Hget).
    { destruct fua; [by eapply tombstone_barrier_ok|]. injection Hb as <- <- <-. split; [done|]. split; [by apply later_refl|done]. }
    exists L, none. split; [done|]. split; [done|].
    assert (updates u SlotZero V w1 V' w') as Hup.
    { replace SlotZero with (as_read (supports_discard V) v) by (unfold as_read; by rewrite Hd, Hv).
      apply held_updates; [done|auto|by rewrite Hget]. }
    destruct r; [done|by right].
  - apply m_bind_inv in Hr as [(b & [V2 w2] & Hre & Hr)|(e & Hre & ->)];
      destruct (reclaim_unwritten_ok _ _ _ _ _ _ _ Hok1 Hdev Hre) as (X & Hok2 & Hl2 & Ho2 & Hj2 & Hs2 & Hz2).
    2: { exists L, X. split; [done|]. split; [done|]. by left. }
    destruct b.
    + injection Hr as <- <- <-. exists L, X. split; [done|]. split; [done|]. destruct (Hz2 eq_refl Hd). split; [|done].
      intros x Hx _ Hsx. exact (Hs2 x Hx (λ f, f) Hsx).
    + assert (supports_discard V2 = true) as Hd2.
      { unfold supports_discard, Store.supports_discard in *. by rewrite (ud_enabled _ _ _ _ _ (la_store _ _ _ _ _ Hl2)). }
      destruct (tombstone_ok L V2 w2 u fua r V' w' Hok2) as (L' & Hok' & Hl' & Ho'); [by apply (later_device _ _ _ _ _ _ Hl2)|done|done|].
      exists L', X. split; [done|]. split; [by eapply later_trans|]. by eapply same_outcome.
Qed.
End Ops.
