(* ===== verification/VolumeCheckpoint.v ===== *)
(** * VolumeCheckpoint: what checkpoints do to the volume

    A checkpoint plan stays live while other operations run beside it: the
    overlay keeps the versions the plan writes, or newer ones.  Executing and
    finishing a live plan preserves the volume's invariant and changes
    nothing a reader sees, whatever fails on the way. *)

From S2P Require Import Prelude BTreeMap Codec Layout Geometry AbRecord Metadata Superblock JournalFormat Backing AbStore FixedCopy DurableProof JournalWriter JournalProof JournalDurability RecoveryScan Volumes JournalScan SlotStore Recovery StoreData StoreProof StoreReads StoreOpen StoreRuns Overlay Volume VolumeState VolumeOps.
Import Store Volume.
Import (hints) Metadata.Catalog Metadata.Allocation Metadata.Checkpoint.

Local Open Scope Z_scope.

Section Checkpoint.
Context `{Crc32} `{BackingLaws W F} `{HasherLaws HT} `{HashOrder}.
Abbreviation Volume := (Volume (F := F) (HT := HT)).
Implicit Types (V : Volume) (w : W) (u : Z) (L : Z → list JournalRecord) (X : Z → Prop).
Implicit Types (p : PreparedCheckpoint (F := F)) (v : Overlay.OverlayVersion) (its : list (Z * Overlay.OverlayVersion)).
Local Abbreviation oget V u := (Overlay.get (vo_overlay V) u).
Local Abbreviation boundary V := (Overlay.durable_boundary (vo_overlay V)).

(** ** Writing a version again *)

Lemma rewrite_piece f idx o bs w r w' :
  inv w → handle w f (shard_data idx) → 0 ≤ o → holds_at (Z.to_nat o) bs (content w idx) → (bs = [] → o ≤ blen (content w idx)) →
  f_write_at f o bs w = (r, w') → content w' idx = content w idx.
Proof.
  intros Hi Hh Ho Hb He Hr. destruct (law_handle _ _ _ Hh) as [c Hc].
  destruct (proj1 (law_dirty_vis w (shard_data idx)) ltac:(by eexists)) as [d Hd].
  destruct (law_torn_write _ _ _ _ _ _ _ _ _ Hi Hh Hc Hd Ho Hr) as (c' & d' & Hc' & _ & Hsame & _).
  rewrite (content_some _ _ _ Hc) in *. rewrite (content_some _ _ _ Hc'). apply Hsame.
  apply read_range_holds; [done|apply blen_nonneg|]. split; [done|]. split; [|done].
  pose proof (holds_at_length _ _ _ Hb) as Hl. unfold blen in *. destruct bs; [specialize (He eq_refl)|]; simpl in *; lia.
Qed.

Lemma rewrite_version f idx o u seq ct w r w' :
  inv w → handle w f (shard_data idx) → 0 ≤ o → add64 o 64 = o + 64 → o + 64 ≤ U64_MAX →
  holds_at (Z.to_nat o) (version u seq ct) (content w idx) →
  write_version f o u seq ct w = (r, w') → content w' idx = content w idx.
Proof.
  intros Hi Hh Ho Ha Hmax Hb Hr. unfold version in Hb. pose proof (holds_at_length _ _ _ Hb) as Hle.
  apply holds_at_app in Hb as [Hb1 Hb2]. rewrite length_app, Slot.slot_length_encode in *. unfold write_version in Hr. rewrite Ha in Hr.
  set (hb := Slot.encode _) in *.
  assert (length hb = 64%nat) as Hhb by apply Slot.slot_length_encode.
  assert (hb = [] → o ≤ blen (content w idx)) as He1 by (intros ->; done).
  specialize (Hle ltac:(lia)).
  assert (ct = [] → o + 64 ≤ blen (content w idx)) as He2 by (intros _; unfold blen; lia).
  apply m_bind_inv in Hr as [([] & w1 & H1'%core_io_ok & H2')|(e & (r1 & H1' & _)%m_map_err_inv & ->)]; cycle 1.
  { by eapply (rewrite_piece f). }
  assert (content w1 idx = content w idx) as Hc1 by (by eapply (rewrite_piece f)).
  destruct (law_handle _ _ _ Hh) as [c Hc].
  destruct (proj1 (law_dirty_vis w (shard_data idx)) ltac:(by eexists)) as [d Hd].
  destruct (law_write w f (shard_data idx) c d o hb (Ok tt) w1 Hi Hh Hc Hd Ho ltac:(unfold blen; lia) ltac:(intros He; by rewrite He in Hhb) H1') as (Hk1 & Hh1 & _).
  apply m_map_err_inv in H2' as (r2 & H2' & _). rewrite <- Hc1. eapply (rewrite_piece f); [| | | | |exact H2'].
  - by eapply keeps_inv.
  - done.
  - lia.
  - rewrite Hc1. replace (Z.to_nat (o + 64)) with (Z.to_nat o + 64)%nat by lia. done.
  - by rewrite Hc1.
Qed.

(** ** Live plans *)

Definition slot_items p its : list (Z * Overlay.OverlayVersion) :=
  List.filter (λ it, writes_slot (allow_discard p) it.2) its.

(** [done] are the items already executed, [rest] the others. *)
Record plan_live V w p its rest : Prop := {
  pl_items : items p = its ++ rest;
  pl_discard : allow_discard p = supports_discard V;
  pl_base : base_checkpoint p = checkpoint_sequence V;
  pl_horizon : horizon p ≤ boundary V;
  pl_planned : planned (vgeom V) (slots p) (slot_items p (items p)).*1 (vo_store V, w);
  pl_nodup : NoDup (items p).*1;
  pl_sized u v : (u, v) ∈ items p → device (vo_store V) u ∧ slot_sized (vo_store V) v;
  pl_held u v : (u, v) ∈ items p → ∃ v', oget V u = Some v' ∧ (v' = v ∨ horizon p < Overlay.sequence v');
  pl_complete u v : base_checkpoint p < horizon p → oget V u = Some v → Overlay.sequence v ≤ horizon p → (u, v) ∈ items p;
  pl_written u v : (u, v) ∈ its → writes_slot (allow_discard p) v = true → slot_holds (vgeom V) u v w;
  pl_idle : horizon p ≤ base_checkpoint p → items p = [];
  pl_below u v : (u, v) ∈ items p → Overlay.sequence v ≤ horizon p
}.

(** Other operations beside a plan. *)
Lemma later_live X V w V' w' p its rest :
  boundary V ≤ journal_appended_sequence V →
  later X V w V' w' → plan_live V w p its rest → plan_live V' w' p its rest.
Proof.
  intros Hap Hl [Pi Pd Pb Ph Pp Pn Ps Pe Pc Pw Px Py]. pose proof (la_store _ _ _ _ _ Hl) as Hud.
  pose proof (ud_geometry _ _ _ _ _ Hud) as Hg. unfold vgeom, device, slot_sized in *.
  split; unfold vgeom, device, slot_sized; rewrite ?Hg.
  - done.
  - rewrite Pd. unfold supports_discard, Store.supports_discard. by rewrite (ud_enabled _ _ _ _ _ Hud).
  - rewrite Pb. unfold checkpoint_sequence. by rewrite (la_state _ _ _ _ _ Hl).
  - pose proof (la_boundary _ _ _ _ _ Hl). lia.
  - by apply (ud_planned _ _ _ _ _ Hud).
  - done.
  - done.
  - intros u v Hin. destruct (Pe u v Hin) as (v' & Hv' & Hc). destruct (la_overlay _ _ _ _ _ Hl u) as [->|(x & -> & Hx)]; [eauto|].
    exists x. split; [done|]. right. lia.
  - intros u v Hbh Hv Hle. destruct (la_overlay _ _ _ _ _ Hl u) as [Hsame|(x & Hx & Hgt)]; [apply Pc; congruence|].
    assert (x = v) as -> by congruence. lia.
  - intros u v Hin Hws. assert ((u, v) ∈ items p) as Hip by (rewrite Pi; set_solver).
    destruct (Ps u v Hip) as [Hdev Hsz]. apply (ud_holds _ _ _ _ _ Hud); [exact Hdev| |exact Hsz|by apply Pw].
    intros HX. destruct (Pe u v Hip) as (v' & Hv' & _). rewrite (la_unheld _ _ _ _ _ Hl u HX) in Hv'. done.
  - done.
  - done.
Qed.

(** What a checkpoint's own work on the store does: it may touch units the
    overlay holds. *)
Record tends its V w s' w' : Prop := {
  te_store : undisturbed (λ u, is_Some (oget V u)) (vo_store V) w s' w';
  te_holds u v : (u, v) ∈ its → device (vo_store V) u → slot_sized (vo_store V) v →
    slot_holds (vgeom V) u v w → slot_holds (vgeom V) u v w'
}.

Lemma tends_refl its V w : tends its V w (vo_store V) w.
Proof. split; [apply undisturbed_refl|done]. Qed.

Lemma tends_trans its V w s1 w1 s2 w2 :
  tends its V w s1 w1 → tends its (set_store s1 V) w1 s2 w2 → tends its V w s2 w2.
Proof.
  intros [U1 H1'] [U2 H2']. split; [by eapply undisturbed_trans|].
  unfold vgeom, device, slot_sized in *. simpl in *. rewrite (ud_geometry _ _ _ _ _ U1) in *. auto.
Qed.

Lemma tends_quiet its V w s' w' : undisturbed none (vo_store V) w s' w' → tends its V w s' w'.
Proof.
  intros Hud. split; [eapply undisturbed_weaken; [|exact Hud]; by intros ? []|].
  intros u v _ Hu Hv. apply (ud_holds _ _ _ _ _ Hud); [done|by intros []|done].
Qed.

Lemma tends_live its0 V w s' w' p its rest :
  (∀ it, it ∈ items p → it ∈ its0) → tends its0 V w s' w' → plan_live V w p its rest → plan_live (set_store s' V) w' p its rest.
Proof.
  intros Hits [Hud Hh] [Pi Pd Pb Ph Pp Pn Ps Pe Pc Pw Px Py]. pose proof (ud_geometry _ _ _ _ _ Hud) as Hg.
  unfold vgeom, device, slot_sized in *. split; unfold vgeom, device, slot_sized; simpl; rewrite ?Hg; try done.
  - rewrite Pd. symmetry. exact (ud_enabled _ _ _ _ _ Hud).
  - by apply (ud_planned _ _ _ _ _ Hud).
  - intros u v Hin Hws. assert ((u, v) ∈ items p) as Hip by (rewrite Pi; set_solver).
    destruct (Ps u v Hip). apply Hh; auto.
Qed.

Lemma tends_same its V w s' w' : tends its V w s' w' → same_views none V w (set_store s' V) w'.
Proof.
  intros [Hud _] u Hu _ Hs. unfold vol_view, vol_steady, supports_discard, Store.supports_discard in *. simpl vo_overlay.
  simpl vo_store. rewrite (ud_enabled _ _ _ _ _ Hud). destruct (oget V u) as [v|] eqn:Hv; [done|].
  apply (ud_view _ _ _ _ _ Hud); [done|by intros [x Hx]; rewrite Hv in Hx|done].
Qed.

(** ** Execution *)

Lemma set_store_id V : set_store (vo_store V) V = V.
Proof. by destruct V. Qed.

Lemma writes_slot_spec V p v :
  allow_discard p = supports_discard V →
  writes_slot (allow_discard p) v = negb (st_discard_enabled (vo_store V) && is_empty_version v).
Proof. intros ->. unfold writes_slot. by rewrite negb_andb. Qed.

Lemma slot_items_app p its its' : slot_items p (its ++ its') = slot_items p its ++ slot_items p its'.
Proof. apply filter_app. Qed.

Lemma item_target V w p its u v rest :
  plan_live V w p its ((u, v) :: rest) → writes_slot (allow_discard p) v = true →
  ∃ t, targets (slots p) !! length (slot_items p its) = Some t ∧ t_unit t = u.
Proof.
  intros Hp Hw. destruct (pl_planned _ _ _ _ _ Hp) as (_ & _ & _ & files & (Hus & _) & _). cbn [fst snd] in Hus.
  assert ((t_unit <$> targets (slots p)) !! length (slot_items p its) = Some u) as Hl.
  { rewrite Hus, (pl_items _ _ _ _ _ Hp), slot_items_app. unfold slot_items at 2. simpl. rewrite Hw.
    rewrite list_lookup_fmap, lookup_app_r, Nat.sub_diag by done. done. }
  rewrite list_lookup_fmap in Hl. destruct (targets (slots p) !! _) as [t|]; [|done]. injection Hl as Hl. eauto.
Qed.

Lemma items_unique V w p its rest u v v' :
  plan_live V w p its rest → (u, v) ∈ items p → (u, v') ∈ items p → v' = v.
Proof.
  intros Hp Hv Hv'. pose proof (pl_nodup _ _ _ _ _ Hp) as Hnd. apply list_elem_of_lookup_1 in Hv as [i Hi], Hv' as [j Hj].
  assert (i = j) as ->; [|congruence]. eapply NoDup_lookup; [exact Hnd| |]; rewrite list_lookup_fmap; [by rewrite Hi|by rewrite Hj].
Qed.

(** The only entry at or below the checkpoint a plan's unit can have is the
    plan's own version. *)
Lemma applied_item V w p its rest u v v' :
  plan_live V w p its rest → (u, v) ∈ items p → oget V u = Some v' → Overlay.sequence v' ≤ checkpoint_sequence V → v' = v.
Proof.
  intros Hp Hin Hg Hle. destruct (pl_held _ _ _ _ _ Hp u v Hin) as (x & Hx & [->|Hh]); [congruence|].
  assert (x = v') as -> by congruence. rewrite <- (pl_base _ _ _ _ _ Hp) in Hle.
  rewrite (pl_idle _ _ _ _ _ Hp) in Hin by lia. by apply not_elem_of_nil in Hin.
Qed.

(** One slot write, failed or not. *)
Lemma plan_step_ok L V w p its u v rest r w' :
  volume_ok L V w → plan_live V w p its ((u, v) :: rest) → writes_slot (allow_discard p) v = true →
  plan_write (slots p) (length (slot_items p its)) (Overlay.sequence v) (Overlay.ciphertext v) w = (r, w') →
  volume_ok L V w' ∧ tends (items p) V w (vo_store V) w' ∧ (r = Ok tt → slot_holds (vgeom V) u v w').
Proof.
  intros Hok Hp Hws Hr. destruct (item_target _ _ _ _ _ _ _ Hp Hws) as (t & Ht & Htu).
  assert ((u, v) ∈ items p) as Hin by (rewrite (pl_items _ _ _ _ _ Hp); set_solver).
  destruct (pl_sized _ _ _ _ _ Hp u v Hin) as [Hdev Hsz]. pose proof (pl_planned _ _ _ _ _ Hp) as Hpl.
  destruct (plan_write_sound _ _ _ _ _ _ _ _ _ _ _ Hpl Ht ltac:(by rewrite Htu) Hr) as (Hst & He & HQ). rewrite Htu in *.
  pose proof (vk_store _ _ _ Hok) as Hst0. pose proof (undisturbed_evolves _ _ _ _ _ _ Hst0 Hst He) as Hud.
  assert (slot_holds (vgeom V) u v w → slot_holds (vgeom V) u v w') as Hre.
  { unfold slot_holds. intros Hh. destruct (shard_of_unit (vgeom V) u) as [idx k] eqn:Hsu.
    destruct Hpl as (_ & _ & _ & files & (_ & Hts & _) & _). cbn [fst snd] in Hts. rewrite list.Forall_forall in Hts.
    destruct (Hts t (list_elem_of_lookup_2 _ _ _ Ht)) as [[Hha _] Ho _]. rewrite Htu in *.
    change (shard_of_unit (st_geometry (vo_store V)) u = (idx, k)) in Hsu. rewrite Hsu in Hha, Ho. cbn [fst snd] in *.
    destruct (slot_place _ u idx k (ok_geometry _ _ Hst0) Hdev Hsu) as (_ & _ & Ho0 & Hend & Hmx & Hadd).
    pose proof (gwf_ct _ (ok_geometry _ _ Hst0)). pose proof (gwf_unit _ (ok_geometry _ _ Hst0)). pose proof (gwf_block _ (ok_geometry _ _ Hst0)).
    unfold plan_write in Hr. destruct (_ <? _); [by injection Hr as _ <-|]. rewrite Ht in Hr. cbv beta iota delta [m_bind m_lift ok_or] in Hr.
    rewrite Ho, Htu in Hr. rewrite (rewrite_version (t_data t) idx (slot_offset (st_geometry (vo_store V)) k) _ _ _ _ _ _
      (ok_inv _ _ Hst0) Hha Ho0 Hadd ltac:(lia) Hh Hr). exact Hh. }
  split; [|split].
  - rewrite <- (set_store_id V). eapply ok_store_held; [done|exact Hst|exact He|].
    intros x y Hy Hle [Hs Hi]. destruct (decide (x = u)) as [->|Hne]; [right|by left].
    pose proof (applied_item _ _ _ _ _ _ _ _ Hp Hin Hy Hle) as ->. split; [done|].
    rewrite (writes_slot_spec V) in Hws by by eapply pl_discard. apply negb_true_iff in Hws. rewrite Hws in *.
    destruct Hi as [Hh Hd]. split; [by apply Hre|done].
  - split.
    + eapply undisturbed_weaken; [|exact Hud]. intros x ->. destruct (pl_held _ _ _ _ _ Hp u v Hin) as (x & -> & _). by eexists.
    + intros x y Hxy Hdx Hsx. destruct (decide (x = u)) as [->|Hne]; [|by apply (ud_holds _ _ _ _ _ Hud)].
      by rewrite (items_unique _ _ _ _ _ _ _ _ Hp Hin Hxy).
  - intros ->. destruct (HQ eq_refl) as [Hwr _]. unfold written, slot_holds in *. by destruct (shard_of_unit (vgeom V) u), Hwr.
Qed.

Lemma live_advance V w p its it rest :
  plan_live V w p its (it :: rest) → (writes_slot (allow_discard p) it.2 = true → slot_holds (vgeom V) it.1 it.2 w) →
  plan_live V w p (its ++ [it]) rest.
Proof.
  intros [Pi Pd Pb Ph Pp Pn Ps Pe Pc Pw Px Py] Hh. split; try done; [by rewrite <- app_assoc|].
  intros u v [Hin|Hin%list_elem_of_singleton]%elem_of_app; [by apply Pw|]. by subst it.
Qed.

Lemma tends_world_trans its V w w1 w2 :
  tends its V w (vo_store V) w1 → tends its V w1 (vo_store V) w2 → tends its V w (vo_store V) w2.
Proof. intros H1' H2'. eapply tends_trans; [exact H1'|]. by rewrite set_store_id. Qed.

Lemma tends_world_live V w w' p its rest :
  tends (items p) V w (vo_store V) w' → plan_live V w p its rest → plan_live V w' p its rest.
Proof. intros Ht Hp. rewrite <- (set_store_id V). by eapply tends_live. Qed.

Lemma execute_items_ok L V p rest : ∀ its w r w',
  volume_ok L V w → plan_live V w p its rest →
  execute_items (slots p) (allow_discard p) (length (slot_items p its)) rest w = (r, w') →
  volume_ok L V w' ∧ tends (items p) V w (vo_store V) w' ∧ (r = Ok tt → plan_live V w' p (its ++ rest) []).
Proof.
  induction rest as [|[u v] rest IH]; intros its w r w' Hok Hp Hr.
  { injection Hr as <- <-. split; [done|]. split; [apply tends_refl|]. by rewrite app_nil_r. }
  cbn [execute_items] in Hr. replace (its ++ (u, v) :: rest) with ((its ++ [(u, v)]) ++ rest) by (by rewrite <- app_assoc).
  assert (slot_items p (its ++ [(u, v)]) = slot_items p its ++ (if writes_slot (allow_discard p) v then [(u, v)] else [])) as Hsi.
  { rewrite slot_items_app. unfold slot_items at 2. simpl. by destruct (writes_slot _ _). }
  destruct (allow_discard p && is_empty_version v) eqn:Hskip.
  { assert (writes_slot (allow_discard p) v = false) as Hws by (unfold writes_slot; by rewrite <- negb_andb, Hskip).
    rewrite Hws, app_nil_r in Hsi. rewrite <- Hsi in Hr. eapply IH; [done| |exact Hr].
    apply live_advance; [done|]. simpl. by rewrite Hws. }
  assert (writes_slot (allow_discard p) v = true) as Hws by (unfold writes_slot; by rewrite <- negb_andb, Hskip).
  rewrite Hws in Hsi.
  apply m_bind_inv in Hr as [([] & w1 & H1' & Hr)|(e & H1' & ->)];
    destruct (plan_step_ok _ _ _ _ _ _ _ _ _ _ Hok Hp Hws H1') as (Hok1 & Ht1 & Hh1); [|done].
  assert (S (length (slot_items p its)) = length (slot_items p (its ++ [(u, v)]))) as Hlen by (rewrite Hsi, length_app; simpl; lia).
  rewrite Hlen in Hr.
  destruct (IH (its ++ [(u, v)]) w1 r w' Hok1) as (Hok2 & Ht2 & Hl2); [|done|].
  { apply live_advance; [by eapply tends_world_live|]. intros _. by apply Hh1. }
  split; [done|]. split; [by eapply tends_world_trans|done].
Qed.

(** The barrier on the plan's files, failed or not. *)
Lemma sync_files_any g fs w r w' :
  geometry_wf g → inv w → (∀ f, f ∈ fs → ∃ idx, 0 ≤ idx < num_shards g ∧ handle w f (shard_data idx)) →
  m_each (λ file, core_io (f_sync_data file)) fs w = (r, w') → data_evolves g nothing (is_ok r) w w'.
Proof.
  intros Hg. revert w. induction fs as [|x fs IH]; intros w Hi Hfs; cbn [m_each]; [intros [= <- <-]; by apply data_evolves_refl|].
  destruct (Hfs x ltac:(set_solver)) as (idx & Hidx & Hh).
  intros [([] & w1 & Hr1%core_io_ok & Hr)|(e & (r1 & Hr1 & He)%m_map_err_inv & ->)]%m_bind_inv;
    destruct (evolve_sync g Hg nothing idx _ _ _ _ Hi Hidx Hh Hr1) as [Hd _]; [|by destruct r1].
  apply (data_evolves_trans g nothing true (is_ok r) w w1 w'); [done|]. apply IH; [by eapply data_evolves_inv| |done].
  intros y Hy. destruct (Hfs y ltac:(set_solver)) as (i & Hir & Hhi). exists i. split; [done|].
  by apply (pe_handle _ _ _ _ _ _ (proj2 Hd i Hir)).
Qed.

Lemma plan_sync_ok L V w p its rest r w' :
  volume_ok L V w → plan_live V w p its rest → sync_shards (slots p) w = (r, w') →
  volume_ok L V w' ∧ tends (items p) V w (vo_store V) w'.
Proof.
  intros Hok Hp Hr. pose proof (vk_store _ _ _ Hok) as Hst.
  pose proof (sync_files_any (vgeom V) _ _ _ _ (ok_geometry _ _ Hst) (ok_inv _ _ Hst)
    (λ f, plan_files _ _ _ _ _ f (pl_planned _ _ _ _ _ Hp)) Hr) as Hd.
  pose proof (evolves_world _ _ _ _ _ Hd) as He.
  pose proof (store_ok_world _ _ _ _ _ Hst (placed_nothing _) Hd) as Hst'. split.
  - rewrite <- (set_store_id V). eapply ok_store; [done|exact Hst'|exact He|by intros ? []].
  - apply tends_quiet. eapply undisturbed_weaken; [|by eapply undisturbed_evolves]. by intros ? [].
Qed.

(** [execute] without the lock: the volume is as before, for readers too. *)
Lemma execute_ok L V w p r V' w' :
  volume_ok L V w → plan_live V w p [] (items p) → execute p (V, w) = (r, (V', w')) →
  V' = V ∧ volume_ok L V w' ∧ tends (items p) V w (vo_store V) w' ∧ (r = Ok tt → plan_live V w' p (items p) []).
Proof.
  intros Hok Hp Hr. unfold execute in Hr.
  apply m_bind_inv in Hr as [([] & [V1 w1] & [-> H1']%on_world_inv & Hr)|(e & [-> H1']%on_world_inv & ->)];
    destruct (execute_items_ok L V p (items p) [] w _ _ Hok Hp H1') as (Hok1 & Ht1 & Hl1); [|done]. specialize (Hl1 eq_refl).
  apply m_bind_inv in Hr as [([] & [V2 w2] & [-> H2']%on_world_inv & Hr)|(e & [-> H2']%on_world_inv & ->)];
    destruct (plan_sync_ok _ _ _ _ _ _ _ _ Hok1 Hl1 H2') as (Hok2 & Ht2); pose proof (tends_world_trans _ _ _ _ _ Ht1 Ht2) as Ht; [|done].
  injection Hr as <- <- <-. split; [done|]. split; [done|]. split; [done|]. intros _. exact (tends_world_live _ _ _ _ _ _ Ht2 Hl1).
Qed.

(** ** Preparation *)

(** A store operation that touches no unit. *)
Lemma ok_store_quiet L V w s' w' ok :
  volume_ok L V w → store_ok s' w' → evolves nothing ok (vo_store V) w s' w' →
  volume_ok L (set_store s' V) w' ∧ later none V w (set_store s' V) w'.
Proof.
  intros Hok Hs He. split; [eapply ok_store; [exact Hok|exact Hs|exact He|by intros ? []]|].
  apply later_store; [by intros ? []|]. eapply undisturbed_evolves; [by eapply vk_store|exact Hs|exact He].
Qed.

Lemma collect_nodup d (o : Overlay.Overlay) : NoDup (Overlay.collect_durable d o).*1.
Proof.
  unfold Overlay.collect_durable. pose proof (NoDup_sorted_keys (Overlay.units o)) as Hn. rewrite <- entries_keys in Hn. revert Hn.
  generalize (BTreeMap.entries (Overlay.units o)) as l. induction l as [|[u e] l IH]; [constructor|]. cbn [fmap list_fmap fst].
  intros [Hu Hl]%list.NoDup_cons. specialize (IH Hl). simpl. destruct (Overlay.durable e) as [x|]; [|done]. destruct (_ <=? _); [|done].
  cbn. apply list.NoDup_cons. split; [|done]. intros ([u' v] & -> & Hin)%list_elem_of_fmap. apply Hu.
  apply list_elem_of_omap in Hin as ([u1 e1] & Hin & He). apply list_elem_of_fmap. exists (u1, e1). split; [|done].
  destruct (Overlay.durable e1); [|done]. destruct (_ <=? _); [|done]. by injection He as -> _.
Qed.

Lemma collected V w L u v d :
  volume_ok L V w → d = boundary V → (u, v) ∈ Overlay.collect_durable d (vo_overlay V) →
  device (vo_store V) u ∧ slot_sized (vo_store V) v ∧
  ∃ v', oget V u = Some v' ∧ (v' = v ∨ d < Overlay.sequence v').
Proof.
  intros Hok -> [(e & He & Hd) Hle]%Overlay.elem_of_collect. pose proof (vk_overlay _ _ _ Hok) as Ho.
  destruct (oo_units _ _ _ _ Ho u e He) as [Hu Hsq Hl Hdu]. destruct (Hdu v Hd) as [Hvl Hpos].
  destruct (Overlay.mid_unit _ (proj1 (oo_wf _ _ _ _ Ho)) u e He) as [_ Hve]. destruct (Hve v Hd) as (Hvs & _).
  assert (oget V u = Some (Overlay.latest e)) as Hg by (unfold Overlay.get; by rewrite He).
  split; [done|]. destruct (version_sized L V w u _ Hok Hg) as [_ (Hu64 & _)].
  split; [split; [unfold u64_ok in *; lia|]; split; [done|exact Hvl]|].
  exists (Overlay.latest e). split; [done|].
  destruct (Z.le_gt_cases (Overlay.sequence (Overlay.latest e)) (boundary V)) as [Hlb|]; [left|right; lia].
  pose proof (Overlay.wf_promoted _ _ _ (oo_wf _ _ _ _ Ho) He Hlb). congruence.
Qed.

Lemma collects V w L u v d :
  volume_ok L V w → d = boundary V → oget V u = Some v → Overlay.sequence v ≤ d →
  (u, v) ∈ Overlay.collect_durable d (vo_overlay V).
Proof.
  intros Hok -> Hg Hle. unfold Overlay.get in Hg. apply fmap_Some in Hg as (e & He & ->). apply Overlay.elem_of_collect.
  split; [|done]. exists e. split; [done|]. eapply Overlay.wf_promoted; [by eapply oo_wf, vk_overlay|done|done].
Qed.

Lemma prepare_ok L V w r V' w' :
  volume_ok L V w → prepare_checkpoint (V, w) = (r, (V', w')) →
  volume_ok L V' w' ∧ later none V w V' w' ∧ (∀ u, oget V' u = oget V u) ∧
  (∀ p, r = Ok p → plan_live V' w' p [] (items p) ∧ horizon p = journal_durable_sequence V).
Proof.
  intros Hok Hr. unfold prepare_checkpoint in Hr.
  apply m_bind_inv in Hr as [(? & [? ?] & [= <- <- <-] & Hr)|(e & [=] & _)].
  apply m_bind_inv in Hr as [([] & [V1 w1] & Hp & Hr)|(e & [=] & _)]. cbn [fst] in *.
  destruct (promote_ok L V w _ V1 w1 _ Hok (Z.le_refl _) Hp) as (_ & -> & Hok1 & Hl1 & Hg1 & Hj1 & Hb1).
  apply m_bind_inv in Hr as [(? & [? ?] & [= <- <- <-] & Hr)|(e & [=] & _)]. cbn [fst] in *.
  assert (boundary V1 = journal_durable_sequence V) as Hbd.
  { pose proof (oo_boundary _ _ _ _ (vk_overlay _ _ _ Hok)). lia. }
  set (d := journal_durable_sequence V) in *.
  set (its := if d <=? checkpoint_sequence V1 then [] else Overlay.collect_durable d (vo_overlay V1)) in *.
  apply m_bind_inv in Hr as [(ps & [V2 w2] & (s2 & Hs & ->)%on_store_inv & [= <- <- <-])|(e & (s2 & Hs & ->)%on_store_inv & ->)];
    destruct (sound_checkpoint_plan _ _ _ (vk_store _ _ _ Hok1) _ _ _ Hs) as (Hst2 & He & HQ);
    destruct (ok_store_quiet _ _ _ _ _ _ Hok1 Hst2 He) as [Hok2 Hl2];
    (split; [exact Hok2|]; split; [exact (later_trans _ _ _ _ _ _ _ Hl1 Hl2)|]; split; [exact Hg1|]); [|done].
  intros p [= <-]. split; [|simpl; pose proof (vk_checkpoint _ _ _ Hok1); lia].
  pose proof (ud_geometry _ _ _ _ _ (la_store _ _ _ _ _ Hl2)) as Hge. change (st_geometry s2 = st_geometry (vo_store V1)) in Hge. pose proof (ud_enabled _ _ _ _ _ (la_store _ _ _ _ _ Hl2)) as Hen.
  pose proof (vk_checkpoint _ _ _ Hok1) as Hck.
  assert (∀ u v, (u, v) ∈ its → (u, v) ∈ Overlay.collect_durable d (vo_overlay V1) ∧ checkpoint_sequence V1 < d) as Hits.
  { intros u v. unfold its. destruct (Z.leb_spec d (checkpoint_sequence V1)); [by intros ?%not_elem_of_nil|]. split; [done|lia]. }
  split; cbn [items allow_discard base_checkpoint horizon slots]; unfold device, slot_sized, vgeom; simpl vo_store; rewrite ?Hge.
  - done.
  - symmetry. exact Hen.
  - done.
  - change (Z.max d (checkpoint_sequence V1) ≤ boundary V1). lia.
  - rewrite <- Hge. exact (HQ ps eq_refl).
  - unfold its. destruct (_ <=? _); [constructor|]. apply collect_nodup.
  - intros u v [Hin _]%Hits. destruct (collected V1 w L u v d Hok1 (eq_sym Hbd) Hin) as (Hd1 & Hs1 & _). exact (conj Hd1 Hs1).
  - intros u v [Hin Hlt]%Hits. destruct (collected V1 w L u v d Hok1 (eq_sym Hbd) Hin) as (_ & _ & v' & Hv' & Hc).
    exists v'. split; [done|]. rewrite Z.max_l by lia. done.
  - intros u v Hlt Hv Hle. unfold its. destruct (Z.leb_spec d (checkpoint_sequence V1)); [lia|].
    eapply collects; [done|done|done|]. lia.
  - by intros u v ?%not_elem_of_nil.
  - intros Hle. unfold its. destruct (Z.leb_spec d (checkpoint_sequence V1)); [done|lia].
  - intros u v [Hin _]%Hits. apply Overlay.elem_of_collect in Hin as [_ Hle]. lia.
Qed.

(** ** Publication of the items *)

Lemma in_slot_same s s' w u v :
  st_geometry s' = st_geometry s → st_discard_enabled s' = st_discard_enabled s →
  is_Some (st_shards s' !! (shard_of_unit (st_geometry s) u).1) → unit_discarded s' u = unit_discarded s u →
  in_slot s w u v → in_slot s' w u v.
Proof. intros Hg He Hs Hd [_ Hin]. unfold in_slot. rewrite Hg, He, Hd. done. Qed.

(** [mark_allocated] changes no file and no discard mark beyond what opening
    the shard does. *)
Lemma mark_allocated_split u (s : SlotStore (F := F)) w r s' w' :
  store_ok s w → 0 ≤ u → mark_allocated u (s, w) = (r, (s', w')) →
  ∃ s1, store_ok s1 w' ∧ evolves nothing (is_ok r) s w s1 w' ∧ st_geometry s' = st_geometry s1 ∧
    st_discard_enabled s' = st_discard_enabled s1 ∧ (∀ x, unit_discarded s' x = unit_discarded s1 x) ∧
    (∀ idx, is_Some (st_shards s1 !! idx) → is_Some (st_shards s' !! idx)).
Proof.
  intros Hok Hu Hr. unfold mark_allocated in Hr.
  apply m_bind_inv in Hr as [([] & [s1 w1] & Hv & Hr)|(e & Hv & ->)];
    destruct (sound_validate_unit nothing u s w Hok _ _ _ Hv) as (Hok1 & He1 & HQ1); [|by exists s'].
  destruct (HQ1 tt eq_refl) as (-> & -> & Hun).
  apply m_bind_inv in Hr as [(? & [? ?] & [= <- <- <-] & Hr)|(e & [=] & _)]. cbn [fst] in Hr.
  destruct (shard_of_unit (st_geometry s) u) as [idx k] eqn:Hsu.
  destruct (slot_place _ u idx k (ok_geometry _ _ Hok) (conj Hu Hun) Hsu) as (Hidx & _).
  apply m_bind_inv in Hr as [([] & [s2 w2] & He & Hr)|(e & He & ->)];
    destruct (sound_ensure_shard idx s w Hok Hidx _ _ _ He) as (Hok2 & He2 & HQ2); [|by exists s'].
  destruct (HQ2 tt eq_refl) as (sh & Hs & _).
  cbv beta iota delta [m_bind get_shard get_state m_lift] in Hr. cbn [fst] in Hr. rewrite Hs in Hr. cbn [ok_or] in Hr.
  destruct (negb _); cbn [m_when] in Hr; injection Hr as <- <- <-; exists s2; (split; [done|]; split; [done|]); [|done].
  split; [done|]. split; [done|]. cbn [st_shards set_shards]. split.
  - intros x. unfold unit_discarded. cbn [st_shards set_shards st_geometry].
    destruct (decide ((shard_of_unit (st_geometry s2) x).1 = idx)) as [->|Hne].
    + by rewrite lookup_insert_eq, Hs.
    + by rewrite lookup_insert_ne.
  - intros i Hi. destruct (decide (i = idx)) as [->|Hne]; [by rewrite lookup_insert_eq; eexists|by rewrite lookup_insert_ne].
Qed.

Lemma mark_piece L V w p u v r V' w' :
  volume_ok L V w → plan_live V w p (items p) [] → (u, v) ∈ items p →
  on_store (mark_allocated u) (V, w) = (r, (V', w')) →
  ∃ s', V' = set_store s' V ∧ volume_ok L V' w' ∧ tends (items p) V w s' w' ∧
    (∀ idx, is_Some (st_shards (vo_store V) !! idx) → is_Some (st_shards s' !! idx)) ∧
    (r = Ok tt → is_Some (st_shards s' !! (shard_of_unit (vgeom V) u).1)).
Proof.
  intros Hok Hp Hin (s' & Hr & ->)%on_store_inv. exists s'. split; [done|]. pose proof (vk_store _ _ _ Hok) as Hst.
  destruct (pl_sized _ _ _ _ _ Hp u v Hin) as [Hdev _]. pose proof (proj1 Hdev) as Hu.
  destruct (sound_mark_allocated u _ _ Hst Hu _ _ _ Hr) as (Hok' & He & HQ).
  destruct (mark_allocated_split u _ _ _ _ _ Hst Hu Hr) as (s1 & Hok1 & He1 & Hg & Hen & Hd & Hsh).
  pose proof (undisturbed_evolves _ _ _ _ _ _ Hst Hok1 He1) as Hud1.
  pose proof (undisturbed_evolves _ _ _ _ _ _ Hst Hok' He) as Hud. split; [|split; [split|split]].
  - eapply ok_store_held; [done|done|exact He|]. intros x y Hy Hle Hi. right.
    destruct (version_sized _ _ _ _ _ Hok Hy) as [Hdx Hsx].
    pose proof (ud_slot _ _ _ _ _ Hud1 x y Hdx (λ f, f) Hsx Hi) as Hi1. eapply in_slot_same; [done|done| |done|exact Hi1].
    apply Hsh. apply Hi1.
  - eapply undisturbed_weaken; [|exact Hud]. intros x ->. destruct (pl_held _ _ _ _ _ Hp u v Hin) as (y & -> & _). by eexists.
  - intros x y _ Hdx Hsx. by apply (ud_holds _ _ _ _ _ Hud1 x y Hdx (λ f, f) Hsx).
  - intros idx [sh Hs]. destruct (ev_shards _ _ _ _ _ _ He _ _ Hs) as (sh' & -> & _). by eexists.
  - intros ->. destruct (HQ tt eq_refl) as (sh & Hs & _). by eexists.
Qed.

Lemma discard_piece L V w p u v r V' w' :
  volume_ok L V w → plan_live V w p (items p) [] → (u, v) ∈ items p → 
  on_store (set_discarded u (is_empty_version v)) (V, w) = (r, (V', w')) →
  ∃ s', V' = set_store s' V ∧ volume_ok L V' w' ∧ tends (items p) V w s' w' ∧
    (∀ x y, (x, y) ∈ items p → in_slot (vo_store V) w x y → in_slot s' w' x y) ∧ (r = Ok tt → in_slot s' w' u v).
Proof.
  intros Hok Hp Hin (s' & Hr & ->)%on_store_inv. exists s'. split; [done|]. pose proof (vk_store _ _ _ Hok) as Hst.
  destruct (pl_sized _ _ _ _ _ Hp u v Hin) as [Hdev Hsz]. pose proof (proj1 Hdev) as Hu.
  destruct r as [[]|e]; cycle 1.
  { apply set_discarded_refused in Hr. injection Hr as -> ->. rewrite set_store_id. split; [done|]. split; [apply tends_refl|done]. }
  destruct (sound_set_discarded u _ _ _ Hst Hu _ _ _ Hr) as (Hok' & He & HQ). destruct (HQ tt eq_refl) as (-> & sh & Hs & Hd).
  pose proof (undisturbed_evolves _ _ _ _ _ _ Hst Hok' He) as Hud. pose proof (ud_geometry _ _ _ _ _ Hud) as Hg.
  pose proof (ud_enabled _ _ _ _ _ Hud) as Hen.
  assert (st_discard_enabled (vo_store V) = true) as Hon.
  { unfold set_discarded in Hr. cbv beta iota delta [m_bind get_state] in Hr. cbn [fst] in Hr. by destruct (st_discard_enabled _). }
  assert (unit_discarded s' u = is_empty_version v) as Hud'.
  { unfold unit_discarded. rewrite Hg, Hs. done. }
  assert (∀ y, y = v → in_slot s' w u y) as Hnew.
  { intros y ->. unfold in_slot. rewrite Hg, Hen, Hon, Hud'. split; [by eexists|]. simpl.
    destruct (is_empty_version v) eqn:Hv; [done|]. split; [|done]. eapply (pl_written _ _ _ _ _ Hp); [exact Hin|].
    unfold writes_slot. by rewrite Hv, orb_true_r. }
  split; [|split; [split|split]].
  - eapply ok_store_held; [done|done|exact He|]. intros x y Hy Hle Hi. destruct (decide (x = u)) as [->|Hne]; [right|by left].
    apply Hnew. by eapply applied_item.
  - eapply undisturbed_weaken; [|exact Hud]. intros x ->. destruct (pl_held _ _ _ _ _ Hp u v Hin) as (y & -> & _). by eexists.
  - done.
  - intros x y Hxy Hi. destruct (decide (x = u)) as [->|Hne]; [apply Hnew; by eapply items_unique|].
    destruct (pl_sized _ _ _ _ _ Hp x y Hxy). by apply (ud_slot _ _ _ _ _ Hud).
  - intros _. by apply Hnew.
Qed.

(** A loop that keeps [K] and establishes [I] element by element. *)
Lemma m_each_inv {S E A} (f : A → M S E unit) (K : S → Prop) (I : A → S → Prop) l :
  (∀ x s r s', x ∈ l → K s → f x s = (r, s') → K s' ∧ (r = Ok tt → I x s')) →
  (∀ x y s r s', x ∈ l → y ∈ l → K s → I y s → f x s = (r, s') → I y s') →
  ∀ s r s', K s → m_each f l s = (r, s') → K s' ∧ (r = Ok tt → ∀ x, x ∈ l → I x s').
Proof.
  intros Hf Hi. assert (∀ rest, (∀ x, x ∈ rest → x ∈ l) → ∀ s r s', K s → (∀ x, x ∈ l → x ∈ rest ∨ I x s) →
    m_each f rest s = (r, s') → K s' ∧ (r = Ok tt → ∀ x, x ∈ l → I x s')) as Hgo; [|intros s r s' HK; apply Hgo; auto].
  induction rest as [|x rest IH]; intros Hsub s r s' HK HI Hr; cbn [m_each] in Hr.
  { injection Hr as <- <-. split; [done|]. intros _ x Hx. destruct (HI x Hx) as [Hn|]; [by apply not_elem_of_nil in Hn|done]. }
  apply m_bind_inv in Hr as [([] & s1 & Hx & Hr)|(e & Hx & ->)];
    destruct (Hf x s _ _ ltac:(apply Hsub; set_solver) HK Hx) as [HK1 HI1]; [|done].
  eapply IH; [set_solver|exact HK1| |exact Hr]. intros y Hy. destruct (HI y Hy) as [[->|Hyr]%elem_of_cons|Hyi]; [right|by left|right].
  - by apply HI1.
  - apply (Hi x y s (Ok tt) s1); [apply Hsub; set_solver|done|done|done|exact Hx].
Qed.

(** The volume somewhere in the publication of a plan. *)
Definition publishing L V0 w0 p (st : Volume * W) : Prop :=
  ∃ s', st.1 = set_store s' V0 ∧ volume_ok L st.1 st.2 ∧ tends (items p) V0 w0 s' st.2.

Lemma publishing_live L V0 w0 p st :
  plan_live V0 w0 p (items p) [] → publishing L V0 w0 p st →
  volume_ok L st.1 st.2 ∧ plan_live st.1 st.2 p (items p) [].
Proof. intros Hp (s' & -> & Hok & Ht). split; [done|]. by eapply tends_live. Qed.

Lemma publishing_geometry L V0 w0 p st : publishing L V0 w0 p st → vgeom st.1 = vgeom V0.
Proof. intros (s' & -> & _ & Ht). exact (ud_geometry _ _ _ _ _ (te_store _ _ _ _ _ Ht)). Qed.

Lemma publishing_step L V0 w0 p V w s' w' :
  publishing L V0 w0 p (V, w) → volume_ok L (set_store s' V) w' → tends (items p) V w s' w' →
  publishing L V0 w0 p (set_store s' V, w').
Proof.
  intros (s1 & Hs & _ & Ht1) Hok Ht. cbn [fst snd] in *. subst V. exists s'. split; [done|]. split; [done|].
  by eapply tends_trans.
Qed.

Lemma publishing_quiet {A} L V0 w0 p (m : M (SlotStore * W) CoreError A) V w r V' w' Q :
  sound nothing m (vo_store V) w Q → publishing L V0 w0 p (V, w) → on_store m (V, w) = (r, (V', w')) →
  publishing L V0 w0 p (V', w') ∧
  (∀ u v, device (vo_store V) u → slot_sized (vo_store V) v → in_slot (vo_store V) w u v → in_slot (vo_store V') w' u v).
Proof.
  intros Hm HP (s' & Hr & ->)%on_store_inv. pose proof HP as (_ & _ & Hok & _). cbn [fst snd] in Hok.
  destruct (Hm _ _ _ Hr) as (Hst & He & _). destruct (ok_store_quiet _ _ _ _ _ _ Hok Hst He) as [Hok' Hl].
  pose proof (la_store _ _ _ _ _ Hl) as Hud. split; [eapply publishing_step; [done|done|]; by apply tends_quiet|].
  intros u v Hu Hv. by apply (ud_slot _ _ _ _ _ Hud); [..|intros []|].
Qed.

Lemma publishing_sized L V0 w0 p V w u v :
  plan_live V0 w0 p (items p) [] → publishing L V0 w0 p (V, w) → (u, v) ∈ items p →
  device (vo_store V) u ∧ slot_sized (vo_store V) v.
Proof. intros Hp HP Hin. destruct (publishing_live _ _ _ _ _ Hp HP) as [_ Hl]. by eapply pl_sized. Qed.

Lemma publish_items_ok L V w p r V' w' :
  volume_ok L V w → plan_live V w p (items p) [] → publish_items (allow_discard p) (items p) (V, w) = (r, (V', w')) →
  publishing L V w p (V', w') ∧ (r = Ok tt → ∀ u v, (u, v) ∈ items p → in_slot (vo_store V') w' u v).
Proof.
  intros Hok Hp Hr. unfold publish_items in Hr.
  assert (publishing L V w p (V, w)) as HP0.
  { exists (vo_store V). rewrite set_store_id. split; [done|]. split; [done|apply tends_refl]. }
  set (opened := λ (it : Z * Overlay.OverlayVersion) (st : Volume * W), writes_slot (allow_discard p) it.2 = true →
    is_Some (st_shards (vo_store st.1) !! (shard_of_unit (vgeom V) it.1).1)).
  assert (∀ (r1 : result CoreError unit) V1 w1,
    m_each (λ it, m_when (writes_slot (allow_discard p) it.2) (on_store (mark_allocated it.1))) (items p) (V, w) = (r1, (V1, w1)) →
    publishing L V w p (V1, w1) ∧ (r1 = Ok tt → ∀ it, it ∈ items p → opened it (V1, w1))) as Hmarks.
  { intros r1 V1 w1. apply (m_each_inv _ (publishing L V w p) opened); [| |done]; clear Hr.
    - intros [u v] [Va wa] ra [Vb wb] Hin HP Hm. unfold opened. cbn [fst snd] in *.
      destruct (writes_slot (allow_discard p) v); cbn [m_when] in Hm; [|injection Hm as <- <- <-; done].
      destruct (publishing_live _ _ _ _ _ Hp HP) as [Hoka Hpa].
      destruct (mark_piece _ _ _ _ _ _ _ _ _ Hoka Hpa Hin Hm) as (s' & -> & Hokb & Htb & _ & Hnew).
      split; [by eapply publishing_step|]. intros Hra _. specialize (Hnew Hra).
      by rewrite (publishing_geometry _ _ _ _ _ HP) in Hnew.
    - intros [u v] y [Va wa] ra [Vb wb] Hin Hy HP Ho Hm Hws. cbn [fst snd] in *. specialize (Ho Hws).
      destruct (writes_slot (allow_discard p) v); cbn [m_when] in Hm; [|by injection Hm as _ <- <-].
      destruct (publishing_live _ _ _ _ _ Hp HP) as [Hoka Hpa].
      destruct (mark_piece _ _ _ _ _ _ _ _ _ Hoka Hpa Hin Hm) as (s' & -> & _ & _ & Hkeep & _). by apply Hkeep. }
  apply m_bind_inv in Hr as [([] & [V1 w1] & H1' & Hr)|(e & H1' & ->)]; destruct (Hmarks _ _ _ H1') as [HP1 Ho1]; [|done].
  specialize (Ho1 eq_refl). destruct (publishing_live _ _ _ _ _ Hp HP1) as [Hok1 Hp1]. cbn [fst snd] in Hok1, Hp1.
  destruct (allow_discard p) eqn:Hall; cbn [m_when] in Hr; cycle 1.
  { injection Hr as <- <- <-. split; [done|]. intros _ u v Hin. pose proof HP1 as (s1 & Hs1 & _ & Ht1). cbn [fst snd] in *.
    assert (st_discard_enabled (vo_store V1) = false) as Hoff.
    { pose proof (pl_discard _ _ _ _ _ Hp1) as Hd. rewrite Hall in Hd. by symmetry. }
    unfold in_slot. rewrite Hoff. simpl. split; [|split].
    - change (st_geometry (vo_store V1)) with (vgeom (V1, w1).1). rewrite (publishing_geometry _ _ _ _ _ HP1).
      exact (Ho1 (u, v) Hin eq_refl).
    - eapply (pl_written _ _ _ _ _ Hp1); [done|]. by rewrite Hall.
    - eapply unmarked_flag; [by eapply vk_marks|done]. }
  set (shown := λ (it : Z * Overlay.OverlayVersion) (st : Volume * W), in_slot (vo_store st.1) st.2 it.1 it.2).
  assert (∀ (r2 : result CoreError unit) V2 w2,
    m_each (λ it, on_store (set_discarded it.1 (is_empty_version it.2))) (items p) (V1, w1) = (r2, (V2, w2)) →
    publishing L V w p (V2, w2) ∧ (r2 = Ok tt → ∀ it, it ∈ items p → shown it (V2, w2))) as Hflags.
  { intros r2 V2 w2. apply (m_each_inv _ (publishing L V w p) shown); [| |done]; clear Hr.
    - intros [u v] [Va wa] ra [Vb wb] Hin HP Hm. destruct (publishing_live _ _ _ _ _ Hp HP) as [Hoka Hpa].
      destruct (discard_piece _ _ _ _ _ _ _ _ _ Hoka Hpa Hin Hm) as (s' & -> & Hokb & Htb & _ & Hnew).
      split; [by eapply publishing_step|done].
    - intros [u v] [x y] [Va wa] ra [Vb wb] Hin Hy HP Ho Hm. destruct (publishing_live _ _ _ _ _ Hp HP) as [Hoka Hpa].
      destruct (discard_piece _ _ _ _ _ _ _ _ _ Hoka Hpa Hin Hm) as (s' & -> & _ & _ & Hkeep & _). by apply Hkeep. }
  apply m_bind_inv in Hr as [([] & [V2 w2] & H2' & Hr)|(e & H2' & ->)]; destruct (Hflags _ _ _ H2') as [HP2 Ho2]; [|done].
  specialize (Ho2 eq_refl). destruct (publishing_live _ _ _ _ _ Hp HP2) as [Hok2 _].
  destruct (publishing_quiet L V w p _ V2 w2 _ _ _ _ (sound_persist_discards _ _ (vk_store _ _ _ Hok2)) HP2 Hr) as [HP3 Hk3].
  split; [done|]. intros _ u v Hin. destruct (publishing_sized _ _ _ _ _ _ _ _ Hp HP2 Hin).
  apply Hk3; [done|done|]. exact (Ho2 (u, v) Hin).
Qed.

(** ** Publication of the checkpoint *)

(** What a checkpoint may do to the volume: readers see what they saw, and
    the overlay only loses entries. *)
Record calm V w V' w' : Prop := {
  ca_superblock : vo_superblock V' = vo_superblock V;
  ca_geometry : vgeom V' = vgeom V;
  ca_enabled : supports_discard V' = supports_discard V;
  ca_same : same_views none V w V' w';
  ca_overlay u v : oget V' u = Some v → oget V u = Some v;
  ca_boundary : boundary V' = boundary V;
  ca_durable : journal_durable_sequence V' = journal_durable_sequence V;
  ca_appended : journal_appended_sequence V' = journal_appended_sequence V
}.

Lemma same_views_refl X V w : same_views X V w V w.
Proof. by intros u _ _. Qed.

Lemma calm_refl V w : calm V w V w.
Proof. split; try done; apply same_views_refl. Qed.

Lemma calm_trans V w V1 w1 V2 w2 : calm V w V1 w1 → calm V1 w1 V2 w2 → calm V w V2 w2.
Proof.
  intros [B1 G1 E1 S1 O1 Y1 D1 A1] [B2 G2 E2 S2 O2 Y2 D2 A2]. split; try congruence; [|auto].
  intros u Hu _ Hs. destruct (S1 u Hu (λ f, f) Hs) as [<- Hs1]. apply S2; [|by intros []|done].
  unfold device, vgeom in *. by rewrite G1.
Qed.

Lemma tends_calm its V w s' w' : tends its V w s' w' → calm V w (set_store s' V) w'.
Proof.
  intros Ht. split; try done; [apply (te_store _ _ _ _ _ Ht)|apply (te_store _ _ _ _ _ Ht)|by eapply tends_same].
Qed.

Lemma world_calm V w w' : keeps data_file w w' → calm V w V w'.
Proof.
  intros Hk. rewrite <- (set_store_id V) at 2. eapply (tends_calm []), tends_quiet. by apply undisturbed_keeps.
Qed.

Lemma delete_piece L V w c r V' w' :
  volume_ok L V w → on_journal (Journal.delete_covered c) (V, w) = (r, (V', w')) →
  volume_ok L V' w' ∧ calm V w V' w' ∧ vo_overlay V' = vo_overlay V ∧ vo_ck_state V' = vo_ck_state V ∧ vo_store V' = vo_store V.
Proof.
  intros Hok (j' & Hr & ->)%on_journal_inv.
  destruct (delete_covered_ok _ _ _ _ _ _ _ (vk_writer _ _ _ Hok) Hr) as [Hw' Hc Hd _ _ Hk]. injection Hc as _ _ _ Hap _.
  assert (Journal.j_appended_sequence j' = journal_appended_sequence V) as Ha by exact Hap.
  split; [eapply ok_journal; [exact Hok|exact Hw'|exact Hk|rewrite Hd; apply Z.le_refl|rewrite Ha; apply Z.le_refl]|].
  split; [|done]. destruct (world_calm V w w' (data_keeps _ _ Hk)) as [_ _ _ Hs _ _]. split; try done.
Qed.

Lemma sync_dir_piece L V w d r V' w' :
  validate d true = Ok tt → volume_ok L V w → v_io (b_sync_dir d) (V, w) = (r, (V', w')) →
  V' = V ∧ volume_ok L V w' ∧ calm V w V w' ∧ keeps data_file w w'.
Proof.
  intros Hd Hok [-> (r0 & Hr & _)%m_map_err_inv]%on_world_inv. split; [done|].
  destruct (law_sync_dir _ _ _ _ (ok_inv _ _ (vk_store _ _ _ Hok)) Hd Hr) as [Hk _].
  split; [eapply ok_world; [done|by apply keeps_all]|]. split; [apply world_calm|]; by apply keeps_all.
Qed.

(** Nothing in the overlay is as old as the checkpoint. *)
Definition retired_below V : Prop := ∀ u v, oget V u = Some v → checkpoint_sequence V < Overlay.sequence v.

Lemma retired_same V V' :
  vo_overlay V' = vo_overlay V → vo_ck_state V' = vo_ck_state V → retired_below V → retired_below V'.
Proof. unfold retired_below, checkpoint_sequence. by intros -> ->. Qed.

(** The entries a checkpoint covers leave the overlay. *)
Lemma retire_piece L V w :
  volume_ok L V w → let V' := set_overlay (Overlay.retire (checkpoint_sequence V) (vo_overlay V)) V in
  volume_ok L V' w ∧ calm V w V' w ∧ retired_below V'.
Proof.
  intros Hok. cbv zeta. pose proof (vk_overlay _ _ _ Hok) as Ho. pose proof (proj1 (oo_wf _ _ _ _ Ho)) as Hm.
  pose proof (vk_checkpoint _ _ _ Hok) as Hc. set (c := checkpoint_sequence V) in *. set (o' := Overlay.retire c (vo_overlay V)).
  assert (∀ u v, Overlay.get o' u = Some v → oget V u = Some v) as Hsub.
  { intros u v. unfold o'. rewrite retire_get by done. destruct (oget V u) as [x|]; [|done]. by destruct (_ <=? _). }
  assert (Overlay.durable_boundary o' = boundary V) as Hb by (unfold o'; by rewrite Overlay.retire_eq).
  split; [|split].
  - destruct Hok as [Hw Hst Hg Hr _ _ Hck Ha Hmk]. split; [exact Hw|exact Hst|exact Hg|exact Hr| | |exact Hck| |exact Hmk].
    + apply (overlay_retire (vgeom V) (journal_appended_sequence V) (journal_durable_sequence V)); [exact Ho|lia].
    + change (0 ≤ c ≤ Overlay.durable_boundary o'). lia.
    + intros u v Hv. apply Ha. by apply Hsub.
  - split; [done|done|done| |exact Hsub|exact Hb|done|done]. intros u Hu _ Hs. unfold vol_view, vol_steady in *.
    change (vo_overlay (set_overlay o' V)) with o'. unfold o'. rewrite retire_get by done.
    destruct (oget V u) as [v|] eqn:Hv; [|done]. destruct (Z.leb_spec (Overlay.sequence v) c) as [Hle|]; [|done].
    destruct (version_sized _ _ _ _ _ Hok Hv) as [Hdu Hsz].
    exact (in_slot_view _ _ _ _ (vk_store _ _ _ Hok) Hdu Hsz (vk_applied _ _ _ Hok u v Hv Hle)).
  - intros u v. change (Overlay.get o' u = Some v → c < Overlay.sequence v). unfold o'. rewrite retire_get by done.
    destruct (oget V u) as [x|]; [|done]. destruct (Z.leb_spec (Overlay.sequence x) c); [done|]. by intros [= <-].
Qed.

(** *** Reclamation *)

(** Discarded units outside the overlay read as zeros before and after. *)
Lemma reclaim_piece L V w (r : result CoreError unit) V' w' :
  volume_ok L V w → reclaim (V, w) = (r, (V', w')) →
  volume_ok L V' w' ∧ calm V w V' w' ∧ vo_overlay V' = vo_overlay V ∧ vo_ck_state V' = vo_ck_state V ∧ r = Ok tt.
Proof.
  intros Hok Hr. unfold reclaim in Hr.
  apply m_bind_inv in Hr as [(? & [? ?] & [= <- <- <-] & Hr)|(e & [=] & _)]. cbn [fst] in Hr.
  apply m_bind_inv in Hr as [(r1 & [V1 w1] & (r2 & Hs & _)%m_try_inv & [= <- <- <-])|(e & (? & _ & [=])%m_try_inv & _)].
  apply on_store_inv in Hs as (s' & Hs & ->). set (free := λ u, Store.is_none (oget V u)) in *.
  pose proof (vk_store _ _ _ Hok) as Hst. destruct (retry_shards _ _ _ _ _ _ Hs) as [Hsh _].
  destruct (sound_retry_reclamation free _ _ Hst _ _ _ Hs) as (Hst' & He & _).
  pose proof (undisturbed_evolves _ _ _ _ _ _ Hst Hst' He) as Hud. pose proof (ud_geometry _ _ _ _ _ Hud) as Hg.
  assert (∀ u, reclaimable free (vo_store V) u → oget V u = None ∧ unit_discarded (vo_store V) u = true) as Hrec.
  { intros u (Hf & sh & Hl & Hd). unfold free in Hf. destruct (oget V u); [done|]. split; [done|].
    unfold unit_discarded. by rewrite Hl. }
  assert (∀ u, unit_discarded s' u = unit_discarded (vo_store V) u) as Hsame.
  { intros u. unfold unit_discarded. by rewrite Hsh, Hg. }
  split; [eapply ok_store; [exact Hok|exact Hst'|exact He|intros u Hu; by apply Hrec]|]. split; [|done].
  split; try done; [exact (ud_enabled _ _ _ _ _ Hud)|]. intros u Hu _ Hs'. unfold vol_view, vol_steady in *.
  change (vo_overlay (set_store s' V)) with (vo_overlay V). change (vo_store (set_store s' V)) with s'.
  assert (supports_discard (set_store s' V) = supports_discard V) as -> by exact (ud_enabled _ _ _ _ _ Hud).
  destruct (oget V u) as [v|] eqn:Hv; [done|].
  destruct (unit_discarded (vo_store V) u) eqn:Hd.
  - rewrite (discarded_view _ w1 u) by (by rewrite Hsame). rewrite (discarded_view _ w u Hd). split; [done|].
    right. left. by rewrite Hsame.
  - apply (ud_view _ _ _ _ _ Hud); [done| |done]. intros [_ Hx]%Hrec. congruence.
Qed.

(** Tombstones of the overlay that are in their slots. *)
Definition entombed V (us : list Z) : Prop :=
  ∀ u, u ∈ us → ∃ v, oget V u = Some v ∧ Overlay.sequence v ≤ checkpoint_sequence V ∧
    st_discard_enabled (vo_store V) && is_empty_version v = true.

Lemma release_piece L V w us r V' w' :
  volume_ok L V w → entombed V us → release us (V, w) = (r, (V', w')) →
  volume_ok L V' w' ∧ calm V w V' w' ∧ vo_overlay V' = vo_overlay V ∧ vo_ck_state V' = vo_ck_state V ∧ is_ok r = true.
Proof.
  intros Hok Hus Hr. unfold release in Hr. case_bool_decide as Hn.
  { injection Hr as <- <- <-. split; [done|]. split; [apply calm_refl|done]. }
  apply m_bind_inv in Hr as [(? & [? ?] & [= <- <- <-] & Hr)|(e & [=] & _)]. cbn [fst] in Hr.
  apply m_bind_inv in Hr as [(r1 & [V1 w1] & (r2 & Hs & [= ->])%m_try_inv & Hr)|(e & (? & _ & [=])%m_try_inv & _)].
  apply on_world_inv in Hs as [-> Hs]. pose proof (vk_store _ _ _ Hok) as Hst.
  destruct (wsound_punch_slots us _ _ Hst _ _ Hs) as [Hd _].
  assert (placed (vo_store V) (λ u, u ∈ us)) as Hpl.
  { intros u idx k Hu Hsu. destruct (Hus u Hu) as (v & Hv & Hle & _). pose proof (proj1 (vk_applied _ _ _ Hok u v Hv Hle)) as Hsh.
    by rewrite Hsu in Hsh. }
  pose proof (evolves_world _ _ _ _ _ Hd) as He. pose proof (store_ok_world _ _ _ _ _ Hst Hpl Hd) as Hst1.
  assert (volume_ok L V w1) as Hok1.
  { rewrite <- (set_store_id V). eapply ok_store_held; [done|exact Hst1|exact He|]. intros u v Hv Hle Hi.
    destruct (decide (u ∈ us)) as [Hu|Hu]; [right|by left]. destruct (Hus u Hu) as (x & Hx & _ & Hem).
    assert (x = v) as -> by congruence. destruct Hi as [Hi1 Hi2]. split; [done|]. by rewrite Hem in *. }
  assert (calm V w V w1) as Hc1.
  { rewrite <- (set_store_id V) at 2. eapply (tends_calm []). split; [|by intros ? ? ?%not_elem_of_nil].
    eapply undisturbed_weaken; [|by eapply undisturbed_evolves]. intros u Hu. destruct (Hus u Hu) as (v & -> & _). by eexists. }
  destruct r2 as [[]|e].
  { injection Hr as <- <- <-. split; [done|]. split; [done|done]. }
  apply m_bind_inv in Hr as [([] & [V2 w2] & (s2 & Hsch & ->)%on_store_inv & [= <- <- <-])|(e' & (s2 & Hsch & ->)%on_store_inv & ->)]; [|done].
  destruct (sound_schedule_reclamation _ _ Hst1 _ _ _ Hsch) as (Hst2 & He2 & _).
  destruct (ok_store_quiet _ _ _ _ _ _ Hok1 Hst2 He2) as [Hok2 Hl2]. split; [done|]. split; [|done].
  eapply calm_trans; [exact Hc1|]. eapply (tends_calm []), tends_quiet. apply Hl2.
Qed.

(** *** The checkpoint state *)

Lemma checkpoint_sides q : is_side checkpoint_store q → ¬ (owned q ∨ data_file q).
Proof.
  intros [-> | ->] [[[i Hi]|[Hi|[Hi|Hi]]]|[i Hi]]; discriminate Hi.
Qed.

Lemma checkpoint_wf (c : Checkpoint.CheckpointState) : Checkpoint.checkpoint_ok c → ab_wf c.
Proof. done. Qed.

Lemma ck_state_piece L V w h r V' w' :
  volume_ok L V w → checkpoint_sequence V ≤ h ≤ boundary V →
  (∀ u v, oget V u = Some v → Overlay.sequence v ≤ h → in_slot (vo_store V) w u v) →
  store_ck_state h (V, w) = (r, (V', w')) →
  volume_ok L V' w' ∧ calm V w V' w' ∧ vo_overlay V' = vo_overlay V ∧ vo_store V' = vo_store V ∧
  match r with Ok _ => checkpoint_sequence V' = h | Err _ => V' = V end.
Proof.
  intros Hok Hh Hap Hr. unfold store_ck_state in Hr. pose proof (ok_inv _ _ (vk_store _ _ _ Hok)) as Hi.
  apply m_bind_inv in Hr as [(? & [? ?] & [= <- <- <-] & Hr)|(e & [=] & _)]. cbn [fst] in Hr.
  set (rec := Checkpoint.mkCheckpointState _ h) in *. destruct (vk_state _ _ _ Hok) as [Hgen Hseq].
  assert (Checkpoint.checkpoint_ok rec) as Hwf.
  { split; [exact Hgen|]. pose proof (sh_next _ _ (proj1 (vk_writer _ _ _ Hok))) as [Hn Hmax].
    pose proof (oo_boundary _ _ _ _ (vk_overlay _ _ _ Hok)) as Hb. pose proof (vk_checkpoint _ _ _ Hok).
    pose proof (sh_durable _ _ (proj1 (vk_writer _ _ _ Hok))). unfold journal_durable_sequence in *.
    unfold u64_ok, U64_MAX in *. simpl. lia. }
  assert (∀ w1 (r1 : result CoreError Checkpoint.CheckpointState), core_format (store_record checkpoint_store rec) w = (r1, w1) →
    keeps (λ q, owned q ∨ data_file q) w w1) as Hkeep.
  { intros w1 r1 Hs.
    assert (frames (λ q, ¬ is_side checkpoint_store q) (core_format (store_record checkpoint_store rec))) as Hfr
      by (apply frames_core_format, frames_store_record; [apply checkpoint_store_ok|exact Hwf]).
    eapply keeps_weaken; [|exact (Hfr _ _ _ Hi Hs)]. intros q Hq Hside. by apply (checkpoint_sides q). }
  assert (∀ w1, keeps (λ q, owned q ∨ data_file q) w w1 → volume_ok L V w1 ∧ calm V w V w1) as Hquiet.
  { intros w1 Hk. split; [by eapply ok_world|]. apply world_calm. eapply keeps_weaken; [|exact Hk]. by right. }
  apply m_bind_inv in Hr as [(c & [V1 w1] & [-> Hs0]%on_world_inv & Hr)|(e & [-> Hs0]%on_world_inv & ->)];
    destruct (Hquiet _ (Hkeep _ _ Hs0)) as [Hok1 Hc1]; [|done].
  assert (Checkpoint.checkpoint_ok c ∧ Checkpoint.checkpoint_sequence c = h) as [Hcok Hch].
  { apply core_format_ok, store_record_ok in Hs0.
    by destruct (store_result (T := Checkpoint.CheckpointState) checkpoint_store rec w c w1 Hi checkpoint_store_ok (checkpoint_wf _ Hwf) Hs0) as (? & next & ->). }
  apply m_bind_inv in Hr as [([] & [V2 w2] & Hd & Hr)|(e & Hd & ->)];
    destruct (sync_dir_piece _ _ _ CHECKPOINT_DIR _ _ _ eq_refl Hok1 Hd) as (-> & Hok2 & Hc2 & Hk2);
    pose proof (calm_trans _ _ _ _ _ _ Hc1 Hc2) as Hc; [|done].
  injection Hr as <- <- <-. split; [|split; [|split; [done|split; [done|exact Hch]]]].
  - assert (keeps data_file w w2) as Hkd.
    { eapply keeps_trans; [|exact Hk2]. eapply keeps_weaken; [|exact (Hkeep _ _ Hs0)]. by right. }
    destruct Hok2 as [Hw Hst Hg Hr Ho Hck _ Ha Hmk]. split; [exact Hw|exact Hst|exact Hg|exact Hr|exact Ho| |exact Hcok| |exact Hmk].
    + change (0 ≤ Checkpoint.checkpoint_sequence c ≤ boundary V). rewrite Hch. lia.
    + change (∀ u v, oget V u = Some v → Overlay.sequence v ≤ Checkpoint.checkpoint_sequence c → in_slot (vo_store V) w2 u v).
      rewrite Hch. intros u v Hv Hle. destruct (version_sized _ _ _ _ _ Hok Hv).
      apply (ud_slot none _ _ _ _ (undisturbed_keeps none (vo_store V) w w2 Hkd)); [done|by intros []|done|by apply Hap].
  - destruct Hc as [C1 C2 C3 C4 C5 C6 C7 C8].
    split; [exact C1|exact C2|exact C3|exact C4|exact C5|exact C6|exact C7|exact C8].
Qed.

(** *** The whole of it *)

Lemma quiet_piece {A} L V w (m : M (SlotStore * W) CoreError A) r V' w' Q :
  sound nothing m (vo_store V) w Q → volume_ok L V w → on_store m (V, w) = (r, (V', w')) →
  volume_ok L V' w' ∧ calm V w V' w' ∧ vo_overlay V' = vo_overlay V ∧ vo_ck_state V' = vo_ck_state V.
Proof.
  intros Hm Hok (s' & Hr & ->)%on_store_inv. destruct (Hm _ _ _ Hr) as (Hst & He & _).
  destruct (ok_store_quiet _ _ _ _ _ _ Hok Hst He) as [Hok' Hl]. split; [done|]. split; [|done].
  eapply (tends_calm []), tends_quiet. apply Hl.
Qed.

(** What the end of a checkpoint leaves. *)
Record finished L V w (r : result CoreError Z) V' w' : Prop := {
  fi_ok : volume_ok L V' w';
  fi_calm : calm V w V' w';
  fi_state : checkpoint_sequence V ≤ checkpoint_sequence V';
  fi_retired n : r = Ok n → checkpoint_sequence V' = n ∧ retired_below V'
}.

Lemma finished_err L V w e V' w' :
  volume_ok L V' w' → calm V w V' w' → vo_ck_state V' = vo_ck_state V → finished L V w (Err e) V' w'.
Proof. intros Hok Hc Hs. split; [done|done| |done]. unfold checkpoint_sequence. rewrite Hs. apply Z.le_refl. Qed.

Lemma finished_calm L V w V1 w1 r V' w' :
  calm V w V1 w1 → vo_ck_state V1 = vo_ck_state V → finished L V1 w1 r V' w' → finished L V w r V' w'.
Proof.
  intros Hc Hs [F1 F2 F3 F4]. split; [done|by eapply calm_trans| |done]. unfold checkpoint_sequence in *. by rewrite <- Hs.
Qed.

(** The tail both ways of finishing end with. *)
Lemma reclaim_tail L V w (b : bool) n r V' w' :
  volume_ok L V w → retired_below V → checkpoint_sequence V = n →
  (let* _ := m_when b reclaim in m_ret n) (V, w) = (r, (V', w')) → finished L V w r V' w'.
Proof.
  intros Hok Hre Hn Hr.
  apply m_bind_inv in Hr as [([] & [V1 w1] & H1' & [= <- <- <-])|(e & H1' & ->)]; destruct b; cbn [m_when] in H1'.
  - destruct (reclaim_piece _ _ _ _ _ _ Hok H1') as (Hok1 & Hc1 & Ho1 & Hs1 & _).
    assert (checkpoint_sequence V1 = n) as Hn1 by (unfold checkpoint_sequence in *; by rewrite Hs1).
    split; [done|done|rewrite Hn, Hn1; apply Z.le_refl|]. intros x [= <-]. split; [done|]. by eapply retired_same.
  - injection H1' as <- <-. split; [done|apply calm_refl|apply Z.le_refl|]. by intros x [= <-].
  - destruct (reclaim_piece _ _ _ _ _ _ Hok H1') as (_ & _ & _ & _ & [=]).
  - done.
Qed.

(** Pending repairs of the metadata. *)
Lemma repairs_piece L V w (b : bool) (r : result CoreError unit) V' w' :
  volume_ok L V w →
  m_when b (let* _ := on_store persist_discards in on_store persist_allocations) (V, w) = (r, (V', w')) →
  volume_ok L V' w' ∧ calm V w V' w' ∧ vo_overlay V' = vo_overlay V ∧ vo_ck_state V' = vo_ck_state V.
Proof.
  intros Hok Hr. destruct b; cbn [m_when] in Hr; [|injection Hr as <- <- <-; split; [done|]; split; [apply calm_refl|done]].
  apply m_bind_inv in Hr as [([] & [V1 w1] & H1' & Hr)|(e & H1' & ->)];
    destruct (quiet_piece _ _ _ _ _ _ _ _ (sound_persist_discards _ _ (vk_store _ _ _ Hok)) Hok H1') as (Hok1 & Hc1 & Ho1 & Hs1); [|done].
  destruct (quiet_piece _ _ _ _ _ _ _ _ (sound_persist_allocations _ _ (vk_store _ _ _ Hok1)) Hok1 Hr) as (Hok2 & Hc2 & Ho2 & Hs2).
  split; [done|]. split; [by eapply calm_trans|]. split; congruence.
Qed.

Lemma sync_journal_piece L V w (b : bool) (r : result CoreError unit) V' w' :
  volume_ok L V w → m_when b (v_io (b_sync_dir JOURNAL_DIR)) (V, w) = (r, (V', w')) →
  V' = V ∧ volume_ok L V w' ∧ calm V w V w'.
Proof.
  intros Hok Hr. destruct b; cbn [m_when] in Hr; [|injection Hr as <- <- <-; split; [done|]; split; [done|apply calm_refl]].
  destruct (sync_dir_piece _ _ _ JOURNAL_DIR _ _ _ eq_refl Hok Hr) as (-> & ? & ? & _). done.
Qed.

Lemma finish_idle_ok L V w r V' w' :
  volume_ok L V w → finish_idle (checkpoint_sequence V) (V, w) = (r, (V', w')) → finished L V w r V' w'.
Proof.
  intros Hok Hr. unfold finish_idle in Hr.
  apply m_bind_inv in Hr as [([] & [V1 w1] & H1' & Hr)|(e & [=] & _)].
  pose proof (retire_piece L V w Hok) as Hrp. cbv zeta in Hrp. injection H1' as HV <-. cbn [fst] in HV. rewrite HV in Hrp.
  destruct Hrp as (Hok1 & Hc1 & Hre1). assert (vo_ck_state V1 = vo_ck_state V) as Hs1 by (by rewrite <- HV).
  eapply finished_calm; [exact Hc1|exact Hs1|].
  assert (checkpoint_sequence V = checkpoint_sequence V1) as Hn1 by (unfold checkpoint_sequence; by rewrite Hs1).
  rewrite Hn1 in Hr. clear Hok Hc1 Hs1 HV Hn1. set (c := checkpoint_sequence V1) in *.
  apply m_bind_inv in Hr as [(? & [? ?] & [= <- <- <-] & Hr)|(e & [=] & _)]. cbn [fst] in Hr.
  apply m_bind_inv in Hr as [([] & [V2 w2] & H2' & Hr)|(e & H2' & ->)];
    destruct (repairs_piece _ _ _ _ _ _ _ Hok1 H2') as (Hok2 & Hc2 & Ho2 & Hs2); [|by apply finished_err].
  eapply finished_calm; [exact Hc2|exact Hs2|].
  apply m_bind_inv in Hr as [(n & [V3 w3] & H3' & Hr)|(e & H3' & ->)];
    destruct (delete_piece _ _ _ _ _ _ _ Hok2 H3') as (Hok3 & Hc3 & Ho3 & Hs3 & _); [|by apply finished_err].
  eapply finished_calm; [exact Hc3|exact Hs3|].
  assert (retired_below V3) as Hre3 by (apply (retired_same V1); [congruence|congruence|done]).
  assert (checkpoint_sequence V3 = c) as Hn3 by (unfold c, checkpoint_sequence; congruence).
  apply m_bind_inv in Hr as [([] & [V4 w4] & H4' & Hr)|(e & H4' & ->)];
    destruct (sync_journal_piece _ _ _ _ _ _ _ Hok3 H4') as (-> & Hok4 & Hc4); [|by apply finished_err].
  eapply finished_calm; [exact Hc4|done|]. by eapply (reclaim_tail L V3 w4 true c).
Qed.

(** The items of a live plan that go into no slot, in their slots. *)
Lemma punchable_entombed V w p V' :
  plan_live V w p (items p) [] → base_checkpoint p < horizon p → vo_overlay V' = vo_overlay V →
  st_discard_enabled (vo_store V') = st_discard_enabled (vo_store V) → checkpoint_sequence V' = horizon p →
  (∀ u v, (u, v) ∈ items p → Overlay.sequence v ≤ horizon p) →
  entombed V' (punchable (allow_discard p) (items p) (vo_overlay V)).
Proof.
  intros Hp Hlt Ho He Hc Hle u Hu. unfold punchable in Hu. destruct (allow_discard p) eqn:Hall; [|by apply not_elem_of_nil in Hu].
  apply list_elem_of_fmap in Hu as ([u' v] & -> & Hin). apply list_elem_of_In, filter_In in Hin as [Hin%list_elem_of_In Hb].
  cbn [fst snd] in *. apply andb_true_iff in Hb as [Hem Hb]. destruct (pl_held _ _ _ _ _ Hp u' v Hin) as (x & Hx & Hcase).
  rewrite Hx in Hb. apply Z.leb_le in Hb. assert (x = v) as -> by (destruct Hcase as [|Hgt]; [done|specialize (Hle _ _ Hin); lia]).
  exists v. rewrite Ho, Hc, He. split; [done|]. split; [by apply (Hle u')|].
  pose proof (pl_discard _ _ _ _ _ Hp) as Hd. rewrite Hall in Hd. unfold supports_discard, Store.supports_discard in Hd.
  by rewrite <- Hd, Hem.
Qed.

(** The journal, the overlay and the slots after the checkpoint is stored. *)
Lemma finish_tail L V w us h r V' w' :
  volume_ok L V w → entombed V us → checkpoint_sequence V = h →
  (let* reclamation_failed := release us in
   let* _ := on_journal (Journal.delete_covered h) in
   let* _ := v_io (b_sync_dir JOURNAL_DIR) in
   let* _ := modify_state (λ V0, set_overlay (Overlay.retire h (vo_overlay V0)) V0) in
   let* _ := m_when (negb reclamation_failed) reclaim in
   m_ret h) (V, w) = (r, (V', w')) → finished L V w r V' w'.
Proof.
  intros Hok Hus Hh Hr.
  apply m_bind_inv in Hr as [(b & [V1 w1] & H1' & Hr)|(e & H1' & ->)];
    destruct (release_piece _ _ _ _ _ _ _ Hok Hus H1') as (Hok1 & Hc1 & Ho1 & Hs1 & _); [|by apply finished_err].
  eapply finished_calm; [exact Hc1|exact Hs1|].
  apply m_bind_inv in Hr as [(n & [V2 w2] & H2' & Hr)|(e & H2' & ->)];
    destruct (delete_piece _ _ _ _ _ _ _ Hok1 H2') as (Hok2 & Hc2 & Ho2 & Hs2 & _); [|by apply finished_err].
  eapply finished_calm; [exact Hc2|exact Hs2|].
  apply m_bind_inv in Hr as [([] & [V3 w3] & H3' & Hr)|(e & H3' & ->)];
    destruct (sync_dir_piece _ _ _ JOURNAL_DIR _ _ _ eq_refl Hok2 H3') as (-> & Hok3 & Hc3 & _); [|by apply finished_err].
  eapply finished_calm; [exact Hc3|done|].
  assert (checkpoint_sequence V2 = h) as Hh2 by (unfold checkpoint_sequence in *; congruence).
  apply m_bind_inv in Hr as [([] & [V4 w4] & H4' & Hr)|(e & [=] & _)].
  pose proof (retire_piece L V2 w3 Hok3) as Hrp. cbv zeta in Hrp. injection H4' as HV <-. cbn [fst] in HV. rewrite <- Hh2 in HV. rewrite HV in Hrp.
  destruct Hrp as (Hok4 & Hc4 & Hre4). assert (vo_ck_state V4 = vo_ck_state V2) as Hs4 by (by rewrite <- HV).
  eapply finished_calm; [exact Hc4|exact Hs4|]. eapply reclaim_tail; [done|done| |exact Hr].
  unfold checkpoint_sequence in *. by rewrite Hs4.
Qed.

Lemma finish_ok L V w p r V' w' :
  volume_ok L V w → plan_live V w p (items p) [] → finish_checkpoint p (V, w) = (r, (V', w')) → finished L V w r V' w'.
Proof.
  intros Hok Hp Hr. unfold finish_checkpoint in Hr. pose proof (finished_err L V w CoreDurability V w Hok (calm_refl V w) eq_refl) as Hsame.
  apply m_bind_inv in Hr as [(? & [? ?] & [= <- <- <-] & Hr)|(e & [=] & _)]. cbn [fst] in Hr.
  apply m_bind_inv in Hr as [([] & [? ?] & [= _ <- <-] & Hr)|(e & [= _ <- <-] & ->)];
    [|by apply finished_err; [|apply calm_refl|]].
  rewrite (pl_base _ _ _ _ _ Hp), Z.eqb_refl in Hr. cbn [negb] in Hr.
  destruct (Z.leb_spec (horizon p) (checkpoint_sequence V)) as [|Hlt]; [by apply finish_idle_ok|].
  rewrite <- (pl_base _ _ _ _ _ Hp) in Hlt.
  assert (∀ st, publishing L V w p st → volume_ok L st.1 st.2 ∧ calm V w st.1 st.2 ∧ vo_overlay st.1 = vo_overlay V ∧ vo_ck_state st.1 = vo_ck_state V) as Hpub.
  { intros st (s' & Hs & Hoks & Ht). split; [done|]. rewrite Hs. split; [|done]. by eapply tends_calm. }
  apply m_bind_inv in Hr as [([] & [V1 w1] & H1' & Hr)|(e & H1' & ->)];
    destruct (publish_items_ok _ _ _ _ _ _ _ Hok Hp H1') as [HP1 Hin1]; destruct (Hpub _ HP1) as (Hok1 & Hc1 & Ho1 & Hs1);
    cbn [fst snd] in *; [|by apply finished_err]. specialize (Hin1 eq_refl).
  apply m_bind_inv in Hr as [(? & [? ?] & [= <- <- <-] & Hr)|(e & [=] & _)]. cbn [fst] in Hr.
  apply m_bind_inv in Hr as [([] & [V2 w2] & H2' & Hr)|(e & H2' & ->)];
    destruct (publishing_quiet L V w p _ V1 w1 _ _ _ _ (sound_persist_allocations _ _ (vk_store _ _ _ Hok1)) HP1 H2') as [HP2 Hk2];
    destruct (Hpub _ HP2) as (Hok2 & Hc2 & Ho2 & Hs2); cbn [fst snd] in *; [|by apply finished_err].
  assert (checkpoint_sequence V2 = base_checkpoint p) as Hb2 by (rewrite (pl_base _ _ _ _ _ Hp); unfold checkpoint_sequence; by rewrite Hs2).
  assert (boundary V2 = boundary V) as Hbd by (by rewrite Ho2). pose proof (pl_horizon _ _ _ _ _ Hp) as Hho.
  assert (∀ u v, oget V2 u = Some v → Overlay.sequence v ≤ horizon p → in_slot (vo_store V2) w2 u v) as Hap2.
  { intros u v Hv Hle. rewrite Ho2 in Hv. pose proof (pl_complete _ _ _ _ _ Hp u v Hlt Hv Hle) as Hin.
    destruct (publishing_sized _ _ _ _ _ _ _ _ Hp HP1 Hin). apply Hk2; [done|done|]. by apply Hin1. }
  apply m_bind_inv in Hr as [([] & [V3 w3] & H3' & Hr)|(e & H3' & ->)];
    destruct (ck_state_piece L V2 w2 (horizon p) _ _ _ Hok2 ltac:(lia) Hap2 H3') as (Hok3 & Hc3 & Ho3 & Ht3 & Hs3);
    pose proof (calm_trans _ _ _ _ _ _ Hc2 Hc3) as Hc23; cycle 1.
  { subst V'. by apply finished_err. }
  assert (finished L V3 w3 r V' w') as [F1 F2 F3 F4].
  { eapply (finish_tail L V3 w3); [done| |exact Hs3|exact Hr]. rewrite Ho1. eapply punchable_entombed; [done|done|congruence| |done|].
    - rewrite Ht3. destruct HP2 as (s2 & HV2 & _ & Ht2). cbn [fst snd] in HV2. rewrite HV2. exact (ud_enabled _ _ _ _ _ (te_store _ _ _ _ _ Ht2)).
    - intros u v. apply (pl_below _ _ _ _ _ Hp). }
  split; [done|by eapply calm_trans| |done]. rewrite Hs3 in F3. rewrite (pl_base _ _ _ _ _ Hp) in Hlt. lia.
Qed.
End Checkpoint.
