(* ===== verification/Replay.v ===== *)
(** * Replay: moving the accepted records into their slots

    [apply_replay_batch] writes the newest record of every unit of a batch,
    syncs the shards it wrote, and brings the allocation and the discard maps
    in line.  When it succeeds the store alone shows, for every unit of the
    batch, its newest record; every other unit is as it was.  The second scan
    of recovery hands the batches over, so that replaying the accepted
    segments leaves every unit at its newest accepted record. *)

From S2P Require Import Prelude BTreeMap Codec Layout Geometry AbRecord Metadata Superblock JournalFormat Backing AbStore FixedCopy DurableProof JournalWriter JournalProof JournalDurability RecoveryScan Volumes JournalScan SlotStore Recovery StoreData Adopt StoreProof StoreReads StoreOpen StoreRuns Overlay Volume VolumeState VolumeOps VolumeCheckpoint.
Import Store Volume.
Import (hints) Metadata.Catalog Metadata.Allocation Metadata.Checkpoint.

Local Open Scope Z_scope.

(** ** The newest record of a unit *)

Definition latest (u : Z) (l : list JournalRecord) : option JournalRecord :=
  list.last (filter (λ r, unit_index r = u) l).

Definition touched (l : list JournalRecord) (u : Z) : Prop := ∃ r, r ∈ l ∧ unit_index r = u.

Lemma latest_app u l l' : latest u (l ++ l') = match latest u l' with Some r => Some r | None => latest u l end.
Proof. unfold latest. rewrite list.filter_app. apply last_app. Qed.

Lemma latest_snoc u l r : latest u (l ++ [r]) = if decide (unit_index r = u) then Some r else latest u l.
Proof.
  rewrite latest_app. unfold latest at 1. rewrite list.filter_cons, list.filter_nil. by destruct (decide (unit_index r = u)).
Qed.

Lemma latest_elem u l r : latest u l = Some r → r ∈ l ∧ unit_index r = u.
Proof. unfold latest. intros Hl%last_Some_elem_of%list_elem_of_filter. naive_solver. Qed.

Lemma latest_touched u l : touched l u → is_Some (latest u l).
Proof.
  intros (r & Hr & <-). induction l as [|x l IH] using rev_ind; [by apply not_elem_of_nil in Hr|].
  rewrite latest_snoc. destruct (decide _) as [|Hne]; [by eexists|]. apply IH.
  apply elem_of_app in Hr as [?| ->%list_elem_of_singleton]; done.
Qed.

Lemma latest_filter (P : JournalRecord → bool) u l r :
  latest u l = Some r → P r = true → latest u (List.filter P l) = Some r.
Proof.
  induction l as [|x l IH] using rev_ind; [done|]. rewrite latest_snoc, List.filter_app. cbn [List.filter].
  destruct (decide (unit_index x = u)) as [Hx|Hne].
  - intros [= ->] ->. rewrite latest_snoc. by rewrite decide_True.
  - intros Hl Hp. destruct (P x); [rewrite latest_snoc, decide_False by done|rewrite app_nil_r]; by apply IH.
Qed.

Lemma latest_sequences_lookup u l : latest_sequences l !! u = sequence <$> latest u l.
Proof.
  unfold latest_sequences. induction l as [|r l IH] using rev_ind; [done|]. rewrite foldl_snoc, latest_snoc.
  destruct (decide (unit_index r = u)) as [<-|Hne]; [by rewrite lookup_insert_eq|]. by rewrite lookup_insert_ne.
Qed.

Definition rver (r : JournalRecord) : Overlay.OverlayVersion := Overlay.mkVersion (sequence r) (payload r).

Lemma rver_empty r : is_empty_version (rver r) = bool_decide (payload r = []).
Proof. done. Qed.

(** The slot a record would go to exists and holds it. *)
Record replayable (g : Geometry) (r : JournalRecord) : Prop := {
  ra_unit : 0 ≤ unit_index r < num_units g;
  ra_sequence : u64_ok (sequence r) ∧ 0 < sequence r;
  ra_payload : blen (payload r) ≤ max_ciphertext_size g
}.

Section Replay.
Context `{Crc32} `{BackingLaws W F} `{HasherLaws HT} `{HashOrder}.
Implicit Types (s : SlotStore (F := F)) (w : W) (l : list JournalRecord) (r : JournalRecord).

Lemma replayable_fits s r :
  replayable (st_geometry s) r → device s (unit_index r) ∧ slot_sized s (rver r).
Proof. intros [Hu [? ?] ?]. by split; [|split]. Qed.

(** A loop that knows how far it is. *)
Lemma sound_each_prefix {X} U (f : X → M (SlotStore * W) CoreError unit) (I : list X → SlotStore → W → Prop) (l : list X) s w :
  store_ok s w → I [] s w →
  (∀ pre x s1 w1, (pre ++ [x]) `prefix_of` l → store_ok s1 w1 → evolves U true s w s1 w1 → I pre s1 w1 →
    sound U (f x) s1 w1 (λ _, I (pre ++ [x]))) →
  sound U (m_each f l) s w (λ _, I l).
Proof.
  intros Hok HI Hf. assert (∀ rest pre s1 w1, pre ++ rest = l → store_ok s1 w1 → evolves U true s w s1 w1 → I pre s1 w1 →
    sound U (m_each f rest) s1 w1 (λ _, I l)) as Hgo; [|by apply (Hgo l []); [..|apply evolves_refl|]].
  induction rest as [|x rest IH]; intros pre s1 w1 Hl Hok1 He1 HI1; cbn [m_each].
  { rewrite app_nil_r in Hl. subst. by apply sound_ret. }
  rewrite cons_middle, (assoc_L (++)) in Hl.
  eapply sound_bind; [apply Hf; [by eexists|done|done|done]|]. intros [] s2 w2 Hok2 He2 HI2.
  eapply IH; [exact Hl|done| |done]. exact (evolves_trans _ _ _ _ _ _ _ _ _ He1 He2).
Qed.

Lemma opened_evolves U ok s w s' w' idx : evolves U ok s w s' w' → is_Some (st_shards s !! idx) → is_Some (st_shards s' !! idx).
Proof. intros He [sh Hs]. destruct (ev_shards _ _ _ _ _ _ He _ _ Hs) as (sh' & -> & _). by eexists. Qed.

Lemma quiet_in_slot ok s w s' w' u r :
  store_ok s w → store_ok s' w' → evolves nothing ok s w s' w' → replayable (st_geometry s) r ∧ unit_index r = u →
  in_slot s w u (rver r) → in_slot s' w' u (rver r).
Proof.
  intros Hok Hok' He [Hr <-]. destruct (replayable_fits s r Hr).
  apply (ud_slot _ _ _ _ _ (undisturbed_evolves _ _ _ _ _ _ Hok Hok' He)); [done|by intros []|done].
Qed.

Section Batch.
Context (l : list JournalRecord) (s0 : SlotStore (F := F)) (w0 : W).
Context (Hok0 : store_ok s0 w0) (Hmarks : unmarked s0) (Hfits : Forall (replayable (st_geometry s0)) l).

Abbreviation g := (st_geometry s0).
Abbreviation allow := (st_discard_enabled s0).

(** A record that goes into a slot, rather than only marking it. *)
Definition goes r : bool := negb allow || negb (bool_decide (payload r = [])).

(** Every unit whose newest record of [done] goes into a slot has it there. *)
Definition holding (done : list JournalRecord) w : Prop :=
  ∀ u r, latest u done = Some r → goes r = true → slot_holds g u (rver r) w.

Lemma latest_fits u l' r : latest u l' = Some r → (∀ x, x ∈ l' → x ∈ l) → replayable g r ∧ unit_index r = u.
Proof.
  intros [Hin Hu]%latest_elem Hsub. split; [|done]. exact (proj1 (list.Forall_forall _ _) Hfits r (Hsub r Hin)).
Qed.

(** Work on no unit keeps what the slots hold. *)
Lemma holding_quiet ok done s w s' w' :
  (∀ x, x ∈ done → x ∈ l) → store_ok s w → st_geometry s = g → evolves nothing ok s w s' w' →
  holding done w → holding done w'.
Proof.
  intros Hsub Hok Hg He Hh u r Hl Hgo. destruct (latest_fits u done r Hl Hsub) as [Hr <-]. rewrite <- Hg in *.
  destruct (replayable_fits s r Hr). eapply holds_evolves; [exact Hok|exact He|done|by intros []|done|]. rewrite Hg. by apply Hh.
Qed.

Lemma writes_sub x : x ∈ latest_writes allow l → x ∈ l.
Proof. unfold latest_writes. rewrite !list_elem_of_In, filter_In. tauto. Qed.

Lemma writes_newest u r : latest u l = Some r → goes r = true → latest u (latest_writes allow l) = Some r.
Proof.
  intros Hl Hg. apply latest_filter; [done|]. unfold goes in Hg. rewrite Hg, andb_true_r. apply bool_decide_eq_true.
  destruct (latest_elem _ _ _ Hl) as [_ <-]. by rewrite latest_sequences_lookup, Hl.
Qed.

Lemma sound_writes :
  sound (touched l) (m_each (λ r, write_slot (unit_index r) (sequence r) (payload r)) (latest_writes allow l)) s0 w0
    (λ _ _ w, holding l w).
Proof.
  set (writes := latest_writes allow l).
  assert (∀ pre x, (pre ++ [x]) `prefix_of` writes → ∀ y, y ∈ pre ++ [x] → y ∈ l) as Hpre.
  { intros pre x [k Hk] y Hy. apply writes_sub. fold writes. rewrite Hk. apply elem_of_app. by left. }
  eapply sound_weaken.
  - apply (sound_each_prefix (touched l) _ (λ done _ w, ∀ u r, latest u done = Some r → slot_holds g u (rver r) w)); [done|done|].
    intros pre x s1 w1 Hp Hok1 He1 HI. pose proof (Hpre pre x Hp) as Hsub.
    assert (x ∈ l) as Hx by (apply Hsub; set_solver).
    pose proof (proj1 (list.Forall_forall _ _) Hfits x Hx) as Hr. pose proof (ev_geometry _ _ _ _ _ _ He1) as Hg1.
    eapply sound_weaken; [apply sound_write_slot; [done|apply Hr]|intros ? ->; by exists x|].
    intros [] s2 w2 _ He2 (_ & _ & Hw & _) u r. rewrite latest_snoc. destruct (decide (unit_index x = u)) as [<-|Hne].
    + intros [= <-]. rewrite Hg1 in Hw. unfold written in Hw. unfold slot_holds. destruct (shard_of_unit _ _). apply Hw.
    + intros Hl. destruct (latest_fits u pre r Hl ltac:(intros y Hy; apply Hsub; set_solver)) as [Hrr <-].
      rewrite <- Hg1 in *. destruct (replayable_fits s1 r Hrr).
      eapply holds_evolves; [exact Hok1|exact He2|done|congruence|done|]. by apply HI.
  - done.
  - intros [] s1 w1 _ _ HI u r Hl Hgo. by apply HI, writes_newest.
Qed.

Lemma sound_syncs idxs s w :
  store_ok s w → st_geometry s = g → holding l w →
  sound (touched l) (m_each sync_shard_data idxs) s w (λ _ _ w', holding l w').
Proof.
  intros Hok Hg Hh. eapply sound_each; [done|done|]. intros idx s1 w1 _ Hok1 He1 HI1.
  apply sound_inner. eapply sound_weaken; [by apply sound_sync_shard_data|done|].
  intros [] s2 w2 _ He2 _. eapply holding_quiet; [done|exact Hok1| |exact He2|done]. by rewrite (ev_geometry _ _ _ _ _ _ He1).
Qed.

Lemma sound_marks s w :
  store_ok s w → st_geometry s = g → holding l w →
  sound (touched l) (m_each (λ r, m_when (negb allow || negb (bool_decide (payload r = []))) (mark_allocated (unit_index r))) l) s w
    (λ _ s' w', holding l w' ∧ ∀ r, r ∈ l → goes r = true → is_Some (st_shards s' !! (shard_of_unit g (unit_index r)).1)).
Proof.
  intros Hok Hg Hh. apply (sound_each_prefix _ _ (λ done s' w', holding l w' ∧ ∀ r, r ∈ done → goes r = true →
    is_Some (st_shards s' !! (shard_of_unit g (unit_index r)).1))); [done|split; [done|]; by intros r ?%not_elem_of_nil|].
  intros pre x s1 w1 [k Hk] Hok1 He1 [Hh1 Ho1]. pose proof (ev_geometry _ _ _ _ _ _ He1) as Hg1. rewrite Hg in Hg1.
  assert (x ∈ l) as Hx by (rewrite Hk; set_solver). pose proof (proj1 (list.Forall_forall _ _) Hfits x Hx) as Hr.
  fold (goes x). apply sound_when; [done| |].
  - intros Hgo r s2 w2 Hm. destruct (sound_mark_allocated _ _ _ Hok1 (proj1 (ra_unit _ _ Hr)) _ _ _ Hm) as (Hok2 & He2 & HQ).
    destruct (mark_allocated_split _ _ _ _ _ _ Hok1 (proj1 (ra_unit _ _ Hr)) Hm) as (s3 & _ & He3 & _).
    split; [done|]. split; [apply (evolves_weaken (λ y, y = unit_index x) _ (is_ok r)); [intros ? ->; by exists x|done|done]|].
    intros [] ->. split; [eapply holding_quiet; [done|exact Hok1|done|exact He3|done]|].
    intros y [Hy| ->%list_elem_of_singleton]%elem_of_app Hgy; [eapply opened_evolves; [exact He2|by apply Ho1]|].
    destruct (HQ tt eq_refl) as (sh & Hs & _). rewrite Hg1 in Hs. by eexists.
  - intros Hgo. split; [done|]. intros y [Hy| ->%list_elem_of_singleton]%elem_of_app Hgy; [by apply Ho1|congruence].
Qed.

Lemma sound_flags s w :
  store_ok s w → st_geometry s = g → holding l w →
  sound (touched l) (m_each (λ r, set_discarded (unit_index r) (bool_decide (payload r = []))) l) s w
    (λ _ s' w', holding l w' ∧ ∀ u r, latest u l = Some r →
      is_Some (st_shards s' !! (shard_of_unit g u).1) ∧ unit_discarded s' u = bool_decide (payload r = [])).
Proof.
  intros Hok Hg Hh. apply (sound_each_prefix _ _ (λ done s' w', holding l w' ∧ ∀ u r, latest u done = Some r →
      is_Some (st_shards s' !! (shard_of_unit g u).1) ∧ unit_discarded s' u = bool_decide (payload r = []))); [done|done|].
  intros pre x s1 w1 [k Hk] Hok1 He1 [Hh1 Hd1]. pose proof (ev_geometry _ _ _ _ _ _ He1) as Hg1. rewrite Hg in Hg1.
  assert (x ∈ l) as Hx by (rewrite Hk; set_solver). pose proof (proj1 (list.Forall_forall _ _) Hfits x Hx) as Hr.
  eapply sound_weaken; [apply sound_set_discarded; [done|apply Hr]|intros ? ->; by exists x|].
  intros [] s2 w2 _ He2 (-> & sh & Hs & Hb). pose proof (ev_geometry _ _ _ _ _ _ He2) as Hg2. rewrite Hg1 in Hg2, Hs, Hb.
  split; [done|]. intros u r. rewrite latest_snoc. destruct (decide (unit_index x = u)) as [<-|Hne].
  - intros [= <-]. split; [by eexists|]. unfold unit_discarded. by rewrite Hg2, Hs.
  - intros Hl. destruct (Hd1 u r Hl) as [Ho Hd]. split; [by eapply opened_evolves|]. rewrite <- Hd.
    destruct (latest_fits u pre r Hl ltac:(intros y Hy; rewrite Hk; set_solver)) as [Hrr <-].
    eapply discarded_evolves; [exact Hok1|exact He2|apply Hrr|congruence].
Qed.

Lemma flagged_in_slot s w :
  store_ok s w → evolves (touched l) true s0 w0 s w → holding l w →
  (∀ u r, latest u l = Some r → (goes r = true → is_Some (st_shards s !! (shard_of_unit g u).1)) ∧
    (allow = true → is_Some (st_shards s !! (shard_of_unit g u).1) ∧ unit_discarded s u = bool_decide (payload r = []))) →
  ∀ u r, latest u l = Some r → in_slot s w u (rver r).
Proof.
  intros Hok He Hh Hfl u r Hl. destruct (Hfl u r Hl) as [Ho Hd]. specialize (Hh u r Hl).
  unfold in_slot. rewrite (ev_geometry _ _ _ _ _ _ He), (ev_enabled _ _ _ _ _ _ He), rver_empty. unfold goes in *.
  destruct allow eqn:Hen; cbn [negb orb andb] in *.
  - destruct (Hd eq_refl) as [Hs ->]. split; [done|]. by destruct (bool_decide (payload r = [])); [|split; [apply Hh|]].
  - split; [by apply Ho|]. split; [by apply Hh|]. eapply unmarked_flag; [by eapply unmarked_evolves|].
    by rewrite (ev_enabled _ _ _ _ _ _ He).
Qed.

Lemma sound_apply_batch :
  sound (touched l) (apply_replay_batch l allow) s0 w0
    (λ _ s w, ∀ u r, latest u l = Some r → in_slot s w u (rver r)).
Proof.
  unfold apply_replay_batch. destruct (bool_decide_reflect (l = [])) as [Hnil|_]; [apply sound_ret; [done|by rewrite Hnil]|].
  eapply sound_bind; [exact sound_writes|]. intros [] s1 w1 Hok1 He1 Hh1.
  eapply sound_bind; [by apply (sound_get _ s1 w1 (λ _ s w, s = s1 ∧ w = w1))|]. intros a s1' w1' _ _ [-> ->].
  pose proof (ev_geometry _ _ _ _ _ _ He1) as Hg1.
  eapply sound_bind; [by apply sound_syncs|]. intros [] s2 w2 Hok2 He2 Hh2.
  pose proof (evolves_trans _ _ _ _ _ _ _ _ _ He1 He2) as He02. pose proof (ev_geometry _ _ _ _ _ _ He02) as Hg2.
  eapply sound_bind; [by apply sound_marks|]. intros [] s3 w3 Hok3 He3 [Hh3 Ho3].
  pose proof (evolves_trans _ _ _ _ _ _ _ _ _ He02 He3) as He03. pose proof (ev_geometry _ _ _ _ _ _ He03) as Hg3.
  apply (sound_bind _ _ _ _ _ (λ _ s w, ∀ u r, latest u l = Some r → in_slot s w u (rver r))).
  - apply sound_when; [done| |].
    + intros Hen. eapply sound_bind; [by apply sound_flags|]. intros [] s4 w4 Hok4 He4 [Hh4 Hd4].
      pose proof (evolves_trans _ _ _ _ _ _ _ _ _ He03 He4) as He04.
      eapply sound_inner, sound_weaken; [by apply sound_persist_discards|done|].
      intros [] s5 w5 Hok5 He5 _ u r Hl. eapply quiet_in_slot; [exact Hok4|exact Hok5|exact He5| |].
      * rewrite (ev_geometry _ _ _ _ _ _ He04). by apply (latest_fits u l).
      * eapply flagged_in_slot; [done|done|done| |done]. intros u' r' Hl'. split; [|by intros _; apply Hd4].
        intros Hgo. by apply Hd4 with r'.
    + intros Hen. apply flagged_in_slot; [done|done|done|]. intros u r Hl. split; [|congruence].
      intros Hgo. destruct (latest_elem _ _ _ Hl) as [Hin <-]. by apply Ho3.
  - intros [] s4 w4 Hok4 He4 Hin. pose proof (evolves_trans _ _ _ _ _ _ _ _ _ He03 He4) as He04.
    eapply sound_inner, sound_weaken; [by apply sound_persist_allocations|done|].
    intros [] s5 w5 Hok5 He5 _ u r Hl. eapply quiet_in_slot; [exact Hok4|exact Hok5|exact He5| |by apply Hin].
    rewrite (ev_geometry _ _ _ _ _ _ He04). by apply (latest_fits u l).
Qed.
End Batch.

(** ** The second scan *)

Lemma undisturbed_inv X (s s' : SlotStore (F := F)) w w' :
  undisturbed X s w s' w' → st_geometry s' = st_geometry s ∧ st_discard_enabled s' = st_discard_enabled s.
Proof. by intros [? ? _ _ _ _]. Qed.

(** The records [l] were handed over: those before the batch are in their
    slots, and no other unit was disturbed. *)
Record replaying (s0 : SlotStore (F := F)) (w0 : W) l (b : Batch (F := F)) w : Prop := {
  rp_ok : store_ok (ba_store b) w;
  rp_marks : unmarked (ba_store b);
  rp_fits : Forall (replayable (st_geometry s0)) l;
  rp_done : ∃ applied, l = applied ++ ba_records b ∧ undisturbed (touched applied) s0 w0 (ba_store b) w ∧
    ∀ u r, latest u applied = Some r → in_slot (ba_store b) w u (rver r)
}.

Lemma rp_same s0 w0 l b w : replaying s0 w0 l b w →
  st_geometry (ba_store b) = st_geometry s0 ∧ st_discard_enabled (ba_store b) = st_discard_enabled s0.
Proof. intros [_ _ _ (a & _ & Hud & _)]. by eapply undisturbed_inv. Qed.

Lemma replaying_keeps s0 w0 l b w w' : keeps (λ _, True) w w' → replaying s0 w0 l b w → replaying s0 w0 l b w'.
Proof.
  intros Hk Hrp. destruct (rp_same _ _ _ _ _ Hrp) as [Hg _]. destruct Hrp as [Hok Hm Hf (a & Hl & Hud & Hin)].
  assert (keeps data_file w w') as Hkd by (by eapply keeps_weaken; [|exact Hk]).
  pose proof (undisturbed_keeps nothing (ba_store b) w w' Hkd) as Hud'.
  split; [by eapply store_ok_keeps|done|done|]. exists a. split; [done|]. split.
  - eapply undisturbed_trans; [done|]. by eapply undisturbed_keeps.
  - intros u r Hr. destruct (latest_elem _ _ _ Hr) as [Hel <-].
    assert (replayable (st_geometry (ba_store b)) r) as Hra.
    { rewrite Hg. apply (proj1 (list.Forall_forall _ _) Hf). rewrite Hl. set_solver. }
    destruct (replayable_fits _ _ Hra). apply (ud_slot _ _ _ _ _ Hud'); [done|by intros []|done|by apply Hin].
Qed.

Lemma rec_of_core_diverge e : rec_of_core e ≠ RecDiverge.
Proof. by destruct e. Qed.

Lemma touched_app l l' u : touched l u ∨ touched l' u ↔ touched (l ++ l') u.
Proof. unfold touched. set_solver. Qed.

Lemma apply_batch_ok s0 w0 l b w res w' :
  replaying s0 w0 l b w → apply_batch (st_discard_enabled s0) b w = (res, w') →
  keeps foreign w w' ∧ res ≠ Err RecDiverge ∧
  ∀ b', res = Ok b' → replaying s0 w0 l b' w' ∧ ba_records b' = [].
Proof.
  intros Hrp Hr. destruct (rp_same _ _ _ _ _ Hrp) as [Hg Hen]. destruct Hrp as [Hok Hm Hf (a & Hl & Hud & Hin)].
  unfold apply_batch, m_bind, with_store in Hr.
  destruct (apply_replay_batch (ba_records b) (st_discard_enabled s0) (ba_store b, w)) as [r [s' w1]] eqn:Ha.
  assert (Forall (replayable (st_geometry (ba_store b))) (ba_records b)) as Hfb.
  { rewrite Hg. rewrite Hl in Hf. by apply Forall_app in Hf as [_ ?]. }
  rewrite <- Hen in Ha. destruct (sound_apply_batch (ba_records b) (ba_store b) w Hok Hm Hfb _ _ _ Ha) as (Hok' & He & HQ).
  destruct r as [[]|e]; injection Hr as <- <-; (split; [apply (ev_data _ _ _ _ _ _ He)|]); (split; [|]).
  - done.
  - intros b' [= <-]. split; [|done]. pose proof (undisturbed_evolves _ _ _ _ _ _ Hok Hok' He) as Hud'.
    split; cbn [ba_store ba_records]; [done|by eapply unmarked_evolves|done|]. exists l. split; [by rewrite app_nil_r|].
    split.
    + rewrite Hl. eapply undisturbed_trans; (eapply undisturbed_weaken; [|done]); intros u Hu; apply touched_app; auto.
    + intros u r. rewrite Hl, latest_app. destruct (latest u (ba_records b)) as [x|] eqn:Hx.
      * intros [= <-]. by apply (HQ tt eq_refl).
      * intros Hr. destruct (latest_elem _ _ _ Hr) as [Hel Hu].
        assert (replayable (st_geometry (ba_store b)) r) as Hra.
        { rewrite Hg. apply (proj1 (list.Forall_forall _ _) Hf). rewrite Hl. set_solver. }
        destruct (replayable_fits _ _ Hra). rewrite Hu in *. apply (ud_slot _ _ _ _ _ Hud'); [done| |done|by apply Hin].
        intros Ht%latest_touched. rewrite Hx in Ht. by destruct Ht.
  - intros [= He']. by apply (rec_of_core_diverge e).
  - done.
Qed.

Lemma accept_record_ok s0 w0 l r b w res w' :
  replayable (st_geometry s0) r → replaying s0 w0 l b w →
  accept_record (st_discard_enabled s0) r b w = (res, w') →
  keeps foreign w w' ∧ (∀ b', res = Ok b' → replaying s0 w0 (l ++ [r]) b' w') ∧ res ≠ Err RecDiverge.
Proof.
  intros Hra Hrp Hr. unfold accept_record in Hr. pose proof (ok_inv _ _ (rp_ok _ _ _ _ _ Hrp)) as Hi.
  assert (∀ (r1 : result RecoveryError Batch) w1, (if negb (bool_decide (ba_records b = [])) &&
      (REPLAY_BATCH_BYTES <? saturating_add (ba_bytes b) (saturating_add RECORD_HEADER_SIZE (blen (payload r))))
    then apply_batch (st_discard_enabled s0) b else m_ret b) w = (r1, w1) →
    keeps foreign w w1 ∧ r1 ≠ Err RecDiverge ∧ ∀ b1, r1 = Ok b1 → replaying s0 w0 l b1 w1) as Hfirst.
  { intros r1 w1 Hr1. destruct (_ && _).
    - destruct (apply_batch_ok _ _ _ _ _ _ _ Hrp Hr1) as (? & ? & Hb). split; [done|]. split; [done|]. intros b1 ->. by apply Hb.
    - injection Hr1 as <- <-. split; [by apply keeps_refl|]. split; [done|]. by intros b1 [= <-]. }
  apply m_bind_inv in Hr as [(b1 & w1 & Hr1 & Hr)|(e & He & ->)]; cycle 1.
  { destruct (Hfirst _ _ He) as (? & Hd & _). split; [done|]. split; [done|]. congruence. }
  destruct (Hfirst _ _ Hr1) as (Hk1 & _ & Hb1). specialize (Hb1 b1 eq_refl). cbv zeta in Hr.
  set (b2 := mkBatch (ba_store b1) (ba_records b1 ++ [r]) _) in Hr.
  assert (replaying s0 w0 (l ++ [r]) b2 w1) as Hrp2.
  { destruct Hb1 as [Hok Hm Hf (a & Hl & Hud & Hin)]. split; [done|done|apply Forall_app; split; [done|by constructor]|].
    exists a. split; [|done]. unfold b2. cbn [ba_records]. by rewrite Hl, <- (assoc_L (++)). }
  destruct (_ <=? _).
  - destruct (apply_batch_ok _ _ _ _ _ _ _ Hrp2 Hr) as (Hk2 & Hd & Hb). split; [by eapply keeps_trans|]. split; [|done].
    intros b' ->. by apply Hb.
  - injection Hr as <- <-. split; [done|]. split; [|done]. by intros b' [= <-].
Qed.

(** Two runs of records with the same bytes are the same. *)
Lemma encode_same first rs rs' :
  consecutive first rs → consecutive first rs' → encode_records rs = encode_records rs' → rs = rs'.
Proof.
  intros Hc Hc' He. destruct (scan_prefix_of (encode_records rs) first None rs [] ltac:(by rewrite app_nil_r) Hc) as (r1 & o1 & H1' & P1).
  destruct (scan_prefix_of (encode_records rs) first None rs' [] ltac:(by rewrite He, app_nil_r) Hc') as (r2 & o2 & H2' & P2).
  rewrite H1' in H2'. injection H2' as <- _.
  assert (∀ a b : list JournalRecord, a `prefix_of` b → encode_records a = encode_records b → a = b) as Hpre.
  { intros a b [k ->] Hk. rewrite encode_records_app in Hk. rewrite <- (app_nil_r (encode_records a)) in Hk at 1.
    apply app_inv_head in Hk. destruct k as [|x k]; [by rewrite app_nil_r|]. apply (f_equal length) in Hk.
    rewrite encode_records_cons, length_app, length_encode_record in Hk. unfold HEADER in Hk. simpl in Hk. lia. }
  destruct (prefix_weak_total _ _ _ P1 P2) as [Hp|Hp]; [by apply Hpre|symmetry; by apply Hpre].
Qed.

(** A segment that holds exactly its records. *)
Record segment_holds (sb : Superblock) (segment : Journal.SegmentInfo) rs w : Prop := {
  sh_vis : vis w (journal_segment (Journal.s_index segment)) =
    Some (seg_content (Superblock.volume_uuid sb) (Journal.s_index segment) (Journal.s_base_sequence segment) rs);
  sh_records : consecutive (Journal.s_base_sequence segment) rs;
  sh_uuid : length (Superblock.volume_uuid sb) = 16%nat;
  sh_size : Journal.s_size segment = SEGMENT_HEADER_SIZE + blen (encode_records rs);
  sh_u64 : Journal.s_size segment ≤ U64_MAX;
  sh_end : 0 ≤ Journal.s_record_count segment ∧
    Journal.s_base_sequence segment + Journal.s_record_count segment ≤ U64_MAX
}.

Lemma segment_holds_keeps (P : string → Prop) sb segment rs w w' :
  keeps P w w' → P (journal_segment (Journal.s_index segment)) → segment_holds sb segment rs w → segment_holds sb segment rs w'.
Proof. intros Hk HP []. split; try done. by rewrite (keeps_vis _ _ _ _ Hk HP). Qed.

Lemma replay_segment_ok sb ck s0 w0 segment rs l b w b' w' :
  0 ≤ ck → st_geometry s0 = Superblock.geometry sb → segment_holds sb segment rs w → replaying s0 w0 l b w →
  replay_segment (HT := HT) sb ck (st_discard_enabled s0) segment b w = (Ok b', w') →
  replaying s0 w0 (l ++ uncovered ck rs) b' w' ∧ keeps foreign w w'.
Proof.
  intros Hck Hgeo Hseg Hrp Hr. unfold replay_segment in Hr. set (p := journal_segment (Journal.s_index segment)) in *.
  destruct Hseg as [Hv Hc Huu Hsz Hu Hb]. set (c := seg_content (Superblock.volume_uuid sb) _ _ rs) in *. fold p in Hv.
  assert (blen c = Journal.s_size segment) as Hcl by (unfold c, seg_content; rewrite blen_app, header_length by done; lia).
  apply m_bind_ok in Hr as (f & w1 & Ho%rec_io_ok & Hr). apply m_bind_ok in Hr as (header & w2 & Hrd%rec_io_ok & Hr).
  apply m_bind_ok in Hr as (decoded & w2' & Hdec & Hr). injection Hdec as _ <-.
  destruct (_ || _) in Hr; [done|]. apply m_bind_ok in Hr as (body_len & w2' & Hbl & Hr). injection Hbl as Hbl <-.
  destruct (Z.ltb_spec (Journal.s_size segment) SEGMENT_HEADER_SIZE); [done|]. injection Hbl as <-.
  apply m_bind_ok in Hr as ([res b1] & w3 & Hsc & Hr).
  destruct (Z.eqb_spec (b_valid_body_bytes res) (Journal.s_size segment - SEGMENT_HEADER_SIZE)) as [Hbytes|];
    [|by rewrite orb_true_r in Hr].
  destruct (Z.eqb_spec (b_record_count res) (Journal.s_record_count segment)) as [Hcount|]; [|done].
  destruct (_ || _) in Hr; [done|]. injection Hr as <- <-.
  destruct (law_open w p false (Ok f) w1 (ok_inv _ _ (rp_ok _ _ _ _ _ Hrp)) (segment_valid _) Ho) as (Hk1 & Hf & _).
  assert (keeps (λ _, True) w w1) as Hk1' by (eapply keeps_weaken; [|exact Hk1]; intros q _; by right; right).
  destruct (Hf f eq_refl) as (Hh & _).
  destruct (law_read w1 f p c 0 SEGMENT_HEADER_SIZE (Ok header) w2 (keeps_inv _ _ _ Hk1) Hh) as (Hk2 & _);
    [by rewrite (keeps_vis _ _ _ _ Hk1' I)|done|done|done|exact Hrd|].
  pose proof (keeps_trans _ _ _ _ Hk1' Hk2) as Hk12.
  assert (foreign p) as Hfor by (apply owned_foreign; left; by eexists).
  set (sc := mkSegmentScanner f header _ _ _ _ _ _) in Hsc.
  destruct (scan_ok sc p c ltac:(simpl; lia) ltac:(simpl; lia) ltac:(simpl; lia) (accept_record (st_discard_enabled s0))
    (λ l' b1 w1, replaying s0 w0 (l ++ l') b1 w1) foreign Hfor) with (5 := Hsc) as (Hk3 & _ & Hres & _).
  - intros l' b2 v v' Hk. by apply replaying_keeps.
  - intros l' r b2 v r1 v' _ Ho' Hrp' Ha. rewrite (assoc_L (++)). eapply accept_record_ok; [|exact Hrp'|exact Ha].
    rewrite Hgeo. destruct Ho' as ([Hu1 Hm1] & (Hs1 & [Hu2 _] & _) & Hgt). cbn in Hu1, Hm1, Hgt. by split; [|split; [|lia]|].
  - split; [by eapply keeps_inv|]. split; [by apply (keeps_handle _ _ _ _ _ Hk2)|].
    split; [by rewrite (keeps_vis _ _ _ _ Hk12 I)|lia].
  - rewrite app_nil_r. by eapply replaying_keeps.
  - destruct (Hres _ _ eq_refl) as (rs' & Hsr & Hrp3). cbn [sc_checkpoint_sequence sc] in Hrp3.
    split; [|eapply keeps_trans; [by eapply keeps_weaken; [|exact Hk12]|exact Hk3]].
    replace rs with rs'; [done|]. symmetry. pose proof (sr_count _ _ _ _ Hsr) as Hcnt.
    eapply encode_same; [exact Hc|eapply framed_consecutive; [exact (sr_framed _ _ _ _ Hsr)|simpl; lia]|].
    pose proof (sr_body _ _ _ _ Hsr) as Hp. pose proof (sr_bytes _ _ _ _ Hsr) as Hl.
    assert (body sc c = encode_records rs) as Hbody.
    { unfold body, range_of, c, seg_content. cbn [sc_body_len sc].
      assert (length (SegmentHeader_encode (mkSegmentHeader (Journal.s_index segment) (Superblock.volume_uuid sb)
        (Journal.s_base_sequence segment))) = Z.to_nat SEGMENT_HEADER_SIZE) as Hh48
        by (pose proof (header_length (Journal.s_index segment) (Superblock.volume_uuid sb) (Journal.s_base_sequence segment) Huu); unfold blen in *; lia).
      rewrite drop_app_length' by done. apply take_ge. unfold blen in *. lia. }
    rewrite Hbody in Hp. symmetry. apply prefix_length_eq; [done|]. unfold blen in *. lia.
Qed.

Lemma replay_segments_ok sb ck s0 w0 : 0 ≤ ck → st_geometry s0 = Superblock.geometry sb → ∀ G l b w b' w',
  (∀ t rs, (t, rs) ∈ G → segment_holds sb t rs w) → replaying s0 w0 l b w →
  replay_segments (HT := HT) sb ck (st_discard_enabled s0) G.*1 b w = (Ok b', w') →
  replaying s0 w0 (l ++ log_above ck G) b' w' ∧ keeps foreign w w'.
Proof.
  intros Hck Hgeo. induction G as [|[s rs] G IH]; intros l b w b' w' Hseg Hrp Hr; cbn in Hr.
  { injection Hr as <- <-. rewrite app_nil_r. split; [done|]. apply keeps_refl, (ok_inv _ _ (rp_ok _ _ _ _ _ Hrp)). }
  apply m_bind_ok in Hr as (b1 & w1 & Hs & Hr).
  destruct (replay_segment_ok sb ck s0 w0 s rs l b w b1 w1 Hck Hgeo (Hseg s rs ltac:(by left)) Hrp Hs) as [Hrp1 Hk1].
  destruct (IH _ _ _ _ _ ltac:(intros t rt Ht; eapply segment_holds_keeps; [exact Hk1|apply owned_foreign; left; by eexists|];
    apply Hseg; by right) Hrp1 Hr) as [Hrp2 Hk2].
  split; [|by eapply keeps_trans]. unfold log_above in *. rewrite bind_cons. cbn [snd]. by rewrite (assoc_L (++)).
Qed.

(** Replaying the accepted segments leaves every unit at its newest record
    above the checkpoint, and disturbs no other. *)
Lemma replay_done sb ck s0 w0 G b w1 b' w2 :
  0 ≤ ck → st_geometry s0 = Superblock.geometry sb → store_ok s0 w0 → unmarked s0 →
  (∀ t rs, (t, rs) ∈ G → segment_holds sb t rs w0) →
  replay_segments (HT := HT) sb ck (st_discard_enabled s0) G.*1 (mkBatch s0 [] 0) w0 = (Ok b, w1) →
  apply_batch (st_discard_enabled s0) b w1 = (Ok b', w2) →
  replaying s0 w0 (log_above ck G) b' w2 ∧ ba_records b' = [] ∧ keeps foreign w0 w2.
Proof.
  intros Hck Hgeo Hok Hm Hseg Hr Ha.
  assert (replaying s0 w0 [] (mkBatch s0 [] 0) w0) as Hrp.
  { split; [done|done|constructor|]. exists []. split; [done|]. split; [apply undisturbed_refl|done]. }
  destruct (replay_segments_ok sb ck s0 w0 Hck Hgeo G _ _ _ _ _ Hseg Hrp Hr) as [Hrp1 Hk1].
  destruct (apply_batch_ok _ _ _ _ _ _ _ Hrp1 Ha) as (Hk2 & _ & Hb). destruct (Hb b' eq_refl) as [Hrp2 Hn].
  split; [done|]. split; [done|]. by eapply keeps_trans.
Qed.
End Replay.
