(* ===== verification/Attach.v ===== *)
(** * Attach: a volume that recovery returns

    [Volume.recover] composes every part: the superblock, the durable proof
    and the checkpoint state are loaded, the store is opened, the journal is
    scanned and made durable, its records are moved into their slots, and the
    writer is resumed.  The volume it returns satisfies [volume_ok], and a
    reader sees the newest accepted record of every unit, or what the store
    showed when the journal has none. *)

From S2P Require Import Prelude BTreeMap Codec Layout Geometry AbRecord Metadata Superblock JournalFormat Backing AbStore FixedCopy DurableProof JournalWriter JournalProof JournalDurability RecoveryScan Volumes JournalScan SlotStore Recovery StoreData Adopt StoreProof StoreReads StoreOpen StoreRuns Overlay Volume VolumeState VolumeOps VolumeCheckpoint Replay.
Import Store Volume.
Import (hints) Metadata.Catalog Metadata.Allocation Metadata.Checkpoint.

Local Open Scope Z_scope.

Section Attach.
Context `{Crc32} `{BackingLaws W F} `{HasherLaws HT} `{HashOrder}.
Abbreviation Volume := (Volume (F := F) (HT := HT)).
Implicit Types (V : Volume) (w : W) (u : Z) (s : SlotStore (F := F)).

(** ** What the loaded records guarantee *)

Lemma fixed_at_some {A} w path size magic supported (judge : bytes → fres (option A)) x :
  fixed_at w path size magic supported judge = Ok (Some x) → ∃ c, judge c = Ok (Some x).
Proof.
  unfold fixed_at, content_at. destruct (vis w path) as [c|]; [|done]. destruct (negb _); [by destruct (_ && _)|].
  intros Hj. by exists c.
Qed.

Lemma volume_copy_wf w path v bs : volume_copy w path = Ok (Some (v, bs)) → geometry_wf (Superblock.geometry (superblock v)).
Proof.
  intros (c & Hj)%fixed_at_some. unfold vsb_judge in Hj. destruct (VolumeSuperblock_decode c) as [v'|[]] eqn:Hd; try done.
  injection Hj as <- <-. apply vsb_decode_ok in Hd as ((Hs & _) & _). destruct Hs as (_ & _ & [Ha Hc] & _). by eapply compute_wf.
Qed.

Lemma volume_at_wf w v : volume_at w = Ok v → geometry_wf (Superblock.geometry (superblock v)).
Proof.
  unfold volume_at. intros Hv. inv_res. unfold vsb_select in Hv.
  destruct v0 as [[a ba]|], v1 as [[b bb]|]; simplify_eq/=; inv_res; simplify_eq/=.
  all: try (by eapply volume_copy_wf).
  destruct (_ <=? _); by eapply volume_copy_wf.
Qed.

Lemma proof_copy_wf w path volume_uuid p :
  proof_copy w path volume_uuid = Ok (Some p) → proof_ok p ∧ dp_volume_uuid p = volume_uuid.
Proof.
  intros Hc. apply proof_copy_ok in Hc as [Hc Hu]. split; [|by apply Hu].
  unfold copy_at, decode_copy in Hc. destruct (seen _ _ _) as [bs|]; [|done]. simpl in Hc.
  destruct (dp_decode bs) as [q|] eqn:Hd; simpl in Hc; [|done]. injection Hc as ->. apply dp_decode_ok in Hd. exact (proj2 Hd).
Qed.

Lemma proof_at_wf w volume_uuid p : proof_at w volume_uuid = Ok p → proof_ok p ∧ dp_volume_uuid p = volume_uuid.
Proof.
  unfold proof_at. intros Hv. inv_res. unfold dp_select in Hv.
  destruct v as [a|], v0 as [b|]; simplify_eq/=; inv_res; simplify_eq/=; try (by eapply proof_copy_wf).
  destruct (_ <=? _); inv_res; simplify_eq/=; by eapply proof_copy_wf.
Qed.

(** ** The checkpoint state *)

Lemma load_checkpoint_ok w c w' :
  inv w → load_checkpoint_state w = (Ok c, w') → keeps (λ _, True) w w' ∧ Checkpoint.checkpoint_ok c.
Proof.
  intros Hi Hr. unfold load_checkpoint_state in Hr. apply m_bind_ok in Hr as (o & w1 & Hl%rec_format_ok & Hr).
  destruct (load_peeks (T := Checkpoint.CheckpointState) checkpoint_store w Hi checkpoint_store_ok _ _ Hl) as [Hk Ho].
  injection Hr as Hr <-. split; [done|]. apply ok_or_ok in Hr as ->. destruct (Ho _ eq_refl c eq_refl) as [bs Hd].
  exact (proj2 (Checkpoint.checkpoint_decode_ok _ _ Hd)).
Qed.

Lemma store_checkpoint_ok w c c' w' :
  inv w → Checkpoint.checkpoint_ok c → store_checkpoint_state c w = (Ok c', w') →
  keeps (λ q, ¬ is_side checkpoint_store q) w w' ∧ Checkpoint.checkpoint_ok c' ∧
  Checkpoint.checkpoint_sequence c' = Checkpoint.checkpoint_sequence c.
Proof.
  intros Hi Hc Hr. unfold store_checkpoint_state in Hr. apply m_bind_ok in Hr as (c1 & w1 & Hs%rec_format_ok & Hr).
  apply m_bind_ok in Hr as ([] & w2 & Hd%rec_io_ok & Hr). injection Hr as <- <-.
  pose proof (frames_store_record checkpoint_store c checkpoint_store_ok (checkpoint_wf c Hc) _ _ _ Hi Hs) as Hk1.
  destruct (law_sync_dir w1 CHECKPOINT_DIR (Ok tt) w2 (keeps_inv _ _ _ Hk1) eq_refl Hd) as (Hk2 & _).
  split; [eapply keeps_trans; [exact Hk1|by eapply keeps_weaken; [|exact Hk2]]|].
  apply store_record_ok in Hs.
  by destruct (store_result (T := Checkpoint.CheckpointState) checkpoint_store c w c1 w1 Hi checkpoint_store_ok (checkpoint_wf _ Hc) Hs) as (? & next & ->).
Qed.

(** ** What recovery loads *)

(** Files recovery leaves alone before it replays. *)
Definition outside (q : string) : Prop := ¬ owned q ∧ ¬ is_side checkpoint_store q.

Lemma data_outside q : data_file q → outside q.
Proof. intros Hd. split; [by apply data_unowned|]. intros Hs. apply (checkpoint_sides q Hs). by right. Qed.

Lemma superblock_outside q : q = SUPERBLOCK_A ∨ q = SUPERBLOCK_B → outside q.
Proof.
  intros Hq. split.
  - intros [[i Hi]|[Hi|[Hi|Hi]]]; destruct Hq as [->| ->]; discriminate Hi.
  - intros [Hi|Hi]; destruct Hq as [->| ->]; discriminate Hi.
Qed.

Lemma volume_at_outside w w' : keeps outside w w' → volume_at w' = volume_at w.
Proof.
  intros Hk. unfold volume_at, volume_copy, fixed_at.
  by rewrite !(keeps_vis _ _ _ _ Hk) by (apply superblock_outside; auto).
Qed.

Record loaded w (env : VolumeSuperblock) (p0 : DurableProof) s0 (c0 : Checkpoint.CheckpointState) (js : JournalScan)
    (G : list (Journal.SegmentInfo * list JournalRecord)) (w1 : W) : Prop := {
  ld_keeps : keeps (λ _, True) w w1;
  ld_envelope : volume_at w = Ok env;
  ld_proof : proof_ok p0 ∧ dp_volume_uuid p0 = Superblock.volume_uuid (superblock env);
  ld_store : store_ok s0 w1;
  ld_geometry : st_geometry s0 = Superblock.geometry (superblock env);
  ld_enabled : st_discard_enabled s0 = (metadata_version env =? SUPERBLOCK_VERSION_V3);
  ld_marks : unmarked s0;
  ld_opened : ∃ wa wb, keeps (λ _, True) w wa ∧ Store.open (Superblock.geometry (superblock env)) wa = (Ok s0, wb);
  ld_state : Checkpoint.checkpoint_ok c0;
  ld_checkpoint : ∃ wa wb, keeps (λ _, True) w wa ∧ load_checkpoint_state wa = (Ok c0, wb);
  ld_scan : scan_facts (HT := HT) w (superblock env) (Checkpoint.checkpoint_sequence c0) DiscardRecords js G;
  ld_index : 0 ≤ js_next_segment_index js
}.

Lemma recover_loads segment_size w rc w' :
  inv w → recover_bounded (HT := HT) segment_size w = (Ok rc, w') →
  ∃ env p0 s0 c0 js G w1, loaded w env p0 s0 c0 js G w1 ∧
    let sb := superblock env in let ck := Checkpoint.checkpoint_sequence c0 in
    (let* _ := store_checkpoint_state c0 in
     let* _ := m_each apply_repair (js_repairs js) in
     let* _ := m_each (adopt_prefix (HT := HT)) (js_verified_prefixes js) in
     let* _ := adopt_mark (js_segments js) in
     let* proof := m_lift (adopt_proof js ck p0) in
     let* proof := rec_format (dp_advance proof) in
     let* '(checkpoint_state, store, segments) :=
       (if ck <? js_durable_sequence js
        then let* '(state, store) := checkpoint_validated_replay (HT := HT) sb s0 c0 js in m_ret (state, store, [])
        else m_ret (c0, s0, js_segments js)) in
     let* '(_, store) := with_store persist_discards store in
     m_ret (mkRecovered sb store checkpoint_state (js_durable_sequence js) proof
              (js_next_segment_index js) segments (js_replay js))) w1 = (Ok rc, w').
Proof.
  intros Hi Hr. unfold recover_bounded, recover_with_replay in Hr.
  apply m_bind_ok in Hr as ([] & wa & Hlock & Hr). apply m_map_err_inv in Hlock as (r0 & Hlock & _).
  pose proof (law_try_lock _ _ _ _ Hi Hlock) as Hka.
  pose proof (keeps_inv _ _ _ Hka) as Hia. apply m_bind_ok in Hr as (env & wb & Henv%rec_format_ok & Hr).
  destruct (load_volume_spec wa Hia _ _ Henv) as (Hkb & Hv & _). specialize (Hv env eq_refl).
  pose proof (keeps_inv _ _ _ Hkb) as Hib. destruct (negb _) in Hr; [done|]. cbv zeta in Hr.
  apply m_bind_ok in Hr as (p0 & wc & Hp%rec_format_ok & Hr). destruct (dp_load_spec wb _ Hib _ _ Hp) as (Hkc & Hpv & _).
  specialize (Hpv p0 eq_refl). pose proof (keeps_inv _ _ _ Hkc) as Hic. pose proof (proof_at_wf _ _ _ Hpv) as [Hpok Hpu].
  apply m_bind_ok in Hr as (s0 & wd & Hop%rec_core_ok & Hr). pose proof (volume_at_wf _ _ Hv) as Hg.
  destruct (open_peeks _ wc Hic Hg _ _ Hop) as [Hkd HQ]. destruct (HQ s0 eq_refl) as (Hst & Hge & _ & (env' & Hv' & Hen) & Hmk).
  pose proof (keeps_inv _ _ _ Hkd) as Hid. apply m_bind_ok in Hr as (c0 & we & Hc & Hr).
  destruct (load_checkpoint_ok _ _ _ Hid Hc) as [Hke Hcok]. pose proof (keeps_inv _ _ _ Hke) as Hie.
  apply m_bind_ok in Hr as (js & wf & Hsc & Hr). destruct Hcok as [Hcg Hcs].
  destruct (scan_with_proof_ok (superblock env) _ segment_size (Some p0) DiscardRecords we Hie Hcs _ _ Hsc) as (Hkf & _ & Hjs).
  destruct (Hjs js eq_refl) as [(G & Hsf) Hix].
  assert (keeps (λ _, True) w wb) as Hwb by (by eapply keeps_trans). assert (keeps (λ _, True) w wc) as Hwc by (by eapply keeps_trans).
  assert (keeps (λ _, True) wd wf) as Hdf by (by eapply keeps_trans).
  assert (volume_at wc = Ok env) as Hvc.
  { rewrite <- Hv. apply volume_at_outside. eapply keeps_weaken; [|eapply keeps_trans; [exact Hkb|exact Hkc]]. done. }
  assert (env' = env) as -> by congruence.
  exists env, p0, s0, c0, js, G, wf. split; [|exact Hr]. split; try done.
  - eapply keeps_trans; [exact Hwc|]. by eapply keeps_trans.
  - rewrite <- Hv. symmetry. apply volume_at_outside. by eapply keeps_weaken; [|exact Hka].
  - eapply store_ok_keeps; [by eapply keeps_weaken; [|exact Hdf]|done].
  - by exists wc, wd.
  - exists wd, we. split; [by eapply keeps_trans|done].
  - eapply scan_facts_keeps; [|exact Hsf]. eapply keeps_trans; [exact Hwc|]. by eapply keeps_trans.
  - apply Hix. intros p [= <-]. destruct Hpok as (_ & _ & _ & Hsi & _). unfold u64_ok in Hsi. lia.
Qed.

(** ** Adoption and replay *)
Section Loaded.
Context (w : W) (env : VolumeSuperblock) (p0 : DurableProof) (s0 : SlotStore (F := F)) (c0 : Checkpoint.CheckpointState)
  (js : JournalScan) (G : list (Journal.SegmentInfo * list JournalRecord)) (w1 : W).
Context (Hld : loaded w env p0 s0 c0 js G w1).

Abbreviation sb := (superblock env).
Abbreviation ck := (Checkpoint.checkpoint_sequence c0).
Abbreviation log := (log_above ck G).

Lemma ck_u64 : u64_ok ck.
Proof. exact (proj2 (ld_state _ _ _ _ _ _ _ _ Hld)). Qed.

Lemma owned_or_side q : outside q → ¬ owned q.
Proof. by intros [? _]. Qed.

(** What adoption leaves. *)
Record adoption (p2 : DurableProof) (w2 : W) : Prop := {
  ao_keeps : keeps outside w1 w2;
  ao_stable t rs : (t, rs) ∈ G → stable w2 (journal_segment (Journal.s_index t)) (stored_as sb t rs);
  ao_proof : proof_ok p2 ∧ dp_volume_uuid p2 = Superblock.volume_uuid sb;
  ao_attested : attested w2 p2
}.

Lemma adopts_ok c1 wa wb wc wd p1 p2 w2 :
  store_checkpoint_state c0 w1 = (Ok c1, wa) → m_each apply_repair (js_repairs js) wa = (Ok tt, wb) →
  m_each (adopt_prefix (HT := HT)) (js_verified_prefixes js) wb = (Ok tt, wc) → adopt_mark (js_segments js) wc = (Ok tt, wd) →
  adopt_proof js ck p0 = Ok p1 → dp_advance p1 wd = (Ok p2, w2) → adoption p2 w2.
Proof.
  intros Hc Hrep Hpre Hmark Hp Hadv. pose proof (ld_keeps _ _ _ _ _ _ _ _ Hld) as Hk1. pose proof (ld_scan _ _ _ _ _ _ _ _ Hld) as Hsf.
  destruct (store_checkpoint_ok _ _ _ _ (keeps_inv _ _ _ Hk1) (ld_state _ _ _ _ _ _ _ _ Hld) Hc) as (Hka & _ & _).
  assert (keeps owned w wa) as Hko.
  { eapply keeps_trans; [by eapply keeps_weaken; [|exact Hk1]|]. eapply keeps_weaken; [|exact Hka].
    intros q Ho Hs. apply (checkpoint_sides q Hs). by left. }
  pose proof (scanned_intact _ _ _ _ _ _ Hsf _ Hko) as Hint.
  destruct (apply_repairs_ok _ _ _ _ _ _ Hsf _ _ Hint Hrep) as [Hintb Hkb].
  destruct (adopt_prefixes_ok _ _ _ _ _ _ Hsf _ _ Hintb Hpre) as [Hsy Hkc].
  destruct (adopt_mark_ok _ _ _ _ _ _ Hsf _ _ (keeps_inv _ _ _ Hkc) Hsy Hmark) as [Hkd Hst].
  destruct (ld_proof _ _ _ _ _ _ _ _ Hld) as [Hpok Hpu].
  assert (dp_validate p1 = Ok tt) as Hval.
  { unfold dp_advance in Hadv. apply m_bind_ok in Hadv as ([] & ? & [=] & _). done. }
  pose proof ck_u64 as [Hck0 _].
  destruct (adopt_proof_ok _ _ _ _ _ _ Hsf _ _ Hck0 Hpok Hp Hval) as [Hok1 Hu1].
  pose proof (keeps_inv _ _ _ Hkd) as Hid. pose proof (frames_dp_advance p1 Hok1 _ _ _ Hid Hadv) as Hke.
  destruct (advance_attests p1 p2 wd w2 Hid Hok1 Hadv) as (Hok2 & Hat & Hu2 & _).
  split; [| |split; [done|congruence]|done].
  - eapply keeps_trans; [eapply keeps_weaken; [|exact Hka]; by intros q [_ ?]|].
    eapply keeps_trans; [eapply keeps_weaken; [|exact Hkb]; by intros q [? _]|].
    eapply keeps_trans; [eapply keeps_weaken; [|exact Hkc]; by intros q [? _]|].
    eapply keeps_trans; [eapply keeps_weaken; [|exact Hkd]; by intros q [? _]|].
    eapply keeps_weaken; [|exact Hke]. intros q [Ho _] Hs. apply Ho. by right; right.
  - intros s rs Hin. apply (keeps_stable _ _ _ _ _ Hke); [apply segment_not_proof|by apply Hst].
Qed.

Lemma adopted_holds p2 w2 t rs : adoption p2 w2 → (t, rs) ∈ G → segment_holds sb t rs w2.
Proof.
  intros Ha Hin. pose proof (ld_scan _ _ _ _ _ _ _ _ Hld) as Hsf.
  destruct (member_accepted _ _ _ _ _ _ Hsf t rs Hin) as (c & _ & Hacc).
  destruct (accepted_header _ _ _ _ Hacc) as (_ & _ & Hu). destruct (size_u64 _ _ _ _ _ _ Hsf t rs Hin) as [_ Hsz].
  split; [exact (stable_vis _ _ _ (ao_stable _ _ Ha t rs Hin))|apply Hacc|done|apply Hacc|lia|].
  rewrite (ac_count _ _ _ _ Hacc). split; [apply blen_nonneg|apply Hacc].
Qed.

(** What the replay leaves. *)
Record replayed s' (c' : Checkpoint.CheckpointState) (w2 w3 : W) : Prop := {
  re_store : store_ok s' w3;
  re_marks : unmarked s';
  re_state : Checkpoint.checkpoint_ok c';
  re_sequence : Checkpoint.checkpoint_sequence c' = js_durable_sequence js;
  re_others : undisturbed (touched log) s0 w2 s' w3;
  re_log u r : latest u log = Some r → in_slot s' w3 u (rver r) ∧ device s' u ∧ slot_sized s' (rver r);
  re_proof : keeps (is_side proof_store) w2 w3
}.

Lemma replays_ok p2 w2 c' s' w3 :
  adoption p2 w2 → checkpoint_validated_replay (HT := HT) sb s0 c0 js w2 = (Ok (c', s'), w3) → replayed s' c' w2 w3.
Proof.
  intros Ha Hr. unfold checkpoint_validated_replay in Hr. pose proof (ld_scan _ _ _ _ _ _ _ _ Hld) as Hsf.
  pose proof (ao_keeps _ _ Ha) as Hk2. pose proof (keeps_inv _ _ _ Hk2) as Hi2.
  apply m_bind_ok in Hr as (env' & wa & Henv%rec_format_ok & Hr). destruct (load_volume_spec w2 Hi2 _ _ Henv) as (Hka & Hv & _).
  specialize (Hv env' eq_refl). rewrite (volume_at_outside w1 w2 Hk2), (volume_at_outside w w1) in Hv
    by (eapply keeps_weaken; [|exact (ld_keeps _ _ _ _ _ _ _ _ Hld)]; done).
  rewrite (ld_envelope _ _ _ _ _ _ _ _ Hld) in Hv. injection Hv as <-. cbv zeta in Hr.
  rewrite <- (ld_enabled _ _ _ _ _ _ _ _ Hld), (sf_segments _ _ _ _ _ _ Hsf) in Hr.
  apply m_bind_ok in Hr as (b & wb & Hseg & Hr). apply m_bind_ok in Hr as (b' & wc & Hap & Hr).
  apply m_bind_ok in Hr as (c1 & wd & Hc & Hr). apply m_bind_ok in Hr as ([] & we & Hrm & Hr).
  apply m_bind_ok in Hr as ([] & wf & Hd%rec_io_ok & Hr). injection Hr as <- <- <-.
  assert (keeps outside w1 wa) as Hkwa by (eapply keeps_trans; [exact Hk2|]; by eapply keeps_weaken; [|exact Hka]).
  assert (keeps data_file w1 wa) as Hkda by (eapply keeps_weaken; [apply data_outside|exact Hkwa]).
  pose proof ck_u64 as [Hck0 _].
  destruct (replay_done sb ck s0 wa G b wb b' wc Hck0 (ld_geometry _ _ _ _ _ _ _ _ Hld)) as (Hrp & Hnil & Hkc); [| | |exact Hseg|exact Hap|].
  { eapply store_ok_keeps; [exact Hkda|]. apply (ld_store _ _ _ _ _ _ _ _ Hld). }
  { apply (ld_marks _ _ _ _ _ _ _ _ Hld). }
  { intros s rs Hin. eapply segment_holds_keeps; [exact Hka|done|]. by eapply adopted_holds. }
  pose proof (keeps_inv _ _ _ Hkc) as Hic.
  pose proof (sf_next _ _ _ _ _ _ Hsf) as [_ Hdm]. pose proof (sf_durable _ _ _ _ _ _ Hsf) as Hdur.
  assert (Checkpoint.checkpoint_ok (Checkpoint.mkCheckpointState (Checkpoint.generation c0) (js_durable_sequence js))) as Hnew.
  { split; [exact (proj1 (ld_state _ _ _ _ _ _ _ _ Hld))|]. cbn. pose proof (blen_nonneg log). unfold u64_ok, U64_MAX in *. lia. }
  destruct (store_checkpoint_ok _ _ _ _ Hic Hnew Hc) as (Hkd & Hcok & Hcs).
  assert (keeps (λ q, ¬ ∃ i, q = journal_segment i) wd we) as Hke.
  { eapply (m_each_ok _ (λ v, keeps (λ q, ¬ ∃ i, q = journal_segment i) wd v)); [by eapply keeps_refl, keeps_inv| |exact Hrm].
    intros s v v' _ Hkv Hrv%rec_io_ok. destruct (law_remove _ _ _ _ (keeps_inv _ _ _ Hkv) (segment_valid _) Hrv) as (Hkr & _).
    eapply keeps_trans; [exact Hkv|]. eapply keeps_weaken; [|exact Hkr]. intros q Hq ->. apply Hq. by eexists. }
  destruct (law_sync_dir we JOURNAL_DIR (Ok tt) wf (keeps_inv _ _ _ Hke) eq_refl Hd) as (Hkf & _).
  assert (∀ P : string → Prop, (∀ q, P q → (¬ is_side checkpoint_store q) ∧ ¬ ∃ i, q = journal_segment i) → keeps P wc wf) as Hcf.
  { intros P HP. eapply keeps_trans; [eapply keeps_weaken; [|exact Hkd]; by intros q [? _]%HP|].
    eapply keeps_trans; [eapply keeps_weaken; [|exact Hke]; by intros q [_ ?]%HP|]. by eapply keeps_weaken; [|exact Hkf]. }
  assert (keeps data_file wc wf) as Hkdf.
  { apply Hcf. intros q Hq. split; [by apply data_outside|]. intros [i Hi]. apply (data_unowned q Hq). left. by exists i. }
  destruct (rp_same _ _ _ _ _ Hrp) as [Hg' _]. destruct Hrp as [Hok Hm Hf (a & Hl & Hud & Hin)]. rewrite Hnil, app_nil_r in Hl. subst a.
  pose proof (undisturbed_keeps nothing (ba_store b') wc wf Hkdf) as Hud'.
  split; [by eapply store_ok_keeps|done|done|by rewrite Hcs| | |].
  - eapply (undisturbed_trans _ _ _ s0 wa); [apply undisturbed_keeps; by eapply keeps_weaken; [|exact Hka]|].
    eapply undisturbed_trans; [exact Hud|]. by apply undisturbed_keeps.
  - intros u r Hr. destruct (latest_elem _ _ _ Hr) as [Hel Hu].
    assert (replayable (st_geometry (ba_store b')) r) as Hra by (rewrite Hg'; by apply (proj1 (list.Forall_forall _ _) Hf)).
    destruct (replayable_fits _ _ Hra) as [Hdv Hsz]. rewrite Hu in Hdv. split; [|done].
    apply (ud_slot _ _ _ _ _ Hud'); [done|by intros []|done|by apply Hin].
  - eapply keeps_trans; [by eapply keeps_weaken; [|exact Hka]|].
    eapply keeps_trans; [eapply keeps_weaken; [|exact Hkc]; intros q Hq; apply owned_foreign; by right; right|].
    apply Hcf. intros q Hq. split; [|intros [i ->]; by apply (segment_not_proof i)].
    intros Hs. apply (checkpoint_sides q Hs). left. by right; right.
Qed.

(** ** The resumed writer *)

(** The records of the accepted segment with this index. *)
Definition accepted_records (i : Z) : list JournalRecord :=
  match List.find (λ m, Journal.s_index m.1 =? i) G with Some m => m.2 | None => [] end.

Lemma accepted_member t : t ∈ js_segments js → (t, accepted_records (Journal.s_index t)) ∈ G.
Proof.
  pose proof (ld_scan _ _ _ _ _ _ _ _ Hld) as Hsf. rewrite (sf_segments _ _ _ _ _ _ Hsf).
  intros ([t' rs] & -> & Hin)%list_elem_of_fmap. cbn [fst] in *. unfold accepted_records.
  destruct (List.find _ G) as [[x rx]|] eqn:Hf.
  - apply find_some in Hf as [Hx%list_elem_of_In He%Z.eqb_eq]. cbn [fst snd] in *.
    by destruct (members_same _ _ _ _ _ _ Hsf x rx t' rs Hx Hin ltac:(by rewrite He)) as [-> _].
  - apply list_elem_of_In in Hin. pose proof (find_none _ _ Hf _ Hin) as Hn. cbn in Hn. by rewrite Z.eqb_refl in Hn.
Qed.

Lemma resumed_ok segment_size holes p2 w2 w3 segs :
  adoption p2 w2 → segment_size ≤ MAX_JOURNAL_SEGMENT_SIZE →
  keeps (is_side proof_store) w2 w3 → 0 ≤ holes ≤ js_durable_sequence js →
  segs = [] ∨ (segs = js_segments js ∧ holes = ck ∧ keeps owned w2 w3) →
  writer_ok accepted_records
    (Journal.set_holes holes (Journal.resume (HT := HT) (F := F) (Superblock.volume_uuid sb) segment_size
       (js_durable_sequence js) (js_next_segment_index js) segs p2)) w3.
Proof.
  intros Ha Hsize Hk Hholes Hsegs. pose proof (ld_scan _ _ _ _ _ _ _ _ Hld) as Hsf.
  pose proof (sf_next _ _ _ _ _ _ Hsf) as [Hnx Hdm]. pose proof (sf_durable _ _ _ _ _ _ Hsf) as Hdur.
  pose proof (ld_index _ _ _ _ _ _ _ _ Hld) as Hix. destruct (ao_proof _ _ Ha) as [Hpok Hpu]. pose proof ck_u64 as [Hck0 _].
  pose proof (blen_nonneg log) as Hlog. set (j := Journal.set_holes _ _).
  assert (Journal.j_next_sequence j = js_durable_sequence js + 1) as Hnext by (cbn; by rewrite add64_small by lia).
  assert (Journal.segments j = segs) as Hs by (unfold Journal.segments; cbn; apply app_nil_r).
  assert (∀ t, t ∈ segs → t ∈ js_segments js) as Hsub by (destruct Hsegs as [->|(-> & _)]; [by intros t ?%not_elem_of_nil|done]).
  split.
  - split; rewrite ?Hs, ?Hnext; try done.
    + destruct Hpok as (_ & Hu & _). cbn. by rewrite <- Hpu.
    + cbn. unfold Journal.effective_segment_size. change MAX_JOURNAL_SEGMENT_SIZE with 1073741824 in *. unfold SEGMENT_HEADER_SIZE. lia.
    + cbn. lia.
    + cbn. lia.
    + cbn. lia.
    + apply list.Forall_forall. intros t Ht. specialize (Hsub t Ht). pose proof (accepted_member t Hsub) as Hin.
      destruct (member_accepted _ _ _ _ _ _ Hsf _ _ Hin) as (c & _ & Hacc). destruct (sf_ends _ _ _ _ _ _ Hsf t Hsub) as [He Hi].
      destruct (accepted_header _ _ _ _ Hacc) as (_ & [Hi0 _] & _).
      split; [done|apply Hacc|apply Hacc|apply Hacc|apply Hacc|]. rewrite Hnext. done.
    + destruct Hsegs as [->|(-> & -> & _)]; [done|]. apply Hsf.
    + apply list.Forall_forall. intros t Ht. apply (sf_ends _ _ _ _ _ _ Hsf t (Hsub t Ht)).
  - split; [by eapply keeps_inv| |done|done|].
    + apply list.Forall_forall. intros t Ht. cbn in Ht. destruct Hsegs as [->|(-> & _ & Hko)]; [by apply not_elem_of_nil in Ht|].
      apply (keeps_stable _ _ _ _ _ Hko); [left; by eexists|]. exact (ao_stable _ _ Ha t _ (accepted_member t Ht)).
    + eapply attested_keeps; [exact Hk|done|]. exact (ao_attested _ _ Ha).
Qed.

(** The state recovery hands to the volume. *)
Record recovered_state (rc : Recovered (F := F)) (w3 : W) (segment_size : Z) : Prop := {
  rs_superblock : rc_superblock rc = sb;
  rs_sequence : rc_durable_sequence rc = js_durable_sequence js ∧
    Checkpoint.checkpoint_sequence (rc_checkpoint_state rc) = js_durable_sequence js;
  rs_state : Checkpoint.checkpoint_ok (rc_checkpoint_state rc);
  rs_replay : rc_replay rc = [];
  rs_writer : writer_ok accepted_records
    (Journal.set_holes (Checkpoint.checkpoint_sequence (rc_checkpoint_state rc))
      (Journal.resume (HT := HT) (F := F) (Superblock.volume_uuid sb) segment_size (rc_durable_sequence rc)
         (rc_next_segment_index rc) (rc_segments rc) (rc_durable_proof rc))) w3;
  rs_store : store_ok (rc_store rc) w3;
  rs_marks : unmarked (rc_store rc);
  rs_others : undisturbed (touched log) s0 w1 (rc_store rc) w3;
  rs_log u r : latest u log = Some r →
    in_slot (rc_store rc) w3 u (rver r) ∧ device (rc_store rc) u ∧ slot_sized (rc_store rc) (rver r)
}.

Lemma discards_replayed : js_replay js = [].
Proof.
  pose proof (sf_replay _ _ _ _ _ _ (ld_scan _ _ _ _ _ _ _ _ Hld)) as Hr.
  assert (∀ l, pushes replay_push DiscardRecords l = DiscardRecords) as Hp by (by induction l).
  rewrite Hp in Hr. by injection Hr.
Qed.

(** The last step of recovery works on the store alone. *)
Lemma store_tail_ok s (m : M (SlotStore (F := F) * W) CoreError unit) w2 s' w3 :
  store_ok s w2 → (∀ s w, store_ok s w → sound nothing m s w (λ _ _ _, True)) → with_store m s w2 = (Ok (tt, s'), w3) →
  store_ok s' w3 ∧ (unmarked s → unmarked s') ∧ undisturbed nothing s w2 s' w3 ∧ keeps foreign w2 w3.
Proof.
  intros Hok Hm Hr. unfold with_store in Hr. destruct (m (s, w2)) as [r [s1 w4]] eqn:Hmr.
  destruct (Hm _ _ Hok _ _ _ Hmr) as (Hok' & He & _). destruct r as [[]|]; [|done]. injection Hr as <- <-.
  split; [done|]. split; [by eapply unmarked_evolves|]. split; [by eapply undisturbed_evolves|]. apply (ev_data _ _ _ _ _ _ He).
Qed.

Lemma store_tail_slot s w2 s' w3 u r :
  undisturbed nothing s w2 s' w3 → in_slot s w2 u (rver r) ∧ device s u ∧ slot_sized s (rver r) →
  in_slot s' w3 u (rver r) ∧ device s' u ∧ slot_sized s' (rver r).
Proof.
  intros Hud (Hin & Hd & Hs). split; [apply (ud_slot _ _ _ _ _ Hud); [done|by intros []|done|done]|].
  unfold device, slot_sized. by rewrite (ud_geometry _ _ _ _ _ Hud).
Qed.

(** The two ways the accepted log is brought into the store. *)
Definition settled_replay s' (c' : Checkpoint.CheckpointState) segs (w2 w3 : W) : Prop :=
  replayed s' c' w2 w3 ∧ segs = [] ∨
  s' = s0 ∧ c' = c0 ∧ segs = js_segments js ∧ w3 = w2 ∧ js_durable_sequence js = ck.

Lemma undisturbed_none X : (∀ u, ¬ X u) → ∀ s w s' w', undisturbed X s w s' w' → undisturbed nothing s w s' w'.
Proof. intros HX s v s' v'. apply undisturbed_weaken. intros u Hu. by apply (HX u). Qed.

Lemma settled_store p2 w2 s' c' segs w3 :
  adoption p2 w2 → settled_replay s' c' segs w2 w3 →
  store_ok s' w3 ∧ unmarked s' ∧ Checkpoint.checkpoint_ok c' ∧ Checkpoint.checkpoint_sequence c' = js_durable_sequence js ∧
  undisturbed (touched log) s0 w1 s' w3 ∧ keeps (is_side proof_store) w2 w3 ∧
  (∀ u r, latest u log = Some r → in_slot s' w3 u (rver r) ∧ device s' u ∧ slot_sized s' (rver r)) ∧
  (segs = [] ∨ segs = js_segments js ∧ Checkpoint.checkpoint_sequence c' = ck ∧ keeps owned w2 w3).
Proof.
  intros Ha Hse. pose proof (ao_keeps _ _ Ha) as Hk2.
  assert (keeps data_file w1 w2) as Hkd by (eapply keeps_weaken; [apply data_outside|exact Hk2]).
  pose proof (ld_scan _ _ _ _ _ _ _ _ Hld) as Hsf. destruct Hse as [[[] ->]|(-> & -> & -> & -> & Hdur)].
  - repeat (split; [done|]). split; [|by auto]. eapply undisturbed_trans; [by apply undisturbed_keeps|done].
  - pose proof (sf_durable _ _ _ _ _ _ Hsf) as Hlen.
    assert (log = []) as Hnil by (destruct log; [done|]; unfold blen in Hlen; cbn [length] in Hlen; lia).
    split; [eapply store_ok_keeps; [done|apply Hld]|]. split; [apply Hld|]. split; [apply Hld|]. split; [done|].
    split; [by apply undisturbed_keeps|]. split; [by eapply keeps_refl, keeps_inv|]. rewrite Hnil.
    split; [done|]. right. split; [done|]. split; [done|]. by eapply keeps_refl, keeps_inv.
Qed.

Lemma recovered_ok segment_size rc w' :
  segment_size ≤ MAX_JOURNAL_SEGMENT_SIZE →
  (let* _ := store_checkpoint_state c0 in
   let* _ := m_each apply_repair (js_repairs js) in
   let* _ := m_each (adopt_prefix (HT := HT)) (js_verified_prefixes js) in
   let* _ := adopt_mark (js_segments js) in
   let* proof := m_lift (adopt_proof js ck p0) in
   let* proof := rec_format (dp_advance proof) in
   let* '(checkpoint_state, store, segments) :=
     (if ck <? js_durable_sequence js
      then let* '(state, store) := checkpoint_validated_replay (HT := HT) sb s0 c0 js in m_ret (state, store, [])
      else m_ret (c0, s0, js_segments js)) in
   let* '(_, store) := with_store persist_discards store in
   m_ret (mkRecovered sb store checkpoint_state (js_durable_sequence js) proof
            (js_next_segment_index js) segments (js_replay js))) w1 = (Ok rc, w') →
  recovered_state rc w' segment_size.
Proof.
  intros Hsize Hr. apply m_bind_ok in Hr as (c1 & wa & Hc & Hr). apply m_bind_ok in Hr as ([] & wb & Hrep & Hr).
  apply m_bind_ok in Hr as ([] & wc & Hpre & Hr). apply m_bind_ok in Hr as ([] & wd & Hmark & Hr).
  apply m_bind_ok in Hr as (p1 & wd' & Hp & Hr). injection Hp as Hp <-. apply m_bind_ok in Hr as (p2 & w2 & Hadv%rec_format_ok & Hr).
  pose proof (adopts_ok _ _ _ _ _ _ _ _ Hc Hrep Hpre Hmark Hp Hadv) as Ha.
  pose proof (ld_scan _ _ _ _ _ _ _ _ Hld) as Hsf. pose proof (sf_durable _ _ _ _ _ _ Hsf) as Hlen. pose proof (blen_nonneg log) as Hnn.
  apply m_bind_ok in Hr as ([[c' s'] segs] & w3 & Hre & Hr).
  assert (settled_replay s' c' segs w2 w3) as Hse.
  { destruct (Z.ltb_spec ck (js_durable_sequence js)) as [Hlt|Hge].
    - apply m_bind_ok in Hre as ([cx sx] & wx & Hre & Hret). injection Hret as <- <- <- <-. left. split; [|done]. by eapply replays_ok.
    - injection Hre as <- <- <- <-. right. repeat (split; [done|]). lia. }
  apply m_bind_ok in Hr as ([[] s3] & w4 & Hpd & Hr). injection Hr as <- <-.
  destruct (settled_store _ _ _ _ _ _ Ha Hse) as (Hst & Hmk & Hcok & Hcs & Hud & Hkp & Hlog & Hsegs).
  destruct (store_tail_ok s' persist_discards w3 s3 w4 Hst (λ s w, sound_persist_discards s w) Hpd) as (Hst4 & Hmk4 & Hud4 & Hk4).
  pose proof ck_u64 as [Hck0 _].
  split; cbn; try done.
  - exact discards_replayed.
  - eapply (resumed_ok _ _ p2 w2); [done|done| |lia|].
    + eapply keeps_trans; [exact Hkp|]. eapply keeps_weaken; [|exact Hk4]. intros q Hq. apply owned_foreign. by right; right.
    + destruct Hsegs as [->|(-> & Hck & Hko)]; [by left|right]. split; [done|]. split; [done|].
      eapply keeps_trans; [exact Hko|]. eapply keeps_weaken; [|exact Hk4]. apply owned_foreign.
  - by apply Hmk4.
  - eapply undisturbed_trans; [exact Hud|]. eapply undisturbed_weaken; [|exact Hud4]. by intros u [].
  - intros u r Hl. eapply store_tail_slot; [exact Hud4|by apply Hlog].
Qed.
End Loaded.

(** ** The attached volume *)

Lemma promote_new d : 0 ≤ d →
  Overlay.wf (Overlay.promote d Overlay.new) ∧ Overlay.durable_boundary (Overlay.promote d Overlay.new) = d ∧
  ∀ u, Overlay.units (Overlay.promote d Overlay.new) !! u = None.
Proof.
  intros Hd. destruct (Overlay.promote_wf Overlay.new d Overlay.new_wf) as (Hw & Hb & Hs).
  { cbn. unfold U64_MAX. lia. }
  split; [done|]. split; [rewrite Hb; cbn; lia|]. intros u. destruct (Overlay.units (Overlay.promote d Overlay.new) !! u) as [e|] eqn:He; [|done].
  by destruct (promote_promoted d Overlay.new u e He) as (? & [=] & _).
Qed.

Lemma recover_attaches options w V w' :
  inv w → journal_segment_size options ≤ MAX_JOURNAL_SEGMENT_SIZE → recover options w = (Ok V, w') → roomy (vgeom V) →
  ∃ env p0 s0 c0 js G w1, loaded w env p0 s0 c0 js G w1 ∧
    let log := log_above (Checkpoint.checkpoint_sequence c0) G in
    volume_ok (accepted_records G) V w' ∧ vo_superblock V = superblock env ∧
    journal_durable_sequence V = js_durable_sequence js ∧ checkpoint_sequence V = js_durable_sequence js ∧
    undisturbed (touched log) s0 w1 (vo_store V) w' ∧ (∀ u, Overlay.get (vo_overlay V) u = None) ∧
    ∀ u r, latest u log = Some r →
      in_slot (vo_store V) w' u (rver r) ∧ device (vo_store V) u ∧ slot_sized (vo_store V) (rver r).
Proof.
  intros Hi Hsize Hr Hroom. unfold recover in Hr. set (size := Journal.effective_segment_size _) in Hr.
  assert (size ≤ MAX_JOURNAL_SEGMENT_SIZE) as Hsz.
  { unfold size, Journal.effective_segment_size. change MAX_JOURNAL_SEGMENT_SIZE with 1073741824 in *. unfold SEGMENT_HEADER_SIZE. lia. }
  cbv zeta in Hr. apply m_bind_ok in Hr as (rc & w2 & Hrc & Hr). apply m_bind_ok in Hr as ([[] s3] & w3 & Hsch & Hr). injection Hr as <- <-.
  destruct (recover_loads size w rc w2 Hi Hrc) as (env & p0 & s0 & c0 & js & G & w1 & Hld & Hrest).
  pose proof (recovered_ok _ _ _ _ _ _ _ _ Hld size rc w2 Hsz Hrest) as [Hsb [Hds Hcs] Hck Hrp Hwr Hst Hmk Hud Hlog].
  destruct (store_tail_ok (rc_store rc) schedule_reclamation w2 s3 w3 Hst) with (2 := Hsch) as (Hst4 & Hmk4 & Hud4 & Hk4).
  { intros s v Hs. eapply sound_weaken; [by apply sound_schedule_reclamation|done|done]. }
  assert (0 ≤ js_durable_sequence js) as Hd0.
  { pose proof (sf_durable _ _ _ _ _ _ (ld_scan _ _ _ _ _ _ _ _ Hld)) as Hlen. pose proof (ck_u64 _ _ _ _ _ _ _ _ Hld) as [? _].
    pose proof (blen_nonneg (log_above (Checkpoint.checkpoint_sequence c0) G)). lia. }
  destruct (promote_new (js_durable_sequence js) Hd0) as (How & Hob & Hnone). rewrite Hrp, Hds in *. cbn [foldl] in *.
  set (o := Overlay.promote (js_durable_sequence js) Overlay.new) in *. clearbody o.
  exists env, p0, s0, c0, js, G, w1. split; [done|].
  assert (undisturbed (touched (log_above (Checkpoint.checkpoint_sequence c0) G)) s0 w1 s3 w3) as Hud'.
  { eapply undisturbed_trans; [exact Hud|]. eapply undisturbed_weaken; [|exact Hud4]. by intros u []. }
  cbv zeta. split; [|split; [done|split; [done|split; [done|split; [done|split]]]]].
  - split; unfold vgeom; cbn; rewrite ?Hsb in *; try done.
    + eapply JournalDurability.other_ok; [exact Hwr|]. eapply keeps_weaken; [|exact Hk4]. apply owned_foreign.
    + rewrite (ud_geometry _ _ _ _ _ Hud'). symmetry. apply Hld.
    + split; [done|rewrite Hob; apply Z.le_refl|]. intros u e He. by rewrite Hnone in He.
    + rewrite Hob. unfold checkpoint_sequence. cbn. lia.
    + intros u v Hv. unfold Overlay.get in Hv. by rewrite Hnone in Hv.
    + by apply Hmk4.
  - intros u. unfold Overlay.get. cbn. by rewrite Hnone.
  - intros u r Hl. eapply store_tail_slot; [exact Hud4|by apply Hlog].
Qed.

(** ** What readers see *)

Lemma attached_view V w u :
  store_ok (vo_store V) w → Overlay.get (vo_overlay V) u = None → ∀ r,
  in_slot (vo_store V) w u (rver r) ∧ device (vo_store V) u ∧ slot_sized (vo_store V) (rver r) →
  vol_view V w u = Ok (as_read (supports_discard V) (rver r)) ∧ vol_steady V w u.
Proof.
  intros Hok Hn r (Hin & Hd & Hs). unfold vol_view, vol_steady. rewrite Hn. by apply in_slot_view.
Qed.

(** In a gap-free log the newest record of a unit is at or above any other. *)
Lemma latest_newest e l r r' :
  consecutive e l → r ∈ l → latest (unit_index r) l = Some r' → sequence r ≤ sequence r' ∧ (sequence r' = sequence r → r' = r).
Proof.
  intros Hc Hin Hl. destruct (latest_elem _ _ _ Hl) as [Hin' _].
  pose proof (consecutive_lookup _ _ _ Hc Hin) as Hr. pose proof (consecutive_lookup _ _ _ Hc Hin') as Hr'.
  split; [|intros He; rewrite He in Hr'; congruence].
  revert e Hc Hin Hl Hin' Hr Hr'. induction l as [|x l IH] using rev_ind; intros e Hc Hin Hl Hin' _ _; [by apply not_elem_of_nil in Hin|].
  rewrite latest_snoc in Hl. pose proof Hc as Hc0. apply consecutive_app in Hc0 as [Hcl Hcx].
  destruct (decide (unit_index x = unit_index r)) as [Hu|Hne].
  - injection Hl as <-. pose proof (consecutive_bounds _ _ _ Hc Hin) as Hb. destruct Hcx as [Hx _].
    rewrite blen_app in Hb. unfold blen at 2 in Hb. cbn [length] in Hb. lia.
  - apply elem_of_app in Hin as [Hin|Hin]; [|apply list_elem_of_singleton in Hin as ->; done].
    destruct (latest_elem _ _ _ Hl) as [Hin2 _]. by eapply (IH e); [..|apply consecutive_lookup|apply consecutive_lookup].
Qed.
End Attach.

(** ** The claims *)
Section Claims.
Context `{Crc32} `{BackingLaws W F} `{HasherLaws HT} `{HashOrder}.
Abbreviation Volume := (Volume (F := F) (HT := HT)).
Implicit Types (V : Volume) (w : W) (u : Z).

(** C3. Attaching is sound.  When [Volume::recover] returns a volume, from
    any disk whatever and under any faults on the way, the volume satisfies
    the invariant every later operation needs; its overlay is empty, and its
    checkpoint, durable and appended sequences agree with the end of the
    accepted log.  A reader sees, for every unit, the newest record of that
    unit above the checkpoint among the accepted journal segments, and for a
    unit without one, in a file that is not short, what the slot store showed
    when recovery opened it.  The byte counters of the overlay cannot
    overflow on the volume's geometry ([roomy]). *)
Theorem recover_sound options w V w' :
  inv w → journal_segment_size options ≤ MAX_JOURNAL_SEGMENT_SIZE → recover options w = (Ok V, w') → roomy (vgeom V) →
  (∃ L, volume_ok L V w') ∧
  ∃ env p0 s0 c0 js G w1, loaded w env p0 s0 c0 js G w1 ∧
    let ck := Checkpoint.checkpoint_sequence c0 in let log := log_above ck G in
    vo_superblock V = superblock env ∧ supports_discard V = (metadata_version env =? SUPERBLOCK_VERSION_V3) ∧
    consecutive (ck + 1) log ∧ journal_durable_sequence V = ck + blen log ∧
    journal_appended_sequence V = ck + blen log ∧ checkpoint_sequence V = ck + blen log ∧
    (∀ u, Overlay.get (vo_overlay V) u = None) ∧
    ∀ u, 0 ≤ u < num_units (vgeom V) →
      match latest u log with
      | Some r => vol_view V w' u = Ok (as_read (supports_discard V) (rver r)) ∧ vol_steady V w' u
      | None => steady s0 w1 u → vol_view V w' u = view s0 w1 u ∧ vol_steady V w' u
      end.
Proof.
  intros Hi Hsize Hr Hroom.
  destruct (recover_attaches options w V w' Hi Hsize Hr Hroom) as (env & p0 & s0 & c0 & js & G & w1 & Hld & Hok & Hsb & Hdur & Hck & Hud & Hov & Hlog).
  split; [by eexists|]. exists env, p0, s0, c0, js, G, w1. split; [done|]. cbv zeta.
  pose proof (ld_scan _ _ _ _ _ _ _ _ Hld) as Hsf. pose proof (sf_durable _ _ _ _ _ _ Hsf) as Hlen.
  split; [done|]. split; [unfold supports_discard, Store.supports_discard; rewrite (ud_enabled _ _ _ _ _ Hud); apply Hld|].
  split; [apply Hsf|]. split; [congruence|].
  assert (journal_appended_sequence V = journal_durable_sequence V) as Hap.
  { unfold recover in Hr. cbv zeta in Hr. apply m_bind_ok in Hr as (rc & w2 & _ & Hr).
    apply m_bind_ok in Hr as ([[] s3] & w3 & _ & Hr). by injection Hr as <- <-. }
  split; [congruence|]. split; [congruence|]. split; [done|]. intros u Hu.
  destruct (latest u _) as [r|] eqn:Hl.
  - apply attached_view; [apply Hok|apply Hov|by apply Hlog].
  - intros Hst. unfold vol_view, vol_steady. rewrite Hov. apply (ud_view _ _ _ _ _ Hud); [|by intros Ht%latest_touched; rewrite Hl in Ht; destruct Ht|done].
    unfold device. rewrite <- (ud_geometry _ _ _ _ _ Hud). exact Hu.
Qed.

(** C4. Acknowledged writes are readable after a crash and an attach.  After a
    successful journal barrier, whatever appends, barriers, deletions and
    other I/O follow, with any outcome and under any injected fault, and
    however often the machine then crashes: if the volume attaches again and
    the checkpoint state it loads is at or above every checkpoint the
    deletions used, then every unit with an acknowledged record above that
    checkpoint reads as that record or as a record of the unit with a higher
    sequence, never as anything older. *)
Theorem acknowledged_attached L (j : Journal.JournalWriter (F := F) (HT := HT)) w n j1 w1 cs j2 w2 w3 options V w4 :
  writer_ok L j w → Journal.sync (j, w) = (Ok n, (j1, w1)) → journal_run (j1, w1) cs (j2, w2) → rtc crashes w2 w3 →
  journal_segment_size options ≤ MAX_JOURNAL_SEGMENT_SIZE → recover options w3 = (Ok V, w4) → roomy (vgeom V) →
  Superblock.volume_uuid (vo_superblock V) = Journal.j_volume_uuid j →
  ∃ env p0 s0 c0 js G w5, loaded w3 env p0 s0 c0 js G w5 ∧
    (Forall (λ c, c ≤ Checkpoint.checkpoint_sequence c0) cs →
    ∀ s r, s ∈ Journal.segments j1 → r ∈ L (Journal.s_index s) → Checkpoint.checkpoint_sequence c0 < sequence r →
      ∃ r', unit_index r' = unit_index r ∧ sequence r ≤ sequence r' ∧ (sequence r' = sequence r → r' = r) ∧
        vol_view V w4 (unit_index r) = Ok (as_read (supports_discard V) (rver r'))).
Proof.
  intros Hwok Hsync Hrun Hcr Hsize Hr Hroom Hu.
  destruct (acknowledged_recovered _ _ _ _ _ _ _ _ _ _ Hwok Hsync Hrun Hcr) as (Hok1 & _ & _ & Hi3 & Hrec).
  destruct (recover_attaches options w3 V w4 Hi3 Hsize Hr Hroom) as (env & p0 & s0 & c0 & js & G & w5 & Hld & Hok & Hsb & Hdur & Hck & Hud & Hov & Hlog).
  pose proof (ld_scan _ _ _ _ _ _ _ _ Hld) as Hsf. pose proof (sf_durable _ _ _ _ _ _ Hsf) as Hlen.
  set (ck := Checkpoint.checkpoint_sequence c0) in *. pose proof (ck_u64 _ _ _ _ _ _ _ _ Hld) as [Hck0 _]. fold ck in Hck0.
  exists env, p0, s0, c0, js, G, w5. split; [done|]. fold ck. intros Hcs s r Hs Hrs Hlt.
  assert (r ∈ log_above ck G) as Hin.
  { pose proof (segment_last L j1 s r (proj1 Hok1) Hs Hrs) as Hlast.
    destruct (Hrec s Hs) as [(c & Hc & Hle)|Hre]; [rewrite list.Forall_forall in Hcs; specialize (Hcs c Hc); lia|].
    rewrite <- Hu, Hsb in Hre. pose proof (sh_infos _ _ (proj1 Hok1)) as Hinf. rewrite list.Forall_forall in Hinf.
    destruct (recovered_replayed _ _ _ _ _ _ _ _ _ Hsf (index_u64 _ _ _ (proj1 Hok1) (Hinf s Hs)) Hre) as (Hel & _). by apply Hel. }
  destruct (latest_touched (unit_index r) (log_above ck G)) as [r' Hl]; [by exists r|].
  destruct (latest_newest _ _ _ _ (sf_chain _ _ _ _ _ _ Hsf) Hin Hl) as [Hle He].
  exists r'. destruct (latest_elem _ _ _ Hl) as [_ Hu']. split; [done|]. split; [done|]. split; [done|].
  by apply attached_view; [apply Hok|apply Hov|apply Hlog].
Qed.
End Claims.
