(* ===== verification/VolumeRuns.v ===== *)
(** * VolumeRuns: the volume behind its lock, checkpoints beside it

    [step] is one event of an attached volume: an operation under the volume
    lock, failed or not, or one piece of the checkpoint that runs without it.
    Plans do not overlap (the engine's checkpoint gate).  The abstract
    specification is a map from units to what was last written there:
    barriers and every piece of a checkpoint leave it alone. *)

From S2P Require Import Prelude BTreeMap Codec Layout Geometry AbRecord Metadata Superblock JournalFormat Backing CrashBacking AbStore FixedCopy DurableProof JournalWriter JournalProof JournalDurability RecoveryScan Volumes JournalScan SlotStore Recovery StoreData StoreProof StoreReads StoreOpen StoreRuns Overlay Volume VolumeState VolumeOps VolumeCheckpoint.
Import Store Volume.
Import (hints) Metadata.Catalog Metadata.Allocation Metadata.Checkpoint.

Local Open Scope Z_scope.

Section Runs.
Context `{Crc32} `{BackingLaws W F} `{HasherLaws HT} `{HashOrder}.
Abbreviation Volume := (Volume (F := F) (HT := HT)).
Implicit Types (V : Volume) (w : W) (u : Z) (L : Z → list JournalRecord) (ct : bytes) (fua : bool).
Implicit Types (p : PreparedCheckpoint (F := F)) (its : list (Z * Overlay.OverlayVersion)).
Local Abbreviation oget V u := (Overlay.get (vo_overlay V) u).
Local Abbreviation boundary V := (Overlay.durable_boundary (vo_overlay V)).

(** ** Events *)

(** Where the checkpoint is: [Applying] has the items written and those to
    come. *)
Inductive phase :=
| Idle
| Applying p its (rest : list (Z * Overlay.OverlayVersion))
| Synced p
| Completed p.

Record system := mkSystem { sys_volume : Volume; sys_world : W; sys_phase : phase }.

Inductive event :=
| EvRead u (r : result CoreError (option (Z * bytes)))
| EvSequence u (r : result CoreError (option Z))
| EvWrite u ct fua (r : result CoreError Z)
| EvDiscard u fua (r : result CoreError Z)
| EvReclaimUnwritten u (r : result CoreError bool)
| EvFlush (r : result CoreError unit)
| EvCheckpoint.

Inductive step : system → event → system → Prop :=
| step_read V w f u r V' w' :
    device (vo_store V) u → read_ct u (V, w) = (r, (V', w')) →
    step (mkSystem V w f) (EvRead u r) (mkSystem V' w' f)
| step_sequence V w f u r V' w' :
    device (vo_store V) u → current_sequence u (V, w) = (r, (V', w')) →
    step (mkSystem V w f) (EvSequence u r) (mkSystem V' w' f)
| step_write V w f u ct fua r V' w' :
    0 ≤ u → write_ct u ct fua (V, w) = (r, (V', w')) →
    step (mkSystem V w f) (EvWrite u ct fua r) (mkSystem V' w' f)
| step_discard V w f u fua r V' w' :
    0 ≤ u → discard_ct u fua (V, w) = (r, (V', w')) →
    step (mkSystem V w f) (EvDiscard u fua r) (mkSystem V' w' f)
| step_reclaim V w f u r V' w' :
    device (vo_store V) u → reclaim_unwritten u (V, w) = (r, (V', w')) →
    step (mkSystem V w f) (EvReclaimUnwritten u r) (mkSystem V' w' f)
| step_flush V w f r V' w' :
    flush (V, w) = (r, (V', w')) → step (mkSystem V w f) (EvFlush r) (mkSystem V' w' f)
| step_prepare V w r V' w' :
    prepare_checkpoint (V, w) = (r, (V', w')) →
    step (mkSystem V w Idle) EvCheckpoint
      (mkSystem V' w' match r with Ok p => Applying p [] (items p) | Err _ => Idle end)
| step_skip V w p its it rest :
    writes_slot (allow_discard p) it.2 = false →
    step (mkSystem V w (Applying p its (it :: rest))) EvCheckpoint (mkSystem V w (Applying p (its ++ [it]) rest))
| step_apply V w p its it rest r w' :
    writes_slot (allow_discard p) it.2 = true →
    plan_write (slots p) (length (slot_items p its)) (Overlay.sequence it.2) (Overlay.ciphertext it.2) w = (r, w') →
    step (mkSystem V w (Applying p its (it :: rest))) EvCheckpoint
      (mkSystem V w' (if is_ok r then Applying p (its ++ [it]) rest else Idle))
| step_sync V w p its r w' :
    sync_shards (slots p) w = (r, w') →
    step (mkSystem V w (Applying p its [])) EvCheckpoint (mkSystem V w' (if is_ok r then Synced p else Idle))
| step_validate V w p :
    step (mkSystem V w (Synced p)) EvCheckpoint
      (mkSystem V w (if is_ok (validate_reservation_barriers (slots p) (vo_store V)) then Completed p else Idle))
| step_finish V w p r V' w' :
    finish_checkpoint p (V, w) = (r, (V', w')) →
    step (mkSystem V w (Completed p)) EvCheckpoint (mkSystem V' w' Idle)
| step_abandon V w f : step (mkSystem V w f) EvCheckpoint (mkSystem V w Idle).

Inductive run : system → list event → system → Prop :=
| run_nil σ : run σ [] σ
| run_cons σ e σ1 es σ2 : step σ e σ1 → run σ1 es σ2 → run σ (e :: es) σ2.

(** ** The invariant *)

Definition phase_ok V w (f : phase) : Prop :=
  match f with
  | Idle => True
  | Applying p its rest => plan_live V w p its rest
  | Synced p | Completed p => plan_live V w p (items p) []
  end.

Definition good (σ : system) : Prop :=
  (∃ L, volume_ok L (sys_volume σ) (sys_world σ)) ∧ phase_ok (sys_volume σ) (sys_world σ) (sys_phase σ).

Lemma boundary_appended L V w : volume_ok L V w → boundary V ≤ journal_appended_sequence V.
Proof.
  intros Hok. pose proof (oo_boundary _ _ _ _ (vk_overlay _ _ _ Hok)).
  pose proof (sh_durable _ _ (proj1 (vk_writer _ _ _ Hok))). unfold journal_appended_sequence, journal_durable_sequence in *. lia.
Qed.

Lemma later_phase L X V w V' w' f : volume_ok L V w → later X V w V' w' → phase_ok V w f → phase_ok V' w' f.
Proof.
  intros Hok Hl. pose proof (boundary_appended _ _ _ Hok). destruct f; [done|..]; by eapply later_live.
Qed.

(** ** The specification *)

(** What is known of the units, and the last sequence given out. *)
Record abstract := mkAbstract { a_units : gmap Z SlotRead; a_last : Z }.

Definition assign u x (n : Z) (a : abstract) : abstract := mkAbstract (<[u := x]> (a_units a)) n.

Definition or_io {A} (r : result CoreError A) (a : A) : Prop := r = Ok a ∨ ∃ e, r = Err (CoreIo e).

Inductive spec (discards : bool) : abstract → event → abstract → Prop :=
| spec_read a u r :
    (∀ x, a_units a !! u = Some x → or_io r (as_found x)) → spec discards a (EvRead u r) a
| spec_sequence a u r :
    (∀ x, a_units a !! u = Some x → or_io r (found_sequence x)) → spec discards a (EvSequence u r) a
| spec_write a u ct fua n :
    a_last a < n →
    spec discards a (EvWrite u ct fua (Ok n)) (assign u (as_read discards (Overlay.mkVersion n ct)) n a)
| spec_write_lost a u ct fua e : spec discards a (EvWrite u ct fua (Err e)) a
| spec_write_kept a u ct fua e n :
    a_last a < n →
    spec discards a (EvWrite u ct fua (Err e)) (assign u (as_read discards (Overlay.mkVersion n ct)) n a)
| spec_discard a u fua n : discards = true → spec discards a (EvDiscard u fua (Ok n)) (assign u SlotZero (a_last a) a)
| spec_discard_lost a u fua e : spec discards a (EvDiscard u fua (Err e)) a
| spec_discard_kept a u fua e : spec discards a (EvDiscard u fua (Err e)) (assign u SlotZero (a_last a) a)
| spec_reclaim a u r :
    (r = Ok true → discards = true → ∀ x, a_units a !! u = Some x → x = SlotZero) →
    spec discards a (EvReclaimUnwritten u r) a
| spec_flush a r : spec discards a (EvFlush r) a
| spec_checkpoint a : spec discards a EvCheckpoint a.

Inductive spec_run (discards : bool) : abstract → list event → abstract → Prop :=
| spec_nil a : spec_run discards a [] a
| spec_cons a e a1 es a2 : spec discards a e a1 → spec_run discards a1 es a2 → spec_run discards a (e :: es) a2.

(** The volume shows what is known. *)
Definition shows (a : abstract) V w : Prop :=
  a_last a ≤ journal_appended_sequence V ∧
  ∀ u x, a_units a !! u = Some x → device (vo_store V) u ∧ vol_view V w u = Ok x ∧ vol_steady V w u.

Lemma shows_same a V w V' w' :
  vgeom V' = vgeom V → journal_appended_sequence V ≤ journal_appended_sequence V' →
  same_views none V w V' w' → shows a V w → shows a V' w'.
Proof.
  intros Hg Ha Hs [Hl Hx]. split; [lia|]. intros u x Hu. destruct (Hx u x Hu) as (Hd & Hv & Hst).
  destruct (Hs u Hd (λ f, f) Hst) as [Hv' Hst']. unfold device, vgeom in *. rewrite Hg. split; [done|]. split; [congruence|done].
Qed.

Lemma shows_assign a V w V' w' u x n :
  vgeom V' = vgeom V → a_last a ≤ n ≤ journal_appended_sequence V' → device (vo_store V) u →
  updates u x V w V' w' → shows a V w → shows (assign u x n a) V' w'.
Proof.
  intros Hg Hn Hdu (Hs & Hv & Hst) [Hl Hx]. split; [simpl; lia|]. unfold device, vgeom in *. rewrite Hg.
  intros u' x'. simpl. rewrite lookup_insert_Some. intros [[<- <-]|[Hne Hu']]; [done|].
  destruct (Hx u' x' Hu') as (Hd & Hv' & Hst'). split; [done|].
  destruct (Hs u' Hd (λ He, Hne (eq_sym He)) Hst') as [-> ?]. done.
Qed.

(** ** Simulation *)

(** What a step preserves beside the invariant. *)
Definition simulates (a : abstract) V w (e : event) (σ' : system) : Prop :=
  good σ' ∧ vgeom (sys_volume σ') = vgeom V ∧ supports_discard (sys_volume σ') = supports_discard V ∧
  (journal_durable_sequence V ≤ journal_durable_sequence (sys_volume σ') ∧
   journal_appended_sequence V ≤ journal_appended_sequence (sys_volume σ')) ∧
  (shows a V w → ∃ a', spec (supports_discard V) a e a' ∧ shows a' (sys_volume σ') (sys_world σ')).

Lemma later_geometry X V w V' w' : later X V w V' w' → vgeom V' = vgeom V ∧ supports_discard V' = supports_discard V.
Proof. intros Hl. split; [exact (ud_geometry _ _ _ _ _ (la_store _ _ _ _ _ Hl))|exact (ud_enabled _ _ _ _ _ (la_store _ _ _ _ _ Hl))]. Qed.

(** Operations beside the checkpoint. *)
Lemma later_simulates X L L' a V w f e V' w' :
  volume_ok L V w → phase_ok V w f → volume_ok L' V' w' → later X V w V' w' →
  (shows a V w → ∃ a', spec (supports_discard V) a e a' ∧ shows a' V' w') → simulates a V w e (mkSystem V' w' f).
Proof.
  intros Hok Hf Hok' Hl Hs. destruct (later_geometry _ _ _ _ _ Hl) as [Hg Hd].
  split; [split; [by eexists|exact (later_phase _ _ _ _ _ _ _ Hok Hl Hf)]|]. split; [exact Hg|]. split; [exact Hd|].
  split; [split; [exact (la_durable _ _ _ _ _ Hl)|exact (la_appended _ _ _ _ _ Hl)]|exact Hs].
Qed.

(** Events that change nothing a reader sees. *)
Lemma same_spec a V w e V' w' :
  spec (supports_discard V) a e a → vgeom V' = vgeom V → journal_appended_sequence V ≤ journal_appended_sequence V' →
  same_views none V w V' w' → shows a V w → ∃ a', spec (supports_discard V) a e a' ∧ shows a' V' w'.
Proof. intros He Hg Ha Hs Hsh. exists a. split; [done|]. by eapply shows_same. Qed.

Lemma vreads_simulates {A} L a V w f e (m : M (Volume * W) CoreError A) v r V' w' :
  volume_ok L V w → phase_ok V w f → vreads m V w v → m (V, w) = (r, (V', w')) →
  ((r = v ∨ ∃ e, r = Err (CoreIo e)) → shows a V w → spec (supports_discard V) a e a) →
  simulates a V w e (mkSystem V' w' f).
Proof.
  intros Hok Hf Hm Hr Hs. destruct (Hm _ _ _ Hr) as (-> & Hk & Hv & _).
  assert (later none V w V w') as Hl by (apply later_world; by apply keeps_all).
  eapply (later_simulates none L L); [done|done|eapply ok_world; [done|by apply keeps_all]|done|].
  intros Hsh. eapply same_spec; [by apply Hs|done|lia| |done]. apply (later_same _ _ _ _ _ Hl). done.
Qed.

Lemma read_simulates L a V w f u r V' w' :
  volume_ok L V w → phase_ok V w f → device (vo_store V) u → read_ct u (V, w) = (r, (V', w')) →
  simulates a V w (EvRead u r) (mkSystem V' w' f).
Proof.
  intros Hok Hf Hu Hr. eapply vreads_simulates; [done|done|by eapply read_ct_reads|done|].
  intros Hv [_ Hsh]. constructor. intros x Hx. destruct (Hsh u x Hx) as (_ & Hvx & _). rewrite Hvx in Hv. exact Hv.
Qed.

Lemma sequence_simulates L a V w f u r V' w' :
  volume_ok L V w → phase_ok V w f → device (vo_store V) u → current_sequence u (V, w) = (r, (V', w')) →
  simulates a V w (EvSequence u r) (mkSystem V' w' f).
Proof.
  intros Hok Hf Hu Hr. eapply vreads_simulates; [done|done|by eapply current_sequence_reads|done|].
  intros Hv [_ Hsh]. constructor. intros x Hx. destruct (Hsh u x Hx) as (_ & Hvx & _).
  rewrite (vol_seen_view _ _ _ _ Hvx) in Hv. exact Hv.
Qed.

Lemma write_simulates L a V w f u ct fua r V' w' :
  volume_ok L V w → phase_ok V w f → 0 ≤ u → write_ct u ct fua (V, w) = (r, (V', w')) →
  simulates a V w (EvWrite u ct fua r) (mkSystem V' w' f).
Proof.
  intros Hok Hf Hu Hr. destruct (write_ct_ok _ _ _ _ _ _ _ _ _ Hok Hu Hr) as (L' & Hok' & Hl & Hp & Hdev).
  eapply (later_simulates none); [done|done|done|done|]. intros Hsh. destruct (later_geometry _ _ _ _ _ Hl) as [Hg _].
  pose proof (la_appended _ _ _ _ _ Hl) as Hap.
  destruct Hdev as [Hdu|[Hr' Ho]]; cycle 1.
  { destruct r; [done|]. eapply same_spec; [constructor|done|done|by apply (later_same _ _ _ _ _ Hl)|done]. }
  assert (∀ n, oget V' u = Some (Overlay.mkVersion n ct) → n ≤ journal_appended_sequence V') as Hn.
  { intros n Hg'. unfold Overlay.get in Hg'. apply fmap_Some in Hg' as (en & He & Hv).
    pose proof (uf_sequence _ _ _ _ (oo_units _ _ _ _ (vk_overlay _ _ _ Hok') u en He)) as Hle. by rewrite <- Hv in Hle. }
  destruct Hp as [Hne Hp]. pose proof (proj1 Hsh) as Hla.
  destruct r as [n|e].
  - destruct Hp as [-> Hg']. eexists. split; [constructor; lia|].
    eapply shows_assign; [done| |done|by apply held_updates|done]. specialize (Hn _ Hg'). lia.
  - destruct Hp as [Hg'|Hg'].
    + eapply same_spec; [constructor|done|done| |done]. apply (later_same _ _ _ _ _ Hl). intros x _.
      destruct (decide (x = u)) as [->|]; auto.
    + eexists. split; [eapply (spec_write_kept _ _ _ _ _ _ (journal_appended_sequence V + 1)); lia|].
      eapply shows_assign; [done| |done|by apply held_updates|done]. specialize (Hn _ Hg'). lia.
Qed.

Lemma discard_simulates L a V w f u fua r V' w' :
  volume_ok L V w → phase_ok V w f → 0 ≤ u → discard_ct u fua (V, w) = (r, (V', w')) →
  simulates a V w (EvDiscard u fua r) (mkSystem V' w' f).
Proof.
  intros Hok Hf Hu Hr. destruct (discard_ct_ok _ _ _ _ _ _ _ _ Hok Hu Hr) as (L' & X & Hok' & Hl & Ho & Hdev).
  eapply (later_simulates X); [done|done|done|done|]. intros Hsh. destruct (later_geometry _ _ _ _ _ Hl) as [Hg _].
  pose proof (la_appended _ _ _ _ _ Hl) as Hap. pose proof (proj1 Hsh) as Hla.
  destruct Hdev as [[Hdu Hd]|[Hr' Hs]]; cycle 1.
  { destruct r; [done|]. eapply same_spec; [constructor|done|done|done|done]. }
  assert (updates u SlotZero V w V' w' → shows (assign u SlotZero (a_last a) a) V' w') as Hassign.
  { intros Hup. eapply shows_assign; [done|lia|done|exact Hup|done]. }
  destruct r as [n|e]; cbn in Ho; [|destruct Ho as [Ho|Ho]].
  - eexists. split; [by constructor|auto].
  - eapply same_spec; [constructor|done|done|done|done].
  - eexists. split; [apply spec_discard_kept|auto].
Qed.

Lemma reclaim_simulates L a V w f u r V' w' :
  volume_ok L V w → phase_ok V w f → device (vo_store V) u → reclaim_unwritten u (V, w) = (r, (V', w')) →
  simulates a V w (EvReclaimUnwritten u r) (mkSystem V' w' f).
Proof.
  intros Hok Hf Hu Hr. destruct (reclaim_unwritten_ok _ _ _ _ _ _ _ Hok Hu Hr) as (X & Hok' & Hl & _ & _ & Hs & Hz).
  eapply (later_simulates X); [done|done|done|done|]. intros Hsh. destruct (later_geometry _ _ _ _ _ Hl) as [Hg _].
  pose proof (la_appended _ _ _ _ _ Hl) as Hap.
  eapply same_spec; [|done|done|done|done]. constructor. intros Hrt Hd x Hx. destruct (proj2 Hsh u x Hx) as (_ & Hv & Hst).
  destruct (Hs u Hu (λ f, f) Hst) as [Hv' _]. destruct (Hz Hrt Hd) as [Hz' _]. congruence.
Qed.

Lemma flush_simulates L a V w f r V' w' :
  volume_ok L V w → phase_ok V w f → flush (V, w) = (r, (V', w')) →
  simulates a V w (EvFlush r) (mkSystem V' w' f).
Proof.
  intros Hok Hf Hr. destruct (flush_ok _ _ _ _ _ _ Hok Hr) as (Hok' & Hl & Hg & _).
  eapply (later_simulates none); [done|done|done|done|]. intros Hsh. destruct (later_geometry _ _ _ _ _ Hl) as [Hge _].
  eapply same_spec; [constructor|done|by apply (la_appended _ _ _ _ _ Hl)| |done]. apply (later_same _ _ _ _ _ Hl). auto.
Qed.

(** Pieces of a checkpoint. *)
Lemma calm_simulates L a V w V' w' f :
  volume_ok L V' w' → phase_ok V' w' f → calm V w V' w' → simulates a V w EvCheckpoint (mkSystem V' w' f).
Proof.
  intros Hok Hf Hc. split; [split; [by eexists|done]|]. split; [apply Hc|]. split; [apply Hc|].
  pose proof (ca_appended _ _ _ _ Hc) as Ha. pose proof (ca_durable _ _ _ _ Hc) as Hdu. split; [simpl; lia|].
  intros Hsh.
  eapply same_spec; [constructor|exact (ca_geometry _ _ _ _ Hc)|simpl; lia|exact (ca_same _ _ _ _ Hc)|done].
Qed.

Lemma prepare_simulates L a V w r V' w' :
  volume_ok L V w → prepare_checkpoint (V, w) = (r, (V', w')) →
  simulates a V w EvCheckpoint (mkSystem V' w' match r with Ok p => Applying p [] (items p) | Err _ => Idle end).
Proof.
  intros Hok Hr. destruct (prepare_ok _ _ _ _ _ _ Hok Hr) as (Hok' & Hl & Hg & Hp).
  destruct (later_geometry _ _ _ _ _ Hl) as [Hge Hd].
  split; [split; [by eexists|destruct r as [p|]; [by apply (Hp p)|done]]|]. split; [done|]. split; [done|].
  split; [split; [exact (la_durable _ _ _ _ _ Hl)|exact (la_appended _ _ _ _ _ Hl)]|]. intros Hsh. eapply same_spec; [constructor|done|by apply (la_appended _ _ _ _ _ Hl)| |done]. apply (later_same _ _ _ _ _ Hl). auto.
Qed.

Lemma world_tends_calm its V w w' : tends its V w (vo_store V) w' → calm V w V w'.
Proof. intros Ht. rewrite <- (set_store_id V) at 2. by eapply tends_calm. Qed.

Lemma step_simulates a σ e σ' :
  good σ → step σ e σ' → simulates a (sys_volume σ) (sys_world σ) e σ'.
Proof.
  intros [[L Hok] Hf] Hst.
  destruct Hst as [V w f u r V' w' Hu Hr|V w f u r V' w' Hu Hr|V w f u ct fua r V' w' Hu Hr|V w f u fua r V' w' Hu Hr
    |V w f u r V' w' Hu Hr|V w f r V' w' Hr|V w r V' w' Hr|V w p its it rest Hws|V w p its [u v] rest r w' Hws Hr
    |V w p its r w' Hr|V w p|V w p r V' w' Hr|V w f]; cbn [sys_volume sys_world sys_phase phase_ok] in *.
  - by eapply read_simulates.
  - by eapply sequence_simulates.
  - by eapply write_simulates.
  - by eapply discard_simulates.
  - by eapply reclaim_simulates.
  - by eapply flush_simulates.
  - by eapply prepare_simulates.
  - eapply calm_simulates; [done| |apply calm_refl]. apply live_advance; [done|]. by rewrite Hws.
  - destruct (plan_step_ok _ _ _ _ _ _ _ _ _ _ Hok Hf Hws Hr) as (Hok' & Ht & Hh).
    eapply calm_simulates; [done| |by eapply world_tends_calm]. destruct r as [[]|]; [|done].
    apply live_advance; [by eapply tends_world_live|]. intros _. by apply Hh.
  - destruct (plan_sync_ok _ _ _ _ _ _ _ _ Hok Hf Hr) as (Hok' & Ht).
    eapply calm_simulates; [done| |by eapply world_tends_calm]. destruct r as [[]|]; [|done]. cbn.
    pose proof (tends_world_live _ _ _ _ _ _ Ht Hf) as Hf'. pose proof (pl_items _ _ _ _ _ Hf) as Hi. rewrite app_nil_r in Hi.
    by rewrite Hi.
  - eapply calm_simulates; [done| |apply calm_refl]. by destruct (is_ok _).
  - destruct (finish_ok _ _ _ _ _ _ _ Hok Hf Hr) as [Hok' Hc _ _]. by eapply calm_simulates.
  - eapply calm_simulates; [done|done|apply calm_refl].
Qed.

Lemma run_simulates σ es σ' : run σ es σ' → ∀ a, good σ → shows a (sys_volume σ) (sys_world σ) →
  good σ' ∧ ∃ a', spec_run (supports_discard (sys_volume σ)) a es a' ∧ shows a' (sys_volume σ') (sys_world σ').
Proof.
  induction 1 as [σ|σ e σ1 es σ2 Hst _ IH]; intros a Hg Hsh; [split; [done|]; exists a; split; [constructor|done]|].
  destruct (step_simulates a _ _ _ Hg Hst) as (Hg1 & _ & Hd & _ & Hs). destruct (Hs Hsh) as (a1 & He & Hsh1).
  destruct (IH a1 Hg1 Hsh1) as (Hg2 & a2 & Hrun & Hsh2). split; [done|]. exists a2. split; [|done].
  rewrite Hd in Hrun. by econstructor.
Qed.

(** ** The sanitizer *)

Lemma bounds_below (o : Overlay.Overlay) m lo hi :
  (∀ u e, Overlay.units o !! u = Some e → Overlay.sequence (Overlay.latest e) ≤ m) →
  Overlay.sequence_bounds o = Some (lo, hi) → hi ≤ m.
Proof.
  intros Hm. unfold Overlay.sequence_bounds. set (l := _ <$> _).
  assert (∀ x, x ∈ l → x ≤ m) as Hl.
  { intros x ([u e] & -> & He%elem_of_entries)%list_elem_of_fmap. by eapply Hm. }
  clearbody l. assert (∀ acc, (∀ a b, acc = Some (a, b) → b ≤ m) → ∀ a b, foldl (λ acc s, match acc with
    | None => Some (s, s) | Some (lo, hi) => Some (Z.min lo s, Z.max hi s) end) acc l = Some (a, b) → b ≤ m) as Hgo;
    [|intros Hb; by apply (Hgo None) in Hb].
  induction l as [|x l IH]; intros acc Hacc; [done|]. simpl. apply IH; [set_solver|]. pose proof (Hl x ltac:(set_solver)).
  destruct acc as [[a b]|]; [specialize (Hacc a b eq_refl)|]; intros a' b' [= <- <-]; lia.
Qed.

Lemma sanitizer_holds L V w : volume_ok L V w → ∃ w', check_invariants (V, w) = (Ok true, (V, w')).
Proof.
  intros Hok. destruct (sanitizer_ok _ _ _ (vk_writer _ _ _ Hok)) as [w' Hj]. exists w'. unfold check_invariants.
  cbv beta iota delta [m_bind get_state]. cbn [fst]. unfold on_journal. cbn [fst snd]. rewrite Hj.
  assert (set_journal (vo_journal V) V = V) as -> by (by destruct V). unfold m_ret. do 2 f_equal.
  pose proof (vk_checkpoint _ _ _ Hok). pose proof (vk_overlay _ _ _ Hok) as Ho. pose proof (oo_boundary _ _ _ _ Ho).
  rewrite (proj2 (Z.leb_le _ _)) by lia. cbn [andb]. rewrite (Overlay.wf_check _ (oo_wf _ _ _ _ Ho)). cbn [andb].
  destruct (Overlay.sequence_bounds (vo_overlay V)) as [[lo hi]|] eqn:Hb; cbv iota beta; [|apply orb_true_r].
  rewrite (proj2 (Z.leb_le hi _)); [apply orb_true_r|]. eapply bounds_below; [|exact Hb].
  intros u e He. apply (uf_sequence _ _ _ _ (oo_units _ _ _ _ Ho u e He)).
Qed.

(** ** A checkpoint in one go *)

Lemma finish_value p (st : Volume * W) n st' :
  finish_checkpoint p st = (Ok n, st') → n = Z.max (horizon p) (base_checkpoint p).
Proof.
  unfold finish_checkpoint, finish_idle. intros (V & s1 & _ & Hr)%m_bind_ok. apply m_bind_ok in Hr as (? & s2 & _ & Hr).
  destruct (negb _); [done|]. destruct (Z.leb_spec (horizon p) (base_checkpoint p)).
  - do 6 (apply m_bind_ok in Hr as (? & ? & _ & Hr)). injection Hr as <- _. lia.
  - do 9 (apply m_bind_ok in Hr as (? & ? & _ & Hr)). injection Hr as <- _. lia.
Qed.

Lemma checkpoint_runs L V w r V' w' :
  volume_ok L V w → checkpoint (V, w) = (r, (V', w')) →
  volume_ok L V' w' ∧ same_views none V w V' w' ∧
  ∀ n, r = Ok n → n = Z.max (journal_durable_sequence V) (checkpoint_sequence V) ∧
    checkpoint_sequence V' = n ∧ retired_below V'.
Proof.
  intros Hok Hr. unfold checkpoint in Hr.
  apply m_bind_inv in Hr as [(p & [V1 w1] & H1' & Hr)|(e & H1' & ->)];
    destruct (prepare_ok _ _ _ _ _ _ Hok H1') as (Hok1 & Hl1 & Hg1 & Hp1);
    pose proof (later_same _ _ _ _ _ Hl1 (λ u _, Hg1 u)) as Hs1; [|done].
  destruct (Hp1 p eq_refl) as [Hlive Hh].
  apply m_bind_inv in Hr as [([] & [V2 w2] & H2' & Hr)|(e & H2' & ->)];
    destruct (execute_ok _ _ _ _ _ _ _ Hok1 Hlive H2') as (-> & Hok2 & Ht2 & Hp2);
    pose proof (same_trans _ _ _ _ _ _ _ _ Hl1 Hs1 (ca_same _ _ _ _ (world_tends_calm _ _ _ _ Ht2))) as Hs2; [|done].
  specialize (Hp2 eq_refl).
  destruct (finish_ok _ _ _ _ _ _ _ Hok2 Hp2 Hr) as [Hok3 Hc3 _ Hn3]. split; [done|].
  pose proof (calm_trans _ _ _ _ _ _ (world_tends_calm _ _ _ _ Ht2) Hc3) as Hc23. split; [exact (same_trans _ _ _ _ _ _ _ _ Hl1 Hs1 (ca_same _ _ _ _ Hc23))|].
  intros n ->. destruct (Hn3 n eq_refl) as [Hck Hre]. split; [|done]. rewrite (finish_value _ _ _ _ Hr), Hh.
  rewrite (pl_base _ _ _ _ _ Hlive). unfold checkpoint_sequence. by rewrite (la_state _ _ _ _ _ Hl1).
Qed.

(** ** Driving the system *)

Inductive command :=
| CRead u | CSequence u | CWrite u ct fua | CDiscard u fua | CReclaim u | CFlush | CPiece | CAbandon.

Definition command_ok (g : Geometry) (c : command) : Prop :=
  match c with
  | CRead u | CSequence u | CReclaim u => 0 ≤ u < num_units g
  | CWrite u _ _ | CDiscard u _ => 0 ≤ u
  | CFlush | CPiece | CAbandon => True
  end.

Definition on_volume {A} (m : M (Volume * W) CoreError A) (ev : result CoreError A → event) (σ : system) : event * system :=
  let '(r, (V, w)) := m (sys_volume σ, sys_world σ) in (ev r, mkSystem V w (sys_phase σ)).

(** The next piece of the checkpoint. *)
Definition piece (σ : system) : system :=
  let '(mkSystem V w f) := σ in
  match f with
  | Idle => let '(r, (V', w')) := prepare_checkpoint (V, w) in
            mkSystem V' w' match r with Ok p => Applying p [] (items p) | Err _ => Idle end
  | Applying p its (it :: rest) =>
      if writes_slot (allow_discard p) it.2 then
        let '(r, w') := plan_write (slots p) (length (slot_items p its)) (Overlay.sequence it.2) (Overlay.ciphertext it.2) w in
        mkSystem V w' (if is_ok r then Applying p (its ++ [it]) rest else Idle)
      else mkSystem V w (Applying p (its ++ [it]) rest)
  | Applying p its [] => let '(r, w') := sync_shards (slots p) w in mkSystem V w' (if is_ok r then Synced p else Idle)
  | Synced p => mkSystem V w (if is_ok (validate_reservation_barriers (slots p) (vo_store V)) then Completed p else Idle)
  | Completed p => let '(_, (V', w')) := finish_checkpoint p (V, w) in mkSystem V' w' Idle
  end.

Definition drive (c : command) (σ : system) : event * system :=
  match c with
  | CRead u => on_volume (read_ct u) (EvRead u) σ
  | CSequence u => on_volume (current_sequence u) (EvSequence u) σ
  | CWrite u ct fua => on_volume (write_ct u ct fua) (EvWrite u ct fua) σ
  | CDiscard u fua => on_volume (discard_ct u fua) (EvDiscard u fua) σ
  | CReclaim u => on_volume (reclaim_unwritten u) (EvReclaimUnwritten u) σ
  | CFlush => on_volume flush EvFlush σ
  | CPiece => (EvCheckpoint, piece σ)
  | CAbandon => (EvCheckpoint, mkSystem (sys_volume σ) (sys_world σ) Idle)
  end.

Fixpoint drives (cs : list command) (σ : system) : list event * system :=
  match cs with
  | [] => ([], σ)
  | c :: cs => let '(e, σ1) := drive c σ in let '(es, σ2) := drives cs σ1 in (e :: es, σ2)
  end.

Lemma drive_step c σ : command_ok (vgeom (sys_volume σ)) c → step σ (drive c σ).1 (drive c σ).2.
Proof.
  destruct σ as [V w f]. destruct c; cbn [command_ok drive sys_volume]; intros Hc; unfold on_volume; cbn [sys_volume sys_world sys_phase].
  - destruct (read_ct u (V, w)) as [r [V' w']] eqn:Hr. by constructor.
  - destruct (current_sequence u (V, w)) as [r [V' w']] eqn:Hr. by constructor.
  - destruct (write_ct u ct fua (V, w)) as [r [V' w']] eqn:Hr. by constructor.
  - destruct (discard_ct u fua (V, w)) as [r [V' w']] eqn:Hr. by constructor.
  - destruct (reclaim_unwritten u (V, w)) as [r [V' w']] eqn:Hr. by constructor.
  - destruct (flush (V, w)) as [r [V' w']] eqn:Hr. by constructor.
  - cbn [fst snd piece]. destruct f as [|p its [|it rest]|p|p].
    + destruct (prepare_checkpoint (V, w)) as [r [V' w']] eqn:Hr. by constructor.
    + destruct (sync_shards (slots p) w) as [r w'] eqn:Hr. by constructor.
    + destruct (writes_slot _ _) eqn:Hws; [|by constructor]. destruct (plan_write _ _ _ _ w) as [r w'] eqn:Hr. by constructor.
    + constructor.
    + destruct (finish_checkpoint p (V, w)) as [r [V' w']] eqn:Hr. by econstructor.
  - constructor.
Qed.

Lemma drives_run cs : ∀ σ, good σ → Forall (command_ok (vgeom (sys_volume σ))) cs → run σ (drives cs σ).1 (drives cs σ).2.
Proof.
  induction cs as [|c cs IH]; intros σ Hg Hcs; [constructor|]. apply list.Forall_cons in Hcs as [Hc Hcs]. cbn [drives].
  pose proof (drive_step c σ Hc) as Hst. destruct (drive c σ) as [e σ1]. cbn [fst snd] in *.
  destruct (step_simulates (mkAbstract ∅ 0) _ _ _ Hg Hst) as (Hg1 & Hge & _). rewrite <- Hge in Hcs.
  specialize (IH σ1 Hg1 Hcs). destruct (drives cs σ1) as [es σ2]. by econstructor.
Qed.
End Runs.

Section Claims.
Context `{Crc32} `{BackingLaws W F} `{HasherLaws HT} `{HashOrder}.
Abbreviation Volume := (Volume (F := F) (HT := HT)).
Implicit Types (V : Volume) (w : W) (σ : system (W := W) (F := F) (HT := HT)).

(** C2. The volume refines a map of last writes.  In every run of reads, writes,
    discards, reclamations and flushes, with the pieces of checkpoints between
    them and with any failures, each read returns what was last written to
    its unit (or reports a storage error), a failed write or discard has
    happened or has not, new sequences grow, and flushes and checkpoints are
    invisible. *)
Theorem volume_refines σ es σ' a :
  good σ → shows a (sys_volume σ) (sys_world σ) → run σ es σ' →
  ∃ a', spec_run (supports_discard (sys_volume σ)) a es a' ∧ shows a' (sys_volume σ') (sys_world σ').
Proof. intros Hg Hs Hr. by destruct (run_simulates _ _ _ Hr a Hg Hs) as [_ ?]. Qed.

(** C11. The volume's sanitizer never fires: in every reachable state the
    checkpoint is at or below the durable boundary, the journal and the
    overlay pass their own audits, and no overlay version is newer than the
    journal. *)
Theorem volume_sanitizer σ es σ' :
  good σ → run σ es σ' →
  ∃ w', check_invariants (sys_volume σ', sys_world σ') = (Ok true, (sys_volume σ', w')).
Proof.
  intros Hg Hr.
  destruct (run_simulates _ _ _ Hr (mkAbstract ∅ (journal_appended_sequence (sys_volume σ))) Hg) as [[[L Hok] _] _].
  { split; [simpl; lia|]. intros u x. simpl. by rewrite lookup_empty. }
  by eapply sanitizer_holds.
Qed.

(** C12. A checkpoint in one go: whatever fails, readers see what they saw in
    every unit that is pending or in a file that is not short, and the
    invariant holds; on success the checkpoint has reached the durable
    boundary and nothing as old is left in the overlay. *)
Theorem checkpoint_exact L V w r V' w' :
  volume_ok L V w → checkpoint (V, w) = (r, (V', w')) →
  volume_ok L V' w' ∧ same_views none V w V' w' ∧
  ∀ n, r = Ok n → n = Z.max (journal_durable_sequence V) (checkpoint_sequence V) ∧
    checkpoint_sequence V' = n ∧ retired_below V'.
Proof. apply checkpoint_runs. Qed.
End Claims.

(** ** Witnesses *)
Module VolumeRunSample.
#[local] Existing Instance Ieee.ieee.
Import JournalSample StoreSample.

Definition uuid : bytes := Superblock.volume_uuid sb.
Definition p0 : DurableProof := mkDurableProof 2 uuid 0 0 0.
Definition j0 : Journal.JournalWriter (F := CrashFile) (HT := bytes) := Journal.resume uuid 4096 0 0 [] p0.
Definition v0 : Volume.Volume (F := CrashFile) (HT := bytes) :=
  mkVolume sb j0 st0.1 Overlay.new (Checkpoint.mkCheckpointState 2 0).
Definition sys0 : system (W := Inner) := mkSystem v0 st0.2 Idle.

(** Two units are written and checkpointed; between the pieces of the
    checkpoint one of them is written again. *)
Definition script : list command := [
  CWrite 3 cipher false; CWrite 0 cipher true; CDiscard 1 false; CFlush;
  CPiece; CPiece; CWrite 3 plain false; CRead 3; CPiece; CPiece; CPiece; CPiece; CRead 3; CRead 0; CSequence 3;
  CDiscard 0 true; CRead 0; CPiece; CPiece; CPiece; CPiece; CPiece; CPiece; CRead 3; CReclaim 0].

Definition ended : list event * system (W := Inner) (F := CrashFile) (HT := bytes) := drives script sys0.

Definition shape (e : event) : option Z * bool :=
  match e with
  | EvRead _ (Ok (Some (n, _))) => (Some n, true)
  | EvRead _ (Ok None) => (None, true)
  | EvSequence _ (Ok n) => (n, true)
  | EvWrite _ _ _ (Ok n) | EvDiscard _ _ (Ok n) => (Some n, true)
  | EvReclaimUnwritten _ (Ok b) => (None, b)
  | EvFlush (Ok _) => (None, true)
  | EvCheckpoint => (None, true)
  | _ => (None, false)
  end.

Definition expected : list (option Z * bool) := [
  (Some 1, true); (Some 2, true); (Some 2, true); (None, true); (None, true); (None, true); (Some 3, true); (Some 3, true);
  (None, true); (None, true); (None, true); (None, true); (Some 3, true); (Some 2, true); (Some 3, true); (Some 4, true);
  (None, true); (None, true); (None, true); (None, true); (None, true); (None, true); (None, true); (Some 3, true); (None, true)].

(** One checkpoint of the volume after the first flush. *)
Definition flushed : system (W := Inner) (F := CrashFile) (HT := bytes) := (drives (take 4 script) sys0).2.
Definition checked : result CoreError Z * (Volume.Volume (F := CrashFile) (HT := bytes) * Inner) :=
  checkpoint (sys_volume flushed, sys_world flushed).

Definition is_two (r : result CoreError Z) : bool := match r with Ok n => n =? 2 | Err _ => false end.

Definition run_outcomes : list bool := [
  st_discard_enabled st0.1; bool_decide (shape <$> ended.1 = expected); is_two checked.1].

Lemma run_outcomes_true : forallb id run_outcomes = true.
Proof. vm_compute. reflexivity. Qed.

Lemma run_outcome i b : run_outcomes !! i = Some b → b = true.
Proof.
  intros Hb. pose proof run_outcomes_true as Ha. rewrite forallb_forall in Ha. apply Ha, list_elem_of_In.
  by eapply list_elem_of_lookup_2.
Qed.

Lemma create_ran : is_ok (create_volume_with_metadata_version sb SUPERBLOCK_VERSION_V3 Sample.empty).1 = true.
Proof. vm_compute. reflexivity. Qed.

#[local] Transparent w0.

Lemma run_attested : attested w0 p0.
Proof.
  assert (absent Sample.empty SUPERBLOCK_A ∧ absent Sample.empty SUPERBLOCK_B ∧ unused Sample.empty) as (Ha & Hb & Hu) by done.
  destruct (create_commit sb SUPERBLOCK_VERSION_V3 _ Sample.empty w0 ProofSample.w0_inv small_sb_ok Ha Hb Hu
    (surjective_pairing _)) as (_ & [(e & He & _)|((g1 & g2 & Hm) & _)] & _).
  { pose proof (eq_trans (eq_sym create_ran) (f_equal is_ok He)) as Hr. clear -Hr. discriminate Hr. }
  destruct Hm as (_ & _ & t & Ht & _ & Hd). eexists (other proof_store t), _.
  split; [apply other_side|]. split; [exact Hd|]. done.
Qed.

#[local] Opaque w0.

Lemma j0_writer : writer_ok (λ _, []) j0 w0.
Proof.
  split; [by split|]. split; [exact small_inv|constructor|intros a [=]|intros f [=]|exact run_attested].
Qed.

Lemma sys0_volume : VolumeState.volume_ok (λ _, []) v0 st0.2.
Proof.
  destruct (open_peeks g w0 small_inv g_wf _ _ open0) as [Hk HQ]. destruct (HQ _ eq_refl) as (Hst & Hg & _). clear HQ.
  split.
  - eapply JournalDurability.other_ok; [exact j0_writer|]. apply keeps_all. exact Hk.
  - exact Hst.
  - exact (eq_sym Hg).
  - unfold vgeom. simpl. rewrite Hg. by vm_compute.
  - split; [apply Overlay.new_wf|apply Z.le_refl|]. intros u e. simpl. rewrite lookup_empty. discriminate.
  - change (0 ≤ 0 ≤ 0). lia.
  - change (u64_ok 2 ∧ u64_ok 0). unfold u64_ok, U64_MAX. lia.
  - intros u v. unfold Overlay.get. simpl. rewrite lookup_empty. discriminate.
  - intros Hen. exfalso. exact (eq_true_false_abs _ (run_outcome 0 _ eq_refl) Hen).
Qed.

Lemma sys0_good : good sys0.
Proof. split; [exists (λ _, []); exact sys0_volume|exact I]. Qed.

Lemma sys0_script : Forall (command_ok (vgeom (sys_volume sys0))) script.
Proof.
  destruct (open_peeks g w0 small_inv g_wf _ _ open0) as [_ HQ]. destruct (HQ _ eq_refl) as (_ & Hg & _).
  unfold vgeom. change (vo_store (sys_volume sys0)) with st0.1. rewrite Hg. clear.
  repeat (apply list.Forall_cons; split; [simpl; rewrite ?g_units; lia|]). constructor.
Qed.

Lemma sys0_run : run sys0 ended.1 ended.2.
Proof. exact (drives_run script sys0 sys0_good sys0_script). Qed.

Lemma sys0_shows : shows (mkAbstract ∅ 0) (sys_volume sys0) (sys_world sys0).
Proof. split; [apply Z.le_refl|]. intros u x. simpl. rewrite lookup_empty. discriminate. Qed.

Lemma flushed_good : good flushed.
Proof.
  assert (Forall (command_ok (vgeom (sys_volume sys0))) (take 4 script)) as Hs by (apply Forall_take, sys0_script).
  exact (proj1 (run_simulates _ _ _ (drives_run _ _ sys0_good Hs) _ sys0_good sys0_shows)).
Qed.

Lemma checked_ran : checkpoint (sys_volume flushed, sys_world flushed) = (Ok 2, (checked.2.1, checked.2.2)).
Proof.
  assert (is_two checked.1 = true) as Hc by exact (run_outcome 2 _ eq_refl).
  change (checked = (Ok 2, (checked.2.1, checked.2.2))). revert Hc. generalize checked as c. clear.
  intros [[n|e] [V w]] Hc; [|discriminate Hc]. apply Z.eqb_eq in Hc as ->. reflexivity.
Qed.

#[global] Opaque ended flushed checked.
End VolumeRunSample.

#[local] Existing Instance Ieee.ieee.
Import VolumeRunSample JournalSample.

(** The script shows each version to the reads behind it and leaves the
    specification with the second write of unit 3 and the discard of unit 0. *)
Lemma volume_refines_witness :
  shape <$> ended.1 = expected ∧
  ∃ a, spec_run (supports_discard (sys_volume sys0)) (mkAbstract ∅ 0) ended.1 a ∧
    shows a (sys_volume ended.2) (sys_world ended.2).
Proof.
  split; [exact (proj1 (bool_decide_eq_true _) (run_outcome 1 _ eq_refl))|].
  exact (volume_refines sys0 ended.1 ended.2 (mkAbstract ∅ 0) sys0_good sys0_shows sys0_run).
Defined.

Lemma volume_sanitizer_witness :
  ∃ w', check_invariants (sys_volume ended.2, sys_world ended.2) = (Ok true, (sys_volume ended.2, w')).
Proof. exact (volume_sanitizer sys0 ended.1 ended.2 sys0_good sys0_run). Defined.

Lemma checkpoint_exact_witness :
  ∃ L, VolumeState.volume_ok L checked.2.1 checked.2.2 ∧ checkpoint_sequence checked.2.1 = 2 ∧ retired_below checked.2.1.
Proof.
  destruct flushed_good as [[L Hok] _].
  destruct (checkpoint_exact L _ _ _ _ _ Hok checked_ran) as (Hok' & _ & Hn). destruct (Hn 2 eq_refl) as (_ & Hc & Hr).
  exists L. exact (conj Hok' (conj Hc Hr)).
Defined.
