(* ===== verification/AttachRuns.v ===== *)
(** * AttachRuns: a volume through a crash

    A concrete volume is written and synced, the machine loses everything
    that was not synced, and the volume is attached again: the premises of
    the attach theorems hold along the way and the write is there. *)

From S2P Require Import Prelude BTreeMap Codec Layout Geometry AbRecord Metadata Superblock JournalFormat Backing CrashBacking AbStore FixedCopy DurableProof JournalWriter JournalProof JournalDurability RecoveryScan Volumes JournalScan SlotStore Recovery StoreData Adopt StoreProof StoreReads StoreOpen StoreRuns Overlay Volume VolumeState VolumeOps VolumeCheckpoint Replay Attach VolumeRuns.
Import Store Volume.
Import (hints) Metadata.Catalog Metadata.Allocation Metadata.Checkpoint.

Local Open Scope Z_scope.

Module AttachSample.
#[local] Existing Instance Ieee.ieee.
Import JournalSample StoreSample VolumeRunSample.

Abbreviation Vol := (Volume.Volume (F := CrashFile) (HT := bytes)).

(** One write, one barrier, the end of the process and a loss of power. *)
Definition wrote : system (W := Inner) (F := CrashFile) (HT := bytes) := (drives (take 1 script) sys0).2.
Definition synced : result CoreError Z * (Journal.JournalWriter (F := CrashFile) (HT := bytes) * Inner) :=
  Journal.sync (vo_journal (sys_volume wrote), sys_world wrote).
Definition ended_process : Inner := drop_lock VOLUME_LOCK synced.2.2.
Definition lost : Inner := crash_all_lost ended_process.
Definition options : VolumeOptions := mkVolumeOptions 4096.
Definition attached : result RecoveryError Vol * Inner := recover (F := CrashFile) (HT := bytes) options lost.
Definition volume_of (r : result RecoveryError Vol) : Vol := match r with Ok V => V | Err _ => v0 end.
Definition volume : Vol := volume_of attached.1.
Definition reread : result CoreError (option (Z * bytes)) := (read_ct 3 (volume, attached.2)).1.

Definition is_one (r : result CoreError Z) : bool := match r with Ok n => n =? 1 | Err _ => false end.
Definition is_cipher (r : result CoreError (option (Z * bytes))) : bool :=
  match r with Ok (Some (n, c)) => (n =? 1) && bytes_eqb c cipher | _ => false end.

Definition one_segment (l : list Journal.SegmentInfo) : bool :=
  match l with
  | [s] => (Journal.s_index s =? 0) && (Journal.s_record_count s =? 1) && (Journal.s_base_sequence s =? 1)
  | _ => false
  end.

Definition attach_outcomes : list bool := [
  is_one synced.1; is_ok attached.1; is_cipher reread; bool_decide (vgeom volume = g);
  bytes_eqb (Superblock.volume_uuid (vo_superblock volume)) (Journal.j_volume_uuid (vo_journal (sys_volume wrote)));
  one_segment (Journal.segments synced.2.1);
  checkpoint_sequence volume =? 1].

Lemma attach_outcomes_true : forallb id attach_outcomes = true.
Proof. vm_compute. reflexivity. Qed.

Lemma attach_outcome i b : attach_outcomes !! i = Some b → b = true.
Proof.
  intros Hb. pose proof attach_outcomes_true as Ha. rewrite forallb_forall in Ha. apply Ha, list_elem_of_In.
  by eapply list_elem_of_lookup_2.
Qed.

Lemma wrote_good : good wrote.
Proof.
  assert (Forall (command_ok (vgeom (sys_volume sys0))) (take 1 script)) as Hs by (apply Forall_take, sys0_script).
  exact (proj1 (run_simulates _ _ _ (drives_run _ _ sys0_good Hs) _ sys0_good sys0_shows)).
Qed.

#[local] Opaque wrote.

Lemma synced_ran : Journal.sync (vo_journal (sys_volume wrote), sys_world wrote) = (Ok 1, (synced.2.1, synced.2.2)).
Proof.
  assert (is_one synced.1 = true) as Hc by exact (attach_outcome 0 _ eq_refl).
  change (synced = (Ok 1, (synced.2.1, synced.2.2))). revert Hc. generalize synced as c. clear.
  intros [[n|e] [j w]] Hc; [|discriminate Hc]. apply Z.eqb_eq in Hc as ->. reflexivity.
Qed.

Lemma attached_ran : recover options lost = (Ok volume, attached.2).
Proof.
  assert (is_ok attached.1 = true) as Hc by exact (attach_outcome 1 _ eq_refl).
  change (attached = (Ok (volume_of attached.1), attached.2)). revert Hc. generalize attached as c. clear.
  intros [[V|e] w] Hc; [reflexivity|discriminate Hc].
Qed.

Lemma volume_roomy : roomy (vgeom volume).
Proof.
  assert (vgeom volume = g) as -> by exact (proj1 (bool_decide_eq_true _) (attach_outcome 3 _ eq_refl)).
  by vm_compute.
Qed.

Lemma options_ok : journal_segment_size options ≤ MAX_JOURNAL_SEGMENT_SIZE.
Proof. by vm_compute. Qed.

Lemma crashed : rtc crashes ended_process lost.
Proof. apply rtc_once. right. reflexivity. Qed.

Lemma process_run : journal_run (synced.2.1, synced.2.2) [] (synced.2.1, ended_process).
Proof.
  destruct wrote_good as [[L Hok] _]. destruct (sync_ok _ _ _ _ _ _ (vk_writer _ _ _ Hok) synced_ran) as [Hw _ _ _ _ _].
  eapply (JournalDurability.run_step _ None _ []); [|apply JournalDurability.run_nil]. apply JournalDurability.step_other. apply keeps_all, drop_lock_keeps, Hw.
Qed.

Lemma attach_inv : inv lost.
Proof.
  destruct wrote_good as [[L Hok] _].
  by destruct (acknowledged_recovered _ _ _ _ _ _ _ _ _ _ (vk_writer _ _ _ Hok) synced_ran process_run crashed) as (_ & _ & _ & ? & _).
Qed.

#[global] Opaque synced lost attached volume.
End AttachSample.

#[local] Existing Instance Ieee.ieee.
Import AttachSample JournalSample.

(** The attached volume shows the synced write of unit 3. *)
Lemma recover_sound_witness :
  is_cipher reread = true ∧ checkpoint_sequence volume = 1 ∧ ∃ L, VolumeState.volume_ok L volume attached.2.
Proof.
  split; [exact (attach_outcome 2 _ eq_refl)|]. split; [exact (proj1 (Z.eqb_eq _ _) (attach_outcome 6 _ eq_refl))|].
  exact (proj1 (recover_sound options lost volume attached.2 attach_inv options_ok attached_ran volume_roomy)).
Defined.

Lemma acknowledged_attached_witness :
  ∃ (L : Z → list JournalRecord) env p0 s0 c0 js G w5, loaded (F := CrashFile) (HT := bytes) lost env p0 s0 c0 js G w5 ∧
    (∀ s r, s ∈ Journal.segments synced.2.1 → r ∈ L (Journal.s_index s) → Checkpoint.checkpoint_sequence c0 < sequence r →
      ∃ r', unit_index r' = unit_index r ∧ sequence r ≤ sequence r' ∧ (sequence r' = sequence r → r' = r) ∧
        vol_view volume attached.2 (unit_index r) = Ok (as_read (supports_discard volume) (rver r'))).
Proof.
  destruct wrote_good as [[L Hok] _]. exists L.
  destruct (acknowledged_attached L _ _ 1 _ _ [] _ _ lost options volume attached.2 (vk_writer _ _ _ Hok) synced_ran
    process_run crashed options_ok attached_ran volume_roomy) as (env & p0 & s0 & c0 & js & G & w5 & Hld & Hall).
  - exact (proj1 (bytes_eqb_eq _ _) (attach_outcome 4 _ eq_refl)).
  - exists env, p0, s0, c0, js, G, w5. split; [exact Hld|]. exact (Hall (List.Forall_nil _)).
Defined.

