(* ===== verification/Cache.v ===== *)
(** * Cache: the versioned plaintext LRU cache (crates/maki-cache/src/lib.rs)

    [Inner] with its two indexes and the operations of [VersionedLruCache];
    each operation holds the cache's lock for its whole body, so it is one
    step on the state.  The clock is an argument: the reading the operation
    makes.  Shown: the indexes and the byte count stay consistent and within
    the budget, a hit never returns anything but what was stored for exactly
    the requested version within its time to live, and eviction takes the
    least recently used entries and no more than needed. *)

From S2P Require Import Prelude BTreeMap.

Local Open Scope Z_scope.

Module Cache.

Record Entry := mkEntry {
  write_sequence : Z;
  data : bytes;
  inserted_at : Z;
  last_used : Z
}.

Record Inner := mkInner {
  map : gmap Z Entry;
  recency : gmap Z Z;
  cbytes : Z;
  max_bytes : Z;
  tick : Z
}.

(** The mutex-protected TTL, the entries and the two counters. *)
Record VersionedLruCache := mkCache {
  ttl : Z;
  inner : Inner;
  hits : Z;
  misses : Z
}.

Definition remove (unit : Z) (i : Inner) : Inner :=
  match map i !! unit with
  | None => i
  | Some entry =>
      mkInner (delete unit (map i)) (delete (last_used entry) (recency i))
        (sub64 (cbytes i) (blen (data entry))) (max_bytes i) (tick i)
  end.

Definition next_tick (i : Inner) : Inner * Z :=
  let t := add64 (tick i) 1 in
  (mkInner (map i) (recency i) (cbytes i) (max_bytes i) t, t).

Definition touch (unit : Z) (i : Inner) : Inner :=
  let '(i, t) := next_tick i in
  match map i !! unit with
  | None => i
  | Some entry =>
      mkInner (<[unit := mkEntry (write_sequence entry) (data entry) (inserted_at entry) t]> (map i))
        (<[t := unit]> (delete (last_used entry) (recency i))) (cbytes i) (max_bytes i) (tick i)
  end.

(** The [while] loop of [make_room]; every round evicts one entry. *)
Fixpoint make_room_loop (fuel : nat) (need : Z) (i : Inner) : Inner :=
  match fuel with
  | O => i
  | S fuel =>
      if max_bytes i <? add64 (cbytes i) need then
        match first_key_value (recency i) with
        | None => i
        | Some (_, unit) => make_room_loop fuel need (remove unit i)
        end
      else i
  end.

Definition make_room (need : Z) (i : Inner) : Inner :=
  make_room_loop (S (size (recency i))) need i.

Definition inner_clear (i : Inner) : Inner := mkInner ∅ ∅ 0 (max_bytes i) (tick i).

Definition new (max_bytes ttl : Z) : VersionedLruCache :=
  mkCache ttl (mkInner ∅ ∅ 0 max_bytes 0) 0 0.

Definition with_inner (c : VersionedLruCache) (i : Inner) : VersionedLruCache :=
  mkCache (ttl c) i (hits c) (misses c).

Definition put_inner (now unit seq : Z) (d : bytes) (i : Inner) : Inner :=
  if match map i !! unit with Some entry => seq <? write_sequence entry | None => false end then i
  else
    let i := remove unit i in
    if (blen d =? 0) || (max_bytes i <? blen d) || (max_bytes i =? 0) then i
    else
      let i := make_room (blen d) i in
      let '(i, t) := next_tick i in
      mkInner (<[unit := mkEntry seq d now t]> (map i)) (<[t := unit]> (recency i))
        (add64 (cbytes i) (blen d)) (max_bytes i) (tick i).

Definition put (now unit seq : Z) (d : bytes) (c : VersionedLruCache) : VersionedLruCache :=
  with_inner c (put_inner now unit seq d (inner c)).

(** [now.saturating_sub(inserted_at) < ttl]. *)
Definition alive (now ttl : Z) (entry : Entry) : bool :=
  saturating_sub now (inserted_at entry) <? ttl.

Definition get (now unit seq : Z) (c : VersionedLruCache) : VersionedLruCache * option bytes :=
  let '(i, result) :=
    match map (inner c) !! unit with
    | Some entry =>
        if (write_sequence entry =? seq) && alive now (ttl c) entry
        then (inner c, Some (data entry))
        else if (seq <? write_sequence entry) && alive now (ttl c) entry
        then (inner c, None)
        else (remove unit (inner c), None)
    | None => (inner c, None)
    end in
  match result with
  | Some d => (mkCache (ttl c) (touch unit i) (add64 (hits c) 1) (misses c), Some d)
  | None => (mkCache (ttl c) i (hits c) (add64 (misses c) 1), None)
  end.

Definition invalidate (unit : Z) (c : VersionedLruCache) : VersionedLruCache :=
  with_inner c (remove unit (inner c)).

Definition clear (c : VersionedLruCache) : VersionedLruCache := with_inner c (inner_clear (inner c)).

Definition reconfigure (max : Z) (ttl0 : option Z) (c : VersionedLruCache) : VersionedLruCache :=
  let c := match ttl0 with Some t => mkCache t (inner c) (hits c) (misses c) | None => c end in
  let i := inner c in
  let i := mkInner (map i) (recency i) (cbytes i) max (tick i) in
  with_inner c (if max =? 0 then inner_clear i else make_room 0 i).

Definition set_max_bytes (max : Z) (c : VersionedLruCache) : VersionedLruCache := reconfigure max None c.

Definition set_ttl (t : Z) (c : VersionedLruCache) : VersionedLruCache :=
  mkCache t (inner c) (hits c) (misses c).

(** [stats]: entries, bytes, hits, misses; [try_stats] when the lock is free. *)
Definition stats (c : VersionedLruCache) : Z * Z * Z * Z :=
  (Z.of_nat (size (map (inner c))), cbytes (inner c), hits c, misses c).

(** ** The invariant *)

Definition esize (e : Entry) : Z := blen (data e).

Record inner_ok (i : Inner) : Prop := {
  ok_recency t u : recency i !! t = Some u ↔ ∃ e, map i !! u = Some e ∧ last_used e = t;
  ok_tick u e : map i !! u = Some e → last_used e ≤ tick i;
  ok_nonempty u e : map i !! u = Some e → 0 < esize e;
  ok_bytes : cbytes i = msum esize (map i);
  ok_tick0 : 0 ≤ tick i;
  ok_max : 0 ≤ max_bytes i
}.

(** Budgets of this size cannot overflow the [u64] comparison of
    [make_room]. *)
Definition budget_ok (i : Inner) : Prop := cbytes i ≤ max_bytes i ≤ I64_MAX.

Lemma esize_nonneg e : 0 ≤ esize e.
Proof. apply blen_nonneg. Qed.

Lemma cbytes_nonneg i : inner_ok i → 0 ≤ cbytes i.
Proof. intros Hi. rewrite (ok_bytes _ Hi). apply msum_nonneg, esize_nonneg. Qed.

Lemma remove_ok u i :
  inner_ok i → cbytes i ≤ U64_MAX →
  inner_ok (remove u i) ∧ map (remove u i) = delete u (map i) ∧
  cbytes (remove u i) = cbytes i - default 0 (esize <$> map i !! u) ∧
  max_bytes (remove u i) = max_bytes i ∧ tick (remove u i) = tick i ∧
  recency (remove u i) = match map i !! u with Some e => delete (last_used e) (recency i) | None => recency i end.
Proof.
  intros Hi Hfit. unfold remove. destruct (map i !! u) as [e|] eqn:He; cbn.
  - pose proof (msum_le esize _ _ _ esize_nonneg He) as Hle. rewrite <- (ok_bytes _ Hi) in Hle.
    pose proof (esize_nonneg e). change (blen (data e)) with (esize e).
    rewrite sub64_small by lia. split; [|done]. split; cbn.
    + intros t v. rewrite lookup_delete_Some, (ok_recency _ Hi). split.
      * intros [Hne (e' & He' & Ht)]. exists e'. split; [|done]. rewrite lookup_delete_ne; [done|].
        intros ->. congruence.
      * intros (e' & [Hne He']%lookup_delete_Some & Ht). split; [|by exists e'].
        intros Heq. apply Hne.
        assert (recency i !! t = Some u) as H1 by (apply (ok_recency _ Hi); exists e; split; [done|congruence]).
        assert (recency i !! t = Some v) as H2 by (apply (ok_recency _ Hi); by exists e'). congruence.
    + intros v e' [_ Hv]%lookup_delete_Some. by eapply ok_tick.
    + intros v e' [_ Hv]%lookup_delete_Some. by eapply ok_nonempty.
    + rewrite (ok_bytes _ Hi), (msum_delete _ _ _ _ He). lia.
    + apply Hi.
    + apply Hi.
  - rewrite delete_id by done. split; [done|]. split; [done|]. split; [lia|done].
Qed.

(** ** Eviction *)

(** The oldest entries, one at a time. *)
Fixpoint evict (n : nat) (i : Inner) : Inner :=
  match n with
  | O => i
  | S n => match first_key_value (recency i) with
           | None => i
           | Some (_, unit) => evict n (remove unit i)
           end
  end.

(** What an eviction leaves: a part of the entries, the kept ones all used
    more recently than the dropped ones. *)
Record evicted (i i' : Inner) : Prop := {
  ev_ok : inner_ok i';
  ev_max : max_bytes i' = max_bytes i;
  ev_tick : tick i' = tick i;
  ev_map : map i' ⊆ map i;
  ev_bytes : cbytes i' ≤ cbytes i;
  ev_lru u e v e' : map i !! u = Some e → map i' !! u = None → map i' !! v = Some e' →
    last_used e < last_used e'
}.

Lemma evicted_refl i : inner_ok i → evicted i i.
Proof. intros Hi. split; try done. intros u e v e'. congruence. Qed.

(** Evicting the oldest first keeps the order of what follows. *)
Lemma evicted_oldest i t u i' :
  inner_ok i → cbytes i ≤ U64_MAX → first_key_value (recency i) = Some (t, u) →
  evicted (remove u i) i' → evicted i i'.
Proof.
  intros Hi Hfit Hf Hev. destruct (first_key_value_some _ _ _ Hf) as [Ht Hmin].
  destruct (remove_ok u i Hi Hfit) as (Hok & Hmap & Hb & Hmx & Htk & _).
  apply (ok_recency _ Hi) in Ht as (eu & Heu & Hlu).
  split.
  - apply Hev.
  - by rewrite (ev_max _ _ Hev).
  - by rewrite (ev_tick _ _ Hev).
  - etransitivity; [apply Hev|]. rewrite Hmap. apply delete_subseteq.
  - pose proof (ev_bytes _ _ Hev). rewrite Heu in Hb. simpl in Hb. pose proof (esize_nonneg eu). lia.
  - intros x e v e' Hx Hx' Hv. destruct (decide (x = u)) as [->|Hne].
    + rewrite Heu in Hx. injection Hx as <-.
      pose proof (lookup_weaken _ _ _ _ Hv (ev_map _ _ Hev)) as Hvi. rewrite Hmap in Hvi.
      apply lookup_delete_Some in Hvi as [Hvu Hvi].
      specialize (Hmin (last_used e') ltac:(eexists; apply (ok_recency _ Hi); eauto)).
      assert (last_used eu ≠ last_used e'); [|lia]. intros Heq.
      assert (recency i !! last_used e' = Some v) as H1 by (apply (ok_recency _ Hi); eauto).
      assert (recency i !! last_used e' = Some u) as H2 by (apply (ok_recency _ Hi); eauto). congruence.
    + eapply (ev_lru _ _ Hev x e v e'); [by rewrite Hmap, lookup_delete_ne|done|done].
Qed.

Lemma first_none_empty i : inner_ok i → first_key_value (recency i) = None → map i = ∅.
Proof.
  intros Hi Hf%first_key_value_none. apply map_eq. intros u. rewrite lookup_empty.
  destruct (map i !! u) as [e|] eqn:He; [|done].
  assert (recency i !! last_used e = Some u) as Hr by (apply (ok_recency _ Hi); eauto).
  by rewrite Hf, lookup_empty in Hr.
Qed.

Lemma make_room_loop_spec fuel need i :
  (size (recency i) < fuel)%nat → inner_ok i → 0 ≤ need → cbytes i + need ≤ U64_MAX →
  let i' := make_room_loop fuel need i in
  evicted i i' ∧ (cbytes i' + need ≤ max_bytes i ∨ map i' = ∅) ∧
  ∃ k, i' = evict k i ∧ ∀ j, (j < k)%nat → max_bytes i < cbytes (evict j i) + need.
Proof.
  cbv zeta. revert i. induction fuel as [|fuel IH]; intros i Hfuel Hi Hn Hfit; [lia|]. cbn [make_room_loop].
  pose proof (cbytes_nonneg _ Hi) as H0. rewrite add64_small by lia.
  destruct (Z.ltb_spec (max_bytes i) (cbytes i + need)) as [Hlt|Hge].
  - destruct (first_key_value (recency i)) as [[t u]|] eqn:Hf.
    + destruct (first_key_value_some _ _ _ Hf) as [Ht _].
      destruct (remove_ok u i Hi ltac:(lia)) as (Hok & Hmap & Hb & Hmx & Htk & Hrec).
      pose proof Ht as (eu & Heu & Hlu)%(ok_recency _ Hi). pose proof (esize_nonneg eu).
      rewrite Heu in Hb, Hrec. simpl in Hb.
      destruct (IH (remove u i)) as (Hev & Hroom & k & Hk & Hmin); [|done|done|lia|].
      { rewrite Hrec, Hlu, map_size_delete, Ht. simpl.
        assert (size (recency i) ≠ 0%nat); [|lia]. intros Hz%map_size_empty_inv. by rewrite Hz in Ht. }
      split; [eapply evicted_oldest; [done|lia|done|done]|]. split; [by rewrite <- Hmx|]. exists (S k). cbn [evict]. rewrite Hf.
      split; [done|]. intros [|j] Hj; [done|]. cbn [evict]. rewrite Hf, <- Hmx. apply Hmin. lia.
    + split; [by apply evicted_refl|]. split; [right; by apply first_none_empty|].
      exists 0%nat. split; [done|]. intros. lia.
  - split; [by apply evicted_refl|]. split; [by left|]. exists 0%nat. split; [done|]. intros. lia.
Qed.

Lemma make_room_spec need i :
  inner_ok i → 0 ≤ need → cbytes i + need ≤ U64_MAX →
  let i' := make_room need i in
  evicted i i' ∧ (cbytes i' + need ≤ max_bytes i ∨ map i' = ∅) ∧
  ∃ k, i' = evict k i ∧ ∀ j, (j < k)%nat → max_bytes i < cbytes (evict j i) + need.
Proof. intros. apply make_room_loop_spec; [lia|done..]. Qed.

(** Empty caches hold no bytes. *)
Lemma empty_bytes i : inner_ok i → map i = ∅ → cbytes i = 0.
Proof. intros Hi He. by rewrite (ok_bytes _ Hi), He, msum_empty. Qed.

(** *** Insertion and recency *)

Definition insert_at (unit seq now : Z) (d : bytes) (i : Inner) : Inner :=
  let '(i, t) := next_tick i in
  mkInner (<[unit := mkEntry seq d now t]> (map i)) (<[t := unit]> (recency i))
    (add64 (cbytes i) (blen d)) (max_bytes i) (tick i).

Lemma insert_at_ok unit seq now d i :
  inner_ok i → map i !! unit = None → 0 < blen d → cbytes i + blen d ≤ U64_MAX → tick i < U64_MAX →
  inner_ok (insert_at unit seq now d i).
Proof.
  intros Hi Hu Hd Hfit Ht. pose proof (cbytes_nonneg _ Hi). pose proof (ok_tick0 _ Hi).
  unfold insert_at, next_tick. rewrite (add64_small (tick i)), (add64_small (cbytes i)) by lia. cbn. split; cbn.
  - intros t u. rewrite lookup_insert_Some. split.
    + intros [[<- <-]|[Hne Hr]].
      * eexists. split; [apply lookup_insert_eq|done].
      * apply (ok_recency _ Hi) in Hr as (e & He & Hl). exists e. split; [|done].
        rewrite lookup_insert_ne; [done|]. congruence.
    + intros (e & [[<- <-]|[Hne He]]%lookup_insert_Some & Hl); [by left|]. right.
      split; [|apply (ok_recency _ Hi); eauto]. pose proof (ok_tick _ Hi _ _ He). lia.
  - intros u e [[<- <-]|[Hne He]]%lookup_insert_Some; [done|]. pose proof (ok_tick _ Hi _ _ He). lia.
  - intros u e [[<- <-]|[Hne He]]%lookup_insert_Some; [done|]. by eapply ok_nonempty.
  - rewrite msum_insert by done. rewrite (ok_bytes _ Hi). unfold esize. cbn [data]. lia.
  - lia.
  - apply Hi.
Qed.

Lemma touch_ok unit i :
  inner_ok i → tick i < U64_MAX → inner_ok (touch unit i).
Proof.
  intros Hi Ht. pose proof (ok_tick0 _ Hi). unfold touch, next_tick. rewrite add64_small by lia. cbn.
  destruct (map i !! unit) as [e|] eqn:He; cbn; cycle 1.
  { split; cbn; try apply Hi; [|lia]. intros u e Hu. pose proof (ok_tick _ Hi _ _ Hu). lia. }
  split; cbn.
  - intros t u. rewrite lookup_insert_Some, lookup_delete_Some. split.
    + intros [[<- <-]|[Hne [Hne' Hr]]].
      * eexists. split; [apply lookup_insert_eq|done].
      * apply (ok_recency _ Hi) in Hr as (e' & He' & Hl). exists e'. split; [|done].
        rewrite lookup_insert_ne; [done|]. congruence.
    + intros (e' & [[<- <-]|[Hne He']]%lookup_insert_Some & Hl); [by left|]. right.
      pose proof (ok_tick _ Hi _ _ He'). split; [lia|].
      assert (recency i !! t = Some u) as H1 by (apply (ok_recency _ Hi); eauto).
      split; [|done]. intros Heq. apply Hne.
      assert (recency i !! t = Some unit) as H2 by (apply (ok_recency _ Hi); eauto). congruence.
  - intros u e' [[<- <-]|[Hne He']]%lookup_insert_Some; cbn; [done|]. pose proof (ok_tick _ Hi _ _ He'). lia.
  - intros u e' [[<- <-]|[Hne He']]%lookup_insert_Some; [exact (ok_nonempty _ Hi _ _ He)|by eapply ok_nonempty].
  - rewrite (msum_replace _ _ _ e) by done. rewrite (ok_bytes _ Hi). unfold esize. cbn [data]. lia.
  - lia.
  - apply Hi.
Qed.

(** ** Operations *)

Definition cache_ok (c : VersionedLruCache) : Prop := inner_ok (inner c) ∧ budget_ok (inner c).

Lemma budget_fits i (d : bytes) : budget_ok i → blen d ≤ max_bytes i → cbytes i + blen d ≤ U64_MAX.
Proof. unfold budget_ok, I64_MAX, U64_MAX. lia. Qed.

Lemma remove_budget u i : inner_ok i → budget_ok i → inner_ok (remove u i) ∧ budget_ok (remove u i).
Proof.
  intros Hi [Hb Hm]. assert (cbytes i ≤ U64_MAX) as Hfit by (unfold I64_MAX, U64_MAX in *; lia).
  destruct (remove_ok u i Hi Hfit) as (Hok & _ & Hc & Hmx & _). split; [done|]. unfold budget_ok.
  rewrite Hc, Hmx. split; [|done]. destruct (map i !! u) as [e|]; simpl; [pose proof (esize_nonneg e)|]; lia.
Qed.

(** Room for an entry that fits the budget at all. *)
Lemma make_room_budget (d : bytes) i :
  inner_ok i → budget_ok i → blen d ≤ max_bytes i →
  evicted i (make_room (blen d) i) ∧ cbytes (make_room (blen d) i) + blen d ≤ max_bytes i.
Proof.
  intros Hi Hb Hd. destruct (make_room_spec (blen d) i Hi (blen_nonneg d) (budget_fits _ _ Hb Hd))
    as (Hev & Hroom & _). split; [done|]. destruct Hroom as [|He]; [done|].
  rewrite (empty_bytes _ (ev_ok _ _ Hev) He). lia.
Qed.

(** The two outcomes of [put] besides keeping a newer version. *)
Lemma put_inner_cases now unit seq d i :
  put_inner now unit seq d i = i ∨ put_inner now unit seq d i = remove unit i ∨
  (0 < blen d ≤ max_bytes (remove unit i) ∧
   put_inner now unit seq d i = insert_at unit seq now d (make_room (blen d) (remove unit i))).
Proof.
  unfold put_inner. case_match; [by left|]. right. pose proof (blen_nonneg d).
  destruct (Z.eqb_spec (blen d) 0); [by left|].
  destruct (Z.ltb_spec (max_bytes (remove unit i)) (blen d)); [by left|].
  destruct (Z.eqb_spec (max_bytes (remove unit i)) 0); [by left|]. right. split; [lia|done].
Qed.

Lemma evicted_absent i i' u : evicted i i' → map i !! u = None → map i' !! u = None.
Proof.
  intros Hev Hu. destruct (map i' !! u) as [e|] eqn:He; [|done].
  by rewrite (lookup_weaken _ _ _ _ He (ev_map _ _ Hev)) in Hu.
Qed.

Lemma remove_absent u i : map (remove u i) !! u = None.
Proof.
  unfold remove. destruct (map i !! u) as [e|] eqn:He; [|done]. cbn. apply lookup_delete_eq.
Qed.

Lemma remove_max u i : max_bytes (remove u i) = max_bytes i.
Proof. unfold remove. by destruct (map i !! u). Qed.

Lemma remove_tick u i : tick (remove u i) = tick i.
Proof. unfold remove. by destruct (map i !! u). Qed.

Lemma put_inner_ok now unit seq d i :
  inner_ok i → budget_ok i → tick i < U64_MAX →
  inner_ok (put_inner now unit seq d i) ∧ budget_ok (put_inner now unit seq d i).
Proof.
  intros Hi Hb Ht. destruct (remove_budget unit i Hi Hb) as [Hir Hbr].
  destruct (put_inner_cases now unit seq d i) as [->|[->|(Hd & ->)]]; [done|done|].
  destruct (make_room_budget d _ Hir Hbr (proj2 Hd)) as (Hev & Hroom).
  assert (cbytes (make_room (blen d) (remove unit i)) + blen d ≤ U64_MAX) as Hfit.
  { destruct Hbr as [_ Hm]. unfold I64_MAX, U64_MAX in *. lia. }
  pose proof (cbytes_nonneg _ (ev_ok _ _ Hev)). split.
  - apply insert_at_ok; [apply Hev| |lia|done|].
    + eapply evicted_absent; [exact Hev|apply remove_absent].
    + by rewrite (ev_tick _ _ Hev), remove_tick.
  - unfold insert_at, budget_ok, next_tick. cbn [cbytes max_bytes]. rewrite add64_small by lia.
    rewrite (ev_max _ _ Hev). split; [done|]. apply Hbr.
Qed.

Lemma make_room_zero i :
  inner_ok i → cbytes i ≤ U64_MAX → max_bytes i ≤ I64_MAX →
  evicted i (make_room 0 i) ∧ inner_ok (make_room 0 i) ∧ budget_ok (make_room 0 i).
Proof.
  intros Hi Hfit Hm. destruct (make_room_spec 0 i Hi ltac:(lia) ltac:(lia)) as (Hev & Hroom & _).
  split; [done|]. split; [apply Hev|]. unfold budget_ok. rewrite (ev_max _ _ Hev). split; [|done].
  destruct Hroom as [|He]; [lia|]. rewrite (empty_bytes _ (ev_ok _ _ Hev) He). apply Hi.
Qed.

Lemma clear_ok i : inner_ok i → max_bytes i ≤ I64_MAX → inner_ok (inner_clear i) ∧ budget_ok (inner_clear i).
Proof.
  intros Hi Hm. pose proof (ok_max _ Hi). split; [split; cbn|by split]; try done.
  - intros t u. rewrite lookup_empty. split; [done|]. intros (e & He & _). done.
  - apply Hi.
Qed.

(** ** Runs *)

(** A stored plaintext: unit, sequence, data, time. *)
Definition Put : Type := Z * Z * bytes * Z.

(** Any sequence of operations, with what was ever put. *)
Inductive run : VersionedLruCache → list Put → Prop :=
| run_new max t : 0 ≤ max ≤ I64_MAX → run (new max t) []
| run_put c h now u s d :
    run c h → tick (inner c) < U64_MAX → run (put now u s d c) ((u, s, d, now) :: h)
| run_get c h now u s c' r :
    run c h → tick (inner c) < U64_MAX → get now u s c = (c', r) → run c' h
| run_invalidate c h u : run c h → run (invalidate u c) h
| run_clear c h : run c h → run (clear c) h
| run_reconfigure c h max t : run c h → 0 ≤ max ≤ I64_MAX → run (reconfigure max t c) h
| run_set_ttl c h t : run c h → run (set_ttl t c) h.

(** Every entry was put, for its unit and sequence. *)
Definition from_puts (i : Inner) (h : list Put) : Prop :=
  ∀ u e, map i !! u = Some e → (u, write_sequence e, data e, inserted_at e) ∈ h.

Lemma from_puts_sub i i' h : map i' ⊆ map i → from_puts i h → from_puts i' h.
Proof. intros Hs Hf u e He. apply Hf. by eapply lookup_weaken. Qed.

Lemma remove_sub u i : map (remove u i) ⊆ map i.
Proof. unfold remove. destruct (map i !! u); [apply delete_subseteq|done]. Qed.

Lemma put_from now u s d i h :
  inner_ok i → budget_ok i → from_puts i h → from_puts (put_inner now u s d i) ((u, s, d, now) :: h).
Proof.
  intros Hi Hb Hf. assert (from_puts i ((u, s, d, now) :: h)) as Hf' by (intros v e He; right; by apply Hf).
  destruct (put_inner_cases now u s d i) as [->|[->|(Hd & ->)]]; [done|by eapply from_puts_sub; [apply remove_sub|]|].
  destruct (remove_budget u i Hi Hb) as [Hir Hbr].
  destruct (make_room_budget d _ Hir Hbr (proj2 Hd)) as (Hev & _).
  intros v e. unfold insert_at. cbn. intros [[<- <-]|[Hne He]]%lookup_insert_Some; [left|].
  apply Hf'. eapply lookup_weaken; [exact He|]. etransitivity; [apply Hev|apply remove_sub].
Qed.

Lemma touch_from u i h : from_puts i h → from_puts (touch u i) h.
Proof.
  intros Hf v e. unfold touch. cbn. destruct (map i !! u) as [eu|] eqn:Hu; [|apply Hf]. cbn.
  intros [[<- <-]|[Hne He]]%lookup_insert_Some; [exact (Hf _ _ Hu)|by apply Hf].
Qed.

Lemma touch_bytes u i : cbytes (touch u i) = cbytes i ∧ max_bytes (touch u i) = max_bytes i.
Proof. unfold touch. cbn. by destruct (map i !! u). Qed.

(** The state after a lookup. *)
Lemma get_state now u s c c' r :
  get now u s c = (c', r) →
  inner c' = inner c ∨ inner c' = remove u (inner c) ∨ inner c' = touch u (inner c).
Proof.
  unfold get. destruct (map (inner c) !! u) as [e|]; [|intros [= <- _]; by left].
  destruct (_ && _); [intros [= <- _]; cbn; auto|]. destruct (_ && _); intros [= <- _]; cbn; auto.
Qed.

Lemma run_ok c h : run c h → cache_ok c ∧ from_puts (inner c) h.
Proof.
  induction 1 as [max t Hm|c h now u s d _ [[Hi Hb] Hf] Ht|c h now u s c' r _ [[Hi Hb] Hf] Ht Hg
    |c h u _ [[Hi Hb] Hf]|c h _ [[Hi Hb] Hf]|c h max t _ [[Hi Hb] Hf] Hm|c h t _ [[Hi Hb] Hf]].
  - split; [|by intros u e]. split; [|split; cbn; lia]. split; cbn; try done; [|lia].
    intros t' u. rewrite lookup_empty. split; [done|]. by intros (e & ? & _).
  - split; [by apply put_inner_ok|by apply put_from].
  - destruct (get_state _ _ _ _ _ _ Hg) as [Hs|[Hs|Hs]]; unfold cache_ok; rewrite Hs; [done|..].
    + split; [by apply remove_budget|]. by eapply from_puts_sub; [apply remove_sub|].
    + split; [|by apply touch_from]. split; [by apply touch_ok|].
      destruct (touch_bytes u (inner c)) as [H1 H2]. unfold budget_ok. by rewrite H1, H2.
  - split; [by apply remove_budget|]. by eapply from_puts_sub; [apply remove_sub|].
  - split; [apply clear_ok; [done|apply Hb]|]. by intros u e.
  - set (i0 := mkInner (map (inner c)) (recency (inner c)) (cbytes (inner c)) max (tick (inner c))).
    assert (inner_ok i0) as Hi0 by (split; cbn; try apply Hi; lia).
    assert (inner (reconfigure max t c) = if max =? 0 then inner_clear i0 else make_room 0 i0) as Hrec
      by (unfold reconfigure; by destruct t).
    unfold cache_ok. rewrite Hrec. destruct (Z.eqb_spec max 0).
    + split; [apply clear_ok; cbn; [done|lia]|]. by intros ? ?.
    + assert (cbytes i0 ≤ U64_MAX) as Hfit by (destruct Hb; unfold I64_MAX, U64_MAX in *; cbn; lia).
      destruct (make_room_zero i0 Hi0 Hfit (proj2 Hm)) as (Hev & ? & ?). split; [done|].
      by eapply from_puts_sub; [apply Hev|].
  - done.
Qed.

(** A hit returns the entry of exactly the requested version. *)
Lemma get_hit now u s c c' d :
  get now u s c = (c', Some d) →
  ∃ e, map (inner c) !! u = Some e ∧ write_sequence e = s ∧ data e = d ∧
    saturating_sub now (inserted_at e) < ttl c.
Proof.
  unfold get. destruct (map (inner c) !! u) as [e|]; [|done].
  destruct ((write_sequence e =? s) && alive now (ttl c) e) eqn:Hh;
    [|destruct ((s <? write_sequence e) && _); discriminate].
  apply andb_true_iff in Hh as [Hs%Z.eqb_eq Ha%Z.ltb_lt]. intros [= _ <-]. eauto.
Qed.

(** C34. The cache is bounded and never serves stale plaintext.  After any
    sequence of operations: the accounted bytes are the bytes of the entries
    and within the configured budget, and the recency index names exactly
    the entries; and a lookup that hits returns data that was put for
    exactly that unit and write sequence, at a time that is less than the
    current time to live ago. *)
Theorem cache_sound c h :
  run c h →
  (cbytes (inner c) = msum esize (map (inner c)) ∧ cbytes (inner c) ≤ max_bytes (inner c)) ∧
  (∀ t u, recency (inner c) !! t = Some u ↔ ∃ e, map (inner c) !! u = Some e ∧ last_used e = t) ∧
  (∀ now u s c' d, get now u s c = (c', Some d) →
    ∃ at_, (u, s, d, at_) ∈ h ∧ saturating_sub now at_ < ttl c).
Proof.
  intros [[Hi Hb] Hf]%run_ok. split; [split; [apply Hi|apply Hb]|]. split; [apply Hi|].
  intros now u s c' d (e & He & <- & <- & Ha)%get_hit. exists (inserted_at e). split; [by apply Hf|done].
Qed.

(** What fits is cached.  A put of a nonempty plaintext within the
    budget, not older than what is cached for the unit, is found by every
    lookup of its version until the time to live has passed, and by no
    lookup of another version. *)
Theorem put_then_get c h now now' u s s' d :
  run c h → tick (inner c) < U64_MAX → 0 < blen d ≤ max_bytes (inner c) →
  (∀ e, map (inner c) !! u = Some e → write_sequence e ≤ s) →
  saturating_sub now' now < ttl c →
  snd (get now' u s' (put now u s d c)) = if s' =? s then Some d else None.
Proof.
  intros [[Hi Hb] _]%run_ok Ht Hd Hold Httl.
  assert (map (put_inner now u s d (inner c)) !! u = Some (mkEntry s d now
    (add64 (tick (make_room (blen d) (remove u (inner c)))) 1))) as Hm.
  { unfold put_inner.
    assert (match map (inner c) !! u with Some entry => s <? write_sequence entry | None => false end = false) as ->.
    { destruct (map (inner c) !! u) as [e|] eqn:He; [|done]. apply Z.ltb_ge. by apply Hold. }
    rewrite remove_max. rewrite (proj2 (Z.eqb_neq (blen d) 0)), (proj2 (Z.ltb_ge _ _)),
      (proj2 (Z.eqb_neq (max_bytes _) 0)) by lia. cbn [orb]. unfold next_tick. cbn [map].
    apply lookup_insert_eq. }
  unfold get, put. cbn [inner with_inner ttl]. rewrite Hm. cbn [write_sequence data].
  unfold alive. cbn [inserted_at]. rewrite (proj2 (Z.ltb_lt _ _)) by done. rewrite Z.eqb_sym, andb_true_r.
  destruct (s' =? s) eqn:Hs; [done|]. by destruct (_ && _).
Qed.

(** Eviction is least-recently-used and minimal.  Making room evicts
    the oldest entries one by one: everything evicted was used before
    everything kept, one eviction fewer would not have made the room, and
    afterwards there is room or nothing is left to evict. *)
Theorem eviction_lru c h need :
  run c h → 0 ≤ need ≤ I64_MAX →
  let i := inner c in let i' := make_room need i in
  (cbytes i' + need ≤ max_bytes i ∨ map i' = ∅) ∧ map i' ⊆ map i ∧
  (∀ u e v e', map i !! u = Some e → map i' !! u = None → map i' !! v = Some e' →
    last_used e < last_used e') ∧
  ∃ k, i' = evict k i ∧ ∀ j, (j < k)%nat → max_bytes i < cbytes (evict j i) + need.
Proof.
  intros [[Hi Hb] _]%run_ok Hn. cbv zeta.
  assert (cbytes (inner c) + need ≤ U64_MAX) as Hfit
    by (destruct Hb; unfold I64_MAX, U64_MAX in *; lia).
  destruct (make_room_spec need (inner c) Hi (proj1 Hn) Hfit) as (Hev & Hroom & Hk).
  split; [done|]. split; [apply Hev|]. split; [apply Hev|done].
Qed.

(** ** A concrete run *)
Definition c1 : VersionedLruCache := put 5 7 3 [Byte.x01; Byte.x02] (new 4 10).
Definition c2 : VersionedLruCache := put 6 8 4 [Byte.x03; Byte.x04; Byte.x05] c1.

Lemma c2_run : run c2 [(8, 4, [Byte.x03; Byte.x04; Byte.x05], 6); (7, 3, [Byte.x01; Byte.x02], 5)].
Proof.
  apply run_put; [|done]. apply run_put; [|done]. by apply run_new.
Qed.

Lemma cache_sound_witness : ∃ at_,
  (8, 4, [Byte.x03; Byte.x04; Byte.x05], at_) ∈
    [(8, 4, [Byte.x03; Byte.x04; Byte.x05], 6); (7, 3, [Byte.x01; Byte.x02], 5)] ∧
  saturating_sub 9 at_ < 10.
Proof. eapply (proj2 (proj2 (cache_sound c2 _ c2_run)) 9 8 4). vm_compute. reflexivity. Defined.

Lemma put_then_get_witness :
  snd (get 9 8 4 (put 6 8 4 [Byte.x03; Byte.x04; Byte.x05] c1)) = Some [Byte.x03; Byte.x04; Byte.x05].
Proof.
  refine (put_then_get c1 [(7, 3, [Byte.x01; Byte.x02], 5)] 6 9 8 4 4 [Byte.x03; Byte.x04; Byte.x05] _ _ _ _ _);
    [apply run_put; [by apply run_new|done]|done|done|by intros e|done].
Defined.

Lemma eviction_lru_witness :
  let i' := make_room 3 (inner c2) in cbytes i' + 3 ≤ 4 ∨ map i' = ∅.
Proof. refine (proj1 (eviction_lru c2 _ 3 c2_run _)). done. Defined.
End Cache.
