(* ===== verification/Tasks.v ===== *)
(** * Tasks: requests that interleave

    The engine's requests are asynchronous functions.  Between two waits a
    request runs a section that nothing else interrupts: a storage task under
    the volume lock, or one call of the provider.  A [task] is such a request
    with its sections and its waits for unit locks and for the checkpoint
    gate explicit, and a [pool] is any number of them, interleaved section by
    section.  This file has the pool's step relation and the reasoning that
    is the same for every request: a rely-guarantee logic and the absence of
    deadlocks under ordered locking. *)

From Stdlib Require Import Sorted.
From S2P Require Import Prelude Backing.

Local Open Scope Z_scope.

Section Tasks.
Context {S : Type}.

(** [Lock u]: wait for the mutex of a unit.  [Unlock]: drop every unit guard
    held.  [Gate] and [Ungate]: the checkpoint gate. *)
Inductive task (A : Type) : Type :=
| Ret (a : A)
| Act {B : Type} (m : S → B * S) (k : B → task A)
| Lock (u : Z) (k : task A)
| Unlock (k : task A)
| Gate (k : task A)
| Ungate (k : task A).

#[global] Arguments Ret {A} a.
#[global] Arguments Act {A B} m k.
#[global] Arguments Lock {A} u k.
#[global] Arguments Unlock {A} k.
#[global] Arguments Gate {A} k.
#[global] Arguments Ungate {A} k.

Fixpoint t_bind {A B} (t : task A) (f : A → task B) : task B :=
  match t with
  | Ret a => f a
  | Act m k => Act m (λ x, t_bind (k x) f)
  | Lock u k => Lock u (t_bind k f)
  | Unlock k => Unlock (t_bind k f)
  | Gate k => Gate (t_bind k f)
  | Ungate k => Ungate (t_bind k f)
  end.

(** The [?] operator. *)
Definition t_try {E A B} (t : task (result E A)) (f : A → task (result E B)) : task (result E B) :=
  t_bind t (λ r, match r with Ok a => f a | Err e => Ret (Err e) end).

(** One section. *)
Definition act {E A} (m : M S E A) : task (result E A) := Act m (λ r, Ret r).

Definition t_ok {E A} (a : A) : task (result E A) := Ret (Ok a).
Definition t_err {E A} (e : E) : task (result E A) := Ret (Err e).

(** [for x in l], collecting the results in order. *)
Fixpoint t_each {E X A} (f : X → task (result E A)) (l : list X) : task (result E (list A)) :=
  match l with
  | [] => t_ok []
  | x :: l => t_try (f x) (λ a, t_try (t_each f l) (λ rest, t_ok (a :: rest)))
  end.

Fixpoint lock_all {A} (us : list Z) (t : task A) : task A :=
  match us with
  | [] => t
  | u :: us => Lock u (lock_all us t)
  end.

(** A request that runs alone. *)
Fixpoint alone {A} (t : task A) (s : S) : A * S :=
  match t with
  | Ret a => (a, s)
  | Act m k => let '(x, s') := m s in alone (k x) s'
  | Lock _ k | Unlock k | Gate k | Ungate k => alone k s
  end.

(** ** Pools *)
Section Pools.
Context {Req R : Type}.

Record thread := mkThread {
  th_request : Req;
  th_task : task R;
  th_units : gset Z;
  th_gate : bool
}.

Record pool := mkPool { po_state : S; po_threads : gmap nat thread; po_next : nat }.

Definition unheld (p : pool) (u : Z) : Prop := ∀ i t, po_threads p !! i = Some t → u ∉ th_units t.
Definition gate_free (p : pool) : Prop := ∀ i t, po_threads p !! i = Some t → th_gate t = false.

Definition put_thread (i : nat) (t : thread) (s : S) (p : pool) : pool :=
  mkPool s (<[i := t]> (po_threads p)) (po_next p).

(** [start]: the task of a request.  [env]: what happens beside the requests. *)
Context (start : Req → task R) (env : S → S → Prop).

Inductive moves (i : nat) : pool → pool → Prop :=
| moves_act p q B (m : S → B * S) k K b x s' :
    po_threads p !! i = Some (mkThread q (Act m k) K b) → m (po_state p) = (x, s') →
    moves i p (put_thread i (mkThread q (k x) K b) s' p)
| moves_lock p q u k K b :
    po_threads p !! i = Some (mkThread q (Lock u k) K b) → unheld p u →
    moves i p (put_thread i (mkThread q k ({[u]} ∪ K) b) (po_state p) p)
| moves_unlock p q k K b :
    po_threads p !! i = Some (mkThread q (Unlock k) K b) →
    moves i p (put_thread i (mkThread q k ∅ b) (po_state p) p)
| moves_gate p q k K b :
    po_threads p !! i = Some (mkThread q (Gate k) K b) → gate_free p →
    moves i p (put_thread i (mkThread q k K true) (po_state p) p)
| moves_ungate p q k K b :
    po_threads p !! i = Some (mkThread q (Ungate k) K b) →
    moves i p (put_thread i (mkThread q k K false) (po_state p) p).

(** A request arrives, moves, is dropped by its caller, or something beside
    the requests happens. *)
Inductive pool_step : pool → pool → Prop :=
| pool_arrives p q :
    pool_step p (mkPool (po_state p) (<[po_next p := mkThread q (start q) ∅ false]> (po_threads p)) (Datatypes.S (po_next p)))
| pool_moves p p' i : moves i p p' → pool_step p p'
| pool_dropped p i : pool_step p (mkPool (po_state p) (delete i (po_threads p)) (po_next p))
| pool_env p s' : env (po_state p) s' → pool_step p (mkPool s' (po_threads p) (po_next p)).

Inductive pool_run : pool → pool → Prop :=
| run_here p : pool_run p p
| run_then p p1 p2 : pool_step p p1 → pool_run p1 p2 → pool_run p p2.

(** An executable scheduler: a request arrives, or a thread moves; a thread
    that cannot move is dropped. *)
Inductive event := Arrive (q : Req) | Move (i : nat).

Definition advance (i : nat) (t : thread) (p : pool) : option pool :=
  let '(mkThread q t K b) := t in
  match t with
  | Ret _ => None
  | Act m k => let '(x, s') := m (po_state p) in Some (put_thread i (mkThread q (k x) K b) s' p)
  | Lock u k =>
      if bool_decide (map_Forall (λ _ t, u ∉ th_units t) (po_threads p))
      then Some (put_thread i (mkThread q k ({[u]} ∪ K) b) (po_state p) p) else None
  | Unlock k => Some (put_thread i (mkThread q k ∅ b) (po_state p) p)
  | Gate k =>
      if bool_decide (map_Forall (λ _ t, th_gate t = false) (po_threads p))
      then Some (put_thread i (mkThread q k K true) (po_state p) p) else None
  | Ungate k => Some (put_thread i (mkThread q k K false) (po_state p) p)
  end.

Definition play_one (p : pool) (ev : event) : pool :=
  match ev with
  | Arrive q => mkPool (po_state p) (<[po_next p := mkThread q (start q) ∅ false]> (po_threads p)) (Datatypes.S (po_next p))
  | Move i => default (mkPool (po_state p) (delete i (po_threads p)) (po_next p)) (t ← po_threads p !! i; advance i t p)
  end.

Definition play (p : pool) (evs : list event) : pool := foldl play_one p evs.

Lemma advance_moves i t p p' : po_threads p !! i = Some t → advance i t p = Some p' → moves i p p'.
Proof.
  destruct t as [q t K b]. intros Hi. destruct t as [a|B m k|u k|k|k|k]; cbn; [done| |destruct (bool_decide_reflect (map_Forall (λ _ t, u ∉ th_units t) (po_threads p))) as [Hf|]; [|done]| | |].
  - destruct (m (po_state p)) as [x s'] eqn:Hm. intros [= <-]. by eapply moves_act.
  - intros [= <-]. eapply moves_lock; [exact Hi|]. intros j tj Hj. exact (Hf j tj Hj).
  - intros [= <-]. by eapply moves_unlock.
  - destruct (bool_decide_reflect (map_Forall (λ _ t, th_gate t = false) (po_threads p))) as [Hf|]; [|done].
    intros [= <-]. eapply moves_gate; [exact Hi|]. intros j tj Hj. exact (Hf j tj Hj).
  - intros [= <-]. by eapply moves_ungate.
Qed.

Lemma play_step p ev : pool_step p (play_one p ev).
Proof.
  destruct ev as [q|i]; cbn; [constructor|]. destruct (po_threads p !! i) as [t|] eqn:Hi; cbn; [|apply pool_dropped].
  destruct (advance i t p) as [p'|] eqn:Ha; cbn; [|apply pool_dropped]. eapply pool_moves. by eapply advance_moves.
Qed.

(** The moments of a schedule. *)
Definition moment (p : pool) (evs : list event) (n : nat) : pool := play p (take n evs).

Lemma moment_step p evs n : (n < length evs)%nat → pool_step (moment p evs n) (moment p evs (Datatypes.S n)).
Proof.
  intros [ev Hev]%lookup_lt_is_Some_2. unfold moment. rewrite (take_S_r _ _ _ Hev). unfold play. rewrite foldl_app. apply play_step.
Qed.

Lemma play_run p evs : pool_run p (play p evs).
Proof.
  revert p. induction evs as [|ev evs IH]; intros p; [apply run_here|]. eapply run_then; [apply play_step|apply IH].
Qed.

(** ** Rely and guarantee *)
Section Logic.
Context {G : Type}.

(** [Inv] relates the state to a ghost state; [guar i K b] bounds what task
    [i] may do in a section while it holds the units [K] and, for [b], the
    gate; [rely i K b] is what it may assume of the others.  [fresh i]: the
    ghost state knows nothing of task [i]; [grows]: it is a history;
    [links]: how a step extends it. *)
Context (Inv : S → G → Prop) (fresh : nat → G → Prop) (grows : G → G → Prop).
Context (links : S * G → S * G → Prop).
Context (guar rely : nat → gset Z → bool → S * G → S * G → Prop).

Class RelyGuarantee : Prop := {
  rely_refl i K b x : rely i K b x x;
  rely_trans i K b x y z : rely i K b x y → rely i K b y z → rely i K b x z;
  rely_drop i K K' b b' x y : K' ⊆ K → (b' = true → b = true) → rely i K b x y → rely i K' b' x y;
  guar_rely i j K K' b b' x y :
    i ≠ j → K ## K' → b && b' = false → guar j K' b' x y → rely i K b x y;
  guar_inv i K b x y : guar i K b x y → Inv y.1 y.2;
  guar_fresh i j K b x y : i ≠ j → guar j K b x y → fresh i x.2 → fresh i y.2;
  guar_grows i K b x y : guar i K b x y → grows x.2 y.2;
  guar_links i K b x y : guar i K b x y → links x y;
  links_same s s' g : links (s, g) (s', g);
  grows_refl g : grows g g;
  grows_trans g1 g2 g3 : grows g1 g2 → grows g2 g3 → grows g1 g3;
  env_rely s s' g : env s s' → Inv s g → Inv s' g ∧ ∀ i K b, rely i K b (s, g) (s', g)
}.

Implicit Types (i : nat) (K : gset Z) (b : bool).

(** What task [i] does from here, whatever the others do in between: every
    section meets the guarantee, and the result meets [Φ]. *)
Fixpoint wp {A} i (t : task A) (Φ : gset Z → bool → A → S * G → Prop) K b (x : S * G) : Prop :=
  match t with
  | Ret a => Φ K b a x
  | Act m k => ∀ y, rely i K b x y → Inv y.1 y.2 →
      ∃ g', guar i K b y ((m y.1).2, g') ∧ wp i (k (m y.1).1) Φ K b ((m y.1).2, g')
  | Lock u k => ∀ y, rely i K b x y → Inv y.1 y.2 → wp i k Φ ({[u]} ∪ K) b y
  | Unlock k => wp i k Φ ∅ b x
  | Gate k => ∀ y, rely i K b x y → Inv y.1 y.2 → wp i k Φ K true y
  | Ungate k => wp i k Φ K false x
  end.

Definition steadfast {A} i (Φ : gset Z → bool → A → S * G → Prop) : Prop :=
  ∀ K b a x y, rely i K b x y → Φ K b a x → Φ K b a y.

Context `{RelyGuarantee}.

Lemma wp_rely {A} i (t : task A) Φ K b x y :
  steadfast i Φ → rely i K b x y → wp i t Φ K b x → wp i t Φ K b y.
Proof.
  intros HΦ. revert K b x y. induction t as [a|B m k IH|u k IH|k IH|k IH|k IH]; intros K b x y Hr; cbn.
  - by apply HΦ.
  - intros Hw z Hz. apply Hw. by eapply rely_trans.
  - intros Hw z Hz. apply Hw. by eapply rely_trans.
  - apply IH. eapply rely_drop; [apply empty_subseteq| |exact Hr]. done.
  - intros Hw z Hz. apply Hw. by eapply rely_trans.
  - apply IH. eapply rely_drop; [reflexivity| |exact Hr]. done.
Qed.

Lemma wp_steadfast {A B} i (f : A → task B) Φ : steadfast i Φ → steadfast i (λ K b a y, wp i (f a) Φ K b y).
Proof. intros HΦ K b a x y Hr. by apply wp_rely. Qed.

Lemma wp_mono {A} i (t : task A) (Φ Ψ : gset Z → bool → A → S * G → Prop) K b x :
  (∀ K b a y, Φ K b a y → Ψ K b a y) → wp i t Φ K b x → wp i t Ψ K b x.
Proof.
  intros Hm. revert K b x. induction t as [a|B m k IH|u k IH|k IH|k IH|k IH]; intros K b x; cbn; eauto.
  intros Hw y Hr Hi. destruct (Hw y Hr Hi) as (g' & Hg & Hk). eauto.
Qed.

Lemma wp_bind {A B} i (t : task A) (f : A → task B) Φ K b x :
  wp i t (λ K b a y, wp i (f a) Φ K b y) K b x → wp i (t_bind t f) Φ K b x.
Proof.
  revert K b x. induction t as [a|C m k IH|u k IH|k IH|k IH|k IH]; intros K b x; cbn [wp t_bind]; eauto.
  intros Hw y Hr Hi. destruct (Hw y Hr Hi) as (g' & Hg & Hk). eauto.
Qed.

(** ** Soundness *)

(** The promise of every request, from the ghost state it arrived at; [arr]
    has the ghost state at the arrival of every task. *)
Context (post : nat → Req → G → R → G → Prop).
Implicit Types (arr : nat → G).

Definition met i (q : Req) (g0 : G) : gset Z → bool → R → S * G → Prop := λ _ _ a x, post i q g0 a x.2.

Definition thread_ok (g0 g : G) (s : S) i (t : thread) : Prop :=
  wp i (th_task t) (met i (th_request t) g0) (th_units t) (th_gate t) (s, g).

Record pool_ok (p : pool) (g : G) arr : Prop := {
  po_inv : Inv (po_state p) g;
  po_tasks i t : po_threads p !! i = Some t → thread_ok (arr i) g (po_state p) i t;
  po_below i t : po_threads p !! i = Some t → (i < po_next p)%nat;
  po_fresh i : (po_next p ≤ i)%nat → fresh i g;
  po_disjoint i j t t' : i ≠ j → po_threads p !! i = Some t → po_threads p !! j = Some t' → th_units t ## th_units t';
  po_gate i j t t' : i ≠ j → po_threads p !! i = Some t → po_threads p !! j = Some t' → th_gate t && th_gate t' = false
}.

Hypothesis post_steadfast : ∀ i q g0, steadfast i (met i q g0).

(** A move of task [i]. *)
Lemma put_thread_ok p g arr i q t K b t' K' b' s' g' :
  pool_ok p g arr → po_threads p !! i = Some (mkThread q t K b) →
  Inv s' g' →
  (∀ j, i ≠ j → fresh j g → fresh j g') →
  (∀ j Kj bj, i ≠ j → Kj ## K → bj && b = false → rely j Kj bj (po_state p, g) (s', g')) →
  (∀ j tj, i ≠ j → po_threads p !! j = Some tj → th_units tj ## K' ∧ th_gate tj && b' = false) →
  thread_ok (arr i) g' s' i (mkThread q t' K' b') →
  pool_ok (put_thread i (mkThread q t' K' b') s' p) g' arr.
Proof.
  intros [Hinv Ht Hb Hf Hd Hg] Hi Hinv' Hfresh Hrely Hhold Hw. split; cbn.
  - done.
  - intros j tj [[<- <-]|[Hne Hj]]%lookup_insert_Some; [exact Hw|]. pose proof (Ht _ _ Hj) as Hw0.
    eapply wp_rely; [apply post_steadfast| |exact Hw0].
    apply Hrely; [done|exact (Hd _ _ _ _ (not_eq_sym Hne) Hj Hi)|exact (Hg _ _ _ _ (not_eq_sym Hne) Hj Hi)].
  - intros j tj [[<- <-]|[Hne Hj]]%lookup_insert_Some; eauto.
  - intros j Hj. apply Hfresh; [|by apply Hf]. specialize (Hb _ _ Hi). lia.
  - intros j j' tj tj' Hne [[<- <-]|[Hn Hj]]%lookup_insert_Some [[<- <-]|[Hn' Hj']]%lookup_insert_Some; cbn; try done.
    + symmetry. exact (proj1 (Hhold j' tj' Hne Hj')).
    + exact (proj1 (Hhold j tj (not_eq_sym Hne) Hj)).
    + exact (Hd _ _ _ _ Hne Hj Hj').
  - intros j j' tj tj' Hne [[<- <-]|[Hn Hj]]%lookup_insert_Some [[<- <-]|[Hn' Hj']]%lookup_insert_Some; cbn; try done.
    + rewrite andb_comm. exact (proj2 (Hhold j' tj' Hne Hj')).
    + exact (proj2 (Hhold j tj (not_eq_sym Hne) Hj)).
    + exact (Hg _ _ _ _ Hne Hj Hj').
Qed.

(** A move that is not a section. *)
Lemma put_quiet p g arr i q t K b t' K' b' :
  pool_ok p g arr → po_threads p !! i = Some (mkThread q t K b) →
  (∀ j tj, i ≠ j → po_threads p !! j = Some tj → th_units tj ## K' ∧ th_gate tj && b' = false) →
  thread_ok (arr i) g (po_state p) i (mkThread q t' K' b') →
  pool_ok (put_thread i (mkThread q t' K' b') (po_state p) p) g arr.
Proof. intros Hp Hi Hh Ht. eapply put_thread_ok; [done|exact Hi|apply Hp|done|intros; apply rely_refl|done|done]. Qed.

Lemma moves_ok p g arr i p' : pool_ok p g arr → moves i p p' →
  ∃ g', grows g g' ∧ links (po_state p, g) (po_state p', g') ∧ pool_ok p' g' arr.
Proof.
  intros Hp Hm.
  assert (∀ t, po_threads p !! i = Some t → ∀ j tj, i ≠ j → po_threads p !! j = Some tj →
    th_units tj ## th_units t ∧ th_gate tj && th_gate t = false) as Hold.
  { intros t Hi j tj Hj Htj. split; [exact (po_disjoint _ _ _ Hp _ _ _ _ (not_eq_sym Hj) Htj Hi)|
      exact (po_gate _ _ _ Hp _ _ _ _ (not_eq_sym Hj) Htj Hi)]. }
  destruct Hm as [p q B m k K b x s' Hi Hx|p q u k K b Hi Hu|p q k K b Hi|p q k K b Hi Hfree|p q k K b Hi];
    pose proof (po_tasks _ _ _ Hp _ _ Hi) as Hw; cbn in Hw; specialize (Hold _ Hi); cbn in Hold.
  - destruct (Hw (po_state p, g) (rely_refl _ _ _ _) (po_inv _ _ _ Hp)) as (g' & Hg & Hk). cbn in Hg, Hk. rewrite Hx in Hg, Hk.
    exists g'. split; [exact (guar_grows _ _ _ _ _ Hg)|]. split; [exact (guar_links _ _ _ _ _ Hg)|].
    eapply put_thread_ok; [done|exact Hi|exact (guar_inv _ _ _ _ _ Hg)| | |exact Hold|exact Hk].
    + intros j Hj Hf. exact (guar_fresh _ _ _ _ _ _ (not_eq_sym Hj) Hg Hf).
    + intros j Kj bj Hj Hd Hb. exact (guar_rely _ _ _ _ _ _ _ _ (not_eq_sym Hj) Hd Hb Hg).
  - exists g. split; [apply grows_refl|]. split; [apply links_same|]. eapply put_quiet; [done|exact Hi| |apply Hw; [apply rely_refl|apply Hp]].
    intros j tj Hj Htj. destruct (Hold j tj Hj Htj). split; [|done]. pose proof (Hu _ _ Htj). set_solver.
  - exists g. split; [apply grows_refl|]. split; [apply links_same|]. eapply put_quiet; [done|exact Hi| |exact Hw].
    intros j tj Hj Htj. destruct (Hold j tj Hj Htj). split; [set_solver|done].
  - exists g. split; [apply grows_refl|]. split; [apply links_same|]. eapply put_quiet; [done|exact Hi| |apply Hw; [apply rely_refl|apply Hp]].
    intros j tj Hj Htj. destruct (Hold j tj Hj Htj). split; [done|]. by rewrite (Hfree _ _ Htj).
  - exists g. split; [apply grows_refl|]. split; [apply links_same|]. eapply put_quiet; [done|exact Hi| |exact Hw]. intros j tj Hj Htj. destruct (Hold j tj Hj Htj).
    split; [done|]. apply andb_false_r.
Qed.

(** Every request meets its promise from wherever it arrives. *)
Hypothesis start_ok : ∀ i q s g, Inv s g → fresh i g → wp i (start q) (met i q g) ∅ false (s, g).

(** [arr] changes at most at the next task. *)
Lemma pool_step_ok p g arr p' :
  pool_ok p g arr → pool_step p p' →
  ∃ g' arr', grows g g' ∧ links (po_state p, g) (po_state p', g') ∧ pool_ok p' g' arr' ∧ (po_next p ≤ po_next p')%nat ∧
    ∀ i, (i < po_next p')%nat → (i < po_next p)%nat ∧ arr' i = arr i ∨ arr' i = g.
Proof.
  intros Hp Hs. destruct Hs as [p q|p p' i Hm|p i|p s' He].
  - exists g, (λ j, if decide (j = po_next p) then g else arr j). destruct Hp as [Hinv Ht Hb Hf Hd Hg].
    assert (po_threads p !! po_next p = None) as Hnone.
    { destruct (po_threads p !! po_next p) as [t|] eqn:Hx; [|done]. specialize (Hb _ _ Hx). lia. }
    split; [apply grows_refl|]. split; [apply links_same|]. split; [|split; [cbn; lia|intros i Hi; cbn in Hi; destruct (decide _); [by right|left; split; [lia|done]]]].
    split; cbn; [done|..].
    + intros i t [[<- <-]|[Hne Hi]]%lookup_insert_Some; destruct (decide _) as [He|He]; try done.
      * apply start_ok; [done|]. by apply Hf.
      * by apply Ht.
    + intros i t [[<- <-]|[Hne Hi]]%lookup_insert_Some; [lia|]. specialize (Hb _ _ Hi). lia.
    + intros i Hi. apply Hf. lia.
    + intros i j t t' Hne [[<- <-]|[Hn Hi]]%lookup_insert_Some [[<- <-]|[Hn' Hj]]%lookup_insert_Some; cbn; try done; [set_solver..|exact (Hd _ _ _ _ Hne Hi Hj)].
    + intros i j t t' Hne [[<- <-]|[Hn Hi]]%lookup_insert_Some [[<- <-]|[Hn' Hj]]%lookup_insert_Some; cbn; try done; [apply andb_false_r|exact (Hg _ _ _ _ Hne Hi Hj)].
  - destruct (moves_ok _ _ _ _ _ Hp Hm) as (g' & Hgr & Hli & Hp'). exists g', arr. split; [done|]. split; [done|]. split; [done|].
    assert (po_next p' = po_next p) as -> by (by destruct Hm). split; [done|]. intros j Hj. by left.
  - exists g, arr. split; [apply grows_refl|]. split; [apply links_same|]. split; [|split; [done|intros j Hj; by left]].
    destruct Hp as [Hinv Ht Hb Hf Hd Hg]. split; cbn; try done.
    + intros j t [_ Hj]%lookup_delete_Some. by apply Ht.
    + intros j t [_ Hj]%lookup_delete_Some. by eapply Hb.
    + intros j j' t t' Hne [_ Hj]%lookup_delete_Some [_ Hj']%lookup_delete_Some. exact (Hd _ _ _ _ Hne Hj Hj').
    + intros j j' t t' Hne [_ Hj]%lookup_delete_Some [_ Hj']%lookup_delete_Some. exact (Hg _ _ _ _ Hne Hj Hj').
  - destruct Hp as [Hinv Ht Hb Hf Hd Hg]. destruct (env_rely _ _ _ He Hinv) as (Hinv' & Hr). exists g, arr.
    split; [apply grows_refl|]. split; [apply links_same|]. split; [|split; [done|intros j Hj; by left]]. split; cbn; try done.
    intros i t Hi. eapply wp_rely; [apply post_steadfast|apply Hr|by apply Ht].
Qed.

Lemma grows_chain (gs : nat → G) N : (∀ n, (n < N)%nat → grows (gs n) (gs (Datatypes.S n))) →
  ∀ (a b : nat), (a ≤ b ≤ N)%nat → grows (gs a) (gs b).
Proof.
  intros Hgr a b. induction b as [|b IH]; intros Hab.
  - assert (a = O) as -> by lia. apply grows_refl.
  - destruct (decide (a = Datatypes.S b)) as [->|Hne]; [apply grows_refl|].
    eapply grows_trans; [apply IH; lia|apply Hgr; lia].
Qed.

(** The history of a run, with the arrivals. *)
Lemma arrivals (ps : nat → pool) g0 arr0 N :
  pool_ok (ps O) g0 arr0 → po_next (ps O) = O → (∀ n, (n < N)%nat → pool_step (ps n) (ps (Datatypes.S n))) →
  ∃ (gs : nat → G) (arrs : nat → nat → G), gs O = g0 ∧
    (∀ n, (n ≤ N)%nat → pool_ok (ps n) (gs n) (arrs n)) ∧
    (∀ n, (n < N)%nat → grows (gs n) (gs (Datatypes.S n)) ∧
       links (po_state (ps n), gs n) (po_state (ps (Datatypes.S n)), gs (Datatypes.S n))) ∧
    (∀ (a b : nat) i, (a ≤ b ≤ N)%nat → (po_next (ps a) ≤ i < po_next (ps b))%nat → grows (gs a) (arrs b i)).
Proof.
  intros H0 Hn0. induction N as [|N IH]; intros Hs.
  - exists (λ _, g0), (λ _, arr0). split; [done|]. split; [intros n Hn; assert (n = O) as -> by lia; done|].
    split; [lia|]. intros a b i Hab Hi. assert (a = O ∧ b = O) as [-> ->] by lia. lia.
  - destruct IH as (gs & arrs & Hg0 & Hok & Hgr & Harr); [intros n Hn; apply Hs; lia|].
    destruct (pool_step_ok _ _ _ _ (Hok N ltac:(lia)) (Hs N ltac:(lia))) as (g' & arr' & Hg' & Hl' & Hp' & Hnext & Harr').
    exists (λ n, if decide (n = Datatypes.S N) then g' else gs n), (λ n, if decide (n = Datatypes.S N) then arr' else arrs n).
    destruct (decide (O = Datatypes.S N)) as [|_]; [lia|]. split; [done|]. split; [|split].
    + intros n Hn. destruct (decide _) as [->|]; [done|]. apply Hok. lia.
    + intros n Hn. destruct (decide (n = Datatypes.S N)); [lia|]. destruct (decide _) as [He|He].
      * injection He as ->. done.
      * apply Hgr. lia.
    + intros a b i Hab Hi. destruct (decide (b = Datatypes.S N)) as [->|Hb]; destruct (decide (a = Datatypes.S N)) as [->|Ha]; try lia.
      * destruct (Harr' i ltac:(lia)) as [[Hlt ->]| ->]; [apply Harr; lia|].
        apply (grows_chain gs N (λ n Hn, proj1 (Hgr n Hn))). lia.
      * apply Harr; lia.
Qed.

(** A promise counted from an earlier moment. *)
Hypothesis post_early : ∀ i q g1 g0 r g, grows g1 g0 → post i q g0 r g → post i q g1 r g.

(** One history for a whole run: at every moment the invariant holds, and a
    task that is finished has met its promise, counted from any moment before
    it arrived. *)
Lemma trace_ok (ps : nat → pool) g0 arr0 N :
  pool_ok (ps O) g0 arr0 → po_next (ps O) = O → (∀ n, (n < N)%nat → pool_step (ps n) (ps (Datatypes.S n))) →
  ∃ gs : nat → G, gs O = g0 ∧
    (∀ n, (n ≤ N)%nat → ∃ arr, pool_ok (ps n) (gs n) arr) ∧
    (∀ n, (n < N)%nat → grows (gs n) (gs (Datatypes.S n)) ∧
       links (po_state (ps n), gs n) (po_state (ps (Datatypes.S n)), gs (Datatypes.S n))) ∧
    ∀ (a b : nat) i q r K h, (a ≤ b ≤ N)%nat → (po_next (ps a) ≤ i)%nat →
      po_threads (ps b) !! i = Some (mkThread q (Ret r) K h) → post i q (gs a) r (gs b).
Proof.
  intros H0 Hn0 Hs. destruct (arrivals ps g0 arr0 N H0 Hn0 Hs) as (gs & arrs & Hg0 & Hok & Hgr & Harr).
  exists gs. split; [done|]. split; [eauto|]. split; [done|]. intros a b i q r K h Hab Hi Ht.
  pose proof (Hok b ltac:(lia)) as Hp. pose proof (po_tasks _ _ _ Hp _ _ Ht) as Hw. pose proof (po_below _ _ _ Hp _ _ Ht).
  eapply post_early; [by apply (Harr a b i)|exact Hw].
Qed.
End Logic.

(** ** No deadlock *)

(** From holding [K] and [b] to holding [K'] and [b']: units are locked in
    ascending order and the gate after them. *)
Fixpoint ordered {A} (t : task A) (K : gset Z) (b : bool) (K' : gset Z) (b' : bool) : Prop :=
  match t with
  | Ret _ => K = K' ∧ b = b'
  | Act _ k => ∀ x, ordered (k x) K b K' b'
  | Lock u k => b = false ∧ (∀ v, v ∈ K → v < u) ∧ ordered k ({[u]} ∪ K) b K' b'
  | Unlock k => ordered k ∅ b K' b'
  | Gate k => b = false ∧ ordered k K true K' b'
  | Ungate k => b = true ∧ ordered k K false K' b'
  end.

Definition finished (t : thread) : Prop := match th_task t with Ret _ => True | _ => False end.

Definition all_ordered (p : pool) : Prop :=
  ∀ i t, po_threads p !! i = Some t → ordered (th_task t) (th_units t) (th_gate t) ∅ false.

(** Threads that wait for nothing. *)
Definition ready (t : thread) : bool :=
  match th_task t with Act _ _ | Unlock _ | Ungate _ => true | _ => false end.

Definition at_gate (t : thread) : bool := match th_task t with Gate _ => true | _ => false end.

Definition wanted (t : thread) : option Z := match th_task t with Lock u _ => Some u | _ => None end.

Lemma ready_moves p i t : po_threads p !! i = Some t → ready t = true → ∃ p', moves i p p'.
Proof.
  destruct t as [q [a|B m k|u k|k|k|k] K b]; intros Hi Hr; try done.
  - destruct (m (po_state p)) as [x s'] eqn:Hx. eexists. by eapply moves_act.
  - eexists. by eapply moves_unlock.
  - eexists. by eapply moves_ungate.
Qed.

Lemma largest (m : gmap nat Z) : m ≠ ∅ → ∃ i u, m !! i = Some u ∧ ∀ j v, m !! j = Some v → v ≤ u.
Proof.
  induction m as [|i u m Hi IH] using map_ind; [done|]. intros _. destruct (decide (m = ∅)) as [->|Hne].
  { exists i, u. split; [apply lookup_insert_eq|]. intros j v [[_ <-]|[_ Hj]]%lookup_insert_Some; [lia|done]. }
  destruct (IH Hne) as (i' & u' & Hi' & Hmax). destruct (decide (u' ≤ u)).
  - exists i, u. split; [apply lookup_insert_eq|]. intros j v [[_ <-]|[_ Hj]]%lookup_insert_Some; [lia|].
    specialize (Hmax _ _ Hj). lia.
  - exists i', u'. split; [rewrite lookup_insert_ne; [done|congruence]|].
    intros j v [[_ <-]|[_ Hj]]%lookup_insert_Some; [lia|]. by eapply Hmax.
Qed.

(** While a request is unfinished, some request can move. *)
Lemma some_moves p i t :
  all_ordered p → po_threads p !! i = Some t → ¬ finished t → ∃ j p', moves j p p'.
Proof.
  intros Ho Hi Hf.
  destruct (decide (map_Exists (λ _ t, ready t = true) (po_threads p))) as [(j & tj & Hj & Hr)|Hnr].
  { exists j. by eapply ready_moves. }
  assert (∀ j tj, po_threads p !! j = Some tj → ready tj = false) as Hnone.
  { intros j tj Hj. apply not_true_iff_false. intros Hr. apply Hnr. by exists j, tj. }
  destruct (decide (map_Exists (λ _ t, at_gate t = true) (po_threads p))) as [(j & tj & Hj & Hr)|Hng].
  { destruct tj as [q [a|B m k|u k|k|k|k] K b]; try done. exists j. eexists. eapply moves_gate; [exact Hj|].
    intros j' t' Hj'. specialize (Ho _ _ Hj'). specialize (Hnone _ _ Hj'). destruct t' as [q' [] K' b']; try done; cbn in *; naive_solver. }
  set (m := omap wanted (po_threads p)).
  assert (∀ j tj, po_threads p !! j = Some tj → wanted tj = None → finished tj) as Hdone.
  { intros j tj Hj Hw. specialize (Hnone _ _ Hj). destruct tj as [q [] K b]; try done.
    exfalso. apply Hng. eexists j, _. split; [exact Hj|done]. }
  destruct (largest m) as (j & u & Hj & Hmax).
  { intros He. apply Hf, (Hdone _ _ Hi). pose proof (lookup_omap wanted (po_threads p) i) as Hl. fold m in Hl.
    rewrite He, lookup_empty, Hi in Hl. by cbn in Hl. }
  unfold m in Hj. rewrite lookup_omap in Hj. apply bind_Some in Hj as (tj & Hj & Hw).
  destruct tj as [q [a|B m' k|u' k|k|k|k] K b]; try done. injection Hw as ->. exists j. eexists. eapply moves_lock; [exact Hj|].
  intros j' t' Hj' Hu. pose proof (Ho _ _ Hj') as Ho'. destruct (wanted t') as [v|] eqn:Hv.
  - assert (v ≤ u) as Hle by (apply (Hmax j'); unfold m; rewrite lookup_omap, Hj'; done).
    destruct t' as [q' [] K' b']; try done. injection Hv as ->. destruct Ho' as (_ & Hlt & _). specialize (Hlt _ Hu). lia.
  - pose proof (Hdone _ _ Hj' Hv) as Hfin. destruct t' as [q' [] K' b']; try done. destruct Ho' as [He _]. cbn in He, Hu. set_solver.
Qed.

Lemma step_ordered p p' : (∀ q, ordered (start q) ∅ false ∅ false) → all_ordered p → pool_step p p' → all_ordered p'.
Proof.
  intros Hs Ho Hst. destruct Hst as [p q|p p' i Hm|p i|p s' He].
  - intros i t; cbn; intros [[<- <-]|[_ Hi]]%lookup_insert_Some; [apply Hs|by apply (Ho i)].
  - destruct Hm as [p q B m k K b x s' Hi Hx|p q u k K b Hi Hu|p q k K b Hi|p q k K b Hi Hfree|p q k K b Hi];
      pose proof (Ho _ _ Hi) as Hoi; cbn in Hoi; intros j t; cbn; intros [[<- <-]|[_ Hj]]%lookup_insert_Some; try (by apply (Ho j)); cbn; naive_solver.
  - intros j t; cbn; intros [_ Hj]%lookup_delete_Some. by apply (Ho j).
  - exact Ho.
Qed.

Lemma run_ordered p p' : (∀ q, ordered (start q) ∅ false ∅ false) → pool_run p p' → all_ordered p → all_ordered p'.
Proof. intros Hs. induction 1 as [|p p1 p2 Hst _ IH]; [done|]. intros Ho. apply IH. by eapply step_ordered. Qed.
(** *** Moves run out *)

(** What a task may be after its next move. *)
Definition after_move (t' t : task R) : Prop :=
  match t with
  | Ret _ => False
  | Act _ k => ∃ x, t' = k x
  | Lock _ k | Unlock k | Gate k | Ungate k => t' = k
  end.

Lemma after_move_wf (t : task R) : Acc after_move t.
Proof. induction t as [a|B m k IH|u k IH|k IH|k IH|k IH]; constructor; intros t' Ht; cbn in Ht; [done|destruct Ht as [x ->]; apply IH|by subst..]. Qed.

(** One task of many. *)
Definition one_moves (m' m : gmap nat (task R)) : Prop :=
  ∃ i t t', m !! i = Some t ∧ after_move t' t ∧ m' = <[i := t']> m.

Lemma one_moves_insert i t (m m' : gmap nat (task R)) :
  m !! i = None → one_moves m' (<[i := t]> m) →
  (∃ t', after_move t' t ∧ m' = <[i := t']> m) ∨ (∃ m1, one_moves m1 m ∧ m1 !! i = None ∧ m' = <[i := t]> m1).
Proof.
  intros Hi (j & tj & t' & [[<- <-]|[Hne Hj]]%lookup_insert_Some & Ha & ->).
  - left. exists t'. split; [done|]. apply insert_insert_eq.
  - right. exists (<[j := t']> m). split; [by exists j, tj, t'|]. split; [by rewrite lookup_insert_ne|]. by apply insert_insert_ne.
Qed.

Lemma one_moves_wf (m : gmap nat (task R)) : Acc one_moves m.
Proof.
  induction m as [|i t m Hi IH] using map_ind.
  { constructor. intros m' (i & t & t' & Hx & _). by rewrite lookup_empty in Hx. }
  revert t. induction IH as [m _ IHm] in Hi |- *. intros t. induction (after_move_wf t) as [t _ IHt]. constructor. intros m' Hm'.
  destruct (one_moves_insert _ _ _ _ Hi Hm') as [(t' & Ha & ->)|(m1 & H1' & Hi1 & ->)]; [by apply IHt|by apply IHm].
Qed.

(** No pool moves for ever. *)
Lemma moves_wf (p : pool) : Acc (λ p' p, ∃ i, moves i p p') p.
Proof.
  remember (th_task <$> po_threads p) as m eqn:Hm. revert p Hm. induction (one_moves_wf m) as [m _ IH]. intros p ->.
  constructor. intros p' [i Hi]. eapply IH; [|reflexivity].
  destruct Hi; (eexists i, _, _; split; [rewrite lookup_fmap; match goal with Ht : po_threads _ !! _ = _ |- _ => by rewrite Ht end|]);
    (split; [|cbn; by rewrite fmap_insert]); cbn; eauto.
Qed.

(** When nothing moves, everything is finished. *)
Lemma moves_end p p' : all_ordered p → (∀ q, ordered (start q) ∅ false ∅ false) →
  rtc (λ p p', ∃ i, moves i p p') p p' → (∀ i p'', ¬ moves i p' p'') →
  ∀ i t, po_threads p' !! i = Some t → finished t.
Proof.
  intros Ho Hs Hr Hn i t Hi. assert (all_ordered p') as Ho'.
  { induction Hr as [p|p p1 p2 [j Hj] _ IH]; [done|]. apply IH; [|done|done]. eapply step_ordered; [done|exact Ho|]. by eapply pool_moves. }
  destruct t as [q [] K b]; try done;
    (destruct (some_moves p' i _ Ho' Hi id) as (j & p'' & Hj); by destruct (Hn j p'')).
Qed.
End Pools.

(** *** Lock order of the combinators *)

Lemma ordered_bind {A B} (t : task A) (f : A → task B) K b K1 b1 K' b' :
  ordered t K b K1 b1 → (∀ a, ordered (f a) K1 b1 K' b') → ordered (t_bind t f) K b K' b'.
Proof.
  intros Ht Hf. revert K b Ht. induction t as [a|C m k IH|u k IH|k IH|k IH|k IH]; intros K b; cbn; eauto.
  - intros [-> ->]. apply Hf.
  - intros (? & ? & ?). auto.
  - intros (? & ?). auto.
  - intros (? & ?). auto.
Qed.

(** Tasks that take no lock. *)
Definition lockless {A} (t : task A) : Prop := ∀ K b, ordered t K b K b.

Lemma lockless_try {E A B} (t : task (result E A)) (f : A → task (result E B)) :
  lockless t → (∀ a, lockless (f a)) → lockless (t_try t f).
Proof. intros Ht Hf K b. eapply ordered_bind; [apply Ht|]. intros [a|e]; [apply Hf|done]. Qed.

Lemma ordered_try {E A B} (t : task (result E A)) (f : A → task (result E B)) K b :
  lockless t → (∀ a, ordered (f a) K b K b) → ordered (t_try t f) K b K b.
Proof. intros Ht Hf. eapply ordered_bind; [apply Ht|]. intros [a|e]; [apply Hf|done]. Qed.

Lemma lockless_act {E A} (m : M S E A) : lockless (act m).
Proof. by intros K b x. Qed.

Lemma lockless_ret {A} (a : A) : lockless (Ret a).
Proof. by intros K b. Qed.

Lemma lockless_each {E X A} (f : X → task (result E A)) l : (∀ x, lockless (f x)) → lockless (t_each f l).
Proof.
  intros Hf. induction l as [|x l IH]; [apply lockless_ret|]. cbn.
  apply lockless_try; [done|]. intros a. apply lockless_try; [done|]. intros rest. apply lockless_ret.
Qed.

(** A body under the locks of ascending units. *)
Lemma ordered_lock_all {A} (t : task A) us : ∀ K,
  StronglySorted Z.lt us → (∀ u v, u ∈ us → v ∈ K → v < u) →
  ordered t (list_to_set us ∪ K) false ∅ false → ordered (lock_all us t) K false ∅ false.
Proof.
  induction us as [|u us IH]; intros K Hs HK Ht; cbn [lock_all ordered].
  { by rewrite list_to_set_nil, (left_id_L ∅ (∪)) in Ht. }
  apply StronglySorted_inv in Hs as [Hs Hu]. rewrite list.Forall_forall in Hu.
  split; [done|]. split; [intros v Hv; apply HK; [left|done]|]. apply IH; [done| |].
  - intros x v Hx [->%elem_of_singleton|Hv]%elem_of_union; [by apply Hu|]. apply HK; [by right|done].
  - rewrite list_to_set_cons in Ht. by rewrite (assoc_L (∪)), (comm_L (∪) (list_to_set us)).
Qed.
End Tasks.
