(* ===== verification/Engine.v ===== *)
(** * Engine: the encrypted block device (crates/maki-core/src/engine.rs)

    Byte-addressed reads, writes, trims and barriers over the ciphertext
    volume.  Every request is a [task]: its sections are the storage tasks
    under the volume lock and the calls of the provider, its waits are the
    unit locks and the checkpoint gate.  The clock, the free space the
    backing reports and a panic of a lock holder are changes of the state
    beside the requests.

    A section under the volume lock, shared or not, is one step; what other
    tasks do to the cache meanwhile comes before or after it.  The provider
    calls of one request, which may overlap, run one after the other; the
    plaintexts a read got enter the cache in one fixed order, where the source
    leaves it open.  A publication outlives its caller: in the model
    that is the task going on.  Waiting for admission, latency statistics,
    wake-ups of the worker and the messages of errors are left out. *)

From S2P Require Import Prelude BTreeMap Codec Layout Geometry AbRecord Metadata Superblock JournalFormat Backing Provider CrashBacking AbStore FixedCopy DurableProof JournalWriter RecoveryScan Volumes JournalScan SlotStore Recovery Overlay Volume Cache Tasks.

Local Open Scope Z_scope.

Module Engine.
Import Volume.

(** ** Options *)

Record EngineLimits := mkEngineLimits {
  max_active_callbacks : Z;
  max_plaintext_bytes : Z;
  max_request_bytes : Z;
  max_overlay_bytes : Z;
  max_overlay_entries : Z
}.

Definition limits_default : EngineLimits := mkEngineLimits 64 (Z.shiftl 128 20) (Z.shiftl 1 20) 0 0.

Record CheckpointPolicy := mkCheckpointPolicy {
  journal_high_watermark_bytes : Z;
  journal_max_bytes : Z;
  max_pending_bytes : Z;
  emergency_reserve_bytes : Z;
  low_space_checkpoint_bytes : Z;
  interval : Z
}.

Definition policy_default : CheckpointPolicy :=
  mkCheckpointPolicy (Z.shiftl 2 30) (Z.shiftl 4 30) (Z.shiftl 64 20) (Z.shiftl 1 30) (Z.shiftl 4 30) (30 * 1000000000).

Inductive EngineState := Ready | Degraded.

Inductive WriteInput := Borrowed (data : bytes) | Zeroes (len : N).

Definition MAX_RECLAIM_ROUNDS : nat := 4.

(** [enospc]: [ErrorKind::StorageFull]. *)
Definition enospc : CoreError := CoreIo (OtherIo 28).

(** The fields of [EngineInner] that never change. *)
Record EngineConfig := mkEngineConfig {
  cf_context : CryptoContext;
  cf_geometry : Geometry;
  cf_supports_discard : bool;
  cf_batch_max_items : Z;
  cf_batch_max_bytes : Z;
  cf_admission_items : Z;
  cf_admission_bytes : Z;
  cf_max_request_bytes : Z;
  cf_max_overlay_bytes : Z;
  cf_max_overlay_entries : Z;
  cf_verify_on_hit : bool;
  cf_policy : CheckpointPolicy
}.

(** The mutable ones beside volume, provider and cache. *)
Record Status := mkStatus {
  failed : bool;
  state : EngineState;
  journal_uncertain : bool;
  space_refused : bool;
  checkpoint_stop : bool;
  checkpoints_total : Z;
  checkpoint_failures_total : Z;
  last_checkpoint_at : Z;
  checkpoint_retry_at : option Z
}.

Section Engine.
Context `{Crc32} `{Backing W F} `{Hasher HT} `{HashOrder} `{CryptoProvider P}.
Abbreviation Volume := (Volume.Volume (F := F) (HT := HT)).

(** [en_now] is the clock, [en_free] what [Backing::free_bytes] answers. *)
Record Engine := mkEngine {
  en_volume : Volume;
  en_world : W;
  en_provider : CheckedProvider (P := P);
  en_cache : option Cache.VersionedLruCache;
  en_status : Status;
  en_now : Z;
  en_free : result ErrorKind (option Z)
}.

Abbreviation eio := (M Engine CoreError).
Abbreviation etask A := (task (S := Engine) (result CoreError A)).

Definition set_volume (v : Volume) (w : W) (e : Engine) : Engine :=
  mkEngine v w (en_provider e) (en_cache e) (en_status e) (en_now e) (en_free e).
Definition set_provider (p : CheckedProvider) (e : Engine) : Engine :=
  mkEngine (en_volume e) (en_world e) p (en_cache e) (en_status e) (en_now e) (en_free e).
Definition set_cache (c : option Cache.VersionedLruCache) (e : Engine) : Engine :=
  mkEngine (en_volume e) (en_world e) (en_provider e) c (en_status e) (en_now e) (en_free e).
Definition set_status (s : Status) (e : Engine) : Engine :=
  mkEngine (en_volume e) (en_world e) (en_provider e) (en_cache e) s (en_now e) (en_free e).

Definition get_engine : eio Engine := λ e, (Ok e, e).
Definition modify_status (f : Status → Status) : eio unit := λ e, (Ok tt, set_status (f (en_status e)) e).

(** A call on the volume. *)
Definition on_volume {A} (m : M (Volume * W) CoreError A) : eio A := λ e,
  let '(r, (v, w)) := m (en_volume e, en_world e) in (r, set_volume v w e).

(** A call on the provider. *)
Definition on_provider {A} (m : M CheckedProvider CryptoError A) : eio A := λ e,
  let '(r, p) := m (en_provider e) in (map_err (λ _, CoreCrypto) r, set_provider p e).

(** ** The latch and the journal's state *)

Definition check_running : eio unit := λ e,
  (if failed (en_status e) then Err CoreDurability else Ok tt, e).

(** [fail]: a task panicked while it held the volume write lock. *)
Definition fail (s : Status) : Status :=
  mkStatus true (state s) (journal_uncertain s) (space_refused s) (checkpoint_stop s) (checkpoints_total s)
    (checkpoint_failures_total s) (last_checkpoint_at s) (checkpoint_retry_at s).

Definition note_journal : eio unit :=
  let* e := get_engine in
  modify_status (λ s, mkStatus (failed s) (state s) (journal_writeback_uncertain (en_volume e)) (space_refused s)
    (checkpoint_stop s) (checkpoints_total s) (checkpoint_failures_total s) (last_checkpoint_at s) (checkpoint_retry_at s)).

Definition sync_journal : eio unit :=
  let* result := m_try (on_volume Volume.flush) in
  let* _ := note_journal in
  m_lift result.

Definition effective_state (s : Status) : EngineState :=
  if failed s then Degraded
  else match state s with
       | Ready => if journal_uncertain s then Degraded else Ready
       | other => other
       end.

(** The cache, when there is one. *)
Definition cache_get (unit_ seq : Z) : eio (option bytes) := λ e,
  match en_cache e with
  | Some c => let '(c, r) := Cache.get (en_now e) unit_ seq c in (Ok r, set_cache (Some c) e)
  | None => (Ok None, e)
  end.

Definition cache_put (unit_ seq : Z) (data : bytes) : eio unit := λ e,
  (Ok tt, set_cache (Cache.put (en_now e) unit_ seq data <$> en_cache e) e).

Definition cache_invalidate (unit_ : Z) : eio unit := λ e,
  (Ok tt, set_cache (Cache.invalidate unit_ <$> en_cache e) e).

(** [configure_cache]. *)
Definition configure_cache (max_bytes : Z) (ttl : option Z) (e : Engine) : bool * Engine :=
  match en_cache e with
  | Some c => (true, set_cache (Some (Cache.reconfigure max_bytes ttl c)) e)
  | None => (false, e)
  end.

Section Config.
Context (cf : EngineConfig).

Definition unit_size : Z := crypto_unit_size (cf_geometry cf).
Definition size : Z := max_virtual_size (cf_geometry cf).

(** ** Admission *)

Definition check_extent (offset len : Z) : result CoreError unit :=
  let block := device_block_size (cf_geometry cf) in
  if (len =? 0) || negb (is_multiple_of offset block) || negb (is_multiple_of len block)
     || match checked_add offset len with Some end_ => size <? end_ | None => true end
  then Err CoreInvalid else Ok tt.

Definition check_range (offset len : Z) : result CoreError unit :=
  match check_extent offset len with
  | Err e => Err e
  | Ok _ => if cf_max_request_bytes cf <? len then Err CoreInvalid else Ok tt
  end.

Definition first_unit (offset : Z) : Z := offset / unit_size.
Definition last_unit (offset len : Z) : Z := (offset + len - 1) / unit_size.

Definition admission_cost (offset len : Z) : Z :=
  if len =? 0 then 0 else (last_unit offset len - first_unit offset + 1) * unit_size.

(** [DualSemaphore::check_request] of one item: what can never be admitted. *)
Definition check_request (bytes : Z) : result CoreError unit :=
  if (cf_admission_items cf <? 1) || (cf_admission_bytes cf <? bytes) then Err CoreCrypto else Ok tt.

Definition freshness : eio unit := on_volume (v_io b_check_freshness).

(** [first..=last]. *)
Definition unit_range (first last : Z) : list Z := seqZ first (last - first + 1).

(** ** Batches *)

Fixpoint chunks_from (sizes : list Z) (i start : nat) (bytes : Z) : list (nat * nat) :=
  match sizes with
  | [] => if (start <? i)%nat then [(start, i)] else []
  | sz :: sizes =>
      let over_items := cf_batch_max_items cf <=? Z.of_nat (i - start) in
      let over_bytes := (start <? i)%nat && (cf_batch_max_bytes cf <? bytes + sz) in
      if over_items || over_bytes then (start, i) :: chunks_from sizes (S i) i sz
      else chunks_from sizes (S i) start (bytes + sz)
  end.

Definition batch_chunks (sizes : list Z) : list (nat * nat) := chunks_from sizes 0 0 0.

Definition slice {A} (r : nat * nat) (l : list A) : list A := take (r.2 - r.1) (drop r.1 l).

(** [run_batches]: one provider call for each range; the results keep the
    order of the ranges. *)
Definition run_batches {A} (ranges : list (nat * nat)) (call : nat * nat → M (CheckedProvider (P := P)) CryptoError A)
    : etask (list A) :=
  t_each (λ r, act (on_provider (call r))) ranges.

Fixpoint collect_plain (pts : list PlaintextUnit) (out : gmap Z bytes) : result CoreError (gmap Z bytes) :=
  match pts with
  | [] => Ok out
  | pt :: pts => if negb (blen (pu_data pt) =? unit_size) then Err CoreCrypto
                 else collect_plain pts (<[pu_index pt := pu_data pt]> out)
  end.

Definition decrypt_units (cts : list CiphertextUnit) : etask (gmap Z bytes) :=
  if bool_decide (cts = []) then t_ok ∅ else
  t_try (run_batches (batch_chunks (replicate (length cts) unit_size))
           (λ r, checked_decrypt (cf_context cf) (slice r cts)))
    (λ batches, Ret (collect_plain (concat batches) ∅)).

(** ** Reads *)

Record Snapshot := mkSnapshot { sn_cached : gmap Z bytes; sn_cts : list CiphertextUnit; sn_seqs : gmap Z Z }.

Definition take_ct (unit_ seq : Z) (data : bytes) (sn : Snapshot) : Snapshot :=
  mkSnapshot (sn_cached sn) (sn_cts sn ++ [mkCiphertextUnit unit_ data]) (<[unit_ := seq]> (sn_seqs sn)).
Definition take_hit (unit_ : Z) (buf : bytes) (sn : Snapshot) : Snapshot :=
  mkSnapshot (<[unit_ := buf]> (sn_cached sn)) (sn_cts sn) (sn_seqs sn).

(** The body without a cache hit. *)
Definition read_miss (unit_ : Z) (sn : Snapshot) : eio Snapshot :=
  let* found := on_volume (read_ct unit_) in
  match found with
  | Some (seq, data) => m_ret (take_ct unit_ seq data sn)
  | None => m_ret sn
  end.

Definition read_unit (unit_ : Z) (sn : Snapshot) : eio Snapshot :=
  let* e := get_engine in
  match en_cache e with
  | Some _ =>
      if negb (cf_verify_on_hit cf) then
        let* current := on_volume (current_sequence unit_) in
        match current with
        | None => m_ret sn
        | Some seq =>
            let* hit := cache_get unit_ seq in
            match hit with
            | Some buf => m_ret (take_hit unit_ buf sn)
            | None => read_miss unit_ sn
            end
        end
      else
        let* found := on_volume (read_ct unit_) in
        match found with
        | Some (seq, data) =>
            let* hit := cache_get unit_ seq in
            match hit with
            | Some buf => m_ret (take_hit unit_ buf sn)
            | None => m_ret (take_ct unit_ seq data sn)
            end
        | None => m_ret sn
        end
  | None => read_miss unit_ sn
  end.

Fixpoint read_units (us : list Z) (sn : Snapshot) : eio Snapshot :=
  match us with
  | [] => m_ret sn
  | u :: us => let* sn := read_unit u sn in read_units us sn
  end.

(** The storage task of a read, under the volume read lock. *)
Definition snapshot (first last : Z) : eio Snapshot :=
  let* _ := check_running in
  read_units (unit_range first last) (mkSnapshot ∅ [] ∅).

Definition cache_fill (plain : gmap Z bytes) (seqs : gmap Z Z) : eio unit :=
  m_each (λ '(u, buf), cache_put u (default 0 (seqs !! u)) buf) (map_to_list plain).

(** The part of a unit a request covers, from the start of the unit. *)
Definition part_from (offset u : Z) : Z := Z.max offset (u * unit_size) - u * unit_size.
Definition part_to (offset len u : Z) : Z := Z.min (offset + len) (u * unit_size + unit_size) - u * unit_size.

Definition part (offset len u : Z) (buf : bytes) : bytes :=
  slice (Z.to_nat (part_from offset u), Z.to_nat (part_to offset len u)) buf.

Definition zeros (n : Z) : bytes := replicate (Z.to_nat n) Init.Byte.x00.

(** The copies into the zeroed result, unit by unit. *)
Definition assemble (offset len : Z) (plain cached : gmap Z bytes) : bytes :=
  concat (map (λ u,
    match plain !! u with
    | Some buf => part offset len u buf
    | None => match cached !! u with
              | Some buf => part offset len u buf
              | None => zeros (part_to offset len u - part_from offset u)
              end
    end) (unit_range (first_unit offset) (last_unit offset len))).

Definition read_secret_inner (offset len : Z) : etask bytes :=
  t_try (Ret (check_range offset len)) (λ _,
  t_try (Ret (check_request (admission_cost offset len))) (λ _,
  t_try (act freshness) (λ _,
  t_try (act (snapshot (first_unit offset) (last_unit offset len))) (λ sn,
  t_try (decrypt_units (sn_cts sn)) (λ plain,
  t_try (act (cache_fill plain (sn_seqs sn))) (λ _,
  t_ok (assemble offset len plain (sn_cached sn)))))))).

(** ** Journal admission *)

Definition record_len (ct : CiphertextUnit) : Z := RECORD_HEADER_SIZE + blen (cu_data ct).

Definition is_tombstone (ct : CiphertextUnit) : bool := bool_decide (cu_data ct = []).

(** The space check under the emergency reserve. *)
Definition admit_space (cts : list CiphertextUnit) : eio unit :=
  let policy := cf_policy cf in
  if 0 <? emergency_reserve_bytes policy then
    let* e := get_engine in
    let append_footprint := journal_append_footprint (en_volume e) (map record_len cts) in
    let headroom := if forallb is_tombstone cts then 0 else low_space_checkpoint_bytes policy in
    let* reserved := m_lift (ok_or (checked_add (emergency_reserve_bytes policy) headroom) enospc) in
    let* required := m_lift (ok_or (checked_add reserved append_footprint) enospc) in
    match en_free e with
    | Ok (Some free) =>
        if free <? required then
          let* _ := modify_status (λ s, mkStatus (failed s) (state s) (journal_uncertain s) true (checkpoint_stop s)
            (checkpoints_total s) (checkpoint_failures_total s) (last_checkpoint_at s) (checkpoint_retry_at s)) in
          m_err enospc
        else m_ret tt
    | _ => m_err enospc
    end
  else m_ret tt.

Definition exhausted (v : Volume) (reclaimed last_round : bool) : bool :=
  reclaimed && (last_round || (journal_appended_sequence v <=? checkpoint_sequence v)).

Definition over_overlay (v : Volume) (cts : list CiphertextUnit) : bool :=
  let payload := foldr Z.add 0 (map (λ ct, blen (cu_data ct)) cts) in
  ((0 <? cf_max_overlay_bytes cf)
   && (cf_max_overlay_bytes cf <?
       saturating_add (Z.max (overlay_bytes v) (saturating_mul (overlay_latest_bytes v) 2)) (saturating_mul payload 2)))
  || ((0 <? cf_max_overlay_entries cf)
      && (cf_max_overlay_entries cf <? saturating_add (overlay_len v) (Z.of_nat (length cts)))).

Definition over_journal (v : Volume) (cts : list CiphertextUnit) : bool :=
  journal_max_bytes (cf_policy cf) <?
    saturating_add (journal_total_bytes v) (journal_append_footprint v (map record_len cts)).

(** [Ok false]: the caller must reclaim and try again. *)
Definition admit_journal (cts : list CiphertextUnit) (reclaimed last_round : bool) : eio bool :=
  let* _ := admit_space cts in
  let* e := get_engine in
  if over_overlay (en_volume e) cts || over_journal (en_volume e) cts then
    if exhausted (en_volume e) reclaimed last_round then m_err enospc
    else let* _ := sync_journal in m_ret false
  else m_ret true.

(** Tombstones for units that are not proved unwritten. *)
Fixpoint filter_trims (cts : list CiphertextUnit) : eio (list CiphertextUnit) :=
  match cts with
  | [] => m_ret []
  | ct :: cts =>
      let* skip := on_volume (reclaim_unwritten (cu_index ct)) in
      let* rest := filter_trims cts in
      m_ret (if skip then rest else mkCiphertextUnit (cu_index ct) [] :: rest)
  end.

(** Appending one record. *)
Definition append_one (ct : CiphertextUnit) : eio unit :=
  let* e := get_engine in
  let* _ := m_when (max_pending_bytes (cf_policy cf) <?
                    saturating_add (journal_pending_bytes (en_volume e)) (record_len ct)) sync_journal in
  let* _ := on_volume (if is_tombstone ct then discard_ct (cu_index ct) false
                       else write_ct (cu_index ct) (cu_data ct) false) in
  cache_invalidate (cu_index ct).

Definition journal_request (cts : list CiphertextUnit) (fua reclaimed last_round : bool) : eio bool :=
  let* cts := match cts with
              | ct :: _ => if is_tombstone ct then filter_trims cts else m_ret cts
              | [] => m_ret cts
              end in
  let* admitted := if bool_decide (cts = []) then m_ret true else admit_journal cts reclaimed last_round in
  if negb admitted then m_ret false else
  let* _ := m_each append_one cts in
  let* _ := m_when fua sync_journal in
  m_ret true.

(** The storage task of a round, under the volume write lock. *)
Definition journal_section (cts : list CiphertextUnit) (fua reclaimed last_round : bool) : eio bool :=
  let* _ := check_running in
  let* outcome := m_try (journal_request cts fua reclaimed last_round) in
  let* _ := note_journal in
  m_lift outcome.

(** ** Checkpoints *)

Definition prepare_section : eio (PreparedCheckpoint (F := F)) :=
  let* _ := check_running in
  on_volume prepare_checkpoint.

(** One slot write of the plan, outside the volume lock. *)
Definition apply_section (p : PreparedCheckpoint (F := F)) (slot_index : nat) (ver : Overlay.OverlayVersion) : eio unit :=
  on_volume (on_world (Store.plan_write (slots p) slot_index (Overlay.sequence ver) (Overlay.ciphertext ver))).

Fixpoint execute_task (p : PreparedCheckpoint (F := F)) (slot_index : nat) (its : list (Z * Overlay.OverlayVersion))
    : etask unit :=
  match its with
  | [] => t_ok tt
  | (_, ver) :: its =>
      if allow_discard p && is_empty_version ver then execute_task p slot_index its
      else t_try (act (apply_section p slot_index ver)) (λ _, execute_task p (S slot_index) its)
  end.

Definition shards_section (p : PreparedCheckpoint (F := F)) : eio unit :=
  on_volume (on_world (Store.sync_shards (slots p))).

Definition validate_section (p : PreparedCheckpoint (F := F)) : eio unit :=
  let* e := get_engine in
  m_lift (Store.validate_reservation_barriers (slots p) (vo_store (en_volume e))).

(** Publication: the plan's outcome, the counters and the state. *)
Definition finish_section (completed : result CoreError (PreparedCheckpoint (F := F))) : eio Z :=
  let* _ := check_running in
  let* before := get_engine in
  let* outcome := m_try (let* plan := m_lift completed in on_volume (finish_checkpoint plan)) in
  let* _ := modify_status (λ s,
    match outcome with
    | Ok sequence =>
        mkStatus (failed s) Ready (journal_uncertain s) (space_refused s) (checkpoint_stop s)
          (add64 (checkpoints_total s) 1) (checkpoint_failures_total s)
          (if checkpoint_sequence (en_volume before) <? sequence then en_now before else last_checkpoint_at s)
          (checkpoint_retry_at s)
    | Err _ =>
        mkStatus (failed s) Degraded (journal_uncertain s) (space_refused s) (checkpoint_stop s)
          (checkpoints_total s) (add64 (checkpoint_failures_total s) 1) (last_checkpoint_at s) (checkpoint_retry_at s)
    end) in
  let* _ := note_journal in
  m_lift outcome.

(** The plan is prepared under the lock, applied beside it and published
    under it again, all behind the gate. *)
Definition checkpoint : etask Z :=
  Gate (t_bind
    (t_bind
      (t_try (act prepare_section) (λ p,
       t_try (execute_task p 0 (items p)) (λ _,
       t_try (act (shards_section p)) (λ _,
       t_try (act (validate_section p)) (λ _, t_ok p)))))
      (λ completed, act (finish_section completed)))
    (λ r, Ungate (Ret r))).

(** ** Writes *)

Record Existing := mkExisting { ex_cts : list CiphertextUnit; ex_need : list Z; ex_cached : gmap Z bytes }.

Definition is_full (offset len u : Z) : bool :=
  (offset <=? u * unit_size) && (u * unit_size + unit_size <=? offset + len).

Definition add_hit (u : Z) (buf : bytes) (ex : Existing) : Existing :=
  mkExisting (ex_cts ex) (ex_need ex) (<[u := buf]> (ex_cached ex)).
Definition add_ct (u : Z) (ct : bytes) (ex : Existing) : Existing :=
  mkExisting (ex_cts ex ++ [mkCiphertextUnit u ct]) (ex_need ex) (ex_cached ex).
Definition add_need (u : Z) (ex : Existing) : Existing :=
  mkExisting (ex_cts ex) (ex_need ex ++ [u]) (ex_cached ex).

Definition rmw_read (u : Z) (ex : Existing) : eio Existing :=
  let* found := on_volume (read_ct u) in
  match found with
  | Some (seq, ct) =>
      let* hit := if cf_verify_on_hit cf then cache_get u seq else m_ret None in
      match hit with
      | Some buf => m_ret (add_hit u buf ex)
      | None => m_ret (add_ct u ct ex)
      end
  | None => m_ret ex
  end.

Definition rmw_unit (offset len u : Z) (ex : Existing) : eio Existing :=
  if is_full offset len u then m_ret ex else
  let ex := add_need u ex in
  let* e := get_engine in
  match en_cache e with
  | Some _ =>
      if negb (cf_verify_on_hit cf) then
        let* current := on_volume (current_sequence u) in
        match current with
        | None => m_ret ex
        | Some seq =>
            let* hit := cache_get u seq in
            match hit with
            | Some buf => m_ret (add_hit u buf ex)
            | None => rmw_read u ex
            end
        end
      else rmw_read u ex
  | None => rmw_read u ex
  end.

Fixpoint rmw_units (offset len : Z) (us : list Z) (ex : Existing) : eio Existing :=
  match us with
  | [] => m_ret ex
  | u :: us => let* ex := rmw_unit offset len u ex in rmw_units offset len us ex
  end.

Definition rmw_section (offset len : Z) : eio Existing :=
  let* _ := check_running in
  rmw_units offset len (unit_range (first_unit offset) (last_unit offset len)) (mkExisting [] [] ∅).

Definition input_len (data : WriteInput) : Z :=
  match data with Borrowed bytes => blen bytes | Zeroes len => Z.of_N len end.

(** The bytes of the request that fall into a unit. *)
Definition source (offset : Z) (data : WriteInput) (u : Z) : bytes :=
  let n := part_to offset (input_len data) u - part_from offset u in
  match data with
  | Borrowed bytes => take (Z.to_nat n) (drop (Z.to_nat (Z.max offset (u * unit_size) - offset)) bytes)
  | Zeroes _ => zeros n
  end.

Definition overwrite (at_ : nat) (new old : bytes) : bytes :=
  take at_ old ++ new ++ drop (at_ + length new) old.

Definition build_item (offset : Z) (data : WriteInput) (need : list Z) (existing : gmap Z bytes) (u : Z) : PlaintextUnit :=
  let old := if bool_decide (u ∈ need) then default (zeros unit_size) (existing !! u) else zeros unit_size in
  mkPlaintextUnit u (overwrite (Z.to_nat (part_from offset u)) (source offset data u) old).

Definition encrypt_items (its : list PlaintextUnit) : etask (list CiphertextUnit) :=
  t_try (run_batches (batch_chunks (map (λ it, blen (pu_data it)) its))
           (λ r, checked_encrypt (cf_context cf) (slice r its)))
    (λ batches, t_ok (concat batches)).

Definition fits_volume (cts : list CiphertextUnit) : bool :=
  forallb (λ ct, negb (bool_decide (cu_data ct = [])) && (blen (cu_data ct) <=? max_ciphertext_size (cf_geometry cf))) cts.

(** The rounds of [publish_ciphertexts]; the list runs out only after a last
    round, whose admission never asks for another. *)
Fixpoint publish_rounds (cts : list CiphertextUnit) (fua : bool) (rounds : list nat) : etask unit :=
  match rounds with
  | [] => t_err CoreDurability
  | round :: rounds =>
      t_try (act (journal_section cts fua (0 <? round)%nat (round =? MAX_RECLAIM_ROUNDS)%nat)) (λ written,
      if written then t_ok tt
      else t_try checkpoint (λ _, publish_rounds cts fua rounds))
  end.

Definition publish_ciphertexts (cts : list CiphertextUnit) (fua : bool) : etask unit :=
  publish_rounds cts fua (seq 0 (S MAX_RECLAIM_ROUNDS)).

(** A body under the locks of a range of units. *)
Definition locked {A} (first last : Z) (body : etask A) : etask A :=
  lock_all (unit_range first last) (t_bind body (λ r, Unlock (Ret r))).

Definition write_admitted (offset : Z) (data : WriteInput) (fua : bool) : etask unit :=
  let len := input_len data in
  let us := unit_range (first_unit offset) (last_unit offset len) in
  t_try (act freshness) (λ _,
  locked (first_unit offset) (last_unit offset len) (
    t_try (act (rmw_section offset len)) (λ ex,
    t_try (decrypt_units (ex_cts ex)) (λ existing,
    let its := map (build_item offset data (ex_need ex) (ex_cached ex ∪ existing)) us in
    t_try (encrypt_items its) (λ cts,
    if negb (fits_volume cts) then t_err CoreCrypto
    else publish_ciphertexts cts fua))))).

Definition write_inner (offset : Z) (data : WriteInput) (fua : bool) : etask unit :=
  t_try (Ret (check_range offset (input_len data))) (λ _,
  t_try (Ret (check_request (admission_cost offset (input_len data)))) (λ _,
  write_admitted offset data fua)).

(** ** Barriers and trims *)

Definition flush_section : eio unit :=
  let* _ := check_running in
  sync_journal.

Definition flush_inner : etask unit :=
  t_try (Ret (check_request 0)) (λ _,
  t_try (act freshness) (λ _, act flush_section)).

Definition trim_units (first end_ : Z) (fua : bool) : etask unit :=
  t_try (Ret (check_request (admission_cost (first * unit_size) ((end_ - first) * unit_size)))) (λ _,
  t_try (act freshness) (λ _,
  locked first (end_ - 1)
    (publish_ciphertexts (map (λ u, mkCiphertextUnit u []) (seqZ first (end_ - first))) fua))).

(** The chunks of the [while] loop; each moves [start] forward. *)
Fixpoint trim_chunks (fuel : nat) (per_chunk start end_ : Z) : list (Z * Z) :=
  match fuel with
  | O => []
  | S fuel =>
      if start <? end_ then
        let stop := Z.min (saturating_add start per_chunk) end_ in
        (start, stop) :: trim_chunks fuel per_chunk stop end_
      else []
  end.

Definition trim_all (fua : bool) (end_ : Z) : list (Z * Z) → etask unit :=
  fix go chunks :=
    match chunks with
    | [] => t_ok tt
    | (start, stop) :: chunks =>
        t_try (trim_units start stop (fua && (stop =? end_))) (λ _, go chunks)
    end.

Definition trim_inner (offset len : Z) (fua : bool) : etask unit :=
  t_try (Ret (check_extent offset len)) (λ _,
  if negb (cf_supports_discard cf) then t_err CoreInvalid else
  let first := div_ceil offset unit_size in
  let end_ := (offset + len) / unit_size in
  if end_ <=? first then
    if fua then flush_inner
    else t_try (Ret (check_request 0)) (λ _, act freshness)
  else
    let per_chunk := Z.max (cf_max_request_bytes cf / unit_size) 1 in
    trim_all fua end_ (trim_chunks (Z.to_nat (end_ - first)) per_chunk first end_)).

(** ** The checkpoint worker *)

Definition overlay_above_watermark (v : Volume) : bool :=
  ((0 <? cf_max_overlay_bytes cf)
   && (cf_max_overlay_bytes cf / 2 <=? Z.max (overlay_bytes v) (saturating_mul (overlay_latest_bytes v) 2)))
  || ((0 <? cf_max_overlay_entries cf) && (cf_max_overlay_entries cf / 2 <=? overlay_len v)).

Definition set_retry (at_ : option Z) (s : Status) : Status :=
  mkStatus (failed s) (state s) (journal_uncertain s) (space_refused s) (checkpoint_stop s) (checkpoints_total s)
    (checkpoint_failures_total s) (last_checkpoint_at s) at_.

Definition take_refusal (s : Status) : Status :=
  mkStatus (failed s) (state s) (journal_uncertain s) false (checkpoint_stop s) (checkpoints_total s)
    (checkpoint_failures_total s) (last_checkpoint_at s) (checkpoint_retry_at s).

(** What a pass decides from its earlier reading of the volume: nothing, or a
    checkpoint with or without a barrier before it. *)
Definition worker_decision (v : Volume) : eio (option bool) :=
  let* e := get_engine in
  let s := en_status e in
  let reclaim := has_pending_reclamation v in
  if (journal_appended_sequence v <=? checkpoint_sequence v) && (journal_covered_segment_count v =? 0)
     && negb reclaim && negb (space_refused s) then m_ret None else
  if match checkpoint_retry_at s with Some retry_at => en_now e <? retry_at | None => false end then m_ret None else
  let by_size := journal_high_watermark_bytes (cf_policy cf) <=? journal_total_bytes v in
  let by_space := negb reclaim && (0 <? low_space_checkpoint_bytes (cf_policy cf))
    && match en_free e with Ok (Some free) => free <? low_space_checkpoint_bytes (cf_policy cf) | _ => false end in
  if checkpoint_stop s then m_ret None else
  let by_time := interval (cf_policy cf) <=? saturating_sub (en_now e) (last_checkpoint_at s) in
  let by_overlay := overlay_above_watermark v in
  let by_refusal := space_refused s in
  let* _ := modify_status take_refusal in
  if negb (by_size || by_space || by_time || by_overlay || reclaim || by_refusal) then m_ret None
  else m_ret (Some ((by_time || by_overlay || by_refusal)
                    && (journal_durable_sequence v <? journal_appended_sequence v))).

Definition defer_checkpoint_retry : eio unit :=
  let* e := get_engine in
  modify_status (set_retry (Some (en_now e + interval (cf_policy cf)))).

(** The barrier of a pass; [None] when the engine stopped meanwhile. *)
Definition worker_sync : eio (option (result CoreError unit)) :=
  let* running := m_try check_running in
  match running with
  | Err _ => m_ret None
  | Ok _ =>
      let* e := get_engine in
      if checkpoint_stop (en_status e) then m_ret None
      else let* r := m_try sync_journal in m_ret (Some r)
  end.

Definition worker_checkpoint : etask unit :=
  t_try (act get_engine) (λ e,
  if checkpoint_stop (en_status e) then t_ok tt else
  t_bind checkpoint (λ r,
    match r with
    | Err _ => act defer_checkpoint_retry
    | Ok _ => act (modify_status (set_retry None))
    end)).

Definition worker_pass : etask unit :=
  t_try (act get_engine) (λ seen,
  t_try (act (worker_decision (en_volume seen))) (λ decision,
  match decision with
  | None => t_ok tt
  | Some false => worker_checkpoint
  | Some true =>
      t_try (act worker_sync) (λ synced,
      match synced with
      | None => t_ok tt
      | Some (Err _) => act defer_checkpoint_retry
      | Some (Ok _) => worker_checkpoint
      end)
  end)).

(** ** Requests *)

Inductive Request :=
| Read (offset len : N)
| Write (offset : N) (data : WriteInput) (fua : bool)
| Trim (offset len : N) (fua : bool)
| Flush
| Checkpoint
| Worker.

Definition discarding {A} (t : etask A) : etask bytes := t_try t (λ _, t_ok []).

(** [observe_request]: a stopped engine refuses every callback. *)
Definition observe {A} (t : etask A) : etask A := t_try (act check_running) (λ _, t).

Definition handle (q : Request) : etask bytes :=
  match q with
  | Read offset len => observe (read_secret_inner (Z.of_N offset) (Z.of_N len))
  | Write offset data fua => discarding (observe (write_inner (Z.of_N offset) data fua))
  | Trim offset len fua => discarding (observe (trim_inner (Z.of_N offset) (Z.of_N len) fua))
  | Flush => discarding (observe flush_inner)
  | Checkpoint => discarding checkpoint
  | Worker => discarding worker_pass
  end.
End Config.
End Engine.
End Engine.
