(* ===== verification/EngineLocks.v ===== *)
(** * EngineLocks: the engine's requests never wait for each other for ever

    Every request takes its unit locks in ascending order, takes the
    checkpoint gate after them and gives everything back.  Hence some request
    can always move, and since each request is a finite task, a pool that is
    left alone answers every request.  Waiting for admission, which comes
    before every lock, is not part of the tasks. *)

From Stdlib Require Import Sorted.
From S2P Require Import Prelude BTreeMap Codec Layout Geometry AbRecord Metadata Superblock JournalFormat Backing Provider CrashBacking AbStore FixedCopy DurableProof JournalWriter RecoveryScan Volumes JournalScan SlotStore Recovery Overlay Volume Cache Tasks Engine.
Import Volume Engine.

Local Open Scope Z_scope.

Section Locks.
Context `{Crc32} `{Backing W F} `{Hasher HT} `{HashOrder} `{CryptoProvider P}.
Context (cf : EngineConfig).
Abbreviation Engine := (Engine (W := W) (F := F) (HT := HT) (P := P)).
Abbreviation etask A := (task (S := Engine) (result CoreError A)).
Implicit Types (K : gset Z).

Lemma ordered_then {A B} (t : etask A) (f : A → etask B) K :
  ordered t K false K false → (∀ a, ordered (f a) K false K false) → ordered (t_try t f) K false K false.
Proof. intros Ht Hf. eapply ordered_bind; [exact Ht|]. intros [a|e]; [apply Hf|done]. Qed.

Lemma range_sorted first last : StronglySorted Z.lt (unit_range first last).
Proof.
  unfold unit_range, seqZ. generalize (Z.to_nat (last - first + 1)) as n. intros n.
  assert (∀ s, StronglySorted Z.lt ((λ i : nat, Z.add (Z.of_nat i) first) <$> seq s n)) as Hs; [|apply (Hs O)].
  induction n as [|n IH]; intros s; cbn; [constructor|]. constructor; [apply IH|]. apply list.Forall_forall.
  intros z (k & -> & Hk%elem_of_seq)%list_elem_of_fmap. lia.
Qed.

Lemma ordered_locked {A} first last (body : etask A) :
  (∀ K, ordered body K false K false) → ordered (locked first last body) ∅ false ∅ false.
Proof.
  intros Hb. apply ordered_lock_all; [apply range_sorted|set_solver|]. eapply ordered_bind; [apply Hb|]. by intros r.
Qed.

(** Follows a task: each section takes no lock, each lock block is ordered. *)
Ltac lock_order :=
  repeat match goal with
  | |- lockless (Ret _) => apply lockless_ret
  | |- lockless (t_ok _) => apply lockless_ret
  | |- lockless (act _) => apply lockless_act
  | |- lockless (t_each _ _) => apply lockless_each; intros ?
  | |- lockless (t_try _ _) => apply lockless_try; [|intros ?]
  | |- lockless (let _ := _ in _) => cbv zeta
  | |- lockless (if ?c then _ else _) => destruct c
  | |- ordered (t_try (act _) _) _ _ _ _ => apply ordered_try; [apply lockless_act|intros ?]
  | |- ordered (t_try (Ret _) _) _ _ _ _ => apply ordered_try; [apply lockless_ret|intros ?]
  | |- ordered (t_try _ _) _ _ _ _ => apply ordered_then; [|intros ?]
  | |- ordered (locked _ _ _) ∅ false ∅ false => apply ordered_locked; intros ?
  | |- ordered (let _ := _ in _) _ _ _ _ => cbv zeta
  | |- ordered (if ?c then _ else _) _ _ _ _ => destruct c
  | |- ordered (match ?c with _ => _ end) _ _ _ _ => destruct c
  | |- ordered (act _) ?K ?b ?K ?b => apply lockless_act
  | |- ordered (t_ok _) ?K ?b ?K ?b => apply lockless_ret
  | |- ordered (t_err _) ?K ?b ?K ?b => apply lockless_ret
  | Ht : _ |- _ => apply Ht
  end.

Lemma lockless_decrypt cts : lockless (decrypt_units cf cts : etask _).
Proof. unfold decrypt_units, run_batches. lock_order. Qed.

Lemma lockless_encrypt its : lockless (encrypt_items cf its : etask _).
Proof. unfold encrypt_items, run_batches. lock_order. Qed.

Lemma lockless_read offset len : lockless (read_secret_inner cf offset len : etask _).
Proof. pose proof lockless_decrypt as Hd. unfold read_secret_inner. lock_order. Qed.

Lemma lockless_execute (p : PreparedCheckpoint (F := F)) its : ∀ n, lockless (execute_task p n its : etask _).
Proof. induction its as [|[u ver] its IH]; intros n; cbn [execute_task]; lock_order. Qed.

(** The gate is free again after a checkpoint. *)
Lemma ordered_checkpoint K : ordered (checkpoint : etask _) K false K false.
Proof.
  split; [done|]. eapply (ordered_bind _ _ _ _ K true); [|by intros r]. eapply (ordered_bind _ _ _ _ K true); [|intros r; apply lockless_act].
  pose proof lockless_execute as He.
  match goal with |- ordered ?t _ _ _ _ => enough (lockless t) as Hl by apply Hl end. lock_order.
Qed.

Lemma ordered_rounds cts fua rounds K : ordered (publish_rounds cf cts fua rounds : etask _) K false K false.
Proof. pose proof (ordered_checkpoint K) as Hc. induction rounds as [|round rounds IH]; cbn [publish_rounds]; lock_order. Qed.

Lemma ordered_write offset data fua : ordered (write_inner cf offset data fua : etask _) ∅ false ∅ false.
Proof.
  pose proof lockless_decrypt as Hd. pose proof lockless_encrypt as He. pose proof ordered_rounds as Hr.
  unfold write_inner, write_admitted, publish_ciphertexts. lock_order.
Qed.

Lemma lockless_flush : lockless (flush_inner cf : etask _).
Proof. unfold flush_inner. lock_order. Qed.

Lemma ordered_trim_all fua end_ chunks : ordered (trim_all cf fua end_ chunks : etask _) ∅ false ∅ false.
Proof.
  pose proof ordered_rounds as Hr. induction chunks as [|[start stop] chunks IH]; [done|].
  cbn [trim_all]. unfold trim_units, publish_ciphertexts. lock_order.
Qed.

Lemma ordered_trim offset len fua : ordered (trim_inner cf offset len fua : etask _) ∅ false ∅ false.
Proof. pose proof lockless_flush as Hf. pose proof ordered_trim_all as Ht. unfold trim_inner. lock_order. Qed.

Lemma ordered_worker : ordered (worker_pass cf : etask _) ∅ false ∅ false.
Proof.
  assert (ordered (worker_checkpoint cf : etask _) ∅ false ∅ false) as Hc.
  { apply ordered_try; [apply lockless_act|]. intros e. destruct (checkpoint_stop _); [done|].
    eapply ordered_bind; [apply ordered_checkpoint|]. intros [s|er]; apply lockless_act. }
  unfold worker_pass. lock_order.
Qed.

Lemma ordered_discarding {A} (t : etask A) : ordered t ∅ false ∅ false → ordered (discarding t) ∅ false ∅ false.
Proof. intros Ht. apply ordered_then; [exact Ht|]. by intros a. Qed.

Lemma ordered_observe {A} (t : etask A) : ordered t ∅ false ∅ false → ordered (observe t) ∅ false ∅ false.
Proof. intros Ht. apply ordered_try; [apply lockless_act|]. by intros a. Qed.

Lemma ordered_handle q : ordered (handle cf q : etask _) ∅ false ∅ false.
Proof.
  destruct q; cbn [handle].
  - apply ordered_observe, lockless_read.
  - apply ordered_discarding, ordered_observe, ordered_write.
  - apply ordered_discarding, ordered_observe, ordered_trim.
  - apply ordered_discarding, ordered_observe, lockless_flush.
  - apply ordered_discarding, ordered_checkpoint.
  - apply ordered_discarding, ordered_worker.
Qed.

(** C5. Requests finish: whatever arrived, moved, was dropped or happened
    beside the requests before, from then on the pending reads, writes, trims,
    flushes, checkpoints and worker passes cannot move for ever, and they stop
    moving only when every one of them has its answer. *)
Theorem requests_finish (env : Engine → Engine → Prop) (p p' : pool (S := Engine)) :
  po_threads p = ∅ → pool_run (handle cf) env p p' →
  Acc (λ y x, ∃ i, moves i x y) p' ∧
  ∀ y, rtc (λ x y, ∃ i, moves i x y) p' y → (∀ i z, ¬ moves i y z) →
    ∀ i t, po_threads y !! i = Some t → finished t.
Proof.
  intros H0' Hr. split; [apply moves_wf|]. intros y Hy Hn.
  eapply (moves_end (handle cf) env); [|apply ordered_handle|exact Hy|exact Hn].
  eapply (run_ordered (handle cf) env); [apply ordered_handle|exact Hr|]. intros i t Hi. by rewrite H0', lookup_empty in Hi.
Qed.
End Locks.
