(* ===== verification/EngineBytes.v ===== *)
(** * EngineBytes: bytes of the device and units of the engine

    The device the engine offers is an array of bytes; the volume holds it in
    units.  [device_read], [updated] and [trimmed] say what a read returns and
    what a write and a trim leave, byte by byte; the loops of the engine that
    cut requests into parts of units are shown to compute them. *)

From S2P Require Import Prelude Geometry Backing Provider JournalWriter Volume Cache Tasks Engine.
Import Engine.

Local Open Scope Z_scope.

Section Bytes.
Context (cf : EngineConfig).
Hypothesis unit_positive : 0 < unit_size cf.
Abbreviation us := (unit_size cf).

(** The plaintext of every unit. *)
Definition device_state := Z → bytes.
Implicit Types (D : device_state) (u i offset len : Z).

Definition byte_at D i : Init.Byte.byte := nth (Z.to_nat (i mod us)) (D (i / us)) Init.Byte.x00.

Definition device_read D offset len : bytes := map (byte_at D) (seqZ offset len).

(** The byte of a request at a distance from its start. *)
Definition data_at (data : WriteInput) (k : Z) : Init.Byte.byte :=
  match data with Borrowed bs => nth (Z.to_nat k) bs Init.Byte.x00 | Zeroes _ => Init.Byte.x00 end.

Definition updated D offset (data : WriteInput) : device_state := λ u,
  map (λ k, let i := u * us + k in
    if bool_decide (offset ≤ i < offset + input_len data) then data_at data (i - offset) else byte_at D i) (seqZ 0 us).

Definition whole_in offset len u : Prop := offset ≤ u * us ∧ u * us + us ≤ offset + len.

Definition trimmed D offset len : device_state := λ u,
  if bool_decide (whole_in offset len u) then zeros us else D u.

Definition sized D u : Prop := length (D u) = Z.to_nat us.

Lemma unit_of u k : 0 ≤ k < us → (u * us + k) / us = u ∧ (u * us + k) mod us = k.
Proof.
  intros Hk. rewrite Z.add_comm. split; [rewrite Z.div_add, Z.div_small by lia; lia|].
  rewrite Z_mod_plus_full. by apply Z.mod_small.
Qed.

Lemma byte_in_unit D u k : 0 ≤ k < us → byte_at D (u * us + k) = nth (Z.to_nat k) (D u) Init.Byte.x00.
Proof. intros Hk. unfold byte_at. by destruct (unit_of u k Hk) as [-> ->]. Qed.

Lemma nth_some (l : bytes) (k : nat) b : l !! k = Some b → nth k l Init.Byte.x00 = b.
Proof. intros Hl. by apply nth_lookup_Some. Qed.

(** A slice of a unit. *)
Lemma slice_bytes D u (a b : Z) :
  sized D u → 0 ≤ a ≤ b → b ≤ us → slice (Z.to_nat a, Z.to_nat b) (D u) = map (byte_at D) (seqZ (u * us + a) (b - a)).
Proof.
  intros Hs Ha Hb. unfold slice. cbn [fst snd]. unfold sized in Hs. apply list_eq. intros k.
  rewrite list_lookup_fmap. destruct (decide (k < Z.to_nat (b - a))%nat) as [Hk|Hk].
  - rewrite lookup_take_lt by lia. rewrite lookup_drop, lookup_seqZ_lt by lia. cbn.
    rewrite <- Z.add_assoc, byte_in_unit by lia.
    destruct (D u !! (Z.to_nat a + k)%nat) as [c|] eqn:Hc; [|apply lookup_ge_None in Hc; lia].
    f_equal. symmetry. apply nth_some. rewrite <- Hc. f_equal. lia.
  - rewrite lookup_take_ge by lia. rewrite lookup_seqZ_ge by lia. done.
Qed.

(** The parts of a request in its units. *)
Lemma part_range offset len u :
  0 < len → 0 ≤ offset → first_unit cf offset ≤ u ≤ last_unit cf offset len →
  0 ≤ part_from cf offset u ≤ part_to cf offset len u ∧ part_to cf offset len u ≤ us ∧
  u * us + part_from cf offset u = Z.max offset (u * us) ∧
  u * us + part_to cf offset len u = Z.min (offset + len) (u * us + us).
Proof.
  intros Hl Ho [Hf Hla]. unfold first_unit, last_unit, part_from, part_to in *.
  assert (offset < (u + 1) * us) as Hx.
  { pose proof (Z.mul_succ_div_gt offset us unit_positive). nia. }
  assert (u * us ≤ offset + len - 1) as Hy.
  { pose proof (Z.mul_div_le (offset + len - 1) us unit_positive). nia. }
  lia.
Qed.

Lemma part_bytes D offset len u :
  0 < len → 0 ≤ offset → first_unit cf offset ≤ u ≤ last_unit cf offset len → sized D u →
  part cf offset len u (D u) =
  map (byte_at D) (seqZ (Z.max offset (u * us)) (Z.min (offset + len) (u * us + us) - Z.max offset (u * us))).
Proof.
  intros Hl Ho Hu Hs. destruct (part_range offset len u Hl Ho Hu) as (Hft & Ht & Hf' & Ht').
  unfold part. rewrite slice_bytes by (done || lia). rewrite Hf'. do 2 f_equal. lia.
Qed.

(** Unit after unit gives the whole range. *)
Lemma parts_concat D offset len :
  0 < len → 0 ≤ offset → (∀ u, first_unit cf offset ≤ u ≤ last_unit cf offset len → sized D u) →
  concat (map (λ u, part cf offset len u (D u)) (unit_range (first_unit cf offset) (last_unit cf offset len)))
  = device_read D offset len.
Proof.
  intros Hl Ho Hs. set (fu := first_unit cf offset) in *. set (lu := last_unit cf offset len) in *.
  pose proof (Z.mul_div_le offset us unit_positive) as Hflo. pose proof (Z.mul_succ_div_gt offset us unit_positive) as Hfhi.
  pose proof (Z.mul_div_le (offset + len - 1) us unit_positive) as Hllo.
  pose proof (Z.mul_succ_div_gt (offset + len - 1) us unit_positive) as Hlhi.
  assert (fu ≤ lu) as Hfl by (apply Z.div_le_mono; lia).
  assert (∀ n : nat, fu + Z.of_nat n ≤ lu + 1 → (0 < n)%nat →
    concat (map (λ u, part cf offset len u (D u)) (seqZ fu (Z.of_nat n))) =
    map (byte_at D) (seqZ offset (Z.min (offset + len) ((fu + Z.of_nat n) * us) - offset))) as Hgo.
  { induction n as [|n IH]; intros Hn Hp; [lia|]. rewrite Nat2Z.inj_succ, <- Z.add_1_r, seqZ_app by lia.
    rewrite map_app, concat_app. change (seqZ (fu + Z.of_nat n) 1) with [fu + Z.of_nat n]. cbn [map concat]. rewrite app_nil_r.
    rewrite part_bytes by (try apply Hs; unfold fu, lu in *; lia).
    fold fu in Hflo, Hfhi. unfold first_unit in *. fold fu in Hflo, Hfhi.
    replace (fu * us) with (us * fu) by lia.
    destruct n as [|n].
    - change (seqZ fu (Z.of_nat 0)) with (@nil Z). cbn [map concat app]. rewrite Z.max_l by (unfold fu, first_unit in *; lia). do 2 f_equal. lia.
    - rewrite IH by lia. rewrite <- map_app. f_equal.
      assert (us * lu ≤ offset + len - 1) as Hlu by (unfold lu, last_unit; lia).
      assert ((fu + Z.of_nat (S n)) * us ≤ us * lu) as Hle by nia.
      assert (us * (fu + 1) ≤ (fu + Z.of_nat (S n)) * us) as Hge by nia.
      assert (offset < us * (fu + 1)) as Hof by (unfold fu, first_unit; lia).
      rewrite Z.max_r by lia. rewrite (Z.min_r (offset + len)) by lia.
      replace ((fu + Z.of_nat (S n)) * us) with (offset + ((fu + Z.of_nat (S n)) * us - offset)) at 2 by lia.
      rewrite <- seqZ_app by lia. f_equal. lia. }
  unfold unit_range, device_read. rewrite <- (Z2Nat.id (lu - fu + 1)) by lia. rewrite Hgo by lia. do 2 f_equal.
  rewrite Z2Nat.id by lia. assert (offset + len ≤ (lu + 1) * us) by (unfold lu, last_unit; lia). lia.
Qed.

Lemma assemble_read D offset len plain hits :
  0 < len → 0 ≤ offset → (∀ u, first_unit cf offset ≤ u ≤ last_unit cf offset len → sized D u) →
  (∀ u d, plain !! u = Some d → d = D u) → (∀ u d, hits !! u = Some d → d = D u) →
  (∀ u, first_unit cf offset ≤ u ≤ last_unit cf offset len → plain !! u = None → hits !! u = None → D u = zeros us) →
  assemble cf offset len plain hits = device_read D offset len.
Proof.
  intros Hl Ho Hs Hp Hh Hz. rewrite <- parts_concat by done. unfold assemble. f_equal. apply list_fmap_ext.
  intros k u Hu%list_elem_of_lookup_2%elem_of_seqZ.
  assert (first_unit cf offset ≤ u ≤ last_unit cf offset len) as Hr by lia.
  destruct (plain !! u) as [d|] eqn:Hpu; [by rewrite (Hp _ _ Hpu)|].
  destruct (hits !! u) as [d|] eqn:Hhu; [by rewrite (Hh _ _ Hhu)|].
  rewrite (Hz u Hr Hpu Hhu). destruct (part_range offset len u Hl Ho Hr) as (? & ? & _).
  unfold part, slice, zeros. cbn [fst snd]. rewrite drop_replicate, take_replicate. f_equal. lia.
Qed.

(** ** Writes *)

Lemma overwrite_lookup (at_ : nat) (new old : bytes) (k : nat) :
  (at_ + length new ≤ length old)%nat →
  overwrite at_ new old !! k = if decide (at_ ≤ k < at_ + length new)%nat then new !! (k - at_)%nat else old !! k.
Proof.
  intros Hl. unfold overwrite. assert (length (take at_ old) = at_) as Hta by (rewrite length_take; lia).
  destruct (decide (k < at_)%nat) as [Hk|Hk].
  - rewrite lookup_app_l, lookup_take_lt by lia. by rewrite decide_False by lia.
  - rewrite lookup_app_r, Hta by lia. destruct (decide (k < at_ + length new)%nat) as [Hk'|Hk'].
    + rewrite lookup_app_l by lia. by rewrite decide_True by lia.
    + rewrite lookup_app_r, lookup_drop, decide_False by lia. f_equal. lia.
Qed.

Lemma length_overwrite (at_ : nat) (new old : bytes) :
  (at_ + length new ≤ length old)%nat → length (overwrite at_ new old) = length old.
Proof. intros Hl. unfold overwrite. rewrite !length_app, length_take, length_drop. lia. Qed.

Lemma length_zero_unit n : length (zeros n) = Z.to_nat n.
Proof. apply length_replicate. Qed.

Lemma source_spec offset data u :
  0 < input_len data → 0 ≤ offset → first_unit cf offset ≤ u ≤ last_unit cf offset (input_len data) →
  let a := part_from cf offset u in let b := part_to cf offset (input_len data) u in
  length (source cf offset data u) = Z.to_nat (b - a) ∧
  ∀ k, a ≤ k < b → source cf offset data u !! Z.to_nat (k - a) = Some (data_at data (u * us + k - offset)).
Proof.
  intros Hl Ho Hu a b. destruct (part_range offset _ u Hl Ho Hu) as (Hab & Hbu & Hea & Heb).
  fold a in Hab, Hea. fold b in Hab, Hbu, Heb. unfold source, data_at. fold a b. destruct data as [bs|n].
  - cbn [input_len] in *. unfold blen in *. split.
    + rewrite length_take, length_drop. lia.
    + intros k Hk. rewrite lookup_take_lt, lookup_drop by lia.
      replace (Z.to_nat (Z.max offset (u * us) - offset) + Z.to_nat (k - a))%nat with (Z.to_nat (u * us + k - offset)) by lia.
      destruct (bs !! Z.to_nat (u * us + k - offset)) as [c|] eqn:Hc; [|apply lookup_ge_None in Hc; lia].
      f_equal. symmetry. by apply nth_some.
  - split; [apply length_zero_unit|]. intros k Hk. unfold zeros. rewrite lookup_replicate_2 by lia. done.
Qed.

Lemma length_updated D offset data u : length (updated D offset data u) = Z.to_nat us.
Proof. unfold updated. by rewrite length_map, length_seqZ. Qed.

Lemma updated_lookup D offset data u (k : nat) :
  Z.of_nat k < us → updated D offset data u !! k =
  Some (let i := u * us + Z.of_nat k in
        if bool_decide (offset ≤ i < offset + input_len data) then data_at data (i - offset) else byte_at D i).
Proof. intros Hk. unfold updated. rewrite list_lookup_fmap, lookup_seqZ_lt by lia. cbn. by rewrite Z.add_0_l. Qed.

Lemma unit_byte D u (k : nat) : sized D u → Z.of_nat k < us → D u !! k = Some (byte_at D (u * us + Z.of_nat k)).
Proof.
  intros Hs Hk. rewrite byte_in_unit by lia. unfold sized in Hs. destruct (D u !! k) as [c|] eqn:Hc; [|apply lookup_ge_None in Hc; lia].
  f_equal. symmetry. apply nth_some. by rewrite Nat2Z.id.
Qed.

Lemma build_updated D offset data need existing u :
  0 < input_len data → 0 ≤ offset → first_unit cf offset ≤ u ≤ last_unit cf offset (input_len data) → sized D u →
  (∀ d, existing !! u = Some d → d = D u) →
  (is_full cf offset (input_len data) u = false → u ∈ need ∧ (existing !! u = None → D u = zeros us)) →
  build_item cf offset data need existing u = mkPlaintextUnit u (updated D offset data u).
Proof.
  intros Hl Ho Hu Hs He Hf. unfold build_item. f_equal.
  set (old := if bool_decide (u ∈ need) then _ else _).
  assert (length old = Z.to_nat us ∧ (is_full cf offset (input_len data) u = false → old = D u)) as [Hlen Hold].
  { unfold old. split.
    - destruct (bool_decide _); [|apply length_zero_unit]. destruct (existing !! u) as [d|]; cbn; [by rewrite (He d eq_refl)|apply length_zero_unit].
    - intros Hx. destruct (Hf Hx) as [Hn Hz]. rewrite bool_decide_true by done.
      destruct (existing !! u) as [d|]; cbn; [by apply He|]. symmetry. by apply Hz. }
  destruct (part_range offset _ u Hl Ho Hu) as (Hab & Hbu & Hea & Heb).
  destruct (source_spec offset data u Hl Ho Hu) as [Hsl Hsrc].
  set (a := part_from cf offset u) in *. set (b := part_to cf offset (input_len data) u) in *.
  apply list_eq. intros k. rewrite overwrite_lookup by lia. destruct (decide (Z.of_nat k < us)) as [Hk|Hk].
  2:{ rewrite decide_False by lia. rewrite (lookup_ge_None_2 old) by lia. symmetry. apply lookup_ge_None_2. rewrite length_updated. lia. }
  rewrite updated_lookup by done. cbv zeta. destruct (decide _) as [Hin|Hout].
  - rewrite bool_decide_true by lia. replace (k - Z.to_nat a)%nat with (Z.to_nat (Z.of_nat k - a)) by lia. apply Hsrc. lia.
  - rewrite bool_decide_false by lia. rewrite Hold; [by apply unit_byte|].
    unfold is_full. apply not_true_iff_false. rewrite andb_true_iff, !Z.leb_le. intros [Hx Hy]. lia.
Qed.

Lemma updated_outside D offset data u :
  0 < input_len data → 0 ≤ offset → sized D u → ¬ first_unit cf offset ≤ u ≤ last_unit cf offset (input_len data) →
  updated D offset data u = D u.
Proof.
  intros Hl Ho Hs Hu. apply list_eq. intros k. destruct (decide (Z.of_nat k < us)) as [Hk|Hk].
  2:{ rewrite !lookup_ge_None_2; [done|unfold sized in Hs; lia|rewrite length_updated; lia]. }
  rewrite updated_lookup, (unit_byte D) by done. cbv zeta. rewrite bool_decide_false; [done|]. intros Hi. apply Hu.
  unfold first_unit, last_unit. split; [apply Z.lt_succ_r, Z.div_lt_upper_bound; nia|apply Z.div_le_lower_bound; nia].
Qed.

(** A unit after a write depends on the unit before it. *)
Lemma updated_ext D D' offset data u : D u = D' u → updated D offset data u = updated D' offset data u.
Proof.
  intros He. unfold updated. apply list_fmap_ext. intros n k [-> Hk]%lookup_seqZ. cbv zeta.
  destruct (bool_decide _); [done|]. rewrite !byte_in_unit by lia. by rewrite He.
Qed.

(** What [updated] says of bytes. *)
Lemma updated_byte D offset data i :
  byte_at (updated D offset data) i =
  if bool_decide (offset ≤ i < offset + input_len data) then data_at data (i - offset) else byte_at D i.
Proof.
  pose proof (Z.mod_pos_bound i us unit_positive). pose proof (Z.div_mod i us ltac:(lia)) as Hi.
  rewrite Hi at 1. rewrite (Z.mul_comm us), byte_in_unit by lia. apply nth_some.
  rewrite updated_lookup by lia. cbv zeta. rewrite Z2Nat.id by lia. replace (i / us * us + i mod us) with i by lia. done.
Qed.
End Bytes.
