(* ===== verification/EngineProof.v ===== *)
(** * EngineProof: the sections of the engine's requests

    The abstract device gives every unit its plaintext.  The ghost state of
    the engine has what the volume is known to show, the plaintext of every
    version ever published (the cache may hold any of them), and the history
    of the device: one change for every section that appended records.  Each
    section is proved against it once, whatever else the engine is doing. *)

From S2P Require Import Prelude BTreeMap Codec Layout Geometry AbRecord Metadata Superblock JournalFormat Backing Provider CrashBacking AbStore FixedCopy DurableProof JournalWriter JournalProof JournalDurability RecoveryScan Volumes JournalScan SlotStore Recovery StoreData StoreProof StoreReads StoreOpen StoreRuns Overlay Volume VolumeState VolumeOps VolumeCheckpoint VolumeRuns Cache Tasks Engine EngineBytes.
Import Store Volume Engine.
Import (hints) Metadata.Catalog Metadata.Allocation Metadata.Checkpoint.

Local Open Scope Z_scope.

(** What the engine relies on in a provider under its context: some relation
    between units, ciphertexts and plaintexts that encryption establishes and
    decryption reads off.  Nothing is asked of answers of the wrong shape. *)
Class CipherLaws (P : Type) `{CryptoProvider P} (context : CryptoContext) := {
  ciphers : Z → bytes → bytes → Prop;
  law_encrypt its p out p' :
    encrypt_batch context its p = (Ok out, p') →
    Forall2 (λ it ct, cu_index ct = pu_index it) its out →
    Forall2 (λ it ct, ciphers (pu_index it) (cu_data ct) (pu_data it)) its out;
  law_decrypt cts p out p' d :
    decrypt_batch context cts p = (Ok out, p') →
    Forall2 (λ ct pt, pu_index pt = cu_index ct) cts out →
    Forall2 (λ ct pt, ciphers (cu_index ct) (cu_data ct) (d ct) → pu_data pt = d ct) cts out
}.

Section Sections.
Context `{Crc32} `{BackingLaws W F} `{HasherLaws HT} `{HashOrder} `{CryptoProvider P}.
Context (cf : EngineConfig) `{!CipherLaws P (cf_context cf)}.
Hypothesis geometry_ok : geometry_wf (cf_geometry cf).
Abbreviation Volume := (Volume (F := F) (HT := HT)).
Abbreviation Engine := (Engine (W := W) (F := F) (HT := HT) (P := P)).
Implicit Types (V : Volume) (w : W) (u : Z) (e : Engine) (a : abstract).

(** ** The device *)

Implicit Types (D : device_state) (known : gmap (Z * Z) bytes).

Definition on_device u : Prop := 0 ≤ u < num_units (cf_geometry cf).

Abbreviation usize := (Z.to_nat (unit_size cf)).

(** The version the volume shows holds the unit's plaintext. *)
Definition represents known u (x : SlotRead) (d : bytes) : Prop :=
  match x with
  | SlotZero => d = zeros (unit_size cf)
  | SlotCiphertext n ct => known !! (u, n) = Some d ∧ ciphers u ct d
  end.

Record content known a D : Prop := {
  ct_shown u : on_device u → ∃ x, a_units a !! u = Some x ∧ represents known u x (D u);
  ct_size u : on_device u → length (D u) = usize;
  ct_last u n d : known !! (u, n) = Some d → n ≤ a_last a
}.

(** ** The volume *)

Record vol_inv a V w : Prop := {
  vi_ok : ∃ L, volume_ok L V w;
  vi_shows : shows a V w;
  vi_geometry : vgeom V = cf_geometry cf;
  vi_discard : supports_discard V = cf_supports_discard cf
}.

(** What a section leaves to a checkpoint that is under way. *)
Definition vol_moves V w V' w' : Prop :=
  (∀ f, phase_ok V w f → phase_ok V' w' f) ∧
  journal_durable_sequence V ≤ journal_durable_sequence V' ∧
  journal_appended_sequence V ≤ journal_appended_sequence V'.

Lemma vol_moves_refl V w : vol_moves V w V w.
Proof. split; [done|]. lia. Qed.

Lemma vol_moves_trans V w V1 w1 V2 w2 : vol_moves V w V1 w1 → vol_moves V1 w1 V2 w2 → vol_moves V w V2 w2.
Proof. intros (Hf1 & ? & ?) (Hf2 & ? & ?). split; [auto|lia]. Qed.

(** An operation under the volume lock, at any point of a checkpoint. *)
Lemma vol_op a V w ev V' w' :
  vol_inv a V w → (∀ f, step (mkSystem V w f) ev (mkSystem V' w' f)) →
  ∃ a', spec (cf_supports_discard cf) a ev a' ∧ vol_inv a' V' w' ∧ vol_moves V w V' w'.
Proof.
  intros [[L Hok] Hsh Hg Hd] Hst.
  destruct (step_simulates a _ _ _ (conj (ex_intro _ L Hok) I : good (mkSystem V w Idle)) (Hst Idle))
    as ([Hok' _] & Hg' & Hd' & Hmono & Hs). destruct (Hs Hsh) as (a' & Hsp & Hsh').
  cbn [sys_volume sys_world] in *. rewrite Hd in Hsp. exists a'. split; [done|]. split; [split; congruence || done|].
  split; [|done]. intros f Hf.
  by destruct (step_simulates a _ _ _ (conj (ex_intro _ L Hok) Hf : good (mkSystem V w f)) (Hst f)) as ([_ ?] & _).
Qed.

Lemma on_device_ok a V w u : vol_inv a V w → on_device u → device (vo_store V) u.
Proof. intros Hv Hu. unfold device. pose proof (vi_geometry _ _ _ Hv) as Hg. unfold vgeom in Hg. by rewrite Hg. Qed.

(** Reads show the known version or fail in the storage. *)
Lemma vol_read a V w u r V' w' x :
  vol_inv a V w → on_device u → a_units a !! u = Some x → read_ct u (V, w) = (r, (V', w')) →
  vol_inv a V' w' ∧ vol_moves V w V' w' ∧ or_io r (as_found x).
Proof.
  intros Hv Hu Hx Hr. pose proof (on_device_ok _ _ _ _ Hv Hu) as Hdu.
  destruct (vol_op a V w (EvRead u r) V' w' Hv) as (a' & Hs & Hv' & Hm); [by constructor|].
  inversion Hs; subst. auto.
Qed.

Lemma vol_sequence a V w u r V' w' x :
  vol_inv a V w → on_device u → a_units a !! u = Some x → current_sequence u (V, w) = (r, (V', w')) →
  vol_inv a V' w' ∧ vol_moves V w V' w' ∧ or_io r (found_sequence x).
Proof.
  intros Hv Hu Hx Hr. pose proof (on_device_ok _ _ _ _ Hv Hu) as Hdu.
  destruct (vol_op a V w (EvSequence u r) V' w' Hv) as (a' & Hs & Hv' & Hm); [by constructor|].
  inversion Hs; subst. auto.
Qed.

(** ** The cache *)

Definition cached e u (en : Cache.Entry) : Prop :=
  ∃ c, en_cache e = Some c ∧ Cache.map (Cache.inner c) !! u = Some en.

(** Every entry is the plaintext of its version. *)
Definition cache_true known e : Prop :=
  ∀ u en, cached e u en → known !! (u, Cache.write_sequence en) = Some (Cache.data en).

Definition cache_sub e e' : Prop :=
  ∀ u en', cached e' u en' → ∃ en, cached e u en ∧
    Cache.write_sequence en = Cache.write_sequence en' ∧ Cache.data en = Cache.data en'.

Lemma cache_sub_refl e : cache_sub e e.
Proof. intros u en He. by exists en. Qed.

Lemma cache_sub_same e e' : en_cache e' = en_cache e → cache_sub e e'.
Proof. intros He u en (c & Hc & Hm). exists en. split; [|done]. exists c. by rewrite <- He. Qed.

Lemma cache_sub_trans e e1 e2 : cache_sub e e1 → cache_sub e1 e2 → cache_sub e e2.
Proof.
  intros Hs1 Hs2 u en2 (en1 & Hc & Hs & Hd)%Hs2. destruct (Hs1 _ _ Hc) as (en & Hc' & ? & ?). exists en. split; [done|]. split; congruence.
Qed.

Lemma cache_true_sub known e e' : cache_sub e e' → cache_true known e → cache_true known e'.
Proof. intros Hs Ht u en' (en & Hc & <- & <-)%Hs. by apply Ht. Qed.

Lemma cache_true_same known e e' : en_cache e' = en_cache e → cache_true known e → cache_true known e'.
Proof. intros He Ht u en (c & Hc & Hm). apply Ht. exists c. by rewrite <- He. Qed.

Lemma make_room_sub n i : Cache.map (Cache.make_room n i) ⊆ Cache.map i.
Proof.
  unfold Cache.make_room. generalize (S (base.size (Cache.recency i))). intros fuel. revert i.
  induction fuel as [|fuel IH]; intros i; cbn; [done|]. destruct (_ <? _); [|done].
  destruct (first_key_value _) as [[t v]|]; [|done]. etrans; [apply IH|apply Cache.remove_sub].
Qed.

(** The entry a lookup finds and what it leaves. *)
Lemma cache_get_ok known u n e r e' :
  cache_true known e → cache_get u n e = (r, e') →
  e' = set_cache (en_cache e') e ∧ cache_sub e e' ∧ ∃ o, r = Ok o ∧ ∀ d, o = Some d → known !! (u, n) = Some d.
Proof.
  intros Ht. unfold cache_get. destruct (en_cache e) as [c|] eqn:Hc.
  2:{ intros [= <- <-]. split; [by rewrite Hc; destruct e; cbn in *; subst|]. split; [apply cache_sub_refl|]. exists None. by split. }
  destruct (Cache.get (en_now e) u n c) as [c' o] eqn:Hg. intros [= <- <-]. split; [done|]. split.
  - intros v en' (c1 & [= <-] & Hm). destruct (Cache.get_state _ _ _ _ _ _ Hg) as [Hi|[Hi|Hi]]; rewrite Hi in Hm.
    + exists en'. split; [by exists c|done].
    + exists en'. split; [exists c; split; [done|]|done]. by eapply lookup_weaken, Cache.remove_sub.
    + unfold Cache.touch in Hm. cbn in Hm. destruct (Cache.map (Cache.inner c) !! u) as [en|] eqn:Hu; cbn in Hm.
      * apply lookup_insert_Some in Hm as [[<- <-]|[Hne Hm]]; [exists en|exists en']; (split; [by exists c|done]).
      * exists en'. split; [by exists c|done].
  - exists o. split; [done|]. intros d ->. destruct (Cache.get_hit _ _ _ _ _ _ Hg) as (en & Hm & <- & <- & _).
    apply Ht. by exists c.
Qed.

Lemma cache_put_ok known u n d e r e' :
  cache_true known e → known !! (u, n) = Some d → cache_put u n d e = (r, e') →
  e' = set_cache (en_cache e') e ∧ r = Ok tt ∧ cache_true known e'.
Proof.
  intros Ht Hk [= <- <-]. split; [done|]. split; [done|]. intros v en (c' & Hc' & Hm). cbn in Hc'.
  apply fmap_Some in Hc' as (c & Hc & ->). cbn in Hm.
  assert (∀ en, Cache.map (Cache.inner c) !! v = Some en → known !! (v, Cache.write_sequence en) = Some (Cache.data en)) as Hold.
  { intros en0 Hm0. apply Ht. by exists c. }
  destruct (Cache.put_inner_cases (en_now e) u n d (Cache.inner c)) as [Hi|[Hi|(_ & Hi)]]; rewrite Hi in Hm.
  - by apply Hold.
  - apply Hold. by eapply lookup_weaken, Cache.remove_sub.
  - unfold Cache.insert_at, Cache.next_tick in Hm. cbn in Hm. apply lookup_insert_Some in Hm as [[<- <-]|[_ Hm]]; [done|].
    apply Hold. eapply lookup_weaken, Cache.remove_sub. eapply lookup_weaken, make_room_sub. exact Hm.
Qed.

Lemma cache_invalidate_ok u e r e' :
  cache_invalidate u e = (r, e') → e' = set_cache (en_cache e') e ∧ r = Ok tt ∧ cache_sub e e'.
Proof.
  intros [= <- <-]. split; [done|]. split; [done|]. intros v en (c' & Hc' & Hm). cbn in Hc'.
  apply fmap_Some in Hc' as (c & Hc & ->). exists en. split; [|done]. exists c. split; [done|].
  eapply lookup_weaken; [exact Hm|apply Cache.remove_sub].
Qed.

(** ** Sections that only look *)

Abbreviation running e := (failed (en_status e) = false).
Abbreviation evol_inv a e := (vol_inv a (en_volume e) (en_world e)).
Abbreviation evol_moves e e' := (vol_moves (en_volume e) (en_world e) (en_volume e') (en_world e')).

Record rests a e e' : Prop := {
  rs_failed : failed (en_status e') = failed (en_status e);
  rs_volume : running e → evol_inv a e → evol_inv a e' ∧ evol_moves e e';
  rs_cache : cache_sub e e'
}.

Lemma rests_refl a e : rests a e e.
Proof. split; [done| |apply cache_sub_refl]. intros _ Hv. split; [done|apply vol_moves_refl]. Qed.

Lemma rests_trans a e e1 e2 : rests a e e1 → rests a e1 e2 → rests a e e2.
Proof.
  intros [F1 V1 C1] [F2 V2 C2]. split; [congruence| |by eapply cache_sub_trans].
  intros Hr Hv. destruct (V1 Hr Hv) as [Hv1 Hm1]. destruct (V2 ltac:(congruence) Hv1) as [Hv2 Hm2].
  split; [done|by eapply vol_moves_trans].
Qed.

(** [m] looks at an engine that shows [a] and caches plaintexts of [known]. *)
Definition looks {A} known a (m : M Engine CoreError A) (Q : A → Prop) : Prop :=
  ∀ e r e', running e → evol_inv a e → cache_true known e → m e = (r, e') → rests a e e' ∧ ∀ x, r = Ok x → Q x.

Lemma looks_bind {A B} known a (m : M Engine CoreError A) (k : A → M Engine CoreError B) Q R :
  looks known a m Q → (∀ x, Q x → looks known a (k x) R) → looks known a (m_bind m k) R.
Proof.
  intros Hm Hk e r e' Hr Hv Hc Hrun. apply m_bind_inv in Hrun as [(x & e1 & H1' & H2')|(er & H1' & ->)];
    destruct (Hm _ _ _ Hr Hv Hc H1') as [Hrs Hq]; [|split; [done|by intros]].
  destruct (rs_volume _ _ _ Hrs Hr Hv) as [Hv1 _].
  destruct (Hk x (Hq _ eq_refl) e1 r e' ltac:(rewrite (rs_failed _ _ _ Hrs); done) Hv1 (cache_true_sub _ _ _ (rs_cache _ _ _ Hrs) Hc) H2') as [Hrs2 HR].
  split; [by eapply rests_trans|done].
Qed.

Lemma looks_ret {A} known a (x : A) (Q : A → Prop) : Q x → looks known a (m_ret x) Q.
Proof. intros Hq e r e' _ _ _ [= <- <-]. split; [apply rests_refl|]. by intros y [= <-]. Qed.

Lemma looks_engine known a : looks known a get_engine (λ _, True).
Proof. intros e r e' _ _ _ [= <- <-]. split; [apply rests_refl|done]. Qed.

Lemma looks_running known a : looks known a check_running (λ _, True).
Proof. intros e r e' Hr _ _ [= <- <-]. split; [apply rests_refl|done]. Qed.

Lemma rests_volume a e V' w' :
  (evol_inv a e → vol_inv a V' w' ∧ vol_moves (en_volume e) (en_world e) V' w') → rests a e (set_volume V' w' e).
Proof. intros Hv. split; [done|by intros _|]. by apply cache_sub_same. Qed.

Lemma on_volume_inv {A} (m : M (Volume * W) CoreError A) e r e' :
  on_volume m e = (r, e') → ∃ V' w', m (en_volume e, en_world e) = (r, (V', w')) ∧ e' = set_volume V' w' e.
Proof. unfold on_volume. destruct (m _) as [r0 [V' w']]. intros [= <- <-]. eauto. Qed.

Lemma looks_read known a u x :
  on_device u → a_units a !! u = Some x → looks known a (on_volume (read_ct u)) (λ o, o = as_found x).
Proof.
  intros Hu Hx e r e' Hr Hv Hc (V' & w' & Hm & ->)%on_volume_inv.
  destruct (vol_read _ _ _ _ _ _ _ _ Hv Hu Hx Hm) as (Hv' & Hmv & Hor). split; [by apply rests_volume|].
  intros y ->. by destruct Hor as [[= ->]|[er [=]]].
Qed.

Lemma looks_sequence known a u x :
  on_device u → a_units a !! u = Some x → looks known a (on_volume (current_sequence u)) (λ o, o = found_sequence x).
Proof.
  intros Hu Hx e r e' Hr Hv Hc (V' & w' & Hm & ->)%on_volume_inv.
  destruct (vol_sequence _ _ _ _ _ _ _ _ Hv Hu Hx Hm) as (Hv' & Hmv & Hor). split; [by apply rests_volume|].
  intros y ->. by destruct Hor as [[= ->]|[er [=]]].
Qed.

Lemma looks_get known a u n : looks known a (cache_get u n) (λ o, ∀ d, o = Some d → known !! (u, n) = Some d).
Proof.
  intros e r e' Hr Hv Hc Hg. destruct (cache_get_ok _ _ _ _ _ _ Hc Hg) as (He & Hs & o & -> & Hd). split.
  - rewrite He in *. split; [done| |done]. intros _ Hv'. split; [done|apply vol_moves_refl].
  - by intros y [= <-].
Qed.

(** *** Snapshots *)

(** What a snapshot of the units [us] holds of the device [D]. *)
Record snap_ok known D (us : list Z) (sn : Snapshot) : Prop := {
  so_hit u d : sn_cached sn !! u = Some d → d = D u;
  so_ct ct : ct ∈ sn_cts sn → ciphers (cu_index ct) (cu_data ct) (D (cu_index ct));
  so_seq ct : ct ∈ sn_cts sn → ∃ n, sn_seqs sn !! cu_index ct = Some n ∧ known !! (cu_index ct, n) = Some (D (cu_index ct));
  so_all u : u ∈ us → is_Some (sn_cached sn !! u) ∨ (∃ ct, ct ∈ sn_cts sn ∧ cu_index ct = u) ∨ D u = zeros (unit_size cf)
}.

Lemma snap_hit known D us sn u d : d = D u → snap_ok known D us sn → snap_ok known D (us ++ [u]) (take_hit u d sn).
Proof.
  intros -> [Hh Hc Hs Ha]. split; cbn; [|done|done|].
  - intros v d. rewrite lookup_insert_Some. intros [[<- <-]|[_ Hv]]; [done|by apply Hh].
  - intros v [Hv| ->%list_elem_of_singleton]%elem_of_app; [|left; rewrite lookup_insert_eq; eauto].
    destruct (Ha v Hv) as [Hx|Hx]; [left; by apply lookup_insert_is_Some'; right|by right].
Qed.

Lemma snap_ct known D us sn u n c :
  known !! (u, n) = Some (D u) → ciphers u c (D u) → snap_ok known D us sn → snap_ok known D (us ++ [u]) (take_ct u n c sn).
Proof.
  intros Hk Hcu [Hh Hc Hs Ha]. split; cbn; [done|..].
  - intros ct [Hct| ->%list_elem_of_singleton]%elem_of_app; [by apply Hc|done].
  - intros ct [Hct| ->%list_elem_of_singleton]%elem_of_app; cbn; [|exists n; by rewrite lookup_insert_eq].
    destruct (decide (cu_index ct = u)) as [->|Hne]; [exists n; by rewrite lookup_insert_eq|].
    rewrite lookup_insert_ne by done. by apply Hs.
  - intros v [Hv| ->%list_elem_of_singleton]%elem_of_app.
    + destruct (Ha v Hv) as [Hx|[(ct & Hct & Hi)|Hx]]; [by left| |by right; right].
      right; left. exists ct. split; [|done]. apply elem_of_app. by left.
    + right; left. exists (mkCiphertextUnit u c). split; [|done]. apply elem_of_app. right. by apply list_elem_of_singleton.
Qed.

Lemma snap_zero known D us sn u : D u = zeros (unit_size cf) → snap_ok known D us sn → snap_ok known D (us ++ [u]) sn.
Proof.
  intros Hz [Hh Hc Hs Ha]. split; try done. intros v [Hv| ->%list_elem_of_singleton]%elem_of_app; [by apply Ha|by right; right].
Qed.

Lemma looks_snap_found known D us sn u x :
  represents known u x (D u) → snap_ok known D us sn →
  match as_found x with
  | Some (n, c) => known !! (u, n) = Some (D u) ∧ snap_ok known D (us ++ [u]) (take_ct u n c sn)
  | None => snap_ok known D (us ++ [u]) sn
  end.
Proof.
  intros Hx Hs. destruct x as [|n c]; cbn in *; [by apply snap_zero|]. destruct Hx. split; [done|by apply snap_ct].
Qed.

Lemma looks_miss known a D us sn u x :
  on_device u → a_units a !! u = Some x → represents known u x (D u) → snap_ok known D us sn →
  looks known a (read_miss u sn) (snap_ok known D (us ++ [u])).
Proof.
  intros Hu Hx Hr Hs. eapply looks_bind; [by eapply looks_read|]. intros o ->.
  pose proof (looks_snap_found known D us sn u x Hr Hs) as Hf. destruct (as_found x) as [[n c]|]; apply looks_ret; [apply Hf|done].
Qed.

Lemma looks_unit known a D us sn u :
  content known a D → on_device u → snap_ok known D us sn → looks known a (read_unit cf u sn) (snap_ok known D (us ++ [u])).
Proof.
  intros Hc Hu Hs. destruct (ct_shown _ _ _ Hc u Hu) as (x & Hx & Hr). pose proof (looks_snap_found known D us sn u x Hr Hs) as Hf.
  eapply looks_bind; [apply looks_engine|]. intros e _. destruct (en_cache e); [|by eapply looks_miss].
  destruct (negb _).
  - eapply looks_bind; [by eapply looks_sequence|]. intros o ->. destruct x as [|n c]; cbn in *; [by apply looks_ret|].
    eapply looks_bind; [apply looks_get|]. intros o Ho. destruct o as [d|]; [|by eapply looks_miss].
    apply looks_ret, snap_hit; [|done]. specialize (Ho d eq_refl). destruct Hf. congruence.
  - eapply looks_bind; [by eapply looks_read|]. intros o ->. destruct (as_found x) as [[n c]|]; [|by apply looks_ret].
    eapply looks_bind; [apply looks_get|]. intros o Ho. destruct o as [d|]; apply looks_ret; [|apply Hf].
    apply snap_hit; [|done]. specialize (Ho d eq_refl). destruct Hf. congruence.
Qed.

Lemma looks_units known a D : content known a D → ∀ us us0 sn,
  Forall on_device us → snap_ok known D us0 sn → looks known a (read_units cf us sn) (snap_ok known D (us0 ++ us)).
Proof.
  intros Hc. induction us as [|u us IH]; intros us0 sn Hus Hs; cbn [read_units]; [rewrite app_nil_r; by apply looks_ret|].
  apply list.Forall_cons in Hus as [Hu Hus]. eapply looks_bind; [by eapply looks_unit|]. intros sn' Hs'.
  rewrite cons_middle, app_assoc. by apply IH.
Qed.

Lemma snap_empty known D : snap_ok known D [] (mkSnapshot ∅ [] ∅).
Proof. split; cbn; set_solver. Qed.

Lemma looks_snapshot known a D first last :
  content known a D → Forall on_device (unit_range first last) →
  looks known a (snapshot cf first last) (snap_ok known D (unit_range first last)).
Proof.
  intros Hc Hus. eapply looks_bind; [apply looks_running|]. intros _ _. apply (looks_units known a D Hc _ []); [done|apply snap_empty].
Qed.
(** *** The units a write covers in part *)

Record ex_ok D offset len (us : list Z) (ex : Existing) : Prop := {
  eo_hit u d : ex_cached ex !! u = Some d → d = D u;
  eo_ct ct : ct ∈ ex_cts ex → ciphers (cu_index ct) (cu_data ct) (D (cu_index ct));
  eo_need u : u ∈ us → is_full cf offset len u = false → u ∈ ex_need ex;
  eo_all u : u ∈ us → is_full cf offset len u = false →
    is_Some (ex_cached ex !! u) ∨ (∃ ct, ct ∈ ex_cts ex ∧ cu_index ct = u) ∨ D u = zeros (unit_size cf)
}.

(** A unit that is accounted for. *)
Lemma ex_extend D offset len us ex u :
  ex_ok D offset len us ex →
  (is_full cf offset len u = false → u ∈ ex_need ex ∧
    (is_Some (ex_cached ex !! u) ∨ (∃ ct, ct ∈ ex_cts ex ∧ cu_index ct = u) ∨ D u = zeros (unit_size cf))) →
  ex_ok D offset len (us ++ [u]) ex.
Proof.
  intros [Hh Hc Hn Ha] Hu. split; [done|done|..].
  - intros v [Hv| ->%list_elem_of_singleton]%elem_of_app Hf; [by apply Hn|by apply Hu].
  - intros v [Hv| ->%list_elem_of_singleton]%elem_of_app Hf; [by apply Ha|by apply Hu].
Qed.

Lemma ex_add_need D offset len us ex u : ex_ok D offset len us ex → ex_ok D offset len us (add_need u ex).
Proof. intros [Hh Hc Hn Ha]. split; cbn; [done|done| |done]. intros v Hv Hf. apply elem_of_app. left. by apply Hn. Qed.

Lemma ex_add_hit D offset len us ex u : ex_ok D offset len us ex → ex_ok D offset len us (add_hit u (D u) ex).
Proof.
  intros [Hh Hc Hn Ha]. split; cbn; [|done|done|].
  - intros v d. rewrite lookup_insert_Some. intros [[<- <-]|[_ Hv]]; [done|by apply Hh].
  - intros v Hv Hf. destruct (Ha v Hv Hf) as [Hx|Hx]; [left; apply lookup_insert_is_Some'; by right|by right].
Qed.

Lemma ex_add_ct D offset len us ex u c : ciphers u c (D u) → ex_ok D offset len us ex → ex_ok D offset len us (add_ct u c ex).
Proof.
  intros Hcu [Hh Hc Hn Ha]. split; cbn; [done| |done|].
  - intros ct [Hct| ->%list_elem_of_singleton]%elem_of_app; [by apply Hc|done].
  - intros v Hv Hf. destruct (Ha v Hv Hf) as [Hx|[(ct & Hct & Hi)|Hx]]; [by left| |by right; right].
    right; left. exists ct. split; [|done]. apply elem_of_app. by left.
Qed.

Lemma ex_done_hit D offset len us ex u d :
  d = D u → u ∈ ex_need ex → ex_ok D offset len us ex → ex_ok D offset len (us ++ [u]) (add_hit u d ex).
Proof.
  intros -> Hn Hex. apply ex_extend; [by apply ex_add_hit|]. intros _. split; [done|]. left. cbn. rewrite lookup_insert_eq. eauto.
Qed.

Lemma looks_rmw_read known a D offset len us ex u x :
  on_device u → a_units a !! u = Some x → represents known u x (D u) → u ∈ ex_need ex → ex_ok D offset len us ex →
  looks known a (rmw_read cf u ex) (ex_ok D offset len (us ++ [u])).
Proof.
  intros Hu Hx Hr Hn Hex. eapply looks_bind; [by eapply looks_read|]. intros o ->. destruct x as [|n c]; cbn in *.
  { apply looks_ret. apply ex_extend; [done|]. intros _. split; [done|]. by right; right. }
  destruct Hr as [Hk Hc].
  assert (ex_ok D offset len (us ++ [u]) (add_ct u c ex)) as Hct.
  { apply ex_extend; [by apply ex_add_ct|]. intros _. split; [done|]. right; left. exists (mkCiphertextUnit u c).
    split; [|done]. apply elem_of_app. right. by apply list_elem_of_singleton. }
  destruct (cf_verify_on_hit cf).
  - eapply looks_bind; [apply looks_get|]. intros o Ho. destruct o as [d|]; apply looks_ret; [|done].
    apply ex_done_hit; [|done|done]. specialize (Ho d eq_refl). congruence.
  - eapply looks_bind; [by apply (looks_ret known a None (λ o, o = None))|]. intros o ->. by apply looks_ret.
Qed.

Lemma looks_rmw_unit known a D offset len us ex u :
  content known a D → on_device u → ex_ok D offset len us ex →
  looks known a (rmw_unit cf offset len u ex) (ex_ok D offset len (us ++ [u])).
Proof.
  intros Hc Hu Hex. unfold rmw_unit. destruct (is_full cf offset len u) eqn:Hf.
  { apply looks_ret. apply ex_extend; [done|]. by rewrite Hf. }
  destruct (ct_shown _ _ _ Hc u Hu) as (x & Hx & Hr). set (ex1 := add_need u ex).
  assert (u ∈ ex_need ex1) as Hn by (apply elem_of_app; right; by apply list_elem_of_singleton).
  assert (ex_ok D offset len us ex1) as Hex1 by (by apply ex_add_need).
  pose proof (looks_rmw_read known a D offset len us ex1 u x Hu Hx Hr Hn Hex1) as Hread.
  eapply looks_bind; [apply looks_engine|]. intros e _. destruct (en_cache e); [|done]. destruct (negb _); [|done].
  eapply looks_bind; [by eapply looks_sequence|]. intros o ->. destruct x as [|n c]; cbn in *.
  { apply looks_ret, ex_extend; [done|]. intros _. split; [done|]. by right; right. }
  eapply looks_bind; [apply looks_get|]. intros o Ho. destruct o as [d|]; [|done].
  apply looks_ret, ex_done_hit; [|done|done]. specialize (Ho d eq_refl). destruct Hr. congruence.
Qed.

Lemma looks_rmw_units known a D offset len : content known a D → ∀ us us0 ex,
  Forall on_device us → ex_ok D offset len us0 ex → looks known a (rmw_units cf offset len us ex) (ex_ok D offset len (us0 ++ us)).
Proof.
  intros Hc. induction us as [|u us IH]; intros us0 ex Hus Hex; cbn [rmw_units]; [rewrite app_nil_r; by apply looks_ret|].
  apply list.Forall_cons in Hus as [Hu Hus]. eapply looks_bind; [by eapply looks_rmw_unit|]. intros ex' Hex'.
  rewrite cons_middle, app_assoc. by apply IH.
Qed.

Lemma looks_rmw known a D offset len :
  let us := unit_range (first_unit cf offset) (last_unit cf offset len) in
  content known a D → Forall on_device us → looks known a (rmw_section cf offset len) (ex_ok D offset len us).
Proof.
  intros us Hc Hus. eapply looks_bind; [apply looks_running|]. intros _ _.
  apply (looks_rmw_units known a D offset len Hc _ []); [done|]. split; cbn; set_solver.
Qed.

(** ** Provider calls *)

(** Only the provider moves. *)
Definition provider_only e e' : Prop := e' = set_provider (en_provider e') e.

Lemma provider_inv {A} (m : M (CheckedProvider (P := P)) CryptoError A) e r e' :
  on_provider m e = (r, e') → provider_only e e' ∧ ∀ x, r = Ok x → ∃ p', m (en_provider e) = (Ok x, p').
Proof.
  unfold on_provider, provider_only. destruct (m (en_provider e)) as [[x|er] p'] eqn:Hm; intros [= <- <-]; (split; [done|]); [|by intros].
  intros y [= <-]. eauto.
Qed.

Lemma decrypt_call cts D c out c' :
  checked_decrypt (cf_context cf) cts c = (Ok out, c') →
  (∀ ct, ct ∈ cts → ciphers (cu_index ct) (cu_data ct) (D (cu_index ct))) →
  Forall2 (λ ct pt, pu_index pt = cu_index ct ∧ pu_data pt = D (cu_index ct)) cts out.
Proof.
  unfold checked_decrypt. intros (caps & c1 & _ & Hr)%m_bind_ok Hc. apply m_bind_ok in Hr as (out' & c2 & Ho & Hr).
  apply m_bind_ok in Hr as ([] & c3 & Hv & Hr). injection Hv as Hv _. apply validate_decrypt_spec in Hv.
  assert (out' = out) as ->.
  { apply m_bind_ok in Hr as (sz & c4 & _ & Hr). destruct sz; [destruct (forallb _ _); [|done]|]; by injection Hr. }
  unfold on_inner in Ho. destruct (decrypt_batch (cf_context cf) cts (ck_inner c1)) as [r p'] eqn:Hd. injection Ho as -> _.
  assert (Forall2 (λ ct pt, pu_index pt = cu_index ct) cts out) as Hidx by (by eapply Forall2_impl; [|exact Hv]; intros ? ? []).
  pose proof (law_decrypt cts _ out _ (λ ct, D (cu_index ct)) Hd Hidx) as Hl.
  clear -Hidx Hl Hc. induction Hl as [|ct pt cts out Hx Hl IH]; [constructor|]. inversion Hidx; subst.
  constructor; [split; [done|apply Hx, Hc; by left]|]. apply IH; [|done]. intros ct' Hct. apply Hc. by right.
Qed.

Lemma encrypt_call its c out c' :
  checked_encrypt (cf_context cf) its c = (Ok out, c') →
  Forall2 (λ it ct, cu_index ct = pu_index it ∧ ciphers (pu_index it) (cu_data ct) (pu_data it)) its out.
Proof.
  unfold checked_encrypt. intros (caps & c1 & _ & Hr)%m_bind_ok. apply m_bind_ok in Hr as (out' & c2 & Ho & Hr).
  apply m_bind_ok in Hr as ([] & c3 & Hv & Hr). injection Hv as Hv _. apply validate_encrypt_spec in Hv. injection Hr as -> _.
  unfold on_inner in Ho. destruct (encrypt_batch (cf_context cf) its (ck_inner c1)) as [r p'] eqn:Hd. injection Ho as -> _.
  assert (Forall2 (λ it ct, cu_index ct = pu_index it) its out) as Hidx by (by eapply Forall2_impl; [|exact Hv]; intros ? ? []).
  pose proof (law_encrypt its _ out _ Hd Hidx) as Hl.
  apply Forall2_same_length_lookup. split; [by eapply Forall2_length|]. intros k it ct Hit Hct. split.
  - exact (Forall2_lookup_lr _ _ _ _ _ _ Hidx Hit Hct).
  - exact (Forall2_lookup_lr _ _ _ _ _ _ Hl Hit Hct).
Qed.

(** *** Batches *)

(** The ranges tile the items. *)
Lemma chunks_tile {A} (l : list A) : ∀ sizes i start bytes,
  (start ≤ i)%nat → (i + length sizes = length l)%nat →
  concat (map (λ r, slice r l) (chunks_from cf sizes i start bytes)) = drop start l.
Proof.
  induction sizes as [|sz sizes IH]; intros i start bytes Hs Hl; cbn [chunks_from].
  - simpl in Hl. destruct (Nat.ltb_spec start i).
    + cbn. unfold slice. cbn. rewrite app_nil_r, take_ge; [done|]. rewrite length_drop. lia.
    + cbn. by rewrite drop_ge by lia.
  - simpl in Hl. destruct (_ || _); [|apply IH; lia]. cbn [map concat]. rewrite IH by lia. unfold slice. cbn [fst snd].
    rewrite <- (take_drop (i - start) (drop start l)) at 2. rewrite drop_drop. do 2 f_equal. lia.
Qed.

Lemma batches_tile {A} (l : list A) sizes : length sizes = length l → concat (map (λ r, slice r l) (batch_chunks cf sizes)) = l.
Proof. intros Hl. unfold batch_chunks. rewrite (chunks_tile l sizes 0 0 0) by lia. done. Qed.

(** ** Sections that append *)

(** What is known of the engine: the volume's versions, their plaintexts and
    the device. *)
Record shadow := mkShadow { sh_abs : abstract; sh_known : gmap (Z * Z) bytes; sh_dev : device_state }.
Implicit Types (g : shadow).

Record tracks e g : Prop := {
  tr_running : running e;
  tr_volume : evol_inv (sh_abs g) e;
  tr_content : content (sh_known g) (sh_abs g) (sh_dev g);
  tr_cache : cache_true (sh_known g) e
}.

Lemma represents_mono known known' u x d : known ⊆ known' → represents known u x d → represents known' u x d.
Proof. intros Hk. destruct x as [|n c]; [done|]. intros [Hl Hc]. split; [by eapply lookup_weaken|done]. Qed.

Lemma cache_true_mono known known' e : known ⊆ known' → cache_true known e → cache_true known' e.
Proof. intros Hk Ht u en Hc. eapply lookup_weaken; [by apply Ht|done]. Qed.

(** A request on the units [U] that replaces contents by [new]. *)
Section Request.
Context (U : gset Z) (new : device_state).

Record advances e g e' g' : Prop := {
  av_tracks : tracks e' g';
  av_moves : evol_moves e e';
  av_known : sh_known g ⊆ sh_known g';
  av_units u : u ∉ U → sh_dev g' u = sh_dev g u ∧ a_units (sh_abs g') !! u = a_units (sh_abs g) !! u;
  av_dev u : sh_dev g' u = sh_dev g u ∨ sh_dev g' u = new u
}.

Lemma adv_refl e g : tracks e g → advances e g e g.
Proof. intros Ht. split; [done|apply vol_moves_refl|done|done|auto]. Qed.

Lemma adv_trans e g e1 g1 e2 g2 : advances e g e1 g1 → advances e1 g1 e2 g2 → advances e g e2 g2.
Proof.
  intros [T1 M1 K1 U1 D1] [T2 M2 K2 U2 D2]. split; [done|by eapply vol_moves_trans|by etrans|..].
  - intros u Hu. destruct (U1 u Hu), (U2 u Hu). split; congruence.
  - intros u. destruct (D2 u) as [->| ->]; auto.
Qed.

(** Once replaced, replaced. *)
Lemma advances_new e g e' g' u : advances e g e' g' → sh_dev g u = new u → sh_dev g' u = new u.
Proof. intros Ha He. destruct (av_dev _ _ _ _ Ha u) as [->| ->]; done. Qed.

Definition jots {A} (Pre : Engine → shadow → Prop) (m : M Engine CoreError A) (Q : A → Engine → shadow → Prop) : Prop :=
  ∀ e g r e', tracks e g → Pre e g → m e = (r, e') → ∃ g', advances e g e' g' ∧ ∀ x, r = Ok x → Q x e' g'.

Lemma jots_bind {A B} Pre (m : M Engine CoreError A) (k : A → M Engine CoreError B) Q R :
  jots Pre m Q → (∀ x, jots (Q x) (k x) R) → jots Pre (m_bind m k) R.
Proof.
  intros Hm Hk e g r e' Ht Hp Hr. apply m_bind_inv in Hr as [(x & e1 & H1' & H2')|(er & H1' & ->)];
    destruct (Hm _ _ _ _ Ht Hp H1') as (g1 & Ha1 & HQ).
  - destruct (Hk x e1 g1 r e' (av_tracks _ _ _ _ Ha1) (HQ _ eq_refl) H2') as (g2 & Ha2 & HR). exists g2.
    split; [by eapply adv_trans|done].
  - exists g1. by split.
Qed.

Lemma jots_ret {A} (Pre : Engine → shadow → Prop) (x : A) : jots Pre (m_ret x) (λ y e g, y = x ∧ Pre e g).
Proof. intros e g r e' Ht Hp [= <- <-]. exists g. split; [by apply adv_refl|]. by intros y [= <-]. Qed.

Lemma jots_engine (Pre : Engine → shadow → Prop) : jots Pre get_engine (λ x e g, x = e ∧ Pre e g).
Proof. intros e g r e' Ht Hp [= <- <-]. exists g. split; [by apply adv_refl|]. by intros y [= <-]. Qed.

Lemma jots_err {A} Pre (er : CoreError) (Q : A → Engine → shadow → Prop) : jots Pre (m_err er) Q.
Proof. intros e g r e' Ht _ [= <- <-]. exists g. split; [by apply adv_refl|done]. Qed.

Lemma jots_lift {A} (Pre : Engine → shadow → Prop) (v : result CoreError A) : jots Pre (m_lift v) (λ x e g, v = Ok x ∧ Pre e g).
Proof. intros e g r e' Ht Hp [= <- <-]. exists g. split; [by apply adv_refl|]. by intros y ->. Qed.

Lemma jots_lift_err {A} Pre (er : CoreError) (Q : A → Engine → shadow → Prop) : jots Pre (m_lift (Err er)) Q.
Proof. intros e g r e' Ht _ [= <- <-]. exists g. split; [by apply adv_refl|done]. Qed.

Lemma jots_weaken {A} (Pre Pre' : Engine → shadow → Prop) (m : M Engine CoreError A) (Q Q' : A → Engine → shadow → Prop) :
  (∀ e g, Pre' e g → Pre e g) → (∀ x e g, Q x e g → Q' x e g) → jots Pre m Q → jots Pre' m Q'.
Proof. intros Hp Hq Hm e g r e' Ht Hpre Hr. destruct (Hm e g r e' Ht (Hp _ _ Hpre) Hr) as (g' & Ha & HQ). eauto. Qed.

(** The section's status changes. *)
Lemma tracks_status e g s : failed s = failed (en_status e) → tracks e g → tracks (set_status s e) g.
Proof. intros Hf [Tr Tv Tc Tk]. split; [cbn; congruence|done|done|]. by eapply cache_true_same. Qed.

Lemma jots_status (Pre : Engine → shadow → Prop) f :
  (∀ s, failed (f s) = failed s) → (∀ e g s, Pre e g → Pre (set_status s e) g) →
  jots Pre (modify_status f) (λ _, Pre).
Proof.
  intros Hf Hs e g r e' Ht Hp [= <- <-]. exists g. split; [|intros _ _; by apply Hs].
  split; [by apply tracks_status|apply vol_moves_refl|done|done|auto].
Qed.

(** A call whose outcome is looked at later: the state is what it left. *)
Lemma jots_try {A B} Pre (m : M Engine CoreError A) (k : result CoreError A → M Engine CoreError B) Q R :
  jots Pre m Q →
  (∀ x, jots (Q x) (k (Ok x)) R) → (∀ er, jots (λ _ _, True) (k (Err er)) R) → jots Pre (m_bind (m_try m) k) R.
Proof.
  intros Hm Hk He e g r e' Ht Hp Hr. apply m_bind_inv in Hr as [(x & e1 & (r0 & H1' & [= ->])%m_try_inv & H2')|(er & (? & _ & [=])%m_try_inv & _)].
  destruct (Hm _ _ _ _ Ht Hp H1') as (g1 & Ha1 & HQ). destruct r0 as [x|er].
  - destruct (Hk x e1 g1 r e' (av_tracks _ _ _ _ Ha1) (HQ _ eq_refl) H2') as (g2 & Ha2 & HR). exists g2. split; [by eapply adv_trans|done].
  - destruct (He er e1 g1 r e' (av_tracks _ _ _ _ Ha1) I H2') as (g2 & Ha2 & HR). exists g2. split; [by eapply adv_trans|done].
Qed.

(** An operation of the volume that changes nothing known. *)
Lemma tracks_volume e g V' w' :
  tracks e g → vol_inv (sh_abs g) V' w' → vol_moves (en_volume e) (en_world e) V' w' → advances e g (set_volume V' w' e) g.
Proof.
  intros [Tr Tv Tc Tk] Hv Hm. split; [split; [done|done|done|by eapply cache_true_same]|done|done|done|auto].
Qed.

Definition synced e : Prop := journal_appended_sequence (en_volume e) ≤ journal_durable_sequence (en_volume e).

(** Facts about the device that a section cannot undo. *)
Definition lasting (Pre : Engine → shadow → Prop) : Prop := ∀ e g e' g', advances e g e' g' → Pre e g → Pre e' g'.

Definition settled_on (us : list Z) : Engine → shadow → Prop := λ _ g, ∀ u, u ∈ us → sh_dev g u = new u.

Lemma settled_lasting us : lasting (settled_on us).
Proof. intros e g e' g' Ha Hs u Hu. eapply advances_new; [done|by apply Hs]. Qed.

Lemma jots_frame {A} Fr Pre (m : M Engine CoreError A) Q :
  lasting Fr → jots Pre m Q → jots (λ e g, Fr e g ∧ Pre e g) m (λ x e g, Fr e g ∧ Q x e g).
Proof.
  intros Hl Hm e g r e' Ht [Hf Hp] Hr. destruct (Hm e g r e' Ht Hp Hr) as (g' & Ha & HQ). exists g'. split; [done|].
  intros x ->. split; [by eapply Hl|by apply HQ].
Qed.

Lemma jots_note Pre : (∀ e g s, Pre e g → Pre (set_status s e) g) → jots Pre note_journal (λ _, Pre).
Proof.
  intros Hs. eapply jots_bind; [apply jots_engine|]. intros x.
  eapply jots_weaken; [|intros ? ? ? Hq; exact Hq|apply jots_status; [done|exact Hs]]. by intros e g [_ Hp].
Qed.

(** A barrier changes nothing known; its success covers everything. *)
Lemma jots_sync (Pr : shadow → Prop) : jots (λ _ g, Pr g) sync_journal (λ _ e g, Pr g ∧ synced e).
Proof.
  unfold sync_journal. eapply (jots_try _ _ _ (λ _ e g, Pr g ∧ synced e)).
  - intros e g r e' Ht Hp (V' & w' & Hr & ->)%on_volume_inv. exists g.
    destruct (vol_op _ _ _ (EvFlush r) V' w' (tr_volume _ _ Ht)) as (a' & Hsp & Hv & Hm); [by constructor|].
    inversion Hsp; subst. split; [by apply tracks_volume|]. intros [] ->. split; [done|].
    destruct (vi_ok _ _ _ (tr_volume _ _ Ht)) as [L Hok]. exact (flush_covers _ _ _ _ _ Hok Hr).
  - intros []. eapply jots_bind; [by apply jots_note|]. intros ?.
    eapply jots_weaken; [| |apply (jots_lift (λ e g, Pr g ∧ synced e))]; [done|]. by intros ? ? ? [].
  - intros er. eapply jots_bind; [by apply jots_note|]. intros ?. apply jots_lift_err.
Qed.

(** *** One record *)

Definition tombstone_ok (ct : CiphertextUnit) : Prop :=
  new (cu_index ct) = zeros (unit_size cf) ∧ cf_supports_discard cf = true.

Record record_ok (ct : CiphertextUnit) : Prop := {
  rc_device : on_device (cu_index ct);
  rc_unit : cu_index ct ∈ U;
  rc_size : length (new (cu_index ct)) = usize;
  rc_data : if is_tombstone ct then tombstone_ok ct else ciphers (cu_index ct) (cu_data ct) (new (cu_index ct))
}.

(** The shadow after unit [u] took the content [new u] as version [x]. *)
Definition assigned u (x : SlotRead) (n : Z) known' g : shadow :=
  mkShadow (assign u x n (sh_abs g)) known' (λ v, if decide (v = u) then new u else sh_dev g v).

Lemma assigned_advances e g V' w' u x n known' :
  tracks e g → on_device u → u ∈ U → length (new u) = usize →
  vol_inv (assign u x n (sh_abs g)) V' w' → vol_moves (en_volume e) (en_world e) V' w' →
  sh_known g ⊆ known' → represents known' u x (new u) → a_last (sh_abs g) ≤ n →
  (∀ v m d, known' !! (v, m) = Some d → sh_known g !! (v, m) = Some d ∨ m ≤ n) →
  advances e g (set_volume V' w' e) (assigned u x n known' g).
Proof.
  intros [Tr Tv Tc Tk] Hu HU Hl Hv Hm Hk Hr Hn Hlast. split; cbn.
  - split; [done|done| |].
    + split; cbn.
      * intros v Hv'. destruct (decide (v = u)) as [->|Hne]; [exists x; by rewrite lookup_insert_eq|].
        rewrite lookup_insert_ne by done. destruct (ct_shown _ _ _ Tc v Hv') as (y & Hy & Hry). exists y. split; [done|].
        by eapply represents_mono.
      * intros v Hv'. destruct (decide _) as [->|]; [done|by apply Tc].
      * intros v m d [Hd|Hd]%Hlast; [|done]. pose proof (ct_last _ _ _ Tc _ _ _ Hd). lia.
    + eapply cache_true_mono; [exact Hk|]. by eapply cache_true_same.
  - done.
  - done.
  - intros v Hv'. destruct (decide (v = u)) as [->|Hne]; [done|]. by rewrite lookup_insert_ne.
  - intros v. destruct (decide (v = u)) as [->|Hne]; auto.
Qed.

Lemma assigned_settled u x n known' g : sh_dev (assigned u x n known' g) u = new u.
Proof. cbn. by rewrite decide_True. Qed.

(** A version of its own. *)
Lemma write_assigned e g V' w' u c n :
  tracks e g → on_device u → u ∈ U → length (new u) = usize → ciphers u c (new u) → c ≠ [] → a_last (sh_abs g) < n →
  vol_inv (assign u (as_read (cf_supports_discard cf) (Overlay.mkVersion n c)) n (sh_abs g)) V' w' →
  vol_moves (en_volume e) (en_world e) V' w' →
  ∃ g', advances e g (set_volume V' w' e) g' ∧ sh_dev g' u = new u.
Proof.
  intros Ht Hu HU Hl Hc Hne Hn Hv Hm.
  assert (as_read (cf_supports_discard cf) (Overlay.mkVersion n c) = SlotCiphertext n c) as Hx.
  { unfold as_read, is_empty_version. cbn. rewrite bool_decide_false by done. by rewrite andb_false_r. }
  rewrite Hx in Hv. eexists. split; [|apply assigned_settled].
  eapply (assigned_advances e g V' w' u (SlotCiphertext n c) n (<[(u, n) := new u]> (sh_known g))); try done.
  - apply insert_subseteq. destruct (sh_known g !! (u, n)) as [d|] eqn:Hd; [|done].
    pose proof (ct_last _ _ _ (tr_content _ _ Ht) _ _ _ Hd). lia.
  - split; [apply lookup_insert_eq|done].
  - lia.
  - intros v m d [[[= <- <-] <-]|[_ Hd]]%lookup_insert_Some; [right; lia|by left].
Qed.

Lemma zero_assigned e g V' w' u :
  tracks e g → on_device u → u ∈ U → new u = zeros (unit_size cf) →
  vol_inv (assign u SlotZero (a_last (sh_abs g)) (sh_abs g)) V' w' → vol_moves (en_volume e) (en_world e) V' w' →
  ∃ g', advances e g (set_volume V' w' e) g' ∧ sh_dev g' u = new u.
Proof.
  intros Ht Hu HU Hz Hv Hm. eexists. split; [|apply assigned_settled].
  eapply (assigned_advances e g V' w' u SlotZero _ (sh_known g)); try done; [by rewrite Hz, length_zero_unit|by left].
Qed.

Lemma jots_record ct :
  record_ok ct →
  jots (λ _ _, True) (on_volume (if is_tombstone ct then discard_ct (cu_index ct) false
                                 else write_ct (cu_index ct) (cu_data ct) false)) (λ _, settled_on [cu_index ct]).
Proof.
  intros [Hu HU Hl Hd] e g r e' Ht _ (V' & w' & Hr & ->)%on_volume_inv. pose proof (tr_volume _ _ Ht) as Hv.
  assert (∀ g', sh_dev g' (cu_index ct) = new (cu_index ct) → settled_on [cu_index ct] (set_volume V' w' e) g') as Hset.
  { intros g' Hg' u ->%list_elem_of_singleton. done. }
  destruct (is_tombstone ct) eqn:Htomb.
  - destruct (vol_op _ _ _ (EvDiscard (cu_index ct) false r) V' w' Hv) as (a' & Hsp & Hv' & Hm); [intros f; constructor; [apply Hu|done]|].
    destruct Hd as [Hz _]. inversion Hsp; subst.
    + destruct (zero_assigned e g V' w' _ Ht Hu HU Hz Hv' Hm) as (g' & Ha & Hg'). exists g'. auto.
    + exists g. split; [by apply tracks_volume|done].
    + destruct (zero_assigned e g V' w' _ Ht Hu HU Hz Hv' Hm) as (g' & Ha & Hg'). exists g'. auto.
  - destruct (vol_op _ _ _ (EvWrite (cu_index ct) (cu_data ct) false r) V' w' Hv) as (a' & Hsp & Hv' & Hm); [intros f; constructor; [apply Hu|done]|].
    apply bool_decide_eq_false in Htomb. inversion Hsp; subst.
    + destruct (write_assigned e g V' w' _ _ _ Ht Hu HU Hl Hd Htomb ltac:(eassumption) Hv' Hm) as (g' & Ha & Hg'). exists g'. auto.
    + exists g. split; [by apply tracks_volume|done].
    + destruct (write_assigned e g V' w' _ _ _ Ht Hu HU Hl Hd Htomb ltac:(eassumption) Hv' Hm) as (g' & Ha & Hg'). exists g'. auto.
Qed.

Lemma jots_invalidate (Pr : shadow → Prop) u : jots (λ _ g, Pr g) (cache_invalidate u) (λ _ _ g, Pr g).
Proof.
  intros e g r e' Ht Hp Hr. destruct (cache_invalidate_ok _ _ _ _ Hr) as (He & -> & Hs). exists g. split; [|done].
  rewrite He in *. destruct Ht as [Tr Tv Tc Tk]. split; [split; [done|done|done|by eapply cache_true_sub]|apply vol_moves_refl|done|done|auto].
Qed.

Lemma jots_append ct us :
  record_ok ct → jots (settled_on us) (append_one cf ct) (λ _, settled_on (us ++ [cu_index ct])).
Proof.
  intros Hrc. eapply jots_bind; [apply jots_engine|]. intros x.
  eapply (jots_bind _ _ _ (λ _, settled_on us)).
  { destruct (_ <? _).
    - eapply jots_weaken; [| |apply (jots_sync (settled_on us x))]; [by intros ? ? []|by intros ? ? ? []].
    - eapply jots_weaken; [| |apply (jots_ret (settled_on us))]; [by intros ? ? []|by intros ? ? ? []]. }
  intros _. eapply (jots_bind _ _ _ (λ _ e g, settled_on us e g ∧ settled_on [cu_index ct] e g)).
  { eapply jots_weaken; [|intros ? ? ? Hq; exact Hq|apply jots_frame; [apply settled_lasting|by apply jots_record]]. by intros e g. }
  intros n. eapply jots_weaken; [| |apply (jots_invalidate (λ g, settled_on us x g ∧ settled_on [cu_index ct] x g))]; [done|].
  intros ? e g [H1' H2'] u [Hu|Hu]%elem_of_app; [by apply H1'|by apply H2'].
Qed.

Lemma jots_each us : ∀ cts, Forall record_ok cts → ∀ us0, us = us0 ++ map cu_index cts →
  jots (settled_on us0) (m_each (append_one cf) cts) (λ _, settled_on us).
Proof.
  induction cts as [|ct cts IH]; intros Hcts us0 Hus; cbn [m_each].
  - eapply jots_weaken; [| |apply (jots_ret (settled_on us0))]; [done|]. intros ? ? ? [_ Hs]. cbn in Hus. by rewrite Hus, app_nil_r.
  - apply list.Forall_cons in Hcts as [Hc Hcts]. eapply jots_bind; [by apply jots_append|]. intros ?.
    apply IH; [done|]. cbn in Hus. by rewrite Hus, <- app_assoc.
Qed.

(** *** A whole request *)

(** Units that are skipped show zeros already. *)
Lemma jots_filter g0 : ∀ cts, Forall record_ok cts → (∀ ct, ct ∈ cts → is_tombstone ct = true) →
  jots (λ _ g, g = g0) (filter_trims cts)
    (λ out _ g, g = g0 ∧ Forall record_ok out ∧
       ∀ ct, ct ∈ cts → cu_index ct ∈ map cu_index out ∨ sh_dev g (cu_index ct) = new (cu_index ct)).
Proof.
  induction cts as [|ct cts IH]; intros Hcts Htomb; cbn [filter_trims].
  { eapply jots_weaken; [| |apply (jots_ret (λ _ g, g = g0))]; [done|]. intros out e g [-> ->]. split; [done|]. split; [constructor|set_solver]. }
  apply list.Forall_cons in Hcts as [Hc Hcts]. pose proof (Htomb ct ltac:(by left)) as Ht1.
  assert (tombstone_ok ct) as Hz by (pose proof (rc_data _ Hc) as Hd; by rewrite Ht1 in Hd).
  eapply (jots_bind _ _ _ (λ skip _ g, g = g0 ∧ (skip = true → sh_dev g (cu_index ct) = new (cu_index ct)))).
  { intros e g r e' Ht -> (V' & w' & Hr & ->)%on_volume_inv. exists g0. pose proof (tr_volume _ _ Ht) as Hv.
    pose proof (rc_device _ Hc) as Hdv. pose proof (on_device_ok _ _ _ _ Hv Hdv) as Hdev.
    destruct (vol_op _ _ _ (EvReclaimUnwritten (cu_index ct) r) V' w' Hv) as (a' & Hsp & Hv' & Hm); [by constructor|].
    inversion Hsp as [| | | | | | | |? ? ? Hzero| |]; subst. split; [by apply tracks_volume|]. intros skip ->. split; [done|]. intros ->.
    destruct (ct_shown _ _ _ (tr_content _ _ Ht) _ Hdv) as (x & Hx & Hrep).
    destruct Hz as [Hz Hds]. rewrite (Hzero eq_refl Hds x Hx) in Hrep. cbn in Hrep. congruence. }
  intros skip. eapply (jots_bind _ _ _ (λ out _ g, (g = g0 ∧ (skip = true → sh_dev g (cu_index ct) = new (cu_index ct))) ∧
    Forall record_ok out ∧ ∀ ct, ct ∈ cts → cu_index ct ∈ map cu_index out ∨ sh_dev g (cu_index ct) = new (cu_index ct))).
  { intros e g r e' Ht [-> Hs] Hr. destruct (IH Hcts (λ ct' Hct', Htomb ct' ltac:(by right)) e g0 r e' Ht eq_refl Hr) as (g' & Ha & HQ).
    exists g'. split; [done|]. intros out ->. destruct (HQ out eq_refl) as (-> & Hout & Hall). auto. }
  intros out. eapply jots_weaken; [| |apply (jots_ret (λ _ g, (g = g0 ∧ (skip = true → sh_dev g (cu_index ct) = new (cu_index ct))) ∧
    Forall record_ok out ∧ ∀ ct, ct ∈ cts → cu_index ct ∈ map cu_index out ∨ sh_dev g (cu_index ct) = new (cu_index ct)))]; [done|].
  intros out' e g (-> & ([-> Hs] & Hout & Hall)). split; [done|]. destruct skip.
  - split; [done|]. intros ct' [->|Hct']%elem_of_cons; [right; by apply Hs|by apply Hall].
  - split.
    + constructor; [|done]. destruct Hc as [? ? ? _]. split; [done|done|done|]. done.
    + intros ct' [->|Hct']%elem_of_cons; [left; cbn; by left|]. destruct (Hall ct' Hct'); [left; cbn; by right|by right].
Qed.

Lemma jots_space Pr cts : jots (λ _ g, Pr g) (admit_space cf cts) (λ _ _ g, Pr g).
Proof.
  unfold admit_space. destruct (_ <? _); [|eapply jots_weaken; [| |apply (jots_ret (λ _ g, Pr g))]; [done|by intros ? ? ? []]].
  eapply jots_bind; [apply jots_engine|]. intros x. eapply jots_bind; [apply jots_lift|]. intros reserved.
  eapply jots_bind; [apply jots_lift|]. intros required. destruct (en_free x) as [[free|]|er]; [|apply jots_err..].
  destruct (free <? required).
  - eapply (jots_bind _ _ _ (λ _ _ g, Pr g)); [|intros ?; apply jots_err].
    eapply jots_weaken; [| |by apply (jots_status (λ _ g, Pr g))]; [by intros ? ? (? & ? & ? & ?)|done].
  - eapply jots_weaken; [| |apply (jots_ret (λ _ g, Pr g))]; [by intros ? ? (? & ? & ? & ?)|by intros ? ? ? []].
Qed.

Lemma jots_admit Pr cts reclaimed last : jots (λ _ g, Pr g) (admit_journal cf cts reclaimed last) (λ _ _ g, Pr g).
Proof.
  eapply jots_bind; [apply jots_space|]. intros y. eapply jots_bind; [apply jots_engine|]. intros x.
  assert (∀ b : bool, jots (λ e g, x = e ∧ Pr g) (m_ret b) (λ _ _ g, Pr g)) as Hret.
  { intros b. eapply jots_weaken; [| |apply (jots_ret (λ _ g, Pr g))]; [by intros ? ? []|by intros ? ? ? []]. }
  destruct (_ || _); [|done]. destruct (exhausted _ _ _); [apply jots_err|].
  eapply (jots_bind _ _ _ (λ _ _ g, Pr g)).
  - eapply jots_weaken; [| |apply (jots_sync Pr)]; [by intros ? ? []|by intros ? ? ? []].
  - intros ?. eapply jots_weaken; [| |apply (jots_ret (λ _ g, Pr g))]; [done|by intros ? ? ? []].
Qed.

(** Writes are all data, trims all tombstones. *)
Definition uniform (cts : list CiphertextUnit) : Prop :=
  ∀ ct ct', ct ∈ cts → ct' ∈ cts → is_tombstone ct = is_tombstone ct'.

Lemma jots_request g0 cts fua reclaimed last :
  Forall record_ok cts → uniform cts →
  jots (λ _ g, g = g0) (journal_request cf cts fua reclaimed last)
    (λ b e g, if (b : bool) then settled_on (map cu_index cts) e g ∧ (fua = true → synced e) else g = g0).
Proof.
  intros Hcts Hun.
  eapply (jots_bind _ _ _ (λ out _ g, g = g0 ∧ Forall record_ok out ∧
       ∀ ct, ct ∈ cts → cu_index ct ∈ map cu_index out ∨ sh_dev g (cu_index ct) = new (cu_index ct))).
  { assert (jots (λ _ g, g = g0) (m_ret cts) (λ out _ g, g = g0 ∧ Forall record_ok out ∧
       ∀ ct, ct ∈ cts → cu_index ct ∈ map cu_index out ∨ sh_dev g (cu_index ct) = new (cu_index ct))) as Hret.
    { eapply jots_weaken; [| |apply (jots_ret (λ _ g, g = g0))]; [done|]. intros out e g [-> ->]. split; [done|]. split; [done|].
      intros ct Hct. left. by apply list_elem_of_fmap_2. }
    destruct cts as [|ct cts']; [done|]. destruct (is_tombstone ct) eqn:Htomb; [|done].
    apply jots_filter; [done|]. intros ct' Hct'. rewrite <- Htomb. apply Hun; [done|by left]. }
  intros out. set (Pr := λ g, g = g0 ∧ Forall record_ok out ∧
       ∀ ct, ct ∈ cts → cu_index ct ∈ map cu_index out ∨ sh_dev g (cu_index ct) = new (cu_index ct)).
  eapply (jots_bind _ _ _ (λ _ _ g, Pr g)).
  { destruct (bool_decide _); [|apply (jots_admit Pr)]. eapply jots_weaken; [| |apply (jots_ret (λ _ g, Pr g))]; [done|by intros ? ? ? []]. }
  intros admitted. destruct admitted; cbn [negb].
  2:{ eapply jots_weaken; [| |apply (jots_ret (λ _ g, Pr g))]; [done|]. by intros ? ? ? (-> & -> & _). }
  intros e g r e' Ht (Hg & Hout & Hall) Hr.
  set (rest := List.filter (λ ct, bool_decide (sh_dev g0 (cu_index ct) = new (cu_index ct))) cts).
  assert (jots (settled_on (map cu_index rest))
    (let* _ := m_each (append_one cf) out in let* _ := m_when fua sync_journal in m_ret true)
    (λ b e g, if (b : bool) then settled_on (map cu_index cts) e g ∧ (fua = true → synced e) else g = g0)) as Hj.
  { eapply jots_bind; [by eapply (jots_each _ out Hout)|]. intros ?.
    eapply (jots_bind _ _ _ (λ _ e g, settled_on (map cu_index rest ++ map cu_index out) e g ∧ (fua = true → synced e))).
    - destruct fua; cbn [m_when].
      + eapply jots_weaken; [| |apply (jots_sync (settled_on (map cu_index rest ++ map cu_index out) e))]; [done|]. intros ? ? ? []. auto.
      + eapply jots_weaken; [| |apply (jots_ret (settled_on (map cu_index rest ++ map cu_index out)))]; [done|]. by intros ? ? ? [].
    - intros ?. eapply jots_weaken; [| |apply (jots_ret (λ e g, settled_on (map cu_index rest ++ map cu_index out) e g ∧ (fua = true → synced e)))]; [done|].
      intros b e1 g1 [-> [Hs Hf]]. split; [|done]. intros u (ct & -> & Hct)%list_elem_of_fmap. apply Hs, elem_of_app.
      destruct (Hall ct Hct) as [Hx|Hx]; [by right|left]. apply list_elem_of_fmap_2. unfold rest.
      apply list_elem_of_In, filter_In. split; [by apply list_elem_of_In|]. apply bool_decide_eq_true. by rewrite Hg in Hx. }
  apply (Hj e g r e' Ht); [|done]. rewrite Hg. intros u (ct & -> & Hct)%list_elem_of_fmap. unfold rest in Hct.
  apply list_elem_of_In, filter_In in Hct as [_ Hct]. by apply bool_decide_eq_true in Hct.
Qed.

Lemma jots_section g0 cts fua reclaimed last :
  Forall record_ok cts → uniform cts →
  jots (λ _ g, g = g0) (journal_section cf cts fua reclaimed last)
    (λ b e g, if (b : bool) then settled_on (map cu_index cts) e g ∧ (fua = true → synced e) else g = g0).
Proof.
  intros Hcts Hun. eapply (jots_bind _ _ _ (λ _ _ g, g = g0)).
  { intros e g r e' Ht Hp [= <- <-]. exists g. split; [by apply adv_refl|]. by intros x _. }
  intros ?. set (Q := λ (b : bool) (e : Engine) g, if b then settled_on (map cu_index cts) e g ∧ (fua = true → synced e) else g = g0).
  eapply (jots_try _ _ _ Q); [by apply jots_request| |].
  - intros b. eapply jots_bind; [apply jots_note; by destruct b|]. intros ?.
    eapply jots_weaken; [| |apply (jots_lift (Q b))]; [done|]. by intros ? ? ? [[= <-] ?].
  - intros er. eapply jots_bind; [by apply jots_note|]. intros ?. apply jots_lift_err.
Qed.
End Request.
End Sections.
