(* ===== verification/EngineRuns.v ===== *)
(** * EngineRuns: concurrent requests on the encrypted device

    The engine's pool of tasks against one history of the device: a list of
    changes, each made by one request in one section.  The promise of every
    request is stated on that history, and each task is shown to keep it
    whatever the others do in between. *)

From S2P Require Import Prelude BTreeMap Codec Layout Geometry AbRecord Metadata Superblock JournalFormat Backing Provider CrashBacking AbStore FixedCopy DurableProof JournalWriter JournalProof JournalDurability RecoveryScan Volumes JournalScan SlotStore Recovery StoreData StoreProof StoreReads StoreOpen StoreRuns Overlay Volume VolumeState VolumeOps VolumeCheckpoint VolumeRuns Cache Tasks Engine EngineBytes EngineProof.
Import Store Volume Engine.
Import (hints) Metadata.Catalog Metadata.Allocation Metadata.Checkpoint.

Local Open Scope Z_scope.

Section Runs.
Context `{Crc32} `{BackingLaws W F} `{HasherLaws HT} `{HashOrder} `{CryptoProvider P}.
Context (cf : EngineConfig) `{!CipherLaws P (cf_context cf)}.
Hypothesis geometry_ok : geometry_wf (cf_geometry cf).
Abbreviation Volume := (Volume (F := F) (HT := HT)).
Abbreviation Engine := (Engine (W := W) (F := F) (HT := HT) (P := P)).
Implicit Types (V : Volume) (w : W) (u : Z) (e : Engine) (i : nat) (K : gset Z) (b : bool) (D : device_state).

Abbreviation running e := (failed (en_status e) = false).
Abbreviation appended e := (journal_appended_sequence (en_volume e)).
Abbreviation durable e := (journal_durable_sequence (en_volume e)).

(** ** The history *)

(** A change: who made it, the device after it, and the last journal
    sequence then. *)
Record change := mkChange { ch_task : nat; ch_dev : device_state; ch_last : Z }.

(** [gh_durable]: a journal sequence known to be durable. *)
Record ghost := mkGhost { gh_shadow : shadow; gh_base : device_state; gh_log : list change; gh_durable : Z }.
Implicit Types (g : ghost) (x y : Engine * ghost).

(** The device before and after every change. *)
Definition history g : list device_state := gh_base g :: map ch_dev (gh_log g).

Abbreviation dev g := (sh_dev (gh_shadow g)).

Record engine_inv e g : Prop := {
  iv_volume : running e → vol_inv cf (sh_abs (gh_shadow g)) (en_volume e) (en_world e) ∧
    gh_durable g ≤ durable e ∧ Forall (λ c, ch_last c ≤ appended e) (gh_log g);
  iv_content : content cf (sh_known (gh_shadow g)) (sh_abs (gh_shadow g)) (dev g);
  iv_cache : cache_true (sh_known (gh_shadow g)) e;
  iv_last : history g !! length (gh_log g) = Some (dev g)
}.

Definition unheard i g : Prop := Forall (λ c, ch_task c ≠ i) (gh_log g).

Record extends g g' : Prop := {
  ex_base : gh_base g' = gh_base g;
  ex_log : gh_log g `prefix_of` gh_log g';
  ex_durable : gh_durable g ≤ gh_durable g'
}.

(** One step: nothing, or one change with the journal's sequence after it. *)
Definition extension x y : Prop :=
  gh_log y.2 = gh_log x.2 ∨
  ∃ c, gh_log y.2 = gh_log x.2 ++ [c] ∧ running y.1 ∧ ch_last c = appended y.1.

Record promises i K b x y : Prop := {
  pr_inv : engine_inv y.1 y.2;
  pr_extends : extends x.2 y.2;
  pr_known : sh_known (gh_shadow x.2) ⊆ sh_known (gh_shadow y.2);
  pr_log : gh_log y.2 = gh_log x.2 ∨
    ∃ c, gh_log y.2 = gh_log x.2 ++ [c] ∧ ch_task c = i ∧ running y.1 ∧ ch_last c = appended y.1;
  pr_units u : u ∉ K → dev y.2 u = dev x.2 u;
  pr_failed : running y.1 → running x.1;
  pr_phase : b = false → running y.1 → ∀ f, phase_ok (en_volume x.1) (en_world x.1) f → phase_ok (en_volume y.1) (en_world y.1) f
}.

Record expects i K b x y : Prop := {
  xp_extends : extends x.2 y.2;
  xp_known : sh_known (gh_shadow x.2) ⊆ sh_known (gh_shadow y.2);
  xp_log : ∃ l, gh_log y.2 = gh_log x.2 ++ l ∧ Forall (λ c, ch_task c ≠ i) l;
  xp_units u : u ∈ K → dev y.2 u = dev x.2 u;
  xp_failed : running y.1 → running x.1;
  xp_phase : b = true → running y.1 → ∀ f, phase_ok (en_volume x.1) (en_world x.1) f → phase_ok (en_volume y.1) (en_world y.1) f
}.

(** What happens beside the requests.  A task that panics with the volume
    write lock leaves anything behind, and latches the engine. *)
Inductive environment : Engine → Engine → Prop :=
| env_clock e now :
    environment e (mkEngine (en_volume e) (en_world e) (en_provider e) (en_cache e) (en_status e) now (en_free e))
| env_space e free :
    environment e (mkEngine (en_volume e) (en_world e) (en_provider e) (en_cache e) (en_status e) (en_now e) free)
| env_configure e max ttl : environment e (configure_cache max ttl e).2
| env_stop e :
    environment e (set_status (let s := en_status e in mkStatus (failed s) (state s) (journal_uncertain s) (space_refused s)
      true (checkpoints_total s) (checkpoint_failures_total s) (last_checkpoint_at s) (checkpoint_retry_at s)) e)
| env_panic e V w : environment e (set_status (fail (en_status e)) (set_volume V w e)).

Lemma extends_refl g : extends g g.
Proof. split; [done|done|lia]. Qed.

Lemma extends_trans g1 g2 g3 : extends g1 g2 → extends g2 g3 → extends g1 g3.
Proof. intros [] []. split; [congruence|by etrans|lia]. Qed.

Lemma expects_same i K b e e' g :
  (running e' → running e) → (b = true → running e' → ∀ f, phase_ok (en_volume e) (en_world e) f → phase_ok (en_volume e') (en_world e') f) →
  expects i K b (e, g) (e', g).
Proof. intros Hf Hp. split; [apply extends_refl|done|exists []; by rewrite app_nil_r|done|done|done]. Qed.

Lemma reconfigure_sub max ttl c u en :
  Cache.map (Cache.inner (Cache.reconfigure max ttl c)) !! u = Some en → Cache.map (Cache.inner c) !! u = Some en.
Proof.
  unfold Cache.reconfigure, Cache.with_inner. cbn [Cache.inner]. destruct (max =? 0); [done|]. intros Hu.
  pose proof (lookup_weaken _ _ _ _ Hu (make_room_sub _ _)) as Hm. by destruct ttl.
Qed.

Lemma environment_ok e e' g : environment e e' → engine_inv e g → engine_inv e' g ∧ ∀ i K b, expects i K b (e, g) (e', g).
Proof.
  intros He [Iv Ic Ik Il]. destruct He as [e now|e free|e max ttl|e|e V w].
  - split; [split; try done; by eapply cache_true_same|]. intros i K b. by apply expects_same.
  - split; [split; try done; by eapply cache_true_same|]. intros i K b. by apply expects_same.
  - unfold configure_cache. destruct (en_cache e) as [c|] eqn:Hc; [|split; [done|]; intros; by apply expects_same].
    split; [|intros; by apply expects_same]. split; try done. intros u en (c' & [= <-] & Hm). apply Ik. exists c.
    split; [done|by eapply reconfigure_sub].
  - split; [split; try done; by eapply cache_true_same|]. intros i K b. by apply expects_same.
  - split; [split; try done; by eapply cache_true_same|]. intros i K b. by apply expects_same.
Qed.

Instance engine_logic : RelyGuarantee environment engine_inv unheard extends extension promises expects.
Proof.
  split.
  - intros i K b [e g]. by apply expects_same.
  - intros i K b x y z [X1 K1 (l1 & L1 & F1) U1 R1 P1] [X2 K2 (l2 & L2 & F2) U2 R2 P2]. split.
    + by eapply extends_trans.
    + by etrans.
    + exists (l1 ++ l2). rewrite L2, L1, app_assoc. split; [done|by apply list.Forall_app].
    + intros u Hu. by rewrite U2, U1.
    + auto.
    + intros Hb Hr f Hf. apply P2; [done|done|]. apply P1; auto.
  - intros i K K' b b' x y HK Hb [X1 K1 L1 U1 R1 P1]. split; try done; auto.
  - intros i j K K' b b' x y Hij HK Hb [I1 X1 K1 L1 U1 R1 P1]. split; try done.
    + destruct L1 as [->|(c & -> & <- & _)]; [exists []; by rewrite app_nil_r|]. exists [c]. split; [done|]. by repeat constructor.
    + intros u Hu. apply U1. set_solver.
    + intros -> Hr. destruct b'; [done|]. by apply P1.
  - intros i K b x y Hp. apply Hp.
  - intros i j K b x y Hij [I1 X1 K1 L1 U1 R1 P1] Hf. unfold unheard. destruct L1 as [->|(c & -> & <- & _)]; [done|].
    apply list.Forall_app. split; [done|]. by repeat constructor.
  - intros i K b x y Hp. apply Hp.
  - intros i K b x y [I1 X1 K1 L1 U1 R1 P1]. destruct L1 as [L1|(c & Hc & _ & Hr & Hl)]; [by left|right; eauto].
  - intros e e' g. by left.
  - apply extends_refl.
  - apply extends_trans.
  - apply environment_ok.
Qed.

(** ** Sections that leave the history alone *)

Abbreviation ewp := (wp engine_inv promises expects).

(** An assertion about the history that the other requests cannot break. *)
Definition stable_at i K (A : ghost → Prop) : Prop := ∀ b x y, expects i K b x y → A x.2 → A y.2.

(** The locks are as before, [A] still holds, and the result is in [R]. *)
Definition still {X} K b (A : ghost → Prop) (R : ghost → X → Prop) : gset Z → bool → X → Engine * ghost → Prop :=
  λ K' b' r y, K' = K ∧ b' = b ∧ A y.2 ∧ R y.2 r.

Lemma promises_same i K b e g e' :
  engine_inv e g → failed (en_status e') = failed (en_status e) →
  (running e → vol_inv cf (sh_abs (gh_shadow g)) (en_volume e) (en_world e) →
   vol_inv cf (sh_abs (gh_shadow g)) (en_volume e') (en_world e') ∧
   vol_moves (en_volume e) (en_world e) (en_volume e') (en_world e')) →
  cache_true (sh_known (gh_shadow g)) e' → promises i K b (e, g) (e', g).
Proof.
  intros [Iv Ic Ik Il] Hf Hv Hc. cbn in *. split; cbn.
  - split; try done. intros Hr. destruct (Iv ltac:(congruence)) as (Hv0 & Hd & Hl).
    destruct (Hv ltac:(congruence) Hv0) as (Hv1 & _ & Hd1 & Ha1). split; [done|]. split; [lia|].
    eapply list.Forall_impl; [exact Hl|]. cbn. lia.
  - apply extends_refl.
  - done.
  - by left.
  - done.
  - congruence.
  - intros _ Hr. destruct (Iv ltac:(congruence)) as (Hv0 & _). by destruct (Hv ltac:(congruence) Hv0) as (_ & ? & _).
Qed.

Lemma promises_rests i K b e g e' : engine_inv e g → rests cf (sh_abs (gh_shadow g)) e e' → promises i K b (e, g) (e', g).
Proof.
  intros Hi [Hf Hv Hc]. apply promises_same; [done|done|done|]. eapply cache_true_sub; [exact Hc|apply Hi].
Qed.

Section Wp.
Context (i : nat) (K : gset Z) (b : bool) (A : ghost → Prop) (HA : stable_at i K A).

Lemma ewp_act {X} (m : M Engine CoreError X) (R : ghost → result CoreError X → Prop) x :
  A x.2 →
  (∀ e g r e', engine_inv e g → A g → m e = (r, e') → promises i K b (e, g) (e', g) ∧ R g r) →
  ewp i (act m) (still K b A R) K b x.
Proof.
  intros Hx Hm [e g] Hr Hi. cbn in *. destruct (m e) as [r e'] eqn:He. pose proof (HA _ _ _ Hr Hx) as Hg. cbn in Hg.
  destruct (Hm e g r e' Hi Hg He) as [Hp HR]. exists g. split; [done|]. by split.
Qed.

(** Sections that look at a running engine. *)
Lemma ewp_looks {X} (m : M Engine CoreError X) (R : ghost → X → Prop) x :
  A x.2 →
  (∀ e r e', failed (en_status e) = true → m e = (r, e') →
     failed (en_status e') = true ∧ en_cache e' = en_cache e ∧ ∀ v, r ≠ Ok v) →
  (∀ g, A g → content cf (sh_known (gh_shadow g)) (sh_abs (gh_shadow g)) (dev g) →
     looks cf (sh_known (gh_shadow g)) (sh_abs (gh_shadow g)) m (R g)) →
  ewp i (act m) (still K b A (λ g r, ∀ v, r = Ok v →
    history g !! length (gh_log g) = Some (dev g) ∧ content cf (sh_known (gh_shadow g)) (sh_abs (gh_shadow g)) (dev g) ∧ R g v)) K b x.
Proof.
  intros Hx Hfail Hl. apply ewp_act; [done|]. intros e g r e' Hi Hg He. destruct (failed (en_status e)) eqn:Hf.
  - destruct (Hfail e r e' Hf He) as (Hf' & Hc & Hv). split; [|intros v Hr; by destruct (Hv v)].
    apply promises_same; [done|congruence|by rewrite Hf|]. eapply cache_true_same; [exact Hc|apply Hi].
  - destruct (iv_volume _ _ Hi Hf) as (Hv & _).
    destruct (Hl g Hg (iv_content _ _ Hi) e r e' Hf Hv (iv_cache _ _ Hi) He) as [Hrs HRs].
    split; [by apply promises_rests|]. intros v ->. split; [apply Hi|]. split; [apply Hi|by apply HRs].
Qed.

Lemma ewp_try {E X Y} (t : task (result E X)) (f : X → task (result E Y)) Φ (R : ghost → result E X → Prop) x :
  ewp i t (still K b A R) K b x →
  (∀ v y, A y.2 → R y.2 (Ok v) → ewp i (f v) Φ K b y) →
  (∀ er y, A y.2 → R y.2 (Err er) → Φ K b (Err er) y) →
  ewp i (t_try t f) Φ K b x.
Proof.
  intros Ht Hf He. apply wp_bind. eapply wp_mono; [|exact Ht]. intros K' b' [v|er] y (-> & -> & HAy & HR); [by apply Hf|].
  cbn. by apply He.
Qed.

Lemma ewp_ret {X} (r : X) (R : ghost → X → Prop) x : A x.2 → R x.2 r → ewp i (Ret r) (still K b A R) K b x.
Proof. intros Hx Hr. by split. Qed.

Lemma ewp_each {E X Y} (f : X → task (result E Y)) (R : X → Y → Prop) : ∀ (l : list X) x,
  (∀ v y, v ∈ l → A y.2 → ewp i (f v) (still K b A (λ _ r, ∀ o, r = Ok o → R v o)) K b y) →
  A x.2 → ewp i (t_each f l) (still K b A (λ _ r, ∀ o, r = Ok o → Forall2 R l o)) K b x.
Proof.
  induction l as [|v l IH]; intros x Hf Hx; cbn [t_each].
  { apply ewp_ret; [done|]. intros o [= <-]. constructor. }
  eapply ewp_try; [apply Hf; [by left|done]| |].
  - intros o y Hy Ho. eapply ewp_try; [apply IH; [|done]| |].
    + intros v' y' Hv'. apply Hf. by right.
    + intros os z Hz Hos. apply ewp_ret; [done|]. intros o' [= <-]. constructor; [by apply Ho|by apply Hos].
    + intros er z Hz _. by split.
  - intros er y Hy _. by split.
Qed.

(** A call of the provider. *)
Lemma ewp_provider {X} (m : M (CheckedProvider (P := P)) CryptoError X) x :
  A x.2 → ewp i (act (on_provider m)) (still K b A (λ _ r, ∀ v, r = Ok v → ∃ p p', m p = (Ok v, p'))) K b x.
Proof.
  intros Hx. apply ewp_act; [done|]. intros e g r e' Hi Hg Hr. destruct (provider_inv _ _ _ _ Hr) as [He Hv].
  split; [|intros v Hrv; destruct (Hv v Hrv); eauto]. rewrite He.
  apply promises_same; [done|done| |by eapply cache_true_same; [|apply Hi]]. intros _ Hvi. split; [done|apply vol_moves_refl].
Qed.

Lemma ewp_batches {X} ranges (call : nat * nat → M (CheckedProvider (P := P)) CryptoError X) x :
  A x.2 →
  ewp i (run_batches ranges call)
    (still K b A (λ _ r, ∀ o, r = Ok o → Forall2 (λ rg v, ∃ p p', call rg p = (Ok v, p')) ranges o)) K b x.
Proof. intros Hx. apply ewp_each; [|done]. intros rg y _ Hy. by apply ewp_provider. Qed.

Lemma ewp_freshness x : A x.2 → ewp i (act freshness) (still K b A (λ _ _, True)) K b x.
Proof.
  intros Hx. apply ewp_act; [done|]. intros e g r e' Hi Hg (V' & w' & Hr & ->)%on_volume_inv. split; [|done].
  apply promises_same; [done|done| |by eapply cache_true_same; [|apply Hi]]. intros _ [[L Hok] Hsh Hge Hd]. cbn.
  destruct (freshness_ok _ _ _ _ _ _ Hok Hr) as (-> & Hok' & Hl & Hk).
  split; [split; [by eexists| |done|done]|].
  - eapply shows_same; [done|lia|apply (later_same _ _ _ _ _ Hl); done|done].
  - split; [intros f; by eapply later_phase|lia].
Qed.

(** *** Batches of provider calls *)

Lemma batches_concat {X Y} (Q : X → Y → Prop) (l : list X) ranges (outs : list (list Y)) :
  Forall2 (λ rg o, Forall2 Q (slice rg l) o) ranges outs → Forall2 Q (concat (map (λ rg, slice rg l) ranges)) (concat outs).
Proof. induction 1 as [|rg o ranges outs Ho _ IH]; cbn; [constructor|]. by apply Forall2_app. Qed.

Lemma collect_ok pts : ∀ out plain, collect_plain cf pts out = Ok plain →
  (∀ u d, plain !! u = Some d → out !! u = Some d ∨ ∃ pt, pt ∈ pts ∧ pu_index pt = u ∧ pu_data pt = d) ∧
  (∀ u, is_Some (out !! u) → is_Some (plain !! u)) ∧ (∀ pt, pt ∈ pts → is_Some (plain !! pu_index pt)).
Proof.
  induction pts as [|pt pts IH]; intros out plain; cbn [collect_plain].
  { intros [= ->]. split; [auto|]. split; [done|]. set_solver. }
  destruct (negb _); [done|]. intros (Hd & Ho & Hp)%IH. split; [|split].
  - intros u d Hu. destruct (Hd u d Hu) as [[[<- <-]|[_ Hx]]%lookup_insert_Some|(pt' & Hpt & Hx)].
    + right. exists pt. split; [by left|done].
    + by left.
    + right. exists pt'. split; [by right|done].
  - intros u Hu. apply Ho. apply lookup_insert_is_Some'. by right.
  - intros pt' [->|Hpt]%elem_of_cons; [|by apply Hp]. apply Ho. rewrite lookup_insert_eq. eauto.
Qed.

Lemma ewp_decrypt cts D x :
  A x.2 → (∀ ct, ct ∈ cts → ciphers (cu_index ct) (cu_data ct) (D (cu_index ct))) →
  ewp i (decrypt_units cf cts) (still K b A (λ _ r, ∀ plain, r = Ok plain →
    (∀ u d, plain !! u = Some d → d = D u ∧ ∃ ct, ct ∈ cts ∧ cu_index ct = u) ∧
    (∀ ct, ct ∈ cts → is_Some (plain !! cu_index ct)))) K b x.
Proof.
  intros Hx Hc. unfold decrypt_units. destruct (bool_decide_reflect (cts = [])) as [->|Hne].
  { apply ewp_ret; [done|]. intros plain [= <-]. split; [done|set_solver]. }
  eapply ewp_try; [by apply ewp_batches| |].
  - intros outs y Hy Ho. apply ewp_ret; [done|]. intros plain Hp. specialize (Ho outs eq_refl).
    assert (Forall2 (λ ct pt, pu_index pt = cu_index ct ∧ pu_data pt = D (cu_index ct)) cts (concat outs)) as Hall.
    { rewrite <- (batches_tile cf cts (replicate (length cts) (unit_size cf)) (length_replicate _ _)) at 1. apply batches_concat.
      eapply Forall2_impl; [|exact Ho]. intros rg out (p & p' & Hcall). eapply decrypt_call; [exact Hcall|].
      intros ct Hct. apply Hc. unfold slice in Hct. apply elem_of_take in Hct as (k & Hk & _).
      rewrite lookup_drop in Hk. by eapply list_elem_of_lookup_2. }
    destruct (collect_ok _ _ _ Hp) as (Hd & _ & Hs). split.
    + intros u d Hu. destruct (Hd u d Hu) as [Hx'|(pt & Hpt & <- & <-)]; [done|].
      apply list_elem_of_lookup in Hpt as [k Hk]. destruct (Forall2_lookup_r _ _ _ _ _ Hall Hk) as (ct & Hct & -> & ->). split; [done|].
      exists ct. split; [by eapply list_elem_of_lookup_2|done].
    + intros ct Hct. apply list_elem_of_lookup in Hct as [k Hk]. destruct (Forall2_lookup_l _ _ _ _ _ Hall Hk) as (pt & Hpt & <- & _).
      apply Hs. by eapply list_elem_of_lookup_2.
  - intros er y Hy _. by split.
Qed.

Lemma ewp_encrypt its x :
  A x.2 →
  ewp i (encrypt_items cf its) (still K b A (λ _ r, ∀ cts, r = Ok cts →
    Forall2 (λ it ct, cu_index ct = pu_index it ∧ ciphers (pu_index it) (cu_data ct) (pu_data it)) its cts)) K b x.
Proof.
  intros Hx. eapply ewp_try; [by apply ewp_batches| |].
  - intros outs y Hy Ho. apply ewp_ret; [done|]. intros cts [= <-]. specialize (Ho outs eq_refl).
    rewrite <- (batches_tile cf its (map (λ it, blen (pu_data it)) its) (length_map _ _)) at 1. apply batches_concat.
    eapply Forall2_impl; [|exact Ho]. intros rg out (p & p' & Hcall). by eapply encrypt_call.
  - intros er y Hy _. by split.
Qed.
End Wp.

(** ** Promises *)

(** The entries of task [i]. *)
Definition own i g (k : nat) (c : change) : Prop := gh_log g !! k = Some c ∧ ch_task c = i.

Definition at_most_once i g : Prop := ∀ k k' c c', own i g k c → own i g k' c' → k = k'.

(** Each change of the task replaces contents of some units by what [f] makes
    of the device before it. *)
Definition changes_by i g (from : nat) (f : device_state → device_state) : Prop :=
  ∀ k c, own i g k c → (from ≤ k)%nat ∧
    ∃ D, history g !! k = Some D ∧ ∀ u, on_device cf u → ch_dev c u = D u ∨ ch_dev c u = f D u.

(** What a request that arrived at [g0] and answered [r] has done by [g]. *)
Definition outcome i (q : Request) (g0 : ghost) (r : result CoreError bytes) (g : ghost) : Prop :=
  let from := length (gh_log g0) in
  extends g0 g ∧
  match q with
  | Read offset len => unheard i g ∧ ∀ out, r = Ok out →
      ∃ k D, (from ≤ k)%nat ∧ history g !! k = Some D ∧ out = device_read cf D (Z.of_N offset) (Z.of_N len)
  | Write offset data fua =>
      changes_by i g from (λ D, updated cf D (Z.of_N offset) data) ∧ at_most_once i g ∧
      ∀ out, r = Ok out → ∃ k c D, own i g k c ∧ history g !! k = Some D ∧
        (∀ u, on_device cf u → ch_dev c u = updated cf D (Z.of_N offset) data u) ∧ (fua = true → ch_last c ≤ gh_durable g)
  | Trim offset len fua =>
      changes_by i g from (λ D, trimmed cf D (Z.of_N offset) (Z.of_N len)) ∧
      ∀ out, r = Ok out →
        (∀ u, on_device cf u → whole_in cf (Z.of_N offset) (Z.of_N len) u → ∃ k c, own i g k c ∧ ch_dev c u = zeros (unit_size cf)) ∧
        (fua = true → ∀ k c, own i g k c → ch_last c ≤ gh_durable g)
  | Flush => unheard i g ∧ ∀ out, r = Ok out → ∀ c, c ∈ gh_log g0 → ch_last c ≤ gh_durable g
  | Checkpoint | Worker => unheard i g
  end.

Lemma history_prefix g g' k D : extends g g' → history g !! k = Some D → history g' !! k = Some D.
Proof.
  intros [Hb [l Hl] _] Hk. unfold history in *. rewrite Hb, Hl, map_app. destruct k as [|k]; [done|]. cbn in *.
  by apply lookup_app_l_Some.
Qed.

Lemma own_prefix i g g' k c : extends g g' → own i g k c → own i g' k c.
Proof. intros [_ [l Hl] _] [Hk Hc]. split; [|done]. rewrite Hl. by apply lookup_app_l_Some. Qed.

Lemma own_expected i K b x y k c : expects i K b x y → own i y.2 k c → own i x.2 k c.
Proof.
  intros Hx [Hk Hc]. destruct (xp_log _ _ _ _ _ Hx) as (l & Hl & Hf). rewrite Hl in Hk. split; [|done].
  apply lookup_app_Some in Hk as [Hk|[_ Hk]]; [done|]. rewrite list.Forall_forall in Hf. by destruct (Hf c (list_elem_of_lookup_2 _ _ _ Hk)).
Qed.

Lemma unheard_own i g : unheard i g ↔ ∀ k c, ¬ own i g k c.
Proof.
  unfold unheard. rewrite list.Forall_forall. split.
  - intros Hf k c [Hk Hc]. by apply (Hf c (list_elem_of_lookup_2 _ _ _ Hk)).
  - intros Hf c [k Hk]%list_elem_of_lookup Hc. by apply (Hf k c).
Qed.

Lemma unheard_stable i K : stable_at i K (unheard i).
Proof. intros b x y Hx Hu. apply unheard_own. intros k c Hk%(own_expected _ _ _ _ _ _ _ Hx). by eapply unheard_own. Qed.

Lemma extends_stable i K g0 : stable_at i K (extends g0).
Proof. intros b x y Hx Hg. eapply extends_trans; [exact Hg|apply Hx]. Qed.

Lemma changes_stable i K from f : stable_at i K (λ g, changes_by i g from f).
Proof.
  intros b x y Hx Hc k c Hk%(own_expected _ _ _ _ _ _ _ Hx). destruct (Hc k c Hk) as (Hf & D & HD & Hu). split; [done|].
  exists D. split; [|done]. eapply history_prefix; [apply Hx|done].
Qed.

Lemma once_stable i K : stable_at i K (at_most_once i).
Proof. intros b x y Hx Ho k k' c c' H1'%(own_expected _ _ _ _ _ _ _ Hx) H2'%(own_expected _ _ _ _ _ _ _ Hx). by eapply Ho. Qed.

Lemma stable_and i K A B : stable_at i K A → stable_at i K B → stable_at i K (λ g, A g ∧ B g).
Proof. intros Ha Hb b x y Hx [H1' H2']. split; [by eapply Ha|by eapply Hb]. Qed.

Lemma outcome_stable i K q g0 r : stable_at i K (outcome i q g0 r).
Proof.
  intros b x y Hx [Hg Ho]. split; [eapply extends_stable; eassumption|]. pose proof (xp_extends _ _ _ _ _ Hx) as He.
  pose proof (ex_durable _ _ He) as Hd. destruct q as [offset len|offset data fua|offset len fua| | |].
  - destruct Ho as [Hu Hr]. split; [eapply unheard_stable; eassumption|]. intros out Hout. destruct (Hr out Hout) as (k & D & Hk & HD & Hx').
    exists k, D. split; [done|]. split; [by eapply history_prefix|done].
  - destruct Ho as (Hc & H1' & Hr). split; [eapply changes_stable; eassumption|]. split; [eapply once_stable; eassumption|].
    intros out Hout. destruct (Hr out Hout) as (k & c & D & Hk & HD & Hu & Hf). exists k, c, D.
    split; [by eapply own_prefix|]. split; [by eapply history_prefix|]. split; [done|]. intros Hfua. specialize (Hf Hfua). lia.
  - destruct Ho as (Hc & Hr). split; [eapply changes_stable; eassumption|]. intros out Hout. destruct (Hr out Hout) as [Hz Hf].
    split; [|intros Hfua k c Hk%(own_expected _ _ _ _ _ _ _ Hx); specialize (Hf Hfua k c Hk); lia].
    intros u Hu Hw. destruct (Hz u Hu Hw) as (k & c & Hk & Hc'). exists k, c. split; [by eapply own_prefix|done].
  - destruct Ho as [Hu Hr]. split; [eapply unheard_stable; eassumption|]. intros out Hout c Hc. specialize (Hr out Hout c Hc). lia.
  - eapply unheard_stable; eassumption.
  - eapply unheard_stable; eassumption.
Qed.

(** Counted from earlier. *)
Lemma outcome_early i q g1 g0 r g : extends g1 g0 → outcome i q g0 r g → outcome i q g1 r g.
Proof.
  intros He [Hg Ho]. split; [by eapply extends_trans|].
  assert (length (gh_log g1) ≤ length (gh_log g0))%nat as Hl by (apply prefix_length, He).
  destruct q as [offset len|offset data fua|offset len fua| | |].
  - destruct Ho as [Hu Hr]. split; [done|]. intros out Hout. destruct (Hr out Hout) as (k & D & Hk & Hx'). exists k, D. split; [lia|done].
  - destruct Ho as (Hc & Ho). split; [|done]. intros k c Hk. destruct (Hc k c Hk). split; [lia|done].
  - destruct Ho as (Hc & Ho). split; [|done]. intros k c Hk. destruct (Hc k c Hk). split; [lia|done].
  - destruct Ho as [Hu Hr]. split; [done|]. intros out Hout c Hc. apply (Hr out Hout). destruct (ex_log _ _ He) as [l Hll]. rewrite Hll. set_solver.
  - done.
  - done.
Qed.

(** ** Requests *)

Lemma unit_positive : 0 < unit_size cf.
Proof. pose proof (gwf_block _ geometry_ok). pose proof (gwf_unit _ geometry_ok). unfold unit_size. lia. Qed.

(** What the range check leaves. *)
Lemma extent_ok offset len : check_extent cf offset len = Ok tt → 0 ≤ offset → 0 ≤ len →
  0 < len ∧ offset + len ≤ size cf.
Proof.
  unfold check_extent. intros Hc Ho Hl.
  destruct ((len =? 0) || negb (is_multiple_of offset (device_block_size (cf_geometry cf)))
    || negb (is_multiple_of len (device_block_size (cf_geometry cf)))
    || match checked_add offset len with Some end_ => size cf <? end_ | None => true end) eqn:Hb; [done|].
  apply orb_false_iff in Hb as [Hb He]. apply orb_false_iff in Hb as [Hb _]. apply orb_false_iff in Hb as [Hz _].
  apply Z.eqb_neq in Hz. unfold checked_add in He. destruct (_ <=? _); [|done]. apply Z.ltb_ge in He. lia.
Qed.

Lemma range_extent offset len : check_range cf offset len = Ok tt → check_extent cf offset len = Ok tt.
Proof. unfold check_range. by destruct (check_extent cf offset len) as [[]|]. Qed.

(** The units of a range are on the device. *)
Lemma range_units offset len u : 0 ≤ offset → 0 < len → offset + len ≤ size cf →
  first_unit cf offset ≤ u ≤ last_unit cf offset len → on_device cf u.
Proof.
  intros Ho Hl Hs [Hf Hla]. pose proof unit_positive as Hp. unfold first_unit, last_unit, on_device, num_units in *.
  fold (unit_size cf). fold (size cf). destruct (gwf_virtual_multiple _ geometry_ok) as [m Hm]. fold (unit_size cf) (size cf) in Hm.
  rewrite Hm, Z.div_mul by lia. split; [pose proof (Z.div_pos offset (unit_size cf) Ho Hp); lia|].
  assert ((offset + len - 1) / unit_size cf < m); [|lia]. apply Z.div_lt_upper_bound; lia.
Qed.

Lemma range_forall offset len : 0 ≤ offset → 0 < len → offset + len ≤ size cf →
  Forall (on_device cf) (unit_range (first_unit cf offset) (last_unit cf offset len)).
Proof.
  intros Ho Hl Hs. apply list.Forall_forall. intros u Hu%elem_of_seqZ. apply (range_units offset len u Ho Hl Hs). lia.
Qed.

Lemma in_range first last u : u ∈ unit_range first last ↔ first ≤ u ≤ last.
Proof. unfold unit_range. rewrite elem_of_seqZ. lia. Qed.

(** A section that refuses to run on a stopped engine. *)
Lemma stopped_section {X} (k : unit → M Engine CoreError X) e r e' :
  failed (en_status e) = true → m_bind check_running k e = (r, e') →
  failed (en_status e') = true ∧ en_cache e' = en_cache e ∧ ∀ v, r ≠ Ok v.
Proof. intros Hf. unfold m_bind, check_running. rewrite Hf. by intros [= <- <-]. Qed.

Definition waiting i (g0 : ghost) : ghost → Prop := λ g, extends g0 g ∧ unheard i g.

Lemma waiting_stable i K g0 : stable_at i K (waiting i g0).
Proof. apply stable_and; [apply extends_stable|apply unheard_stable]. Qed.

(** What a reader remembers of its snapshot. *)
Definition snapped (k : nat) D (known : gmap (Z * Z) bytes) : ghost → Prop :=
  λ g, history g !! k = Some D ∧ known ⊆ sh_known (gh_shadow g).

Lemma snapped_stable i K k D known : stable_at i K (snapped k D known).
Proof.
  intros b x y Hx [Hh Hk]. split; [eapply history_prefix; [apply Hx|done]|]. etrans; [exact Hk|apply Hx].
Qed.

Lemma fill_ok known (l : list (Z * bytes)) (seqs : gmap Z Z) : ∀ e r e',
  (∀ u d, (u, d) ∈ l → known !! (u, default 0 (seqs !! u)) = Some d) → cache_true known e →
  m_each (λ '(u, buf), cache_put u (default 0 (seqs !! u)) buf) l e = (r, e') →
  e' = set_cache (en_cache e') e ∧ cache_true known e'.
Proof.
  induction l as [|[u d] l IH]; intros e r e' Hl Hc; cbn [m_each]; [intros [= <- <-]; split; [by destruct e|done]|].
  intros Hr. apply m_bind_inv in Hr as [([] & e1 & H1' & H2')|(er & H1' & ->)];
    destruct (cache_put_ok known u _ d _ _ _ Hc (Hl u d ltac:(by left)) H1') as (He & Hok & Hc1); [|done].
  destruct (IH e1 r e' (λ u' d' Hu', Hl u' d' ltac:(by right)) Hc1 H2') as (He' & Hc'). split; [|done].
  rewrite He' at 1. rewrite He. done.
Qed.

Lemma ewp_fill i K b A (plain : gmap Z bytes) (seqs : gmap Z Z) x :
  stable_at i K A → A x.2 →
  (∀ g, A g → ∀ u d, plain !! u = Some d → sh_known (gh_shadow g) !! (u, default 0 (seqs !! u)) = Some d) →
  ewp i (act (cache_fill plain seqs)) (still K b A (λ _ _, True)) K b x.
Proof.
  intros HA Hx Hp. apply ewp_act; [done|done|]. intros e g r e' Hi Hg Hr. split; [|done].
  destruct (fill_ok (sh_known (gh_shadow g)) _ _ _ _ _ (λ u d Hu, Hp g Hg u d (proj1 (elem_of_map_to_list _ _ _) Hu)) (iv_cache _ _ Hi) Hr) as [He Hc].
  rewrite He in *. apply promises_same; [done|done| |done]. intros _ Hv. split; [done|apply vol_moves_refl].
Qed.

Lemma ewp_pure {X} i K b A (r : X) x : A x.2 → ewp i (Ret r) (still K b A (λ _ r', r' = r)) K b x.
Proof. intros Hx. by apply ewp_ret. Qed.

Lemma ewp_read i g0 offset len x :
  0 ≤ offset → 0 ≤ len → waiting i g0 x.2 →
  ewp i (read_secret_inner cf offset len)
    (λ _ _ r y, waiting i g0 y.2 ∧ ∀ out, r = Ok out → ∃ k D, (length (gh_log g0) ≤ k)%nat ∧ history y.2 !! k = Some D ∧
       out = device_read cf D offset len) ∅ false x.
Proof.
  intros Ho Hl Hx. pose proof (waiting_stable i ∅ g0) as Hst. unfold read_secret_inner.
  eapply ewp_try; [by apply (ewp_pure i ∅ false (waiting i g0))| |by intros er y Hy _; split].
  intros [] x1 H1' Hr%eq_sym%range_extent. destruct (extent_ok _ _ Hr Ho Hl) as [Hpos Hsize].
  eapply ewp_try; [by apply (ewp_pure i ∅ false (waiting i g0))| |by intros er y Hy _; split]. intros [] x2 H2' _.
  eapply ewp_try; [by apply ewp_freshness|  |by intros er y Hy _; split]. intros [] x3 H3' _.
  eapply ewp_try; [apply (ewp_looks i ∅ false _ Hst _
    (λ g sn, snap_ok cf (sh_known (gh_shadow g)) (dev g) (unit_range (first_unit cf offset) (last_unit cf offset len)) sn)); [done| |]
    | |by intros er y Hy _; split].
  { intros e r e' Hf. by apply stopped_section. }
  { intros g _ Hc. eapply looks_snapshot; [done|exact Hc|by apply range_forall]. }
  intros sn x4 H4' Hsn. destruct (Hsn sn eq_refl) as (Hh & Hc & Hs). clear Hsn.
  set (D := dev x4.2) in *. set (known := sh_known (gh_shadow x4.2)) in *. set (k := length (gh_log x4.2)) in *.
  assert (length (gh_log g0) ≤ k)%nat as Hk by (apply prefix_length, (ex_log _ _ (proj1 H4'))).
  pose proof (stable_and _ _ _ _ Hst (snapped_stable i ∅ k D known)) as Hst2.
  assert (waiting i g0 x4.2 ∧ snapped k D known x4.2) as H4a by (split; [done|by split]).
  eapply ewp_try; [by apply (ewp_decrypt i ∅ false _ Hst2 (sn_cts sn) D x4 H4a), Hs| |intros er y [Hy _] _; by split].
  intros plain x5 H5' Hp. destruct (Hp plain eq_refl) as [Hpl Hall]. clear Hp.
  eapply ewp_try; [apply (ewp_fill i ∅ false _ plain (sn_seqs sn) x5 Hst2 H5')| |intros er y [Hy _] _; by split].
  { intros g [_ [_ Hkn]] u d Hu. destruct (Hpl u d Hu) as (-> & ct & Hct & <-). destruct (so_seq _ _ _ _ _ Hs ct Hct) as (n & -> & Hn).
    cbn. by eapply lookup_weaken. }
  intros [] x6 [Hw [Hh6 _]] _. split; [done|]. intros out [= <-]. exists k, D. split; [done|]. split; [done|].
  apply assemble_read; [apply unit_positive|done|done| | | |].
  - intros u Hu. apply Hc. by apply (range_units offset len).
  - intros u d Hu. by apply Hpl.
  - intros u d Hu. by apply (so_hit _ _ _ _ _ Hs).
  - intros u Hu Hn1 Hn2. destruct (so_all _ _ _ _ _ Hs u (proj2 (in_range _ _ _) Hu)) as [[d Hd]|[(ct & Hct & <-)|Hz]]; [congruence| |done].
    destruct (Hall ct Hct). congruence.
Qed.

(** *** Checkpoints behind the gate *)

Definition at_phase (f : phase) x : Prop := running x.1 → phase_ok (en_volume x.1) (en_world x.1) f.

Lemma at_phase_stable i K f x y : expects i K true x y → at_phase f x → at_phase f y.
Proof. intros Hx Hf Hr. apply (xp_phase _ _ _ _ _ Hx eq_refl Hr). apply Hf. by apply (xp_failed _ _ _ _ _ Hx). Qed.

Lemma piece_op a V w f V' w' f' :
  vol_inv cf a V w → phase_ok V w f → step (mkSystem V w f) EvCheckpoint (mkSystem V' w' f') →
  vol_inv cf a V' w' ∧ phase_ok V' w' f' ∧
  journal_durable_sequence V ≤ journal_durable_sequence V' ∧ journal_appended_sequence V ≤ journal_appended_sequence V'.
Proof.
  intros [[L Hok] Hsh Hg Hd] Hf Hst.
  destruct (step_simulates a _ _ _ (conj (ex_intro _ L Hok) Hf : good (mkSystem V w f)) Hst) as ([Hok' Hf'] & Hg' & Hd' & Hm & Hs).
  destruct (Hs Hsh) as (a' & Hsp & Hsh'). inversion Hsp; subst. cbn in *. split; [split; congruence || done|]. split; [done|lia].
Qed.

(** The gate's holder moves the checkpoint. *)
Lemma promises_gate i K e g e' :
  engine_inv e g → failed (en_status e') = failed (en_status e) →
  (running e → vol_inv cf (sh_abs (gh_shadow g)) (en_volume e) (en_world e) →
   vol_inv cf (sh_abs (gh_shadow g)) (en_volume e') (en_world e') ∧ durable e ≤ durable e' ∧ appended e ≤ appended e') →
  en_cache e' = en_cache e → promises i K true (e, g) (e', g).
Proof.
  intros [Iv Ic Ik Il] Hf Hv Hc. cbn in *. split; cbn; [|apply extends_refl|done|by left|done|congruence|done].
  split; [|done|by eapply cache_true_same|done]. intros Hr. destruct (Iv ltac:(congruence)) as (Hv0 & Hd & Hl).
  destruct (Hv ltac:(congruence) Hv0) as (Hv1 & Hd1 & Ha1). split; [done|]. split; [lia|].
  eapply list.Forall_impl; [exact Hl|]. cbn. lia.
Qed.

Definition gated {X} K A (f : X → phase) : gset Z → bool → result CoreError X → Engine * ghost → Prop :=
  λ K' b' r y, K' = K ∧ b' = true ∧ A y.2 ∧ ∀ v, r = Ok v → at_phase (f v) y.

Section Gate.
Context (i : nat) (K : gset Z) (A : ghost → Prop) (HA : stable_at i K A).

Lemma gate_act {X} (m : M Engine CoreError X) f (f' : X → phase) x :
  A x.2 → at_phase f x →
  (∀ e g r e', engine_inv e g → at_phase f (e, g) → m e = (r, e') →
     failed (en_status e') = failed (en_status e) ∧ en_cache e' = en_cache e ∧
     (running e → ∃ V' w' (F' : phase), en_volume e' = V' ∧ en_world e' = w' ∧
        step (mkSystem (en_volume e) (en_world e) f) EvCheckpoint (mkSystem V' w' F') ∧ ∀ v, r = Ok v → F' = f' v)) →
  ewp i (act m) (gated K A f') K true x.
Proof.
  intros Hx Hf Hm [e g] Hr Hi. cbn in *. destruct (m e) as [r e'] eqn:He. pose proof (HA _ _ _ Hr Hx) as Hg.
  pose proof (at_phase_stable _ _ _ _ _ Hr Hf) as Hf1. destruct (Hm e g r e' Hi Hf1 He) as (Hfa & Hc & Hst). cbn in *.
  exists g. split.
  - apply promises_gate; [done|done| |done]. intros Hrun Hv. destruct (Hst Hrun) as (V' & w' & F' & <- & <- & Hs & _).
    by destruct (piece_op _ _ _ _ _ _ _ Hv (Hf1 Hrun) Hs) as (? & _ & ?).
  - split; [done|]. split; [done|]. split; [done|]. intros v Hv Hrun'. cbn in *. assert (running e) as Hrun by congruence.
    destruct (Hst Hrun) as (V' & w' & F' & <- & <- & Hs & HF). rewrite <- (HF v Hv).
    destruct (iv_volume _ _ Hi Hrun) as (Hvi & _). by destruct (piece_op _ _ _ _ _ _ _ Hvi (Hf1 Hrun) Hs) as (_ & ? & _).
Qed.

Lemma gate_try {X Y} (t : task (result CoreError X)) (h : X → task (result CoreError Y)) Φ (f : X → phase) x :
  ewp i t (gated K A f) K true x →
  (∀ v y, A y.2 → at_phase (f v) y → ewp i (h v) Φ K true y) → (∀ er y, A y.2 → Φ K true (Err er) y) →
  ewp i (t_try t h) Φ K true x.
Proof.
  intros Ht Hh He. apply wp_bind. eapply wp_mono; [|exact Ht]. intros K' b' [v|er] y (-> & -> & HAy & Hf); [|cbn; by apply He].
  apply Hh; [done|by apply Hf].
Qed.

Lemma gate_prepare x : A x.2 → ewp i (act prepare_section) (gated K A (λ p, Applying p [] (items p))) K true x.
Proof.
  intros Hx. eapply (gate_act _ Idle); [done|by intros _|]. intros e g r e' Hi _ Hr. unfold prepare_section in Hr.
  apply m_bind_inv in Hr as [([] & e1 & [= Hrun <-] & (V' & w' & Hp & ->)%on_volume_inv)|(er & [= Hrun <-] & ->)].
  - split; [done|]. split; [done|]. intros _. eexists _, _, _. do 2 (split; [done|]). split; [by apply step_prepare|]. by intros v ->.
  - split; [done|]. split; [done|]. intros Hf. by rewrite Hf in Hrun.
Qed.

Lemma slot_items_snoc (p : PreparedCheckpoint (F := F)) (its : list (Z * Overlay.OverlayVersion)) it :
  slot_items p (its ++ [it]) = slot_items p its ++ (if writes_slot (allow_discard p) it.2 then [it] else []).
Proof. unfold slot_items. rewrite filter_app. by cbn; destruct (writes_slot _ _). Qed.

Lemma gate_execute (p : PreparedCheckpoint (F := F)) : ∀ rest its x,
  A x.2 → at_phase (Applying p its rest) x →
  ewp i (execute_task p (length (slot_items p its)) rest) (gated K A (λ _ : unit, Applying p (its ++ rest) [])) K true x.
Proof.
  induction rest as [|[u ver] rest IH]; intros its x Hx Hf; cbn [execute_task].
  { split; [done|]. split; [done|]. split; [done|]. intros v _. by rewrite app_nil_r. }
  pose proof (slot_items_snoc p its (u, ver)) as Hs. rewrite cons_middle, app_assoc.
  assert (allow_discard p && is_empty_version ver = negb (writes_slot (allow_discard p) ver)) as Hw.
  { unfold writes_slot. by destruct (allow_discard p), (is_empty_version ver). }
  cbn [snd] in Hs. rewrite Hw. destruct (writes_slot (allow_discard p) ver) eqn:Hws; cbn [negb].
  - rewrite <- (Nat.add_1_r (length _)). eapply gate_try.
    + eapply (gate_act _ (Applying p its ((u, ver) :: rest)) (λ _, Applying p (its ++ [(u, ver)]) rest)); [done|done|].
      intros e g r e' Hi _ (V' & w' & (-> & Hr)%on_world_inv & ->)%on_volume_inv. split; [done|]. split; [done|].
      intros _. eexists _, _, _. do 2 (split; [done|]). cbn in Hr. split; [by eapply step_apply|]. by intros v ->.
    + intros [] y Hy Hfy. specialize (IH (its ++ [(u, ver)]) y Hy Hfy). rewrite Hs, length_app in IH. exact IH.
    + intros er y Hy. by split.
  - specialize (IH (its ++ [(u, ver)]) x Hx). rewrite Hs, app_nil_r in IH. apply IH. intros Hr. specialize (Hf Hr). cbn in *.
    apply live_advance; [done|]. cbn. by rewrite Hws.
Qed.

Lemma gate_shards (p : PreparedCheckpoint (F := F)) x : A x.2 → at_phase (Applying p (items p) []) x → ewp i (act (shards_section p)) (gated K A (λ _ : unit, Synced p)) K true x.
Proof.
  intros Hx Hf. eapply gate_act; [done|exact Hf|]. intros e g r e' Hi _ (V' & w' & (-> & Hr)%on_world_inv & ->)%on_volume_inv.
  split; [done|]. split; [done|]. intros _. eexists _, _, _. do 2 (split; [done|]). cbn in Hr. split; [by eapply step_sync|]. by intros v ->.
Qed.

Lemma gate_validate (p : PreparedCheckpoint (F := F)) x : A x.2 → at_phase (Synced p) x → ewp i (act (validate_section p)) (gated K A (λ _ : unit, Completed p)) K true x.
Proof.
  intros Hx Hf. eapply gate_act; [done|exact Hf|]. intros e g r e' Hi _ Hr.
  unfold validate_section, m_bind, get_engine, m_lift in Hr. injection Hr as Hr <-.
  split; [done|]. split; [done|]. intros _. eexists _, _, _. do 2 (split; [done|]). split; [apply step_validate|]. intros v ->. by rewrite Hr.
Qed.

(** The result of the plan, and how the checkpoint stands. *)
Definition planned_phase (completed : result CoreError (PreparedCheckpoint (F := F))) : phase :=
  match completed with Ok p => Completed p | Err _ => Idle end.

Lemma gate_finish completed x : A x.2 → at_phase (planned_phase completed) x → ewp i (act (finish_section completed)) (gated K A (λ _ : Z, Idle)) K true x.
Proof.
  intros Hx Hf. eapply gate_act; [done|exact Hf|]. intros e g r e' Hi _.
  unfold finish_section, m_bind, check_running, get_engine, m_try, m_lift, modify_status, note_journal.
  destruct (failed (en_status e)) eqn:Hrun; cbn; [intros [= <- <-]; split; [done|]; by split|].
  destruct completed as [p|er]; cbn.
  - unfold on_volume. destruct (finish_checkpoint p (en_volume e, en_world e)) as [o [V' w']] eqn:Hfin.
    destruct o; intros [= <- <-]; cbn; (split; [done|]; split; [done|]; intros _; eexists _, _, _;
      do 2 (split; [done|]); split; [by eapply step_finish|done]).
  - intros [= <- <-]. cbn. split; [done|]. split; [done|]. intros _. eexists _, _, _.
    do 2 (split; [done|]). split; [apply step_abandon|done].
Qed.

(** Everything before the publication. *)
Lemma gate_plan x : A x.2 →
  ewp i (t_try (act prepare_section) (λ p : PreparedCheckpoint (F := F),
    t_try (execute_task p 0 (items p)) (λ _, t_try (act (shards_section p)) (λ _, t_try (act (validate_section p)) (λ _, t_ok p)))))
    (λ K' b' r y, K' = K ∧ b' = true ∧ A y.2 ∧ at_phase (planned_phase r) y) K true x.
Proof.
  intros Hx. eapply gate_try; [by apply gate_prepare| |by intros er y Hy]. intros p y1 H1' Hf1.
  eapply gate_try; [by apply (gate_execute p (items p) [])| |by intros er y Hy]. intros [] y2 H2' Hf2.
  eapply gate_try; [by apply gate_shards| |by intros er y Hy]. intros [] y3 H3' Hf3.
  eapply gate_try; [by apply gate_validate| |by intros er y Hy]. intros [] y4 H4' Hf4. by split.
Qed.

Lemma ewp_checkpoint x : A x.2 → ewp i checkpoint (still K false A (λ _ _, True)) K false x.
Proof.
  intros Hx y Hr Hi. apply wp_bind, wp_bind. pose proof (HA _ _ _ Hr Hx) as Hy.
  eapply wp_mono; [|by apply gate_plan]. intros K' b' r y1 (-> & -> & H1' & Hf1).
  eapply wp_mono; [|by apply gate_finish]. intros K'' b'' r' y2 (-> & -> & H2' & _). by split.
Qed.
End Gate.

(** *** Publication *)

(** The ghost state after a section of task [i] that appended. *)
Definition logged i e' (sh' : shadow) (d : Z) g : ghost :=
  mkGhost sh' (gh_base g) (gh_log g ++ [mkChange i (sh_dev sh') (appended e')]) d.

Lemma logged_last i e' sh' d g : history (logged i e' sh' d g) !! length (gh_log (logged i e' sh' d g)) = Some (sh_dev sh').
Proof.
  unfold history, logged. cbn [gh_base gh_log]. rewrite map_app, length_app, app_comm_cons. cbn [map].
  apply list_lookup_middle. cbn. rewrite length_map. lia.
Qed.

Lemma promises_logged i K b e g e' sh' new d :
  engine_inv e g → running e → advances cf K new e (gh_shadow g) e' sh' →
  gh_durable g ≤ d ≤ durable e' → promises i K b (e, g) (e', logged i e' sh' d g).
Proof.
  intros [Iv Ic Ik Il] Hrun [[Tr Tv Tc Tk] Hm Hk HU HD] Hd. destruct (Iv Hrun) as (Hv & Hd0 & Hl). destruct Hm as (Hph & Hdu & Hap).
  split; cbn.
  - split; cbn; [|done|done|apply logged_last]. intros _. split; [done|]. split; [lia|]. apply list.Forall_app. split.
    + eapply list.Forall_impl; [exact Hl|]. cbn. lia.
    + repeat constructor. cbn. lia.
  - split; [done|by eexists|cbn; lia].
  - done.
  - right. eexists. split; [done|]. by split.
  - intros u Hu. by apply HU.
  - done.
  - intros _ _. exact Hph.
Qed.

Section Publish.
Context (i : nat) (K : gset Z) (A : ghost → Prop) (HA : stable_at i K A) (new : device_state) (cts : list CiphertextUnit) (fua : bool).
Hypothesis records_ok : Forall (record_ok cf K new) cts.
Hypothesis records_uniform : uniform cts.

(** The one change a publication made. *)
Definition published (ok : bool) g : Prop :=
  ∃ g1 g2 last, A g1 ∧ history g1 !! length (gh_log g1) = Some (dev g1) ∧
    gh_log g2 = gh_log g1 ++ [mkChange i (dev g2) last] ∧ gh_base g2 = gh_base g1 ∧
    extends g1 g2 ∧ extends g2 g ∧ (∀ k c, own i g k c → own i g2 k c) ∧
    (∀ u, dev g2 u = dev g1 u ∨ u ∈ K ∧ dev g2 u = new u) ∧
    (∀ u, on_device cf u → sized cf (dev g1) u) ∧ Forall (λ c, ch_last c ≤ last) (gh_log g1) ∧
    (ok = true → (∀ u, u ∈ map cu_index cts → dev g2 u = new u) ∧ (fua = true → last ≤ gh_durable g)).

Lemma published_stable ok : stable_at i K (published ok).
Proof.
  intros b x y Hx (g1 & g2 & last & H1' & Hh & Hl & Hb & He1 & He2 & Ho & Hd & Hsz & Hle & Hok).
  exists g1, g2, last. repeat (split; [done|]). split; [|split; [|do 3 (split; [done|])]].
  - eapply extends_trans; [exact He2|apply Hx].
  - intros k c Hk%(own_expected _ _ _ _ _ _ _ Hx). by apply Ho.
  - intros Ht. destruct (Hok Ht) as [Hn Hf]. split; [done|]. intros Hfu. specialize (Hf Hfu). pose proof (ex_durable _ _ (xp_extends _ _ _ _ _ Hx)). lia.
Qed.

Definition publishes {X} : gset Z → bool → result CoreError X → Engine * ghost → Prop := λ K' b' r y,
  K' = K ∧ b' = false ∧ (A y.2 ∧ (∃ er, r = Err er) ∨ published (match r with Ok _ => true | Err _ => false end) y.2).

Lemma ewp_section reclaimed last_round x :
  A x.2 →
  ewp i (act (journal_section cf cts fua reclaimed last_round)) (λ K' b' r y,
    K' = K ∧ b' = false ∧ match r with
      | Ok true => published true y.2
      | Ok false => A y.2
      | Err _ => A y.2 ∨ published false y.2
      end) K false x.
Proof.
  intros Hx [e g] Hr Hi. cbn [fst snd] in *. pose proof (HA _ _ _ Hr Hx) as Hg. cbn [fst snd] in Hg.
  destruct (journal_section cf cts fua reclaimed last_round e) as [r e'] eqn:He. cbn [fst snd].
  destruct (failed (en_status e)) eqn:Hf.
  { unfold journal_section, m_bind, check_running in He. rewrite Hf in He. injection He as <- <-. exists g. split; [|cbn; by auto].
    apply promises_same; [done|done| |apply Hi]. by rewrite Hf. }
  destruct (iv_volume _ _ Hi Hf) as (Hv & Hd & Hl).
  assert (tracks cf e (gh_shadow g)) as Ht by (split; [done|done|apply Hi|apply Hi]).
  destruct (jots_section cf geometry_ok K new (gh_shadow g) cts fua reclaimed last_round records_ok records_uniform e _ r e' Ht eq_refl He) as (sh' & Ha & HQ).
  pose proof (av_moves _ _ _ _ _ _ _ Ha) as (_ & Hdu & Hap).
  assert (∀ ok d, gh_durable g ≤ d ≤ durable e' →
    (ok = true → (∀ u, u ∈ map cu_index cts → sh_dev sh' u = new u) ∧ (fua = true → appended e' ≤ d)) →
    promises i K false (e, g) (e', logged i e' sh' d g) ∧ published ok (logged i e' sh' d g)) as Hpub.
  { intros ok d Hd' Hok. pose proof (promises_logged i K false e g e' sh' new d Hi Hf Ha Hd') as Hp. split; [done|].
    exists g, (logged i e' sh' d g), (appended e'). split; [done|]. split; [apply Hi|]. split; [done|]. split; [done|].
    split; [apply Hp|]. split; [apply extends_refl|]. split; [done|]. split; [|split; [apply Hi|split; [|done]]].
    - cbn. intros u. destruct (decide (u ∈ K)) as [HK|HK]; [|left; by apply (av_units _ _ _ _ _ _ _ Ha)].
      destruct (av_dev _ _ _ _ _ _ _ Ha u); auto.
    - eapply list.Forall_impl; [exact Hl|]. cbn. lia. }
  destruct r as [[]|er].
  - destruct (HQ true eq_refl) as [Hs Hfu]. set (d := if fua then durable e' else gh_durable g).
    destruct (Hpub true d) as [Hp Hpb].
    + unfold d. destruct fua; lia.
    + intros _. split; [by apply Hs|]. intros ->. cbn in d. by apply Hfu.
    + eexists. split; [exact Hp|]. by split.
  - exists g. split; [|cbn; by auto]. pose proof (HQ false eq_refl) as Hsh. cbn in Hsh. subst sh'.
    destruct Ha as [[Tr Tv Tc Tk] Hm _ _ _]. apply promises_same; [done|congruence|by intros; split|done].
  - destruct (Hpub false (gh_durable g)) as [Hp Hpb]; [lia|done|]. eexists. split; [exact Hp|]. cbn. auto.
Qed.

Lemma ewp_rounds : ∀ rounds x, A x.2 → ewp i (publish_rounds cf cts fua rounds) publishes K false x.
Proof.
  induction rounds as [|round rounds IH]; intros x Hx; cbn [publish_rounds]; [split; eauto|].
  apply wp_bind. eapply wp_mono; [|by apply ewp_section]. intros K' b' r y (-> & -> & Hr). destruct r as [[]|er].
  - split; [done|]. split; [done|]. by right.
  - eapply ewp_try; [by apply (ewp_checkpoint i K A HA)| |].
    + intros n z Hz _. by apply IH.
    + intros er z Hz _. split; [done|]. split; [done|]. left. eauto.
  - split; [done|]. split; [done|]. destruct Hr; [left; eauto|by right].
Qed.

Lemma ewp_publish x : A x.2 → ewp i (publish_ciphertexts cf cts fua) publishes K false x.
Proof. apply ewp_rounds. Qed.
End Publish.

(** The entries of a task after a publication. *)
Lemma published_own i K A new cts fua ok g :
  published i K A new cts fua ok g → ∃ g1 c, A g1 ∧ extends g1 g ∧ own i g (length (gh_log g1)) c ∧
    history g !! length (gh_log g1) = Some (dev g1) ∧
    (∀ k c', own i g k c' → own i g1 k c' ∨ k = length (gh_log g1) ∧ c' = c) ∧
    (∀ u, ch_dev c u = dev g1 u ∨ u ∈ K ∧ ch_dev c u = new u) ∧
    (∀ u, on_device cf u → sized cf (dev g1) u) ∧ Forall (λ c', ch_last c' ≤ ch_last c) (gh_log g1) ∧
    (ok = true → (∀ u, u ∈ map cu_index cts → ch_dev c u = new u) ∧ (fua = true → ch_last c ≤ gh_durable g)).
Proof.
  intros (g1 & g2 & last & H1' & Hh & Hl & Hb & He1 & He2 & Ho & Hd & Hsz & Hle & Hok).
  exists g1, (mkChange i (dev g2) last). assert (extends g1 g) as He by (by eapply extends_trans).
  split; [done|]. split; [done|]. split; [|split; [by eapply history_prefix|split; [|done]]].
  - eapply own_prefix; [exact He2|]. split; [|done]. rewrite Hl. by apply list_lookup_middle.
  - intros k c' Hk%Ho. destruct Hk as [Hk Hc]. rewrite Hl in Hk. apply lookup_app_Some in Hk as [Hk|[Hlt Hk]]; [by left|right].
    destruct (k - length (gh_log g1))%nat as [|n] eqn:Hn; [|done]. injection Hk as <-. split; [lia|done].
Qed.

(** *** Locks *)

Lemma stable_more i K K' A : K ⊆ K' → stable_at i K A → stable_at i K' A.
Proof. intros HK HA b x y Hx. apply (HA b). destruct Hx. split; auto. Qed.

Lemma ewp_lock_all {X} i A (t : task X) Φ : stable_at i ∅ A → ∀ us K x,
  (∀ y, A y.2 → ewp i t Φ (list_to_set us ∪ K) false y) → A x.2 → ewp i (lock_all us t) Φ K false x.
Proof.
  intros HA. induction us as [|u us IH]; intros K x Ht Hx; cbn [lock_all].
  { specialize (Ht x Hx). by rewrite list_to_set_nil, (left_id_L ∅ (∪)) in Ht. }
  intros y Hr Hi. apply IH; [|exact (stable_more _ _ _ _ (empty_subseteq K) HA _ _ _ Hr Hx)].
  intros z Hz. specialize (Ht z Hz). rewrite list_to_set_cons in Ht.
  by rewrite (assoc_L (∪)), (comm_L (∪) (list_to_set us)).
Qed.

Lemma ewp_locked {X} i A first last (body : task (result CoreError X)) (Ψ : result CoreError X → ghost → Prop) x :
  stable_at i ∅ A → A x.2 →
  (∀ y, A y.2 → ewp i body (λ K' b' r z, b' = false ∧ Ψ r z.2) (list_to_set (unit_range first last)) false y) →
  ewp i (locked first last body) (λ K' b' r z, K' = ∅ ∧ b' = false ∧ Ψ r z.2) ∅ false x.
Proof.
  intros HA Hx Hb. eapply ewp_lock_all; [exact HA| |exact Hx]. intros y Hy. rewrite (right_id_L ∅ (∪)). apply wp_bind.
  eapply wp_mono; [|by apply Hb]. intros K' b' r z [-> HΨ]. by split.
Qed.

(** *** Writes *)

(** The task's units as they were. *)
Definition frozen K D : ghost → Prop := λ g, ∀ u, u ∈ K → dev g u = D u.

Lemma frozen_stable i K D : stable_at i K (frozen K D).
Proof. intros b x y Hx Hf u Hu. rewrite (xp_units _ _ _ _ _ Hx u Hu). by apply Hf. Qed.

Definition answered {X} (r : result CoreError X) : result CoreError bytes :=
  match r with Ok _ => Ok [] | Err er => Err er end.

(** A request that has made no change has not torn anything. *)
Lemma outcome_refused i q g0 er g : waiting i g0 g → outcome i q g0 (Err er) g.
Proof.
  intros [He Hu]. split; [done|]. pose proof (proj1 (unheard_own _ _) Hu) as Hno. destruct q; try done; try (split; done).
  - split; [intros k c Hk; by destruct (Hno k c)|]. split; [|done]. intros k k' c c' Hk. by destruct (Hno k c).
  - split; [|done]. intros k c Hk. by destruct (Hno k c).
Qed.

(** The records of a write. *)
Lemma write_records K D1 offset data its cts :
  0 ≤ offset → 0 < input_len data → offset + input_len data ≤ size cf →
  let us := unit_range (first_unit cf offset) (last_unit cf offset (input_len data)) in
  K = list_to_set us → its = map (λ u, mkPlaintextUnit u (updated cf D1 offset data u)) us →
  Forall2 (λ it ct, cu_index ct = pu_index it ∧ ciphers (pu_index it) (cu_data ct) (pu_data it)) its cts →
  fits_volume cf cts = true →
  Forall (record_ok cf K (updated cf D1 offset data)) cts ∧ uniform cts ∧ map cu_index cts = us.
Proof.
  intros Ho Hl Hs us -> -> Hall Hfit.
  assert (∀ ct, ct ∈ cts → is_tombstone ct = false) as Htomb.
  { intros ct Hct. unfold fits_volume in Hfit. rewrite forallb_forall in Hfit. apply list_elem_of_In in Hct.
    specialize (Hfit ct Hct). apply andb_true_iff in Hfit as [Hne _]. by apply negb_true_iff in Hne. }
  split; [|split].
  - apply list.Forall_forall. intros ct Hct. pose proof (Htomb ct Hct) as Ht. apply list_elem_of_lookup in Hct as [k Hk].
    destruct (Forall2_lookup_r _ _ _ _ _ Hall Hk) as (it & Hit & Hi & Hc). apply list_elem_of_lookup_2 in Hit.
    apply list_elem_of_fmap in Hit as (u & -> & Hu). cbn in Hi, Hc. subst u.
    split; rewrite ?Ht; [|by apply elem_of_list_to_set|apply length_updated|done].
    pose proof (range_forall offset _ Ho Hl Hs) as Hdev. rewrite list.Forall_forall in Hdev. by apply Hdev.
  - intros ct ct' Hct Hct'. by rewrite !Htomb.
  - apply list_eq. intros k. rewrite list_lookup_fmap. destruct (cts !! k) as [ct|] eqn:Hk; cbn.
    + destruct (Forall2_lookup_r _ _ _ _ _ Hall Hk) as (it & Hit & -> & _). rewrite list_lookup_fmap in Hit.
      destruct (us !! k); [|done]. by injection Hit as <-.
    + apply lookup_ge_None in Hk. apply Forall2_length in Hall. rewrite length_map in Hall. symmetry. apply lookup_ge_None. lia.
Qed.

Lemma write_outcome i g0 (offset : N) data fua D1 cts (r : result CoreError unit) g :
  let us := unit_range (first_unit cf (Z.of_N offset)) (last_unit cf (Z.of_N offset) (input_len data)) in
  0 < input_len data → map cu_index cts = us →
  published i (list_to_set us) (λ g, waiting i g0 g ∧ frozen (list_to_set us) D1 g) (updated cf D1 (Z.of_N offset) data) cts fua
    (match r with Ok _ => true | Err _ => false end) g →
  outcome i (Write offset data fua) g0 (answered r) g.
Proof.
  intros us Hl Hus Hp. destruct (published_own _ _ _ _ _ _ _ _ Hp) as (g1 & c & [[He0 Hun] Hfr] & He & Hown & Hh & Hall & Hdev & Hsz & _ & Hok).
  assert (∀ k c', own i g k c' → k = length (gh_log g1) ∧ c' = c) as Hone.
  { intros k c' Hk. destruct (Hall k c' Hk) as [Hx|Hx]; [|done]. by destruct (proj1 (unheard_own _ _) Hun k c'). }
  assert (∀ u, u ∈ us → updated cf D1 (Z.of_N offset) data u = updated cf (dev g1) (Z.of_N offset) data u) as Hext.
  { intros u Hu. apply updated_ext; [apply unit_positive|]. symmetry. apply Hfr. by apply elem_of_list_to_set. }
  split; [by eapply extends_trans|]. split; [|split].
  - intros k c' Hk. destruct (Hone k c' Hk) as [-> ->]. split; [apply prefix_length, He0|]. exists (dev g1). split; [done|].
    intros u Hu. destruct (Hdev u) as [Hx|[HK Hx]]; [by left|right]. rewrite Hx. apply Hext. by apply elem_of_list_to_set in HK.
  - intros k k' c1 c2 Hk Hk'. destruct (Hone k c1 Hk) as [-> _], (Hone k' c2 Hk') as [-> _]. done.
  - intros out Hout. destruct r as [[]|er]; [|done]. destruct (Hok eq_refl) as [Hnew Hdur].
    exists (length (gh_log g1)), c, (dev g1). split; [done|]. split; [done|]. split; [|done]. intros u Hu.
    destruct (decide (u ∈ us)) as [HK|HK]; [rewrite Hnew by (by rewrite Hus); by apply Hext|].
    rewrite updated_outside; [|apply unit_positive|done|lia|by apply Hsz|].
    + destruct (Hdev u) as [Hx|[Hx _]]; [done|]. by apply elem_of_list_to_set in Hx.
    + intros Hr. apply HK. by apply in_range.
Qed.

Lemma ewp_write_body i g0 (offset : N) data fua x :
  let us := unit_range (first_unit cf (Z.of_N offset)) (last_unit cf (Z.of_N offset) (input_len data)) in
  0 < input_len data → Z.of_N offset + input_len data ≤ size cf → waiting i g0 x.2 →
  ewp i (t_try (act (rmw_section cf (Z.of_N offset) (input_len data))) (λ ex,
    t_try (decrypt_units cf (ex_cts ex)) (λ existing,
    let its := map (build_item cf (Z.of_N offset) data (ex_need ex) (ex_cached ex ∪ existing)) us in
    t_try (encrypt_items cf its) (λ cts,
    if negb (fits_volume cf cts) then t_err CoreCrypto else publish_ciphertexts cf cts fua))))
    (λ K' b' r z, b' = false ∧ outcome i (Write offset data fua) g0 (answered r) z.2) (list_to_set us) false x.
Proof.
  intros us Hl Hs Hx. set (K := list_to_set us). set (q := Write offset data fua). assert (0 ≤ Z.of_N offset) as Ho by lia.
  pose proof (waiting_stable i K g0) as Hst.
  eapply ewp_try; [apply (ewp_looks i K false _ Hst _ (λ g ex, ex_ok cf (dev g) (Z.of_N offset) (input_len data) us ex)); [done| |]
    | |intros er y Hy _; split; [done|by apply outcome_refused]].
  { intros e r e' Hf. by apply stopped_section. }
  { intros g _ Hc. eapply looks_rmw; [done|exact Hc|by apply range_forall]. }
  intros ex x1 H1' Hex. destruct (Hex ex eq_refl) as (Hh & Hc & He). clear Hex. set (D1 := dev x1.2) in *.
  pose proof (stable_and _ _ _ _ Hst (frozen_stable i K D1)) as Hst2. set (A := λ g, waiting i g0 g ∧ frozen K D1 g) in *.
  assert (A x1.2) as H1a by (by split).
  eapply ewp_try; [by apply (ewp_decrypt i K false A Hst2 (ex_cts ex) D1 x1 H1a), He| |intros er y [Hy _] _; split; [done|by apply outcome_refused]].
  intros existing x2 H2' Hp. destruct (Hp existing eq_refl) as [Hpl Hall]. clear Hp. cbv zeta.
  assert (map (build_item cf (Z.of_N offset) data (ex_need ex) (ex_cached ex ∪ existing)) us =
    map (λ u, mkPlaintextUnit u (updated cf D1 (Z.of_N offset) data u)) us) as ->.
  { apply list_fmap_ext. intros k u Hu%list_elem_of_lookup_2. pose proof (proj1 (in_range _ _ _) Hu) as Hr.
    apply build_updated; [apply unit_positive|done|done|done|apply Hc; by apply (range_units (Z.of_N offset) (input_len data))| |].
    - intros d [Hd|[_ Hd]]%lookup_union_Some_raw; [by apply He|by apply Hpl].
    - intros Hf. split; [by apply (eo_need _ _ _ _ _ _ He)|]. intros [Hn1 Hn2]%lookup_union_None.
      destruct (eo_all _ _ _ _ _ _ He u Hu Hf) as [[d Hd]|[(ct & Hct & <-)|Hz]]; [congruence| |done]. destruct (Hall ct Hct). congruence. }
  eapply ewp_try; [by apply (ewp_encrypt i K false A Hst2)| |intros er y [Hy _] _; split; [done|by apply outcome_refused]].
  intros cts x3 H3' Hcts. specialize (Hcts cts eq_refl). destruct (fits_volume cf cts) eqn:Hfit; cbn [negb].
  2:{ split; [done|]. destruct H3' as [Hw _]. by apply outcome_refused. }
  destruct (write_records K D1 _ data _ cts Ho Hl Hs eq_refl eq_refl Hcts Hfit) as (Hrec & Hun & Hus).
  eapply wp_mono; [|by apply (ewp_publish i K A Hst2 (updated cf D1 (Z.of_N offset) data) cts fua Hrec Hun)].
  intros K' b' r z (-> & -> & [[[Hw _] [er ->]]|Hp]); (split; [done|]); [by apply outcome_refused|]. by eapply write_outcome.
Qed.


(** What a request leaves when it holds nothing any more. *)
Definition ends i (q : Request) g0 {X} : gset Z → bool → result CoreError X → Engine * ghost → Prop :=
  λ K' b' r z, K' = ∅ ∧ b' = false ∧ outcome i q g0 (answered r) z.2.

Lemma ends_refused i q g0 {X} er y : waiting i g0 y.2 → ends i q g0 (X := X) ∅ false (Err er) y.
Proof. intros Hy. split; [done|]. split; [done|by apply outcome_refused]. Qed.

(** Checks that touch no state. *)
Lemma ewp_gate {X Y} i q g0 (r : result CoreError Y) (k : Y → task (result CoreError X)) x :
  waiting i g0 x.2 → (∀ v, r = Ok v → ewp i (k v) (ends i q g0) ∅ false x) → ewp i (t_try (Ret r) k) (ends i q g0) ∅ false x.
Proof. intros Hx Hk. destruct r as [v|er]; [by apply Hk|by apply ends_refused]. Qed.

Lemma ewp_fresh {X} i q g0 (k : unit → task (result CoreError X)) x :
  waiting i g0 x.2 → (∀ y, waiting i g0 y.2 → ewp i (k tt) (ends i q g0) ∅ false y) →
  ewp i (t_try (act freshness) k) (ends i q g0) ∅ false x.
Proof.
  intros Hx Hk. eapply ewp_try; [apply (ewp_freshness i ∅ false _ (waiting_stable i ∅ g0)), Hx| |].
  - intros [] y Hy _. by apply Hk.
  - intros er y Hy _. by apply ends_refused.
Qed.

Lemma input_positive data : 0 ≤ input_len data.
Proof. destruct data; cbn; [unfold blen|]; lia. Qed.

Lemma ewp_write i g0 (offset : N) data fua x :
  waiting i g0 x.2 → ewp i (write_inner cf (Z.of_N offset) data fua) (ends i (Write offset data fua) g0) ∅ false x.
Proof.
  intros Hx. apply ewp_gate; [done|]. intros [] Hr%range_extent. pose proof (input_positive data).
  destruct (extent_ok _ _ Hr) as [Hl Hs]; [lia|done|]. apply ewp_gate; [done|]. intros [] _. apply ewp_fresh; [done|]. intros y Hy.
  apply (ewp_locked i (waiting i g0) _ _ _ (λ r g, outcome i (Write offset data fua) g0 (answered r) g)); [apply waiting_stable|done|].
  intros z Hz. by apply ewp_write_body.
Qed.

(** *** Barriers *)

Definition barrier (d : Z) g : ghost := mkGhost (gh_shadow g) (gh_base g) (gh_log g) d.

Lemma promises_barrier i K b e g e' d :
  engine_inv e g → running e → running e' → advances cf ∅ (dev g) e (gh_shadow g) e' (gh_shadow g) →
  gh_durable g ≤ d ≤ durable e' → promises i K b (e, g) (e', barrier d g).
Proof.
  intros [Iv Ic Ik Il] Hrun Hrun' [[Tr Tv Tc Tk] (Hph & Hdu & Hap) Hk _ _] Hd. destruct (Iv Hrun) as (Hv & Hd0 & Hl).
  split; cbn; [|split; [done|done|cbn; lia]|done|by left|done|done|intros _ _; exact Hph].
  split; cbn; [|done|done|done]. intros _. split; [done|]. split; [lia|]. eapply list.Forall_impl; [exact Hl|]. cbn. lia.
Qed.

Lemma sync_barrier e g r e' : engine_inv e g → running e → sync_journal e = (r, e') →
  running e' ∧ advances cf ∅ (dev g) e (gh_shadow g) e' (gh_shadow g) ∧ (r = Ok tt → synced e').
Proof.
  intros Hi Hrun Hr. destruct (iv_volume _ _ Hi Hrun) as (Hv & _).
  assert (tracks cf e (gh_shadow g)) as Ht by (split; [done|done|apply Hi|apply Hi]).
  unfold sync_journal in Hr. apply m_bind_inv in Hr as [(x & e1 & (r0 & Hf & [= ->])%m_try_inv & Hr)|(er & (? & _ & [=])%m_try_inv & _)].
  apply on_volume_inv in Hf as (V' & w' & Hf & ->).
  destruct (vol_op cf _ _ _ (EvFlush r0) V' w' Hv) as (a' & Hsp & Hv' & Hm); [by constructor|]. inversion Hsp; subst.
  unfold m_bind, note_journal, m_lift, get_engine, modify_status in Hr. injection Hr as -> <-. split; [done|]. split.
  - eapply adv_trans; [by apply (tracks_volume cf ∅ _ e (gh_shadow g) V' w')|].
    split; [|apply vol_moves_refl|done|done|auto]. apply tracks_status; [done|]. by apply (tracks_volume cf ∅ (dev g)).
  - intros ->. destruct (vi_ok _ _ _ _ Hv) as [L Hok]. exact (flush_covers _ _ _ _ _ Hok Hf).
Qed.

(** A barrier that succeeds covers every change before it. *)
Lemma ewp_barrier i g0 x :
  waiting i g0 x.2 →
  ewp i (act flush_section) (λ K' b' r y, K' = ∅ ∧ b' = false ∧ waiting i g0 y.2 ∧
    (r = Ok tt → ∀ c, c ∈ gh_log g0 → ch_last c ≤ gh_durable y.2)) ∅ false x.
Proof.
  intros Hx [e g] Hr Hi. cbn [fst snd] in *. pose proof (waiting_stable i ∅ g0 _ _ _ Hr Hx) as Hg. cbn [fst snd] in Hg.
  destruct (flush_section e) as [r e'] eqn:He. cbn [fst snd]. unfold flush_section, m_bind, check_running in He.
  destruct (failed (en_status e)) eqn:Hf.
  { injection He as <- <-. exists g. split; [|by split]. apply promises_same; [done|done|by rewrite Hf|apply Hi]. }
  destruct (iv_volume _ _ Hi Hf) as (Hv & Hd & Hl). destruct (sync_barrier _ _ _ _ Hi Hf He) as (Hf' & Ha & Hs).
  pose proof (av_moves _ _ _ _ _ _ _ Ha) as (_ & Hdu & Hap).
  set (d := match r with Ok _ => durable e' | Err _ => gh_durable g end).
  assert (gh_durable g ≤ d ≤ durable e') as Hdd by (unfold d; destruct r; lia).
  pose proof (promises_barrier i ∅ false e g e' d Hi Hf Hf' Ha Hdd) as Hp. exists (barrier d g). split; [exact Hp|].
  split; [done|]. split; [done|]. split; [split; [eapply extends_trans; [apply Hg|apply Hp]|apply Hg]|].
  intros ->. cbn. intros c Hc. specialize (Hs eq_refl). unfold synced in Hs. rewrite list.Forall_forall in Hl.
  assert (c ∈ gh_log g) as Hcg by (destruct Hg as [[_ [l ->] _] _]; set_solver). specialize (Hl c Hcg). lia.
Qed.

Lemma ewp_flush i q g0 x :
  waiting i g0 x.2 →
  (∀ g, waiting i g0 g → (∀ c, c ∈ gh_log g0 → ch_last c ≤ gh_durable g) → outcome i q g0 (Ok []) g) →
  ewp i (flush_inner cf) (ends i q g0) ∅ false x.
Proof.
  intros Hx Hq. apply ewp_gate; [done|]. intros [] _. apply ewp_fresh; [done|]. intros y Hy.
  eapply wp_mono; [|by apply (ewp_barrier i g0)]. intros K' b' r z (-> & -> & Hz & Hc).
  destruct r as [[]|er]; [|by apply ends_refused]. split; [done|]. split; [done|]. apply Hq; [done|by apply Hc].
Qed.

(** *** Trims *)

Lemma whole_units (offset len : Z) u :
  0 ≤ offset → whole_in cf offset len u ↔ div_ceil offset (unit_size cf) ≤ u < (offset + len) / unit_size cf.
Proof.
  intros Ho. pose proof unit_positive as Hp. pose proof (div_ceil_spec offset (unit_size cf) Hp) as Hd. unfold whole_in.
  pose proof (Z.mul_div_le (offset + len) (unit_size cf) Hp). pose proof (Z.mul_succ_div_gt (offset + len) (unit_size cf) Hp).
  split; intros [H1' H2']; split; nia.
Qed.

Section Trim.
Context (i : nat) (g0 : ghost) (offset len : N) (fua : bool).
Abbreviation first := (div_ceil (Z.of_N offset) (unit_size cf)).
Abbreviation end_ := ((Z.of_N offset + Z.of_N len) / unit_size cf).
Hypothesis within : Z.of_N offset + Z.of_N len ≤ size cf.
Hypothesis discards : cf_supports_discard cf = true.

(** Units below [m] are trimmed. *)
Record trims (m : Z) g : Prop := {
  ti_extends : extends g0 g;
  ti_changes : changes_by i g (length (gh_log g0)) (λ D, trimmed cf D (Z.of_N offset) (Z.of_N len));
  ti_done u : first ≤ u < m → ∃ k c, own i g k c ∧ ch_dev c u = zeros (unit_size cf)
}.

Lemma trims_stable m K : stable_at i K (trims m).
Proof.
  intros b x y Hx [He Hc Hd]. split; [by eapply extends_stable|by eapply changes_stable|].
  intros u Hu. destruct (Hd u Hu) as (k & c & Hk & Hz). exists k, c. split; [eapply own_prefix; [apply Hx|done]|done].
Qed.

Lemma trims_outcome m er g : trims m g → outcome i (Trim offset len fua) g0 (Err er) g.
Proof. intros [He Hc Hd]. split; [done|]. split; [done|]. done. Qed.

Lemma trims_published start stop last ok g :
  first ≤ start ≤ stop → stop ≤ end_ →
  published i (list_to_set (unit_range start (stop - 1))) (trims start) (λ _, zeros (unit_size cf))
    (map (λ u, mkCiphertextUnit u []) (seqZ start (stop - start))) last ok g →
  trims (if ok then stop else start) g ∧ (ok = true → last = true → ∀ k c, own i g k c → ch_last c ≤ gh_durable g).
Proof.
  intros Hst Hen Hp. destruct (published_own _ _ _ _ _ _ _ _ Hp) as (g1 & c & [He0 Hch Hdn] & He & Hown & Hh & Hall & Hdev & Hsz & Hle & Hok).
  assert (∀ u, u ∈ (list_to_set (unit_range start (stop - 1)) : gset Z) → start ≤ u < stop) as HK.
  { intros u Hu%elem_of_list_to_set%in_range. lia. }
  split; [split|].
  - by eapply extends_trans.
  - intros k c' Hk. destruct (Hall k c' Hk) as [Hx|[-> ->]].
    + destruct (Hch k c' Hx) as (Hf & D & HD & Hu). split; [done|]. exists D. split; [by eapply history_prefix|done].
    + split; [apply prefix_length, He0|]. exists (dev g1). split; [done|]. intros u _. destruct (Hdev u) as [Hx|[Hu Hx]]; [by left|right].
      apply HK in Hu. unfold trimmed. rewrite bool_decide_true; [done|]. apply whole_units; lia.
  - intros u Hu. destruct (decide (u < start)) as [Hlt|Hge].
    + destruct (Hdn u) as (k & c' & Hk & Hz); [lia|]. exists k, c'. split; [by eapply own_prefix|done].
    + destruct ok; [|lia]. destruct (Hok eq_refl) as [Hnew _]. exists (length (gh_log g1)), c. split; [done|]. apply Hnew.
      rewrite <- list_fmap_compose. apply list_elem_of_fmap. exists u. split; [done|]. apply elem_of_seqZ. lia.
  - intros -> ->. destruct (Hok eq_refl) as [_ Hdur]. specialize (Hdur eq_refl). intros k c' Hk.
    destruct (Hall k c' Hk) as [[Hx _]|[_ ->]]; [|done]. rewrite list.Forall_forall in Hle.
    specialize (Hle c' (list_elem_of_lookup_2 _ _ _ Hx)). lia.
Qed.

Lemma trim_records start stop :
  first ≤ start ≤ stop → stop ≤ end_ →
  let cts := map (λ u, mkCiphertextUnit u []) (seqZ start (stop - start)) in
  Forall (record_ok cf (list_to_set (unit_range start (stop - 1))) (λ _, zeros (unit_size cf))) cts ∧ uniform cts.
Proof.
  intros Hst Hen cts. pose proof unit_positive as Hp.
  assert (∀ ct, ct ∈ cts → ∃ u, ct = mkCiphertextUnit u [] ∧ start ≤ u < stop) as Hin.
  { intros ct (u & -> & Hu%elem_of_seqZ)%list_elem_of_fmap. exists u. split; [done|lia]. }
  split.
  - apply list.Forall_forall. intros ct (u & -> & Hu)%Hin. split; cbn; [| |apply length_zero_unit|by split].
    + assert (whole_in cf (Z.of_N offset) (Z.of_N len) u) as [Hw1 Hw2] by (apply whole_units; lia).
      pose proof (div_ceil_spec (Z.of_N offset) (unit_size cf) Hp).
      apply (range_units (u * unit_size cf) (unit_size cf)); [nia|lia|lia|].
      unfold first_unit, last_unit. rewrite Z.div_mul by lia. replace (u * unit_size cf + unit_size cf - 1) with (unit_size cf - 1 + u * unit_size cf) by lia.
      rewrite Z.div_add, Z.div_small by lia. lia.
    + apply elem_of_list_to_set, in_range. lia.
  - intros ct ct' (u & -> & _)%Hin (u' & -> & _)%Hin. done.
Qed.

Definition chunk_done (stop : Z) (last : bool) : gset Z → bool → result CoreError unit → Engine * ghost → Prop := λ K' b' r z,
  K' = ∅ ∧ b' = false ∧ match r with
    | Ok _ => trims stop z.2 ∧ (last = true → ∀ k c, own i z.2 k c → ch_last c ≤ gh_durable z.2)
    | Err _ => ∃ m, trims m z.2
    end.

Lemma ewp_chunk start stop last x :
  first ≤ start ≤ stop → stop ≤ end_ → trims start x.2 →
  ewp i (trim_units cf start stop last) (chunk_done stop last) ∅ false x.
Proof.
  intros Hst Hen Hx. unfold trim_units. destruct (check_request cf _) as [[]|er]; [|split; [done|]; split; [done|]; eauto]. cbn [t_try t_bind].
  eapply ewp_try; [apply (ewp_freshness i ∅ false _ (trims_stable start ∅)), Hx| |intros er y Hy _; split; [done|]; split; [done|]; eauto].
  intros [] y Hy _. destruct (trim_records start stop Hst Hen) as [Hrec Hun].
  eapply (ewp_locked i (trims start) _ _ _ (λ r g, match r with
    | Ok _ => trims stop g ∧ (last = true → ∀ k c, own i g k c → ch_last c ≤ gh_durable g) | Err _ => ∃ m, trims m g end));
    [apply trims_stable|done|]. intros z Hz.
  eapply wp_mono; [|by apply (ewp_publish i _ (trims start) (trims_stable start _) _ _ last Hrec Hun)].
  intros K' b' r z' (-> & -> & [[Ht [er ->]]|Hp]); (split; [done|]); [by eexists|].
  destruct (trims_published start stop last _ _ Hst Hen Hp) as [Ht Hd]. destruct r as [[]|er]; [|by eexists]. split; [done|by apply Hd].
Qed.

Lemma ewp_chunks per_chunk : 1 ≤ per_chunk → ∀ fuel start x,
  first ≤ start ≤ end_ → (Z.to_nat (end_ - start) ≤ fuel)%nat → trims start x.2 →
  (start = end_ → fua = true → ∀ k c, own i x.2 k c → ch_last c ≤ gh_durable x.2) →
  ewp i (trim_all cf fua end_ (trim_chunks fuel per_chunk start end_)) (ends i (Trim offset len fua) g0) ∅ false x.
Proof.
  intros Hper. pose proof unit_positive as Hpos.
  assert (end_ ≤ U64_MAX) as Hmax.
  { pose proof (gwf_virtual _ geometry_ok) as [_ Hv]. pose proof (Z.mul_div_le (Z.of_N offset + Z.of_N len) (unit_size cf) Hpos).
    unfold size in within. unfold I64_MAX, U64_MAX in *. nia. }
  induction fuel as [|fuel IH]; intros start x Hst Hfu Ht Hdur; cbn [trim_chunks]; [|destruct (Z.ltb_spec start end_) as [Hlt|Hge]].
  2:{ set (stop := Z.min (saturating_add start per_chunk) end_).
      assert (start < stop ≤ end_) as Hstop by (unfold stop, saturating_add; lia).
      cbn [trim_all]. apply wp_bind. eapply wp_mono; [|apply (ewp_chunk start stop (fua && (stop =? end_))); [lia|lia|done]].
      intros K' b' r z (-> & -> & Hr). destruct r as [[]|er].
      - destruct Hr as [Hts Hd]. apply IH; [lia|lia|done|]. intros He Hf. apply Hd. rewrite Hf, He. by rewrite Z.eqb_refl.
      - destruct Hr as [m Hm]. split; [done|]. split; [done|]. by eapply trims_outcome. }
  all: assert (start = end_) as He by lia; destruct Ht as [Hx Hc Hd]; split; [done|]; split; [done|]; split; [done|]; split; [done|].
  all: intros out _; split; [|by apply Hdur]; intros u _ Hw%whole_units; [apply Hd; lia|lia].
Qed.

Lemma waiting_trims g : waiting i g0 g → trims first g.
Proof.
  intros [He Hu]. pose proof (proj1 (unheard_own _ _) Hu) as Hno. split; [done| |lia]. intros k c Hk. by destruct (Hno k c).
Qed.
End Trim.

Lemma trim_nothing i g0 offset len fua r g :
  (Z.of_N offset + Z.of_N len) / unit_size cf ≤ div_ceil (Z.of_N offset) (unit_size cf) → waiting i g0 g → outcome i (Trim offset len fua) g0 r g.
Proof.
  intros Hn [He Hu]. pose proof (proj1 (unheard_own _ _) Hu) as Hno. split; [done|]. split; [intros k c Hk; by destruct (Hno k c)|].
  intros out _. split; [intros u _ Hw%whole_units; lia|]. intros _ k c Hk. by destruct (Hno k c).
Qed.

Lemma ewp_trim i g0 (offset len : N) fua x :
  waiting i g0 x.2 → ewp i (trim_inner cf (Z.of_N offset) (Z.of_N len) fua) (ends i (Trim offset len fua) g0) ∅ false x.
Proof.
  intros Hx. apply ewp_gate; [done|]. intros [] Hr. destruct (extent_ok _ _ Hr) as [Hl Hs]; [lia|lia|].
  destruct (cf_supports_discard cf) eqn:Hds; cbn [negb]; [|by apply ends_refused]. cbv zeta.
  destruct (Z.leb_spec ((Z.of_N offset + Z.of_N len) / unit_size cf) (div_ceil (Z.of_N offset) (unit_size cf))) as [Hn|Hn].
  - destruct fua; [apply ewp_flush; [done|]; intros g Hg _; by apply trim_nothing|].
    apply ewp_gate; [done|]. intros [] _.
    eapply wp_mono; [|apply (ewp_freshness i ∅ false _ (waiting_stable i ∅ g0)), Hx]. intros K' b' r y (-> & -> & Hy & _).
    split; [done|]. split; [done|]. by apply trim_nothing.
  - apply ewp_chunks; [done|done|lia|lia|lia|by apply waiting_trims|lia].
Qed.

(** *** Checkpoints and the worker *)

Lemma ewp_quiet {X} i K b A (m : M Engine CoreError X) x :
  stable_at i K A → A x.2 → (∀ e, (m e).2 = set_status (en_status (m e).2) e ∧ failed (en_status (m e).2) = failed (en_status e)) →
  ewp i (act m) (still K b A (λ _ _, True)) K b x.
Proof.
  intros HA Hx Hm. apply ewp_act; [done|done|]. intros e g r e' Hi Hg He. split; [|done]. destruct (Hm e) as [H1' H2'].
  rewrite He in H1', H2'. cbn in H1', H2'. rewrite H1'. apply promises_same; [done|done| |by eapply cache_true_same; [|apply Hi]].
  intros _ Hv. split; [done|apply vol_moves_refl].
Qed.

Section Worker.
Context (i : nat) (g0 : ghost).
Abbreviation W0 := (waiting i g0).

Lemma ewp_running x : W0 x.2 → ewp i (act check_running) (still ∅ false W0 (λ _ _, True)) ∅ false x.
Proof. intros Hx. apply ewp_quiet; [apply waiting_stable|done|]. intros e. cbn. split; [by destruct e|done]. Qed.

Lemma worker_decision_quiet V e :
  (worker_decision cf V e).2 = set_status (en_status (worker_decision cf V e).2) e ∧
  failed (en_status (worker_decision cf V e).2) = failed (en_status e).
Proof.
  assert (e = set_status (en_status e) e ∧ failed (en_status e) = failed (en_status e)) as Hsame by (by destruct e).
  unfold worker_decision, m_bind, get_engine. cbv zeta. destruct (_ && _ && _ && _); [done|].
  destruct (match checkpoint_retry_at _ with Some _ => _ | None => _ end); [done|]. destruct (checkpoint_stop _); [done|].
  cbn [modify_status]. by destruct (negb _).
Qed.

Lemma ewp_worker_sync x : W0 x.2 → ewp i (act worker_sync) (still ∅ false W0 (λ _ _, True)) ∅ false x.
Proof.
  intros Hx. apply ewp_act; [apply waiting_stable|done|]. intros e g r e' Hi Hg He. split; [|done].
  assert (promises i ∅ false (e, g) (e, g)) as Hsame.
  { apply promises_same; [done|done| |apply Hi]. intros _ Hv. split; [done|apply vol_moves_refl]. }
  unfold worker_sync, m_bind, m_try, check_running, get_engine in He. destruct (failed (en_status e)) eqn:Hf; [by injection He as <- <-|].
  destruct (checkpoint_stop (en_status e)); [by injection He as <- <-|]. destruct (sync_journal e) as [r0 e1] eqn:Hs.
  assert (e' = e1) as -> by (by destruct r0; injection He). destruct (sync_barrier _ _ _ _ Hi Hf Hs) as (Hf' & Ha & _).
  pose proof (av_moves _ _ _ _ _ _ _ Ha) as (_ & Hdu & _). destruct (iv_volume _ _ Hi Hf) as (_ & Hd & _).
  replace g with (barrier (gh_durable g) g) at 2 by (by destruct g). apply promises_barrier; [done..|lia].
Qed.

Lemma ewp_seen x : W0 x.2 → ewp i (act get_engine) (still ∅ false W0 (λ _ _, True)) ∅ false x.
Proof. intros Hx. apply ewp_quiet; [apply waiting_stable|done|]. intros e. cbn. split; [by destruct e|done]. Qed.

Lemma ewp_worker_checkpoint x : W0 x.2 → ewp i (worker_checkpoint cf) (still ∅ false W0 (λ _ _, True)) ∅ false x.
Proof.
  intros Hx. pose proof (waiting_stable i ∅ g0) as Hst. eapply ewp_try; [by apply ewp_seen|..].
  - intros e y Hy _. destruct (checkpoint_stop _); [by split|]. apply wp_bind.
    eapply wp_mono; [|by apply (ewp_checkpoint i ∅ W0 Hst)]. intros K' b' r z (-> & -> & Hz & _).
    destruct r; (apply ewp_quiet; [done|done|]; intros e'; by cbn).
  - intros er y Hy _. by split.
Qed.

Lemma ewp_worker x : W0 x.2 → ewp i (worker_pass cf) (still ∅ false W0 (λ _ _, True)) ∅ false x.
Proof.
  intros Hx. pose proof (waiting_stable i ∅ g0) as Hst.
  eapply ewp_try; [by apply ewp_seen| |by intros er y Hy _; split]. intros seen x1 H1' _.
  eapply ewp_try; [apply (ewp_quiet i ∅ false W0 _ x1 Hst H1'), worker_decision_quiet| |by intros er y Hy _; split].
  intros [[]|] y Hy _; [|by apply ewp_worker_checkpoint|by split].
  eapply ewp_try; [by apply ewp_worker_sync| |by intros er z Hz _; split].
  intros [[[]|er]|] z Hz _; [by apply ewp_worker_checkpoint| |by split]. apply ewp_quiet; [done|done|]. intros e'. by cbn.
Qed.
End Worker.

(** *** Every request *)

Lemma ewp_discarding {X} i q g0 (t : task (result CoreError X)) x :
  ewp i t (ends i q g0) ∅ false x → ewp i (discarding t) (λ K' b' r y, outcome i q g0 r y.2) ∅ false x.
Proof. intros Ht. apply wp_bind. eapply wp_mono; [|exact Ht]. intros K' b' [v|er] y (-> & -> & Hy); exact Hy. Qed.

Lemma ewp_observe {X} i g0 (t : task (result CoreError X)) Φ x :
  waiting i g0 x.2 → (∀ y, waiting i g0 y.2 → ewp i t Φ ∅ false y) → (∀ er y, waiting i g0 y.2 → Φ ∅ false (Err er) y) →
  ewp i (observe t) Φ ∅ false x.
Proof. intros Hx Ht He. eapply ewp_try; [by apply ewp_running|by intros [] y Hy _; apply Ht|by intros er y Hy _; apply He]. Qed.

Lemma request_ok i q e g : engine_inv e g → unheard i g → ewp i (handle cf q) (met outcome i q g) ∅ false (e, g).
Proof.
  intros Hi Hu. assert (waiting i g (e, g).2) as Hx by (split; [apply extends_refl|done]).
  destruct q as [offset len|offset data fua|offset len fua| | |]; cbn [handle].
  - apply (ewp_observe i g); [done| |intros er y Hy; by apply outcome_refused]. intros y Hy.
    eapply wp_mono; [|apply (ewp_read i g); [lia|lia|done]]. intros K' b' r z [[He Hz] Hr]. by split.
  - apply ewp_discarding, (ewp_observe i g); [done| |intros er y; by apply ends_refused]. intros y Hy. by apply ewp_write.
  - apply ewp_discarding, (ewp_observe i g); [done| |intros er y; by apply ends_refused]. intros y Hy. by apply ewp_trim.
  - apply ewp_discarding, (ewp_observe i g); [done| |intros er y; by apply ends_refused]. intros y Hy. apply ewp_flush; [done|].
    intros g' [He Hg] Hc. split; [done|]. by split.
  - apply ewp_discarding. eapply wp_mono; [|apply (ewp_checkpoint i ∅ _ (waiting_stable i ∅ g)), Hx].
    intros K' b' r y (-> & -> & [He Hy] & _). split; [done|]. split; [done|]. by split.
  - apply ewp_discarding. eapply wp_mono; [|by apply (ewp_worker i g)].
    intros K' b' r y (-> & -> & [He Hy] & _). split; [done|]. split; [done|]. by split.
Qed.

(** ** Runs *)

(** An engine that has just been opened on a volume whose versions [a] hold
    the plaintexts [D]; [known] has the plaintext of each version. *)
Record opened known a D e : Prop := {
  op_volume : vol_inv cf a (en_volume e) (en_world e);
  op_content : content cf known a D;
  op_cache u en : ¬ cached e u en
}.

Definition first_ghost known a D e : ghost := mkGhost (mkShadow a known D) D [] (durable e).

Lemma opened_inv known a D e : opened known a D e → engine_inv e (first_ghost known a D e).
Proof.
  intros [Hv Hc Hn]. split; cbn; [|done| |done].
  - intros _. split; [done|]. split; [lia|constructor].
  - intros u en Hu. by destruct (Hn u en).
Qed.

(** C1. The engine is one device.  Whatever reads, writes, trims, flushes,
    checkpoints and worker passes run at the same time, however they
    interleave, are dropped or fail, the run has one history: a list of changes of
    the device, each made by one request between its arrival and its answer.
    A read returns the bytes of one state of the device in its interval; a
    successful write is one change that replaces exactly its bytes, and one
    that fails makes at most one change and leaves each unit old or new; a
    trim zeroes every whole unit it covers; a flush that succeeds, and a
    request with FUA, is behind a journal sequence that is durable. *)
Theorem engine_linearizable (ps : nat → pool) known a D N :
  opened known a D (po_state (ps O)) → po_threads (ps O) = ∅ → po_next (ps O) = O →
  (∀ n, (n < N)%nat → pool_step (handle cf) environment (ps n) (ps (S n))) →
  ∃ gs : nat → ghost, gs O = first_ghost known a D (po_state (ps O)) ∧
    (∀ n, (n ≤ N)%nat → engine_inv (po_state (ps n)) (gs n)) ∧
    (∀ n, (n < N)%nat → extends (gs n) (gs (S n)) ∧ extension (po_state (ps n), gs n) (po_state (ps (S n)), gs (S n))) ∧
    ∀ (n m : nat) i q r K b, (n ≤ m ≤ N)%nat → (po_next (ps n) ≤ i)%nat →
      po_threads (ps m) !! i = Some (mkThread q (Ret r) K b) → outcome i q (gs n) r (gs m).
Proof.
  intros Ho Ht Hn Hs. set (g0 := first_ghost known a D (po_state (ps O))).
  assert (pool_ok engine_inv unheard promises expects outcome (ps O) g0 (λ _, g0)) as Hp.
  { split; [by apply opened_inv|intros i t Hi|intros i t Hi|intros i _; constructor|intros i j t t' _ Hi|intros i j t t' _ Hi]; by rewrite Ht in Hi. }
  destruct (trace_ok (handle cf) environment engine_inv unheard extends extension promises expects outcome
    (λ i q g0 K b r x y Hx, outcome_stable i K q g0 r b x y Hx) request_ok outcome_early ps g0 _ N Hp Hn Hs) as (gs & H0' & Hok & Hst & Hout).
  exists gs. split; [done|]. split; [|done]. intros n Hle. destruct (Hok n Hle) as [arr Hpn]. apply Hpn.
Qed.
End Runs.
