(* ===== verification/EngineSample.v ===== *)
(** * EngineSample: two requests on one unit

    A small volume under an engine with a masking provider: a write with FUA
    and two reads of the same unit, one before the write is published and one
    after it.  The premises of the engine's theorems hold, and the reads
    return the old and the new bytes. *)

From S2P Require Import Prelude BTreeMap Codec Layout Geometry AbRecord Metadata Superblock JournalFormat Backing Provider CrashBacking AbStore FixedCopy DurableProof JournalWriter JournalProof JournalDurability RecoveryScan Volumes JournalScan SlotStore Recovery StoreData StoreProof StoreReads StoreOpen StoreRuns Overlay Volume VolumeState VolumeOps VolumeCheckpoint VolumeRuns Cache Tasks Engine EngineLocks EngineBytes EngineProof EngineRuns.
Import Store Volume Engine.
Import (hints) Metadata.Catalog Metadata.Allocation Metadata.Checkpoint.

Local Open Scope Z_scope.

Module EngineSample.
#[local] Existing Instance Ieee.ieee.
Import JournalSample StoreSample VolumeRunSample.

(** Byte by byte, length preserving. *)
Definition mask (b : Init.Byte.byte) : Init.Byte.byte := Init.Byte.of_bits (
  let '(b0, (b1, (b2, (b3, (b4, (b5, (b6, b7))))))) := Init.Byte.to_bits b in
  (b0, (negb b1, (b2, (negb b3, (negb b4, (b5, (negb b6, b7)))))))).

Definition caps : CryptoCapabilities :=
  mkCapabilities [] [] [512] 512 true true (mkBatchCapability true 4 4096) Absent Absent Absent.

#[export] Instance masking : CryptoProvider unit := {|
  capabilities := λ n, (Ok caps, n);
  encrypt_batch := λ _ items n, (Ok (List.map (λ it, mkCiphertextUnit (pu_index it) (List.map mask (pu_data it))) items), n);
  decrypt_batch := λ _ items n, (Ok (List.map (λ ct, mkPlaintextUnit (cu_index ct) (List.map mask (cu_data ct))) items), n)
|}.

Definition cf : EngineConfig :=
  mkEngineConfig (mkCryptoContext [] 1 []) g true 4 4096 64 4096 4096 0 0 false
    (mkCheckpointPolicy 65536 65536 4096 0 0 1000).

Lemma mask_mask b : mask (mask b) = b.
Proof. by destruct b. Qed.

#[export] Instance masking_laws : CipherLaws unit (cf_context cf).
Proof.
  refine (Build_CipherLaws unit _ _ (λ _ c d, c = List.map mask d) _ _).
  - intros its p out p' [= <- <-] _. induction its as [|it its IH]; constructor; done.
  - intros cts p out p' d [= <- <-] _. induction cts as [|ct cts IH]; constructor; [|done].
    cbn. intros ->. rewrite List.map_map. rewrite (List.map_ext _ id); [apply List.map_id|]. intros b. apply mask_mask.
Qed.

Abbreviation Eng := (Engine.Engine (W := Inner) (F := CrashFile) (HT := bytes) (P := unit)).

Definition e0 : Eng := mkEngine v0 st0.2 (checked_pinned tt 512) (Some (Cache.new 4096 1000))
  (mkStatus false Ready false false false 0 0 0 None) 0 (Ok None).

Definition data : bytes := replicate 512 Init.Byte.x42.
Definition pool0 : pool (S := Eng) (Req := Request) (R := result CoreError bytes) := mkPool e0 ∅ 0.

Definition schedule : list (event (Req := Request)) :=
  [Arrive (Write 512 (Borrowed data) true); Move 0; Move 0; Move 0; Move 0;
   Arrive (Read 512 512); Move 1; Move 1; Move 1; Move 0; Move 0; Arrive (Read 512 512); Move 2; Move 2;
   Move 2; Move 2; Move 0; Move 1; Move 2].

Abbreviation Pool := (pool (S := Eng) (Req := Request) (R := result CoreError bytes)).

Definition at_ (n : nat) : Pool := moment (handle cf) pool0 schedule n.

#[local] Instance input_eq_dec : EqDecision WriteInput.
Proof. solve_decision. Defined.
#[local] Instance request_eq_dec : EqDecision Request.
Proof. solve_decision. Defined.

(** Task [i] has answered [out] to [q]. *)
Definition answered_with (i : nat) (q : Request) (out : bytes) (p : Pool) : bool :=
  match po_threads p !! i with
  | Some (mkThread q' (Ret (Ok d)) _ _) => bool_decide (q' = q) && bytes_eqb d out
  | _ => false
  end.

Lemma answered_thread i q out p :
  answered_with i q out p = true → ∃ K b, po_threads p !! i = Some (mkThread q (Ret (Ok out)) K b).
Proof.
  unfold answered_with. destruct (po_threads p !! i) as [[q' [[d|]| | | | |] K b]|]; try done.
  intros [->%bool_decide_eq_true ->%bytes_eqb_eq]%andb_true_iff. by exists K, b.
Qed.

Definition engine_outcomes : list bool := [
  (base.size (st_shards st0.1) =? 0)%nat;
  answered_with 0 (Write 512 (Borrowed data) true) [] (at_ 19);
  answered_with 1 (Read 512 512) (zeros 512) (at_ 19); answered_with 2 (Read 512 512) data (at_ 19);
  (po_next (at_ 5) =? 1)%nat; (po_next (at_ 11) =? 2)%nat; (base.size (po_threads (at_ 12)) =? 3)%nat].

Lemma engine_outcomes_true : forallb id engine_outcomes = true.
Proof. vm_compute. reflexivity. Qed.

Lemma engine_outcome i b : engine_outcomes !! i = Some b → b = true.
Proof.
  intros Hb. pose proof engine_outcomes_true as Ha. rewrite forallb_forall in Ha. apply Ha, list_elem_of_In.
  by eapply list_elem_of_lookup_2.
Qed.

(** A volume nobody wrote to. *)
Definition blank : abstract := mkAbstract (list_to_map (List.map (λ u, (u, SlotZero)) [0; 1; 2; 3])) 0.
Definition zero_device : device_state := λ _, zeros 512.

Lemma blank_units u x : a_units blank !! u = Some x → 0 ≤ u < 4 ∧ x = SlotZero.
Proof.
  cbn. rewrite !lookup_insert_Some, lookup_empty. naive_solver lia.
Qed.

Lemma blank_shown u : 0 ≤ u < 4 → a_units blank !! u = Some SlotZero.
Proof.
  intros Hu. assert (u = 0 ∨ u = 1 ∨ u = 2 ∨ u = 3) as [->|[->|[->| ->]]] by lia; reflexivity.
Qed.

Lemma store_geometry : st_geometry st0.1 = g.
Proof. destruct (open_peeks g w0 small_inv g_wf _ _ open0) as [_ HQ]. by destruct (HQ _ eq_refl) as (_ & Hg & _). Qed.

Lemma store_blank : st_shards st0.1 = ∅.
Proof.
  apply map_size_empty_iff. exact (proj1 (Nat.eqb_eq _ _) (engine_outcome 0 _ eq_refl)).
Qed.

Lemma blank_shows : shows blank v0 st0.2.
Proof.
  split; [apply Z.le_refl|]. intros u x Hu. destruct (blank_units u x Hu) as [Hr ->].
  change (vo_store v0) with st0.1. unfold vol_view, vol_steady, device. change (vo_store v0) with st0.1.
  change (Overlay.get (vo_overlay v0) u) with (Overlay.get Overlay.new u).
  assert (Overlay.get Overlay.new u = None) as -> by reflexivity.
  unfold view, steady, settled. rewrite store_geometry, store_blank. split; [exact Hr|].
  split; [by destruct (shard_of_unit g u)|]. left. intros sh Hs. by rewrite lookup_empty in Hs.
Qed.

Lemma opened0 : EngineRuns.opened cf ∅ blank zero_device e0.
Proof.
  split.
  - split; [exists (λ _, []); exact sys0_volume|exact blank_shows|exact store_geometry|exact (run_outcome 0 _ eq_refl)].
  - split; [|by vm_compute|].
    + intros u Hu. exists SlotZero. split; [|reflexivity]. apply blank_shown. exact Hu.
    + intros u n d Hd. by rewrite lookup_empty in Hd.
  - intros u en (c & [= <-] & Hc). cbn in Hc. by rewrite lookup_empty in Hc.
Qed.
End EngineSample.

Import EngineSample JournalSample.
#[local] Existing Instance Ieee.ieee.

(** The write, the read before it and the read after it, on one history. *)
Lemma engine_linearizable_witness : ∃ gs : nat → ghost,
  outcome cf 0 (Write 512 (Borrowed data) true) (gs 0%nat) (Ok []) (gs 19%nat) ∧
  outcome cf 1 (Read 512 512) (gs 5%nat) (Ok (zeros 512)) (gs 19%nat) ∧
  outcome cf 2 (Read 512 512) (gs 11%nat) (Ok data) (gs 19%nat).
Proof.
  destruct (engine_linearizable cf StoreSample.g_wf at_ ∅ blank zero_device 19 opened0 eq_refl eq_refl
    (λ n Hn, moment_step (handle cf) environment pool0 schedule n Hn)) as (gs & _ & _ & _ & Hout).
  destruct (answered_thread 0 _ [] _ (engine_outcome 1 _ eq_refl)) as (K0 & b0 & H0').
  destruct (answered_thread 1 _ _ _ (engine_outcome 2 _ eq_refl)) as (K1 & b1 & H1').
  destruct (answered_thread 2 _ _ _ (engine_outcome 3 _ eq_refl)) as (K2 & b2 & H2').
  exists gs. split; [|split].
  - exact (Hout 0%nat 19%nat 0%nat _ _ K0 b0 ltac:(lia) ltac:(apply le_n) H0').
  - refine (Hout 5%nat 19%nat 1%nat _ _ K1 b1 ltac:(lia) _ H1').
    rewrite (proj1 (Nat.eqb_eq _ _) (engine_outcome 4 _ eq_refl)). apply le_n.
  - refine (Hout 11%nat 19%nat 2%nat _ _ K2 b2 ltac:(lia) _ H2').
    rewrite (proj1 (Nat.eqb_eq _ _) (engine_outcome 5 _ eq_refl)). apply le_n.
Defined.

(** Three requests are pending after twelve events; they all finish. *)
Lemma requests_finish_witness :
  base.size (po_threads (at_ 12)) = 3%nat ∧ Acc (λ y x : Pool, ∃ i, moves i x y) (at_ 12) ∧
  ∀ y, rtc (λ x y : Pool, ∃ i, moves i x y) (at_ 12) y → (∀ i z, ¬ moves i y z) → ∀ i t, po_threads y !! i = Some t → finished t.
Proof.
  split; [exact (proj1 (Nat.eqb_eq _ _) (engine_outcome 6 _ eq_refl))|].
  exact (requests_finish cf environment pool0 (at_ 12) eq_refl (play_run (handle cf) environment pool0 (take 12 schedule))).
Defined.
