(* ===== verification/SelfTest.v ===== *)
(** * SelfTest: the provider's self-test (crates/maki-crypto/src/selftest.rs)

    Before a volume attaches, its provider encrypts and decrypts three fixed
    patterns in batches within its own limits; a claimed context binding and
    a claimed integrity are exercised with ciphertexts that must not decrypt
    to the original.  The batches are shown to be admissible, together with
    those of the engine (crates/maki-core/src/engine.rs, [batch_chunks]). *)

From S2P Require Import Prelude Backing Metadata Provider JournalWriter Volume Cache Tasks Engine.

Local Open Scope Z_scope.

(** ** Batches *)

(** The inner loop: the end of the batch that starts at [start]. *)
Fixpoint batch_end (max_items max_bytes : Z) (sizes : list Z) (start end_ : nat) (bytes : Z) : nat :=
  match sizes with
  | [] => end_
  | sz :: sizes =>
      let next := saturating_add bytes sz in
      if (start <? end_)%nat && ((max_items <? Z.of_nat (end_ - start) + 1) || (max_bytes <? next)) then end_
      else if max_items <=? Z.of_nat (S end_ - start) then S end_
      else batch_end max_items max_bytes sizes start (S end_) next
  end.

(** The outer loop; every batch has an item, so the items bound the rounds. *)
Fixpoint batch_from (max_items max_bytes : Z) (sizes : list Z) (fuel start : nat) : list (nat * nat) :=
  match fuel with
  | O => []
  | S fuel =>
      if (start <? length sizes)%nat then
        let end_ := batch_end max_items max_bytes (drop start sizes) start start 0 in
        (start, end_) :: batch_from max_items max_bytes sizes fuel end_
      else []
  end.

Definition batch_ranges (caps : CryptoCapabilities) (sizes : list Z) : list (nat * nat) :=
  batch_from (Z.max (bt_max_items (batch caps)) 1) (Z.max (bt_max_bytes (batch caps)) 1) sizes (length sizes) 0.

(** ** The test *)

(** [x ^= x << 13; x ^= x >> 17; x ^= x << 5] on [u32]. *)
Definition xorshift32 (x : Z) : Z :=
  let x := Z.lxor x (Z.shiftl x 13 mod 2 ^ 32) in
  let x := Z.lxor x (Z.shiftr x 17) in
  Z.lxor x (Z.shiftl x 5 mod 2 ^ 32).

Fixpoint pseudo (n : nat) (x : Z) : bytes :=
  match n with
  | O => []
  | S n => let x := xorshift32 x in byte.of_Z x :: pseudo n x
  end.

Definition patterns (unit_size : nat) : list PlaintextUnit := [
  mkPlaintextUnit 0 (replicate unit_size Init.Byte.x00);
  mkPlaintextUnit 1 (replicate unit_size Init.Byte.xff);
  mkPlaintextUnit 2 (pseudo unit_size 0x2545F491)].

#[global] Instance ContextField_eq_dec : EqDecision ContextField.
Proof. solve_decision. Defined.

(** A negative probe: what its error proves. *)
Definition classify_probe_err (e : CryptoError) : result CryptoError unit :=
  match e with
  | Integrity => Ok tt
  | _ => match class e with
         | Retryable_ | Throttled_ | EndpointFatal_ => Err e
         | _ => Err ProviderFatal
         end
  end.

Definition xor_byte (k : Z) (b : Init.Byte.byte) : Init.Byte.byte := byte.of_Z (Z.lxor (byte.unsigned b) k).

(** Fields of the context, changed for a probe. *)
Definition other_volume (cx : CryptoContext) : CryptoContext :=
  mkCryptoContext (take 8 (cx_volume_uuid cx) ++ map (xor_byte 255) (drop 8 (cx_volume_uuid cx)))
    (cx_format_version cx) (cx_compatibility_id cx).
Definition other_format (cx : CryptoContext) : CryptoContext :=
  mkCryptoContext (cx_volume_uuid cx) ((cx_format_version cx + 1) mod 2 ^ 32) (cx_compatibility_id cx).
Definition other_profile (cx : CryptoContext) : CryptoContext :=
  mkCryptoContext (cx_volume_uuid cx) (cx_format_version cx) (cx_compatibility_id cx ++ magic ".selftest-probe").

(** [tampered.data[mid] ^= 0x01]. *)
Definition tamper (ct : CiphertextUnit) : CiphertextUnit :=
  mkCiphertextUnit (cu_index ct) (alter (xor_byte 1) (length (cu_data ct) / 2)%nat (cu_data ct)).

Definition moved (ct : CiphertextUnit) : CiphertextUnit :=
  mkCiphertextUnit ((cu_index ct + 1) mod 2 ^ 64) (cu_data ct).

Section SelfTest.
Context `{CryptoProvider P}.
Abbreviation pio := (M P CryptoError).

Fixpoint encrypt_chunked (context : CryptoContext) (items : list PlaintextUnit) (caps : CryptoCapabilities)
    (ranges : list (nat * nat)) : pio (list CiphertextUnit) :=
  match ranges with
  | [] => m_ret []
  | r :: ranges =>
      let chunk := Engine.slice r items in
      let* cts := encrypt_batch context chunk in
      let* _ := m_lift (validate_encrypt_result chunk cts caps) in
      let* rest := encrypt_chunked context items caps ranges in
      m_ret (cts ++ rest)
  end.

Fixpoint decrypt_chunked (context : CryptoContext) (items : list CiphertextUnit) (caps : CryptoCapabilities)
    (ranges : list (nat * nat)) : pio (list PlaintextUnit) :=
  match ranges with
  | [] => m_ret []
  | r :: ranges =>
      let chunk := Engine.slice r items in
      let* pts := decrypt_batch context chunk in
      let* _ := m_lift (validate_decrypt_result chunk pts caps) in
      let* rest := decrypt_chunked context items caps ranges in
      m_ret (pts ++ rest)
  end.

Definition check_context_probe (context : CryptoContext) (probe : CiphertextUnit) (original : bytes)
    (caps : CryptoCapabilities) (refused_field : option ContextField) : pio unit :=
  let* r := m_try (decrypt_batch context [probe]) in
  match r with
  | Ok pts =>
      let* _ := m_lift (validate_decrypt_result [probe] pts caps) in
      match pts with
      | pt :: _ => if bytes_eqb (pu_data pt) original then m_err ProviderFatal else m_ret tt
      | [] => m_ret tt
      end
  | Err (UnsupportedContext field as e) =>
      if bool_decide (refused_field = Some field) then m_ret tt else m_lift (classify_probe_err e)
  | Err e => m_lift (classify_probe_err e)
  end.

Definition context_probes (context : CryptoContext) (ct : CiphertextUnit) (original : bytes)
    (caps : CryptoCapabilities) : pio unit :=
  let* _ := check_context_probe context (moved ct) original caps None in
  let* _ := check_context_probe (other_volume context) ct original caps None in
  let* _ := check_context_probe (other_format context) ct original caps (Some FormatVersion) in
  check_context_probe (other_profile context) ct original caps (Some CompatibilityId).

Definition tamper_probe (context : CryptoContext) (ct : CiphertextUnit) : pio unit :=
  let* r := m_try (decrypt_batch context [tamper ct]) in
  match r with
  | Ok _ => m_err ProviderFatal
  | Err e => m_lift (classify_probe_err e)
  end.

Definition provider_self_test (context : CryptoContext) (unit_size : nat) (expected : bytes) : pio unit :=
  let* caps := capabilities in
  if negb (bytes_eqb (compatibility_id caps) expected) then m_err ProviderFatal else
  if negb (bytes_eqb (cx_compatibility_id context) expected) then m_err ProviderFatal else
  if negb (accepts_plaintext_size caps (Z.of_nat unit_size)) then m_err ProviderFatal else
  let items := patterns unit_size in
  let* cts := encrypt_chunked context items caps (batch_ranges caps (map (λ it, blen (pu_data it)) items)) in
  let* pts := decrypt_chunked context cts caps (batch_ranges caps (map (λ _, Z.of_nat unit_size) cts)) in
  if existsb (λ '(orig, got), negb (bytes_eqb (pu_data orig) (pu_data got))) (zip items pts) then m_err ProviderFatal else
  if existsb (λ '(ct, pt), bytes_eqb (cu_data ct) (pu_data pt)) (zip cts items) then m_err ProviderFatal else
  let nth_ct i := nth i cts (mkCiphertextUnit 0 []) in
  let* _ := m_when (present (context_binding caps)) (context_probes context (nth_ct 0%nat) (replicate unit_size Init.Byte.x00) caps) in
  m_when (present (integrity caps)) (tamper_probe context (nth_ct 2%nat)).
End SelfTest.

(** ** Both splitters make admissible batches *)

Definition sum (l : list Z) : Z := foldr Z.add 0 l.

(** Non-empty ranges, one after the other, from [start] to [stop]. *)
Fixpoint tiles (start stop : nat) (rs : list (nat * nat)) : Prop :=
  match rs with
  | [] => start = stop
  | (a, b) :: rs => a = start ∧ (a < b)%nat ∧ tiles b stop rs
  end.

(** Within both limits; a single item may exceed the bytes. *)
Definition admissible (max_items max_bytes : Z) (sizes : list Z) (r : nat * nat) : Prop :=
  Z.of_nat (r.2 - r.1) ≤ max_items ∧ ((r.2 - r.1 = 1)%nat ∨ sum (Engine.slice r sizes) ≤ max_bytes).

Section Batches.
Context (sizes : list Z).
Hypothesis sizes_nonneg : Forall (λ sz, 0 ≤ sz) sizes.
Hypothesis sizes_fit : sum sizes ≤ U64_MAX.
Implicit Types (i start : nat).

Abbreviation upto start i := (sum (Engine.slice (start, i) sizes)).

Lemma sum_app l l' : sum (l ++ l') = sum l + sum l'.
Proof. unfold sum. induction l as [|x l IH]; [done|]. cbn [foldr app]. rewrite IH. lia. Qed.

Lemma sum_nonneg l : Forall (λ sz, 0 ≤ sz) l → 0 ≤ sum l.
Proof. unfold sum. induction 1; cbn [foldr]; lia. Qed.

Lemma upto_step start i sz : (start ≤ i)%nat → sizes !! i = Some sz → upto start (S i) = upto start i + sz.
Proof.
  intros Hs Hi. unfold Engine.slice. cbn [fst snd]. replace (S i - start)%nat with (S (i - start)) by lia.
  rewrite (take_S_r _ _ sz); [rewrite sum_app; unfold sum at 2; cbn [foldr]; lia|]. rewrite lookup_drop. rewrite <- Hi. f_equal. lia.
Qed.

Lemma upto_one start sz : sizes !! start = Some sz → upto start (S start) = sz.
Proof.
  intros Hs. rewrite (upto_step start start sz (le_n _) Hs). unfold Engine.slice. cbn [fst snd]. by rewrite Nat.sub_diag.
Qed.

Lemma upto_fits start i : 0 ≤ upto start i ≤ U64_MAX.
Proof.
  assert (Forall (λ sz, 0 ≤ sz) (Engine.slice (start, i) sizes)) as Hf by (by apply Forall_take, Forall_drop). split; [by apply sum_nonneg|].
  etrans; [|exact sizes_fit]. unfold Engine.slice. cbn [fst snd]. rewrite <- (take_drop start sizes) at 2.
  rewrite <- (take_drop (i - start) (drop start sizes)) at 2. rewrite !sum_app.
  pose proof (sum_nonneg (take start sizes) ltac:(by apply Forall_take)).
  pose proof (sum_nonneg (drop (i - start) (drop start sizes)) ltac:(by apply Forall_drop, Forall_drop)). lia.
Qed.

(** The engine's loop. *)
Lemma chunks_admissible cf : 1 ≤ Engine.cf_batch_max_items cf → ∀ rest i start bytes,
  drop i sizes = rest → (start ≤ i ≤ length sizes)%nat → (start < i)%nat ∨ i = O → bytes = upto start i →
  Z.of_nat (i - start) ≤ Engine.cf_batch_max_items cf → (i - start ≤ 1)%nat ∨ bytes ≤ Engine.cf_batch_max_bytes cf →
  tiles start (length sizes) (Engine.chunks_from cf rest i start bytes) ∧
  Forall (admissible (Engine.cf_batch_max_items cf) (Engine.cf_batch_max_bytes cf) sizes) (Engine.chunks_from cf rest i start bytes).
Proof.
  intros Hmax. induction rest as [|sz rest IH]; intros i start bytes Hd Hi Hne Hb Hit Hby; cbn [Engine.chunks_from].
  - assert (i = length sizes) as -> by (apply (f_equal length) in Hd; rewrite length_drop in Hd; cbn in Hd; lia).
    destruct (Nat.ltb_spec start (length sizes)).
    + split; [done|]. constructor; [|constructor]. split; cbn [fst snd]; [lia|]. rewrite Hb in Hby. lia.
    + split; [cbn; lia|constructor].
  - assert (sizes !! i = Some sz) as Hsz by (rewrite <- (Nat.add_0_r i), <- lookup_drop, Hd; done).
    assert (drop (S i) sizes = rest) as Hd' by (rewrite <- Nat.add_1_r, <- drop_drop, Hd; done).
    pose proof (lookup_lt_Some _ _ _ Hsz) as Hlt.
    destruct (_ || _) eqn:Ho.
    + apply orb_true_iff in Ho. assert (start < i)%nat as Hsi.
      { destruct Hne as [?| ->]; [done|]. destruct Ho as [Ho|Ho]; [apply Z.leb_le in Ho; lia|]. apply andb_true_iff in Ho as [Ho _]. apply Nat.ltb_lt in Ho. lia. }
      destruct (IH (S i) i sz Hd') as [Ht Hf]; [lia|lia|symmetry; by apply upto_one|lia|left; lia|].
      split; [done|]. constructor; [|done]. split; cbn [fst snd]; [lia|]. rewrite Hb in Hby. lia.
    + apply orb_false_iff in Ho as [Ho1 Ho2]. apply Z.leb_gt in Ho1.
      apply IH; [done|lia|lia|rewrite (upto_step start i sz) by (done || lia); lia|lia|].
      destruct (decide (start < i)%nat) as [Hs|Hs]; [right|left; lia].
      apply andb_false_iff in Ho2 as [Ho2|Ho2]; [apply Nat.ltb_ge in Ho2; lia|]. apply Z.ltb_ge in Ho2. lia.
Qed.

(** The self-test's loops. *)
Lemma end_admissible max_items max_bytes start : 1 ≤ max_items → ∀ rest i bytes,
  drop i sizes = rest → (start ≤ i ≤ length sizes)%nat → (start < i ∨ rest ≠ [])%nat → bytes = upto start i →
  Z.of_nat (i - start) < max_items ∨ (start < i)%nat ∧ rest = [] → Z.of_nat (i - start) ≤ max_items → (i - start ≤ 1)%nat ∨ bytes ≤ max_bytes →
  let e := batch_end max_items max_bytes rest start i bytes in
  (start < e ≤ length sizes)%nat ∧ admissible max_items max_bytes sizes (start, e).
Proof.
  intros Hmax. induction rest as [|sz rest IH]; intros i bytes Hd Hi Hne Hb Hlt Hit Hby; cbn [batch_end].
  - destruct Hne as [Hne|]; [|done]. split; [lia|]. split; cbn [fst snd]; [lia|]. rewrite Hb in Hby. lia.
  - assert (sizes !! i = Some sz) as Hsz by (rewrite <- (Nat.add_0_r i), <- lookup_drop, Hd; done).
    assert (drop (S i) sizes = rest) as Hd' by (rewrite <- Nat.add_1_r, <- drop_drop, Hd; done).
    pose proof (lookup_lt_Some _ _ _ Hsz) as Hl. destruct Hlt as [Hlt|[_ [=]]].
    assert (saturating_add bytes sz = upto start (S i)) as Hn.
    { rewrite (upto_step start i sz) by (done || lia). pose proof (upto_fits start (S i)) as Hu. rewrite (upto_step start i sz) in Hu by (done || lia).
      unfold saturating_add. lia. }
    cbv zeta. rewrite Hn. destruct (_ && _) eqn:Ho.
    + apply andb_true_iff in Ho as [Hs%Nat.ltb_lt _]. split; [lia|]. split; cbn [fst snd]; [lia|]. rewrite Hb in Hby. lia.
    + assert ((S i - start ≤ 1)%nat ∨ upto start (S i) ≤ max_bytes) as Hby'.
      { apply andb_false_iff in Ho as [Hs%Nat.ltb_ge|Ho]; [left; lia|right]. apply orb_false_iff in Ho as [_ Ho]. apply Z.ltb_ge in Ho. exact Ho. }
      destruct (Z.leb_spec max_items (Z.of_nat (S i - start))) as [Hm|Hm].
      * split; [lia|]. split; cbn [fst snd]; [lia|]. destruct Hby'; [left; lia|by right].
      * apply IH; [done|lia|lia|done|left; lia|lia|done].
Qed.

Lemma ranges_admissible max_items max_bytes : 1 ≤ max_items → ∀ fuel start,
  (length sizes - start ≤ fuel)%nat → (start ≤ length sizes)%nat →
  tiles start (length sizes) (batch_from max_items max_bytes sizes fuel start) ∧
  Forall (admissible max_items max_bytes sizes) (batch_from max_items max_bytes sizes fuel start).
Proof.
  intros Hmax. induction fuel as [|fuel IH]; intros start Hf Hs; cbn [batch_from]; [split; [cbn; lia|constructor]|].
  destruct (Nat.ltb_spec start (length sizes)) as [Hlt|Hge]; [|split; [cbn; lia|constructor]].
  destruct (end_admissible max_items max_bytes start Hmax (drop start sizes) start 0) as [He Ha]; [done|lia| | |left; lia|lia|left; lia|].
  - right. intros Hd. apply (f_equal length) in Hd. rewrite length_drop in Hd. cbn in Hd. lia.
  - unfold Engine.slice. cbn [fst snd]. by rewrite Nat.sub_diag.
  - cbv zeta. destruct (IH (batch_end max_items max_bytes (drop start sizes) start start 0)) as [Ht Hfa]; [lia|lia|].
    split; [split; [done|]; split; [lia|done]|]. by constructor.
Qed.

(** C39. Provider calls are admissible.  The engine and the self-test split
    their items into non-empty batches, one after the other and nothing left
    out, each with at most the provider's number of items and, unless it is a
    single item, at most its number of bytes. *)
Theorem batches_admissible (cf : Engine.EngineConfig) caps :
  1 ≤ Engine.cf_batch_max_items cf →
  tiles 0 (length sizes) (Engine.batch_chunks cf sizes) ∧
  Forall (admissible (Engine.cf_batch_max_items cf) (Engine.cf_batch_max_bytes cf) sizes) (Engine.batch_chunks cf sizes) ∧
  tiles 0 (length sizes) (batch_ranges caps sizes) ∧
  Forall (admissible (Z.max (bt_max_items (batch caps)) 1) (Z.max (bt_max_bytes (batch caps)) 1) sizes) (batch_ranges caps sizes).
Proof.
  intros Hcf.
  destruct (chunks_admissible cf Hcf sizes O O 0) as [H1' H2']; [done|lia|by right|done|cbn; lia|left; lia|].
  destruct (ranges_admissible (Z.max (bt_max_items (batch caps)) 1) (Z.max (bt_max_bytes (batch caps)) 1) ltac:(lia) (length sizes) O) as [H3' H4']; [lia|lia|].
  done.
Qed.
End Batches.
