(* ===== verification/EngineAttach.v ===== *)
(** * EngineAttach: opening the encrypted device (crates/maki-core/src/engine.rs)

    [attach_recovered] checks configuration, identity and provider, proves
    the key with the volume's canary and builds the engine.  The canary ties
    the volume to its key across crashes, and the engine that comes out meets
    what the concurrent runs of EngineRuns start from. *)

From S2P Require Import Prelude BTreeMap Codec Layout Geometry AbRecord Metadata Superblock JournalFormat Backing Provider CrashBacking AbStore FixedCopy DurableProof JournalWriter JournalProof JournalDurability RecoveryScan Volumes JournalScan SlotStore Recovery StoreData StoreProof StoreReads StoreOpen StoreRuns Overlay Volume VolumeState VolumeOps VolumeCheckpoint VolumeRuns Cache Tasks Engine EngineBytes EngineProof EngineRuns SelfTest.
Import Store Volume Engine.
Import (hints) Metadata.Catalog Metadata.Allocation Metadata.Checkpoint.
Import Canary.

Local Open Scope Z_scope.

Inductive AttachError :=
| AttRecovery (e : RecoveryError) | AttCrypto (e : CryptoError) | AttFormat (e : FormatError)
| AttIo (kind : ErrorKind) | AttCore (e : CoreError)
| AttConfig | IdentityMismatch | KeyMismatch | MissingCanary.

Record AttachIdentity := mkAttachIdentity { id_provider_type : bytes; id_key_identity : bytes }.

Record EngineCacheConfig := mkCacheConfig { cc_max_bytes : Z; cc_ttl : Z; cc_verify_on_hit : bool }.

(** The clock option is the engine's time. *)
Record EngineOptions := mkEngineOptions {
  eo_volume : VolumeOptions;
  eo_limits : EngineLimits;
  eo_cache : option EngineCacheConfig;
  eo_identity : option AttachIdentity;
  eo_checkpoint : CheckpointPolicy
}.

Definition canary_store : AbStore := AbStore_new KEY_CANARY_A KEY_CANARY_B.

Section Attach.
Context `{Crc32} `{Backing W F} `{Hasher HT} `{HashOrder} `{CryptoProvider P}.
Abbreviation Volume := (Volume.Volume (F := F) (HT := HT)).
Abbreviation Engine := (Engine.Engine (W := W) (F := F) (HT := HT) (P := P)).
Abbreviation state := (CheckedProvider (P := P) * (Volume * W))%type.
Abbreviation att := (M state AttachError).

Definition at_provider {A} (m : M (CheckedProvider (P := P)) CryptoError A) : M state CryptoError A := λ '(c, x),
  let '(r, c) := m c in (r, (c, x)).
Definition at_volume {A} (m : M (Volume * W) CoreError A) : att A := λ '(c, x),
  let '(r, x) := m x in (map_err AttCore r, (c, x)).
Definition at_world {E A} (f : E → AttachError) (m : M W E A) : att A := λ '(c, (v, w)),
  let '(r, w) := m w in (map_err f r, (c, (v, w))).
Definition at_get : att Volume := λ st, (Ok st.2.1, st).

(** ** The key canary *)

(** The answer has one entry: the checked provider refuses any other. *)
Definition decrypt_probe (context : CryptoContext) (unit_ : CiphertextUnit) : att bytes :=
  let* r := m_try (at_provider (checked_decrypt context [unit_])) in
  match r with
  | Ok (pt :: _) => m_ret (pu_data pt)
  | Ok [] => m_err (AttCrypto Contract)
  | Err e => match class e with
             | Retryable_ | Throttled_ | EndpointFatal_ => m_err (AttCrypto e)
             | _ => m_err KeyMismatch
             end
  end.

Definition persist_key_canary (record : KeyCanary) : att unit :=
  let* _ := at_world AttFormat (store_twice canary_store record) in
  at_world AttIo (b_sync_dir "").

(** A canary that is there: the key must read it. *)
Definition check_canary (context : CryptoContext) (uuid expected : bytes) (canary : KeyCanary) : att unit :=
  if negb (bytes_eqb (Canary.volume_uuid canary) uuid) then m_err KeyMismatch else
  let* plain := decrypt_probe context (mkCiphertextUnit (Canary.unit_index canary) (Canary.ciphertext canary)) in
  if negb (bytes_eqb plain expected) then m_err KeyMismatch else persist_key_canary canary.

(** A volume with data but no canary: real data must authenticate. *)
Definition probe_data (context : CryptoContext) (provider_has_integrity : bool) : att unit :=
  if negb provider_has_integrity then m_err MissingCanary else
  let* found := at_volume first_ciphertext_unit in
  match found with
  | None => m_err MissingCanary
  | Some (unit_, data) => let* _ := decrypt_probe context (mkCiphertextUnit unit_ data) in m_ret tt
  end.

Definition establish_canary (context : CryptoContext) (uuid expected : bytes) : att unit :=
  let* r := m_try (at_provider (checked_encrypt context [mkPlaintextUnit CANARY_UNIT_INDEX expected])) in
  let* cts := m_lift (map_err AttCrypto r) in
  match cts with
  | [] => m_err (AttCrypto Contract)
  | ct :: _ =>
      let* decrypted := decrypt_probe context (mkCiphertextUnit CANARY_UNIT_INDEX (cu_data ct)) in
      if negb (bytes_eqb decrypted expected) then m_err KeyMismatch
      else persist_key_canary (mkKeyCanary 0 uuid CANARY_UNIT_INDEX (cu_data ct))
  end.

Definition verify_key_canary (context : CryptoContext) (provider_has_integrity : bool) : att unit :=
  let* v := at_get in
  let superblock := vo_superblock v in
  let uuid := Superblock.volume_uuid superblock in
  let expected := canary_plaintext uuid (Z.to_nat (crypto_unit_size (Superblock.geometry superblock))) in
  let* existing := at_world AttFormat (load canary_store) in
  match existing with
  | Some canary => check_canary context uuid expected canary
  | None =>
      let* _ := m_when (negb (is_pristine v)) (probe_data context provider_has_integrity) in
      establish_canary context uuid expected
  end.

(** ** Attaching *)

Definition identity_ok (options : EngineOptions) (sb : Superblock) : bool :=
  match eo_identity options with
  | Some identity => bytes_eqb (id_provider_type identity) (provider_type sb)
                     && bytes_eqb (id_key_identity identity) (key_identity sb)
  | None => true
  end.

Definition context_of (sb : Superblock) : CryptoContext :=
  mkCryptoContext (Superblock.volume_uuid sb) (Superblock.format_version sb) (crypto_compatibility_id sb).

(** The byte budget [DualSemaphore::new] keeps. *)
Definition semaphore_bytes (max_bytes : Z) : Z := Z.min max_bytes (Z.shiftr U32_MAX 1).

Definition config_of (options : EngineOptions) (v : Volume) (caps : CryptoCapabilities) : EngineConfig :=
  let limits := eo_limits options in
  mkEngineConfig (context_of (vo_superblock v)) (Superblock.geometry (vo_superblock v)) (supports_discard v)
    (if bt_supported (batch caps) then Z.max (bt_max_items (batch caps)) 1 else 1)
    (if bt_supported (batch caps) then Z.max (bt_max_bytes (batch caps)) 1 else U64_MAX)
    (max_active_callbacks limits) (semaphore_bytes (max_plaintext_bytes limits)) (max_request_bytes limits)
    (max_overlay_bytes limits) (max_overlay_entries limits)
    (match eo_cache options with Some c => cc_verify_on_hit c | None => false end) (eo_checkpoint options).

(** The provider is used unchecked until the self-test has passed. *)
Definition attach_recovered (options : EngineOptions) : att EngineConfig :=
  let* v := at_get in
  let sb := vo_superblock v in
  let g := Superblock.geometry sb in
  if max_pending_bytes (eo_checkpoint options) <? max_record_len (max_ciphertext_size g) then m_err AttConfig else
  if negb (identity_ok options sb) then m_err IdentityMismatch else
  if CANARY_UNIT_INDEX <? num_units g then m_err AttConfig else
  let request := max_request_bytes (eo_limits options) in
  if (request =? 0) || negb (is_multiple_of request (device_block_size g)) then m_err AttConfig else
  let context := context_of sb in
  let* r := m_try (at_provider (on_inner capabilities)) in
  let* caps := m_lift (map_err AttCrypto r) in
  if max_ciphertext_size g <? caps_max_ciphertext caps then m_err AttConfig else
  let* r := m_try (at_provider (on_inner
    (provider_self_test context (Z.to_nat (crypto_unit_size g)) (crypto_compatibility_id sb)))) in
  let* _ := m_lift (map_err AttCrypto r) in
  let* _ := (λ '(c, x), (Ok tt, (checked_pinned (ck_inner c) (crypto_unit_size g), x))) in
  let* _ := verify_key_canary context (present (integrity caps)) in
  m_ret (config_of options v caps).

(** The engine that [attach_recovered] returns. *)
Definition engine_of (options : EngineOptions) (now : Z) (free : result ErrorKind (option Z)) (st : state) : Engine :=
  mkEngine st.2.1 st.2.2 st.1 ((λ c, Cache.new (cc_max_bytes c) (cc_ttl c)) <$> eo_cache options)
    (mkStatus false Ready false false false 0 0 now None) now free.

(** [Engine::attach]. *)
Definition attach (options : EngineOptions) (p : P) : M W AttachError (EngineConfig * state) := λ w,
  match recover (eo_volume options) w with
  | (Err e, w) => (Err (AttRecovery e), w)
  | (Ok v, w) =>
      let '(r, st) := attach_recovered options (checked_new p, (v, w)) in
      match r with
      | Ok cf => (Ok (cf, st), st.2.2)
      | Err e => (Err e, st.2.2)
      end
  end.
End Attach.

(** ** The canary's files *)

Lemma canary_apart q : is_side canary_store q → ¬ (owned q ∨ data_file q).
Proof.
  intros Hq [[[i ->]|[->|Hp]]|[i ->]].
  - revert Hq. rewrite journal_segment_eq. unfold segment_name, JOURNAL_DIR. rewrite !append_cons. by intros [?|?].
  - by destruct Hq.
  - by destruct Hp as [->| ->], Hq.
  - destruct Hq as [Hq|Hq]; symmetry in Hq; revert Hq; apply foreign_data; by split.
Qed.

(** The provider's answer for the canary is the volume's plaintext. *)
Definition reads_canary `{CryptoProvider P} (context : CryptoContext) (sb : Superblock) (canary : KeyCanary)
    (c c' : CheckedProvider (P := P)) : Prop :=
  ∃ pt rest, checked_decrypt context [mkCiphertextUnit (Canary.unit_index canary) (Canary.ciphertext canary)] c
             = (Ok (pt :: rest), c') ∧
    pu_data pt = canary_plaintext (Superblock.volume_uuid sb) (Z.to_nat (crypto_unit_size (Superblock.geometry sb))).

(** The ciphertexts of the provider have at most [n] bytes. *)
Definition answers_within `{CryptoProvider P} (n : Z) (c : CheckedProvider (P := P)) : Prop :=
  ∀ caps c', checked_caps c = (Ok caps, c') → caps_max_ciphertext caps ≤ n.

Section AttachProofs.
Context `{Crc32} `{BackingLaws W F} `{HasherLaws HT} `{HashOrder} `{CryptoProvider P}.
Abbreviation Volume := (Volume.Volume (F := F) (HT := HT)).
Abbreviation state := (CheckedProvider (P := P) * (Volume * W))%type.
Abbreviation elsewhere := (keeps (λ q, ¬ is_side canary_store q)).
Implicit Types (V : Volume) (w : W) (c : CheckedProvider (P := P)).

Lemma canary_store_ok : sides_ok (T := KeyCanary) canary_store.
Proof. by split. Qed.

Lemma at_world_inv {E A} (f : E → AttachError) (m : M W E A) c V w r c' V' w' :
  at_world f m (c, (V, w)) = (r, (c', (V', w'))) →
  c' = c ∧ V' = V ∧ ∃ r0, m w = (r0, w') ∧ r = map_err f r0.
Proof. unfold at_world. destruct (m w) as [r0 w0]. intros [= <- <- <- <-]. eauto. Qed.

Lemma at_provider_inv {A} (m : M (CheckedProvider (P := P)) CryptoError A) c V w r c' V' w' :
  at_provider m (c, (V, w)) = (r, (c', (V', w'))) → V' = V ∧ w' = w ∧ m c = (r, c').
Proof. unfold at_provider. destruct (m c) as [r0 c0]. by intros [= <- <- <- <-]. Qed.

Lemma at_volume_inv {A} (m : M (Volume * W) CoreError A) c V w r c' V' w' :
  at_volume m (c, (V, w)) = (r, (c', (V', w'))) →
  c' = c ∧ ∃ r0, m (V, w) = (r0, (V', w')) ∧ r = map_err AttCore r0.
Proof. unfold at_volume. destruct (m (V, w)) as [r0 [V0 w0]]. intros [= <- <- <- <-]. eauto. Qed.

(** ** The provider *)

Lemma within_run n c caps c' : answers_within n c → checked_caps c = (Ok caps, c') →
  caps_max_ciphertext caps ≤ n ∧ ∀ p, answers_within n (mkChecked p (ck_caps c') (ck_unit_size c')).
Proof.
  intros Hc Hr. split; [by eapply Hc|]. intros p caps' c1. destruct (checked_caps_run _ _ _ Hr) as [-> _].
  intros [= <- _]. by eapply Hc.
Qed.

Lemma decrypt_within n c context items out c' :
  answers_within n c → checked_decrypt context items c = (Ok out, c') → answers_within n c'.
Proof.
  intros Hc (caps & c1 & Hcaps & (o & c2 & Ho & (u & c3 & Hu & Hr)%m_bind_ok)%m_bind_ok)%m_bind_ok.
  destruct (within_run _ _ _ _ Hc Hcaps) as [_ Hw]. unfold on_inner in Ho. destruct (decrypt_batch _ _ _) as [ro p].
  injection Ho as -> <-. injection Hu as _ <-. cbn in Hr. destruct (ck_unit_size c1) as [us|].
  - destruct (forallb _ _); [|done]. injection Hr as _ <-. apply Hw.
  - injection Hr as _ <-. apply Hw.
Qed.

Lemma encrypt_within n c context items out c' :
  answers_within n c → checked_encrypt context items c = (Ok out, c') →
  Forall (λ ct, blen (cu_data ct) ≤ n) out ∧ length out = length items.
Proof.
  intros Hc (caps & c1 & Hcaps & (o & c2 & Ho & (u & c3 & Hu & Hr)%m_bind_ok)%m_bind_ok)%m_bind_ok.
  destruct (within_run _ _ _ _ Hc Hcaps) as [Hle _]. injection Hr as -> _. injection Hu as Hu _.
  unfold validate_encrypt_result in Hu. destruct (Nat.eqb_spec (length out) (length items)) as [Hl|]; [|done]. split; [|done].
  cbn [negb] in Hu. destruct (forallb _ _) eqn:Hf; [|done]. clear -Hf Hl Hle. revert out Hf Hl.
  induction items as [|it items IH]; intros [|ct out] Hf Hl; try done. cbn in Hf. apply andb_true_iff in Hf as [Hi Hf].
  constructor; [|by apply IH; [|injection Hl]]. unfold encrypt_item_ok in Hi. rewrite !andb_true_iff, Z.leb_le in Hi. lia.
Qed.

Lemma decrypt_probe_inv context u c V w r c' V' w' :
  decrypt_probe context u (c, (V, w)) = (r, (c', (V', w'))) →
  V' = V ∧ w' = w ∧ ∀ d, r = Ok d → ∃ pt rest, checked_decrypt context [u] c = (Ok (pt :: rest), c') ∧ pu_data pt = d.
Proof.
  unfold decrypt_probe. intros [(r0 & [c1 [V1 w1]] & (r1 & Hr1 & [= ->])%m_try_inv & Hr)|(e & (? & _ & [=])%m_try_inv & _)]%m_bind_inv.
  apply at_provider_inv in Hr1 as (-> & -> & Hr1). destruct r1 as [[|pt rest]|e].
  - by injection Hr as <- <- <- <-.
  - injection Hr as <- <- <- <-. split; [done|]. split; [done|]. intros d [= <-]. eauto.
  - assert (∃ e', r = Err e' ∧ c' = c1 ∧ V' = V ∧ w' = w) as (e' & -> & -> & -> & ->); [|done].
    destruct (class e); injection Hr as <- <- <- <-; eauto.
Qed.

(** ** The store *)

(** A canary of any ciphertext a provider can return. *)
Definition canary_writable (record : KeyCanary) : Prop :=
  0 ≤ Canary.generation record ∧ length (Canary.volume_uuid record) = 16%nat ∧ blen (Canary.ciphertext record) ≤ U32_MAX.

Lemma canary_ok_writable record : canary_ok record → canary_writable record.
Proof.
  intros (Hg & Hu & _ & Hl). split; [apply Hg|]. split; [done|]. change MAX_CANARY_CIPHERTEXT with 16777216 in Hl. unfold U32_MAX. lia.
Qed.

Lemma writable_record record : canary_writable record → writable (T := KeyCanary) record.
Proof.
  intros (Hg & Hu & Hl). split; [done|]. intros g bs [= <-].
  assert (blen (encode (mkKeyCanary g (Canary.volume_uuid record) (Canary.unit_index record) (Canary.ciphertext record))) =
    52 + blen (Canary.ciphertext record)) as He by (by rewrite canary_encode_length).
  pose proof (blen_nonneg (Canary.ciphertext record)). split; [|unfold U32_MAX, U64_MAX in *; lia].
  intros Hn. rewrite Hn in He. change (blen []) with 0 in He. lia.
Qed.

Lemma persist_keeps record c V w r c' V' w' :
  canary_writable record → inv w → persist_key_canary record (c, (V, w)) = (r, (c', (V', w'))) →
  c' = c ∧ V' = V ∧ elsewhere w w'.
Proof.
  intros Hwf Hi Hr. apply m_bind_inv in Hr as [(a & [c1 [V1 w1]] & Hs & Hr)|(e & Hs & ->)];
    apply at_world_inv in Hs as (-> & -> & r0 & Hs & _);
    pose proof (frames_writable_twice _ record (λ g g' x, eq_refl) canary_store_ok (writable_record _ Hwf) _ _ _ Hi Hs) as Hk; [|done].
  apply at_world_inv in Hr as (-> & -> & r1 & Hd & _). split; [done|]. split; [done|].
  eapply keeps_trans; [exact Hk|]. apply (frames_sync_dir _ "" eq_refl _ _ _ (keeps_inv _ _ _ Hk) Hd).
Qed.

Lemma canary_fits record : canary_ok record → encodings_fit (T := KeyCanary) canary_store record.
Proof.
  intros (_ & Hu & _ & Hl) g bs _ [= <-]. rewrite canary_encode_length by done. cbn [Canary.ciphertext].
  change (bound canary_store) with (MAX_CANARY_CIPHERTEXT + 4096). lia.
Qed.

Lemma persist_settles record c V w c' V' w' :
  canary_ok record → inv w → storable (T := KeyCanary) canary_store w →
  persist_key_canary record (c, (V, w)) = (Ok tt, (c', (V', w'))) →
  ∃ g, AbStore.settled canary_store w' (set_generation g record).
Proof.
  intros Hwf Hi Hst (a & [c1 [V1 w1]] & Hs & Hr)%m_bind_ok.
  apply at_world_inv in Hs as (-> & -> & [a'|] & Hs & [= ->]).
  apply at_world_inv in Hr as (-> & -> & [[]|] & Hd & [=]).
  assert (ab_wf record) as Hab by exact Hwf.
  destruct (store_twice_mirrored _ canary_store_ok (λ g g' x, eq_refl) "" record a' w w1 w' eq_refl eq_refl Hi Hab Hst (canary_fits _ Hwf) Hs Hd)
    as (g & g' & _ & Hm).
  exists g'. by apply (mirrored_settled _ _ _ _ Hm canary_store_ok).
Qed.

Lemma storable_keeps w w' : keeps (λ _, True) w w' → storable (T := KeyCanary) canary_store w → storable (T := KeyCanary) canary_store w'.
Proof.
  intros Hk. unfold storable. rewrite !(copy_keeps _ w w') by done. intros [?|[?|?]]; auto. right. right. by eapply keeps_absent.
Qed.

(** What a load has found. *)
Lemma loaded_canary c V w r c' V' w' :
  inv w → at_world AttFormat (load canary_store) (c, (V, w)) = (r, (c', (V', w'))) →
  c' = c ∧ V' = V ∧ keeps (λ _, True) w w' ∧
  ∀ canary, r = Ok (Some canary) → canary_ok canary ∧ storable (T := KeyCanary) canary_store w.
Proof.
  intros Hi Hr. apply at_world_inv in Hr as (-> & -> & r0 & Hl & ->).
  destruct (load_spec _ _ _ _ Hi canary_store_ok Hl) as (Hk & Ho & _). split; [done|]. split; [done|]. split; [done|].
  intros canary Hr0. destruct r0 as [o|]; [|done]. injection Hr0 as ->. specialize (Ho _ eq_refl).
  assert (∃ p bs, is_side canary_store p ∧ copy_at canary_store w p = Some (canary, bs)) as (p & bs & Hp & Hc).
  { destruct (copy_at canary_store w (side_a canary_store)) as [[ra ba]|] eqn:Ha, (copy_at canary_store w (side_b canary_store)) as [[rb bb]|] eqn:Hb;
      cbn in Ho; try done; try (destruct (_ <=? _) in Ho); injection Ho as ->;
      first [by exists (side_a canary_store), ba; split; [left|] | by exists (side_b canary_store), bb; split; [right|]]. }
  split; [|unfold storable; destruct Hp as [->| ->]; rewrite Hc; eauto].
  unfold copy_at, decode_copy in Hc. destruct (seen _ _ _) as [b|]; [|done]. cbn in Hc. destruct (Canary.decode b) as [x|] eqn:Hd; [|done].
  injection Hc as -> _. by apply canary_decode_ok in Hd as [? _].
Qed.

(** ** The probe of existing data *)

Lemma allocated_device s w u : store_ok s w → u ∈ allocated_units s → device s u.
Proof.
  intros Hok (idx & Hx)%list_elem_of_bind. destruct idx as [idx sh]. destruct Hx as [Hu Hsh%BTreeMap.elem_of_entries].
  apply list_elem_of_omap in Hu as (k & [Hk _]%elem_of_seqZ & Hu). cbn in Hu.
  destruct (_ <? num_units _) eqn:Hlt in Hu; [|done]. destruct (_ && _) in Hu; [|done]. injection Hu as <-.
  pose proof (ok_shards _ _ Hok _ _ Hsh) as Hs. pose proof (sk_idx _ _ _ _ Hs).
  pose proof (gwf_units_per_shard _ (ok_geometry _ _ Hok)). apply Z.ltb_lt in Hlt. split; [nia|done].
Qed.

Lemma read_ct_keeps L V w u r V' w' :
  volume_ok L V w → device (vo_store V) u → read_ct u (V, w) = (r, (V', w')) → V' = V ∧ keeps (λ _, True) w w'.
Proof. intros Hok Hu Hr. destruct (read_ct_reads _ _ _ _ Hok Hu _ _ _ Hr) as (-> & Hk & _). done. Qed.

Lemma first_readable_keeps L V us : ∀ w r V' w',
  volume_ok L V w → Forall (device (vo_store V)) us → first_readable us (V, w) = (r, (V', w')) → V' = V ∧ keeps (λ _, True) w w'.
Proof.
  induction us as [|u us IH]; intros w r V' w' Hok Hus Hr; cbn [first_readable] in Hr.
  { injection Hr as <- <- <-. split; [done|]. apply keeps_refl, (ok_inv _ _ (vk_store _ _ _ Hok)). }
  apply list.Forall_cons in Hus as [Hu Hus].
  apply m_bind_inv in Hr as [(a & [V1 w1] & Ha & Hr)|(e & Ha & ->)]; destruct (read_ct_keeps _ _ _ _ _ _ _ Hok Hu Ha) as [-> Hk]; [|done].
  destruct a as [[? d]|]; [by injection Hr as <- <- <-|].
  destruct (IH _ _ _ _ (ok_world _ _ _ _ Hok (keeps_all _ _ _ Hk)) Hus Hr) as [-> Hk']. split; [done|]. by eapply keeps_trans.
Qed.

Lemma first_ciphertext_keeps L V w r V' w' :
  volume_ok L V w → first_ciphertext_unit (V, w) = (r, (V', w')) → V' = V ∧ keeps (λ _, True) w w'.
Proof.
  intros Hok Hr. unfold first_ciphertext_unit in Hr. change (get_state (V, w)) with (@Ok CoreError _ V, (V, w)) in Hr.
  apply m_bind_inv in Hr as [(v & [V1 w1] & [= <- <- <-] & Hr)|(e & [=] & _)].
  destruct (if supports_discard V then _ else _) as [u|] eqn:Hu.
  - assert (device (vo_store V) u) as Hd.
    { assert (∃ e, Overlay.units (vo_overlay V) !! u = Some e) as [e He].
      { destruct (supports_discard V).
        - apply head_Some_elem_of, list_elem_of_omap in Hu as ([u' e] & He%BTreeMap.elem_of_entries & Hx).
          destruct (bool_decide _); [done|]. injection Hx as ->. by exists e.
        - unfold Overlay.first_unit in Hu. apply fmap_Some in Hu as ([u' e] & Hf & ->). exists e. by apply BTreeMap.first_key_value_some in Hf as [? _]. }
      apply (uf_unit _ _ _ _ (oo_units _ _ _ _ (vk_overlay _ _ _ Hok) u e He)). }
    apply m_bind_inv in Hr as [(a & [V1 w1] & Ha & Hr)|(e & Ha & ->)]; destruct (read_ct_keeps _ _ _ _ _ _ _ Hok Hd Ha) as [-> Hk]; [|done].
    by injection Hr as <- <- <-.
  - eapply first_readable_keeps; [done| |done]. apply list.Forall_forall. intros u. exact (allocated_device _ _ u (vk_store _ _ _ Hok)).
Qed.

(** ** Verification *)

Abbreviation plain_of sb :=
  (canary_plaintext (Superblock.volume_uuid sb) (Z.to_nat (crypto_unit_size (Superblock.geometry sb)))).

(** The provider has just proved its key on a canary of the volume. *)
Definition proved (context : CryptoContext) (sb : Superblock) (c' : CheckedProvider (P := P)) (canary : KeyCanary) : Prop :=
  Canary.volume_uuid canary = Superblock.volume_uuid sb ∧ ∃ c, reads_canary context sb canary c c'.

(** And the canary is durable. *)
Definition bound_to (context : CryptoContext) (sb : Superblock) (c' : CheckedProvider (P := P)) (w' : W) (canary : KeyCanary) : Prop :=
  Canary.volume_uuid canary = Superblock.volume_uuid sb ∧ (∃ c, reads_canary context sb canary c c') ∧
  AbStore.settled canary_store w' canary.

(** A call that has failed before it wrote. *)
Ltac unchanged := split; [done|]; split; [by apply keeps_refl|]; first [done|by split|split; [done|]; split; [by right|by split]].

Lemma check_canary_run context sb canary c V w r c' V' w' :
  canary_ok canary → inv w →
  check_canary context (Superblock.volume_uuid sb) (plain_of sb) canary (c, (V, w)) = (r, (c', (V', w'))) →
  V' = V ∧ elsewhere w w' ∧
  (r = Ok tt → ∃ c1, reads_canary context sb canary c c1) ∧
  ((∃ c1, reads_canary context sb canary c c1) ∨ w' = w) ∧
  (r = Ok tt → proved context sb c' canary) ∧
  (r = Ok tt → storable (T := KeyCanary) canary_store w → ∃ g, bound_to context sb c' w' (set_generation g canary)).
Proof.
  intros Hwf Hi. unfold check_canary. destruct (bytes_eqb _ _) eqn:Hu; cbn [negb];
    [|intros [= <- <- <- <-]; unchanged].
  apply bytes_eqb_eq in Hu. intros [(d & [c1 [V1 w1]] & Hd & Hr)|(e & Hd & ->)]%m_bind_inv;
    destruct (decrypt_probe_inv _ _ _ _ _ _ _ _ _ Hd) as (-> & -> & Ho);
    [|unchanged].
  destruct (bytes_eqb d _) eqn:Hp; cbn [negb] in Hr;
    [|injection Hr as <- <- <- <-; unchanged].
  apply bytes_eqb_eq in Hp as ->. destruct (Ho _ eq_refl) as (pt & rest & Hdec & Hpt).
  assert (reads_canary context sb canary c c1) as Hrd by (by exists pt, rest).
  destruct (persist_keeps _ _ _ _ _ _ _ _ (canary_ok_writable _ Hwf) Hi Hr) as (-> & -> & Hk).
  split; [done|]. split; [done|]. split; [eauto|]. split; [eauto|]. split; [by split; [|exists c]|].
  intros -> Hst. destruct (persist_settles _ _ _ _ _ _ _ Hwf Hi Hst Hr) as [g Hs]. exists g. split; [done|]. split; [by exists c|done].
Qed.

Lemma establish_run n context sb c V w r c' V' w' :
  inv w → length (Superblock.volume_uuid sb) = 16%nat → n ≤ U32_MAX → answers_within n c →
  establish_canary context (Superblock.volume_uuid sb) (plain_of sb) (c, (V, w)) = (r, (c', (V', w'))) →
  V' = V ∧ elsewhere w w' ∧ (r = Ok tt → ∃ canary, proved context sb c' canary) ∧
  (r = Ok tt → n ≤ MAX_CANARY_CIPHERTEXT → storable (T := KeyCanary) canary_store w → ∃ canary, bound_to context sb c' w' canary).
Proof.
  intros Hi Hl Hn Hc. unfold establish_canary.
  intros [(r0 & [c0 [V0 w0]] & (r1 & Hr1 & [= ->])%m_try_inv & Hr)|(e & (? & _ & [=])%m_try_inv & _)]%m_bind_inv.
  apply at_provider_inv in Hr1 as (-> & -> & Henc).
  apply m_bind_inv in Hr as [(cts & [c1 [V1 w1]] & [= Hcts <- <- <-] & Hr)|(e & [= _ <- <- <-] & ->)];
    [|unchanged].
  destruct r1 as [out|]; [|done]. injection Hcts as <-. destruct (encrypt_within _ _ _ _ _ _ Hc Henc) as [Hlen _].
  destruct out as [|ct out]; [injection Hr as <- <- <- <-; unchanged|].
  apply Forall_inv in Hlen. apply m_bind_inv in Hr as [(d & [c1 [V1 w1]] & Hd & Hr)|(e & Hd & ->)];
    destruct (decrypt_probe_inv _ _ _ _ _ _ _ _ _ Hd) as (-> & -> & Ho);
    [|unchanged].
  destruct (bytes_eqb d _) eqn:Hp; cbn [negb] in Hr;
    [|injection Hr as <- <- <- <-; unchanged].
  apply bytes_eqb_eq in Hp as ->. destruct (Ho _ eq_refl) as (pt & rest & Hdec & Hpt).
  set (record := mkKeyCanary 0 (Superblock.volume_uuid sb) CANARY_UNIT_INDEX (cu_data ct)) in *.
  assert (canary_writable record) as Hwr by (split; [done|]; split; [done|]; cbn; lia).
  destruct (persist_keeps _ _ _ _ _ _ _ _ Hwr Hi Hr) as (-> & -> & Hk). split; [done|]. split; [done|].
  split; [intros _; exists record; by split; [|exists c0, pt, rest]|]. intros -> Hmax Hst.
  assert (canary_ok record) as Hwf by (split; [by vm_compute|]; split; [done|]; split; [by vm_compute|]; cbn; lia).
  destruct (persist_settles _ _ _ _ _ _ _ Hwf Hi Hst Hr) as [g Hs]. exists (set_generation g record).
  split; [done|]. split; [by exists c0, pt, rest|done].
Qed.

Lemma contract_bound L V w : volume_ok L V w →
  max_ciphertext_size (vgeom V) ≤ U32_MAX ∧ max_ciphertext_size (vgeom V) ≤ MAX_CANARY_CIPHERTEXT.
Proof.
  intros Hok. pose proof (gwf_ct _ (ok_geometry _ _ (vk_store _ _ _ Hok))) as [_ Hm].
  change MAX_CANARY_CIPHERTEXT with MAX_PAYLOAD. unfold vgeom. change MAX_PAYLOAD with 16777216 in *. unfold U32_MAX. lia.
Qed.

(** The probe keeps everything but the provider. *)
Lemma probe_data_run L V w context has c r c' V' w' n :
  volume_ok L V w → answers_within n c → probe_data context has (c, (V, w)) = (r, (c', (V', w'))) →
  V' = V ∧ keeps (λ _, True) w w' ∧ (r = Ok tt → answers_within n c').
Proof.
  intros Hok Hc. pose proof (ok_inv _ _ (vk_store _ _ _ Hok)) as Hi. unfold probe_data.
  destruct has; cbn [negb]; [|intros [= <- <- <- <-]; unchanged].
  intros [(o & [c1 [V1 w1]] & Ho & Hr)|(e & Ho & ->)]%m_bind_inv; apply at_volume_inv in Ho as (-> & r0 & Hf & _);
    destruct (first_ciphertext_keeps _ _ _ _ _ _ Hok Hf) as [-> Hk]; [|done].
  destruct o as [[u d]|]; [|by injection Hr as <- <- <- <-].
  apply m_bind_inv in Hr as [(x & [c2 [V2 w2]] & Hd & [= <- <- <- <-])|(e & Hd & ->)];
    destruct (decrypt_probe_inv _ _ _ _ _ _ _ _ _ Hd) as (-> & -> & Hx); [|done].
  split; [done|]. split; [done|]. intros _. destruct (Hx _ eq_refl) as (pt & rest & Hdec & _). by eapply decrypt_within.
Qed.

(** Any verification changes at most the canary's files. *)
Lemma verify_run n L V w context has c r c' V' w' :
  let sb := vo_superblock V in
  volume_ok L V w → length (Superblock.volume_uuid sb) = 16%nat → n ≤ U32_MAX → answers_within n c →
  verify_key_canary context has (c, (V, w)) = (r, (c', (V', w'))) →
  V' = V ∧ elsewhere w w' ∧ (r = Ok tt → ∃ canary, proved context sb c' canary) ∧
  (r = Ok tt → n ≤ MAX_CANARY_CIPHERTEXT → storable (T := KeyCanary) canary_store w → ∃ canary, bound_to context sb c' w' canary).
Proof.
  intros sb Hok Hl Hn Hc. pose proof (ok_inv _ _ (vk_store _ _ _ Hok)) as Hi.
  unfold verify_key_canary. intros [(v & s0 & [= <- <-] & Hr)|(e & [=] & _)]%m_bind_inv.
  apply m_bind_inv in Hr as [(o & [c1 [V1 w1]] & Ho & Hr)|(e & Ho & ->)];
    destruct (loaded_canary _ _ _ _ _ _ _ Hi Ho) as (-> & -> & Hk & Hsome); [|by split; [|split; [apply keeps_all|]]].
  pose proof (keeps_inv _ _ _ Hk) as Hi1.
  pose proof (storable_keeps _ _ Hk) as Hst.
  destruct o as [canary|].
  - destruct (Hsome _ eq_refl) as [Hwf _]. fold sb in Hr.
    destruct (check_canary_run _ _ _ _ _ _ _ _ _ _ Hwf Hi1 Hr) as (-> & Hk' & _ & _ & Hpr & Hb).
    split; [done|]. split; [by eapply keeps_trans; [apply keeps_all|]|]. split; [eauto|].
    intros -> _ Hs. destruct (Hb eq_refl (Hst Hs)) as [g Hg]. eauto.
  - apply m_bind_inv in Hr as [([] & [c2 [V2 w2]] & Hp & Hr)|(e & Hp & ->)];
      (assert (V2 = V ∧ keeps (λ _, True) w1 w2 ∧ answers_within n c2) as (-> & Hk2 & Hc2) ||
       assert (V' = V ∧ keeps (λ _, True) w1 w') as (-> & Hk2)).
    { destruct (is_pristine V); cbn [negb m_when] in Hp; [by injection Hp as <- <- <-; split; [|split; [apply keeps_refl|]]|].
      destruct (probe_data_run _ _ _ _ _ _ _ _ _ _ _ (ok_world _ _ _ _ Hok (keeps_all _ _ _ Hk)) Hc Hp) as (-> & ? & Hok'). auto. }
    + pose proof (keeps_inv _ _ _ Hk2) as Hi2. destruct (establish_run _ _ _ _ _ _ _ _ _ _ Hi2 Hl Hn Hc2 Hr) as (-> & Hk3 & Hpr & Hb).
      split; [done|]. split; [eapply keeps_trans; [apply keeps_all, Hk|]; by eapply keeps_trans; [apply keeps_all|]|].
      split; [done|]. intros -> Hm Hs. apply Hb; [done|done|]. exact (storable_keeps _ _ Hk2 (Hst Hs)).
    + destruct (is_pristine V); cbn [negb m_when] in Hp; [done|].
      destruct (probe_data_run _ _ _ _ _ _ _ _ _ _ _ (ok_world _ _ _ _ Hok (keeps_all _ _ _ Hk)) Hc Hp) as (-> & ? & _). auto.
    + split; [done|]. split; [by eapply keeps_trans; apply keeps_all|done].
Qed.

(** A verification after the canary has been settled. *)
Lemma settled_verify context has canary c V w r c' V' w' :
  let sb := vo_superblock V in
  AbStore.settled canary_store w canary → verify_key_canary context has (c, (V, w)) = (r, (c', (V', w'))) →
  V' = V ∧ elsewhere w w' ∧ (r = Ok tt → ∃ c1, reads_canary context sb canary c c1) ∧
  ((∃ c1, reads_canary context sb canary c c1) ∨ keeps (λ _, True) w w').
Proof.
  intros sb Hs Hr. pose proof (proj1 Hs) as Hi. unfold verify_key_canary in Hr.
  apply m_bind_inv in Hr as [(v & s0 & [= <- <-] & Hr)|(e & [=] & _)].
  apply m_bind_inv in Hr as [(o & [c1 [V1 w1]] & Ho & Hr)|(e & Ho & ->)];
    destruct (loaded_canary _ _ _ _ _ _ _ Hi Ho) as (-> & -> & Hk & Hsome);
    [|split; [done|]; split; [by apply keeps_all|]; split; [done|by right]].
  apply at_world_inv in Ho as (_ & _ & [o'|] & Hl & [= ->]).
  rewrite (settled_selects _ _ _ _ _ canary_store_ok Hs Hl) in *. destruct (Hsome _ eq_refl) as [Hwf _]. fold sb in Hr.
  destruct (check_canary_run _ _ _ _ _ _ _ _ _ _ Hwf (keeps_inv _ _ _ Hk) Hr) as (-> & Hk' & Hok & Hor & _ & _).
  split; [done|]. split; [by eapply keeps_trans; [apply keeps_all|]|]. split; [done|]. destruct Hor as [?| ->]; auto.
Qed.

(** ** Attaching *)

Lemma attach_recovered_inv options c V w cf c' V' w' :
  attach_recovered options (c, (V, w)) = (Ok cf, (c', (V', w'))) →
  let sb := vo_superblock V in
  ∃ caps p p2, capabilities (ck_inner c) = (Ok caps, p) ∧
    provider_self_test (context_of sb) (Z.to_nat (crypto_unit_size (Superblock.geometry sb))) (crypto_compatibility_id sb) p = (Ok tt, p2) ∧
    caps_max_ciphertext caps ≤ max_ciphertext_size (Superblock.geometry sb) ∧
    num_units (Superblock.geometry sb) ≤ CANARY_UNIT_INDEX ∧
    max_record_len (max_ciphertext_size (Superblock.geometry sb)) ≤ max_pending_bytes (eo_checkpoint options) ∧
    verify_key_canary (context_of sb) (present (integrity caps))
      (checked_pinned p2 (crypto_unit_size (Superblock.geometry sb)), (V, w)) = (Ok tt, (c', (V', w'))) ∧
    cf = config_of options V caps.
Proof.
  intros Hr sb. unfold attach_recovered in Hr. apply m_bind_ok in Hr as (v & s0 & [= <- <-] & Hr). fold sb in Hr.
  destruct (Z.ltb_spec (max_pending_bytes (eo_checkpoint options)) (max_record_len (max_ciphertext_size (Superblock.geometry sb)))); [done|].
  destruct (negb (identity_ok _ _)); [done|].
  destruct (Z.ltb_spec CANARY_UNIT_INDEX (num_units (Superblock.geometry sb))); [done|]. destruct (_ || _); [done|].
  apply m_bind_ok in Hr as (r1 & [c1 [V1 w1]] & (r1' & (-> & -> & H1')%at_provider_inv & [= ->])%m_try_inv & Hr).
  apply m_bind_ok in Hr as (caps & s1 & [= Hcaps <-] & Hr). destruct r1' as [caps'|]; [|done]. injection Hcaps as ->.
  destruct (Z.ltb_spec (max_ciphertext_size (Superblock.geometry sb)) (caps_max_ciphertext caps)); [done|].
  apply m_bind_ok in Hr as (r2 & [c2 [V2 w2]] & (r2' & (-> & -> & H2')%at_provider_inv & [= ->])%m_try_inv & Hr).
  apply m_bind_ok in Hr as (u & s2 & [= Hst <-] & Hr). destruct r2' as [[]|]; [|done].
  apply m_bind_ok in Hr as (u' & s3 & [= <- <-] & Hr). apply m_bind_ok in Hr as ([] & s4 & Hv & [= <- ->]).
  unfold on_inner in H1', H2'. destruct (capabilities (ck_inner c)) as [x1 p1] eqn:Hc1. injection H1' as -> <-.
  cbn [ck_inner ck_caps ck_unit_size] in H2'. destruct (provider_self_test _ _ _ p1) as [x2 p2] eqn:Hc2. injection H2' as -> <-.
  exists caps, p1, p2. done.
Qed.

Lemma pinned_within p us :
  (∀ (p : P) caps q, capabilities p = (Ok caps, q) → u32_ok (caps_max_ciphertext caps)) → answers_within U32_MAX (checked_pinned p us).
Proof.
  intros Hc caps c' Hr. destruct (checked_caps_run _ _ _ Hr) as (_ & _ & [[[=] _]|[_ Hq]]). specialize (Hc _ _ _ Hq).
  unfold u32_ok, U32_MAX in *. lia.
Qed.

Lemma elsewhere_ok L V w w' : volume_ok L V w → elsewhere w w' → volume_ok L V w' ∧ same_views none V w V w'.
Proof.
  intros Hok Hk. assert (keeps (λ q, owned q ∨ data_file q) w w') as Hk'.
  { eapply keeps_weaken; [|exact Hk]. intros q Hq Hs. by apply (canary_apart q). }
  split; [by eapply ok_world|]. apply later_same; [|done]. apply later_world. eapply keeps_weaken; [|exact Hk']. by right.
Qed.

(** C6. The canary binds the volume to its key.  A verification that succeeds
    leaves the volume and what it shows as they were, and a canary of this
    volume that the provider has just decrypted to the known plaintext is
    durable.  After that, whatever else happens to other files and whatever
    a crash loses, a verification of the volume succeeds only with a provider
    that decrypts this canary to the known plaintext, and one that does not
    changes no file. *)
Theorem canary_binds_key L V w context has c c' V' w' :
  let sb := vo_superblock V in
  volume_ok L V w → length (Superblock.volume_uuid sb) = 16%nat → storable (T := KeyCanary) canary_store w →
  answers_within (max_ciphertext_size (vgeom V)) c →
  verify_key_canary context has (c, (V, w)) = (Ok tt, (c', (V', w'))) →
  V' = V ∧ volume_ok L V w' ∧ same_views none V w V w' ∧
  ∃ canary, bound_to context sb c' w' canary ∧
    ∀ w1 w2 context2 has2 c2 V2 r c3 V3 w3,
      keeps (is_side canary_store) w' w1 → rtc crashes w1 w2 → vo_superblock V2 = sb →
      verify_key_canary context2 has2 (c2, (V2, w2)) = (r, (c3, (V3, w3))) →
      V3 = V2 ∧ (r = Ok tt → ∃ c4, reads_canary context2 sb canary c2 c4) ∧
      ((∃ c4, reads_canary context2 sb canary c2 c4) ∨ keeps (λ _, True) w2 w3).
Proof.
  intros sb Hok Hl Hst Hc Hr. destruct (contract_bound _ _ _ Hok) as [Hn Hm].
  destruct (verify_run _ _ _ _ _ _ _ _ _ _ _ Hok Hl Hn Hc Hr) as (-> & Hk & _ & Hb).
  destruct (elsewhere_ok _ _ _ _ Hok Hk) as [Hok' Hs]. destruct (Hb eq_refl Hm Hst) as [canary Hcan].
  split; [done|]. split; [done|]. split; [done|]. exists canary. split; [done|].
  intros w1 w2 context2 has2 c2 V2 r c3 V3 w3 Hk1 Hcr Hsb Hv. destruct Hcan as (_ & _ & Hse).
  apply (keeps_settled (is_side canary_store) canary_store (λ _ H, H) _ _ _ Hk1) in Hse.
  assert (AbStore.settled canary_store w2 canary) as Hse2.
  { clear -Hse Hcr. induction Hcr as [|x y z Hxy _ IH]; [done|]. apply IH. by eapply settled_crash. }
  destruct (settled_verify _ _ _ _ _ _ _ _ _ _ Hse2 Hv) as (-> & _ & Hrd & Hor). rewrite Hsb in *. done.
Qed.


(** ** The device of a recovered volume *)

Definition shown V w u : SlotRead := match vol_view V w u with Ok x => x | Err _ => SlotZero end.

(** What the volume shows, and the plaintexts of its versions. *)
Definition volume_abstract V w : abstract :=
  mkAbstract (list_to_map ((λ u, (u, shown V w u)) <$> seqZ 0 (num_units (vgeom V)))) (journal_appended_sequence V).

Definition volume_known V w (D : device_state) : gmap (Z * Z) bytes :=
  list_to_map (omap (λ u, match shown V w u with SlotCiphertext n _ => Some ((u, n), D u) | SlotZero => None end)
    (seqZ 0 (num_units (vgeom V)))).

Lemma abstract_lookup V w u x :
  a_units (volume_abstract V w) !! u = Some x ↔ 0 ≤ u < num_units (vgeom V) ∧ x = shown V w u.
Proof.
  cbn. split.
  - intros (v & [= -> ->] & Hv)%elem_of_list_to_map_2%list_elem_of_fmap. apply elem_of_seqZ in Hv. split; [lia|done].
  - intros [Hu ->]. apply elem_of_list_to_map_1'.
    + by intros y (v & [= -> ->] & _)%list_elem_of_fmap.
    + apply list_elem_of_fmap. exists u. split; [done|]. apply elem_of_seqZ. lia.
Qed.

Lemma known_lookup V w D u n d :
  volume_known V w D !! (u, n) = Some d ↔ 0 ≤ u < num_units (vgeom V) ∧ d = D u ∧ ∃ ct, shown V w u = SlotCiphertext n ct.
Proof.
  unfold volume_known. split.
  - intros (v & Hv%elem_of_seqZ & Hs)%elem_of_list_to_map_2%list_elem_of_omap.
    destruct (shown V w v) as [|m ct] eqn:He; [done|]. injection Hs as -> -> ->. split; [lia|]. split; [done|by exists ct].
  - intros (Hu & -> & ct & Hs). apply elem_of_list_to_map_1'.
    + intros y (v & _ & Hv)%list_elem_of_omap. destruct (shown V w v); [done|]. by injection Hv as -> _ ->.
    + apply list_elem_of_omap. exists u. split; [apply elem_of_seqZ; lia|]. by rewrite Hs.
Qed.

(** [D] is the plaintext of what the volume holds: every unit is settled and
    reads as zeros or as a version the journal has numbered, which the
    provider's cipher ties to the unit's plaintext. *)
Definition device_of cf `{!CipherLaws P (cf_context cf)} V w (D : device_state) : Prop :=
  ∀ u, on_device cf u → vol_steady V w u ∧ ∃ x, vol_view V w u = Ok x ∧
    match x with
    | SlotZero => D u = zeros (unit_size cf)
    | SlotCiphertext n ct => n ≤ journal_appended_sequence V ∧ ciphers u ct (D u) ∧ blen (D u) = unit_size cf
    end.

Lemma device_opened cf `{!CipherLaws P (cf_context cf)} V w D :
  vgeom V = cf_geometry cf → 0 ≤ unit_size cf → device_of cf V w D →
  shows (volume_abstract V w) V w ∧ content cf (volume_known V w D) (volume_abstract V w) D.
Proof.
  intros Hg Hus HD. assert (∀ u, 0 ≤ u < num_units (vgeom V) → on_device cf u) as Hon by (intros u; unfold on_device; by rewrite Hg).
  assert (∀ u, on_device cf u → vol_view V w u = Ok (shown V w u)) as Hsh.
  { intros u Hu. destruct (HD u Hu) as (_ & x & Hx & _). unfold shown. by rewrite Hx. }
  split.
  - split; [done|]. intros u x [Hu ->]%abstract_lookup. split; [exact Hu|]. split; [by apply Hsh, Hon|]. by apply (HD u), Hon.
  - split.
    + intros u Hu. exists (shown V w u). split; [apply abstract_lookup; unfold on_device in Hu; by rewrite Hg|].
      destruct (HD u Hu) as (_ & x & Hx & Hm). rewrite (Hsh u Hu) in Hx. injection Hx as Hx. unfold represents. rewrite Hx.
      destruct x as [|n ct]; [done|]. split; [|apply Hm]. apply known_lookup. unfold on_device in Hu. rewrite Hg. eauto.
    + intros u Hu. destruct (HD u Hu) as (_ & x & _ & Hm). destruct x; [rewrite Hm; apply length_replicate|]. unfold blen in Hm. lia.
    + intros u n d (Hu & _ & ct & Hs)%known_lookup. destruct (HD u (Hon u Hu)) as (_ & x & Hx & Hm).
      rewrite (Hsh u (Hon u Hu)), Hs in Hx. injection Hx as <-. apply Hm.
Qed.

(** C7. Attaching ends in a device that can serve.  Let [D] be the plaintext of
    what the recovered volume holds.  When the checks, the self-test and the
    canary have passed, the engine starts on exactly [D]: the volume is as
    recovered, the cache is empty, and configuration and volume agree, so
    that every concurrent run from here has [D] as the start of its history.
    It has room for one record under its pending bound, batches of at least
    one item and the volume's own context and geometry, and the provider has
    proved its key on a canary of this volume. *)
Theorem attach_ready L V w options (p : P) now free cf `{!CipherLaws P (cf_context cf)} c' V' w' D :
  let sb := vo_superblock V in
  volume_ok L V w → length (Superblock.volume_uuid sb) = 16%nat →
  (∀ p caps q, capabilities p = (Ok caps, q) → u32_ok (caps_max_ciphertext caps)) →
  attach_recovered options (checked_new p, (V, w)) = (Ok cf, (c', (V', w'))) →
  device_of cf V w D →
  (∃ known a, opened cf known a D (engine_of options now free (c', (V', w'))) ∧ a_last a = journal_appended_sequence V) ∧
  cf_context cf = context_of sb ∧ geometry_wf (cf_geometry cf) ∧ 1 ≤ cf_batch_max_items cf ∧
  num_units (cf_geometry cf) ≤ CANARY_UNIT_INDEX ∧
  max_record_len (max_ciphertext_size (cf_geometry cf)) ≤ max_pending_bytes (cf_policy cf) ∧
  ∃ canary, proved (context_of sb) sb c' canary.
Proof.
  intros sb Hok Hl Hcaps Hr HD.
  destruct (attach_recovered_inv _ _ _ _ _ _ _ _ Hr) as (caps & p1 & p2 & _ & _ & _ & Hcan & Hpend & Hv & ->). fold sb in Hv, Hcan, Hpend.
  pose proof (vk_geometry _ _ _ Hok) as Hg. fold sb in Hg. pose proof (ok_geometry _ _ (vk_store _ _ _ Hok)) as Hwf.
  assert (answers_within U32_MAX (checked_pinned p2 (crypto_unit_size (Superblock.geometry sb)))) as Hw by (by apply pinned_within).
  destruct (verify_run _ _ _ _ _ _ _ _ _ _ _ Hok Hl (Z.le_refl _) Hw Hv) as (-> & Hk & Hpr & _). destruct (elsewhere_ok _ _ _ _ Hok Hk) as [Hok' Hs].
  destruct (device_opened (config_of options V caps) V w D (eq_sym Hg)) as [Hsh Hco]; [|done|].
  { change (0 ≤ crypto_unit_size (Superblock.geometry sb)). rewrite Hg. pose proof (gwf_unit _ Hwf). pose proof (gwf_block _ Hwf). unfold vgeom. lia. }
  split; [|split; [done|split; [change (geometry_wf (Superblock.geometry sb)); by rewrite Hg|split; [|by split; [|split; [|apply Hpr]]]]]].
  - eexists _, (volume_abstract V w). split; [|done]. split; [|exact Hco|].
    + split; [by exists L|eapply shows_same; [done|lia|done|done]|done|done].
    + intros u en (x & Hx & He). cbn in Hx. destruct (eo_cache options); [|done]. injection Hx as <-. cbn in He. by rewrite lookup_empty in He.
  - cbn. destruct (bt_supported _); lia.
Qed.
End AttachProofs.
