(* ===== verification/EngineAttachSample.v ===== *)
(** * EngineAttachSample: attaching the small volume

    A volume with one written unit is attached with a masking provider: the
    self-test passes, the canary is written and the engine opens on the
    plaintext.  After a loss of power the same key verifies and another one
    is refused. *)

From S2P Require Import Prelude BTreeMap Codec Layout Geometry AbRecord Metadata Superblock JournalFormat Backing Provider CrashBacking AbStore FixedCopy DurableProof JournalWriter JournalProof JournalDurability RecoveryScan Volumes JournalScan SlotStore Recovery StoreData StoreProof StoreReads StoreOpen StoreRuns Overlay Volume VolumeState VolumeOps VolumeCheckpoint VolumeRuns Cache Tasks Engine EngineBytes EngineProof EngineRuns EngineSample SelfTest EngineAttach.
Import Store Volume Engine.
Import (hints) Metadata.Catalog Metadata.Allocation Metadata.Checkpoint Metadata.Canary.

Local Open Scope Z_scope.

Module EngineAttachSample.
#[local] Existing Instance Ieee.ieee.
Import JournalSample StoreSample VolumeRunSample EngineSample.

(** The key is the provider's state: with [true] the bytes are masked, with
    [false] they are masked and reversed. *)
Definition seal (key : bool) (d : bytes) : bytes := if key then List.map mask d else rev (List.map mask d).
Definition unseal (key : bool) (c : bytes) : bytes := if key then List.map mask c else List.map mask (rev c).

Definition xts_caps : CryptoCapabilities :=
  mkCapabilities [] (crypto_compatibility_id sb) [512] 512 true true (mkBatchCapability true 2 4096) Absent Absent Absent.

#[export] Instance keyed : CryptoProvider bool := {|
  capabilities := λ k, (Ok xts_caps, k);
  encrypt_batch := λ _ items k, (Ok (List.map (λ it, mkCiphertextUnit (pu_index it) (seal k (pu_data it))) items), k);
  decrypt_batch := λ _ items k, (Ok (List.map (λ ct, mkPlaintextUnit (cu_index ct) (unseal k (cu_data ct))) items), k)
|}.

(** The provider of one key. *)
Inductive Masker : Set := masker.

#[export] Instance one_key : CryptoProvider Masker := {|
  capabilities := λ k, (Ok xts_caps, k);
  encrypt_batch := λ _ items k, (Ok (List.map (λ it, mkCiphertextUnit (pu_index it) (seal true (pu_data it))) items), k);
  decrypt_batch := λ _ items k, (Ok (List.map (λ ct, mkPlaintextUnit (cu_index ct) (unseal true (cu_data ct))) items), k)
|}.

#[export] Instance one_key_laws context : CipherLaws Masker context.
Proof.
  refine (Build_CipherLaws Masker _ _ (λ _ c d, c = List.map mask d) _ _).
  - intros its p out p' [= <- <-] _. induction its as [|it its IH]; constructor; done.
  - intros cts p out p' d [= <- <-] _. induction cts as [|ct cts IH]; constructor; [|done].
    cbn. intros ->. rewrite List.map_map. rewrite (List.map_ext _ id); [apply List.map_id|]. intros b. apply mask_mask.
Defined.

Definition options : EngineOptions :=
  mkEngineOptions (mkVolumeOptions 4096) (mkEngineLimits 64 4096 4096 0 0)
    (Some (mkCacheConfig 4096 1000 false)) None (mkCheckpointPolicy 65536 65536 4096 0 0 1000).

Definition ctx : CryptoContext := context_of sb.

Abbreviation VW := (Volume.Volume (F := CrashFile) (HT := bytes) * Inner)%type.

Definition first_key : result AttachError unit * (CheckedProvider (P := bool) * VW) :=
  verify_key_canary ctx false (checked_pinned true 512, (v0, st0.2)).
Definition lost : Inner := crash_all_lost first_key.2.2.2.
Definition again (key : bool) : result AttachError unit * (CheckedProvider (P := bool) * VW) :=
  verify_key_canary ctx false (checked_pinned key 512, (v0, lost)).

(** After the first key's canary the second unit is written, and the volume
    is attached. *)
Definition written : result CoreError Z * VW := append_and_publish 1 (List.map mask data) true (v0, first_key.2.2.2).
Definition att : result AttachError EngineConfig * (CheckedProvider (P := Masker) * VW) :=
  attach_recovered options (checked_new masker, (written.2.1, written.2.2)).
Definition written_device : device_state := λ u, if u =? 1 then data else zeros 512.

Definition is_mismatch (r : result AttachError unit) : bool := match r with Err KeyMismatch => true | _ => false end.

Definition canary_outcomes : list bool := [
  bool_decide (names st0.2 !! KEY_CANARY_B = None); is_ok att.1; is_ok first_key.1; is_ok (again true).1; is_mismatch (again false).1;
  is_ok written.1].

Lemma canary_outcomes_true : forallb id canary_outcomes = true.
Proof. vm_compute. reflexivity. Qed.

Lemma canary_outcome i b : canary_outcomes !! i = Some b → b = true.
Proof.
  intros Hb. pose proof canary_outcomes_true as Ha. rewrite forallb_forall in Ha. apply Ha, list_elem_of_In.
  by eapply list_elem_of_lookup_2.
Qed.

Lemma no_canary : storable (T := Canary.KeyCanary) canary_store st0.2.
Proof. right. right. exact (proj1 (bool_decide_eq_true _) (canary_outcome 0 _ eq_refl)). Qed.

Definition cf0 : EngineConfig := config_of options v0 xts_caps.

Lemma ok_parts {E A B C D} (x : result E A * (B * (C * D))) :
  is_ok x.1 = true → ∃ a, x = (Ok a, (x.2.1, (x.2.2.1, x.2.2.2))).
Proof. destruct x as [[a|e] [b [c d]]]; [by exists a|done]. Qed.

Lemma ok_pair {E A B C} (x : result E A * (B * C)) : is_ok x.1 = true → ∃ a, x = (Ok a, (x.2.1, x.2.2)).
Proof. destruct x as [[a|e] [b c]]; [by exists a|done]. Qed.

Lemma first_ran : first_key = (Ok tt, (first_key.2.1, (first_key.2.2.1, first_key.2.2.2))).
Proof. destruct (ok_parts first_key (canary_outcome 2 _ eq_refl)) as [[] Ha]. exact Ha. Qed.

Lemma first_run : verify_key_canary ctx false (checked_pinned true 512, (v0, st0.2)) = (Ok tt, (first_key.2.1, (first_key.2.2.1, first_key.2.2.2))).
Proof. exact first_ran. Qed.

Lemma caps_within : answers_within (max_ciphertext_size g) (checked_pinned true 512).
Proof. intros caps c' [= <- _]. by vm_compute. Qed.

Lemma sealed_ok : volume_ok (λ _, []) v0 first_key.2.2.2 ∧ same_views none v0 st0.2 v0 first_key.2.2.2.
Proof.
  assert (max_ciphertext_size g ≤ U32_MAX) as Hn by (clear; by vm_compute).
  destruct (verify_run _ _ _ _ _ _ _ _ _ _ _ sys0_volume eq_refl Hn caps_within first_run) as (_ & Hk & _).
  exact (elsewhere_ok _ _ _ _ sys0_volume Hk).
Qed.

Lemma unit_on_device : device st0.1 1.
Proof. unfold device. rewrite store_geometry. by vm_compute. Qed.

Lemma data_fits : blen (List.map mask data) ≤ max_ciphertext_size (st_geometry st0.1).
Proof. rewrite store_geometry. by vm_compute. Qed.

Lemma written_ok : ∃ L, volume_ok L written.2.1 written.2.2 ∧ later none v0 first_key.2.2.2 written.2.1 written.2.2 ∧
  ∃ n, VolumeOps.published v0 written.2.1 1 (List.map mask data) (Ok n).
Proof.
  destruct (ok_pair written (canary_outcome 5 _ eq_refl)) as [n Hw].
  destruct (append_publish_ok _ v0 first_key.2.2.2 1 (List.map mask data) true _ _ _ (proj1 sealed_ok) unit_on_device data_fits Hw) as (L & Hok & Hl & Hp).
  exists L. split; [exact Hok|]. split; [exact Hl|]. exists n. exact Hp.
Qed.

#[global] Opaque written.

Lemma att_ran : att = (Ok cf0, (att.2.1, (att.2.2.1, att.2.2.2))).
Proof.
  destruct (ok_parts att (canary_outcome 1 _ eq_refl)) as [cf Ha]. etrans; [exact Ha|]. f_equal. f_equal.
  destruct (attach_recovered_inv _ _ _ _ _ _ _ _ Ha) as (caps & p & p2 & [= <- _] & _ & _ & _ & _ & _ & ->).
  destruct written_ok as (L & _ & Hl & _). unfold cf0, config_of. by rewrite (la_superblock _ _ _ _ _ Hl).
Qed.

Lemma att_run : attach_recovered options (checked_new masker, (written.2.1, written.2.2)) = (Ok cf0, (att.2.1, (att.2.2.1, att.2.2.2))).
Proof. exact att_ran. Qed.

Lemma parts {A B C D} (x : A * (B * (C * D))) : x = (x.1, (x.2.1, (x.2.2.1, x.2.2.2))).
Proof. by destruct x as [? [? [? ?]]]. Qed.

Lemma again_run key : verify_key_canary ctx false (checked_pinned key 512, (v0, lost)) =
  ((again key).1, ((again key).2.1, ((again key).2.2.1, (again key).2.2.2))).
Proof. exact (parts (again key)). Qed.

Lemma power_lost : rtc crashes first_key.2.2.2 lost.
Proof. apply rtc_once. right. reflexivity. Qed.

#[global] Opaque att first_key lost again.

Lemma written_uuid : length (Superblock.volume_uuid (vo_superblock written.2.1)) = 16%nat.
Proof. destruct written_ok as (L & _ & Hl & _). rewrite (la_superblock _ _ _ _ _ Hl). reflexivity. Qed.

Lemma masker_caps (p : Masker) caps q : capabilities p = (Ok caps, q) → u32_ok (caps_max_ciphertext caps).
Proof. intros [= <- _]. by vm_compute. Qed.

Lemma written_version b : as_read b (Overlay.mkVersion 1 (List.map mask data)) = SlotCiphertext 1 (List.map mask data).
Proof. by destruct b. Qed.

Lemma written_holds : device_of cf0 written.2.1 written.2.2 written_device.
Proof.
  destruct written_ok as (L & Hok & Hl & n & Hpub & -> & Hv). intros u Hu.
  destruct (held_updates _ _ _ _ _ _ Hl Hpub Hv) as (Hs & Hx & Hst). unfold written_device.
  destruct (Z.eqb_spec u 1) as [->|Hne].
  - split; [exact Hst|]. eexists. split; [exact Hx|]. rewrite written_version. split; [|split; reflexivity].
    unfold Overlay.get in Hv. destruct (Overlay.units _ !! 1) as [e|] eqn:He in Hv; [|discriminate Hv].
    injection Hv as Hv. pose proof (uf_sequence _ _ _ _ (oo_units _ _ _ _ (vk_overlay _ _ _ Hok) _ _ He)) as Hle.
    rewrite Hv in Hle. exact Hle.
  - destruct blank_shows as [_ Hb]. destruct (Hb u SlotZero (blank_shown u Hu)) as (Hd & Hz & Hsz).
    destruct (proj2 sealed_ok u Hd (λ H, H) Hsz) as [Hz' Hsz'].
    destruct (Hs u Hd Hne Hsz') as [He Hst']. split; [exact Hst'|]. exists SlotZero. split; [exact (eq_trans He (eq_trans Hz' Hz))|reflexivity].
Qed.

End EngineAttachSample.

Import JournalSample StoreSample VolumeRunSample EngineSample EngineAttachSample.
#[local] Existing Instance Ieee.ieee.

(** The first key's canary after a loss of power: the same key is accepted,
    another one is not and nothing changes. *)
Lemma canary_binds_key_witness :
  is_ok (again true).1 = true ∧ is_mismatch (again false).1 = true ∧
  ∃ canary, bound_to ctx sb first_key.2.1 first_key.2.2.2 canary ∧
    ∀ key, (is_ok (again key).1 = true → ∃ c, reads_canary ctx sb canary (checked_pinned key 512) c).
Proof.
  split; [exact (canary_outcome 3 _ eq_refl)|]. split; [exact (canary_outcome 4 _ eq_refl)|].
  destruct (canary_binds_key (λ _, []) v0 st0.2 ctx false (checked_pinned true 512) _ _ _
    sys0_volume eq_refl no_canary caps_within first_run) as (_ & Hok & _ & canary & Hb & Hall).
  exists canary. split; [exact Hb|]. intros key Hk.
  destruct (Hall first_key.2.2.2 lost ctx false (checked_pinned key 512) v0 (again key).1 (again key).2.1 (again key).2.2.1 (again key).2.2.2)
    as (_ & Hr & _).
  - apply keeps_refl. exact (ok_inv _ _ (vk_store _ _ _ Hok)).
  - exact power_lost.
  - reflexivity.
  - exact (again_run key).
  - apply Hr. destruct ((again key).1) as [[]|]; [reflexivity|discriminate Hk].
Defined.

(** The written volume is attached: the device reads the plaintext in the
    written unit and zeros elsewhere. *)
Lemma attach_ready_witness :
  (∃ known a, EngineRuns.opened cf0 known a written_device (engine_of options 0 (Ok None) (att.2.1, (att.2.2.1, att.2.2.2)))) ∧
  written_device 1 = data ∧ ∃ canary, proved (context_of (vo_superblock written.2.1)) (vo_superblock written.2.1) att.2.1 canary.
Proof.
  destruct written_ok as (L & Hok & Hl & _).
  destruct (attach_ready L written.2.1 written.2.2 options masker 0 (Ok None) cf0 _ _ _ written_device
    Hok written_uuid masker_caps att_run written_holds) as ((known & a & Ho & _) & _ & _ & _ & _ & _ & Hc).
  split; [exists known, a; exact Ho|]. split; [reflexivity|exact Hc].
Defined.

(** Three units of 512 bytes: batches of the engine and of the self-test. *)
Lemma batches_admissible_witness :
  tiles 0 3 (batch_chunks cf0 [512; 512; 512]) ∧ batch_chunks cf0 [512; 512; 512] = [(0, 2); (2, 3)]%nat ∧
  Forall (admissible 2 4096 [512; 512; 512]) (batch_ranges xts_caps [512; 512; 512]).
Proof.
  destruct (batches_admissible [512; 512; 512] ltac:(repeat constructor; lia) ltac:(by vm_compute) cf0 xts_caps ltac:(by vm_compute)) as (Ht & _ & _ & Hf).
  split; [exact Ht|]. split; [reflexivity|exact Hf].
Defined.
